(* ===== verification/_CoqProject ===== *)
-Q . S2P
Prelude.v
Utf8.v
Grammar.v
Scanner.v
ScanUnicode.v
Lex.v
Validate.v
Compact.v
Indent.v
ValidFast.v
Hamt.v
Leases.v
Bytes.v
Page.v
StateRoot.v
FreeDirectory.v
Superblock.v
Device.v
IndexPool.v
Blocks.v
Committer.v
GroupCommit.v
WriteTx.v
StoreWrite.v
FreeNode.v
FreeTree.v
FreeTreeSteps.v
FreeTreeSpec.v
FreeTreeMutate.v
FreeTreeRefine.v
PageCache.v
PageCacheTable.v
PageCacheInv.v
PageCacheOps.v
PageCacheStore.v
PageCacheThreads.v
FreeTreeCache.v
NumberEqual.v
OrderedKey.v
Ttl.v
Pointer.v
QueryDecimal.v
Posting.v
PostingPage.v
Bitset.v
