(* ===== verification/Prelude.v ===== *)
(** * A verification of slopjson

    slopjson is a Go library around one idea: validated JSON bytes are the data.
    It validates and reformats JSON text, indexes and decodes it, and stores it
    in memory or in a copy-on-write file.  This development models the parts
    below as executable functions and proves what they promise.  Its value
    domain is Go's: a byte is a [Z] in [0,256), a byte slice or string is a
    [list Z], a machine word is a [Z] with its wrap-around written out.
    Fallible code returns [res]: [Ok], [Err] with the source's error value (a
    panic is a constructor of the error type), or [OutOfFuel] for the functions
    whose recursion is not structural.

    ** Parts, files and sources (under src/)

    - [Prelude]: [res] and its monad, bytes, slices, little-endian words, the
      lane-wise bit operations and the tactic [dlia].
    - [Utf8]: [DecodeRune], [EncodeRune], [Valid] and [utf16.DecodeRune] of the
      Go standard library, and the scalar-value reading of valid UTF-8.
    - [Grammar]: the specification.  RFC 8259 as an inductive relation over
      token-preserving trees, and an executable reference parser equivalent to
      it.  It models no code.
    - [Scanner], [ScanUnicode]: internal/scanner/scan_generic.go and
      scan_default.go, the eight-byte string scanners and the Unicode tail.
    - [Lex]: space.go, error.go, hex4 of parser.go and scanNumber of
      validate.go; [At] relates an offset to the suffix it denotes.
    - [Validate]: validate.go, the depth-limited recursive validator, its layout
      counter, and the token validators.
    - [Compact], [Indent]: compact.go and indent.go.
    - [ValidFast]: valid_fast.go and its digit scanners of number_digits.go; the
      bitmap engine it consults above 64 KiB is a parameter of the section.
    - [Hamt]: store_hamt.go, the persistent hash trie from keys to slots; the
      hash function is a parameter.
    - [Leases]: internal/storeio/generation_leases.go, the lease table and the
      extent reclaimer, and in [Protocol] a step relation for their use by a
      writer that retires, publishes, cancels and reclaims among readers.
    - [Bytes], [Page], [StateRoot], [FreeDirectory], [Superblock]: the page
      format of internal/storeio (page.go, state_root.go, free_directory.go with
      the reference set of chunk_directory.go, superblock.go): CRC32C, sealed
      pages, the state root, free-extent nodes and their searches, the two root
      slots and recovery over a file that may fail or be short.
    - [Device]: device.go and device_portable.go, commit validation and the
      portable backend over a disk with pending writes, barriers and crashes.
    - [IndexPool]: index_pool.go and the acquire loop of committer.go, the
      lock-free pool, one step per atomic operation.
    - [Blocks]: page_cache_blocks.go, the buddy allocator of the page cache.
    - [Committer], [GroupCommit]: committer.go and committer_worker.go, batches,
      the pending ring, and the worker that commits groups of generations.
    - [WriteTx], [StoreWrite]: write_transaction.go, and a transaction carried
      through the committer to the disk.
    - [FreeNode], [FreeTree], [FreeTreeSteps], [FreeTreeSpec], [FreeTreeMutate],
      [FreeTreeRefine]: free_tree.go, the copy-on-write B+tree of free extents
      over write transactions ([FreeTree] has the code, the others its proof).
    - [PageCache], [PageCacheTable], [PageCacheInv], [PageCacheOps],
      [PageCacheStore], [PageCacheThreads]: page_cache.go, the bounded cache with
      its table, CLOCK replacement, leases and dirty pages ([PageCache] has the
      code), its content between calls, and its use by interleaved threads, one
      step per frame lock.
    - [FreeTreeCache]: the free tree run on the page cache.
    - [NumberEqual]: number_equal.go, exact equality of number spellings.
    - [OrderedKey]: internal/orderedkey/key.go, order-preserving index keys.
    - [Ttl]: the deadline heap of store_ttl.go and the loop of ExpireDue that
      collects due keys.
    - [QueryDecimal]: query/decimal.go, the query engine's decimal order.
    - [Posting], [PostingPage]: internal/storeio/posting_page.go, the compressed
      entries of index streams, their iterator, and the pages that pack them.
    - [Bitset]: internal/bitset/ops.go, boolean operations on posting words, over
      slices that share arrays, and their wrappers in store_bitmap.go.
    - [Pointer]: pointer.go, compiled RFC 6901 pointers, and the key hash of
      index_keyhash.go.

    The parts meet as in the code: [Validate], [Compact] and [Indent] drive the
    scanners and [Lex]; [ValidFast] is measured against [Validate]; [Superblock]
    recovers [StateRoot] pages and the [FreeDirectory] root inside [Page]
    envelopes, and relies on [Leases] keeping the pages of old roots; [WriteTx]
    stages pages in batches of the [Committer], which [GroupCommit] writes through
    [Device]; [FreeTree] writes [FreeDirectory] nodes in a [WriteTx] and reads them
    from a page cache; [PageCache] places pages with [Blocks]; [PostingPage] packs
    streams of [Posting] into [Page] envelopes.  What a transaction
    needs of a cache is the class [DirtyCache], what the tree needs is the class
    [PageStore]; [PageCacheStore] makes the page cache an instance of both.  [Ttl]
    addresses the slots [Hamt] maps keys to; [OrderedKey] and [Pointer] reuse the
    decimal arithmetic of [NumberEqual], and [QueryDecimal] the value order of
    [OrderedKey].

    ** What is proved

    - Text.  [validateOptions] accepts exactly the grammar within the depth
      limit, with error positions inside the source; the fast validator agrees
      with it below the bitmap threshold; compaction and indentation print the
      same document and leave the destination unchanged on error; compaction is
      idempotent and undoes indentation; the layout counter counts every
      container.  The word-at-a-time scanners stop where a byte loop stops.
    - Keys and numbers.  The trie refines a finite map over any history and any
      hash; number equality is equality of the denoted decimals at every
      exponent, and the query engine's comparison is their order for exponents
      below 10^18; byte order of compound keys is the semantic order of their
      components, prefix-free, with exact prefix bounds; JSON strings get the
      key of the text they denote; pointers round-trip.
    - Time.  The deadline heap refines a finite map with an earliest deadline at
      its root, and one unlimited pass takes every due key.
    - Storage.  Pages, state roots, free nodes and superblocks round-trip; one
      changed byte in a page outside its size field is always rejected; the page
      and free-node decoders never panic and the state-root decoder does in
      exactly one case; a decoded root or node is well formed; searches terminate with the right entry; whatever bytes a
      crash leaves in the next root slot, recovery returns the current root or a
      newer intact one, and a recovered state root's references name existing
      pages.  In the reclamation protocol no extent a reader can reach is handed
      out.
    - Writing.  The lock-free pool is linearizable to a stack and loses no
      wake-up; the buddy allocator hands out disjoint spans and fails only when no
      aligned span is free; a commit cut off anywhere leaves a recoverable file;
      the committer keeps its partition of batches and buffers, one iteration
      commits a prefix of the queue, and everything published becomes durable; a
      transaction allocates only free space, aborts without a trace, and, when
      it follows the durable generation alone in the queue, is atomic under
      crashes: recovery returns the old root or exactly the transaction's, and the
      latter once the commit is complete.
    - Trees and cache.  Insertion, deletion and traversal of the free tree refine
      a sorted list of extents, keep the old tree intact and account for every
      page, and deletion leaves no root with a single child.  The page cache
      returns for every page its content, whatever it evicts.  However threads
      interleave, at the granularity of frame locks, a lease shows the same bytes
      until it is released, as long as no one reads the pages of a generation
      while it is discarded; a theorem shows the condition needed.
    - Index pages.  Posting pages round-trip through lookups and iterators; an
      admitted page is the canonical encoding of the segments it shows; the
      partitioning helper returns the longest prefix that fits; the bitmap
      operations compute set operations also when they overwrite an input.

    Findings: the pretty-printer admits an empty container one level deeper than
    the validator and compactor ([Indent]); DecodeStateRootPage panics on a
    checksum-valid page with a payload shorter than four bytes ([StateRoot]), and
    so does OpenPostingPage ([PostingPage]);
    AppendNumber refuses some exponent literals its comment promises a key for
    ([OrderedKey]); the query engine's fallback for wider exponents misorders
    values its comment calls exact ([QueryDecimal]); a group commit of an even
    number of generations writes over the durable root ([GroupCommit]); the size
    test of free-tree leaves ignores the sixteen-bit count on pages of 2 MiB and
    more ([FreeTreeRefine]); a frame whose insertion rebuilds the cache table is
    inserted twice, without consequence for lookups ([PageCacheStore]);
    DiscardDirty checks the pins in one loop and resets frames in another, so a
    reader that pins in between is left with a lease on a frame that is gone
    ([PageCacheThreads]).

    ** Fuel and bounds

    [ref_fuel] gives the parsers three steps per byte plus four, and every
    specification theorem of a fuelled function proves that its fuel suffices.
    Trie descents get one step per hash chunk, open-addressing probes the table
    size, binary searches the entry count, heap sifts the heap size, the digit
    lockstep the length of the first spelling, pointer compilation the length of
    the pointer, the worker's loops the length of the ring, and a free-tree
    mutation eleven levels, the greatest depth of a tree and one.  The clock
    makes at most two rounds, as in the code.  The pool is verified while its
    47-bit version does not wrap, the free tree for pages of at most 1 MiB, and
    the page cache while slots and zone fit in 32 bits.

    ** Not modelled

    SIMD and assembly kernels (their scalar twins are modelled where they
    exist); the bitmap validation engine; the tape index, node navigation and
    containment; the typed encoder and decoder, which compile Go reflection data
    into plans over unsafe pointers; conversion of numbers to binary floats;
    document sets, the in-memory store around the trie and the heap, the file
    store's writer; of internal/storeio the io_uring device and prefetch rings,
    the committer's coalescing timer and statistics, the page cache's counters,
    and the chunk, key, index, expiry and column trees with their pages; the snapshots' own bitmaps; the
    query engine; streams; command-line tools.  Except in [Bitset] a Go slice is the list of its
    elements, so what an append writes beyond a slice's length is not modelled.
    Mutexes are modelled by making their critical sections atomic; in the page
    cache, where readers take no part in the main lock, a critical section is
    atomic between two frame locks only. *)
From Stdlib Require Import ZArith Lia List Bool.
From stdpp Require Import base numbers list strings gmap.

#[global] Set Default Goal Selector "!".

(** ** Results of fallible and fuelled code *)

Inductive res (E A : Type) : Type :=
| Ok (a : A)
| Err (e : E)
| OutOfFuel.
Arguments Ok {E A} a.
Arguments Err {E A} e.
Arguments OutOfFuel {E A}.

#[export] Instance res_ret {E} : MRet (res E) := fun A a => Ok a.
#[export] Instance res_bind {E} : MBind (res E) := fun A B f m =>
  match m with Ok a => f a | Err e => Err e | OutOfFuel => OutOfFuel end.

Lemma bind_Ok {E A B} (a : A) (f : A -> res E B) : (Ok a ≫= f) = f a.
Proof. reflexivity. Qed.

Definition is_ok {E A} (m : res E A) : bool :=
  match m with Ok _ => true | _ => false end.

(** ** Bytes and little-endian words

    A Go [byte] is a [Z] in [[0,256)]; a byte slice is a [list Z]. *)

Definition is_byte (b : Z) : Prop := (0 <= b < 256)%Z.
Definition bytes_ok (s : list Z) : Prop := Forall is_byte s.

#[export] Instance is_byte_dec b : Decision (is_byte b) := _.

(** Every byte-indexed boolean fact is a finite check. *)
Lemma byte_exhaustive (P : Z -> bool) :
  forallb P (seqZ 0 256) = true -> forall b, is_byte b -> P b = true.
Proof.
  intros H b Hb. rewrite forallb_forall in H. apply H, list_elem_of_In, elem_of_seqZ.
  unfold is_byte in Hb. lia.
Qed.

(** ** Go slices [s[i:j]] *)

Create HintDb scan.

Definition slice {A} (s : list A) (i j : nat) : list A := take (j - i) (drop i s).

Section Slices.
Context {A : Type}.
Implicit Types s : list A.
Local Open Scope nat_scope.

Lemma slice_length s i j : i <= j -> j <= length s -> length (slice s i j) = j - i.
Proof. intros. unfold slice. rewrite length_take, length_drop. lia. Qed.

Lemma slice_nil s i j : j <= i -> slice s i j = [].
Proof. intros. unfold slice. by replace (j - i) with 0 by lia. Qed.

Lemma slice_cons s i j c : s !! i = Some c -> i < j -> slice s i j = c :: slice s (S i) j.
Proof.
  intros H L. unfold slice. rewrite (drop_S s c i) by done.
  replace (j - i) with (S (j - S i)) by lia. done.
Qed.

Lemma slice_split s i k j : i <= k -> k <= j -> slice s i j = slice s i k ++ slice s k j.
Proof.
  intros. unfold slice. replace (j - i) with ((k - i) + (j - k)) by lia.
  rewrite <- take_take_drop, drop_drop. by replace (i + (k - i)) with k by lia.
Qed.

Lemma slice_end s i : slice s i (length s) = drop i s.
Proof. unfold slice. apply take_ge. rewrite length_drop. lia. Qed.

Lemma slice_full s : slice s 0 (length s) = s.
Proof. apply slice_end. Qed.

Lemma Forall_slice (P : A -> Prop) s i j : Forall P s -> Forall P (slice s i j).
Proof. intros. by apply Forall_take, Forall_drop. Qed.

Lemma drop_slice s i j : i <= j -> drop i s = slice s i j ++ drop j s.
Proof.
  intros. unfold slice. replace (drop j s) with (drop (j - i) (drop i s)).
  - by rewrite take_drop.
  - rewrite drop_drop. f_equal. lia.
Qed.
End Slices.

Open Scope Z_scope.

(** [lia] with division and remainder by constants. *)
Ltac dlia := Z.to_euclidean_division_equations; lia.

(** Equality of two byte functions, by tabulation. *)
Lemma byte_table (f g : Z -> Z) :
  forallb (fun b => f b =? g b) (seqZ 0 256) = true -> forall b, is_byte b -> f b = g b.
Proof.
  intros H b Hb. apply Z.eqb_eq. exact (byte_exhaustive (fun b => f b =? g b) H b Hb).
Qed.

(** Bitwise operations act lane by lane on [low + 256 * high]. *)
Lemma testbit_split a x i :
  is_byte a -> 0 <= i ->
  Z.testbit (a + 256 * x) i = if i <? 8 then Z.testbit a i else Z.testbit x (i - 8).
Proof.
  intros Ha Hi. unfold is_byte in *. destruct (Z.ltb_spec i 8).
  - rewrite <- (Z.mod_pow2_bits_low (a + 256 * x) 8) by lia.
    replace ((a + 256 * x) mod 2 ^ 8) with a; [done|].
    change (2 ^ 8) with 256. rewrite (Z.mul_comm 256), Z.mod_add, Z.mod_small; lia.
  - replace i with ((i - 8) + 8) at 1 by lia.
    rewrite <- Z.div_pow2_bits by lia. f_equal.
    change (2 ^ 8) with 256. rewrite (Z.mul_comm 256), Z.div_add, Z.div_small; lia.
Qed.

Section ByteOps.
(** [op] is one of [Z.land], [Z.lor], [Z.lxor], acting bitwise by [bop]. *)
Variable op : Z -> Z -> Z.
Variable bop : bool -> bool -> bool.
Hypothesis op_spec : forall a b i, Z.testbit (op a b) i = bop (Z.testbit a i) (Z.testbit b i).
Hypothesis bop_ff : bop false false = false.

Lemma byte_testbit_high a i : is_byte a -> 8 <= i -> Z.testbit a i = false.
Proof.
  intros Ha Hi. rewrite <- (Z.mod_small a (2 ^ 8)) by exact Ha.
  by rewrite Z.mod_pow2_bits_high by lia.
Qed.

Lemma is_byte_op a b : is_byte a -> is_byte b -> is_byte (op a b).
Proof.
  intros Ha Hb.
  assert (E : op a b = op a b mod 2 ^ 8).
  { apply Z.bits_inj'. intros i Hi. destruct (Z.ltb_spec i 8).
    - by rewrite Z.mod_pow2_bits_low by lia.
    - rewrite Z.mod_pow2_bits_high by lia.
      by rewrite op_spec, !byte_testbit_high by (done || lia). }
  rewrite E. by apply Z.mod_pos_bound.
Qed.

Lemma op_split a b x y :
  is_byte a -> is_byte b -> op (a + 256 * x) (b + 256 * y) = op a b + 256 * op x y.
Proof.
  intros Ha Hb. apply Z.bits_inj'. intros i Hi.
  rewrite op_spec, !testbit_split, !op_spec by (done || by apply is_byte_op).
  by destruct (i <? 8).
Qed.
End ByteOps.

Lemma land_split a b x y :
  is_byte a -> is_byte b -> Z.land (a + 256 * x) (b + 256 * y) = Z.land a b + 256 * Z.land x y.
Proof. apply (op_split _ andb); [apply Z.land_spec | done]. Qed.
Lemma lor_split a b x y :
  is_byte a -> is_byte b -> Z.lor (a + 256 * x) (b + 256 * y) = Z.lor a b + 256 * Z.lor x y.
Proof. apply (op_split _ orb); [apply Z.lor_spec | done]. Qed.
Lemma lxor_split a b x y :
  is_byte a -> is_byte b -> Z.lxor (a + 256 * x) (b + 256 * y) = Z.lxor a b + 256 * Z.lxor x y.
Proof. apply (op_split _ xorb); [apply Z.lxor_spec | done]. Qed.
Lemma is_byte_land a b : is_byte a -> is_byte b -> is_byte (Z.land a b).
Proof. apply (is_byte_op _ andb); [apply Z.land_spec | done]. Qed.
Lemma is_byte_lor a b : is_byte a -> is_byte b -> is_byte (Z.lor a b).
Proof. apply (is_byte_op _ orb); [apply Z.lor_spec | done]. Qed.
Lemma is_byte_lxor a b : is_byte a -> is_byte b -> is_byte (Z.lxor a b).
Proof. apply (is_byte_op _ xorb); [apply Z.lxor_spec | done]. Qed.

(** [binary.LittleEndian]: the word spelled by a byte list, low byte first. *)
Definition le_uint (bs : list Z) : Z := foldr (fun b acc => b + 256 * acc) 0 bs.

(** [rep n c] is [n] copies of byte [c], as in the constant 0x0101...01. *)
Fixpoint rep (n : nat) (c : Z) : Z :=
  match n with O => 0 | S n => c + 256 * rep n c end.

Definition word_ok (n : nat) (x : Z) : Prop := 0 <= x < 256 ^ Z.of_nat n.

Lemma pow256_S n : 256 ^ Z.of_nat (S n) = 256 * 256 ^ Z.of_nat n.
Proof. rewrite Nat2Z.inj_succ, Z.pow_succ_r; lia. Qed.

Lemma word_ok_cons n b x : is_byte b -> word_ok n x -> word_ok (S n) (b + 256 * x).
Proof. unfold is_byte, word_ok. rewrite pow256_S. lia. Qed.

Lemma rep_ok n c : is_byte c -> word_ok n (rep n c).
Proof.
  intros Hc. induction n as [|n IH]; [by unfold word_ok; simpl; lia|].
  simpl rep. by apply word_ok_cons.
Qed.

Lemma le_uint_ok bs : bytes_ok bs -> word_ok (length bs) (le_uint bs).
Proof.
  induction 1 as [|b bs Hb _ IH]; [by unfold word_ok; simpl; lia|].
  simpl le_uint. by apply word_ok_cons.
Qed.

(** ** [math/bits.TrailingZeros64] *)
Fixpoint pos_tz (p : positive) : Z :=
  match p with xO q => 1 + pos_tz q | _ => 0 end.
Definition TrailingZeros64 (x : Z) : Z :=
  match x with Zpos p => pos_tz p | _ => 64 end.

Lemma tz_double x : 0 < x -> TrailingZeros64 (2 * x) = 1 + TrailingZeros64 x.
Proof. by destruct x. Qed.

Lemma tz_odd x : 0 <= x -> TrailingZeros64 (2 * x + 1) = 0.
Proof. by destruct x. Qed.

Lemma tz_shift x k : 0 <= k -> 0 < x -> TrailingZeros64 (2 ^ k * x) = k + TrailingZeros64 x.
Proof.
  intros Hk Hx. revert k Hk. apply natlike_ind; [by rewrite Z.mul_1_l|].
  intros k Hk IH. rewrite Z.pow_succ_r, <- Z.mul_assoc, tz_double, IH by lia. lia.
Qed.
