(* ===== verification/Utf8.v ===== *)
(** * Utf8: the parts of Go's unicode/utf8 and unicode/utf16 the code calls

    [DecodeRune], [Valid], [EncodeRune] and [utf16.DecodeRune] of the Go
    standard library, on byte lists, with the round trips the string code
    relies on.  A scalar value is a code point that is not a surrogate. *)
From Stdlib Require Import ZArith Lia List Bool.
From stdpp Require Import base numbers list.
From S2P Require Import Prelude.

Open Scope Z_scope.

Definition RuneError : Z := 0xfffd.

(** The lead-byte table: sequence length and range of the second byte. *)
Definition leadInfo (b0 : Z) : option (nat * Z * Z) :=
  if (0xc2 <=? b0) && (b0 <=? 0xdf) then Some (2%nat, 0x80, 0xbf)
  else if b0 =? 0xe0 then Some (3%nat, 0xa0, 0xbf)
  else if b0 =? 0xed then Some (3%nat, 0x80, 0x9f)
  else if (0xe1 <=? b0) && (b0 <=? 0xef) then Some (3%nat, 0x80, 0xbf)
  else if b0 =? 0xf0 then Some (4%nat, 0x90, 0xbf)
  else if (0xf1 <=? b0) && (b0 <=? 0xf3) then Some (4%nat, 0x80, 0xbf)
  else if b0 =? 0xf4 then Some (4%nat, 0x80, 0x8f)
  else None.

Definition between (lo hi b : Z) : bool := (lo <=? b) && (b <=? hi).

Definition DecodeRune (p : list Z) : Z * nat :=
  match p with
  | [] => (RuneError, 0%nat)
  | b0 :: p =>
      if b0 <? 0x80 then (b0, 1%nat)
      else match leadInfo b0, p with
      | Some (sz, lo, hi), b1 :: p =>
          if negb (between lo hi b1) then (RuneError, 1%nat)
          else if (sz =? 2)%nat then
            (Z.lor (Z.shiftl (Z.land b0 0x1f) 6) (Z.land b1 0x3f), 2%nat)
          else match p with
          | b2 :: p =>
              if negb (between 0x80 0xbf b2) then (RuneError, 1%nat)
              else if (sz =? 3)%nat then
                (Z.lor (Z.lor (Z.shiftl (Z.land b0 0x0f) 12) (Z.shiftl (Z.land b1 0x3f) 6))
                       (Z.land b2 0x3f), 3%nat)
              else match p with
              | b3 :: _ =>
                  if negb (between 0x80 0xbf b3) then (RuneError, 1%nat)
                  else (Z.lor (Z.lor (Z.lor (Z.shiftl (Z.land b0 0x07) 18)
                                            (Z.shiftl (Z.land b1 0x3f) 12))
                                     (Z.shiftl (Z.land b2 0x3f) 6))
                              (Z.land b3 0x3f), 4%nat)
              | [] => (RuneError, 1%nat)
              end
          | [] => (RuneError, 1%nat)
          end
      | _, _ => (RuneError, 1%nat)
      end
  end.

(** The error test of every caller: [r == utf8.RuneError && n == 1]. *)
Definition runeBad (rn : Z * nat) : bool := (rn.1 =? RuneError) && (rn.2 =? 1)%nat.

(** [utf8.Valid], rune by rune; the fuel is the length. *)
Fixpoint ValidFuel (fuel : nat) (p : list Z) : bool :=
  match fuel, p with
  | _, [] => true
  | O, _ => false
  | S fuel, _ =>
      let rn := DecodeRune p in
      if runeBad rn then false else ValidFuel fuel (drop rn.2 p)
  end.
Definition Valid (p : list Z) : bool := ValidFuel (length p) p.

Definition tobyte (r : Z) : Z := r mod 256.

(** [utf8.EncodeRune] / [utf8.AppendRune]. *)
Definition encode3 (r : Z) : list Z :=
  [Z.lor 0xe0 (tobyte (Z.shiftr r 12));
   Z.lor 0x80 (Z.land (tobyte (Z.shiftr r 6)) 0x3f);
   Z.lor 0x80 (Z.land (tobyte r) 0x3f)].
Definition EncodeRune (r : Z) : list Z :=
  if (0 <=? r) && (r <=? 0x7f) then [tobyte r]
  else if (0 <=? r) && (r <=? 0x7ff) then
    [Z.lor 0xc0 (tobyte (Z.shiftr r 6)); Z.lor 0x80 (Z.land (tobyte r) 0x3f)]
  else if (r <? 0) || (0x10ffff <? r) || between 0xd800 0xdfff r then encode3 RuneError
  else if r <=? 0xffff then encode3 r
  else [Z.lor 0xf0 (tobyte (Z.shiftr r 18));
        Z.lor 0x80 (Z.land (tobyte (Z.shiftr r 12)) 0x3f);
        Z.lor 0x80 (Z.land (tobyte (Z.shiftr r 6)) 0x3f);
        Z.lor 0x80 (Z.land (tobyte r) 0x3f)].

(** [utf16.DecodeRune]. *)
Definition DecodeSurrogates (r1 r2 : Z) : Z :=
  if between 0xd800 0xdbff r1 && between 0xdc00 0xdfff r2
  then Z.lor (Z.shiftl (r1 - 0xd800) 10) (r2 - 0xdc00) + 0x10000
  else RuneError.

Definition scalar (r : Z) : Prop := 0 <= r <= 0x10ffff /\ ~ (0xd800 <= r <= 0xdfff).

Arguments DecodeRune : simpl never.

(** ** Arithmetic readings of the bit operations *)

Lemma lor_shiftl a c k : 0 <= k -> 0 <= c < 2 ^ k -> Z.lor (Z.shiftl a k) c = a * 2 ^ k + c.
Proof.
  intros Hk Hc. rewrite <- Z.shiftl_mul_pow2 by lia. symmetry. rewrite Z.add_nocarry_lxor.
  - apply Z.bits_inj'. intros i Hi. rewrite Z.lxor_spec, Z.lor_spec, Z.shiftl_spec by lia.
    destruct (Z.ltb_spec i k).
    + by rewrite Z.testbit_neg_r, xorb_false_l by lia.
    + rewrite <- (Z.mod_small c (2 ^ k)) by lia.
      by rewrite Z.mod_pow2_bits_high, xorb_false_r, orb_false_r by lia.
  - apply Z.bits_inj'. intros i Hi. rewrite Z.land_spec, Z.shiftl_spec, Z.bits_0 by lia.
    destruct (Z.ltb_spec i k).
    + by rewrite Z.testbit_neg_r by lia.
    + rewrite <- (Z.mod_small c (2 ^ k)) by lia.
      by rewrite Z.mod_pow2_bits_high, andb_false_r by lia.
Qed.

Lemma land_ones_mod a k m : 0 <= k -> m = 2 ^ k - 1 -> Z.land a m = a mod 2 ^ k.
Proof. intros Hk ->. rewrite <- Z.land_ones by lia. by rewrite Z.ones_equiv, Z.sub_1_r. Qed.

Lemma land_3f a : Z.land a 0x3f = a mod 64.
Proof. by apply (land_ones_mod a 6). Qed.
Lemma land_1f a : Z.land a 0x1f = a mod 32.
Proof. by apply (land_ones_mod a 5). Qed.
Lemma land_0f a : Z.land a 0x0f = a mod 16.
Proof. by apply (land_ones_mod a 4). Qed.
Lemma land_07 a : Z.land a 0x07 = a mod 8.
Proof. by apply (land_ones_mod a 3). Qed.

Lemma lor_c0 x : 0 <= x < 64 -> Z.lor 0xc0 x = 0xc0 + x.
Proof. intros. by apply (lor_shiftl 3 x 6). Qed.
Lemma lor_e0 x : 0 <= x < 32 -> Z.lor 0xe0 x = 0xe0 + x.
Proof. intros. by apply (lor_shiftl 7 x 5). Qed.
Lemma lor_f0 x : 0 <= x < 16 -> Z.lor 0xf0 x = 0xf0 + x.
Proof. intros. by apply (lor_shiftl 15 x 4). Qed.
Lemma lor_80 x : 0 <= x < 64 -> Z.lor 0x80 x = 0x80 + x.
Proof. intros. by apply (lor_shiftl 2 x 6). Qed.

(** ** Round trips *)

Lemma EncodeRune_arith r : scalar r ->
  EncodeRune r =
  if r <=? 0x7f then [r]
  else if r <=? 0x7ff then [0xc0 + r / 64; 0x80 + r mod 64]
  else if r <=? 0xffff then [0xe0 + r / 4096; 0x80 + r / 64 mod 64; 0x80 + r mod 64]
  else [0xf0 + r / 262144; 0x80 + r / 4096 mod 64; 0x80 + r / 64 mod 64; 0x80 + r mod 64].
Proof.
  intros [Hr Hs]. unfold EncodeRune, encode3, tobyte, between.
  replace (0 <=? r) with true by lia. replace (r <? 0) with false by lia.
  replace (0x10ffff <? r) with false by lia.
  replace ((0xd800 <=? r) && (r <=? 0xdfff)) with false by lia. simpl orb. simpl andb.
  assert (M : forall x, x mod 256 mod 64 = x mod 64) by (intros; dlia).
  rewrite !land_3f, !M, !Z.shiftr_div_pow2 by lia.
  change (2 ^ 6) with 64. change (2 ^ 12) with 4096. change (2 ^ 18) with 262144.
  assert (L80 : forall x, Z.lor 0x80 (x mod 64) = 0x80 + x mod 64)
    by (intros; apply lor_80; dlia).
  rewrite !L80. repeat case_match; try lia.
  - f_equal. dlia.
  - f_equal. rewrite lor_c0 by dlia. dlia.
  - f_equal. rewrite lor_e0 by dlia. dlia.
  - f_equal. rewrite lor_f0 by dlia. dlia.
Qed.

Lemma decode_arith2 b0 b1 :
  between 0xc2 0xdf b0 = true -> between 0x80 0xbf b1 = true ->
  Z.lor (Z.shiftl (Z.land b0 0x1f) 6) (Z.land b1 0x3f) = (b0 - 0xc0) * 64 + (b1 - 0x80).
Proof.
  unfold between. intros. rewrite land_1f, land_3f, lor_shiftl by dlia. dlia.
Qed.

Lemma decode_arith3 b0 b1 b2 :
  between 0xe0 0xef b0 = true -> between 0x80 0xbf b1 = true -> between 0x80 0xbf b2 = true ->
  Z.lor (Z.lor (Z.shiftl (Z.land b0 0x0f) 12) (Z.shiftl (Z.land b1 0x3f) 6)) (Z.land b2 0x3f)
  = (b0 - 0xe0) * 4096 + (b1 - 0x80) * 64 + (b2 - 0x80).
Proof.
  unfold between. intros. rewrite land_0f, !land_3f.
  replace (Z.shiftl (b1 mod 64) 6) with (b1 mod 64 * 64) by (rewrite Z.shiftl_mul_pow2; lia).
  rewrite (lor_shiftl _ _ 12) by dlia.
  replace (b0 mod 16 * 2 ^ 12 + b1 mod 64 * 64) with (Z.shiftl (b0 mod 16 * 64 + b1 mod 64) 6)
    by (rewrite Z.shiftl_mul_pow2; lia).
  rewrite lor_shiftl by dlia. dlia.
Qed.

Lemma decode_arith4 b0 b1 b2 b3 :
  between 0xf0 0xf4 b0 = true -> between 0x80 0xbf b1 = true -> between 0x80 0xbf b2 = true ->
  between 0x80 0xbf b3 = true ->
  Z.lor (Z.lor (Z.lor (Z.shiftl (Z.land b0 0x07) 18) (Z.shiftl (Z.land b1 0x3f) 12))
               (Z.shiftl (Z.land b2 0x3f) 6)) (Z.land b3 0x3f)
  = (b0 - 0xf0) * 262144 + (b1 - 0x80) * 4096 + (b2 - 0x80) * 64 + (b3 - 0x80).
Proof.
  unfold between. intros. rewrite land_07, !land_3f.
  replace (Z.shiftl (b1 mod 64) 12) with (b1 mod 64 * 4096) by (rewrite Z.shiftl_mul_pow2; lia).
  rewrite (lor_shiftl _ _ 18) by dlia.
  replace (Z.shiftl (b2 mod 64) 6) with (b2 mod 64 * 64) by (rewrite Z.shiftl_mul_pow2; lia).
  replace (b0 mod 8 * 2 ^ 18 + b1 mod 64 * 4096) with (Z.shiftl (b0 mod 8 * 64 + b1 mod 64) 12)
    by (rewrite Z.shiftl_mul_pow2; lia).
  rewrite lor_shiftl by dlia.
  replace ((b0 mod 8 * 64 + b1 mod 64) * 2 ^ 12 + b2 mod 64 * 64)
    with (Z.shiftl (b0 mod 8 * 4096 + b1 mod 64 * 64 + b2 mod 64) 6)
    by (rewrite Z.shiftl_mul_pow2; lia).
  rewrite lor_shiftl by dlia. dlia.
Qed.

(** The lead-byte table in one inversion. *)
Lemma leadInfo_inv b0 sz lo hi :
  leadInfo b0 = Some (sz, lo, hi) ->
  0x80 <= lo /\ hi <= 0xbf /\
  ( (sz = 2%nat /\ 0xc2 <= b0 <= 0xdf)
  \/ (sz = 3%nat /\ 0xe0 <= b0 <= 0xef /\ (b0 = 0xe0 -> lo = 0xa0) /\ (b0 = 0xed -> hi = 0x9f))
  \/ (sz = 4%nat /\ 0xf0 <= b0 <= 0xf4 /\ (b0 = 0xf0 -> lo = 0x90) /\ (b0 = 0xf4 -> hi = 0x8f))).
Proof.
  unfold leadInfo. repeat case_match; intros [= <- <- <-]; lia.
Qed.

Lemma leadInfo_intro b0 b1 :
  (0xc2 <= b0 <= 0xdf /\ 0x80 <= b1 <= 0xbf ->
     exists lo hi, leadInfo b0 = Some (2%nat, lo, hi) /\ between lo hi b1 = true) /\
  (0xe0 <= b0 <= 0xef /\ 0x80 <= b1 <= 0xbf /\ (b0 = 0xe0 -> 0xa0 <= b1) /\ (b0 = 0xed -> b1 <= 0x9f) ->
     exists lo hi, leadInfo b0 = Some (3%nat, lo, hi) /\ between lo hi b1 = true) /\
  (0xf0 <= b0 <= 0xf4 /\ 0x80 <= b1 <= 0xbf /\ (b0 = 0xf0 -> 0x90 <= b1) /\ (b0 = 0xf4 -> b1 <= 0x8f) ->
     exists lo hi, leadInfo b0 = Some (4%nat, lo, hi) /\ between lo hi b1 = true).
Proof.
  unfold leadInfo, between. split_and!; intros; repeat case_match; try lia; eexists _, _; (split; [done|lia]).
Qed.

Lemma DecodeRune_EncodeRune r s :
  scalar r -> DecodeRune (EncodeRune r ++ s) = (r, length (EncodeRune r)).
Proof.
  intros Hr. rewrite EncodeRune_arith by done. destruct Hr as [Hr Hs].
  destruct (Z.leb_spec r 0x7f); [unfold DecodeRune; simpl; by replace (r <? 128) with true by lia|].
  destruct (Z.leb_spec r 0x7ff).
  { destruct (leadInfo_intro (0xc0 + r / 64) (0x80 + r mod 64)) as (I & _ & _).
    destruct I as (lo & hi & E & B); [dlia|].
    simpl app. unfold DecodeRune. replace (_ <? 128) with false by dlia. rewrite E, B. simpl negb.
    cbn [Nat.eqb]. rewrite decode_arith2 by (unfold between; dlia). f_equal. dlia. }
  destruct (Z.leb_spec r 0xffff).
  { destruct (leadInfo_intro (0xe0 + r / 4096) (0x80 + r / 64 mod 64)) as (_ & I & _).
    destruct I as (lo & hi & E & B); [dlia|].
    simpl app. unfold DecodeRune. replace (_ <? 128) with false by dlia. rewrite E, B. simpl negb.
    cbn [Nat.eqb]. replace (between 128 191 (128 + r mod 64)) with true by (unfold between; dlia).
    simpl negb. cbn [Nat.eqb]. rewrite decode_arith3 by (unfold between; dlia). f_equal. dlia. }
  destruct (leadInfo_intro (0xf0 + r / 262144) (0x80 + r / 4096 mod 64)) as (_ & _ & I).
  destruct I as (lo & hi & E & B); [dlia|].
  simpl app. unfold DecodeRune. replace (_ <? 128) with false by dlia. rewrite E, B. simpl negb.
  cbn [Nat.eqb]. replace (between 128 191 (128 + r / 64 mod 64)) with true by (unfold between; dlia).
  replace (between 128 191 (128 + r mod 64)) with true by (unfold between; dlia).
  simpl negb. cbn [Nat.eqb]. rewrite decode_arith4 by (unfold between; dlia). f_equal. dlia.
Qed.

(** A decode that is not an error read exactly the encoding of a scalar value. *)
Lemma DecodeRune_good b s0 :
  0 <= b -> let s := b :: s0 in runeBad (DecodeRune s) = false ->
  exists r t, s = EncodeRune r ++ t /\ scalar r /\ DecodeRune s = (r, length (EncodeRune r)).
Proof.
  intros H0 s G.
  enough (exists r t, s = EncodeRune r ++ t /\ scalar r) as (r & t & -> & Hr).
  { exists r, t. split; [done|]. split; [done|]. by apply DecodeRune_EncodeRune. }
  subst s. rename b into b0, s0 into s. unfold DecodeRune in G. destruct (Z.ltb_spec b0 0x80).
  { exists b0, s. assert (scalar b0) by (unfold scalar; lia).
    rewrite EncodeRune_arith by done. by replace (b0 <=? 0x7f) with true by lia. }
  destruct (leadInfo b0) as [[[sz lo] hi]|] eqn:E; [|done].
  apply leadInfo_inv in E as (Llo & Lhi & E).
  destruct s as [|b1 s]; [done|]. unfold between in G.
  destruct (negb _) eqn:B1 in G; [done|].
  destruct E as [[-> E]|[[-> E]|[-> E]]]; cbn [Nat.eqb] in G.
  - set (r := (b0 - 0xc0) * 64 + (b1 - 0x80)). exists r, s.
    assert (scalar r) by (unfold scalar, r; lia). split; [|done].
    rewrite EncodeRune_arith by done. replace (r <=? 0x7f) with false by lia.
    replace (r <=? 0x7ff) with true by lia. simpl. repeat f_equal; unfold r; dlia.
  - destruct s as [|b2 s]; [done|]. destruct (negb _) eqn:B2 in G; [done|].
    set (r := (b0 - 0xe0) * 4096 + (b1 - 0x80) * 64 + (b2 - 0x80)). exists r, s.
    assert (scalar r) by (unfold scalar, r; lia). split; [|done].
    rewrite EncodeRune_arith by done. replace (r <=? 0x7f) with false by lia.
    replace (r <=? 0x7ff) with false by lia. replace (r <=? 0xffff) with true by lia.
    simpl. repeat f_equal; unfold r; dlia.
  - destruct s as [|b2 s]; [done|]. destruct (negb _) eqn:B2 in G; [done|].
    destruct s as [|b3 s]; [done|]. destruct (negb _) eqn:B3 in G; [done|].
    set (r := (b0 - 0xf0) * 262144 + (b1 - 0x80) * 4096 + (b2 - 0x80) * 64 + (b3 - 0x80)).
    exists r, s. assert (scalar r) by (unfold scalar, r; lia). split; [|done].
    rewrite EncodeRune_arith by done. replace (r <=? 0x7f) with false by lia.
    replace (r <=? 0x7ff) with false by lia. replace (r <=? 0xffff) with false by lia.
    simpl. repeat f_equal; unfold r; dlia.
Qed.

Lemma EncodeRune_length r : scalar r -> (1 <= length (EncodeRune r) <= 4)%nat.
Proof. intros Hr. rewrite EncodeRune_arith by done. repeat case_match; simpl; lia. Qed.

Lemma EncodeRune_not_bad r : scalar r -> runeBad (r, length (EncodeRune r)) = false.
Proof.
  intros Hr. unfold runeBad. simpl. destruct (Z.eqb_spec r RuneError) as [->|]; [|done].
  by vm_compute.
Qed.

Lemma EncodeRune_bytes r : scalar r -> bytes_ok (EncodeRune r).
Proof.
  intros Hr. rewrite EncodeRune_arith by done. destruct Hr.
  repeat case_match; repeat constructor; unfold is_byte; dlia.
Qed.

(** Above 0x7f an encoding has only bytes of 0x80 and up; below, it is the byte. *)
Lemma EncodeRune_high r : scalar r -> 0x80 <= r -> Forall (fun b => 0x80 <= b) (EncodeRune r).
Proof.
  intros Hr L. rewrite EncodeRune_arith by done. destruct Hr.
  repeat case_match; repeat constructor; dlia.
Qed.

Lemma EncodeRune_low r : 0 <= r < 0x80 -> EncodeRune r = [r].
Proof.
  intros Hr. rewrite EncodeRune_arith by (unfold scalar; lia).
  by replace (r <=? 0x7f) with true by lia.
Qed.

Lemma EncodeRune_head r : scalar r -> exists b t, EncodeRune r = b :: t /\ (0x80 <= b <-> 0x80 <= r).
Proof.
  intros Hr. rewrite EncodeRune_arith by done. destruct Hr.
  repeat case_match; eexists _, _; (split; [done|dlia]).
Qed.

(** ** [Valid] characterised by sequences of scalar values *)

Definition encode_all (rs : list Z) : list Z := concat (map EncodeRune rs).

Lemma ValidFuel_sound fuel p :
  bytes_ok p -> ValidFuel fuel p = true -> exists rs, Forall scalar rs /\ p = encode_all rs.
Proof.
  revert p. induction fuel as [|fuel IH]; intros [|b p] Hp V; try done; try by exists [].
  simpl in V. set (q := b :: p) in *. change (DecodeRune q) with (DecodeRune q) in V.
  destruct (runeBad (DecodeRune q)) eqn:G; [done|].
  destruct (DecodeRune_good b p) as (r & t & E & Hr & D);
    [by apply Forall_cons in Hp as [[? _] _] | done |]. fold q in E, D.
  rewrite D in V. simpl in V. rewrite E, drop_app_length in V.
  destruct (IH t) as (rs & Hrs & ->); [|done|].
  - unfold bytes_ok in Hp. rewrite E in Hp. by apply Forall_app in Hp as [_ ?].
  - exists (r :: rs). split; [by constructor|]. by rewrite E.
Qed.

Lemma ValidFuel_complete fuel rs :
  Forall scalar rs -> (length (encode_all rs) <= fuel)%nat -> ValidFuel fuel (encode_all rs) = true.
Proof.
  revert fuel. induction rs as [|r rs IH]; intros fuel H L; [by destruct fuel|].
  apply Forall_cons in H as [Hr Hrs]. unfold encode_all in *. simpl in *.
  rewrite length_app in L. pose proof (EncodeRune_length r Hr).
  destruct fuel as [|fuel]; [lia|]. simpl.
  destruct (EncodeRune r ++ _) as [|b q] eqn:E; [done|]. rewrite <- E.
  rewrite DecodeRune_EncodeRune, EncodeRune_not_bad by done. simpl.
  rewrite drop_app_length. apply IH; [done|lia].
Qed.

Lemma Valid_spec p :
  bytes_ok p -> Valid p = true <-> exists rs, Forall scalar rs /\ p = encode_all rs.
Proof.
  intros Hp. split; [by apply ValidFuel_sound|]. intros (rs & Hrs & ->).
  by apply ValidFuel_complete.
Qed.

(** A surrogate pair decodes to a supplementary scalar value. *)
Lemma DecodeSurrogates_scalar hi lo :
  0xd800 <= hi <= 0xdbff -> 0xdc00 <= lo <= 0xdfff ->
  DecodeSurrogates hi lo = 0x10000 + (hi - 0xd800) * 1024 + (lo - 0xdc00) /\
  scalar (DecodeSurrogates hi lo).
Proof.
  intros Hh Hl. unfold DecodeSurrogates, between.
  replace (_ && _) with true by lia. rewrite lor_shiftl by lia.
  unfold scalar. lia.
Qed.
