(* ===== verification/Grammar.v ===== *)
(** * Grammar: RFC 8259 JSON as an inductive relation, and a reference parser

    [jvalue t s] says that the bytes [s] are exactly one JSON value whose tree
    is [t]; tokens keep their source spelling.  [ref_value] is an executable
    list parser, proved equivalent to the relation; the validators and
    formatters of the repository are each proved to follow it. *)
From Stdlib Require Import ZArith Lia List Bool.
From stdpp Require Import base numbers list.
From S2P Require Import Prelude Utf8.

Open Scope Z_scope.

(** ** Lexical grammar *)

Definition isDigit (c : Z) : bool := (0x30 <=? c) && (c <=? 0x39).
Definition isOneNine (c : Z) : bool := (0x31 <=? c) && (c <=? 0x39).
Definition isJSONWhitespace (c : Z) : bool :=
  (c =? 0x20) || (c =? 0x0a) || (c =? 0x0d) || (c =? 0x09).

Definition ws (s : list Z) : Prop := Forall (fun c => isJSONWhitespace c = true) s.
Definition digits (s : list Z) : Prop := Forall (fun c => isDigit c = true) s.

Lemma ws_nil : ws [].
Proof. constructor. Qed.
#[export] Hint Resolve ws_nil : core.

(** The value of one hex digit. *)
Definition hexval (c : Z) : option Z :=
  if (0x30 <=? c) && (c <=? 0x39) then Some (c - 0x30)
  else if (0x61 <=? c) && (c <=? 0x66) then Some (c - 0x61 + 10)
  else if (0x41 <=? c) && (c <=? 0x46) then Some (c - 0x41 + 10)
  else None.

Definition hex4val (a b c d : Z) : option Z :=
  match hexval a, hexval b, hexval c, hexval d with
  | Some a, Some b, Some c, Some d => Some (a * 4096 + b * 256 + c * 16 + d)
  | _, _, _, _ => None
  end.

Definition simpleEscape (e : Z) : bool :=
  (e =? 0x22) || (e =? 0x5c) || (e =? 0x2f) || (e =? 0x62) || (e =? 0x66) || (e =? 0x6e)
  || (e =? 0x72) || (e =? 0x74).

(** One character of a string body. *)
Inductive jchar : list Z -> Prop :=
| jc_plain r : scalar r -> 0x20 <= r -> r <> 0x22 -> r <> 0x5c -> jchar (EncodeRune r)
| jc_simple e : simpleEscape e = true -> jchar [0x5c; e]
| jc_unicode a b c d u :
    hex4val a b c d = Some u -> between 0xd800 0xdfff u = false ->
    jchar [0x5c; 0x75; a; b; c; d]
| jc_pair a b c d u a' b' c' d' u' :
    hex4val a b c d = Some u -> between 0xd800 0xdbff u = true ->
    hex4val a' b' c' d' = Some u' -> between 0xdc00 0xdfff u' = true ->
    jchar [0x5c; 0x75; a; b; c; d; 0x5c; 0x75; a'; b'; c'; d'].

Inductive jchars : list Z -> Prop :=
| jcs_nil : jchars []
| jcs_cons c s : jchar c -> jchars s -> jchars (c ++ s).

Definition jstring (tok : list Z) : Prop :=
  exists body, jchars body /\ tok = 0x22 :: body ++ [0x22].

(** A number token and its parts. [np_frac] is empty when there is no fraction. *)
Record numparts := NumParts {
  np_neg : bool;
  np_int : list Z;
  np_frac : list Z;
  np_exp : option (Z * option Z * list Z);
}.

Definition np_sign_bytes (p : numparts) : list Z := if np_neg p then [0x2d] else [].
Definition np_frac_bytes (p : numparts) : list Z :=
  match np_frac p with [] => [] | f => 0x2e :: f end.
Definition np_exp_bytes (p : numparts) : list Z :=
  match np_exp p with
  | None => []
  | Some (e, sgn, ds) => e :: match sgn with Some c => [c] | None => [] end ++ ds
  end.
Definition np_print (p : numparts) : list Z :=
  np_sign_bytes p ++ np_int p ++ np_frac_bytes p ++ np_exp_bytes p.

Definition jint (s : list Z) : Prop :=
  s = [0x30] \/ exists d ds, s = d :: ds /\ isOneNine d = true /\ digits ds.

Definition np_ok (p : numparts) : Prop :=
  jint (np_int p) /\ digits (np_frac p) /\
  match np_exp p with
  | None => True
  | Some (e, sgn, ds) =>
      (e = 0x65 \/ e = 0x45) /\ (forall c, sgn = Some c -> c = 0x2b \/ c = 0x2d) /\
      ds <> [] /\ digits ds
  end.

Definition jnumber (tok : list Z) : Prop := exists p, np_ok p /\ tok = np_print p.

(** ** Values *)

#[local] Set Warnings "-register-all".
Inductive jv : Type :=
| JLit (s : list Z)
| JNum (tok : list Z)
| JStr (tok : list Z)
| JArr (ts : list jv)
| JObj (ms : list (list Z * jv)).

Definition lit_null : list Z := [0x6e; 0x75; 0x6c; 0x6c].
Definition lit_true : list Z := [0x74; 0x72; 0x75; 0x65].
Definition lit_false : list Z := [0x66; 0x61; 0x6c; 0x73; 0x65].

Inductive jvalue : jv -> list Z -> Prop :=
| jv_lit s : s = lit_null \/ s = lit_true \/ s = lit_false -> jvalue (JLit s) s
| jv_num tok : jnumber tok -> jvalue (JNum tok) tok
| jv_str tok : jstring tok -> jvalue (JStr tok) tok
| jv_arr0 w : ws w -> jvalue (JArr []) (0x5b :: w ++ [0x5d])
| jv_arr ts s : jelems ts s -> jvalue (JArr ts) (0x5b :: s ++ [0x5d])
| jv_obj0 w : ws w -> jvalue (JObj []) (0x7b :: w ++ [0x7d])
| jv_obj ms s : jmembers ms s -> jvalue (JObj ms) (0x7b :: s ++ [0x7d])
with jelems : list jv -> list Z -> Prop :=
| je_one t w1 s w2 : ws w1 -> jvalue t s -> ws w2 -> jelems [t] (w1 ++ s ++ w2)
| je_cons t ts w1 s w2 s' :
    ws w1 -> jvalue t s -> ws w2 -> jelems ts s' ->
    jelems (t :: ts) (w1 ++ s ++ w2 ++ 0x2c :: s')
with jmembers : list (list Z * jv) -> list Z -> Prop :=
| jm_one k t w1 w2 w3 s w4 :
    ws w1 -> jstring k -> ws w2 -> ws w3 -> jvalue t s -> ws w4 ->
    jmembers [(k, t)] (w1 ++ k ++ w2 ++ 0x3a :: w3 ++ s ++ w4)
| jm_cons k t ms w1 w2 w3 s w4 s' :
    ws w1 -> jstring k -> ws w2 -> ws w3 -> jvalue t s -> ws w4 -> jmembers ms s' ->
    jmembers ((k, t) :: ms) (w1 ++ k ++ w2 ++ 0x3a :: w3 ++ s ++ w4 ++ 0x2c :: s').

Scheme jvalue_mind := Induction for jvalue Sort Prop
  with jelems_mind := Induction for jelems Sort Prop
  with jmembers_mind := Induction for jmembers Sort Prop.
Combined Scheme jvalue_mutind from jvalue_mind, jelems_mind, jmembers_mind.

(** A JSON text: one value with surrounding whitespace. *)
Definition jtext (t : jv) (s : list Z) : Prop :=
  exists w1 v w2, ws w1 /\ jvalue t v /\ ws w2 /\ s = w1 ++ v ++ w2.

(** Container nesting of a tree; scalars are at zero. *)
Fixpoint height (t : jv) : nat :=
  match t with
  | JArr ts => S (foldr (fun t => Nat.max (height t)) 0 ts)
  | JObj ms => S (foldr (fun m => Nat.max (height m.2)) 0 ms)
  | _ => 0
  end%nat.

(** Structural induction through the element and member lists. *)
Section JvInd.
Variable P : jv -> Prop.
Hypothesis Hlit : forall s, P (JLit s).
Hypothesis Hnum : forall s, P (JNum s).
Hypothesis Hstr : forall s, P (JStr s).
Hypothesis Harr : forall ts, Forall P ts -> P (JArr ts).
Hypothesis Hobj : forall ms, Forall (fun m => P m.2) ms -> P (JObj ms).

Fixpoint jv_nested_ind (t : jv) : P t :=
  match t with
  | JLit s => Hlit s
  | JNum s => Hnum s
  | JStr s => Hstr s
  | JArr ts => Harr ts
      ((fix go (l : list jv) : Forall P l :=
          match l with [] => Forall_nil_2 _ | x :: l => Forall_cons_2 _ _ _ (jv_nested_ind x) (go l) end) ts)
  | JObj ms => Hobj ms
      ((fix go (l : list (list Z * jv)) : Forall (fun m => P m.2) l :=
          match l with
          | [] => Forall_nil_2 _
          | x :: l => Forall_cons_2 _ _ _ (jv_nested_ind x.2) (go l)
          end) ms)
  end.
End JvInd.

(** Depth policy of a parser entered at depth [d]: [okv] is asked when a value
    starts, [okc] when a container opens. *)
Fixpoint depth_ok (okv okc : nat -> bool) (d : nat) (t : jv) : bool :=
  okv d &&
  match t with
  | JArr ts => okc (S d) && forallb (depth_ok okv okc (S d)) ts
  | JObj ms => okc (S d) && forallb (fun m => depth_ok okv okc (S d) m.2) ms
  | _ => true
  end.

(** The policy that never refuses. *)
Definition any_depth (_ : nat) : bool := true.

(** ** Reference parser *)

Fixpoint span (p : Z -> bool) (s : list Z) : list Z * list Z :=
  match s with
  | [] => ([], [])
  | c :: t => if p c then let '(a, b) := span p t in (c :: a, b) else ([], s)
  end.

Definition skip_ws (s : list Z) : list Z := (span isJSONWhitespace s).2.

Definition ref_exp (s : list Z) : option (option (Z * option Z * list Z) * list Z) :=
  match s with
  | e :: t =>
      if (e =? 0x65) || (e =? 0x45) then
        let '(sgn, t) := match t with
          | c :: t' => if (c =? 0x2b) || (c =? 0x2d) then (Some c, t') else (None, t)
          | [] => (None, t)
          end in
        match span isDigit t with
        | ([], _) => None
        | (ds, r) => Some (Some (e, sgn, ds), r)
        end
      else Some (None, s)
  | [] => Some (None, s)
  end.

Definition ref_frac (s : list Z) : option (list Z * list Z) :=
  match s with
  | c :: t =>
      if c =? 0x2e then
        match span isDigit t with ([], _) => None | (ds, r) => Some (ds, r) end
      else Some ([], s)
  | [] => Some ([], s)
  end.

Definition ref_int (s : list Z) : option (list Z * list Z) :=
  match s with
  | c :: t =>
      if c =? 0x30 then Some ([c], t)
      else if isOneNine c then let '(ds, r) := span isDigit t in Some (c :: ds, r)
      else None
  | [] => None
  end.

Definition ref_sign (s : list Z) : bool * list Z :=
  match s with
  | c :: t => if c =? 0x2d then (true, t) else (false, s)
  | [] => (false, s)
  end.

Definition ref_number (s : list Z) : option (numparts * list Z) :=
  let '(neg, s) := ref_sign s in
  '(int, s) ← ref_int s;
  '(frac, s) ← ref_frac s;
  '(exp, s) ← ref_exp s;
  Some (NumParts neg int frac exp, s).

(** [expect c s] drops a leading [c]. *)
Definition expect (c : Z) (s : list Z) : option (list Z) :=
  match s with
  | b :: t => if b =? c then Some t else None
  | [] => None
  end.

Definition ref_hex4 (s : list Z) : option (Z * list Z * list Z) :=
  match s with
  | a :: b :: c :: d :: t => u ← hex4val a b c d; Some (u, [a; b; c; d], t)
  | _ => None
  end.

(** After the bytes backslash and u. *)
Definition ref_unicode (s : list Z) : option (list Z * list Z) :=
  '(u, h, s) ← ref_hex4 s;
  if between 0xd800 0xdbff u then
    s ← expect 0x5c s;
    s ← expect 0x75 s;
    '(u', h', s) ← ref_hex4 s;
    if between 0xdc00 0xdfff u'
    then Some ([0x5c; 0x75] ++ h ++ [0x5c; 0x75] ++ h', s) else None
  else if between 0xdc00 0xdfff u then None
  else Some ([0x5c; 0x75] ++ h, s).

(** Splits one character off a string body; [None] at a bad one. *)
Definition ref_char (s : list Z) : option (list Z * list Z) :=
  match s with
  | [] => None
  | c :: t =>
      if c =? 0x5c then
        match t with
        | [] => None
        | e :: t =>
            if e =? 0x75 then ref_unicode t
            else if simpleEscape e then Some ([0x5c; e], t) else None
        end
      else if c <? 0x20 then None
      else let rn := DecodeRune s in
           if runeBad rn then None else Some (take rn.2 s, drop rn.2 s)
  end.

(** The body of a string up to its closing quote, and what follows it. *)
Fixpoint ref_chars (fuel : nat) (s : list Z) : option (list Z * list Z) :=
  match fuel with
  | O => None
  | S fuel =>
      match expect 0x22 s with
      | Some t => Some ([], t)
      | None =>
          '(c, t) ← ref_char s;
          '(body, r) ← ref_chars fuel t;
          Some (c ++ body, r)
      end
  end.

Definition ref_body (s : list Z) : option (list Z * list Z) := ref_chars (S (length s)) s.

Definition ref_string (s : list Z) : option (list Z * list Z) :=
  s ← expect 0x22 s;
  '(body, r) ← ref_body s;
  Some (0x22 :: body ++ [0x22], r).

Fixpoint strip_prefix (p s : list Z) : option (list Z) :=
  match p, s with
  | [], _ => Some s
  | a :: p, b :: s => if a =? b then strip_prefix p s else None
  | _, [] => None
  end.

Definition ref_lit (l s : list Z) : option (jv * list Z) :=
  r ← strip_prefix l s; Some (JLit l, r).

Section RefParser.
Variables okv okc : nat -> bool.

Fixpoint ref_value (fuel d : nat) (s : list Z) : option (jv * list Z) :=
  match fuel with
  | O => None
  | S fuel =>
      if negb (okv d) then None
      else match s with
      | [] => None
      | c :: t =>
          if c =? 0x6e then ref_lit lit_null s
          else if c =? 0x74 then ref_lit lit_true s
          else if c =? 0x66 then ref_lit lit_false s
          else if c =? 0x22 then '(tok, r) ← ref_string s; Some (JStr tok, r)
          else if c =? 0x5b then
            if okc (S d) then ref_array fuel (S d) t else None
          else if c =? 0x7b then
            if okc (S d) then ref_object fuel (S d) t else None
          else if (c =? 0x2d) || isDigit c then
            '(p, r) ← ref_number s; Some (JNum (np_print p), r)
          else None
      end
  end
with ref_array (fuel d : nat) (s : list Z) : option (jv * list Z) :=
  match fuel with
  | O => None
  | S fuel =>
      match expect 0x5d (skip_ws s) with
      | Some r => Some (JArr [], r)
      | None => '(ts, r) ← ref_elems fuel d (skip_ws s); Some (JArr ts, r)
      end
  end
with ref_elems (fuel d : nat) (s : list Z) : option (list jv * list Z) :=
  match fuel with
  | O => None
  | S fuel =>
      '(t, r) ← ref_value fuel d (skip_ws s);
      match expect 0x2c (skip_ws r) with
      | Some r => '(ts, r) ← ref_elems fuel d r; Some (t :: ts, r)
      | None => r ← expect 0x5d (skip_ws r); Some ([t], r)
      end
  end
with ref_object (fuel d : nat) (s : list Z) : option (jv * list Z) :=
  match fuel with
  | O => None
  | S fuel =>
      match expect 0x7d (skip_ws s) with
      | Some r => Some (JObj [], r)
      | None => '(ms, r) ← ref_members fuel d (skip_ws s); Some (JObj ms, r)
      end
  end
with ref_members (fuel d : nat) (s : list Z) : option (list (list Z * jv) * list Z) :=
  match fuel with
  | O => None
  | S fuel =>
      '(k, r) ← ref_string (skip_ws s);
      r ← expect 0x3a (skip_ws r);
      '(t, r) ← ref_value fuel d (skip_ws r);
      match expect 0x2c (skip_ws r) with
      | Some r => '(ms, r) ← ref_members fuel d r; Some ((k, t) :: ms, r)
      | None => r ← expect 0x7d (skip_ws r); Some ([(k, t)], r)
      end
  end.

(** Unfolding equations. *)
Lemma ref_value_S fuel d s :
  ref_value (S fuel) d s =
      if negb (okv d) then None
      else match s with
      | [] => None
      | c :: t =>
          if c =? 0x6e then ref_lit lit_null s
          else if c =? 0x74 then ref_lit lit_true s
          else if c =? 0x66 then ref_lit lit_false s
          else if c =? 0x22 then '(tok, r) ← ref_string s; Some (JStr tok, r)
          else if c =? 0x5b then
            if okc (S d) then ref_array fuel (S d) t else None
          else if c =? 0x7b then
            if okc (S d) then ref_object fuel (S d) t else None
          else if (c =? 0x2d) || isDigit c then
            '(p, r) ← ref_number s; Some (JNum (np_print p), r)
          else None
      end.
Proof. reflexivity. Qed.
Lemma ref_array_S fuel d s :
  ref_array (S fuel) d s =
      match expect 0x5d (skip_ws s) with
      | Some r => Some (JArr [], r)
      | None => '(ts, r) ← ref_elems fuel d (skip_ws s); Some (JArr ts, r)
      end.
Proof. reflexivity. Qed.
Lemma ref_elems_S fuel d s :
  ref_elems (S fuel) d s =
      '(t, r) ← ref_value fuel d (skip_ws s);
      match expect 0x2c (skip_ws r) with
      | Some r => '(ts, r) ← ref_elems fuel d r; Some (t :: ts, r)
      | None => r ← expect 0x5d (skip_ws r); Some ([t], r)
      end.
Proof. reflexivity. Qed.
Lemma ref_object_S fuel d s :
  ref_object (S fuel) d s =
      match expect 0x7d (skip_ws s) with
      | Some r => Some (JObj [], r)
      | None => '(ms, r) ← ref_members fuel d (skip_ws s); Some (JObj ms, r)
      end.
Proof. reflexivity. Qed.
Lemma ref_members_S fuel d s :
  ref_members (S fuel) d s =
      '(k, r) ← ref_string (skip_ws s);
      r ← expect 0x3a (skip_ws r);
      '(t, r) ← ref_value fuel d (skip_ws r);
      match expect 0x2c (skip_ws r) with
      | Some r => '(ms, r) ← ref_members fuel d r; Some ((k, t) :: ms, r)
      | None => r ← expect 0x7d (skip_ws r); Some ([(k, t)], r)
      end.
Proof. reflexivity. Qed.

(** A whole text; three steps of fuel per byte are enough. *)
Definition ref_fuel (s : list Z) : nat := 4 + 3 * length s.
Definition ref_text (s : list Z) : option jv :=
  '(t, r) ← ref_value (ref_fuel s) 0 (skip_ws s);
  match skip_ws r with [] => Some t | _ => None end.
End RefParser.

Example ref_text_ex :
  ref_text (fun _ => true) (fun _ => true)
    [0x20; 0x5b; 0x31; 0x2c; 0x20; 0x22; 0x61; 0x22; 0x5d; 0x0a]
  = Some (JArr [JNum [0x31]; JStr [0x22; 0x61; 0x22]]).
Proof. reflexivity. Qed.

(** ** Lexical lemmas *)

Definition stops (p : Z -> bool) (s : list Z) : Prop :=
  match s with [] => True | c :: _ => p c = false end.

Lemma span_sound p s a b :
  span p s = (a, b) -> s = a ++ b /\ Forall (fun c => p c = true) a /\ stops p b.
Proof.
  revert a b. induction s as [|c s IH]; simpl; intros a b E; [by injection E as <- <-|].
  destruct (p c) eqn:Ec.
  - destruct (span p s) as [a' b'] eqn:E'. injection E as <- <-.
    destruct (IH _ _ eq_refl) as (-> & H1 & H2). split; [done|]. split; [by constructor|done].
  - by injection E as <- <-.
Qed.

Lemma span_complete p a b :
  Forall (fun c => p c = true) a -> stops p b -> span p (a ++ b) = (a, b).
Proof.
  intros Ha Hb. induction Ha as [|c a Hc _ IH]; simpl.
  - destruct b as [|c b]; simpl in *; [done|]. by rewrite Hb.
  - by rewrite Hc, IH.
Qed.

Lemma skip_ws_sound s : exists w, s = w ++ skip_ws s /\ ws w /\ stops isJSONWhitespace (skip_ws s).
Proof.
  unfold skip_ws. destruct (span isJSONWhitespace s) as [w r] eqn:E.
  apply span_sound in E as (E & H1 & H2). by exists w.
Qed.

Lemma skip_ws_stops s : stops isJSONWhitespace s -> skip_ws s = s.
Proof. intros H. unfold skip_ws. by rewrite (span_complete _ [] s). Qed.

Lemma skip_ws_app w s : ws w -> skip_ws (w ++ s) = skip_ws s.
Proof.
  intros H. unfold skip_ws. induction H as [|c w Hc _ IH]; simpl; [done|].
  rewrite Hc. rewrite <- IH. by destruct (span isJSONWhitespace (w ++ s)).
Qed.

Arguments span : simpl never.

Lemma span_nil p : span p [] = ([], []).
Proof. done. Qed.
Lemma span_cons p c t :
  span p (c :: t) = if p c then let '(a, b) := span p t in (c :: a, b) else ([], c :: t).
Proof. done. Qed.

Lemma skip_ws_idem s : skip_ws (skip_ws s) = skip_ws s.
Proof. apply skip_ws_stops. by destruct (skip_ws_sound s) as (? & _ & _ & ?). Qed.

Lemma expect_Some c s t : expect c s = Some t <-> s = c :: t.
Proof.
  destruct s as [|b s]; simpl; [done|]. destruct (Z.eqb_spec b c) as [->|N]; [naive_solver|].
  split; [done | naive_solver].
Qed.

Lemma expect_cons c t : expect c (c :: t) = Some t.
Proof. simpl. by rewrite Z.eqb_refl. Qed.

Lemma strip_prefix_Some l s t : strip_prefix l s = Some t <-> s = l ++ t.
Proof.
  revert s. induction l as [|a l IH]; intros s; simpl; [naive_solver|].
  destruct s as [|b s]; [done|]. destruct (Z.eqb_spec a b) as [->|N].
  - rewrite IH. split; [by intros -> | by intros [= ->]].
  - split; [done|]. by intros [= -> _].
Qed.

(** Peels the binds of a successful [option] computation. *)
Ltac peel H :=
  repeat match type of H with
  | mbind _ ?m = Some _ =>
      let E := fresh "E" in destruct m as [?|] eqn:E; simpl in H; [|discriminate H]
  | (let '(_, _) := ?x in _) = Some _ => destruct x; simpl in H
  | match ?x with (_, _) => _ end = Some _ => destruct x; simpl in H
  end.

(** *** Numbers *)

Definition num_stop (s : list Z) : Prop :=
  match s with
  | [] => True
  | c :: _ => isDigit c = false /\ c <> 0x2e /\ c <> 0x65 /\ c <> 0x45
  end.

Lemma num_stop_digit s : num_stop s -> stops isDigit s.
Proof. destruct s; simpl; [done|]. tauto. Qed.

Lemma ref_exp_sound s e r :
  ref_exp s = Some (e, r) ->
  s = np_exp_bytes (NumParts false [] [] e) ++ r /\
  match e with
  | None => True
  | Some (c, sgn, ds) =>
      (c = 0x65 \/ c = 0x45) /\ (forall c, sgn = Some c -> c = 0x2b \/ c = 0x2d) /\
      ds <> [] /\ digits ds
  end.
Proof.
  unfold ref_exp. destruct s as [|c t]; [by intros [= <- <-]|].
  destruct ((c =? 0x65) || (c =? 0x45)) eqn:Ec; [|by intros [= <- <-]].
  assert (Hc : c = 0x65 \/ c = 0x45) by lia.
  assert (D : forall sgn t', (forall c, sgn = Some c -> c = 0x2b \/ c = 0x2d) ->
    t = match sgn with Some c => [c] | None => [] end ++ t' ->
    match span isDigit t' with ([], _) => None | (ds, r) => Some (Some (c, sgn, ds), r) end
      = Some (e, r) ->
    c :: t = np_exp_bytes (NumParts false [] [] e) ++ r /\
    match e with
    | None => True
    | Some (c, sgn, ds) =>
        (c = 0x65 \/ c = 0x45) /\ (forall c, sgn = Some c -> c = 0x2b \/ c = 0x2d) /\
        ds <> [] /\ digits ds
    end).
  { intros sgn t' Hsgn -> H. destruct (span isDigit t') as [[|d ds] q] eqn:E; [done|].
    injection H as <- <-. apply span_sound in E as (-> & E1 & _).
    unfold np_exp_bytes. simpl. split; [by rewrite <- app_assoc|]. done. }
  destruct t as [|c' t']; [by apply (D None)|].
  destruct ((c' =? 0x2b) || (c' =? 0x2d)) eqn:Ec'.
  - apply D; [|done]. intros ? [= <-]. lia.
  - by apply (D None).
Qed.

Lemma ref_number_sound s p r :
  ref_number s = Some (p, r) -> np_ok p /\ s = np_print p ++ r.
Proof.
  unfold ref_number. intros H.
  assert (S1 : s = (if (ref_sign s).1 then [0x2d] else []) ++ (ref_sign s).2).
  { unfold ref_sign. destruct s as [|c t]; [done|].
    destruct (Z.eqb_spec c 0x2d) as [->|]; done. }
  destruct (ref_sign s) as [neg s1]. simpl in S1. peel H. injection H as <- <-.
  assert (I : jint l /\ s1 = l ++ l0).
  { unfold ref_int in E. destruct s1 as [|c t]; [done|].
    destruct (Z.eqb_spec c 0x30) as [->|]; [injection E as <- <-; split; [by left|done]|].
    destruct (isOneNine c) eqn:Ec; [|done]. destruct (span isDigit t) as [ds q] eqn:Es.
    injection E as <- <-. apply span_sound in Es as (-> & Es & _).
    split; [right; by exists c, ds|done]. }
  destruct I as [I ->].
  assert (F : digits l1 /\ l0 = match l1 with [] => [] | f => 0x2e :: f end ++ l2).
  { unfold ref_frac in E0. destruct l0 as [|c t]; [by injection E0 as <- <-; split; [constructor|]|].
    destruct (Z.eqb_spec c 0x2e) as [->|]; [|by injection E0 as <- <-; split; [constructor|]].
    destruct (span isDigit t) as [[|d ds] q] eqn:Es; [done|]. injection E0 as <- <-.
    apply span_sound in Es as (-> & Es & _). done. }
  destruct F as [F ->]. apply ref_exp_sound in E1 as [-> X].
  split; [done|]. rewrite S1. unfold np_print, np_sign_bytes, np_frac_bytes. simpl.
  rewrite <- !app_assoc. by destruct l1.
Qed.

Lemma ref_exp_complete e r :
  (match e with
   | None => True
   | Some (c, sgn, ds) =>
       (c = 0x65 \/ c = 0x45) /\ (forall c, sgn = Some c -> c = 0x2b \/ c = 0x2d) /\
       ds <> [] /\ digits ds
   end) -> num_stop r -> ref_exp (np_exp_bytes (NumParts false [] [] e) ++ r) = Some (e, r).
Proof.
  intros H S. unfold ref_exp, np_exp_bytes. destruct e as [[[c sgn] ds]|]; simpl.
  - destruct H as (Hc & Hs & Hne & Hd).
    replace ((c =? 0x65) || (c =? 0x45)) with true by lia.
    destruct ds as [|d ds]; [done|].
    assert (Sp : span isDigit ((d :: ds) ++ r) = (d :: ds, r))
      by (apply span_complete; [done|by apply num_stop_digit]).
    destruct sgn as [c'|]; simpl.
    + specialize (Hs _ eq_refl). replace ((c' =? 0x2b) || (c' =? 0x2d)) with true by lia.
      simpl in Sp. by rewrite Sp.
    + apply Forall_cons in Hd as [Hd _]. unfold isDigit in Hd.
      replace ((d =? 0x2b) || (d =? 0x2d)) with false by lia.
      simpl in Sp. by rewrite Sp.
  - destruct r as [|c r]; [done|]. simpl in S. by replace ((c =? 0x65) || (c =? 0x45)) with false by lia.
Qed.

Lemma ref_number_complete p r :
  np_ok p -> num_stop r -> ref_number (np_print p ++ r) = Some (p, r).
Proof.
  intros (HI & HF & HE) S. destruct p as [neg int frac exp]. simpl in *.
  unfold ref_number, np_print, np_sign_bytes. cbn [np_neg np_int].
  rewrite <- !app_assoc. change (np_exp_bytes _) with (np_exp_bytes (NumParts false [] [] exp)).
  set (er := np_exp_bytes (NumParts false [] [] exp) ++ r).
  set (fr := np_frac_bytes _ ++ er).
  assert (Ser : stops isDigit er /\ (stops (fun c => c =? 0x2e) er)).
  { unfold er, np_exp_bytes. simpl. destruct exp as [[[c sgn] ds]|].
    - destruct HE as ([->| ->] & _); done.
    - destruct r as [|c r]; simpl in *; [done|]. split; [tauto|lia]. }
  destruct Ser as [Ser1 Ser2].
  assert (Sfr : stops isDigit fr) by (unfold fr, np_frac_bytes; destruct frac; done).
  assert (R1 : ref_sign ((if neg then [0x2d] else []) ++ int ++ fr) = (neg, int ++ fr)).
  { destruct neg; [done|]. destruct HI as [->|(d & ds & -> & Hd & _)]; [done|].
    simpl. unfold isOneNine in Hd. by replace (d =? 0x2d) with false by lia. }
  rewrite R1. simpl.
  assert (R2 : ref_int (int ++ fr) = Some (int, fr)).
  { destruct HI as [->|(d & ds & -> & Hd & Hds)]; [done|]. simpl.
    pose proof Hd as Hd'. unfold isOneNine in Hd'. replace (d =? 0x30) with false by lia.
    by rewrite Hd, span_complete. }
  rewrite R2. simpl.
  assert (R3 : ref_frac fr = Some (frac, er)).
  { unfold fr, np_frac_bytes, ref_frac. destruct frac as [|d ds].
    - simpl. destruct er as [|c er']; [done|]. simpl in Ser2. by rewrite Ser2.
    - pose proof (span_complete isDigit (d :: ds) er HF Ser1) as Sp. simpl in *. by rewrite Sp. }
  rewrite R3. simpl. unfold er. by rewrite ref_exp_complete.
Qed.

(** *** Strings *)

Lemma ref_hex4_sound s u h t :
  ref_hex4 s = Some (u, h, t) ->
  exists a b c d, h = [a; b; c; d] /\ hex4val a b c d = Some u /\ s = h ++ t.
Proof.
  unfold ref_hex4. destruct s as [|a [|b [|c [|d s]]]]; try done. intros H.
  peel H. injection H as <- <- <-. by exists a, b, c, d.
Qed.

Lemma ref_char_sound s c t :
  ref_char s = Some (c, t) -> expect 0x22 s = None ->
  jchar c /\ s = c ++ t /\ (0 < length c)%nat.
Proof.
  unfold ref_char. destruct s as [|b s]; [done|]. intros H Q. revert H. destruct (Z.eqb_spec b 0x5c) as [->|Nb].
  - destruct s as [|e s]; [done|]. destruct (Z.eqb_spec e 0x75) as [->|Ne].
    + unfold ref_unicode. intros H. peel H.
      apply ref_hex4_sound in E as (a1 & b1 & c1 & d1 & -> & Hu & ->).
      destruct (between 0xd800 0xdbff z) eqn:B1.
      * peel H. destruct (between 0xdc00 0xdfff z0) eqn:B2; [|done]. injection H as <- <-.
        apply expect_Some in E as ->. apply expect_Some in E0 as ->.
        apply ref_hex4_sound in E1 as (a2 & b2 & c2 & d2 & -> & Hu2 & ->).
        split; [|split; [done|simpl; lia]]. by eapply jc_pair.
      * destruct (between 0xdc00 0xdfff z) eqn:B2; [done|]. injection H as <- <-.
        split; [|split; [done|simpl; lia]]. eapply jc_unicode; [done|].
        unfold between in *. lia.
    + destruct (simpleEscape e) eqn:Ee; [|done]. intros [= <- <-].
      split; [by constructor|]. split; [done|simpl; lia].
  - destruct (Z.ltb_spec b 0x20); [done|].
    destruct (runeBad (DecodeRune (b :: s))) eqn:G; [done|]. intros [= <- <-].
    destruct (DecodeRune_good b s ltac:(lia) G) as (r & t & E & Hr & D).
    rewrite D. simpl snd. rewrite E, take_app_length, drop_app_length.
    destruct (EncodeRune_head r Hr) as (b' & t' & E' & Hb'). rewrite E' in E.
    injection E as -> ->.
    split; [|split; [by rewrite E'|rewrite E'; simpl; lia]].
    apply jc_plain; [done| | |]; (destruct (decide (0x80 <= r)); [lia|]);
      rewrite EncodeRune_low in E' by (destruct Hr; lia); injection E' as -> <-; [lia| |done].
    simpl in Q. by destruct (Z.eqb_spec b' 0x22).
Qed.

(** A character of the grammar is what [ref_char] splits off. *)
Lemma ref_char_complete c t :
  jchar c -> ref_char (c ++ t) = Some (c, t) /\ expect 0x22 (c ++ t) = None.
Proof.
  intros H. destruct H as [r Hr L1 L2 L3|e He|a b c d u Hu B|a b c d u a' b' c' d' u' Hu B Hu' B'].
  - pose proof (DecodeRune_EncodeRune r t Hr) as D. pose proof (EncodeRune_not_bad r Hr) as G.
    destruct (EncodeRune_head r Hr) as (h & q & E & Hh).
    assert (Hh2 : 0x20 <= h /\ h <> 0x22 /\ h <> 0x5c).
    { destruct (decide (0x80 <= r)); [lia|]. rewrite EncodeRune_low in E by (destruct Hr; lia).
      injection E as -> _. lia. }
    unfold ref_char. rewrite E in *. simpl app in *. cbv beta iota zeta.
    replace (h =? 0x5c) with false by lia. replace (h <? 0x20) with false by lia.
    rewrite D, G. simpl expect. replace (h =? 0x22) with false by lia. split; [|done].
    pose proof (take_app_length (h :: q) t) as T1. pose proof (drop_app_length (h :: q) t) as T2.
    simpl in T1, T2. simpl. by rewrite T1, T2.
  - unfold ref_char. simpl. assert (e <> 0x75) by (intros ->; done).
    replace (e =? 0x75) with false by lia. by rewrite He.
  - unfold ref_char, ref_unicode. simpl. rewrite Hu. simpl. unfold between in *.
    replace ((0xd800 <=? u) && (u <=? 0xdbff)) with false by lia.
    by replace ((0xdc00 <=? u) && (u <=? 0xdfff)) with false by lia.
  - unfold ref_char, ref_unicode. simpl. rewrite Hu. simpl. rewrite B. simpl. rewrite Hu'. simpl.
    by rewrite B'.
Qed.

Lemma jchar_length c : jchar c -> (0 < length c)%nat.
Proof. destruct 1; simpl; try lia. by apply EncodeRune_length. Qed.

Lemma ref_chars_sound fuel s body r :
  ref_chars fuel s = Some (body, r) -> jchars body /\ s = body ++ 0x22 :: r.
Proof.
  revert s body r. induction fuel as [|fuel IH]; intros s body r H; [done|]. simpl in H.
  destruct (expect 0x22 s) as [t|] eqn:Q.
  - injection H as <- <-. apply expect_Some in Q as ->. split; [constructor|done].
  - peel H. injection H as <- <-. apply ref_char_sound in E as (J & -> & _); [|done].
    apply IH in E0 as [Js ->]. split; [by constructor|]. by rewrite <- app_assoc.
Qed.

Lemma ref_chars_complete fuel body r :
  jchars body -> (length body < fuel)%nat -> ref_chars fuel (body ++ 0x22 :: r) = Some (body, r).
Proof.
  intros H. revert fuel. induction H as [|c s Hc _ IH]; intros fuel L;
    (destruct fuel as [|fuel]; [lia|]).
  - done.
  - rewrite length_app in L. pose proof (jchar_length c Hc). simpl. rewrite <- app_assoc.
    destruct (ref_char_complete c (s ++ 0x22 :: r) Hc) as [-> ->]. simpl.
    by rewrite IH by lia.
Qed.

Lemma ref_body_spec s body r :
  ref_body s = Some (body, r) <-> jchars body /\ s = body ++ 0x22 :: r.
Proof.
  unfold ref_body. split; [apply ref_chars_sound|]. intros [H ->].
  apply ref_chars_complete; [done|]. rewrite length_app. simpl. lia.
Qed.

(** The fuel-free reading of the body parser. *)
Lemma ref_body_unfold s :
  ref_body s =
  match expect 0x22 s with
  | Some t => Some ([], t)
  | None => '(c, t) ← ref_char s; '(body, r) ← ref_body t; Some (c ++ body, r)
  end.
Proof.
  destruct (expect 0x22 s) as [t|] eqn:Q; [unfold ref_body; simpl; by rewrite Q|].
  destruct (ref_char s) as [[c t]|] eqn:E; simpl; [|unfold ref_body; simpl; by rewrite Q, E].
  destruct (ref_char_sound _ _ _ E Q) as (J & -> & _).
  destruct (ref_body t) as [[body r]|] eqn:E2; simpl.
  - apply ref_body_spec in E2 as [Jb ->]. apply ref_body_spec.
    split; [by constructor|]. by rewrite <- app_assoc.
  - destruct (ref_body (c ++ t)) as [[b' r']|] eqn:E3; [|done]. exfalso.
    unfold ref_body in E3. simpl in E3. rewrite Q, E in E3. simpl in E3.
    destruct (ref_chars _ t) as [[b2 r2]|] eqn:E4 in E3; [|done].
    apply ref_chars_sound in E4. apply ref_body_spec in E4. by rewrite E2 in E4.
Qed.

Lemma ref_string_spec s tok r :
  ref_string s = Some (tok, r) <-> jstring tok /\ s = tok ++ r.
Proof.
  unfold ref_string, jstring. split.
  - intros H. peel H. injection H as <- <-. apply expect_Some in E as ->.
    apply ref_body_spec in E0 as [J ->]. split; [by eexists|]. simpl. by rewrite <- app_assoc.
  - intros [(body & J & ->) ->]. simpl. rewrite <- app_assoc. simpl.
    by rewrite (proj2 (ref_body_spec (body ++ 0x22 :: r) body r)).
Qed.

(** *** Values *)

Lemma jstring_head k : jstring k -> exists k', k = 0x22 :: k'.
Proof. intros (body & _ & ->). by eexists. Qed.

Lemma jint_head s : jint s -> exists c s', s = c :: s' /\ isDigit c = true.
Proof.
  intros [->|(d & ds & -> & H & _)]; eexists _, _; (split; [done|]); [done|].
  unfold isOneNine, isDigit in *. lia.
Qed.

(** A number starts with a minus or a digit. *)
Lemma jnumber_head tok :
  jnumber tok -> exists c s, tok = c :: s /\ ((c =? 0x2d) || isDigit c) = true.
Proof.
  intros (p & (I & _) & ->). unfold np_print, np_sign_bytes. destruct (np_neg p).
  - eexists _, _. split; [done|]. done.
  - apply jint_head in I as (c & s & -> & H). eexists _, _. split; [done|]. rewrite H.
    apply orb_true_r.
Qed.

Lemma jvalue_head t v :
  jvalue t v -> exists c v', v = c :: v' /\ isJSONWhitespace c = false /\ c <> 0x5d /\ c <> 0x7d.
Proof.
  destruct 1 as [s [->|[->| ->]]|tok H|tok H| | | |]; try by eexists _, _.
  - apply jnumber_head in H as (c & s & -> & H). eexists _, _. split; [done|].
    unfold isDigit, isJSONWhitespace in *. lia.
  - apply jstring_head in H as (k & ->). by eexists _, _.
Qed.

Lemma skip_ws_value w t v s : ws w -> jvalue t v -> skip_ws (w ++ v ++ s) = v ++ s.
Proof.
  intros W H. rewrite skip_ws_app by done. apply skip_ws_stops.
  apply jvalue_head in H as (c & v' & -> & H & _). done.
Qed.

Lemma skip_ws_string w k s : ws w -> jstring k -> skip_ws (w ++ k ++ s) = k ++ s.
Proof.
  intros W H. rewrite skip_ws_app by done. apply skip_ws_stops.
  by apply jstring_head in H as (k' & ->).
Qed.

Lemma skip_ws_cons w c s : ws w -> isJSONWhitespace c = false -> skip_ws (w ++ c :: s) = c :: s.
Proof. intros W H. rewrite skip_ws_app by done. by apply skip_ws_stops. Qed.

Lemma num_stop_ws w c s :
  ws w -> num_stop (c :: s) -> num_stop (w ++ c :: s).
Proof.
  intros W H. destruct W as [|b w Hb W]; [done|]. simpl.
  unfold isJSONWhitespace, isDigit in *. lia.
Qed.

Section RefParserProofs.
Variables okv okc : nat -> bool.
Abbreviation ok := (depth_ok okv okc).
Abbreviation okall d ts := (forallb (ok d) ts).
Abbreviation okallm d ms := (forallb (fun m => ok d m.2) ms).

Lemma depth_ok_arr d ts : ok d (JArr ts) = okv d && (okc (S d) && okall (S d) ts).
Proof. done. Qed.
Lemma depth_ok_obj d ms : ok d (JObj ms) = okv d && (okc (S d) && okallm (S d) ms).
Proof. done. Qed.

Lemma ref_sound fuel :
  (forall d s t r, ref_value okv okc fuel d s = Some (t, r) ->
     exists v, s = v ++ r /\ jvalue t v /\ ok d t = true) /\
  (forall d s t r, ref_array okv okc fuel d s = Some (t, r) ->
     exists ts v, t = JArr ts /\ s = v ++ 0x5d :: r /\ jvalue t (0x5b :: v ++ [0x5d]) /\
                  okall d ts = true) /\
  (forall d s ts r, ref_elems okv okc fuel d s = Some (ts, r) ->
     exists v, s = v ++ 0x5d :: r /\ jelems ts v /\ okall d ts = true) /\
  (forall d s t r, ref_object okv okc fuel d s = Some (t, r) ->
     exists ms v, t = JObj ms /\ s = v ++ 0x7d :: r /\ jvalue t (0x7b :: v ++ [0x7d]) /\
                  okallm d ms = true) /\
  (forall d s ms r, ref_members okv okc fuel d s = Some (ms, r) ->
     exists v, s = v ++ 0x7d :: r /\ jmembers ms v /\ okallm d ms = true).
Proof.
  induction fuel as [|fuel (IHv & IHa & IHe & IHo & IHm)]; [done|].
  split_and!; intros d s t r H; simpl in H.
  - destruct (okv d) eqn:Ed; simpl in H; [|done]. destruct s as [|c s]; [done|].
    assert (L : forall l, ref_lit l (c :: s) = Some (t, r) ->
      l = lit_null \/ l = lit_true \/ l = lit_false ->
      exists v, c :: s = v ++ r /\ jvalue t v /\ ok d t = true).
    { intros l Hl. unfold ref_lit in Hl. peel Hl. injection Hl as <- <-.
      apply strip_prefix_Some in E as ->. exists l. split; [done|]. split; [by constructor|].
      simpl. by rewrite Ed. }
    repeat case_match; try (by apply (L _ H); auto); try done.
    + peel H. injection H as <- <-. apply ref_string_spec in E as [J E]. exists l.
      split; [done|]. split; [by constructor|]. simpl. by rewrite Ed.
    + assert (c = 0x5b) as -> by lia. apply IHa in H as (ts & v & -> & -> & J & K).
      eexists. split; [|split; [exact J|]]; [simpl; by rewrite <- app_assoc|].
      rewrite depth_ok_arr. by rewrite Ed, K, andb_true_r.
    + assert (c = 0x7b) as -> by lia. apply IHo in H as (ts & v & -> & -> & J & K).
      eexists. split; [|split; [exact J|]]; [simpl; by rewrite <- app_assoc|].
      rewrite depth_ok_obj. by rewrite Ed, K, andb_true_r.
    + peel H. injection H as <- <-. apply ref_number_sound in E as [J E]. eexists.
      split; [done|]. split; [constructor; by eexists|]. simpl. by rewrite Ed.
  - destruct (skip_ws_sound s) as (w & Es & W & _).
    destruct (expect 0x5d (skip_ws s)) as [q|] eqn:Q.
    + injection H as <- <-. apply expect_Some in Q. exists [], w.
      split; [done|]. rewrite <- Q. split; [done|]. split; [by constructor|done].
    + peel H. injection H as <- <-. apply IHe in E as (v & Ev & J & K).
      exists l, (w ++ v). split; [done|]. rewrite <- app_assoc, <- Ev. split; [done|].
      split; [|done]. apply jv_arr. destruct J as [t0 w1 s0 w2 W1 J1 W2|t0 ts0 w1 s0 w2 s' W1 J1 W2 Je].
      * rewrite app_assoc. apply je_one; [by apply Forall_app|done..].
      * rewrite app_assoc. apply je_cons; [by apply Forall_app|done..].
  - peel H. destruct (skip_ws_sound s) as (w & Es & W & _).
    destruct (skip_ws_sound l) as (w2 & El & W2 & _).
    apply IHv in E as (v & Ev & J & K). rewrite Ev, El in Es.
    destruct (expect 0x2c (skip_ws l)) as [q|] eqn:Q.
    + peel H. injection H as <- <-. apply expect_Some in Q.
      apply IHe in E as (v' & -> & J' & K'). rewrite Q in Es.
      exists (w ++ v ++ w2 ++ 0x2c :: v').
      split; [rewrite Es, <- !app_assoc; simpl; by rewrite <- ?app_assoc|].
      split; [by apply je_cons|]. simpl. by rewrite K, K'.
    + peel H. injection H as <- <-. apply expect_Some in E. rewrite E in Es.
      exists (w ++ v ++ w2). split; [by rewrite Es, <- !app_assoc|].
      split; [by apply je_one|]. simpl. by rewrite K.
  - destruct (skip_ws_sound s) as (w & Es & W & _).
    destruct (expect 0x7d (skip_ws s)) as [q|] eqn:Q.
    + injection H as <- <-. apply expect_Some in Q. exists [], w.
      split; [done|]. rewrite <- Q. split; [done|]. split; [by constructor|done].
    + peel H. injection H as <- <-. apply IHm in E as (v & Ev & J & K).
      exists l, (w ++ v). split; [done|]. rewrite <- app_assoc, <- Ev. split; [done|].
      split; [|done]. apply jv_obj. destruct J as [k t0 w1 w2 w3 s0 w4 W1|k t0 ms0 w1 w2 w3 s0 w4 s' W1].
      * rewrite app_assoc. apply jm_one; [by apply Forall_app|done..].
      * rewrite app_assoc. apply jm_cons; [by apply Forall_app|done..].
  - peel H. destruct (skip_ws_sound s) as (w & Es & W & _).
    apply ref_string_spec in E as [Jk Ek]. apply expect_Some in E0.
    destruct (skip_ws_sound l0) as (w1 & El0 & W1 & _). rewrite E0 in El0.
    destruct (skip_ws_sound l1) as (w2 & El1 & W2 & _).
    apply IHv in E1 as (v & Ev & J & K).
    destruct (skip_ws_sound l2) as (w3 & El2 & W3 & _).
    rewrite Ek, El0, El1, Ev, El2 in Es.
    destruct (expect 0x2c (skip_ws l2)) as [q|] eqn:Q.
    + peel H. injection H as <- <-. apply expect_Some in Q.
      apply IHm in E as (v' & -> & J' & K'). rewrite Q in Es.
      exists (w ++ l ++ w1 ++ 0x3a :: w2 ++ v ++ w3 ++ 0x2c :: v').
      split; [rewrite Es; repeat (rewrite <- !app_assoc; simpl); done|].
      split; [by apply jm_cons|]. simpl. by rewrite K, K'.
    + peel H. injection H as <- <-. apply expect_Some in E. rewrite E in Es.
      exists (w ++ l ++ w1 ++ 0x3a :: w2 ++ v ++ w3).
      split; [rewrite Es; repeat (rewrite <- !app_assoc; simpl); done|].
      split; [by apply jm_one|]. simpl. by rewrite K.
Qed.

Lemma ref_elems_skip fuel d s :
  ref_elems okv okc fuel d (skip_ws s) = ref_elems okv okc fuel d s.
Proof. destruct fuel; simpl; [done|]. by rewrite skip_ws_idem. Qed.
Lemma ref_members_skip fuel d s :
  ref_members okv okc fuel d (skip_ws s) = ref_members okv okc fuel d s.
Proof. destruct fuel; simpl; [done|]. by rewrite skip_ws_idem. Qed.

Lemma jelems_open ts s r : jelems ts s -> expect 0x5d (skip_ws (s ++ r)) = None.
Proof.
  intros J.
  assert (exists w t v q, ws w /\ jvalue t v /\ s ++ r = w ++ v ++ q) as (w & t & v & q & W & V & ->).
  { destruct J; repeat (rewrite <- !app_assoc; simpl);
    (eexists _, _, _, _; split_and!; [| |reflexivity]; eassumption). }
  erewrite skip_ws_value by done. apply jvalue_head in V as (c & v' & -> & _ & H & _). simpl.
  by replace (c =? 0x5d) with false by lia.
Qed.
Lemma jmembers_open ms s r : jmembers ms s -> expect 0x7d (skip_ws (s ++ r)) = None.
Proof.
  intros J.
  assert (exists w k q, ws w /\ jstring k /\ s ++ r = w ++ k ++ q) as (w & k & q & W & V & ->).
  { destruct J; repeat (rewrite <- !app_assoc; simpl);
    (eexists _, _, _; split_and!; [| |reflexivity]; eassumption). }
  erewrite skip_ws_string by done. by apply jstring_head in V as (k' & ->).
Qed.

Definition complete_value (t : jv) (v : list Z) : Prop := forall fuel d r,
  ok d t = true -> num_stop r -> (3 * length v <= fuel)%nat ->
  ref_value okv okc fuel d (v ++ r) = Some (t, r).
Definition complete_elems (ts : list jv) (s : list Z) : Prop := forall fuel d r,
  okall d ts = true -> (3 * length s < fuel)%nat ->
  ref_elems okv okc fuel d (s ++ 0x5d :: r) = Some (ts, r).
Definition complete_members (ms : list (list Z * jv)) (s : list Z) : Prop := forall fuel d r,
  okallm d ms = true -> (3 * length s < fuel)%nat ->
  ref_members okv okc fuel d (s ++ 0x7d :: r) = Some (ms, r).

Lemma complete_lit s : s = lit_null \/ s = lit_true \/ s = lit_false -> complete_value (JLit s) s.
Proof.
  intros Hs fuel d r K _ L.
  destruct fuel as [|fuel]; [destruct Hs as [->|[->| ->]]; simpl in L; lia|].
  simpl in K. rewrite andb_true_r in K. simpl. rewrite K.
  destruct Hs as [->|[->| ->]]; reflexivity.
Qed.

Lemma complete_num tok : jnumber tok -> complete_value (JNum tok) tok.
Proof.
  intros J fuel d r K St L. destruct (jnumber_head _ J) as (c & q & E & Hc).
  destruct fuel as [|fuel]; [rewrite E in L; simpl in L; lia|].
  simpl in K. rewrite andb_true_r in K. simpl. rewrite K. simpl.
  destruct J as (p & Hp & ->). rewrite ref_number_complete by done. rewrite E at 1. simpl.
  unfold isDigit in Hc. replace (c =? 0x6e) with false by lia.
  replace (c =? 0x74) with false by lia. replace (c =? 0x66) with false by lia.
  replace (c =? 0x22) with false by lia. replace (c =? 0x5b) with false by lia.
  replace (c =? 0x7b) with false by lia. unfold isDigit. by rewrite Hc.
Qed.

Lemma complete_str tok : jstring tok -> complete_value (JStr tok) tok.
Proof.
  intros J fuel d r K St L. destruct (jstring_head _ J) as (k & E).
  destruct fuel as [|fuel]; [rewrite E in L; simpl in L; lia|].
  simpl in K. rewrite andb_true_r in K. simpl. rewrite K. simpl.
  rewrite (proj2 (ref_string_spec (tok ++ r) tok r)) by done.
  rewrite E at 1. done.
Qed.

Lemma complete_arr0 w : ws w -> complete_value (JArr []) (0x5b :: w ++ [0x5d]).
Proof.
  intros W fuel d r K St L. rewrite depth_ok_arr in K. apply andb_true_iff in K as [K1 K2].
  apply andb_true_iff in K2 as [K2 _].
  simpl in L. rewrite length_app in L. simpl in L. destruct fuel as [|[|fuel]]; [lia..|].
  simpl. rewrite K1, K2, <- app_assoc. simpl. by rewrite skip_ws_cons.
Qed.

Lemma complete_obj0 w : ws w -> complete_value (JObj []) (0x7b :: w ++ [0x7d]).
Proof.
  intros W fuel d r K St L. rewrite depth_ok_obj in K. apply andb_true_iff in K as [K1 K2].
  apply andb_true_iff in K2 as [K2 _].
  simpl in L. rewrite length_app in L. simpl in L. destruct fuel as [|[|fuel]]; [lia..|].
  simpl. rewrite K1, K2, <- app_assoc. simpl. by rewrite skip_ws_cons.
Qed.

Lemma complete_arr ts s :
  jelems ts s -> complete_elems ts s -> complete_value (JArr ts) (0x5b :: s ++ [0x5d]).
Proof.
  intros J IH fuel d r K St L. rewrite depth_ok_arr in K.
  apply andb_true_iff in K as [K1 K2]. apply andb_true_iff in K2 as [K2 K3].
  simpl in L. rewrite length_app in L. simpl in L. destruct fuel as [|[|fuel]]; [lia..|].
  simpl. rewrite K1, K2, <- app_assoc. simpl. rewrite (jelems_open ts) by done.
  by rewrite ref_elems_skip, IH by (done || lia).
Qed.

Lemma complete_obj ms s :
  jmembers ms s -> complete_members ms s -> complete_value (JObj ms) (0x7b :: s ++ [0x7d]).
Proof.
  intros J IH fuel d r K St L. rewrite depth_ok_obj in K.
  apply andb_true_iff in K as [K1 K2]. apply andb_true_iff in K2 as [K2 K3].
  simpl in L. rewrite length_app in L. simpl in L. destruct fuel as [|[|fuel]]; [lia..|].
  simpl. rewrite K1, K2, <- app_assoc. simpl. rewrite (jmembers_open ms) by done.
  by rewrite ref_members_skip, IH by (done || lia).
Qed.

(** One element and its separator, shared by the two list productions. *)
Lemma complete_item t v w1 w2 c q fuel d :
  ws w1 -> jvalue t v -> ws w2 -> complete_value t v -> num_stop (c :: q) ->
  isJSONWhitespace c = false -> ok d t = true -> (3 * length v <= fuel)%nat ->
  exists r, ref_value okv okc fuel d (skip_ws (w1 ++ v ++ w2 ++ c :: q)) = Some (t, r) /\
            skip_ws r = c :: q.
Proof.
  intros W1 J W2 IH St Hc K L. exists (w2 ++ c :: q).
  rewrite (skip_ws_value _ t) by done. split; [|by apply skip_ws_cons].
  apply IH; [done|by apply num_stop_ws|done].
Qed.

Lemma complete_e1 t w1 v w2 :
  ws w1 -> jvalue t v -> complete_value t v -> ws w2 -> complete_elems [t] (w1 ++ v ++ w2).
Proof.
  intros W1 J IH W2 fuel d r K L. simpl in K. rewrite andb_true_r in K.
  rewrite !length_app in L. destruct fuel as [|fuel]; [lia|]. rewrite <- !app_assoc. simpl.
  destruct (complete_item t v w1 w2 0x5d r fuel d) as (q & -> & E); [done..|lia|]. simpl.
  by rewrite E.
Qed.

Lemma complete_es t ts w1 v w2 s' :
  ws w1 -> jvalue t v -> complete_value t v -> ws w2 -> jelems ts s' -> complete_elems ts s' ->
  complete_elems (t :: ts) (w1 ++ v ++ w2 ++ 0x2c :: s').
Proof.
  intros W1 J IH W2 _ IHs fuel d r K L. simpl in K. apply andb_true_iff in K as [K1 K2].
  rewrite !length_app in L. simpl in L. destruct fuel as [|fuel]; [lia|].
  repeat (rewrite <- !app_assoc; simpl).
  destruct (complete_item t v w1 w2 0x2c (s' ++ 0x5d :: r) fuel d) as (q & -> & E);
    [done..|lia|]. simpl. rewrite E. simpl. by rewrite IHs by (done || lia).
Qed.

(** A member key, its colon and the value that follows. *)
Lemma complete_key k w1 w2 q :
  ws w1 -> jstring k -> ws w2 ->
  exists r, ref_string (skip_ws (w1 ++ k ++ w2 ++ 0x3a :: q)) = Some (k, r) /\
            expect 0x3a (skip_ws r) = Some q.
Proof.
  intros W1 J W2. exists (w2 ++ 0x3a :: q). rewrite skip_ws_string by done.
  rewrite skip_ws_cons by done. split; [by apply ref_string_spec|done].
Qed.

Lemma complete_m1 k t w1 w2 w3 v w4 :
  ws w1 -> jstring k -> ws w2 -> ws w3 -> jvalue t v -> complete_value t v -> ws w4 ->
  complete_members [(k, t)] (w1 ++ k ++ w2 ++ 0x3a :: w3 ++ v ++ w4).
Proof.
  intros W1 Jk W2 W3 J IH W4 fuel d r K L. simpl in K. rewrite andb_true_r in K.
  repeat (rewrite !length_app in L; simpl in L). destruct fuel as [|fuel]; [lia|].
  repeat (rewrite <- !app_assoc; simpl).
  destruct (complete_key k w1 w2 (w3 ++ v ++ w4 ++ 0x7d :: r)) as (r1 & -> & E1); [done..|].
  simpl. rewrite E1. simpl.
  destruct (complete_item t v w3 w4 0x7d r fuel d) as (q & -> & E); [done..|lia|]. simpl.
  by rewrite E.
Qed.

Lemma complete_ms k t ms w1 w2 w3 v w4 s' :
  ws w1 -> jstring k -> ws w2 -> ws w3 -> jvalue t v -> complete_value t v -> ws w4 ->
  jmembers ms s' -> complete_members ms s' ->
  complete_members ((k, t) :: ms) (w1 ++ k ++ w2 ++ 0x3a :: w3 ++ v ++ w4 ++ 0x2c :: s').
Proof.
  intros W1 Jk W2 W3 J IH W4 _ IHs fuel d r K L. simpl in K.
  apply andb_true_iff in K as [K1 K2].
  repeat (rewrite !length_app in L; simpl in L). destruct fuel as [|fuel]; [lia|].
  repeat (rewrite <- !app_assoc; simpl).
  destruct (complete_key k w1 w2 (w3 ++ v ++ w4 ++ 0x2c :: s' ++ 0x7d :: r)) as (r1 & -> & E1);
    [done..|]. simpl. rewrite E1. simpl.
  destruct (complete_item t v w3 w4 0x2c (s' ++ 0x7d :: r) fuel d) as (q & -> & E);
    [done..|lia|]. simpl. rewrite E. simpl. by rewrite IHs by (done || lia).
Qed.

(** Every derivation is found by the parser with three steps per byte. *)
Lemma ref_complete :
  (forall t v, jvalue t v -> complete_value t v) /\
  (forall ts s, jelems ts s -> complete_elems ts s) /\
  (forall ms s, jmembers ms s -> complete_members ms s).
Proof.
  apply jvalue_mutind; auto using complete_lit, complete_num, complete_str, complete_arr0,
    complete_obj0, complete_arr, complete_obj, complete_e1, complete_es, complete_m1, complete_ms.
Qed.

(** The reference parser decides the grammar. *)
Lemma ref_text_spec s t :
  ref_text okv okc s = Some t <-> jtext t s /\ ok 0 t = true.
Proof.
  unfold ref_text, jtext. split.
  - intros H. peel H. apply (proj1 (ref_sound _)) in E as (v & Ev & J & K).
    destruct (skip_ws l) as [|] eqn:El; [|done]. injection H as <-. split; [|done].
    destruct (skip_ws_sound s) as (w & Es & W & _).
    destruct (skip_ws_sound l) as (w2 & El2 & W2 & _).
    rewrite El, app_nil_r in El2. subst w2. exists w, v, l. by rewrite <- Ev.
  - intros [(w1 & v & w2 & W1 & J & W2 & ->) K].
    rewrite (skip_ws_value w1 t v w2) by done.
    rewrite (proj1 ref_complete t v J); [simpl|done| |].
    + assert (E : skip_ws w2 = []) by (rewrite <- (app_nil_r w2), skip_ws_app by done; done).
      by rewrite E.
    + destruct W2 as [|b w Hb W]; [done|]. simpl. unfold isJSONWhitespace, isDigit in *. lia.
    + unfold ref_fuel. rewrite !length_app. lia.
Qed.
End RefParserProofs.

Lemma jnumber_ref s : jnumber s <-> exists p, ref_number s = Some (p, []).
Proof.
  split.
  - intros (p & Hp & ->). exists p. rewrite <- (app_nil_r (np_print p)). by apply ref_number_complete.
  - intros (p & [Hp ->]%ref_number_sound). exists p. by rewrite app_nil_r.
Qed.

Lemma jstring_ref s : jstring s <-> ref_string s = Some (s, []).
Proof. rewrite ref_string_spec, app_nil_r. naive_solver. Qed.

(** The grammar is unambiguous. *)
Lemma jtext_unique s t1 t2 : jtext t1 s -> jtext t2 s -> t1 = t2.
Proof.
  intros H1 H2. pose proof (ref_text_spec (fun _ => true) (fun _ => true) s) as R.
  assert (D : forall d t, depth_ok (fun _ => true) (fun _ => true) d t = true).
  { intros d t. revert d. induction t as [| | |ts IH|ms IH] using jv_nested_ind; intros d; try done; simpl;
      (induction IH as [|x l Hx _ IHl]; [done|simpl; by rewrite Hx, IHl]). }
  pose proof (proj2 (R t1) (conj H1 (D _ _))) as E1. pose proof (proj2 (R t2) (conj H2 (D _ _))) as E2.
  congruence.
Qed.

(** *** Progress of the reference parser *)

Lemma skip_ws_length s : (length (skip_ws s) <= length s)%nat.
Proof. destruct (skip_ws_sound s) as (w & E & _). rewrite E at 2. rewrite length_app. lia. Qed.

Lemma expect_length c s t : expect c s = Some t -> length s = S (length t).
Proof. by intros ->%expect_Some. Qed.

Lemma ref_value_length okv okc fuel d s t r :
  ref_value okv okc fuel d s = Some (t, r) -> (length r < length s)%nat.
Proof.
  intros H. apply (proj1 (ref_sound okv okc fuel)) in H as (v & -> & J & _).
  apply jvalue_head in J as (c & v' & -> & _). rewrite length_app. simpl. lia.
Qed.

Lemma ref_string_length s k r : ref_string s = Some (k, r) -> (length r < length s)%nat.
Proof.
  intros [J ->]%ref_string_spec. apply jstring_head in J as (k' & ->).
  rewrite length_app. simpl. lia.
Qed.

Lemma ref_elems_nonempty okv okc fuel d s ts r :
  ref_elems okv okc fuel d s = Some (ts, r) -> ts <> [].
Proof.
  intros H. destruct (ref_sound okv okc fuel) as (_ & _ & S & _).
  apply S in H as (v & _ & J & _). by destruct J.
Qed.
Lemma ref_members_nonempty okv okc fuel d s ms r :
  ref_members okv okc fuel d s = Some (ms, r) -> ms <> [].
Proof.
  intros H. destruct (ref_sound okv okc fuel) as (_ & _ & _ & _ & S).
  apply S in H as (v & _ & J & _). by destruct J.
Qed.

(** *** A text of the grammar is a byte string *)

Lemma hexval_byte c v : hexval c = Some v -> is_byte c.
Proof. unfold hexval, is_byte. repeat case_match; intros; (done || lia). Qed.

Lemma hex4val_bytes a b c d u : hex4val a b c d = Some u -> bytes_ok [a; b; c; d].
Proof.
  unfold hex4val. destruct (hexval a) eqn:Ea, (hexval b) eqn:Eb, (hexval c) eqn:Ec, (hexval d) eqn:Ed;
    try done. intros _. repeat constructor; by eapply hexval_byte.
Qed.

Lemma jstring_bytes k : jstring k -> bytes_ok k.
Proof.
  intros (body & J & ->). constructor; [done|]. apply Forall_app. split; [|by repeat constructor].
  induction J as [|c s Hc _ IH]; [constructor|]. apply Forall_app. split; [|done].
  destruct Hc as [r Hr ? ? ?|e He|a b c d u Hu _|a b c d u a' b' c' d' u' Hu _ Hu' _].
  - by apply EncodeRune_bytes.
  - repeat constructor; unfold simpleEscape in He; lia.
  - apply hex4val_bytes in Hu. by do 2 (constructor; [done|]).
  - apply hex4val_bytes in Hu, Hu'. do 2 (constructor; [done|]).
    apply (Forall_app _ [a; b; c; d]). split; [done|]. by do 2 (constructor; [done|]).
Qed.

Lemma digits_bytes s : digits s -> bytes_ok s.
Proof. intros H. eapply Forall_impl; [exact H|]. unfold isDigit, is_byte. simpl. lia. Qed.

Lemma ws_bytes s : ws s -> bytes_ok s.
Proof. intros H. eapply Forall_impl; [exact H|]. unfold isJSONWhitespace, is_byte. simpl. lia. Qed.

Lemma jnumber_bytes tok : jnumber tok -> bytes_ok tok.
Proof.
  intros ([neg int frac exp] & (HI & HF & HE) & ->). simpl in *. unfold np_print.
  unfold bytes_ok. rewrite !Forall_app. unfold np_sign_bytes, np_frac_bytes, np_exp_bytes. simpl. split_and!.
  - destruct neg; by repeat constructor.
  - destruct HI as [->|(d & ds & -> & Hd & Hds)]; [by repeat constructor|].
    constructor; [unfold isOneNine, is_byte in *; lia|by apply digits_bytes].
  - apply digits_bytes in HF. destruct frac; [constructor|]. by constructor.
  - destruct exp as [[[e sgn] ds]|]; [|constructor]. destruct HE as (He & Hs & _ & Hd).
    constructor; [unfold is_byte; lia|]. apply Forall_app. split; [|by apply digits_bytes].
    destruct sgn as [c|]; [|constructor]. specialize (Hs c eq_refl). repeat constructor; lia.
Qed.

Lemma jtext_bytes t s : jtext t s -> bytes_ok s.
Proof.
  assert (H : (forall t s, jvalue t s -> bytes_ok s) /\ (forall ts s, jelems ts s -> bytes_ok s) /\
              (forall ms s, jmembers ms s -> bytes_ok s)).
  { unfold bytes_ok. apply jvalue_mutind.
    1: intros s0 [->|[->| ->]]; by repeat (constructor; [done|]).
    all: intros; repeat first
      [ assumption | by apply ws_bytes | by apply jstring_bytes | by apply jnumber_bytes
      | apply Forall_app; split | apply Forall_cons; split; [done|] | apply Forall_nil; exact I ]. }
  intros (w1 & v & w2 & W1 & J & W2 & ->). apply Forall_app. split; [by apply ws_bytes|].
  apply Forall_app. split; [exact (proj1 H _ _ J)|by apply ws_bytes].
Qed.

Lemma ref_value_nil okv okc fuel d : ref_value okv okc fuel d [] = None.
Proof. destruct fuel; [done|]. rewrite ref_value_S. by destruct (okv d). Qed.
Lemma ref_elems_ws okv okc fuel d s : skip_ws s = [] -> ref_elems okv okc fuel d s = None.
Proof. intros E. destruct fuel; [done|]. by rewrite ref_elems_S, E, ref_value_nil. Qed.
Lemma ref_members_ws okv okc fuel d s : skip_ws s = [] -> ref_members okv okc fuel d s = None.
Proof. intros E. destruct fuel; [done|]. by rewrite ref_members_S, E. Qed.

(** With one bound for values and containers the policy bounds the height. *)
Section DepthHeight.
Variable M : nat.
Abbreviation le_M := (fun d => d <=? M)%nat.

Lemma leb_max_and d a b :
  (d + a <=? M)%nat && (d + b <=? M)%nat = (d + Nat.max a b <=? M)%nat.
Proof.
  destruct (Nat.leb_spec (d + a) M), (Nat.leb_spec (d + b) M),
    (Nat.leb_spec (d + Nat.max a b) M); (done || lia).
Qed.

Lemma depth_all_height {A} (f : A -> jv) (l : list A) d :
  Forall (fun x => forall d, depth_ok le_M le_M d (f x) = (d + height (f x) <=? M)%nat) l ->
  (d <=? M)%nat && forallb (fun x => depth_ok le_M le_M d (f x)) l
  = (d + foldr (fun x => Nat.max (height (f x))) 0 l <=? M)%nat.
Proof.
  induction 1 as [|x l Hx _ IH]; simpl; [by rewrite andb_true_r, Nat.add_0_r|].
  rewrite Hx, andb_assoc, (andb_comm (d <=? M)%nat), <- andb_assoc, IH. apply leb_max_and.
Qed.

Lemma depth_ok_height d t : depth_ok le_M le_M d t = (d + height t <=? M)%nat.
Proof.
  revert d. induction t as [s|s|s|ts IH|ms IH] using jv_nested_ind; intros d; cbn [depth_ok height];
    try (by rewrite andb_true_r, Nat.add_0_r).
  - change (depth_ok le_M le_M (S d)) with (fun x => depth_ok le_M le_M (S d) ((fun t => t) x)).
    rewrite (depth_all_height (fun t => t)) by done. generalize (foldr (fun x => Nat.max (height x)) 0%nat ts).
    intros m. destruct (Nat.leb_spec d M), (Nat.leb_spec (S d + m) M),
      (Nat.leb_spec (d + S m) M); (done || lia).
  - rewrite (depth_all_height snd) by done. generalize (foldr (fun m => Nat.max (height m.2)) 0%nat ms).
    intros m. destruct (Nat.leb_spec d M), (Nat.leb_spec (S d + m) M),
      (Nat.leb_spec (d + S m) M); (done || lia).
Qed.
End DepthHeight.

(** Checking only where containers open bounds the same height. *)
Lemma depth_ok_containers M d t :
  (d <= M)%nat ->
  depth_ok any_depth (fun d => d <=? M)%nat d t = depth_ok (fun d => d <=? M)%nat (fun d => d <=? M)%nat d t.
Proof.
  revert d. induction t as [s|s|s|ts IH|ms IH] using jv_nested_ind; intros d L;
    rewrite ?depth_ok_arr, ?depth_ok_obj; try (simpl; apply Nat.leb_le in L; by rewrite L);
    pose proof (proj2 (Nat.leb_le d M) L) as Ed; rewrite Ed; cbn [andb any_depth];
    destruct (Nat.leb_spec (S d) M) as [L'|]; try done; cbn [andb].
  - induction IH as [|t ts Ht _ IHl]; [done|]. simpl. by rewrite Ht, IHl.
  - induction IH as [|t ts Ht _ IHl]; [done|]. simpl. by rewrite Ht, IHl.
Qed.
