(* ===== verification/Scanner.v ===== *)
(** * Scanner: the portable string scanners of internal/scanner

    Models internal/scanner/scan_generic.go (and its dispatch in
    scan_default.go): the SWAR byte masks and the word-at-a-time scan loops
    that find the next interesting byte of a JSON string.  [Module Lane] is the
    algebra of the masks: a mask is correct lane by lane, low lane first, up to
    and including its first hit. *)
From Stdlib Require Import ZArith Lia List Bool.
From stdpp Require Import base numbers list.
From S2P Require Import Prelude.

Open Scope Z_scope.

(** ** The code *)

Definition highBits : Z := 0x8080808080808080.
Definition sub64 (a b : Z) : Z := (a - b) mod 2 ^ 64.
Definition not64 (a : Z) : Z := Z.lxor a 0xffffffffffffffff.
Definition mul64 (a b : Z) : Z := (a * b) mod 2 ^ 64.

Definition htmlQuoteAmpFold : Z := 0x0404040404040404.
Definition htmlAngleBracketFold : Z := 0x0202020202020202.

Definition byteEqMask (x b : Z) : Z :=
  let y := Z.lxor x (mul64 b 0x0101010101010101) in
  Z.land (Z.land (sub64 y 0x0101010101010101) (not64 y)) highBits.

Definition controlMask (x : Z) : Z :=
  Z.land (Z.land (sub64 x 0x2020202020202020) (not64 x)) highBits.

Definition stringSpecialMask (x : Z) : Z :=
  Z.lor (Z.lor (Z.lor (byteEqMask x 0x22) (byteEqMask x 0x5c)) (controlMask x))
        (Z.land x highBits).

Definition stringSyntaxMask (x : Z) : Z :=
  Z.lor (Z.lor (byteEqMask x 0x22) (byteEqMask x 0x5c)) (controlMask x).

Definition htmlStringSyntaxMask (x : Z) : Z :=
  Z.lor (Z.lor (Z.lor (byteEqMask (Z.lor x htmlQuoteAmpFold) 0x26) (byteEqMask x 0x5c))
               (controlMask x))
        (byteEqMask (Z.lor x htmlAngleBracketFold) 0x3e).

Definition htmlStringSpecialMask (x : Z) : Z :=
  Z.lor (Z.lor (Z.lor (Z.lor (byteEqMask (Z.lor x htmlQuoteAmpFold) 0x26) (byteEqMask x 0x5c))
                      (controlMask x))
               (Z.land x highBits))
        (byteEqMask (Z.lor x htmlAngleBracketFold) 0x3e).

(** The byte tests of the tail loops. *)
Definition isStringSpecial (c : Z) : bool :=
  (c =? 0x22) || (c =? 0x5c) || (c <? 0x20) || (0x80 <=? c).
Definition isStringSyntax (c : Z) : bool :=
  (c =? 0x22) || (c =? 0x5c) || (c <? 0x20).
Definition isHTMLSyntax (c : Z) : bool :=
  (c =? 0x22) || (c =? 0x5c) || (c =? 0x3c) || (c =? 0x3e) || (c =? 0x26) || (c <? 0x20).
Definition isHTMLSpecial (c : Z) : bool :=
  (c =? 0x22) || (c =? 0x5c) || (c =? 0x3c) || (c =? 0x3e) || (c =? 0x26) || (c <? 0x20)
  || (0x80 <=? c).

(** [binary.LittleEndian.Uint64(src[i:])] and the lane of a mask's lowest bit. *)
Definition load64 (src : list Z) (i : nat) : Z := le_uint (take 8 (drop i src)).
Definition laneOf (m : Z) : nat := Z.to_nat (TrailingZeros64 m / 8).

(** The tail loop [for i < limit]; [n] is [limit - i]. *)
Fixpoint scanBytes (stop : Z -> bool) (src : list Z) (i n : nat) : nat :=
  match n with
  | O => i
  | S n =>
      match src !! i with
      | Some c => if stop c then i else scanBytes stop src (S i) n
      | None => i
      end
  end.

(** One eight-byte step: [inl] returns from the scan, [inr] goes on at [i + 8]. *)
Definition scanWord (mask : Z -> Z) (src : list Z) (i : nat) : nat + nat :=
  let m := mask (load64 src i) in
  if m =? 0 then inr (i + 8)%nat else inl (i + laneOf m)%nat.

(** The loop [for i+16 <= limit], two words per turn. *)
Fixpoint scanWords16 (mask : Z -> Z) (src : list Z) (limit fuel i : nat) : nat + nat :=
  match fuel with
  | O => inr i
  | S fuel =>
      if (i + 16 <=? limit)%nat then
        match scanWord mask src i with
        | inl r => inl r
        | inr i =>
            match scanWord mask src i with
            | inl r => inl r
            | inr i => scanWords16 mask src limit fuel i
            end
        end
      else inr i
  end.

(** The shape shared by [scanStringSpecialScalarUntil] and
    [scanStringSyntaxScalar]: sixteen-byte turns, one eight-byte step, bytes. *)
Definition scanUntil16 (mask : Z -> Z) (stop : Z -> bool) (src : list Z) (i limit : nat) : nat :=
  match scanWords16 mask src limit (S limit) i with
  | inl r => r
  | inr i =>
      if (i + 8 <=? limit)%nat then
        match scanWord mask src i with
        | inl r => r
        | inr i => scanBytes stop src i (limit - i)
        end
      else scanBytes stop src i (limit - i)
  end.

(** The loop [for i+8 <= len(src)] of the HTML scanners, then bytes. *)
Fixpoint scanWords8 (mask : Z -> Z) (src : list Z) (limit fuel i : nat) : nat + nat :=
  match fuel with
  | O => inr i
  | S fuel =>
      if (i + 8 <=? limit)%nat then
        match scanWord mask src i with
        | inl r => inl r
        | inr i => scanWords8 mask src limit fuel i
        end
      else inr i
  end.

Definition scanUntil8 (mask : Z -> Z) (stop : Z -> bool) (src : list Z) (i : nat) : nat :=
  match scanWords8 mask src (length src) (S (length src)) i with
  | inl r => r
  | inr i => scanBytes stop src i (length src - i)
  end.

Definition scanStringSpecialScalarUntil (src : list Z) (i limit : nat) : nat :=
  scanUntil16 stringSpecialMask isStringSpecial src i limit.
Definition scanStringSpecialScalar (src : list Z) (i : nat) : nat :=
  scanStringSpecialScalarUntil src i (length src).
Definition scanStringSyntaxScalar (src : list Z) (i : nat) : nat :=
  scanUntil16 stringSyntaxMask isStringSyntax src i (length src).
Definition scanEncodedHTMLSyntaxScalar (src : list Z) (i : nat) : nat :=
  scanUntil8 htmlStringSyntaxMask isHTMLSyntax src i.
Definition scanEncodedHTMLSpecialScalar (src : list Z) (i : nat) : nat :=
  scanUntil8 htmlStringSpecialMask isHTMLSpecial src i.

(** The portable dispatch of scan_default.go. *)
Definition scanStringSpecial := scanStringSpecialScalar.
Definition scanStringSyntax := scanStringSyntaxScalar.

Example scan_ex1 :
  scanStringSpecial [97;98;99;100;101;102;103;104;97;98;99;100;101;102;103;104;97;98;0x5c;34] 0 = 18%nat.
Proof. reflexivity. Qed.

(** ** The algebra of lane masks *)
Module Lane.
(** [f n] masks an [n]-byte word.  Below its first hit every lane is clear,
    and the first hit's lane is exactly 0x80; lanes above it are arbitrary,
    since a subtraction may have borrowed into them. *)
Class Lane (hit : Z -> bool) (f : nat -> Z -> Z) : Prop := {
  lane_nil : f 0%nat 0 = 0;
  lane_nonneg n x : word_ok n x -> 0 <= f n x;
  lane_miss n b x : is_byte b -> word_ok n x -> hit b = false ->
    f (S n) (b + 256 * x) = 256 * f n x;
  lane_hit n b x : is_byte b -> word_ok n x -> hit b = true ->
    f (S n) (b + 256 * x) mod 256 = 128;
}.

Definition ltMask (c : Z) (n : nat) (x : Z) : Z :=
  Z.land (Z.land ((x - rep n c) mod 256 ^ Z.of_nat n) (Z.lxor x (rep n 255))) (rep n 128).
Definition hiMask (n : nat) (x : Z) : Z := Z.land x (rep n 128).

Lemma mod_low a x : is_byte a -> (a + 256 * x) mod 256 = a.
Proof. unfold is_byte. intros. rewrite (Z.mul_comm 256), Z.mod_add, Z.mod_small; lia. Qed.

Lemma mod_lor a b : Z.lor a b mod 256 = Z.lor (a mod 256) (b mod 256).
Proof.
  change 256 with (2 ^ 8).
  by rewrite <- !Z.land_ones, Z.land_lor_distr_l by lia.
Qed.

(** Subtracting with no borrow out of the low lane, and with one. *)
Lemma sub_lane n b c x y :
  is_byte b -> is_byte c ->
  ((b + 256 * x) - (c + 256 * y)) mod 256 ^ Z.of_nat (S n) =
  if c <=? b then (b - c) + 256 * ((x - y) mod 256 ^ Z.of_nat n)
  else (b - c + 256) + 256 * ((x - y - 1) mod 256 ^ Z.of_nat n).
Proof.
  unfold is_byte. intros Hb Hc. rewrite pow256_S.
  assert (P : 0 < 256 ^ Z.of_nat n) by lia. revert P. generalize (256 ^ Z.of_nat n) as p.
  intros p P. destruct (Z.leb_spec c b).
  - pose proof (Z.div_mod (x - y) p ltac:(lia)). pose proof (Z.mod_pos_bound (x - y) p P).
    symmetry. apply Z.mod_unique_pos with (q := (x - y) / p); [|]; nia.
  - pose proof (Z.div_mod (x - y - 1) p ltac:(lia)). pose proof (Z.mod_pos_bound (x - y - 1) p P).
    symmetry. apply Z.mod_unique_pos with (q := (x - y - 1) / p); [|]; nia.
Qed.

Lemma lt_lane_byte (c : Z) :
  1 <= c <= 128 ->
  forall b, is_byte b ->
    Z.land (Z.land (if c <=? b then b - c else b - c + 256) (Z.lxor b 255)) 128
    = if b <? c then 128 else 0.
Proof.
  intros Hc b Hb.
  assert (P : forallb (fun c => forallb (fun b =>
     Z.land (Z.land (if c <=? b then b - c else b - c + 256) (Z.lxor b 255)) 128
     =? (if b <? c then 128 else 0)) (seqZ 0 256)) (seqZ 1 128) = true) by (vm_compute; reflexivity).
  rewrite forallb_forall in P. specialize (P c).
  exact (byte_table _ _ (P ltac:(apply list_elem_of_In, elem_of_seqZ; lia)) b Hb).
Qed.

#[export] Instance lt_lane c : TCEq ((1 <=? c) && (c <=? 128)) true ->
  Lane (fun b => b <? c) (ltMask c).
Proof.
  intros Hc0. assert (Hc : 1 <= c <= 128) by (apply TCEq_eq in Hc0; lia). clear Hc0.
  assert (Bc : is_byte c) by (unfold is_byte; lia).
  assert (B255 : is_byte 255) by done. assert (B128 : is_byte 128) by done.
  assert (step : forall n b x, is_byte b -> word_ok n x -> exists z,
    ((b <? c) = false -> z = ltMask c n x) /\
    ltMask c (S n) (b + 256 * x) = (if b <? c then 128 else 0) + 256 * z).
  { intros n b x Hb Hx. unfold ltMask. simpl rep. rewrite sub_lane by done.
    rewrite lxor_split by done. pose proof (lt_lane_byte c Hc b Hb) as E.
    assert (is_byte (Z.lxor b 255)) by by apply is_byte_lxor.
    destruct (Z.leb_spec c b) as [L|L].
    - assert (is_byte (b - c)) by (unfold is_byte in *; lia).
      rewrite !land_split, E by (done || by apply is_byte_land). eexists. split; [|done]. done.
    - assert (is_byte (b - c + 256)) by (unfold is_byte in *; lia).
      rewrite !land_split, E by (done || by apply is_byte_land). eexists. split; [|done]. lia. }
  constructor.
  - done.
  - intros n x Hx. unfold ltMask. apply Z.land_nonneg. right. by apply rep_ok.
  - intros n b x Hb Hx M. destruct (step n b x Hb Hx) as (z & Hz & ->).
    rewrite M, Hz by done. lia.
  - intros n b x Hb Hx M. destruct (step n b x Hb Hx) as (z & Hz & ->).
    rewrite M. by apply mod_low.
Qed.

#[export] Instance hi_lane : Lane (fun b => 0x80 <=? b) hiMask.
Proof.
  assert (B128 : is_byte 128) by done.
  assert (E : forall b, is_byte b -> Z.land b 128 = if 0x80 <=? b then 128 else 0).
  { apply (byte_table (fun b => Z.land b 128) (fun b => if 0x80 <=? b then 128 else 0)).
    vm_compute. reflexivity. }
  constructor.
  - done.
  - intros n x Hx. apply Z.land_nonneg. right. by apply rep_ok.
  - intros n b x Hb Hx M. unfold hiMask. simpl rep. rewrite land_split, E, M by done. lia.
  - intros n b x Hb Hx M. unfold hiMask. simpl rep. rewrite land_split, E, M by done.
    by apply mod_low.
Qed.

#[export] Instance or_lane h1 h2 f1 f2 : Lane h1 f1 -> Lane h2 f2 ->
  Lane (fun b => h1 b || h2 b) (fun n x => Z.lor (f1 n x) (f2 n x)).
Proof.
  intros L1 L2. constructor.
  - by rewrite (lane_nil (Lane := L1)), (lane_nil (Lane := L2)).
  - intros n x Hx. apply Z.lor_nonneg. split; by apply lane_nonneg.
  - intros n b x Hb Hx [M1 M2]%orb_false_iff.
    rewrite (lane_miss n b x), (lane_miss (f := f2) n b x) by done.
    apply (lor_split 0 0); done.
  - intros n b x Hb Hx M. rewrite mod_lor.
    assert (Q : forall h f, Lane h f -> f (S n) (b + 256 * x) mod 256 = if h b then 128 else 0).
    { intros h f L. destruct (h b) eqn:Eh; [by apply lane_hit|].
      rewrite (lane_miss n b x) by done. rewrite Z.mul_comm. apply Z.mod_mul. lia. }
    rewrite (Q _ _ L1), (Q _ _ L2).
    by destruct (h1 b), (h2 b).
Qed.

(** Rewriting the word byte by byte before masking. *)
Lemma map_lane (op : Z -> Z -> Z) c h f :
  (forall a b x y, is_byte a -> is_byte b -> op (a + 256 * x) (b + 256 * y) = op a b + 256 * op x y) ->
  (forall a b, is_byte a -> is_byte b -> is_byte (op a b)) ->
  (op 0 0 = 0) -> is_byte c -> Lane h f ->
  Lane (fun b => h (op b c)) (fun n x => f n (op x (rep n c))).
Proof.
  intros Hsplit Hbyte H0 Hc L.
  assert (W : forall n x, word_ok n x -> word_ok n (op x (rep n c))).
  { induction n as [|n IH]; intros x Hx.
    - assert (x = 0) as -> by (unfold word_ok in Hx; simpl in Hx; lia).
      simpl. rewrite H0. done.
    - unfold word_ok in Hx. rewrite pow256_S in Hx.
      rewrite (Z.div_mod x 256) by lia. rewrite Z.add_comm. simpl rep.
      assert (is_byte (x mod 256)) by (apply Z.mod_pos_bound; lia).
      rewrite Hsplit by done. apply word_ok_cons; [by apply Hbyte|]. apply IH.
      split; [apply Z.div_pos; lia|]. apply Z.div_lt_upper_bound; lia. }
  constructor.
  - simpl. rewrite H0. apply lane_nil.
  - intros n x Hx. apply lane_nonneg. by apply W.
  - intros n b x Hb Hx M. simpl rep. rewrite Hsplit by done. apply lane_miss; auto.
  - intros n b x Hb Hx M. simpl rep. rewrite Hsplit by done. apply lane_hit; auto.
Qed.

Lemma lane_ext h h' f f' :
  (forall b, is_byte b -> h b = h' b) -> (forall n x, f n x = f' n x) -> Lane h f -> Lane h' f'.
Proof.
  intros Hh Hf L. constructor.
  - rewrite <- Hf. apply lane_nil.
  - intros. rewrite <- Hf. by apply lane_nonneg.
  - intros n b x Hb Hx M. rewrite <- !Hf. apply lane_miss; [done..|]. by rewrite Hh.
  - intros n b x Hb Hx M. rewrite <- !Hf. apply lane_hit; [done..|]. by rewrite Hh.
Qed.
End Lane.

Import Lane.

(** Number of bytes of [s] before its first hit; [length s] when there is none. *)
Fixpoint first_hit (hit : Z -> bool) (s : list Z) : nat :=
  match s with
  | [] => 0
  | b :: s => if hit b then 0 else S (first_hit hit s)
  end.

Lemma first_hit_le hit s : (first_hit hit s <= length s)%nat.
Proof. induction s as [|b s IH]; simpl; [lia|]. destruct (hit b); lia. Qed.

Lemma first_hit_app_miss hit s t :
  first_hit hit s = length s -> first_hit hit (s ++ t) = (length s + first_hit hit t)%nat.
Proof.
  induction s as [|b s IH]; simpl; [done|]. destruct (hit b); [done|].
  intros [= H]. by rewrite IH.
Qed.

Lemma first_hit_app_hit hit s t :
  (first_hit hit s < length s)%nat -> first_hit hit (s ++ t) = first_hit hit s.
Proof.
  induction s as [|b s IH]; simpl; [lia|]. destruct (hit b); [done|].
  intros H. rewrite IH; [done | lia].
Qed.

Lemma first_hit_all hit s : first_hit hit s = length s <-> Forall (fun b => hit b = false) s.
Proof.
  induction s as [|b s IH]; simpl; [by split|]. rewrite Forall_cons.
  destruct (hit b); [by split; [lia | intros [? _]]|]. rewrite <- IH.
  split; [intros [= ->]; done | intros [_ ->]; done].
Qed.

Lemma first_hit_spec hit s k :
  first_hit hit s = k -> (k < length s)%nat ->
  Forall (fun b => hit b = false) (take k s) /\ exists c, s !! k = Some c /\ hit c = true.
Proof.
  revert k. induction s as [|b s IH]; simpl; intros k E L; [lia|].
  destruct (hit b) eqn:Eb; subst k.
  - split; [done|]. by exists b.
  - destruct (IH _ eq_refl ltac:(lia)) as (A & c & B & C). simpl. split; [by constructor|].
    by exists c.
Qed.

Lemma laneOf_byte m : 0 <= m -> m mod 256 = 128 -> laneOf m = 0%nat.
Proof.
  intros P M. pose proof (Z.div_mod m 256 ltac:(lia)) as D. rewrite M in D.
  pose proof (Z.div_pos m 256 ltac:(lia) ltac:(lia)).
  unfold laneOf. replace m with (2 ^ 7 * (2 * (m / 256) + 1)) by lia.
  by rewrite tz_shift, tz_odd by lia.
Qed.

Lemma tz_nonneg m : 0 <= TrailingZeros64 m.
Proof. destruct m as [|p|]; simpl; try lia. induction p; simpl; lia. Qed.

Lemma laneOf_shift m : 0 < m -> laneOf (256 * m) = S (laneOf m).
Proof.
  intros P. unfold laneOf. change 256 with (2 ^ 8). rewrite tz_shift by lia.
  replace (8 + TrailingZeros64 m) with (1 * 8 + TrailingZeros64 m) by lia.
  rewrite Z.div_add_l by lia.
  pose proof (Z.div_pos (TrailingZeros64 m) 8 (tz_nonneg m)). lia.
Qed.

Lemma lane_first h f bs :
  Lane h f -> bytes_ok bs ->
  (f (length bs) (le_uint bs) = 0 -> first_hit h bs = length bs) /\
  (f (length bs) (le_uint bs) <> 0 ->
   laneOf (f (length bs) (le_uint bs)) = first_hit h bs /\ (first_hit h bs < length bs)%nat).
Proof.
  intros L H. induction H as [|b bs Hb Hbs IH]; simpl.
  - by rewrite lane_nil.
  - pose proof (le_uint_ok bs Hbs) as W. fold (le_uint bs). destruct (h b) eqn:Eh.
    + pose proof (lane_hit (length bs) b (le_uint bs) Hb W Eh) as M.
      assert (P : 0 <= f (S (length bs)) (b + 256 * le_uint bs))
        by by apply lane_nonneg, word_ok_cons.
      split; [intros Z; by rewrite Z in M|]. intros _. split; [|lia]. by apply laneOf_byte.
    + rewrite (lane_miss (length bs) b (le_uint bs)) by done.
      pose proof (lane_nonneg (length bs) (le_uint bs) W) as P.
      destruct IH as [IH0 IH1]. split.
      * intros E. rewrite IH0; lia.
      * intros E. destruct IH1 as [IH1 IH2]; [lia|].
        split; [|lia]. rewrite laneOf_shift by lia. by rewrite IH1.
Qed.

(** ** The four masks are lane masks of the four byte tests *)
Section Masks.
(** [mask] is the eight-byte instance of a lane mask for [stop]. *)
Definition MaskFor (mask : Z -> Z) (stop : Z -> bool) : Prop :=
  exists f, Lane stop f /\ forall x, word_ok 8 x -> mask x = f 8%nat x.

Lemma eq_lane c : is_byte c ->
  Lane (fun b => Z.lxor b c <? 1) (fun n x => ltMask 1 n (Z.lxor x (rep n c))).
Proof. intros Hc. by apply (map_lane Z.lxor c _ _ lxor_split is_byte_lxor eq_refl Hc (lt_lane 1 _)). Qed.

Lemma byteEqMask_ltMask x c : is_byte c -> byteEqMask x c = ltMask 1 8 (Z.lxor x (rep 8 c)).
Proof.
  intros Hc. unfold byteEqMask, ltMask, sub64, not64, highBits.
  replace (mul64 c 0x0101010101010101) with (rep 8 c); [done|].
  unfold mul64, is_byte in *. rewrite Z.mod_small by lia. unfold rep. lia.
Qed.

Lemma or_eq_lane c d : is_byte c -> is_byte d ->
  Lane (fun b => Z.lxor (Z.lor b c) d <? 1)
       (fun n x => ltMask 1 n (Z.lxor (Z.lor x (rep n c)) (rep n d))).
Proof.
  intros Hc Hd. apply (map_lane Z.lor c _ _ lor_split is_byte_lor eq_refl Hc (eq_lane d Hd)).
Qed.

Ltac tabulate :=
  let b := fresh "b" in let Hb := fresh "Hb" in
  intros b Hb; apply eqb_prop; revert b Hb;
  match goal with |- forall b, is_byte b -> Bool.eqb (@?f b) (@?g b) = true =>
    apply (byte_exhaustive (fun b => Bool.eqb (f b) (g b))) end;
  vm_compute; reflexivity.

(** Proves [MaskFor] from the lane structure of the mask. *)
Ltac mask_for L :=
  eexists; split;
  [ eapply lane_ext; [ | intros; reflexivity | apply L ]; tabulate
  | intros x Hx; cbv beta;
    rewrite <- !byteEqMask_ltMask by done; reflexivity ].

Local Notation "x '|l' y" := (or_lane _ _ _ _ x y) (at level 50, left associativity).
Local Abbreviation eql c := (eq_lane c ltac:(done)) (only parsing).
Local Abbreviation foldl c d := (or_eq_lane c d ltac:(done) ltac:(done)) (only parsing).
Local Abbreviation ltl c := (lt_lane c ltac:(constructor)) (only parsing).

Lemma stringSpecialMask_for : MaskFor stringSpecialMask isStringSpecial.
Proof. mask_for (eql 0x22 |l eql 0x5c |l ltl 0x20 |l hi_lane). Qed.

Lemma stringSyntaxMask_for : MaskFor stringSyntaxMask isStringSyntax.
Proof. mask_for (eql 0x22 |l eql 0x5c |l ltl 0x20). Qed.

Lemma htmlStringSyntaxMask_for : MaskFor htmlStringSyntaxMask isHTMLSyntax.
Proof. mask_for (foldl 0x04 0x26 |l eql 0x5c |l ltl 0x20 |l foldl 0x02 0x3e). Qed.

Lemma htmlStringSpecialMask_for : MaskFor htmlStringSpecialMask isHTMLSpecial.
Proof. mask_for (foldl 0x04 0x26 |l eql 0x5c |l ltl 0x20 |l hi_lane |l foldl 0x02 0x3e). Qed.
End Masks.

(** ** The scan loops find exactly the first hit *)

(** First hit at or after [i], [limit] when there is none before it. *)
Definition scan_to (stop : Z -> bool) (src : list Z) (i limit : nat) : nat :=
  i + first_hit stop (slice src i limit).

Section Loops.
Context (mask : Z -> Z) (stop : Z -> bool) (Hmask : MaskFor mask stop).
Context (src : list Z) (Hsrc : bytes_ok src).

Lemma scanBytes_spec i n :
  (i + n <= length src)%nat -> scanBytes stop src i n = scan_to stop src i (i + n).
Proof.
  revert i. induction n as [|n IH]; intros i L; simpl; unfold scan_to.
  - rewrite slice_nil by lia. simpl. lia.
  - destruct (lookup_lt_is_Some_2 src i) as [c Ec]; [lia|]. rewrite Ec.
    rewrite (slice_cons _ _ _ c) by (done || lia). simpl. destruct (stop c); [lia|].
    rewrite IH by lia. unfold scan_to. replace (S i + n)%nat with (i + S n)%nat by lia. lia.
Qed.

Lemma scanWord_spec i limit :
  (i + 8 <= limit <= length src)%nat ->
  match scanWord mask src i with
  | inl r => r = scan_to stop src i limit
  | inr i' => i' = (i + 8)%nat /\ scan_to stop src i limit = scan_to stop src i' limit
  end.
Proof.
  intros L. destruct Hmask as (f & HL & Hf). unfold scanWord, load64, scan_to.
  pose proof (slice_length src i (i + 8) ltac:(lia) ltac:(lia)) as Len.
  assert (B : bytes_ok (slice src i (i + 8))) by by apply Forall_slice.
  replace (take 8 (drop i src)) with (slice src i (i + 8)) by (unfold slice; f_equal; lia).
  rewrite (slice_split src i (i + 8) limit) by lia.
  pose proof (le_uint_ok _ B) as W. destruct (lane_first _ _ _ HL B) as [F0 F1].
  replace (i + 8 - i)%nat with 8%nat in Len by lia. rewrite Len in *.
  rewrite Hf by done. destruct (Z.eqb_spec (f 8%nat (le_uint (slice src i (i + 8)))) 0) as [E|E].
  - split; [done|]. rewrite first_hit_app_miss by (rewrite F0; done). lia.
  - destruct (F1 E) as [F2 F3]. rewrite first_hit_app_hit by lia. by rewrite F2.
Qed.

Lemma scanWords16_spec fuel i limit :
  (i <= limit <= length src)%nat ->
  match scanWords16 mask src limit fuel i with
  | inl r => r = scan_to stop src i limit
  | inr i' => (i <= i' <= limit)%nat /\ scan_to stop src i limit = scan_to stop src i' limit
  end.
Proof.
  revert i. induction fuel as [|fuel IH]; intros i L; simpl; [split; [lia|done]|].
  destruct (Nat.leb_spec (i + 16) limit); [|split; [lia|done]].
  pose proof (scanWord_spec i limit ltac:(lia)) as S1.
  destruct (scanWord mask src i) as [r|i1]; [done|]. destruct S1 as [-> ->].
  pose proof (scanWord_spec (i + 8) limit ltac:(lia)) as S2.
  destruct (scanWord mask src (i + 8)) as [r|i2]; [done|]. destruct S2 as [-> ->].
  specialize (IH (i + 8 + 8)%nat ltac:(lia)).
  destruct (scanWords16 mask src limit fuel (i + 8 + 8)); [done|]. split; [lia|]. apply IH.
Qed.

Lemma scanWords8_spec fuel i limit :
  (i <= limit <= length src)%nat ->
  match scanWords8 mask src limit fuel i with
  | inl r => r = scan_to stop src i limit
  | inr i' => (i <= i' <= limit)%nat /\ scan_to stop src i limit = scan_to stop src i' limit
  end.
Proof.
  revert i. induction fuel as [|fuel IH]; intros i L; simpl; [split; [lia|done]|].
  destruct (Nat.leb_spec (i + 8) limit); [|split; [lia|done]].
  pose proof (scanWord_spec i limit ltac:(lia)) as S1.
  destruct (scanWord mask src i) as [r|i1]; [done|]. destruct S1 as [-> ->].
  specialize (IH (i + 8)%nat ltac:(lia)).
  destruct (scanWords8 mask src limit fuel (i + 8)); [done|]. split; [lia|]. apply IH.
Qed.

Lemma scan_tail i limit :
  (i <= limit <= length src)%nat -> scanBytes stop src i (limit - i) = scan_to stop src i limit.
Proof. intros L. rewrite scanBytes_spec by lia. f_equal. lia. Qed.

Lemma scanUntil16_spec i limit :
  (i <= limit <= length src)%nat -> scanUntil16 mask stop src i limit = scan_to stop src i limit.
Proof.
  intros L. unfold scanUntil16. pose proof (scanWords16_spec (S limit) i limit L) as S1.
  destruct (scanWords16 mask src limit (S limit) i) as [r|i1]; [done|]. destruct S1 as [L1 ->].
  destruct (Nat.leb_spec (i1 + 8) limit); [|apply scan_tail; lia].
  pose proof (scanWord_spec i1 limit ltac:(lia)) as S2.
  destruct (scanWord mask src i1) as [r|i2]; [done|]. destruct S2 as [-> ->].
  apply scan_tail. lia.
Qed.

Lemma scanUntil8_spec i :
  (i <= length src)%nat -> scanUntil8 mask stop src i = scan_to stop src i (length src).
Proof.
  intros L. unfold scanUntil8.
  pose proof (scanWords8_spec (S (length src)) i (length src) ltac:(lia)) as S1.
  destruct (scanWords8 mask src (length src) (S (length src)) i) as [r|i1]; [done|].
  destruct S1 as [L1 ->]. apply scan_tail. lia.
Qed.
End Loops.

#[export] Hint Resolve stringSpecialMask_for stringSyntaxMask_for htmlStringSyntaxMask_for
  htmlStringSpecialMask_for : scan.

Lemma scanStringSpecial_to src i :
  bytes_ok src -> (i <= length src)%nat ->
  scanStringSpecial src i = scan_to isStringSpecial src i (length src).
Proof. intros B L. apply scanUntil16_spec; [auto with scan | done | lia]. Qed.

Lemma scanStringSyntax_to src i :
  bytes_ok src -> (i <= length src)%nat ->
  scanStringSyntax src i = scan_to isStringSyntax src i (length src).
Proof. intros B L. apply scanUntil16_spec; [auto with scan | done | lia]. Qed.

(** [j] is the first offset from [i] whose byte satisfies [stop], or the end. *)
Definition is_first (stop : Z -> bool) (src : list Z) (i j : nat) : Prop :=
  (i <= j <= length src)%nat /\
  (forall k c, (i <= k < j)%nat -> src !! k = Some c -> stop c = false) /\
  ((j < length src)%nat -> exists c, src !! j = Some c /\ stop c = true).

Lemma scan_to_first stop src i :
  (i <= length src)%nat -> is_first stop src i (scan_to stop src i (length src)).
Proof.
  intros L. unfold scan_to, is_first. rewrite slice_end. set (t := drop i src).
  assert (Lt : length t = (length src - i)%nat) by apply length_drop.
  pose proof (first_hit_le stop t). split; [lia|].
  destruct (decide (first_hit stop t = length t)) as [E|N].
  - split; [|lia]. apply first_hit_all in E. intros k c Hk Ek. rewrite Forall_lookup in E.
    apply (E (k - i)%nat). unfold t. rewrite lookup_drop. by replace (i + (k - i))%nat with k by lia.
  - destruct (first_hit_spec stop t _ eq_refl) as (HF & c & Ec & Hc); [lia|]. split.
    + intros k b Hk Ek. rewrite Forall_lookup in HF. apply (HF (k - i)%nat).
      rewrite lookup_take_lt by lia. unfold t. rewrite lookup_drop. by replace (i + (k - i))%nat with k by lia.
    + intros _. exists c. split; [|done]. by rewrite <- lookup_drop.
Qed.

(** C32: each of the four word-at-a-time string scanners returns exactly the
    first offset a byte-at-a-time scan would stop at, although its masks may
    raise false bits above a hit. *)
Theorem scanners_find_first (src : list Z) (i : nat) :
  bytes_ok src -> (i <= length src)%nat ->
  is_first isStringSpecial src i (scanStringSpecial src i) /\
  is_first isStringSyntax src i (scanStringSyntax src i) /\
  is_first isHTMLSyntax src i (scanEncodedHTMLSyntaxScalar src i) /\
  is_first isHTMLSpecial src i (scanEncodedHTMLSpecialScalar src i).
Proof.
  intros B L. rewrite scanStringSpecial_to, scanStringSyntax_to by done.
  unfold scanEncodedHTMLSyntaxScalar, scanEncodedHTMLSpecialScalar.
  rewrite !scanUntil8_spec by (auto with scan). auto using scan_to_first.
Qed.

Lemma scanners_find_first_witness :
  is_first isHTMLSyntax [97; 98; 99; 100; 101; 102; 103; 104; 97; 0x26] 1 9.
Proof.
  destruct (scanners_find_first [97; 98; 99; 100; 101; 102; 103; 104; 97; 0x26] 1) as (_ & _ & H & _).
  - by repeat (constructor; [done|]).
  - simpl. lia.
  - exact H.
Defined.
