(* ===== verification/ScanUnicode.v ===== *)
(** * ScanUnicode: the UTF-8 half of internal/scanner

    Models [invalidUTF8Index] and [scanStringUnicodeRun] of
    internal/scanner/scan_generic.go, with the portable [validUTF8Fast] of
    scan_default.go.  The run scanner is proved to consume exactly a run of
    characters of the string grammar. *)
From Stdlib Require Import ZArith Lia List Bool.
From stdpp Require Import base numbers list.
From S2P Require Import Prelude Utf8 Grammar Scanner.

Open Scope Z_scope.

(** ** The code *)

Definition validUTF8Fast (src : list Z) : bool := Valid src.

(** The loop of [invalidUTF8Index] over [src[start:end]]. *)
Fixpoint invalidUTF8Loop (src : list Z) (fuel start stop : nat) : nat :=
  match fuel with
  | O => stop
  | S fuel =>
      if (start <? stop)%nat then
        let rn := DecodeRune (slice src start stop) in
        if runeBad rn then start else invalidUTF8Loop src fuel (start + rn.2) stop
      else stop
  end.

(** [None] is the Go result -1. *)
Definition invalidUTF8Index (src : list Z) (start stop : nat) : option nat :=
  if validUTF8Fast (slice src start stop) then None
  else Some (invalidUTF8Loop src (stop - start) start stop).

Definition scanStringUnicodeRun (src : list Z) (i : nat) : nat * option nat :=
  if (length src - i <? 32)%nat then
    let rn := DecodeRune (drop i src) in
    if runeBad rn then (i, Some i) else ((i + rn.2)%nat, None)
  else
    let next := scanStringSyntax src i in
    (next, invalidUTF8Index src i next).

(** ** Runs of plain characters *)

Definition plain (r : Z) : Prop := scalar r /\ 0x20 <= r /\ r <> 0x22 /\ r <> 0x5c.

(** Prepends [p] to a parsed string body. *)
Definition consume (p : list Z) (o : option (list Z * list Z)) : option (list Z * list Z) :=
  '(body, r) ← o; Some (p ++ body, r).

Lemma consume_nil o : consume [] o = o.
Proof. by destruct o as [[? ?]|]. Qed.
Lemma consume_app p q o : consume (p ++ q) o = consume p (consume q o).
Proof. destruct o as [[? ?]|]; simpl; [|done]. by rewrite app_assoc. Qed.

Lemma ref_body_char c t : jchar c -> ref_body (c ++ t) = consume c (ref_body t).
Proof.
  intros H. destruct (ref_char_complete c t H) as [E Q].
  by rewrite ref_body_unfold, Q, E.
Qed.

Lemma ref_body_run rs t :
  Forall plain rs -> ref_body (encode_all rs ++ t) = consume (encode_all rs) (ref_body t).
Proof.
  induction 1 as [|r rs (Hr & ? & ? & ?) _ IH]; simpl; [by rewrite consume_nil|].
  unfold encode_all in *. simpl. rewrite <- app_assoc, ref_body_char by by constructor.
  by rewrite IH, consume_app.
Qed.

(** A body that starts with a byte which cannot start a character. *)
Lemma ref_body_bad b s :
  0x20 <= b -> b <> 0x22 -> b <> 0x5c -> runeBad (DecodeRune (b :: s)) = true ->
  ref_body (b :: s) = None.
Proof.
  intros. rewrite ref_body_unfold. simpl. replace (b =? 0x22) with false by lia.
  replace (b =? 0x5c) with false by lia. replace (b <? 0x20) with false by lia.
  by replace (runeBad _) with true.
Qed.

(** The non-syntax bytes of a valid run are plain characters. *)
Lemma plain_of_run rs :
  Forall scalar rs -> Forall (fun b => isStringSyntax b = false) (encode_all rs) -> Forall plain rs.
Proof.
  unfold encode_all. induction 1 as [|r rs Hr _ IH]; simpl; [done|].
  intros [H1 H2]%Forall_app. constructor; [|by apply IH]. split; [done|].
  destruct (decide (0x80 <= r)); [lia|]. rewrite EncodeRune_low in H1 by (destruct Hr; lia).
  apply Forall_cons in H1 as [H1 _]. unfold isStringSyntax in H1. lia.
Qed.

(** A run ends where an ASCII byte or the input ends it, so no character
    straddles its end. *)
Lemma rune_within r t seg rest :
  EncodeRune r ++ t = seg ++ rest -> scalar r -> seg <> [] ->
  stops (fun b => 0x80 <=? b) rest -> exists seg', seg = EncodeRune r ++ seg'.
Proof.
  intros E Hr Hne Hrest. destruct (decide (0x80 <= r)) as [L|L].
  - pose proof (EncodeRune_high r Hr L) as H. revert E H Hne. generalize (EncodeRune r) as e.
    intros e E H _.
    apply app_eq_inv in E as [(k & -> & E)|(k & -> & E)]; [|by eexists].
    apply Forall_app in H as [_ H]. destruct k as [|b k]; [exists []; by rewrite !app_nil_r|].
    rewrite E in Hrest. simpl in Hrest. apply Forall_cons in H as [H _]. lia.
  - rewrite EncodeRune_low in * by (destruct Hr; lia). destruct seg as [|b seg]; [done|].
    simpl in E. injection E as -> _. by exists seg.
Qed.

Lemma ref_body_invalid_run seg rest :
  Forall (fun b => isStringSyntax b = false) seg -> Forall (fun b => 0 <= b) seg ->
  stops (fun b => 0x80 <=? b) rest ->
  forall fuel, (length seg <= fuel)%nat -> ValidFuel fuel seg = false ->
  ref_body (seg ++ rest) = None.
Proof.
  intros H1 H2 H3 fuel. revert seg H1 H2. induction fuel as [|fuel IH]; intros seg H1 H2 L V.
  { destruct seg; [done|simpl in L; lia]. }
  destruct seg as [|b seg]; [done|]. set (s := b :: seg) in *.
  assert (Hb : 0x20 <= b /\ b <> 0x22 /\ b <> 0x5c).
  { apply Forall_cons in H1 as [H1 _]. unfold isStringSyntax in H1. lia. }
  destruct (runeBad (DecodeRune (s ++ rest))) eqn:G.
  { apply (ref_body_bad b (seg ++ rest)); [lia..|exact G]. }
  destruct (DecodeRune_good b (seg ++ rest) ltac:(lia) G) as (r & t & E & Hr & D).
  destruct (rune_within r t s rest) as (seg' & Es); [by rewrite <- E|done..|].
  rewrite Es in *. apply Forall_app in H1 as [H1a H1b]. apply Forall_app in H2 as [_ H2b].
  simpl in V. destruct (EncodeRune_head r Hr) as (h & q & Eh & _).
  destruct (EncodeRune r ++ seg') as [|x y] eqn:Ex; [by rewrite Eh in Ex|].
  rewrite <- Ex, DecodeRune_EncodeRune, EncodeRune_not_bad in V by done. simpl in V.
  rewrite drop_app_length in V. rewrite <- Ex, <- app_assoc.
  assert (P : plain r).
  { apply Forall_cons_1 with (l := []), plain_of_run; [by constructor|].
    unfold encode_all. simpl. by rewrite app_nil_r. }
  destruct P as (P1 & P2 & P3 & P4). rewrite ref_body_char by by constructor.
  rewrite IH; [done..| |done]. rewrite <- Ex, length_app, Eh in L. simpl in L. lia.
Qed.

Lemma isStringSyntax_stop s :
  first_hit isStringSyntax s <> length s -> stops (fun b => 0x80 <=? b) (drop (first_hit isStringSyntax s) s).
Proof.
  intros N. pose proof (first_hit_le isStringSyntax s).
  destruct (first_hit_spec isStringSyntax s _ eq_refl) as (_ & c & E & Hc); [lia|].
  rewrite (drop_S _ _ _ E). simpl. unfold isStringSyntax in Hc. lia.
Qed.

(** The run scanner consumes exactly characters of the grammar, or the string is bad. *)
Lemma scanStringUnicodeRun_spec src i c :
  bytes_ok src -> src !! i = Some c -> 0x80 <= c ->
  let '(next, bad) := scanStringUnicodeRun src i in
  match bad with
  | None => (i < next <= length src)%nat /\
            ref_body (drop i src) = consume (slice src i next) (ref_body (drop next src)) /\
            Forall (fun b => b <> 0x5c) (slice src i next)
  | Some b => ref_body (drop i src) = None
  end.
Proof.
  intros B Hc Lc. pose proof (lookup_lt_Some _ _ _ Hc) as Li. unfold scanStringUnicodeRun.
  assert (Hd : drop i src = c :: drop (S i) src) by by apply drop_S.
  destruct (Nat.ltb_spec (length src - i) 32).
  - destruct (runeBad (DecodeRune (drop i src))) eqn:G.
    + rewrite Hd in *. apply ref_body_bad; [lia..|done].
    + rewrite Hd in G. destruct (DecodeRune_good c _ ltac:(lia) G) as (r & t & E & Hr & D).
      rewrite Hd, D. simpl snd. rewrite <- Hd in E. rewrite <- Hd.
      pose proof (EncodeRune_length r Hr) as Hl.
      assert (Lt : (length (EncodeRune r) <= length src - i)%nat).
      { rewrite <- length_drop, E, length_app. lia. }
      split; [lia|]. unfold slice. replace (i + length (EncodeRune r) - i)%nat with (length (EncodeRune r)) by lia.
      rewrite <- drop_drop, E, take_app_length, drop_app_length.
      destruct (EncodeRune_head r Hr) as (h & q & Eh & Hh).
      assert (0x80 <= r). { rewrite Hd, Eh in E. injection E as -> _. lia. }
      split; [apply ref_body_char; constructor; [done|lia..]|].
      eapply Forall_impl; [by apply EncodeRune_high|]. simpl. lia.
  - rewrite scanStringSyntax_to by (done || lia). unfold scan_to.
    rewrite slice_end. set (k := first_hit isStringSyntax (drop i src)).
    pose proof (first_hit_le isStringSyntax (drop i src)) as Lk. fold k in Lk.
    rewrite length_drop in Lk.
    assert (Hk : (0 < k)%nat).
    { unfold k. rewrite Hd. simpl. unfold isStringSyntax.
      replace (_ || _) with false by lia. lia. }
    assert (Hseg : Forall (fun b => isStringSyntax b = false) (slice src i (i + k))).
    { unfold slice. replace (i + k - i)%nat with k by lia.
      destruct (decide (k = length (drop i src))) as [Ek|Ek].
      - rewrite Ek, firstn_all. by apply first_hit_all.
      - destruct (first_hit_spec isStringSyntax (drop i src) k eq_refl) as (HF & _); [|done].
        rewrite length_drop in *. lia. }
    assert (Hrest : stops (fun b => 0x80 <=? b) (drop (i + k) src)).
    { rewrite <- drop_drop. destruct (decide (k = length (drop i src))) as [Ek|Ek].
      - by rewrite Ek, drop_all.
      - by apply isStringSyntax_stop. }
    rewrite (drop_slice src i (i + k)) by lia. unfold invalidUTF8Index, validUTF8Fast.
    assert (Bs : bytes_ok (slice src i (i + k))) by by apply Forall_slice.
    destruct (Valid (slice src i (i + k))) eqn:V.
    + split; [lia|]. apply Valid_spec in V as (rs & Hrs & E); [|done]. rewrite E in *.
      split; [apply ref_body_run; by apply plain_of_run|].
      eapply Forall_impl; [exact Hseg|]. unfold isStringSyntax. simpl. lia.
    + eapply ref_body_invalid_run; [done| |done|reflexivity|exact V].
      eapply Forall_impl; [exact Bs|]. intros b [? _]. done.
Qed.
