(* ===== verification/Lex.v ===== *)
(** * Lex: the lexical helpers shared by every JSON parser of the package

    Models space.go ([skipSpace], [skipSpaceIndent], [matchStringAt]),
    error.go ([syntaxError]), [hex4] of parser.go and [scanNumber] of
    validate.go.  All work on an offset into the source; the lemmas relate an
    offset [i] to the suffix [drop i src] read by the reference parser. *)
From Stdlib Require Import ZArith Lia List Bool.
From stdpp Require Import base numbers list strings.
From S2P Require Import Prelude Utf8 Grammar Scanner.

Open Scope Z_scope.

(** ** error.go *)

(** Messages are literals, except the one built with fmt.Sprintf and %q. *)
Inductive message :=
| Msg (s : string)
| MsgUnexpectedByte (c : Z).

Record SyntaxError := mkSyntaxError {
  Offset : Z;
  Line : Z;
  Column : Z;
  Message : message;
}.

(** The loop of [syntaxError] over [src[0:off]]. *)
Definition advance (lc : Z * Z) (c : Z) : Z * Z :=
  if c =? 0x0a then (lc.1 + 1, 1) else (lc.1, lc.2 + 1).

Definition syntaxError (src : list Z) (off : Z) (msg : message) : SyntaxError :=
  let off := if off <? 0 then 0 else off in
  let off := if Z.of_nat (length src) <? off then Z.of_nat (length src) else off in
  let lc := fold_left advance (take (Z.to_nat off) src) (1, 1) in
  mkSyntaxError off lc.1 lc.2 msg.

(** ** space.go *)

(** The inner loop over words of eight spaces. *)
Fixpoint skipWords (src : list Z) (fuel i : nat) : nat :=
  match fuel with
  | O => i
  | S fuel =>
      if ((i + 8 <=? length src)%nat && (load64 src i =? 0x2020202020202020))
      then skipWords src fuel (i + 8) else i
  end.

Fixpoint skipSpaceLoop (src : list Z) (fuel i : nat) : nat :=
  match fuel with
  | O => i
  | S fuel =>
      match src !! i with
      | None => i
      | Some c =>
          if 0x20 <? c then i
          else if negb (c =? 0x20) && negb (c =? 0x0a) && negb (c =? 0x0d) && negb (c =? 0x09) then i
          else skipSpaceLoop src fuel (skipWords src (length src) (S i))
      end
  end.

Definition skipSpace (src : list Z) (i : nat) : nat := skipSpaceLoop src (S (length src)) i.

Fixpoint skipSpaceIndentLoop (src : list Z) (fuel i : nat) : nat :=
  match fuel with
  | O => i
  | S fuel =>
      match src !! i with
      | None => i
      | Some c =>
          if 0x20 <? c then i
          else if negb (c =? 0x20) && negb (c =? 0x0a) && negb (c =? 0x0d) && negb (c =? 0x09) then i
          else
            let i := skipWords src (length src) (S i) in
            let i := if ((i + 4 <=? length src)%nat && (le_uint (take 4 (drop i src)) =? 0x20202020))
                     then (i + 4)%nat else i in
            skipSpaceIndentLoop src fuel i
      end
  end.

Definition skipSpaceIndent (src : list Z) (i : nat) : nat :=
  skipSpaceIndentLoop src (S (length src)) i.

Fixpoint matchLoop (src : list Z) (i : nat) (s : list Z) : bool :=
  match s with
  | [] => true
  | c :: s =>
      match src !! i with
      | Some b => if negb (b =? c) then false else matchLoop src (S i) s
      | None => false
      end
  end.

Definition matchStringAt (src : list Z) (i : nat) (s : list Z) : bool :=
  if (length src - i <? length s)%nat then false else matchLoop src i s.

(** ** parser.go *)

Definition hexNibbleTable (c : Z) : Z :=
  if (0x30 <=? c) && (c <=? 0x39) then c - 0x30
  else if (0x61 <=? c) && (c <=? 0x66) then c - 0x61 + 10
  else if (0x41 <=? c) && (c <=? 0x46) then c - 0x41 + 10
  else 0xff.

(** The value is a uint16 and is meaningful when the flag is set. *)
Definition hex4 (src : list Z) (i : nat) : Z * bool :=
  match drop i src with
  | a :: b :: c :: d :: _ =>
      let a := hexNibbleTable a in let b := hexNibbleTable b in
      let c := hexNibbleTable c in let d := hexNibbleTable d in
      (Z.lor (Z.lor (Z.lor (Z.shiftl a 12 mod 65536) (Z.shiftl b 8 mod 65536))
                    (Z.shiftl c 4 mod 65536)) d,
       Z.lor (Z.lor (Z.lor a b) c) d <? 0x10)
  | _ => (0, false)
  end.

(** ** scanNumber of validate.go *)

(** [for i < len(src) && isDigit(src[i])]; [n] bounds the turns. *)
Fixpoint scanDigits (src : list Z) (n i : nat) : nat :=
  match n with
  | O => i
  | S n =>
      match src !! i with
      | Some c => if isDigit c then scanDigits src n (S i) else i
      | None => i
      end
  end.

Definition byteAt (src : list Z) (i : nat) (p : Z -> bool) : bool :=
  match src !! i with Some c => p c | None => false end.

(** [scanNumber] in its four stages.  [Ok end] is Go's [(end, "")] and
    [Err (end, msg)] is [(end, msg)]. *)
Definition scanSign (src : list Z) (i : nat) : res (nat * string) nat :=
  if (length src <=? i)%nat then Err (i, "invalid number"%string)
  else if byteAt src i (fun c => c =? 0x2d) then
    if (length src <=? S i)%nat then Err (S i, "invalid number"%string) else Ok (S i)
  else Ok i.

Definition scanInt (src : list Z) (i : nat) : res (nat * string) nat :=
  if byteAt src i (fun c => c =? 0x30) then Ok (S i)
  else if byteAt src i isOneNine then Ok (scanDigits src (length src) (S i))
  else Err (i, "invalid number"%string).

Definition scanFrac (src : list Z) (i : nat) : res (nat * string) nat :=
  if byteAt src i (fun c => c =? 0x2e) then
    if negb (byteAt src (S i) isDigit) then Err (S i, "invalid number fraction"%string)
    else Ok (scanDigits src (length src) (S i))
  else Ok i.

Definition scanExp (src : list Z) (i : nat) : res (nat * string) nat :=
  if byteAt src i (fun c => (c =? 0x65) || (c =? 0x45)) then
    let i := S i in
    let i := if byteAt src i (fun c => (c =? 0x2b) || (c =? 0x2d)) then S i else i in
    if negb (byteAt src i isDigit) then Err (i, "invalid number exponent"%string)
    else Ok (scanDigits src (length src) i)
  else Ok i.

Definition scanNumber (src : list Z) (i : nat) : res (nat * string) nat :=
  i ← scanSign src i; i ← scanInt src i; i ← scanFrac src i; scanExp src i.

Example scanNumber_ex :
  scanNumber [0x2d; 0x31; 0x32; 0x2e; 0x35; 0x65; 0x2b; 0x33; 0x2c] 0 = Ok 8%nat.
Proof. reflexivity. Qed.

(** ** Offsets and suffixes *)

Section Offsets.
Context {A : Type}.
Implicit Types src s t : list A.

(** [At src i s]: the offset [i] is in range and the input from it is [s]. *)
Definition At src (i : nat) s : Prop := drop i src = s /\ (i <= length src)%nat.

Lemma At_0 src : At src 0 src.
Proof. split; [done|lia]. Qed.

Lemma At_lookup src i c s : At src i (c :: s) -> src !! i = Some c.
Proof. intros [E _]. rewrite <- (Nat.add_0_r i), <- lookup_drop, E. done. Qed.

Lemma At_lookup_nil src i : At src i [] -> src !! i = None.
Proof.
  intros [E L]. apply lookup_ge_None. apply (f_equal length) in E.
  rewrite length_drop in E. simpl in E. lia.
Qed.

Lemma At_nil src i : At src i [] <-> i = length src.
Proof.
  split.
  - intros [E L]. apply (f_equal length) in E. rewrite length_drop in E. simpl in E. lia.
  - intros ->. split; [apply drop_all|lia].
Qed.

Lemma At_lt src i c s : At src i (c :: s) -> (i < length src)%nat.
Proof. intros H. by eapply lookup_lt_Some, At_lookup. Qed.

Lemma At_app src i s t : At src i (s ++ t) -> At src (i + length s) t.
Proof.
  intros [E L]. split; [by rewrite <- drop_drop, E, drop_app_length|].
  apply (f_equal length) in E. rewrite length_drop, length_app in E. lia.
Qed.

Lemma At_cons src i c s : At src i (c :: s) -> At src (S i) s.
Proof. intros H. apply (At_app _ _ [c]) in H. by rewrite Nat.add_comm in H. Qed.

Lemma At_inj src i j s : At src i s -> At src j s -> i = j.
Proof.
  intros [E1 L1] [E2 L2]. apply (f_equal length) in E1, E2. rewrite length_drop in *. lia.
Qed.

Lemma At_length src i s : At src i s -> (length src - i)%nat = length s.
Proof. intros [<- _]. by rewrite length_drop. Qed.

Lemma At_suffix_end src s : At src (length src) s -> s = [].
Proof. intros [E _]. by rewrite drop_all in E. Qed.

Lemma At_slice src i j s t : At src i (s ++ t) -> At src j t -> slice src i j = s.
Proof.
  intros H1 H2. pose proof (At_inj _ _ _ _ (At_app _ _ _ _ H1) H2) as <-.
  destruct H1 as [E _]. unfold slice. rewrite E.
  replace (i + length s - i)%nat with (length s) by lia. apply take_app_length.
Qed.
End Offsets.

Create HintDb lex.
#[export] Hint Resolve At_cons At_0 : lex.

Lemma byteAt_At src i s p :
  At src i s -> byteAt src i p = match s with c :: _ => p c | [] => false end.
Proof.
  intros H. unfold byteAt. destruct s as [|c s].
  - by rewrite At_lookup_nil.
  - by rewrite (At_lookup _ _ _ _ H).
Qed.

(** ** Error positions *)

Definition newlines (s : list Z) : Z := Z.of_nat (count_occ Z.eq_dec s 0x0a).

Lemma fold_advance_line s l c : (fold_left advance s (l, c)).1 = l + newlines s.
Proof.
  unfold newlines. revert l c. induction s as [|x s IH]; intros l c; [simpl; lia|]. simpl.
  unfold advance at 2. destruct (Z.eqb_spec x 0x0a); simpl; rewrite IH; destruct (Z.eq_dec x 0x0a); lia.
Qed.

Lemma fold_advance_column s l c :
  ~ In 0x0a s -> (fold_left advance s (l, c)).2 = c + Z.of_nat (length s).
Proof.
  revert c. induction s as [|x s IH]; intros c N; [simpl; lia|]. simpl in *.
  unfold advance at 2. replace (x =? 0x0a) with false by (symmetry; apply Z.eqb_neq; naive_solver). simpl.
  rewrite IH by naive_solver. lia.
Qed.

(** An error position lies in the source, its line counts the newlines before
    it and its column the bytes since the last of them. *)
Lemma syntaxError_position src off msg :
  let e := syntaxError src off msg in
  0 <= Offset e <= Z.of_nat (length src) /\
  (0 <= off <= Z.of_nat (length src) -> Offset e = off) /\
  let p := take (Z.to_nat (Offset e)) src in
  Line e = 1 + newlines p /\
  (~ In 0x0a p -> Column e = 1 + Offset e) /\
  forall a b, p = a ++ 0x0a :: b -> ~ In 0x0a b -> Column e = 1 + Z.of_nat (length b).
Proof.
  unfold syntaxError. cbn [Offset Line Column]. cbv zeta. set (o := if _ <? _ then _ else _).
  assert (0 <= o <= Z.of_nat (length src)).
  { unfold o. repeat case_match; lia. }
  split; [done|]. split.
  { intros. unfold o. replace (off <? 0) with false by lia. by replace (_ <? off) with false by lia. }
  split; [apply fold_advance_line|]. split.
  - intros N. rewrite fold_advance_column, length_take by done. lia.
  - intros a b -> N. rewrite fold_left_app. simpl. destruct (fold_left advance a (1, 1)) as [l c].
    change (advance (l, c) 0x0a) with (l + 1, 1). by rewrite fold_advance_column.
Qed.

(** ** Digits and whitespace *)

Lemma scanDigits_At src n i s a b :
  At src i s -> (length s <= n)%nat -> span isDigit s = (a, b) -> At src (scanDigits src n i) b.
Proof.
  revert i s a b. induction n as [|n IH]; intros i s a b H L E.
  - destruct s; [|simpl in L; lia]. rewrite span_nil in E. by injection E as <- <-.
  - simpl. destruct s as [|c s].
    { rewrite span_nil in E. rewrite At_lookup_nil by done. by injection E as <- <-. }
    rewrite span_cons in E. rewrite (At_lookup _ _ _ _ H). destruct (isDigit c).
    + destruct (span isDigit s) as [a' b'] eqn:E'. injection E as <- <-.
      eapply IH; [by eapply At_cons | simpl in L; lia | done].
    + by injection E as <- <-.
Qed.

Lemma le_uint_inj s t :
  bytes_ok s -> bytes_ok t -> length s = length t -> le_uint s = le_uint t -> s = t.
Proof.
  intros Hs. revert t. induction Hs as [|b s Hb _ IH]; intros [|c t] Ht L E; try done.
  apply Forall_cons in Ht as [Hc Ht]. unfold is_byte in *.
  change (b + 256 * le_uint s = c + 256 * le_uint t) in E.
  assert (b = c /\ le_uint s = le_uint t) as [-> E'] by lia.
  f_equal. apply IH; [done|by injection L|done].
Qed.

(** A word load that matches a constant read exactly those bytes. *)
Lemma load_match src i n w s :
  bytes_ok src -> At src i s -> (i + n <= length src)%nat ->
  bytes_ok w -> length w = n -> le_uint (take n (drop i src)) = le_uint w ->
  exists t, s = w ++ t /\ At src (i + n) t.
Proof.
  intros B H L Hw <- E. pose proof H as [D _].
  assert (take (length w) s = w) as Ew.
  { rewrite D in E. apply le_uint_inj; [|done| |done].
    - rewrite <- D. by apply Forall_take, Forall_drop.
    - rewrite length_take. pose proof (At_length _ _ _ H). lia. }
  exists (drop (length w) s). split; [by rewrite <- Ew at 1; rewrite take_drop|].
  apply (At_app _ _ w). rewrite <- Ew at 1. by rewrite take_drop.
Qed.

Lemma skip_ws_spaces n s : skip_ws (replicate n 0x20 ++ s) = skip_ws s.
Proof. apply skip_ws_app. by apply Forall_replicate. Qed.

Lemma skipWords_At src fuel i s :
  bytes_ok src -> At src i s ->
  exists t, At src (skipWords src fuel i) t /\ skip_ws t = skip_ws s /\
            (i <= skipWords src fuel i)%nat.
Proof.
  intros B. revert i s. induction fuel as [|fuel IH]; intros i s H; simpl; [by exists s|].
  destruct ((i + 8 <=? length src)%nat && _) eqn:E; [|by exists s].
  apply andb_true_iff in E as [E1 E2]. apply Nat.leb_le in E1. apply Z.eqb_eq in E2.
  destruct (load_match src i 8 (replicate 8 0x20) s) as (t & -> & Ht); [done..| | |done|].
  { by repeat constructor. } { done. }
  destruct (IH _ _ Ht) as (t' & ? & E' & ?). exists t'. split; [done|]. split; [|lia].
  by rewrite E', skip_ws_spaces.
Qed.

(** Both whitespace loops leave the cursor on the first significant byte. *)
Lemma skipSpaceLoop_At src fuel i s :
  bytes_ok src -> At src i s -> (length s < fuel)%nat ->
  At src (skipSpaceLoop src fuel i) (skip_ws s).
Proof.
  intros B. revert i s. induction fuel as [|fuel IH]; intros i s H L; [lia|]. simpl.
  destruct s as [|c s]; [by rewrite At_lookup_nil|].
  rewrite (At_lookup _ _ _ _ H).
  assert (W : isJSONWhitespace c = false \/ isJSONWhitespace c = true) by (destruct (isJSONWhitespace c); auto).
  unfold isJSONWhitespace in W. destruct W as [W|W].
  - rewrite skip_ws_stops by done. destruct (0x20 <? c); [done|].
    by replace (_ && _) with true by lia.
  - replace (0x20 <? c) with false by lia. replace (_ && _) with false by lia.
    destruct (skipWords_At src (length src) (S i) s) as (t & Ht & E & Li); [done|by eapply At_cons|].
    change (c :: s) with ([c] ++ s). rewrite skip_ws_app by by repeat constructor.
    rewrite <- E. apply IH; [done|]. pose proof (At_length _ _ _ Ht).
    pose proof (At_length _ _ _ H). simpl in *. lia.
Qed.

Lemma skipSpace_At src i s : bytes_ok src -> At src i s -> At src (skipSpace src i) (skip_ws s).
Proof.
  intros B H. apply skipSpaceLoop_At; [done..|]. pose proof (At_length _ _ _ H). lia.
Qed.

Lemma skipSpaceIndentLoop_At src fuel i s :
  bytes_ok src -> At src i s -> (length s < fuel)%nat ->
  At src (skipSpaceIndentLoop src fuel i) (skip_ws s).
Proof.
  intros B. revert i s. induction fuel as [|fuel IH]; intros i s H L; [lia|]. simpl.
  destruct s as [|c s]; [by rewrite At_lookup_nil|].
  rewrite (At_lookup _ _ _ _ H).
  assert (W : isJSONWhitespace c = false \/ isJSONWhitespace c = true) by (destruct (isJSONWhitespace c); auto).
  unfold isJSONWhitespace in W. destruct W as [W|W].
  - rewrite skip_ws_stops by done. destruct (0x20 <? c); [done|].
    by replace (_ && _) with true by lia.
  - replace (0x20 <? c) with false by lia. replace (_ && _ && _) with false by lia.
    destruct (skipWords_At src (length src) (S i) s) as (t & Ht & E & Li); [done|by eapply At_cons|].
    change (c :: s) with ([c] ++ s). rewrite skip_ws_app by by repeat constructor.
    rewrite <- E. set (k := skipWords src (length src) (S i)) in *.
    pose proof (At_length _ _ _ Ht). pose proof (At_length _ _ _ H). simpl in *.
    destruct ((k + 4 <=? length src)%nat && _) eqn:E4; [|apply IH; [done|lia]].
    apply andb_true_iff in E4 as [E41 E42]. apply Nat.leb_le in E41. apply Z.eqb_eq in E42.
    destruct (load_match src k 4 (replicate 4 0x20) t) as (t' & -> & Ht'); [done..| | |done|].
    { by repeat constructor. } { done. }
    rewrite skip_ws_spaces. apply IH; [done|]. rewrite length_app in *. lia.
Qed.

Lemma skipSpaceIndent_At src i s :
  bytes_ok src -> At src i s -> At src (skipSpaceIndent src i) (skip_ws s).
Proof.
  intros B H. apply skipSpaceIndentLoop_At; [done..|]. pose proof (At_length _ _ _ H). lia.
Qed.

(** ** Literals and hex escapes *)

Lemma matchLoop_At src i s l :
  At src i s -> matchLoop src i l = match strip_prefix l s with Some _ => true | None => false end.
Proof.
  revert i s. induction l as [|c l IH]; intros i s H; simpl; [by destruct s|].
  destruct s as [|b s]; [by rewrite At_lookup_nil|]. rewrite (At_lookup _ _ _ _ H).
  rewrite Z.eqb_sym. destruct (c =? b); simpl; [|done]. apply IH. by eapply At_cons.
Qed.

Lemma matchStringAt_At src i s l :
  At src i s ->
  match strip_prefix l s with
  | Some r => matchStringAt src i l = true /\ At src (i + length l) r
  | None => matchStringAt src i l = false
  end.
Proof.
  intros H. unfold matchStringAt. pose proof (matchLoop_At src i s l H) as M.
  pose proof (At_length _ _ _ H) as L. destruct (strip_prefix l s) as [r|] eqn:E.
  - apply strip_prefix_Some in E as ->. rewrite length_app in L.
    replace (_ <? _)%nat with false by (symmetry; apply Nat.ltb_ge; lia).
    split; [done|]. by apply At_app.
  - by destruct (_ <? _)%nat.
Qed.

Lemma lor_lt_16 a b : 0 <= a -> 0 <= b -> (Z.lor a b < 16 <-> a < 16 /\ b < 16).
Proof.
  intros Ha Hb.
  assert (E : forall x, 0 <= x -> (x < 16 <-> Z.shiftr x 4 = 0)).
  { intros x Hx. rewrite Z.shiftr_div_pow2 by lia. change (2 ^ 4) with 16. split; intros; dlia. }
  rewrite !E by (try apply Z.lor_nonneg; lia). rewrite Z.shiftr_lor, Z.lor_eq_0_iff. done.
Qed.

Lemma hexNibble_spec c :
  match hexval c with
  | Some v => hexNibbleTable c = v /\ 0 <= v < 16
  | None => hexNibbleTable c = 255
  end.
Proof.
  unfold hexval, hexNibbleTable. destruct ((0x30 <=? c) && (c <=? 0x39)) eqn:E1; [lia|].
  destruct ((0x61 <=? c) && (c <=? 0x66)) eqn:E2; [lia|].
  destruct ((0x41 <=? c) && (c <=? 0x46)) eqn:E3; [lia|done].
Qed.

Lemma hex4_ok_iff a b c d :
  (Z.lor (Z.lor (Z.lor (hexNibbleTable a) (hexNibbleTable b)) (hexNibbleTable c)) (hexNibbleTable d) <? 16)
  = match hex4val a b c d with Some _ => true | None => false end.
Proof.
  assert (P : forall c, 0 <= hexNibbleTable c /\
     (hexNibbleTable c < 16 <-> is_Some (hexval c))).
  { intros x. pose proof (hexNibble_spec x). destruct (hexval x) as [v|].
    - split; [lia|]. split; [by eexists|lia].
    - split; [lia|]. split; [lia|by intros [? ?]]. }
  destruct (P a) as [A1 A2], (P b) as [B1 B2], (P c) as [C1 C2], (P d) as [D1 D2].
  apply Bool.eq_true_iff_eq. rewrite Z.ltb_lt.
  do 3 (rewrite lor_lt_16; [|by rewrite ?Z.lor_nonneg|done]). rewrite A2, B2, C2, D2.
  unfold hex4val. destruct (hexval a), (hexval b), (hexval c), (hexval d); clear; naive_solver.
Qed.

Lemma hex4_At src i s :
  At src i s ->
  match ref_hex4 s with
  | Some (u, h, t) => hex4 src i = (u, true) /\ At src (i + 4) t /\ 0 <= u < 65536
  | None => (hex4 src i).2 = false
  end.
Proof.
  intros H. pose proof H as [D _]. unfold hex4, ref_hex4. rewrite D.
  destruct s as [|a [|b [|c [|d s]]]]; try done. cbn [mbind option_bind].
  rewrite hex4_ok_iff. unfold hex4val.
  pose proof (hexNibble_spec a). pose proof (hexNibble_spec b).
  pose proof (hexNibble_spec c). pose proof (hexNibble_spec d).
  destruct (hexval a) as [va|], (hexval b) as [vb|], (hexval c) as [vc|], (hexval d) as [vd|];
    try done. simpl. split; [|split; [by apply (At_app _ _ [a; b; c; d])|lia]].
  f_equal. destruct H0 as [-> ?], H1 as [-> ?], H2 as [-> ?], H3 as [-> ?].
  rewrite !Z.shiftl_mul_pow2 by lia. rewrite !Z.mod_small by lia.
  rewrite <- (Z.shiftl_mul_pow2 va 12) by lia. rewrite (lor_shiftl va) by lia.
  replace (va * 2 ^ 12 + vb * 2 ^ 8) with (Z.shiftl (va * 16 + vb) 8) by (rewrite Z.shiftl_mul_pow2; lia).
  rewrite lor_shiftl by lia.
  replace ((va * 16 + vb) * 2 ^ 8 + vc * 2 ^ 4) with (Z.shiftl (va * 256 + vb * 16 + vc) 4)
    by (rewrite Z.shiftl_mul_pow2; lia).
  rewrite lor_shiftl by lia. lia.
Qed.

(** ** Numbers *)

(** Advancing over the digits of a suffix. *)
Lemma scanDigits_span src i s :
  At src i s -> At src (scanDigits src (length src) i) (span isDigit s).2.
Proof.
  intros H. destruct (span isDigit s) as [a b] eqn:E.
  eapply scanDigits_At; [done| |done]. pose proof (At_length _ _ _ H). lia.
Qed.

(** [sim_at m o]: the offset computation [m] follows the suffix parser [o]. *)
Definition sim_at {E T} (src : list Z) (m : res E nat) (o : option (T * list Z)) : Prop :=
  match o with
  | Some (_, r) => exists j, m = Ok j /\ At src j r
  | None => exists e, m = Err e
  end.

(** One digit, then all that follow. *)
Lemma digit_run_At {E T} src i s (e : E) (f : list Z -> T) :
  At src i s ->
  sim_at src (if negb (byteAt src i isDigit) then Err e else Ok (scanDigits src (length src) i))
    (match span isDigit s with ([], _) => None | (ds, r) => Some (f ds, r) end).
Proof.
  intros H. rewrite (byteAt_At _ _ _ _ H). pose proof (scanDigits_span _ _ _ H) as Hd.
  destruct s as [|c s]; [by eexists|]. rewrite span_cons in *. destruct (isDigit c); [|by eexists].
  destruct (span isDigit s) as [a b]. by eexists.
Qed.

Lemma scanExp_At src i s : At src i s -> sim_at src (scanExp src i) (ref_exp s).
Proof.
  intros H. unfold scanExp, ref_exp. rewrite (byteAt_At _ _ _ _ H).
  destruct s as [|e s]; [by eexists|]. destruct ((e =? 0x65) || (e =? 0x45)); [|by eexists].
  apply At_cons in H. cbv zeta. rewrite (byteAt_At _ _ _ _ H).
  destruct s as [|c s]; [by apply (digit_run_At _ _ [] _ (fun ds => Some (e, None, ds)))|].
  destruct ((c =? 0x2b) || (c =? 0x2d)).
  - apply (digit_run_At _ _ _ _ (fun ds => Some (e, Some c, ds))). by eapply At_cons.
  - by apply (digit_run_At _ _ _ _ (fun ds => Some (e, None, ds))).
Qed.

Lemma scanFrac_At src i s : At src i s -> sim_at src (scanFrac src i) (ref_frac s).
Proof.
  intros H. unfold scanFrac, ref_frac. rewrite (byteAt_At _ _ _ _ H).
  destruct s as [|e s]; [by eexists|]. destruct (e =? 0x2e); [|by eexists].
  apply (digit_run_At _ _ _ _ (fun ds => ds)). by eapply At_cons.
Qed.

Lemma scanInt_At src i s : At src i s -> sim_at src (scanInt src i) (ref_int s).
Proof.
  intros H. unfold scanInt, ref_int. rewrite !(byteAt_At _ _ _ _ H).
  destruct s as [|c s]; [by eexists|]. apply At_cons in H.
  destruct (c =? 0x30); [by eexists|]. destruct (isOneNine c); [|by eexists].
  pose proof (scanDigits_span _ _ _ H). destruct (span isDigit s). by eexists.
Qed.

(** The sign stage fails early exactly when no digit can follow. *)
Lemma scanSign_At src i s :
  At src i s ->
  match scanSign src i with
  | Ok j => At src j (ref_sign s).2
  | _ => (ref_sign s).2 = [] /\ exists e, scanSign src i = Err e
  end.
Proof.
  intros H. unfold scanSign, ref_sign. destruct (Nat.leb_spec (length src) i).
  { destruct s; [split; [done|by eexists]|]. apply At_lt in H. lia. }
  rewrite (byteAt_At _ _ _ _ H). destruct s as [|c s]; [by apply At_nil in H; lia|].
  destruct (c =? 0x2d); [|done]. apply At_cons in H.
  destruct (Nat.leb_spec (length src) (S i)); [|done].
  destruct s; [split; [done|by eexists]|]. apply At_lt in H. lia.
Qed.

Lemma sim_at_bind {E T U} src (m : res E nat) (o : option (T * list Z))
    (k : nat -> res E nat) (f : T -> list Z -> option (U * list Z)) :
  sim_at src m o -> (forall i x s, At src i s -> o = Some (x, s) -> sim_at src (k i) (f x s)) ->
  sim_at src (m ≫= k) ('(x, s) ← o; f x s).
Proof.
  intros Hm Hk. destruct o as [[x s]|]; simpl in *.
  - destruct Hm as (j & -> & H). by apply (Hk j x s).
  - destruct Hm as (e & ->). by exists e.
Qed.

Lemma scanNumber_At src i s : At src i s -> sim_at src (scanNumber src i) (ref_number s).
Proof.
  intros H. unfold scanNumber, ref_number. pose proof (scanSign_At _ _ _ H) as HS.
  destruct (ref_sign s) as [neg s1]. simpl in HS. destruct (scanSign src i) as [j|e|].
  - simpl. apply sim_at_bind; [by apply scanInt_At|]. intros k int s2 H2 _.
    apply sim_at_bind; [by apply scanFrac_At|]. intros k3 frac s3 H3 _.
    pose proof (scanExp_At _ _ _ H3) as HE. by destruct (ref_exp s3) as [[exp s4]|].
  - destruct HS as [-> _]. by exists e.
  - destruct HS as [_ [e [=]]].
Qed.
