(* ===== verification/Validate.v ===== *)
(** * Validate: the depth-aware scalar validator of validate.go

    Models the recursive-descent [validator], the strict JSON oracle behind
    [Validate], together with its [layout] accounting ([countLayout]).  The
    cursor and the layout are the state threaded through the parse functions;
    the source and the depth limit never change and are section variables.
    Every parse function is proved to follow the reference parser of
    [Grammar], which decides RFC 8259. *)
From Stdlib Require Import ZArith Lia List Bool.
From stdpp Require Import base numbers list strings.
From S2P Require Import Prelude Utf8 Grammar Scanner ScanUnicode Lex.

Open Scope Z_scope.

Definition defaultMaxDepth : nat := 10000.

(** ** Layout accounting *)

Record layout := mkLayout {
  inline : list nat;      (* [64]int *)
  overflow : list nat;
  ncontainers : nat;
  values : nat;
  members : nat;
}.

Definition zeroLayout : layout := mkLayout (replicate 64 0%nat) [] 0 0 0.

Definition addContainer (l : layout) : nat * layout :=
  let idx := ncontainers l in
  (idx, mkLayout (inline l)
          (if (length (inline l) <=? idx)%nat then overflow l ++ [0%nat] else overflow l)
          (S idx) (values l) (members l)).

Definition setContainer (idx count : nat) (l : layout) : layout :=
  if (idx <? length (inline l))%nat
  then mkLayout (<[idx := count]> (inline l)) (overflow l) (ncontainers l) (values l) (members l)
  else mkLayout (inline l) (<[(idx - length (inline l))%nat := count]> (overflow l))
         (ncontainers l) (values l) (members l).

Definition addValue (l : layout) : layout :=
  mkLayout (inline l) (overflow l) (ncontainers l) (S (values l)) (members l).
Definition addMember (l : layout) : layout :=
  mkLayout (inline l) (overflow l) (ncontainers l) (values l) (S (members l)).

(** ** The validator *)

(** The mutable part of the Go struct: [i] and the optional [layout]. *)
Record validator := mkValidator { v_i : nat; v_layout : option layout }.

Section Validator.
Variable src : list Z.
Variable maxDepth : nat.

Definition verr {A} (off : nat) (msg : message) : res SyntaxError A :=
  Err (syntaxError src (Z.of_nat off) msg).
Definition vmsg {A} (off : nat) (msg : string) : res SyntaxError A := verr off (Msg msg).

(** *** Scalars *)

Definition parseLiteral (i : nat) (lit : list Z) : res SyntaxError nat :=
  if negb (matchStringAt src i lit) then vmsg i "invalid literal"
  else Ok (i + length lit)%nat.

Definition parseNumber (i : nat) : res SyntaxError nat :=
  match scanNumber src i with
  | Ok e => Ok e
  | Err (_, msg) => vmsg i msg
  | OutOfFuel => OutOfFuel
  end.

Definition validateUnicodeEscape (i : nat) : res SyntaxError nat :=
  let start := (i - 1)%nat in
  let i := S i in
  let '(u, ok) := hex4 src i in
  if negb ok then vmsg start "invalid unicode escape" else
  let i := (i + 4)%nat in
  if (0xd800 <=? u) && (u <=? 0xdbff) then
    if (length src <? i + 6)%nat || negb (byteAt src i (fun c => c =? 0x5c))
       || negb (byteAt src (S i) (fun c => c =? 0x75))
    then vmsg start "missing low surrogate" else
    let i := (i + 2)%nat in
    let '(lo, ok) := hex4 src i in
    if negb ok then vmsg start "invalid low surrogate" else
    let i := (i + 4)%nat in
    if (lo <? 0xdc00) || (0xdfff <? lo) then vmsg start "invalid low surrogate"
    else Ok i
  else if (0xdc00 <=? u) && (u <=? 0xdfff) then vmsg start "unexpected low surrogate"
  else Ok i.

(** At the byte after the backslash; the caller has checked it is in range. *)
Definition validateEscape (i : nat) : res SyntaxError nat :=
  match src !! i with
  | None => vmsg i "unterminated escape sequence"
  | Some c =>
      if simpleEscape c then Ok (S i)
      else if c =? 0x75 then validateUnicodeEscape i
      else vmsg (i - 1) "invalid escape sequence"
  end.

Fixpoint parseStringLoop (fuel i : nat) : res SyntaxError nat :=
  match fuel with
  | O => OutOfFuel
  | S fuel =>
      let j := scanStringSpecial src i in
      match src !! j with
      | None => vmsg (length src) "unterminated string"
      | Some c =>
          if c =? 0x22 then Ok (S j)
          else if c =? 0x5c then
            if (length src <=? S j)%nat then vmsg (S j) "unterminated escape sequence"
            else i ← validateEscape (S j); parseStringLoop fuel i
          else if c <? 0x20 then vmsg j "unescaped control byte in string"
          else
            let '(next, bad) := scanStringUnicodeRun src j in
            match bad with
            | Some b => vmsg b "invalid UTF-8 in string"
            | None => parseStringLoop fuel next
            end
      end
  end.

Definition parseString (i : nat) : res SyntaxError nat :=
  parseStringLoop (S (length src)) (S i).

(** *** Containers *)

Definition withI (v : validator) (i : nat) : validator := mkValidator i (v_layout v).
Definition vskip (v : validator) : validator := withI v (skipSpace src (v_i v)).
Definition at_byte (v : validator) (c : Z) : bool := byteAt src (v_i v) (fun b => b =? c).
Definition scalar_at (v : validator) (m : res SyntaxError nat) : res SyntaxError validator :=
  i ← m; Ok (withI v i).
Definition upd_layout (f : layout -> layout) (v : validator) : validator :=
  mkValidator (v_i v) (f <$> v_layout v).

(** [countIndex := -1; if v.layout != nil { countIndex = addContainer() }] *)
Definition openContainer (v : validator) : option nat * validator :=
  match v_layout v with
  | None => (None, v)
  | Some l => let '(idx, l) := addContainer l in (Some idx, mkValidator (v_i v) (Some l))
  end.
Definition closeContainer (countIndex : option nat) (count : nat) (v : validator) : validator :=
  match countIndex with
  | None => v
  | Some idx => upd_layout (setContainer idx count) v
  end.

Fixpoint parseValue (fuel : nat) (v : validator) (depth : nat) : res SyntaxError validator :=
  match fuel with
  | O => OutOfFuel
  | S fuel =>
      if (maxDepth <? depth)%nat then vmsg (v_i v) "maximum nesting depth exceeded" else
      match src !! v_i v with
      | None => vmsg (v_i v) "expected value"
      | Some c =>
          if c =? 0x6e then scalar_at v (parseLiteral (v_i v) lit_null)
          else if c =? 0x74 then scalar_at v (parseLiteral (v_i v) lit_true)
          else if c =? 0x66 then scalar_at v (parseLiteral (v_i v) lit_false)
          else if c =? 0x22 then scalar_at v (parseString (v_i v))
          else if c =? 0x5b then parseArray fuel v (S depth)
          else if c =? 0x7b then parseObject fuel v (S depth)
          else if (c =? 0x2d) || isDigit c then scalar_at v (parseNumber (v_i v))
          else verr (v_i v) (MsgUnexpectedByte c)
      end
  end
with parseArray (fuel : nat) (v : validator) (depth : nat) : res SyntaxError validator :=
  match fuel with
  | O => OutOfFuel
  | S fuel =>
      if (maxDepth <? depth)%nat then vmsg (v_i v) "maximum nesting depth exceeded" else
      let v := withI v (S (v_i v)) in
      let '(countIndex, v) := openContainer v in
      let v := vskip v in
      if at_byte v 0x5d then Ok (withI v (S (v_i v)))
      else arrayLoop fuel v depth countIndex 0
  end
with arrayLoop (fuel : nat) (v : validator) (depth : nat) (countIndex : option nat) (count : nat)
    : res SyntaxError validator :=
  match fuel with
  | O => OutOfFuel
  | S fuel =>
      v ← parseValue fuel (vskip v) depth;
      let count := S count in
      let v := vskip (upd_layout addValue v) in
      if (length src <=? v_i v)%nat then vmsg (v_i v) "unterminated array"
      else if at_byte v 0x2c then arrayLoop fuel (withI v (S (v_i v))) depth countIndex count
      else if at_byte v 0x5d then Ok (closeContainer countIndex count (withI v (S (v_i v))))
      else vmsg (v_i v) "expected comma or closing bracket in array"
  end
with parseObject (fuel : nat) (v : validator) (depth : nat) : res SyntaxError validator :=
  match fuel with
  | O => OutOfFuel
  | S fuel =>
      if (maxDepth <? depth)%nat then vmsg (v_i v) "maximum nesting depth exceeded" else
      let v := withI v (S (v_i v)) in
      let '(countIndex, v) := openContainer v in
      let v := vskip v in
      if at_byte v 0x7d then Ok (withI v (S (v_i v)))
      else objectLoop fuel v depth countIndex 0
  end
with objectLoop (fuel : nat) (v : validator) (depth : nat) (countIndex : option nat) (count : nat)
    : res SyntaxError validator :=
  match fuel with
  | O => OutOfFuel
  | S fuel =>
      let v := vskip v in
      if negb (at_byte v 0x22) then vmsg (v_i v) "expected object key string" else
      v ← scalar_at v (parseString (v_i v));
      let v := vskip v in
      if negb (at_byte v 0x3a) then vmsg (v_i v) "expected colon after object key" else
      v ← parseValue fuel (vskip (withI v (S (v_i v)))) depth;
      let count := S count in
      let v := vskip (upd_layout addMember v) in
      if (length src <=? v_i v)%nat then vmsg (v_i v) "unterminated object"
      else if at_byte v 0x2c then objectLoop fuel (withI v (S (v_i v))) depth countIndex count
      else if at_byte v 0x7d then Ok (closeContainer countIndex count (withI v (S (v_i v))))
      else vmsg (v_i v) "expected comma or closing brace in object"
  end.

(** The unfolding of each function, for rewriting. *)
Lemma parseValue_S fuel v depth :
  parseValue (S fuel) v depth =
      if (maxDepth <? depth)%nat then vmsg (v_i v) "maximum nesting depth exceeded" else
      match src !! v_i v with
      | None => vmsg (v_i v) "expected value"
      | Some c =>
          if c =? 0x6e then scalar_at v (parseLiteral (v_i v) lit_null)
          else if c =? 0x74 then scalar_at v (parseLiteral (v_i v) lit_true)
          else if c =? 0x66 then scalar_at v (parseLiteral (v_i v) lit_false)
          else if c =? 0x22 then scalar_at v (parseString (v_i v))
          else if c =? 0x5b then parseArray fuel v (S depth)
          else if c =? 0x7b then parseObject fuel v (S depth)
          else if (c =? 0x2d) || isDigit c then scalar_at v (parseNumber (v_i v))
          else verr (v_i v) (MsgUnexpectedByte c)
      end.
Proof. reflexivity. Qed.
Lemma parseArray_S fuel v depth :
  parseArray (S fuel) v depth =
      if (maxDepth <? depth)%nat then vmsg (v_i v) "maximum nesting depth exceeded" else
      let v := withI v (S (v_i v)) in
      let '(countIndex, v) := openContainer v in
      let v := vskip v in
      if at_byte v 0x5d then Ok (withI v (S (v_i v)))
      else arrayLoop fuel v depth countIndex 0.
Proof. reflexivity. Qed.
Lemma arrayLoop_S fuel v depth countIndex count :
  arrayLoop (S fuel) v depth countIndex count =
      v ← parseValue fuel (vskip v) depth;
      let count := S count in
      let v := vskip (upd_layout addValue v) in
      if (length src <=? v_i v)%nat then vmsg (v_i v) "unterminated array"
      else if at_byte v 0x2c then arrayLoop fuel (withI v (S (v_i v))) depth countIndex count
      else if at_byte v 0x5d then Ok (closeContainer countIndex count (withI v (S (v_i v))))
      else vmsg (v_i v) "expected comma or closing bracket in array".
Proof. reflexivity. Qed.
Lemma parseObject_S fuel v depth :
  parseObject (S fuel) v depth =
      if (maxDepth <? depth)%nat then vmsg (v_i v) "maximum nesting depth exceeded" else
      let v := withI v (S (v_i v)) in
      let '(countIndex, v) := openContainer v in
      let v := vskip v in
      if at_byte v 0x7d then Ok (withI v (S (v_i v)))
      else objectLoop fuel v depth countIndex 0.
Proof. reflexivity. Qed.
Lemma objectLoop_S fuel v depth countIndex count :
  objectLoop (S fuel) v depth countIndex count =
      let v := vskip v in
      if negb (at_byte v 0x22) then vmsg (v_i v) "expected object key string" else
      v ← scalar_at v (parseString (v_i v));
      let v := vskip v in
      if negb (at_byte v 0x3a) then vmsg (v_i v) "expected colon after object key" else
      v ← parseValue fuel (vskip (withI v (S (v_i v)))) depth;
      let count := S count in
      let v := vskip (upd_layout addMember v) in
      if (length src <=? v_i v)%nat then vmsg (v_i v) "unterminated object"
      else if at_byte v 0x2c then objectLoop fuel (withI v (S (v_i v))) depth countIndex count
      else if at_byte v 0x7d then Ok (closeContainer countIndex count (withI v (S (v_i v))))
      else vmsg (v_i v) "expected comma or closing brace in object".
Proof. reflexivity. Qed.

(** *** Entry points *)

Definition runText (v : validator) : res SyntaxError validator :=
  v ← parseValue (ref_fuel src) (vskip v) 0;
  let v := vskip v in
  if negb (v_i v =? length src)%nat then vmsg (v_i v) "unexpected data after top-level value"
  else Ok v.
End Validator.

Record Options := mkOptions { MaxDepth : Z }.

Definition effectiveDepth (d : Z) : nat := if d <=? 0 then defaultMaxDepth else Z.to_nat d.

(** [Ok] is a nil error. *)
Definition validateOptions (src : list Z) (opts : Options) : res SyntaxError unit :=
  _ ← runText src (effectiveDepth (MaxDepth opts)) (mkValidator 0 None); Ok tt.

Definition countLayout (src : list Z) (maxDepth : Z) : res SyntaxError layout :=
  v ← runText src (effectiveDepth maxDepth) (mkValidator 0 (Some zeroLayout));
  Ok (default zeroLayout (v_layout v)).

Definition validateNumber (src : list Z) : res SyntaxError unit :=
  match scanNumber src 0 with
  | Ok e => if negb (e =? length src)%nat then vmsg src e "unexpected data after number" else Ok tt
  | Err (_, msg) => vmsg src 0 msg
  | OutOfFuel => OutOfFuel
  end.

Definition validNumber (src : list Z) : bool :=
  match scanNumber src 0 with Ok e => (e =? length src)%nat | _ => false end.

Definition validateString (src : list Z) : res SyntaxError unit :=
  if (length src =? 0)%nat || negb (byteAt src 0 (fun c => c =? 0x22)) then vmsg src 0 "expected string"
  else
    i ← parseString src 0;
    if negb (i =? length src)%nat then vmsg src i "unexpected data after string" else Ok tt.

Definition validString (src : list Z) : bool := is_ok (validateString src).

(* [1, {"a": null}] *)
Example countLayout_ex :
  (fun l => (take (ncontainers l) (inline l), values l, members l)) <$>
    match countLayout [0x5b; 0x31; 0x2c; 0x20; 0x7b; 0x22; 0x61; 0x22; 0x3a; 0x6e; 0x75; 0x6c; 0x6c; 0x7d; 0x5d] 0
    with Ok l => Some l | _ => None end
  = Some ([2; 1]%nat, 2%nat, 1%nat).
Proof. vm_compute. reflexivity. Qed.

(** ** Scalars follow the grammar *)

Lemma sim_at_consume {E} src (m : res E nat) p o : sim_at src m (consume p o) <-> sim_at src m o.
Proof. by destruct o as [[body r]|]. Qed.

(** Non-special bytes are one-byte characters. *)
Lemma ref_body_ascii p t :
  bytes_ok p -> Forall (fun b => isStringSpecial b = false) p ->
  ref_body (p ++ t) = consume p (ref_body t).
Proof.
  intros B H.
  assert (encode_all p = p /\ Forall plain p) as [E P].
  { unfold encode_all. induction H as [|b p Hb _ IH]; [done|]. apply Forall_cons in B as [Bb B].
    destruct (IH B) as [IH1 IH2]. unfold isStringSpecial, is_byte in *. simpl.
    rewrite EncodeRune_low, IH1 by lia. split; [done|]. constructor; [|done].
    unfold plain, scalar. lia. }
  rewrite <- E. by apply ref_body_run.
Qed.

Section Scalars.
Variable src : list Z.
Hypothesis Hsrc : bytes_ok src.

Lemma At_bytes i s : At src i s -> bytes_ok s.
Proof. intros [<- _]. by apply Forall_drop. Qed.

Lemma parseLiteral_At i s lit :
  At src i s -> sim_at src (parseLiteral src i lit) (ref_lit lit s).
Proof.
  intros H. unfold parseLiteral, ref_lit. pose proof (matchStringAt_At _ _ _ lit H) as M.
  destruct (strip_prefix lit s) as [r|]; simpl.
  - destruct M as [-> M]. by eexists.
  - rewrite M. by eexists.
Qed.

Lemma parseNumber_At i s : At src i s -> sim_at src (parseNumber src i) (ref_number s).
Proof.
  intros H. unfold parseNumber. pose proof (scanNumber_At _ _ _ H) as M.
  destruct (ref_number s) as [[p r]|]; simpl in *.
  - destruct M as (j & -> & M). by eexists.
  - destruct M as ([j m] & ->). by eexists.
Qed.

(** From the byte [u]: its sixteen bits and, for a high surrogate, the low one. *)
Lemma validateUnicodeEscape_At i s :
  At src i (0x75 :: s) -> sim_at src (validateUnicodeEscape src i) (ref_unicode s).
Proof.
  intros H. apply At_cons in H. unfold validateUnicodeEscape, ref_unicode.
  pose proof (hex4_At _ _ _ H) as M. destruct (hex4 src (S i)) as [u ok].
  destruct (ref_hex4 s) as [[[u' h] t]|]; simpl.
  2:{ simpl in M. subst ok. by eexists. }
  destruct M as ([= -> ->] & H4 & Hu). simpl negb. cbv iota. unfold between.
  destruct ((0xd800 <=? u') && (u' <=? 0xdbff)) eqn:Eu.
  - rewrite (byteAt_At _ _ _ _ H4). pose proof (At_length _ _ _ H4) as L4.
    destruct t as [|c1 t]; simpl.
    { rewrite orb_true_r. by eexists. }
    apply At_cons in H4. rewrite (byteAt_At _ _ _ _ H4).
    destruct (c1 =? 0x5c); simpl; [|rewrite orb_true_r; by eexists].
    destruct t as [|c2 t]; simpl; [rewrite orb_true_r; by eexists|].
    destruct (c2 =? 0x75); simpl; [|rewrite orb_true_r; by eexists].
    apply At_cons in H4. pose proof (hex4_At _ _ _ H4) as M2.
    replace (S (S (S i + 4)))%nat with (S (i + 4 + 2)) in * by lia.
    destruct (ref_hex4 t) as [[[u2' h2] t2]|] eqn:Et; simpl.
    + destruct M2 as (-> & H5 & Hu2). rewrite !orb_false_r.
      apply ref_hex4_sound in Et as (a & b & c & d & -> & _ & ->). simpl in L4.
      replace (_ <? _)%nat with false by (symmetry; apply Nat.ltb_ge; lia). simpl.
      destruct ((0xdc00 <=? u2') && (u2' <=? 0xdfff)) eqn:E2.
      * replace ((u2' <? 0xdc00) || (0xdfff <? u2')) with false by lia. by eexists.
      * replace ((u2' <? 0xdc00) || (0xdfff <? u2')) with true by lia. by eexists.
    + destruct (hex4 src (S (i + 4 + 2))) as [u2 ok2]. simpl in M2. subst ok2.
      destruct (_ || _); by eexists.
  - destruct ((0xdc00 <=? u') && (u' <=? 0xdfff)) eqn:E3; [by eexists|]. eexists. by split.
Qed.

Lemma validateEscape_At i s :
  At src i s -> sim_at src (validateEscape src i) (ref_char (0x5c :: s)).
Proof.
  intros H. unfold validateEscape, ref_char. simpl. destruct s as [|e s].
  { rewrite At_lookup_nil by done. by eexists. }
  rewrite (At_lookup _ _ _ _ H). destruct (simpleEscape e) eqn:Ee.
  - assert (e <> 0x75) by (intros ->; done). replace (e =? 0x75) with false by lia.
    eexists. split; [done|]. by eapply At_cons.
  - destruct (Z.eqb_spec e 0x75) as [->|]; [by apply validateUnicodeEscape_At|]. by eexists.
Qed.

Lemma scan_to_split (hit : Z -> bool) i s :
  At src i s ->
  exists p t, s = p ++ t /\ Forall (fun b => hit b = false) p /\
    stops (fun b => negb (hit b)) t /\
    scan_to hit src i (length src) = (i + length p)%nat.
Proof.
  intros [<- L]. unfold scan_to. rewrite slice_end. set (u := drop i src).
  exists (take (first_hit hit u) u), (drop (first_hit hit u) u).
  pose proof (first_hit_le hit u). split; [by rewrite take_drop|].
  destruct (decide (first_hit hit u = length u)) as [E|N].
  - pose proof (proj1 (first_hit_all hit u) E). rewrite E, firstn_all, drop_all. done.
  - destruct (first_hit_spec hit u _ eq_refl) as (HF & c & Hc & Ec); [lia|].
    split; [done|]. rewrite (drop_S _ _ _ Hc), length_take. split; [simpl; by rewrite Ec|lia].
Qed.

Lemma At_drop i j : At src i (drop j src) -> (j <= length src)%nat -> i = j.
Proof. intros H L. eapply At_inj; [exact H|]. by split. Qed.

Lemma parseStringLoop_At fuel i s :
  At src i s -> (length s < fuel)%nat ->
  sim_at src (parseStringLoop src fuel i) (ref_body s).
Proof.
  revert i s. induction fuel as [|fuel IH]; intros i s H Lf; [lia|]. cbn [parseStringLoop].
  rewrite scanStringSpecial_to by (done || apply H).
  destruct (scan_to_split isStringSpecial i s H) as (p & t & -> & Hp & Ht & ->).
  pose proof (At_bytes _ _ H) as Bp. apply Forall_app in Bp as [Bp _]. rewrite ref_body_ascii by done. rewrite sim_at_consume.
  apply At_app in H. rewrite length_app in Lf. set (j := (i + length p)%nat) in *.
  destruct t as [|c t]; [rewrite At_lookup_nil by done; by eexists|].
  rewrite (At_lookup _ _ _ _ H). simpl in Ht, Lf. rewrite ref_body_unfold. cbn [expect].
  destruct (Z.eqb_spec c 0x22) as [->|N1].
  { eexists. split; [done|]. by eapply At_cons. }
  destruct (Z.eqb_spec c 0x5c) as [->|N2].
  - pose proof (At_cons _ _ _ _ H) as H'. destruct (Nat.leb_spec (length src) (S j)).
    { destruct t; [by eexists|]. apply At_lt in H'. lia. }
    apply (sim_at_bind src _ (ref_char (0x5c :: t)) _ (fun c t => consume c (ref_body t)));
      [by apply validateEscape_At|].
    intros k e r Hk E. rewrite sim_at_consume. apply IH; [done|].
    apply ref_char_sound in E as (_ & E & Le); [|done]. apply (f_equal length) in E.
    rewrite length_app in E. simpl in E. lia.
  - destruct (c <? 0x20) eqn:E3.
    { simpl. replace (c =? 0x5c) with false by lia. rewrite E3. by eexists. }
    assert (0x80 <= c) by (unfold isStringSpecial in Ht; lia).
    pose proof (scanStringUnicodeRun_spec src j c Hsrc (At_lookup _ _ _ _ H) ltac:(done)) as M.
    rewrite ref_body_unfold in M.
    destruct (scanStringUnicodeRun src j) as [next [b|]]; rewrite (proj1 H) in M; cbn [expect] in M;
      replace (c =? 0x22) with false in M by lia.
    + rewrite M. by eexists.
    + destruct M as (Ln & -> & _). rewrite sim_at_consume. apply IH; [by split; [done|lia]|].
      pose proof (At_length _ _ _ H). rewrite length_drop. simpl in *. lia.
Qed.

Lemma parseString_At i s :
  At src i (0x22 :: s) -> sim_at src (parseString src i) (ref_string (0x22 :: s)).
Proof.
  intros H. apply At_cons in H. unfold parseString, ref_string. cbn [expect].
  pose proof (parseStringLoop_At (S (length src)) (S i) s H) as M.
  pose proof (At_length _ _ _ H). specialize (M ltac:(lia)).
  simpl. by destruct (ref_body s) as [[body r]|].
Qed.
End Scalars.

(** ** Layout accounting: preorder container counts *)

(** Direct children of every container of [t], in the order they open. *)
Fixpoint counts (t : jv) : list nat :=
  match t with
  | JArr ts => length ts :: flat_map counts ts
  | JObj ms => length ms :: flat_map (fun m => counts m.2) ms
  | _ => []
  end.

(** Array elements and object members of [t], at every level. *)
Fixpoint nvalues (t : jv) : nat :=
  match t with
  | JArr ts => length ts + sum_list_with nvalues ts
  | JObj ms => sum_list_with (fun m => nvalues m.2) ms
  | _ => 0
  end.
Fixpoint nmembers (t : jv) : nat :=
  match t with
  | JArr ts => sum_list_with nmembers ts
  | JObj ms => length ms + sum_list_with (fun m => nmembers m.2) ms
  | _ => 0
  end.

(** The layout holds the counts [cs]; unused inline slots are still zero, which
    is what lets [addContainer] leave a fresh slot alone. *)
Definition lay (l : layout) (cs : list nat) (nv nm : nat) : Prop :=
  length (inline l) = 64%nat /\
  inline l ++ overflow l = cs ++ replicate (64 - length cs) 0%nat /\
  ncontainers l = length cs /\ values l = nv /\ members l = nm.

Lemma lay_zero : lay zeroLayout [] 0 0.
Proof. done. Qed.

Lemma lay_length l cs nv nm :
  lay l cs nv nm -> (64 + length (overflow l) = length cs + (64 - length cs))%nat.
Proof.
  intros (L & E & _). apply (f_equal length) in E. rewrite !length_app, length_replicate in E. lia.
Qed.

Lemma lay_addContainer l cs nv nm :
  lay l cs nv nm -> (addContainer l).1 = length cs /\ lay (addContainer l).2 (cs ++ [0%nat]) nv nm.
Proof.
  intros H. pose proof (lay_length _ _ _ _ H) as LL. destruct H as (L & E & N & V & M).
  unfold addContainer, lay. cbn [fst snd inline overflow ncontainers values members]. rewrite N, L. split; [done|].
  rewrite length_app. cbn [length]. split_and!; [done| |lia|done|done].
  destruct (Nat.leb_spec 64 (length cs)).
  - rewrite app_assoc, E. replace (64 - length cs)%nat with 0%nat by lia.
    replace (64 - (length cs + 1))%nat with 0%nat by lia. simpl. by rewrite !app_nil_r.
  - rewrite E, <- app_assoc. by replace (64 - length cs)%nat with (S (64 - (length cs + 1))) by lia.
Qed.

Lemma lay_setContainer l cs nv nm idx n :
  lay l cs nv nm -> (idx < length cs)%nat -> lay (setContainer idx n l) (<[idx := n]> cs) nv nm.
Proof.
  intros (L & E & N & V & M) Hi. unfold setContainer, lay. rewrite L, length_insert.
  rewrite <- insert_app_l by done. rewrite <- E.
  destruct (Nat.ltb_spec idx 64); simpl; rewrite ?length_insert.
  - by rewrite insert_app_l by lia.
  - rewrite insert_app_r_alt by lia. by rewrite L.
Qed.

Lemma lay_addValue l cs nv nm : lay l cs nv nm -> lay (addValue l) cs (S nv) nm.
Proof. unfold lay. simpl. intuition. Qed.
Lemma lay_addMember l cs nv nm : lay l cs nv nm -> lay (addMember l) cs nv (S nm).
Proof. unfold lay. simpl. intuition. Qed.

(** ** The validator follows the reference parser *)

Section Simulation.
Variable src : list Z.
Variable maxDepth : nat.
Hypothesis Hsrc : bytes_ok src.
(** Whether the run counts its layout. *)
Variable on : bool.

Abbreviation okd := (fun d => d <=? maxDepth)%nat.

(** The cursor is at the suffix [s] and the layout holds the given counts. *)
Definition tracks (v : validator) (s : list Z) (cs : list nat) (nv nm : nat) : Prop :=
  At src (v_i v) s /\
  if on then exists l, v_layout v = Some l /\ lay l cs nv nm else v_layout v = None.

Definition vsim {T} (m : res SyntaxError validator) (o : option (T * list Z))
    (cs : T -> list nat) (nv nm : T -> nat) : Prop :=
  match o with
  | Some (t, r) => exists v, m = Ok v /\ tracks v r (cs t) (nv t) (nm t)
  | None => exists e, m = Err e
  end.

Lemma tracks_withI v s r i cs nv nm : tracks v s cs nv nm -> At src i r -> tracks (withI v i) r cs nv nm.
Proof. by intros [_ H] H'. Qed.
Lemma tracks_vskip v s cs nv nm :
  tracks v s cs nv nm -> tracks (vskip src v) (skip_ws s) cs nv nm.
Proof. intros H. eapply tracks_withI; [done|]. apply skipSpace_At; [done|apply H]. Qed.
Lemma tracks_next v c s cs nv nm :
  tracks v (c :: s) cs nv nm -> tracks (withI v (S (v_i v))) s cs nv nm.
Proof. intros H. eapply tracks_withI; [done|]. eapply At_cons, H. Qed.
Lemma tracks_at v s cs nv nm c :
  tracks v s cs nv nm -> at_byte src v c = match expect c s with Some _ => true | None => false end.
Proof.
  intros [H _]. unfold at_byte. rewrite (byteAt_At _ _ _ _ H). destruct s as [|b s]; [done|]. simpl.
  by destruct (b =? c).
Qed.

Lemma tracks_open v s cs nv nm :
  tracks v s cs nv nm ->
  (openContainer v).1 = (if on then Some (length cs) else None) /\
  tracks (openContainer v).2 s (cs ++ [0%nat]) nv nm.
Proof.
  intros [H L]. unfold openContainer, tracks. destruct on.
  - destruct L as (l & -> & L). destruct (lay_addContainer _ _ _ _ L) as [E L'].
    destruct (addContainer l) as [idx l']. simpl in *. subst idx. split; [done|].
    split; [done|]. by exists l'.
  - by rewrite L.
Qed.

Lemma tracks_close v s cs nv nm idx n :
  tracks v s cs nv nm -> (idx < length cs)%nat ->
  tracks (closeContainer (if on then Some idx else None) n v) s (<[idx := n]> cs) nv nm.
Proof.
  intros [H L] Hi. unfold closeContainer, tracks, upd_layout. destruct on; [|done].
  destruct L as (l & -> & L). simpl. split; [done|]. eexists. split; [done|].
  by apply lay_setContainer.
Qed.

Lemma tracks_value v s cs nv nm :
  tracks v s cs nv nm -> tracks (upd_layout addValue v) s cs (S nv) nm.
Proof.
  intros [H L]. unfold tracks, upd_layout. destruct on; simpl; [|by rewrite L].
  destruct L as (l & -> & L). split; [done|]. eexists. split; [done|]. by apply lay_addValue.
Qed.
Lemma tracks_member v s cs nv nm :
  tracks v s cs nv nm -> tracks (upd_layout addMember v) s cs nv (S nm).
Proof.
  intros [H L]. unfold tracks, upd_layout. destruct on; simpl; [|by rewrite L].
  destruct L as (l & -> & L). split; [done|]. eexists. split; [done|]. by apply lay_addMember.
Qed.

(** What each parse function owes at a given fuel: three steps per byte. *)
Definition sim_value (fuel : nat) : Prop := forall v s d cs nv nm,
  tracks v s cs nv nm -> (3 * length s < fuel)%nat ->
  vsim (parseValue src maxDepth fuel v d) (ref_value okd okd fuel d s)
    (fun t => cs ++ counts t) (fun t => nv + nvalues t)%nat (fun t => nm + nmembers t)%nat.
Definition sim_array (fuel : nat) : Prop := forall v c s d cs nv nm,
  tracks v (c :: s) cs nv nm -> (3 * length s + 2 < fuel)%nat -> okd d = true ->
  vsim (parseArray src maxDepth fuel v d) (ref_array okd okd fuel d s)
    (fun t => cs ++ counts t) (fun t => nv + nvalues t)%nat (fun t => nm + nmembers t)%nat.
Definition sim_elems (fuel : nat) : Prop := forall v s d cs nv nm idx n,
  tracks v s cs nv nm -> (3 * length s + 1 < fuel)%nat -> (idx < length cs)%nat ->
  vsim (arrayLoop src maxDepth fuel v d (if on then Some idx else None) n)
    (ref_elems okd okd fuel d s)
    (fun ts => <[idx := (n + length ts)%nat]> (cs ++ flat_map counts ts))
    (fun ts => nv + (length ts + sum_list_with nvalues ts))%nat
    (fun ts => nm + sum_list_with nmembers ts)%nat.
Definition sim_object (fuel : nat) : Prop := forall v c s d cs nv nm,
  tracks v (c :: s) cs nv nm -> (3 * length s + 2 < fuel)%nat -> okd d = true ->
  vsim (parseObject src maxDepth fuel v d) (ref_object okd okd fuel d s)
    (fun t => cs ++ counts t) (fun t => nv + nvalues t)%nat (fun t => nm + nmembers t)%nat.
Definition sim_members (fuel : nat) : Prop := forall v s d cs nv nm idx n,
  tracks v s cs nv nm -> (3 * length s + 1 < fuel)%nat -> (idx < length cs)%nat ->
  vsim (objectLoop src maxDepth fuel v d (if on then Some idx else None) n)
    (ref_members okd okd fuel d s)
    (fun ms => <[idx := (n + length ms)%nat]> (cs ++ flat_map (fun m => counts m.2) ms))
    (fun ms => nv + sum_list_with (fun m => nvalues m.2) ms)%nat
    (fun ms => nm + (length ms + sum_list_with (fun m => nmembers m.2) ms))%nat.

(** A scalar token leaves the layout alone. *)
Lemma vsim_scalar {T} v s cs nv nm (m : res SyntaxError nat) (o : option (T * list Z))
    (f : T -> jv) :
  tracks v s cs nv nm -> sim_at src m o ->
  (forall x, counts (f x) = [] /\ nvalues (f x) = 0%nat /\ nmembers (f x) = 0%nat) ->
  vsim (scalar_at v m) ('(x, r) ← o; Some (f x, r))
    (fun t => cs ++ counts t) (fun t => nv + nvalues t)%nat (fun t => nm + nmembers t)%nat.
Proof.
  intros H Hm Hf. unfold scalar_at. destruct o as [[x r]|]; simpl in *.
  - destruct Hm as (j & -> & Hj). eexists. split; [done|].
    destruct (Hf x) as (-> & -> & ->). rewrite app_nil_r, !Nat.add_0_r.
    by eapply tracks_withI.
  - destruct Hm as (e & ->). by eexists.
Qed.

Lemma vsim_lit v s cs nv nm l :
  tracks v s cs nv nm ->
  vsim (scalar_at v (parseLiteral src (v_i v) l)) (ref_lit l s)
    (fun t => cs ++ counts t) (fun t => nv + nvalues t)%nat (fun t => nm + nmembers t)%nat.
Proof.
  intros H. pose proof (parseLiteral_At src (v_i v) s l (proj1 H)) as M.
  unfold ref_lit in *. destruct (strip_prefix l s) as [r|].
  - by apply (vsim_scalar v s cs nv nm _ (Some (tt, r)) (fun _ => JLit l)).
  - by apply (vsim_scalar v s cs nv nm _ None (fun _ : unit => JLit l)).
Qed.

Lemma sim_value_step fuel : sim_array fuel -> sim_object fuel -> sim_value (S fuel).
Proof.
  intros IHa IHo v s d cs nv nm H L. rewrite parseValue_S. cbn [ref_value].
  rewrite Nat.ltb_antisym. destruct (d <=? maxDepth)%nat; [|by eexists]. cbn [negb].
  destruct s as [|c s]; [rewrite (At_lookup_nil _ _ (proj1 H)); by eexists|].
  rewrite (At_lookup _ _ _ _ (proj1 H)). simpl in L.
  destruct (c =? 0x6e); [by apply vsim_lit|]. destruct (c =? 0x74); [by apply vsim_lit|].
  destruct (c =? 0x66); [by apply vsim_lit|].
  destruct (Z.eqb_spec c 0x22) as [->|_].
  { eapply (vsim_scalar _ _ _ _ _ _ _ JStr); [done|apply parseString_At; [done|apply H]|done]. }
  destruct (c =? 0x5b).
  { destruct (S d <=? maxDepth)%nat eqn:Ed; [apply (IHa v c); [done|lia|done]|].
    destruct fuel; [lia|]. rewrite parseArray_S. rewrite Nat.ltb_antisym, Ed. by eexists. }
  destruct (c =? 0x7b).
  { destruct (S d <=? maxDepth)%nat eqn:Ed; [apply (IHo v c); [done|lia|done]|].
    destruct fuel; [lia|]. rewrite parseObject_S. rewrite Nat.ltb_antisym, Ed. by eexists. }
  destruct (_ || _); [|by eexists].
  eapply (vsim_scalar _ _ _ _ _ _ _ (fun p => JNum (np_print p))); [done|apply parseNumber_At, H|done].
Qed.

Lemma tracks_eq v s cs cs' nv nv' nm nm' :
  tracks v s cs nv nm -> cs = cs' -> nv = nv' -> nm = nm' -> tracks v s cs' nv' nm'.
Proof. by intros ? <- <- <-. Qed.

Lemma tracks_expect v s r c cs nv nm :
  tracks v s cs nv nm -> expect c s = Some r -> tracks (withI v (S (v_i v))) r cs nv nm.
Proof. intros H ->%expect_Some. by eapply tracks_next. Qed.

Lemma tracks_end v s cs nv nm :
  tracks v s cs nv nm -> (length src <=? v_i v)%nat = match s with [] => true | _ => false end.
Proof.
  intros [H _]. destruct s as [|c s].
  - apply At_nil in H. apply Nat.leb_le. lia.
  - apply At_lt in H. by apply Nat.leb_gt.
Qed.

Lemma insert_opened (cs rest : list nat) n :
  <[length cs := n]> ((cs ++ [0%nat]) ++ rest) = cs ++ n :: rest.
Proof. rewrite <- app_assoc, insert_app_r_alt, Nat.sub_diag by lia. done. Qed.

Lemma sim_array_step fuel : sim_elems fuel -> sim_array (S fuel).
Proof.
  intros IH v c s d cs nv nm H L Hd. rewrite parseArray_S. cbn [ref_array].
  rewrite Nat.ltb_antisym, Hd. cbn [negb].
  apply tracks_next, tracks_open in H as [E H].
  destruct (openContainer _) as [ci v']. cbn [fst snd] in E, H. subst ci. apply tracks_vskip in H.
  rewrite (tracks_at _ _ _ _ _ 0x5d H). destruct (expect 0x5d (skip_ws s)) as [r|] eqn:Q.
  { eexists. split; [done|]. simpl. rewrite !Nat.add_0_r. by eapply tracks_expect. }
  pose proof (skip_ws_length s).
  specialize (IH _ _ d _ _ _ (length cs) 0%nat H ltac:(lia)).
  rewrite length_app in IH. specialize (IH ltac:(simpl; lia)).
  destruct (ref_elems okd okd fuel d (skip_ws s)) as [[ts r]|]; [|done].
  destruct IH as (v2 & -> & H2). eexists. split; [done|]. by rewrite insert_opened in H2.
Qed.

Lemma sim_object_step fuel : sim_members fuel -> sim_object (S fuel).
Proof.
  intros IH v c s d cs nv nm H L Hd. rewrite parseObject_S. cbn [ref_object].
  rewrite Nat.ltb_antisym, Hd. cbn [negb].
  apply tracks_next, tracks_open in H as [E H].
  destruct (openContainer _) as [ci v']. cbn [fst snd] in E, H. subst ci. apply tracks_vskip in H.
  rewrite (tracks_at _ _ _ _ _ 0x7d H). destruct (expect 0x7d (skip_ws s)) as [r|] eqn:Q.
  { eexists. split; [done|]. simpl. rewrite !Nat.add_0_r. by eapply tracks_expect. }
  pose proof (skip_ws_length s).
  specialize (IH _ _ d _ _ _ (length cs) 0%nat H ltac:(lia)).
  rewrite length_app in IH. specialize (IH ltac:(simpl; lia)).
  destruct (ref_members okd okd fuel d (skip_ws s)) as [[ms r]|]; [|done].
  destruct IH as (v2 & -> & H2). eexists. split; [done|]. by rewrite insert_opened in H2.
Qed.

Lemma sim_elems_step fuel : sim_value fuel -> sim_elems fuel -> sim_elems (S fuel).
Proof.
  intros IHv IHe v s d cs nv nm idx n H L Hi. rewrite arrayLoop_S. cbn [ref_elems].
  pose proof (skip_ws_length s). apply tracks_vskip in H.
  specialize (IHv _ _ d _ _ _ H ltac:(lia)).
  destruct (ref_value okd okd fuel d (skip_ws s)) as [[t r]|] eqn:E; cbv beta iota delta [vsim] in IHv.
  2:{ destruct IHv as (e & ->). by eexists. }
  destruct IHv as (v1 & -> & H1). apply ref_value_length in E. cbn [mbind option_bind res_bind].
  apply tracks_value, tracks_vskip in H1. cbv zeta.
  set (v2 := vskip src (upd_layout addValue v1)) in *.
  rewrite (tracks_end _ _ _ _ _ H1), !(tracks_at _ _ _ _ _ _ H1). pose proof (skip_ws_length r) as Lr.
  assert (Hi' : (idx < length (cs ++ counts t))%nat) by (rewrite length_app; lia).
  destruct (expect 0x2c (skip_ws r)) as [q|] eqn:Q.
  - pose proof (tracks_expect _ _ _ _ _ _ _ H1 Q) as H3. apply expect_length in Q as Lq.
    specialize (IHe _ _ d _ _ _ idx (S n) H3 ltac:(lia) Hi'). apply expect_Some in Q. rewrite Q.
    destruct (ref_elems okd okd fuel d q) as [[ts r2]|]; simpl in *; [|done].
    destruct IHe as (v3 & -> & H4). eexists. split; [done|].
    rewrite <- app_assoc in H4. replace (n + S (length ts))%nat with (S n + length ts)%nat by lia.
    eapply tracks_eq; [exact H4|done|lia..].
  - destruct (expect 0x5d (skip_ws r)) as [q|] eqn:Q2.
    + pose proof (tracks_expect _ _ _ _ _ _ _ H1 Q2) as H2. apply expect_Some in Q2. rewrite Q2.
      eexists. split; [done|]. simpl. rewrite app_nil_r.
      eapply tracks_close in H2; [|exact Hi']. replace (n + 1)%nat with (S n) by lia.
      eapply tracks_eq; [exact H2|done|lia..].
    + destruct (skip_ws r); by eexists.
Qed.

Lemma sim_members_step fuel : sim_value fuel -> sim_members fuel -> sim_members (S fuel).
Proof.
  intros IHv IHm v s d cs nv nm idx n H L Hi. rewrite objectLoop_S. cbn [ref_members].
  pose proof (skip_ws_length s). apply tracks_vskip in H. cbv zeta.
  rewrite (tracks_at _ _ _ _ _ _ H). destruct (expect 0x22 (skip_ws s)) as [s0|] eqn:Es.
  2:{ unfold ref_string. rewrite Es. by eexists. }
  cbn [negb]. apply expect_Some in Es. rewrite Es in *.
  pose proof (parseString_At src Hsrc _ _ (proj1 H)) as Hk. unfold scalar_at.
  destruct (ref_string (0x22 :: s0)) as [[k r0]|] eqn:Ek; cbn [sim_at] in Hk.
  2:{ destruct Hk as (e & ->). by eexists. }
  destruct Hk as (j & -> & Hk). cbn [mbind option_bind res_bind].
  apply (tracks_withI _ _ _ _ _ _ _ H), tracks_vskip in Hk. apply ref_string_length in Ek.
  rewrite (tracks_at _ _ _ _ _ _ Hk). pose proof (skip_ws_length r0) as Lr0.
  destruct (expect 0x3a (skip_ws r0)) as [r1|] eqn:Er; [|by eexists]. cbn [negb mbind option_bind res_bind].
  pose proof (tracks_expect _ _ _ _ _ _ _ Hk Er) as H2. apply tracks_vskip in H2.
  pose proof (skip_ws_length r1) as Lr1. apply expect_length in Er.
  specialize (IHv _ _ d _ _ _ H2 ltac:(lia)).
  destruct (ref_value okd okd fuel d (skip_ws r1)) as [[t r]|] eqn:E; cbv beta iota delta [vsim] in IHv.
  2:{ destruct IHv as (e & ->). cbn. by eexists. }
  destruct IHv as (v1 & -> & H3). apply ref_value_length in E. cbn [mbind option_bind res_bind].
  apply tracks_member, tracks_vskip in H3.
  set (v2 := vskip src (upd_layout addMember v1)) in *.
  rewrite (tracks_end _ _ _ _ _ H3), !(tracks_at _ _ _ _ _ _ H3). pose proof (skip_ws_length r).
  assert (Hi' : (idx < length (cs ++ counts t))%nat) by (rewrite length_app; lia).
  destruct (expect 0x2c (skip_ws r)) as [q|] eqn:Q.
  - pose proof (tracks_expect _ _ _ _ _ _ _ H3 Q) as H4. apply expect_length in Q as Lq.
    specialize (IHm _ _ d _ _ _ idx (S n) H4 ltac:(lia) Hi'). apply expect_Some in Q. rewrite Q.
    destruct (ref_members okd okd fuel d q) as [[ms r2]|]; simpl in *; [|done].
    destruct IHm as (v3 & -> & H5). eexists. split; [done|].
    rewrite <- app_assoc in H5. replace (n + S (length ms))%nat with (S n + length ms)%nat by lia.
    eapply tracks_eq; [exact H5|done|lia..].
  - destruct (expect 0x7d (skip_ws r)) as [q|] eqn:Q2.
    + pose proof (tracks_expect _ _ _ _ _ _ _ H3 Q2) as H4. apply expect_Some in Q2. rewrite Q2.
      eexists. split; [done|]. simpl. rewrite app_nil_r.
      eapply tracks_close in H4; [|exact Hi']. replace (n + 1)%nat with (S n) by lia.
      eapply tracks_eq; [exact H4|done|lia..].
    + destruct (skip_ws r); by eexists.
Qed.

Lemma validator_sim fuel :
  sim_value fuel /\ sim_array fuel /\ sim_elems fuel /\ sim_object fuel /\ sim_members fuel.
Proof.
  induction fuel as [|fuel (Hv & Ha & He & Ho & Hm)].
  - split_and!; repeat intro; lia.
  - split_and!; eauto using sim_value_step, sim_array_step, sim_elems_step, sim_object_step, sim_members_step.
Qed.

Lemma runText_sim v :
  tracks v src [] 0 0 ->
  match ref_text okd okd src with
  | Some t => exists v', runText src maxDepth v = Ok v' /\ tracks v' [] (counts t) (nvalues t) (nmembers t)
  | None => exists e, runText src maxDepth v = Err e
  end.
Proof.
  intros H. unfold runText, ref_text. apply tracks_vskip in H. pose proof (skip_ws_length src).
  destruct (validator_sim (ref_fuel src)) as (M & _). 
  specialize (M _ _ 0%nat _ _ _ H ltac:(unfold ref_fuel; lia)).
  destruct (ref_value okd okd (ref_fuel src) 0 (skip_ws src)) as [[t r]|]; cbv beta iota delta [vsim] in M.
  2:{ destruct M as (e & ->). by eexists. }
  destruct M as (v1 & -> & M). apply tracks_vskip in M. cbn [mbind option_bind res_bind].
  destruct (skip_ws r) as [|c q] eqn:E.
  - pose proof (proj1 (At_nil _ _) (proj1 M)) as ->. rewrite Nat.eqb_refl. by eexists.
  - pose proof (At_lt _ _ _ _ (proj1 M)). replace (_ =? _)%nat with false; [by eexists|].
    symmetry. apply Nat.eqb_neq. lia.
Qed.
End Simulation.


(** ** Errors carry a position of the source *)

Section Located.
Variable src : list Z.
Variable maxDepth : nat.

Definition located {A} (m : res SyntaxError A) : Prop :=
  match m with Err e => exists off msg, e = syntaxError src off msg | _ => True end.

Lemma located_verr {A} off msg : located (verr (A:=A) src off msg).
Proof. by eexists _, _. Qed.
Lemma located_bind {A B} (m : res SyntaxError A) (k : A -> res SyntaxError B) :
  located m -> (forall a, located (k a)) -> located (m ≫= k).
Proof. destruct m; simpl; auto. Qed.

Ltac locate :=
  repeat first
    [ progress intros
    | apply located_bind
    | apply located_verr
    | exact I
    | match goal with
      | |- located (if ?b then _ else _) => destruct b
      | |- located (match ?x with _ => _ end) => destruct x
      | |- located (let _ := _ in _) => cbv zeta
      end
    | eassumption ].

Lemma located_string i : located (parseString src i).
Proof.
  unfold parseString. generalize (S i). generalize (S (length src)). intros fuel.
  induction fuel as [|fuel IH]; intros j; cbn [parseStringLoop]; [done|].
  unfold validateEscape, validateUnicodeEscape, vmsg. locate; apply IH.
Qed.

Lemma located_parse fuel :
  (forall v d, located (parseValue src maxDepth fuel v d)) /\
  (forall v d, located (parseArray src maxDepth fuel v d)) /\
  (forall v d ci n, located (arrayLoop src maxDepth fuel v d ci n)) /\
  (forall v d, located (parseObject src maxDepth fuel v d)) /\
  (forall v d ci n, located (objectLoop src maxDepth fuel v d ci n)).
Proof.
  induction fuel as [|fuel (Hv & Ha & He & Ho & Hm)]; [done|].
  assert (Hl : forall i l, located (parseLiteral src i l)) by (intros; unfold parseLiteral, vmsg; by locate).
  assert (Hn : forall i, located (parseNumber src i)) by (intros; unfold parseNumber, vmsg; by locate).
  pose proof located_string as Hs.
  split_and!; intros; rewrite ?parseValue_S, ?parseArray_S, ?arrayLoop_S, ?parseObject_S, ?objectLoop_S;
    unfold vmsg; locate; auto.
Qed.

Lemma located_runText v : located (runText src maxDepth v).
Proof. unfold runText, vmsg. locate. apply located_parse. Qed.
End Located.

(** ** Validation decides RFC 8259 *)

Lemma validateOptions_ref src opts :
  bytes_ok src ->
  let M := effectiveDepth (MaxDepth opts) in
  is_ok (validateOptions src opts)
  = (match ref_text (fun d => d <=? M)%nat (fun d => d <=? M)%nat src with Some _ => true | None => false end) /\
  validateOptions src opts <> OutOfFuel.
Proof.
  intros B M. unfold validateOptions.
  pose proof (runText_sim src M B false (mkValidator 0 None) (conj (At_0 src) eq_refl)) as S. fold M.
  destruct (ref_text _ _ src) as [t|].
  - by destruct S as (v & -> & _).
  - by destruct S as (e & ->).
Qed.

(** C1: [Validate] with options accepts a byte string exactly when it is one
    RFC 8259 JSON text (well-formed UTF-8 strings, paired surrogates, no
    trailing data) whose containers nest at most to the effective depth limit;
    the parser always terminates with a verdict. *)
Theorem validateOptions_spec (src : list Z) (opts : Options) :
  bytes_ok src ->
  (validateOptions src opts = Ok tt <->
   exists t, jtext t src /\ (height t <= effectiveDepth (MaxDepth opts))%nat) /\
  validateOptions src opts <> OutOfFuel.
Proof.
  intros B. destruct (validateOptions_ref src opts B) as [E F]. split; [|done]. cbv zeta in E.
  set (M := effectiveDepth _) in *.
  pose proof (ref_text_spec (fun d => d <=? M)%nat (fun d => d <=? M)%nat src) as R.
  assert (D : forall t, depth_ok (fun d => d <=? M)%nat (fun d => d <=? M)%nat 0 t = true <-> (height t <= M)%nat)
    by (intros t; rewrite depth_ok_height; apply Nat.leb_le).
  setoid_rewrite <- D. setoid_rewrite <- R. destruct (ref_text _ _ src) as [t|].
  - destruct (validateOptions src opts) as [[]|e|]; try done. split; [|done]. by exists t.
  - destruct (validateOptions src opts); try done. split; [done|]. by intros (t & ?).
Qed.

(** [{"k": [1]}] is accepted at depth 2. *)
Lemma validateOptions_spec_witness :
  exists t, jtext t [0x7b; 0x22; 0x6b; 0x22; 0x3a; 0x20; 0x5b; 0x31; 0x5d; 0x7d] /\ (height t <= 2)%nat.
Proof.
  apply (validateOptions_spec [0x7b; 0x22; 0x6b; 0x22; 0x3a; 0x20; 0x5b; 0x31; 0x5d; 0x7d] (mkOptions 2)).
  - by repeat (constructor; [done|]).
  - vm_compute. reflexivity.
Defined.

(** C31: a rejected text yields a [SyntaxError] whose offset lies in the source,
    whose line is one more than the newlines before that offset and whose
    column counts the bytes since the last newline. *)
Theorem validateOptions_error (src : list Z) (opts : Options) (e : SyntaxError) :
  validateOptions src opts = Err e ->
  0 <= Offset e <= Z.of_nat (length src) /\
  let p := take (Z.to_nat (Offset e)) src in
  Line e = 1 + newlines p /\
  (~ In 0x0a p -> Column e = 1 + Offset e) /\
  forall a b, p = a ++ 0x0a :: b -> ~ In 0x0a b -> Column e = 1 + Z.of_nat (length b).
Proof.
  intros H. unfold validateOptions in H.
  pose proof (located_runText src (effectiveDepth (MaxDepth opts)) (mkValidator 0 None)) as L.
  destruct (runText _ _ _) as [v|e'|]; try done. injection H as ->.
  destruct L as (off & msg & ->). destruct (syntaxError_position src off msg) as (H1 & _ & H2).
  by split.
Qed.

(** [[1,\n x]]: the unexpected byte is at line 2, column 2. *)
Lemma validateOptions_error_witness :
  Column (mkSyntaxError 5 2 2 (MsgUnexpectedByte 0x78)) = 1 + Z.of_nat (length [0x20]).
Proof.
  destruct (validateOptions_error [0x5b; 0x31; 0x2c; 0x0a; 0x20; 0x78; 0x5d] (mkOptions 0)
              (mkSyntaxError 5 2 2 (MsgUnexpectedByte 0x78))) as (_ & _ & _ & H).
  - vm_compute. reflexivity.
  - apply (H [0x5b; 0x31; 0x2c] [0x20]); [reflexivity|]. simpl. intros [H'|[]]. discriminate H'.
Defined.

(** [countLayout] returns, for every accepted text, the child count of
    every container in the order the containers open (across the inline array
    and its overflow), and the totals of array values and object members. *)
Theorem countLayout_spec (src : list Z) (maxDepth : Z) (t : jv) :
  bytes_ok src -> jtext t src -> (height t <= effectiveDepth maxDepth)%nat ->
  exists l, countLayout src maxDepth = Ok l /\
    take (ncontainers l) (inline l ++ overflow l) = counts t /\
    values l = nvalues t /\ members l = nmembers t.
Proof.
  intros B J D. unfold countLayout. set (M := effectiveDepth _) in *.
  pose proof (runText_sim src M B true (mkValidator 0 (Some zeroLayout))) as S.
  destruct (ref_text_spec (fun d => d <=? M)%nat (fun d => d <=? M)%nat src t) as [_ R].
  rewrite R in S. 2:{ split; [done|]. rewrite depth_ok_height. by apply Nat.leb_le. }
  destruct S as (v & -> & _ & l & E & L).
  { split; [apply At_0|]. by exists zeroLayout. }
  exists l. destruct v as [i lo]. simpl in *. subst lo. split; [done|].
  destruct L as (_ & E & -> & -> & ->). rewrite E. split; [|done]. by rewrite take_app_length.
Qed.

Lemma countLayout_spec_witness :
  exists l, countLayout [0x5b; 0x5b; 0x5d; 0x2c; 0x31; 0x5d] 0 = Ok l /\
    take (ncontainers l) (inline l ++ overflow l) = [2; 0]%nat /\ values l = 2%nat /\ members l = 0%nat.
Proof.
  apply (countLayout_spec [0x5b; 0x5b; 0x5d; 0x2c; 0x31; 0x5d] 0 (JArr [JArr []; JNum [0x31]])).
  - by repeat (constructor; [done|]).
  - apply (ref_text_spec (fun _ => true) (fun _ => true)). vm_compute. reflexivity.
  - apply Nat.leb_le. vm_compute. reflexivity.
Defined.

(** [validNumber] and [validString] recognise exactly the number and string
    tokens of the grammar. *)
Theorem valid_token_spec (src : list Z) :
  (validNumber src = true <-> jnumber src) /\
  (bytes_ok src -> (validString src = true <-> jstring src)).
Proof.
  split.
  - rewrite jnumber_ref. unfold validNumber. pose proof (scanNumber_At src 0 src (At_0 src)) as S.
    destruct (ref_number src) as [[p r]|]; simpl in S.
    + destruct S as (j & -> & H). rewrite Nat.eqb_eq. split.
      * intros ->. exists p. by rewrite (At_suffix_end _ _ H).
      * intros (p' & [= <- ->]). by apply At_nil in H.
    + destruct S as (e & ->). split; [done|]. by intros (p & ?).
  - intros B. rewrite jstring_ref. unfold validString, validateString. rewrite (byteAt_At _ _ _ _ (At_0 src)).
    destruct src as [|c s]; [done|]. simpl length. simpl orb.
    destruct (Z.eqb_spec c 0x22) as [->|N].
    2:{ simpl. unfold ref_string. simpl. replace (c =? 0x22) with false by lia. done. }
    pose proof (parseString_At _ B 0 s (At_0 _)) as S. simpl negb. cbv iota.
    destruct (ref_string (0x22 :: s)) as [[k r]|] eqn:E; cbn [sim_at] in S.
    + destruct S as (j & -> & H). cbn [mbind res_bind].
      apply ref_string_spec in E as [J E]. change (S (length s)) with (length (0x22 :: s)).
      destruct (Nat.eqb_spec j (length (0x22 :: s))) as [->|N]; simpl.
      * rewrite (At_suffix_end _ _ H), app_nil_r in *. by rewrite E.
      * split; [done|]. intros [= _ ->]. by apply At_nil in H.
    + destruct S as (e & ->). by split.
Qed.

(** The string half, at the token ["é"]. *)
Lemma valid_token_spec_witness : jstring [0x22; 0xc3; 0xa9; 0x22].
Proof.
  apply (valid_token_spec [0x22; 0xc3; 0xa9; 0x22]).
  - by repeat (constructor; [done|]).
  - vm_compute. reflexivity.
Defined.
