(* ===== verification/Compact.v ===== *)
(** * Compact: the whitespace-removing formatter of compact.go

    Models [compactParser] and the token copiers it shares with indent.go.
    The state is the cursor and the growing destination; the source and the
    depth limit are section variables.  The formatter is proved to append the
    canonical whitespace-free spelling of the parsed tree, or to leave the
    destination unchanged. *)
From Stdlib Require Import ZArith Lia List Bool.
From stdpp Require Import base numbers list strings.
From S2P Require Import Prelude Utf8 Grammar Scanner ScanUnicode Lex Validate.

Open Scope Z_scope.

(** ** The code *)

(** The mutable fields [i] and [dst] of [compactParser] and [indentParser]. *)
Record writer := mkWriter { w_i : nat; w_dst : list Z }.

Definition emit (bs : list Z) (w : writer) : writer := mkWriter (w_i w) (w_dst w ++ bs).
Definition moveTo (i : nat) (w : writer) : writer := mkWriter i (w_dst w).
Definition next (w : writer) : writer := moveTo (S (w_i w)) w.

Section Tokens.
Variable src : list Z.

Definition fmsg {A} (off : nat) (msg : string) : res SyntaxError A :=
  Err (syntaxError src (Z.of_nat off) (Msg msg)).

Definition wskip (w : writer) : writer := moveTo (skipSpace src (w_i w)) w.
Definition wat (w : writer) (c : Z) : bool := byteAt src (w_i w) (fun b => b =? c).

(** On error Go also returns [dst] and an index; every caller drops them. *)
Definition appendJSONNumberToken (dst : list Z) (i : nat) : res SyntaxError (list Z * nat) :=
  j ← parseNumber src i; Ok (dst ++ slice src i j, j).

Fixpoint appendStringLoop (dst : list Z) (start fuel i : nat) : res SyntaxError (list Z * nat) :=
  match fuel with
  | O => OutOfFuel
  | S fuel =>
      let j := scanStringSpecial src i in
      match src !! j with
      | None => fmsg (length src) "unterminated string"
      | Some ch =>
          if ch =? 0x22 then Ok (dst ++ slice src start (S j), S j)
          else if ch =? 0x5c then
            if (length src <=? S j)%nat then fmsg (S j) "unterminated escape sequence"
            else i ← validateEscape src (S j); appendStringLoop dst start fuel i
          else if ch <? 0x20 then fmsg j "unescaped control byte in string"
          else
            let '(next, bad) := scanStringUnicodeRun src j in
            match bad with
            | Some b => fmsg b "invalid UTF-8 in string"
            | None => appendStringLoop dst start fuel next
            end
      end
  end.

Definition appendJSONStringToken (dst : list Z) (i : nat) : res SyntaxError (list Z * nat) :=
  appendStringLoop dst i (S (length src)) (S i).

Definition wnumber (w : writer) : res SyntaxError writer :=
  '(dst, i) ← appendJSONNumberToken (w_dst w) (w_i w); Ok (mkWriter i dst).
Definition wstring (w : writer) : res SyntaxError writer :=
  '(dst, i) ← appendJSONStringToken (w_dst w) (w_i w); Ok (mkWriter i dst).

Definition wliteral (lit : list Z) (w : writer) : res SyntaxError writer :=
  if negb (matchStringAt src (w_i w) lit) then fmsg (w_i w) "invalid literal"
  else Ok (emit lit (moveTo (w_i w + length lit) w)).
End Tokens.

Section CompactParser.
Variable src : list Z.
Variable maxDepth : nat.

Fixpoint compactParser_value (fuel : nat) (c : writer) (depth : nat) : res SyntaxError writer :=
  match fuel with
  | O => OutOfFuel
  | S fuel =>
      if (maxDepth <? depth)%nat then fmsg src (w_i c) "maximum nesting depth exceeded" else
      match src !! w_i c with
      | None => fmsg src (w_i c) "expected value"
      | Some b =>
          if b =? 0x6e then wliteral src lit_null c
          else if b =? 0x74 then wliteral src lit_true c
          else if b =? 0x66 then wliteral src lit_false c
          else if b =? 0x22 then wstring src c
          else if b =? 0x5b then compactParser_array fuel c (S depth)
          else if b =? 0x7b then compactParser_object fuel c (S depth)
          else if (b =? 0x2d) || isDigit b then wnumber src c
          else fmsg src (w_i c) "unexpected byte while parsing value"
      end
  end
with compactParser_array (fuel : nat) (c : writer) (depth : nat) : res SyntaxError writer :=
  match fuel with
  | O => OutOfFuel
  | S fuel =>
      if (maxDepth <? depth)%nat then fmsg src (w_i c) "maximum nesting depth exceeded" else
      let c := wskip src (emit [0x5b] (next c)) in
      if wat src c 0x5d then Ok (emit [0x5d] (next c)) else compactParser_arrayLoop fuel c depth
  end
with compactParser_arrayLoop (fuel : nat) (c : writer) (depth : nat) : res SyntaxError writer :=
  match fuel with
  | O => OutOfFuel
  | S fuel =>
      c ← compactParser_value fuel (wskip src c) depth;
      let c := wskip src c in
      if (length src <=? w_i c)%nat then fmsg src (w_i c) "unterminated array"
      else if wat src c 0x2c then compactParser_arrayLoop fuel (emit [0x2c] (next c)) depth
      else if wat src c 0x5d then Ok (emit [0x5d] (next c))
      else fmsg src (w_i c) "expected comma or closing bracket in array"
  end
with compactParser_object (fuel : nat) (c : writer) (depth : nat) : res SyntaxError writer :=
  match fuel with
  | O => OutOfFuel
  | S fuel =>
      if (maxDepth <? depth)%nat then fmsg src (w_i c) "maximum nesting depth exceeded" else
      let c := wskip src (emit [0x7b] (next c)) in
      if wat src c 0x7d then Ok (emit [0x7d] (next c)) else compactParser_objectLoop fuel c depth
  end
with compactParser_objectLoop (fuel : nat) (c : writer) (depth : nat) : res SyntaxError writer :=
  match fuel with
  | O => OutOfFuel
  | S fuel =>
      let c := wskip src c in
      if negb (wat src c 0x22) then fmsg src (w_i c) "expected object key string" else
      c ← wstring src c;
      let c := wskip src c in
      if negb (wat src c 0x3a) then fmsg src (w_i c) "expected colon after object key" else
      c ← compactParser_value fuel (wskip src (emit [0x3a] (next c))) depth;
      let c := wskip src c in
      if (length src <=? w_i c)%nat then fmsg src (w_i c) "unterminated object"
      else if wat src c 0x2c then compactParser_objectLoop fuel (emit [0x2c] (next c)) depth
      else if wat src c 0x7d then Ok (emit [0x7d] (next c))
      else fmsg src (w_i c) "expected comma or closing brace in object"
  end.

(** Unfolding equations. *)
Lemma compactParser_value_S fuel c depth :
  compactParser_value (S fuel) c depth =
      if (maxDepth <? depth)%nat then fmsg src (w_i c) "maximum nesting depth exceeded" else
      match src !! w_i c with
      | None => fmsg src (w_i c) "expected value"
      | Some b =>
          if b =? 0x6e then wliteral src lit_null c
          else if b =? 0x74 then wliteral src lit_true c
          else if b =? 0x66 then wliteral src lit_false c
          else if b =? 0x22 then wstring src c
          else if b =? 0x5b then compactParser_array fuel c (S depth)
          else if b =? 0x7b then compactParser_object fuel c (S depth)
          else if (b =? 0x2d) || isDigit b then wnumber src c
          else fmsg src (w_i c) "unexpected byte while parsing value"
      end.
Proof. reflexivity. Qed.
Lemma compactParser_array_S fuel c depth :
  compactParser_array (S fuel) c depth =
      if (maxDepth <? depth)%nat then fmsg src (w_i c) "maximum nesting depth exceeded" else
      let c := wskip src (emit [0x5b] (next c)) in
      if wat src c 0x5d then Ok (emit [0x5d] (next c)) else compactParser_arrayLoop fuel c depth.
Proof. reflexivity. Qed.
Lemma compactParser_arrayLoop_S fuel c depth :
  compactParser_arrayLoop (S fuel) c depth =
      c ← compactParser_value fuel (wskip src c) depth;
      let c := wskip src c in
      if (length src <=? w_i c)%nat then fmsg src (w_i c) "unterminated array"
      else if wat src c 0x2c then compactParser_arrayLoop fuel (emit [0x2c] (next c)) depth
      else if wat src c 0x5d then Ok (emit [0x5d] (next c))
      else fmsg src (w_i c) "expected comma or closing bracket in array".
Proof. reflexivity. Qed.
Lemma compactParser_object_S fuel c depth :
  compactParser_object (S fuel) c depth =
      if (maxDepth <? depth)%nat then fmsg src (w_i c) "maximum nesting depth exceeded" else
      let c := wskip src (emit [0x7b] (next c)) in
      if wat src c 0x7d then Ok (emit [0x7d] (next c)) else compactParser_objectLoop fuel c depth.
Proof. reflexivity. Qed.
Lemma compactParser_objectLoop_S fuel c depth :
  compactParser_objectLoop (S fuel) c depth =
      let c := wskip src c in
      if negb (wat src c 0x22) then fmsg src (w_i c) "expected object key string" else
      c ← wstring src c;
      let c := wskip src c in
      if negb (wat src c 0x3a) then fmsg src (w_i c) "expected colon after object key" else
      c ← compactParser_value fuel (wskip src (emit [0x3a] (next c))) depth;
      let c := wskip src c in
      if (length src <=? w_i c)%nat then fmsg src (w_i c) "unterminated object"
      else if wat src c 0x2c then compactParser_objectLoop fuel (emit [0x2c] (next c)) depth
      else if wat src c 0x7d then Ok (emit [0x7d] (next c))
      else fmsg src (w_i c) "expected comma or closing brace in object".
Proof. reflexivity. Qed.

Definition compactParser_run (c : writer) : res SyntaxError writer :=
  c ← compactParser_value (ref_fuel src) (wskip src c) 0;
  let c := wskip src c in
  if negb (w_i c =? length src)%nat then fmsg src (w_i c) "unexpected data after top-level value"
  else Ok c.
End CompactParser.

(** The returned slice and the error; an error returns [dst[:startLen]]. *)
Definition finish (dst : list Z) (m : res SyntaxError writer) : list Z * res SyntaxError unit :=
  match m with
  | Ok w => (w_dst w, Ok tt)
  | Err e => (take (length dst) dst, Err e)
  | OutOfFuel => (dst, OutOfFuel)
  end.

Definition isLiteral (src : list Z) : bool :=
  bool_decide (src = lit_null) || bool_decide (src = lit_true) || bool_decide (src = lit_false).

Definition appendCompact (dst src : list Z) (maxDepth : Z) : list Z * res SyntaxError unit :=
  if isLiteral src then (dst ++ src, Ok tt)
  else finish dst (compactParser_run src (effectiveDepth maxDepth) (mkWriter 0 dst)).

Definition AppendCompact (dst src : list Z) : list Z * res SyntaxError unit :=
  appendCompact dst src (Z.of_nat defaultMaxDepth).

Definition Compact (src : list Z) : list Z * res SyntaxError unit := AppendCompact [] src.

(* { "a" : [ 1 , {} ] } *)
Example Compact_ex :
  Compact [0x7b; 0x20; 0x22; 0x61; 0x22; 0x20; 0x3a; 0x5b; 0x31; 0x20; 0x2c; 0x7b; 0x0a; 0x7d; 0x5d; 0x7d]
  = ([0x7b; 0x22; 0x61; 0x22; 0x3a; 0x5b; 0x31; 0x2c; 0x7b; 0x7d; 0x5d; 0x7d], Ok tt).
Proof. vm_compute. reflexivity. Qed.

(** ** Writers over a source suffix *)

Section Writers.
Variable src : list Z.
Hypothesis Hsrc : bytes_ok src.

Definition wtracks (w : writer) (s dst : list Z) : Prop := At src (w_i w) s /\ w_dst w = dst.

(** The writer computation [m] follows the suffix parser [o] and leaves [f t]. *)
Definition wsim {T} (m : res SyntaxError writer) (o : option (T * list Z)) (f : T -> list Z) : Prop :=
  match o with
  | Some (t, r) => exists w, m = Ok w /\ wtracks w r (f t)
  | None => exists e, m = Err e
  end.

Lemma wtracks_skip w s d : wtracks w s d -> wtracks (wskip src w) (skip_ws s) d.
Proof. intros [H <-]. split; [by apply skipSpace_At|done]. Qed.
Lemma wtracks_emit w s d bs : wtracks w s d -> wtracks (emit bs w) s (d ++ bs).
Proof. by intros [H <-]. Qed.
Lemma wtracks_next w c s d : wtracks w (c :: s) d -> wtracks (next w) s d.
Proof. intros [H <-]. split; [by eapply At_cons|done]. Qed.
Lemma wtracks_expect w c s r d : wtracks w s d -> expect c s = Some r -> wtracks (next w) r d.
Proof. intros H ->%expect_Some. by eapply wtracks_next. Qed.
Lemma wtracks_at w s d c :
  wtracks w s d -> wat src w c = match expect c s with Some _ => true | None => false end.
Proof.
  intros [H _]. unfold wat. rewrite (byteAt_At _ _ _ _ H). destruct s as [|b s]; [done|]. simpl.
  by destruct (b =? c).
Qed.
Lemma wtracks_end w s d :
  wtracks w s d -> (length src <=? w_i w)%nat = match s with [] => true | _ => false end.
Proof.
  intros [H _]. destruct s as [|c s].
  - apply At_nil in H. apply Nat.leb_le. lia.
  - apply At_lt in H. by apply Nat.leb_gt.
Qed.

Lemma appendStringLoop_eq dst start fuel i :
  appendStringLoop src dst start fuel i =
  (j ← parseStringLoop src fuel i; Ok (dst ++ slice src start j, j)).
Proof.
  revert i. induction fuel as [|fuel IH]; intros i; [done|]. cbn [appendStringLoop parseStringLoop].
  destruct (src !! _) as [c|]; [|done]. destruct (c =? 0x22); [done|]. destruct (c =? 0x5c).
  - destruct (_ <=? _)%nat; [done|]. destruct (validateEscape src _); [apply IH|done..].
  - destruct (c <? 0x20); [done|]. destruct (scanStringUnicodeRun _ _) as [n [b|]]; [done|apply IH].
Qed.

(** The copied token is the one the reference parser reads. *)
Lemma wstring_sim w s d :
  wtracks w s d -> expect 0x22 s <> None -> wsim (wstring src w) (ref_string s) (fun k => d ++ k).
Proof.
  intros [H <-] N. destruct (expect 0x22 s) as [s'|] eqn:E; [|done]. apply expect_Some in E as ->.
  pose proof (parseString_At src Hsrc _ _ H) as M. unfold wstring, appendJSONStringToken.
  rewrite appendStringLoop_eq. fold (parseString src (w_i w)).
  destruct (ref_string (0x22 :: s')) as [[k r]|] eqn:E; cbn [sim_at] in M.
  - destruct M as (j & -> & Hj). apply ref_string_spec in E as [_ E]. rewrite E in H.
    eexists. split; [done|]. split; [done|]. simpl. by rewrite (At_slice _ _ _ _ _ H Hj).
  - destruct M as (e & ->). by eexists.
Qed.

Lemma wnumber_sim w s d :
  wtracks w s d ->
  wsim (wnumber src w) ('(p, r) ← ref_number s; Some (JNum (np_print p), r))
    (fun t => match t with JNum tok => d ++ tok | _ => d end).
Proof.
  intros [H <-]. pose proof (parseNumber_At src _ _ H) as M. unfold wnumber, appendJSONNumberToken.
  destruct (ref_number s) as [[p r]|] eqn:E; cbn [sim_at] in M.
  - destruct M as (j & -> & Hj). apply ref_number_sound in E as [_ ->].
    eexists. split; [done|]. split; [done|]. simpl. by rewrite (At_slice _ _ _ _ _ H Hj).
  - destruct M as (e & ->). by eexists.
Qed.

Lemma wliteral_sim w s d l :
  wtracks w s d ->
  wsim (wliteral src l w) (ref_lit l s) (fun t => match t with JLit tok => d ++ tok | _ => d end).
Proof.
  intros [H <-]. unfold wliteral, ref_lit. pose proof (matchStringAt_At _ _ _ l H) as M.
  destruct (strip_prefix l s) as [r|]; simpl.
  - destruct M as [-> M]. eexists. split; [done|]. by split.
  - rewrite M. by eexists.
Qed.

(** Scalars print as their token. *)
Lemma wsim_weaken {T U} m (o : option (T * list Z)) (g : T -> U) f f' :
  wsim m o f -> (forall x, f x = f' (g x)) -> wsim m ('(x, r) ← o; Some (g x, r)) f'.
Proof.
  intros H E. destruct o as [[x r]|]; [|done]. destruct H as (w & -> & H). exists w.
  split; [done|]. by rewrite <- E.
Qed.
Lemma wsim_ext {T} m (o : option (T * list Z)) f f' :
  wsim m o f -> (forall x r, o = Some (x, r) -> f x = f' x) -> wsim m o f'.
Proof.
  intros H E. destruct o as [[x r]|]; [|done]. destruct H as (w & -> & H). exists w.
  split; [done|]. by rewrite <- (E x r).
Qed.

Lemma wtracks_done w r d :
  wtracks w r d -> (w_i w =? length src)%nat = match r with [] => true | _ => false end.
Proof.
  intros [H _]. destruct r as [|c r].
  - apply At_nil in H. by apply Nat.eqb_eq.
  - apply At_lt in H. apply Nat.eqb_neq. lia.
Qed.
End Writers.

(** ** The canonical compact spelling *)

Fixpoint commas (l : list (list Z)) : list Z :=
  match l with
  | [] => []
  | [x] => x
  | x :: l => x ++ 0x2c :: commas l
  end.

Fixpoint cprint (t : jv) : list Z :=
  match t with
  | JLit s | JNum s | JStr s => s
  | JArr ts => 0x5b :: commas (map cprint ts) ++ [0x5d]
  | JObj ms => 0x7b :: commas (map (fun m => m.1 ++ 0x3a :: cprint m.2) ms) ++ [0x7d]
  end.

Lemma commas_cons x y l : commas (x :: y :: l) = x ++ 0x2c :: commas (y :: l).
Proof. done. Qed.

Section CompactSim.
Variable src : list Z.
Variable maxDepth : nat.
Hypothesis Hsrc : bytes_ok src.
Abbreviation okd := (fun d => d <=? maxDepth)%nat.

Definition compact_sim_value (fuel : nat) : Prop := forall c s d dst,
  wtracks src c s dst -> (3 * length s < fuel)%nat ->
  wsim src (compactParser_value src maxDepth fuel c d) (ref_value okd okd fuel d s)
    (fun t => dst ++ cprint t).
Definition compact_sim_array (fuel : nat) : Prop := forall c b s d dst,
  wtracks src c (b :: s) dst -> (3 * length s + 2 < fuel)%nat -> okd d = true ->
  wsim src (compactParser_array src maxDepth fuel c d) (ref_array okd okd fuel d s)
    (fun t => dst ++ cprint t).
Definition compact_sim_elems (fuel : nat) : Prop := forall c s d dst,
  wtracks src c s dst -> (3 * length s + 1 < fuel)%nat ->
  wsim src (compactParser_arrayLoop src maxDepth fuel c d) (ref_elems okd okd fuel d s)
    (fun ts => dst ++ commas (map cprint ts) ++ [0x5d]).
Definition compact_sim_object (fuel : nat) : Prop := forall c b s d dst,
  wtracks src c (b :: s) dst -> (3 * length s + 2 < fuel)%nat -> okd d = true ->
  wsim src (compactParser_object src maxDepth fuel c d) (ref_object okd okd fuel d s)
    (fun t => dst ++ cprint t).
Definition compact_sim_members (fuel : nat) : Prop := forall c s d dst,
  wtracks src c s dst -> (3 * length s + 1 < fuel)%nat ->
  wsim src (compactParser_objectLoop src maxDepth fuel c d) (ref_members okd okd fuel d s)
    (fun ms => dst ++ commas (map (fun m => m.1 ++ 0x3a :: cprint m.2) ms) ++ [0x7d]).

Lemma compact_value_step fuel : compact_sim_array fuel -> compact_sim_object fuel -> compact_sim_value (S fuel).
Proof.
  intros IHa IHo c s d dst H L. rewrite compactParser_value_S. cbn [ref_value].
  rewrite Nat.ltb_antisym. destruct (d <=? maxDepth)%nat; [|by eexists]. cbn [negb].
  destruct s as [|b s]; [rewrite (At_lookup_nil _ _ (proj1 H)); by eexists|].
  rewrite (At_lookup _ _ _ _ (proj1 H)). simpl in L.
  assert (Lit : forall l, wsim src (wliteral src l c) (ref_lit l (b :: s)) (fun t => dst ++ cprint t)).
  { intros l. eapply wsim_ext; [by apply wliteral_sim|]. intros x r E. unfold ref_lit in E. peel E.
    by injection E as <- _. }
  do 3 (destruct (b =? _); [apply Lit|]).
  destruct (Z.eqb_spec b 0x22) as [->|_].
  { eapply wsim_weaken; [by apply wstring_sim|done]. }
  destruct (b =? 0x5b).
  { destruct (S d <=? maxDepth)%nat eqn:Ed; [apply (IHa c b); [done|lia|done]|].
    destruct fuel; [lia|]. rewrite compactParser_array_S, Nat.ltb_antisym, Ed. by eexists. }
  destruct (b =? 0x7b).
  { destruct (S d <=? maxDepth)%nat eqn:Ed; [apply (IHo c b); [done|lia|done]|].
    destruct fuel; [lia|]. rewrite compactParser_object_S, Nat.ltb_antisym, Ed. by eexists. }
  destruct (_ || _); [|by eexists]. eapply wsim_ext; [by apply wnumber_sim|].
  intros x r E. peel E. by injection E as <- _.
Qed.

Lemma compact_array_step fuel : compact_sim_elems fuel -> compact_sim_array (S fuel).
Proof.
  intros IH c b s d dst H L Hd. rewrite compactParser_array_S. cbn [ref_array].
  rewrite Nat.ltb_antisym, Hd. cbn [negb]. cbv zeta.
  apply wtracks_next, (wtracks_emit _ _ _ _ [0x5b]), (wtracks_skip _ Hsrc) in H.
  rewrite (wtracks_at _ _ _ _ 0x5d H). destruct (expect 0x5d (skip_ws s)) as [r|] eqn:Q.
  { eexists. split; [done|]. eapply wtracks_expect, (wtracks_emit _ _ _ _ [0x5d]) in H; [|done].
    by rewrite <- app_assoc in H. }
  pose proof (skip_ws_length s). eapply wsim_weaken; [apply IH; [exact H|lia]|].
  intros ts. simpl. by rewrite <- app_assoc.
Qed.

Lemma compact_object_step fuel : compact_sim_members fuel -> compact_sim_object (S fuel).
Proof.
  intros IH c b s d dst H L Hd. rewrite compactParser_object_S. cbn [ref_object].
  rewrite Nat.ltb_antisym, Hd. cbn [negb]. cbv zeta.
  apply wtracks_next, (wtracks_emit _ _ _ _ [0x7b]), (wtracks_skip _ Hsrc) in H.
  rewrite (wtracks_at _ _ _ _ 0x7d H). destruct (expect 0x7d (skip_ws s)) as [r|] eqn:Q.
  { eexists. split; [done|]. eapply wtracks_expect, (wtracks_emit _ _ _ _ [0x7d]) in H; [|done].
    by rewrite <- app_assoc in H. }
  pose proof (skip_ws_length s). eapply wsim_weaken; [apply IH; [exact H|lia]|].
  intros ts. simpl. by rewrite <- app_assoc.
Qed.

(** After an item: a comma and more items, or the closing byte. *)
Lemma compact_item_end {T} (x : T) close c r dst (k : writer -> res SyntaxError writer)
    (ref : list Z -> option (list T * list Z)) (f : T -> list Z) e1 e2 :
  (close = 0x5d \/ close = 0x7d) ->
  wtracks src c r (dst ++ f x) ->
  (forall c' q, expect 0x2c (skip_ws r) = Some q -> wtracks src c' q ((dst ++ f x) ++ [0x2c]) ->
     wsim src (k c') (ref q) (fun xs => ((dst ++ f x) ++ [0x2c]) ++ commas (map f xs) ++ [close]) /\
     forall xs q', ref q = Some (xs, q') -> xs <> []) ->
  wsim src
    (let c := wskip src c in
     if (length src <=? w_i c)%nat then fmsg src (w_i c) e1
     else if wat src c 0x2c then k (emit [0x2c] (next c))
     else if wat src c close then Ok (emit [close] (next c))
     else fmsg src (w_i c) e2)
    (match expect 0x2c (skip_ws r) with
     | Some r => '(xs, r) ← ref r; Some (x :: xs, r)
     | None => r ← expect close (skip_ws r); Some ([x], r)
     end)
    (fun xs => dst ++ commas (map f xs) ++ [close]).
Proof.
  intros Hc H IH. apply (wtracks_skip _ Hsrc) in H. cbv zeta.
  rewrite (wtracks_end _ _ _ _ H), !(wtracks_at _ _ _ _ _ H).
  destruct (expect 0x2c (skip_ws r)) as [q|] eqn:Q.
  - pose proof (wtracks_emit _ _ _ _ [0x2c] (wtracks_expect _ _ _ _ _ _ H Q)) as H2.
    destruct (IH _ q eq_refl H2) as [S N]. apply expect_Some in Q. rewrite Q.
    destruct (ref q) as [[xs q']|]; [|done]. destruct S as (w & -> & S). eexists. split; [done|].
    specialize (N xs q' eq_refl). destruct xs as [|y xs]; [done|]. simpl map in *. rewrite commas_cons.
    by rewrite <- !app_assoc in *.
  - destruct (expect close (skip_ws r)) as [q|] eqn:Q2.
    + pose proof (wtracks_emit _ _ _ _ [close] (wtracks_expect _ _ _ _ _ _ H Q2)) as H2.
      apply expect_Some in Q2. rewrite Q2. eexists. split; [done|]. by rewrite <- app_assoc in H2.
    + destruct (skip_ws r); by eexists.
Qed.

Lemma compact_elems_step fuel : compact_sim_value fuel -> compact_sim_elems fuel -> compact_sim_elems (S fuel).
Proof.
  intros IHv IHe c s d dst H L. rewrite compactParser_arrayLoop_S. cbn [ref_elems].
  pose proof (skip_ws_length s). apply (wtracks_skip _ Hsrc) in H.
  specialize (IHv _ _ d _ H ltac:(lia)).
  destruct (ref_value okd okd fuel d (skip_ws s)) as [[t r]|] eqn:E.
  2:{ destruct IHv as (e & ->). by eexists. }
  destruct IHv as (c1 & -> & H1). apply ref_value_length in E. cbn [mbind option_bind res_bind].
  apply (compact_item_end t 0x5d c1 r dst (fun c => compactParser_arrayLoop src maxDepth fuel c d)
           (ref_elems okd okd fuel d) cprint); [by left|done|].
  intros c' q Q Hc'. pose proof (skip_ws_length r). apply expect_length in Q. split; [|eauto using ref_elems_nonempty].
  apply IHe; [done|lia].
Qed.

Lemma compact_members_step fuel : compact_sim_value fuel -> compact_sim_members fuel -> compact_sim_members (S fuel).
Proof.
  intros IHv IHm c s d dst H L. rewrite compactParser_objectLoop_S. cbn [ref_members].
  pose proof (skip_ws_length s). apply (wtracks_skip _ Hsrc) in H. cbv zeta.
  rewrite (wtracks_at _ _ _ _ _ H). destruct (expect 0x22 (skip_ws s)) as [s0|] eqn:Es.
  2:{ unfold ref_string. rewrite Es. by eexists. }
  cbn [negb]. pose proof (wstring_sim _ Hsrc _ _ _ H ltac:(by rewrite Es)) as Hk.
  destruct (ref_string (skip_ws s)) as [[k r0]|] eqn:Ek.
  2:{ destruct Hk as (e & ->). by eexists. }
  destruct Hk as (c0 & -> & Hk). cbn [mbind option_bind res_bind].
  apply (wtracks_skip _ Hsrc) in Hk. apply ref_string_length in Ek.
  rewrite (wtracks_at _ _ _ _ _ Hk). pose proof (skip_ws_length r0) as Lr0.
  destruct (expect 0x3a (skip_ws r0)) as [r1|] eqn:Er; [|by eexists].
  cbn [negb mbind option_bind res_bind].
  pose proof (wtracks_expect _ _ _ _ _ _ Hk Er) as H2.
  apply (wtracks_emit _ _ _ _ [0x3a]), (wtracks_skip _ Hsrc) in H2.
  pose proof (skip_ws_length r1) as Lr1. apply expect_length in Er.
  specialize (IHv _ _ d _ H2 ltac:(lia)).
  destruct (ref_value okd okd fuel d (skip_ws r1)) as [[t r]|] eqn:E.
  2:{ destruct IHv as (e & ->). by eexists. }
  destruct IHv as (c1 & -> & H3). apply ref_value_length in E. cbn [mbind option_bind res_bind].
  apply (compact_item_end (k, t) 0x7d c1 r dst (fun c => compactParser_objectLoop src maxDepth fuel c d)
           (ref_members okd okd fuel d) (fun m => m.1 ++ 0x3a :: cprint m.2)); [by right| |].
  { by rewrite <- !app_assoc in H3. }
  intros c' q Q Hc'. pose proof (skip_ws_length r). apply expect_length in Q. split; [|eauto using ref_members_nonempty].
  apply IHm; [done|lia].
Qed.

Lemma compact_sim fuel :
  compact_sim_value fuel /\ compact_sim_array fuel /\ compact_sim_elems fuel /\ compact_sim_object fuel /\ compact_sim_members fuel.
Proof.
  induction fuel as [|fuel (Hv & Ha & He & Ho & Hm)].
  - split_and!; repeat intro; lia.
  - split_and!; eauto using compact_value_step, compact_array_step, compact_elems_step, compact_object_step, compact_members_step.
Qed.

Lemma compact_run_sim dst :
  match ref_text okd okd src with
  | Some t => exists w, compactParser_run src maxDepth (mkWriter 0 dst) = Ok w /\ w_dst w = dst ++ cprint t
  | None => exists e, compactParser_run src maxDepth (mkWriter 0 dst) = Err e
  end.
Proof.
  unfold compactParser_run, ref_text.
  assert (H : wtracks src (mkWriter 0 dst) src dst) by (split; [apply At_0|done]).
  apply (wtracks_skip _ Hsrc) in H. pose proof (skip_ws_length src).
  destruct (compact_sim (ref_fuel src)) as (M & _). specialize (M _ _ 0%nat _ H ltac:(unfold ref_fuel; lia)).
  destruct (ref_value okd okd (ref_fuel src) 0 (skip_ws src)) as [[t r]|].
  2:{ destruct M as (e & ->). by eexists. }
  destruct M as (w & -> & M). apply (wtracks_skip _ Hsrc) in M. cbn [mbind option_bind res_bind].
  rewrite (wtracks_done _ _ _ _ M). destruct (skip_ws r); [|by eexists].
  eexists. split; [done|]. apply M.
Qed.
End CompactSim.

(** ** The output is the same document *)

(** Every parsed tree is spelled by its compact form. *)
Lemma cprint_sound :
  (forall t s, jvalue t s -> jvalue t (cprint t)) /\
  (forall ts s, jelems ts s -> jelems ts (commas (map cprint ts))) /\
  (forall ms s, jmembers ms s -> jmembers ms (commas (map (fun m => m.1 ++ 0x3a :: cprint m.2) ms))).
Proof.
  apply jvalue_mutind; intros; try (by constructor).
  - cbn. rewrite <- (app_nil_r (cprint t)). by apply (je_one t [] _ []).
  - destruct ts as [|t' ts]; [by inversion j0|]. cbn [map] in *. rewrite commas_cons.
    by apply (je_cons t (t' :: ts) [] _ []).
  - cbn. rewrite <- (app_nil_r (cprint t)). by apply (jm_one k t [] [] [] _ []).
  - destruct ms as [|m ms]; [by inversion j1|]. cbn [map fst snd] in *. rewrite commas_cons.
    rewrite <- app_assoc. by apply (jm_cons k t (m :: ms) [] [] [] _ []).
Qed.

Lemma cprint_jtext t s : jtext t s -> jtext t (cprint t).
Proof.
  intros (w1 & v & w2 & _ & J & _ & _). exists [], (cprint t), [].
  split_and!; [done|by eapply cprint_sound|done|by rewrite app_nil_r].
Qed.

(** ** Compaction *)

Lemma appendCompact_ref dst src maxDepth :
  bytes_ok src ->
  let M := effectiveDepth maxDepth in
  match ref_text (fun d => d <=? M)%nat (fun d => d <=? M)%nat src with
  | Some t => appendCompact dst src maxDepth = (dst ++ cprint t, Ok tt)
  | None => exists e, appendCompact dst src maxDepth = (dst, Err e)
  end.
Proof.
  intros B M. unfold appendCompact. destruct (isLiteral src) eqn:E.
  - unfold isLiteral in E. apply orb_true_iff in E as [E|E]; [apply orb_true_iff in E as [E|E]|];
      apply bool_decide_eq_true in E as ->; reflexivity.
  - pose proof (compact_run_sim src M B dst) as S. fold M.
    destruct (ref_text _ _ src) as [t|].
    + destruct S as (w & -> & <-). done.
    + destruct S as (e & ->). exists e. simpl. by rewrite firstn_all.
Qed.

(** C25: compaction of a JSON text within the depth limit appends to [dst] the
    whitespace-free spelling of the same document, tokens copied verbatim; any
    other input leaves [dst] exactly as it was and reports an error. *)
Theorem appendCompact_spec (dst src : list Z) (maxDepth : Z) :
  bytes_ok src ->
  (forall t, jtext t src -> (height t <= effectiveDepth maxDepth)%nat ->
     appendCompact dst src maxDepth = (dst ++ cprint t, Ok tt) /\ jtext t (cprint t)) /\
  ((forall t, jtext t src -> ~ (height t <= effectiveDepth maxDepth)%nat) ->
     exists e, appendCompact dst src maxDepth = (dst, Err e)).
Proof.
  intros B. pose proof (appendCompact_ref dst src maxDepth B) as S. cbv zeta in S.
  set (M := effectiveDepth maxDepth) in *.
  pose proof (ref_text_spec (fun d => d <=? M)%nat (fun d => d <=? M)%nat src) as R.
  assert (D : forall t, depth_ok (fun d => d <=? M)%nat (fun d => d <=? M)%nat 0 t = true <-> (height t <= M)%nat)
    by (intros t; rewrite depth_ok_height; apply Nat.leb_le).
  split.
  - intros t J Ht. split; [|by eapply cprint_jtext].
    by rewrite (proj2 (R t) (conj J (proj2 (D t) Ht))) in S.
  - intros N. destruct (ref_text _ _ src) as [t|]; [|done].
    destruct (proj1 (R t) eq_refl) as [J Ht]. by apply D, N in Ht.
Qed.

(* [ 1 ] *)
Lemma appendCompact_spec_witness :
  appendCompact [0x78] [0x5b; 0x20; 0x31; 0x0a; 0x5d] 0 = ([0x78; 0x5b; 0x31; 0x5d], Ok tt).
Proof.
  apply (appendCompact_spec [0x78] [0x5b; 0x20; 0x31; 0x0a; 0x5d] 0) with (t := JArr [JNum [0x31]]).
  - by repeat (constructor; [done|]).
  - apply (ref_text_spec (fun _ => true) (fun _ => true)). vm_compute. reflexivity.
  - apply Nat.leb_le. vm_compute. reflexivity.
Defined.

(** [Compact] is idempotent and preserves the document: compacting a
    compacted text changes nothing. *)
Theorem Compact_idempotent (src out : list Z) :
  bytes_ok src -> Compact src = (out, Ok tt) ->
  Compact out = (out, Ok tt) /\ exists t, jtext t src /\ jtext t out.
Proof.
  intros B H. unfold Compact, AppendCompact in *.
  pose proof (appendCompact_ref [] src (Z.of_nat defaultMaxDepth) B) as S. cbv zeta in S.
  destruct (ref_text _ _ src) as [t|] eqn:E; [|destruct S as (e & S); congruence].
  rewrite S in H. injection H as <-. apply ref_text_spec in E as [J D].
  pose proof (cprint_jtext _ _ J) as J'. split; [|by exists t].
  pose proof (appendCompact_ref [] (cprint t) (Z.of_nat defaultMaxDepth) (jtext_bytes _ _ J')) as S'.
  cbv zeta in S'. by rewrite (proj2 (ref_text_spec _ _ _ t) (conj J' D)) in S'.
Qed.

Lemma Compact_idempotent_witness : Compact [0x5b; 0x31; 0x5d] = ([0x5b; 0x31; 0x5d], Ok tt).
Proof.
  apply (Compact_idempotent [0x5b; 0x20; 0x31; 0x0a; 0x5d]).
  - by repeat (constructor; [done|]).
  - vm_compute. reflexivity.
Defined.
