(* ===== verification/Indent.v ===== *)
(** * Indent: the pretty-printer of indent.go

    Models [indentParser], which shares its token copiers with compact.go.
    Its output is proved to be the pretty-printed spelling of the parsed tree.
    Unlike [compactParser] it tests the depth only when a value starts, never
    when a container opens; [indent_depth_divergence] is an example of what follows. *)
From Stdlib Require Import ZArith Lia List Bool.
From stdpp Require Import base numbers list strings.
From S2P Require Import Prelude Utf8 Grammar Scanner ScanUnicode Lex Validate Compact.

Open Scope Z_scope.

Section IndentParser.
Variable src : list Z.
Variable maxDepth : nat.
Variables prefix indent : list Z.

(** What [newline] appends: a line break, the prefix and [depth] indents. *)
Definition newlineBytes (depth : nat) : list Z :=
  0x0a :: prefix ++ concat (replicate depth indent).
Definition newline (depth : nat) (p : writer) : writer := emit (newlineBytes depth) p.

Fixpoint indentParser_value (fuel : nat) (p : writer) (depth : nat) : res SyntaxError writer :=
  match fuel with
  | O => OutOfFuel
  | S fuel =>
      if (maxDepth <? depth)%nat then fmsg src (w_i p) "maximum nesting depth exceeded" else
      match src !! w_i p with
      | None => fmsg src (w_i p) "expected value"
      | Some b =>
          if b =? 0x6e then wliteral src lit_null p
          else if b =? 0x74 then wliteral src lit_true p
          else if b =? 0x66 then wliteral src lit_false p
          else if b =? 0x22 then wstring src p
          else if b =? 0x5b then indentParser_array fuel p depth
          else if b =? 0x7b then indentParser_object fuel p depth
          else if (b =? 0x2d) || isDigit b then wnumber src p
          else fmsg src (w_i p) "unexpected byte while parsing value"
      end
  end
with indentParser_array (fuel : nat) (p : writer) (depth : nat) : res SyntaxError writer :=
  match fuel with
  | O => OutOfFuel
  | S fuel =>
      let p := wskip src (emit [0x5b] (next p)) in
      if wat src p 0x5d then Ok (emit [0x5d] (next p)) else indentParser_arrayLoop fuel p depth
  end
with indentParser_arrayLoop (fuel : nat) (p : writer) (depth : nat) : res SyntaxError writer :=
  match fuel with
  | O => OutOfFuel
  | S fuel =>
      p ← indentParser_value fuel (wskip src (newline (S depth) p)) (S depth);
      let p := wskip src p in
      if (length src <=? w_i p)%nat then fmsg src (w_i p) "unterminated array"
      else if wat src p 0x2c then indentParser_arrayLoop fuel (emit [0x2c] (next p)) depth
      else if wat src p 0x5d then Ok (emit [0x5d] (newline depth (next p)))
      else fmsg src (w_i p) "expected comma or closing bracket in array"
  end
with indentParser_object (fuel : nat) (p : writer) (depth : nat) : res SyntaxError writer :=
  match fuel with
  | O => OutOfFuel
  | S fuel =>
      let p := wskip src (emit [0x7b] (next p)) in
      if wat src p 0x7d then Ok (emit [0x7d] (next p)) else indentParser_objectLoop fuel p depth
  end
with indentParser_objectLoop (fuel : nat) (p : writer) (depth : nat) : res SyntaxError writer :=
  match fuel with
  | O => OutOfFuel
  | S fuel =>
      let p := wskip src (newline (S depth) p) in
      if negb (wat src p 0x22) then fmsg src (w_i p) "expected object key string" else
      p ← wstring src p;
      let p := wskip src p in
      if negb (wat src p 0x3a) then fmsg src (w_i p) "expected colon after object key" else
      p ← indentParser_value fuel (wskip src (emit [0x3a; 0x20] (next p))) (S depth);
      let p := wskip src p in
      if (length src <=? w_i p)%nat then fmsg src (w_i p) "unterminated object"
      else if wat src p 0x2c then indentParser_objectLoop fuel (emit [0x2c] (next p)) depth
      else if wat src p 0x7d then Ok (emit [0x7d] (newline depth (next p)))
      else fmsg src (w_i p) "expected comma or closing brace in object"
  end.

(** Unfolding equations. *)
Lemma indentParser_value_S fuel p depth :
  indentParser_value (S fuel) p depth =
      if (maxDepth <? depth)%nat then fmsg src (w_i p) "maximum nesting depth exceeded" else
      match src !! w_i p with
      | None => fmsg src (w_i p) "expected value"
      | Some b =>
          if b =? 0x6e then wliteral src lit_null p
          else if b =? 0x74 then wliteral src lit_true p
          else if b =? 0x66 then wliteral src lit_false p
          else if b =? 0x22 then wstring src p
          else if b =? 0x5b then indentParser_array fuel p depth
          else if b =? 0x7b then indentParser_object fuel p depth
          else if (b =? 0x2d) || isDigit b then wnumber src p
          else fmsg src (w_i p) "unexpected byte while parsing value"
      end.
Proof. reflexivity. Qed.
Lemma indentParser_array_S fuel p depth :
  indentParser_array (S fuel) p depth =
      let p := wskip src (emit [0x5b] (next p)) in
      if wat src p 0x5d then Ok (emit [0x5d] (next p)) else indentParser_arrayLoop fuel p depth.
Proof. reflexivity. Qed.
Lemma indentParser_arrayLoop_S fuel p depth :
  indentParser_arrayLoop (S fuel) p depth =
      p ← indentParser_value fuel (wskip src (newline (S depth) p)) (S depth);
      let p := wskip src p in
      if (length src <=? w_i p)%nat then fmsg src (w_i p) "unterminated array"
      else if wat src p 0x2c then indentParser_arrayLoop fuel (emit [0x2c] (next p)) depth
      else if wat src p 0x5d then Ok (emit [0x5d] (newline depth (next p)))
      else fmsg src (w_i p) "expected comma or closing bracket in array".
Proof. reflexivity. Qed.
Lemma indentParser_object_S fuel p depth :
  indentParser_object (S fuel) p depth =
      let p := wskip src (emit [0x7b] (next p)) in
      if wat src p 0x7d then Ok (emit [0x7d] (next p)) else indentParser_objectLoop fuel p depth.
Proof. reflexivity. Qed.
Lemma indentParser_objectLoop_S fuel p depth :
  indentParser_objectLoop (S fuel) p depth =
      let p := wskip src (newline (S depth) p) in
      if negb (wat src p 0x22) then fmsg src (w_i p) "expected object key string" else
      p ← wstring src p;
      let p := wskip src p in
      if negb (wat src p 0x3a) then fmsg src (w_i p) "expected colon after object key" else
      p ← indentParser_value fuel (wskip src (emit [0x3a; 0x20] (next p))) (S depth);
      let p := wskip src p in
      if (length src <=? w_i p)%nat then fmsg src (w_i p) "unterminated object"
      else if wat src p 0x2c then indentParser_objectLoop fuel (emit [0x2c] (next p)) depth
      else if wat src p 0x7d then Ok (emit [0x7d] (newline depth (next p)))
      else fmsg src (w_i p) "expected comma or closing brace in object".
Proof. reflexivity. Qed.

Definition indentParser_run (p : writer) : res SyntaxError writer :=
  p ← indentParser_value (ref_fuel src) (wskip src p) 0;
  let p := wskip src p in
  if negb (w_i p =? length src)%nat then fmsg src (w_i p) "unexpected data after top-level value"
  else Ok p.
End IndentParser.

Definition appendIndentBytes (dst src prefix indent : list Z) (maxDepth : Z)
    : list Z * res SyntaxError unit :=
  finish dst (indentParser_run src (effectiveDepth maxDepth) prefix indent (mkWriter 0 dst)).

(* [1,{}] with a two-space indent *)
Example appendIndentBytes_ex :
  appendIndentBytes [] [0x5b; 0x31; 0x2c; 0x7b; 0x7d; 0x5d] [] [0x20; 0x20] 0
  = ([0x5b; 0x0a; 0x20; 0x20; 0x31; 0x2c; 0x0a; 0x20; 0x20; 0x7b; 0x7d; 0x0a; 0x5d], Ok tt).
Proof. vm_compute. reflexivity. Qed.

(** ** The pretty-printed spelling *)

(** Items each on a line of their own, comma-separated, then the closing line. *)
Fixpoint lines (sep fin : list Z) (l : list (list Z)) : list Z :=
  match l with
  | [] => fin
  | [x] => sep ++ x ++ fin
  | x :: l => sep ++ x ++ 0x2c :: lines sep fin l
  end.

Lemma lines_cons sep fin x y l : lines sep fin (x :: y :: l) = sep ++ x ++ 0x2c :: lines sep fin (y :: l).
Proof. done. Qed.

Section Printer.
Variables prefix indent : list Z.
Abbreviation nl := (newlineBytes prefix indent).

Fixpoint iprint (d : nat) (t : jv) : list Z :=
  match t with
  | JLit s | JNum s | JStr s => s
  | JArr [] => [0x5b; 0x5d]
  | JArr ts => 0x5b :: lines (nl (S d)) (nl d ++ [0x5d]) (map (iprint (S d)) ts)
  | JObj [] => [0x7b; 0x7d]
  | JObj ms =>
      0x7b :: lines (nl (S d)) (nl d ++ [0x7d])
                (map (fun m => m.1 ++ [0x3a; 0x20] ++ iprint (S d) m.2) ms)
  end.
End Printer.

Section IndentSim.
Variable src : list Z.
Variable maxDepth : nat.
Variables prefix indent : list Z.
Hypothesis Hsrc : bytes_ok src.
Abbreviation okd := (fun d => d <=? maxDepth)%nat.
Abbreviation okc := any_depth.
Abbreviation nl := (newlineBytes prefix indent).
Abbreviation pr := (iprint prefix indent).
Abbreviation prm := (fun d (m : list Z * jv) => m.1 ++ [0x3a; 0x20] ++ pr d m.2).

Definition indent_sim_value (fuel : nat) : Prop := forall p s d dst,
  wtracks src p s dst -> (3 * length s < fuel)%nat ->
  wsim src (indentParser_value src maxDepth prefix indent fuel p d) (ref_value okd okc fuel d s)
    (fun t => dst ++ pr d t).
Definition indent_sim_array (fuel : nat) : Prop := forall p b s d dst,
  wtracks src p (b :: s) dst -> (3 * length s + 2 < fuel)%nat ->
  wsim src (indentParser_array src maxDepth prefix indent fuel p d) (ref_array okd okc fuel (S d) s)
    (fun t => dst ++ pr d t).
Definition indent_sim_elems (fuel : nat) : Prop := forall p s d dst,
  wtracks src p s dst -> (3 * length s + 1 < fuel)%nat ->
  wsim src (indentParser_arrayLoop src maxDepth prefix indent fuel p d) (ref_elems okd okc fuel (S d) s)
    (fun ts => dst ++ lines (nl (S d)) (nl d ++ [0x5d]) (map (pr (S d)) ts)).
Definition indent_sim_object (fuel : nat) : Prop := forall p b s d dst,
  wtracks src p (b :: s) dst -> (3 * length s + 2 < fuel)%nat ->
  wsim src (indentParser_object src maxDepth prefix indent fuel p d) (ref_object okd okc fuel (S d) s)
    (fun t => dst ++ pr d t).
Definition indent_sim_members (fuel : nat) : Prop := forall p s d dst,
  wtracks src p s dst -> (3 * length s + 1 < fuel)%nat ->
  wsim src (indentParser_objectLoop src maxDepth prefix indent fuel p d) (ref_members okd okc fuel (S d) s)
    (fun ms => dst ++ lines (nl (S d)) (nl d ++ [0x7d]) (map (prm (S d)) ms)).

Lemma indent_value_step fuel : indent_sim_array fuel -> indent_sim_object fuel -> indent_sim_value (S fuel).
Proof.
  intros IHa IHo p s d dst H L. rewrite indentParser_value_S. rewrite ref_value_S.
  rewrite Nat.ltb_antisym. destruct (d <=? maxDepth)%nat; [|by eexists]. cbn [negb].
  destruct s as [|b s]; [rewrite (At_lookup_nil _ _ (proj1 H)); by eexists|].
  rewrite (At_lookup _ _ _ _ (proj1 H)). simpl in L.
  assert (Lit : forall l, wsim src (wliteral src l p) (ref_lit l (b :: s)) (fun t => dst ++ pr d t)).
  { intros l. eapply wsim_ext; [by apply wliteral_sim|]. intros x r E. unfold ref_lit in E. peel E.
    by injection E as <- _. }
  do 3 (destruct (b =? _); [apply Lit|]).
  destruct (Z.eqb_spec b 0x22) as [->|_].
  { eapply wsim_weaken; [by apply wstring_sim|done]. }
  change (okc (S d)) with true. cbv iota.
  destruct (b =? 0x5b); [apply (IHa p b); [done|lia]|].
  destruct (b =? 0x7b); [apply (IHo p b); [done|lia]|].
  destruct (_ || _); [|by eexists]. eapply wsim_ext; [by apply wnumber_sim|].
  intros x r E. peel E. by injection E as <- _.
Qed.

Lemma indent_array_step fuel : indent_sim_elems fuel -> indent_sim_array (S fuel).
Proof.
  intros IH p b s d dst H L. rewrite indentParser_array_S. rewrite ref_array_S. cbv zeta.
  apply wtracks_next, (wtracks_emit _ _ _ _ [0x5b]), (wtracks_skip _ Hsrc) in H.
  rewrite (wtracks_at _ _ _ _ 0x5d H). destruct (expect 0x5d (skip_ws s)) as [r|] eqn:Q.
  { eexists. split; [done|]. eapply wtracks_expect, (wtracks_emit _ _ _ _ [0x5d]) in H; [|done].
    by rewrite <- app_assoc in H. }
  pose proof (skip_ws_length s). specialize (IH _ _ d _ H ltac:(lia)).
  destruct (ref_elems okd okc fuel (S d) (skip_ws s)) as [[ts r]|] eqn:E; [|done].
  apply ref_elems_nonempty in E. destruct IH as (w & -> & IH). eexists. split; [done|].
  destruct ts; [done|]. by rewrite <- app_assoc in IH.
Qed.

Lemma indent_object_step fuel : indent_sim_members fuel -> indent_sim_object (S fuel).
Proof.
  intros IH p b s d dst H L. rewrite indentParser_object_S. rewrite ref_object_S. cbv zeta.
  apply wtracks_next, (wtracks_emit _ _ _ _ [0x7b]), (wtracks_skip _ Hsrc) in H.
  rewrite (wtracks_at _ _ _ _ 0x7d H). destruct (expect 0x7d (skip_ws s)) as [r|] eqn:Q.
  { eexists. split; [done|]. eapply wtracks_expect, (wtracks_emit _ _ _ _ [0x7d]) in H; [|done].
    by rewrite <- app_assoc in H. }
  pose proof (skip_ws_length s). specialize (IH _ _ d _ H ltac:(lia)).
  destruct (ref_members okd okc fuel (S d) (skip_ws s)) as [[ms r]|] eqn:E; [|done].
  apply ref_members_nonempty in E. destruct IH as (w & -> & IH). eexists. split; [done|].
  destruct ms; [done|]. by rewrite <- app_assoc in IH.
Qed.

(** After an item: a comma and more lines, or the closing line. *)
Lemma indent_item_end {T} (x : T) close p r d dst (k : writer -> res SyntaxError writer)
    (ref : list Z -> option (list T * list Z)) (f : T -> list Z) e1 e2 :
  (close = 0x5d \/ close = 0x7d) ->
  let fin := nl d ++ [close] in
  let dst' := (dst ++ nl (S d)) ++ f x in
  wtracks src p r dst' ->
  (forall p' q, expect 0x2c (skip_ws r) = Some q -> wtracks src p' q (dst' ++ [0x2c]) ->
     wsim src (k p') (ref q) (fun xs => (dst' ++ [0x2c]) ++ lines (nl (S d)) fin (map f xs)) /\
     forall xs q', ref q = Some (xs, q') -> xs <> []) ->
  wsim src
    (let p := wskip src p in
     if (length src <=? w_i p)%nat then fmsg src (w_i p) e1
     else if wat src p 0x2c then k (emit [0x2c] (next p))
     else if wat src p close then Ok (emit [close] (newline prefix indent d (next p)))
     else fmsg src (w_i p) e2)
    (match expect 0x2c (skip_ws r) with
     | Some r => '(xs, r) ← ref r; Some (x :: xs, r)
     | None => r ← expect close (skip_ws r); Some ([x], r)
     end)
    (fun xs => dst ++ lines (nl (S d)) fin (map f xs)).
Proof.
  intros Hc fin dst' H IH. apply (wtracks_skip _ Hsrc) in H. cbv zeta.
  rewrite (wtracks_end _ _ _ _ H), !(wtracks_at _ _ _ _ _ H).
  destruct (expect 0x2c (skip_ws r)) as [q|] eqn:Q.
  - pose proof (wtracks_emit _ _ _ _ [0x2c] (wtracks_expect _ _ _ _ _ _ H Q)) as H2.
    destruct (IH _ q eq_refl H2) as [S N]. apply expect_Some in Q. rewrite Q.
    destruct (ref q) as [[xs q']|]; [|done]. destruct S as (w & -> & S). eexists. split; [done|].
    specialize (N xs q' eq_refl). destruct xs as [|y xs]; [done|]. simpl map in *. rewrite lines_cons.
    unfold dst' in S. by rewrite <- !app_assoc in *.
  - destruct (expect close (skip_ws r)) as [q|] eqn:Q2.
    + pose proof (wtracks_emit _ _ _ _ [close]
        (wtracks_emit _ _ _ _ (nl d) (wtracks_expect _ _ _ _ _ _ H Q2))) as H2.
      apply expect_Some in Q2. rewrite Q2. eexists. split; [done|].
      unfold dst' in H2. by rewrite <- !app_assoc in H2.
    + destruct (skip_ws r); by eexists.
Qed.

Lemma indent_elems_step fuel : indent_sim_value fuel -> indent_sim_elems fuel -> indent_sim_elems (S fuel).
Proof.
  intros IHv IHe p s d dst H L. rewrite indentParser_arrayLoop_S. rewrite ref_elems_S.
  pose proof (skip_ws_length s). apply (wtracks_emit _ _ _ _ (nl (S d))), (wtracks_skip _ Hsrc) in H.
  specialize (IHv _ _ (S d) _ H ltac:(lia)). unfold newline.
  destruct (ref_value okd okc fuel (S d) (skip_ws s)) as [[t r]|] eqn:E.
  2:{ destruct IHv as (e & ->). by eexists. }
  destruct IHv as (p1 & -> & H1). apply ref_value_length in E. cbn [mbind option_bind res_bind].
  apply (indent_item_end t 0x5d p1 r d dst (fun p => indentParser_arrayLoop src maxDepth prefix indent fuel p d)
           (ref_elems okd okc fuel (S d)) (pr (S d))); [by left|done|].
  intros p' q Q Hp'. pose proof (skip_ws_length r). apply expect_length in Q.
  split; [|eauto using ref_elems_nonempty]. apply IHe; [done|lia].
Qed.

Lemma indent_members_step fuel : indent_sim_value fuel -> indent_sim_members fuel -> indent_sim_members (S fuel).
Proof.
  intros IHv IHm p s d dst H L. rewrite indentParser_objectLoop_S. rewrite ref_members_S.
  pose proof (skip_ws_length s). apply (wtracks_emit _ _ _ _ (nl (S d))), (wtracks_skip _ Hsrc) in H.
  cbv zeta. unfold newline.
  rewrite (wtracks_at _ _ _ _ _ H). destruct (expect 0x22 (skip_ws s)) as [s0|] eqn:Es.
  2:{ unfold ref_string. rewrite Es. by eexists. }
  cbn [negb]. pose proof (wstring_sim _ Hsrc _ _ _ H ltac:(by rewrite Es)) as Hk.
  destruct (ref_string (skip_ws s)) as [[k r0]|] eqn:Ek.
  2:{ destruct Hk as (e & ->). by eexists. }
  destruct Hk as (p0 & -> & Hk). cbn [mbind option_bind res_bind].
  apply (wtracks_skip _ Hsrc) in Hk. apply ref_string_length in Ek.
  rewrite (wtracks_at _ _ _ _ _ Hk). pose proof (skip_ws_length r0) as Lr0.
  destruct (expect 0x3a (skip_ws r0)) as [r1|] eqn:Er; [|by eexists].
  cbn [negb mbind option_bind res_bind].
  pose proof (wtracks_expect _ _ _ _ _ _ Hk Er) as H2.
  apply (wtracks_emit _ _ _ _ [0x3a; 0x20]), (wtracks_skip _ Hsrc) in H2.
  pose proof (skip_ws_length r1) as Lr1. apply expect_length in Er.
  specialize (IHv _ _ (S d) _ H2 ltac:(lia)).
  destruct (ref_value okd okc fuel (S d) (skip_ws r1)) as [[t r]|] eqn:E.
  2:{ destruct IHv as (e & ->). by eexists. }
  destruct IHv as (p1 & -> & H3). apply ref_value_length in E. cbn [mbind option_bind res_bind].
  apply (indent_item_end (k, t) 0x7d p1 r d dst (fun p => indentParser_objectLoop src maxDepth prefix indent fuel p d)
           (ref_members okd okc fuel (S d)) (prm (S d))); [by right| |].
  { simpl. by rewrite <- !app_assoc in *. }
  intros p' q Q Hp'. pose proof (skip_ws_length r). apply expect_length in Q.
  split; [|eauto using ref_members_nonempty]. apply IHm; [done|lia].
Qed.

Lemma indent_sim fuel :
  indent_sim_value fuel /\ indent_sim_array fuel /\ indent_sim_elems fuel /\ indent_sim_object fuel /\ indent_sim_members fuel.
Proof.
  induction fuel as [|fuel (Hv & Ha & He & Ho & Hm)].
  - split_and!; repeat intro; lia.
  - split_and!; eauto using indent_value_step, indent_array_step, indent_elems_step, indent_object_step, indent_members_step.
Qed.

Lemma indent_run_sim dst :
  match ref_text okd okc src with
  | Some t => exists w, indentParser_run src maxDepth prefix indent (mkWriter 0 dst) = Ok w /\ w_dst w = dst ++ pr 0 t
  | None => exists e, indentParser_run src maxDepth prefix indent (mkWriter 0 dst) = Err e
  end.
Proof.
  unfold indentParser_run, ref_text.
  assert (H : wtracks src (mkWriter 0 dst) src dst) by (split; [apply At_0|done]).
  apply (wtracks_skip _ Hsrc) in H. pose proof (skip_ws_length src).
  destruct (indent_sim (ref_fuel src)) as (M & _). specialize (M _ _ 0%nat _ H ltac:(unfold ref_fuel; lia)).
  destruct (ref_value okd okc (ref_fuel src) 0 (skip_ws src)) as [[t r]|].
  2:{ destruct M as (e & ->). by eexists. }
  destruct M as (w & -> & M). apply (wtracks_skip _ Hsrc) in M. cbn [mbind option_bind res_bind].
  rewrite (wtracks_done _ _ _ _ M). destruct (skip_ws r); [|by eexists].
  eexists. split; [done|]. apply M.
Qed.
End IndentSim.

(** ** Depth as the pretty-printer counts it *)

(** The depth of the deepest value; an empty container adds nothing. *)
Fixpoint vheight (t : jv) : nat :=
  match t with
  | JArr ts => match ts with [] => 0 | _ => S (foldr (fun t => Nat.max (vheight t)) 0 ts) end
  | JObj ms => match ms with [] => 0 | _ => S (foldr (fun m => Nat.max (vheight m.2)) 0 ms) end
  | _ => 0
  end%nat.

Section ValueHeight.
Variable M : nat.

Lemma fold_max_le {A} (f : A -> nat) l k :
  (foldr (fun x => Nat.max (f x)) 0 l <= k <-> Forall (fun x => f x <= k) l)%nat.
Proof.
  induction l as [|x l IH]; simpl; [split; [constructor|lia]|]. rewrite Forall_cons, <- IH. lia.
Qed.

Lemma forallb_fold_max {A} (ok : A -> bool) (h : A -> nat) d l :
  Forall (fun x => ok x = (S d + h x <=? M)%nat) l -> l <> [] ->
  (d <=? M)%nat && forallb ok l = (d + S (foldr (fun x => Nat.max (h x)) 0 l) <=? M)%nat.
Proof.
  intros H N. apply Bool.eq_iff_eq_true. rewrite andb_true_iff, !Nat.leb_le.
  assert (E : forallb ok l = true <-> Forall (fun x => h x <= M - S d /\ S d <= M)%nat l).
  { clear N. induction H as [|x l Hx _ IH]; simpl; [split; [constructor|done]|].
    rewrite andb_true_iff, IH, Hx, Nat.leb_le, Forall_cons. split; intros [? ?]; split; (done || lia). }
  rewrite E. destruct l as [|x l]; [done|]. split.
  - intros [_ F]. pose proof (Forall_inv F) as [_ ?].
    assert (foldr (fun x => Nat.max (h x)) 0 (x :: l) <= M - S d)%nat; [|lia].
    apply fold_max_le. eapply Forall_impl; [exact F|]. simpl. lia.
  - intros L. split; [lia|].
    assert (F : (foldr (fun x => Nat.max (h x)) 0 (x :: l) <= M - S d)%nat) by lia.
    apply fold_max_le in F. eapply Forall_impl; [exact F|]. simpl. lia.
Qed.

Lemma depth_ok_vheight d t :
  depth_ok (fun d => d <=? M)%nat any_depth d t = (d + vheight t <=? M)%nat.
Proof.
  revert d. induction t as [s|s|s|ts IH|ms IH] using jv_nested_ind; intros d;
    try (simpl; by rewrite andb_true_r, Nat.add_0_r).
  - destruct ts as [|t ts]; [simpl; by rewrite andb_true_r, Nat.add_0_r|].
    rewrite depth_ok_arr. cbn [andb any_depth]. apply (forallb_fold_max _ vheight d (t :: ts)); [|done]. eapply Forall_impl; [exact IH|]. simpl. auto.
  - destruct ms as [|m ms]; [simpl; by rewrite andb_true_r, Nat.add_0_r|].
    rewrite depth_ok_obj. cbn [andb any_depth]. apply (forallb_fold_max (fun m => depth_ok _ _ _ m.2) (fun m => vheight m.2) d (m :: ms)); [|done].
    eapply Forall_impl; [exact IH|]. simpl. auto.
Qed.
End ValueHeight.

(** ** The output is the same document *)

Section IndentText.
Variables prefix indent : list Z.
Hypothesis Hp : ws prefix.
Hypothesis Hi : ws indent.
Abbreviation nl := (newlineBytes prefix indent).

Lemma ws_newline d : ws (nl d).
Proof.
  constructor; [done|]. apply Forall_app. split; [done|].
  induction d as [|d IH]; [constructor|]. simpl. apply Forall_app. by split.
Qed.

Lemma lines_fin sep out c l :
  l <> [] -> lines sep (out ++ [c]) l = lines sep out l ++ [c].
Proof.
  induction l as [|x [|y l] IH]; intros N; [done| |].
  - simpl. by rewrite !app_assoc.
  - rewrite !lines_cons, IH by done. by rewrite <- !app_assoc.
Qed.

Lemma iprint_sound :
  (forall t s, jvalue t s -> forall d, jvalue t (iprint prefix indent d t)) /\
  (forall ts s, jelems ts s -> forall d w1 w2, ws w1 -> ws w2 ->
     jelems ts (lines w1 w2 (map (iprint prefix indent d) ts))) /\
  (forall ms s, jmembers ms s -> forall d w1 w2, ws w1 -> ws w2 ->
     jmembers ms (lines w1 w2 (map (fun m => m.1 ++ [0x3a; 0x20] ++ iprint prefix indent d m.2) ms))).
Proof.
  pose proof ws_newline as Wn. apply jvalue_mutind; intros.
  - by constructor.
  - by constructor.
  - by constructor.
  - by apply (jv_arr0 []).
  - destruct ts as [|t ts]; [by inversion j|]. cbn [iprint]. rewrite lines_fin by done.
    apply jv_arr. by apply (H (S d)).
  - by apply (jv_obj0 []).
  - destruct ms as [|m ms]; [by inversion j|]. cbn [iprint]. rewrite lines_fin by done.
    apply jv_obj. by apply (H (S d)).
  - by apply je_one.
  - destruct ts as [|t' ts]; [by inversion j0|]. cbn [map] in *. rewrite lines_cons.
    by apply (je_cons t (t' :: ts) _ _ []), H0.
  - simpl. rewrite <- !app_assoc. apply (jm_one k t _ [] [0x20]); try done. by repeat constructor.
  - destruct ms as [|m ms]; [by inversion j1|]. cbn [map fst snd] in *. rewrite lines_cons.
    rewrite <- !app_assoc. apply (jm_cons k t (m :: ms) _ [] [0x20] _ []); try done; [by repeat constructor|].
    by apply H0.
Qed.
End IndentText.

Lemma iprint_jtext prefix indent t s :
  ws prefix -> ws indent -> jtext t s -> jtext t (iprint prefix indent 0 t).
Proof.
  intros Hp Hi (w1 & v & w2 & _ & J & _ & _). exists [], (iprint prefix indent 0 t), [].
  split_and!; [done|by eapply (iprint_sound prefix indent Hp Hi)|done|by rewrite app_nil_r].
Qed.

Lemma appendIndentBytes_ref dst src prefix indent maxDepth :
  bytes_ok src ->
  let M := effectiveDepth maxDepth in
  match ref_text (fun d => d <=? M)%nat any_depth src with
  | Some t => appendIndentBytes dst src prefix indent maxDepth = (dst ++ iprint prefix indent 0 t, Ok tt)
  | None => exists e, appendIndentBytes dst src prefix indent maxDepth = (dst, Err e)
  end.
Proof.
  intros B M. unfold appendIndentBytes.
  pose proof (indent_run_sim src M prefix indent B dst) as S. fold M. destruct (ref_text _ _ src) as [t|].
  - destruct S as (w & -> & <-). done.
  - destruct S as (e & ->). exists e. simpl. by rewrite firstn_all.
Qed.

(** C27: indentation of a JSON text appends its pretty-printed spelling, each
    item of a non-empty container on a line of its own after the prefix and one
    indent per level; with a whitespace prefix and indent the output is the
    same document.  The limit bounds the depth of values.  Any other input
    leaves [dst] as it was and reports an error. *)
Theorem appendIndentBytes_spec (dst src prefix indent : list Z) (maxDepth : Z) :
  bytes_ok src ->
  (forall t, jtext t src -> (vheight t <= effectiveDepth maxDepth)%nat ->
     appendIndentBytes dst src prefix indent maxDepth = (dst ++ iprint prefix indent 0 t, Ok tt) /\
     (ws prefix -> ws indent -> jtext t (iprint prefix indent 0 t))) /\
  ((forall t, jtext t src -> ~ (vheight t <= effectiveDepth maxDepth)%nat) ->
     exists e, appendIndentBytes dst src prefix indent maxDepth = (dst, Err e)).
Proof.
  intros B. pose proof (appendIndentBytes_ref dst src prefix indent maxDepth B) as S. cbv zeta in S.
  set (M := effectiveDepth maxDepth) in *.
  pose proof (ref_text_spec (fun d => d <=? M)%nat any_depth src) as R.
  assert (D : forall t, depth_ok (fun d => d <=? M)%nat any_depth 0 t = true <-> (vheight t <= M)%nat)
    by (intros t; rewrite depth_ok_vheight; apply Nat.leb_le).
  split.
  - intros t J Ht. split; [|intros; by eapply iprint_jtext].
    by rewrite (proj2 (R t) (conj J (proj2 (D t) Ht))) in S.
  - intros N. destruct (ref_text _ _ src) as [t|]; [|done].
    destruct (proj1 (R t) eq_refl) as [J Ht]. by apply D, N in Ht.
Qed.

(* [1] with a tab indent *)
Lemma appendIndentBytes_spec_witness :
  appendIndentBytes [] [0x5b; 0x31; 0x5d] [] [0x09] 0 = ([0x5b; 0x0a; 0x09; 0x31; 0x0a; 0x5d], Ok tt).
Proof.
  apply (appendIndentBytes_spec [] [0x5b; 0x31; 0x5d] [] [0x09] 0) with (t := JArr [JNum [0x31]]).
  - by repeat (constructor; [done|]).
  - apply (ref_text_spec (fun _ => true) (fun _ => true)). vm_compute. reflexivity.
  - apply Nat.leb_le. vm_compute. reflexivity.
Defined.

(** Compacting an indented text gives what compacting the original gives:
    with whitespace prefix and indent the two formatters are inverse up to
    insignificant whitespace. *)
Theorem compact_after_indent (src prefix indent out : list Z) (maxDepth : Z) :
  bytes_ok src -> ws prefix -> ws indent ->
  appendIndentBytes [] src prefix indent maxDepth = (out, Ok tt) ->
  forall depth c, appendCompact [] src depth = (c, Ok tt) -> appendCompact [] out depth = (c, Ok tt).
Proof.
  intros B Hp Hi H depth c Hc.
  pose proof (appendIndentBytes_ref [] src prefix indent maxDepth B) as S. cbv zeta in S.
  destruct (ref_text _ any_depth src) as [t|] eqn:E; [|destruct S as (e & S); congruence].
  rewrite S in H. injection H as <-. apply ref_text_spec in E as [J _].
  pose proof (iprint_jtext prefix indent _ _ Hp Hi J) as J'.
  pose proof (appendCompact_ref [] src depth B) as C. cbv zeta in C.
  destruct (ref_text _ _ src) as [t'|] eqn:E'; [|destruct C as (e & C); congruence].
  apply ref_text_spec in E' as [J2 D]. rewrite <- (jtext_unique _ _ _ J J2) in *.
  rewrite C in Hc. injection Hc as <-.
  pose proof (appendCompact_ref [] _ depth (jtext_bytes _ _ J')) as C'. cbv zeta in C'.
  by rewrite (proj2 (ref_text_spec _ _ _ t) (conj J' D)) in C'.
Qed.

Lemma compact_after_indent_witness :
  appendCompact [] [0x5b; 0x0a; 0x09; 0x31; 0x0a; 0x5d] 0 = ([0x5b; 0x31; 0x5d], Ok tt).
Proof.
  apply (compact_after_indent [0x5b; 0x31; 0x5d] [] [0x09] [0x5b; 0x0a; 0x09; 0x31; 0x0a; 0x5d] 0).
  - by repeat (constructor; [done|]).
  - constructor.
  - by repeat constructor.
  - vm_compute. reflexivity.
  - vm_compute. reflexivity.
Defined.

(** An example: the pretty-printer accepts an empty container one level below the
    deepest one the validator and the compactor accept: the code tests the
    depth when a value starts but not when a container opens. *)
Example indent_depth_divergence :
  exists src limit,
    bytes_ok src /\ 0 < limit /\
    (appendIndentBytes [] src [] [0x20] limit).2 = Ok tt /\
    is_ok (validateOptions src (mkOptions limit)) = false /\
    is_ok (appendCompact [] src limit).2 = false.
Proof.
  exists [0x5b; 0x5b; 0x5d; 0x5d], 1.
  split_and!; [by repeat (constructor; [done|])|lia|vm_compute; reflexivity..].
Qed.
