(* ===== verification/ValidFast.v ===== *)
(** * ValidFast: the bool-only validation path of valid_fast.go

    Models the recursive machine behind [Valid], with the digit masks of
    number_digits.go.  The code reads through an unsafe base pointer, so a
    read is fallible here: [Err Fault] is a read outside the slice and
    [Err (Reject i)] is the Go result [(i, false)].  The machine is proved to
    agree with [validateOptions] and never to fault. *)
From Stdlib Require Import ZArith Lia List Bool.
From stdpp Require Import base numbers list strings.
From S2P Require Import Prelude Utf8 Grammar Scanner ScanUnicode Lex Validate.

Open Scope Z_scope.

(** ** Digit masks of number_digits.go *)

Definition digitLower : Z := 0x3030303030303030.
Definition digitUpper : Z := 0x4646464646464646.
Definition digitHigh : Z := 0x8080808080808080.
Definition add64 (a b : Z) : Z := (a + b) mod 2 ^ 64.

Definition nonDigitMask8 (x : Z) : Z :=
  Z.land (Z.lor (add64 x digitUpper) (sub64 x digitLower)) digitHigh.

Definition notDigit (c : Z) : bool := negb (isDigit c).

(** The eight-byte loop and the byte tail of [scanDigitsLong]. *)
Definition scanDigitsLong (src : list Z) (i : nat) : nat := scanUntil8 nonDigitMask8 notDigit src i.

Definition scanDigitsFast (src : list Z) (i : nat) : nat :=
  if (i + 4 <=? length src)%nat && byteAt src (i + 3) isDigit
  then scanDigitsLong src i else scanDigits src (length src) i.

(** ** The machine *)

Inductive stop := Fault | Reject (i : nat).

Section Fast.
Variable src : list Z.
Let n : nat := length src.

Definition fastByteAt (i : nat) : res stop Z :=
  match src !! i with Some c => Ok c | None => Err Fault end.

(** [b && p(fastByteAt(base, i))], and its common case [b := i < n]. *)
Definition andAt (b : bool) (i : nat) (p : Z -> bool) : res stop bool :=
  if b then c ← fastByteAt i; Ok (p c) else Ok false.
Definition guardedAt (i : nat) (p : Z -> bool) : res stop bool := andAt (i <? n)%nat i p.

Definition loadUint32LE (i : nat) : res stop Z :=
  if (i + 4 <=? n)%nat then Ok (le_uint (take 4 (drop i src))) else Err Fault.

(** *** Whitespace *)

Fixpoint significantLoop (fuel i : nat) : nat * Z :=
  match fuel with
  | O => (i, 0)
  | S fuel =>
      match src !! i with
      | None => (i, 0)
      | Some c =>
          if (0x20 <? c) || (negb (c =? 0x20) && negb (c =? 0x0a) && negb (c =? 0x0d) && negb (c =? 0x09))
          then (i, c) else significantLoop fuel (S i)
      end
  end.
Definition nextSignificantFast (i : nat) : nat * Z := significantLoop n i.
Definition skipSpaceFast (i : nat) : nat := (significantLoop n i).1.

(** *** Numbers *)

Definition fastSign (i : nat) : res stop nat :=
  c ← fastByteAt i;
  if c =? 0x2d then (if (n <=? S i)%nat then Err (Reject (S i)) else Ok (S i)) else Ok i.

Definition fastInt (i : nat) : res stop nat :=
  c ← fastByteAt i;
  if c =? 0x30 then Ok (S i)
  else if isOneNine c then Ok (scanDigits src n (S i))
  else Err (Reject i).

(** The integer part of the SWAR variant tries one eight-digit word first. *)
Definition fastIntSWAR (i : nat) : res stop nat :=
  c ← fastByteAt i;
  if c =? 0x30 then Ok (S i)
  else if isOneNine c then
    let i := S i in
    let i := if (i + 8 <=? n)%nat && (nonDigitMask8 (load64 src i) =? 0) then (i + 8)%nat else i in
    Ok (scanDigits src n i)
  else Err (Reject i).

(** The flag is [integer]: no fraction and no exponent so far. *)
Definition fastFrac (i : nat) : res stop (nat * bool) :=
  dot ← guardedAt i (fun c => c =? 0x2e);
  if negb dot then Ok (i, true) else
  let i := S i in
  d ← guardedAt i isDigit;
  if negb d then Err (Reject i) else
  d7 ← andAt (i + 8 <=? n)%nat (i + 7) isDigit;
  if d7 : bool then Ok (scanDigitsLong src i, false)
  else Ok (scanDigits src n (S i), false).

Definition fastExp (i : nat) (integer : bool) : res stop (nat * bool) :=
  e ← guardedAt i (fun c => (c =? 0x65) || (c =? 0x45));
  if negb e then Ok (i, integer) else
  let i := S i in
  sgn ← guardedAt i (fun c => (c =? 0x2b) || (c =? 0x2d));
  let i := if sgn : bool then S i else i in
  d ← guardedAt i isDigit;
  if negb d then Err (Reject i) else Ok (scanDigits src n (S i), false).

(** [Ok (end, integer)] *)
Definition scanNumberFastTagged (i : nat) : res stop (nat * bool) :=
  i ← fastSign i; i ← fastInt i; '(i, integer) ← fastFrac i; fastExp i integer.
Definition scanNumberFastTaggedSWAR (i : nat) : res stop (nat * bool) :=
  i ← fastSign i; i ← fastIntSWAR i; '(i, integer) ← fastFrac i; fastExp i integer.
Definition scanNumberFast (i : nat) : res stop nat :=
  '(i, _) ← scanNumberFastTagged i; Ok i.

(** *** Strings *)

(** The portable [ScanUnicodeEscapeRun] of scan_default.go accepts nothing. *)
Definition scanUnicodeEscapeRun (i : nat) : nat * bool := (i, true).

(** [fastByteAt(base, i) == '\\' && fastByteAt(base, i+1) == 'u'] *)
Definition atUnicodeEscape (i : nat) : res stop bool :=
  a ← fastByteAt i;
  if negb (a =? 0x5c) then Ok false else b ← fastByteAt (S i); Ok (b =? 0x75).

(** After the four hex digits of [u]: a high surrogate needs its low one. *)
Definition surrogateTail (u : Z) (i : nat) : res stop nat :=
  if (0xd800 <=? u) && (u <=? 0xdbff) then
    if (n <? i + 6)%nat then Err (Reject i) else
    e ← atUnicodeEscape i;
    if negb e then Err (Reject i) else
    let '(lo, ok) := hex4 src (i + 2) in
    if negb ok || (lo <? 0xdc00) || (0xdfff <? lo) then Err (Reject i) else Ok (i + 6)%nat
  else if (0xdc00 <=? u) && (u <=? 0xdfff) then Err (Reject i)
  else Ok i.

(** The inner loop over consecutive \uXXXX escapes. *)
Fixpoint unicodeEscapes (fuel i : nat) (escaped : bool) : res stop (nat * bool) :=
  match fuel with
  | O => OutOfFuel
  | S fuel =>
      e ← (if (i + 6 <=? n)%nat then atUnicodeEscape i else Ok false);
      if negb e then Ok (i, escaped) else
      let '(u, ok) := hex4 src (i + 2) in
      if negb ok then Err (Reject i) else
      i ← surrogateTail u (i + 6);
      unicodeEscapes fuel i true
  end.

Fixpoint scanJSONStringFastFrom_loop (fuel i : nat) (escaped : bool) : res stop (nat * bool) :=
  match fuel with
  | O => OutOfFuel
  | S fuel =>
      e ← (if (S i <? n)%nat then atUnicodeEscape i else Ok false);
      '(i, escaped) ←
        (if e : bool then
           let '(stop, ok) := scanUnicodeEscapeRun i in
           if negb ok then Err (Reject i)
           else if negb (stop =? i)%nat then Ok (stop, true) else Ok (i, escaped)
         else Ok (i, escaped));
      '(i, escaped) ← unicodeEscapes (S n) i escaped;
      bs ← guardedAt i (fun c => c =? 0x5c);
      let j := if bs : bool then i else scanStringSpecial src i in
      if (n <=? j)%nat then Err (Reject n) else
      c ← fastByteAt j;
      if c =? 0x22 then Ok (S j, escaped)
      else if c =? 0x5c then
        let j := S j in
        if (n <=? j)%nat then Err (Reject j) else
        e ← fastByteAt j;
        if simpleEscape e then scanJSONStringFastFrom_loop fuel (S j) true
        else if e =? 0x75 then
          let '(u, ok) := hex4 src (S j) in
          if negb ok then Err (Reject j) else
          i ← surrogateTail u (j + 5);
          scanJSONStringFastFrom_loop fuel i true
        else Err (Reject j)
      else if c <? 0x20 then Err (Reject j)
      else
        let '(next, bad) := scanStringUnicodeRun src j in
        match bad with
        | Some b => Err (Reject b)
        | None => scanJSONStringFastFrom_loop fuel next escaped
        end
  end.

(** [Ok (end, escaped)] *)
Definition scanJSONStringFastFrom (i : nat) : res stop (nat * bool) :=
  scanJSONStringFastFrom_loop (S n) i false.
Definition scanJSONStringFastLong (i : nat) : res stop (nat * bool) :=
  scanJSONStringFastFrom (S i).

(** One word at [start]: the quote it finds ends the string. *)
Definition quoteInWord (start : nat) : res stop (option nat) :=
  let m := stringSpecialMask (load64 src start) in
  let j := (start + laneOf m)%nat in
  c ← fastByteAt j; Ok (if c =? 0x22 then Some (S j) else None).

Definition validStringFast (i : nat) : res stop nat :=
  let start := S i in
  if (start + 8 <=? n)%nat then
    if negb (stringSpecialMask (load64 src start) =? 0) then
      q ← quoteInWord start;
      match q with
      | Some e => Ok e
      | None => '(e, _) ← scanJSONStringFastLong i; Ok e
      end
    else
      let start := (start + 8)%nat in
      if (start + 8 <=? n)%nat then
        if negb (stringSpecialMask (load64 src start) =? 0) then
          q ← quoteInWord start;
          match q with
          | Some e => Ok e
          | None => '(e, _) ← scanJSONStringFastFrom start; Ok e
          end
        else '(e, _) ← scanJSONStringFastFrom (start + 8); Ok e
      else '(e, _) ← scanJSONStringFastFrom start; Ok e
  else '(e, _) ← scanJSONStringFastLong i; Ok e.

Fixpoint shortLoop (k i : nat) : option nat :=
  match k with
  | O => None
  | S k =>
      match src !! i with
      | None => None
      | Some c =>
          if c =? 0x22 then Some (S i)
          else if (c =? 0x5c) || (c <? 0x20) || (0x80 <=? c) then None
          else shortLoop k (S i)
      end
  end.

(** [Some end] is the Go result [(end, true)]. *)
Definition scanShortJSONString (quote : nat) : option nat :=
  let limit := if (n <? quote + 9)%nat then n else (quote + 9)%nat in
  shortLoop (limit - S quote) (S quote).

Definition scanJSONStringFast (i : nat) (short : bool) : res stop (nat * bool) :=
  match (if short then scanShortJSONString i else None) with
  | Some e => Ok (e, false)
  | None => scanJSONStringFastLong i
  end.

(** *** Values *)

Definition wordAt (i k len : nat) (w : Z) : res stop nat :=
  if (n <? i + len)%nat then Err (Reject i) else
  x ← loadUint32LE (i + k);
  if negb (x =? w) then Err (Reject i) else Ok (i + len)%nat.

Definition wordTrueLE : Z := 0x65757274.
Definition wordAlseLE : Z := 0x65736c61.
Definition wordNullLE : Z := 0x6c6c756e.

(** [i >= n] after a skip rejects; otherwise the byte found there. *)
Definition significant (i : nat) : res stop (nat * Z) :=
  let '(i, c) := nextSignificantFast i in
  if (n <=? i)%nat then Err (Reject i) else Ok (i, c).

Fixpoint validValueFast (fuel i : nat) (c : Z) (depth : nat) : res stop nat :=
  match fuel with
  | O => OutOfFuel
  | S fuel =>
      if c =? 0x7b then
        if (defaultMaxDepth <=? depth)%nat then Err (Reject i) else
        '(i, c) ← significant (S i);
        if c =? 0x7d then Ok (S i) else validMembersFast fuel i c depth
      else if c =? 0x5b then
        if (defaultMaxDepth <=? depth)%nat then Err (Reject i) else
        '(i, c) ← significant (S i);
        if c =? 0x5d then Ok (S i) else validElemsFast fuel i c depth
      else if c =? 0x22 then validStringFast i
      else if c =? 0x74 then wordAt i 0 4 wordTrueLE
      else if c =? 0x66 then wordAt i 1 5 wordAlseLE
      else if c =? 0x6e then wordAt i 0 4 wordNullLE
      else if negb (c =? 0x2d) && negb (isDigit c) then Err (Reject i)
      else scanNumberFast i
  end
with validMembersFast (fuel i : nat) (c : Z) (depth : nat) : res stop nat :=
  match fuel with
  | O => OutOfFuel
  | S fuel =>
      if negb (c =? 0x22) then Err (Reject i) else
      i ← validStringFast i;
      '(i, c) ← significant i;
      if negb (c =? 0x3a) then Err (Reject i) else
      '(i, c) ← significant (S i);
      i ← validValueFast fuel i c (S depth);
      '(i, c) ← significant i;
      if c =? 0x2c then '(i, c) ← significant (S i); validMembersFast fuel i c depth
      else if c =? 0x7d then Ok (S i)
      else Err (Reject i)
  end
with validElemsFast (fuel i : nat) (c : Z) (depth : nat) : res stop nat :=
  match fuel with
  | O => OutOfFuel
  | S fuel =>
      i ← validValueFast fuel i c (S depth);
      '(i, c) ← significant i;
      if c =? 0x2c then '(i, c) ← significant (S i); validElemsFast fuel i c depth
      else if c =? 0x5d then Ok (S i)
      else Err (Reject i)
  end.

(** Unfolding equations. *)
Lemma validValueFast_S fuel i c depth :
  validValueFast (S fuel) i c depth =
      if c =? 0x7b then
        if (defaultMaxDepth <=? depth)%nat then Err (Reject i) else
        '(i, c) ← significant (S i);
        if c =? 0x7d then Ok (S i) else validMembersFast fuel i c depth
      else if c =? 0x5b then
        if (defaultMaxDepth <=? depth)%nat then Err (Reject i) else
        '(i, c) ← significant (S i);
        if c =? 0x5d then Ok (S i) else validElemsFast fuel i c depth
      else if c =? 0x22 then validStringFast i
      else if c =? 0x74 then wordAt i 0 4 wordTrueLE
      else if c =? 0x66 then wordAt i 1 5 wordAlseLE
      else if c =? 0x6e then wordAt i 0 4 wordNullLE
      else if negb (c =? 0x2d) && negb (isDigit c) then Err (Reject i)
      else scanNumberFast i.
Proof. reflexivity. Qed.
Lemma validMembersFast_S fuel i c depth :
  validMembersFast (S fuel) i c depth =
      if negb (c =? 0x22) then Err (Reject i) else
      i ← validStringFast i;
      '(i, c) ← significant i;
      if negb (c =? 0x3a) then Err (Reject i) else
      '(i, c) ← significant (S i);
      i ← validValueFast fuel i c (S depth);
      '(i, c) ← significant i;
      if c =? 0x2c then '(i, c) ← significant (S i); validMembersFast fuel i c depth
      else if c =? 0x7d then Ok (S i)
      else Err (Reject i).
Proof. reflexivity. Qed.
Lemma validElemsFast_S fuel i c depth :
  validElemsFast (S fuel) i c depth =
      i ← validValueFast fuel i c (S depth);
      '(i, c) ← significant i;
      if c =? 0x2c then '(i, c) ← significant (S i); validElemsFast fuel i c depth
      else if c =? 0x5d then Ok (S i)
      else Err (Reject i).
Proof. reflexivity. Qed.

(** The scalar path of [validFast], after the bitmap dispatch. *)
Definition validFastScalar : res stop bool :=
  let '(i, c) := nextSignificantFast 0 in
  if (n <=? i)%nat then Ok false else
  match validValueFast (ref_fuel src) i c 0 with
  | Ok i => Ok (skipSpaceFast i =? n)%nat
  | Err (Reject _) => Ok false
  | Err Fault => Err Fault
  | OutOfFuel => OutOfFuel
  end.
End Fast.

Definition validBitmapMinBytes : nat := Nat.pow 2 16.

Section ValidFast.
(** The stage-1 bitmap engine of valid_bitmap.go: [(ok, decided)]. *)
Variable validBitmap : list Z -> bool * bool.

Definition validFast (src : list Z) : res stop bool :=
  if (validBitmapMinBytes <=? length src)%nat then
    let '(ok, decided) := validBitmap src in
    if decided then Ok ok else validFastScalar src
  else validFastScalar src.

(** [Validate]: nil is [Ok tt]. *)
Definition Validate (src : list Z) : res SyntaxError unit :=
  if (validBitmapMinBytes <=? length src)%nat then
    let '(ok, decided) := validBitmap src in
    if decided && ok then Ok tt else validateOptions src (mkOptions 0)
  else validateOptions src (mkOptions 0).
End ValidFast.

(* {"a":[1.5e3,"x"]} *)
Example validFast_ex :
  validFastScalar [0x7b; 0x22; 0x61; 0x22; 0x3a; 0x5b; 0x31; 0x2e; 0x35; 0x65; 0x33; 0x2c; 0x22; 0x78; 0x22; 0x5d; 0x7d]
  = Ok true.
Proof. vm_compute. reflexivity. Qed.

(** ** The digit mask *)

Import Lane.

Section DigitMask.
Definition digitMask (n : nat) (x : Z) : Z :=
  Z.land (Z.lor ((x + rep n 0x46) mod 256 ^ Z.of_nat n) ((x - rep n 0x30) mod 256 ^ Z.of_nat n))
    (rep n 128).

(** Adding carries out of the low lane only from bytes of at least 0xba. *)
Lemma add_lane n b c x y :
  is_byte b -> is_byte c ->
  ((b + 256 * x) + (c + 256 * y)) mod 256 ^ Z.of_nat (S n) =
  if b + c <? 256 then (b + c) + 256 * ((x + y) mod 256 ^ Z.of_nat n)
  else (b + c - 256) + 256 * ((x + y + 1) mod 256 ^ Z.of_nat n).
Proof.
  unfold is_byte. intros Hb Hc. rewrite pow256_S.
  assert (P : 0 < 256 ^ Z.of_nat n) by lia. revert P. generalize (256 ^ Z.of_nat n) as p.
  intros p P. destruct (Z.ltb_spec (b + c) 256).
  - pose proof (Z.div_mod (x + y) p ltac:(lia)). pose proof (Z.mod_pos_bound (x + y) p P).
    symmetry. apply Z.mod_unique_pos with (q := (x + y) / p); [|]; nia.
  - pose proof (Z.div_mod (x + y + 1) p ltac:(lia)). pose proof (Z.mod_pos_bound (x + y + 1) p P).
    symmetry. apply Z.mod_unique_pos with (q := (x + y + 1) / p); [|]; nia.
Qed.

Lemma digit_lane_byte b : is_byte b ->
  Z.land (Z.lor (if b + 0x46 <? 256 then b + 0x46 else b + 0x46 - 256)
                (if 0x30 <=? b then b - 0x30 else b - 0x30 + 256)) 128
  = if notDigit b then 128 else 0.
Proof.
  apply (byte_table (fun b => Z.land (Z.lor (if b + 0x46 <? 256 then b + 0x46 else b + 0x46 - 256)
                (if 0x30 <=? b then b - 0x30 else b - 0x30 + 256)) 128)
           (fun b => if notDigit b then 128 else 0)). vm_compute. reflexivity.
Qed.

Lemma digitMask_step n b x : is_byte b ->
  exists z, (notDigit b = false -> z = digitMask n x) /\
    digitMask (S n) (b + 256 * x) = (if notDigit b then 128 else 0) + 256 * z.
Proof.
  intros Hb. unfold digitMask. simpl rep. rewrite add_lane, sub_lane by done.
  rewrite <- (digit_lane_byte b Hb). unfold is_byte in Hb.
  destruct (Z.ltb_spec (b + 0x46) 256), (Z.leb_spec 0x30 b);
    rewrite lor_split, land_split by (done || (try apply is_byte_lor; unfold is_byte; lia));
    (eexists; split; [|done]); unfold notDigit, isDigit; intros; (done || lia).
Qed.

Lemma digit_lane : Lane notDigit digitMask.
Proof.
  constructor.
  - done.
  - intros n x Hx. apply Z.land_nonneg. right. by apply rep_ok.
  - intros n b x Hb Hx M. destruct (digitMask_step n b x Hb) as (z & Hz & ->).
    rewrite M, Hz by done. lia.
  - intros n b x Hb Hx M. destruct (digitMask_step n b x Hb) as (z & Hz & ->).
    rewrite M. by apply mod_low.
Qed.

Lemma nonDigitMask8_for : MaskFor nonDigitMask8 notDigit.
Proof. exists digitMask. split; [apply digit_lane|done]. Qed.
End DigitMask.

#[export] Hint Resolve nonDigitMask8_for : scan.

(** ** Scalars *)

Section FastScalars.
Variable src : list Z.
Hypothesis Hsrc : bytes_ok src.

(** [m] follows the suffix parser [o]; it rejects where [o] fails and never faults. *)
Definition fsim {A T} (m : res stop A) (pos : A -> nat) (o : option (T * list Z)) : Prop :=
  match o with
  | Some (_, r) => exists a, m = Ok a /\ At src (pos a) r
  | None => exists i, m = Err (Reject i)
  end.

Lemma fastByteAt_At i c s : At src i (c :: s) -> fastByteAt src i = Ok c.
Proof. intros H. unfold fastByteAt. by rewrite (At_lookup _ _ _ _ H). Qed.

Lemma guardedAt_At i s p :
  At src i s -> guardedAt src i p = Ok (match s with c :: _ => p c | [] => false end).
Proof.
  intros H. unfold guardedAt, andAt. destruct s as [|c s].
  - apply At_nil in H as ->. by rewrite Nat.ltb_irrefl.
  - rewrite (proj2 (Nat.ltb_lt _ _) (At_lt _ _ _ _ H)). by rewrite (fastByteAt_At _ _ _ H).
Qed.

Lemma significant_At i s :
  At src i s ->
  match skip_ws s with
  | [] => exists j, nextSignificantFast src i = (j, 0) /\ At src j []
  | c :: t => exists j, nextSignificantFast src i = (j, c) /\ At src j (c :: t)
  end.
Proof.
  unfold nextSignificantFast.
  enough (G : forall fuel i s, At src i s -> (length s <= fuel)%nat ->
    match skip_ws s with
    | [] => exists j, significantLoop src fuel i = (j, 0) /\ At src j []
    | c :: t => exists j, significantLoop src fuel i = (j, c) /\ At src j (c :: t)
    end).
  { intros H. apply G; [done|]. pose proof (At_length _ _ _ H). lia. }
  clear. induction fuel as [|fuel IH]; intros i s H L.
  { destruct s; [|simpl in L; lia]. by exists i. }
  destruct s as [|c s]; simpl.
  { rewrite At_lookup_nil by done. by exists i. }
  rewrite (At_lookup _ _ _ _ H). destruct (isJSONWhitespace c) eqn:W.
  - change (c :: s) with ([c] ++ s). rewrite skip_ws_app by by repeat constructor.
    unfold isJSONWhitespace in W. replace (_ || _) with false by lia.
    apply IH; [by eapply At_cons|simpl in L; lia].
  - rewrite skip_ws_stops by done. unfold isJSONWhitespace in W. replace (_ || _) with true by lia.
    by exists i.
Qed.

Lemma scanDigitsLong_At i s : At src i s -> At src (scanDigitsLong src i) (span isDigit s).2.
Proof.
  intros H. unfold scanDigitsLong. rewrite scanUntil8_spec by (auto with scan || apply H).
  destruct (scan_to_split src notDigit i s H) as (p & t & -> & Hp & Ht & ->).
  rewrite span_complete; [by apply At_app| |].
  - eapply Forall_impl; [exact Hp|]. unfold notDigit. intros c. by destruct (isDigit c).
  - destruct t as [|c t]; [done|]. simpl in *. unfold notDigit in Ht. by destruct (isDigit c).
Qed.

Lemma digit_tail_At i c s :
  At src i (c :: s) -> isDigit c = true -> At src (scanDigits src (length src) (S i)) (span isDigit (c :: s)).2.
Proof.
  intros H E. rewrite span_cons, E. apply At_cons in H. pose proof (scanDigits_span _ _ _ H) as D.
  by destruct (span isDigit s).
Qed.

Lemma fastExp_At i s fl :
  At src i s ->
  match ref_exp s with
  | Some (e, r) => exists j, fastExp src i fl = Ok (j, match e with None => fl | Some _ => false end) /\ At src j r
  | None => exists j, fastExp src i fl = Err (Reject j)
  end.
Proof.
  intros H. unfold fastExp, ref_exp. rewrite (guardedAt_At _ _ _ H). cbn [mbind res_bind].
  destruct s as [|e s]; [by eexists|]. destruct ((e =? 0x65) || (e =? 0x45)); [|by eexists].
  apply At_cons in H. cbn [negb]. cbv zeta. rewrite (guardedAt_At _ _ _ H). cbn [mbind res_bind].
  assert (D : forall i s (sgn : option Z), At src i s ->
    let m : res stop (nat * bool) := (d ← guardedAt src i isDigit;
        if negb d then Err (Reject i) else Ok (scanDigits src (length src) (S i), false)) in
    match match span isDigit s with ([], _) => None | (ds, r) => Some (Some (e, sgn, ds), r) end with
    | Some (x, r) => exists j, m = Ok (j, match x with None => fl | Some _ => false end) /\ At src j r
    | None => exists j, m = Err (Reject j)
    end).
  { clear. intros i s sgn H. cbv zeta. rewrite (guardedAt_At _ _ _ H). cbn [mbind res_bind].
    destruct s as [|c s]; [by eexists|]. destruct (isDigit c) eqn:Ec.
    - pose proof (digit_tail_At _ _ _ H Ec) as D. rewrite span_cons, Ec in *.
      destruct (span isDigit s) as [a b]. by eexists.
    - rewrite span_cons, Ec. by eexists. }
  destruct s as [|c s]; [by apply (D _ [] None)|].
  destruct ((c =? 0x2b) || (c =? 0x2d)); [by apply (D _ s (Some c)); eapply At_cons|by apply (D _ _ None)].
Qed.

Lemma fastFrac_At i s :
  At src i s ->
  match ref_frac s with
  | Some (f, r) => exists j, fastFrac src i = Ok (j, match f with [] => true | _ => false end) /\ At src j r
  | None => exists j, fastFrac src i = Err (Reject j)
  end.
Proof.
  intros H. unfold fastFrac, ref_frac. rewrite (guardedAt_At _ _ _ H). cbn [mbind res_bind].
  destruct s as [|c s]; [by eexists|]. destruct (c =? 0x2e); [|by eexists].
  apply At_cons in H. cbn [negb]. cbv zeta. rewrite (guardedAt_At _ _ _ H). cbn [mbind res_bind].
  destruct s as [|d s]; [by eexists|]. destruct (isDigit d) eqn:Ed.
  2:{ rewrite span_cons, Ed. by eexists. }
  cbn [negb]. pose proof (digit_tail_At _ _ _ H Ed) as D1. pose proof (scanDigitsLong_At _ _ H) as D2.
  rewrite span_cons, Ed in *. destruct (span isDigit s) as [a b]. unfold andAt.
  destruct (Nat.leb_spec (S i + 8) (length src)); [|by eexists].
  unfold fastByteAt. destruct (lookup_lt_is_Some_2 src (S i + 7)) as [x ->]; [lia|]. cbn [mbind res_bind].
  destruct (isDigit x); by eexists.
Qed.

Lemma fastInt_At i c s : At src i (c :: s) -> fsim (fastInt src i) id (ref_int (c :: s)).
Proof.
  intros H. unfold fastInt. rewrite (fastByteAt_At _ _ _ H). cbn [mbind res_bind]. simpl.
  apply At_cons in H. destruct (c =? 0x30); [by eexists|]. destruct (isOneNine c); [|by eexists].
  pose proof (scanDigits_span _ _ _ H) as D. destruct (span isDigit s). by eexists.
Qed.

(** The integer flag says there is neither fraction nor exponent. *)
Definition np_integer (p : numparts) : bool :=
  match np_frac p, np_exp p with [], None => true | _, _ => false end.

(** The stages after the sign, for either integer scanner. *)
Lemma fastNumber_At (int : nat -> res stop nat) i c s :
  (forall i c s, At src i (c :: s) -> fsim (int i) id (ref_int (c :: s))) ->
  At src i (c :: s) ->
  match ref_number (c :: s) with
  | Some (p, r) => exists j,
      (i ← fastSign src i; i ← int i; '(i, fl) ← fastFrac src i; fastExp src i fl) = Ok (j, np_integer p) /\
      At src j r
  | None => exists j, (i ← fastSign src i; i ← int i; '(i, fl) ← fastFrac src i; fastExp src i fl) = Err (Reject j)
  end.
Proof.
  intros HI H. unfold fastSign, ref_number, ref_sign. rewrite (fastByteAt_At _ _ _ H). cbn [mbind res_bind].
  assert (G : forall neg i c s, At src i (c :: s) ->
    match '(int, s) ← ref_int (c :: s); '(frac, s) ← ref_frac s; '(exp, s) ← ref_exp s;
          Some (NumParts neg int frac exp, s) with
    | Some (p, r) => exists j, (i ← int i; '(i, fl) ← fastFrac src i; fastExp src i fl) = Ok (j, np_integer p) /\ At src j r
    | None => exists j, (i ← int i; '(i, fl) ← fastFrac src i; fastExp src i fl) = Err (Reject j)
    end).
  { clear - HI Hsrc. intros neg i c s H. specialize (HI _ _ _ H).
    destruct (ref_int (c :: s)) as [[ip s2]|]; [|destruct HI as (j & ->); by eexists].
    destruct HI as (j & -> & H2). cbn [mbind res_bind option_bind].
    pose proof (fastFrac_At _ _ H2) as HF. unfold id in *.
    destruct (ref_frac s2) as [[fp s3]|]; [|destruct HF as (k & ->); by eexists].
    destruct HF as (k & -> & H3). cbn [mbind res_bind option_bind].
    pose proof (fastExp_At _ _ (match fp with [] => true | _ => false end) H3) as HE.
    destruct (ref_exp s3) as [[ep s4]|]; [|destruct HE as (l & ->); by eexists].
    destruct HE as (l & -> & H4). eexists. split; [|done]. unfold np_integer. simpl.
    by destruct fp, ep. }
  destruct (c =? 0x2d); [|by apply G]. apply At_cons in H. destruct s as [|c' s].
  - apply At_nil in H as ->. rewrite Nat.leb_refl. by eexists.
  - rewrite (proj2 (Nat.leb_gt _ _) (At_lt _ _ _ _ H)). by apply G.
Qed.

Lemma fastIntSWAR_At i c s : At src i (c :: s) -> fsim (fastIntSWAR src i) id (ref_int (c :: s)).
Proof.
  intros H. unfold fastIntSWAR. rewrite (fastByteAt_At _ _ _ H). cbn [mbind res_bind]. simpl ref_int.
  apply At_cons in H. destruct (c =? 0x30); [by eexists|]. destruct (isOneNine c); [|by eexists].
  cbv zeta. pose proof (scanDigits_span _ _ _ H) as D.
  destruct ((S i + 8 <=? length src)%nat && _) eqn:E.
  2:{ destruct (span isDigit s). by eexists. }
  apply andb_true_iff in E as [E1 E2]. apply Nat.leb_le in E1. apply Z.eqb_eq in E2.
  destruct nonDigitMask8_for as (f & L & Hf).
  pose proof (At_length _ _ _ H) as Ls. pose proof (proj1 H) as Ds.
  assert (L8 : length (take 8 s) = 8%nat) by (rewrite length_take; lia).
  assert (B8 : bytes_ok (take 8 s)).
  { rewrite <- Ds. by apply Forall_take, Forall_drop. }
  pose proof (le_uint_ok _ B8) as W8. rewrite L8 in W8.
  unfold load64 in E2. rewrite Ds, Hf in E2 by exact W8.
  destruct (lane_first _ f (take 8 s) L B8) as [F _]. rewrite L8 in F. specialize (F E2).
  rewrite <- L8 in F at 2. apply first_hit_all in F.
  assert (H8 : At src (S i + 8) (drop 8 s)).
  { rewrite <- L8 at 1. apply At_app. by rewrite take_drop. }
  pose proof (scanDigits_span _ _ _ H8) as D8.
  assert (Es : span isDigit s = (take 8 s ++ (span isDigit (drop 8 s)).1, (span isDigit (drop 8 s)).2)).
  { destruct (span isDigit (drop 8 s)) as [a b] eqn:Eab. apply span_sound in Eab as (Ed & Ha & Hb).
    rewrite <- (take_drop 8 s) at 1. rewrite Ed, app_assoc. apply span_complete; [|done].
    apply Forall_app. split; [|done]. eapply Forall_impl; [exact F|].
    unfold notDigit. intros x. by destruct (isDigit x). }
  rewrite Es. by eexists.
Qed.

(** The two integer scanners are one function on an in-range sign result. *)
Lemma fastIntSWAR_eq i j : fastSign src i = Ok j -> fastIntSWAR src j = fastInt src j.
Proof.
  intros E. assert (L : (j < length src)%nat).
  { unfold fastSign, fastByteAt in E. destruct (src !! i) as [c|] eqn:Ec; [|done]. cbn [mbind res_bind] in E.
    apply lookup_lt_Some in Ec. destruct (c =? 0x2d); [|by injection E as <-].
    destruct (Nat.leb_spec (length src) (S i)); [done|]. by injection E as <-. }
  destruct (lookup_lt_is_Some_2 src j L) as [c Hc].
  assert (H : At src j (c :: drop (S j) src)) by (split; [by apply drop_S|lia]).
  pose proof (fastInt_At j c _ H) as F1. pose proof (fastIntSWAR_At j c _ H) as F2.
  destruct (ref_int (c :: drop (S j) src)) as [[x r]|].
  - destruct F1 as (a & -> & H1), F2 as (b & -> & H2). unfold id in *. by rewrite (At_inj _ _ _ _ H1 H2).
  - destruct F1 as (a & F1), F2 as (b & F2). unfold fastInt, fastIntSWAR in *.
    rewrite (fastByteAt_At _ _ _ H) in *. cbn [mbind res_bind] in *.
    destruct (c =? 0x30); [done|]. by destruct (isOneNine c).
Qed.
End FastScalars.

(** ** Strings *)

Definition has_backslash (s : list Z) : bool := existsb (Z.eqb 0x5c) s.

Lemma no_backslash s : Forall (fun b => b <> 0x5c) s -> has_backslash s = false.
Proof.
  induction 1 as [|b s Hb _ IH]; [done|]. unfold has_backslash in *. cbn [existsb]. rewrite IH.
  replace (0x5c =? b) with false by lia. done.
Qed.

Section FastStrings.
Variable src : list Z.
Hypothesis Hsrc : bytes_ok src.

(** [m] reads the string body [s]; the flag records escapes seen. *)
Definition bsim (m : res stop (nat * bool)) (esc : bool) (s : list Z) : Prop :=
  match ref_body s with
  | Some (body, r) => exists j, m = Ok (j, esc || has_backslash body) /\ At src j r
  | None => exists k, m = Err (Reject k)
  end.

Lemma bsim_consume m esc s p t :
  ref_body s = consume p (ref_body t) -> bsim m (esc || has_backslash p) t -> bsim m esc s.
Proof.
  unfold bsim. intros ->. destruct (ref_body t) as [[body r]|]; [|done]. simpl.
  intros (j & -> & H). exists j. unfold has_backslash. by rewrite existsb_app, orb_assoc.
Qed.

Lemma atUnicodeEscape_At i c1 c2 s :
  At src i (c1 :: c2 :: s) -> atUnicodeEscape src i = Ok ((c1 =? 0x5c) && (c2 =? 0x75)).
Proof.
  intros H. unfold atUnicodeEscape. rewrite (fastByteAt_At _ _ _ _ H). cbn [mbind res_bind].
  destruct (c1 =? 0x5c); [|done]. apply At_cons in H. by rewrite (fastByteAt_At _ _ _ _ H).
Qed.

Lemma surrogateTail_At k x s :
  At src k s ->
  fsim src (let '(u, ok) := hex4 src k in if negb ok then Err (Reject x) else surrogateTail src u (k + 4))
    id (ref_unicode s).
Proof.
  intros H. unfold ref_unicode. pose proof (hex4_At _ _ _ H) as M.
  destruct (ref_hex4 s) as [[[u h] t]|]; cbn [mbind option_bind].
  2:{ destruct (hex4 src k) as [u ok]. simpl in M. subst ok. by eexists. }
  destruct M as (-> & H4 & _). cbn [negb]. unfold surrogateTail, between.
  destruct ((0xd800 <=? u) && (u <=? 0xdbff)).
  - pose proof (At_length _ _ _ H4) as L. destruct (Nat.ltb_spec (length src) (k + 4 + 6)) as [N|N].
    { destruct (expect 0x5c t) as [t1|] eqn:E1; [|by eexists]. apply expect_Some in E1 as ->.
      cbn [mbind option_bind]. destruct (expect 0x75 t1) as [t2|] eqn:E2; [|by eexists].
      apply expect_Some in E2 as ->. cbn [mbind option_bind].
      destruct t2 as [|? [|? [|? [|? ?]]]]; [by eexists..|]. simpl in L. lia. }
    destruct t as [|c1 [|c2 t]]; [simpl in L; lia..|].
    rewrite (atUnicodeEscape_At _ _ _ _ H4). cbn [mbind option_bind res_bind expect].
    destruct (c1 =? 0x5c); cbn [andb negb mbind option_bind expect]; [|by eexists].
    destruct (c2 =? 0x75); cbn [negb mbind option_bind]; [|by eexists].
    apply (At_app _ _ [c1; c2]) in H4. pose proof (hex4_At _ _ _ H4) as M2. simpl length in *.
    destruct (hex4 src (k + 4 + 2)) as [lo ok]. destruct (ref_hex4 t) as [[[u2 h2] t2]|].
    + destruct M2 as ([= -> ->] & H5 & _). cbn [negb mbind option_bind orb].
      destruct ((0xdc00 <=? u2) && (u2 <=? 0xdfff)) eqn:E.
      * replace ((u2 <? 0xdc00) || (0xdfff <? u2)) with false by lia. eexists. split; [done|].
        unfold id. by replace (k + 4 + 6)%nat with (k + 4 + 2 + 4)%nat by lia.
      * replace ((u2 <? 0xdc00) || (0xdfff <? u2)) with true by lia. by eexists.
    + simpl in M2. subst ok. by eexists.
  - destruct ((0xdc00 <=? u) && (u <=? 0xdfff)); by eexists.
Qed.

(** One \u escape of the body. *)
Lemma ref_body_unicode s :
  match ref_unicode s with
  | Some (c, t) => ref_body (0x5c :: 0x75 :: s) = consume c (ref_body t) /\
                   has_backslash c = true /\ (length t < 2 + length s)%nat
  | None => ref_body (0x5c :: 0x75 :: s) = None
  end.
Proof.
  rewrite ref_body_unfold. cbn [expect]. change (ref_char (0x5c :: 0x75 :: s)) with (ref_unicode s).
  destruct (ref_unicode s) as [[c t]|] eqn:E; [|done].
  change (ref_unicode s) with (ref_char (0x5c :: 0x75 :: s)) in E.
  apply ref_char_sound in E as (_ & E & L); [|done]. split; [done|].
  pose proof (f_equal length E) as El. rewrite length_app in El. simpl in El.
  destruct c as [|c0 c]; [simpl in L; lia|]. injection E as <- _. split; [done|lia].
Qed.

Lemma unicodeEscapes_At fuel i s esc :
  At src i s -> (length s < fuel)%nat ->
  (exists k, unicodeEscapes src fuel i esc = Err (Reject k) /\ ref_body s = None) \/
  (exists i' s' p, unicodeEscapes src fuel i esc = Ok (i', esc || has_backslash p) /\ At src i' s' /\
     ref_body s = consume p (ref_body s') /\ (length s' <= length s)%nat).
Proof.
  revert i s esc. induction fuel as [|fuel IH]; intros i s esc H L; [lia|]. cbn [unicodeEscapes].
  assert (Stay : forall m, m = Ok (i, esc) ->
    (exists k, m = Err (Reject k) /\ ref_body s = None) \/
    (exists i' s' p, m = Ok (i', esc || has_backslash p) /\ At src i' s' /\
     ref_body s = consume p (ref_body s') /\ (length s' <= length s)%nat)).
  { intros m ->. right. exists i, s, []. by rewrite orb_false_r, consume_nil. }
  destruct (Nat.leb_spec (i + 6) (length src)) as [N|N]; [|by apply Stay].
  pose proof (At_length _ _ _ H) as Ls. destruct s as [|c1 [|c2 s]]; [simpl in Ls; lia..|].
  rewrite (atUnicodeEscape_At _ _ _ _ H). cbn [mbind res_bind].
  destruct (Z.eqb_spec c1 0x5c) as [->|]; [|by apply Stay].
  destruct (Z.eqb_spec c2 0x75) as [->|]; [|by apply Stay]. cbn [andb negb].
  apply (At_app _ _ [0x5c; 0x75]) in H. simpl length in *.
  pose proof (surrogateTail_At _ i _ H) as M. pose proof (ref_body_unicode s) as R.
  replace (i + 6)%nat with (i + 2 + 4)%nat by lia.
  destruct (hex4 src (i + 2)) as [u ok]. destruct (ref_unicode s) as [[c t]|].
  - destruct M as (j & M & Hj). destruct R as (R & B & Lt). destruct ok; [|done]. cbn [negb] in *.
    rewrite M. cbn [mbind res_bind].
    destruct (IH j t true Hj ltac:(lia)) as [(k & -> & E)|(i' & s' & p & -> & H' & E & L')].
    + left. exists k. split; [done|]. by rewrite R, E.
    + right. exists i', s', (c ++ p). unfold has_backslash in *. rewrite existsb_app, B, orb_true_r.
      split; [done|]. split; [done|]. split; [by rewrite R, E, consume_app|lia].
  - destruct M as (k & M). left. destruct ok; cbn [negb] in *; [rewrite M|]; by eexists.
Qed.

(** A backslash at [j]: the escape it starts, then the rest of the loop. *)
Lemma escape_step fuel esc m t j :
  (forall i s esc, At src i s -> (length s < fuel)%nat ->
     bsim (scanJSONStringFastFrom_loop src fuel i esc) esc s) ->
  (m < S fuel)%nat -> At src j (0x5c :: t) -> (S (length t) <= m)%nat ->
  bsim (if (length src <=? S j)%nat then Err (Reject (S j)) else
        e ← fastByteAt src (S j);
        if simpleEscape e then scanJSONStringFastFrom_loop src fuel (S (S j)) true
        else if e =? 0x75 then
          let '(u, ok) := hex4 src (S (S j)) in
          if negb ok then Err (Reject (S j)) else
          i ← surrogateTail src u (S j + 5);
          scanJSONStringFastFrom_loop src fuel i true
        else Err (Reject (S j))) esc (0x5c :: t).
Proof.
  intros IH Lm H L. apply At_cons in H. destruct t as [|e t].
  { apply At_nil in H as ->. rewrite Nat.leb_refl. by eexists. }
  rewrite (proj2 (Nat.leb_gt _ _) (At_lt _ _ _ _ H)), (fastByteAt_At _ _ _ _ H). cbn [mbind res_bind].
  apply At_cons in H. simpl in L. destruct (simpleEscape e) eqn:Ee.
  - eapply (bsim_consume _ _ _ [0x5c; e] t); [apply (ref_body_char [0x5c; e]); by constructor|].
    rewrite orb_true_r. apply IH; [done|lia].
  - destruct (Z.eqb_spec e 0x75) as [->|N].
    2:{ unfold bsim. rewrite ref_body_unfold. simpl. replace (e =? 0x75) with false by lia. rewrite Ee.
        by eexists. }
    pose proof (surrogateTail_At _ (S j) _ H) as M. pose proof (ref_body_unicode t) as R.
    replace (S j + 5)%nat with (S (S j) + 4)%nat by lia.
    destruct (hex4 src (S (S j))) as [u ok]. destruct (ref_unicode t) as [[c r]|].
    + destruct M as (k & M & Hk). destruct R as (R & B & Lt). destruct ok; [|done]. cbn [negb] in *.
      rewrite M. cbn [mbind res_bind]. eapply bsim_consume; [exact R|]. rewrite B, orb_true_r.
      apply IH; [done|lia].
    + destruct M as (k & M). unfold bsim. rewrite R.
      destruct ok; cbn [negb] in *; [rewrite M|]; by eexists.
Qed.

Lemma stringLoop_At fuel i s esc :
  At src i s -> (length s < fuel)%nat -> bsim (scanJSONStringFastFrom_loop src fuel i esc) esc s.
Proof.
  revert i s esc. induction fuel as [|fuel IH]; intros i s esc H L; [lia|].
  cbn [scanJSONStringFastFrom_loop].
  assert (E0 : exists e, (if (S i <? length src)%nat then atUnicodeEscape src i else Ok false) = Ok e).
  { destruct (Nat.ltb_spec (S i) (length src)); [|by eexists]. pose proof (At_length _ _ _ H).
    destruct s as [|c1 [|c2 s]]; [simpl in *; lia..|]. rewrite (atUnicodeEscape_At _ _ _ _ H). by eexists. }
  destruct E0 as (e & ->). cbn [mbind res_bind]. unfold scanUnicodeEscapeRun. rewrite Nat.eqb_refl. cbn [negb].
  replace (if e then Ok (i, esc) else Ok (i, esc)) with (@Ok stop _ (i, esc)) by (by destruct e).
  cbn [mbind res_bind].
  destruct (unicodeEscapes_At (S (length src)) i s esc H) as [(k & -> & E)|(i' & s' & p & -> & H' & E & L')].
  { pose proof (At_length _ _ _ H). lia. }
  { unfold bsim. rewrite E. by eexists. }
  apply (bsim_consume _ _ _ _ _ E). cbn [mbind res_bind]. generalize (esc || has_backslash p) as esc'.
  intros esc'. clear E p. rewrite (guardedAt_At _ _ _ _ H'). cbn [mbind res_bind].
  set (j := if match s' with [] => false | c :: _ => c =? 0x5c end then i' else scanStringSpecial src i').
  assert (exists p t, s' = p ++ t /\ bytes_ok p /\ Forall (fun b => isStringSpecial b = false) p /\
    stops (fun b => negb (isStringSpecial b)) t /\ j = (i' + length p)%nat)
    as (p & t & -> & Bp & Hp & Ht & Ej).
  { pose proof (At_bytes src Hsrc _ _ H') as Bs.
    destruct (scan_to_split src isStringSpecial i' s' H') as (p & t & -> & Hp & Ht & Es).
    exists p, t. apply Forall_app in Bs as [Bp _]. split_and!; try done. unfold j.
    rewrite scanStringSpecial_to, Es by (done || apply H').
    destruct p as [|c p].
    { simpl. rewrite Nat.add_0_r. destruct t as [|c t]; [done|]. by destruct (c =? 0x5c). }
    simpl.
    apply Forall_cons in Hp as [Hc _]. unfold isStringSpecial in Hc. by replace (c =? 0x5c) with false by lia. }
  rewrite Ej. clear j Ej.
  assert (Nb : has_backslash p = false).
  { apply no_backslash. eapply Forall_impl; [exact Hp|]. unfold isStringSpecial. simpl. lia. }
  eapply bsim_consume; [by apply ref_body_ascii|]. rewrite Nb, orb_false_r.
  apply At_app in H'. rewrite length_app in L'. set (j := (i' + length p)%nat) in *. clearbody j.
  assert (Lt : (length t <= length s)%nat) by lia. clear H Hp Bp Nb L' p i' i e.
  destruct t as [|c t].
  { apply At_nil in H' as ->. rewrite Nat.leb_refl. by eexists. }
  rewrite (proj2 (Nat.leb_gt _ _) (At_lt _ _ _ _ H')), (fastByteAt_At _ _ _ _ H'). cbn [mbind res_bind].
  simpl in Ht, Lt. destruct (Z.eqb_spec c 0x22) as [->|N1].
  { unfold bsim. rewrite ref_body_unfold. simpl. rewrite orb_false_r. eexists. split; [done|]. by eapply At_cons. }
  destruct (Z.eqb_spec c 0x5c) as [->|N2].
  - by apply (escape_step fuel esc' (length s)).
  - destruct (c <? 0x20) eqn:E3.
    { unfold bsim. rewrite ref_body_unfold. simpl. replace (c =? 0x22) with false by lia.
      replace (c =? 0x5c) with false by lia. rewrite E3. by eexists. }
    assert (0x80 <= c) by (unfold isStringSpecial in Ht; lia).
    pose proof (scanStringUnicodeRun_spec src j c Hsrc (At_lookup _ _ _ _ H') ltac:(done)) as M.
    destruct (scanStringUnicodeRun src j) as [next [b|]]; rewrite (proj1 H') in M.
    + unfold bsim. rewrite M. by eexists.
    + destruct M as (Ln & M & Nb). apply no_backslash in Nb. eapply bsim_consume; [exact M|].
      rewrite Nb, orb_false_r. pose proof (At_length _ _ _ H') as Lj. simpl in Lj.
      apply IH; [by split; [done|lia]|]. rewrite length_drop. lia.
Qed.

Lemma scanJSONStringFastFrom_At i s : At src i s -> bsim (scanJSONStringFastFrom src i) false s.
Proof.
  intros H. apply stringLoop_At; [done|]. pose proof (At_length _ _ _ H). lia.
Qed.
End FastStrings.

Section FastTokens.
Variable src : list Z.
Hypothesis Hsrc : bytes_ok src.
Abbreviation clean := (Forall (fun b => isStringSpecial b = false)).

(** One word of the mask splits the input at its first special byte. *)
Lemma special_word i s :
  At src i s -> (i + 8 <= length src)%nat ->
  let m := stringSpecialMask (load64 src i) in
  if m =? 0 then exists p t, s = p ++ t /\ length p = 8%nat /\ clean p
  else exists p c t, s = p ++ c :: t /\ laneOf m = length p /\ clean p.
Proof.
  intros H L m. pose proof (At_length _ _ _ H) as Ls. pose proof (proj1 H) as Ds.
  destruct stringSpecialMask_for as (f & HL & Hf). set (w := take 8 s).
  assert (L8 : length w = 8%nat) by (unfold w; rewrite length_take; lia).
  assert (B8 : bytes_ok w) by (unfold w; rewrite <- Ds; by apply Forall_take, Forall_drop).
  pose proof (le_uint_ok _ B8) as W8. rewrite L8 in W8.
  assert (Em : m = f 8%nat (le_uint w)) by (unfold m, load64, w; rewrite Ds; by apply Hf).
  destruct (lane_first _ f w HL B8) as [F0 F1]. rewrite L8, <- Em in F0, F1.
  destruct (Z.eqb_spec m 0) as [E|E].
  - exists w, (drop 8 s). unfold w at 1. rewrite take_drop. split_and!; [done..|].
    apply first_hit_all. rewrite L8. by apply F0.
  - destruct (F1 E) as [F2 F3]. destruct (first_hit_spec _ _ _ eq_refl ltac:(by rewrite L8)) as (Hp & c & Ec & _).
    exists (take (first_hit isStringSpecial w) w), c, (drop (S (first_hit isStringSpecial w)) w ++ drop 8 s).
    split; [|split; [rewrite length_take; lia|done]].
    rewrite app_comm_cons, <- (drop_S _ _ _ Ec), app_assoc, take_drop. unfold w. by rewrite take_drop.
Qed.

(** The word found a quote: the string ends there; otherwise nothing is decided. *)
Lemma quoteInWord_At i s :
  At src i s -> (i + 8 <= length src)%nat -> stringSpecialMask (load64 src i) <> 0 ->
  exists q, quoteInWord src i = Ok q /\
    match q with
    | Some e => exists body r, ref_body s = Some (body, r) /\ At src e r
    | None => True
    end.
Proof.
  intros H L N. pose proof (special_word i s H L) as W. cbv zeta in W.
  replace (_ =? 0) with false in W by lia. destruct W as (p & c & t & -> & E & Hp).
  unfold quoteInWord. rewrite E. pose proof (At_app _ _ _ _ H) as H'. rewrite (fastByteAt_At _ _ _ _ H').
  cbn [mbind res_bind]. eexists. split; [done|]. destruct (Z.eqb_spec c 0x22) as [->|]; [|done].
  pose proof (At_bytes src Hsrc _ _ H) as B. apply Forall_app in B as [Bp _].
  rewrite ref_body_ascii by done. rewrite (ref_body_unfold (0x22 :: t)). simpl.
  eexists _, _. split; [done|]. by eapply At_cons.
Qed.

(** The end offset of a scanned string. *)
Lemma fsim_string s m :
  bsim src m false s -> fsim src ('(e, _) ← m; Ok e) id (ref_string (0x22 :: s)).
Proof.
  intros M. unfold bsim in M. unfold ref_string. rewrite !expect_cons. cbn [mbind option_bind].
  destruct (ref_body s) as [[body r]|].
  - destruct M as (j & -> & H). by eexists.
  - destruct M as (k & ->). by eexists.
Qed.

Lemma fsim_body s e body r :
  ref_body s = Some (body, r) -> At src e r -> fsim src (Ok e) id (ref_string (0x22 :: s)).
Proof. intros E H. unfold ref_string. rewrite !expect_cons. cbn [mbind option_bind]. rewrite E. by eexists. Qed.

Lemma fsim_skip p s m :
  bytes_ok p -> clean p -> fsim src m id (ref_string (0x22 :: s)) ->
  fsim src m id (ref_string (0x22 :: p ++ s)).
Proof.
  intros B C. unfold ref_string. rewrite !expect_cons. cbn [mbind option_bind]. rewrite ref_body_ascii by done.
  by destruct (ref_body s) as [[body r]|].
Qed.

Lemma validStringFast_At i s :
  At src i (0x22 :: s) -> fsim src (validStringFast src i) id (ref_string (0x22 :: s)).
Proof.
  intros H. apply At_cons in H. unfold validStringFast, scanJSONStringFastLong. cbv zeta.
  assert (Long : forall i s, At src i s ->
    fsim src ('(e, _) ← scanJSONStringFastFrom src i; Ok e) id (ref_string (0x22 :: s))).
  { intros. apply fsim_string. by apply scanJSONStringFastFrom_At. }
  destruct (Nat.leb_spec (S i + 8) (length src)) as [L|L]; [|by apply Long].
  destruct (Z.eqb_spec (stringSpecialMask (load64 src (S i))) 0) as [E|E]; cbn [negb].
  2:{ destruct (quoteInWord_At _ _ H L E) as ([e|] & -> & Q); cbn [mbind res_bind]; [|by apply Long].
      destruct Q as (body & r & Q & He). by eapply fsim_body. }
  pose proof (special_word _ _ H L) as W. cbv zeta in W. rewrite E in W.
  destruct W as (p & t & -> & Lp & Hp). pose proof (At_bytes src Hsrc _ _ H) as B.
  apply Forall_app in B as [Bp _]. apply At_app in H. rewrite Lp in H. apply fsim_skip; [done..|].
  destruct (Nat.leb_spec (S i + 8 + 8) (length src)) as [L2|L2]; [|by apply Long].
  destruct (Z.eqb_spec (stringSpecialMask (load64 src (S i + 8))) 0) as [E2|E2]; cbn [negb].
  2:{ destruct (quoteInWord_At _ _ H L2 E2) as ([e|] & -> & Q); cbn [mbind res_bind]; [|by apply Long].
      destruct Q as (body & r & Q & He). by eapply fsim_body. }
  pose proof (special_word _ _ H L2) as W. cbv zeta in W. rewrite E2 in W.
  destruct W as (p2 & t2 & -> & Lp2 & Hp2). pose proof (At_bytes src Hsrc _ _ H) as B.
  apply Forall_app in B as [Bp2 _]. apply At_app in H. rewrite Lp2 in H. apply fsim_skip; [done..|].
  by apply Long.
Qed.

Lemma shortLoop_At k i s e :
  At src i s -> bytes_ok s -> shortLoop src k i = Some e ->
  exists body r, ref_body s = Some (body, r) /\ At src e r /\ has_backslash body = false.
Proof.
  revert i s. induction k as [|k IH]; intros i s H B E; [done|]. simpl in E.
  destruct s as [|c s]; [by rewrite At_lookup_nil in E|]. rewrite (At_lookup _ _ _ _ H) in E.
  apply At_cons in H. apply Forall_cons in B as [Bc B]. destruct (Z.eqb_spec c 0x22) as [->|N].
  - injection E as <-. exists [], s. by rewrite ref_body_unfold.
  - destruct (_ || _ || _) eqn:S; [done|]. destruct (IH _ _ H B E) as (body & r & R & He & Nb).
    exists (c :: body), r. change (c :: s) with ([c] ++ s).
    rewrite ref_body_ascii, R by (repeat constructor; unfold isStringSpecial; (done || lia)).
    split_and!; [done..|]. unfold has_backslash in *. cbn [existsb]. rewrite Nb, orb_false_r. lia.
Qed.

Lemma scanJSONStringFast_At i s short :
  At src i (0x22 :: s) -> bsim src (scanJSONStringFast src i short) false s.
Proof.
  intros H. apply At_cons in H. unfold scanJSONStringFast, scanJSONStringFastLong.
  pose proof (At_bytes src Hsrc _ _ H) as B. pose proof (scanJSONStringFastFrom_At src Hsrc _ _ H) as M.
  destruct short; [|done]. unfold scanShortJSONString. cbv zeta.
  destruct (shortLoop _ _ _) as [e|] eqn:E; [|done].
  destruct (shortLoop_At _ _ _ _ H B E) as (body & r & R & He & Nb). unfold bsim. rewrite R, Nb. by eexists.
Qed.

Lemma wordAt_At i s k (lit w : list Z) c :
  At src i (c :: s) -> lit = take k lit ++ w -> (k <= 1)%nat -> length w = 4%nat -> bytes_ok w ->
  take k lit = take k [c] ->
  fsim src (wordAt src i k (length lit) (le_uint w)) id (ref_lit lit (c :: s)).
Proof.
  intros H El Hk Lw Bw Ek. unfold wordAt, ref_lit. pose proof (At_length _ _ _ H) as Ls.
  assert (Lk : length lit = (k + 4)%nat).
  { rewrite El, Ek, length_app, length_take, Lw. simpl. lia. }
  destruct (Nat.ltb_spec (length src) (i + length lit)) as [L|L].
  { destruct (strip_prefix lit (c :: s)) as [r|] eqn:E; [|by eexists].
    apply strip_prefix_Some in E. rewrite E, length_app in Ls. lia. }
  unfold loadUint32LE. replace (i + k + 4 <=? length src)%nat with true by (symmetry; apply Nat.leb_le; lia).
  cbn [mbind res_bind]. set (t := drop k (c :: s)).
  assert (Ht : At src (i + k) t).
  { replace k with (length (take k [c])) at 1 by (rewrite length_take; simpl; lia). apply At_app.
    unfold t. destruct k as [|[|k]]; [done..|lia]. }
  destruct (Z.eqb_spec (le_uint (take 4 (drop (i + k) src))) (le_uint w)) as [E|E]; cbn [negb].
  - destruct (load_match src (i + k) 4 w t Hsrc Ht) as (r & Er & Hr); [lia|done..|].
    assert (Es : c :: s = lit ++ r).
    { rewrite El, Ek, <- app_assoc, <- Er. unfold t. destruct k as [|[|k]]; [done..|lia]. }
    rewrite (proj2 (strip_prefix_Some lit (c :: s) r) Es). eexists. split; [done|]. unfold id.
    rewrite Lk. by replace (i + (k + 4))%nat with (i + k + 4)%nat by lia.
  - destruct (strip_prefix lit (c :: s)) as [r|] eqn:E'; [|by eexists]. exfalso. apply E.
    apply strip_prefix_Some in E'. rewrite (proj1 Ht). unfold t. rewrite E', El, Ek, <- app_assoc.
    rewrite drop_app_ge by (rewrite length_take; simpl; lia).
    rewrite length_take. replace (k - _)%nat with 0%nat by (simpl; lia). rewrite drop_0, <- Lw.
    by rewrite take_app_length.
Qed.
End FastTokens.

(** ** Values *)

Section FastValues.
Variable src : list Z.
Hypothesis Hsrc : bytes_ok src.
Abbreviation okc := (fun d => d <=? defaultMaxDepth)%nat.

Lemma significant_sim i s :
  At src i s ->
  match skip_ws s with
  | [] => exists k, significant src i = Err (Reject k)
  | c :: t => exists j, significant src i = Ok (j, c) /\ At src j (c :: t)
  end.
Proof.
  intros H. pose proof (significant_At src i s H) as M. unfold significant.
  destruct (skip_ws s) as [|c t].
  - destruct M as (j & -> & Hj). apply At_nil in Hj as ->. rewrite Nat.leb_refl. by eexists.
  - destruct M as (j & -> & Hj). rewrite (proj2 (Nat.leb_gt _ _) (At_lt _ _ _ _ Hj)). by eexists.
Qed.

(** The two fuels need not agree: both only have to be large enough. *)
Definition fast_value (k : nat) : Prop := forall f g i c s d,
  At src i (c :: s) -> (3 * length (c :: s) < k)%nat -> (k <= f)%nat -> (k <= g)%nat ->
  fsim src (validValueFast src f i c d) id (ref_value any_depth okc g d (c :: s)).
Definition fast_elems (k : nat) : Prop := forall f g i c s t d,
  skip_ws s = c :: t -> At src i (c :: t) -> (3 * length (c :: t) + 1 < k)%nat -> (k <= f)%nat -> (k <= g)%nat ->
  fsim src (validElemsFast src f i c d) id (ref_elems any_depth okc g (S d) s).
Definition fast_members (k : nat) : Prop := forall f g i c s t d,
  skip_ws s = c :: t -> At src i (c :: t) -> (3 * length (c :: t) + 1 < k)%nat -> (k <= f)%nat -> (k <= g)%nat ->
  fsim src (validMembersFast src f i c d) id (ref_members any_depth okc g (S d) s).

Lemma fsim_map {T U} m pos (o : option (T * list Z)) (h : T -> U) :
  @fsim src nat T m pos o -> fsim src m pos ('(x, r) ← o; Some (h x, r)).
Proof. by destruct o as [[x r]|]. Qed.

(** An opening bracket: the container is empty, or its items follow. *)
Lemma fast_open {T} i c s (close : Z) (ref : list Z -> option (list T * list Z)) (h : list T -> jv)
    (k : nat -> Z -> res stop nat) :
  At src i (c :: s) ->
  (forall r, skip_ws r = [] -> ref r = None) ->
  (forall j c t, skip_ws s = c :: t -> At src j (c :: t) -> c <> close -> fsim src (k j c) id (ref (skip_ws s))) ->
  fsim src ('(i, c) ← significant src (S i); if c =? close then Ok (S i) else k i c) id
    (match expect close (skip_ws s) with
     | Some r => Some (h [], r)
     | None => '(ts, r) ← ref (skip_ws s); Some (h ts, r)
     end).
Proof.
  intros H Hn Hk. apply At_cons in H. pose proof (significant_sim _ _ H) as M.
  destruct (skip_ws s) as [|b t] eqn:E.
  - destruct M as (j & ->). rewrite Hn by done. by eexists.
  - destruct M as (j & -> & Hj). cbn [mbind res_bind expect]. destruct (Z.eqb_spec b close) as [->|N].
    + eexists. split; [done|]. by eapply At_cons.
    + apply fsim_map. by eapply Hk.
Qed.

(** After an item: a comma and more, or the closing bracket. *)
Lemma fast_next {T} (x : T) i s (close : Z) (ref : list Z -> option (list T * list Z))
    (k : nat -> Z -> res stop nat) :
  At src i s ->
  (forall r, skip_ws r = [] -> ref r = None) ->
  (forall j c r t, expect 0x2c (skip_ws s) = Some r -> skip_ws r = c :: t -> At src j (c :: t) ->
     fsim src (k j c) id (ref r)) ->
  fsim src
    ('(i, c) ← significant src i;
     if c =? 0x2c then '(i, c) ← significant src (S i); k i c
     else if c =? close then Ok (S i) else Err (Reject i)) id
    (match expect 0x2c (skip_ws s) with
     | Some r => '(xs, r) ← ref r; Some (x :: xs, r)
     | None => r ← expect close (skip_ws s); Some ([x], r)
     end).
Proof.
  intros H Hn Hk. pose proof (significant_sim _ _ H) as M. destruct (skip_ws s) as [|b t].
  - destruct M as (j & ->). by eexists.
  - destruct M as (j & -> & Hj). cbn [mbind res_bind expect]. destruct (Z.eqb_spec b 0x2c) as [->|N].
    + apply At_cons in Hj. pose proof (significant_sim _ _ Hj) as M2. apply (fsim_map _ _ _ (fun xs => x :: xs)).
      destruct (skip_ws t) as [|c u] eqn:Et.
      * destruct M2 as (j2 & ->). rewrite Hn by done. by eexists.
      * destruct M2 as (j2 & -> & Hj2). cbn [mbind res_bind]. by eapply Hk.
    + destruct (Z.eqb_spec b close) as [->|N2]; [|by eexists]. eexists. split; [done|]. by eapply At_cons.
Qed.

Lemma fast_value_step k :
  (forall k', (k' < k)%nat -> fast_elems k' /\ fast_members k') -> fast_value k.
Proof.
  intros IH f g i c s d H L Lf Lg. simpl in L. destruct f as [|f]; [lia|]. destruct g as [|[|g]]; [lia..|].
  rewrite validValueFast_S, ref_value_S. cbn [negb any_depth]. rewrite (Nat.leb_antisym defaultMaxDepth (S d)).
  change (defaultMaxDepth <? S d)%nat with (defaultMaxDepth <=? d)%nat.
  destruct (IH (k - 2)%nat ltac:(lia)) as [IHe IHm].
  destruct (Z.eqb_spec c 0x7b) as [->|_].
  { simpl (0x7b =? _). cbv iota. destruct (defaultMaxDepth <=? d)%nat; [by eexists|]. cbn [negb].
    rewrite ref_object_S. apply (fast_open i 0x7b s 0x7d (ref_members any_depth okc g (S d)) JObj); [done|..].
    - intros. by apply ref_members_ws.
    - intros j b t E Hj _. rewrite ref_members_skip. pose proof (skip_ws_length s) as Ls. rewrite E in Ls.
      eapply IHm; [done..|simpl in *; lia|lia|lia]. }
  destruct (Z.eqb_spec c 0x5b) as [->|_].
  { simpl (0x5b =? _). cbv iota. destruct (defaultMaxDepth <=? d)%nat; [by eexists|]. cbn [negb].
    rewrite ref_array_S. apply (fast_open i 0x5b s 0x5d (ref_elems any_depth okc g (S d)) JArr); [done|..].
    - intros. by apply ref_elems_ws.
    - intros j b t E Hj _. rewrite ref_elems_skip. pose proof (skip_ws_length s) as Ls. rewrite E in Ls.
      eapply IHe; [done..|simpl in *; lia|lia|lia]. }
  destruct (Z.eqb_spec c 0x22) as [->|_].
  { apply fsim_map. by apply validStringFast_At. }
  destruct (Z.eqb_spec c 0x74) as [->|_].
  { apply (wordAt_At src Hsrc i s 0 lit_true [0x74; 0x72; 0x75; 0x65]); try done; try lia; by repeat (constructor; [done|]). }
  destruct (Z.eqb_spec c 0x66) as [->|_].
  { apply (wordAt_At src Hsrc i s 1 lit_false [0x61; 0x6c; 0x73; 0x65]); try done; try lia; by repeat (constructor; [done|]). }
  destruct (Z.eqb_spec c 0x6e) as [->|_].
  { apply (wordAt_At src Hsrc i s 0 lit_null [0x6e; 0x75; 0x6c; 0x6c]); try done; try lia; by repeat (constructor; [done|]). }
  rewrite <- negb_orb. destruct ((c =? 0x2d) || isDigit c); [|by eexists]. cbn [negb].
  apply fsim_map. unfold scanNumberFast, scanNumberFastTagged.
  pose proof (fastNumber_At src Hsrc (fastInt src) i c s (fastInt_At src) H) as N.
  destruct (ref_number (c :: s)) as [[p r]|].
  - destruct N as (j & -> & Hj). by eexists.
  - destruct N as (j & ->). by eexists.
Qed.

Lemma fast_elems_step k :
  (forall k', (k' < k)%nat -> fast_value k' /\ fast_elems k') -> fast_elems k.
Proof.
  intros IH f g i c s t d E H L Lf Lg. destruct f as [|f]; [lia|]. destruct g as [|g]; [lia|].
  rewrite validElemsFast_S, ref_elems_S, E. destruct (IH (k - 1)%nat ltac:(lia)) as [IHv IHe].
  pose proof (IHv f g i c t (S d) H ltac:(lia) ltac:(lia) ltac:(lia)) as V.
  destruct (ref_value any_depth okc g (S d) (c :: t)) as [[v r]|] eqn:Ev.
  2:{ destruct V as (j & ->). by eexists. }
  destruct V as (j & -> & Hj). cbn [mbind res_bind option_bind]. apply ref_value_length in Ev.
  apply (fast_next v j r 0x5d (ref_elems any_depth okc g (S d))); [done|intros; by apply ref_elems_ws|].
  intros j' b q u Q Eq Hj'. apply expect_length in Q. pose proof (skip_ws_length r). pose proof (skip_ws_length q) as Lq.
  rewrite Eq in Lq. eapply IHe; [done..|simpl in *; lia|lia|lia].
Qed.

Lemma fast_members_step k :
  (forall k', (k' < k)%nat -> fast_value k' /\ fast_members k') -> fast_members k.
Proof.
  intros IH f g i c s t d E H L Lf Lg. destruct f as [|f]; [lia|]. destruct g as [|g]; [lia|].
  rewrite validMembersFast_S, ref_members_S, E. destruct (IH (k - 1)%nat ltac:(lia)) as [IHv IHm].
  destruct (Z.eqb_spec c 0x22) as [->|N]; cbn [negb].
  2:{ unfold ref_string. cbn [expect]. replace (c =? 0x22) with false by lia. by eexists. }
  pose proof (validStringFast_At src Hsrc i t H) as K.
  destruct (ref_string (0x22 :: t)) as [[key r0]|] eqn:Ek.
  2:{ destruct K as (j & ->). by eexists. }
  destruct K as (j & -> & Hj). cbn [mbind res_bind option_bind]. apply ref_string_length in Ek.
  pose proof (significant_sim _ _ Hj) as M. pose proof (skip_ws_length r0) as L0. unfold id in *.
  destruct (skip_ws r0) as [|c1 t1]; [destruct M as (j1 & ->); by eexists|].
  destruct M as (j1 & -> & H1). cbn [mbind res_bind option_bind expect].
  destruct (c1 =? 0x3a); cbn [negb]; [|by eexists]. apply At_cons in H1. simpl in L0.
  pose proof (significant_sim _ _ H1) as M. pose proof (skip_ws_length t1) as L1. cbn [mbind option_bind].
  destruct (skip_ws t1) as [|c2 t2]; [destruct M as (j2 & ->); rewrite ref_value_nil; by eexists|].
  destruct M as (j2 & -> & H2). cbn [mbind res_bind].
  pose proof (IHv f g j2 c2 t2 (S d) H2 ltac:(simpl in *; lia) ltac:(lia) ltac:(lia)) as V.
  destruct (ref_value any_depth okc g (S d) (c2 :: t2)) as [[v r]|] eqn:Ev.
  2:{ destruct V as (j3 & ->). by eexists. }
  destruct V as (j3 & -> & Hj3). cbn [mbind res_bind option_bind]. apply ref_value_length in Ev.
  apply (fast_next (key, v) j3 r 0x7d (ref_members any_depth okc g (S d))); [done|intros; by apply ref_members_ws|].
  intros j' b q u Q Eq Hj'. apply expect_length in Q. pose proof (skip_ws_length r). pose proof (skip_ws_length q) as Lq.
  rewrite Eq in Lq. eapply IHm; [done..|simpl in *; lia|lia|lia].
Qed.

Lemma fast_sim k : fast_value k /\ fast_elems k /\ fast_members k.
Proof.
  induction k as [k IH] using lt_wf_ind.
  split_and!; [apply fast_value_step|apply fast_elems_step|apply fast_members_step];
    intros k' L; destruct (IH k' L) as (? & ? & ?); done.
Qed.

Lemma validFastScalar_ref :
  validFastScalar src = Ok (match ref_text any_depth okc src with Some _ => true | None => false end).
Proof.
  unfold validFastScalar, ref_text. pose proof (significant_At src 0 src (At_0 src)) as M.
  pose proof (skip_ws_length src) as L. destruct (skip_ws src) as [|c t].
  - destruct M as (j & -> & Hj). apply At_nil in Hj as ->. by rewrite Nat.leb_refl, ref_value_nil.
  - destruct M as (j & -> & Hj). rewrite (proj2 (Nat.leb_gt _ _) (At_lt _ _ _ _ Hj)).
    destruct (fast_sim (ref_fuel src)) as (F & _).
    specialize (F _ _ _ _ _ 0%nat Hj ltac:(unfold ref_fuel; lia) (le_n _) (le_n _)).
    destruct (ref_value any_depth okc (ref_fuel src) 0 (c :: t)) as [[v r]|].
    2:{ destruct F as (k & ->). done. }
    destruct F as (k & -> & Hk). cbn [mbind option_bind]. unfold skipSpaceFast, id in *.
    pose proof (significant_At src k r Hk) as M2. unfold nextSignificantFast in M2.
    destruct (skip_ws r) as [|c2 t2]; destruct M2 as (j2 & -> & Hj2); simpl.
    + apply At_nil in Hj2 as ->. by rewrite Nat.eqb_refl.
    + apply At_lt in Hj2. by rewrite (proj2 (Nat.eqb_neq _ _)) by lia.
Qed.
End FastValues.

(** ** The fast path agrees with the oracle *)

Lemma validFastScalar_oracle src :
  bytes_ok src -> validFastScalar src = Ok (is_ok (validateOptions src (mkOptions 0))).
Proof.
  intros B. rewrite validFastScalar_ref by done. f_equal.
  destruct (validateOptions_ref src (mkOptions 0) B) as [E _]. rewrite E. clear E. simpl.
  set (M := effectiveDepth 0). change defaultMaxDepth with M.
  pose proof (ref_text_spec any_depth (fun d => d <=? M)%nat src) as R1.
  pose proof (ref_text_spec (fun d => d <=? M)%nat (fun d => d <=? M)%nat src) as R2.
  destruct (ref_text any_depth _ src) as [t|], (ref_text _ _ src) as [t'|]; try done; exfalso.
  - destruct (proj1 (R1 t) eq_refl) as [J D]. rewrite depth_ok_containers in D by lia.
    by specialize (proj2 (R2 t) (conj J D)).
  - destruct (proj1 (R2 t') eq_refl) as [J D]. rewrite <- depth_ok_containers in D by lia.
    by specialize (proj2 (R1 t') (conj J D)).
Qed.

(** C24: below the bitmap threshold, [Valid] answers exactly whether [Validate]
    accepts, for any bitmap engine, and none of its unsafe reads leaves the
    slice. *)
Theorem validFast_agrees (validBitmap : list Z -> bool * bool) (src : list Z) :
  bytes_ok src -> (length src < validBitmapMinBytes)%nat ->
  validFast validBitmap src = Ok (is_ok (Validate validBitmap src)).
Proof.
  intros B L. unfold validFast, Validate. rewrite (proj2 (Nat.leb_gt _ _) L).
  by apply validFastScalar_oracle.
Qed.

Lemma validFast_agrees_witness :
  validFast (fun _ => (false, false)) [0x5b; 0x31; 0x2c; 0x5d] = Ok false.
Proof.
  rewrite (validFast_agrees (fun _ => (false, false)) [0x5b; 0x31; 0x2c; 0x5d]).
  - vm_compute. reflexivity.
  - by repeat (constructor; [done|]).
  - apply Nat.ltb_lt. vm_compute. reflexivity.
Defined.

(** Both fast number scanners find the end that the reference scanner
    finds, reject what it rejects without reading past the slice, and tag as
    integers exactly the numbers without fraction and exponent. *)
Theorem scanNumberFastTagged_spec (src : list Z) (i : nat) (c : Z) :
  bytes_ok src -> src !! i = Some c ->
  scanNumberFastTaggedSWAR src i = scanNumberFastTagged src i /\
  match scanNumber src i with
  | Ok e => exists p, slice src i e = np_print p /\ np_ok p /\
              scanNumberFastTagged src i = Ok (e, np_integer p)
  | _ => exists k, scanNumberFastTagged src i = Err (Reject k)
  end.
Proof.
  intros B Hc.
  assert (H : At src i (c :: drop (S i) src)).
  { split; [by apply drop_S|]. apply lookup_lt_Some in Hc. lia. }
  pose proof (fastNumber_At src B (fastInt src) i c _ (fastInt_At src) H) as N1.
  pose proof (scanNumber_At src i _ H) as N3. split.
  - unfold scanNumberFastTagged, scanNumberFastTaggedSWAR.
    destruct (fastSign src i) as [j|e|] eqn:E; [|done..]. cbn [mbind res_bind].
    by rewrite (fastIntSWAR_eq src B i j).
  - unfold scanNumberFastTagged.
    destruct (ref_number (c :: drop (S i) src)) as [[p r]|] eqn:E; cbn [sim_at] in N3.
    + destruct N1 as (j & -> & Hj), N3 as (j' & -> & Hj'). rewrite (At_inj _ _ _ _ Hj Hj').
      apply ref_number_sound in E as [Hp E]. rewrite E in H. exists p.
      split_and!; [by eapply At_slice|done|done].
    + destruct N3 as (e & ->). done.
Qed.

(* -1.5, *)
Lemma scanNumberFastTagged_spec_witness :
  exists p, [0x2d; 0x31; 0x2e; 0x35] = np_print p /\ np_ok p /\
    scanNumberFastTagged [0x2d; 0x31; 0x2e; 0x35; 0x2c] 0 = Ok (4%nat, np_integer p).
Proof.
  apply (scanNumberFastTagged_spec [0x2d; 0x31; 0x2e; 0x35; 0x2c] 0 0x2d).
  - by repeat (constructor; [done|]).
  - reflexivity.
Defined.

(** The fast string scanner, with or without its short path, ends each
    string where the validator does, rejects what it rejects without reading
    past the slice, and its flag says whether the string has an escape. *)
Theorem scanJSONStringFast_spec (src : list Z) (i : nat) (short : bool) :
  bytes_ok src -> src !! i = Some 0x22 ->
  match parseString src i with
  | Ok e => scanJSONStringFast src i short = Ok (e, has_backslash (slice src (S i) (e - 1)))
  | Err _ => exists k, scanJSONStringFast src i short = Err (Reject k)
  | OutOfFuel => False
  end.
Proof.
  intros B Hc.
  assert (H : At src i (0x22 :: drop (S i) src)).
  { split; [by apply drop_S|]. apply lookup_lt_Some in Hc. lia. }
  pose proof (scanJSONStringFast_At src B i _ short H) as F. pose proof (parseString_At src B i _ H) as P.
  unfold bsim in F. unfold ref_string in P. rewrite expect_cons in P. cbn [mbind option_bind] in P.
  destruct (ref_body (drop (S i) src)) as [[body r]|] eqn:E; cbn [mbind option_bind sim_at] in P.
  - destruct P as (e & -> & He), F as (e' & -> & He'). rewrite (At_inj _ _ _ _ He' He).
    apply ref_body_spec in E as [_ E]. apply At_cons in H. rewrite E in H.
    pose proof (At_app _ _ _ _ H) as Hq.
    rewrite (At_slice src (S i) (e - 1) body (0x22 :: r) H); [done|].
    rewrite <- (At_inj _ _ _ _ (At_cons _ _ _ _ Hq) He). by rewrite Nat.sub_succ, Nat.sub_0_r.
  - destruct P as (x & ->). done.
Qed.

(* "a\n" *)
Lemma scanJSONStringFast_spec_witness :
  scanJSONStringFast [0x22; 0x61; 0x5c; 0x6e; 0x22] 0 true = Ok (5%nat, true).
Proof.
  apply (scanJSONStringFast_spec [0x22; 0x61; 0x5c; 0x6e; 0x22] 0 true).
  - by repeat (constructor; [done|]).
  - reflexivity.
Defined.
