(* ===== verification/Hamt.v ===== *)
(** * Hamt: the persistent key directory of store_hamt.go

    Models the hash trie that maps Store keys to locations.  Nodes are
    immutable and every mutation copies its route, so a pointer to a node or
    leaf chain is modelled by its value: a nil leaf pointer is the empty list
    and [next] is the tail.  Every operation descends one 5-bit level per step;
    thirteen levels exhaust a 64-bit hash, so [trieFuel] is always enough.
    The trie is proved to refine a finite map for every hash function. *)
From Stdlib Require Import ZArith Lia List Bool.
From stdpp Require Import base numbers list gmap.
From S2P Require Import Prelude.

Open Scope Z_scope.

(** ** The code *)

Definition storeTrieBits : nat := 5.
Definition storeKeyBucketShift : nat := 10.
Definition storeKeyLeafBucket : nat := 2.
Definition storeKeyBranchFactor : nat := 32.

Record storeLocation := mkLocation { chunk : Z; slot : Z }.

Record storeKeyLeaf := mkLeaf { lhash : Z; lkey : list Z; lloc : storeLocation }.

Inductive storeKeyNode :=
| Node (slots : list (option storeKeyNode * list storeKeyLeaf)).

Definition slots (n : storeKeyNode) : list (option storeKeyNode * list storeKeyLeaf) :=
  match n with Node s => s end.

Notation storeKeySlot := (option storeKeyNode * list storeKeyLeaf)%type.

Definition emptySlot : storeKeySlot := (None, []).
Definition zeroNode : storeKeyNode := Node (replicate storeKeyBranchFactor emptySlot).

(** The slots are a fixed array of 32, so an index below 32 is in range. *)
Definition slotAt (n : storeKeyNode) (i : nat) : storeKeySlot := default emptySlot (slots n !! i).
Definition setSlot (n : storeKeyNode) (i : nat) (s : storeKeySlot) : storeKeyNode :=
  Node (<[i := s]> (slots n)).

(** [(hash >> shift) & 31] *)
Definition slotIndex (hash : Z) (shift : nat) : nat :=
  Z.to_nat (Z.land (Z.shiftr hash (Z.of_nat shift)) 31).

(** Recursion bounded by the trie height; [OutOfFuel] is proved unreachable. *)
Notation trie_res := (res Empty_set).

Fixpoint lookupChain (chain : list storeKeyLeaf) (hash : Z) (key : list Z) : option storeLocation :=
  match chain with
  | [] => None
  | leaf :: next =>
      if (lhash leaf =? hash) && bool_decide (lkey leaf = key) then Some (lloc leaf)
      else lookupChain next hash key
  end.

Fixpoint lookupLoop (fuel : nat) (root : option storeKeyNode) (remaining hash : Z) (key : list Z)
    : trie_res (option storeLocation) :=
  match root with
  | None => Ok None
  | Some n =>
      match fuel with
      | O => OutOfFuel
      | S fuel =>
          let '(child, chain) := slotAt n (slotIndex remaining 0) in
          match lookupChain chain hash key with
          | Some loc => Ok (Some loc)
          | None => lookupLoop fuel child (Z.shiftr remaining 5) hash key
          end
      end
  end.

Definition trieFuel : nat := 13.

Definition storeKeyLookup (root : option storeKeyNode) (hash : Z) (key : list Z)
    : trie_res (option storeLocation) :=
  lookupLoop trieFuel root hash hash key.

Fixpoint storeLeafInsert (head : list storeKeyLeaf) (add : storeKeyLeaf) : list storeKeyLeaf :=
  match head with
  | [] => [add]
  | h :: next =>
      if bool_decide (lkey h = lkey add) then add :: next
      else h :: storeLeafInsert next add
  end.

Definition storeKeyLeafHasHash (chain : list storeKeyLeaf) (hash : Z) : bool :=
  existsb (fun leaf => lhash leaf =? hash) chain.

Definition storeKeyLeafCount (chain : list storeKeyLeaf) : nat :=
  Nat.min (length chain) storeKeyLeafBucket.

(** The loop that moves a chain, then [add], into a fresh child. *)
Fixpoint promote (insert : option storeKeyNode -> storeKeyLeaf -> trie_res storeKeyNode)
    (chain : list storeKeyLeaf) (add : storeKeyLeaf) (child : option storeKeyNode) : trie_res storeKeyNode :=
  match chain with
  | [] => insert child add
  | leaf :: next => c ← insert child leaf; promote insert next add (Some c)
  end.

Fixpoint storeKeyInsertAt (fuel : nat) (root : option storeKeyNode) (shift : nat) (add : storeKeyLeaf)
    : trie_res storeKeyNode :=
  match fuel with
  | O => OutOfFuel
  | S fuel =>
      let out := default zeroNode root in
      let i := slotIndex (lhash add) shift in
      let '(child, chain) := slotAt out i in
      match child with
      | Some c =>
          c' ← storeKeyInsertAt fuel (Some c) (shift + storeTrieBits) add;
          Ok (setSlot out i (Some c', chain))
      | None =>
          if bool_decide (chain = []) then Ok (setSlot out i (None, [add]))
          else if storeKeyLeafHasHash chain (lhash add) then
            Ok (setSlot out i (None, storeLeafInsert chain add))
          else if (storeKeyBucketShift <=? shift)%nat && (storeKeyLeafCount chain <? storeKeyLeafBucket)%nat then
            Ok (setSlot out i (None, storeLeafInsert chain add))
          else
            c ← promote (fun child leaf => storeKeyInsertAt fuel child (shift + storeTrieBits) leaf) chain add None;
            Ok (setSlot out i (Some c, []))
      end
  end.

Definition storeKeyInsert (root : option storeKeyNode) (hash : Z) (key : list Z) (loc : storeLocation)
    : trie_res storeKeyNode :=
  storeKeyInsertAt trieFuel root 0 (mkLeaf hash key loc).

Fixpoint storeLeafDelete (head : list storeKeyLeaf) (hash : Z) (key : list Z) : list storeKeyLeaf * bool :=
  match head with
  | [] => ([], false)
  | h :: next =>
      if (lhash h =? hash) && bool_decide (lkey h = key) then (next, true)
      else
        let '(next', changed) := storeLeafDelete next hash key in
        if negb changed then (head, false) else (h :: next', true)
  end.

Definition slotEmpty (s : storeKeySlot) : bool :=
  match s with (None, []) => true | _ => false end.
Definition storeKeyNodeEmpty (n : storeKeyNode) : bool := forallb slotEmpty (slots n).

(** [Some chain] is the Go result [(chain, true)]. *)
Fixpoint singletonLoop (l : list storeKeySlot) (one : list storeKeyLeaf) : option (list storeKeyLeaf) :=
  match l with
  | [] => if bool_decide (one = []) then None else Some one
  | (Some _, _) :: _ => None
  | (None, []) :: l => singletonLoop l one
  | (None, chain) :: l => if bool_decide (one = []) then singletonLoop l chain else None
  end.
Definition storeKeySingleton (n : option storeKeyNode) : option (list storeKeyLeaf) :=
  match n with None => None | Some n => singletonLoop (slots n) [] end.

(** Appends a chain to the fixed buffer; [None] when it does not fit. *)
Fixpoint collectChain (chain acc : list storeKeyLeaf) : option (list storeKeyLeaf) :=
  match chain with
  | [] => Some acc
  | leaf :: next =>
      if (length acc =? storeKeyLeafBucket)%nat then None else collectChain next (acc ++ [leaf])
  end.

(** The loop over the slots: the child of a slot first, then its chain. *)
Fixpoint collectSlots (collect : storeKeyNode -> list storeKeyLeaf -> trie_res (option (list storeKeyLeaf)))
    (l : list storeKeySlot) (acc : list storeKeyLeaf) : trie_res (option (list storeKeyLeaf)) :=
  match l with
  | [] => Ok (Some acc)
  | (child, chain) :: l =>
      r ← match child with Some c => collect c acc | None => Ok (Some acc) end;
      match r with
      | None => Ok None
      | Some acc =>
          match collectChain chain acc with
          | None => Ok None
          | Some acc => collectSlots collect l acc
          end
      end
  end.

(** [Ok None] is the Go result false. *)
Fixpoint storeKeyCollectLeaves (fuel : nat) (n : storeKeyNode) (acc : list storeKeyLeaf)
    : trie_res (option (list storeKeyLeaf)) :=
  match fuel with
  | O => OutOfFuel
  | S fuel =>
      collectSlots (storeKeyCollectLeaves fuel) (slots n) acc
  end.

Definition storeKeyNodeLeafBucket (fuel : nat) (n : option storeKeyNode) : trie_res (option (list storeKeyLeaf)) :=
  match n with
  | None => Ok None
  | Some n =>
      r ← storeKeyCollectLeaves fuel n [];
      Ok (match r with Some (x :: l) => Some (x :: l) | _ => None end)
  end.

(** Copies the node with one slot replaced; an empty copy becomes nil. *)
Definition finishDelete (n : storeKeyNode) (i : nat) (s : storeKeySlot) : option storeKeyNode * bool :=
  let out := setSlot n i s in
  if storeKeyNodeEmpty out then (None, true) else (Some out, true).

Fixpoint storeKeyDeleteAt (fuel : nat) (root : option storeKeyNode) (shift : nat) (hash : Z) (key : list Z)
    : trie_res (option storeKeyNode * bool) :=
  match root with
  | None => Ok (None, false)
  | Some n =>
      match fuel with
      | O => OutOfFuel
      | S fuel =>
          let i := slotIndex hash shift in
          let '(child, chain) := slotAt n i in
          match child with
          | Some c =>
              '(child, changed) ← storeKeyDeleteAt fuel (Some c) (shift + storeTrieBits) hash key;
              if negb changed then Ok (Some n, false)
              else
                bucket ← (if (storeKeyBucketShift <=? shift)%nat then storeKeyNodeLeafBucket fuel child
                          else Ok (storeKeySingleton child));
                match bucket with
                | Some leaf => Ok (finishDelete n i (None, leaf))
                | None => Ok (finishDelete n i (child, chain))
                end
          | None =>
              let '(chain', changed) := storeLeafDelete chain hash key in
              if negb changed then Ok (Some n, false) else Ok (finishDelete n i (None, chain'))
          end
      end
  end.

Definition storeKeyDelete (root : option storeKeyNode) (hash : Z) (key : list Z) : trie_res (option storeKeyNode) :=
  '(out, _) ← storeKeyDeleteAt trieFuel root 0 hash key; Ok out.

(** Three keys whose hashes share fifteen bits promote their bucket. *)
Example hamt_ex :
  (n ← storeKeyInsert None 7 [1] (mkLocation 1 1);
   n ← storeKeyInsert (Some n) (7 + 2 ^ 20) [2] (mkLocation 2 2);
   n ← storeKeyInsert (Some n) (7 + 2 ^ 30) [3] (mkLocation 3 3);
   n ← storeKeyDelete (Some n) 7 [1];
   a ← storeKeyLookup n (7 + 2 ^ 30) [3];
   b ← storeKeyLookup n 7 [1];
   Ok (a, b)) = Ok (Some (mkLocation 3 3), None).
Proof. vm_compute. reflexivity. Qed.

(** ** Paths through the trie *)

(** The low [5 * k] bits of a hash, which the first [k] levels consume. *)
Definition path (k : nat) (h : Z) : Z := h mod 2 ^ Z.of_nat (5 * k).

Lemma slotIndex_lt h s : (slotIndex h s < 32)%nat.
Proof.
  unfold slotIndex. change 31 with (Z.ones 5). rewrite Z.land_ones by lia.
  pose proof (Z.mod_pos_bound (Z.shiftr h (Z.of_nat s)) (2 ^ 5) ltac:(lia)). lia.
Qed.

Lemma path_step k h :
  0 <= h -> path (S k) h = path k h + 2 ^ Z.of_nat (5 * k) * Z.of_nat (slotIndex h (5 * k)).
Proof.
  intros Hh. unfold path, slotIndex. change 31 with (Z.ones 5). rewrite Z.land_ones by lia.
  rewrite Z.shiftr_div_pow2 by lia. set (m := 2 ^ Z.of_nat (5 * k)).
  assert (0 < m) by (unfold m; apply Z.pow_pos_nonneg; lia).
  replace (2 ^ Z.of_nat (5 * S k)) with (m * 2 ^ 5).
  - rewrite Z.rem_mul_r by lia. pose proof (Z.mod_pos_bound (h / m) (2 ^ 5) ltac:(lia)).
    rewrite Z2Nat.id by lia. done.
  - unfold m. rewrite <- Z.pow_add_r by lia. f_equal. lia.
Qed.

(** The path to a slot names its prefix and its index. *)
Lemma path_split k h p i :
  0 <= h -> 0 <= p < 2 ^ Z.of_nat (5 * k) ->
  (path (S k) h = p + 2 ^ Z.of_nat (5 * k) * Z.of_nat i <-> path k h = p /\ slotIndex h (5 * k) = i).
Proof.
  intros Hh Hp. rewrite path_step by done.
  assert (B : 0 <= path k h < 2 ^ Z.of_nat (5 * k)) by (apply Z.mod_pos_bound; lia).
  revert Hp B. generalize (2 ^ Z.of_nat (5 * k)) as m. intros m Hp B. split; [|by intros [-> ->]].
  intros E. assert (slotIndex h (5 * k) = i) as <- by nia. split; [lia|done].
Qed.

Lemma path_next k p i :
  0 <= p < 2 ^ Z.of_nat (5 * k) -> (i < 32)%nat ->
  0 <= p + 2 ^ Z.of_nat (5 * k) * Z.of_nat i < 2 ^ Z.of_nat (5 * S k).
Proof.
  intros Hp Hi. replace (2 ^ Z.of_nat (5 * S k)) with (2 ^ Z.of_nat (5 * k) * 32); [nia|].
  change 32 with (2 ^ 5). rewrite <- Z.pow_add_r by lia. f_equal. lia.
Qed.

Lemma path_full h : 0 <= h < 2 ^ 64 -> path 13 h = h.
Proof. intros. unfold path. apply Z.mod_small. change (Z.of_nat (5 * 13)) with 65. lia. Qed.

(** ** Well-formed tries *)

Section Trie.
Variable H : list Z -> Z.
Hypothesis H_range : forall k, 0 <= H k < 2 ^ 64.

(** A leaf carries the hash of its key and lies on the path of its slot. *)
Definition leaf_ok (k : nat) (p : Z) (l : storeKeyLeaf) : Prop :=
  lhash l = H (lkey l) /\ path k (lhash l) = p.

Definition chain_ok (k : nat) (p : Z) (chain : list storeKeyLeaf) : Prop :=
  Forall (leaf_ok k p) chain /\ NoDup (map lkey chain).

(** [wf k p n]: [n] sits at level [k] on path [p].  A slot holds a child or a
    chain, not both, and no node is empty. *)
Inductive wf : nat -> Z -> storeKeyNode -> Prop :=
| wf_node k p n :
    (k <= 12)%nat -> 0 <= p < 2 ^ Z.of_nat (5 * k) -> length (slots n) = 32%nat -> storeKeyNodeEmpty n = false ->
    (forall i child chain, slots n !! i = Some (child, chain) ->
       chain_ok (S k) (p + 2 ^ Z.of_nat (5 * k) * Z.of_nat i) chain) ->
    (forall i c chain, slots n !! i = Some (Some c, chain) ->
       chain = [] /\ wf (S k) (p + 2 ^ Z.of_nat (5 * k) * Z.of_nat i) c) ->
    wf k p n.

(** [mem l n]: the leaf [l] is stored below [n]. *)
Inductive mem (l : storeKeyLeaf) : storeKeyNode -> Prop :=
| mem_chain n i child chain : slots n !! i = Some (child, chain) -> l ∈ chain -> mem l n
| mem_child n i c chain : slots n !! i = Some (Some c, chain) -> mem l c -> mem l n.

Definition mem_opt (l : storeKeyLeaf) (r : option storeKeyNode) : Prop :=
  match r with Some n => mem l n | None => False end.
Definition wf_opt (k : nat) (p : Z) (r : option storeKeyNode) : Prop :=
  match r with Some n => wf k p n | None => True end.

(** Everything below one slot. *)
Definition mem_slot (l : storeKeyLeaf) (s : storeKeySlot) : Prop := mem_opt l s.1 \/ l ∈ s.2.

Lemma mem_slots l n : mem l n <-> exists i s, slots n !! i = Some s /\ mem_slot l s.
Proof.
  split.
  - intros [n' i child chain E M|n' i c chain E M]; eexists i, _; (split; [exact E|]); [by right|by left].
  - intros (i & [[c|] chain] & E & [M|M]); simpl in M; try done; eauto using mem_chain, mem_child.
Qed.

Lemma hash_nonneg k p l : leaf_ok k p l -> 0 <= lhash l < 2 ^ 64.
Proof. intros [-> _]. apply H_range. Qed.

(** A leaf lies below the slot its hash selects. *)
Lemma leaf_slot k p i l :
  0 <= p < 2 ^ Z.of_nat (5 * k) ->
  (leaf_ok (S k) (p + 2 ^ Z.of_nat (5 * k) * Z.of_nat i) l <->
   leaf_ok k p l /\ slotIndex (lhash l) (5 * k) = i).
Proof.
  intros Hp. unfold leaf_ok. split.
  - intros [E1 E2]. apply path_split in E2 as [? ?]; [done|rewrite E1; apply H_range|done].
  - intros [[E1 E2] Ei]. split; [done|]. apply path_split; [rewrite E1; apply H_range|done|done].
Qed.

Lemma mem_ok k p n l : wf k p n -> mem l n -> leaf_ok k p l.
Proof.
  intros W M. revert k p W. induction M as [n i child chain E M|n i c chain E M IH]; intros k p W;
    inversion W as [? ? ? _ Hp _ _ Hc Hw]; subst.
  - destruct (Hc _ _ _ E) as [F _]. rewrite Forall_forall in F. by eapply leaf_slot, F.
  - destruct (Hw _ _ _ E) as [_ Wc]. by eapply leaf_slot, IH.
Qed.

(** Members of a node are members of the slot selected by their hash. *)
Lemma mem_slot_ok k p n i s l :
  wf k p n -> slots n !! i = Some s -> mem_slot l s ->
  leaf_ok (S k) (p + 2 ^ Z.of_nat (5 * k) * Z.of_nat i) l.
Proof.
  intros W E M. inversion W as [? ? ? _ Hp _ _ Hc Hw]; subst. destruct s as [[c|] chain], M as [M|M]; simpl in M; try done.
  - destruct (Hw _ _ _ E) as [_ Wc]. by eapply mem_ok.
  - destruct (Hc _ _ _ E) as [F _]. rewrite Forall_forall in F. by apply F.
  - destruct (Hc _ _ _ E) as [F _]. rewrite Forall_forall in F. by apply F.
Qed.

Lemma mem_at k p n l :
  wf k p n -> leaf_ok k p l -> (mem l n <-> mem_slot l (slotAt n (slotIndex (lhash l) (5 * k)))).
Proof.
  intros W L. pose proof W as W0. inversion W as [? ? ? _ Hp Len _ Hc Hw]; subst. rewrite mem_slots. unfold slotAt.
  destruct (lookup_lt_is_Some_2 (slots n) (slotIndex (lhash l) (5 * k))) as [s Es].
  { rewrite Len. apply slotIndex_lt. }
  rewrite Es. simpl. split; [|by eauto].
  intros (i & s' & E & M). pose proof (mem_slot_ok _ _ _ _ _ _ W0 E M) as O.
  apply leaf_slot in O as [_ <-]; [|done]. by rewrite Es in E; injection E as ->.
Qed.

(** *** Lookup *)

Lemma lookupChain_spec chain h key :
  lookupChain chain h key = None -> forall l, l ∈ chain -> lhash l = h -> lkey l <> key.
Proof.
  induction chain as [|c chain IH]; simpl; [by intros _ l ?%elem_of_nil|].
  destruct ((lhash c =? h) && bool_decide (lkey c = key)) eqn:E; [done|]. intros N l [->|M]%elem_of_cons Eh Ek.
  - by rewrite (proj2 (Z.eqb_eq _ _) Eh), bool_decide_true in E.
  - by eapply IH.
Qed.

Lemma lookupChain_Some chain h key loc :
  lookupChain chain h key = Some loc -> exists l, l ∈ chain /\ lkey l = key /\ lloc l = loc.
Proof.
  induction chain as [|c chain IH]; simpl; [done|]. destruct ((lhash c =? h) && _) eqn:E.
  - intros [= <-]. apply andb_true_iff in E as [_ E]. apply bool_decide_eq_true in E.
    exists c. split; [left|done].
  - intros (l & M & E')%IH. exists l. split; [by right|done].
Qed.

Lemma shiftr_5 h k : Z.shiftr (Z.shiftr h (Z.of_nat (5 * k))) 5 = Z.shiftr h (Z.of_nat (5 * S k)).
Proof. rewrite Z.shiftr_shiftr by lia. f_equal. lia. Qed.

Lemma slotIndex_remaining h k : slotIndex (Z.shiftr h (Z.of_nat (5 * k))) 0 = slotIndex h (5 * k).
Proof. unfold slotIndex. by rewrite Z.shiftr_0_r. Qed.

(** Lookup finds the stored leaf of a key, at any level. *)
Lemma lookup_mem fuel k r key :
  wf_opt k (path k (H key)) r -> (13 <= k + fuel)%nat ->
  exists o, lookupLoop fuel r (Z.shiftr (H key) (Z.of_nat (5 * k))) (H key) key = Ok o /\
    (forall loc, o = Some loc -> exists l, mem_opt l r /\ lkey l = key /\ lloc l = loc) /\
    (o = None -> forall l, mem_opt l r -> lkey l <> key).
Proof.
  revert k r. induction fuel as [|fuel IH]; intros k [n|] W L; simpl in W.
  - inversion W; subst. lia.
  - exists None. split_and!; [done..|]. by intros _ l [].
  - pose proof W as W0. inversion W as [? ? ? Lk Hp Len _ Hc Hw]; subst. cbn [lookupLoop]. rewrite slotIndex_remaining, shiftr_5.
    set (i := slotIndex (H key) (5 * k)). assert (Li : (i < 32)%nat) by apply slotIndex_lt.
    destruct (lookup_lt_is_Some_2 (slots n) i) as [[child chain] Es]; [lia|]. unfold slotAt. rewrite Es.
    cbn [default from_option id]. destruct (lookupChain chain (H key) key) as [loc|] eqn:Ec.
    + eexists. split; [done|]. split; [|done]. intros loc' [= <-].
      apply lookupChain_Some in Ec as (l & M & E). exists l. split; [by eapply mem_chain|done].
    + assert (P' : path (S k) (H key) = path k (H key) + 2 ^ Z.of_nat (5 * k) * Z.of_nat i).
      { apply path_split; [apply H_range|done|done]. }
      destruct (IH (S k) child) as (o & Eo & H1 & H2); [|lia|].
      { destruct child as [c|]; [|done]. rewrite P'. by apply (Hw i c chain). }
      exists o. split; [done|]. split.
      * intros loc E. destruct (H1 loc E) as (l & M & E'). exists l. split; [|done].
        destruct child as [c|]; [|done]. by eapply mem_child.
      * intros E l M Ek. pose proof (mem_ok _ _ _ _ W0 M) as O.
        apply (mem_at _ _ _ _ W0 O) in M. destruct O as [O _]. rewrite O, Ek in M. fold i in M.
        unfold slotAt in M. rewrite Es in M. destruct M as [M|M]; simpl in M; [by apply (H2 E l)|].
        by eapply lookupChain_spec; [exact Ec|exact M|by rewrite O, Ek|].
  - exists None. split_and!; [done..|]. by intros _ l [].
Qed.

(** *** Replacing one slot *)

Definition slot_ok (k : nat) (p : Z) (i : nat) (s : storeKeySlot) : Prop :=
  let p' := p + 2 ^ Z.of_nat (5 * k) * Z.of_nat i in
  chain_ok (S k) p' s.2 /\ forall c, s.1 = Some c -> s.2 = [] /\ wf (S k) p' c.

(** Well-formed but possibly empty. *)
Definition pre (k : nat) (p : Z) (n : storeKeyNode) : Prop :=
  (k <= 12)%nat /\ 0 <= p < 2 ^ Z.of_nat (5 * k) /\ length (slots n) = 32%nat /\
  forall i s, slots n !! i = Some s -> slot_ok k p i s.

Lemma wf_pre k p n : wf k p n <-> pre k p n /\ storeKeyNodeEmpty n = false.
Proof.
  split.
  - intros W. inversion W as [? ? ? Lk Hp Len E Hc Hw]; subst. split; [|done].
    refine (conj Lk (conj Hp (conj Len _))). intros i [child chain] Es. split; [by eapply Hc|]. intros c. simpl. intros ->. by eapply Hw.
  - intros [(Lk & Hp & Len & Hs) E]. apply (wf_node k p n Lk Hp Len E).
    + intros i child chain Es. apply (Hs _ _ Es).
    + intros i c chain Es. exact (proj2 (Hs _ _ Es) c eq_refl).
Qed.

Lemma pre_zero k p : (k <= 12)%nat -> 0 <= p < 2 ^ Z.of_nat (5 * k) -> pre k p zeroNode.
Proof.
  intros Lk Hp. refine (conj Lk (conj Hp (conj eq_refl _))). intros i s [-> _]%lookup_replicate.
  split; [split; constructor|]. intros c [=].
Qed.

Lemma pre_slotAt k p n i : pre k p n -> (i < 32)%nat -> slots n !! i = Some (slotAt n i).
Proof.
  intros (_ & _ & Len & _) Li. unfold slotAt.
  destruct (lookup_lt_is_Some_2 (slots n) i) as [s ->]; [lia|]. done.
Qed.

Lemma pre_set k p n i s : pre k p n -> (i < 32)%nat -> slot_ok k p i s -> pre k p (setSlot n i s).
Proof.
  intros (Lk & Hp & Len & Hs) Li Ho. refine (conj Lk (conj Hp (conj _ _))); [simpl; by rewrite length_insert|].
  intros j s' E. simpl in E. apply list_lookup_insert_Some in E as [(<- & <- & _)|(_ & E)]; [done|by apply Hs].
Qed.

Lemma set_nonempty k p n i s :
  pre k p n -> (i < 32)%nat -> slotEmpty s = false -> storeKeyNodeEmpty (setSlot n i s) = false.
Proof.
  intros (_ & _ & Len & _) Li E. unfold storeKeyNodeEmpty, setSlot. simpl.
  apply not_true_iff_false. rewrite forallb_forall. intros F.
  assert (slotEmpty s = true); [|congruence]. apply F, list_elem_of_In, list_elem_of_lookup. exists i.
  apply list_lookup_insert_eq. lia.
Qed.

Lemma mem_set k p n i s l :
  pre k p n -> (i < 32)%nat ->
  (mem l (setSlot n i s) <-> mem_slot l s \/ exists j s', j <> i /\ slots n !! j = Some s' /\ mem_slot l s').
Proof.
  intros (_ & _ & Len & _) Li. rewrite mem_slots. simpl. split.
  - intros (j & s' & E & M). apply list_lookup_insert_Some in E as [(<- & <- & _)|(N & E)]; [by left|].
    right. exists j, s'. by split_and!.
  - intros [M|(j & s' & N & E & M)].
    + exists i, s. split; [apply list_lookup_insert_eq; lia|done].
    + exists j, s'. split; [by rewrite list_lookup_insert_ne|done].
Qed.

Lemma pre_mem_slot_ok k p n i s l :
  pre k p n -> slots n !! i = Some s -> mem_slot l s -> leaf_ok k p l /\ slotIndex (lhash l) (5 * k) = i.
Proof.
  intros (_ & Hp & _ & Hs) E M. apply leaf_slot; [done|]. destruct (Hs _ _ E) as [[F _] W].
  destruct M as [M|M]; [|rewrite Forall_forall in F; by apply F].
  destruct (s.1) as [c|]; [|done]. by eapply mem_ok; [apply W|].
Qed.

(** Replacing the slot selected by a key changes the members with that key only. *)
Lemma mem_update k p n key s (Q : storeKeyLeaf -> Prop) :
  pre k p n -> path k (H key) = p ->
  let i := slotIndex (H key) (5 * k) in
  (forall l, mem_slot l s <-> Q l \/ (mem_slot l (slotAt n i) /\ lkey l <> key)) ->
  forall l, mem l (setSlot n i s) <-> Q l \/ (mem l n /\ lkey l <> key).
Proof.
  intros Hn P i Hs l. assert (Li : (i < 32)%nat) by apply slotIndex_lt.
  rewrite (mem_set k p), Hs by done. rewrite (mem_slots l n). split.
  - intros [[?|[M N]]|(j & s' & N & E & M)]; [by left| |].
    + right. split; [|done]. exists i, (slotAt n i). split; [by eapply pre_slotAt|done].
    + right. split; [by eauto|]. destruct (pre_mem_slot_ok _ _ _ _ _ _ Hn E M) as [[O _] Ei].
      intros Ek. by rewrite O, Ek in Ei.
  - intros [?|[(j & s' & E & M) N]]; [by left; left|]. destruct (decide (j = i)) as [->|Nj].
    + left. right. rewrite (pre_slotAt _ _ _ _ Hn Li) in E. by injection E as ->.
    + right. by exists j, s'.
Qed.

(** *** Insertion *)

Lemma storeLeafInsert_spec chain add :
  NoDup (map lkey chain) ->
  (forall l, l ∈ storeLeafInsert chain add <-> l = add \/ (l ∈ chain /\ lkey l <> lkey add)) /\
  NoDup (map lkey (storeLeafInsert chain add)).
Proof.
  induction chain as [|h chain IH]; simpl; intros N.
  { split; [|repeat constructor; by intros ?%elem_of_nil]. intros l. rewrite list_elem_of_singleton.
    split; [by left|]. intros [?|[?%elem_of_nil _]]; done. }
  apply NoDup_cons in N as [Nh N]. destruct (IH N) as [IH1 IH2]. case_bool_decide as E.
  - split; [|by constructor; rewrite <- ?E]. intros l. rewrite !elem_of_cons. split.
    + intros [->|M]; [by left|]. right. split; [by right|]. intros El. apply Nh. rewrite E, <- El.
      by apply list_elem_of_fmap_2.
    + intros [->|[[->|M] Nl]]; [by left|done|by right].
  - split.
    + intros l. rewrite !elem_of_cons, IH1. split; [|by intuition].
      intros [->|[->|[M Nl]]]; [right; split; [by left|done]|by left|right; split; [by right|done]].
    + simpl. apply NoDup_cons. split; [|done]. intros (l & El & M)%list_elem_of_fmap.
      apply IH1 in M as [->|[M _]]; [done|]. apply Nh. rewrite El. by apply list_elem_of_fmap_2.
Qed.

Lemma storeLeafInsert_nonempty chain add : storeLeafInsert chain add <> [].
Proof. destruct chain as [|h chain]; simpl; [done|]. by case_bool_decide. Qed.

(** What insertion promises at level [k] with [fuel] steps. *)
Definition insert_ok (fuel k : nat) : Prop := forall p r add,
  wf_opt k p r -> leaf_ok k p add -> (k <= 12)%nat -> 0 <= p < 2 ^ Z.of_nat (5 * k) ->
  exists n, storeKeyInsertAt fuel r (5 * k) add = Ok n /\ wf k p n /\
    forall l, mem l n <-> l = add \/ (mem_opt l r /\ lkey l <> lkey add).

Lemma promote_spec fuel k p chain add child :
  insert_ok fuel k -> (k <= 12)%nat -> 0 <= p < 2 ^ Z.of_nat (5 * k) ->
  wf_opt k p child -> chain_ok k p chain -> leaf_ok k p add ->
  (forall l, l ∈ chain -> lkey l <> lkey add) ->
  (forall l, mem_opt l child -> lkey l <> lkey add /\ lkey l ∉ map lkey chain) ->
  exists c, promote (fun child leaf => storeKeyInsertAt fuel child (5 * k) leaf) chain add child = Ok c /\
    wf k p c /\ forall l, mem l c <-> l = add \/ l ∈ chain \/ mem_opt l child.
Proof.
  intros IH Lk Hp. revert child. induction chain as [|h chain IHc]; intros child W [F N] A D Dc; cbn [promote].
  - destruct (IH p child add W A Lk Hp) as (c & -> & Wc & M). exists c. split_and!; try done.
    intros l. rewrite M. split; [intros [?|[? ?]]; auto|].
    intros [?|[?%elem_of_nil|Ml]]; [by left|done|right; split; [done|by apply Dc]].
  - apply Forall_cons in F as [Fh F]. apply NoDup_cons in N as [Nh N].
    destruct (IH p child h W Fh Lk Hp) as (c & -> & Wc & M). cbn [mbind res_bind].
    destruct (IHc (Some c) Wc) as (c' & -> & Wc' & M'); try done.
    { intros l Ml. apply D. by right. }
    { intros l [->|[Ml _]]%M; [split; [apply D; left|done]|].
      destruct (Dc l Ml) as [D1 D2]. split; [done|]. intros El. apply D2. by right. }
    exists c'. split_and!; try done. intros l. rewrite M'. simpl. rewrite M, elem_of_cons. split.
    + intros [?|[?|[?|[? _]]]]; auto.
    + intros [?|[[?|?]|Ml]]; auto. right; right; right. split; [done|]. intros El.
      destruct (Dc l Ml) as [_ D2]. apply D2. rewrite El. left.
Qed.

(** At the last level a slot holds one hash only, so nothing is promoted. *)
Lemma last_level p chain add i :
  0 <= p < 2 ^ Z.of_nat (5 * 12) ->
  Forall (leaf_ok 13 (p + 2 ^ Z.of_nat (5 * 12) * Z.of_nat i)) chain -> chain <> [] ->
  leaf_ok 13 (p + 2 ^ Z.of_nat (5 * 12) * Z.of_nat i) add ->
  storeKeyLeafHasHash chain (lhash add) = true.
Proof.
  intros Hp F N A. destruct chain as [|h chain]; [done|]. apply Forall_cons in F as [Fh _].
  pose proof (hash_nonneg _ _ _ Fh). pose proof (hash_nonneg _ _ _ A).
  destruct Fh as [_ Eh], A as [_ Ea]. rewrite path_full in Eh, Ea by done. simpl.
  rewrite Eh, <- Ea. by rewrite Z.eqb_refl.
Qed.

Lemma insert_step fuel k : insert_ok fuel (S k) -> insert_ok (S fuel) k.
Proof.
  intros IH p r add W A Lk Hp. cbn [storeKeyInsertAt]. set (out := default zeroNode r).
  assert (Ho : pre k p out).
  { destruct r as [n|]; [by apply wf_pre in W as [? _]|by apply pre_zero]. }
  assert (Mo : forall l, mem l out <-> mem_opt l r).
  { intros l. destruct r as [n|]; [done|]. split; [|done]. simpl. intros M. apply mem_slots in M as (j & s & E & M).
    apply lookup_replicate in E as [-> _]. destruct M as [[]|M]; by apply elem_of_nil in M. }
  set (i := slotIndex (lhash add) (5 * k)). assert (Li : (i < 32)%nat) by apply slotIndex_lt.
  pose proof A as [EA PA]. set (p' := p + 2 ^ Z.of_nat (5 * k) * Z.of_nat i).
  assert (A' : leaf_ok (S k) p' add) by by apply leaf_slot.
  pose proof (path_next k p i Hp Li) as Hp'. fold p' in Hp'.
  pose proof (pre_slotAt _ _ _ _ Ho Li) as Es. pose proof (proj2 (proj2 (proj2 Ho)) _ _ Es) as [Sc Sw]. fold p' in Sc, Sw.
  assert (Upd : forall s, slotEmpty s = false -> slot_ok k p i s ->
    (forall l, mem_slot l s <-> l = add \/ (mem_slot l (slotAt out i) /\ lkey l <> lkey add)) ->
    exists n, Ok (setSlot out i s) = @Ok Empty_set _ n /\ wf k p n /\
      forall l, mem l n <-> l = add \/ (mem_opt l r /\ lkey l <> lkey add)).
  { intros s Ne So Ms. exists (setSlot out i s). split; [done|]. split.
    - apply wf_pre. split; [by apply pre_set|by eapply set_nonempty].
    - intros l. rewrite <- Mo. unfold i in *. rewrite EA in *.
      apply (mem_update k p out (lkey add) s (fun l => l = add)); [done..|]. exact Ms. }
  destruct (slotAt out i) as [[c|] chain] eqn:Eslot; cbn [fst snd] in *.
  - destruct (Sw c eq_refl) as [-> Wc]. replace (5 * k + storeTrieBits)%nat with (5 * S k)%nat by (unfold storeTrieBits; lia).
    assert (Lk' : (S k <= 12)%nat) by (inversion Wc; lia).
    destruct (IH p' (Some c) add Wc A' Lk' Hp') as (c' & -> & Wc' & M). cbn [mbind res_bind].
    apply Upd; [done| |].
    + split; [split; constructor|]. intros c2 [= <-]. done.
    + intros l. unfold mem_slot. simpl. rewrite M. simpl. set_solver.
  - assert (Chain : forall ch, ch <> [] -> (forall l, l ∈ ch <-> l = add \/ (l ∈ chain /\ lkey l <> lkey add)) ->
      NoDup (map lkey ch) -> exists n, Ok (setSlot out i (None, ch)) = @Ok Empty_set _ n /\ wf k p n /\
      forall l, mem l n <-> l = add \/ (mem_opt l r /\ lkey l <> lkey add)).
    { intros ch Nch Mch NDch. destruct Sc as [F _]. apply Upd; [by destruct ch| |].
      - split; [|done]. split; [|done]. apply Forall_forall. intros l [->|[Ml _]]%Mch; [done|].
        rewrite Forall_forall in F. by apply F.
      - intros l. unfold mem_slot. simpl. rewrite Mch. naive_solver. }
    case_bool_decide as Ech.
    { subst chain. apply Chain; [done| |repeat constructor; by intros ?%elem_of_nil].
      intros l. rewrite list_elem_of_singleton. split; [by left|]. intros [?|[?%elem_of_nil _]]; done. }
    destruct Sc as [F N]. destruct (storeLeafInsert_spec chain add N) as [I1 I2].
    destruct (storeKeyLeafHasHash chain (lhash add)) eqn:Eh;
      [by apply Chain; [apply storeLeafInsert_nonempty|..]|].
    destruct (_ && _); [by apply Chain; [apply storeLeafInsert_nonempty|..]|].
    assert (Lk' : (S k <= 12)%nat).
    { destruct (decide (k = 12%nat)) as [->|]; [|lia]. by rewrite (last_level p chain add i) in Eh. }
    assert (D : forall l, l ∈ chain -> lkey l <> lkey add).
    { intros l Ml El. rewrite Forall_forall in F. destruct (F l Ml) as [O _].
      apply not_true_iff_false in Eh. apply Eh, existsb_exists. exists l. split; [by apply list_elem_of_In|].
      apply Z.eqb_eq. by rewrite O, EA, El. }
    replace (5 * k + storeTrieBits)%nat with (5 * S k)%nat by (unfold storeTrieBits; lia).
    destruct (promote_spec fuel (S k) p' chain add None) as (c & -> & Wc & M); try done.
    cbn [mbind res_bind]. apply Upd; [done| |].
    + split; [split; constructor|]. intros c2 [= <-]. done.
    + intros l. unfold mem_slot. simpl. rewrite M. simpl. split; [|by naive_solver].
      intros [[?|[Ml|[]]]|?%elem_of_nil]; [by left| |done]. right. auto.
Qed.

Lemma insert_all fuel k : (13 <= k + fuel)%nat -> insert_ok fuel k.
Proof.
  revert k. induction fuel as [|fuel IH]; intros k L.
  - intros p r add _ _ Lk _. lia.
  - apply insert_step, IH. lia.
Qed.

(** *** Deletion *)

Lemma storeLeafDelete_spec chain key :
  Forall (fun l => lhash l = H (lkey l)) chain -> NoDup (map lkey chain) ->
  let '(chain', changed) := storeLeafDelete chain (H key) key in
  (forall l, l ∈ chain' <-> l ∈ chain /\ lkey l <> key) /\ NoDup (map lkey chain') /\
  (changed = false -> chain' = chain).
Proof.
  induction 1 as [|h chain Hh _ IH]; simpl; intros N.
  { split_and!; [|constructor|done]. intros l. split; [by intros ?%elem_of_nil|by intros [?%elem_of_nil _]]. }
  apply NoDup_cons in N as [Nh N]. specialize (IH N). destruct (decide (lkey h = key)) as [<-|Nk].
  - rewrite <- Hh, Z.eqb_refl, bool_decide_true by done. simpl. split_and!; [|done|done].
    intros l. rewrite elem_of_cons. split.
    + intros M. split; [by right|]. intros El. apply Nh. rewrite <- El. by apply list_elem_of_fmap_2.
    + intros [[->|M] ?]; done.
  - rewrite (bool_decide_false _ Nk), andb_false_r. destruct (storeLeafDelete chain (H key) key) as [chain' ch].
    destruct IH as (IH1 & IH2 & IH3). destruct ch; simpl.
    + split_and!; [|apply NoDup_cons; split; [|done]|done].
      * intros l. rewrite !elem_of_cons, IH1. naive_solver.
      * intros (l & El & [M _]%IH1)%list_elem_of_fmap. apply Nh. rewrite El. by apply list_elem_of_fmap_2.
    + rewrite (IH3 eq_refl) in IH1. split_and!; [|by apply NoDup_cons|done].
      intros l. rewrite !elem_of_cons. split; [|by intros [? _]].
      intros [->|M]; [split; [by left|done]|]. split; [by right|]. by apply IH1.
Qed.

Lemma collectChain_app chain acc acc' : collectChain chain acc = Some acc' -> acc' = acc ++ chain.
Proof.
  revert acc. induction chain as [|l chain IH]; simpl; intros acc E; [by injection E as <-; rewrite app_nil_r|].
  destruct (_ =? _)%nat; [done|]. apply IH in E. by rewrite <- app_assoc in E.
Qed.

(** A collected list: exactly the members described by [P], each key once. *)
Definition collects (P : storeKeyLeaf -> Prop) (ls : list storeKeyLeaf) : Prop :=
  (forall x, x ∈ ls <-> P x) /\ NoDup (map lkey ls).

Lemma collects_app P1 P2 ls1 ls2 :
  collects P1 ls1 -> collects P2 ls2 -> (forall x y, P1 x -> P2 y -> lkey x <> lkey y) ->
  collects (fun x => P1 x \/ P2 x) (ls1 ++ ls2).
Proof.
  intros [M1 N1] [M2 N2] D. split; [intros x; by rewrite elem_of_app, M1, M2|].
  rewrite map_app, NoDup_app. split_and!; [done| |done].
  intros key (x & -> & Mx)%list_elem_of_fmap (y & Ey & My)%list_elem_of_fmap.
  apply M1 in Mx. apply M2 in My. by apply (D x y).
Qed.

Definition collect_ok (fuel k : nat) : Prop := forall p n acc,
  wf k p n -> exists r, storeKeyCollectLeaves fuel n acc = Ok r /\
    forall acc', r = Some acc' -> exists ls, acc' = acc ++ ls /\ collects (fun x => mem x n) ls.

Lemma collectSlots_spec fuel k p l j acc :
  collect_ok fuel (S k) -> 0 <= p < 2 ^ Z.of_nat (5 * k) ->
  (forall i s, l !! i = Some s -> slot_ok k p (j + i) s) ->
  exists r, collectSlots (storeKeyCollectLeaves fuel) l acc = Ok r /\
    forall acc', r = Some acc' -> exists ls, acc' = acc ++ ls /\
      collects (fun x => exists i s, l !! i = Some s /\ mem_slot x s) ls.
Proof.
  intros IH Hp. revert j acc. induction l as [|[child chain] l IHl]; intros j acc Hs; cbn [collectSlots].
  { eexists. split; [done|]. intros acc' [= <-]. exists []. split; [by rewrite app_nil_r|].
    split; [|constructor]. intros x. split; [by intros ?%elem_of_nil|by intros (i & s & ? & _)]. }
  destruct (Hs 0%nat _ eq_refl) as [[F N] Wc]. rewrite Nat.add_0_r in *. cbn [fst snd] in *.
  assert (C1 : exists r, match child with Some c => storeKeyCollectLeaves fuel c acc | None => Ok (Some acc) end = Ok r /\
    forall acc', r = Some acc' -> exists ls, acc' = acc ++ ls /\ collects (fun x => mem_opt x child) ls).
  { destruct child as [c|]; [destruct (Wc c eq_refl) as [_ W]; by eapply IH|].
    eexists. split; [done|]. intros acc' [= <-]. exists []. split; [by rewrite app_nil_r|].
    split; [|constructor]. intros x. split; [by intros ?%elem_of_nil|done]. }
  destruct C1 as ([acc1|] & -> & C1); cbn [mbind res_bind]; [|by eexists].
  destruct (C1 acc1 eq_refl) as (ls1 & -> & L1). destruct (collectChain chain (acc ++ ls1)) as [acc2|] eqn:E2; [|by eexists].
  apply collectChain_app in E2 as ->. destruct (IHl (S j) ((acc ++ ls1) ++ chain)) as (r & -> & C3).
  { intros i s E. replace (S j + i)%nat with (j + S i)%nat by lia. by apply Hs. }
  eexists. split; [done|]. intros acc' ->. destruct (C3 acc' eq_refl) as (ls3 & -> & L3).
  exists (ls1 ++ chain ++ ls3). split; [by rewrite !app_assoc|].
  assert (Lh : collects (fun x => mem_slot x (child, chain)) (ls1 ++ chain)).
  { apply collects_app; [done|by split|]. intros x y Mx My. destruct child as [c|]; [|done].
    destruct (Wc c eq_refl) as [-> _]. by apply elem_of_nil in My. }
  pose proof (collects_app _ _ _ _ Lh L3) as L. destruct L as [M ND].
  { intros x y Mx (i & s & E & My) Exy.
    assert (Ox : leaf_ok k p x /\ slotIndex (lhash x) (5 * k) = j).
    { apply leaf_slot; [done|]. destruct Mx as [Mx|Mx]; simpl in Mx; [|rewrite Forall_forall in F; by apply F].
      destruct child as [c|]; [|done]. by eapply mem_ok; [apply Wc|]. }
    assert (Oy : leaf_ok k p y /\ slotIndex (lhash y) (5 * k) = (j + S i)%nat).
    { apply leaf_slot; [done|]. destruct (Hs (S i) s E) as [[Fy _] Wy]. destruct My as [My|My]; [|rewrite Forall_forall in Fy; by apply Fy].
      destruct (s.1) as [c|]; [|done]. by eapply mem_ok; [apply Wy|]. }
    destruct Ox as [[Hx _] Ix], Oy as [[Hy _] Iy]. rewrite Hx, Exy, <- Hy, Iy in Ix. lia. }
  split; [|by rewrite app_assoc]. intros x. rewrite app_assoc, M. split.
  - intros [Mx|(i & s & E & Mx)]; [by exists 0%nat, (child, chain)|by exists (S i), s].
  - intros ([|i] & s & E & Mx); [injection E as <-; by left|right; by exists i, s].
Qed.

Lemma collect_all fuel k : (13 <= k + fuel)%nat -> collect_ok fuel k.
Proof.
  revert k. induction fuel as [|fuel IH]; intros k L p n acc W.
  { inversion W; subst. lia. }
  apply wf_pre in W as [(_ & Hp & _ & Hs) _]. cbn [storeKeyCollectLeaves].
  destruct (collectSlots_spec fuel k p (slots n) 0 acc (IH (S k) ltac:(lia)) Hp Hs) as (r & -> & C).
  eexists. split; [done|]. intros acc' E. destruct (C acc' E) as (ls & -> & M & ND). exists ls. split; [done|].
  split; [|done]. intros x. by rewrite M, mem_slots.
Qed.

Lemma leafBucket_spec fuel k p r :
  wf_opt k p r -> (13 <= k + fuel)%nat ->
  exists o, storeKeyNodeLeafBucket fuel r = Ok o /\
    forall ch, o = Some ch -> ch <> [] /\ collects (fun x => mem_opt x r) ch.
Proof.
  intros W L. destruct r as [n|]; [|by eexists]. cbn [storeKeyNodeLeafBucket].
  destruct (collect_all fuel k L p n [] W) as (r & -> & C). cbn [mbind res_bind]. eexists. split; [done|].
  intros ch E. destruct r as [[|x l]|]; try done. injection E as <-. split; [done|].
  by destruct (C _ eq_refl) as (ls & -> & Hc).
Qed.

Lemma singletonLoop_spec l one ch :
  singletonLoop l one = Some ch ->
  ch <> [] /\ forall x, x ∈ ch <-> x ∈ one \/ exists i s, l !! i = Some s /\ mem_slot x s.
Proof.
  revert one. induction l as [|[[c|] chain] l IH]; intros one E; simpl in E; [|done|].
  { case_bool_decide; [done|]. injection E as <-. split; [done|]. intros x.
    split; [by left|]. by intros [?|(i & s & ? & _)]. }
  destruct chain as [|y chain].
  - destruct (IH _ E) as [N M]. split; [done|]. intros x. rewrite M. split.
    + intros [?|(i & s & Es & ?)]; [by left|]. right. by exists (S i), s.
    + intros [?|([|i] & s & Es & Mx)]; [by left| |right; by exists i, s].
      injection Es as <-. destruct Mx as [[]|Mx]. by apply elem_of_nil in Mx.
  - case_bool_decide as E1; [|done]. subst one. destruct (IH _ E) as [N M]. split; [done|]. intros x. rewrite M. split.
    + intros [?|(i & s & Es & ?)]; right; [exists 0%nat, (None, y :: chain); split; [done|by right]|by exists (S i), s].
    + intros [?%elem_of_nil|([|i] & s & Es & Mx)]; [done| |right; by exists i, s].
      injection Es as <-. destruct Mx as [[]|Mx]. by left.
Qed.

(** The collapsed chain has each key once: it is one chain of the child. *)
Lemma singleton_spec k p r ch :
  wf_opt k p r -> storeKeySingleton r = Some ch -> ch <> [] /\ collects (fun x => mem_opt x r) ch.
Proof.
  intros W E. destruct r as [n|]; [|done]. simpl in E.
  destruct (singletonLoop_spec _ _ _ E) as [N M]. split; [done|]. split.
  - intros x. rewrite M. cbn [mem_opt]. rewrite mem_slots. split; [by intros [?%elem_of_nil|?]|by right].
  - assert (G : forall l one, singletonLoop l one = Some ch -> NoDup (map lkey one) ->
      (forall i s, l !! i = Some s -> NoDup (map lkey s.2)) -> NoDup (map lkey ch)).
    { clear. induction l as [|[[c|] chain] l IH]; intros one E No Hs; simpl in E; [|done|].
      - case_bool_decide; [done|]. by injection E as <-.
      - pose proof (Hs 0%nat _ eq_refl) as H0. assert (Hs' : forall i s, l !! i = Some s -> NoDup (map lkey s.2))
          by (intros i; apply (Hs (S i))). destruct chain; [by eapply IH|].
        case_bool_decide; [|done]. by eapply IH. }
    apply (G _ _ E); [constructor|]. intros i s Es. apply wf_pre in W as [(_ & _ & _ & Hs) _].
    by destruct (Hs _ _ Es) as [[_ ?] _].
Qed.

Definition delete_ok (fuel k : nat) : Prop := forall r key,
  wf_opt k (path k (H key)) r ->
  exists r' ch, storeKeyDeleteAt fuel r (5 * k) (H key) key = Ok (r', ch) /\ wf_opt k (path k (H key)) r' /\
    (forall l, mem_opt l r' <-> mem_opt l r /\ lkey l <> key) /\ (ch = false -> r' = r).

Lemma finishDelete_spec k n key s :
  let p := path k (H key) in let i := slotIndex (H key) (5 * k) in
  pre k p n -> slot_ok k p i s ->
  (forall l, mem_slot l s <-> mem_slot l (slotAt n i) /\ lkey l <> key) ->
  let '(r', ch) := finishDelete n i s in
  ch = true /\ wf_opt k p r' /\ forall l, mem_opt l r' <-> mem l n /\ lkey l <> key.
Proof.
  intros p i Hn So Ms. assert (Li : (i < 32)%nat) by apply slotIndex_lt. unfold finishDelete.
  assert (M : forall l, mem l (setSlot n i s) <-> mem l n /\ lkey l <> key).
  { intros l. pose proof (mem_update k p n key s (fun _ => False) Hn eq_refl) as U. cbv zeta in U. fold i in U.
    rewrite U; [naive_solver|]. intros l'. rewrite Ms. naive_solver. }
  destruct (storeKeyNodeEmpty (setSlot n i s)) eqn:E.
  - split_and!; [done|done|]. intros l. rewrite <- M. split; [done|]. intros (j & s' & Es & Ml)%mem_slots. simpl.
    unfold storeKeyNodeEmpty in E. rewrite forallb_forall in E.
    assert (slotEmpty s' = true) as E' by (apply E, list_elem_of_In; by eapply list_elem_of_lookup_2).
    destruct s' as [[c|] [|x c']]; try done. destruct Ml as [[]|Ml]. by apply elem_of_nil in Ml.
  - split_and!; [done| |done]. apply wf_pre. split; [by apply pre_set|done].
Qed.

Lemma delete_step fuel k : (13 <= k + S fuel)%nat -> delete_ok fuel (S k) -> delete_ok (S fuel) k.
Proof.
  intros L IH r key W. set (p := path k (H key)) in *. destruct r as [n|].
  2:{ exists None, false. split_and!; [done|done| |done]. intros l. split; [done|by intros [? _]]. }
  cbn [storeKeyDeleteAt]. simpl in W. pose proof (proj1 (proj1 (wf_pre _ _ _) W)) as Hn.
  set (i := slotIndex (H key) (5 * k)). assert (Li : (i < 32)%nat) by apply slotIndex_lt.
  pose proof (pre_slotAt _ _ _ _ Hn Li) as Es. pose proof Hn as (Lk & Hp & _ & Hs).
  destruct (Hs _ _ Es) as [Sc Sw]. pose proof (finishDelete_spec k n key) as Fin. cbv zeta in Fin. fold p i in Fin.
  assert (P' : path (S k) (H key) = p + 2 ^ Z.of_nat (5 * k) * Z.of_nat i)
    by (apply path_split; [apply H_range|done|done]).
  assert (Done : forall s, slot_ok k p i s ->
    (forall l, mem_slot l s <-> mem_slot l (slotAt n i) /\ lkey l <> key) ->
    exists r' ch, @Ok Empty_set _ (finishDelete n i s) = Ok (r', ch) /\ wf_opt k p r' /\
      (forall l, mem_opt l r' <-> mem l n /\ lkey l <> key) /\ (ch = false -> r' = Some n)).
  { intros s So Ms. specialize (Fin s Hn So Ms). destruct (finishDelete n i s) as [r' ch].
    destruct Fin as (-> & Wr & Mr). by exists r', true. }
  assert (Same : (forall l, mem_slot l (slotAt n i) -> lkey l <> key) ->
    exists r' ch, @Ok Empty_set _ (Some n, false) = Ok (r', ch) /\ wf_opt k p r' /\
      (forall l, mem_opt l r' <-> mem l n /\ lkey l <> key) /\ (ch = false -> r' = Some n)).
  { intros D. exists (Some n), false. split_and!; [done..| |done]. intros l. split; [|by intros [? _]].
    simpl. intros M. split; [done|]. intros Ek. pose proof (mem_ok _ _ _ _ W M) as O.
    apply (mem_at _ _ _ _ W O) in M. destruct O as [O _]. rewrite O, Ek in M. by apply (D l M). }
  destruct (slotAt n i) as [[c|] chain]; cbn [fst snd] in *.
  - destruct (Sw c eq_refl) as [-> Wc]. replace (5 * k + storeTrieBits)%nat with (5 * S k)%nat by (unfold storeTrieBits; lia).
    destruct (IH (Some c) key) as (r' & ch & -> & Wr & Mr & Er); [by rewrite P'|]. cbn [mbind res_bind].
    rewrite P' in Wr. destruct ch; cbn [negb].
    2:{ rewrite (Er eq_refl) in Mr. apply Same. intros l [Ml|Ml]; [by apply Mr in Ml as [_ ?]|by apply elem_of_nil in Ml]. }
    assert (B : exists o, (if (storeKeyBucketShift <=? 5 * k)%nat then storeKeyNodeLeafBucket fuel r'
        else Ok (storeKeySingleton r')) = Ok o /\
        forall ch, o = Some ch -> ch <> [] /\ collects (fun x => mem_opt x r') ch).
    { destruct (_ <=? _)%nat; [eapply leafBucket_spec; [exact Wr|lia]|].
      eexists. split; [done|]. intros ch. by eapply singleton_spec. }
    destruct B as ([ch|] & -> & B); cbn [mbind res_bind]; apply Done.
    + destruct (B ch eq_refl) as (Nch & Mch & NDch). split; [|done]. split; [|done]. cbn [fst snd].
      apply Forall_forall. intros l Ml. apply Mch in Ml. destruct r' as [n'|]; [|done]. by eapply mem_ok.
    + destruct (B ch eq_refl) as (Nch & Mch & NDch). intros l. unfold mem_slot. simpl. rewrite Mch, Mr. simpl.
      rewrite elem_of_nil. naive_solver.
    + split; [split; constructor|]. cbn [fst snd]. intros c' ->. done.
    + intros l. unfold mem_slot. simpl. rewrite Mr. simpl. rewrite elem_of_nil. naive_solver.
  - destruct Sc as [F N]. pose proof (storeLeafDelete_spec chain key) as D.
    destruct (storeLeafDelete chain (H key) key) as [chain' ch].
    destruct D as (M & ND & E); [by eapply Forall_impl; [exact F|intros l [? _]]|done|]. destruct ch; cbn [negb].
    + apply Done.
      * split; [|done]. split; [|done]. cbn [snd]. apply Forall_forall. intros l [Ml _]%M.
        rewrite Forall_forall in F. by apply F.
      * intros l. unfold mem_slot. simpl. rewrite M. naive_solver.
    + rewrite (E eq_refl) in M. apply Same. intros l [[]|Ml]. by apply M in Ml as [_ ?].
Qed.

Lemma delete_all fuel k : (13 <= k + fuel)%nat -> delete_ok fuel k.
Proof.
  revert k. induction fuel as [|fuel IH]; intros k L.
  - intros [n|] key W; [simpl in W; inversion W; subst; lia|]. exists None, false.
    split_and!; [done|done| |done]. intros l. split; [done|by intros [? _]].
  - apply delete_step; [done|]. apply IH. lia.
Qed.
End Trie.

(** ** The trie refines a finite map *)

Section Refinement.
Variable H : list Z -> Z.
Hypothesis H_range : forall k, 0 <= H k < 2 ^ 64.

Definition refines (root : option storeKeyNode) (m : gmap (list Z) storeLocation) : Prop :=
  wf_opt H 0 0 root /\
  forall k loc, m !! k = Some loc <-> exists l, mem_opt l root /\ lkey l = k /\ lloc l = loc.

Lemma path_0 h : path 0 h = 0.
Proof. apply Z.mod_1_r. Qed.

Lemma refines_nil : refines None ∅.
Proof. split; [done|]. intros k loc. rewrite lookup_empty. split; [done|by intros (l & [] & _)]. Qed.

Lemma lookup_refines root m k : refines root m -> storeKeyLookup root (H k) k = Ok (m !! k).
Proof.
  intros [W M]. unfold storeKeyLookup, trieFuel.
  destruct (lookup_mem H H_range 13 0 root k) as (o & E & S & N); [by rewrite path_0|lia|].
  change (Z.of_nat (5 * 0)) with 0 in E. rewrite Z.shiftr_0_r in E. rewrite E. f_equal.
  destruct o as [loc|].
  - symmetry. by apply M, S.
  - symmetry. apply eq_None_not_Some. intros (loc & (l & Ml & Ek & _)%M). by apply (N eq_refl l).
Qed.

Lemma insert_refines root m k loc :
  refines root m ->
  exists n, storeKeyInsert root (H k) k loc = Ok n /\ refines (Some n) (<[k := loc]> m).
Proof.
  intros [W M]. unfold storeKeyInsert, trieFuel.
  destruct (insert_all H H_range 13 0 ltac:(lia) 0 root (mkLeaf (H k) k loc)) as (n & E & Wn & Mn);
    [done|split; [done|apply path_0]|lia|simpl; lia|].
  exists n. split; [exact E|]. split; [done|]. intros k' loc'. rewrite lookup_insert_Some, M. split.
  - intros [[<- <-]|[N (l & Ml & <- & <-)]].
    + eexists. split; [by apply Mn; left|done].
    + exists l. split; [|done]. apply Mn. right. simpl. done.
  - intros (l & [->|[Ml N]]%Mn & <- & <-); [by left|]. right. split; [done|]. by exists l.
Qed.

Lemma delete_refines root m k :
  refines root m ->
  exists r, storeKeyDelete root (H k) k = Ok r /\ refines r (delete k m).
Proof.
  intros [W M]. unfold storeKeyDelete, trieFuel.
  destruct (delete_all H H_range 13 0 ltac:(lia) root k) as (r & ch & E & Wr & Mr & _); [by rewrite path_0|].
  change (5 * 0)%nat with 0%nat in E. rewrite E. exists r. split; [done|]. rewrite path_0 in Wr. split; [done|].
  intros k' loc. rewrite lookup_delete_Some, M. split.
  - intros [N (l & Ml & <- & <-)]. exists l. split; [|done]. by apply Mr.
  - intros (l & [Ml N]%Mr & <- & <-). split; [done|]. by exists l.
Qed.

(** Every node below a well-formed one stores something. *)
Lemma wf_member k p n : wf H k p n -> exists l, mem l n.
Proof.
  assert (G : forall d k p n, (13 <= k + d)%nat -> wf H k p n -> exists l, mem l n); [|by apply (G 13%nat); lia].
  clear. induction d as [|d IH]; intros k p n L W; inversion W as [? ? ? Lk _ _ E _ Hw]; subst; [lia|].
  unfold storeKeyNodeEmpty in E.
  assert (exists i s, slots n !! i = Some s /\ slotEmpty s = false) as (i & [child chain] & Es & Ne).
  { clear IH Hw W. induction (slots n) as [|s l IHl]; [done|]. simpl in E. apply andb_false_iff in E as [E|E].
    - by exists 0%nat, s.
    - destruct (IHl E) as (i & s' & ? & ?). by exists (S i), s'. }
  destruct child as [c|].
  - destruct (Hw _ _ _ Es) as [_ Wc]. destruct (IH (S k) _ c ltac:(lia) Wc) as (l & Ml). exists l. by eapply mem_child.
  - destruct chain as [|l chain]; [done|]. exists l. eapply mem_chain; [exact Es|left].
Qed.

Lemma refines_empty root m : refines root m -> (root = None <-> m = ∅).
Proof.
  intros [W M]. split.
  - intros ->. apply map_empty. intros k. apply eq_None_not_Some. by intros (loc & (l & [] & _)%M).
  - intros ->. destruct root as [n|]; [|done]. destruct (wf_member 0 0 n W) as (l & Ml).
    assert ((∅ : gmap (list Z) storeLocation) !! lkey l = Some (lloc l)) as E by (apply M; by exists l).
    by rewrite lookup_empty in E.
Qed.

(** A history of directory mutations, on the trie and on the map. *)
Inductive directory_op := Put (k : list Z) (loc : storeLocation) | Remove (k : list Z).

Fixpoint run_trie (ops : list directory_op) (root : option storeKeyNode) : trie_res (option storeKeyNode) :=
  match ops with
  | [] => Ok root
  | Put k loc :: ops => n ← storeKeyInsert root (H k) k loc; run_trie ops (Some n)
  | Remove k :: ops => r ← storeKeyDelete root (H k) k; run_trie ops r
  end.

Fixpoint run_map (ops : list directory_op) (m : gmap (list Z) storeLocation) : gmap (list Z) storeLocation :=
  match ops with
  | [] => m
  | Put k loc :: ops => run_map ops (<[k := loc]> m)
  | Remove k :: ops => run_map ops (delete k m)
  end.

Lemma run_refines ops root m :
  refines root m -> exists r, run_trie ops root = Ok r /\ refines r (run_map ops m).
Proof.
  revert root m. induction ops as [|[k loc|k] ops IH]; intros root m R; simpl.
  - by exists root.
  - destruct (insert_refines root m k loc R) as (n & -> & Rn). by apply IH.
  - destruct (delete_refines root m k R) as (r & -> & Rr). by apply IH.
Qed.
End Refinement.

(** C26: for every hash function, including ones that collide, and every
    history of inserts, replacements and deletes from the empty directory, no
    operation runs past thirteen levels, a lookup returns exactly what a finite
    map with the same history holds, and the root is nil exactly when the
    directory is empty. *)
Theorem hamt_history (H : list Z -> Z) (ops : list directory_op) :
  (forall k, 0 <= H k < 2 ^ 64) ->
  exists root, run_trie H ops None = Ok root /\
    (forall k, storeKeyLookup root (H k) k = Ok (run_map ops ∅ !! k)) /\
    (root = None <-> run_map ops ∅ = ∅).
Proof.
  intros R. destruct (run_refines H R ops None ∅ (refines_nil H)) as (r & E & Rr).
  exists r. split; [done|]. split; [|by eapply refines_empty].
  intros k. by apply (lookup_refines H R).
Qed.

(** A constant hash sends every key to one chain. *)
Lemma hamt_history_witness :
  exists root, run_trie (fun _ => 7) [Put [1] (mkLocation 1 0); Put [2] (mkLocation 2 0); Remove [1]] None = Ok root /\
    storeKeyLookup root 7 [2] = Ok (Some (mkLocation 2 0)).
Proof.
  destruct (hamt_history (fun _ => 7) [Put [1] (mkLocation 1 0); Put [2] (mkLocation 2 0); Remove [1]])
    as (root & E & L & _).
  - intros k. lia.
  - exists root. split; [exact E|]. rewrite (L [2]). vm_compute. reflexivity.
Defined.

(** Inserting a key binds it and deleting it unbinds it, and neither
    changes what a lookup of any other key returns. *)
Theorem hamt_frame (H : list Z -> Z) (root : option storeKeyNode) (m : gmap (list Z) storeLocation)
    (k k' : list Z) (loc : storeLocation) :
  (forall k, 0 <= H k < 2 ^ 64) -> refines H root m -> k <> k' ->
  exists n r, storeKeyInsert root (H k) k loc = Ok n /\ storeKeyDelete root (H k) k = Ok r /\
    storeKeyLookup (Some n) (H k') k' = storeKeyLookup root (H k') k' /\
    storeKeyLookup r (H k') k' = storeKeyLookup root (H k') k' /\
    storeKeyLookup (Some n) (H k) k = Ok (Some loc) /\ storeKeyLookup r (H k) k = Ok None.
Proof.
  intros R Rm N. destruct (insert_refines H R root m k loc Rm) as (n & En & Rn).
  destruct (delete_refines H R root m k Rm) as (r & Er & Rr). exists n, r.
  rewrite !(lookup_refines H R _ _ _ Rn), !(lookup_refines H R _ _ _ Rr), (lookup_refines H R _ _ _ Rm).
  by rewrite lookup_insert_ne, lookup_delete_ne, lookup_insert_eq, lookup_delete_eq.
Qed.

Lemma hamt_frame_witness :
  exists n r, storeKeyInsert None 7 [1] (mkLocation 1 0) = Ok n /\ storeKeyDelete None 7 [1] = Ok r /\
    storeKeyLookup (Some n) 7 [1] = Ok (Some (mkLocation 1 0)).
Proof.
  destruct (hamt_frame (fun _ => 7) None ∅ [1] [2] (mkLocation 1 0)) as (n & r & E1 & E2 & _ & _ & E3 & _).
  - intros k. lia.
  - apply refines_nil.
  - discriminate.
  - exists n, r. split; [exact E1|]. split; [exact E2|exact E3].
Defined.
