(* ===== verification/Leases.v ===== *)
(** * Leases: snapshot leases and extent reclamation

    Models internal/storeio/generation_leases.go: the fixed lease table
    ([GenerationLeases]) and the bounded list of retired copy-on-write extents
    ([ExtentReclaimer]).  Each method holds its mutex for its whole body, so it
    is one atomic step; [AppendReusable] takes two mutexes in turn and is two
    steps, between which readers may run.  [Module Protocol] interleaves them
    the way FileStore does and proves that no reader can still reach an extent
    that was handed out for reuse. *)
From Stdlib Require Import ZArith Lia List Bool.
From stdpp Require Import base numbers list strings relations.
From S2P Require Import Prelude.

Open Scope Z_scope.

Definition maxUint64 : Z := 2 ^ 64 - 1.
Definition wrap64 (x : Z) : Z := x mod 2 ^ 64.

(** The sentinel errors; [ErrInvalidWrite] is wrapped with a detail. *)
Inductive lease_error :=
| ErrLeaseCapacity
| ErrGenerationLeasesClosed
| ErrLeasesActive
| ErrRetiredExtentCapacity
| ErrInvalidWrite (detail : string).

(** ** GenerationLeases *)

Definition leases_normalized (maxLeases : Z) : res lease_error nat :=
  let m := if maxLeases =? 0 then 1024 else maxLeases in
  if (m <? 1) || (2 ^ 20 <? m) then Err (ErrInvalidWrite "maximum leases") else Ok (Z.to_nat m).

Record generationLeaseSlot := mkSlot { generation : Z; token : Z; active : bool }.
Definition zeroSlot : generationLeaseSlot := mkSlot 0 0 false.

Record GenerationLeases := mkLeases {
  lslots : list generationLeaseSlot;
  lfree : list nat;
  lnext : Z;
  lclosing : bool;
  lclosed : bool;
}.

Definition NewGenerationLeases (maxLeases : Z) : res lease_error GenerationLeases :=
  n ← leases_normalized maxLeases;
  Ok (mkLeases (replicate n zeroSlot) (map (fun i => (n - 1 - i)%nat) (seq 0 n)) 0 false false).

(** The owner pointer is the table the operation is applied to; [lowner] says
    whether it is still set. *)
Record GenerationLease := mkLease { lowner : bool; lindex : nat; lgeneration : Z; ltoken : Z }.

(** [l.next++; if l.next == 0 { l.next++ }] on uint64. *)
Definition nextToken (next : Z) : Z :=
  let n := wrap64 (next + 1) in if n =? 0 then 1 else n.

Definition Acquire (gen : Z) (l : GenerationLeases) : res lease_error (GenerationLease * GenerationLeases) :=
  if lclosing l || lclosed l then Err ErrGenerationLeasesClosed
  else match last (lfree l) with
  | None => Err ErrLeaseCapacity
  | Some index =>
      let t := nextToken (lnext l) in
      Ok (mkLease true index gen t,
          mkLeases (<[index := mkSlot gen t true]> (lslots l)) (removelast (lfree l)) t
            (lclosing l) (lclosed l))
  end.

Definition release (index : nat) (tok : Z) (l : GenerationLeases) : GenerationLeases :=
  match lslots l !! index with
  | None => l
  | Some s =>
      if active s && (token s =? tok) then
        mkLeases (<[index := zeroSlot]> (lslots l)) (lfree l ++ [index]) (lnext l) (lclosing l) (lclosed l)
      else l
  end.

Definition Release (x : GenerationLease) (l : GenerationLeases) : GenerationLease * GenerationLeases :=
  if negb (lowner x) then (x, l)
  else (mkLease false (lindex x) 0 0, release (lindex x) (ltoken x) l).

Definition Generation (x : GenerationLease) : Z := if lowner x then lgeneration x else 0.

Definition generationSuccessor (gen : Z) : Z := if gen =? maxUint64 then gen else gen + 1.

Definition Minimum (current : Z) (l : GenerationLeases) : Z :=
  fold_left (fun m s => if active s && (generation s <? m) then generation s else m)
    (lslots l) (generationSuccessor current).

Record GenerationLeaseStats := mkLeaseStats { Capacity : Z; Active : Z; MinimumGeneration : Z }.

Definition leases_Stats (current : Z) (l : GenerationLeases) : GenerationLeaseStats :=
  fold_left (fun st s =>
      if active s then
        mkLeaseStats (Capacity st) (Active st + 1)
          (if generation s <? MinimumGeneration st then generation s else MinimumGeneration st)
      else st)
    (lslots l) (mkLeaseStats (Z.of_nat (length (lslots l))) 0 (generationSuccessor current)).

(** The error, if any, and the table. *)
Definition leases_Close (l : GenerationLeases) : option lease_error * GenerationLeases :=
  if lclosed l then (None, l)
  else
    let l := mkLeases (lslots l) (lfree l) (lnext l) true (lclosed l) in
    if negb (length (lfree l) =? length (lslots l))%nat then (Some ErrLeasesActive, l)
    else (None, mkLeases (lslots l) (lfree l) (lnext l) true true).

(** ** ExtentReclaimer *)

Record FreeExtent := mkExtent { Offset : Z; Length : Z; RetiredGeneration : Z }.

Record ExtentReclaimer := mkReclaimer { pending : list FreeExtent; limit : nat }.

Definition reclaimer_normalized (maxRetired : Z) : res lease_error nat :=
  let m := if maxRetired =? 0 then 2 ^ 16 else maxRetired in
  if (m <? 1) || (2 ^ 24 <? m) then Err (ErrInvalidWrite "maximum retired extents") else Ok (Z.to_nat m).

(** The lease table is passed to the methods that read it. *)
Definition NewExtentReclaimer (maxRetired : Z) : res lease_error ExtentReclaimer :=
  n ← reclaimer_normalized maxRetired; Ok (mkReclaimer [] n).

(** [a.Offset < bEnd && b.Offset < aEnd] with wrapping ends. *)
Definition overlaps (a b : FreeExtent) : bool :=
  (Offset a <? wrap64 (Offset b + Length b)) && (Offset b <? wrap64 (Offset a + Length a)).

Definition badShape (e : FreeExtent) : bool :=
  (Offset e =? 0) || (Length e =? 0) || (RetiredGeneration e =? 0) || (maxUint64 - Length e <? Offset e).

(** The loop over [extents]; [seen] is [extents[:i]]. *)
Fixpoint checkExtents (pend seen rest : list FreeExtent) : option lease_error :=
  match rest with
  | [] => None
  | e :: rest =>
      if badShape e then Some (ErrInvalidWrite "retired extent")
      else if existsb (overlaps e) pend then Some (ErrInvalidWrite "overlapping retired extent")
      else if existsb (overlaps e) seen then Some (ErrInvalidWrite "overlapping retired extent")
      else checkExtents pend (seen ++ [e]) rest
  end.

Definition RetireBatch (extents : list FreeExtent) (r : ExtentReclaimer) : option lease_error * ExtentReclaimer :=
  if (limit r - length (pending r) <? length extents)%nat then (Some ErrRetiredExtentCapacity, r)
  else match checkExtents (pending r) [] extents with
  | Some err => (Some err, r)
  | None => (None, mkReclaimer (pending r ++ extents) (limit r))
  end.

Definition Retire (e : FreeExtent) (r : ExtentReclaimer) : option lease_error * ExtentReclaimer :=
  RetireBatch [e] r.

(** The first index of the tail that has generation [gen] throughout. *)
Fixpoint tailStart (gen : Z) (pend : list FreeExtent) (first : nat) : nat :=
  match first with
  | O => O
  | S f =>
      match pend !! f with
      | Some e => if RetiredGeneration e =? gen then tailStart gen pend f else S f
      | None => S f
      end
  end.

Definition CancelRetiredGeneration (gen : Z) (r : ExtentReclaimer) : option lease_error * ExtentReclaimer :=
  if gen =? 0 then (Some (ErrInvalidWrite "retired generation"), r)
  else
    let first := tailStart gen (pending r) (length (pending r)) in
    if existsb (fun e => RetiredGeneration e =? gen) (take first (pending r))
    then (Some (ErrInvalidWrite "non-tail retired generation"), r)
    else (None, mkReclaimer (take first (pending r)) (limit r)).

(** The two halves of [AppendReusable]: the floor, then the sweep. *)
Definition reclaimFloor (current oldestRecovery : Z) (l : GenerationLeases) : Z :=
  Z.min (Minimum current l) oldestRecovery.

Definition sweep (floor : Z) (dst : list FreeExtent) (r : ExtentReclaimer) : list FreeExtent * ExtentReclaimer :=
  fold_left (fun '(dst, r) e =>
      if RetiredGeneration e <? floor then (dst ++ [e], r)
      else (dst, mkReclaimer (pending r ++ [e]) (limit r)))
    (pending r) (dst, mkReclaimer [] (limit r)).

Definition AppendReusable (dst : list FreeExtent) (current oldestRecovery : Z) (l : GenerationLeases)
    (r : ExtentReclaimer) : list FreeExtent * ExtentReclaimer :=
  sweep (reclaimFloor current oldestRecovery l) dst r.

Record ExtentReclaimerStats := mkReclaimerStats {
  RCapacity : Z; Pending : Z; PendingBytes : Z; OldestRetired : Z }.

Definition reclaimer_Stats (r : ExtentReclaimer) : ExtentReclaimerStats :=
  fold_left (fun st e =>
      mkReclaimerStats (RCapacity st) (Pending st) (wrap64 (PendingBytes st + Length e))
        (if (OldestRetired st =? 0) || (RetiredGeneration e <? OldestRetired st)
         then RetiredGeneration e else OldestRetired st))
    (pending r) (mkReclaimerStats (Z.of_nat (limit r)) (Z.of_nat (length (pending r))) 0 0).

Example leases_ex :
  (l ← NewGenerationLeases 2;
   '(a, l) ← Acquire 5 l;
   '(b, l) ← Acquire 7 l;
   let '(_, l1) := Release a l in
   Ok (Minimum 9 l, Minimum 9 l1, match Acquire 1 l with Err e => Some e | _ => None end))
  = Ok (5, 7, Some ErrLeaseCapacity).
Proof. reflexivity. Qed.

(** ** The lease table *)

(** The free list holds exactly the inactive slots, each once. *)
Definition leases_wf (l : GenerationLeases) : Prop :=
  NoDup (lfree l) /\
  forall i, i ∈ lfree l <-> exists s, lslots l !! i = Some s /\ active s = false.

Inductive lease_step (l : GenerationLeases) : GenerationLeases -> Prop :=
| step_acquire gen x l' : Acquire gen l = Ok (x, l') -> lease_step l l'
| step_release i t : lease_step l (release i t l)
| step_close : lease_step l (leases_Close l).2.

Lemma last_split {A} (l : list A) x : last l = Some x -> l = removelast l ++ [x].
Proof.
  intros E. apply last_Some in E as [l' ->]. by rewrite removelast_last.
Qed.

Lemma Acquire_wf gen l x l' :
  leases_wf l -> Acquire gen l = Ok (x, l') ->
  leases_wf l' /\ length (lslots l') = length (lslots l) /\
  (exists s, lslots l !! lindex x = Some s /\ active s = false) /\
  lslots l' = <[lindex x := mkSlot gen (ltoken x) true]> (lslots l) /\
  lgeneration x = gen /\ ltoken x = lnext l'.
Proof.
  intros [N F] E. unfold Acquire in E. destruct (lclosing l || lclosed l); [done|].
  destruct (last (lfree l)) as [i|] eqn:El; [|done]. injection E as <- <-. cbn [lslots lfree lindex ltoken lgeneration lnext].
  apply last_split in El. set (f := removelast (lfree l)) in *. clearbody f. rewrite El in N, F.
  apply NoDup_app in N as (Nf & D & _).
  assert (Fi : exists s, lslots l !! i = Some s /\ active s = false) by (apply F, elem_of_app; right; left).
  split_and!; [|by rewrite length_insert|done|done|done|done]. split; [done|]. simpl. intros j.
  destruct (decide (j = i)) as [->|Nj].
  - split; [intros Mi; by destruct (D i Mi); left|]. destruct Fi as (s & Es & _).
    rewrite list_lookup_insert_eq by (by eapply lookup_lt_Some). by intros (s' & [= <-] & ?).
  - rewrite list_lookup_insert_ne by done. rewrite <- F. rewrite elem_of_app, list_elem_of_singleton. naive_solver.
Qed.

Lemma release_wf i t l : leases_wf l -> leases_wf (release i t l) /\ length (lslots (release i t l)) = length (lslots l).
Proof.
  intros [N F]. unfold release. destruct (lslots l !! i) as [s|] eqn:Es; [|done].
  destruct (active s && (token s =? t)) eqn:Ea; [|done]. apply andb_true_iff in Ea as [Ea _].
  simpl. rewrite length_insert. split; [|done]. split; simpl.
  - apply NoDup_app. split_and!; [done| |repeat constructor; by intros ?%elem_of_nil].
    intros j Mj ->%list_elem_of_singleton. apply F in Mj as (s' & Es' & Ea'). congruence.
  - intros j. rewrite elem_of_app, list_elem_of_singleton. destruct (decide (j = i)) as [->|Nj].
    + rewrite list_lookup_insert_eq by (by eapply lookup_lt_Some). split; [by eexists|by right].
    + rewrite list_lookup_insert_ne by done. rewrite <- F. naive_solver.
Qed.

Lemma Close_slots l : lslots (leases_Close l).2 = lslots l /\ lfree (leases_Close l).2 = lfree l.
Proof. unfold leases_Close. destruct (lclosed l); [done|]. simpl. by destruct (negb _). Qed.

Lemma New_wf n l : NewGenerationLeases n = Ok l -> leases_wf l.
Proof.
  unfold NewGenerationLeases. destruct (leases_normalized n) as [m|e|]; [|done..]. intros [= <-]. split; simpl.
  - apply NoDup_fmap_2_strong; [|apply NoDup_seq]. intros x y Hx%elem_of_seq Hy%elem_of_seq E. lia.
  - intros i. split.
    + intros (j & -> & Hj%elem_of_seq)%list_elem_of_fmap. exists zeroSlot. split; [|done].
      apply lookup_replicate. split; [done|lia].
    + intros (s & [-> L]%lookup_replicate & _). apply list_elem_of_fmap. exists (m - 1 - i)%nat.
      split; [lia|]. apply elem_of_seq. lia.
Qed.

Lemma lease_step_wf l l' : leases_wf l -> lease_step l l' -> leases_wf l' /\ length (lslots l') = length (lslots l).
Proof.
  intros W [gen x l'' E|i t|].
  - by destruct (Acquire_wf _ _ _ _ W E) as (? & ? & _).
  - by apply release_wf.
  - destruct (Close_slots l) as [E1 E2]. unfold leases_wf. by rewrite E1, E2.
Qed.

Lemma lease_steps_wf l l' : leases_wf l -> rtc lease_step l l' -> leases_wf l' /\ length (lslots l') = length (lslots l).
Proof.
  intros W R. induction R as [|l l1 l' S _ IH]; [done|].
  destruct (lease_step_wf _ _ W S) as [W1 L1]. destruct (IH W1) as [W' L']. split; [done|lia].
Qed.

(** A full free list means that no slot is active, and an empty one that all are. *)
Lemma free_full l :
  leases_wf l ->
  (length (lfree l) = length (lslots l) <-> forall i s, lslots l !! i = Some s -> active s = false).
Proof.
  intros [N F]. set (n := length (lslots l)).
  assert (Sub : lfree l ⊆+ seq 0 n).
  { apply NoDup_submseteq; [done|]. intros i (s & Es & _)%F. apply elem_of_seq.
    apply lookup_lt_Some in Es. fold n in Es. lia. }
  split.
  - intros E i s Es. assert (P : lfree l ≡ₚ seq 0 n).
    { apply submseteq_length_Permutation; [done|]. rewrite length_seq. lia. }
    assert (Mi : i ∈ lfree l).
    { rewrite P. apply elem_of_seq. apply lookup_lt_Some in Es. fold n in Es. lia. }
    apply F in Mi as (s' & Es' & Ea). congruence.
  - intros A. rewrite <- (length_seq n 0) at 1. apply Permutation_length, NoDup_Permutation; [done|apply NoDup_seq|].
    intros i. rewrite F, elem_of_seq. split.
    + intros (s & Es & _). apply lookup_lt_Some in Es. fold n in Es. lia.
    + intros Li. destruct (lookup_lt_is_Some_2 (lslots l) i) as [s Es]; [fold n; lia|]. exists s. split; [done|by eapply A].
Qed.

Lemma free_empty l :
  leases_wf l -> (last (lfree l) = None <-> forall i s, lslots l !! i = Some s -> active s = true).
Proof.
  intros [N F]. rewrite last_None. split.
  - intros E i s Es. apply not_false_iff_true. intros Ea.
    assert (i ∈ lfree l) as Mi by (apply F; by exists s). rewrite E in Mi. by apply elem_of_nil in Mi.
  - intros A. destruct (lfree l) as [|i f] eqn:E; [done|].
    assert (i ∈ i :: f) as Mi by left. apply F in Mi as (s & Es & Ea). by rewrite (A _ _ Es) in Ea.
Qed.

Lemma Minimum_spec current l :
  Minimum current l <= generationSuccessor current /\
  (forall i s, lslots l !! i = Some s -> active s = true -> Minimum current l <= generation s) /\
  (Minimum current l = generationSuccessor current \/
   exists i s, lslots l !! i = Some s /\ active s = true /\ Minimum current l = generation s).
Proof.
  unfold Minimum. induction (lslots l) as [|s ss IH] using rev_ind; [split_and!; [done|done|by left]|].
  rewrite fold_left_app. cbn [fold_left]. destruct IH as (I1 & I2 & I3). set (m := fold_left _ ss _) in *.
  assert (Old : forall i s', (ss ++ [s]) !! i = Some s' -> ss !! i = Some s' \/ s' = s).
  { intros i s' [?|[_ E]]%lookup_app_Some; [by left|]. right.
    destruct (i - length ss)%nat; simpl in E; [by injection E|done]. }
  assert (New : (ss ++ [s]) !! length ss = Some s) by (rewrite lookup_app_r, Nat.sub_diag by lia; done).
  destruct (active s && (generation s <? m)) eqn:E.
  - apply andb_true_iff in E as [Ea Em]. apply Z.ltb_lt in Em. split_and!; [lia| |].
    + intros i s' [Es'| ->]%Old Ea'; [specialize (I2 i s' Es' Ea'); lia|lia].
    + right. by exists (length ss), s.
  - split_and!; [done| |].
    + intros i s' [Es'| ->]%Old Ea'; [by eapply I2|]. rewrite Ea' in E. simpl in E. lia.
    + destruct I3 as [->|(i & s' & Es' & Ea' & Em)]; [by left|]. right. exists i, s'.
      split; [by apply lookup_app_l_Some|done].
Qed.

(** From a fresh table, however acquisitions, releases (also stale or
    repeated ones) and closes interleave: the table never grows, a slot is
    never handed out while it is active, acquisition fails for capacity only
    when every slot is active, and close succeeds only when none is. *)
Theorem leases_table_safe (maxLeases : Z) (l0 l : GenerationLeases) :
  NewGenerationLeases maxLeases = Ok l0 -> rtc lease_step l0 l ->
  length (lslots l) = length (lslots l0) /\
  (forall gen x l', Acquire gen l = Ok (x, l') ->
     (exists s, lslots l !! lindex x = Some s /\ active s = false) /\
     lslots l' !! lindex x = Some (mkSlot gen (ltoken x) true) /\
     forall j, j <> lindex x -> lslots l' !! j = lslots l !! j) /\
  (forall gen, Acquire gen l = Err ErrLeaseCapacity ->
     forall i s, lslots l !! i = Some s -> active s = true) /\
  (lclosed l = false -> ((leases_Close l).1 = None <-> forall i s, lslots l !! i = Some s -> active s = false)).
Proof.
  intros E0 R. destruct (lease_steps_wf _ _ (New_wf _ _ E0) R) as [W L]. split_and!; [done| | |].
  - intros gen x l' E. destruct (Acquire_wf _ _ _ _ W E) as (_ & _ & (s & Es & Ea) & Esl & _ & _). rewrite Esl.
    split; [by exists s|]. split.
    + apply list_lookup_insert_eq. by eapply lookup_lt_Some.
    + intros j Nj. by apply list_lookup_insert_ne.
  - intros gen E. apply (free_empty l W). unfold Acquire in E. destruct (lclosing l || lclosed l); [done|].
    by destruct (last (lfree l)).
  - intros Nc. rewrite <- (free_full l W). unfold leases_Close. rewrite Nc. cbn [lfree lslots].
    destruct (Nat.eqb_spec (length (lfree l)) (length (lslots l))); by simpl.
Qed.

Lemma leases_table_safe_witness :
  Acquire 7 (mkLeases [mkSlot 5 1 true] [] 1 false false) = Err ErrLeaseCapacity /\
  forall i s, lslots (mkLeases [mkSlot 5 1 true] [] 1 false false) !! i = Some s -> active s = true.
Proof.
  split; [reflexivity|].
  refine (proj1 (proj2 (proj2 (leases_table_safe 1 (mkLeases [zeroSlot] [0%nat] 0 false false)
            (mkLeases [mkSlot 5 1 true] [] 1 false false) _ _))) 7 _).
  - reflexivity.
  - eapply rtc_once, (step_acquire _ 5 (mkLease true 0 5 1)). reflexivity.
  - reflexivity.
Defined.

(** A lease protects its generation until it is released, and releasing it
    twice, or after its slot was handed to another reader, changes nothing:
    tokens are not reused before the counter has wrapped. *)
Theorem Release_idempotent (l l1 l2 : GenerationLeases) (gen gen' : Z) (x y : GenerationLease) :
  leases_wf l -> 0 <= lnext l < maxUint64 - 1 ->
  Acquire gen l = Ok (x, l1) ->
  let '(x', lr) := Release x l1 in
  Release x' lr = (x', lr) /\ Minimum gen l1 <= gen /\
  (Acquire gen' lr = Ok (y, l2) -> release (lindex x) (ltoken x) l2 = l2).
Proof.
  intros W Hn E. destruct (Acquire_wf _ _ _ _ W E) as (W1 & L1 & (s & Es & Ea) & Esl & Eg & Et).
  assert (Tx : ltoken x = lnext l + 1).
  { unfold Acquire in E. destruct (lclosing l || lclosed l); [done|]. destruct (last (lfree l)); [|done].
    injection E as <- _. simpl. unfold nextToken, wrap64, maxUint64 in *. rewrite Z.mod_small by lia.
    by replace (lnext l + 1 =? 0) with false by lia. }
  assert (Own : lowner x = true).
  { unfold Acquire in E. destruct (lclosing l || lclosed l); [done|]. destruct (last (lfree l)); [|done].
    by injection E as <- _. }
  unfold Release. rewrite Own. cbn [negb lowner]. split; [done|]. split.
  - apply (proj1 (proj2 (Minimum_spec gen l1)) (lindex x) (mkSlot gen (ltoken x) true)); [|done].
    rewrite Esl. apply list_lookup_insert_eq. by eapply lookup_lt_Some.
  - intros E2. destruct (release_wf (lindex x) (ltoken x) l1 W1) as [Wr _].
    destruct (Acquire_wf _ _ _ _ Wr E2) as (_ & _ & _ & Es2 & _ & Et2).
    assert (Nr : lnext (release (lindex x) (ltoken x) l1) = lnext l1).
    { unfold release. destruct (lslots l1 !! lindex x) as [s'|]; [|done]. by destruct (_ && _). }
    assert (Ty : ltoken y = ltoken x + 1).
    { unfold Acquire in E2. destruct (_ || _); [done|]. destruct (last _); [|done].
      injection E2 as <- _. simpl. rewrite Nr, <- Et, Tx. unfold nextToken, wrap64, maxUint64 in *.
      rewrite Z.mod_small by lia. by replace (lnext l + 1 + 1 =? 0) with false by lia. }
    assert (Er : lslots (release (lindex x) (ltoken x) l1) = <[lindex x := zeroSlot]> (lslots l1)).
    { unfold release. rewrite Esl. rewrite list_lookup_insert_eq by (by eapply lookup_lt_Some). simpl.
      by rewrite Z.eqb_refl. }
    unfold release at 1. rewrite Es2, Er. destruct (decide (lindex y = lindex x)) as [->|Ni].
    + rewrite list_lookup_insert_eq by (rewrite length_insert, Esl, length_insert; by eapply lookup_lt_Some). simpl.
      by replace (ltoken y =? ltoken x) with false by lia.
    + rewrite list_lookup_insert_ne, list_lookup_insert_eq by (done || rewrite Esl, length_insert; by eapply lookup_lt_Some).
      done.
Qed.

Lemma Release_idempotent_witness :
  release 0 1 (mkLeases [mkSlot 9 2 true] [] 2 false false) = mkLeases [mkSlot 9 2 true] [] 2 false false.
Proof.
  refine (proj2 (proj2 (Release_idempotent (mkLeases [zeroSlot] [0%nat] 0 false false)
            (mkLeases [mkSlot 5 1 true] [] 1 false false) (mkLeases [mkSlot 9 2 true] [] 2 false false)
            5 9 (mkLease true 0 5 1) (mkLease true 0 9 2) _ _ _)) _).
  - apply (New_wf 1). reflexivity.
  - unfold maxUint64. simpl. lia.
  - reflexivity.
  - reflexivity.
Defined.

(** ** Retired extents *)

Definition extent_ok (e : FreeExtent) : Prop :=
  0 < Offset e /\ 0 < Length e /\ 0 < RetiredGeneration e /\ Offset e + Length e <= maxUint64.

Definition disjoint (a b : FreeExtent) : Prop :=
  Offset a + Length a <= Offset b \/ Offset b + Length b <= Offset a.

Fixpoint pairwise_disjoint (l : list FreeExtent) : Prop :=
  match l with [] => True | e :: l => Forall (disjoint e) l /\ pairwise_disjoint l end.

Definition reclaimer_ok (r : ExtentReclaimer) : Prop :=
  (length (pending r) <= limit r)%nat /\ Forall extent_ok (pending r) /\ pairwise_disjoint (pending r).

(** Fields of an extent are uint64 values. *)
Definition extent_u64 (e : FreeExtent) : Prop :=
  0 <= Offset e <= maxUint64 /\ 0 <= Length e <= maxUint64 /\ 0 <= RetiredGeneration e <= maxUint64.

Lemma badShape_ok e : extent_u64 e -> (badShape e = false <-> extent_ok e).
Proof. intros (? & ? & ?). unfold badShape, extent_ok, maxUint64 in *. lia. Qed.

Lemma overlaps_disjoint a b : extent_ok a -> extent_ok b -> (overlaps a b = false <-> disjoint a b).
Proof.
  intros (? & ? & _ & ?) (? & ? & _ & ?). unfold overlaps, disjoint, wrap64, maxUint64 in *.
  rewrite !Z.mod_small by lia. lia.
Qed.

Lemma existsb_overlaps e l :
  extent_ok e -> Forall extent_ok l -> (existsb (overlaps e) l = false <-> Forall (disjoint e) l).
Proof.
  intros He Hl. induction Hl as [|x l Hx _ IH]; simpl; [by split|].
  rewrite orb_false_iff, IH, Forall_cons, overlaps_disjoint by done. done.
Qed.

Lemma pairwise_app l1 l2 :
  pairwise_disjoint (l1 ++ l2) <->
  pairwise_disjoint l1 /\ pairwise_disjoint l2 /\ Forall (fun e => Forall (disjoint e) l2) l1.
Proof.
  induction l1 as [|e l1 IH]; simpl; [rewrite Forall_nil; naive_solver|].
  rewrite Forall_app, Forall_cons, IH. naive_solver.
Qed.

Lemma disjoint_sym a b : disjoint a b -> disjoint b a.
Proof. unfold disjoint. lia. Qed.

(** The validation loop accepts exactly well-shaped, mutually disjoint batches. *)
Lemma checkExtents_spec pend seen rest :
  Forall extent_ok pend -> Forall extent_ok seen -> Forall extent_u64 rest ->
  (checkExtents pend seen rest = None <->
   Forall extent_ok rest /\ Forall (fun e => Forall (disjoint e) pend) rest /\
   Forall (fun e => Forall (disjoint e) seen) rest /\ pairwise_disjoint rest).
Proof.
  revert seen. induction rest as [|e rest IH]; intros seen Hp Hs Hu; simpl; [by rewrite !Forall_nil|].
  apply Forall_cons in Hu as [Ue Hu]. rewrite !Forall_cons. destruct (badShape e) eqn:Eb.
  { split; [done|]. intros [[Oe _] _]. apply badShape_ok in Oe; congruence. }
  apply badShape_ok in Eb as Oe; [|done].
  destruct (existsb (overlaps e) pend) eqn:E1.
  { split; [done|]. intros (_ & [D _] & _). apply existsb_overlaps in D; congruence. }
  apply existsb_overlaps in E1; [|done..]. destruct (existsb (overlaps e) seen) eqn:E2.
  { split; [done|]. intros (_ & _ & [D _] & _). apply existsb_overlaps in D; congruence. }
  apply existsb_overlaps in E2; [|done..].
  rewrite IH by (done || (apply Forall_app; split; [done|by apply Forall_singleton])).
  assert (A : Forall (fun x => Forall (disjoint x) (seen ++ [e])) rest <->
              Forall (fun x => Forall (disjoint x) seen) rest /\ Forall (disjoint e) rest).
  { rewrite <- Forall_and. apply Forall_proper; [|done]. intros x. rewrite Forall_app, Forall_cons, Forall_nil.
    split; [intros (? & ? & _)|intros [? ?]]; split_and!; done || by apply disjoint_sym. }
  rewrite A. naive_solver.
Qed.

(** [RetireBatch] is atomic.  It records the whole batch exactly when it
    fits the configured bound, every extent is well shaped and no two extents,
    pending or new, overlap; otherwise nothing is recorded.  The pending set
    therefore stays bounded and pairwise disjoint, with no end overflowing. *)
Theorem RetireBatch_spec (extents : list FreeExtent) (r : ExtentReclaimer) :
  reclaimer_ok r -> Forall extent_u64 extents ->
  let '(err, r') := RetireBatch extents r in
  reclaimer_ok r' /\
  (err = None <-> (length (pending r) + length extents <= limit r)%nat /\
                  Forall extent_ok extents /\ pairwise_disjoint (pending r ++ extents)) /\
  (err = None -> pending r' = pending r ++ extents) /\ (err <> None -> r' = r).
Proof.
  intros (L & O & P) U. unfold RetireBatch.
  destruct (Nat.ltb_spec (limit r - length (pending r)) (length extents)).
  { split_and!; [done| |done|done]. split; [done|]. intros [? _]. lia. }
  pose proof (checkExtents_spec (pending r) [] extents O (Forall_nil_2 _) U) as C.
  assert (Sw : Forall (fun e => Forall (disjoint e) (pending r)) extents <->
               Forall (fun e => Forall (disjoint e) extents) (pending r)).
  { clear. induction extents as [|x l IH]; [rewrite Forall_nil; split; [intros; by apply Forall_true|done]|].
    rewrite Forall_cons, IH. split.
    - intros [Hx Hl]. rewrite Forall_forall in *. intros e He. apply Forall_cons. split; [|by apply Hl].
      apply disjoint_sym. by apply Hx.
    - intros Hl. rewrite !Forall_forall in *. split; intros e He; specialize (Hl e He); apply Forall_cons in Hl as [? ?]; [by apply disjoint_sym|done]. }
  destruct (checkExtents (pending r) [] extents) as [err|].
  - split_and!; [done| |done|done]. split; [done|]. intros (_ & Oe & Pe). exfalso.
    apply pairwise_app in Pe as (_ & Pe & De). discriminate (proj2 C). split_and!; [done|by apply Sw| |done].
    by apply Forall_true.
  - destruct (proj1 C eq_refl) as (Oe & De & _ & Pe).
    assert (PA : pairwise_disjoint (pending r ++ extents)) by (apply pairwise_app; split_and!; [done..|by apply Sw]).
    split_and!; [|split; [|done]|done|done].
    + split_and!; simpl; [rewrite length_app; lia|by apply Forall_app|done].
    + intros _. split_and!; [lia|done|done].
Qed.

Lemma RetireBatch_spec_witness :
  reclaimer_ok (RetireBatch [mkExtent 4096 4096 3] (mkReclaimer [] 8)).2.
Proof.
  assert (R : reclaimer_ok (mkReclaimer [] 8)) by (split_and!; simpl; [lia|by apply Forall_nil|done]).
  assert (U : Forall extent_u64 [mkExtent 4096 4096 3])
    by (apply Forall_singleton; unfold extent_u64, maxUint64; simpl; lia).
  exact (proj1 (RetireBatch_spec [mkExtent 4096 4096 3] (mkReclaimer [] 8) R U)).
Defined.

Lemma tailStart_app gen l t :
  Forall (fun e => RetiredGeneration e = gen) t ->
  tailStart gen (l ++ t) (length (l ++ t)) = tailStart gen (l ++ t) (length l).
Proof.
  intros H. assert (G : forall n, (n <= length t)%nat ->
    tailStart gen (l ++ t) (length l + n) = tailStart gen (l ++ t) (length l)); [|by rewrite length_app, G].
  induction n as [|n IH]; intros L; [by rewrite Nat.add_0_r|]. rewrite Nat.add_succ_r. simpl.
  destruct (lookup_lt_is_Some_2 t n) as [e Ee]; [lia|].
  rewrite lookup_app_r by lia. replace (length l + n - length l)%nat with n by lia.
  rewrite Ee, (proj1 (Forall_lookup _ _) H _ _ Ee), Z.eqb_refl. apply IH. lia.
Qed.

Lemma tailStart_stop gen l t :
  Forall (fun e => RetiredGeneration e <> gen) l -> tailStart gen (l ++ t) (length l) = length l.
Proof.
  intros H. destruct l as [|x l _] using rev_ind; [done|]. rewrite length_app, Nat.add_1_r. simpl.
  rewrite <- app_assoc, lookup_app_r, Nat.sub_diag by lia. simpl.
  apply Forall_app in H as [_ [Nx _]%Forall_cons]. by rewrite (proj2 (Z.eqb_neq _ _) Nx).
Qed.

(** Rolling back a reservation: cancelling the generation of a batch that
    was just retired, when no older extent has it, removes exactly the batch. *)
Theorem Cancel_after_Retire (gen : Z) (extents : list FreeExtent) (r r' : ExtentReclaimer) :
  gen <> 0 -> Forall (fun e => RetiredGeneration e <> gen) (pending r) ->
  Forall (fun e => RetiredGeneration e = gen) extents ->
  RetireBatch extents r = (None, r') ->
  CancelRetiredGeneration gen r' = (None, r).
Proof.
  intros Ng Nr Ge E. unfold RetireBatch in E. destruct (_ <? _)%nat; [done|].
  destruct (checkExtents _ _ _); [done|]. injection E as <-. unfold CancelRetiredGeneration. cbn [pending limit].
  rewrite (proj2 (Z.eqb_neq _ _) Ng), tailStart_app, tailStart_stop, take_app_length by done.
  replace (existsb _ (pending r)) with false; [by destruct r|]. symmetry.
  clear -Nr. induction Nr as [|x l Nx _ IH]; [done|]. simpl. by rewrite (proj2 (Z.eqb_neq _ _) Nx), IH.
Qed.

Lemma Cancel_after_Retire_witness :
  CancelRetiredGeneration 4 (mkReclaimer [mkExtent 4096 4096 3; mkExtent 8192 4096 4] 8)
  = (None, mkReclaimer [mkExtent 4096 4096 3] 8).
Proof.
  apply (Cancel_after_Retire 4 [mkExtent 8192 4096 4]).
  - lia.
  - apply Forall_singleton. simpl. lia.
  - by apply Forall_singleton.
  - reflexivity.
Defined.

Definition reusable (floor : Z) (e : FreeExtent) : bool := RetiredGeneration e <? floor.

Lemma sweep_filter floor dst r :
  sweep floor dst r =
  (dst ++ List.filter (reusable floor) (pending r),
   mkReclaimer (List.filter (fun e => negb (reusable floor e)) (pending r)) (limit r)).
Proof.
  unfold sweep.
  assert (G : forall l kept dst, fold_left (fun '(dst, r) e =>
      if RetiredGeneration e <? floor then (dst ++ [e], r) else (dst, mkReclaimer (pending r ++ [e]) (limit r)))
      l (dst, mkReclaimer kept (limit r)) =
    (dst ++ List.filter (reusable floor) l,
     mkReclaimer (kept ++ List.filter (fun e => negb (reusable floor e)) l) (limit r))); [|apply G].
  induction l as [|e l IH]; intros kept d; simpl; [by rewrite !app_nil_r|]. change (reusable floor e) with (RetiredGeneration e <? floor).
  destruct (RetiredGeneration e <? floor); simpl; rewrite IH, <- ?app_assoc; done.
Qed.

(** ** The reclamation protocol

    FileStore runs one writer and any number of readers.  [Snapshot] loads the
    published state and acquires its generation under [snapshotGate], which
    publication takes exclusively, so the two are one step.  The writer retires
    extents at the generation that still reaches them ([state.root.Generation]),
    publishes the next generation, or cancels.  [reclaim] reads the durable
    generation and runs [AppendReusable], whose floor and sweep are separate
    steps here. *)
Module Protocol.

Record state := mkState {
  current : Z;                      (** published root generation *)
  durable : Z;                      (** committer's durable generation *)
  leases : GenerationLeases;
  reclaimer : ExtentReclaimer;
  floor : option Z;                 (** between the two halves of AppendReusable *)
  handed : list FreeExtent;         (** every extent ever handed out for reuse *)
}.

Definition oldestRecovery (durable : Z) : Z := if 1 <? durable then durable - 1 else 1.

Inductive step : state -> state -> Prop :=
| Snapshot c d l r f h x l' :
    Acquire c l = Ok (x, l') -> step (mkState c d l r f h) (mkState c d l' r f h)
| SnapshotClose c d l r f h i t :
    step (mkState c d l r f h) (mkState c d (release i t l) r f h)
| RetireExtents c d l r f h extents r' :
    Forall (fun e => RetiredGeneration e = c) extents -> RetireBatch extents r = (None, r') ->
    step (mkState c d l r f h) (mkState c d l r' f h)
| CancelRetired c d l r f h r' :
    CancelRetiredGeneration c r = (None, r') -> step (mkState c d l r f h) (mkState c d l r' f h)
| Publish c d l r h :
    c < maxUint64 -> step (mkState c d l r None h) (mkState (c + 1) d l r None h)
| MadeDurable c d d' l r f h :
    d <= d' <= c -> step (mkState c d l r f h) (mkState c d' l r f h)
| ComputeFloor c d l r h :
    step (mkState c d l r None h) (mkState c d l r (Some (reclaimFloor c (oldestRecovery d) l)) h)
| Sweep c d l r f h dst r' :
    sweep f [] r = (dst, r') -> step (mkState c d l r (Some f) h) (mkState c d l r' None (h ++ dst))
| CloseLeases c d l r f h :
    step (mkState c d l r f h) (mkState c d (leases_Close l).2 r f h).

Definition initial (c : Z) (l : GenerationLeases) (r : ExtentReclaimer) : state := mkState c c l r None [].

(** A reader at generation [g] may follow references into an extent retired at
    a generation not below [g]. *)
Definition safe (st : state) : Prop :=
  forall i s e, lslots (leases st) !! i = Some s -> active s = true -> e ∈ handed st ->
    RetiredGeneration e < generation s.

Definition bounds_readers (f : Z) (l : GenerationLeases) : Prop :=
  forall i s, lslots l !! i = Some s -> active s = true -> f <= generation s.

Definition inv (st : state) : Prop :=
  1 <= current st /\ durable st <= current st /\ safe st /\
  (forall e, e ∈ handed st -> RetiredGeneration e < current st) /\
  (forall f, floor st = Some f -> f <= current st /\ bounds_readers f (leases st)).

Lemma release_slots i t l j s :
  lslots (release i t l) !! j = Some s -> active s = true -> lslots l !! j = Some s.
Proof.
  unfold release. destruct (lslots l !! i) as [s'|] eqn:Es; [|done]. destruct (active s' && _); [|done].
  cbn [lslots]. intros [(? & <- & ?)|[? ?]]%list_lookup_insert_Some Ha; done.
Qed.

Lemma Acquire_slots gen l x l' j s :
  Acquire gen l = Ok (x, l') -> lslots l' !! j = Some s -> lslots l !! j = Some s \/ generation s = gen.
Proof.
  unfold Acquire. destruct (_ || _); [done|]. destruct (last (lfree l)); [|done]. intros [= <- <-]. cbn [lslots].
  intros [(? & <- & ?)|[? ?]]%list_lookup_insert_Some; [by right|by left].
Qed.

Lemma floor_bounds c d l :
  1 <= c -> d <= c -> reclaimFloor c (oldestRecovery d) l <= c /\ bounds_readers (reclaimFloor c (oldestRecovery d) l) l.
Proof.
  intros Hc Hd. unfold reclaimFloor. split.
  - unfold oldestRecovery. destruct (Z.ltb_spec 1 d); lia.
  - intros i s Es Ha. pose proof (proj1 (proj2 (Minimum_spec c l)) i s Es Ha). lia.
Qed.

Lemma step_inv st st' : inv st -> step st st' -> inv st'.
Proof.
  intros (I1 & I2 & I3 & I4 & I5) S. destruct S; unfold inv, safe in *; cbn in *.
  - match goal with E : Acquire _ _ = _ |- _ => rename E into EA end. split_and!; [done|done| |done|].
    + intros i s e Es Ha He. destruct (Acquire_slots _ _ _ _ _ _ EA Es) as [?| ->]; eauto.
    + intros g Eg. destruct (I5 g Eg) as [? B]. split; [done|]. intros i s Es Ha.
      destruct (Acquire_slots _ _ _ _ _ _ EA Es) as [?| ->]; eauto.
  - split_and!; [done|done| |done|].
    + intros j s e Es Ha. eauto using release_slots.
    + intros g Eg. destruct (I5 g Eg) as [? B]. split; [done|]. intros j s Es Ha. eauto using release_slots.
  - done.
  - done.
  - split_and!; [lia|lia|done| |done]. intros e He. specialize (I4 e He). lia.
  - split_and!; [done|lia|done|done|done].
  - split_and!; [done|done|done|done|]. intros g [= <-]. by apply floor_bounds.
  - match goal with E : sweep _ _ _ = _ |- _ => rewrite sweep_filter in E; injection E as <- <- end.
    destruct (I5 _ eq_refl) as [Fc Fr]. split_and!; [done|done| | |done].
    + intros i s e Es Ha [He|He]%elem_of_app; [by eauto|]. simpl in He. apply list_elem_of_In, filter_In in He as [_ L].
      unfold reusable in L. specialize (Fr i s Es Ha). lia.
    + intros e [He|He]%elem_of_app; [by eauto|]. simpl in He. apply list_elem_of_In, filter_In in He as [_ L].
      unfold reusable in L. lia.
  - destruct (Close_slots l) as [-> _]. split_and!; [done|done|done|done|]. intros g Eg. destruct (I5 g Eg) as [? B].
    split; [done|]. unfold bounds_readers. by destruct (Close_slots l) as [-> _].
Qed.

(** C20: reclamation is safe.  Whatever the interleaving of readers with the
    writer's retire, publish, cancel and reclaim steps (a reader may start
    between the computation of the reclaim floor and the sweep), no extent that
    was handed out for reuse was still reachable by an open snapshot. *)
Theorem reclamation_safe (c : Z) (l : GenerationLeases) (r : ExtentReclaimer) (st : state) :
  1 <= c -> rtc step (initial c l r) st -> safe st.
Proof.
  intros Hc R. assert (I : inv (initial c l r)).
  { unfold inv, safe. cbn. split_and!; [done|lia| | |done]; by intros; try match goal with H : _ ∈ [] |- _ => by apply elem_of_nil in H end. }
  enough (inv st) as (_ & _ & ? & _) by done. induction R; [done|]. eauto using step_inv.
Qed.

Definition witness_state : state :=
  mkState 4 4 (mkLeases [mkSlot 4 1 true] [] 1 false false) (mkReclaimer [] 8) None [mkExtent 4096 4096 2].

Lemma reclamation_safe_witness :
  handed witness_state = [mkExtent 4096 4096 2] /\ safe witness_state.
Proof.
  refine (conj eq_refl (reclamation_safe 2 (mkLeases [zeroSlot] [0%nat] 0 false false) (mkReclaimer [] 8) witness_state _ _)).
  - lia.
  - eapply rtc_l. { by apply (RetireExtents _ _ _ _ _ _ [mkExtent 4096 4096 2]); [apply Forall_singleton|]. }
    eapply rtc_l. { apply Publish. unfold maxUint64. lia. }
    eapply rtc_l. { apply Publish. unfold maxUint64. lia. }
    eapply rtc_l. { apply (MadeDurable _ _ 4). lia. }
    eapply rtc_l. { apply ComputeFloor. }
    eapply rtc_l. { by apply (Snapshot _ _ _ _ _ _ (mkLease true 0 4 1)). }
    eapply rtc_l. { by eapply Sweep. }
    apply rtc_refl.
Defined.

End Protocol.

(** [AppendReusable] splits the pending extents in order: exactly those
    retired before both every active reader and the recovery horizon are
    appended to [dst], the others stay pending and keep the set well formed. *)
Theorem AppendReusable_spec (dst : list FreeExtent) (current oldest : Z) (l : GenerationLeases) (r : ExtentReclaimer) :
  reclaimer_ok r ->
  let '(dst', r') := AppendReusable dst current oldest l r in
  let kept e := negb (reusable (reclaimFloor current oldest l) e) in
  dst' = dst ++ List.filter (reusable (reclaimFloor current oldest l)) (pending r) /\
  pending r' = List.filter kept (pending r) /\ reclaimer_ok r' /\
  (forall e, e ∈ pending r -> e ∈ pending r' <->
     oldest <= RetiredGeneration e \/ generationSuccessor current <= RetiredGeneration e \/
     exists i s, lslots l !! i = Some s /\ active s = true /\ generation s <= RetiredGeneration e).
Proof.
  intros (L & O & P). unfold AppendReusable. rewrite sweep_filter. cbn [pending limit].
  set (f := reclaimFloor current oldest l). split_and!; [done|done| |].
  - assert (G : forall k, (length (List.filter k (pending r)) <= length (pending r))%nat /\
       Forall extent_ok (List.filter k (pending r)) /\ pairwise_disjoint (List.filter k (pending r))).
    { intros k. clear L. induction (pending r) as [|e es IH]; simpl; [by rewrite Forall_nil|].
      apply Forall_cons in O as [Oe O]. destruct P as [De P]. destruct (IH O P) as (? & ? & ?).
      destruct (k e); simpl; [|split_and!; [lia|done|done]]. split_and!; [lia|by apply Forall_cons| |done].
      rewrite Forall_forall in *. intros x Hx%list_elem_of_In%filter_In. apply De, list_elem_of_In, Hx. }
    unfold reclaimer_ok. cbn [pending limit]. destruct (G (fun e => negb (reusable f e))) as (? & ? & ?). split_and!; [lia|done|done].
  - intros e He. rewrite list_elem_of_In, filter_In, <- list_elem_of_In. unfold reusable.
    destruct (Minimum_spec current l) as (M1 & M2 & M3). unfold reclaimFloor in f. split.
    + intros [_ K]. destruct M3 as [M3|(i & s & Es & Ha & M3)].
      * destruct (Z.leb_spec oldest (RetiredGeneration e)); [by left|right; left; lia].
      * destruct (Z.leb_spec oldest (RetiredGeneration e)); [by left|right; right]. exists i, s. split_and!; [done|done|lia].
    + intros K. split; [done|]. destruct K as [K|[K|(i & s & Es & Ha & K)]]; [lia|lia|]. specialize (M2 i s Es Ha). lia.
Qed.

Lemma AppendReusable_spec_witness :
  (AppendReusable [] 9 9 (mkLeases [mkSlot 5 1 true] [] 1 false false)
     (mkReclaimer [mkExtent 4096 4096 3; mkExtent 8192 4096 6] 8)).1 = [mkExtent 4096 4096 3].
Proof.
  assert (R : reclaimer_ok (mkReclaimer [mkExtent 4096 4096 3; mkExtent 8192 4096 6] 8)).
  { split_and!; simpl; [lia| |].
    - apply Forall_cons; split; [|apply Forall_singleton]; unfold extent_ok, maxUint64; simpl; lia.
    - split; [apply Forall_singleton; unfold disjoint; simpl; lia|]. by rewrite Forall_nil. }
  exact (proj1 (AppendReusable_spec [] 9 9 (mkLeases [mkSlot 5 1 true] [] 1 false false) _ R)).
Defined.
