(* ===== verification/Bytes.v ===== *)
(** * Bytes: fixed-width records and CRC32C

    What the page formats of internal/storeio share: the sentinel errors, the
    buffer operations of Go slices and [encoding/binary.LittleEndian], and
    [hash/crc32] with the Castagnoli table ([PageChecksum] of superblock.go and
    [pageChecksum] of page_checksum_std.go).  The checksum is proved to detect
    every change of one byte. *)
From Stdlib Require Import ZArith Lia List Bool.
From stdpp Require Import base numbers list strings.
From S2P Require Import Prelude.

Open Scope Z_scope.

(** Errors of internal/storeio.  [ErrIO] is an error of the operating system
    and [Panic] a Go run-time panic: a slice
    expression out of range. *)
Inductive io_error :=
| ErrInvalidWrite (detail : string)
| ErrPageCorrupt (detail : string)
| ErrStateRootCorrupt (detail : string)
| ErrFreeDirectoryCorrupt (detail : string)
| ErrPostingPageCorrupt (detail : string)
| ErrSuperblockCorrupt (detail : string)
| ErrSuperblockNotFound
| ErrSuperblockConflict
| ErrRecoveryBufferTooSmall
| ErrOverlappingWrite
| ErrDuplicateBuffer
| ErrClosed
| ErrBatchState
| ErrTooManyPages
| ErrGenerationOrder
| ErrQueueFull
| ErrPageCacheReference (detail : string)
| ErrPageCachePinned
| ErrPageCacheClosed
| ErrDocumentGroupCorrupt
| ErrFreeTreeDepth
| ErrRetiredExtentCapacity
| ErrIO
| EOF
| Panic.

Notation io_res := (res io_error).

(** ** Buffers *)

(** [copy(dst[off:], bs)]: writes past the end of [dst] are dropped. *)
Definition setBytes (dst : list Z) (off : nat) (bs : list Z) : list Z :=
  take off dst ++ take (length dst - off) bs ++ drop (off + length bs) dst.

(** The slice expression [src[a:b]] with its bounds check. *)
Definition window (src : list Z) (a b : nat) : io_res (list Z) :=
  if ((a <=? b) && (b <=? length src))%nat then Ok (slice src a b) else Err Panic.

Fixpoint le_bytes (n : nat) (v : Z) : list Z :=
  match n with O => [] | S n => v mod 256 :: le_bytes n (v / 256) end.

(** [binary.LittleEndian]: Uint16, Uint32, Uint64 and the Put functions, by width. *)
Definition putLE (n : nat) (dst : list Z) (off : nat) (v : Z) : list Z := setBytes dst off (le_bytes n v).
Definition getLE (n : nat) (src : list Z) (off : nat) : Z := le_uint (slice src off (off + n)).

Definition PutUint16 := putLE 2.
Definition PutUint32 := putLE 4.
Definition PutUint64 := putLE 8.
Definition Uint16 := getLE 2.
Definition Uint32 := getLE 4.
Definition Uint64 := getLE 8.
Definition getByte (src : list Z) (off : nat) : Z := default 0 (src !! off).

Definition not32 (x : Z) : Z := 2 ^ 32 - 1 - x.
Definition not64 (x : Z) : Z := 2 ^ 64 - 1 - x.

(** superblock.go: ors every byte, then compares with zero. *)
Definition allZero (src : list Z) : bool := fold_left Z.lor src 0 =? 0.

Lemma setBytes_length dst off bs : length (setBytes dst off bs) = length dst.
Proof. unfold setBytes. rewrite !length_app, !length_take, length_drop. lia. Qed.

Lemma setBytes_lookup dst off bs i :
  setBytes dst off bs !! i =
  (fun x => if (off <=? i)%nat then default x (bs !! (i - off)%nat) else x) <$> dst !! i.
Proof.
  unfold setBytes. destruct (Nat.leb_spec off i).
  - destruct (decide (i < length dst)%nat) as [L|L].
    + rewrite lookup_app_r by (rewrite length_take; lia). rewrite length_take, Nat.min_l by lia.
      destruct (decide (i - off < length bs)%nat).
      * rewrite lookup_app_l, lookup_take_lt by (rewrite ?length_take; lia).
        destruct (lookup_lt_is_Some_2 bs (i - off)) as [y ->]; [done|].
        by destruct (lookup_lt_is_Some_2 dst i L) as [x ->].
      * rewrite lookup_app_r, length_take by (rewrite length_take; lia). rewrite Nat.min_r, lookup_drop by lia.
        rewrite (lookup_ge_None_2 bs) by lia. replace (off + length bs + (i - off - length bs))%nat with i by lia.
        by destruct (dst !! i).
    + rewrite (lookup_ge_None_2 dst) by lia. apply lookup_ge_None_2. rewrite !length_app, !length_take, length_drop. lia.
  - destruct (decide (i < length dst)%nat) as [L|L].
    + rewrite lookup_app_l, lookup_take_lt by (rewrite ?length_take; lia). by destruct (dst !! i).
    + rewrite (lookup_ge_None_2 dst) by lia. apply lookup_ge_None_2. rewrite !length_app, !length_take, length_drop. lia.
Qed.

Lemma setBytes_lookup_out dst off bs i :
  (i < off \/ off + length bs <= i)%nat -> setBytes dst off bs !! i = dst !! i.
Proof.
  intros H. rewrite setBytes_lookup. destruct (dst !! i) as [x|]; [|done]. simpl. f_equal.
  destruct (Nat.leb_spec off i); [|done]. by rewrite lookup_ge_None_2 by lia.
Qed.

Lemma setBytes_lookup_in dst off bs i :
  (off <= i < off + length bs)%nat -> (i < length dst)%nat -> setBytes dst off bs !! i = bs !! (i - off)%nat.
Proof.
  intros H L. rewrite setBytes_lookup. destruct (lookup_lt_is_Some_2 dst i L) as [x ->]. simpl.
  destruct (Nat.leb_spec off i); [|lia]. by destruct (lookup_lt_is_Some_2 bs (i - off)) as [y ->]; [lia|].
Qed.

Lemma setBytes_ok dst off bs : bytes_ok dst -> bytes_ok bs -> bytes_ok (setBytes dst off bs).
Proof.
  intros Hd Hb. apply Forall_lookup. intros i x. rewrite setBytes_lookup.
  destruct (dst !! i) as [y|] eqn:Ey; [|done]. intros [= <-].
  pose proof (proj1 (Forall_lookup _ _) Hd _ _ Ey) as Hy. destruct (off <=? i)%nat; [|done].
  destruct (bs !! (i - off)%nat) as [z|] eqn:Ez; [|done]. exact (proj1 (Forall_lookup _ _) Hb _ _ Ez).
Qed.

(** A closed byte list is checked by evaluation. *)
Lemma bytes_ok_bool l : forallb (fun x => (0 <=? x) && (x <? 256)) l = true -> bytes_ok l.
Proof.
  intros F. apply Forall_forall. intros x Hx. rewrite forallb_forall in F.
  specialize (F x (proj1 (list_elem_of_In _ _) Hx)). unfold is_byte. lia.
Qed.

Lemma zeros_ok n : bytes_ok (replicate n 0).
Proof. apply Forall_replicate. unfold is_byte. lia. Qed.

Lemma slice_lookup {A} (s : list A) a b i :
  slice s a b !! i = if (i <? b - a)%nat then s !! (a + i)%nat else None.
Proof.
  unfold slice. destruct (Nat.ltb_spec i (b - a)).
  - by rewrite lookup_take_lt, lookup_drop by lia.
  - apply lookup_take_ge. lia.
Qed.

Lemma slice_slice {A} (s : list A) a b c d :
  (a + d <= b)%nat -> slice (slice s a b) c d = slice s (a + c) (a + d).
Proof.
  intros H. apply list_eq. intros i. rewrite !slice_lookup. replace (a + d - (a + c))%nat with (d - c)%nat by lia.
  destruct (Nat.ltb_spec i (d - c)); [|done].
  destruct (Nat.ltb_spec (c + i) (b - a)); [f_equal; lia|lia].
Qed.

Lemma slice_set_out dst off bs a b :
  (b <= off \/ off + length bs <= a)%nat -> slice (setBytes dst off bs) a b = slice dst a b.
Proof.
  intros H. apply list_eq. intros i. rewrite !slice_lookup.
  destruct (Nat.ltb_spec i (b - a)); [|done]. apply setBytes_lookup_out. lia.
Qed.

Lemma slice_set_in dst off bs a b :
  (off <= a)%nat -> (b <= off + length bs)%nat -> (off + length bs <= length dst)%nat ->
  slice (setBytes dst off bs) a b = slice bs (a - off) (b - off).
Proof.
  intros H1 H2 H3. apply list_eq. intros i. rewrite !slice_lookup.
  replace (b - off - (a - off))%nat with (b - a)%nat by lia.
  destruct (Nat.ltb_spec i (b - a)); [|done]. rewrite setBytes_lookup_in by lia. f_equal. lia.
Qed.

Lemma slice_set_hit dst off bs :
  (off + length bs <= length dst)%nat -> slice (setBytes dst off bs) off (off + length bs) = bs.
Proof.
  intros H. rewrite slice_set_in by lia. rewrite Nat.sub_diag.
  replace (off + length bs - off)%nat with (length bs) by lia. apply slice_full.
Qed.

Lemma slice_replicate {A} (x : A) n a b : (b <= n)%nat -> slice (replicate n x) a b = replicate (b - a) x.
Proof.
  intros. unfold slice. rewrite drop_replicate, take_replicate. f_equal. lia.
Qed.

Lemma window_ok src a b : (a <= b)%nat -> (b <= length src)%nat -> window src a b = Ok (slice src a b).
Proof. intros. unfold window. by rewrite (proj2 (Nat.leb_le a b)), (proj2 (Nat.leb_le b _)) by done. Qed.

Lemma le_bytes_length n v : length (le_bytes n v) = n.
Proof. revert v. induction n as [|n IH]; intros v; simpl; [done|]. by rewrite IH. Qed.

Lemma le_bytes_ok n v : bytes_ok (le_bytes n v).
Proof.
  revert v. induction n as [|n IH]; intros v; simpl; [by apply Forall_nil|].
  apply Forall_cons. split; [by apply Z.mod_pos_bound|apply IH].
Qed.

Lemma le_uint_le_bytes n v : word_ok n v -> le_uint (le_bytes n v) = v.
Proof.
  revert v. induction n as [|n IH]; intros v; unfold word_ok; [simpl; lia|]. rewrite pow256_S. intros H. simpl.
  rewrite IH; [pose proof (Z.div_mod v 256); lia|]. unfold word_ok. split; [apply Z.div_pos; lia|].
  apply Z.div_lt_upper_bound; lia.
Qed.

Lemma le_bytes_le_uint bs : bytes_ok bs -> le_bytes (length bs) (le_uint bs) = bs.
Proof.
  induction 1 as [|b bs Hb _ IH]; [done|]. simpl. unfold is_byte in Hb.
  rewrite (Z.mul_comm 256), Z.mod_add, Z.mod_small, Z.div_add, Z.div_small, Z.add_0_l by lia. by rewrite IH.
Qed.

Lemma get_put_hit n dst off v :
  word_ok n v -> (off + n <= length dst)%nat -> getLE n (setBytes dst off (le_bytes n v)) off = v.
Proof.
  intros W L. unfold getLE. pose proof (slice_set_hit dst off (le_bytes n v)) as H.
  rewrite le_bytes_length in H. rewrite H by done. by apply le_uint_le_bytes.
Qed.

Lemma get_set_out n dst off bs a :
  (a + n <= off \/ off + length bs <= a)%nat -> getLE n (setBytes dst off bs) a = getLE n dst a.
Proof. intros H. unfold getLE. by rewrite slice_set_out by lia. Qed.

Lemma getByte_set_out dst off bs a :
  (a < off \/ off + length bs <= a)%nat -> getByte (setBytes dst off bs) a = getByte dst a.
Proof. intros H. unfold getByte. by rewrite setBytes_lookup_out. Qed.

Lemma getLE_ok n src off : bytes_ok src -> (off + n <= length src)%nat -> word_ok n (getLE n src off).
Proof.
  intros H L. unfold getLE. pose proof (le_uint_ok (slice src off (off + n)) (Forall_slice _ _ _ _ H)) as W.
  rewrite slice_length in W by lia. by replace (off + n - off)%nat with n in W by lia.
Qed.

Lemma getByte_ok src off : bytes_ok src -> is_byte (getByte src off).
Proof.
  intros H. unfold getByte. destruct (src !! off) as [b|] eqn:E; [exact (proj1 (Forall_lookup _ _) H _ _ E)|].
  simpl. unfold is_byte. lia.
Qed.

Lemma getByte_set_hit dst off b : (off < length dst)%nat -> getByte (setBytes dst off [b]) off = b.
Proof. intros H. unfold getByte. rewrite setBytes_lookup_in by (simpl; lia). by rewrite Nat.sub_diag. Qed.

Lemma lor_fold_zero l a : 0 <= a -> bytes_ok l -> (fold_left Z.lor l a = 0 <-> a = 0 /\ Forall (fun b => b = 0) l).
Proof.
  revert a. induction l as [|b l IH]; intros a Ha Hl; simpl; [rewrite Forall_nil; tauto|].
  apply Forall_cons in Hl as [Hb Hl]. unfold is_byte in Hb.
  rewrite IH, Forall_cons by (done || (apply Z.lor_nonneg; lia)). rewrite Z.lor_eq_0_iff. naive_solver.
Qed.

Lemma allZero_spec l : bytes_ok l -> (allZero l = true <-> l = replicate (length l) 0).
Proof.
  intros H. unfold allZero. rewrite Z.eqb_eq, lor_fold_zero by (done || lia). split.
  - intros [_ F]. symmetry. apply replicate_as_Forall. split; [done|]. eapply Forall_impl; [exact F|]. by intros ? ->.
  - intros ->. split; [done|]. by apply Forall_replicate.
Qed.

Lemma allZero_replicate n : allZero (replicate n 0) = true.
Proof.
  unfold allZero. apply Z.eqb_eq. induction n as [|n IH]; [done|]. exact IH.
Qed.

(** Evaluates reads of a record after writes to it. *)
Ltac buf_side := rewrite ?le_bytes_length, ?setBytes_length; simpl; lia.
Ltac buf_step :=
  match goal with
  | |- context [getLE ?n (setBytes ?d ?o ?bs) ?a] => rewrite (get_set_out n d o bs a) by buf_side
  | |- context [getLE ?n (setBytes ?d ?o (le_bytes ?n ?v)) ?o] => rewrite (get_put_hit n d o v) by (done || buf_side)
  | |- context [getByte (setBytes ?d ?o ?bs) ?a] => rewrite (getByte_set_out d o bs a) by buf_side
  | |- context [getByte (setBytes ?d ?o [?v]) ?o] => rewrite (getByte_set_hit d o v) by buf_side
  | |- context [slice (setBytes ?d ?o ?bs) ?a ?b] => rewrite (slice_set_out d o bs a b) by buf_side
  | |- context [slice (setBytes ?d ?o ?bs) ?a ?b] =>
      let E := fresh in
      assert (E : slice (setBytes d o bs) a b = bs)
        by (replace b with (o + length bs)%nat by buf_side; apply slice_set_hit; buf_side);
      rewrite E; clear E
  end.

(** ** CRC32C *)

Definition castagnoli : Z := 0x82f63b78.

Definition crc_bit (s : Z) : Z :=
  if Z.testbit s 0 then Z.lxor (Z.shiftr s 1) castagnoli else Z.shiftr s 1.

Definition crc_byte (s b : Z) : Z := Nat.iter 8 crc_bit (Z.lxor s b).

(** [crc32.Checksum(data, crc32.MakeTable(crc32.Castagnoli))] *)
Definition PageChecksum (data : list Z) : Z :=
  Z.lxor (fold_left crc_byte data 0xffffffff) 0xffffffff.

Example PageChecksum_check : PageChecksum [49; 50; 51; 52; 53; 54; 55; 56; 57] = 0xe3069283.
Proof. reflexivity. Qed.

Definition crc_ok (s : Z) : Prop := 0 <= s < 2 ^ 32.

Lemma crc_ok_bits s : 0 <= s -> (forall i, 32 <= i -> Z.testbit s i = false) -> crc_ok s.
Proof.
  intros H0 H. split; [done|]. replace s with (s mod 2 ^ 32); [by apply Z.mod_pos_bound|].
  apply Z.bits_inj'. intros i Hi. destruct (Z.ltb_spec i 32).
  - by rewrite Z.mod_pow2_bits_low by lia.
  - rewrite Z.mod_pow2_bits_high, H by lia. done.
Qed.

Lemma crc_high s i : crc_ok s -> 32 <= i -> Z.testbit s i = false.
Proof.
  intros H Hi. rewrite <- (Z.mod_small s (2 ^ 32)) by exact H. by rewrite Z.mod_pow2_bits_high by lia.
Qed.

Lemma crc_ok_lxor a b : crc_ok a -> crc_ok b -> crc_ok (Z.lxor a b).
Proof.
  intros Ha Hb. apply crc_ok_bits.
  - apply Z.lxor_nonneg. unfold crc_ok in *. lia.
  - intros i Hi. by rewrite Z.lxor_spec, !crc_high by done.
Qed.

Lemma crc_ok_bit s : crc_ok s -> crc_ok (crc_bit s).
Proof.
  intros H. assert (Hs : crc_ok (Z.shiftr s 1)).
  { unfold crc_ok in *. rewrite Z.shiftr_div_pow2 by lia. change (2 ^ 1) with 2. dlia. }
  unfold crc_bit. destruct (Z.testbit s 0); [|done]. apply crc_ok_lxor; [done|]. unfold crc_ok, castagnoli. lia.
Qed.

Lemma byte_crc_ok b : is_byte b -> crc_ok b.
Proof. unfold is_byte, crc_ok. lia. Qed.

Lemma crc_ok_byte s b : crc_ok s -> is_byte b -> crc_ok (crc_byte s b).
Proof.
  intros Hs Hb. unfold crc_byte. apply Nat.iter_invariant; [by intros; apply crc_ok_bit|].
  apply crc_ok_lxor; [done|by apply byte_crc_ok].
Qed.

Lemma crc_ok_fold data s : crc_ok s -> bytes_ok data -> crc_ok (fold_left crc_byte data s).
Proof.
  revert s. induction data as [|b data IH]; intros s Hs Hd; [done|]. apply Forall_cons in Hd as [Hb Hd].
  simpl. apply IH; [by apply crc_ok_byte|done].
Qed.

Lemma PageChecksum_ok data : bytes_ok data -> crc_ok (PageChecksum data).
Proof. intros H. apply crc_ok_lxor; [apply crc_ok_fold; [by unfold crc_ok|done]|by unfold crc_ok]. Qed.

(** The polynomial has bit 31 set, so the shifted-out bit can be recovered. *)
Lemma crc_bit_top s : crc_ok s -> Z.testbit (crc_bit s) 31 = Z.testbit s 0.
Proof.
  intros H. unfold crc_bit. destruct (Z.testbit s 0) eqn:E.
  - rewrite Z.lxor_spec, Z.shiftr_spec, (crc_high s) by (done || lia). reflexivity.
  - rewrite Z.shiftr_spec, (crc_high s) by (done || lia). done.
Qed.

Lemma crc_bit_inj s t : crc_ok s -> crc_ok t -> crc_bit s = crc_bit t -> s = t.
Proof.
  intros Hs Ht E. assert (E0 : Z.testbit s 0 = Z.testbit t 0) by (rewrite <- !crc_bit_top by done; by rewrite E).
  assert (E1 : Z.shiftr s 1 = Z.shiftr t 1).
  { unfold crc_bit in E. rewrite <- E0 in E. destruct (Z.testbit s 0); [|done].
    rewrite <- (Z.lxor_0_r (Z.shiftr s 1)), <- (Z.lxor_0_r (Z.shiftr t 1)), <- (Z.lxor_nilpotent castagnoli).
    by rewrite <- !Z.lxor_assoc, E. }
  apply Z.bits_inj'. intros i Hi. destruct (Z.eq_dec i 0) as [->|]; [done|].
  replace i with (i - 1 + 1) by lia. by rewrite <- !Z.shiftr_spec, E1 by lia.
Qed.

Lemma lxor_inj_l a b c : Z.lxor a b = Z.lxor a c -> b = c.
Proof.
  intros E. rewrite <- (Z.lxor_0_l b), <- (Z.lxor_0_l c), <- (Z.lxor_nilpotent a), !Z.lxor_assoc. by rewrite E.
Qed.

Lemma crc_byte_inj s t b c :
  crc_ok s -> crc_ok t -> is_byte b -> is_byte c -> crc_byte s b = crc_byte t c -> Z.lxor s b = Z.lxor t c.
Proof.
  intros Hs Ht Hb Hc. unfold crc_byte.
  assert (Hx : crc_ok (Z.lxor s b)) by (apply crc_ok_lxor; auto using byte_crc_ok).
  assert (Hy : crc_ok (Z.lxor t c)) by (apply crc_ok_lxor; auto using byte_crc_ok).
  revert Hx Hy. generalize (Z.lxor s b) (Z.lxor t c). generalize 8%nat.
  intros n. induction n as [|n IH]; intros x y Hx Hy E; [done|].
  simpl in E. apply IH; [done..|]. apply crc_bit_inj; [| |done]; apply Nat.iter_invariant; auto using crc_ok_bit.
Qed.

Lemma crc_fold_inj data s t :
  crc_ok s -> crc_ok t -> bytes_ok data -> fold_left crc_byte data s = fold_left crc_byte data t -> s = t.
Proof.
  revert s t. induction data as [|b data IH]; intros s t Hs Ht Hd E; [done|].
  apply Forall_cons in Hd as [Hb Hd]. simpl in E. apply IH in E; [|by apply crc_ok_byte..|done].
  apply crc_byte_inj in E; [|done..]. rewrite !(Z.lxor_comm _ b) in E. by eapply lxor_inj_l.
Qed.

Lemma crc_detects p q b c :
  bytes_ok p -> bytes_ok q -> is_byte b -> is_byte c ->
  PageChecksum (p ++ b :: q) = PageChecksum (p ++ c :: q) -> b = c.
Proof.
  intros Hp Hq Hb Hc E. unfold PageChecksum in E. rewrite !(Z.lxor_comm _ 0xffffffff) in E.
  apply lxor_inj_l in E. rewrite !fold_left_app in E. simpl in E.
  assert (H0 : crc_ok (fold_left crc_byte p 0xffffffff)) by (apply crc_ok_fold; [by unfold crc_ok|done]).
  apply crc_fold_inj in E; [|by apply crc_ok_byte..|done]. apply crc_byte_inj in E; [|done..]. by eapply lxor_inj_l.
Qed.

(** Changing one byte of a buffer. *)
Lemma checksum_insert data i b :
  bytes_ok data -> is_byte b -> (i < length data)%nat -> data !! i <> Some b ->
  PageChecksum (<[i := b]> data) <> PageChecksum data.
Proof.
  intros Hd Hb Hi Hn E. destruct (lookup_lt_is_Some_2 data i Hi) as [c Ec].
  rewrite (insert_take_drop data i b Hi) in E. rewrite <- (take_drop_middle data i c Ec) in E at 3.
  apply crc_detects in E; [congruence| | |done|].
  - by apply Forall_take.
  - by apply Forall_drop.
  - by eapply Forall_lookup_1 in Ec; [|exact Hd].
Qed.

Lemma slice_insert_out {A} (s : list A) i x a b : (i < a \/ b <= i)%nat -> slice (<[i := x]> s) a b = slice s a b.
Proof.
  intros H. apply list_eq. intros j. rewrite !slice_lookup. destruct (Nat.ltb_spec j (b - a)); [|done].
  apply list_lookup_insert_ne. lia.
Qed.

Lemma slice_insert_in {A} (s : list A) i x a b :
  (a <= i < b)%nat -> slice (<[i := x]> s) a b = <[(i - a)%nat := x]> (slice s a b).
Proof.
  intros H. apply list_eq. intros j. rewrite slice_lookup. destruct (Nat.ltb_spec j (b - a)).
  - destruct (decide (j = i - a)%nat) as [->|N].
    + replace (a + (i - a))%nat with i by lia. destruct (decide (i < length s)%nat) as [L|L].
      * rewrite !list_lookup_insert_eq; [done| |done]. unfold slice. rewrite length_take, length_drop. lia.
      * rewrite !lookup_ge_None_2; [done| |rewrite length_insert; lia].
        rewrite length_insert. unfold slice. rewrite length_take, length_drop. lia.
    + rewrite !list_lookup_insert_ne by lia. rewrite slice_lookup. by destruct (Nat.ltb_spec j (b - a)); [|lia].
  - symmetry. apply lookup_ge_None_2. rewrite length_insert. unfold slice. rewrite length_take. lia.
Qed.

(** A word read over a changed byte changes. *)
Lemma getLE_insert n src off i b :
  bytes_ok src -> is_byte b -> (off <= i < off + n)%nat -> (off + n <= length src)%nat -> src !! i <> Some b ->
  getLE n (<[i := b]> src) off <> getLE n src off.
Proof.
  intros Hs Hb Hi Hl Hn E. unfold getLE in E.
  set (w := slice src off (off + n)) in *. set (w' := slice (<[i:=b]> src) off (off + n)) in *.
  assert (Hw : bytes_ok w) by by apply Forall_slice.
  assert (Hw' : bytes_ok w') by (apply Forall_slice, Forall_insert; done).
  assert (L : length w = n) by (unfold w; rewrite slice_length; lia).
  assert (L' : length w' = n) by (unfold w'; rewrite slice_length; rewrite ?length_insert; lia).
  apply (f_equal (le_bytes n)) in E. rewrite <- L' in E at 1. rewrite <- L in E.
  rewrite !le_bytes_le_uint in E by done. apply Hn.
  assert (X : w' !! (i - off)%nat = Some b).
  { unfold w'. rewrite slice_lookup. destruct (Nat.ltb_spec (i - off) (off + n - off)); [|lia].
    replace (off + (i - off))%nat with i by lia. apply list_lookup_insert_eq. lia. }
  rewrite E in X. unfold w in X. rewrite slice_lookup in X.
  destruct (Nat.ltb_spec (i - off) (off + n - off)); [|lia]. by replace (off + (i - off))%nat with i in X by lia.
Qed.

Lemma getLE_insert_out n src off i b :
  (i < off \/ off + n <= i)%nat -> getLE n (<[i := b]> src) off = getLE n src off.
Proof. intros H. unfold getLE. by rewrite slice_insert_out. Qed.

(** The two words a seal writes reject every changed byte of what they cover. *)
Lemma seal_detects (src : list Z) (trailer i : nat) (b : Z) :
  bytes_ok src -> is_byte b -> (trailer + 8 <= length src)%nat -> (i < trailer + 8)%nat -> src !! i <> Some b ->
  Uint32 src (trailer + 4) = not32 (Uint32 src trailer) -> PageChecksum (slice src 0 trailer) = Uint32 src trailer ->
  let src' := <[i := b]> src in
  Uint32 src' (trailer + 4) <> not32 (Uint32 src' trailer) \/
  PageChecksum (slice src' 0 trailer) <> Uint32 src' trailer.
Proof.
  intros Hs Hb L Li Hn E1 E2 src'. unfold Uint32, src' in *. destruct (decide (i < trailer)%nat) as [Lt|Lt].
  - right. rewrite getLE_insert_out, <- E2, slice_insert_in, Nat.sub_0_r by lia. apply checksum_insert; [|done| |].
    + by apply Forall_slice.
    + rewrite slice_length; lia.
    + rewrite slice_lookup. by destruct (Nat.ltb_spec i (trailer - 0)); [|lia].
  - left. destruct (decide (i < trailer + 4)%nat).
    + rewrite (getLE_insert_out 4 src (trailer + 4)) by lia. rewrite E1.
      pose proof (getLE_insert 4 src trailer i b Hs Hb ltac:(lia) ltac:(lia) Hn). unfold not32. lia.
    + rewrite (getLE_insert_out 4 src trailer) by lia. rewrite <- E1. apply getLE_insert; (done || lia).
Qed.
