(* ===== verification/Page.v ===== *)
(** * Page: the checksummed page envelope

    Models internal/storeio/page.go with the size predicate of superblock.go.
    A page buffer is a byte list; [InitPage] returns the initialised page, whose
    payload window is [[64, 64 + PayloadLength)], and callers fill it with
    [setBytes] at offset [PageHeaderSize + k], which is what writing through the
    aliasing payload slice does.  Proved: sealing and opening a filled page is a
    round trip, opening any byte sequence never panics and yields only
    well-formed headers, and no changed byte goes unnoticed. *)
From Stdlib Require Import ZArith Lia List Bool.
From stdpp Require Import base numbers list strings.
From S2P Require Import Prelude Bytes.

Open Scope Z_scope.

Definition PageHeaderSize : nat := 64.
Definition PageTrailerSize : nat := 8.
(** ["SJPAGE01"] *)
Definition pageMagic : list Z := [83; 74; 80; 65; 71; 69; 48; 49].
Definition pageVersion : Z := 1.

(** [PageKind] values are durable format identifiers. *)
Definition PageStateRoot : Z := 1.
Definition PageDocument : Z := 2.
Definition PageOverflow : Z := 3.
Definition PageChunkDirectory : Z := 4.
Definition PageKeyDirectory : Z := 5.
Definition PageIndexDirectory : Z := 6.
Definition PageTTLDirectory : Z := 7.
Definition PageFreeDirectory : Z := 8.
Definition PageIndexPosting : Z := 9.
Definition PageDocumentGroup : Z := 10.
Definition PageFloat64Group : Z := 11.
Definition PageFloat64Catalog : Z := 12.
Definition PageFloat64Stripe : Z := 13.
Definition PageIndexGroupCatalog : Z := 14.

Record PageHeader := mkPageHeader {
  ph_StoreID : list Z;
  ph_Generation : Z;
  ph_LogicalID : Z;
  ph_PageSize : Z;
  ph_PayloadLength : Z;
  ph_Kind : Z;
  ph_Flags : Z;
}.

Definition zeroStoreID : list Z := replicate 16 0.

Definition physicalPageQuantum : Z := 4096.

Definition validPhysicalPageSize (pageSize : Z) : bool :=
  (physicalPageQuantum <=? pageSize) && (Z.land pageSize (pageSize - 1) =? 0).

Definition validPageKind (kind : Z) : bool :=
  (PageStateRoot <=? kind) && (kind <=? PageIndexGroupCatalog).

(** Bit 0 is [DocumentGroupFlagFloat64Sidecar]; the known flags are
    0x01 | 0x1e | 0xe0. *)
Definition DocumentGroupFlagFloat64Sidecar : Z := 1.
Definition documentGroupKnownFlags : Z := Z.lor 1 (Z.lor 0x1e 0xe0).

Definition validPageFlags (kind flags : Z) : bool :=
  if kind =? PageDocumentGroup then
    (Z.ldiff flags documentGroupKnownFlags =? 0) &&
    (negb (Z.land flags DocumentGroupFlagFloat64Sidecar =? 0) || (flags =? 0))
  else flags =? 0.

Definition validatePageHeader (header : PageHeader) : option io_error :=
  if bool_decide (ph_StoreID header = zeroStoreID) || (ph_Generation header =? 0) || (ph_LogicalID header =? 0)
  then Some (ErrInvalidWrite "zero page identity")
  else if negb (validPageKind (ph_Kind header)) || negb (validPageFlags (ph_Kind header) (ph_Flags header))
  then Some (ErrInvalidWrite "page kind or flags")
  else if negb (validPhysicalPageSize (ph_PageSize header)) ||
          (ph_PageSize header - Z.of_nat PageHeaderSize - Z.of_nat PageTrailerSize <? ph_PayloadLength header)
  then Some (ErrInvalidWrite "page or payload size")
  else None.

(** The header fields written over a cleared page. *)
Definition writePageHeader (page : list Z) (header : PageHeader) : list Z :=
  let page := setBytes page 0 pageMagic in
  let page := PutUint16 page 8 pageVersion in
  let page := PutUint16 page 10 (Z.of_nat PageHeaderSize) in
  let page := setBytes page 12 [ph_Kind header] in
  let page := setBytes page 13 [ph_Flags header] in
  let page := PutUint32 page 16 (ph_PageSize header) in
  let page := PutUint32 page 20 (ph_PayloadLength header) in
  let page := PutUint64 page 24 (ph_Generation header) in
  let page := PutUint64 page 32 (ph_LogicalID header) in
  setBytes page 40 (ph_StoreID header).

(** [dst] is only overwritten, so its length is all that matters. *)
Definition InitPage (dst : list Z) (header : PageHeader) : io_res (list Z) :=
  match validatePageHeader header with
  | Some err => Err err
  | None =>
      if Z.of_nat (length dst) <? ph_PageSize header then Err (ErrInvalidWrite "page buffer")
      else Ok (writePageHeader (replicate (Z.to_nat (ph_PageSize header)) 0) header)
  end.

(** [None] is Go's [false]. *)
Definition decodePageHeader (src : list Z) : option PageHeader :=
  if (length src <? PageHeaderSize)%nat || negb (bool_decide (slice src 0 8 = pageMagic)) ||
     negb (Uint16 src 8 =? pageVersion) || negb (Uint16 src 10 =? Z.of_nat PageHeaderSize)
  then None
  else
    let header := mkPageHeader (slice src 40 56) (Uint64 src 24) (Uint64 src 32) (Uint32 src 16)
                    (Uint32 src 20) (getByte src 12) (getByte src 13) in
    match validatePageHeader header with None => Some header | Some _ => None end.

(** The sealed page and its checksum. *)
Definition sealPage (page : list Z) (validatePadding : bool) : io_res (list Z * Z) :=
  match decodePageHeader page with
  | None => Err (ErrInvalidWrite "invalid page header")
  | Some header =>
      if Z.of_nat (length page) <? ph_PageSize header then Err (ErrInvalidWrite "invalid page header")
      else
        page ← window page 0 (Z.to_nat (ph_PageSize header));
        let payloadEnd := (PageHeaderSize + Z.to_nat (ph_PayloadLength header))%nat in
        let trailer := (length page - PageTrailerSize)%nat in
        padding ← (if validatePadding then window page payloadEnd trailer else Ok []);
        if negb (allZero (slice page 14 16)) || negb (allZero (slice page 56 64)) ||
           (validatePadding && negb (allZero padding))
        then Err (ErrInvalidWrite "non-zero page reserved bytes or padding")
        else
          body ← window page 0 trailer;
          let checksum := PageChecksum body in
          let page := PutUint32 page trailer checksum in
          Ok (PutUint32 page (trailer + 4) (not32 checksum), checksum)
  end.

Definition SealPage (page : list Z) : io_res (list Z * Z) := sealPage page true.
Definition sealInitializedPage (page : list Z) : io_res (list Z * Z) := sealPage page false.

Definition OpenPage (src : list Z) : io_res (PageHeader * list Z) :=
  match decodePageHeader src with
  | None => Err (ErrPageCorrupt "header")
  | Some header =>
      if Z.of_nat (length src) <? ph_PageSize header then Err (ErrPageCorrupt "header")
      else
        page ← window src 0 (Z.to_nat (ph_PageSize header));
        let payloadEnd := (PageHeaderSize + Z.to_nat (ph_PayloadLength header))%nat in
        let trailer := (length page - PageTrailerSize)%nat in
        body ← window page 0 trailer;
        let checksum := Uint32 page trailer in
        if negb (Uint32 page (trailer + 4) =? not32 checksum) || negb (PageChecksum body =? checksum)
        then Err (ErrPageCorrupt "checksum")
        else if negb (allZero (slice page 14 16)) || negb (allZero (slice page 56 64))
        then Err (ErrPageCorrupt "reserved bytes")
        else payload ← window page PageHeaderSize payloadEnd; Ok (header, payload)
  end.

(** ** Properties *)

(** The Go types of the header's fields. *)
Definition page_header_ok (h : PageHeader) : Prop :=
  length (ph_StoreID h) = 16%nat /\ bytes_ok (ph_StoreID h) /\ word_ok 8 (ph_Generation h) /\
  word_ok 8 (ph_LogicalID h) /\ word_ok 4 (ph_PageSize h) /\ word_ok 4 (ph_PayloadLength h) /\
  is_byte (ph_Kind h) /\ is_byte (ph_Flags h).

(** What every encoder and decoder may assume of a valid header. *)
Lemma validatePageHeader_size h :
  0 <= ph_PayloadLength h -> validatePageHeader h = None ->
  4096 <= ph_PageSize h /\ 72 + ph_PayloadLength h <= ph_PageSize h.
Proof.
  unfold validatePageHeader. intros Hp E. repeat case_match; [done..|].
  match goal with H : _ || (_ <? _) = false |- _ => apply orb_false_iff in H as [[Hv _]%negb_false_iff%andb_true_iff H2%Z.ltb_ge] end.
  unfold physicalPageQuantum, PageHeaderSize, PageTrailerSize in *. lia.
Qed.

Lemma writePageHeader_length page h : length (writePageHeader page h) = length page.
Proof. unfold writePageHeader, PutUint16, PutUint32, PutUint64, putLE. cbn zeta. by rewrite !setBytes_length. Qed.

Ltac buf := repeat buf_step.

(** Header fields are read from the first 64 bytes only. *)
Lemma slice_agree (s s' : list Z) n a b : slice s 0 n = slice s' 0 n -> (b <= n)%nat -> slice s a b = slice s' a b.
Proof. intros E H. pose proof (slice_slice s 0 n a b H) as X. pose proof (slice_slice s' 0 n a b H) as Y. simpl in *. congruence. Qed.

Lemma getByte_agree (s s' : list Z) n a : slice s 0 n = slice s' 0 n -> (a < n)%nat -> getByte s a = getByte s' a.
Proof.
  intros E H. unfold getByte. f_equal. apply (f_equal (fun l => l !! a)) in E. rewrite !slice_lookup in E.
  by destruct (Nat.ltb_spec a (n - 0)); [|lia].
Qed.

Lemma decodePageHeader_prefix src src' :
  (64 <= length src)%nat -> (64 <= length src')%nat -> slice src 0 64 = slice src' 0 64 ->
  decodePageHeader src = decodePageHeader src'.
Proof.
  intros L L' E. unfold decodePageHeader, Uint16, Uint32, Uint64, getLE, PageHeaderSize.
  rewrite !(proj2 (Nat.ltb_ge _ 64)) by lia.
  rewrite !(slice_agree src src' 64), !(getByte_agree src src' 64) by (done || lia). done.
Qed.

Lemma header_fields page h :
  page_header_ok h -> (64 <= length page)%nat ->
  let p := writePageHeader page h in
  slice p 0 8 = pageMagic /\ Uint16 p 8 = pageVersion /\ Uint16 p 10 = 64 /\
  mkPageHeader (slice p 40 56) (Uint64 p 24) (Uint64 p 32) (Uint32 p 16) (Uint32 p 20) (getByte p 12) (getByte p 13) = h.
Proof.
  intros (Hl & Hi & Hg & Hid & Hs & Hp & Hk & Hf) L p.
  unfold p, writePageHeader, PutUint16, PutUint32, PutUint64, putLE, Uint16, Uint32, Uint64. cbn zeta.
  assert (word_ok 2 pageVersion) by by unfold word_ok. assert (word_ok 2 (Z.of_nat PageHeaderSize)) by by unfold word_ok.
  split_and!; buf; [done..|]. by destruct h.
Qed.

(** A page whose first 64 bytes are the header written by [InitPage]. *)
Definition initialized (h : PageHeader) (p : list Z) : Prop :=
  Z.of_nat (length p) = ph_PageSize h /\
  slice p 0 64 = slice (writePageHeader (replicate (Z.to_nat (ph_PageSize h)) 0) h) 0 64.

Lemma InitPage_initialized dst h p :
  0 <= ph_PayloadLength h -> InitPage dst h = Ok p -> validatePageHeader h = None /\ initialized h p /\
  p = writePageHeader (replicate (Z.to_nat (ph_PageSize h)) 0) h /\ ph_PageSize h <= Z.of_nat (length dst).
Proof.
  intros Hp. unfold InitPage. destruct (validatePageHeader h) eqn:V; [done|].
  destruct (Z.ltb_spec (Z.of_nat (length dst)) (ph_PageSize h)); [done|]. intros [= <-].
  destruct (validatePageHeader_size h Hp V). split; [done|]. split; [split; [|done]|by split].
  rewrite writePageHeader_length, length_replicate. lia.
Qed.

Lemma InitPage_total dst h :
  0 <= ph_PayloadLength h -> validatePageHeader h = None -> ph_PageSize h <= Z.of_nat (length dst) ->
  InitPage dst h = Ok (writePageHeader (replicate (Z.to_nat (ph_PageSize h)) 0) h).
Proof.
  intros Hp V L. unfold InitPage. rewrite V. by destruct (Z.ltb_spec (Z.of_nat (length dst)) (ph_PageSize h)); [lia|].
Qed.

(** Filling the payload keeps a page initialised. *)
Lemma initialized_set h p off bs : (64 <= off)%nat -> initialized h p -> initialized h (setBytes p off bs).
Proof. intros L [E1 E2]. split; [by rewrite setBytes_length|]. by rewrite slice_set_out by lia. Qed.

Lemma initialized_header h p :
  page_header_ok h -> validatePageHeader h = None -> initialized h p ->
  decodePageHeader p = Some h /\ slice p 14 16 = [0; 0] /\ slice p 56 64 = replicate 8 0.
Proof.
  intros Ho V [L E]. assert (Hp : 0 <= ph_PayloadLength h) by apply Ho.
  destruct (validatePageHeader_size h Hp V) as [S1 S2].
  set (q := replicate (Z.to_nat (ph_PageSize h)) 0) in *.
  assert (Lq : (4096 <= length q)%nat) by (unfold q; rewrite length_replicate; lia).
  destruct (header_fields q h Ho ltac:(lia)) as (F1 & F2 & F3 & F4). split_and!.
  - rewrite (decodePageHeader_prefix p (writePageHeader q h)); [|lia|rewrite writePageHeader_length; lia|done].
    unfold decodePageHeader. rewrite F1, F2, F3, F4, writePageHeader_length, (proj2 (Nat.ltb_ge _ _)), V
      by (unfold PageHeaderSize; lia). done.
  - rewrite (slice_agree p _ 64 14 16 E) by lia. unfold writePageHeader, PutUint16, PutUint32, PutUint64, putLE. cbn zeta.
    destruct Ho as (Hl & _). buf. unfold q. rewrite slice_replicate by lia. done.
  - rewrite (slice_agree p _ 64 56 64 E) by lia. unfold writePageHeader, PutUint16, PutUint32, PutUint64, putLE. cbn zeta.
    destruct Ho as (Hl & _). buf. unfold q. rewrite slice_replicate by lia. done.
Qed.

Lemma slice_app_l {A} (p rest : list A) b a : (b <= length p)%nat -> slice (p ++ rest) a b = slice p a b.
Proof.
  intros L. apply list_eq. intros i. rewrite !slice_lookup. destruct (Nat.ltb_spec i (b - a)); [|done].
  by rewrite lookup_app_l by lia.
Qed.

Lemma getLE_app_l n p rest a : (a + n <= length p)%nat -> getLE n (p ++ rest) a = getLE n p a.
Proof. intros L. unfold getLE. by rewrite slice_app_l. Qed.

Lemma not32_ok x : crc_ok x -> word_ok 4 (not32 x).
Proof. unfold crc_ok, word_ok, not32. simpl. lia. Qed.

(** The trailer written by a seal. *)
Definition sealed (p : list Z) : list Z :=
  let trailer := (length p - 8)%nat in
  let c := PageChecksum (slice p 0 trailer) in
  setBytes (setBytes p trailer (le_bytes 4 c)) (trailer + 4) (le_bytes 4 (not32 c)).

Lemma sealPage_initialized h p v :
  page_header_ok h -> validatePageHeader h = None -> initialized h p ->
  (v = true -> allZero (slice p (64 + Z.to_nat (ph_PayloadLength h)) (length p - 8)) = true) ->
  sealPage p v = Ok (sealed p, PageChecksum (slice p 0 (length p - 8))).
Proof.
  intros Ho V I Hz. assert (Hp : 0 <= ph_PayloadLength h) by apply Ho.
  destruct (validatePageHeader_size h Hp V) as [S1 S2]. destruct (initialized_header h p Ho V I) as (D & Z1 & Z2).
  destruct I as [L _]. unfold sealPage. rewrite D. destruct (Z.ltb_spec (Z.of_nat (length p)) (ph_PageSize h)); [lia|].
  replace (Z.to_nat (ph_PageSize h)) with (length p) by lia. rewrite window_ok by lia. cbn [mbind res_bind].
  rewrite slice_full, Z1, Z2. unfold PageHeaderSize, PageTrailerSize. destruct v.
  - rewrite !window_ok by lia. cbn [mbind res_bind]. rewrite Hz by done. reflexivity.
  - rewrite !window_ok by lia. reflexivity.
Qed.

Lemma OpenPage_sealed h p rest :
  page_header_ok h -> validatePageHeader h = None -> initialized h p -> bytes_ok p ->
  OpenPage (sealed p ++ rest) = Ok (h, slice p 64 (64 + Z.to_nat (ph_PayloadLength h))).
Proof.
  intros Ho V I Hb. assert (Hp : 0 <= ph_PayloadLength h) by apply Ho.
  destruct (validatePageHeader_size h Hp V) as [S1 S2]. destruct (initialized_header h p Ho V I) as (D & Z1 & Z2).
  destruct I as [L _]. set (t := (length p - 8)%nat). set (c := PageChecksum (slice p 0 t)).
  assert (Hc : crc_ok c) by (by apply PageChecksum_ok, Forall_slice).
  assert (Wc : word_ok 4 c) by exact Hc. pose proof (not32_ok c Hc) as Wn.
  assert (Ls : length (sealed p) = length p) by (unfold sealed; cbn zeta; by rewrite !setBytes_length).
  assert (S : forall a b, (b <= t)%nat -> slice (sealed p) a b = slice p a b).
  { intros a b Hb'. unfold sealed. cbn zeta. fold t. by rewrite !slice_set_out by (rewrite ?le_bytes_length; lia). }
  unfold OpenPage. rewrite (decodePageHeader_prefix (sealed p ++ rest) p), D;
    [|rewrite length_app; lia|lia|by rewrite slice_app_l, S by lia].
  destruct (Z.ltb_spec (Z.of_nat (length (sealed p ++ rest))) (ph_PageSize h)); [rewrite length_app in *; lia|].
  replace (Z.to_nat (ph_PageSize h)) with (length p) by lia. rewrite window_ok by (rewrite ?length_app; lia).
  cbn [mbind res_bind]. rewrite slice_app_l, <- Ls, slice_full, Ls by lia. unfold PageHeaderSize, PageTrailerSize. fold t.
  rewrite !window_ok, !S, Z1, Z2 by lia. cbn [mbind res_bind]. unfold Uint32.
  assert (E1 : getLE 4 (sealed p) t = c).
  { unfold sealed. cbn zeta. fold t. fold c. rewrite get_set_out by lia. apply get_put_hit; [done|lia]. }
  assert (E2 : getLE 4 (sealed p) (t + 4) = not32 c).
  { unfold sealed. cbn zeta. fold t. fold c. apply get_put_hit; [done|rewrite setBytes_length; lia]. }
  rewrite E1, E2. fold c. by rewrite !Z.eqb_refl.
Qed.

Lemma writePageHeader_ok page h : page_header_ok h -> bytes_ok page -> bytes_ok (writePageHeader page h).
Proof.
  intros (_ & Hi & _ & _ & _ & _ & Hk & Hf) Hp. unfold writePageHeader, PutUint16, PutUint32, PutUint64, putLE. cbn zeta.
  repeat (apply setBytes_ok; [|first [apply le_bytes_ok|done|by apply Forall_singleton|idtac]]); [done|].
  by repeat (apply Forall_cons; split; [unfold is_byte; lia|]).
Qed.

(** Initialising a page, filling its payload and sealing it yields a page
    that opens, whatever follows it in the buffer, to the same header and the
    same payload; both seal entry points produce it. *)
Theorem page_roundtrip (dst : list Z) (h : PageHeader) (payload p : list Z) :
  page_header_ok h -> InitPage dst h = Ok p ->
  Z.of_nat (length payload) = ph_PayloadLength h -> bytes_ok payload ->
  exists page c, SealPage (setBytes p PageHeaderSize payload) = Ok (page, c) /\
    sealInitializedPage (setBytes p PageHeaderSize payload) = Ok (page, c) /\
    Z.of_nat (length page) = ph_PageSize h /\
    forall rest, OpenPage (page ++ rest) = Ok (h, payload).
Proof.
  intros Ho E Lp Hb. assert (Hp : 0 <= ph_PayloadLength h) by apply Ho.
  destruct (InitPage_initialized dst h p Hp E) as (V & I & -> & _).
  destruct (validatePageHeader_size h Hp V) as [S1 S2].
  set (q := replicate (Z.to_nat (ph_PageSize h)) 0) in *. set (f := setBytes (writePageHeader q h) PageHeaderSize payload).
  assert (Lq : Z.of_nat (length q) = ph_PageSize h) by (unfold q; rewrite length_replicate; lia).
  assert (If : initialized h f) by (apply initialized_set; [unfold PageHeaderSize; lia|done]).
  assert (Hf : bytes_ok f) by (apply setBytes_ok; [apply writePageHeader_ok; [done|apply zeros_ok]|done]).
  exists (sealed f), (PageChecksum (slice f 0 (length f - 8))). split_and!.
  - apply (sealPage_initialized h); [done..|]. intros _. unfold f, PageHeaderSize.
    rewrite setBytes_length, writePageHeader_length, slice_set_out by lia.
    unfold writePageHeader, PutUint16, PutUint32, PutUint64, putLE. cbn zeta. destruct Ho as (Hl & _).
    rewrite !slice_set_out by (rewrite ?le_bytes_length; simpl; lia). unfold q. rewrite slice_replicate.
    + apply allZero_replicate.
    + rewrite length_replicate. lia.
  - by apply (sealPage_initialized h).
  - unfold sealed. cbn zeta. rewrite !setBytes_length. apply If.
  - intros rest. rewrite (OpenPage_sealed h f rest) by done. do 2 f_equal. unfold f, PageHeaderSize.
    replace (Z.to_nat (ph_PayloadLength h)) with (length payload) by lia. apply slice_set_hit.
    rewrite writePageHeader_length. lia.
Qed.

Definition example_header : PageHeader := mkPageHeader (replicate 16 7) 1 1 4096 3 1 0.

Lemma page_roundtrip_witness :
  exists page c,
    SealPage (setBytes (writePageHeader (replicate 4096 0) example_header) PageHeaderSize [1; 2; 3]) = Ok (page, c) /\
    sealInitializedPage (setBytes (writePageHeader (replicate 4096 0) example_header) PageHeaderSize [1; 2; 3]) = Ok (page, c) /\
    Z.of_nat (length page) = 4096 /\ forall rest, OpenPage (page ++ rest) = Ok (example_header, [1; 2; 3]).
Proof.
  refine (page_roundtrip (replicate 4096 9) example_header [1; 2; 3] (writePageHeader (replicate 4096 0) example_header) _ _ _ _).
  - unfold page_header_ok, example_header, word_ok, is_byte. simpl. split_and!; try lia.
    by apply bytes_ok_bool.
  - vm_compute. reflexivity.
  - reflexivity.
  - by apply bytes_ok_bool.
Defined.

Lemma decodePageHeader_inv src h :
  bytes_ok src -> decodePageHeader src = Some h ->
  (64 <= length src)%nat /\ page_header_ok h /\ validatePageHeader h = None /\ ph_PageSize h = Uint32 src 16.
Proof.
  intros Hb. unfold decodePageHeader, PageHeaderSize. destruct (Nat.ltb_spec (length src) 64); [done|]. cbn [orb].
  case_match; [done|]. case_match eqn:V; [done|]. intros [= <-]. split_and!; [lia| |done|done].
  unfold page_header_ok.
  cbn [ph_StoreID ph_Generation ph_LogicalID ph_PageSize ph_PayloadLength ph_Kind ph_Flags]. split_and!; try (apply getLE_ok; [done|lia]); try by apply getByte_ok.
  - rewrite slice_length; lia.
  - by apply Forall_slice.
Qed.

(** What a successful [OpenPage] has checked. *)
Lemma OpenPage_inv src h payload :
  bytes_ok src -> OpenPage src = Ok (h, payload) ->
  page_header_ok h /\ validatePageHeader h = None /\ ph_PageSize h = Uint32 src 16 /\
  ph_PageSize h <= Z.of_nat (length src) /\
  payload = slice src 64 (64 + Z.to_nat (ph_PayloadLength h)) /\
  let t := (Z.to_nat (ph_PageSize h) - 8)%nat in
  let p := slice src 0 (Z.to_nat (ph_PageSize h)) in
  Uint32 p (t + 4) = not32 (Uint32 p t) /\ PageChecksum (slice p 0 t) = Uint32 p t.
Proof.
  intros Hb. unfold OpenPage. destruct (decodePageHeader src) as [h'|] eqn:D; [|done].
  destruct (decodePageHeader_inv src h' Hb D) as (L & Ho & V & Es). assert (Hp : 0 <= ph_PayloadLength h') by apply Ho.
  destruct (validatePageHeader_size h' Hp V) as [S1 S2].
  destruct (Z.ltb_spec (Z.of_nat (length src)) (ph_PageSize h')); [done|]. rewrite window_ok by lia. cbn [mbind res_bind].
  rewrite slice_length, Nat.sub_0_r by lia. unfold PageHeaderSize, PageTrailerSize.
  rewrite !window_ok by (rewrite ?slice_length; lia). cbn [mbind res_bind].
  case_match eqn:E1; [done|]. case_match; [done|].
  intros [= <- <-].
  split_and!; [done..| | | ].
  - rewrite slice_slice by lia. done.
  - apply orb_false_iff in E1 as [E1%negb_false_iff _]. by apply Z.eqb_eq in E1.
  - apply orb_false_iff in E1 as [_ E1%negb_false_iff]. by apply Z.eqb_eq in E1.
Qed.

Lemma OpenPage_no_panic src : bytes_ok src -> OpenPage src <> Err Panic /\ OpenPage src <> OutOfFuel.
Proof.
  intros Hb. unfold OpenPage. destruct (decodePageHeader src) as [h|] eqn:D; [|done].
  destruct (decodePageHeader_inv src h Hb D) as (L & Ho & V & Es). assert (Hp : 0 <= ph_PayloadLength h) by apply Ho.
  destruct (validatePageHeader_size h Hp V) as [S1 S2].
  destruct (Z.ltb_spec (Z.of_nat (length src)) (ph_PageSize h)); [done|].
  unfold PageHeaderSize, PageTrailerSize. rewrite window_ok by lia. cbn [mbind res_bind].
  rewrite slice_length, Nat.sub_0_r by lia. rewrite !window_ok by (rewrite ?slice_length; lia). cbn [mbind res_bind].
  case_match; [done|]. by case_match.
Qed.

(** Opening any byte sequence whatsoever never panics; when it succeeds the
    header is well formed and the payload is exactly the declared window, inside
    the page and clear of the trailer. *)
Theorem OpenPage_total (src : list Z) :
  bytes_ok src -> OpenPage src <> Err Panic /\ OpenPage src <> OutOfFuel /\
  forall h payload, OpenPage src = Ok (h, payload) ->
    page_header_ok h /\ validatePageHeader h = None /\ ph_PageSize h <= Z.of_nat (length src) /\
    payload = slice src 64 (64 + Z.to_nat (ph_PayloadLength h)) /\
    Z.of_nat (length payload) = ph_PayloadLength h /\ 64 + ph_PayloadLength h + 8 <= ph_PageSize h.
Proof.
  intros Hb. pose proof (OpenPage_no_panic src Hb) as T.
  split; [apply T|]. split; [apply T|]. intros h payload E.
  destruct (OpenPage_inv src h payload Hb E) as (Ho & V & Es & L & -> & _). assert (Hp : 0 <= ph_PayloadLength h) by apply Ho.
  destruct (validatePageHeader_size h Hp V) as [S1 S2]. split_and!; [done..| |lia]. rewrite slice_length; lia.
Qed.

Lemma OpenPage_total_witness : OpenPage [83; 74; 80] <> Err Panic.
Proof. apply (OpenPage_total [83; 74; 80]). by apply bytes_ok_bool. Defined.

(** C33: no changed byte of a page goes unnoticed: a page that opens is
    rejected after any one of its bytes is replaced, be it in the header (its
    size field apart), the payload, the padding or the trailer. *)
Theorem OpenPage_detects (src : list Z) (h : PageHeader) (payload : list Z) (i : nat) (b : Z) :
  bytes_ok src -> OpenPage src = Ok (h, payload) ->
  Z.of_nat i < ph_PageSize h -> (i < 16 \/ 20 <= i)%nat -> is_byte b -> src !! i <> Some b ->
  exists err, OpenPage (<[i := b]> src) = Err err.
Proof.
  intros Hs E Hi H16 Hb Hn. destruct (OpenPage_inv src h payload Hs E) as (Ho & V & Es & L & _ & C1 & C2).
  assert (Hp : 0 <= ph_PayloadLength h) by apply Ho. destruct (validatePageHeader_size h Hp V) as [S1 S2].
  assert (Hs' : bytes_ok (<[i:=b]> src)) by by apply Forall_insert.
  destruct (OpenPage_no_panic (<[i:=b]> src) Hs') as [_ T].
  destruct (OpenPage (<[i:=b]> src)) as [[h' p']|err|] eqn:E'; [|by exists err|done]. exfalso.
  destruct (OpenPage_inv _ _ _ Hs' E') as (_ & _ & Es' & _ & _ & C1' & C2').
  assert (EQ : ph_PageSize h' = ph_PageSize h) by (rewrite Es, Es'; unfold Uint32; rewrite getLE_insert_out by lia; done).
  rewrite EQ in C1', C2'. set (n := Z.to_nat (ph_PageSize h)) in *.
  rewrite slice_insert_in, Nat.sub_0_r in C1', C2' by lia.
  pose proof (seal_detects (slice src 0 n) (n - 8) i b) as X.
  destruct X as [X|X]; [by apply Forall_slice|done|rewrite slice_length; lia|lia| |done|done|done|done].
  rewrite slice_lookup. by destruct (Nat.ltb_spec i (n - 0)); [|lia].
Qed.

Definition sealed_page (r : io_res (list Z * Z)) : list Z :=
  match r with Ok (p, _) => p | _ => [] end.

Definition example_page : list Z :=
  sealed_page (SealPage (setBytes (writePageHeader (replicate (Z.to_nat 4096) 0) example_header) PageHeaderSize [1; 2; 3])).

Lemma OpenPage_detects_witness : exists err, OpenPage (<[65%nat := 9]> example_page) = Err err.
Proof.
  apply (OpenPage_detects example_page example_header [1; 2; 3]).
  - apply bytes_ok_bool. vm_compute. reflexivity.
  - vm_compute. reflexivity.
  - simpl. lia.
  - lia.
  - unfold is_byte. lia.
  - vm_compute. discriminate.
Defined.
