(* ===== verification/StateRoot.v ===== *)
(** * StateRoot: the state-root page

    Models internal/storeio/state_root.go: page references, the state root, its
    validation, its encoding over the page envelope of Page.v and the decoder
    of all four format versions. *)
From Stdlib Require Import ZArith Lia List Bool.
From stdpp Require Import base numbers list strings.
From S2P Require Import Prelude Bytes Page.

Open Scope Z_scope.

Definition StateRootLogicalID : Z := 1.
Definition StateRootPayloadSize : Z := 256.
Definition PageRefSize : nat := 32.
Definition superblockCopies : Z := 2.
Definition maxSuperblockFileOffset : Z := 2 ^ 63 - 1.

Definition stateRootVersionV2 : Z := 2.
Definition stateRootVersionV3 : Z := 3.
Definition stateRootVersionV4 : Z := 4.
Definition stateRootVersion : Z := 5.

Definition StateOptionFloat64Columns : Z := 16.
Definition StateOptionSchema : Z := 32.
(** ShapeTapes, Postings, ValueDict, HashKeys, Float64Columns, Schema *)
Definition stateRootKnownOptions : Z := 63.

Record PageRef := mkPageRef {
  ref_Offset : Z;
  ref_LogicalID : Z;
  ref_Generation : Z;
  ref_Length : Z;
  ref_Kind : Z;
  ref_Flags : Z;
  ref_Aux : Z;
}.

#[export] Instance PageRef_eq_dec : EqDecision PageRef.
Proof. solve_decision. Defined.

(** [PageRef{}] *)
Definition zeroRef : PageRef := mkPageRef 0 0 0 0 0 0 0.
Definition isZeroRef (r : PageRef) : bool := bool_decide (r = zeroRef).

Record StateRoot := mkStateRoot {
  sr_StoreID : list Z;
  sr_Generation : Z;
  sr_PageSize : Z;
  sr_Options : Z;
  sr_DocumentCount : Z;
  sr_TTLCount : Z;
  sr_NextLogicalID : Z;
  sr_ChunkHighWater : Z;
  sr_LiveChunks : Z;
  sr_ChunkDocuments : Z;
  sr_IndexCount : Z;
  sr_IndexMaxDepth : Z;
  sr_IndexCatalogHash : Z;
  sr_FreeChunkHint : Z;
  sr_ChunkDirectory : PageRef;
  sr_KeyDirectory : PageRef;
  sr_IndexDirectory : PageRef;
  sr_TTLDirectory : PageRef;
  sr_Float64ScanHead : PageRef;
  sr_IndexGroupHead : PageRef;
}.

(** The 32 bytes the function stores into [dst]. *)
Definition encodePageRef (ref : PageRef) : list Z :=
  le_bytes 8 (ref_Offset ref) ++ le_bytes 8 (ref_LogicalID ref) ++ le_bytes 8 (ref_Generation ref) ++
  le_bytes 4 (ref_Length ref) ++ [ref_Kind ref] ++ [ref_Flags ref] ++ le_bytes 2 (ref_Aux ref).

Definition decodePageRef (src : list Z) : PageRef :=
  mkPageRef (Uint64 src 0) (Uint64 src 8) (Uint64 src 16) (Uint32 src 24) (getByte src 28) (getByte src 29) (Uint16 src 30).

Definition pageRefReservedZero (src : list Z) : bool := Uint16 src 30 =? 0.

Definition validateStatePageRef (ref : PageRef) (kind : Z) (required : bool) (root : StateRoot) (fileEnd : Z)
    : option io_error :=
  if isZeroRef ref then
    if required then Some (ErrInvalidWrite "missing root") else None
  else
    let pageSize := sr_PageSize root in
    if negb (ref_Kind ref =? kind) || negb (ref_Flags ref =? 0) || negb (ref_Aux ref =? 0) ||
       negb (ref_Length ref =? pageSize) || (ref_Generation ref =? 0) || (sr_Generation root <? ref_Generation ref) ||
       (ref_LogicalID ref <=? StateRootLogicalID) || (sr_NextLogicalID root <=? ref_LogicalID ref) ||
       (ref_Offset ref <? superblockCopies * pageSize) || negb (ref_Offset ref mod pageSize =? 0) ||
       (maxSuperblockFileOffset <? ref_Offset ref) || (fileEnd - pageSize <? ref_Offset ref)
    then Some (ErrInvalidWrite "invalid root reference")
    else None.

(** Two references name the same logical page or the same physical offset. *)
Definition sameRef (a b : PageRef) : bool :=
  (ref_LogicalID a =? ref_LogicalID b) || (ref_Offset a =? ref_Offset b).

(** Some non-zero reference of [refs] clashes with [ref]. *)
Definition duplicateRef (refs : list PageRef) (ref : PageRef) : bool :=
  existsb (fun r => negb (isZeroRef r) && sameRef r ref) refs.

(** The loop over the four directory roots; [seen] is [refs[:i]]. *)
Fixpoint checkRootRefs (root : StateRoot) (fileEnd : Z) (seen : list PageRef)
    (refs : list (PageRef * Z * bool * bool)) : option io_error :=
  match refs with
  | [] => None
  | (ref, kind, required, allowed) :: refs =>
      match validateStatePageRef ref kind required root fileEnd with
      | Some err => Some err
      | None =>
          if negb allowed && negb (isZeroRef ref) then Some (ErrInvalidWrite "unneeded root")
          else if isZeroRef ref then checkRootRefs root fileEnd (seen ++ [ref]) refs
          else if duplicateRef seen ref then Some (ErrInvalidWrite "duplicate root reference")
          else checkRootRefs root fileEnd (seen ++ [ref]) refs
      end
  end.

Definition rootRefs (root : StateRoot) : list (PageRef * Z * bool * bool) :=
  [(sr_ChunkDirectory root, PageChunkDirectory, negb (sr_LiveChunks root =? 0), negb (sr_LiveChunks root =? 0));
   (sr_KeyDirectory root, PageKeyDirectory, negb (sr_DocumentCount root =? 0), negb (sr_DocumentCount root =? 0));
   (sr_IndexDirectory root, PageIndexDirectory, false, negb (sr_IndexCount root =? 0));
   (sr_TTLDirectory root, PageTTLDirectory, negb (sr_TTLCount root =? 0), negb (sr_TTLCount root =? 0))].

Definition directoryRefs (root : StateRoot) : list PageRef :=
  [sr_ChunkDirectory root; sr_KeyDirectory root; sr_IndexDirectory root; sr_TTLDirectory root].

Definition checkFloat64Head (root : StateRoot) (fileEnd : Z) : option io_error :=
  let ref := sr_Float64ScanHead root in
  let pageSize := sr_PageSize root in
  if isZeroRef ref then None
  else if (Z.land (sr_Options root) StateOptionFloat64Columns =? 0) ||
     negb (ref_Kind ref =? PageFloat64Catalog) || negb (ref_Flags ref =? 0) || negb (ref_Aux ref =? 0) ||
     negb (ref_Length ref =? pageSize) || (ref_Generation ref =? 0) || (sr_Generation root <? ref_Generation ref) ||
     (ref_LogicalID ref <=? StateRootLogicalID) || (sr_NextLogicalID root <=? ref_LogicalID ref) ||
     (ref_Offset ref <? superblockCopies * pageSize) || negb (ref_Offset ref mod pageSize =? 0) ||
     (fileEnd <? ref_Length ref) || (maxSuperblockFileOffset <? ref_Offset ref) ||
     (fileEnd - ref_Length ref <? ref_Offset ref)
  then Some (ErrInvalidWrite "invalid float64 scan head")
  else if duplicateRef (directoryRefs root) ref then Some (ErrInvalidWrite "duplicate float64 scan head")
  else None.

Definition checkIndexGroupHead (root : StateRoot) (fileEnd : Z) : option io_error :=
  let ref := sr_IndexGroupHead root in
  let pageSize := sr_PageSize root in
  if isZeroRef ref then None
  else if (sr_IndexCount root =? 0) || (sr_DocumentCount root =? 0) ||
     negb (ref_Kind ref =? PageIndexGroupCatalog) || negb (ref_Flags ref =? 0) || negb (ref_Aux ref =? 0) ||
     negb (validPhysicalPageSize (ref_Length ref)) || (ref_Length ref <? pageSize) ||
     negb (ref_Length ref mod pageSize =? 0) ||
     (ref_Generation ref =? 0) || (sr_Generation root <? ref_Generation ref) ||
     (ref_LogicalID ref <=? StateRootLogicalID) || (sr_NextLogicalID root <=? ref_LogicalID ref) ||
     (ref_Offset ref <? superblockCopies * pageSize) || negb (ref_Offset ref mod pageSize =? 0) ||
     (fileEnd <? ref_Length ref) || (maxSuperblockFileOffset <? ref_Offset ref) ||
     (fileEnd - ref_Length ref <? ref_Offset ref)
  then Some (ErrInvalidWrite "invalid index group head")
  else if duplicateRef (directoryRefs root) ref then Some (ErrInvalidWrite "duplicate index group head")
  else if duplicateRef [sr_Float64ScanHead root] ref then Some (ErrInvalidWrite "duplicate aggregate head")
  else None.

(** [if err := m; err != nil { return err }] followed by the rest. *)
Definition firstError (m k : option io_error) : option io_error :=
  match m with Some err => Some err | None => k end.

Definition validateStateRoot (root : StateRoot) (fileEnd : Z) : option io_error :=
  let pageSize := sr_PageSize root in
  let hasCatalog := negb (sr_IndexCount root =? 0) ||
    negb (Z.land (sr_Options root) (Z.lor StateOptionFloat64Columns StateOptionSchema) =? 0) in
  if bool_decide (sr_StoreID root = zeroStoreID) || (sr_Generation root =? 0) ||
     negb (validPhysicalPageSize pageSize) || negb (Z.ldiff (sr_Options root) stateRootKnownOptions =? 0)
  then Some (ErrInvalidWrite "state identity, page size, or options")
  else if (fileEnd <? superblockCopies * pageSize) || (maxSuperblockFileOffset <? fileEnd) ||
          negb (fileEnd mod pageSize =? 0)
  then Some (ErrInvalidWrite "state file high-water mark")
  else if (sr_ChunkDocuments root =? 0) || (64 <? sr_ChunkDocuments root) ||
          (sr_ChunkHighWater root <? sr_LiveChunks root) || (sr_DocumentCount root <? sr_TTLCount root) ||
          (sr_ChunkHighWater root <? sr_FreeChunkHint root) || (sr_NextLogicalID root <=? StateRootLogicalID) ||
          negb (Bool.eqb hasCatalog (negb (sr_IndexCatalogHash root =? 0)))
  then Some (ErrInvalidWrite "state counts")
  else if (sr_LiveChunks root =? 0) && negb (sr_DocumentCount root =? 0)
  then Some (ErrInvalidWrite "documents without chunks")
  else if negb (sr_LiveChunks root =? 0) &&
          ((sr_DocumentCount root <? sr_LiveChunks root) ||
           (sr_LiveChunks root * sr_ChunkDocuments root <? sr_DocumentCount root))
  then Some (ErrInvalidWrite "document/chunk counts")
  else
    firstError (checkRootRefs root fileEnd [] (rootRefs root))
      (firstError (checkFloat64Head root fileEnd) (checkIndexGroupHead root fileEnd)).

(** The payload fields, written at [PageHeaderSize + offset] of the page. *)
Definition writeStateRoot (page : list Z) (root : StateRoot) : list Z :=
  let page := PutUint32 page (64 + 0) stateRootVersion in
  let page := PutUint32 page (64 + 4) (sr_Options root) in
  let page := PutUint64 page (64 + 8) (sr_DocumentCount root) in
  let page := PutUint64 page (64 + 16) (sr_TTLCount root) in
  let page := PutUint64 page (64 + 24) (sr_NextLogicalID root) in
  let page := PutUint32 page (64 + 32) (sr_ChunkHighWater root) in
  let page := PutUint32 page (64 + 36) (sr_LiveChunks root) in
  let page := PutUint32 page (64 + 40) (sr_ChunkDocuments root) in
  let page := PutUint32 page (64 + 44) (sr_IndexCount root) in
  let page := PutUint32 page (64 + 48) (sr_IndexMaxDepth root) in
  let page := PutUint64 page (64 + 52) (sr_IndexCatalogHash root) in
  let page := PutUint32 page (64 + 60) (sr_FreeChunkHint root) in
  let page := setBytes page (64 + 64) (encodePageRef (sr_ChunkDirectory root)) in
  let page := setBytes page (64 + 96) (encodePageRef (sr_KeyDirectory root)) in
  let page := setBytes page (64 + 128) (encodePageRef (sr_IndexDirectory root)) in
  let page := setBytes page (64 + 160) (encodePageRef (sr_TTLDirectory root)) in
  let page := setBytes page (64 + 192) (encodePageRef (sr_Float64ScanHead root)) in
  setBytes page (64 + 224) (encodePageRef (sr_IndexGroupHead root)).

Definition stateRootHeader (root : StateRoot) : PageHeader :=
  mkPageHeader (sr_StoreID root) (sr_Generation root) StateRootLogicalID (sr_PageSize root)
    StateRootPayloadSize PageStateRoot 0.

Definition EncodeStateRootPage (dst : list Z) (root : StateRoot) (fileEnd : Z) : io_res (list Z) :=
  match validateStateRoot root fileEnd with
  | Some err => Err err
  | None =>
      page ← InitPage dst (stateRootHeader root);
      '(page, _) ← sealInitializedPage (writeStateRoot page root);
      Ok page
  end.

Definition stateRootVersionKnown (version : Z) : bool :=
  (version =? stateRootVersionV2) || (version =? stateRootVersionV3) ||
  (version =? stateRootVersionV4) || (version =? stateRootVersion).

(** The free-chunk hint, reserved and zero in version two. *)
Definition decodeFreeHint (version : Z) (payload : list Z) : io_res Z :=
  if version =? stateRootVersionV2 then
    if negb (allZero (slice payload 60 64)) then Err (ErrStateRootCorrupt "version-two reserved bytes") else Ok 0
  else Ok (Uint32 payload 60).

(** The two aggregate heads, present from versions four and five on. *)
Definition decodeHeads (version : Z) (payload : list Z) : io_res (PageRef * PageRef) :=
  if (version =? stateRootVersion) || (version =? stateRootVersionV4) then
    if negb (pageRefReservedZero (slice payload 192 224)) ||
       ((version =? stateRootVersionV4) && negb (allZero (slice payload 224 256)))
    then Err (ErrStateRootCorrupt "float64 scan head or reserved bytes")
    else
      let head := decodePageRef (slice payload 192 224) in
      if version =? stateRootVersion then
        if negb (pageRefReservedZero (slice payload 224 256)) || negb (allZero (slice payload 256 256))
        then Err (ErrStateRootCorrupt "index group head or reserved bytes")
        else Ok (head, decodePageRef (slice payload 224 256))
      else Ok (head, zeroRef)
  else if negb (allZero (slice payload 192 256)) then Err (ErrStateRootCorrupt "legacy reserved bytes")
  else Ok (zeroRef, zeroRef).

Definition decodeRootFields (header : PageHeader) (payload : list Z) (freeChunkHint : Z)
    (float64ScanHead indexGroupHead : PageRef) : StateRoot :=
  mkStateRoot (ph_StoreID header) (ph_Generation header) (ph_PageSize header)
    (Uint32 payload 4) (Uint64 payload 8) (Uint64 payload 16) (Uint64 payload 24) (Uint32 payload 32)
    (Uint32 payload 36) (Uint32 payload 40) (Uint32 payload 44) (Uint32 payload 48) (Uint64 payload 52)
    freeChunkHint (decodePageRef (slice payload 64 96)) (decodePageRef (slice payload 96 128))
    (decodePageRef (slice payload 128 160)) (decodePageRef (slice payload 160 192)) float64ScanHead indexGroupHead.

Definition DecodeStateRootPage (src : list Z) (fileEnd : Z) : io_res StateRoot :=
  match OpenPage src with
  | OutOfFuel => OutOfFuel
  | Err Panic => Err Panic
  | Err _ => Err (ErrStateRootCorrupt "page")
  | Ok (header, payload) =>
      first ← window payload 0 4;
      let version := le_uint first in
      if negb (ph_Kind header =? PageStateRoot) || negb (ph_LogicalID header =? StateRootLogicalID) ||
         negb (Z.of_nat (length payload) =? StateRootPayloadSize) || negb (stateRootVersionKnown version) ||
         negb (pageRefReservedZero (slice payload 64 96)) || negb (pageRefReservedZero (slice payload 96 128)) ||
         negb (pageRefReservedZero (slice payload 128 160)) || negb (pageRefReservedZero (slice payload 160 192))
      then Err (ErrStateRootCorrupt "header, version, or reserved bytes")
      else
        freeChunkHint ← decodeFreeHint version payload;
        '(float64ScanHead, indexGroupHead) ← decodeHeads version payload;
        let root := decodeRootFields header payload freeChunkHint float64ScanHead indexGroupHead in
        match validateStateRoot root fileEnd with
        | Some _ => Err (ErrStateRootCorrupt "validate")
        | None => Ok root
        end
  end.

(** ** Properties *)

Definition ref_ok (r : PageRef) : Prop :=
  word_ok 8 (ref_Offset r) /\ word_ok 8 (ref_LogicalID r) /\ word_ok 8 (ref_Generation r) /\
  word_ok 4 (ref_Length r) /\ is_byte (ref_Kind r) /\ is_byte (ref_Flags r) /\ word_ok 2 (ref_Aux r).

Definition allRefs (root : StateRoot) : list PageRef :=
  directoryRefs root ++ [sr_Float64ScanHead root; sr_IndexGroupHead root].

(** The Go types of the fields. *)
Definition state_root_ok (r : StateRoot) : Prop :=
  length (sr_StoreID r) = 16%nat /\ bytes_ok (sr_StoreID r) /\ word_ok 8 (sr_Generation r) /\ word_ok 4 (sr_PageSize r) /\
  word_ok 4 (sr_Options r) /\ word_ok 8 (sr_DocumentCount r) /\ word_ok 8 (sr_TTLCount r) /\
  word_ok 8 (sr_NextLogicalID r) /\ word_ok 4 (sr_ChunkHighWater r) /\ word_ok 4 (sr_LiveChunks r) /\
  word_ok 4 (sr_ChunkDocuments r) /\ word_ok 4 (sr_IndexCount r) /\ word_ok 4 (sr_IndexMaxDepth r) /\
  word_ok 8 (sr_IndexCatalogHash r) /\ word_ok 4 (sr_FreeChunkHint r) /\ Forall ref_ok (allRefs r).

Lemma encodePageRef_length r : length (encodePageRef r) = 32%nat.
Proof. reflexivity. Qed.

Lemma encodePageRef_ok r : ref_ok r -> bytes_ok (encodePageRef r).
Proof.
  intros (_ & _ & _ & _ & Hk & Hf & _). unfold encodePageRef, bytes_ok.
  rewrite !Forall_app, !Forall_singleton. split_and!; try apply le_bytes_ok; done.
Qed.

Lemma decode_encodePageRef r : ref_ok r -> decodePageRef (encodePageRef r) = r.
Proof.
  intros (H1 & H2 & H3 & H4 & _ & _ & H5). unfold decodePageRef, Uint64, Uint32, Uint16, getLE.
  change (slice (encodePageRef r) 0 (0 + 8)) with (le_bytes 8 (ref_Offset r)).
  change (slice (encodePageRef r) 8 (8 + 8)) with (le_bytes 8 (ref_LogicalID r)).
  change (slice (encodePageRef r) 16 (16 + 8)) with (le_bytes 8 (ref_Generation r)).
  change (slice (encodePageRef r) 24 (24 + 4)) with (le_bytes 4 (ref_Length r)).
  change (slice (encodePageRef r) 30 (30 + 2)) with (le_bytes 2 (ref_Aux r)).
  rewrite !le_uint_le_bytes by done. by destruct r.
Qed.

Lemma reserved_encodePageRef r : ref_ok r -> pageRefReservedZero (encodePageRef r) = (ref_Aux r =? 0).
Proof.
  intros Ho. unfold pageRefReservedZero. pose proof (decode_encodePageRef r Ho) as E.
  apply (f_equal ref_Aux) in E. simpl in E. by rewrite E.
Qed.

(** What validation promises of every non-zero reference. *)
Definition ref_in_file (root : StateRoot) (fileEnd : Z) (r : PageRef) : Prop :=
  superblockCopies * sr_PageSize root <= ref_Offset r /\ ref_Offset r mod sr_PageSize root = 0 /\
  0 < ref_Length r /\ ref_Offset r + ref_Length r <= fileEnd /\
  0 < ref_Generation r <= sr_Generation root /\
  StateRootLogicalID < ref_LogicalID r < sr_NextLogicalID root /\ ref_Flags r = 0 /\ ref_Aux r = 0.

Ltac bool_hyps :=
  repeat match goal with
  | H : _ || _ = false |- _ => apply orb_false_iff in H as [? ?]
  | H : negb _ = false |- _ => apply negb_false_iff in H
  | H : (_ =? _) = true |- _ => apply Z.eqb_eq in H
  | H : (_ =? _) = false |- _ => apply Z.eqb_neq in H
  | H : (_ <? _) = false |- _ => apply Z.ltb_ge in H
  | H : (_ <=? _) = false |- _ => apply Z.leb_gt in H
  | H : _ && _ = true |- _ => apply andb_true_iff in H as [? ?]
  | H : (_ <=? _) = true |- _ => apply Z.leb_le in H
  end.

Lemma isZeroRef_spec r : isZeroRef r = true <-> r = zeroRef.
Proof. apply bool_decide_eq_true. Qed.

Lemma validateStatePageRef_spec ref kind req root fe :
  ref_ok ref -> 0 < sr_PageSize root ->
  validateStatePageRef ref kind req root fe = None -> ref = zeroRef \/ ref_in_file root fe ref.
Proof.
  intros (Ho & Hl & Hg & _) Hps. unfold validateStatePageRef. destruct (isZeroRef ref) eqn:Ez; [left; by apply isZeroRef_spec|].
  cbn zeta. case_match eqn:E; [done|]. intros _. right. bool_hyps. unfold ref_in_file, word_ok in *. split_and!; lia || done.
Qed.

Lemma checkFloat64Head_spec root fe :
  ref_ok (sr_Float64ScanHead root) -> 0 < sr_PageSize root -> checkFloat64Head root fe = None ->
  sr_Float64ScanHead root = zeroRef \/
  ref_in_file root fe (sr_Float64ScanHead root) /\ duplicateRef (directoryRefs root) (sr_Float64ScanHead root) = false.
Proof.
  intros (Ho & Hl & Hg & _) Hps. unfold checkFloat64Head. cbn zeta.
  destruct (isZeroRef _) eqn:Ez; [left; by apply isZeroRef_spec|].
  case_match eqn:E; [done|]. case_match eqn:E2; [done|]. intros _. right. split; [|done]. bool_hyps.
  unfold ref_in_file, word_ok in *. split_and!; lia || done.
Qed.

Lemma checkIndexGroupHead_spec root fe :
  ref_ok (sr_IndexGroupHead root) -> 0 < sr_PageSize root -> checkIndexGroupHead root fe = None ->
  sr_IndexGroupHead root = zeroRef \/
  ref_in_file root fe (sr_IndexGroupHead root) /\
  duplicateRef (directoryRefs root ++ [sr_Float64ScanHead root]) (sr_IndexGroupHead root) = false.
Proof.
  intros (Ho & Hl & Hg & _) Hps. unfold checkIndexGroupHead. cbn zeta.
  destruct (isZeroRef _) eqn:Ez; [left; by apply isZeroRef_spec|].
  case_match eqn:E; [done|]. case_match eqn:E2; [done|]. case_match eqn:E3; [done|]. intros _. right. split.
  - bool_hyps. unfold ref_in_file, word_ok in *. split_and!; lia || done.
  - unfold duplicateRef in *. by rewrite existsb_app, E2, E3.
Qed.

(** No two non-zero references name the same page or offset. *)
Fixpoint refs_distinct (refs : list PageRef) : Prop :=
  match refs with
  | [] => True
  | r :: rest =>
      (r <> zeroRef -> Forall (fun x => x <> zeroRef -> ref_LogicalID x <> ref_LogicalID r /\ ref_Offset x <> ref_Offset r) rest)
      /\ refs_distinct rest
  end.

Lemma refs_distinct_snoc refs r :
  refs_distinct refs -> (r = zeroRef \/ duplicateRef refs r = false) -> refs_distinct (refs ++ [r]).
Proof.
  intros Hd Hr. induction refs as [|x refs IH]; simpl; [split; [intros; by apply Forall_nil|done]|].
  destruct Hd as [Hx Hd]. split.
  - intros Nx. apply Forall_app. split; [by apply Hx|]. apply Forall_singleton. intros Nr.
    destruct Hr as [?|Hr]; [done|]. simpl in Hr. apply orb_false_iff in Hr as [Hr _].
    assert (Zx : isZeroRef x = false) by by apply bool_decide_eq_false. rewrite Zx in Hr.
    simpl in Hr. unfold sameRef in Hr. bool_hyps. split; congruence.
  - apply IH; [done|]. destruct Hr as [Hr|Hr]; [by left|right]. simpl in Hr. by apply orb_false_iff in Hr as [_ Hr].
Qed.

Lemma checkRootRefs_spec root fe seen refs :
  0 < sr_PageSize root -> Forall (fun x => ref_ok x.1.1.1) refs ->
  Forall (fun r => r = zeroRef \/ ref_in_file root fe r) seen -> refs_distinct seen ->
  checkRootRefs root fe seen refs = None ->
  let all := seen ++ ((fun x => x.1.1.1) <$> refs) in
  Forall (fun r => r = zeroRef \/ ref_in_file root fe r) all /\ refs_distinct all.
Proof.
  intros Hps. revert seen. induction refs as [|[[[r k] q] a] refs IH]; intros seen Ho Hs Hd; cbn zeta; simpl; [by rewrite app_nil_r|].
  apply Forall_cons in Ho as [Hr Ho]. cbn in Hr. destruct (validateStatePageRef r k q root fe) eqn:V; [done|].
  apply validateStatePageRef_spec in V; [|done..]. destruct (negb a && _); [done|].
  assert (G : (r = zeroRef \/ duplicateRef seen r = false) -> checkRootRefs root fe (seen ++ [r]) refs = None ->
    Forall (fun r => r = zeroRef \/ ref_in_file root fe r) (seen ++ r :: ((fun x => x.1.1.1) <$> refs)) /\
    refs_distinct (seen ++ r :: ((fun x => x.1.1.1) <$> refs))).
  { intros Hr' E. rewrite (app_assoc seen [r] _ : seen ++ r :: _ = _). apply IH; [done| |by apply refs_distinct_snoc|done].
    apply Forall_app. split; [done|]. by apply Forall_singleton. }
  destruct (isZeroRef r) eqn:Z.
  - intros E. apply G; [left; by apply isZeroRef_spec|done].
  - destruct (duplicateRef seen r) eqn:D; [done|]. intros E. apply G; [by right|done].
Qed.

(** The bounds, identities and distinctness of all six references. *)
Lemma validateStateRoot_refs root fe :
  state_root_ok root -> validateStateRoot root fe = None ->
  Forall (fun r => r = zeroRef \/ ref_in_file root fe r) (allRefs root) /\ refs_distinct (allRefs root).
Proof.
  intros Ho. assert (Hr : Forall ref_ok (allRefs root)) by apply Ho. unfold validateStateRoot. cbn zeta.
  case_match eqn:E1; [done|]. do 4 (case_match; [done|]). unfold firstError.
  destruct (checkRootRefs _ _ _ _) eqn:C1; [done|]. destruct (checkFloat64Head root fe) eqn:C2; [done|]. intros C3.
  assert (Hps : 0 < sr_PageSize root).
  { bool_hyps. match goal with H : validPhysicalPageSize _ = true |- _ => unfold validPhysicalPageSize, physicalPageQuantum in H end. lia. }
  unfold allRefs, directoryRefs in *. simpl in Hr. rewrite !Forall_cons in Hr. destruct Hr as (R1 & R2 & R3 & R4 & R5 & R6 & _).
  apply checkRootRefs_spec in C1 as [F D]; [|done| |by apply Forall_nil|done].
  2: { unfold rootRefs. rewrite !Forall_cons. by rewrite Forall_nil. }
  apply checkFloat64Head_spec in C2; [|done..]. apply checkIndexGroupHead_spec in C3; [|done..].
  simpl in F, D. fold (directoryRefs root) in *.
  split.
  - apply Forall_app. split; [done|]. rewrite !Forall_cons, Forall_nil. naive_solver.
  - change (directoryRefs root ++ [sr_Float64ScanHead root; sr_IndexGroupHead root])
      with ((directoryRefs root ++ [sr_Float64ScanHead root]) ++ [sr_IndexGroupHead root]).
    apply refs_distinct_snoc; [apply refs_distinct_snoc; [done|]|]; naive_solver.
Qed.

Lemma getLE_slice n p a b off : (a + off + n <= b)%nat -> getLE n (slice p a b) off = getLE n p (a + off).
Proof. intros H. unfold getLE. rewrite slice_slice by lia. do 2 f_equal. lia. Qed.

Lemma writeStateRoot_length p r : length (writeStateRoot p r) = length p.
Proof. unfold writeStateRoot, PutUint32, PutUint64, putLE. cbn zeta. by rewrite !setBytes_length. Qed.

Lemma writeStateRoot_ok p r : state_root_ok r -> bytes_ok p -> bytes_ok (writeStateRoot p r).
Proof.
  intros Ho Hp. assert (Hr : Forall ref_ok (allRefs r)) by apply Ho. unfold allRefs, directoryRefs in Hr. simpl in Hr.
  rewrite !Forall_cons in Hr. destruct Hr as (? & ? & ? & ? & ? & ? & _).
  unfold writeStateRoot, PutUint32, PutUint64, putLE. cbn zeta.
  repeat (apply setBytes_ok; [|first [apply le_bytes_ok|by apply encodePageRef_ok]]). done.
Qed.

Lemma writeStateRoot_initialized h p r : initialized h p -> initialized h (writeStateRoot p r).
Proof.
  intros I. unfold writeStateRoot, PutUint32, PutUint64, putLE. cbn zeta.
  repeat (apply initialized_set; [lia|]). done.
Qed.

Ltac buf_side ::= rewrite ?le_bytes_length, ?encodePageRef_length, ?setBytes_length; simpl; lia.

(** Every field of the payload reads back. *)
Definition state_root_fields (q : list Z) (r : StateRoot) : Prop :=
  (slice q 64 68 = le_bytes 4 5 /\ Uint32 q 68 = sr_Options r /\ Uint64 q 72 = sr_DocumentCount r /\
   Uint64 q 80 = sr_TTLCount r /\ Uint64 q 88 = sr_NextLogicalID r /\ Uint32 q 96 = sr_ChunkHighWater r /\
   Uint32 q 100 = sr_LiveChunks r /\ Uint32 q 104 = sr_ChunkDocuments r /\ Uint32 q 108 = sr_IndexCount r /\
   Uint32 q 112 = sr_IndexMaxDepth r /\ Uint64 q 116 = sr_IndexCatalogHash r /\ Uint32 q 124 = sr_FreeChunkHint r) /\
  slice q 128 160 = encodePageRef (sr_ChunkDirectory r) /\ slice q 160 192 = encodePageRef (sr_KeyDirectory r) /\
  slice q 192 224 = encodePageRef (sr_IndexDirectory r) /\ slice q 224 256 = encodePageRef (sr_TTLDirectory r) /\
  slice q 256 288 = encodePageRef (sr_Float64ScanHead r) /\ slice q 288 320 = encodePageRef (sr_IndexGroupHead r).

Lemma writeStateRoot_fields p r :
  state_root_ok r -> (320 <= length p)%nat -> state_root_fields (writeStateRoot p r) r.
Proof.
  intros (_ & _ & _ & _ & H1 & H2 & H3 & H4 & H5 & H6 & H7 & H8 & H9 & H10 & H11 & _) L.
  unfold state_root_fields, writeStateRoot, PutUint32, PutUint64, putLE, Uint32, Uint64. cbn zeta. simpl Nat.add.
  split_and!; buf; done.
Qed.

Lemma stateRootHeader_ok r : state_root_ok r -> page_header_ok (stateRootHeader r).
Proof.
  intros (H1 & H2 & H3 & H4 & _). unfold page_header_ok, stateRootHeader. cbn. unfold word_ok, is_byte in *.
  split_and!; done || (simpl in *; lia).
Qed.

Lemma stateRootHeader_valid r fe :
  validateStateRoot r fe = None -> validatePageHeader (stateRootHeader r) = None.
Proof.
  unfold validateStateRoot. cbn zeta. case_match eqn:E; [done|]. intros _. bool_hyps.
  unfold validatePageHeader, stateRootHeader.
  cbn [ph_StoreID ph_Generation ph_LogicalID ph_PageSize ph_PayloadLength ph_Kind ph_Flags].
  match goal with H : bool_decide _ = false |- _ => rewrite H end. rewrite (proj2 (Z.eqb_neq (sr_Generation r) 0)) by done.
  match goal with H : validPhysicalPageSize _ = true |- _ => rewrite H;
    unfold validPhysicalPageSize, physicalPageQuantum in H end. bool_hyps.
  unfold StateRootPayloadSize. cbn. rewrite (proj2 (Z.ltb_ge _ _)); [done|]. unfold PageHeaderSize, PageTrailerSize. lia.
Qed.

(** Decoding the payload of a version-five page. *)
Lemma decode_state_root_fields src q r fe :
  state_root_ok r -> validateStateRoot r fe = None -> (320 <= length q)%nat -> state_root_fields q r ->
  OpenPage src = Ok (stateRootHeader r, slice q 64 320) ->
  DecodeStateRootPage src fe = Ok r.
Proof.
  intros Ho V L ((F0 & F1 & F2 & F3 & F4 & F5 & F6 & F7 & F8 & F9 & F10 & F11) & S1 & S2 & S3 & S4 & S5 & S6) E.
  unfold DecodeStateRootPage, decodeFreeHint, decodeHeads, decodeRootFields. rewrite E.
  rewrite window_ok by (rewrite ?slice_length; lia). cbn [mbind res_bind]. unfold Uint32, Uint64.
  rewrite !slice_slice, !getLE_slice by lia. simpl Nat.add. rewrite F0. change (le_uint (le_bytes 4 5)) with 5.
  unfold Uint32, Uint64 in F1, F2, F3, F4, F5, F6, F7, F8, F9, F10, F11.
  rewrite F1, F2, F3, F4, F5, F6, F7, F8, F9, F10, F11, S1, S2, S3, S4, S5, S6, slice_length by lia.
  destruct (validateStateRoot_refs r fe Ho V) as [A _]. assert (Hr : Forall ref_ok (allRefs r)) by apply Ho.
  assert (X : forall x, x ∈ allRefs r -> pageRefReservedZero (encodePageRef x) = true /\ decodePageRef (encodePageRef x) = x).
  { intros x Hx. rewrite Forall_forall in A, Hr. specialize (Hr x Hx).
    rewrite reserved_encodePageRef, decode_encodePageRef by done. split; [|done].
    destruct (A x Hx) as [->|I]; [done|]. apply Z.eqb_eq, I. }
  unfold allRefs, directoryRefs in X. simpl in X.
  destruct (X (sr_ChunkDirectory r)) as [-> ->]; [by left|].
  destruct (X (sr_KeyDirectory r)) as [-> ->]; [by right; left|].
  destruct (X (sr_IndexDirectory r)) as [-> ->]; [by do 2 right; left|].
  destruct (X (sr_TTLDirectory r)) as [-> ->]; [by do 3 right; left|].
  destruct (X (sr_Float64ScanHead r)) as [-> ->]; [by do 4 right; left|].
  destruct (X (sr_IndexGroupHead r)) as [-> ->]; [by do 5 right; left|].
  rewrite (slice_nil q 320 320) by lia. cbn -[validateStateRoot].
  replace (mkStateRoot _ _ _ _ _ _ _ _ _ _ _ _ _ _ _ _ _ _ _ _) with r by (by destruct r). by rewrite V.
Qed.

(** C34: a state root round-trips.  Encoding succeeds exactly on a valid root
    with a large enough buffer, and decoding the page, whatever follows it in
    the buffer, gives back every field. *)
Theorem state_root_roundtrip (dst : list Z) (root : StateRoot) (fileEnd : Z) :
  state_root_ok root ->
  (is_ok (EncodeStateRootPage dst root fileEnd) = true <->
   validateStateRoot root fileEnd = None /\ sr_PageSize root <= Z.of_nat (length dst)) /\
  forall page rest, EncodeStateRootPage dst root fileEnd = Ok page ->
    Z.of_nat (length page) = sr_PageSize root /\ DecodeStateRootPage (page ++ rest) fileEnd = Ok root.
Proof.
  intros Ho. pose proof (stateRootHeader_ok root Ho) as Hh. unfold EncodeStateRootPage.
  destruct (validateStateRoot root fileEnd) eqn:V; [by split; [split; [|intros [? _]]|]|].
  pose proof (stateRootHeader_valid root fileEnd V) as Vh.
  assert (Hs : 4096 <= sr_PageSize root)
    by (apply (validatePageHeader_size (stateRootHeader root)); [simpl; unfold StateRootPayloadSize; lia|done]).
  destruct (decide (sr_PageSize root <= Z.of_nat (length dst))) as [L|L].
  2: { unfold InitPage. rewrite Vh. change (ph_PageSize (stateRootHeader root)) with (sr_PageSize root).
       rewrite (proj2 (Z.ltb_lt _ _)) by lia. split; [split; [done|]|done]. intros [_ ?]. lia. }
  assert (Hpl : 0 <= ph_PayloadLength (stateRootHeader root)) by done.
  pose proof (InitPage_total dst (stateRootHeader root) Hpl Vh L) as EI.
  destruct (InitPage_initialized _ _ _ Hpl EI) as (_ & I0 & _). rewrite EI, bind_Ok. clear EI.
  pose proof (writePageHeader_ok _ (stateRootHeader root) Hh (zeros_ok (Z.to_nat (sr_PageSize root)))) as Hb0.
  change (Z.to_nat (ph_PageSize (stateRootHeader root))) with (Z.to_nat (sr_PageSize root)) in *.
  set (p := writePageHeader _ _) in *. clearbody p. assert (Lp : Z.of_nat (length p) = sr_PageSize root) by apply I0.
  pose proof (writeStateRoot_fields p root Ho ltac:(lia)) as F. pose proof (writeStateRoot_length p root) as Lq.
  pose proof (writeStateRoot_ok p root Ho Hb0) as Hb. pose proof (writeStateRoot_initialized _ p root I0) as I.
  set (q := writeStateRoot p root) in *. clearbody q.
  unfold sealInitializedPage. rewrite (sealPage_initialized _ _ false Hh Vh I), bind_Ok by done.
  split; [by split|]. intros page rest [= <-]. split.
  - unfold sealed. cbn zeta. rewrite !setBytes_length. lia.
  - apply (decode_state_root_fields _ q); [done..|lia|done|]. exact (OpenPage_sealed _ q rest Hh Vh I Hb).
Qed.

Definition example_root : StateRoot :=
  mkStateRoot (replicate 16 7) 3 4096 1 1 0 9 1 1 64 0 0 0 1
    (mkPageRef 8192 2 3 4096 4 0 0) (mkPageRef 12288 3 2 4096 5 0 0) zeroRef zeroRef zeroRef zeroRef.

Lemma example_root_ok : state_root_ok example_root.
Proof.
  unfold state_root_ok, allRefs, directoryRefs, ref_ok, word_ok, is_byte. cbn -[Z.pow].
  rewrite !Forall_cons, Forall_nil. split_and!; try lia; try done. by apply bytes_ok_bool.
Qed.

Lemma state_root_roundtrip_witness :
  is_ok (EncodeStateRootPage (replicate (Z.to_nat 4096) 0) example_root 16384) = true.
Proof.
  refine (proj2 (proj1 (state_root_roundtrip (replicate (Z.to_nat 4096) 0) example_root 16384 example_root_ok)) (conj _ _)).
  - vm_compute. reflexivity.
  - rewrite length_replicate. simpl. lia.
Defined.

(** C35: the decoder panics exactly on a page that opens with a payload of
    fewer than four bytes, because it reads the version before it compares the
    payload length; such checksum-valid pages exist. *)
Theorem DecodeStateRootPage_panics :
  (forall (src : list Z) (fileEnd : Z), bytes_ok src ->
    DecodeStateRootPage src fileEnd = Err Panic <->
    exists h payload, OpenPage src = Ok (h, payload) /\ (length payload < 4)%nat) /\
  exists src, bytes_ok src /\ DecodeStateRootPage src 16384 = Err Panic.
Proof.
  assert (A : forall (src : list Z) (fileEnd : Z), bytes_ok src ->
    DecodeStateRootPage src fileEnd = Err Panic <->
    exists h payload, OpenPage src = Ok (h, payload) /\ (length payload < 4)%nat).
  { intros src fe Hb. destruct (OpenPage_no_panic src Hb) as [N1 N2]. unfold DecodeStateRootPage.
    destruct (OpenPage src) as [[h payload]|err|]; [| |done].
    2: { split; [destruct err; done|]. by intros (? & ? & ? & _). }
    destruct (decide (4 <= length payload)%nat).
    - rewrite window_ok by lia. cbn [mbind res_bind]. split; [|by intros (? & ? & [= -> ->] & ?); lia].
      case_match; [done|]. unfold decodeFreeHint, decodeHeads.
      repeat (case_match; cbn [mbind res_bind]; try done).
    - unfold window. rewrite (proj2 (Nat.leb_gt 4 (length payload))) by lia. split; [|done].
      intros _. exists h, payload. split; [done|lia]. }
  split; [exact A|].
  exists (sealed_page (SealPage (writePageHeader (replicate (Z.to_nat 4096) 0) (mkPageHeader (replicate 16 7) 1 1 4096 0 1 0)))).
  split; [apply bytes_ok_bool|]; vm_compute; reflexivity.
Qed.

Lemma decodePageRef_ok payload a b :
  bytes_ok payload -> (a + 32 <= b)%nat -> (b <= length payload)%nat -> ref_ok (decodePageRef (slice payload a b)).
Proof.
  intros Hp Ha Hl. assert (Hs : bytes_ok (slice payload a b)) by by apply Forall_slice.
  unfold ref_ok, decodePageRef, Uint64, Uint32, Uint16. simpl.
  split_and!; try (by apply getByte_ok); apply getLE_ok; try done; rewrite slice_length; lia.
Qed.

Lemma zeroRef_ok : ref_ok zeroRef.
Proof. unfold ref_ok, word_ok, is_byte. simpl. lia. Qed.

Lemma decodeFreeHint_ok version payload hint :
  bytes_ok payload -> length payload = 256%nat -> decodeFreeHint version payload = Ok hint -> word_ok 4 hint.
Proof.
  intros Hp L. unfold decodeFreeHint. repeat case_match; try done; intros [= <-].
  - unfold word_ok. simpl. lia.
  - apply getLE_ok; [done|lia].
Qed.

Lemma decodeHeads_ok version payload f g :
  bytes_ok payload -> length payload = 256%nat -> decodeHeads version payload = Ok (f, g) -> ref_ok f /\ ref_ok g.
Proof.
  intros Hp L. unfold decodeHeads. repeat case_match; try done; intros [= <- <-];
    split; auto using zeroRef_ok; apply decodePageRef_ok; done || lia.
Qed.

Lemma decodeRootFields_ok h payload hint f g :
  page_header_ok h -> bytes_ok payload -> length payload = 256%nat -> word_ok 4 hint -> ref_ok f -> ref_ok g ->
  state_root_ok (decodeRootFields h payload hint f g).
Proof.
  intros (? & ? & ? & ? & ? & ? & ? & ?) Hp L ? ? ?. unfold state_root_ok. cbn -[Uint32 Uint64 decodePageRef slice].
  split_and!; try done; try (apply getLE_ok; [done|lia]).
  unfold allRefs, directoryRefs. cbn -[decodePageRef slice]. rewrite !Forall_cons, Forall_nil.
  split_and!; try done; apply decodePageRef_ok; done || lia.
Qed.

Lemma DecodeStateRootPage_inv (src : list Z) (fileEnd : Z) (root : StateRoot) :
  bytes_ok src -> DecodeStateRootPage src fileEnd = Ok root ->
  state_root_ok root /\ Forall (fun r => r = zeroRef \/ ref_in_file root fileEnd r) (allRefs root) /\
  refs_distinct (allRefs root) /\ sr_PageSize root <= Z.of_nat (length src).
Proof.
  intros Hb E. unfold DecodeStateRootPage in E.
  destruct (OpenPage src) as [[h payload]|err|] eqn:EO; [|by destruct err|done].
  destruct (OpenPage_inv src h payload Hb EO) as (Hh & Vh & _ & Ls & Ep & _).
  assert (Hp : bytes_ok payload) by (rewrite Ep; by apply Forall_slice).
  destruct (window payload 0 4) as [w|?|]; [|done..]. cbn [mbind res_bind] in E. case_match eqn:G; [done|].
  bool_hyps. unfold StateRootPayloadSize in *. assert (Lp : length payload = 256%nat) by lia.
  destruct (decodeFreeHint _ payload) as [hint|?|] eqn:Eh; [|done..]. cbn [mbind res_bind] in E.
  destruct (decodeHeads _ payload) as [[f g]|?|] eqn:Ed; [|done..]. cbn [mbind res_bind] in E.
  apply decodeFreeHint_ok in Eh; [|done..]. apply decodeHeads_ok in Ed as [Hf Hg]; [|done..].
  pose proof (decodeRootFields_ok h payload hint f g Hh Hp Lp Eh Hf Hg) as So.
  destruct (validateStateRoot _ fileEnd) eqn:V; [done|]. injection E as <-.
  destruct (validateStateRoot_refs _ _ So V). by split_and!.
Qed.

(** Whatever bytes are decoded, a state root that is accepted has every
    reference page-aligned, inside the file, past the superblocks, no newer than
    the root and with a free-standing logical id, and no two of its six
    references share a logical page or an offset. *)
Theorem DecodeStateRootPage_sound (src : list Z) (fileEnd : Z) (root : StateRoot) :
  bytes_ok src -> DecodeStateRootPage src fileEnd = Ok root ->
  state_root_ok root /\ Forall (fun r => r = zeroRef \/ ref_in_file root fileEnd r) (allRefs root) /\
  refs_distinct (allRefs root) /\ sr_PageSize root <= Z.of_nat (length src).
Proof. apply DecodeStateRootPage_inv. Qed.

Lemma DecodeStateRootPage_sound_witness : refs_distinct (allRefs example_root).
Proof.
  refine (proj1 (proj2 (proj2 (DecodeStateRootPage_sound
    (match EncodeStateRootPage (replicate (Z.to_nat 4096) 0) example_root 16384 with Ok p => p | _ => [] end) 16384 example_root _ _)))).
  - apply bytes_ok_bool. vm_compute. reflexivity.
  - vm_compute. reflexivity.
Defined.
