(* ===== verification/FreeDirectory.v ===== *)
(** * FreeDirectory: durable free-extent B+tree nodes

    Models internal/storeio/free_directory.go and the bounded reference set of
    chunk_directory.go it uses to reject duplicate children.  A node is a page
    (Page.v) whose payload holds a 32-byte header and fixed-size records: 24
    bytes per extent in a leaf, 48 per child in a branch. *)
From Stdlib Require Import ZArith Lia List Bool Sorted.
From stdpp Require Import base numbers list strings sets.
From S2P Require Import Prelude Leases Bytes Page StateRoot.

Open Scope Z_scope.

Definition FreeDirectoryPayloadHeaderSize : nat := 32.
Definition FreeDirectoryLeafRecordSize : nat := 24.
Definition FreeDirectoryBranchRecordSize : nat := 48.
Definition freeDirectoryVersion : Z := 1.
Definition freeDirectoryKnownFlags : Z := 0.

Record FreeDirectoryChild := mkChild { Lower : Z; Ref : PageRef }.

Record FreeDirectoryHeader := mkFreeHeader {
  fh_StoreID : list Z;
  fh_Generation : Z;
  fh_LogicalID : Z;
  fh_PageSize : Z;
  fh_Level : Z;
  fh_Flags : Z;
}.

Record FreeDirectoryView := mkView { v_header : FreeDirectoryHeader; v_payload : list Z; v_count : nat }.

(** ** The reference set of chunk_directory.go *)

Definition chunkDirectoryRefSetSize : nat := 128.

(** [value * 0x9e3779b97f4a7c15 >> 57] on uint64. *)
Definition refSlot (value : Z) : nat := Z.to_nat (Z.shiftr (wrap64 (value * 0x9e3779b97f4a7c15)) 57).

(** Linear probing; the fuel is the table size, enough while a slot is free. *)
Fixpoint refSetProbe (fuel : nat) (table : list Z) (value : Z) (slot : nat) : io_res (option (list Z)) :=
  match fuel with
  | O => OutOfFuel
  | S fuel =>
      let current := default 0 (table !! slot) in
      if current =? 0 then Ok (Some (<[slot := value]> table))
      else if current =? value then Ok None
      else refSetProbe fuel table value (Nat.modulo (slot + 1) chunkDirectoryRefSetSize)
  end.

(** [Some table] is Go's [true] with the table updated, [None] is [false]. *)
Definition chunkDirectoryRefSetInsert (table : list Z) (value : Z) : io_res (option (list Z)) :=
  refSetProbe chunkDirectoryRefSetSize table value (refSlot value).

Record chunkDirectoryRefSet := mkRefSet { logical : list Z; offsets : list Z }.
Definition emptyRefSet : chunkDirectoryRefSet :=
  mkRefSet (replicate chunkDirectoryRefSetSize 0) (replicate chunkDirectoryRefSetSize 0).

(** The boolean result and the set; a failing second insert keeps the first. *)
Definition refSet_add (set : chunkDirectoryRefSet) (ref : PageRef) : io_res (bool * chunkDirectoryRefSet) :=
  l ← chunkDirectoryRefSetInsert (logical set) (ref_LogicalID ref);
  match l with
  | None => Ok (false, set)
  | Some l =>
      o ← chunkDirectoryRefSetInsert (offsets set) (ref_Offset ref);
      match o with
      | None => Ok (false, mkRefSet l (offsets set))
      | Some o => Ok (true, mkRefSet l o)
      end
  end.

(** ** Validation *)

Definition validateFreeExtent (extent : FreeExtent) (pageSize fileEnd : Z) : option io_error :=
  if (Length extent =? 0) || (Offset extent <? superblockCopies * pageSize) ||
     negb (Offset extent mod pageSize =? 0) || negb (Length extent mod pageSize =? 0) ||
     (maxSuperblockFileOffset <? Offset extent) || (fileEnd <? Length extent) ||
     (fileEnd - Length extent <? Offset extent) || (RetiredGeneration extent =? 0)
  then Some (ErrInvalidWrite "invalid free extent") else None.

Definition validateFreeDirectoryHeader (header : FreeDirectoryHeader) (count recordSize : nat) (nextLogicalID : Z)
    : option io_error :=
  if bool_decide (fh_StoreID header = zeroStoreID) || (fh_Generation header =? 0) ||
     (fh_LogicalID header <=? StateRootLogicalID) || (nextLogicalID <=? fh_LogicalID header) ||
     negb (validPhysicalPageSize (fh_PageSize header)) ||
     negb (Z.ldiff (fh_Flags header) freeDirectoryKnownFlags =? 0) ||
     (count =? 0)%nat || (65535 <? Z.of_nat count) ||
     ((recordSize =? FreeDirectoryBranchRecordSize)%nat && (64 <? Z.of_nat count))
  then Some (ErrInvalidWrite "free node identity, count, or flags")
  else if fh_PageSize header - 64 - 8 <? 32 + Z.of_nat count * Z.of_nat recordSize
  then Some (ErrInvalidWrite "free-directory payload does not fit")
  else None.

Definition validateFreeDirectoryChild (header : FreeDirectoryHeader) (ref : PageRef) (fileEnd nextLogicalID : Z)
    : option io_error :=
  let pageSize := fh_PageSize header in
  if (fileEnd <? superblockCopies * pageSize) || (maxSuperblockFileOffset <? fileEnd) ||
     negb (fileEnd mod pageSize =? 0) ||
     negb (ref_Kind ref =? PageFreeDirectory) || negb (ref_Flags ref =? 0) || negb (ref_Aux ref =? 0) ||
     negb (ref_Length ref =? pageSize) ||
     (ref_Generation ref =? 0) || (fh_Generation header <? ref_Generation ref) ||
     (ref_LogicalID ref <=? StateRootLogicalID) || (nextLogicalID <=? ref_LogicalID ref) ||
     (ref_LogicalID ref =? fh_LogicalID header) ||
     (ref_Offset ref <? superblockCopies * pageSize) || negb (ref_Offset ref mod pageSize =? 0) ||
     (maxSuperblockFileOffset <? ref_Offset ref) || (fileEnd - pageSize <? ref_Offset ref)
  then Some (ErrInvalidWrite "invalid free-directory child") else None.

(** ** Encoding *)

Definition freePageHeader (header : FreeDirectoryHeader) (payloadLength : nat) : PageHeader :=
  mkPageHeader (fh_StoreID header) (fh_Generation header) (fh_LogicalID header) (fh_PageSize header)
    (Z.of_nat payloadLength) PageFreeDirectory 0.

(** Offsets are relative to the page, so the payload starts at 64. *)
Definition encodeFreeDirectoryHeader (page : list Z) (header : FreeDirectoryHeader) (count : nat) : list Z :=
  let page := PutUint32 page (64 + 0) freeDirectoryVersion in
  let page := setBytes page (64 + 4) [fh_Level header] in
  let page := setBytes page (64 + 5) [fh_Flags header] in
  PutUint16 page (64 + 6) (Z.of_nat count).

(** The checks of the leaf loop; [first] is [i == 0]. *)
Fixpoint checkLeaf (extents : list FreeExtent) (pageSize fileEnd : Z) (first : bool) (previousEnd : Z) : option io_error :=
  match extents with
  | [] => None
  | e :: rest =>
      match validateFreeExtent e pageSize fileEnd with
      | Some _ => Some (ErrInvalidWrite "free extent order or bounds")
      | None =>
          if negb first && (Offset e <? previousEnd) then Some (ErrInvalidWrite "free extent order or bounds")
          else checkLeaf rest pageSize fileEnd false (wrap64 (Offset e + Length e))
      end
  end.

Fixpoint writeLeafRecords (page : list Z) (off : nat) (extents : list FreeExtent) : list Z :=
  match extents with
  | [] => page
  | e :: rest =>
      let page := PutUint64 page off (Offset e) in
      let page := PutUint64 page (off + 8) (Length e) in
      let page := PutUint64 page (off + 16) (RetiredGeneration e) in
      writeLeafRecords page (off + FreeDirectoryLeafRecordSize) rest
  end.

Definition EncodeFreeDirectoryLeaf (dst : list Z) (header : FreeDirectoryHeader) (extents : list FreeExtent)
    (fileEnd nextLogicalID : Z) : io_res (list Z) :=
  if negb (fh_Level header =? 0) then Err (ErrInvalidWrite "free leaf level")
  else match validateFreeDirectoryHeader header (length extents) FreeDirectoryLeafRecordSize nextLogicalID with
  | Some err => Err err
  | None =>
      match checkLeaf extents (fh_PageSize header) fileEnd true 0 with
      | Some err => Err err
      | None =>
          page ← InitPage dst (freePageHeader header (32 + length extents * FreeDirectoryLeafRecordSize));
          let page := encodeFreeDirectoryHeader page header (length extents) in
          let page := writeLeafRecords page (64 + 32) extents in
          '(page, _) ← sealInitializedPage page; Ok page
      end
  end.

(** The checks of the branch loop; [previous] is [children[i-1].Lower]. *)
Fixpoint checkBranch (children : list FreeDirectoryChild) (header : FreeDirectoryHeader) (fileEnd nextLogicalID : Z)
    (previous : option Z) (seen : chunkDirectoryRefSet) : io_res unit :=
  match children with
  | [] => Ok tt
  | child :: rest =>
      if match previous with Some p => Lower child <=? p | None => false end
      then Err (ErrInvalidWrite "free lower-bound order")
      else match validateFreeDirectoryChild header (Ref child) fileEnd nextLogicalID with
      | Some _ => Err (ErrInvalidWrite "free branch child")
      | None =>
          '(ok, seen) ← refSet_add seen (Ref child);
          if negb ok then Err (ErrInvalidWrite "free branch child")
          else checkBranch rest header fileEnd nextLogicalID (Some (Lower child)) seen
      end
  end.

Fixpoint writeBranchRecords (page : list Z) (off : nat) (children : list FreeDirectoryChild) : list Z :=
  match children with
  | [] => page
  | c :: rest =>
      let page := PutUint64 page off (Lower c) in
      let page := setBytes page (off + 16) (encodePageRef (Ref c)) in
      writeBranchRecords page (off + FreeDirectoryBranchRecordSize) rest
  end.

Definition EncodeFreeDirectoryBranch (dst : list Z) (header : FreeDirectoryHeader) (children : list FreeDirectoryChild)
    (fileEnd nextLogicalID : Z) : io_res (list Z) :=
  if (fh_Level header =? 0) || (64 <? Z.of_nat (length children)) then Err (ErrInvalidWrite "free branch level or fanout")
  else match validateFreeDirectoryHeader header (length children) FreeDirectoryBranchRecordSize nextLogicalID with
  | Some err => Err err
  | None =>
      _ ← checkBranch children header fileEnd nextLogicalID None emptyRefSet;
      page ← InitPage dst (freePageHeader header (32 + length children * FreeDirectoryBranchRecordSize));
      let page := encodeFreeDirectoryHeader page header (length children) in
      let page := writeBranchRecords page (64 + 32) children in
      '(page, _) ← sealInitializedPage page; Ok page
  end.

(** ** Opening and reading *)

Definition decodeFreeExtent (src : list Z) : FreeExtent := mkExtent (Uint64 src 0) (Uint64 src 8) (Uint64 src 16).

Definition record (payload : list Z) (rank recordSize : nat) : io_res (list Z) :=
  let off := (FreeDirectoryPayloadHeaderSize + rank * recordSize)%nat in
  window payload off (off + recordSize).

(** The loop of OpenFreeDirectoryPage from index [i], with [n] records left. *)
Fixpoint openLeaf (n i : nat) (payload : list Z) (pageSize fileEnd previousEnd : Z) : io_res unit :=
  match n with
  | O => Ok tt
  | S n =>
      r ← record payload i FreeDirectoryLeafRecordSize;
      let extent := decodeFreeExtent r in
      match validateFreeExtent extent pageSize fileEnd with
      | Some _ => Err (ErrFreeDirectoryCorrupt "extent order or bounds")
      | None =>
          if negb (i =? 0)%nat && (Offset extent <? previousEnd)
          then Err (ErrFreeDirectoryCorrupt "extent order or bounds")
          else openLeaf n (S i) payload pageSize fileEnd (wrap64 (Offset extent + Length extent))
      end
  end.

Fixpoint openBranch (n i : nat) (payload : list Z) (header : FreeDirectoryHeader) (fileEnd nextLogicalID previousLower : Z)
    (seen : chunkDirectoryRefSet) : io_res unit :=
  match n with
  | O => Ok tt
  | S n =>
      r ← record payload i FreeDirectoryBranchRecordSize;
      let lower := Uint64 r 0 in
      if negb (allZero (slice r 8 16)) || negb (pageRefReservedZero (slice r 16 48)) ||
         (negb (i =? 0)%nat && (lower <=? previousLower))
      then Err (ErrFreeDirectoryCorrupt "branch order or reserved bytes")
      else
        let ref := decodePageRef (slice r 16 48) in
        match validateFreeDirectoryChild header ref fileEnd nextLogicalID with
        | Some _ => Err (ErrFreeDirectoryCorrupt "branch child")
        | None =>
            '(ok, seen) ← refSet_add seen ref;
            if negb ok then Err (ErrFreeDirectoryCorrupt "branch child")
            else openBranch n (S i) payload header fileEnd nextLogicalID lower seen
        end
  end.

Definition OpenFreeDirectoryPage (src : list Z) (fileEnd nextLogicalID : Z) : io_res FreeDirectoryView :=
  match OpenPage src with
  | OutOfFuel => OutOfFuel
  | Err Panic => Err Panic
  | Err _ => Err (ErrFreeDirectoryCorrupt "page")
  | Ok (pageHeader, payload) =>
      if negb (ph_Kind pageHeader =? PageFreeDirectory) || (length payload <? FreeDirectoryPayloadHeaderSize)%nat ||
         negb (Uint32 payload 0 =? freeDirectoryVersion) || negb (allZero (slice payload 8 32))
      then Err (ErrFreeDirectoryCorrupt "header, version, or reserved bytes")
      else
        let header := mkFreeHeader (ph_StoreID pageHeader) (ph_Generation pageHeader) (ph_LogicalID pageHeader)
                        (ph_PageSize pageHeader) (getByte payload 4) (getByte payload 5) in
        let count := Z.to_nat (Uint16 payload 6) in
        let recordSize := if fh_Level header =? 0 then FreeDirectoryLeafRecordSize else FreeDirectoryBranchRecordSize in
        match validateFreeDirectoryHeader header count recordSize nextLogicalID with
        | Some _ => Err (ErrFreeDirectoryCorrupt "node bounds")
        | None =>
            if negb (length payload =? FreeDirectoryPayloadHeaderSize + count * recordSize)%nat
            then Err (ErrFreeDirectoryCorrupt "node bounds")
            else
              _ ← (if fh_Level header =? 0 then openLeaf count 0 payload (fh_PageSize header) fileEnd 0
                   else openBranch count 0 payload header fileEnd nextLogicalID 0 emptyRefSet);
              Ok (mkView header payload count)
        end
  end.

Definition view_Len (v : FreeDirectoryView) : nat := v_count v.

(** The boolean result is the option. *)
Definition ExtentAt (v : FreeDirectoryView) (rank : Z) : io_res (option FreeExtent) :=
  if negb (fh_Level (v_header v) =? 0) || (rank <? 0) || (Z.of_nat (v_count v) <=? rank) then Ok None
  else r ← record (v_payload v) (Z.to_nat rank) FreeDirectoryLeafRecordSize; Ok (Some (decodeFreeExtent r)).

(** Binary search: the fuel bounds the halvings of [high - low]. *)
Fixpoint lowerBoundLoop (fuel : nat) (v : FreeDirectoryView) (offset : Z) (low high : nat) : io_res nat :=
  if (low <? high)%nat then
    match fuel with
    | O => OutOfFuel
    | S fuel =>
        let middle := Nat.div2 (low + high) in
        e ← ExtentAt v (Z.of_nat middle);
        let extent := default (mkExtent 0 0 0) e in
        if wrap64 (Offset extent + Length extent) <=? offset then lowerBoundLoop fuel v offset (middle + 1) high
        else lowerBoundLoop fuel v offset low middle
    end
  else Ok low.

Definition LowerBound (v : FreeDirectoryView) (offset : Z) : io_res nat :=
  if negb (fh_Level (v_header v) =? 0) then Ok 0%nat
  else lowerBoundLoop (v_count v) v offset 0 (v_count v).

Fixpoint childLoop (fuel : nat) (v : FreeDirectoryView) (offset : Z) (low high : nat) : io_res nat :=
  if (low <? high)%nat then
    match fuel with
    | O => OutOfFuel
    | S fuel =>
        let middle := Nat.div2 (low + high) in
        r ← record (v_payload v) middle FreeDirectoryBranchRecordSize;
        if Uint64 r 0 <=? offset then childLoop fuel v offset (middle + 1) high
        else childLoop fuel v offset low middle
    end
  else Ok low.

Definition Child (v : FreeDirectoryView) (offset : Z) : io_res (option PageRef) :=
  if (fh_Level (v_header v) =? 0) || (v_count v =? 0)%nat then Ok None
  else
    low ← childLoop (v_count v) v offset 0 (v_count v);
    if (low =? 0)%nat then Ok None
    else
      r ← record (v_payload v) (low - 1) FreeDirectoryBranchRecordSize;
      Ok (Some (decodePageRef (slice r 16 48))).

Definition ChildAt (v : FreeDirectoryView) (rank : Z) : io_res (option FreeDirectoryChild) :=
  if (fh_Level (v_header v) =? 0) || (rank <? 0) || (Z.of_nat (v_count v) <=? rank) then Ok None
  else
    r ← record (v_payload v) (Z.to_nat rank) FreeDirectoryBranchRecordSize;
    Ok (Some (mkChild (Uint64 r 0) (decodePageRef (slice r 16 48)))).

(** ** The reference set *)

Definition nonzero (table : list Z) : nat := length (List.filter (fun x => negb (x =? 0)) table).

(** Position [k] of the probe sequence that starts at [h]. *)
Definition probe (h k : nat) : nat := Nat.modulo (h + k) chunkDirectoryRefSetSize.

(** Every stored value is reached from its home slot through occupied slots. *)
Definition refset_inv (table : list Z) : Prop :=
  length table = chunkDirectoryRefSetSize /\
  forall v d, v <> 0 -> (d < 128)%nat -> table !! probe (refSlot v) d = Some v ->
    forall k, (k < d)%nat -> table !! probe (refSlot v) k <> Some 0.

Lemma refSlot_lt v : (refSlot v < 128)%nat.
Proof.
  unfold refSlot, wrap64. rewrite Z.shiftr_div_pow2 by lia.
  pose proof (Z.mod_pos_bound (v * 0x9e3779b97f4a7c15) (2 ^ 64) ltac:(lia)) as [H1 H2].
  assert (0 <= (v * 0x9e3779b97f4a7c15) mod 2 ^ 64 / 2 ^ 57 < 128); [|lia].
  split; [apply Z.div_pos; lia|]. apply Z.div_lt_upper_bound; lia.
Qed.

Lemma probe_lt h k : (probe h k < 128)%nat.
Proof. unfold probe. apply Nat.mod_upper_bound. done. Qed.

Lemma probe_S h k : Nat.modulo (probe h k + 1) chunkDirectoryRefSetSize = probe h (S k).
Proof.
  unfold probe. rewrite Nat.Div0.add_mod_idemp_l. f_equal. lia.
Qed.

Lemma probe_0 h : (h < 128)%nat -> probe h 0 = h.
Proof. intros. unfold probe. rewrite Nat.add_0_r. by apply Nat.mod_small. Qed.

(** Every slot is at one distance below 128 from any home slot. *)
Lemma probe_surj h s : (h < 128)%nat -> (s < 128)%nat -> exists d, (d < 128)%nat /\ probe h d = s.
Proof.
  intros Hh Hs. unfold probe, chunkDirectoryRefSetSize. destruct (decide (h <= s)%nat).
  - exists (s - h)%nat. split; [lia|]. replace (h + (s - h))%nat with s by lia. by apply Nat.mod_small.
  - exists (128 + s - h)%nat. split; [lia|]. replace (h + (128 + s - h))%nat with (s + 1 * 128)%nat by lia.
    rewrite Nat.Div0.mod_add. by apply Nat.mod_small.
Qed.

Lemma probe_inj h j k : (j < 128)%nat -> (k < 128)%nat -> probe h j = probe h k -> j = k.
Proof.
  intros Hj Hk E. unfold probe, chunkDirectoryRefSetSize in E.
  pose proof (Nat.div_mod_eq (h + j) 128). pose proof (Nat.div_mod_eq (h + k) 128). lia.
Qed.

Lemma nonzero_empty_slot t : (nonzero t < length t)%nat -> exists i, t !! i = Some 0.
Proof.
  unfold nonzero. induction t as [|x t IH]; simpl; [lia|]. destruct (Z.eqb_spec x 0) as [->|N]; simpl.
  - intros _. by exists 0%nat.
  - intros H. destruct IH as [i Hi]; [lia|]. by exists (S i).
Qed.

Lemma nonzero_insert t i v :
  t !! i = Some 0 -> v <> 0 -> nonzero (<[i := v]> t) = S (nonzero t).
Proof.
  unfold nonzero. intros E Nv. rewrite insert_take_drop by (by eapply lookup_lt_Some).
  rewrite <- (take_drop_middle t i 0 E) at 3. rewrite !List.filter_app, !length_app. simpl.
  rewrite (proj2 (Z.eqb_neq v 0) Nv). simpl. lia.
Qed.

Lemma refset_inv_insert t v k :
  refset_inv t -> v <> 0 -> (k < 128)%nat -> t !! probe (refSlot v) k = Some 0 ->
  (forall j, (j < k)%nat -> t !! probe (refSlot v) j <> Some 0) ->
  refset_inv (<[probe (refSlot v) k := v]> t).
Proof.
  intros [L I] Nv Hk E0 Hj. split; [by rewrite length_insert|]. set (s := probe (refSlot v) k).
  assert (N0 : forall i, t !! i <> Some 0 -> <[s := v]> t !! i <> Some 0).
  { intros i Hi. destruct (decide (i = s)) as [->|]; [|by rewrite list_lookup_insert_ne].
    rewrite list_lookup_insert_eq by (rewrite L; apply probe_lt). congruence. }
  intros w d Nw Hd Ed j Hjd. apply N0. destruct (decide (probe (refSlot w) d = s)) as [Es|Es].
  - rewrite Es in Ed. rewrite list_lookup_insert_eq in Ed by (rewrite L; apply probe_lt). injection Ed as <-.
    apply probe_inj in Es; [|done..]. subst d. by apply Hj.
  - rewrite list_lookup_insert_ne in Ed by done. by eapply I.
Qed.

(** Probing from the home slot finds the value or the first free slot. *)
Lemma refSetProbe_spec t v fuel k :
  refset_inv t -> v <> 0 -> (fuel + k = 128)%nat -> (exists i, t !! i = Some 0) ->
  (forall j, (j < k)%nat -> t !! probe (refSlot v) j <> Some 0 /\ t !! probe (refSlot v) j <> Some v) ->
  (v ∈ t /\ refSetProbe fuel t v (probe (refSlot v) k) = Ok None) \/
  (~ v ∈ t /\ exists m, (m < 128)%nat /\ t !! probe (refSlot v) m = Some 0 /\
     (forall j, (j < m)%nat -> t !! probe (refSlot v) j <> Some 0) /\
     refSetProbe fuel t v (probe (refSlot v) k) = Ok (Some (<[probe (refSlot v) m := v]> t))).
Proof.
  intros [L I] Nv. revert k. induction fuel as [|fuel IH]; intros k Hf [i Hi] Hj.
  - exfalso. destruct (probe_surj (refSlot v) i (refSlot_lt v)) as (d & Hd & Ed).
    { apply lookup_lt_Some in Hi. by rewrite L in Hi. }
    destruct (Hj d) as [Hn _]; [lia|]. by rewrite Ed in Hn.
  - cbn [refSetProbe]. destruct (lookup_lt_is_Some_2 t (probe (refSlot v) k)) as [c Ec]; [rewrite L; apply probe_lt|].
    rewrite Ec. change (default 0 (Some c)) with c. cbn zeta. destruct (Z.eqb_spec c 0) as [->|Nc].
    + right. split.
      * intros (j & Ej)%list_elem_of_lookup. assert (Lj := lookup_lt_Some _ _ _ Ej). rewrite L in Lj.
        destruct (probe_surj (refSlot v) j (refSlot_lt v) Lj) as (d & Hd & Ed). subst j.
        destruct (Nat.lt_trichotomy d k) as [?|[->|?]]; [by apply (Hj d)|congruence|by apply (I v d Nv Hd Ej k)].
      * exists k. split_and!; [lia|done| |done]. intros j Hjk. by apply Hj.
    + destruct (Z.eqb_spec c v) as [->|Ncv].
      * left. split; [|done]. by eapply list_elem_of_lookup_2.
      * rewrite probe_S. apply IH; [lia|by exists i|]. intros j Hjk. destruct (decide (j = k)) as [->|].
        -- rewrite Ec. split; congruence.
        -- apply Hj. lia.
Qed.

Lemma refSetInsert_spec t v :
  refset_inv t -> v <> 0 -> (nonzero t < 128)%nat ->
  (v ∈ t /\ chunkDirectoryRefSetInsert t v = Ok None) \/
  (~ v ∈ t /\ exists t', chunkDirectoryRefSetInsert t v = Ok (Some t') /\ refset_inv t' /\
     nonzero t' = S (nonzero t) /\ forall x, x <> 0 -> x ∈ t' <-> x = v \/ x ∈ t).
Proof.
  intros I Nv Hn. assert (Hz : exists i, t !! i = Some 0).
  { apply nonzero_empty_slot. destruct I as [-> _]. exact Hn. }
  destruct (refSetProbe_spec t v chunkDirectoryRefSetSize 0 I Nv eq_refl Hz) as [[M E]|(M & m & Hm & E0 & Hj & E)];
    [lia|left|right]; rewrite probe_0 in E by apply refSlot_lt; [by split|].
  split; [exact M|]. exists (<[probe (refSlot v) m := v]> t).
  split_and!; [exact E|by apply refset_inv_insert|by apply nonzero_insert|].
  intros x Nx. assert (Lm : (probe (refSlot v) m < length t)%nat) by (by eapply lookup_lt_Some). split.
  - intros (j & Ej)%list_elem_of_lookup. apply list_lookup_insert_Some in Ej as [(_ & -> & _)|[_ Ej]]; [by left|].
    right. by eapply list_elem_of_lookup_2.
  - intros [->|(j & Ej)%list_elem_of_lookup].
    + apply (list_elem_of_lookup_2 _ (probe (refSlot v) m)). by apply list_lookup_insert_eq.
    + apply (list_elem_of_lookup_2 _ j). rewrite list_lookup_insert_ne; [done|]. intros <-. congruence.
Qed.

(** [table] holds exactly the values of [l]. *)
Definition table_of (table l : list Z) : Prop :=
  refset_inv table /\ nonzero table = length l /\ forall x, x <> 0 -> x ∈ table <-> x ∈ l.

Definition refset_of (set : chunkDirectoryRefSet) (refs : list PageRef) : Prop :=
  table_of (logical set) (ref_LogicalID <$> refs) /\ table_of (offsets set) (ref_Offset <$> refs).

Lemma empty_table : table_of (replicate chunkDirectoryRefSetSize 0) [].
Proof.
  split_and!.
  - split; [done|]. intros v d Nv Hd E. exfalso. apply Nv.
    exact (proj1 (proj1 (lookup_replicate _ _ _ _) E)).
  - reflexivity.
  - intros x Nx. split; [|by intros ?%elem_of_nil]. intros E%elem_of_replicate. by destruct E.
Qed.

Lemma empty_refset : refset_of emptyRefSet [].
Proof. split; apply empty_table. Qed.

Lemma table_insert table l v :
  table_of table l -> v <> 0 -> (length l < 128)%nat ->
  (v ∈ l /\ chunkDirectoryRefSetInsert table v = Ok None) \/
  (~ v ∈ l /\ exists t', chunkDirectoryRefSetInsert table v = Ok (Some t') /\ table_of t' (l ++ [v])).
Proof.
  intros (I & N & M) Nv Hl. destruct (refSetInsert_spec table v I Nv ltac:(lia)) as [[Mv E]|(Mv & t' & E & I' & N' & M')].
  - left. split; [by apply M|done].
  - right. split; [by rewrite <- M|]. exists t'. split; [done|]. split_and!; [done|rewrite length_app; simpl; lia|].
    intros x Nx. rewrite M', elem_of_app, list_elem_of_singleton, M by done. tauto.
Qed.

Definition ref_clash (refs : list PageRef) (r : PageRef) : Prop :=
  ref_LogicalID r ∈ ref_LogicalID <$> refs \/ ref_Offset r ∈ ref_Offset <$> refs.

Lemma refSet_add_spec set refs r :
  refset_of set refs -> ref_LogicalID r <> 0 -> ref_Offset r <> 0 -> (length refs < 128)%nat ->
  exists ok set', refSet_add set r = Ok (ok, set') /\ (ok = true <-> ~ ref_clash refs r) /\
    (ok = true -> refset_of set' (refs ++ [r])).
Proof.
  intros [Tl To] Nl No Hl. unfold refSet_add, refset_of, ref_clash. rewrite !fmap_app.
  destruct (table_insert _ _ _ Tl Nl) as [[M E]|(M & tl & E & T1)]; [by rewrite length_fmap|..]; rewrite E, bind_Ok.
  { exists false, set. split_and!; [done| |done]. split; [done|tauto]. }
  destruct (table_insert _ _ _ To No) as [[M2 E2]|(M2 & t2 & E2 & T2)]; [by rewrite length_fmap|..]; rewrite E2, bind_Ok.
  - exists false, (mkRefSet tl (offsets set)). split_and!; [done| |done]. split; [done|tauto].
  - exists true, (mkRefSet tl t2). split_and!; [done| |done]. split; [tauto|done].
Qed.

(** Adding references one after the other. *)
Fixpoint refSet_addAll (set : chunkDirectoryRefSet) (refs : list PageRef) : io_res bool :=
  match refs with
  | [] => Ok true
  | r :: refs => '(ok, set) ← refSet_add set r; if negb ok then Ok false else refSet_addAll set refs
  end.

Lemma refSet_addAll_spec refs set seen :
  refset_of set seen -> NoDup (ref_LogicalID <$> seen) -> NoDup (ref_Offset <$> seen) ->
  Forall (fun r => ref_LogicalID r <> 0 /\ ref_Offset r <> 0) refs ->
  (length seen + length refs <= 128)%nat ->
  exists ok, refSet_addAll set refs = Ok ok /\
    (ok = true <-> NoDup (ref_LogicalID <$> seen ++ refs) /\ NoDup (ref_Offset <$> seen ++ refs)).
Proof.
  revert set seen. induction refs as [|r refs IH]; intros set seen T Nl No F L.
  { exists true. rewrite app_nil_r. by split. }
  apply Forall_cons in F as [[Hl Ho] F]. cbn [length] in L.
  destruct (refSet_add_spec set seen r T Hl Ho ltac:(lia)) as (ok & set' & E & Hok & Hs). cbn [refSet_addAll].
  rewrite E, bind_Ok. destruct ok; cbn [negb].
  - assert (Nc : ~ ref_clash seen r) by by apply Hok. unfold ref_clash in Nc. specialize (Hs eq_refl).
    assert (N1 : NoDup (ref_LogicalID <$> seen ++ [r])).
    { rewrite fmap_app. apply NoDup_app. split_and!; [done| |apply NoDup_singleton].
      intros x Hx Hx'%list_elem_of_singleton. subst x. tauto. }
    assert (N2 : NoDup (ref_Offset <$> seen ++ [r])).
    { rewrite fmap_app. apply NoDup_app. split_and!; [done| |apply NoDup_singleton].
      intros x Hx Hx'%list_elem_of_singleton. subst x. tauto. }
    destruct (IH set' (seen ++ [r]) Hs N1 N2 F) as (ok & E' & Hok'); [rewrite length_app; simpl; lia|].
    exists ok. split; [done|]. by rewrite <- app_assoc in Hok'.
  - exists false. split; [done|]. split; [done|]. intros [D1 D2]. exfalso.
    assert (C : ~ ~ ref_clash seen r) by (intros X; by apply Hok in X). apply C. intros [X|X].
    + rewrite fmap_app in D1. apply NoDup_app in D1 as (_ & D1 & _). apply (D1 _ X). by left.
    + rewrite fmap_app in D2. apply NoDup_app in D2 as (_ & D2 & _). apply (D2 _ X). by left.
Qed.

(** The fixed 128-slot open-addressing set always answers on up to 128
    references and accepts a sequence exactly when no two of them share a
    logical page or an offset, whatever the hash collisions. *)
Theorem refset_detects_duplicates (refs : list PageRef) :
  Forall (fun r => ref_LogicalID r <> 0 /\ ref_Offset r <> 0) refs -> (length refs <= 128)%nat ->
  exists ok, refSet_addAll emptyRefSet refs = Ok ok /\
    (ok = true <-> NoDup (ref_LogicalID <$> refs) /\ NoDup (ref_Offset <$> refs)).
Proof.
  intros F L. apply (refSet_addAll_spec refs emptyRefSet []); [apply empty_refset|apply NoDup_nil_2|apply NoDup_nil_2|done|done].
Qed.

Lemma refset_detects_duplicates_witness :
  exists ok, refSet_addAll emptyRefSet [mkPageRef 8192 2 1 4096 8 0 0; mkPageRef 12288 2 1 4096 8 0 0] = Ok ok /\
    (ok = true <-> NoDup [2; 2] /\ NoDup [8192; 12288]).
Proof.
  apply (refset_detects_duplicates [mkPageRef 8192 2 1 4096 8 0 0; mkPageRef 12288 2 1 4096 8 0 0]).
  - apply Forall_cons. split; [simpl; lia|]. apply Forall_singleton. simpl. lia.
  - simpl. lia.
Defined.

(** ** Records *)

Section Records.
Local Open Scope nat_scope.

Definition leafRecord (payload : list Z) (i : nat) : list Z := slice payload (32 + i * 24) (32 + i * 24 + 24).
Definition branchRecord (payload : list Z) (i : nat) : list Z := slice payload (32 + i * 48) (32 + i * 48 + 48).

Definition extentsOf (payload : list Z) (i n : nat) : list FreeExtent :=
  (fun j => decodeFreeExtent (leafRecord payload j)) <$> seq i n.

Definition decodeChild (r : list Z) : FreeDirectoryChild := mkChild (Uint64 r 0) (decodePageRef (slice r 16 48)).

Definition childrenOf (payload : list Z) (i n : nat) : list FreeDirectoryChild :=
  (fun j => decodeChild (branchRecord payload j)) <$> seq i n.

Lemma record_ok payload i size :
  32 + i * size + size <= length payload ->
  record payload i size = Ok (slice payload (32 + i * size) (32 + i * size + size)).
Proof. intros H. unfold record, FreeDirectoryPayloadHeaderSize. apply window_ok; lia. Qed.

(** Both loops of OpenFreeDirectoryPage are the encoder's checks on the decoded records. *)
Lemma openLeaf_spec n i payload ps fe prev :
  32 + (i + n) * 24 <= length payload ->
  openLeaf n i payload ps fe prev = Ok tt /\ checkLeaf (extentsOf payload i n) ps fe (i =? 0) prev = None \/
  openLeaf n i payload ps fe prev = Err (ErrFreeDirectoryCorrupt "extent order or bounds") /\
  checkLeaf (extentsOf payload i n) ps fe (i =? 0) prev <> None.
Proof.
  revert i prev. induction n as [|n IH]; intros i prev L; [by left|].
  unfold extentsOf. cbn [openLeaf seq fmap list_fmap checkLeaf].
  rewrite record_ok by (unfold FreeDirectoryLeafRecordSize; lia). rewrite bind_Ok. cbn zeta.
  unfold FreeDirectoryLeafRecordSize. fold (leafRecord payload i).
  destruct (validateFreeExtent _ ps fe); [right; by split|]. destruct (negb (i =? 0) && _); [right; by split|].
  apply (IH (S i)). lia.
Qed.

Definition prevLower (i : nat) (prev : Z) : option Z := if i =? 0 then None else Some prev.

Lemma openBranch_spec n i payload h fe next prev seen :
  32 + (i + n) * 48 <= length payload ->
  (forall j, i <= j < i + n -> allZero (slice (branchRecord payload j) 8 16) = true /\
     pageRefReservedZero (slice (branchRecord payload j) 16 48) = true) ->
  checkBranch (childrenOf payload i n) h fe next (prevLower i prev) seen = Ok tt ->
  openBranch n i payload h fe next prev seen = Ok tt.
Proof.
  revert i prev seen. induction n as [|n IH]; intros i prev seen L Z; [done|].
  unfold childrenOf. cbn [openBranch seq fmap list_fmap checkBranch].
  rewrite record_ok by (unfold FreeDirectoryBranchRecordSize; lia). rewrite bind_Ok. cbn zeta.
  unfold FreeDirectoryBranchRecordSize. fold (branchRecord payload i).
  destruct (Z i) as [Z1 Z2]; [lia|]. rewrite Z1, Z2. cbn [negb orb Lower Ref decodeChild].
  unfold prevLower. destruct (Nat.eqb_spec i 0) as [->|Ni]; cbn [negb andb].
  - destruct (validateFreeDirectoryChild _ _ _ _); [done|].
    destruct (refSet_add _ _) as [[[] seen']|?|]; cbn [mbind res_bind negb]; [|done..].
    intros C. apply IH; [lia| |done]. intros j Hj. apply Z. lia.
  - destruct (_ <=? prev)%Z; [done|]. destruct (validateFreeDirectoryChild _ _ _ _); [done|].
    destruct (refSet_add _ _) as [[[] seen']|?|]; cbn [mbind res_bind negb]; [|done..].
    intros C. apply IH; [lia| |done]. intros j Hj. apply Z. lia.
Qed.

Lemma openBranch_inv n i payload h fe next prev seen :
  32 + (i + n) * 48 <= length payload -> openBranch n i payload h fe next prev seen = Ok tt ->
  checkBranch (childrenOf payload i n) h fe next (prevLower i prev) seen = Ok tt.
Proof.
  revert i prev seen. induction n as [|n IH]; intros i prev seen L; [done|].
  unfold childrenOf. cbn [openBranch seq fmap list_fmap checkBranch].
  rewrite record_ok by (unfold FreeDirectoryBranchRecordSize; lia). rewrite bind_Ok. cbn zeta.
  unfold FreeDirectoryBranchRecordSize. fold (branchRecord payload i). cbn [Lower Ref decodeChild].
  unfold prevLower. destruct (_ || _) eqn:E; [done|]. apply orb_false_iff in E as [_ E].
  replace (match (if i =? 0 then None else Some prev) with Some p => (Uint64 (branchRecord payload i) 0 <=? p)%Z | None => false end)
    with (negb (i =? 0) && (Uint64 (branchRecord payload i) 0 <=? prev)%Z) by by destruct (i =? 0).
  rewrite E. destruct (validateFreeDirectoryChild _ _ _ _); [done|].
  destruct (refSet_add _ _) as [[[] seen']|?|]; cbn [mbind res_bind negb]; [|done..].
  intros C. apply (IH (S i)) in C; [done|lia].
Qed.

Definition extentBytes (e : FreeExtent) : list Z :=
  le_bytes 8 (Offset e) ++ le_bytes 8 (Length e) ++ le_bytes 8 (RetiredGeneration e).

Definition extent_words (e : FreeExtent) : Prop :=
  word_ok 8 (Offset e) /\ word_ok 8 (Length e) /\ word_ok 8 (RetiredGeneration e).

Lemma decode_extentBytes e : extent_words e -> decodeFreeExtent (extentBytes e) = e.
Proof.
  intros (H1 & H2 & H3). unfold decodeFreeExtent, Uint64, getLE.
  change (slice (extentBytes e) 0 (0 + 8)) with (le_bytes 8 (Offset e)).
  change (slice (extentBytes e) 8 (8 + 8)) with (le_bytes 8 (Length e)).
  change (slice (extentBytes e) 16 (16 + 8)) with (le_bytes 8 (RetiredGeneration e)).
  rewrite !le_uint_le_bytes by done. by destruct e.
Qed.

Lemma writeLeafRecords_length es page off : length (writeLeafRecords page off es) = length page.
Proof.
  revert page off. induction es as [|e es IH]; intros page off; [done|]. cbn [writeLeafRecords]. cbn zeta.
  rewrite IH. unfold PutUint64, putLE. by rewrite !setBytes_length.
Qed.

Lemma writeLeafRecords_out es page off a b :
  b <= off -> slice (writeLeafRecords page off es) a b = slice page a b.
Proof.
  revert page off. induction es as [|e es IH]; intros page off H; [done|]. cbn [writeLeafRecords]. cbn zeta.
  rewrite IH by (unfold FreeDirectoryLeafRecordSize; lia). unfold PutUint64, putLE. by rewrite !slice_set_out by lia.
Qed.

Lemma writeLeafRecords_ok es page off : bytes_ok page -> bytes_ok (writeLeafRecords page off es).
Proof.
  revert page off. induction es as [|e es IH]; intros page off H; [done|]. cbn [writeLeafRecords]. cbn zeta.
  apply IH. unfold PutUint64, putLE. repeat (apply setBytes_ok; [|apply le_bytes_ok]). done.
Qed.

Lemma slice_glue {A} (s : list A) a b c x y :
  a <= b -> b <= c -> slice s a b = x -> slice s b c = y -> slice s a c = x ++ y.
Proof. intros H1 H2 <- <-. by apply slice_split. Qed.

Lemma writeLeafRecords_record es page off j e :
  es !! j = Some e -> off + length es * 24 <= length page ->
  slice (writeLeafRecords page off es) (off + j * 24) (off + j * 24 + 24) = extentBytes e.
Proof.
  revert page off j. induction es as [|x es IH]; intros page off j E L; [done|]. cbn [length] in L.
  cbn [writeLeafRecords]. cbn zeta. unfold FreeDirectoryLeafRecordSize. destruct j as [|j].
  - injection E as ->. rewrite Nat.mul_0_l, Nat.add_0_r, writeLeafRecords_out by lia.
    unfold PutUint64, putLE, extentBytes.
    apply (slice_glue _ off (off + 8)); [lia|lia| |apply (slice_glue _ (off + 8) (off + 16)); [lia|lia| |]]; buf; done.
  - replace (off + S j * 24) with (off + 24 + j * 24) by lia. apply IH; [done|].
    unfold PutUint64, putLE. rewrite !setBytes_length. lia.
Qed.
End Records.

(** ** Encoded pages *)

Definition free_header_ok (h : FreeDirectoryHeader) : Prop :=
  length (fh_StoreID h) = 16%nat /\ bytes_ok (fh_StoreID h) /\ word_ok 8 (fh_Generation h) /\
  word_ok 8 (fh_LogicalID h) /\ word_ok 4 (fh_PageSize h) /\ is_byte (fh_Level h) /\ is_byte (fh_Flags h).

Lemma validateFreeDirectoryHeader_inv h count size next :
  0 <= fh_Flags h -> validateFreeDirectoryHeader h count size next = None ->
  bool_decide (fh_StoreID h = zeroStoreID) = false /\ fh_Generation h <> 0 /\ 1 < fh_LogicalID h < next /\
  validPhysicalPageSize (fh_PageSize h) = true /\ fh_Flags h = 0 /\ (0 < count)%nat /\ Z.of_nat count <= 65535 /\
  (size = FreeDirectoryBranchRecordSize -> Z.of_nat count <= 64) /\
  72 + (32 + Z.of_nat count * Z.of_nat size) <= fh_PageSize h.
Proof.
  intros Hf. unfold validateFreeDirectoryHeader. case_match eqn:E; [done|].
  destruct (Z.ltb_spec (fh_PageSize h - 64 - 8) (32 + Z.of_nat count * Z.of_nat size)); [done|]. intros _.
  repeat match goal with H : _ || _ = false |- _ => apply orb_false_iff in H as [? ?] end. bool_hyps.
  unfold StateRootLogicalID, freeDirectoryKnownFlags in *. rewrite Z.ldiff_0_r in *.
  match goal with H : (count =? 0)%nat = false |- _ => apply Nat.eqb_neq in H end.
  split_and!; try done; try lia. intros ->. match goal with H : _ && _ = false |- _ => revert H end.
  rewrite Nat.eqb_refl. cbn [andb]. intros ?%Z.ltb_ge. done.
Qed.

Lemma freePageHeader_ok h n : free_header_ok h -> word_ok 4 (Z.of_nat n) -> page_header_ok (freePageHeader h n).
Proof.
  intros (? & ? & ? & ? & ? & ? & ?) Hn. unfold page_header_ok, freePageHeader.
  cbn [ph_StoreID ph_Generation ph_LogicalID ph_PageSize ph_PayloadLength ph_Kind ph_Flags].
  split_and!; try done; unfold is_byte, PageFreeDirectory; lia.
Qed.

Lemma freePageHeader_valid h count size next :
  0 <= fh_Flags h -> validateFreeDirectoryHeader h count size next = None ->
  validatePageHeader (freePageHeader h (32 + count * size)) = None.
Proof.
  intros Hf V. destruct (validateFreeDirectoryHeader_inv h count size next Hf V) as (V1 & V2 & V3 & V4 & _ & _ & _ & _ & V9).
  unfold validatePageHeader, freePageHeader.
  cbn [ph_StoreID ph_Generation ph_LogicalID ph_PageSize ph_PayloadLength ph_Kind ph_Flags].
  rewrite V1, V4, (proj2 (Z.eqb_neq (fh_Generation h) 0)), (proj2 (Z.eqb_neq (fh_LogicalID h) 0)) by lia.
  cbn -[Z.of_nat Nat.mul Nat.add]. rewrite (proj2 (Z.ltb_ge _ _)); [done|].
  unfold PageHeaderSize, PageTrailerSize. lia.
Qed.

(** The node header reads back and leaves the reserved bytes zero. *)
Lemma encodeFreeDirectoryHeader_fields p h count :
  is_byte (fh_Level h) -> is_byte (fh_Flags h) -> Z.of_nat count <= 65535 -> (96 <= length p)%nat ->
  slice p 72 96 = replicate 24 0 ->
  let q := encodeFreeDirectoryHeader p h count in
  Uint32 q 64 = 1 /\ getByte q 68 = fh_Level h /\ getByte q 69 = fh_Flags h /\ Uint16 q 70 = Z.of_nat count /\
  slice q 72 96 = replicate 24 0 /\ length q = length p /\ forall a b, (96 <= a)%nat -> slice q a b = slice p a b.
Proof.
  intros Hl Hf Hc L Z0 q. unfold q, encodeFreeDirectoryHeader, PutUint32, PutUint16, putLE, Uint32, Uint16. cbn zeta.
  assert (word_ok 4 freeDirectoryVersion) by by unfold word_ok.
  assert (word_ok 2 (Z.of_nat count)) by (unfold word_ok; simpl Z.pow; lia).
  simpl Nat.add. split_and!; [buf; done..|buf; exact Z0|by rewrite !setBytes_length|].
  intros a b Ha. rewrite !slice_set_out by (rewrite ?le_bytes_length; simpl; lia). done.
Qed.

Lemma encodeFreeDirectoryHeader_ok p h count :
  is_byte (fh_Level h) -> is_byte (fh_Flags h) -> bytes_ok p -> bytes_ok (encodeFreeDirectoryHeader p h count).
Proof.
  intros Hl Hf Hp. unfold encodeFreeDirectoryHeader, PutUint32, PutUint16, putLE. cbn zeta.
  apply setBytes_ok; [|apply le_bytes_ok]. apply setBytes_ok; [|by apply Forall_singleton].
  apply setBytes_ok; [|by apply Forall_singleton]. apply setBytes_ok; [done|apply le_bytes_ok].
Qed.

Lemma encodeFreeDirectoryHeader_initialized ph p h count :
  initialized ph p -> initialized ph (encodeFreeDirectoryHeader p h count).
Proof.
  intros I. unfold encodeFreeDirectoryHeader, PutUint32, PutUint16, putLE. cbn zeta.
  repeat (apply initialized_set; [lia|]). done.
Qed.

(** What is read back from a page whose header and records were written by an encoder. *)
Definition node_page (h : FreeDirectoryHeader) (count size : nat) (q : list Z) : Prop :=
  initialized (freePageHeader h (32 + count * size)) q /\ bytes_ok q /\
  Uint32 q 64 = 1 /\ getByte q 68 = fh_Level h /\ getByte q 69 = fh_Flags h /\ Uint16 q 70 = Z.of_nat count /\
  slice q 72 96 = replicate 24 0.

Lemma getByte_slice p a b off : (a + off < b)%nat -> getByte (slice p a b) off = getByte p (a + off).
Proof. intros H. unfold getByte. rewrite slice_lookup. by destruct (Nat.ltb_spec off (b - a)); [|lia]. Qed.

(** Opening such a page runs the record loop on its payload. *)
Lemma open_node_page h count q rest fe next :
  let size := if fh_Level h =? 0 then FreeDirectoryLeafRecordSize else FreeDirectoryBranchRecordSize in
  let payload := slice q 64 (64 + (32 + count * size)) in
  free_header_ok h -> validateFreeDirectoryHeader h count size next = None -> node_page h count size q ->
  length payload = (32 + count * size)%nat /\
  OpenFreeDirectoryPage (sealed q ++ rest) fe next =
    (_ ← (if fh_Level h =? 0 then openLeaf count 0 payload (fh_PageSize h) fe 0
          else openBranch count 0 payload h fe next 0 emptyRefSet);
     Ok (mkView h payload count)).
Proof.
  intros size payload Ho V (I & Hb & F1 & F2 & F3 & F4 & F5).
  assert (Hf : 0 <= fh_Flags h) by apply Ho.
  destruct (validateFreeDirectoryHeader_inv h count size next Hf V) as (_ & _ & _ & _ & _ & _ & Hc & _ & Hs).
  assert (Hps : fh_PageSize h < 256 ^ 4) by apply Ho.
  assert (Hw : word_ok 4 (Z.of_nat (32 + count * size))) by (unfold word_ok; simpl Z.of_nat; lia).
  pose proof (freePageHeader_ok h (32 + count * size) Ho Hw) as Hh.
  pose proof (freePageHeader_valid h count size next Hf V) as Vh.
  assert (Lq : Z.of_nat (length q) = fh_PageSize h) by apply I.
  assert (Lp : length payload = (32 + count * size)%nat) by (unfold payload; rewrite slice_length; lia).
  split; [done|]. unfold OpenFreeDirectoryPage. rewrite (OpenPage_sealed _ q rest Hh Vh I Hb).
  change (ph_PayloadLength (freePageHeader h (32 + count * size))) with (Z.of_nat (32 + count * size)).
  rewrite Nat2Z.id. fold payload. rewrite Lp.
  assert (P1 : Uint32 payload 0 = 1) by (unfold payload, Uint32 in *; rewrite getLE_slice by lia; done).
  assert (P2 : getByte payload 4 = fh_Level h) by (unfold payload; rewrite getByte_slice by lia; done).
  assert (P3 : getByte payload 5 = fh_Flags h) by (unfold payload; rewrite getByte_slice by lia; done).
  assert (P4 : Uint16 payload 6 = Z.of_nat count) by (unfold payload, Uint16 in *; rewrite getLE_slice by lia; done).
  assert (P5 : slice payload 8 32 = replicate 24 0) by (unfold payload; rewrite slice_slice by lia; done).
  rewrite P1, P2, P3, P4, P5, Nat2Z.id, allZero_replicate.
  unfold freePageHeader. cbn [ph_StoreID ph_Generation ph_LogicalID ph_PageSize ph_PayloadLength ph_Kind ph_Flags].
  rewrite (proj2 (Nat.ltb_ge _ _)) by (unfold FreeDirectoryPayloadHeaderSize; lia).
  replace (mkFreeHeader _ _ _ _ _ _) with h by by destruct h. cbn [negb orb]. rewrite !Z.eqb_refl. cbn [negb orb].
  fold size. rewrite V. unfold FreeDirectoryPayloadHeaderSize. rewrite Nat.eqb_refl. reflexivity.
Qed.

Lemma writePageHeader_zero ps h a b :
  length (ph_StoreID h) = 16%nat -> (56 <= a)%nat -> (b <= ps)%nat ->
  slice (writePageHeader (replicate ps 0) h) a b = replicate (b - a) 0.
Proof.
  intros Hl Ha Hb. unfold writePageHeader, PutUint16, PutUint32, PutUint64, putLE. cbn zeta.
  rewrite !slice_set_out by (rewrite ?le_bytes_length; simpl; lia). by apply slice_replicate.
Qed.

(** The page after the header writes: a node page, zero from the first record on. *)
Lemma node_page_init h count size next (dst p : list Z) :
  free_header_ok h -> validateFreeDirectoryHeader h count size next = None ->
  InitPage dst (freePageHeader h (32 + count * size)) = Ok p ->
  let q := encodeFreeDirectoryHeader p h count in
  node_page h count size q /\ Z.of_nat (length q) = fh_PageSize h /\
  forall a b, (96 <= a)%nat -> (b <= length q)%nat -> slice q a b = replicate (b - a) 0.
Proof.
  intros Ho V E q. assert (Hf : 0 <= fh_Flags h) by apply Ho.
  destruct (validateFreeDirectoryHeader_inv h count size next Hf V) as (_ & _ & _ & _ & _ & _ & Hc & _ & Hs).
  assert (Hps : fh_PageSize h < 256 ^ 4) by apply Ho.
  assert (Hw : word_ok 4 (Z.of_nat (32 + count * size))) by (unfold word_ok; simpl Z.of_nat; lia).
  pose proof (freePageHeader_ok h _ Ho Hw) as Hh.
  destruct (InitPage_initialized dst (freePageHeader h (32 + count * size)) p (proj1 Hw) E) as (_ & I & Ep & _).
  assert (Hb : bytes_ok p) by (rewrite Ep; apply writePageHeader_ok; [done|apply zeros_ok]).
  assert (Lp : Z.of_nat (length p) = fh_PageSize h) by apply I.
  assert (Zp : forall a b, (56 <= a)%nat -> (b <= length p)%nat -> slice p a b = replicate (b - a) 0).
  { intros a b Ha Hbl. rewrite Ep. apply writePageHeader_zero; [apply Hh|done|].
    cbn [ph_PageSize freePageHeader]. lia. }
  destruct Ho as (_ & _ & _ & _ & _ & Hl & Hfl).
  destruct (encodeFreeDirectoryHeader_fields p h count Hl Hfl Hc ltac:(lia)) as (F1 & F2 & F3 & F4 & F5 & L & S).
  { apply Zp; lia. }
  fold q in F1, F2, F3, F4, F5, L, S. split_and!.
  - split_and!; try done; [by apply encodeFreeDirectoryHeader_initialized|by apply encodeFreeDirectoryHeader_ok].
  - lia.
  - intros a b Ha Hbl. rewrite S by done. apply Zp; lia.
Qed.

Lemma node_page_agree h count size q q' :
  node_page h count size q -> length q' = length q -> bytes_ok q' -> slice q' 0 96 = slice q 0 96 -> node_page h count size q'.
Proof.
  intros (I & _ & F1 & F2 & F3 & F4 & F5) L Hb S. unfold node_page, Uint32, Uint16, getLE in *.
  rewrite !(slice_agree q' q 96 _ _ S), !(getByte_agree q' q 96 _ S) by lia. split_and!; try done.
  destruct I as [I1 I2]. split; [by rewrite L|]. rewrite <- I2. apply (slice_agree _ _ 96); [done|lia].
Qed.

Lemma seal_node_page h count size next w :
  free_header_ok h -> validateFreeDirectoryHeader h count size next = None -> node_page h count size w ->
  exists c, sealInitializedPage w = Ok (sealed w, c).
Proof.
  intros Ho V N. assert (Hf : 0 <= fh_Flags h) by apply Ho. assert (Hps : fh_PageSize h < 256 ^ 4) by apply Ho.
  destruct (validateFreeDirectoryHeader_inv _ _ _ _ Hf V) as (_ & _ & _ & _ & _ & _ & Hc & _ & Hs).
  assert (Hw : word_ok 4 (Z.of_nat (32 + count * size))) by (unfold word_ok; simpl Z.of_nat; lia).
  eexists. apply (sealPage_initialized (freePageHeader h (32 + count * size))); [by apply freePageHeader_ok| |apply N|done].
  by eapply freePageHeader_valid.
Qed.

Definition rank_lookup {A} (l : list A) (rank : Z) : option A := if rank <? 0 then None else l !! Z.to_nat rank.

Lemma extentsOf_lookup payload n i :
  (i < n)%nat -> extentsOf payload 0 n !! i = Some (decodeFreeExtent (leafRecord payload i)).
Proof. intros H. unfold extentsOf. by rewrite list_lookup_fmap, lookup_seq_lt by done. Qed.

(** The records of a leaf payload, if decoding gives [es]. *)
Lemma ExtentAt_view h payload n rank :
  fh_Level h = 0 -> length payload = (32 + n * 24)%nat ->
  ExtentAt (mkView h payload n) rank = Ok (rank_lookup (extentsOf payload 0 n) rank).
Proof.
  intros Hl L. unfold ExtentAt, rank_lookup. cbn [v_header v_payload v_count]. rewrite Hl. cbn [Z.eqb negb orb].
  destruct (Z.ltb_spec rank 0); [done|]. cbn [orb]. destruct (Z.leb_spec (Z.of_nat n) rank).
  - rewrite lookup_ge_None_2; [done|]. unfold extentsOf. rewrite length_fmap, length_seq. lia.
  - rewrite record_ok by (unfold FreeDirectoryLeafRecordSize; lia). rewrite bind_Ok, extentsOf_lookup by lia. done.
Qed.

Lemma ChildAt_view h payload n rank :
  fh_Level h <> 0 -> length payload = (32 + n * 48)%nat ->
  ChildAt (mkView h payload n) rank = Ok (rank_lookup (childrenOf payload 0 n) rank).
Proof.
  intros Hl L. unfold ChildAt, rank_lookup. cbn [v_header v_payload v_count]. rewrite (proj2 (Z.eqb_neq _ _) Hl). cbn [orb].
  destruct (Z.ltb_spec rank 0); [done|]. cbn [orb]. destruct (Z.leb_spec (Z.of_nat n) rank).
  - rewrite lookup_ge_None_2; [done|]. unfold childrenOf. rewrite length_fmap, length_seq. lia.
  - rewrite record_ok by (unfold FreeDirectoryBranchRecordSize; lia). rewrite bind_Ok. unfold childrenOf.
    rewrite list_lookup_fmap, lookup_seq_lt by lia. done.
Qed.

Lemma extentsOf_written es q :
  Forall extent_words es -> (96 + length es * 24 <= length q)%nat ->
  extentsOf (slice (writeLeafRecords q 96 es) 64 (64 + (32 + length es * 24))) 0 (length es) = es.
Proof.
  intros F L. apply list_eq. intros i. destruct (decide (i < length es)%nat) as [Hi|Hi].
  - rewrite extentsOf_lookup by done. destruct (lookup_lt_is_Some_2 es i Hi) as [e Ee]. rewrite Ee. f_equal.
    unfold leafRecord. rewrite slice_slice by lia. replace (64 + (32 + i * 24))%nat with (96 + i * 24)%nat by lia.
    replace (64 + (32 + i * 24 + 24))%nat with (96 + i * 24 + 24)%nat by lia.
    rewrite (writeLeafRecords_record es q 96 i e Ee L). apply decode_extentBytes. by eapply Forall_lookup_1.
  - rewrite !lookup_ge_None_2; [done|lia|]. unfold extentsOf. rewrite length_fmap, length_seq. lia.
Qed.

(** What an encoded leaf is: the sealed page its header and records make. *)
Lemma EncodeLeaf_sealed dst h es fe next page :
  free_header_ok h -> Forall extent_words es -> EncodeFreeDirectoryLeaf dst h es fe next = Ok page ->
  fh_Level h = 0 /\ validateFreeDirectoryHeader h (length es) FreeDirectoryLeafRecordSize next = None /\
  checkLeaf es (fh_PageSize h) fe true 0 = None /\ fh_PageSize h <= Z.of_nat (length dst) /\
  exists w, page = sealed w /\ node_page h (length es) FreeDirectoryLeafRecordSize w /\
    extentsOf (slice w 64 (64 + (32 + length es * FreeDirectoryLeafRecordSize))) 0 (length es) = es.
Proof.
  intros Ho We E. unfold EncodeFreeDirectoryLeaf in E.
  destruct (Z.eqb_spec (fh_Level h) 0) as [Hl|]; [|done]. cbn [negb] in E.
  destruct (validateFreeDirectoryHeader _ _ _ _) eqn:V; [done|]. destruct (checkLeaf _ _ _ _ _) eqn:C; [done|].
  destruct (InitPage _ _) as [p|?|] eqn:EI; [|done..]. rewrite bind_Ok in E. cbn zeta in E.
  change (64 + 32)%nat with 96%nat in E.
  assert (Hd : fh_PageSize h <= Z.of_nat (length dst)).
  { unfold InitPage in EI. case_match; [done|]. destruct (Z.ltb_spec (Z.of_nat (length dst)) (fh_PageSize h)); [|done]. by rewrite (proj2 (Z.ltb_lt _ _)) in EI. }
  destruct (node_page_init h (length es) FreeDirectoryLeafRecordSize next dst p Ho V EI) as (N & Lq & _).
  set (q := encodeFreeDirectoryHeader p h (length es)) in *. clearbody q.
  assert (Hf : 0 <= fh_Flags h) by apply Ho.
  destruct (validateFreeDirectoryHeader_inv _ _ _ _ Hf V) as (_ & _ & _ & _ & _ & _ & Hc & _ & Hs).
  unfold FreeDirectoryLeafRecordSize in Hs.
  assert (N' : node_page h (length es) FreeDirectoryLeafRecordSize (writeLeafRecords q 96 es)).
  { apply (node_page_agree _ _ _ q); [done|apply writeLeafRecords_length|apply writeLeafRecords_ok, N|].
    by apply writeLeafRecords_out. }
  destruct (seal_node_page _ _ _ _ _ Ho V N') as [c Es]. rewrite Es, bind_Ok in E. injection E as <-.
  split_and!; try done. exists (writeLeafRecords q 96 es). split_and!; try done. apply (extentsOf_written es q We). lia.
Qed.

(** A leaf round-trips: whenever it encodes, opening the page (whatever
    follows it) succeeds with the same header and count, and every rank reads
    back its extent, out-of-range ranks reading none. *)
Theorem free_leaf_roundtrip (dst : list Z) (h : FreeDirectoryHeader) (es : list FreeExtent) (fileEnd next : Z) (page : list Z) :
  free_header_ok h -> Forall extent_words es ->
  EncodeFreeDirectoryLeaf dst h es fileEnd next = Ok page ->
  forall rest, exists v, OpenFreeDirectoryPage (page ++ rest) fileEnd next = Ok v /\
    v_header v = h /\ view_Len v = length es /\ forall rank, ExtentAt v rank = Ok (rank_lookup es rank).
Proof.
  intros Ho We E rest. destruct (EncodeLeaf_sealed _ _ _ _ _ _ Ho We E) as (Hl & V & C & _ & w & -> & N & X).
  pose proof (open_node_page h (length es) w rest fileEnd next) as O. cbn zeta in O. rewrite Hl in O. cbn [Z.eqb] in O.
  destruct (O Ho V N) as [Lp O']. rewrite O'. clear O O'. unfold FreeDirectoryLeafRecordSize in *.
  destruct (openLeaf_spec (length es) 0 (slice w 64 (64 + (32 + length es * 24))) (fh_PageSize h) fileEnd 0) as [[Eo _]|[_ Bad]].
  - rewrite Lp. lia.
  - rewrite Eo, bind_Ok. eexists. split; [done|]. split; [done|]. split; [done|]. intros rank.
    rewrite ExtentAt_view by done. by rewrite X.
  - exfalso. rewrite X in Bad. exact (Bad C).
Qed.

Definition example_free_header : FreeDirectoryHeader := mkFreeHeader (replicate 16 7) 3 5 4096 0 0.
Definition example_extents : list FreeExtent := [mkExtent 8192 4096 2; mkExtent 16384 8192 1].

Lemma example_free_header_ok : free_header_ok example_free_header.
Proof. unfold free_header_ok, word_ok, is_byte. cbn -[Z.pow]. split_and!; try lia. by apply bytes_ok_bool. Qed.

Lemma free_leaf_roundtrip_witness :
  exists page, EncodeFreeDirectoryLeaf (replicate (Z.to_nat 4096) 0) example_free_header example_extents 65536 9 = Ok page /\
  forall rest, exists v, OpenFreeDirectoryPage (page ++ rest) 65536 9 = Ok v /\
    v_header v = example_free_header /\ view_Len v = 2%nat /\ forall rank, ExtentAt v rank = Ok (rank_lookup example_extents rank).
Proof.
  destruct (EncodeFreeDirectoryLeaf (replicate (Z.to_nat 4096) 0) example_free_header example_extents 65536 9) as [page|?|] eqn:E.
  - exists page. split; [reflexivity|].
    refine (free_leaf_roundtrip (replicate (Z.to_nat 4096) 0) example_free_header example_extents 65536 9 page example_free_header_ok _ E).
    unfold example_extents, extent_words, word_ok. apply Forall_cons. split; [|apply Forall_singleton]; simpl; lia.
  - exfalso. vm_compute in E. discriminate E.
  - exfalso. vm_compute in E. discriminate E.
Defined.

(** ** Branches *)

Section BranchRecords.
Local Open Scope nat_scope.

Definition childBytes (c : FreeDirectoryChild) : list Z :=
  le_bytes 8 (Lower c) ++ replicate 8 0%Z ++ encodePageRef (Ref c).

Lemma writeBranchRecords_length cs page off : length (writeBranchRecords page off cs) = length page.
Proof.
  revert page off. induction cs as [|e es IH]; intros page off; [done|]. cbn [writeBranchRecords]. cbn zeta.
  rewrite IH. unfold PutUint64, putLE. by rewrite !setBytes_length.
Qed.

Lemma writeBranchRecords_out cs page off a b :
  b <= off -> slice (writeBranchRecords page off cs) a b = slice page a b.
Proof.
  revert page off. induction cs as [|e es IH]; intros page off H; [done|]. cbn [writeBranchRecords]. cbn zeta.
  rewrite IH by (unfold FreeDirectoryBranchRecordSize; lia). unfold PutUint64, putLE. by rewrite !slice_set_out by lia.
Qed.

Lemma writeBranchRecords_ok cs page off :
  Forall (fun c => ref_ok (Ref c)) cs -> bytes_ok page -> bytes_ok (writeBranchRecords page off cs).
Proof.
  revert page off. induction cs as [|e es IH]; intros page off F H; [done|]. apply Forall_cons in F as [He F].
  cbn [writeBranchRecords]. cbn zeta. apply IH; [done|]. unfold PutUint64, putLE.
  apply setBytes_ok; [|by apply encodePageRef_ok]. apply setBytes_ok; [done|apply le_bytes_ok].
Qed.

(** The reserved word of a record keeps the zero of the cleared page. *)
Lemma writeBranchRecords_record cs page off j c :
  cs !! j = Some c -> off + length cs * 48 <= length page ->
  (forall a b, off <= a -> b <= length page -> slice page a b = replicate (b - a) 0%Z) ->
  slice (writeBranchRecords page off cs) (off + j * 48) (off + j * 48 + 48) = childBytes c.
Proof.
  revert page off j. induction cs as [|x cs IH]; intros page off j E L Z; [done|]. cbn [length] in L.
  cbn [writeBranchRecords]. cbn zeta. unfold FreeDirectoryBranchRecordSize. destruct j as [|j].
  - injection E as ->. rewrite Nat.mul_0_l, Nat.add_0_r, writeBranchRecords_out by lia.
    unfold PutUint64, putLE, childBytes.
    apply (slice_glue _ off (off + 8)); [lia|lia| |apply (slice_glue _ (off + 8) (off + 16)); [lia|lia| |]]; buf; [done| |done].
    rewrite Z by lia. f_equal. lia.
  - replace (off + S j * 48) with (off + 48 + j * 48) by lia. apply IH; [done| |].
    + unfold PutUint64, putLE. rewrite !setBytes_length. lia.
    + intros a b Ha Hb. unfold PutUint64, putLE in *. rewrite !setBytes_length in Hb.
      rewrite !slice_set_out by (rewrite ?encodePageRef_length, ?le_bytes_length; lia). apply Z; lia.
Qed.

Definition child_ok (c : FreeDirectoryChild) : Prop := word_ok 8 (Lower c) /\ ref_ok (Ref c).

Lemma decode_childBytes c :
  child_ok c -> decodeChild (childBytes c) = c /\ allZero (slice (childBytes c) 8 16) = true /\
  (ref_Aux (Ref c) = 0%Z -> pageRefReservedZero (slice (childBytes c) 16 48) = true).
Proof.
  intros [Hl Hr]. unfold decodeChild, Uint64, getLE.
  change (slice (childBytes c) 0 (0 + 8)) with (le_bytes 8 (Lower c)).
  change (slice (childBytes c) 16 48) with (encodePageRef (Ref c)).
  change (slice (childBytes c) 8 16) with (replicate 8 0%Z).
  rewrite le_uint_le_bytes, decode_encodePageRef, reserved_encodePageRef by done.
  split_and!; [by destruct c|done|]. by intros ->.
Qed.
End BranchRecords.

(** What validation promises of a branch child. *)
Definition child_in_file (h : FreeDirectoryHeader) (fileEnd next : Z) (r : PageRef) : Prop :=
  ref_Kind r = PageFreeDirectory /\ ref_Aux r = 0 /\ ref_Length r = fh_PageSize h /\
  0 < ref_Generation r <= fh_Generation h /\ StateRootLogicalID < ref_LogicalID r < next /\
  ref_LogicalID r <> fh_LogicalID h /\ superblockCopies * fh_PageSize h <= ref_Offset r /\
  ref_Offset r mod fh_PageSize h = 0 /\ ref_Offset r + fh_PageSize h <= fileEnd.

Lemma validateFreeDirectoryChild_spec h r fe next :
  ref_ok r -> validateFreeDirectoryChild h r fe next = None -> child_in_file h fe next r.
Proof.
  intros (_ & _ & Hg & _). unfold validateFreeDirectoryChild. cbn zeta. case_match eqn:E; [done|]. intros _.
  bool_hyps. unfold child_in_file, word_ok in *. split_and!; lia || done.
Qed.

Fixpoint lowers_increasing (previous : option Z) (cs : list FreeDirectoryChild) : Prop :=
  match cs with
  | [] => True
  | c :: cs => (match previous with Some p => p < Lower c | None => True end) /\ lowers_increasing (Some (Lower c)) cs
  end.

Lemma child_in_file_nonzero h fe next r :
  4096 <= fh_PageSize h -> child_in_file h fe next r -> ref_LogicalID r <> 0 /\ ref_Offset r <> 0.
Proof. unfold child_in_file, StateRootLogicalID, superblockCopies. lia. Qed.

(** The branch checks always answer, and accept only ordered, distinct, in-file children. *)
Lemma checkBranch_spec cs h fe next prev seen refs :
  4096 <= fh_PageSize h -> refset_of seen refs -> (length refs + length cs <= 128)%nat -> Forall child_ok cs ->
  NoDup (ref_LogicalID <$> refs) -> NoDup (ref_Offset <$> refs) ->
  (exists d, checkBranch cs h fe next prev seen = Err (ErrInvalidWrite d)) \/
  (checkBranch cs h fe next prev seen = Ok tt /\ Forall (fun c => child_in_file h fe next (Ref c)) cs /\
   lowers_increasing prev cs /\
   NoDup (ref_LogicalID <$> refs ++ (Ref <$> cs)) /\ NoDup (ref_Offset <$> refs ++ (Ref <$> cs))).
Proof.
  intros Hp. revert prev seen refs. induction cs as [|c cs IH]; intros prev seen refs T L F N1 N2.
  { right. cbn. rewrite app_nil_r, Forall_nil. by split_and!. }
  apply Forall_cons in F as [[_ Hc] F]. cbn [checkBranch length] in *.
  destruct (match prev with Some p => Lower c <=? p | None => false end) eqn:Eo; [left; by eexists|].
  destruct (validateFreeDirectoryChild h (Ref c) fe next) eqn:V; [left; by eexists|].
  apply validateFreeDirectoryChild_spec in V; [|done].
  destruct (child_in_file_nonzero h fe next (Ref c) Hp V) as [Z1 Z2].
  destruct (refSet_add_spec seen refs (Ref c) T Z1 Z2 ltac:(lia)) as (ok & set' & E & Hok & Hs). rewrite E, bind_Ok.
  destruct ok; cbn [negb]; [|left; by eexists].
  assert (Nc : ~ ref_clash refs (Ref c)) by by apply Hok. unfold ref_clash in Nc.
  destruct (IH (Some (Lower c)) set' (refs ++ [Ref c])) as [B|(B & F' & I' & D1 & D2)]; [by apply Hs| |done| | |by left|right].
  - rewrite length_app. simpl. lia.
  - rewrite fmap_app. apply NoDup_app. split_and!; [done| |apply NoDup_singleton].
    intros x Hx ->%list_elem_of_singleton. tauto.
  - rewrite fmap_app. apply NoDup_app. split_and!; [done| |apply NoDup_singleton].
    intros x Hx ->%list_elem_of_singleton. tauto.
  - rewrite <- app_assoc in D1, D2. split_and!; [done|by apply Forall_cons| |done|done]. split; [|done].
    destruct prev as [p|]; [|done]. lia.
Qed.

Lemma childrenOf_written cs q :
  Forall child_ok cs -> (96 + length cs * 48 <= length q)%nat ->
  (forall a b, (96 <= a)%nat -> (b <= length q)%nat -> slice q a b = replicate (b - a) 0) ->
  let payload := slice (writeBranchRecords q 96 cs) 64 (64 + (32 + length cs * 48)) in
  childrenOf payload 0 (length cs) = cs /\
  forall j c, cs !! j = Some c -> branchRecord payload j = childBytes c.
Proof.
  intros F L Z payload. assert (R : forall j c, cs !! j = Some c -> branchRecord payload j = childBytes c).
  { intros j c Ej. assert (Hj := lookup_lt_Some _ _ _ Ej). unfold branchRecord, payload. rewrite slice_slice by lia.
    replace (64 + (32 + j * 48))%nat with (96 + j * 48)%nat by lia.
    replace (64 + (32 + j * 48 + 48))%nat with (96 + j * 48 + 48)%nat by lia.
    by apply writeBranchRecords_record. }
  split; [|done]. apply list_eq. intros i. unfold childrenOf. rewrite list_lookup_fmap.
  destruct (decide (i < length cs)%nat) as [Hi|Hi].
  - rewrite lookup_seq_lt by done. destruct (lookup_lt_is_Some_2 cs i Hi) as [c Ec]. rewrite Ec. simpl. f_equal.
    rewrite (R i c Ec). apply decode_childBytes. by eapply Forall_lookup_1.
  - rewrite !lookup_ge_None_2; [done|lia|rewrite length_seq; lia].
Qed.

(** What an encoded branch is. *)
Lemma EncodeBranch_sealed dst h cs fe next page :
  free_header_ok h -> Forall child_ok cs -> EncodeFreeDirectoryBranch dst h cs fe next = Ok page ->
  fh_Level h <> 0 /\ (length cs <= 64)%nat /\ validateFreeDirectoryHeader h (length cs) FreeDirectoryBranchRecordSize next = None /\
  checkBranch cs h fe next None emptyRefSet = Ok tt /\ fh_PageSize h <= Z.of_nat (length dst) /\
  exists w, page = sealed w /\ node_page h (length cs) FreeDirectoryBranchRecordSize w /\
    let payload := slice w 64 (64 + (32 + length cs * 48)) in
    childrenOf payload 0 (length cs) = cs /\ forall j c, cs !! j = Some c -> branchRecord payload j = childBytes c.
Proof.
  intros Ho Wc E. unfold EncodeFreeDirectoryBranch in E.
  destruct (Z.eqb_spec (fh_Level h) 0) as [|Hl]; [done|]. cbn [orb] in E.
  destruct (Z.ltb_spec 64 (Z.of_nat (length cs))); [done|].
  destruct (validateFreeDirectoryHeader _ _ _ _) eqn:V; [done|].
  destruct (checkBranch _ _ _ _ _ _) as [[]|?|] eqn:C; [|done..]. rewrite bind_Ok in E.
  destruct (InitPage _ _) as [p|?|] eqn:EI; [|done..]. rewrite bind_Ok in E. cbn zeta in E.
  change (64 + 32)%nat with 96%nat in E.
  assert (Hd : fh_PageSize h <= Z.of_nat (length dst)).
  { unfold InitPage in EI. case_match; [done|]. destruct (Z.ltb_spec (Z.of_nat (length dst)) (fh_PageSize h)); [|done]. by rewrite (proj2 (Z.ltb_lt _ _)) in EI. }
  destruct (node_page_init h (length cs) FreeDirectoryBranchRecordSize next dst p Ho V EI) as (N & Lq & Zq).
  set (q := encodeFreeDirectoryHeader p h (length cs)) in *. clearbody q.
  assert (Hf : 0 <= fh_Flags h) by apply Ho.
  destruct (validateFreeDirectoryHeader_inv _ _ _ _ Hf V) as (_ & _ & _ & _ & _ & _ & Hc & _ & Hs).
  unfold FreeDirectoryBranchRecordSize in Hs.
  assert (N' : node_page h (length cs) FreeDirectoryBranchRecordSize (writeBranchRecords q 96 cs)).
  { apply (node_page_agree _ _ _ q); [done|apply writeBranchRecords_length| |by apply writeBranchRecords_out].
    apply writeBranchRecords_ok; [|apply N]. eapply Forall_impl; [exact Wc|]. by intros c [_ ?]. }
  destruct (seal_node_page _ _ _ _ _ Ho V N') as [c Es]. rewrite Es, bind_Ok in E. injection E as <-.
  split_and!; try done; [lia|]. exists (writeBranchRecords q 96 cs). split_and!; try done. apply (childrenOf_written cs q Wc); [lia|done].
Qed.

(** A branch round-trips: whenever it encodes, opening the page (whatever
    follows it) succeeds with the same header and count, and every rank reads
    back its lower bound and child reference. *)
Theorem free_branch_roundtrip (dst : list Z) (h : FreeDirectoryHeader) (cs : list FreeDirectoryChild) (fileEnd next : Z) (page : list Z) :
  free_header_ok h -> Forall child_ok cs ->
  EncodeFreeDirectoryBranch dst h cs fileEnd next = Ok page ->
  forall rest, exists v, OpenFreeDirectoryPage (page ++ rest) fileEnd next = Ok v /\
    v_header v = h /\ view_Len v = length cs /\ forall rank, ChildAt v rank = Ok (rank_lookup cs rank).
Proof.
  intros Ho Wc E rest. destruct (EncodeBranch_sealed _ _ _ _ _ _ Ho Wc E) as (Hl & Hc & V & C & _ & w & -> & N & X & R).
  assert (Hp : 4096 <= fh_PageSize h).
  { destruct (validateFreeDirectoryHeader_inv _ _ _ _ ltac:(apply Ho) V) as (_ & _ & _ & Vp & _).
    unfold validPhysicalPageSize, physicalPageQuantum in Vp. bool_hyps. done. }
  pose proof (open_node_page h (length cs) w rest fileEnd next) as O. cbn zeta in O.
  rewrite (proj2 (Z.eqb_neq _ _) Hl) in O. destruct (O Ho V N) as [Lp O']. rewrite O'. clear O O'.
  unfold FreeDirectoryBranchRecordSize in *.
  rewrite openBranch_spec; [rewrite bind_Ok|rewrite Lp; lia| |by rewrite X].
  - eexists. split; [done|]. split; [done|]. split; [done|]. intros rank. rewrite ChildAt_view by done. by rewrite X.
  - destruct (checkBranch_spec cs h fileEnd next None emptyRefSet [] Hp empty_refset) as [[d Bad]|(_ & A & _)];
      [simpl; lia|done|by apply NoDup_nil_2|by apply NoDup_nil_2|by rewrite C in Bad|].
    intros j [_ Hj]. destruct (lookup_lt_is_Some_2 cs j Hj) as [ch Ech]. rewrite (R j ch Ech).
    destruct (decode_childBytes ch) as (_ & Z1 & Z2); [by eapply Forall_lookup_1|]. split; [done|]. apply Z2.
    rewrite Forall_lookup in A. apply (A j ch Ech).
Qed.

Definition example_branch_header : FreeDirectoryHeader := mkFreeHeader (replicate 16 7) 3 5 4096 1 0.
Definition example_children : list FreeDirectoryChild :=
  [mkChild 0 (mkPageRef 8192 2 1 4096 8 0 0); mkChild 40960 (mkPageRef 12288 3 2 4096 8 0 0)].

Lemma free_branch_roundtrip_witness :
  exists page, EncodeFreeDirectoryBranch (replicate (Z.to_nat 4096) 0) example_branch_header example_children 65536 9 = Ok page /\
  forall rest, exists v, OpenFreeDirectoryPage (page ++ rest) 65536 9 = Ok v /\
    v_header v = example_branch_header /\ view_Len v = 2%nat /\ forall rank, ChildAt v rank = Ok (rank_lookup example_children rank).
Proof.
  destruct (EncodeFreeDirectoryBranch (replicate (Z.to_nat 4096) 0) example_branch_header example_children 65536 9) as [page|?|] eqn:E.
  - exists page. split; [reflexivity|].
    refine (free_branch_roundtrip (replicate (Z.to_nat 4096) 0) example_branch_header example_children 65536 9 page _ _ E).
    + unfold free_header_ok, word_ok, is_byte. cbn -[Z.pow]. split_and!; try lia. by apply bytes_ok_bool.
    + unfold example_children, child_ok, ref_ok, word_ok, is_byte. apply Forall_cons. split; [|apply Forall_singleton]; simpl; lia.
  - exfalso. vm_compute in E. discriminate E.
  - exfalso. vm_compute in E. discriminate E.
Defined.

(** ** Accepted pages *)

Definition extent_end (e : FreeExtent) : Z := Offset e + Length e.

Definition extent_in_file (pageSize fileEnd : Z) (e : FreeExtent) : Prop :=
  superblockCopies * pageSize <= Offset e /\ Offset e mod pageSize = 0 /\ Length e mod pageSize = 0 /\
  0 < Length e /\ extent_end e <= fileEnd /\ 0 < RetiredGeneration e.

Lemma validateFreeExtent_spec e ps fe :
  extent_words e -> validateFreeExtent e ps fe = None -> extent_in_file ps fe e.
Proof.
  intros (W1 & W2 & W3). unfold validateFreeExtent, word_ok in *. case_match eqn:E; [done|]. intros _. bool_hyps.
  unfold extent_in_file, extent_end. split_and!; lia || done.
Qed.

Lemma checkLeaf_spec es ps fe first prev :
  fe < 2 ^ 64 -> 0 <= ps -> Forall extent_words es -> checkLeaf es ps fe first prev = None ->
  Forall (extent_in_file ps fe) es /\ (first = false -> Forall (fun e => prev <= Offset e) es) /\
  StronglySorted (fun a b => extent_end a <= Offset b) es.
Proof.
  intros Hfe Hps. revert first prev. induction es as [|e es IH]; intros first prev F; cbn [checkLeaf].
  { intros _. split_and!; [by apply Forall_nil|intros; by apply Forall_nil|constructor]. }
  apply Forall_cons in F as [We F]. destruct (validateFreeExtent e ps fe) eqn:V; [done|].
  apply validateFreeExtent_spec in V; [|done]. destruct (negb first && _) eqn:E; [done|]. intros C.
  apply IH in C as (F1 & F2 & S); [|done]. specialize (F2 eq_refl).
  assert (Ew : wrap64 (Offset e + Length e) = extent_end e).
  { apply Z.mod_small. destruct We as (? & ? & _). unfold extent_in_file, extent_end, word_ok in *. lia. }
  rewrite Ew in F2. split_and!; [by apply Forall_cons| |by constructor].
  intros ->. cbn [negb andb] in E. apply Forall_cons. apply Z.ltb_ge in E. split; [done|].
  eapply Forall_impl; [exact F2|]. cbn. intros x. unfold extent_in_file, extent_end in V. unfold extent_end. lia.
Qed.

Lemma StronglySorted_lookup_lt {A} (R : A -> A -> Prop) l i j a b :
  StronglySorted R l -> l !! i = Some a -> l !! j = Some b -> (i < j)%nat -> R a b.
Proof.
  intros S. revert i j. induction S as [|x l _ IH F]; intros i j Ea Eb Lt; [done|].
  destruct j as [|j]; [lia|]. destruct i as [|i].
  - injection Ea as ->. exact (proj1 (Forall_lookup _ _) F j b Eb).
  - apply (IH i j); [done|done|lia].
Qed.

(** The binary-search loops, over a predicate on ranks. *)
Fixpoint bsearch (fuel : nat) (p : nat -> bool) (low high : nat) : option nat :=
  if (low <? high)%nat then
    match fuel with
    | O => None
    | S fuel =>
        let middle := Nat.div2 (low + high) in
        if p middle then bsearch fuel p (middle + 1) high else bsearch fuel p low middle
    end
  else Some low.

Lemma div2_mid low high : (low < high)%nat -> (low <= Nat.div2 (low + high) < high)%nat.
Proof. intros H. rewrite Nat.div2_div. pose proof (Nat.div_mod_eq (low + high) 2). pose proof (Nat.mod_upper_bound (low + high) 2). lia. Qed.

(** It finds where a predicate that is true, then false, changes. *)
Lemma bsearch_spec fuel p low high :
  (high - low <= fuel)%nat -> (low <= high)%nat ->
  (forall i j, (i <= j)%nat -> (j < high)%nat -> p j = true -> p i = true) ->
  exists k, bsearch fuel p low high = Some k /\ (low <= k <= high)%nat /\
    (forall i, (low <= i < k)%nat -> p i = true) /\ (forall i, (k <= i < high)%nat -> p i = false).
Proof.
  revert low high. induction fuel as [|fuel IH]; intros low high Hf Hl M; cbn [bsearch].
  - destruct (Nat.ltb_spec low high); [lia|]. exists low. split_and!; [done|lia|lia|lia|lia].
  - destruct (Nat.ltb_spec low high) as [Lt|]; [|exists low; split_and!; [done|lia|lia|lia|lia]]. cbn zeta.
    pose proof (div2_mid low high Lt) as Hm. set (m := Nat.div2 (low + high)) in *. clearbody m. destruct (p m) eqn:Pm.
    + destruct (IH (m + 1)%nat high) as (k & E & Hk & H1 & H2); [lia|lia|done|]. exists k.
      split_and!; [done|lia|lia| |done]. intros i Hi. destruct (decide (i <= m)%nat); [|apply H1; lia].
      apply (M i m); [done|lia|done].
    + destruct (IH low m) as (k & E & Hk & H1 & H2); [lia|lia| |].
      * intros i j Hi Hj. apply M; [done|lia].
      * exists k. split_and!; [done|lia|lia|done|]. intros i Hi. destruct (decide (i < m)%nat); [apply H2; lia|].
        destruct (p i) eqn:Pi; [|done]. rewrite (M m i) in Pm; [done|lia|lia|done].
Qed.

Lemma lowerBoundLoop_bsearch fuel h payload n offset low high k :
  fh_Level h = 0 -> length payload = (32 + n * 24)%nat -> (high <= n)%nat ->
  let p i := wrap64 (Offset (decodeFreeExtent (leafRecord payload i)) + Length (decodeFreeExtent (leafRecord payload i))) <=? offset in
  bsearch fuel p low high = Some k -> lowerBoundLoop fuel (mkView h payload n) offset low high = Ok k.
Proof.
  intros Hl L Hh p. revert low high Hh. induction fuel as [|fuel IH]; intros low high Hh; cbn [bsearch lowerBoundLoop].
  { destruct (Nat.ltb_spec low high); [done|]. by intros [= ->]. }
  destruct (Nat.ltb_spec low high) as [Lt|]; [|by intros [= ->]]. cbn zeta.
  pose proof (div2_mid low high Lt) as Hm. set (m := Nat.div2 (low + high)) in *. clearbody m.
  rewrite ExtentAt_view by done. rewrite bind_Ok. unfold rank_lookup. rewrite (proj2 (Z.ltb_ge _ _)) by lia.
  rewrite Nat2Z.id, extentsOf_lookup by lia. cbn [default from_option id]. fold (p m).
  destruct (p m); apply IH; lia.
Qed.

Lemma childLoop_bsearch fuel h payload n offset low high k :
  length payload = (32 + n * 48)%nat -> (high <= n)%nat ->
  bsearch fuel (fun i => Uint64 (branchRecord payload i) 0 <=? offset) low high = Some k ->
  childLoop fuel (mkView h payload n) offset low high = Ok k.
Proof.
  intros L. revert low high. induction fuel as [|fuel IH]; intros low high Hh; cbn [bsearch childLoop].
  { destruct (Nat.ltb_spec low high); [done|]. by intros [= ->]. }
  destruct (Nat.ltb_spec low high) as [Lt|]; [|by intros [= ->]]. cbn zeta.
  pose proof (div2_mid low high Lt) as Hm. set (m := Nat.div2 (low + high)) in *. clearbody m. cbn [v_payload].
  rewrite record_ok by (unfold FreeDirectoryBranchRecordSize; lia). rewrite bind_Ok. unfold FreeDirectoryBranchRecordSize.
  fold (branchRecord payload m). destruct (_ <=? offset); apply IH; lia.
Qed.

Lemma openBranch_answers n i payload h fe next prev seen refs :
  4096 <= fh_PageSize h -> bytes_ok payload -> (32 + (i + n) * 48 <= length payload)%nat ->
  refset_of seen refs -> (length refs + n <= 128)%nat ->
  openBranch n i payload h fe next prev seen = Ok tt \/
  exists d, openBranch n i payload h fe next prev seen = Err (ErrFreeDirectoryCorrupt d).
Proof.
  intros Hp Hb. revert i prev seen refs. induction n as [|n IH]; intros i prev seen refs L T Ln; [by left|].
  cbn [openBranch]. rewrite record_ok by (unfold FreeDirectoryBranchRecordSize; lia). rewrite bind_Ok. cbn zeta.
  unfold FreeDirectoryBranchRecordSize. fold (branchRecord payload i). set (r := branchRecord payload i).
  case_match; [right; by eexists|]. destruct (validateFreeDirectoryChild _ _ _ _) eqn:V; [right; by eexists|].
  assert (Hr : ref_ok (decodePageRef (slice r 16 48))).
  { unfold r, branchRecord. rewrite slice_slice by lia. apply decodePageRef_ok; [done|lia|lia]. }
  apply validateFreeDirectoryChild_spec in V; [|done]. destruct (child_in_file_nonzero _ _ _ _ Hp V) as [Z1 Z2].
  destruct (refSet_add_spec seen refs _ T Z1 Z2 ltac:(lia)) as (ok & set' & E & _ & Hs). rewrite E, bind_Ok.
  destruct ok; cbn [negb]; [|right; by eexists]. apply (IH _ _ _ (refs ++ [decodePageRef (slice r 16 48)])); [lia|by apply Hs|].
  rewrite length_app. simpl. lia.
Qed.

(** The facts a successful open has established. *)
Lemma OpenFree_inv src fe next v :
  bytes_ok src -> OpenFreeDirectoryPage src fe next = Ok v ->
  bytes_ok (v_payload v) /\ free_header_ok (v_header v) /\ 4096 <= fh_PageSize (v_header v) /\ (0 < v_count v)%nat /\
  (fh_Level (v_header v) = 0 /\ length (v_payload v) = (32 + v_count v * 24)%nat /\
     checkLeaf (extentsOf (v_payload v) 0 (v_count v)) (fh_PageSize (v_header v)) fe true 0 = None \/
   fh_Level (v_header v) <> 0 /\ (v_count v <= 64)%nat /\ length (v_payload v) = (32 + v_count v * 48)%nat /\
     checkBranch (childrenOf (v_payload v) 0 (v_count v)) (v_header v) fe next None emptyRefSet = Ok tt).
Proof.
  intros Hb. unfold OpenFreeDirectoryPage. destruct (OpenPage src) as [[ph payload]|err|] eqn:EO; [|by destruct err|done].
  destruct (OpenPage_inv src ph payload Hb EO) as (Hh & _ & _ & _ & Ep & _).
  assert (Hp : bytes_ok payload) by (rewrite Ep; by apply Forall_slice).
  case_match eqn:G; [done|]. cbn zeta. set (h := mkFreeHeader _ _ _ _ _ _). set (count := Z.to_nat (Uint16 payload 6)).
  set (size := if fh_Level h =? 0 then FreeDirectoryLeafRecordSize else FreeDirectoryBranchRecordSize). destruct (validateFreeDirectoryHeader h count size next) eqn:V; [done|].
  destruct (Nat.eqb_spec (length payload) (FreeDirectoryPayloadHeaderSize + count * size)) as [L|]; [|done]. cbn [negb].
  assert (Ho : free_header_ok h).
  { destruct Hh as (? & ? & ? & ? & ? & _). unfold free_header_ok, h. cbn -[getByte]. split_and!; try done; by apply getByte_ok. }
  assert (Hf : 0 <= fh_Flags h) by apply Ho.
  destruct (validateFreeDirectoryHeader_inv _ _ _ _ Hf V) as (_ & _ & _ & Vp & _ & Hc & _ & Hc64 & _).
  assert (Hps : 4096 <= fh_PageSize h) by (unfold validPhysicalPageSize, physicalPageQuantum in Vp; bool_hyps; done).
  unfold size, FreeDirectoryPayloadHeaderSize in *. clear size. destruct (Z.eqb_spec (fh_Level h) 0) as [Hl|Hl].
  - destruct (openLeaf_spec count 0 payload (fh_PageSize h) fe 0) as [[-> C]|[-> _]]; [unfold FreeDirectoryLeafRecordSize in L; lia| |done].
    rewrite bind_Ok. intros [= <-]. split_and!; try done. left. by split_and!.
  - destruct (openBranch _ _ _ _ _ _ _ _) as [[]|?|] eqn:E; [|done..]. rewrite bind_Ok. intros [= <-].
    split_and!; try done. right. split_and!; [done|specialize (Hc64 eq_refl); cbn; lia|done|]. cbn [v_payload v_header v_count].
    apply (openBranch_inv count 0) in E; [done|]. unfold FreeDirectoryBranchRecordSize in L. lia.
Qed.

Lemma extentsOf_words payload n :
  bytes_ok payload -> (32 + n * 24 <= length payload)%nat -> Forall extent_words (extentsOf payload 0 n).
Proof.
  intros Hb L. apply Forall_fmap, Forall_seq. intros j Hj.
  assert (Hs : bytes_ok (leafRecord payload j)) by by apply Forall_slice.
  unfold extent_words, decodeFreeExtent, Uint64. cbn [Offset Length RetiredGeneration].
  split_and!; apply getLE_ok; try done; unfold leafRecord; rewrite slice_length; lia.
Qed.

Lemma childrenOf_ok payload n :
  bytes_ok payload -> (32 + n * 48 <= length payload)%nat -> Forall child_ok (childrenOf payload 0 n).
Proof.
  intros Hb L. apply Forall_fmap, Forall_seq. intros j Hj.
  assert (Hs : bytes_ok (branchRecord payload j)) by by apply Forall_slice.
  split.
  - apply getLE_ok; [done|]. unfold branchRecord. rewrite slice_length; lia.
  - apply decodePageRef_ok; [done|lia|]. unfold branchRecord. rewrite slice_length; lia.
Qed.

Lemma OpenFree_no_panic src fileEnd next :
  bytes_ok src -> OpenFreeDirectoryPage src fileEnd next <> Err Panic /\ OpenFreeDirectoryPage src fileEnd next <> OutOfFuel.
Proof.
  intros Hb. unfold OpenFreeDirectoryPage. destruct (OpenPage_no_panic src Hb) as [N1 N2].
  destruct (OpenPage src) as [[ph payload]|err|] eqn:EO; [|by destruct err|done].
  destruct (OpenPage_inv src ph payload Hb EO) as (Hh & _ & _ & _ & Ep & _).
  assert (Hp : bytes_ok payload) by (rewrite Ep; by apply Forall_slice).
  case_match eqn:G; [done|]. cbn zeta. set (h := mkFreeHeader _ _ _ _ _ _). set (count := Z.to_nat (Uint16 payload 6)).
  destruct (validateFreeDirectoryHeader h count _ next) eqn:V; [done|].
  assert (Hf : 0 <= fh_Flags h) by by apply getByte_ok.
  destruct (validateFreeDirectoryHeader_inv _ _ _ _ Hf V) as (_ & _ & _ & Vp & _ & _ & _ & Hc64 & _).
  assert (Hps : 4096 <= fh_PageSize h) by (unfold validPhysicalPageSize, physicalPageQuantum in Vp; bool_hyps; done).
  unfold FreeDirectoryPayloadHeaderSize. destruct (fh_Level h =? 0).
  - destruct (Nat.eqb_spec (length payload) (32 + count * FreeDirectoryLeafRecordSize)) as [L|]; [|done]. cbn [negb].
    destruct (openLeaf_spec count 0 payload (fh_PageSize h) fileEnd 0) as [[-> _]|[-> _]]; [|done|done].
    unfold FreeDirectoryLeafRecordSize in L. lia.
  - specialize (Hc64 eq_refl). unfold FreeDirectoryBranchRecordSize.
    destruct (Nat.eqb_spec (length payload) (32 + count * 48)) as [L|]; [|done]. cbn [negb].
    destruct (openBranch_answers count 0 payload h fileEnd next 0 emptyRefSet [] Hps Hp) as [->|[d ->]];
      [lia|apply empty_refset|simpl; lia|done|done].
Qed.

(** Opening any byte sequence answers: it never panics and the duplicate
    check never loops.  An accepted leaf holds page-aligned extents inside the
    file, ordered and disjoint; an accepted branch holds strictly ordered
    children with distinct pages and offsets inside the file. *)
Theorem OpenFreeDirectoryPage_total (src : list Z) (fileEnd next : Z) :
  bytes_ok src -> fileEnd < 2 ^ 64 ->
  OpenFreeDirectoryPage src fileEnd next <> Err Panic /\ OpenFreeDirectoryPage src fileEnd next <> OutOfFuel /\
  forall v, OpenFreeDirectoryPage src fileEnd next = Ok v ->
    if fh_Level (v_header v) =? 0 then
      let es := extentsOf (v_payload v) 0 (v_count v) in
      Forall (extent_in_file (fh_PageSize (v_header v)) fileEnd) es /\
      StronglySorted (fun a b => extent_end a <= Offset b) es
    else
      let cs := childrenOf (v_payload v) 0 (v_count v) in
      Forall (fun c => child_in_file (v_header v) fileEnd next (Ref c)) cs /\ lowers_increasing None cs /\
      NoDup (ref_LogicalID <$> (Ref <$> cs)) /\ NoDup (ref_Offset <$> (Ref <$> cs)).
Proof.
  intros Hb Hfe. pose proof (OpenFree_no_panic src fileEnd next Hb) as T.
  split; [apply T|]. split; [apply T|]. intros v E.
  destruct (OpenFree_inv src fileEnd next v Hb E) as (Hp & Ho & Hps & _ & [(Hl & L & C)|(Hl & H64 & L & C)]).
  - rewrite Hl. cbn [Z.eqb]. cbn zeta. apply checkLeaf_spec in C as (? & _ & ?); [done|done|lia|apply extentsOf_words; [done|lia]].
  - rewrite (proj2 (Z.eqb_neq _ _) Hl). cbn zeta.
    destruct (checkBranch_spec (childrenOf (v_payload v) 0 (v_count v)) (v_header v) fileEnd next None emptyRefSet [])
      as [[d Bad]|(_ & ? & ? & ? & ?)]; [done|apply empty_refset| |apply childrenOf_ok; [done|lia]|by apply NoDup_nil_2|by apply NoDup_nil_2| |done].
    + unfold childrenOf. rewrite length_fmap, length_seq. simpl. lia.
    + by rewrite C in Bad.
Qed.

Lemma OpenFreeDirectoryPage_total_witness : OpenFreeDirectoryPage [83; 74; 80] 65536 9 <> Err Panic.
Proof. apply (OpenFreeDirectoryPage_total [83; 74; 80] 65536 9); [by apply bytes_ok_bool|lia]. Defined.

(** On every leaf that opens, [LowerBound] terminates with the first rank
    whose extent ends past [offset]: all earlier extents end at or before it. *)
Theorem LowerBound_spec (src : list Z) (fileEnd next offset : Z) (v : FreeDirectoryView) :
  bytes_ok src -> fileEnd < 2 ^ 64 -> OpenFreeDirectoryPage src fileEnd next = Ok v -> fh_Level (v_header v) = 0 ->
  exists k, LowerBound v offset = Ok k /\ (k <= view_Len v)%nat /\
    forall rank e, ExtentAt v rank = Ok (Some e) -> extent_end e <= offset <-> rank < Z.of_nat k.
Proof.
  intros Hb Hfe E Hl. destruct (OpenFree_inv src fileEnd next v Hb E) as (Hp & Ho & Hps & _ & [(_ & L & C)|(? & _)]); [|done].
  destruct v as [h payload n]. cbn [v_header v_payload v_count] in *.
  pose proof (extentsOf_words payload n Hp ltac:(lia)) as W. set (es := extentsOf payload 0 n) in *.
  apply checkLeaf_spec in C as (F & _ & S); [|done|lia|done].
  assert (Le : length es = n) by (unfold es, extentsOf; by rewrite length_fmap, length_seq).
  set (p i := wrap64 (Offset (decodeFreeExtent (leafRecord payload i)) + Length (decodeFreeExtent (leafRecord payload i))) <=? offset).
  assert (Pp : forall i e, es !! i = Some e -> p i = (extent_end e <=? offset)).
  { intros i e Ei. assert (Li := lookup_lt_Some _ _ _ Ei). rewrite Le in Li. unfold es in Ei.
    rewrite extentsOf_lookup in Ei by done. injection Ei as Ei. unfold p. rewrite Ei. f_equal. apply Z.mod_small.
    assert (Me : es !! i = Some e) by (unfold es; rewrite extentsOf_lookup by done; by f_equal).
    pose proof (proj1 (Forall_lookup _ _) F _ _ Me) as Fe. pose proof (proj1 (Forall_lookup _ _) W _ _ Me) as (? & ? & _).
    unfold extent_in_file, extent_end, word_ok in *. lia. }
  destruct (bsearch_spec n p 0 n) as (k & Ek & Hk & H1 & H2); [lia|lia| |].
  { intros i j Hij Hj. destruct (lookup_lt_is_Some_2 es j) as [b Eb]; [lia|]. destruct (lookup_lt_is_Some_2 es i) as [a Ea]; [lia|].
    rewrite (Pp j b Eb), (Pp i a Ea). destruct (decide (i = j)) as [->|Nij]; [congruence|].
    assert (Lt : (i < j)%nat) by lia.
    pose proof (StronglySorted_lookup_lt _ es i j a b S Ea Eb Lt) as O. intros B%Z.leb_le. apply Z.leb_le.
    pose proof (proj1 (Forall_lookup _ _) F _ _ Eb) as (_ & _ & _ & ? & _). unfold extent_end in *. lia. }
  exists k. split; [|split; [cbn; lia|]].
  - unfold LowerBound. cbn [v_header v_count]. rewrite Hl. cbn [Z.eqb negb]. by apply (lowerBoundLoop_bsearch n).
  - intros rank e. rewrite ExtentAt_view by done. intros [= Er]. unfold rank_lookup in Er. fold es in Er.
    destruct (Z.ltb_spec rank 0); [done|]. assert (Lr := lookup_lt_Some _ _ _ Er). pose proof (Pp _ _ Er) as Pr.
    destruct (decide (Z.to_nat rank < k)%nat) as [Lt|Lt].
    + rewrite H1 in Pr by lia. symmetry in Pr. apply Z.leb_le in Pr. lia.
    + rewrite H2 in Pr by lia. symmetry in Pr. apply Z.leb_gt in Pr. lia.
Qed.

Definition example_leaf : list Z :=
  match EncodeFreeDirectoryLeaf (replicate (Z.to_nat 4096) 0) example_free_header example_extents 65536 9 with
  | Ok p => p | _ => [] end.
Definition example_branch : list Z :=
  match EncodeFreeDirectoryBranch (replicate (Z.to_nat 4096) 0) example_branch_header example_children 65536 9 with
  | Ok p => p | _ => [] end.
Definition openedView (r : io_res FreeDirectoryView) : FreeDirectoryView :=
  match r with Ok v => v | _ => mkView example_free_header [] 0 end.

Lemma LowerBound_spec_witness :
  exists k, LowerBound (openedView (OpenFreeDirectoryPage example_leaf 65536 9)) 16384 = Ok k.
Proof.
  destruct (LowerBound_spec example_leaf 65536 9 16384 (openedView (OpenFreeDirectoryPage example_leaf 65536 9))) as (k & E & _).
  - apply bytes_ok_bool. vm_compute. reflexivity.
  - lia.
  - vm_compute. reflexivity.
  - vm_compute. reflexivity.
  - exists k. exact E.
Defined.

Lemma lowers_increasing_lt prev cs i j a b :
  lowers_increasing prev cs -> cs !! i = Some a -> cs !! j = Some b -> (i < j)%nat -> Lower a < Lower b.
Proof.
  revert prev i j. induction cs as [|c cs IH]; intros prev i j Hi Ea Eb Lt; [done|].
  destruct Hi as [Hp H]. destruct j as [|j]; [lia|]. destruct i as [|i]; [|by apply (IH (Some (Lower c)) i j); [| | |lia]].
  injection Ea as ->. cbn in Eb. clear Lt Hp IH. revert a j H Eb. induction cs as [|d cs IH]; intros a j Hi Eb; [done|].
  destruct Hi as [Hd H]. destruct j as [|j]; [by injection Eb as ->|]. specialize (IH d j H Eb). cbn in Hd. lia.
Qed.

(** On every branch that opens, [Child] terminates and routes to the
    child with the greatest lower bound not above [offset], or to none when
    every lower bound is above it. *)
Theorem Child_spec (src : list Z) (fileEnd next offset : Z) (v : FreeDirectoryView) :
  bytes_ok src -> OpenFreeDirectoryPage src fileEnd next = Ok v -> fh_Level (v_header v) <> 0 ->
  exists r, Child v offset = Ok r /\
    match r with
    | None => forall rank c, ChildAt v rank = Ok (Some c) -> offset < Lower c
    | Some ref => exists rank c, ChildAt v rank = Ok (Some c) /\ Ref c = ref /\ Lower c <= offset /\
        forall rank' c', ChildAt v rank' = Ok (Some c') -> Lower c' <= offset -> rank' <= rank
    end.
Proof.
  intros Hb E Hl. destruct (OpenFree_inv src fileEnd next v Hb E) as (Hp & Ho & Hps & Hn & [(? & _)|(_ & H64 & L & C)]); [done|].
  destruct v as [h payload n]. cbn [v_header v_payload v_count] in *.
  pose proof (childrenOf_ok payload n Hp ltac:(lia)) as W. set (cs := childrenOf payload 0 n) in *.
  assert (Lc : length cs = n) by (unfold cs, childrenOf; by rewrite length_fmap, length_seq).
  destruct (checkBranch_spec cs h fileEnd next None emptyRefSet [] Hps empty_refset) as [[d Bad]|(_ & _ & I & _)];
    [cbn; lia|done|by apply NoDup_nil_2|by apply NoDup_nil_2|by rewrite C in Bad|].
  assert (Lk : forall i, (i < n)%nat -> cs !! i = Some (decodeChild (branchRecord payload i))).
  { intros i Hi. unfold cs, childrenOf. by rewrite list_lookup_fmap, lookup_seq_lt by done. }
  set (p i := Uint64 (branchRecord payload i) 0 <=? offset).
  destruct (bsearch_spec n p 0 n) as (k & Ek & Hk & H1 & H2); [lia|lia| |].
  { intros i j Hij Hj. unfold p. rewrite !Z.leb_le. destruct (decide (i = j)) as [->|]; [done|].
    pose proof (lowers_increasing_lt None cs i j _ _ I (Lk i ltac:(lia)) (Lk j ltac:(lia)) ltac:(lia)) as O. cbn [Lower decodeChild] in O. lia. }
  assert (A : forall rank c, ChildAt (mkView h payload n) rank = Ok (Some c) ->
     0 <= rank < Z.of_nat n /\ c = decodeChild (branchRecord payload (Z.to_nat rank)) /\ (Lower c <= offset <-> rank < Z.of_nat k)).
  { intros rank c. rewrite ChildAt_view by done. intros [= Er]. unfold rank_lookup in Er. destruct (Z.ltb_spec rank 0); [done|].
    fold cs in Er. assert (Lr := lookup_lt_Some _ _ _ Er). rewrite Lk in Er by lia. injection Er as <-.
    split_and!; [lia|lia|done|]. cbn [Lower decodeChild]. destruct (decide (Z.to_nat rank < k)%nat) as [Lt|Lt].
    - specialize (H1 (Z.to_nat rank) ltac:(lia)). unfold p in H1. lia.
    - specialize (H2 (Z.to_nat rank) ltac:(lia)). unfold p in H2. lia. }
  unfold Child. cbn [v_header v_count v_payload]. rewrite (proj2 (Z.eqb_neq _ _) Hl), (proj2 (Nat.eqb_neq n 0)) by lia. cbn [orb].
  rewrite (childLoop_bsearch n h payload n offset 0 n k) by done. rewrite bind_Ok.
  destruct (Nat.eqb_spec k 0) as [->|Nk].
  - exists None. split; [done|]. intros rank c Er. destruct (A rank c Er) as (? & _ & [HA _]). lia.
  - rewrite record_ok by (unfold FreeDirectoryBranchRecordSize; lia). rewrite bind_Ok. eexists. split; [done|].
    exists (Z.of_nat (k - 1)), (decodeChild (branchRecord payload (k - 1))).
    assert (X : ChildAt (mkView h payload n) (Z.of_nat (k - 1)) = Ok (Some (decodeChild (branchRecord payload (k - 1))))).
    { rewrite ChildAt_view by done. unfold rank_lookup. rewrite (proj2 (Z.ltb_ge _ _)), Nat2Z.id by lia. fold cs. by rewrite Lk by lia. }
    destruct (A _ _ X) as (_ & _ & [_ X1]). split_and!; [done|done|apply X1; lia|].
    intros rank' c' Er' Hc'. destruct (A rank' c' Er') as (_ & _ & [HA _]). specialize (HA Hc'). lia.
Qed.

Lemma Child_spec_witness :
  exists r, Child (openedView (OpenFreeDirectoryPage example_branch 65536 9)) 40961 = Ok r.
Proof.
  destruct (Child_spec example_branch 65536 9 40961 (openedView (OpenFreeDirectoryPage example_branch 65536 9))) as (r & E & _).
  - apply bytes_ok_bool. vm_compute. reflexivity.
  - vm_compute. reflexivity.
  - vm_compute. discriminate.
  - exists r. exact E.
Defined.
