(* ===== verification/Superblock.v ===== *)
(** * Superblock: the failure-atomic root and crash recovery

    Models internal/storeio/superblock.go: the 128-byte root record, its two
    alternating slots, their selection, and recovery, which checks the pages a
    root names and falls back to the older slot. *)
From Stdlib Require Import ZArith Lia List Bool.
From stdpp Require Import base numbers list strings sets.
From S2P Require Import Prelude Leases Bytes Page StateRoot FreeDirectory.

Open Scope Z_scope.

Definition SuperblockSize : nat := 128.
(** ["SJROOT01"] *)
Definition superblockMagic : list Z := [83; 74; 82; 79; 79; 84; 48; 49].
Definition superblockVersion : Z := 1.
Definition superblockKnownFlags : Z := 0.

Record Superblock := mkSuperblock {
  sb_StoreID : list Z;
  sb_Generation : Z;
  sb_StateOffset : Z;
  sb_StateLength : Z;
  sb_StateChecksum : Z;
  sb_FileEnd : Z;
  sb_FreeOffset : Z;
  sb_FreeLength : Z;
  sb_FreeChecksum : Z;
  sb_PageSize : Z;
  sb_Flags : Z;
}.

Definition SuperblockOffset (generation pageSize : Z) : io_res Z :=
  if (generation =? 0) || negb (validPhysicalPageSize pageSize) then Err (ErrInvalidWrite "superblock offset")
  else Ok (Z.land (generation - 1) (superblockCopies - 1) * pageSize).

Definition validRootExtent (offset length fileEnd pageSize : Z) (required : bool) : bool :=
  if length =? 0 then negb required && (offset =? 0)
  else (length <=? pageSize) && (superblockCopies * pageSize <=? offset) && (offset mod pageSize =? 0) &&
       (offset <=? maxSuperblockFileOffset) && (offset <=? fileEnd - pageSize).

Definition validateSuperblock (root : Superblock) : option io_error :=
  let pageSize := sb_PageSize root in
  let dataStart := superblockCopies * pageSize in
  if (sb_Generation root =? 0) || negb (Z.ldiff (sb_Flags root) superblockKnownFlags =? 0) ||
     negb (validPhysicalPageSize pageSize)
  then Some (ErrInvalidWrite "invalid generation, flags, or page size")
  else if bool_decide (sb_StoreID root = zeroStoreID) then Some (ErrInvalidWrite "zero Store id")
  else if (sb_FileEnd root <? dataStart) || (maxSuperblockFileOffset <? sb_FileEnd root) ||
          negb (sb_FileEnd root mod pageSize =? 0)
  then Some (ErrInvalidWrite "file high-water mark")
  else if negb (validRootExtent (sb_StateOffset root) (sb_StateLength root) (sb_FileEnd root) pageSize true)
  then Some (ErrInvalidWrite "state-root extent")
  else if negb (validRootExtent (sb_FreeOffset root) (sb_FreeLength root) (sb_FileEnd root) pageSize false)
  then Some (ErrInvalidWrite "free-root extent")
  else if (sb_FreeLength root =? 0) && negb (sb_FreeChecksum root =? 0)
  then Some (ErrInvalidWrite "checksum without free root")
  else if negb (sb_FreeLength root =? 0) && (sb_FreeOffset root =? sb_StateOffset root)
  then Some (ErrInvalidWrite "overlapping state and free roots")
  else None.

(** The fields before the checksum, written over the cleared record. *)
Definition writeSuperblock (dst : list Z) (root : Superblock) : list Z :=
  let dst := setBytes dst 0 superblockMagic in
  let dst := PutUint32 dst 8 superblockVersion in
  let dst := PutUint32 dst 12 (Z.of_nat SuperblockSize) in
  let dst := PutUint32 dst 16 (sb_Flags root) in
  let dst := PutUint32 dst 20 (sb_PageSize root) in
  let dst := PutUint64 dst 24 (sb_Generation root) in
  let dst := PutUint64 dst 32 (not64 (sb_Generation root)) in
  let dst := PutUint64 dst 40 (sb_StateOffset root) in
  let dst := PutUint32 dst 48 (sb_StateLength root) in
  let dst := PutUint32 dst 52 (sb_StateChecksum root) in
  let dst := PutUint32 dst 56 (not32 (sb_StateChecksum root)) in
  let dst := PutUint64 dst 64 (sb_FileEnd root) in
  let dst := PutUint64 dst 72 (sb_FreeOffset root) in
  let dst := PutUint32 dst 80 (sb_FreeLength root) in
  let dst := PutUint32 dst 84 (sb_FreeChecksum root) in
  let dst := PutUint32 dst 88 (not32 (sb_FreeChecksum root)) in
  setBytes dst 96 (sb_StoreID root).

(** The checksum of the first 120 bytes and its complement. *)
Definition sealedRecord (dst : list Z) : list Z :=
  let checksum := PageChecksum (slice dst 0 120) in
  let dst := PutUint32 dst 120 checksum in
  PutUint32 dst 124 (not32 checksum).

Definition EncodeSuperblock (dst : list Z) (root : Superblock) : io_res (list Z) :=
  if (length dst <? SuperblockSize)%nat then Err (ErrInvalidWrite "superblock buffer")
  else match validateSuperblock root with
  | Some err => Err err
  | None =>
      Ok (sealedRecord (writeSuperblock (replicate SuperblockSize 0) root))
  end.

Definition superblockFields (src : list Z) : Superblock :=
  mkSuperblock (slice src 96 112) (Uint64 src 24) (Uint64 src 40) (Uint32 src 48) (Uint32 src 52)
    (Uint64 src 64) (Uint64 src 72) (Uint32 src 80) (Uint32 src 84) (Uint32 src 20) (Uint32 src 16).

Definition DecodeSuperblock (src : list Z) : io_res Superblock :=
  if (length src <? SuperblockSize)%nat then Err (ErrSuperblockCorrupt "short record")
  else
    let src := slice src 0 SuperblockSize in
    if negb (bool_decide (slice src 0 8 = superblockMagic)) then Err (ErrSuperblockCorrupt "magic")
    else if negb (Uint32 src 8 =? superblockVersion) || negb (Uint32 src 12 =? Z.of_nat SuperblockSize)
    then Err (ErrSuperblockCorrupt "version or size")
    else
      let checksum := Uint32 src 120 in
      if negb (Uint32 src 124 =? not32 checksum) || negb (PageChecksum (slice src 0 120) =? checksum)
      then Err (ErrSuperblockCorrupt "checksum")
      else if negb (allZero (slice src 60 64)) || negb (allZero (slice src 92 96)) || negb (allZero (slice src 112 120))
      then Err (ErrSuperblockCorrupt "reserved bytes")
      else
        let root := superblockFields src in
        if negb (Uint64 src 32 =? not64 (sb_Generation root)) || negb (Uint32 src 56 =? not32 (sb_StateChecksum root)) ||
           negb (Uint32 src 88 =? not32 (sb_FreeChecksum root))
        then Err (ErrSuperblockCorrupt "complement")
        else match validateSuperblock root with
        | Some _ => Err (ErrSuperblockCorrupt "validate")
        | None => Ok root
        end.

(** ** Selection *)

Record superblockCandidate := mkCandidate { c_root : Superblock; c_slot : nat }.

(** A decoded root in the slot its generation selects. *)
Definition slotRoot (bytes : list Z) (slot : Z) : option Superblock :=
  match DecodeSuperblock bytes with
  | Ok root => if Z.land (sb_Generation root - 1) (superblockCopies - 1) =? slot then Some root else None
  | _ => None
  end.

Definition orderedSuperblocks (first second : list Z) : io_res (list superblockCandidate) :=
  match slotRoot first 0, slotRoot second 1 with
  | None, None => Err ErrSuperblockNotFound
  | Some a, None => Ok [mkCandidate a 0]
  | None, Some b => Ok [mkCandidate b 1]
  | Some a, Some b =>
      if negb (bool_decide (sb_StoreID a = sb_StoreID b)) || negb (sb_PageSize a =? sb_PageSize b)
      then Err ErrSuperblockConflict
      else if sb_Generation a <? sb_Generation b then Ok [mkCandidate b 1; mkCandidate a 0]
      else Ok [mkCandidate a 0; mkCandidate b 1]
  end.

Definition SelectSuperblock (first second : list Z) : io_res (Superblock * nat) :=
  candidates ← orderedSuperblocks first second;
  match candidates with
  | [] => Err Panic
  | c :: _ => Ok (c_root c, c_slot c)
  end.

(** ** Recovery

    The operating system's file: its bytes, and which reads or the stat fail
    with an error other than EOF. *)
Record os_file := mkFile {
  f_data : list Z;
  f_read_error : nat -> nat -> bool;
  f_stat_error : bool;
}.

(** [file.ReadAt]: the bytes read, fewer than asked only at the end of the file. *)
Definition ReadAt (file : os_file) (off len : nat) : io_res (list Z) :=
  if f_read_error file off len then Err ErrIO else Ok (slice (f_data file) off (off + len)).

(** [scratch[:length]] must fit, then reads it; [Some] when all bytes arrived. *)
Definition readFull (file : os_file) (offset length : Z) (scratch : nat) : io_res (option (list Z)) :=
  if Z.of_nat scratch <? length then Err Panic
  else
    buf ← ReadAt file (Z.to_nat offset) (Z.to_nat length);
    Ok (if (List.length buf =? Z.to_nat length)%nat then Some buf else None).

(** The page when its bytes arrived and match the checksum. *)
Definition readCheckedPage (file : os_file) (offset length checksum : Z) (scratch : nat) : io_res (option (list Z)) :=
  buf ← readFull file offset length scratch;
  Ok (match buf with
      | Some b => if PageChecksum b =? checksum then Some b else None
      | None => None
      end).

Definition stateRootReferencesOffset (root : StateRoot) (offset : Z) : bool :=
  existsb (fun r => ref_Offset r =? offset) (allRefs root).

Fixpoint readStateRootRefs (file : os_file) (root : StateRoot) (scratch : nat) (refs : list PageRef) : io_res bool :=
  match refs with
  | [] => Ok true
  | ref :: refs =>
      if isZeroRef ref then readStateRootRefs file root scratch refs
      else
        buf ← readFull file (ref_Offset ref) (ref_Length ref) scratch;
        match buf with
        | None => Ok false
        | Some b =>
            match OpenPage b with
            | Ok (header, _) =>
                if negb (bool_decide (ph_StoreID header = sr_StoreID root)) || negb (ph_PageSize header =? sr_PageSize root) ||
                   negb (ph_Kind header =? ref_Kind ref) || negb (ph_LogicalID header =? ref_LogicalID ref) ||
                   negb (ph_Generation header =? ref_Generation ref)
                then Ok false
                else readStateRootRefs file root scratch refs
            | Err Panic => Err Panic
            | _ => Ok false
            end
        end
  end.

(** The state root of a candidate: [None] is the loop's [continue]. *)
Definition decodeCandidateState (file : os_file) (root : Superblock) (page : list Z) (scratch : nat) : io_res (option StateRoot) :=
  match DecodeStateRootPage page (sb_FileEnd root) with
  | Err Panic => Err Panic
  | OutOfFuel => OutOfFuel
  | Err _ => Ok None
  | Ok state =>
      if negb (bool_decide (sr_StoreID state = sb_StoreID root)) || negb (sr_Generation state =? sb_Generation root) ||
         negb (sr_PageSize state =? sb_PageSize root) || stateRootReferencesOffset state (sb_StateOffset root) ||
         (negb (sb_FreeLength root =? 0) && stateRootReferencesOffset state (sb_FreeOffset root))
      then Ok None
      else
        ok ← readStateRootRefs file state scratch (directoryRefs state);
        Ok (if ok : bool then Some state else None)
  end.

(** The free-tree check of a candidate. *)
Definition checkFreeRoot (file : os_file) (root : Superblock) (state : option StateRoot) (scratch : nat) : io_res bool :=
  if sb_FreeLength root =? 0 then Ok true
  else
    page ← readCheckedPage file (sb_FreeOffset root) (sb_FreeLength root) (sb_FreeChecksum root) scratch;
    match page, state with
    | None, _ => Ok false
    | Some _, None => Ok true
    | Some b, Some state =>
        match OpenFreeDirectoryPage b (sb_FileEnd root) (sr_NextLogicalID state) with
        | Err Panic => Err Panic
        | OutOfFuel => OutOfFuel
        | Err _ => Ok false
        | Ok v =>
            let h := v_header v in
            Ok (negb (negb (bool_decide (fh_StoreID h = sb_StoreID root)) || negb (fh_PageSize h =? sb_PageSize root) ||
                      (sb_Generation root <? fh_Generation h) || (fh_LogicalID h =? StateRootLogicalID)))
        end
    end.

(** One iteration of the candidate loop: [None] continues, [Some] returns. *)
Definition tryCandidate (file : os_file) (pageSize : Z) (scratch : nat) (decodeState : bool) (root : Superblock)
    : io_res (option (option StateRoot)) :=
  if negb (sb_PageSize root =? pageSize) || (Z.of_nat (length (f_data file)) <? sb_FileEnd root) then Ok None
  else
    page ← readCheckedPage file (sb_StateOffset root) (sb_StateLength root) (sb_StateChecksum root) scratch;
    match page with
    | None => Ok None
    | Some page =>
        if decodeState then
          state ← decodeCandidateState file root page scratch;
          match state with
          | None => Ok None
          | Some state =>
              ok ← checkFreeRoot file root (Some state) scratch;
              Ok (if ok : bool then Some (Some state) else None)
          end
        else
          ok ← checkFreeRoot file root None scratch;
          Ok (if ok : bool then Some None else None)
    end.

Fixpoint candidateLoop (file : os_file) (pageSize : Z) (scratch : nat) (decodeState : bool)
    (candidates : list superblockCandidate) : io_res (Superblock * option StateRoot * nat) :=
  match candidates with
  | [] => Err ErrSuperblockNotFound
  | c :: rest =>
      r ← tryCandidate file pageSize scratch decodeState (c_root c);
      match r with
      | Some state => Ok (c_root c, state, c_slot c)
      | None => candidateLoop file pageSize scratch decodeState rest
      end
  end.

(** The header of one slot, zero-filled past the end of the file. *)
Definition readSlot (file : os_file) (slot : nat) (pageSize : Z) : io_res (list Z) :=
  buf ← ReadAt file (slot * Z.to_nat pageSize) SuperblockSize;
  Ok (buf ++ replicate (SuperblockSize - length buf) 0).

Definition recoverRoots (file : os_file) (pageSize : Z) (scratch : nat) (decodeState : bool)
    : io_res (Superblock * option StateRoot * nat) :=
  if negb (validPhysicalPageSize pageSize) then Err (ErrInvalidWrite "invalid recovery file or page size")
  else if Z.of_nat scratch <? pageSize then Err ErrRecoveryBufferTooSmall
  else
    first ← readSlot file 0 pageSize;
    second ← readSlot file 1 pageSize;
    candidates ← orderedSuperblocks first second;
    if f_stat_error file then Err ErrIO
    else candidateLoop file pageSize scratch decodeState candidates.

Definition RecoverSuperblock (file : os_file) (pageSize : Z) (scratch : nat) : io_res (Superblock * nat) :=
  '(root, _, slot) ← recoverRoots file pageSize scratch false; Ok (root, slot).

Definition RecoverStateRoot (file : os_file) (pageSize : Z) (scratch : nat) : io_res (Superblock * option StateRoot * nat) :=
  recoverRoots file pageSize scratch true.

(** ** The record *)

Definition superblock_ok (r : Superblock) : Prop :=
  length (sb_StoreID r) = 16%nat /\ bytes_ok (sb_StoreID r) /\ word_ok 8 (sb_Generation r) /\
  word_ok 8 (sb_StateOffset r) /\ word_ok 4 (sb_StateLength r) /\ word_ok 4 (sb_StateChecksum r) /\
  word_ok 8 (sb_FileEnd r) /\ word_ok 8 (sb_FreeOffset r) /\ word_ok 4 (sb_FreeLength r) /\
  word_ok 4 (sb_FreeChecksum r) /\ word_ok 4 (sb_PageSize r) /\ word_ok 4 (sb_Flags r).

Lemma not64_ok x : word_ok 8 x -> word_ok 8 (not64 x).
Proof. unfold word_ok, not64. simpl. lia. Qed.

Lemma not32_word x : word_ok 4 x -> word_ok 4 (not32 x).
Proof. unfold word_ok, not32. simpl. lia. Qed.

Lemma writeSuperblock_length p r : length (writeSuperblock p r) = length p.
Proof. unfold writeSuperblock, PutUint32, PutUint64, putLE. cbn zeta. by rewrite !setBytes_length. Qed.

Lemma writeSuperblock_ok p r : superblock_ok r -> bytes_ok p -> bytes_ok (writeSuperblock p r).
Proof.
  intros (_ & Hi & _) Hp. unfold writeSuperblock, PutUint32, PutUint64, putLE. cbn zeta.
  repeat (apply setBytes_ok; [|first [apply le_bytes_ok|exact Hi|idtac]]); [done|]. by apply bytes_ok_bool.
Qed.

(** Every field reads back, and the reserved bytes keep the zero of the base. *)
Lemma writeSuperblock_fields r :
  superblock_ok r ->
  let q := writeSuperblock (replicate SuperblockSize 0) r in
  slice q 0 8 = superblockMagic /\ Uint32 q 8 = 1 /\ Uint32 q 12 = 128 /\ superblockFields q = r /\
  Uint64 q 32 = not64 (sb_Generation r) /\ Uint32 q 56 = not32 (sb_StateChecksum r) /\
  Uint32 q 88 = not32 (sb_FreeChecksum r) /\
  slice q 60 64 = replicate 4 0 /\ slice q 92 96 = replicate 4 0 /\ slice q 112 120 = replicate 8 0.
Proof.
  intros (Hl & Hi & H1 & H2 & H3 & H4 & H5 & H6 & H7 & H8 & H9 & H10) q.
  pose proof (not64_ok _ H1). pose proof (not32_word _ H4). pose proof (not32_word _ H8).
  assert (word_ok 4 superblockVersion) by by unfold word_ok. assert (word_ok 4 (Z.of_nat SuperblockSize)) by by unfold word_ok.
  assert (Lb : length (replicate SuperblockSize 0) = 128%nat) by apply length_replicate.
  assert (Zb : forall a b, (b <= 128)%nat -> slice (replicate SuperblockSize 0) a b = replicate (b - a) 0)
    by (intros; by apply slice_replicate).
  set (base := replicate SuperblockSize 0) in *. clearbody base.
  unfold q, writeSuperblock, superblockFields, PutUint32, PutUint64, putLE, Uint32, Uint64. cbn zeta.
  split_and!; [buf; done|buf; done|buf; done| |buf; done|buf; done|buf; done| | |].
  - buf. by destruct r.
  - buf. apply Zb. lia.
  - buf. apply Zb. lia.
  - buf. apply Zb. lia.
Qed.

Lemma sealedRecord_prefix q a b : (b <= 120)%nat -> slice (sealedRecord q) a b = slice q a b.
Proof. intros H. unfold sealedRecord, PutUint32, putLE. cbn zeta. by rewrite !slice_set_out by (rewrite ?le_bytes_length; lia). Qed.

Lemma decode_sealedRecord q r rest :
  superblock_ok r -> validateSuperblock r = None -> length q = 128%nat -> bytes_ok q ->
  slice q 0 8 = superblockMagic /\ Uint32 q 8 = 1 /\ Uint32 q 12 = 128 /\ superblockFields q = r /\
  Uint64 q 32 = not64 (sb_Generation r) /\ Uint32 q 56 = not32 (sb_StateChecksum r) /\
  Uint32 q 88 = not32 (sb_FreeChecksum r) /\
  slice q 60 64 = replicate 4 0 /\ slice q 92 96 = replicate 4 0 /\ slice q 112 120 = replicate 8 0 ->
  DecodeSuperblock (sealedRecord q ++ rest) = Ok r.
Proof.
  intros Ho V L Hb (F1 & F2 & F3 & F4 & F5 & F6 & F7 & F8 & F9 & F10).
  assert (Ls : length (sealedRecord q) = 128%nat) by (unfold sealedRecord, PutUint32, putLE; cbn zeta; by rewrite !setBytes_length).
  set (c := PageChecksum (slice q 0 120)). assert (Hc : crc_ok c) by (by apply PageChecksum_ok, Forall_slice).
  assert (T1 : Uint32 (sealedRecord q) 120 = c).
  { unfold sealedRecord, Uint32, PutUint32, putLE. cbn zeta. fold c. rewrite get_set_out by (rewrite ?le_bytes_length; lia).
    apply get_put_hit; [exact Hc|lia]. }
  assert (T2 : Uint32 (sealedRecord q) 124 = not32 c).
  { unfold sealedRecord, Uint32, PutUint32, putLE. cbn zeta. fold c. apply get_put_hit; [by apply not32_ok|rewrite setBytes_length; lia]. }
  assert (P : forall a b, (b <= 120)%nat -> slice (sealedRecord q) a b = slice q a b) by apply sealedRecord_prefix.
  assert (Eq : superblockFields (sealedRecord q) = superblockFields q).
  { unfold superblockFields, Uint32, Uint64, getLE. by rewrite !P by lia. }
  assert (G : forall n a, (a + n <= 120)%nat -> getLE n (sealedRecord q) a = getLE n q a) by (intros; unfold getLE; by rewrite P by lia).
  set (s := sealedRecord q) in *. clearbody s.
  unfold DecodeSuperblock. rewrite (proj2 (Nat.ltb_ge _ _)) by (unfold SuperblockSize; rewrite length_app; lia). cbn zeta.
  rewrite slice_app_l by (unfold SuperblockSize; lia). unfold SuperblockSize. rewrite <- Ls, slice_full, Ls.
  unfold Uint32, Uint64 in *. rewrite T1, T2, Eq, F4, !P, !G, F1, F2, F3, F5, F6, F7, F8, F9, F10 by lia.
  fold c. rewrite V. cbn. by rewrite !Z.eqb_refl.
Qed.

(** A superblock round-trips: it encodes exactly when the buffer is long
    enough and the root valid, and the 128 bytes decode back to it, whatever
    follows them. *)
Theorem superblock_roundtrip (dst : list Z) (r : Superblock) :
  superblock_ok r ->
  (is_ok (EncodeSuperblock dst r) = true <-> (128 <= length dst)%nat /\ validateSuperblock r = None) /\
  forall bytes rest, EncodeSuperblock dst r = Ok bytes ->
    length bytes = 128%nat /\ DecodeSuperblock (bytes ++ rest) = Ok r.
Proof.
  intros Ho. unfold EncodeSuperblock. destruct (Nat.ltb_spec (length dst) SuperblockSize).
  { split; [|done]. split; [done|]. intros [? _]. unfold SuperblockSize in *. lia. }
  destruct (validateSuperblock r) eqn:V; [split; [split; [done|by intros [_ ?]]|done]|].
  pose proof (writeSuperblock_fields r Ho) as F. pose proof (writeSuperblock_ok _ r Ho (zeros_ok SuperblockSize)) as Hb.
  pose proof (writeSuperblock_length (replicate SuperblockSize 0) r) as L. rewrite length_replicate in L. cbn zeta in F.
  set (q := writeSuperblock (replicate SuperblockSize 0) r) in *. clearbody q.
  split; [by split|]. intros bytes rest [= <-]. split.
  - unfold sealedRecord, PutUint32, putLE. cbn zeta. by rewrite !setBytes_length.
  - by apply (decode_sealedRecord q).
Qed.

Definition example_superblock : Superblock :=
  mkSuperblock (replicate 16 7) 5 8192 4096 77 65536 0 0 0 4096 0.

Lemma example_superblock_ok : superblock_ok example_superblock.
Proof. unfold superblock_ok, word_ok. cbn -[Z.pow]. split_and!; try lia. by apply bytes_ok_bool. Qed.

Lemma superblock_roundtrip_witness :
  is_ok (EncodeSuperblock (replicate 128 0) example_superblock) = true.
Proof.
  refine (proj2 (proj1 (superblock_roundtrip (replicate 128 0) example_superblock example_superblock_ok)) (conj _ _)).
  - rewrite length_replicate. lia.
  - vm_compute. reflexivity.
Defined.

Lemma DecodeSuperblock_inv src r :
  bytes_ok src -> DecodeSuperblock src = Ok r ->
  (128 <= length src)%nat /\ superblock_ok r /\ validateSuperblock r = None /\
  Uint32 src 124 = not32 (Uint32 src 120) /\ PageChecksum (slice src 0 120) = Uint32 src 120.
Proof.
  intros Hb. unfold DecodeSuperblock, SuperblockSize. destruct (Nat.ltb_spec (length src) 128); [done|]. cbn zeta.
  assert (G : forall n a, (a + n <= 128)%nat -> getLE n (slice src 0 128) a = getLE n src a)
    by (intros; by rewrite getLE_slice).
  unfold Uint32, Uint64. rewrite !G, !slice_slice by lia. cbn [Nat.add].
  do 2 (case_match; [done|]). case_match eqn:E; [done|]. do 2 (case_match; [done|]).
  destruct (validateSuperblock _) eqn:V; [done|]. intros [= <-]. bool_hyps. split_and!; [lia| |done|done|done].
  unfold superblock_ok, superblockFields, Uint32, Uint64.
  cbn [sb_StoreID sb_Generation sb_StateOffset sb_StateLength sb_StateChecksum sb_FileEnd sb_FreeOffset sb_FreeLength sb_FreeChecksum sb_PageSize sb_Flags].
  rewrite !G, !slice_slice by lia. split_and!; try (apply getLE_ok; [done|lia]).
  - rewrite slice_length; lia.
  - by apply Forall_slice.
Qed.

(** No changed byte of a superblock record goes unnoticed: replacing any
    one of its 128 bytes makes decoding fail. *)
Theorem DecodeSuperblock_detects (src : list Z) (r : Superblock) (i : nat) (b : Z) :
  bytes_ok src -> DecodeSuperblock src = Ok r -> (i < 128)%nat -> is_byte b -> src !! i <> Some b ->
  exists err, DecodeSuperblock (<[i := b]> src) = Err err.
Proof.
  intros Hs E Hi Hb Hn. destruct (DecodeSuperblock_inv src r Hs E) as (L & _ & _ & C1 & C2).
  assert (Hs' : bytes_ok (<[i:=b]> src)) by by apply Forall_insert.
  destruct (DecodeSuperblock (<[i:=b]> src)) as [r'|err|] eqn:E'; [|by exists err|].
  - exfalso. destruct (DecodeSuperblock_inv _ r' Hs' E') as (_ & _ & _ & C1' & C2').
    destruct (seal_detects src 120 i b Hs Hb ltac:(lia) ltac:(lia) Hn C1 C2) as [X|X]; [exact (X C1')|exact (X C2')].
  - exfalso. revert E'. unfold DecodeSuperblock. cbn zeta. repeat case_match; done.
Qed.

Definition example_record : list Z :=
  match EncodeSuperblock (replicate 128 0) example_superblock with Ok b => b | _ => [] end.

Lemma DecodeSuperblock_detects_witness : exists err, DecodeSuperblock (<[24%nat := 6]> example_record) = Err err.
Proof.
  apply (DecodeSuperblock_detects example_record example_superblock 24 6).
  - apply bytes_ok_bool. vm_compute. reflexivity.
  - vm_compute. reflexivity.
  - lia.
  - unfold is_byte. lia.
  - vm_compute. discriminate.
Defined.

(** ** Recovery *)

(** All [length] bytes are in the file and match the checksum. *)
Definition page_intact (file : os_file) (offset length checksum : Z) : bool :=
  let b := slice (f_data file) (Z.to_nat offset) (Z.to_nat offset + Z.to_nat length) in
  (List.length b =? Z.to_nat length)%nat && (PageChecksum b =? checksum).

(** The pages a superblock names are intact. *)
Definition root_intact (file : os_file) (pageSize : Z) (r : Superblock) : bool :=
  (sb_PageSize r =? pageSize) && (sb_FileEnd r <=? Z.of_nat (length (f_data file))) &&
  page_intact file (sb_StateOffset r) (sb_StateLength r) (sb_StateChecksum r) &&
  ((sb_FreeLength r =? 0) || page_intact file (sb_FreeOffset r) (sb_FreeLength r) (sb_FreeChecksum r)).

Definition no_io_errors (file : os_file) : Prop :=
  (forall off len, f_read_error file off len = false) /\ f_stat_error file = false.

Definition slotBytes (file : os_file) (slot : nat) (pageSize : Z) : list Z :=
  let b := slice (f_data file) (slot * Z.to_nat pageSize) (slot * Z.to_nat pageSize + 128) in
  b ++ replicate (128 - length b) 0.

Lemma readSlot_ok file slot ps : no_io_errors file -> readSlot file slot ps = Ok (slotBytes file slot ps).
Proof. intros [H _]. unfold readSlot, ReadAt. rewrite H. reflexivity. Qed.

Lemma readCheckedPage_ok file off len sum scratch :
  no_io_errors file -> len <= Z.of_nat scratch ->
  readCheckedPage file off len sum scratch =
  Ok (if page_intact file off len sum
      then Some (slice (f_data file) (Z.to_nat off) (Z.to_nat off + Z.to_nat len)) else None).
Proof.
  intros [H _] L. unfold readCheckedPage, readFull, ReadAt, page_intact. rewrite (proj2 (Z.ltb_ge _ _)) by done.
  rewrite H. rewrite !bind_Ok. cbn zeta. destruct (_ =? Z.to_nat len)%nat; cbn [andb]; [|done]. by destruct (_ =? sum).
Qed.

Lemma validateSuperblock_lengths r :
  validateSuperblock r = None ->
  sb_Generation r <> 0 /\ 4096 <= sb_PageSize r /\ 2 * sb_PageSize r <= sb_FileEnd r /\
  sb_StateLength r <= sb_PageSize r /\ 2 * sb_PageSize r <= sb_StateOffset r /\
  (sb_FreeLength r <> 0 -> sb_FreeLength r <= sb_PageSize r /\ 2 * sb_PageSize r <= sb_FreeOffset r).
Proof.
  unfold validateSuperblock. cbn zeta. case_match eqn:E1; [done|]. case_match; [done|]. case_match eqn:E2; [done|].
  case_match eqn:E3; [done|]. case_match eqn:E4; [done|]. intros _.
  assert (Hv : 4096 <= sb_PageSize r).
  { bool_hyps. unfold validPhysicalPageSize, physicalPageQuantum in *. bool_hyps. done. }
  assert (Hg : sb_Generation r <> 0) by (bool_hyps; done). clear E1.
  apply negb_false_iff in E3, E4. unfold validRootExtent, superblockCopies in *.
  assert (He : 2 * sb_PageSize r <= sb_FileEnd r) by (clear E3 E4; bool_hyps; lia). clear E2.
  destruct (Z.eqb_spec (sb_StateLength r) 0); [done|]. split_and!; try done.
  - clear E4. bool_hyps. lia.
  - clear E4. bool_hyps. lia.
  - intros Nf. rewrite (proj2 (Z.eqb_neq _ _) Nf) in E4. clear E3. bool_hyps. lia.
Qed.

(** One candidate without state decoding. *)
Lemma tryCandidate_plain file ps scratch r :
  no_io_errors file -> ps <= Z.of_nat scratch -> validateSuperblock r = None ->
  tryCandidate file ps scratch false r = Ok (if root_intact file ps r then Some None else None).
Proof.
  intros Hio Hs V. destruct (validateSuperblock_lengths r V) as (_ & _ & _ & L1 & _ & L2).
  unfold tryCandidate, root_intact. destruct (Z.eqb_spec (sb_PageSize r) ps) as [<-|]; [|done]. cbn [negb orb andb].
  rewrite (Z.leb_antisym (Z.of_nat _)). destruct (Z.of_nat (length (f_data file)) <? sb_FileEnd r); cbn [negb andb]; [done|].
  rewrite readCheckedPage_ok by (done || lia). rewrite bind_Ok.
  destruct (page_intact file (sb_StateOffset r) _ _); [|done]. cbn [andb]. unfold checkFreeRoot.
  destruct (Z.eqb_spec (sb_FreeLength r) 0) as [|Nf]; [done|]. cbn [orb]. destruct (L2 Nf).
  rewrite readCheckedPage_ok by (done || lia). rewrite bind_Ok. by destruct (page_intact file (sb_FreeOffset r) _ _).
Qed.

Lemma slotRoot_valid b slot r :
  slotRoot b slot = Some r -> validateSuperblock r = None /\ Z.land (sb_Generation r - 1) 1 = slot.
Proof.
  unfold slotRoot. destruct (DecodeSuperblock b) as [x| |] eqn:E; [|done..].
  destruct (Z.eqb_spec (Z.land (sb_Generation x - 1) (superblockCopies - 1)) slot); [|done]. intros [= <-]. split; [|done].
  revert E. unfold DecodeSuperblock. cbn zeta. repeat case_match; try done. by intros [= <-].
Qed.

(** The candidate of slot [s], if it is decodable there. *)
Definition candidate (file : os_file) (ps : Z) (s : nat) : option Superblock := slotRoot (slotBytes file s ps) (Z.of_nat s).

Definition compatible (a b : Superblock) : Prop := sb_StoreID a = sb_StoreID b /\ sb_PageSize a = sb_PageSize b.

(** Recovery in terms of the two candidates. *)
Lemma RecoverSuperblock_eq file ps scratch :
  no_io_errors file -> validPhysicalPageSize ps = true -> ps <= Z.of_nat scratch ->
  RecoverSuperblock file ps scratch =
  match orderedSuperblocks (slotBytes file 0 ps) (slotBytes file 1 ps) with
  | Ok cs => match List.find (fun c => root_intact file ps (c_root c)) cs with
             | Some c => Ok (c_root c, c_slot c) | None => Err ErrSuperblockNotFound end
  | Err e => Err e
  | OutOfFuel => OutOfFuel
  end.
Proof.
  intros Hio Hv Hs. unfold RecoverSuperblock, recoverRoots. rewrite Hv. cbn [negb].
  rewrite (proj2 (Z.ltb_ge _ _)) by done. rewrite !readSlot_ok by done. rewrite !bind_Ok.
  destruct (orderedSuperblocks _ _) as [cs|e|] eqn:O; [|done..]. rewrite bind_Ok.
  destruct Hio as [Hr Hst]. rewrite Hst.
  assert (F : Forall (fun c => validateSuperblock (c_root c) = None) cs).
  { unfold orderedSuperblocks in O.
    destruct (slotRoot (slotBytes file 0 ps) 0) eqn:E0; [apply slotRoot_valid in E0 as [? _]|];
    destruct (slotRoot (slotBytes file 1 ps) 1) eqn:E1; [apply slotRoot_valid in E1 as [? _]| |apply slotRoot_valid in E1 as [? _]|];
    repeat case_match; try done; injection O as <-; repeat (apply Forall_cons; split; [done|]); by apply Forall_nil. }
  clear O. induction F as [|c cs Hc _ IH]; [done|]. cbn [candidateLoop List.find].
  rewrite tryCandidate_plain by (done || by split). rewrite bind_Ok.
  destruct (root_intact file ps (c_root c)); [done|]. exact IH.
Qed.

(** The candidate list is what the two slots decode to, newest first. *)
Lemma orderedSuperblocks_spec file ps :
  match orderedSuperblocks (slotBytes file 0 ps) (slotBytes file 1 ps) with
  | Ok cs =>
      (forall c, c ∈ cs -> (c_slot c <= 1)%nat /\ candidate file ps (c_slot c) = Some (c_root c)) /\
      (forall s r, (s <= 1)%nat -> candidate file ps s = Some r -> mkCandidate r s ∈ cs) /\
      (forall c c' rest, cs = c :: c' :: rest -> sb_Generation (c_root c') <= sb_Generation (c_root c) /\ rest = [])
  | Err e =>
      (e = ErrSuperblockNotFound /\ candidate file ps 0 = None /\ candidate file ps 1 = None) \/
      (e = ErrSuperblockConflict /\ exists a b, candidate file ps 0 = Some a /\ candidate file ps 1 = Some b /\ ~ compatible a b)
  | OutOfFuel => False
  end.
Proof.
  assert (S : forall s, (s <= 1)%nat -> s = 0%nat \/ s = 1%nat) by lia.
  unfold orderedSuperblocks.
  change (slotRoot (slotBytes file 0 ps) 0) with (candidate file ps 0).
  change (slotRoot (slotBytes file 1 ps) 1) with (candidate file ps 1).
  destruct (candidate file ps 0) as [a|] eqn:E0; destruct (candidate file ps 1) as [b|] eqn:E1.
  - destruct (_ || _) eqn:C.
    + right. split; [done|]. exists a, b. split_and!; [done..|]. intros [X Y]. rewrite X, Y, bool_decide_true, Z.eqb_refl in C; done.
    + destruct (Z.ltb_spec (sb_Generation a) (sb_Generation b)).
      all: split; [intros c [->|[->|[]%elem_of_nil]%elem_of_cons]%elem_of_cons; simpl; split; (lia || done)|].
      all: split; [intros s r Hs Er; destruct (S s Hs) as [->| ->]; rewrite ?E0, ?E1 in Er; injection Er as <-; set_solver|].
      all: intros c c' rest [= <- <- <-]; simpl; split; [lia|done].
  - split_and!.
    + intros c [->|[]%elem_of_nil]%elem_of_cons. simpl. split; [lia|done].
    + intros s r Hs Er. destruct (S s Hs) as [->| ->]; [|congruence]. rewrite E0 in Er. injection Er as <-. by left.
    + done.
  - split_and!.
    + intros c [->|[]%elem_of_nil]%elem_of_cons. simpl. split; [lia|done].
    + intros s r Hs Er. destruct (S s Hs) as [->| ->]; [congruence|]. rewrite E1 in Er. injection Er as <-. by left.
    + done.
  - by left.
Qed.

Lemma RecoverSuperblock_props (file : os_file) (ps : Z) (scratch : nat) :
  no_io_errors file -> validPhysicalPageSize ps = true -> ps <= Z.of_nat scratch ->
  (forall root slot, RecoverSuperblock file ps scratch = Ok (root, slot) ->
     (slot <= 1)%nat /\ candidate file ps slot = Some root /\ root_intact file ps root = true /\
     forall s r, (s <= 1)%nat -> candidate file ps s = Some r -> root_intact file ps r = true ->
       sb_Generation r <= sb_Generation root) /\
  ((exists s r, (s <= 1)%nat /\ candidate file ps s = Some r /\ root_intact file ps r = true) ->
   (forall a b, candidate file ps 0 = Some a -> candidate file ps 1 = Some b -> compatible a b) ->
   is_ok (RecoverSuperblock file ps scratch) = true).
Proof.
  intros Hio Hv Hs. rewrite RecoverSuperblock_eq by done. pose proof (orderedSuperblocks_spec file ps) as O.
  destruct (orderedSuperblocks _ _) as [cs|e|]; [|split; [done|]|done].
  - destruct O as (O1 & O2 & O3). destruct (List.find _ cs) as [c|] eqn:F.
    + split; [|done]. intros root slot [= <- <-]. apply List.find_some in F as F2. destruct F2 as [M%list_elem_of_In I].
      destruct (O1 c M) as [S1 S2]. split_and!; [done..|]. intros s r Ls Er Ir. specialize (O2 s r Ls Er).
      destruct cs as [|c1 [|c2 rest]]; [by apply elem_of_nil in O2| |].
      * apply list_elem_of_singleton in O2, M. rewrite M, <- O2. simpl. lia.
      * destruct (O3 c1 c2 rest eq_refl) as [G ->]. cbn [List.find] in F.
        apply elem_of_cons in O2 as [<-|<-%list_elem_of_singleton]; cbn [c_root] in *.
        -- rewrite Ir in F. injection F as <-. done.
        -- destruct (root_intact file ps (c_root c1)); [by injection F as <-|]. rewrite Ir in F. by injection F as <-.
    + split; [done|]. intros (s & r & Ls & Er & Ir) _. specialize (O2 s r Ls Er).
      pose proof (List.find_none _ _ F (mkCandidate r s)) as N. rewrite <- list_elem_of_In in N. specialize (N O2). simpl in N. congruence.
  - intros (s & r & Ls & Er & Ir) C. destruct O as [(_ & E0 & E1)|(_ & a & b & E0 & E1 & N)]; [|by destruct (N (C a b E0 E1))].
    assert (s = 0 \/ s = 1)%nat as [-> | ->] by lia; congruence.
Qed.

(** C28: recovery returns the newest intact root.  What it returns was decoded
    from its own slot, its pages are intact and no other slot holds a newer
    intact root; and it does return one whenever a slot holds an intact root
    and the slots do not belong to different stores. *)
Theorem RecoverSuperblock_newest (file : os_file) (ps : Z) (scratch : nat) :
  no_io_errors file -> validPhysicalPageSize ps = true -> ps <= Z.of_nat scratch ->
  (forall root slot, RecoverSuperblock file ps scratch = Ok (root, slot) ->
     (slot <= 1)%nat /\ candidate file ps slot = Some root /\ root_intact file ps root = true /\
     forall s r, (s <= 1)%nat -> candidate file ps s = Some r -> root_intact file ps r = true ->
       sb_Generation r <= sb_Generation root) /\
  ((exists s r, (s <= 1)%nat /\ candidate file ps s = Some r /\ root_intact file ps r = true) ->
   (forall a b, candidate file ps 0 = Some a -> candidate file ps 1 = Some b -> compatible a b) ->
   is_ok (RecoverSuperblock file ps scratch) = true).
Proof. apply RecoverSuperblock_props. Qed.

(** A write at [offset] of the file, in place. *)
Definition WriteAt (file : os_file) (offset : nat) (bytes : list Z) : os_file :=
  mkFile (setBytes (f_data file) offset bytes) (f_read_error file) (f_stat_error file).

Lemma page_intact_WriteAt file off bytes offset len sum :
  (off + length bytes <= Z.to_nat offset)%nat ->
  page_intact (WriteAt file off bytes) offset len sum = page_intact file offset len sum.
Proof. intros H. unfold page_intact, WriteAt. cbn [f_data]. by rewrite slice_set_out by lia. Qed.

Lemma root_intact_WriteAt file ps off bytes r :
  validateSuperblock r = None -> sb_PageSize r = ps -> Z.of_nat (off + length bytes) <= 2 * ps ->
  root_intact (WriteAt file off bytes) ps r = root_intact file ps r.
Proof.
  intros V <- L. destruct (validateSuperblock_lengths r V) as (_ & Hp & _ & _ & L1 & L2).
  unfold root_intact. rewrite (page_intact_WriteAt file off bytes (sb_StateOffset r)) by lia.
  unfold WriteAt at 1. cbn [f_data]. rewrite setBytes_length.
  destruct (Z.eqb_spec (sb_FreeLength r) 0) as [|Nf]; [done|]. destruct (L2 Nf) as [_ ?]. by rewrite page_intact_WriteAt by lia.
Qed.

Lemma slot_alternates g : 0 < g -> Z.land g 1 = 1 - Z.land (g - 1) 1 /\ 0 <= Z.land g 1 <= 1.
Proof.
  intros H. pose proof (Z.land_ones g 1 ltac:(lia)) as E1. pose proof (Z.land_ones (g - 1) 1 ltac:(lia)) as E2.
  change (Z.ones 1) with 1 in E1, E2. change (2 ^ 1) with 2 in E1, E2. rewrite E1, E2.
  Z.to_euclidean_division_equations. lia.
Qed.

(** Recovery from a file in which the current root's slot and pages are intact. *)
Lemma recover_current (file : os_file) (ps : Z) (scratch slot : nat) (root : Superblock) :
  no_io_errors file -> validPhysicalPageSize ps = true -> ps <= Z.of_nat scratch ->
  (slot <= 1)%nat -> candidate file ps slot = Some root -> root_intact file ps root = true ->
  (forall r, candidate file ps (1 - slot) = Some r -> compatible r root) ->
  exists found s, RecoverSuperblock file ps scratch = Ok (found, s) /\
    (found = root \/ candidate file ps (1 - slot) = Some found /\ root_intact file ps found = true /\
                     sb_Generation root < sb_Generation found).
Proof.
  intros Hio Hv Hsc Hs1 Cs Is Hcomp.
  destruct (RecoverSuperblock_props file ps scratch Hio Hv Hsc) as [P1 P2].
  assert (X : is_ok (RecoverSuperblock file ps scratch) = true).
  { apply P2; [by exists slot, root|]. intros a b Ea Eb. destruct slot as [|[|]]; [| |lia].
    - rewrite Cs in Ea. injection Ea as <-. destruct (Hcomp b Eb). by split.
    - rewrite Cs in Eb. injection Eb as <-. by destruct (Hcomp a Ea). }
  destruct (RecoverSuperblock file ps scratch) as [[found s]|e|] eqn:E; [|done..].
  exists found, s. split; [done|]. destruct (P1 found s eq_refl) as (Ls & Cf & If & Mx).
  specialize (Mx slot root Hs1 Cs Is). destruct (decide (s = slot)) as [->|Ns]; [left; congruence|].
  assert (s = 1 - slot)%nat as -> by lia. right. split_and!; [done..|].
  destruct (slotRoot_valid _ _ _ Cf) as [_ Sf]. destruct (decide (sb_Generation root = sb_Generation found)) as [e|]; [|lia].
  exfalso. destruct (slotRoot_valid _ _ _ Cs) as [_ Sr]. rewrite e in *. lia.
Qed.

(** Publication is failure-atomic.  The superblock of generation [g+1] goes
    to the slot that does not hold generation [g]; whatever bytes a crash leaves
    there, as long as they do not decode to a root of another store, recovery
    still succeeds and returns the root of generation [g] or a newer root that
    is decodable in the other slot and whose pages are intact. *)
Theorem crash_atomic (file : os_file) (ps : Z) (scratch slot : nat) (root : Superblock) (torn : list Z) (offset : Z) :
  no_io_errors file -> ps <= Z.of_nat scratch ->
  Z.of_nat slot = Z.land (sb_Generation root - 1) 1 -> 0 < sb_Generation root ->
  candidate file ps slot = Some root -> root_intact file ps root = true ->
  SuperblockOffset (sb_Generation root + 1) ps = Ok offset -> Z.of_nat (length torn) <= ps ->
  let file' := WriteAt file (Z.to_nat offset) torn in
  (forall r, candidate file' ps (1 - slot) = Some r -> compatible r root) ->
  exists found s, RecoverSuperblock file' ps scratch = Ok (found, s) /\
    (found = root \/ candidate file' ps (1 - slot) = Some found /\ root_intact file' ps found = true /\
                     sb_Generation root < sb_Generation found).
Proof.
  intros Hio Hsc Hslot Hg Hc Hi Ho Ht file' Hcomp. unfold SuperblockOffset, superblockCopies in Ho.
  destruct (Z.eqb_spec (sb_Generation root + 1) 0); [lia|]. destruct (validPhysicalPageSize ps) eqn:Hv; [|done].
  cbn [orb negb] in Ho. injection Ho as Ho. replace (sb_Generation root + 1 - 1) with (sb_Generation root) in Ho by lia.
  change (2 - 1) with 1 in Ho. destruct (slot_alternates (sb_Generation root) Hg) as [Alt Rng].
  assert (Hp : 4096 <= ps) by (unfold validPhysicalPageSize, physicalPageQuantum in Hv; bool_hyps; done).
  destruct (slotRoot_valid _ _ _ Hc) as [V _].
  assert (Eps : sb_PageSize root = ps) by (unfold root_intact in Hi; bool_hyps; done).
  assert (Eo : (1 - slot)%nat = Z.to_nat (Z.land (sb_Generation root) 1)) by lia.
  assert (Eoff : Z.to_nat offset = ((1 - slot) * Z.to_nat ps)%nat).
  { rewrite <- Ho, Eo, Z2Nat.inj_mul by lia. done. }
  assert (Hs1 : (slot <= 1)%nat) by lia.
  assert (Cs : candidate file' ps slot = Some root).
  { unfold candidate, slotBytes, file', WriteAt in *. cbn [f_data] in *. rewrite Eoff.
    rewrite slice_set_out; [done|]. destruct slot as [|[|]]; lia. }
  assert (Is : root_intact file' ps root = true).
  { unfold file'. rewrite root_intact_WriteAt; [done..|]. rewrite Eoff, Nat2Z.inj_add. destruct slot as [|[|]]; lia. }
  assert (Hio' : no_io_errors file') by done.
  by apply recover_current.
Qed.

(** A generation-one store of three pages: a record, the spare slot, a state page. *)
Definition example_live : Superblock :=
  mkSuperblock (replicate 16 7) 1 8192 4096 (PageChecksum (replicate (Z.to_nat 4096) 0)) 12288 0 0 0 4096 0.
Definition example_file : os_file :=
  mkFile (match EncodeSuperblock (replicate 128 0) example_live with Ok b => b | _ => [] end ++ replicate (Z.to_nat 12160) 0)
    (fun _ _ => false) false.

Lemma example_candidate : candidate example_file 4096 0 = Some example_live.
Proof. vm_compute. reflexivity. Qed.

Lemma example_intact : root_intact example_file 4096 example_live = true.
Proof. vm_compute. reflexivity. Qed.

Lemma RecoverSuperblock_newest_witness : is_ok (RecoverSuperblock example_file 4096 (Z.to_nat 4096)) = true.
Proof.
  refine (proj2 (RecoverSuperblock_newest example_file 4096 (Z.to_nat 4096) _ _ _) _ _).
  - split; reflexivity.
  - reflexivity.
  - lia.
  - exists 0%nat, example_live. split; [lia|]. split; [exact example_candidate|exact example_intact].
  - intros a b _ Eb. exfalso. assert (N : candidate example_file 4096 1 = None) by (vm_compute; reflexivity). congruence.
Defined.

Lemma crash_atomic_witness :
  exists found s, RecoverSuperblock (WriteAt example_file 4096 [83; 74; 82]) 4096 (Z.to_nat 4096) = Ok (found, s) /\
    (found = example_live \/
     candidate (WriteAt example_file 4096 [83; 74; 82]) 4096 1 = Some found /\
     root_intact (WriteAt example_file 4096 [83; 74; 82]) 4096 found = true /\ 1 < sb_Generation found).
Proof.
  refine (crash_atomic example_file 4096 (Z.to_nat 4096) 0 example_live [83; 74; 82] 4096 _ _ _ _ _ _ _ _ _).
  - split; reflexivity.
  - lia.
  - reflexivity.
  - reflexivity.
  - exact example_candidate.
  - exact example_intact.
  - reflexivity.
  - simpl. lia.
  - intros r Er. exfalso.
    assert (N : candidate (WriteAt example_file (Z.to_nat 4096) [83; 74; 82]) 4096 (1 - 0) = None) by (vm_compute; reflexivity). congruence.
Defined.

(** The reference names a page of the file that opens with the identity it claims. *)
Definition ref_page_ok (file : os_file) (root : StateRoot) (r : PageRef) : Prop :=
  exists h payload,
    OpenPage (slice (f_data file) (Z.to_nat (ref_Offset r)) (Z.to_nat (ref_Offset r) + Z.to_nat (ref_Length r))) = Ok (h, payload) /\
    ph_StoreID h = sr_StoreID root /\ ph_PageSize h = sr_PageSize root /\ ph_Kind h = ref_Kind r /\
    ph_LogicalID h = ref_LogicalID r /\ ph_Generation h = ref_Generation r.

Lemma readFull_inv file off len scratch b :
  readFull file off len scratch = Ok (Some b) ->
  b = slice (f_data file) (Z.to_nat off) (Z.to_nat off + Z.to_nat len) /\ length b = Z.to_nat len.
Proof.
  unfold readFull, ReadAt. case_match; [done|]. case_match; [done|]. rewrite bind_Ok.
  destruct (Nat.eqb_spec (length (slice (f_data file) (Z.to_nat off) (Z.to_nat off + Z.to_nat len))) (Z.to_nat len)); [|done].
  by intros [= <-].
Qed.

Lemma readStateRootRefs_spec file root scratch refs :
  readStateRootRefs file root scratch refs = Ok true -> Forall (fun r => r = zeroRef \/ ref_page_ok file root r) refs.
Proof.
  induction refs as [|r refs IH]; [intros; by apply Forall_nil|]. cbn [readStateRootRefs].
  destruct (isZeroRef r) eqn:Z; [intros E; apply Forall_cons; split; [left; by apply isZeroRef_spec|by apply IH]|].
  destruct (readFull _ _ _ _) as [[b|]|?|] eqn:R; [|done..]. rewrite bind_Ok.
  apply readFull_inv in R as [-> _]. destruct (OpenPage _) as [[h payload]|e|] eqn:O; [|by destruct e|done].
  case_match eqn:C; [done|]. intros E. apply Forall_cons. split; [|by apply IH]. right. exists h, payload.
  bool_hyps. match goal with H : bool_decide _ = true |- _ => apply bool_decide_eq_true in H end. by split_and!.
Qed.

Lemma readCheckedPage_inv file off len sum scratch b :
  readCheckedPage file off len sum scratch = Ok (Some b) ->
  b = slice (f_data file) (Z.to_nat off) (Z.to_nat off + Z.to_nat len) /\ PageChecksum b = sum.
Proof.
  unfold readCheckedPage. destruct (readFull _ _ _ _) as [[x|]|?|] eqn:R; [|done..]. rewrite bind_Ok.
  destruct (Z.eqb_spec (PageChecksum x) sum); [|done]. intros [= <-]. by apply readFull_inv in R as [? _].
Qed.

(** What an accepted candidate has established about its state. *)
Definition state_recovered (file : os_file) (root : Superblock) (state : StateRoot) : Prop :=
  sr_StoreID state = sb_StoreID root /\ sr_Generation state = sb_Generation root /\ sr_PageSize state = sb_PageSize root /\
  Forall (fun r => r = zeroRef \/ ref_in_file state (sb_FileEnd root) r) (allRefs state) /\ refs_distinct (allRefs state) /\
  Forall (fun r => r = zeroRef \/ ref_page_ok file state r) (directoryRefs state) /\
  Forall (fun r => ref_Offset r <> sb_StateOffset root) (allRefs state) /\
  sb_FileEnd root <= Z.of_nat (length (f_data file)).

Lemma references_false state offset :
  stateRootReferencesOffset state offset = false -> Forall (fun r => ref_Offset r <> offset) (allRefs state).
Proof.
  unfold stateRootReferencesOffset. induction (allRefs state) as [|r l IH]; simpl; [intros; by apply Forall_nil|].
  intros [E F]%orb_false_iff. apply Forall_cons. split; [by apply Z.eqb_neq|by apply IH].
Qed.

Lemma tryCandidate_state file ps scratch root st :
  bytes_ok (f_data file) -> tryCandidate file ps scratch true root = Ok (Some st) ->
  exists state, st = Some state /\ state_recovered file root state.
Proof.
  intros Hb. unfold tryCandidate. case_match eqn:E0; [done|].
  destruct (readCheckedPage _ _ _ _ _) as [[page|]|?|] eqn:R; [|done..]. rewrite bind_Ok.
  apply readCheckedPage_inv in R as [-> _]. unfold decodeCandidateState.
  destruct (DecodeStateRootPage _ _) as [state|e|] eqn:D; [|by destruct e|done].
  apply DecodeStateRootPage_inv in D as (_ & D1 & D2 & _); [|by apply Forall_slice].
  case_match eqn:C; [done|].
  destruct (readStateRootRefs _ _ _ _) as [[]|?|] eqn:RR; cbn [mbind res_bind]; [|done..].
  destruct (checkFreeRoot _ _ _ _) as [[]|?|]; cbn [mbind res_bind]; [|done..]. intros [= <-]. exists state. split; [done|].
  apply readStateRootRefs_spec in RR. apply orb_false_iff in C as [C _].
  apply orb_false_iff in C as [C N%references_false]. bool_hyps.
  match goal with H : bool_decide _ = true |- _ => apply bool_decide_eq_true in H end.
  unfold state_recovered. by split_and!.
Qed.

(** C29: a state that recovery returns belongs to the superblock it is returned
    with: same store, generation and page size, every reference inside the
    recovered file and distinct, none of them the state page itself, and every
    directory reference naming a page that opens with exactly the identity the
    reference claims. *)
Theorem RecoverStateRoot_sound (file : os_file) (ps : Z) (scratch : nat) (root : Superblock) (st : option StateRoot) (slot : nat) :
  bytes_ok (f_data file) -> RecoverStateRoot file ps scratch = Ok (root, st, slot) ->
  exists state, st = Some state /\ state_recovered file root state.
Proof.
  intros Hb. unfold RecoverStateRoot, recoverRoots. do 2 (case_match; [done|]).
  destruct (readSlot file 0 ps); [|done..]. rewrite bind_Ok. destruct (readSlot file 1 ps); [|done..]. rewrite bind_Ok.
  destruct (orderedSuperblocks _ _) as [cs|?|]; [|done..]. rewrite bind_Ok. case_match; [done|].
  induction cs as [|c cs IH]; [done|]. cbn [candidateLoop].
  destruct (tryCandidate file ps scratch true (c_root c)) as [[s|]|?|] eqn:T; [| |done..]; rewrite bind_Ok; [|exact IH].
  intros [= <- <- <-]. by apply tryCandidate_state in T.
Qed.

Definition example_empty_root : StateRoot :=
  mkStateRoot (replicate 16 7) 1 4096 0 0 0 2 0 0 64 0 0 0 0 zeroRef zeroRef zeroRef zeroRef zeroRef zeroRef.
Definition okBytes (r : io_res (list Z)) : list Z := match r with Ok b => b | _ => [] end.
Definition example_state_page : list Z := okBytes (EncodeStateRootPage (replicate (Z.to_nat 4096) 0) example_empty_root 12288).
Definition example_state_superblock : Superblock :=
  mkSuperblock (replicate 16 7) 1 8192 4096 (PageChecksum example_state_page) 12288 0 0 0 4096 0.
Definition example_state_file : os_file :=
  mkFile (okBytes (EncodeSuperblock (replicate 128 0) example_state_superblock) ++ replicate (Z.to_nat 8064) 0 ++ example_state_page)
    (fun _ _ => false) false.

Lemma RecoverStateRoot_sound_witness :
  exists state, Some example_empty_root = Some state /\ state_recovered example_state_file example_state_superblock state.
Proof.
  apply (RecoverStateRoot_sound example_state_file 4096 (Z.to_nat 4096) example_state_superblock (Some example_empty_root) 0).
  - apply bytes_ok_bool. vm_compute. reflexivity.
  - vm_compute. reflexivity.
Defined.
