(* ===== verification/Device.v ===== *)
(** * Device: ordered page writes and their barriers

    Models internal/storeio/device.go ([Write], [validateWrite],
    [validateCommit]) and device_portable.go.  The operating system's file is a
    durable image plus the writes no barrier has covered yet; a fault oracle
    decides which write or barrier fails, and a crash may leave any bytes in the
    ranges of uncovered writes.  [Commit] is proved to validate exactly the
    documented contract and to keep crash recovery sound at every point. *)
From Stdlib Require Import ZArith Lia List Bool Sorted.
From stdpp Require Import base numbers list strings sets.
From S2P Require Import Prelude Leases Bytes Page StateRoot FreeDirectory Superblock.

Open Scope Z_scope.

Record Write := mkWrite { w_Offset : Z; w_Length : Z; w_Buffer : Z; w_kind : Z }.
Definition zeroWrite : Write := mkWrite 0 0 0 0.

(** ** Validation *)

(** int64 and uint64 arithmetic stays in range: the guards come first. *)
Definition validateWrite (bufferCount bufferSize : Z) (write : Write) : io_res Z :=
  if (bufferCount <=? w_Buffer write) || (w_Length write =? 0) || (bufferSize <? w_Length write) ||
     (w_Offset write <? 0) || (2 ^ 63 - 1 - w_Offset write <? w_Length write)
  then Err (ErrInvalidWrite "")
  else Ok (w_Offset write + w_Length write).

(** The first loop of [validateCommit]; [first] is [i == 0]. *)
Fixpoint validatePages (bufferCount bufferSize : Z) (seen : list Z) (first : bool) (previousEnd : Z) (pages : list Write)
  : option io_error :=
  match pages with
  | [] => None
  | write :: rest =>
      match validateWrite bufferCount bufferSize write with
      | Err e => Some e
      | OutOfFuel => None
      | Ok end_ =>
          let word := Z.to_nat (Z.shiftr (w_Buffer write) 6) in
          let mask := Z.shiftl 1 (Z.land (w_Buffer write) 63) in
          match seen !! word with
          | None => Some Panic
          | Some s =>
              if negb (Z.land s mask =? 0) then Some ErrDuplicateBuffer
              else if negb first && (w_Offset write <? previousEnd) then Some ErrOverlappingWrite
              else validatePages bufferCount bufferSize (<[word := Z.lor s mask]> seen) false end_ rest
          end
      end
  end.

Definition validateCommit (bufferCount bufferSize : Z) (seen : list Z) (pages : list Write) (root : Write)
  : option io_error :=
  match validatePages bufferCount bufferSize (replicate (length seen) 0) true 0 pages with
  | Some e => Some e
  | None =>
      match validateWrite bufferCount bufferSize root with
      | Err e => Some e
      | OutOfFuel => None
      | Ok rootEnd =>
          if existsb (fun write => (w_Offset write <? rootEnd) &&
                                   (w_Offset root <? w_Offset write + w_Length write)) pages
          then Some ErrOverlappingWrite else None
      end
  end.

(** The contract in the comment of [Write]. *)
Definition write_valid (bufferCount bufferSize : Z) (w : Write) : Prop :=
  w_Buffer w < bufferCount /\ 0 < w_Length w <= bufferSize /\ 0 <= w_Offset w /\ w_Offset w + w_Length w <= 2 ^ 63 - 1.

Definition precedes (a b : Write) : Prop := w_Offset a + w_Length a <= w_Offset b.

Record commit_valid (bufferCount bufferSize : Z) (pages : list Write) (root : Write) : Prop := {
  cv_pages : Forall (write_valid bufferCount bufferSize) pages;
  cv_buffers : NoDup (w_Buffer <$> pages);
  cv_sorted : StronglySorted precedes pages;
  cv_root : write_valid bufferCount bufferSize root;
  cv_apart : forall w, w ∈ pages -> precedes w root \/ precedes root w;
}.

(** Widths of the fields of a [Write]. *)
Definition write_word (w : Write) : Prop :=
  - 2 ^ 63 <= w_Offset w < 2 ^ 63 /\ 0 <= w_Length w < 2 ^ 32 /\ 0 <= w_Buffer w < 2 ^ 16.

Lemma validateWrite_spec bc bs w : write_word w -> 0 <= bs ->
  (validateWrite bc bs w = Ok (w_Offset w + w_Length w) /\ write_valid bc bs w) \/
  (validateWrite bc bs w = Err (ErrInvalidWrite "") /\ ~ write_valid bc bs w).
Proof.
  intros (Ho & Hl & Hb) Hs. unfold validateWrite, write_valid.
  destruct (Z.leb_spec bc (w_Buffer w)); [right; split; [done|lia]|].
  destruct (Z.eqb_spec (w_Length w) 0); [right; split; [done|lia]|].
  destruct (Z.ltb_spec bs (w_Length w)); [right; split; [done|lia]|].
  destruct (Z.ltb_spec (w_Offset w) 0); [right; split; [done|lia]|].
  destruct (Z.ltb_spec (2 ^ 63 - 1 - w_Offset w) (w_Length w)); [right; split; [done|lia]|].
  left. split; [done|lia].
Qed.

(** ** The bit set of seen buffers *)

Definition seen_bit (seen : list Z) (b : Z) : bool :=
  Z.testbit (default 0 (seen !! Z.to_nat (Z.shiftr b 6))) (Z.land b 63).

Lemma buffer_split b : 0 <= b -> b = 64 * Z.shiftr b 6 + Z.land b 63 /\ 0 <= Z.land b 63 < 64 /\ 0 <= Z.shiftr b 6.
Proof.
  intros H. rewrite Z.shiftr_div_pow2 by lia. change 63 with (Z.ones 6). rewrite Z.land_ones by lia. dlia.
Qed.

Lemma land_bit s k : 0 <= k -> (Z.land s (Z.shiftl 1 k) =? 0) = negb (Z.testbit s k).
Proof.
  intros Hk. rewrite Z.shiftl_1_l. destruct (Z.testbit s k) eqn:E; simpl.
  - apply Z.eqb_neq. intros H. apply (f_equal (fun x => Z.testbit x k)) in H.
    rewrite Z.land_spec, E, Z.pow2_bits_true, Z.bits_0 in H by done. done.
  - apply Z.eqb_eq, Z.bits_inj'. intros n Hn. rewrite Z.land_spec, Z.bits_0, Z.pow2_bits_eqb by done.
    destruct (Z.eqb_spec k n) as [->|]; [by rewrite E|apply andb_false_r].
Qed.

Lemma seen_bit_set seen b c s : 0 <= b -> 0 <= c -> seen !! Z.to_nat (Z.shiftr b 6) = Some s ->
  seen_bit (<[Z.to_nat (Z.shiftr b 6) := Z.lor s (Z.shiftl 1 (Z.land b 63))]> seen) c = (c =? b) || seen_bit seen c.
Proof.
  intros Hb Hc Hs. destruct (buffer_split b Hb) as (Eb & Rb & Qb), (buffer_split c Hc) as (Ec & Rc & Qc).
  unfold seen_bit. destruct (decide (Z.shiftr c 6 = Z.shiftr b 6)) as [E|N].
  - rewrite E, list_lookup_insert_eq by (by apply lookup_lt_Some in Hs). simpl. rewrite Hs. simpl.
    rewrite Z.lor_spec, Z.shiftl_1_l, Z.pow2_bits_eqb by lia. rewrite orb_comm. f_equal.
    destruct (Z.eqb_spec (Z.land b 63) (Z.land c 63)), (Z.eqb_spec c b); try done; [lia|congruence].
  - rewrite list_lookup_insert_ne by (intros E; apply N, Z2Nat.inj; lia).
    destruct (Z.eqb_spec c b); [congruence|done].
Qed.

Lemma validatePages_spec bc bs seen first prev pages (used : list Z) :
  Forall write_word pages -> 0 <= bs -> 0 <= bc -> bc <= 64 * Z.of_nat (length seen) ->
  (forall b, 0 <= b < bc -> seen_bit seen b = true <-> b ∈ used) ->
  (validatePages bc bs seen first prev pages = None <->
   Forall (write_valid bc bs) pages /\ NoDup (w_Buffer <$> pages) /\ (forall b, b ∈ w_Buffer <$> pages -> b ∉ used) /\
   StronglySorted precedes pages /\ (first = false -> Forall (fun w => prev <= w_Offset w) pages)) /\
  validatePages bc bs seen first prev pages <> Some Panic.
Proof.
  intros Hw Hbs Hbc Hlen. revert seen first prev used Hlen. induction Hw as [|w pages Hw1 Hw IH]; intros seen first prev used Hlen Hseen.
  { simpl. split; [|done]. split; [|done]. intros _. repeat split; try constructor. intros b Hb. by apply elem_of_nil in Hb. }
  cbn [validatePages]. destruct (validateWrite_spec bc bs w Hw1 Hbs) as [[-> V]|[-> V]].
  2: { split; [|done]. split; [done|]. intros (F & _). by apply Forall_cons in F as [? _]. }
  destruct Hw1 as (Ho & Hl & Hb). destruct V as (Vb & Vl & Vo & Ve) eqn:EV. clear EV.
  destruct (buffer_split (w_Buffer w)) as (Eb & Rb & Qb); [lia|].
  destruct (lookup_lt_is_Some_2 seen (Z.to_nat (Z.shiftr (w_Buffer w) 6))) as [s Hs]; [lia|]. rewrite Hs.
  assert (Ebit : (Z.land s (Z.shiftl 1 (Z.land (w_Buffer w) 63)) =? 0) = negb (seen_bit seen (w_Buffer w))).
  { unfold seen_bit. rewrite Hs. apply land_bit. lia. }
  rewrite Ebit, negb_involutive. cbn [fmap list_fmap].
  destruct (seen_bit seen (w_Buffer w)) eqn:Es.
  { apply Hseen in Es; [|lia]. split; [|done]. split; [done|]. intros (_ & _ & N & _). destruct (N (w_Buffer w)); [constructor|done]. }
  assert (Nu : w_Buffer w ∉ used) by (intros ?%Hseen; [congruence|lia]).
  destruct (negb first && (w_Offset w <? prev)) eqn:Eo.
  { split; [|done]. split; [done|]. intros (_ & _ & _ & _ & P). apply andb_true_iff in Eo as [E1 E2].
    apply negb_true_iff in E1. specialize (P E1). apply Forall_cons in P as [? _]. apply Z.ltb_lt in E2. lia. }
  destruct (IH (<[Z.to_nat (Z.shiftr (w_Buffer w) 6) := Z.lor s (Z.shiftl 1 (Z.land (w_Buffer w) 63))]> seen) false
      (w_Offset w + w_Length w) (w_Buffer w :: used)) as [IH1 IH2].
  { by rewrite length_insert. }
  { intros b Hbr. rewrite seen_bit_set by (done || lia). rewrite orb_true_iff, Z.eqb_eq, elem_of_cons, Hseen by done. done. }
  split; [|done]. rewrite IH1, Forall_cons, NoDup_cons. split.
  - intros (F & N & D & S & P). specialize (P eq_refl). split; [by split|]. split.
    { split; [|done]. intros Hin. apply (D _ Hin). constructor. }
    split; [|split].
    + intros b [->|Hin]%elem_of_cons; [done|]. intros Hu. apply (D _ Hin). by constructor.
    + constructor; [done|]. exact P.
    + intros ->. simpl in Eo. apply Z.ltb_ge in Eo. constructor; [done|]. eapply Forall_impl; [exact P|]. simpl. lia.
  - intros ([_ F] & [N1 N2] & D & S & P). apply StronglySorted_inv in S as [S1 S2]. split; [done|]. split; [done|].
    split; [|by split]. intros b Hin [->|Hu]%elem_of_cons; [done|]. by apply (D b); [constructor|].
Qed.

Lemma validateCommit_valid (bc bs : Z) (seen : list Z) (pages : list Write) (root : Write) :
  Forall write_word pages -> write_word root -> 0 <= bc -> 0 <= bs -> bc <= 64 * Z.of_nat (length seen) ->
  (validateCommit bc bs seen pages root = None <-> commit_valid bc bs pages root) /\
  validateCommit bc bs seen pages root <> Some Panic.
Proof.
  intros Hp Hr Hbc Hbs Hlen. unfold validateCommit.
  destruct (validatePages_spec bc bs (replicate (length seen) 0) true 0 pages [] Hp Hbs Hbc) as [P1 P2].
  { by rewrite length_replicate. }
  { intros b Hb. unfold seen_bit. destruct (replicate (length seen) 0 !! Z.to_nat (Z.shiftr b 6)) as [x|] eqn:E.
    - apply lookup_replicate in E as [-> _]. simpl. rewrite Z.bits_0. split; [done|]. by intros ?%elem_of_nil.
    - simpl. rewrite Z.bits_0. split; [done|]. by intros ?%elem_of_nil. }
  destruct (validatePages bc bs (replicate (length seen) 0) true 0 pages) as [e|].
  { split; [|done]. split; [done|]. intros [C1 C2 C3 C4 C5]. exfalso.
    assert (Some e = None) as [=]. apply P1. repeat (split; [done|]). split; [by intros b _ ?%elem_of_nil|]. done. }
  destruct (proj1 P1 eq_refl) as (F & N & _ & S & _).
  destruct (validateWrite_spec bc bs root Hr Hbs) as [[-> V]|[-> V]].
  2: { split; [|done]. split; [done|]. by intros [? ? ? ? ?]. }
  assert (E : existsb (fun write => (w_Offset write <? w_Offset root + w_Length root) &&
       (w_Offset root <? w_Offset write + w_Length write)) pages = false <->
     forall w, w ∈ pages -> precedes w root \/ precedes root w).
  { rewrite <- not_true_iff_false, existsb_exists. split.
    - intros H w Hw. unfold precedes. destruct (Z.ltb_spec (w_Offset w) (w_Offset root + w_Length root)) as [L1|]; [|by right].
      destruct (Z.ltb_spec (w_Offset root) (w_Offset w + w_Length w)) as [L2|]; [|by left].
      destruct H. exists w. split; [by apply list_elem_of_In|]. apply andb_true_iff. rewrite !Z.ltb_lt. lia.
    - intros H (w & Hw & B). apply list_elem_of_In in Hw. apply andb_true_iff in B as [B1%Z.ltb_lt B2%Z.ltb_lt].
      unfold precedes in H. destruct (H w Hw); lia. }
  destruct (existsb _ pages).
  - split; [|done]. split; [done|]. intros [_ _ _ _ C5]. by apply E in C5.
  - split; [|done]. split; [|done]. intros _. split; try done. by apply E.
Qed.

(** [validateCommit] accepts exactly the commits of its contract: every
    write names a buffer of the device, is non-empty, fits the buffer and ends
    within the file offset range; data writes are in physical order without
    overlap and use distinct buffers; the root overlaps none of them.  It does
    not index its bit set out of range. *)
Theorem validateCommit_spec (bc bs : Z) (seen : list Z) (pages : list Write) (root : Write) :
  Forall write_word pages -> write_word root -> 0 <= bc -> 0 <= bs -> bc <= 64 * Z.of_nat (length seen) ->
  (validateCommit bc bs seen pages root = None <-> commit_valid bc bs pages root) /\
  validateCommit bc bs seen pages root <> Some Panic.
Proof. apply validateCommit_valid. Qed.

(** ** The operating system under a device

    [d_durable] is what the last successful barrier fixed, [d_pending] the
    writes issued since, in order. *)
Record disk := mkDisk { d_durable : list Z; d_pending : list (nat * list Z) }.

(** [WriteAt] extends the file with zeros up to the offset. *)
Definition writeBytes (file : list Z) (off : nat) (bytes : list Z) : list Z :=
  setBytes (file ++ replicate (off + length bytes - length file) 0) off bytes.

Definition flush (d : disk) : list Z := fold_left (fun f w => writeBytes f w.1 w.2) (d_pending d) (d_durable d).

(** What a crash may leave: durable bytes survive outside the ranges of pending
    writes; inside them anything may be found. *)
Definition covered (pending : list (nat * list Z)) (i : nat) : Prop :=
  exists w, w ∈ pending /\ (w.1 <= i < w.1 + length w.2)%nat.

Definition crash_image (d : disk) (file : list Z) : Prop :=
  (length (d_durable d) <= length file)%nat /\
  forall i x, d_durable d !! i = Some x -> ~ covered (d_pending d) i -> file !! i = Some x.

(** A fault oracle: operation [n] succeeds, or fails after some bytes. *)
Definition faults := nat -> option nat.

(** [visited] are the disks between operations, newest first. *)
Record io_state := mkIO { io_disk : disk; io_visited : list disk; io_count : nat }.

Definition io_next (d : disk) (st : io_state) : io_state := mkIO d (d :: io_visited st) (S (io_count st)).

Definition io_write (fault : faults) (off : nat) (bytes : list Z) (st : io_state) : option io_error * io_state :=
  let d := io_disk st in
  match fault (io_count st) with
  | None => (None, io_next (mkDisk (d_durable d) (d_pending d ++ [(off, bytes)])) st)
  | Some n => (Some ErrIO, io_next (mkDisk (d_durable d) (d_pending d ++ [(off, take n bytes)])) st)
  end.

Definition dataSync (fault : faults) (st : io_state) : option io_error * io_state :=
  let d := io_disk st in
  match fault (io_count st) with
  | None => (None, io_next (mkDisk (flush d) []) st)
  | Some _ => (Some ErrIO, io_next d st)
  end.

(** ** portableDevice *)

Record portableDevice := mkDevice {
  pd_arena : list Z; pd_bufferSize : Z; pd_buffers : Z; pd_seen : list Z; pd_closed : bool }.

Definition openPortableDevice (bufferCount bufferSize : Z) : io_res portableDevice :=
  if (2 ^ 63 - 1) / bufferSize <? bufferCount then Err (ErrInvalidWrite "staging arena overflow")
  else Ok (mkDevice (replicate (Z.to_nat (bufferCount * bufferSize)) 0) bufferSize bufferCount
             (replicate (Z.to_nat ((bufferCount + 63) / 64)) 0) false).

Definition Buffer (d : portableDevice) (index : Z) : io_res (list Z) :=
  if pd_closed d then Err ErrClosed
  else if (index <? 0) || (pd_buffers d <=? index) then Err (ErrInvalidWrite "")
  else
    let start := index * pd_bufferSize d in
    window (pd_arena d) (Z.to_nat start) (Z.to_nat (start + pd_bufferSize d)).

(** The bytes a write submits. *)
Definition writeData (d : portableDevice) (w : Write) : io_res (list Z) :=
  let start := w_Buffer w * pd_bufferSize d in
  window (pd_arena d) (Z.to_nat start) (Z.to_nat (start + w_Length w)).

Definition device_write (fault : faults) (d : portableDevice) (w : Write) (st : io_state) : option io_error * io_state :=
  match writeData d w with
  | Ok data => io_write fault (Z.to_nat (w_Offset w)) data st
  | Err e => (Some e, st)
  | OutOfFuel => (None, st)
  end.

Fixpoint device_writes (fault : faults) (d : portableDevice) (pages : list Write) (st : io_state)
  : option io_error * io_state :=
  match pages with
  | [] => (None, st)
  | w :: rest =>
      match device_write fault d w st with
      | (None, st1) => device_writes fault d rest st1
      | r => r
      end
  end.

Definition Commit (fault : faults) (d : portableDevice) (pages : list Write) (root : Write) (st : io_state)
  : option io_error * io_state :=
  if pd_closed d then (Some ErrClosed, st)
  else match validateCommit (pd_buffers d) (pd_bufferSize d) (pd_seen d) pages root with
  | Some e => (Some e, st)
  | None =>
      match device_writes fault d pages st with
      | (Some e, st1) => (Some e, st1)
      | (None, st1) =>
          match (if (length pages =? 0)%nat then (None, st1) else dataSync fault st1) with
          | (Some e, st2) => (Some e, st2)
          | (None, st2) =>
              match device_write fault d root st2 with
              | (Some e, st3) => (Some e, st3)
              | (None, st3) => dataSync fault st3
              end
          end
      end
  end.

Definition Close (d : portableDevice) : portableDevice :=
  if pd_closed d then d else mkDevice [] (pd_bufferSize d) (pd_buffers d) [] true.

(** ** Crash safety *)

Lemma writeBytes_length f off bs : length (writeBytes f off bs) = Nat.max (length f) (off + length bs).
Proof. unfold writeBytes. rewrite setBytes_length, length_app, length_replicate. lia. Qed.

Lemma writeBytes_out f off bs i : (i < off \/ off + length bs <= i)%nat -> (i < length f)%nat ->
  writeBytes f off bs !! i = f !! i.
Proof. intros H L. unfold writeBytes. rewrite setBytes_lookup_out by done. by rewrite lookup_app_l. Qed.

Lemma writeBytes_in f off bs i : (off <= i < off + length bs)%nat -> writeBytes f off bs !! i = bs !! (i - off)%nat.
Proof.
  intros H. unfold writeBytes. apply setBytes_lookup_in; [done|]. rewrite length_app, length_replicate. lia.
Qed.

(** A device as [openPortableDevice] built it. *)
Definition device_ok (d : portableDevice) : Prop :=
  0 <= pd_buffers d /\ 0 <= pd_bufferSize d /\ pd_buffers d <= 64 * Z.of_nat (length (pd_seen d)) /\
  length (pd_arena d) = Z.to_nat (pd_buffers d * pd_bufferSize d).

Lemma writeData_ok d w : device_ok d -> write_word w -> write_valid (pd_buffers d) (pd_bufferSize d) w ->
  exists data, writeData d w = Ok data /\ length data = Z.to_nat (w_Length w).
Proof.
  intros (Hb & Hs & _ & Ha) (_ & Hl & Hwb) (V1 & V2 & _). unfold writeData, window.
  assert (w_Buffer w * pd_bufferSize d + w_Length w <= pd_buffers d * pd_bufferSize d) by nia.
  assert (0 <= w_Buffer w * pd_bufferSize d) by nia.
  assert (E : ((Z.to_nat (w_Buffer w * pd_bufferSize d) <=? Z.to_nat (w_Buffer w * pd_bufferSize d + w_Length w)) &&
    (Z.to_nat (w_Buffer w * pd_bufferSize d + w_Length w) <=? length (pd_arena d)))%nat = true).
  { rewrite Ha. apply andb_true_iff. rewrite !Nat.leb_le. lia. }
  rewrite E. eexists. split; [done|]. rewrite slice_length; lia.
Qed.

(** A step of the disk: more pending writes inside [ranges], or a flush. *)
Definition in_ranges (ranges : list (nat * nat)) (w : nat * list Z) : Prop :=
  exists r, r ∈ ranges /\ r.1 = w.1 /\ (length w.2 <= r.2)%nat.

Definition range_of (w : Write) : nat * nat := (Z.to_nat (w_Offset w), Z.to_nat (w_Length w)).

(** Between the first data write and the data barrier: the durable image is the
    original one and everything pending is inside the data ranges. *)
Definition phase1 (f0 : list Z) (ranges : list (nat * nat)) (d : disk) : Prop :=
  d_durable d = f0 /\ Forall (in_ranges ranges) (d_pending d).

Definition outside (ranges : list (nat * nat)) (i : nat) : Prop :=
  forall r, r ∈ ranges -> (i < r.1 \/ r.1 + r.2 <= i)%nat.

Lemma phase1_image f0 ranges d f i x : phase1 f0 ranges d -> crash_image d f -> outside ranges i ->
  f0 !! i = Some x -> f !! i = Some x.
Proof.
  intros [E P] [_ C] O Hi. apply C; [by rewrite E|]. intros (w & Hw & Hr).
  rewrite Forall_forall in P. destruct (P w Hw) as (r & Hin & E1 & E2). destruct (O r Hin); lia.
Qed.

Lemma device_writes_phase1 fault d pages st f0 done :
  device_ok d -> Forall write_word pages -> Forall (write_valid (pd_buffers d) (pd_bufferSize d)) pages ->
  d_durable (io_disk st) = f0 -> d_pending (io_disk st) = done ->
  exists r st' new, device_writes fault d pages st = (r, st') /\
    io_visited st' = new ++ io_visited st /\
    Forall (fun x => d_durable x = f0 /\ exists p, d_pending x = done ++ p /\ Forall (in_ranges (range_of <$> pages)) p) new /\
    (r = None -> io_disk st' = mkDisk f0 (done ++ omap (fun w => match writeData d w with Ok b => Some (Z.to_nat (w_Offset w), b) | _ => None end) pages)).
Proof.
  intros Hd. revert st done. induction pages as [|w pages IH]; intros st done Hw Hv E1 E2; cbn [device_writes omap list_omap].
  - exists None, st, []. split; [done|]. split; [done|]. split; [constructor|]. intros _. rewrite app_nil_r. destruct st as [[]]; simpl in *. by subst.
  - apply Forall_cons in Hw as [Hw1 Hw], Hv as [Hv1 Hv]. destruct (writeData_ok d w Hd Hw1 Hv1) as (data & Ed & Ld).
    unfold device_write. rewrite Ed. unfold io_write. destruct (fault (io_count st)) as [n|].
    + eexists _, _, [_]. split; [done|]. split; [done|]. split; [|done]. constructor; [|constructor]. simpl. split; [done|].
      eexists. split; [by rewrite E2|]. constructor; [|constructor]. exists (range_of w). split; [constructor|]. simpl.
      split; [done|]. rewrite length_take. lia.
    + set (st1 := io_next _ st).
      destruct (IH st1 (done ++ [(Z.to_nat (w_Offset w), data)])) as (r & st' & new & Er & Ev & F & L); [done|done|done|by simpl; rewrite E2|].
      exists r, st', (new ++ [io_disk st1]). split; [done|]. split; [rewrite Ev; simpl; by rewrite <- app_assoc|]. split.
      * apply Forall_app. split.
        -- eapply Forall_impl; [exact F|]. simpl. intros x (D1 & p & D2 & D3). split; [done|].
           exists ((Z.to_nat (w_Offset w), data) :: p). split; [by rewrite D2, <- app_assoc|]. constructor.
           ++ exists (range_of w). split; [constructor|]. simpl. split; [done|lia].
           ++ eapply Forall_impl; [exact D3|]. intros y (q & Hq & ?). exists q. split; [by constructor|done].
        -- constructor; [|constructor]. simpl. split; [done|]. eexists. split; [by rewrite E2|].
           constructor; [|constructor]. exists (range_of w). split; [constructor|]. simpl. split; [done|lia].
      * intros Hr. rewrite (L Hr). f_equal. by rewrite <- app_assoc.
Qed.

(** The data writes of a commit, and the images after each barrier. *)
Definition data_writes (d : portableDevice) (pages : list Write) : list (nat * list Z) :=
  omap (fun w => match writeData d w with Ok b => Some (Z.to_nat (w_Offset w), b) | _ => None end) pages.

Definition after_data (d : portableDevice) (pages : list Write) (f0 : list Z) : list Z :=
  flush (mkDisk f0 (data_writes d pages)).

Definition after_root (d : portableDevice) (root : Write) (f1 : list Z) : list Z :=
  flush (mkDisk f1 (data_writes d [root])).

(** Where a commit can be when the machine stops. *)
Inductive commit_point (d : portableDevice) (pages : list Write) (root : Write) (f0 : list Z) (x : disk) : Prop :=
| BeforeBarrier : phase1 f0 (range_of <$> pages) x -> commit_point d pages root f0 x
| RootPending : commit_valid (pd_buffers d) (pd_bufferSize d) pages root ->
    phase1 (after_data d pages f0) [range_of root] x -> commit_point d pages root f0 x
| Committed : commit_valid (pd_buffers d) (pd_bufferSize d) pages root ->
    x = mkDisk (after_root d root (after_data d pages f0)) [] -> commit_point d pages root f0 x.

Lemma phase1_start f0 ranges : phase1 f0 ranges (mkDisk f0 []).
Proof. split; [done|constructor]. Qed.

Lemma Commit_points fault d pages root st f0 r st' :
  device_ok d -> Forall write_word pages -> write_word root -> io_disk st = mkDisk f0 [] ->
  Commit fault d pages root st = (r, st') ->
  exists new, io_visited st' = new ++ io_visited st /\ Forall (commit_point d pages root f0) new /\
    (r = None -> commit_valid (pd_buffers d) (pd_bufferSize d) pages root /\
       io_disk st' = mkDisk (after_root d root (after_data d pages f0)) []).
Proof.
  intros Hd Hp Hr E0. unfold Commit. destruct (pd_closed d); [intros [= <- <-]; exists []; done|].
  pose proof Hd as (Hb & Hs & Hl & Ha).
  destruct (validateCommit_valid (pd_buffers d) (pd_bufferSize d) (pd_seen d) pages root Hp Hr Hb Hs Hl) as [V _].
  destruct (validateCommit _ _ _ pages root) as [e|]; [intros [= <- <-]; exists []; done|].
  pose proof (proj1 V eq_refl) as CV. clear V.
  destruct (device_writes_phase1 fault d pages st f0 [] Hd Hp (cv_pages _ _ _ _ CV)) as (r1 & st1 & new1 & E1 & V1 & F1 & L1);
    [by rewrite E0..|].
  rewrite E1. assert (P1 : Forall (commit_point d pages root f0) new1).
  { eapply Forall_impl; [exact F1|]. intros x (D1 & p & D2 & D3). apply BeforeBarrier. split; [done|]. by rewrite D2. }
  destruct r1 as [e|]; [intros [= <- <-]; exists new1; done|]. specialize (L1 eq_refl). simpl in L1. fold (data_writes d pages) in L1.
  destruct (writeData_ok d root Hd Hr (cv_root _ _ _ _ CV)) as (rd & Erd & Lrd).
  assert (Hroot : forall st2, io_disk st2 = mkDisk (after_data d pages f0) [] ->
    forall new2, Forall (commit_point d pages root f0) new2 -> io_visited st2 = new2 ++ io_visited st ->
    match device_write fault d root st2 with (Some e, st3) => (Some e, st3) | (None, st3) => dataSync fault st3 end = (r, st') ->
    exists new, io_visited st' = new ++ io_visited st /\ Forall (commit_point d pages root f0) new /\
    (r = None -> commit_valid (pd_buffers d) (pd_bufferSize d) pages root /\
       io_disk st' = mkDisk (after_root d root (after_data d pages f0)) [])).
  { intros st2 D2 new2 F2 V2. unfold device_write. rewrite Erd. unfold io_write, dataSync, io_next. rewrite D2. simpl.
    assert (In : forall bs, (length bs <= length rd)%nat -> commit_point d pages root f0
        (mkDisk (after_data d pages f0) [(Z.to_nat (w_Offset root), bs)])).
    { intros bs Lb. apply RootPending; [done|]. split; [done|]. constructor; [|constructor]. exists (range_of root).
      split; [constructor|]. simpl. split; [done|lia]. }
    destruct (fault (io_count st2)) as [n|].
    - intros [= <- <-]. eexists (_ :: new2). split; [simpl; by rewrite V2|]. split; [|done].
      constructor; [|done]. apply In. rewrite length_take. lia.
    - cbn [io_count io_disk io_visited d_pending d_durable app].
      destruct (fault (S (io_count st2))) as [n|]; intros [= <- <-].
      + eexists (_ :: _ :: new2). split; [simpl; by rewrite V2|]. split; [|done]. do 2 (constructor; [by apply In|]). done.
      + eexists (_ :: _ :: new2). split; [simpl; by rewrite V2|].
        assert (Ef : mkDisk (flush (mkDisk (after_data d pages f0) [(Z.to_nat (w_Offset root), rd)])) [] =
          mkDisk (after_root d root (after_data d pages f0)) []).
        { unfold after_root, data_writes. simpl. by rewrite Erd. }
        split; [|by intros _].
        constructor; [by apply Committed|]. constructor; [by apply In|done]. }
  destruct (Nat.eqb_spec (length pages) 0) as [Ez|Nz].
  - apply nil_length_inv in Ez. subst pages. eapply Hroot; [|exact P1|done]. rewrite L1. done.
  - unfold dataSync. rewrite L1. simpl. destruct (fault (io_count st1)) as [n|].
    + intros [= <- <-]. eexists (_ :: new1). split; [simpl; by rewrite V1|]. split; [|done]. constructor; [|done].
      apply BeforeBarrier. split; [done|]. simpl. apply Forall_forall. intros x (w & Hw & Ex)%list_elem_of_omap.
      destruct (writeData d w) as [b| |] eqn:Eb; [|done..]. injection Ex as <-.
      rewrite Forall_forall in Hp. pose proof (cv_pages _ _ _ _ CV) as Fv. rewrite Forall_forall in Fv.
      destruct (writeData_ok d w Hd (Hp w Hw) (Fv w Hw)) as (b' & Eb' & Lb). rewrite Eb in Eb'. injection Eb' as <-.
      exists (range_of w). split; [apply list_elem_of_fmap; by exists w|]. simpl. split; [done|lia].
    + apply (Hroot (io_next (mkDisk (after_data d pages f0) []) st1) eq_refl (mkDisk (after_data d pages f0) [] :: new1)).
      * constructor; [|done]. apply RootPending, phase1_start. done.
      * simpl. by rewrite V1.
Qed.

(** ** Images *)

Lemma flush_out ws f i : (forall w, w ∈ ws -> (i < w.1 \/ w.1 + length w.2 <= i)%nat) -> (i < length f)%nat ->
  flush (mkDisk f ws) !! i = f !! i /\ (length f <= length (flush (mkDisk f ws)))%nat.
Proof.
  unfold flush. simpl. revert f. induction ws as [|w ws IH]; intros f H Hi; simpl; [done|].
  destruct (IH (writeBytes f w.1 w.2)) as [E L].
  - intros w' Hw. apply H. by constructor.
  - rewrite writeBytes_length. lia.
  - split; [|rewrite writeBytes_length in L; lia]. rewrite E. apply writeBytes_out; [|done]. apply H. constructor.
Qed.

Lemma flush_length ws f : (length f <= length (flush (mkDisk f ws)))%nat.
Proof.
  unfold flush. simpl. revert f. induction ws as [|w ws IH]; intros f; simpl; [done|].
  specialize (IH (writeBytes f w.1 w.2)). rewrite writeBytes_length in IH. lia.
Qed.

(** Later writes do not touch an earlier one: it reads back in full. *)
Lemma flush_in ws1 w ws2 f i : (forall w', w' ∈ ws2 -> (i < w'.1 \/ w'.1 + length w'.2 <= i)%nat) ->
  (w.1 <= i < w.1 + length w.2)%nat ->
  flush (mkDisk f (ws1 ++ w :: ws2)) !! i = w.2 !! (i - w.1)%nat.
Proof.
  intros H Hi. unfold flush. simpl. rewrite fold_left_app. simpl.
  set (f1 := fold_left _ ws1 f). destruct (flush_out ws2 (writeBytes f1 w.1 w.2) i H) as [E _].
  - rewrite writeBytes_length. lia.
  - unfold flush in E. simpl in E. rewrite E. by apply writeBytes_in.
Qed.

(** The file as recovery opens it after a restart. *)
Definition reopened (image : list Z) : os_file := mkFile image (fun _ _ => false) false.

(** A write leaves an extent alone. *)
Definition apart (w : Write) (off len : Z) : Prop := w_Offset w + w_Length w <= off \/ off + len <= w_Offset w.

Lemma data_writes_range d pages w b : device_ok d -> Forall write_word pages ->
  Forall (write_valid (pd_buffers d) (pd_bufferSize d)) pages -> (w, b) ∈ data_writes d pages ->
  exists p, p ∈ pages /\ writeData d p = Ok b /\ w = Z.to_nat (w_Offset p) /\ length b = Z.to_nat (w_Length p).
Proof.
  intros Hd Hw Hv (p & Hp & E)%list_elem_of_omap. rewrite Forall_forall in Hw, Hv.
  destruct (writeData_ok d p Hd (Hw p Hp) (Hv p Hp)) as (b' & Eb & Lb). rewrite Eb in E. injection E as <- <-. eauto.
Qed.

(** Positions outside every data range keep their byte through the flush. *)
Lemma after_data_out d pages f0 i x : device_ok d -> Forall write_word pages ->
  Forall (write_valid (pd_buffers d) (pd_bufferSize d)) pages -> outside (range_of <$> pages) i ->
  f0 !! i = Some x -> after_data d pages f0 !! i = Some x.
Proof.
  intros Hd Hw Hv O Hi. unfold after_data. destruct (flush_out (data_writes d pages) f0 i) as [-> _]; [|by apply lookup_lt_Some in Hi|done].
  intros [w b] Hin. destruct (data_writes_range d pages w b Hd Hw Hv Hin) as (p & Hp & _ & -> & Lb). simpl. rewrite Lb.
  apply (O (range_of p)). apply list_elem_of_fmap. by exists p.
Qed.

(** Every page of the commit is in the flushed image. *)
Lemma after_data_in d pages f0 w b i : device_ok d -> Forall write_word pages ->
  Forall (write_valid (pd_buffers d) (pd_bufferSize d)) pages -> StronglySorted precedes pages -> w ∈ pages -> writeData d w = Ok b ->
  (i < length b)%nat -> after_data d pages f0 !! (Z.to_nat (w_Offset w) + i)%nat = b !! i.
Proof.
  intros Hd Hw Hv Hs Hin Eb Hi. apply list_elem_of_split in Hin as (l1 & l2 & ->). unfold after_data, data_writes.
  rewrite omap_app. cbn [omap list_omap]. rewrite Eb.
  rewrite (flush_in _ (Z.to_nat (w_Offset w), b) _ f0); cbn [fst snd]; [f_equal; lia| |lia].
  apply Forall_app in Hw as [_ Hw], Hv as [_ Hv]. apply Forall_cons in Hw as [Hw1 Hw], Hv as [Hv1 Hv].
  intros [o b'] Hin. destruct (data_writes_range d l2 o b' Hd Hw Hv Hin) as (p & Hp & _ & -> & Lb). cbn [fst snd].
  assert (P : precedes w p).
  { clear -Hs Hp. induction l1 as [|a l1 IH]; simpl in Hs; apply StronglySorted_inv in Hs as [Hs1 Hs2]; [|by apply IH].
    rewrite List.Forall_forall in Hs2. by apply Hs2, list_elem_of_In. }
  rewrite Forall_forall in Hw, Hv. destruct (Hv p Hp) as (_ & ? & ? & _).
  destruct (writeData_ok d w Hd Hw1 Hv1) as (b2 & Eb2 & Lb2). rewrite Eb in Eb2. injection Eb2 as <-.
  destruct Hv1 as (_ & ? & ? & _). unfold precedes in P. lia.
Qed.

Lemma slice_agree_range (f g : list Z) a b : (forall i, (a <= i < b)%nat -> f !! i = g !! i) -> slice f a b = slice g a b.
Proof.
  intros H. apply list_eq. intros i. rewrite !slice_lookup. destruct (Nat.ltb_spec i (b - a)); [|done]. apply H. lia.
Qed.

Lemma commit_point_keeps d pages root f0 x image i v :
  device_ok d -> Forall write_word pages -> write_word root ->
  commit_point d pages root f0 x -> crash_image x image ->
  outside (range_of <$> pages) i -> outside [range_of root] i -> f0 !! i = Some v -> image !! i = Some v.
Proof.
  intros Hd Hw Hr P C O1 O2 Hi. destruct P as [P|CV P|CV ->].
  - by eapply phase1_image.
  - eapply phase1_image; [done..|]. apply after_data_out; try done. apply (cv_pages _ _ _ _ CV).
  - destruct C as [_ C]. apply C; [|by intros (w & Hw' & _); apply elem_of_nil in Hw'].
    apply (after_data_out d [root]); [done|by constructor| |done|].
    + constructor; [apply (cv_root _ _ _ _ CV)|constructor].
    + apply after_data_out; try done. apply (cv_pages _ _ _ _ CV).
Qed.

Lemma crash_image_length d pages root f0 x image : commit_point d pages root f0 x -> crash_image x image ->
  (length f0 <= length image)%nat.
Proof.
  intros P [L _]. pose proof (flush_length (data_writes d pages) f0). pose proof (flush_length (data_writes d [root]) (after_data d pages f0)).
  destruct P as [[<- _]|_ [E _]|_ ->]; [done| |]; unfold after_data, after_root in *; [rewrite E in L; lia|cbn [d_durable] in L; lia].
Qed.

(** Protected extents read the same before and after. *)
Lemma keeps_slice d pages root f0 x image off len :
  device_ok d -> Forall write_word pages -> write_word root ->
  commit_point d pages root f0 x -> crash_image x image ->
  0 <= off -> 0 <= len -> off + len <= Z.of_nat (length f0) ->
  (forall w, w ∈ pages -> 0 <= w_Offset w /\ apart w off len) -> 0 <= w_Offset root -> apart root off len ->
  slice image (Z.to_nat off) (Z.to_nat off + Z.to_nat len) = slice f0 (Z.to_nat off) (Z.to_nat off + Z.to_nat len).
Proof.
  intros Hd Hw Hr P C Ho Hl Hend Ap Hr0 Ar. apply slice_agree_range. intros i Hi.
  destruct (lookup_lt_is_Some_2 f0 i) as [v Hv]; [lia|]. rewrite Hv.
  eapply commit_point_keeps; [done..| | |done].
  - intros r (w & -> & Hin)%list_elem_of_fmap. destruct (Ap w Hin) as [? A]. rewrite Forall_forall in Hw.
    destruct (Hw w Hin) as (_ & ? & _). unfold range_of, apart in *. simpl. lia.
  - intros r ->%list_elem_of_singleton. destruct Hr as (_ & ? & _). unfold range_of, apart in *. simpl. lia.
Qed.

(** After the data barrier the image keeps every page the commit wrote. *)
Definition past_barrier (d : portableDevice) (pages : list Write) (root : Write) (f0 : list Z) (x : disk) : Prop :=
  phase1 (after_data d pages f0) [range_of root] x \/ x = mkDisk (after_root d root (after_data d pages f0)) [].

Lemma page_durable d pages root f0 x image w :
  device_ok d -> Forall write_word pages -> write_word root -> commit_valid (pd_buffers d) (pd_bufferSize d) pages root ->
  past_barrier d pages root f0 x -> crash_image x image -> w ∈ pages -> w_Offset root + w_Length root <= w_Offset w ->
  writeData d w = Ok (slice image (Z.to_nat (w_Offset w)) (Z.to_nat (w_Offset w) + Z.to_nat (w_Length w))).
Proof.
  intros Hd Hw Hr CV P C Hin Ap. pose proof (cv_pages _ _ _ _ CV) as Fv. pose proof Hw as Hw'. rewrite Forall_forall in Fv, Hw'.
  destruct (writeData_ok d w Hd (Hw' w Hin) (Fv w Hin)) as (b & Eb & Lb). rewrite Eb. f_equal. symmetry.
  destruct (cv_root _ _ _ _ CV) as (_ & ? & ? & _).
  apply list_eq. intros i. rewrite slice_lookup.
  destruct (Nat.ltb_spec i (Z.to_nat (w_Offset w) + Z.to_nat (w_Length w) - Z.to_nat (w_Offset w))).
  2: { symmetry. apply lookup_ge_None_2. lia. }
  destruct (lookup_lt_is_Some_2 b i) as [v Hv0]; [lia|]. rewrite Hv0.
  assert (O : outside [range_of root] (Z.to_nat (w_Offset w) + i)).
  { intros q ->%list_elem_of_singleton. right. unfold range_of. simpl. lia. }
  assert (D : after_data d pages f0 !! (Z.to_nat (w_Offset w) + i)%nat = Some v).
  { rewrite (after_data_in d pages f0 w b); [done|done|done|apply (cv_pages _ _ _ _ CV)|apply (cv_sorted _ _ _ _ CV)|done|done|lia]. }
  destruct P as [P| ->]; [by eapply phase1_image|].
  destruct C as [_ C]. apply C; [|by intros (w' & Hw2 & _); apply elem_of_nil in Hw2].
  apply (after_data_out d [root]); [done|by constructor|constructor; [apply (cv_root _ _ _ _ CV)|constructor]|done|done].
Qed.

(** Recovery's test of a root only reads the root's two pages. *)
Lemma root_intact_kept (f0 image : list Z) (ps : Z) (cur : Superblock) :
  validateSuperblock cur = None -> 0 <= sb_StateLength cur -> 0 <= sb_FreeLength cur -> (length f0 <= length image)%nat ->
  (forall off len, (off, len) = (sb_StateOffset cur, sb_StateLength cur) \/ (off, len) = (sb_FreeOffset cur, sb_FreeLength cur) ->
    2 * ps <= off -> 0 <= len -> off + len <= Z.of_nat (length f0) ->
    slice image (Z.to_nat off) (Z.to_nat off + Z.to_nat len) = slice f0 (Z.to_nat off) (Z.to_nat off + Z.to_nat len)) ->
  4096 <= ps -> root_intact (reopened f0) ps cur = true -> root_intact (reopened image) ps cur = true.
Proof.
  intros V Ls Lf Hlen Keep Hp Hi. destruct (validateSuperblock_lengths cur V) as (_ & _ & Hfe & L1 & L2 & L3).
  unfold root_intact in Hi |- *. apply andb_true_iff in Hi as [Hi If]. apply andb_true_iff in Hi as [Hi Is].
  apply andb_true_iff in Hi as [Eps%Z.eqb_eq Hend%Z.leb_le]. cbn [f_data reopened] in *. rewrite Eps in *. rewrite Z.eqb_refl. cbn [andb].
  assert (Page : forall off len sum, (off, len) = (sb_StateOffset cur, sb_StateLength cur) \/ (off, len) = (sb_FreeOffset cur, sb_FreeLength cur) ->
    0 <= len -> 2 * ps <= off -> page_intact (reopened f0) off len sum = true -> page_intact (reopened image) off len sum = true).
  { intros off len sum H0 H1 H2 H4. unfold page_intact in *. cbn [f_data reopened] in *. apply andb_true_iff in H4 as [H4 H5].
    apply Nat.eqb_eq in H4 as H4'. unfold slice in H4' at 1. rewrite length_take, length_drop in H4'.
    destruct (decide (len = 0)) as [->|]; [|rewrite Keep; [by rewrite H4, H5|done|lia|done|lia]].
    revert H4 H5. rewrite !slice_nil by lia. simpl. done. }
  assert ((sb_FileEnd cur <=? Z.of_nat (length image)) = true) as -> by (apply Z.leb_le; lia). cbn [andb].
  rewrite Page; [|by left|done|done|done]. cbn [andb]. apply orb_true_iff.
  apply orb_true_iff in If as [->|If]; [by left|]. destruct (Z.eqb_spec (sb_FreeLength cur) 0) as [|Nf]; [by left|right].
  destruct (L3 Nf). apply Page; [by right|done|done|done].
Qed.

(** A slot above which all data is written changes only after the data barrier. *)
Lemma data_before_root d pages root f0 x image (slot : nat) ps :
  device_ok d -> Forall write_word pages -> write_word root -> commit_point d pages root f0 x -> crash_image x image ->
  (slot <= 1)%nat -> 4096 <= ps -> 2 * ps <= Z.of_nat (length f0) -> 0 <= w_Offset root -> w_Offset root + w_Length root <= 2 * ps ->
  (forall w, w ∈ pages -> 2 * ps <= w_Offset w) ->
  slotBytes (reopened image) slot ps = slotBytes (reopened f0) slot ps \/
  forall w, w ∈ pages -> writeData d w = Ok (slice image (Z.to_nat (w_Offset w)) (Z.to_nat (w_Offset w) + Z.to_nat (w_Length w))).
Proof.
  intros Hd Hw Hr P C Hs Hp Hl Hr0 Hr2 Ap. destruct P as [P|CV P|CV ->].
  - left. unfold slotBytes. cbn [f_data reopened].
    assert (E : slice image (slot * Z.to_nat ps) (slot * Z.to_nat ps + 128) = slice f0 (slot * Z.to_nat ps) (slot * Z.to_nat ps + 128)); [|by rewrite E].
    apply slice_agree_range. intros i Hi2. destruct (lookup_lt_is_Some_2 f0 i) as [v Hv0]; [nia|]. rewrite Hv0.
    eapply phase1_image; [done..| |done]. intros q (w & -> & Hin)%list_elem_of_fmap. specialize (Ap w Hin).
    left. unfold range_of. simpl. nia.
  - right. intros w Hin. specialize (Ap w Hin). apply (page_durable d pages root f0 x); try done; [by left|lia].
  - right. intros w Hin. specialize (Ap w Hin). eapply (page_durable d pages root f0); try done; [by right|lia].
Qed.

(** The crash argument, for the device and for its clients. *)
Lemma Commit_crash (fault : faults) (d : portableDevice) (pages : list Write) (root : Write) (st st' : io_state)
    (r : option io_error) (f0 image : list Z) (x : disk) (ps : Z) (scratch slot : nat) (cur : Superblock) :
  device_ok d -> Forall write_word pages -> write_word root ->
  io_disk st = mkDisk f0 [] -> io_visited st = [mkDisk f0 []] ->
  candidate (reopened f0) ps slot = Some cur -> root_intact (reopened f0) ps cur = true ->
  Z.of_nat slot = Z.land (sb_Generation cur - 1) 1 -> 0 < sb_Generation cur -> ps <= Z.of_nat scratch ->
  SuperblockOffset (sb_Generation cur + 1) ps = Ok (w_Offset root) -> w_Length root <= ps ->
  0 <= sb_StateLength cur -> 0 <= sb_FreeLength cur ->
  (forall w, w ∈ pages -> 2 * ps <= w_Offset w /\ apart w (sb_StateOffset cur) (sb_StateLength cur) /\
                          apart w (sb_FreeOffset cur) (sb_FreeLength cur)) ->
  Commit fault d pages root st = (r, st') -> x ∈ io_visited st' -> crash_image x image ->
  (forall r', candidate (reopened image) ps (1 - slot) = Some r' -> compatible r' cur) ->
  (exists found s, RecoverSuperblock (reopened image) ps scratch = Ok (found, s) /\
    (found = cur \/ candidate (reopened image) ps (1 - slot) = Some found /\ root_intact (reopened image) ps found = true /\
                    sb_Generation cur < sb_Generation found)) /\
  (slotBytes (reopened image) (1 - slot) ps = slotBytes (reopened f0) (1 - slot) ps \/
   forall w, w ∈ pages -> writeData d w = Ok (slice image (Z.to_nat (w_Offset w)) (Z.to_nat (w_Offset w) + Z.to_nat (w_Length w)))).
Proof.
  intros Hd Hw Hr E0 V0 Hc Hi Hslot Hg Hsc Ho Hlr Ls Lf Ap HC Hx C Hcomp.
  assert (P : commit_point d pages root f0 x).
  { destruct (Commit_points fault d pages root st f0 r st' Hd Hw Hr E0 HC) as (new & En & Fn & _).
    rewrite En, V0 in Hx. apply elem_of_app in Hx as [Hx| ->%list_elem_of_singleton].
    - rewrite Forall_forall in Fn. by apply Fn.
    - apply BeforeBarrier, phase1_start. }
  unfold SuperblockOffset, superblockCopies in Ho. destruct (Z.eqb_spec (sb_Generation cur + 1) 0); [lia|].
  destruct (validPhysicalPageSize ps) eqn:Hv; [|done]. cbn [orb negb] in Ho. injection Ho as Ho.
  replace (sb_Generation cur + 1 - 1) with (sb_Generation cur) in Ho by lia. change (2 - 1) with 1 in Ho.
  destruct (slot_alternates (sb_Generation cur) Hg) as [Alt Rng].
  assert (Hp : 4096 <= ps) by (unfold validPhysicalPageSize, physicalPageQuantum in Hv; bool_hyps; done).
  destruct (slotRoot_valid _ _ _ Hc) as [V _]. destruct (validateSuperblock_lengths cur V) as (_ & _ & Hfe & L1 & L2 & L3).
  pose proof Hi as Hi0. unfold root_intact in Hi0. apply andb_true_iff in Hi0 as [Hi0 _]. apply andb_true_iff in Hi0 as [Hi0 _].
  apply andb_true_iff in Hi0 as [Eps%Z.eqb_eq Hend%Z.leb_le]. cbn [f_data reopened] in Hend. rewrite Eps in *.
  assert (Hs1 : (slot <= 1)%nat) by lia. assert (Hroot0 : 0 <= w_Offset root) by lia.
  assert (Hroot2 : w_Offset root + w_Length root <= 2 * ps) by nia.
  pose proof (crash_image_length d pages root f0 x image P C) as Hlen.
  assert (Keep : forall off len, 0 <= off -> 0 <= len -> off + len <= Z.of_nat (length f0) ->
    (forall w, w ∈ pages -> apart w off len) -> apart root off len ->
    slice image (Z.to_nat off) (Z.to_nat off + Z.to_nat len) = slice f0 (Z.to_nat off) (Z.to_nat off + Z.to_nat len)).
  { intros off len H1 H2 H3 H4 H5. eapply keeps_slice; try done. intros w Hin. destruct (Ap w Hin). split; [lia|by apply H4]. }
  assert (SlotEq : forall s, (s <= 1)%nat -> apart root (Z.of_nat s * ps) 128 ->
    slotBytes (reopened image) s ps = slotBytes (reopened f0) s ps).
  { intros s Hs A. unfold slotBytes. cbn [f_data reopened].
    replace (s * Z.to_nat ps)%nat with (Z.to_nat (Z.of_nat s * ps)) by lia. change 128%nat with (Z.to_nat 128).
    rewrite (Keep (Z.of_nat s * ps) 128); [done|nia|lia|nia| |done].
    intros w Hin. destruct (Ap w Hin) as [? _]. right. nia. }
  assert (Hwr : 0 <= w_Length root) by (destruct Hr as (_ & ? & _); lia).
  split.
  - apply recover_current; try done.
    + unfold candidate. rewrite SlotEq; [done|done|]. unfold apart. rewrite <- Ho. destruct slot as [|[|]]; lia.
    + apply (root_intact_kept f0); try done. intros off len Ho2 H1 H2 H3. apply Keep; [lia|done|done| |left; lia].
      intros w Hin. destruct (Ap w Hin) as (_ & A1 & A2). by destruct Ho2; simplify_eq.
  - apply (data_before_root d pages root f0 x); try done; [lia|lia|]. intros w Hin. by destruct (Ap w Hin).
Qed.

(** C7: a commit can be interrupted anywhere.  The portable device writes the
    data pages, a barrier, the alternate root, and a barrier.  Suppose the
    current root's slot and pages are intact and the commit writes its data
    above the two root slots and outside the pages the current root names, and
    its root into the alternate slot.  Then whatever write or barrier fails and
    wherever the machine stops, with arbitrary bytes in every write no barrier
    covered, recovery succeeds with the current root or an intact newer one; and
    unless the alternate slot is still untouched, every data page of the commit
    is already durable in full. *)
Theorem Commit_crash_safe (fault : faults) (d : portableDevice) (pages : list Write) (root : Write) (st st' : io_state)
    (r : option io_error) (f0 image : list Z) (x : disk) (ps : Z) (scratch slot : nat) (cur : Superblock) :
  device_ok d -> Forall write_word pages -> write_word root ->
  io_disk st = mkDisk f0 [] -> io_visited st = [mkDisk f0 []] ->
  candidate (reopened f0) ps slot = Some cur -> root_intact (reopened f0) ps cur = true ->
  Z.of_nat slot = Z.land (sb_Generation cur - 1) 1 -> 0 < sb_Generation cur -> ps <= Z.of_nat scratch ->
  SuperblockOffset (sb_Generation cur + 1) ps = Ok (w_Offset root) -> w_Length root <= ps ->
  0 <= sb_StateLength cur -> 0 <= sb_FreeLength cur ->
  (forall w, w ∈ pages -> 2 * ps <= w_Offset w /\ apart w (sb_StateOffset cur) (sb_StateLength cur) /\
                          apart w (sb_FreeOffset cur) (sb_FreeLength cur)) ->
  Commit fault d pages root st = (r, st') -> x ∈ io_visited st' -> crash_image x image ->
  (forall r', candidate (reopened image) ps (1 - slot) = Some r' -> compatible r' cur) ->
  (exists found s, RecoverSuperblock (reopened image) ps scratch = Ok (found, s) /\
    (found = cur \/ candidate (reopened image) ps (1 - slot) = Some found /\ root_intact (reopened image) ps found = true /\
                    sb_Generation cur < sb_Generation found)) /\
  (slotBytes (reopened image) (1 - slot) ps = slotBytes (reopened f0) (1 - slot) ps \/
   forall w, w ∈ pages -> writeData d w = Ok (slice image (Z.to_nat (w_Offset w)) (Z.to_nat (w_Offset w) + Z.to_nat (w_Length w)))).
Proof. apply Commit_crash. Qed.

(** A device of two buffers commits one page behind [example_file] and a root
    into slot 1; the root write fails after seven bytes. *)
Definition example_device : portableDevice :=
  mkDevice (replicate (Z.to_nat 8192) 0) 4096 2 [0] false.
Definition example_pages : list Write := [mkWrite 12288 4096 0 PageStateRoot].
Definition example_rootWrite : Write := mkWrite 4096 4096 1 0.
Definition example_fault : faults := fun n => if (n =? 2)%nat then Some 7%nat else None.
Definition example_before : disk := mkDisk (f_data example_file) [].
Definition example_run : option io_error * io_state :=
  Commit example_fault example_device example_pages example_rootWrite (mkIO example_before [example_before] 0).
Definition example_image : list Z := d_durable (io_disk example_run.2).

Lemma Commit_crash_safe_witness :
  exists found s, RecoverSuperblock (reopened example_image) 4096 (Z.to_nat 4096) = Ok (found, s).
Proof.
  destruct (Commit_crash_safe example_fault example_device example_pages example_rootWrite
    (mkIO example_before [example_before] 0) example_run.2 example_run.1 (f_data example_file) example_image
    (io_disk example_run.2) 4096 (Z.to_nat 4096) 0 example_live) as [(found & s & E & _) _].
  - split_and!; [done|done|done|]. unfold example_device. cbn [pd_arena pd_buffers pd_bufferSize]. apply length_replicate.
  - constructor; [|constructor]. unfold write_word. simpl. lia.
  - unfold write_word. simpl. lia.
  - done.
  - done.
  - exact example_candidate.
  - exact example_intact.
  - done.
  - simpl. lia.
  - lia.
  - reflexivity.
  - simpl. lia.
  - simpl. lia.
  - simpl. lia.
  - intros w ->%list_elem_of_singleton. unfold apart. simpl. lia.
  - unfold example_run. apply surjective_pairing.
  - assert (E : io_visited example_run.2 = io_disk example_run.2 :: tail (io_visited example_run.2)) by (vm_compute; reflexivity).
    rewrite E. constructor.
  - split; [unfold example_image; apply Nat.le_refl|]. intros i x Hx _. exact Hx.
  - intros r' Hr'. assert (N : candidate (reopened example_image) 4096 1 = None) by (vm_compute; reflexivity). change (1 - 0)%nat with 1%nat in Hr'. congruence.
  - exists found, s. exact E.
Defined.

Lemma validateCommit_spec_witness : commit_valid 2 4096 example_pages example_rootWrite.
Proof.
  refine (proj1 (proj1 (validateCommit_spec 2 4096 [0] example_pages example_rootWrite _ _ _ _ _)) _).
  - constructor; [|constructor]. unfold write_word. simpl. lia.
  - unfold write_word. simpl. lia.
  - lia.
  - lia.
  - simpl. lia.
  - vm_compute. reflexivity.
Defined.
