(* ===== verification/IndexPool.v ===== *)
(** * IndexPool: the lock-free stack of buffer and batch indexes

    Models internal/storeio/index_pool.go and [Committer.acquire] of
    committer.go, its only consumer.  Every atomic load, store, add or
    compare-and-swap is one step of a thread, so that the step relation
    interleaves threads the way the memory model of sync/atomic allows; a Go
    channel of capacity one is a boolean, and [select] offers every ready case.

    The pool is proved to be an atomic stack: its history of successful pushes,
    pops and empty pops is a history of a list, whatever the interleaving, as
    long as the 47-bit version has not wrapped.  No index is ever owned twice or
    lost, and with the single producer the Committer documents no wake-up is
    lost. *)
From Stdlib Require Import ZArith Lia List Bool.
From stdpp Require Import base numbers list gmap relations.
From S2P Require Import Prelude.

Open Scope Z_scope.

Module Pool.

Definition poolIndexBits : Z := 17.
Definition poolIndexMask : Z := 2 ^ 17 - 1.

Record indexPool := mkPool {
  head : Z;            (** atomic uint64: version above, index+1 in the low 17 bits *)
  next : list Z;       (** atomic uint32 per index *)
  notify : bool;       (** the channel of capacity one holds a token *)
  waiter : Z;          (** atomic uint32 *)
}.

Definition setHead (h : Z) (p : indexPool) := mkPool h (next p) (notify p) (waiter p).
Definition setNext (n : list Z) (p : indexPool) := mkPool (head p) n (notify p) (waiter p).
Definition setNotify (b : bool) (p : indexPool) := mkPool (head p) (next p) b (waiter p).
Definition waiterAdd (d : Z) (p : indexPool) := mkPool (head p) (next p) (notify p) ((waiter p + d) mod 2 ^ 32).

(** [((head >> poolIndexBits) + 1) << poolIndexBits | low] on uint64. *)
Definition updatedHead (h low : Z) : Z :=
  Z.lor (Z.shiftl (Z.shiftr h poolIndexBits + 1) poolIndexBits mod 2 ^ 64) low.

(** Flags of the Committer that [acquire] consults. *)
Record flags := mkFlags { failure : bool; closing : bool; failed : bool; stop : bool }.

(** The two calls of [pop] in [acquire]. *)
Inductive attempt := First | Second.

(** Where a thread is: the next atomic operation it will perform. *)
Inductive pc :=
| AcqFailure                                  (** failure.Load *)
| AcqClosing                                  (** closing.Load *)
| PopLoad (k : attempt)                       (** p.head.Load *)
| PopNext (k : attempt) (h : Z)               (** p.next[index].Load *)
| PopCas (k : attempt) (h n : Z)              (** p.head.CompareAndSwap *)
| AcqWait                                     (** pool.waiter.Add(1) *)
| AcqSelect                                   (** select *)
| AcqLeave (again : bool)                     (** pool.waiter.Add(^0), then loop or return *)
| PushLoad (index : Z)                        (** p.head.Load *)
| PushStore (index h : Z)                     (** p.next[index].Store *)
| PushCas (index h : Z)                       (** p.head.CompareAndSwap *)
| PushWaiter                                  (** p.waiter.Load *)
| PushNotify.                                 (** send on p.notify, or default *)

Inductive event := Tau | Popped (i : Z) | PopEmpty | Pushed (i : Z) | IndexPanic.

(** One atomic step of a thread: the outcomes it may have.  [None] in place of
    the program counter is a return.  An empty list is a blocked [select]. *)
Definition outcome : Type := indexPool * option pc * event.

Definition pc_step (f : flags) (p : indexPool) (c : pc) : list outcome :=
  match c with
  | AcqFailure => if failure f then [(p, None, Tau)] else [(p, Some AcqClosing, Tau)]
  | AcqClosing => if closing f then [(p, None, Tau)] else [(p, Some (PopLoad First), Tau)]
  | PopLoad k =>
      let h := head p in
      if Z.land h poolIndexMask =? 0 then
        [(p, Some (match k with First => AcqWait | Second => AcqSelect end), PopEmpty)]
      else [(p, Some (PopNext k h), Tau)]
  | PopNext k h =>
      match next p !! Z.to_nat (Z.land h poolIndexMask - 1) with
      | None => [(p, None, IndexPanic)]
      | Some n => [(p, Some (PopCas k h n), Tau)]
      end
  | PopCas k h n =>
      if head p =? h then
        [(setHead (updatedHead h n) p,
          match k with First => None | Second => Some (AcqLeave false) end,
          Popped (Z.land h poolIndexMask - 1))]
      else [(p, Some (PopLoad k), Tau)]
  | AcqWait => [(waiterAdd 1 p, Some (PopLoad Second), Tau)]
  | AcqSelect =>
      (if notify p then [(setNotify false p, Some (AcqLeave true), Tau)] else []) ++
      (if failed f then [(p, Some (AcqLeave false), Tau)] else []) ++
      (if stop f then [(p, Some (AcqLeave false), Tau)] else [])
  | AcqLeave again => [(waiterAdd (2 ^ 32 - 1) p, if again then Some AcqFailure else None, Tau)]
  | PushLoad i => [(p, Some (PushStore i (head p)), Tau)]
  | PushStore i h =>
      if (0 <=? i) && (i <? Z.of_nat (length (next p))) then
        [(setNext (<[Z.to_nat i := Z.land h poolIndexMask]> (next p)) p, Some (PushCas i h), Tau)]
      else [(p, None, IndexPanic)]
  | PushCas i h =>
      if head p =? h then
        [(setHead (updatedHead h (i + 1)) p,
          if Z.land h poolIndexMask =? 0 then Some PushWaiter else None, Pushed i)]
      else [(p, Some (PushLoad i), Tau)]
  | PushWaiter => if waiter p =? 0 then [(p, None, Tau)] else [(p, Some PushNotify, Tau)]
  | PushNotify => [(setNotify true p, None, Tau)]
  end.

(** [push] and [pop] as their own thread runs them when no other thread touches
    the pool: construction, and the single-threaded reading of the operations. *)
Definition push (i : Z) (p : indexPool) : indexPool :=
  let h := head p in
  let p1 := setNext (<[Z.to_nat i := Z.land h poolIndexMask]> (next p)) p in
  let p2 := setHead (updatedHead h (i + 1)) p1 in
  if (Z.land h poolIndexMask =? 0) && negb (waiter p2 =? 0) then setNotify true p2 else p2.

Definition pop (p : indexPool) : option Z * indexPool :=
  let h := head p in
  if Z.land h poolIndexMask =? 0 then (None, p)
  else match next p !! Z.to_nat (Z.land h poolIndexMask - 1) with
  | None => (None, p)
  | Some n => (Some (Z.land h poolIndexMask - 1), setHead (updatedHead h n) p)
  end.

Definition newIndexPool (count : nat) : indexPool :=
  foldr (fun i p => push (Z.of_nat i) p) (mkPool 0 (replicate count 0) false 0) (seq 0 count).

(** ** The concurrent system

    [owned] are the indexes held by clients: [push] may be called only with one
    of them, from any thread; [consumers] are the threads that call [acquire].
    [ops] counts the successful compare-and-swaps since the pool was empty. *)
Record system := mkSys {
  pool : indexPool; env : flags; threads : gmap nat pc; owned : gset Z; ops : Z }.

Definition owned_after (e : event) (o : gset Z) : gset Z :=
  match e with Popped i => {[i]} ∪ o | _ => o end.
Definition ops_after (e : event) (n : Z) : Z :=
  match e with Popped _ | Pushed _ => n + 1 | _ => n end.

Inductive step (consumers : gset nat) : system -> event -> system -> Prop :=
| StepThread p f ts o n t c p' oc e :
    ts !! t = Some c -> (p', oc, e) ∈ pc_step f p c ->
    step consumers (mkSys p f ts o n) e
      (mkSys p' f (partial_alter (fun _ => oc) t ts) (owned_after e o) (ops_after e n))
| StepAcquire p f ts o n t :
    ts !! t = None -> t ∈ consumers ->
    step consumers (mkSys p f ts o n) Tau (mkSys p f (<[t := AcqFailure]> ts) o n)
| StepPush p f ts o n t i :
    ts !! t = None -> i ∈ o ->
    step consumers (mkSys p f ts o n) Tau (mkSys p f (<[t := PushLoad i]> ts) (o ∖ {[i]}) n)
| StepFlags p f f' ts o n :
    step consumers (mkSys p f ts o n) Tau (mkSys p f' ts o n).

Inductive exec (consumers : gset nat) : system -> list event -> system -> Prop :=
| ExecNil s : exec consumers s [] s
| ExecSnoc s tr s1 e s2 : exec consumers s tr s1 -> step consumers s1 e s2 -> exec consumers s (tr ++ [e]) s2.

Definition initial (count : nat) : system :=
  mkSys (newIndexPool count) (mkFlags false false false false) ∅ ∅ (Z.of_nat count).

(** The specification: an atomic stack. *)
Definition stack_step (e : event) (l : list Z) : option (list Z) :=
  match e with
  | Tau => Some l
  | Popped i => match l with j :: l' => if j =? i then Some l' else None | [] => None end
  | PopEmpty => match l with [] => Some [] | _ => None end
  | Pushed i => Some (i :: l)
  | IndexPanic => None
  end.

Fixpoint stack_run (tr : list event) (l : list Z) : option (list Z) :=
  match tr with [] => Some l | e :: tr => l' ← stack_step e l; stack_run tr l' end.

(** ** Head words *)

Lemma land_mask h : 0 <= h -> Z.land h poolIndexMask = h mod 2 ^ 17.
Proof. intros. unfold poolIndexMask. rewrite <- Z.land_ones by lia. done. Qed.

Lemma head_split h : 0 <= h -> h = Z.shiftr h poolIndexBits * 2 ^ 17 + Z.land h poolIndexMask.
Proof. intros. rewrite land_mask, Z.shiftr_div_pow2 by done. unfold poolIndexBits. dlia. Qed.

Lemma mask_range h : 0 <= h -> 0 <= Z.land h poolIndexMask < 2 ^ 17.
Proof. intros. rewrite land_mask by done. by apply Z.mod_pos_bound. Qed.

Lemma lor_low a x : 0 <= x < 2 ^ 17 -> Z.lor (a * 2 ^ 17) x = a * 2 ^ 17 + x.
Proof.
  intros H. rewrite <- Z.lxor_lor, <- Z.add_nocarry_lxor; [done|..]; apply Z.bits_inj'; intros i Hi;
    rewrite Z.land_spec, Z.bits_0, <- (Z.mod_small x (2 ^ 17)) by done;
    (destruct (decide (i < 17)); [by rewrite (Z.mul_pow2_bits_low a 17) by lia|]);
    rewrite Z.mod_pow2_bits_high by lia; apply andb_false_r.
Qed.

Lemma updatedHead_eq h low :
  0 <= h -> Z.shiftr h poolIndexBits + 1 < 2 ^ 47 -> 0 <= low < 2 ^ 17 ->
  updatedHead h low = (Z.shiftr h poolIndexBits + 1) * 2 ^ 17 + low.
Proof.
  intros Hh Hv Hl. unfold updatedHead. assert (0 <= Z.shiftr h poolIndexBits) by (by apply Z.shiftr_nonneg).
  rewrite Z.shiftl_mul_pow2, Z.mod_small by (unfold poolIndexBits in *; lia). by apply lor_low.
Qed.

Lemma updatedHead_parts h low :
  0 <= h -> Z.shiftr h poolIndexBits + 1 < 2 ^ 47 -> 0 <= low < 2 ^ 17 ->
  0 <= updatedHead h low /\ Z.shiftr (updatedHead h low) poolIndexBits = Z.shiftr h poolIndexBits + 1 /\
  Z.land (updatedHead h low) poolIndexMask = low.
Proof.
  intros Hh Hv Hl. rewrite updatedHead_eq by done.
  assert (V : 0 <= Z.shiftr h poolIndexBits) by (by apply Z.shiftr_nonneg).
  revert V Hv. generalize (Z.shiftr h poolIndexBits). intros v V Hv. split; [lia|].
  rewrite Z.shiftr_div_pow2, land_mask by (unfold poolIndexBits; lia). unfold poolIndexBits.
  split; [rewrite Z.div_add_l, (Z.div_small low) by lia; lia|].
  rewrite Z.add_comm, Z.mod_add, Z.mod_small by lia. done.
Qed.

(** ** Invariant *)

(** The index a thread is pushing and has not published yet. *)
Definition pushing (c : pc) : option Z :=
  match c with PushLoad i | PushStore i _ | PushCas i _ => Some i | _ => None end.
Definition pushing_at (ts : gmap nat pc) (t : nat) : option Z := ts !! t ≫= pushing.

(** The free list: [code] is zero or the first index plus one, and [next] links
    the rest. *)
Fixpoint chain (nx : list Z) (code : Z) (l : list Z) : Prop :=
  match l with
  | [] => code = 0
  | i :: l' => 0 <= i /\ code = i + 1 /\ exists c, nx !! Z.to_nat i = Some c /\ chain nx c l'
  end.

Record pool_ok (count : nat) (l : list Z) (p : indexPool) (n : Z) : Prop := {
  pool_count : Z.of_nat count < 2 ^ 17;
  pool_chain : chain (next p) (Z.land (head p) poolIndexMask) l;
  pool_length : length (next p) = count;
  pool_next : Forall (fun x => 0 <= x <= Z.of_nat count) (next p);
  pool_head : 0 <= head p;
  pool_version : Z.shiftr (head p) poolIndexBits = n;
}.

(** Every index is in exactly one place: free, owned by a client, or held by one
    pushing thread. *)
Record shared_ok (count : nat) (l : list Z) (holds : nat -> option Z) (o : gset Z) : Prop := {
  free_nodup : NoDup l;
  free_owned : forall i, i ∈ l -> i ∉ o;
  held_excl : forall t i, holds t = Some i -> i ∉ l /\ i ∉ o;
  held_once : forall t t' i, holds t = Some i -> holds t' = Some i -> t = t';
  places : forall i, 0 <= i < Z.of_nat count <-> i ∈ l \/ i ∈ o \/ exists t, holds t = Some i;
}.

(** A head word a thread has loaded is current or has an older version. *)
Definition seen (p : indexPool) (h : Z) : Prop :=
  0 <= h /\ (Z.shiftr h poolIndexBits < Z.shiftr (head p) poolIndexBits \/ h = head p).

Definition thread_ok (count : nat) (p : indexPool) (c : pc) : Prop :=
  match c with
  | PopNext _ h => seen p h /\ 0 < Z.land h poolIndexMask <= Z.of_nat count
  | PopCas _ h n => seen p h /\ 0 < Z.land h poolIndexMask <= Z.of_nat count /\ 0 <= n <= Z.of_nat count /\
      (h = head p -> next p !! Z.to_nat (Z.land h poolIndexMask - 1) = Some n)
  | PushStore _ h => seen p h /\ Z.land h poolIndexMask <= Z.of_nat count
  | PushCas i h => seen p h /\ next p !! Z.to_nat i = Some (Z.land h poolIndexMask)
  | _ => True
  end.

Record inv (count : nat) (l : list Z) (s : system) : Prop := {
  inv_pool : pool_ok count l (pool s) (ops s);
  inv_shared : shared_ok count l (pushing_at (threads s)) (owned s);
  inv_threads : map_Forall (fun _ c => thread_ok count (pool s) c) (threads s);
}.

(** ** Lemmas on the parts *)

Lemma chain_store nx code l i v : i ∉ l -> 0 <= i -> chain nx code l -> chain (<[Z.to_nat i := v]> nx) code l.
Proof.
  intros Hi H0. revert code. induction l as [|j l IH]; intros code; [done|].
  intros (Hj & Hc & c & Hn & Hl). simpl. split; [done|]. split; [done|]. exists c. split.
  - rewrite list_lookup_insert_ne; [done|]. intros E. apply Hi. apply Z2Nat.inj in E; [|lia..]. subst. constructor.
  - apply IH; [|done]. intros ?. apply Hi. by constructor.
Qed.

Lemma shared_same count l f g o : (forall t, f t = g t) -> shared_ok count l f o -> shared_ok count l g o.
Proof.
  intros E [H1 H2 H3 H4 H5]. split; [done|done|..].
  - intros t i. rewrite <- E. apply H3.
  - intros t t' i. rewrite <- !E. apply H4.
  - intros i. rewrite H5. by setoid_rewrite E.
Qed.

(** A pop moves the first free index to the clients. *)
Lemma shared_pop count l i f o : shared_ok count (i :: l) f o -> shared_ok count l f ({[i]} ∪ o).
Proof.
  intros [H1 H2 H3 H4 H5]. apply NoDup_cons in H1 as [Hi H1]. split; [done|..].
  - intros j Hj. specialize (H2 j). set_solver.
  - intros t j Hj. specialize (H3 t j Hj). set_solver.
  - done.
  - intros j. rewrite H5. set_solver.
Qed.

Definition drop_at (t : nat) (f : nat -> option Z) (t' : nat) : option Z :=
  if decide (t' = t) then None else f t'.

(** A push moves the index its thread holds to the free list. *)
Lemma shared_push count l t i f o :
  f t = Some i -> shared_ok count l f o -> shared_ok count (i :: l) (drop_at t f) o.
Proof.
  intros Ht [H1 H2 H3 H4 H5]. destruct (H3 t i Ht) as [Hl Ho]. unfold drop_at. split.
  - by constructor.
  - intros j [->|Hj]%elem_of_cons; [done | by apply H2].
  - intros t' j Hj. case_decide as E; [done|]. destruct (H3 t' j Hj). split; [|done].
    rewrite elem_of_cons. intros [->|?]; [|done]. by apply E, (H4 t' t i).
  - intros t1 t2 j Hj1 Hj2. repeat case_decide; try done. by apply (H4 t1 t2 j).
  - intros j. rewrite H5, elem_of_cons. split.
    + intros [?|[?|[t' Ht']]]; [tauto..|]. destruct (decide (t' = t)) as [->|N].
      * left. left. congruence.
      * right. right. exists t'. by case_decide.
    + intros [[->|?]|[?|[t' Ht']]]; [eauto|tauto..|]. case_decide; [done|]. eauto.
Qed.

(** A client hands an index it owns to a thread that pushes it. *)
Lemma shared_take count l t i f g o :
  f t = None -> g t = Some i -> (forall t', t' <> t -> g t' = f t') -> i ∈ o ->
  shared_ok count l f o -> shared_ok count l g (o ∖ {[i]}).
Proof.
  intros Hf Hg E Hi [H1 H2 H3 H4 H5]. split.
  - done.
  - intros j Hj. specialize (H2 j Hj). set_solver.
  - intros t' j Hj. destruct (decide (t' = t)) as [->|N].
    + rewrite Hg in Hj. injection Hj as <-. specialize (H2 i). set_solver.
    + rewrite E in Hj by done. destruct (H3 t' j Hj). set_solver.
  - intros t1 t2 j Hj1 Hj2.
    assert (forall t', t' <> t -> g t' <> Some i) as N.
    { intros t' Nt Ht'. rewrite E in Ht' by done. by destruct (H3 t' i Ht'). }
    destruct (decide (t1 = t)) as [->|N1], (decide (t2 = t)) as [->|N2]; [done|..].
    + rewrite Hg in Hj1. simplify_eq. by destruct (N t2).
    + rewrite Hg in Hj2. simplify_eq. by destruct (N t1).
    + rewrite E in Hj1, Hj2 by done. by apply (H4 t1 t2 j).
  - intros j. rewrite H5. split.
    + intros [?|[?|[t' Ht']]]; [tauto|..].
      * destruct (decide (j = i)) as [->|]; [eauto|set_solver].
      * right. right. exists t'. rewrite E; [done|]. intros ->. congruence.
    + intros [?|[?|[t' Ht']]]; [tauto|set_solver|]. destruct (decide (t' = t)) as [->|N].
      * rewrite Hg in Ht'. simplify_eq. tauto.
      * rewrite E in Ht' by done. eauto.
Qed.

Lemma thread_ok_ext count p p' c : head p' = head p -> next p' = next p -> thread_ok count p c -> thread_ok count p' c.
Proof. unfold thread_ok, seen. intros -> ->. done. Qed.

(** After a successful compare-and-swap every other thread's word is old. *)
Lemma thread_ok_cas count p h' c :
  Z.shiftr h' poolIndexBits = Z.shiftr (head p) poolIndexBits + 1 ->
  thread_ok count p c -> thread_ok count (setHead h' p) c.
Proof.
  intros V. unfold thread_ok, seen. simpl. rewrite V. destruct c as [| |?|k h|k h n| | |?|?|i h|i h| |]; try done.
  - intros ([? [?| ->]] & ?); split; auto with lia.
  - intros ([? [?| ->]] & ? & ? & ?); (split; [auto with lia|]; split; [done|]; split; [done|]; intros E; apply (f_equal (fun x => Z.shiftr x poolIndexBits)) in E; lia).
  - intros ([? [?| ->]] & ?); split; auto with lia.
  - intros ([? [?| ->]] & ?); auto with lia.
Qed.

(** The link a pushing thread writes is not one another thread relies on. *)
Lemma thread_ok_store count p i v c :
  0 <= i -> (forall j, j = Z.land (head p) poolIndexMask - 1 -> j <> i) ->
  (forall j, pushing c = Some j -> 0 <= j /\ j <> i) ->
  thread_ok count p c -> thread_ok count (setNext (<[Z.to_nat i := v]> (next p)) p) c.
Proof.
  intros Hi Hl Hc. unfold thread_ok, seen. simpl. destruct c as [| |?|k h|k h n| | |?|?|j h|j h| |]; try done.
  - intros (? & ? & ? & Hn). split; [done|]. split; [done|]. split; [done|]. intros ->.
    rewrite list_lookup_insert_ne; [by apply Hn|]. intros E. apply Z2Nat.inj in E; [|lia..]. by apply (Hl _ eq_refl).
  - intros (? & Hn). split; [done|]. destruct (Hc j eq_refl). rewrite list_lookup_insert_ne; [done|].
    intros E. apply Z2Nat.inj in E; [lia|lia..].
Qed.

Lemma pushing_alter oc t ts t' :
  pushing_at (partial_alter (fun _ => oc) t ts) t' = if decide (t' = t) then oc ≫= pushing else pushing_at ts t'.
Proof.
  unfold pushing_at. case_decide as E; [by subst; rewrite lookup_partial_alter_eq|].
  by rewrite lookup_partial_alter_ne.
Qed.

Lemma threads_alter (P : pc -> Prop) oc t (ts : gmap nat pc) :
  (forall t' c, t' <> t -> ts !! t' = Some c -> P c) -> (forall c, oc = Some c -> P c) ->
  map_Forall (fun _ => P) (partial_alter (fun _ => oc) t ts).
Proof.
  intros H1 H2 t' c. destruct (decide (t' = t)) as [->|N].
  - rewrite lookup_partial_alter_eq. apply H2.
  - rewrite lookup_partial_alter_ne by done. by apply H1.
Qed.

(** Steps that change neither the head nor a link. *)
Lemma inv_quiet count l p p' f ts o n t c oc :
  inv count l (mkSys p f ts o n) -> ts !! t = Some c -> head p' = head p -> next p' = next p ->
  oc ≫= pushing = pushing c -> (forall c', oc = Some c' -> thread_ok count p c') ->
  inv count l (mkSys p' f (partial_alter (fun _ => oc) t ts) o n).
Proof.
  intros [Hp Hs Ht] Hc Eh En Epu Hoc. split; simpl in *.
  - destruct Hp. split; rewrite ?Eh, ?En; done.
  - eapply shared_same; [|exact Hs]. intros t'. rewrite pushing_alter. case_decide; [|done].
    subst. unfold pushing_at. by rewrite Hc.
  - apply threads_alter.
    + intros t' c' _ Hc'. eapply thread_ok_ext; [done..|]. exact (Ht _ _ Hc').
    + intros c' Hc'. eapply thread_ok_ext; [done..|]. by apply Hoc.
Qed.

(** A successful compare-and-swap of a pop. *)
Lemma inv_pop count l p f ts o n t k nx oc :
  inv count l (mkSys p f ts o n) -> n + 1 < 2 ^ 47 -> ts !! t = Some (PopCas k (head p) nx) ->
  (oc = None \/ exists b, oc = Some (AcqLeave b)) ->
  exists i l', l = i :: l' /\ i = Z.land (head p) poolIndexMask - 1 /\
    inv count l' (mkSys (setHead (updatedHead (head p) nx) p) f (partial_alter (fun _ => oc) t ts) ({[i]} ∪ o) (n + 1)).
Proof.
  intros [Hp Hs Ht] Hn Hc Hoc. simpl in *. destruct Hp as [Hcn Hch Hlen Hnx Hh Hv].
  destruct (Ht _ _ Hc) as (_ & Hcode & Hrange & Hlink). specialize (Hlink eq_refl).
  destruct l as [|i l]; simpl in Hch; [lia|]. destruct Hch as (Hi & Hci & c & Hc' & Hch).
  exists i, l. split; [done|]. split; [lia|].
  replace (Z.land (head p) poolIndexMask - 1) with i in Hlink by lia.
  assert (c = nx) as -> by congruence.
  destruct (updatedHead_parts (head p) nx) as (U1 & U2 & U3); [done|lia|lia|].
  assert (Poc : oc ≫= pushing = None) by (destruct Hoc as [->|[b ->]]; done).
  split; simpl.
  - split; simpl; [done|by rewrite U3|done|done|done|lia].
  - eapply shared_same; [|by apply shared_pop]. intros t'. rewrite pushing_alter. case_decide; [|done].
    subst. unfold pushing_at. by rewrite Hc, Poc.
  - apply threads_alter.
    + intros t' c' _ Hc'2. apply thread_ok_cas; [done|]. exact (Ht _ _ Hc'2).
    + intros c' ->. destruct Hoc as [?|[b [= ->]]]; done.
Qed.

(** A successful compare-and-swap of a push. *)
Lemma inv_push count l p f ts o n t i oc :
  inv count l (mkSys p f ts o n) -> n + 1 < 2 ^ 47 -> ts !! t = Some (PushCas i (head p)) ->
  (oc = None \/ oc = Some PushWaiter) ->
  inv count (i :: l) (mkSys (setHead (updatedHead (head p) (i + 1)) p) f (partial_alter (fun _ => oc) t ts) o (n + 1)).
Proof.
  intros [Hp Hs Ht] Hn Hc Hoc. simpl in *. destruct Hp as [Hcn Hch Hlen Hnx Hh Hv].
  destruct (Ht _ _ Hc) as (_ & Hlink).
  assert (Hhold : pushing_at ts t = Some i) by (unfold pushing_at; by rewrite Hc).
  assert (Hi : 0 <= i < Z.of_nat count) by (apply (places _ _ _ _ Hs); eauto).
  destruct (updatedHead_parts (head p) (i + 1)) as (U1 & U2 & U3); [done|lia|lia|].
  assert (Poc : oc ≫= pushing = None) by (destruct Hoc as [->| ->]; done).
  split; simpl.
  - split; simpl; [done| |done|done|done|lia]. rewrite U3. split; [lia|]. split; [done|]. eauto.
  - eapply shared_same; [|by eapply shared_push]. intros t'. rewrite pushing_alter. unfold drop_at.
    by case_decide.
  - apply threads_alter.
    + intros t' c' _ Hc'2. apply thread_ok_cas; [done|]. exact (Ht _ _ Hc'2).
    + intros c' ->. destruct Hoc as [?|[= ->]]; done.
Qed.

(** The link store of a push. *)
Lemma inv_store count l p f ts o n t i h :
  inv count l (mkSys p f ts o n) -> ts !! t = Some (PushStore i h) ->
  inv count l (mkSys (setNext (<[Z.to_nat i := Z.land h poolIndexMask]> (next p)) p) f
                (partial_alter (fun _ => Some (PushCas i h)) t ts) o n) /\ 0 <= i < Z.of_nat (length (next p)).
Proof.
  intros [Hp Hs Ht] Hc. simpl in *. destruct Hp as [Hcn Hch Hlen Hnx Hh Hv]. destruct (Ht _ _ Hc) as [Hseen Hcode].
  assert (Hhold : pushing_at ts t = Some i) by (unfold pushing_at; by rewrite Hc).
  assert (Hi : 0 <= i < Z.of_nat count) by (apply (places _ _ _ _ Hs); eauto).
  destruct (held_excl _ _ _ _ Hs t i Hhold) as [Hil Hio]. split; [|lia].
  split; simpl.
  - split; simpl; [done|by apply chain_store; [|lia|]|by rewrite length_insert| |done|done].
    apply Forall_insert; [done|]. destruct Hseen. by split; [apply mask_range|].
  - eapply shared_same; [|exact Hs]. intros t'. rewrite pushing_alter. case_decide; [|done]. by subst.
  - apply threads_alter.
    + intros t' c' Nt Hc'. apply thread_ok_store; [lia| | |exact (Ht _ _ Hc')].
      * intros j -> <-. apply Hil. destruct l as [|j l]; simpl in Hch; [|destruct Hch as (_ & -> & _)]; [lia|].
        replace (j + 1 - 1) with j by lia. constructor.
      * intros j Hj. assert (Hj' : pushing_at ts t' = Some j) by (unfold pushing_at; by rewrite Hc').
        assert (0 <= j < Z.of_nat count) by (apply (places _ _ _ _ Hs); eauto). split; [lia|].
        intros ->. by apply Nt, (held_once _ _ _ _ Hs t' t i).
    + intros c' [= <-]. simpl. split; [done|]. apply list_lookup_insert_eq. lia.
Qed.

Ltac outcomes H :=
  simpl in H; repeat case_match; set_unfold in H; destruct_or?; try done; simplify_eq/=.

Lemma code_bound count l p n f o :
  pool_ok count l p n -> shared_ok count l f o -> Z.land (head p) poolIndexMask <= Z.of_nat count.
Proof.
  intros [_ Hch _ _ _ _] Hs. destruct l as [|i l]; simpl in Hch; [lia|].
  destruct Hch as (_ & -> & _). assert (0 <= i < Z.of_nat count); [|lia].
  apply (places _ _ _ _ Hs). left. constructor.
Qed.

Lemma chain_empty nx code l : chain nx code l -> (code = 0 <-> l = []).
Proof. destruct l as [|i l]; simpl; [done|]. intros (? & -> & _). split; [lia|done]. Qed.

Lemma step_thread count l p f ts o n t c p' oc e :
  inv count l (mkSys p f ts o n) -> ts !! t = Some c -> (p', oc, e) ∈ pc_step f p c -> ops_after e n < 2 ^ 47 ->
  exists l', stack_step e l = Some l' /\
    inv count l' (mkSys p' f (partial_alter (fun _ => oc) t ts) (owned_after e o) (ops_after e n)).
Proof.
  intros I Hc Hstep Hn. pose proof I as [Hp Hs Ht]. simpl in *. pose proof (Ht _ _ Hc) as Hok.
  pose proof (code_bound _ _ _ _ _ _ Hp Hs) as Hcode. pose proof (pool_head _ _ _ _ Hp) as Hh.
  pose proof (chain_empty _ _ _ (pool_chain _ _ _ _ Hp)) as Hem. pose proof (mask_range _ Hh) as Hm.
  assert (Hcur : seen p (head p)) by (split; [done|by right]).
  destruct c as [| |k|k h|k h nx| | |b|i|i h|i h| |].
  - outcomes Hstep; exists l; (split; [done|]); eapply inv_quiet; eauto; intros ? [=]; by subst.
  - outcomes Hstep; exists l; (split; [done|]); eapply inv_quiet; eauto; intros ? [=]; by subst.
  - simpl in Hstep. destruct (Z.eqb_spec (Z.land (head p) poolIndexMask) 0) as [E|E]; apply list_elem_of_singleton in Hstep; simplify_eq/=.
    + apply Hem in E as ->. exists []. split; [done|]. eapply inv_quiet; eauto; [by destruct k|]. intros ? [= <-]. by destruct k.
    + exists l. split; [done|]. eapply inv_quiet; eauto. intros ? [= <-]. simpl. split; [done|lia].
  - destruct Hok as [Hse Hr]. simpl in Hstep.
    destruct (lookup_lt_is_Some_2 (next p) (Z.to_nat (Z.land h poolIndexMask - 1))) as [nx Hnx].
    { rewrite (pool_length _ _ _ _ Hp). lia. }
    rewrite Hnx in Hstep. apply list_elem_of_singleton in Hstep; simplify_eq/=.
    exists l. split; [done|]. eapply inv_quiet; eauto. intros ? [= <-]. simpl. split; [done|]. split; [done|].
    split; [|done]. exact (proj1 (Forall_lookup _ _) (pool_next _ _ _ _ Hp) _ _ Hnx).
  - simpl in Hstep. destruct (Z.eqb_spec (head p) h) as [E|E]; apply list_elem_of_singleton in Hstep; simplify_eq/=.
    + edestruct (inv_pop count l p f ts o n t k nx (match k with First => None | Second => Some (AcqLeave false) end))
        as (i & l' & -> & -> & I'); [done..|by destruct k; eauto|].
      exists l'. split; [by rewrite Z.eqb_refl|done].
    + exists l. split; [done|]. eapply inv_quiet; eauto. by intros ? [= <-].
  - outcomes Hstep. exists l. split; [done|]. eapply inv_quiet; eauto. by intros ? [= <-].
  - simpl in Hstep. assert (Hq : e = Tau /\ head p' = head p /\ next p' = next p /\ exists b, oc = Some (AcqLeave b)).
    { repeat case_match; set_unfold in Hstep; destruct_or?; try done; simplify_eq/=; eauto 10. }
    destruct Hq as (-> & ? & ? & b & ->). exists l. split; [done|]. eapply inv_quiet; eauto. by intros ? [= <-].
  - outcomes Hstep; exists l; (split; [done|]); eapply inv_quiet; eauto; intros ? [=]; by subst.
  - outcomes Hstep. exists l. split; [done|]. eapply inv_quiet; eauto. by intros ? [= <-].
  - destruct (inv_store count l p f ts o n t i h I Hc) as [I' Hi]. simpl in Hstep.
    case_match; [|lia]. apply list_elem_of_singleton in Hstep; simplify_eq/=. by exists l.
  - simpl in Hstep. destruct (Z.eqb_spec (head p) h) as [E|E]; apply list_elem_of_singleton in Hstep; simplify_eq/=.
    + exists (i :: l). split; [done|]. apply inv_push; try done. case_match; eauto.
    + exists l. split; [done|]. eapply inv_quiet; eauto. by intros ? [= <-].
  - outcomes Hstep; exists l; (split; [done|]); eapply inv_quiet; eauto; intros ? [=]; by subst.
  - outcomes Hstep. exists l. split; [done|]. eapply inv_quiet; eauto. by intros ? [=].
Qed.

Lemma step_sound K count l s e s' :
  inv count l s -> step K s e s' -> ops s' < 2 ^ 47 -> exists l', stack_step e l = Some l' /\ inv count l' s'.
Proof.
  intros I Hstep. destruct Hstep as [p f ts o n t c p' oc e Hc Hst|p f ts o n t Hc Ht|p f ts o n t i Hc Hi|p f f' ts o n]; simpl; intros Hn.
  - eapply step_thread; eauto.
  - exists l. split; [done|]. destruct I as [Hp Hs Hth]. simpl in *. split; simpl; [done|..].
    + eapply shared_same; [|exact Hs]. intros t'. unfold pushing_at. destruct (decide (t' = t)) as [->|].
      * by rewrite lookup_insert_eq, Hc.
      * by rewrite lookup_insert_ne.
    + by apply map_Forall_insert_2.
  - exists l. split; [done|]. destruct I as [Hp Hs Hth]. simpl in *. split; simpl; [done|..].
    + eapply (shared_take _ _ t); [| | |done|exact Hs]; unfold pushing_at.
      * by rewrite Hc.
      * by rewrite lookup_insert_eq.
      * intros t' N. by rewrite lookup_insert_ne.
    + by apply map_Forall_insert_2.
  - exists l. split; [done|]. destruct I as [Hp Hs Hth]. by split.
Qed.

Lemma step_ops K s e s' : step K s e s' -> ops s <= ops s'.
Proof. destruct 1; simpl; [destruct e; simpl|..]; lia. Qed.

(** ** Construction *)

Lemma pushed_ok count m :
  (m <= count)%nat -> Z.of_nat count < 2 ^ 17 ->
  pool_ok count (Z.of_nat <$> seq (count - m) m)
    (foldr (fun i p => push (Z.of_nat i) p) (mkPool 0 (replicate count 0) false 0) (seq (count - m) m)) (Z.of_nat m) /\
  notify (foldr (fun i p => push (Z.of_nat i) p) (mkPool 0 (replicate count 0) false 0) (seq (count - m) m)) = false /\
  waiter (foldr (fun i p => push (Z.of_nat i) p) (mkPool 0 (replicate count 0) false 0) (seq (count - m) m)) = 0.
Proof.
  intros Hm Hc. induction m as [|m IH].
  - simpl. split; [|done]. split; simpl; try done; [by rewrite length_replicate|]. apply Forall_replicate. lia.
  - destruct IH as ([_ Hch Hlen Hnx Hh Hv] & Hnf & Hw); [lia|].
    assert (Es : seq (count - S m) (S m) = (count - S m)%nat :: seq (count - m) m).
    { simpl. do 2 f_equal. lia. }
    rewrite Es. cbn [foldr fmap list_fmap]. revert Hch Hlen Hnx Hh Hv Hnf Hw.
    generalize (foldr (fun i p => push (Z.of_nat i) p) (mkPool 0 (replicate count 0) false 0) (seq (count - m) m)).
    intros p Hch Hlen Hnx Hh Hv Hnf Hw. pose proof (mask_range _ Hh) as Hr.
    set (i := (count - S m)%nat) in *.
    destruct (updatedHead_parts (head p) (Z.of_nat i + 1)) as (U1 & U2 & U3); [done|lia|lia|].
    assert (E : push (Z.of_nat i) p = setHead (updatedHead (head p) (Z.of_nat i + 1))
                 (setNext (<[i := Z.land (head p) poolIndexMask]> (next p)) p)).
    { unfold push. simpl. rewrite Hw, Nat2Z.id. simpl. by rewrite andb_false_r. }
    rewrite E. simpl. rewrite Hw, Hnf. split; [|done]. split; simpl; try done.
    + rewrite U3. split; [lia|]. split; [done|]. rewrite Nat2Z.id. exists (Z.land (head p) poolIndexMask).
      split; [apply list_lookup_insert_eq; lia|]. rewrite <- (Nat2Z.id i). apply chain_store; [|lia|done].
      intros (j & Ej & Hj)%list_elem_of_fmap. apply elem_of_seq in Hj. lia.
    + by rewrite length_insert.
    + apply Forall_insert; [done|]. split; [lia|].
      destruct (seq (count - m) m) as [|j l] eqn:Esq; simpl in Hch; [lia|]. destruct Hch as (_ & -> & _).
      assert (Hj : j ∈ seq (count - m) m) by (rewrite Esq; constructor). apply elem_of_seq in Hj. lia.
    + lia.
Qed.

Definition all_indexes (count : nat) : list Z := Z.of_nat <$> seq 0 count.

Lemma initial_inv count : Z.of_nat count < 2 ^ 17 -> inv count (all_indexes count) (initial count).
Proof.
  intros Hc. destruct (pushed_ok count count) as [Hp _]; [lia|done|]. rewrite Nat.sub_diag in Hp.
  split; [done| |by apply map_Forall_empty]. simpl. split.
  - apply NoDup_fmap_2; [apply _|]. apply NoDup_seq.
  - set_solver.
  - intros t i. unfold pushing_at. by rewrite lookup_empty.
  - intros t t' i. unfold pushing_at. by rewrite lookup_empty.
  - intros i. unfold all_indexes. rewrite list_elem_of_fmap. split.
    + intros Hi. left. exists (Z.to_nat i). rewrite elem_of_seq. lia.
    + intros [(j & -> & Hj)|[?|[t Ht]]]; [apply elem_of_seq in Hj; lia|set_solver|].
      unfold pushing_at in Ht. by rewrite lookup_empty in Ht.
Qed.

(** ** The atomic stack *)

Lemma stack_run_snoc tr e l l1 l2 :
  stack_run tr l = Some l1 -> stack_step e l1 = Some l2 -> stack_run (tr ++ [e]) l = Some l2.
Proof.
  revert l. induction tr as [|e' tr IH]; intros l H He; simpl in *.
  - injection H as ->. by rewrite He.
  - destruct (stack_step e' l) as [l'|]; [|done]. by apply IH.
Qed.

Lemma exec_inv K count tr s :
  Z.of_nat count < 2 ^ 17 -> exec K (initial count) tr s -> ops s < 2 ^ 47 ->
  exists l, stack_run tr (all_indexes count) = Some l /\ inv count l s.
Proof.
  intros Hc He. remember (initial count) as s0. induction He as [s|s tr s1 e s2 He IH Hst]; intros Hn; subst.
  - exists (all_indexes count). split; [done|]. by apply initial_inv.
  - destruct (IH eq_refl) as (l1 & R1 & I1); [pose proof (step_ops _ _ _ _ Hst); lia|].
    destruct (step_sound _ _ _ _ _ _ I1 Hst Hn) as (l2 & R2 & I2). exists l2. split; [|done].
    by eapply stack_run_snoc.
Qed.

(** C8: the lock-free index pool refines an atomic stack.  For any number of
    threads and any interleaving of their atomic steps, as long as fewer than
    2^47 pushes and pops have succeeded, the sequence of successful pushes,
    successful pops and empty pops is a history of a last-in first-out list that
    starts as 0, 1, ..., count-1; no access is out of range; and the final list
    is the one the head word and the links spell. *)
Theorem pool_linearizable (K : gset nat) (count : nat) (tr : list event) (s : system) :
  Z.of_nat count < 2 ^ 17 -> exec K (initial count) tr s -> ops s < 2 ^ 47 ->
  exists l, stack_run tr (all_indexes count) = Some l /\
    chain (next (pool s)) (Z.land (head (pool s)) poolIndexMask) l.
Proof.
  intros Hc He Hn. destruct (exec_inv _ _ _ _ Hc He Hn) as (l & R & [[_ Hch _ _ _ _] _ _]). eauto.
Qed.

(** The pool never hands out an index twice and never loses one.  At every
    point of every execution each index below count is in exactly one place
    (free, owned by a client, or held by one thread that is pushing it), and a
    pop that succeeds returns an index no client owns and no thread holds. *)
Theorem pool_exclusive (K : gset nat) (count : nat) (tr : list event) (s s' : system) (i : Z) :
  Z.of_nat count < 2 ^ 17 -> exec K (initial count) tr s -> step K s (Popped i) s' -> ops s' < 2 ^ 47 ->
  0 <= i < Z.of_nat count /\ i ∉ owned s /\ (forall t, pushing_at (threads s) t <> Some i) /\ i ∈ owned s' /\
  (forall j, 0 <= j < Z.of_nat count -> j ∉ owned s' -> (forall t, pushing_at (threads s') t <> Some j) ->
    exists l, chain (next (pool s')) (Z.land (head (pool s')) poolIndexMask) l /\ j ∈ l).
Proof.
  intros Hc He Hst Hn. pose proof (step_ops _ _ _ _ Hst).
  destruct (exec_inv _ _ _ _ Hc He) as (l & R & I); [lia|].
  destruct (step_sound _ _ _ _ _ _ I Hst Hn) as (l' & R' & I'). simpl in R'.
  destruct l as [|j l]; [done|]. destruct (Z.eqb_spec j i) as [->|]; [|done].
  pose proof (inv_shared _ _ _ I) as Hs. pose proof (inv_shared _ _ _ I') as Hs'.
  split; [apply (places _ _ _ _ Hs); left; constructor|].
  split; [apply (free_owned _ _ _ _ Hs); constructor|]. split.
  { intros t Ht. destruct (held_excl _ _ _ _ Hs t i Ht) as [N _]. apply N. constructor. }
  split; [inversion Hst; subst; simpl; set_solver|].
  intros k Hk Ho Hp. exists l'. split; [exact (pool_chain _ _ _ _ (inv_pool _ _ _ I'))|].
  apply (places _ _ _ _ Hs') in Hk as [?|[?|[t ?]]]; [done..|]. by destruct (Hp t).
Qed.

(** ** Wake-ups *)

(** Program counters of [acquire], and those between its two [waiter.Add]. *)
Definition acquiring (c : pc) : bool :=
  match c with
  | AcqFailure | AcqClosing | PopLoad _ | PopNext _ _ | PopCas _ _ _ | AcqWait | AcqSelect | AcqLeave _ => true
  | _ => false end.
Definition waiting (c : pc) : bool :=
  match c with
  | PopLoad Second | PopNext Second _ | PopCas Second _ _ | AcqSelect | AcqLeave _ => true
  | _ => false end.
Definition waiting_at (oc : option pc) : bool := match oc with Some c => waiting c | None => false end.
Definition waking (c : pc) : bool := match c with PushWaiter | PushNotify => true | _ => false end.

Definition wake_pending (s : system) : Prop :=
  notify (pool s) = true \/ exists t c, threads s !! t = Some c /\ waking c = true.

Record wake (t : nat) (s : system) : Prop := {
  wake_single : forall t' c, threads s !! t' = Some c -> t' <> t -> acquiring c = false;
  wake_count : waiter (pool s) = if waiting_at (threads s !! t) then 1 else 0;
  wake_select : threads s !! t = Some AcqSelect -> Z.land (head (pool s)) poolIndexMask <> 0 -> wake_pending s;
}.

Lemma pc_step_kind f p c p' c' e : (p', Some c', e) ∈ pc_step f p c -> acquiring c' = acquiring c.
Proof.
  destruct c as [| |[]|[]|[]| | |[]|?|?|?| |]; simpl; repeat case_match; intros Hst; set_unfold in Hst;
    destruct_or?; try done; by simplify_eq.
Qed.

Lemma pc_step_waiter f p c p' oc e :
  waiter p = (if waiting c then 1 else 0) \/ acquiring c = false -> (p', oc, e) ∈ pc_step f p c ->
  e <> IndexPanic ->
  if acquiring c then waiter p' = if waiting_at oc then 1 else 0
  else waiter p' = waiter p.
Proof.
  destruct c as [| |[]|[]|[]| | |[]|?|?|?| |]; simpl; repeat case_match; intros [W|A] Hst N; try done; set_unfold in Hst;
    destruct_or?; try done; simplify_eq/=; by rewrite ?W.
Qed.

(** What one thread does to the head: only a push makes an empty pool
    non-empty, and its thread then goes on to wake a waiter. *)
Lemma pc_step_select f p c p' oc e :
  (p', oc, e) ∈ pc_step f p c ->
  (oc = Some AcqSelect -> p' = p /\ Z.land (head p) poolIndexMask = 0) /\
  (acquiring c = false -> Z.land (head p) poolIndexMask = 0 -> Z.land (head p') poolIndexMask <> 0 -> oc = Some PushWaiter) /\
  (acquiring c = false -> notify p = true -> notify p' = true) /\
  (waking c = true -> waiter p <> 0 -> notify p' = true \/ oc = Some PushNotify).
Proof.
  destruct c as [| |[]|[]|[]| | |[]|?|?|i h| |]; simpl;
    try (repeat case_match; intros Hst; set_unfold in Hst; destruct_or?; try done; simplify_eq/=; split_and!; (done || lia || naive_solver)).
  - destruct (Z.eqb_spec (Z.land (head p) poolIndexMask) 0); intros H%list_elem_of_singleton; naive_solver.
  - destruct (Z.eqb_spec (head p) h) as [<-|]; intros H%list_elem_of_singleton; simplify_eq/=; [|naive_solver].
    destruct (Z.eqb_spec (Z.land (head p) poolIndexMask) 0); naive_solver.
Qed.

(** With one consumer the two halves of the protocol keep [wake]. *)
Lemma step_wake t count l s e s' :
  inv count l s -> wake t s -> step {[t]} s e s' -> ops s' < 2 ^ 47 -> wake t s'.
Proof.
  intros I [W0 W1 W2] Hst Hn. destruct (step_sound _ _ _ _ _ _ I Hst Hn) as (l' & R & _).
  assert (Np : e <> IndexPanic) by (by intros ->).
  destruct Hst as [p f ts o n t0 c p' oc e Hc Ho|p f ts o n t0 Hc Ht|p f ts o n t0 i Hc Hi|p f f' ts o n]; simpl in *.
  - destruct (pc_step_select _ _ _ _ _ _ Ho) as (S1 & S2 & S3 & S4). split; simpl.
    + intros t' c'. destruct (decide (t' = t0)) as [->|N].
      * rewrite lookup_partial_alter_eq. intros -> Nt. rewrite (pc_step_kind _ _ _ _ _ _ Ho). by apply (W0 t0).
      * rewrite lookup_partial_alter_ne by done. apply W0.
    + destruct (decide (t0 = t)) as [->|N].
      * rewrite lookup_partial_alter_eq. rewrite Hc in W1. simpl in W1.
        pose proof (pc_step_waiter _ _ _ _ _ _ (or_introl W1) Ho Np) as W.
        destruct (acquiring c) eqn:A; [done|]. rewrite W, W1.
        assert (waiting c = false) as -> by (destruct c; done).
        destruct oc as [c'|]; [|done]. simpl. pose proof (pc_step_kind _ _ _ _ _ _ Ho) as K. rewrite A in K.
        by destruct c'.
      * rewrite lookup_partial_alter_ne by done. rewrite <- W1.
        pose proof (W0 _ _ Hc N) as A. pose proof (pc_step_waiter _ _ _ _ _ _ (or_intror A) Ho Np) as W. by rewrite A in W.
    + destruct (decide (t0 = t)) as [->|N].
      * rewrite lookup_partial_alter_eq. intros ->. destruct (S1 eq_refl) as [-> ?]. done.
      * rewrite lookup_partial_alter_ne by done. intros Hsel Hne. pose proof (W0 _ _ Hc N) as A.
        rewrite Hsel in W1. simpl in W1.
        destruct (decide (Z.land (head p) poolIndexMask = 0)) as [E0|E0].
        -- right. exists t0, PushWaiter. simpl. rewrite lookup_partial_alter_eq. by rewrite (S2 A E0 Hne).
        -- destruct (W2 Hsel E0) as [Hno|(t' & c' & Hc' & Hw)]; [left; by apply S3|].
           simpl in Hc'. destruct (decide (t' = t0)) as [->|N'].
           ++ rewrite Hc in Hc'. injection Hc' as <-. destruct (S4 Hw) as [?| ->]; [lia|by left|].
              right. exists t0, PushNotify. simpl. by rewrite lookup_partial_alter_eq.
           ++ right. exists t', c'. simpl. by rewrite lookup_partial_alter_ne.
  - apply elem_of_singleton in Ht as ->. split; simpl.
    + intros t' c' Hc' N. rewrite lookup_insert_ne in Hc' by done. by apply (W0 t').
    + rewrite lookup_insert_eq. by rewrite Hc in W1.
    + by rewrite lookup_insert_eq.
  - assert (Hkeep : wake_pending (mkSys p f ts o n) -> wake_pending (mkSys p f (<[t0 := PushLoad i]> ts) (o ∖ {[i]}) n)).
    { intros [?|(t' & c' & Hc' & Hw)]; [by left|]. right. exists t', c'. simpl in *.
      rewrite lookup_insert_ne; [done|]. intros ->. congruence. }
    split; simpl.
    + intros t' c'. rewrite lookup_insert_Some. intros [[_ <-]|[_ ?]] N; [done|]. by apply (W0 t').
    + rewrite W1. destruct (decide (t0 = t)) as [->|]; [by rewrite lookup_insert_eq, Hc|by rewrite lookup_insert_ne].
    + rewrite lookup_insert_Some. intros [[_ ?]|[_ Hsel]] Hne; [done|]. by apply Hkeep, W2.
  - split; simpl; done.
Qed.

(** C39: no wake-up is lost.  When one thread at a time acquires, as the
    Committer's single producer does, a thread parked in the select of acquire
    while the pool holds a free index finds a token in the notification channel,
    or a pushing thread is still on its way to leave one. *)
Theorem pool_no_lost_wakeup (t count : nat) (tr : list event) (s : system) :
  Z.of_nat count < 2 ^ 17 -> exec {[t]} (initial count) tr s -> ops s < 2 ^ 47 ->
  threads s !! t = Some AcqSelect -> Z.land (head (pool s)) poolIndexMask <> 0 -> wake_pending s.
Proof.
  intros Hc He Hn. apply wake_select. revert Hn. remember (initial count) as s0.
  induction He as [s|s tr s1 e s2 He IH Hst]; intros Hn; subst.
  - destruct (pushed_ok count count) as (_ & _ & Hw); [lia|done|]. rewrite Nat.sub_diag in Hw.
    split; simpl; [intros ? ?|by rewrite lookup_empty|]; by rewrite lookup_empty.
  - pose proof (step_ops _ _ _ _ Hst). assert (Hn1 : ops s1 < 2 ^ 47) by lia.
    destruct (exec_inv _ _ _ _ Hc He Hn1) as (l & _ & I). by eapply step_wake; eauto.
Qed.

(** ** Scheduled executions

    A scheduler picks a thread and one of its outcomes, or a client action. *)
Inductive choice := Run (t : nat) (k : nat) | StartAcquire (t : nat) | StartPush (t : nat) (i : Z) | SetFlags (f : flags).

Definition sched_step (K : gset nat) (c : choice) (s : system) : option (event * system) :=
  match c with
  | Run t k =>
      pc ← threads s !! t; r ← pc_step (env s) (pool s) pc !! k;
      let '(p, oc, e) := r in
      Some (e, mkSys p (env s) (partial_alter (fun _ => oc) t (threads s)) (owned_after e (owned s)) (ops_after e (ops s)))
  | StartAcquire t =>
      if decide (threads s !! t = None /\ t ∈ K) then
        Some (Tau, mkSys (pool s) (env s) (<[t := AcqFailure]> (threads s)) (owned s) (ops s)) else None
  | StartPush t i =>
      if decide (threads s !! t = None /\ i ∈ owned s) then
        Some (Tau, mkSys (pool s) (env s) (<[t := PushLoad i]> (threads s)) (owned s ∖ {[i]}) (ops s)) else None
  | SetFlags f => Some (Tau, mkSys (pool s) f (threads s) (owned s) (ops s))
  end.

Fixpoint sched_run (K : gset nat) (cs : list choice) (tr : list event) (s : system) : option (list event * system) :=
  match cs with [] => Some (tr, s) | c :: cs => r ← sched_step K c s; sched_run K cs (tr ++ [r.1]) r.2 end.

Lemma sched_step_sound K c s e s' : sched_step K c s = Some (e, s') -> step K s e s'.
Proof.
  destruct s as [p f ts o n]. destruct c as [t k|t|t i|f']; simpl.
  - intros H. apply bind_Some in H as (pc & Hpc & H). apply bind_Some in H as ([[p' oc] e'] & Hr & H). simplify_eq/=.
    econstructor; [done|]. by apply list_elem_of_lookup_2 in Hr.
  - case_decide as H; [|done]. intros [= <- <-]. destruct H. by apply StepAcquire.
  - case_decide as H; [|done]. intros [= <- <-]. destruct H. by apply StepPush.
  - intros [= <- <-]. apply StepFlags.
Qed.

Lemma sched_exec K s0 cs tr s tr' s' : exec K s0 tr s -> sched_run K cs tr s = Some (tr', s') -> exec K s0 tr' s'.
Proof.
  revert tr s. induction cs as [|c cs IH]; intros tr s He H; simpl in H; [by simplify_eq|].
  apply bind_Some in H as ([e s1] & Hst & H). apply sched_step_sound in Hst. eapply IH; [|exact H]. by econstructor.
Qed.

(** A thread that is not disturbed runs [push] and [pop] as defined above. *)
Fixpoint run_alone (fuel : nat) (f : flags) (p : indexPool) (c : pc) : option indexPool :=
  match fuel with
  | O => None
  | S fuel => match pc_step f p c with
              | [(p', Some c', _)] => run_alone fuel f p' c' | [(p', None, _)] => Some p' | _ => None end
  end.

Lemma push_alone f p i :
  0 <= i < Z.of_nat (length (next p)) -> run_alone 5 f p (PushLoad i) = Some (push i p).
Proof.
  intros Hi. cbn [run_alone pc_step].
  assert ((0 <=? i) && (i <? Z.of_nat (length (next p))) = true) as -> by (apply andb_true_iff; rewrite Z.leb_le, Z.ltb_lt; lia).
  cbn [run_alone pc_step setNext head]. rewrite Z.eqb_refl. unfold push.
  destruct (Z.eqb_spec (Z.land (head p) poolIndexMask) 0) as [->|];
    cbn [run_alone pc_step setNext setHead waiter andb negb]; [|done].
  by destruct (waiter p =? 0).
Qed.

Lemma pop_alone f p n :
  Z.land (head p) poolIndexMask <> 0 -> next p !! Z.to_nat (Z.land (head p) poolIndexMask - 1) = Some n ->
  run_alone 3 f p (PopLoad First) = Some (pop p).2.
Proof.
  intros Hne Hn. unfold pop. cbn [run_alone pc_step].
  destruct (Z.eqb_spec (Z.land (head p) poolIndexMask) 0); [done|]. cbn [run_alone pc_step].
  rewrite Hn. cbn [run_alone pc_step]. by rewrite Z.eqb_refl.
Qed.

(** Two consumers load the same head; one pops index 0 and pushes it back, so the
    other's compare-and-swap meets the same index under a newer version, fails,
    and succeeds on its second attempt. *)
Definition race_consumers : gset nat := {[0; 1]}%nat.
Definition race : list choice :=
  [StartAcquire 0; StartAcquire 1; Run 0 0; Run 1 0; Run 0 0; Run 1 0; Run 0 0; Run 1 0; Run 0 0; Run 1 0;
   Run 0 0; StartPush 0 0; Run 0 0; Run 0 0; Run 0 0; Run 1 0; Run 1 0; Run 1 0].

Lemma sched_last K cs c e n count :
  (r ← sched_run K cs [] (initial count); r' ← sched_step K c r.2; Some (r'.1, ops r'.2)) = Some (e, n) ->
  exists tr s s', exec K (initial count) tr s /\ step K s e s' /\ ops s' = n.
Proof.
  intros H. apply bind_Some in H as ([tr s] & E & H). apply bind_Some in H as ([e' s'] & E' & H). simplify_eq/=.
  exists tr, s, s'. split; [eapply sched_exec; [constructor|exact E]|]. split; [|done]. by apply sched_step_sound in E'.
Qed.

Lemma pool_exclusive_witness : exists tr s s',
  exec race_consumers (initial 2) tr s /\ step race_consumers s (Popped 0) s' /\ 0 ∉ owned s /\ 0 ∈ owned s'.
Proof.
  destruct (sched_last race_consumers race (Run 1 0) (Popped 0) 5 2) as (tr & s & s' & He & Hst & Hn); [vm_compute; reflexivity|].
  exists tr, s, s'. split; [done|]. split; [done|].
  destruct (pool_exclusive race_consumers 2 tr s s' 0) as (_ & ? & _ & ? & _); [done..|lia|]. done.
Defined.

Lemma pool_linearizable_witness : exists tr s l,
  exec race_consumers (initial 2) tr s /\ stack_run tr (all_indexes 2) = Some l.
Proof.
  destruct (sched_last race_consumers race (Run 1 0) (Popped 0) 5 2) as (tr & s & s' & He & Hst & Hn); [vm_compute; reflexivity|].
  destruct (pool_linearizable race_consumers 2 (tr ++ [Popped 0]) s') as (l & R & _); [done|by econstructor|lia|].
  exists (tr ++ [Popped 0]), s', l. split; [by econstructor|done].
Defined.

(** One consumer parks on the empty pool of one index, which is then pushed. *)
Definition park : list choice :=
  [StartAcquire 0; Run 0 0; Run 0 0; Run 0 0; Run 0 0; Run 0 0; StartAcquire 0; Run 0 0; Run 0 0; Run 0 0; Run 0 0; Run 0 0;
   StartPush 1 0; Run 1 0; Run 1 0].

Lemma pool_no_lost_wakeup_witness : exists tr s,
  exec {[0%nat]} (initial 1) tr s /\ threads s !! 0%nat = Some AcqSelect /\ wake_pending s.
Proof.
  destruct (sched_run {[0%nat]} (park ++ [Run 1 0]) [] (initial 1)) as [[tr s]|] eqn:E; [|by vm_compute in E].
  assert (X : (fun r => (ops r.2, threads r.2 !! 0%nat, Z.land (head (pool r.2)) poolIndexMask))
    <$> sched_run {[0%nat]} (park ++ [Run 1 0]) [] (initial 1) = Some (3, Some AcqSelect, 1)) by (vm_compute; reflexivity).
  rewrite E in X. simpl in X. injection X as X1 X2 X3.
  exists tr, s. split; [eapply sched_exec; [constructor|exact E]|]. split; [done|].
  apply (pool_no_lost_wakeup 0 1 tr s); [done|eapply sched_exec; [constructor|exact E]|lia|done|lia].
Defined.

End Pool.
