(* ===== verification/Blocks.v ===== *)
(** * Blocks: the buddy allocator of the page cache

    Models internal/storeio/page_cache_blocks.go: free blocks of 2^order slots
    on intrusive doubly linked lists, one per order, inside zones of
    [zoneSlots] = 2^maxOrder slots.  An index out of range and the explicit
    panic of [remove] are [None].

    The links are proved to represent one list of block starts per order
    ([rep]); on top of it [inv] says that free and allocated blocks partition the
    slots and that no two free buddies remain unmerged.  Every operation keeps
    both, so an allocation never overlaps another and a request fails only when
    every aligned span of its size is touched by an allocated block. *)
From Stdlib Require Import ZArith Lia List Bool.
From stdpp Require Import base numbers list gmap.
From S2P Require Import Prelude.

Open Scope Z_scope.

Module Buddy.

Definition pageCacheNoBlock : Z := 2 ^ 32 - 1.

(** [order] 255 marks a slot that is not the start of a free block. *)
Record pageCacheBlockLink := mkLink { next : Z; prev : Z; order : nat }.
Definition noOrder : nat := 255.
Definition resetLink : pageCacheBlockLink := mkLink pageCacheNoBlock pageCacheNoBlock noOrder.

Record pageCacheBlocks := mkBlocks {
  heads : list Z;
  links : list pageCacheBlockLink;
  zoneSlots : Z;
  maxOrder : nat;
}.

Definition setHeads h b := mkBlocks h (links b) (zoneSlots b) (maxOrder b).
Definition setLinks l b := mkBlocks (heads b) l (zoneSlots b) (maxOrder b).

Definition size (o : nat) : Z := 2 ^ Z.of_nat o.

(** [b.links[index] = f(b.links[index])], [None] when the index is out of range. *)
Definition updLink (i : Z) (f : pageCacheBlockLink -> pageCacheBlockLink) (b : pageCacheBlocks) : option pageCacheBlocks :=
  if i <? 0 then None
  else lk ← links b !! Z.to_nat i; Some (setLinks (<[Z.to_nat i := f lk]> (links b)) b).

Definition updHead (o : nat) (v : Z) (b : pageCacheBlocks) : option pageCacheBlocks :=
  _ ← heads b !! o; Some (setHeads (<[o := v]> (heads b)) b).

Definition setPrev (p : Z) (lk : pageCacheBlockLink) := mkLink (next lk) p (order lk).
Definition setNext (n : Z) (lk : pageCacheBlockLink) := mkLink n (prev lk) (order lk).

Definition add (index : Z) (o : nat) (b : pageCacheBlocks) : option pageCacheBlocks :=
  head ← heads b !! o;
  b1 ← updLink index (fun _ => mkLink head pageCacheNoBlock o) b;
  b2 ← if negb (head =? pageCacheNoBlock) then updLink head (setPrev index) b1 else Some b1;
  updHead o index b2.

(** [link] stays a pointer into [links], so it is read again after each write. *)
Definition remove (index : Z) (o : nat) (b : pageCacheBlocks) : option pageCacheBlocks :=
  link ← (if index <? 0 then None else links b !! Z.to_nat index);
  if negb (Nat.eqb (order link) o) then None
  else
    b1 ← (if prev link =? pageCacheNoBlock then updHead o (next link) b
          else updLink (prev link) (setNext (next link)) b);
    link1 ← links b1 !! Z.to_nat index;
    b2 ← (if negb (next link1 =? pageCacheNoBlock) then updLink (next link1) (setPrev (prev link1)) b1 else Some b1);
    updLink index (fun _ => resetLink) b2.

(** [for order <= b.maxOrder && b.heads[order] == pageCacheNoBlock { order++ }]. *)
Fixpoint findOrder (fuel : nat) (o : nat) (b : pageCacheBlocks) : nat :=
  match fuel with
  | O => o
  | S fuel =>
      if (o <=? maxOrder b)%nat && (default 0 (heads b !! o) =? pageCacheNoBlock) then findOrder fuel (S o) b else o
  end.

(** [for order > want { order--; b.add(index+1<<order, order) }]; [n] is
    [order - want]. *)
Fixpoint splitDown (n want : nat) (index : Z) (b : pageCacheBlocks) : option pageCacheBlocks :=
  match n with
  | O => Some b
  | S n => b' ← add (index + size (want + n)) (want + n) b; splitDown n want index b'
  end.

Definition take (span : Z) (b : pageCacheBlocks) : option (option Z * pageCacheBlocks) :=
  if (span <=? 0) || (zoneSlots b <? span) || negb (Z.land span (span - 1) =? 0) then Some (None, b)
  else
    let want := Z.to_nat (TrailingZeros64 span) in
    let o := findOrder (S (maxOrder b)) want b in
    if (maxOrder b <? o)%nat then Some (None, b)
    else
      index ← heads b !! o;
      b1 ← remove index o b;
      b2 ← splitDown (o - want) want index b1;
      Some (Some index, b2).

(** The coalescing loop of [put]; the order grows by one in every round. *)
Fixpoint mergeUp (fuel : nat) (zoneStart zoneEnd current : Z) (o : nat) (b : pageCacheBlocks)
  : option (Z * nat * pageCacheBlocks) :=
  match fuel with
  | O => Some (current, o, b)
  | S fuel =>
      if (o <? maxOrder b)%nat then
        let buddy := zoneStart + Z.lxor (current - zoneStart) (size o) in
        if zoneEnd <=? buddy then Some (current, o, b)
        else
          lk ← links b !! Z.to_nat buddy;
          if negb (Nat.eqb (order lk) o) then Some (current, o, b)
          else b' ← remove buddy o b; mergeUp fuel zoneStart zoneEnd (Z.min current buddy) (S o) b'
      else Some (current, o, b)
  end.

Definition put (index span : Z) (b : pageCacheBlocks) : option pageCacheBlocks :=
  let o := Z.to_nat (TrailingZeros64 span) in
  let zoneStart := Z.ldiff index (zoneSlots b - 1) in
  let zoneEnd := Z.min ((zoneStart + zoneSlots b) mod 2 ^ 32) (Z.of_nat (length (links b))) in
  r ← mergeUp (maxOrder b) zoneStart zoneEnd index o b;
  let '(current, o', b') := r in add current o' b'.

(** The greedy decomposition of one zone: [remaining] loses its highest power
    of two in every round. *)
Fixpoint fillZone (fuel : nat) (start remaining : Z) (b : pageCacheBlocks) : option (Z * pageCacheBlocks) :=
  match fuel with
  | O => Some (start, b)
  | S fuel =>
      if remaining =? 0 then Some (start, b)
      else
        let o := Z.to_nat (Z.log2 remaining) in
        b' ← add start o b; fillZone fuel (start + size o) (remaining - size o) b'
  end.

Fixpoint fillZones (fuel : nat) (start slots maxSpan : Z) (b : pageCacheBlocks) : option pageCacheBlocks :=
  match fuel with
  | O => Some b
  | S fuel =>
      if start <? slots then
        r ← fillZone 64 start (Z.min maxSpan (slots - start)) b;
        fillZones fuel r.1 slots maxSpan r.2
      else Some b
  end.

Definition newPageCacheBlocks (slots maxSpan : Z) : option pageCacheBlocks :=
  let maxO := Z.to_nat (TrailingZeros64 maxSpan) in
  fillZones (Z.to_nat slots) 0 slots maxSpan
    (mkBlocks (replicate (S maxO) pageCacheNoBlock) (replicate (Z.to_nat slots) resetLink) maxSpan maxO).

Example new_example :
  (b ← newPageCacheBlocks 11 4; r ← take 1 b; r2 ← take 4 r.2; b3 ← put 10 1 r2.2; Some (heads b, r.1, r2.1, heads b3))
  = Some ([10; 8; 4], Some 10, Some 4, [10; 8; 0]).
Proof. vm_compute. reflexivity. Qed.

(** ** The lists the links represent *)

Definition at_ (l : list Z) (k : nat) : Z := default pageCacheNoBlock (l !! k).
Definition prev_at (l : list Z) (k : nat) : Z := match k with O => pageCacheNoBlock | S k => at_ l k end.

Definition dll (lks : list pageCacheBlockLink) (o : nat) (l : list Z) : Prop :=
  forall k i, l !! k = Some i ->
    0 <= i < pageCacheNoBlock /\ lks !! Z.to_nat i = Some (mkLink (at_ l (S k)) (prev_at l k) o).

Record rep (b : pageCacheBlocks) (fl : list (list Z)) : Prop := {
  rep_heads : length (heads b) = S (maxOrder b);
  rep_lists : length fl = S (maxOrder b);
  rep_orders : (maxOrder b < noOrder)%nat;
  rep_slots : Z.of_nat (length (links b)) < pageCacheNoBlock;
  rep_head : forall o l, fl !! o = Some l -> heads b !! o = Some (at_ l 0);
  rep_dll : forall o l, fl !! o = Some l -> dll (links b) o l;
  rep_nodup : forall o l, fl !! o = Some l -> NoDup l;
  rep_mark : forall i lk, links b !! i = Some lk -> order lk <> noOrder ->
    exists l, fl !! order lk = Some l /\ Z.of_nat i ∈ l;
}.

Definition free (fl : list (list Z)) (i : Z) (o : nat) : Prop := exists l, fl !! o = Some l /\ i ∈ l.

(** The geometry that no operation changes. *)
Definition same_shape (b b' : pageCacheBlocks) : Prop :=
  zoneSlots b' = zoneSlots b /\ maxOrder b' = maxOrder b /\ length (links b') = length (links b).

Lemma same_shape_trans b1 b2 b3 : same_shape b1 b2 -> same_shape b2 b3 -> same_shape b1 b3.
Proof. intros (? & ? & ?) (? & ? & ?). repeat split; congruence. Qed.

Lemma updLink_ok i f b lk :
  0 <= i -> links b !! Z.to_nat i = Some lk ->
  updLink i f b = Some (setLinks (<[Z.to_nat i := f lk]> (links b)) b).
Proof. intros Hi Hl. unfold updLink. case_match; [lia|]. by rewrite Hl. Qed.

Lemma updHead_ok o v b x : heads b !! o = Some x -> updHead o v b = Some (setHeads (<[o := v]> (heads b)) b).
Proof. intros H. unfold updHead. by rewrite H. Qed.

Lemma dll_frame lks o l j lk : dll lks o l -> j ∉ (Z.to_nat <$> l) -> dll (<[j := lk]> lks) o l.
Proof.
  intros D Hj k i Hk. destruct (D k i Hk) as [Hi Hl]. split; [done|]. rewrite list_lookup_insert_ne; [done|].
  intros ->. apply Hj, list_elem_of_fmap. exists i. split; [done|]. by apply list_elem_of_lookup_2 in Hk.
Qed.

Lemma to_nat_notin j (l : list Z) : 0 <= j -> (forall i, i ∈ l -> 0 <= i) -> j ∉ l -> Z.to_nat j ∉ (Z.to_nat <$> l).
Proof.
  intros Hj Hl N (i & E & Hi)%list_elem_of_fmap. apply Z2Nat.inj in E; [by subst|done|by apply Hl].
Qed.

Lemma dll_nonneg lks o l i : dll lks o l -> i ∈ l -> 0 <= i.
Proof. intros D [k Hk]%list_elem_of_lookup. destruct (D k i Hk). lia. Qed.

Lemma free_link b fl i o : rep b fl -> free fl i o ->
  0 <= i < Z.of_nat (length (links b)) /\ (o <= maxOrder b)%nat /\
  exists lk, links b !! Z.to_nat i = Some lk /\ order lk = o.
Proof.
  intros R (l & Hl & Hi). apply list_elem_of_lookup in Hi as [k Hk].
  destruct (rep_dll _ _ R _ _ Hl k i Hk) as [Hr Hlk]. split; [|split].
  - apply lookup_lt_Some in Hlk. lia.
  - apply lookup_lt_Some in Hl. rewrite (rep_lists _ _ R) in Hl. lia.
  - eauto.
Qed.

Lemma free_order_inj b fl i o o' : rep b fl -> free fl i o -> free fl i o' -> o = o'.
Proof.
  intros R (_ & _ & lk & H & <-)%(free_link _ _ _ _ R) (_ & _ & lk' & H' & <-)%(free_link _ _ _ _ R). congruence.
Qed.

(** A slot that starts no free block carries the mark 255, and conversely. *)
Lemma not_free_mark b fl i : rep b fl -> 0 <= i < Z.of_nat (length (links b)) -> (forall o, ~ free fl i o) ->
  exists lk, links b !! Z.to_nat i = Some lk /\ order lk = noOrder.
Proof.
  intros R Hi N. destruct (lookup_lt_is_Some_2 (links b) (Z.to_nat i)) as [lk Hlk]; [lia|].
  exists lk. split; [done|]. destruct (decide (order lk = noOrder)) as [|Ne]; [done|].
  destruct (rep_mark _ _ R _ _ Hlk Ne) as (l & Hl & Hin). rewrite Z2Nat.id in Hin by lia.
  destruct (N (order lk)). by exists l.
Qed.

Lemma mark_free b fl i o lk : rep b fl -> 0 <= i -> (o <= maxOrder b)%nat -> links b !! Z.to_nat i = Some lk ->
  (order lk = o <-> free fl i o).
Proof.
  intros R Hi Ho Hlk. split.
  - intros E. assert (order lk <> noOrder) by (pose proof (rep_orders _ _ R); lia).
    destruct (rep_mark _ _ R _ _ Hlk) as (l & Hl & Hin); [done|]. rewrite Z2Nat.id in Hin by done. exists l. by subst.
  - intros (_ & _ & lk' & H & <-)%(free_link _ _ _ _ R). congruence.
Qed.

Lemma rep_notin b fl o l j : rep b fl -> fl !! o = Some l -> 0 <= j -> j ∉ l -> Z.to_nat j ∉ (Z.to_nat <$> l).
Proof. intros R Hl Hj N. apply to_nat_notin; [done| |done]. intros i. by eapply dll_nonneg, rep_dll. Qed.

(** The lists of the other orders do not see updates at links of this one. *)
Lemma dll_other b fl o o' l' j lk : rep b fl -> fl !! o' = Some l' -> o <> o' -> 0 <= j ->
  (free fl j o \/ forall o, ~ free fl j o) -> dll (links b) o' l' -> dll (<[Z.to_nat j := lk]> (links b)) o' l'.
Proof.
  intros R Hl N Hj Hf D. apply dll_frame; [done|]. eapply rep_notin; [done..|]. intros Hin.
  destruct Hf as [Hf|Hf]; [|by apply (Hf o'); exists l'].
  apply N, (free_order_inj b fl j); [done..|]. by exists l'.
Qed.

Lemma prev_at_cons i l k : prev_at (i :: l) (S k) = match k with O => i | S k' => at_ l k' end.
Proof. by destruct k. Qed.

(** Pushing a block in front of its list. *)
Lemma dll_cons lks o l i x :
  dll lks o l -> 0 <= i < pageCacheNoBlock -> i ∉ l -> NoDup l -> lks !! Z.to_nat i = Some x ->
  dll (match l with [] => <[Z.to_nat i := mkLink pageCacheNoBlock pageCacheNoBlock o]> lks
       | h :: _ => <[Z.to_nat h := mkLink (at_ l 1) i o]> (<[Z.to_nat i := mkLink h pageCacheNoBlock o]> lks) end) o (i :: l).
Proof.
  intros D Hi Hni Hnd Hx k j Hj. apply lookup_lt_Some in Hx as Hlt. destruct l as [|h l].
  - destruct k; simplify_eq/=. split; [done|]. by rewrite list_lookup_insert_eq.
  - destruct (D 0%nat h eq_refl) as [Hh Hlh]. apply lookup_lt_Some in Hlh as Hhlt.
    assert (Nh : Z.to_nat h <> Z.to_nat i) by (intros E; apply Z2Nat.inj in E; [|lia..]; subst; apply Hni; constructor).
    destruct k as [|k]; simpl in Hj.
    + simplify_eq. split; [done|]. rewrite list_lookup_insert_ne, list_lookup_insert_eq by done. done.
    + destruct k as [|k]; simpl in Hj.
      * simplify_eq. split; [done|]. rewrite list_lookup_insert_eq by (by rewrite length_insert). done.
      * destruct (D (S k) j Hj) as [Hjr Hlj]. split; [done|].
        assert (Hjl : j ∈ l) by (by apply list_elem_of_lookup_2 in Hj).
        apply NoDup_cons in Hnd as [Hhl _].
        rewrite !list_lookup_insert_ne; [by rewrite Hlj| |]; intros E; apply Z2Nat.inj in E; try lia; subst; [|done].
        apply Hni. by constructor.
Qed.

Lemma add_rep b fl i o l :
  rep b fl -> 0 <= i < Z.of_nat (length (links b)) -> (forall o, ~ free fl i o) -> fl !! o = Some l ->
  exists b', add i o b = Some b' /\ rep b' (<[o := i :: l]> fl) /\ same_shape b b'.
Proof.
  intros R Hi Hn Hl. pose proof R as [R1 R2 Ro R3 R4 R5 R6 R7].
  destruct (not_free_mark _ _ _ R Hi Hn) as (lk & Hlk & Hmark).
  assert (Hil : i ∉ l) by (intros ?; apply (Hn o); by exists l).
  pose proof (R5 _ _ Hl) as D. pose proof (dll_cons _ _ _ i lk D ltac:(lia) Hil (R6 _ _ Hl) Hlk) as D'.
  pose proof (lookup_lt_Some _ _ _ Hl) as Ho. rewrite R2 in Ho. pose proof (lookup_lt_Some _ _ _ Hlk) as Hil'.
  set (lks := match l with [] => <[Z.to_nat i := mkLink pageCacheNoBlock pageCacheNoBlock o]> (links b)
    | h :: _ => <[Z.to_nat h := mkLink (at_ l 1) i o]> (<[Z.to_nat i := mkLink h pageCacheNoBlock o]> (links b)) end) in *.
  assert (Hlen : length lks = length (links b)) by (unfold lks; destruct l; by rewrite ?length_insert).
  exists (mkBlocks (<[o := i]> (heads b)) lks (zoneSlots b) (maxOrder b)). split; [|split; [|done]].
  - unfold add. rewrite (R4 _ _ Hl). simpl. rewrite (updLink_ok _ _ _ lk) by (done || lia). simpl. unfold lks, at_.
    destruct l as [|h l]; simpl.
    + unfold updHead. simpl. by rewrite (R4 _ _ Hl).
    + destruct (D 0%nat h eq_refl) as [Hh Hlh]. destruct (Z.eqb_spec h pageCacheNoBlock) as [|_]; [lia|]. simpl.
      rewrite (updLink_ok _ _ _ (mkLink (at_ (h :: l) 1) pageCacheNoBlock o)); simpl.
      * unfold updHead. simpl. by rewrite (R4 _ _ Hl).
      * lia.
      * rewrite list_lookup_insert_ne; [done|]. intros E. apply Z2Nat.inj in E; [|lia..]. subst. apply Hil. constructor.
  - split; simpl; rewrite ?length_insert; try done; [lia|..].
    + intros o' l'. rewrite list_lookup_insert_Some. intros [(<- & <- & _)|[N Hl']].
      * rewrite list_lookup_insert_eq by lia. done.
      * rewrite list_lookup_insert_ne by done. by apply R4.
    + intros o' l'. rewrite list_lookup_insert_Some. intros [(<- & <- & _)|[N Hl']]; [done|].
      assert (F : dll (<[Z.to_nat i := mkLink (at_ l 0) pageCacheNoBlock o]> (links b)) o' l').
      { apply (dll_other b fl o o' l'); auto. lia. }
      unfold lks. destruct l as [|h l]; [done|]. apply dll_frame; [exact F|]. eapply rep_notin; [done|done| |].
      * destruct (D 0%nat h eq_refl). lia.
      * intros Hin. apply N, (free_order_inj b fl h); [done|..]; [|by exists l']. exists (h :: l). split; [done|constructor].
    + intros o' l'. rewrite list_lookup_insert_Some. intros [(<- & <- & _)|[N Hl']]; [|by eapply R6].
      constructor; [done|by eapply R6].
    + intros j lk' Hj Hne.
      assert (Hcase : Z.of_nat j = i \/ links b !! j = Some lk' \/ (exists h, l !! 0%nat = Some h /\ Z.of_nat j = h /\ order lk' = o)).
      { unfold lks in Hj. destruct l as [|h l]; rewrite !list_lookup_insert_Some in Hj.
        - destruct Hj as [(<- & _)|[_ ?]]; [left; lia|tauto].
        - destruct Hj as [(<- & <- & _)|[_ [(<- & _)|[_ ?]]]]; [|left; lia|tauto].
          right. right. exists h. destruct (D 0%nat h eq_refl). simpl. split; [done|]. split; [lia|done]. }
      destruct Hcase as [E|[Hold|(h & Hh & E & Eo)]].
      * assert (order lk' = o) as ->.
        { destruct (D' 0%nat i eq_refl) as [_ Hd]. rewrite <- E, Nat2Z.id in Hd. rewrite Hj in Hd. by simplify_eq. }
        exists (i :: l). rewrite list_lookup_insert_eq by lia. split; [done|]. rewrite E. constructor.
      * destruct (R7 _ _ Hold Hne) as (l' & Hl' & Hin). destruct (decide (order lk' = o)) as [Eo|N].
        -- rewrite Eo in *. exists (i :: l). rewrite list_lookup_insert_eq by lia. split; [done|]. simplify_eq. by constructor.
        -- exists l'. by rewrite list_lookup_insert_ne.
      * exists (i :: l). rewrite Eo, list_lookup_insert_eq by lia. split; [done|]. constructor.
        rewrite E. by apply list_elem_of_lookup_2 in Hh.
Qed.

(** Unlinking the block at position [k] of its list. *)
Lemma at_delete l k j : at_ (delete k l) j = at_ l (if decide (j < k)%nat then j else S j).
Proof. unfold at_. by rewrite list_lookup_delete. Qed.

Lemma dll_delete lks o l k i :
  dll lks o l -> NoDup l -> l !! k = Some i ->
  let lks1 := match k with O => lks | S k' => <[Z.to_nat (at_ l k') := mkLink (at_ l (S k)) (prev_at l k') o]> lks end in
  let lks2 := match l !! S k with None => lks1 | Some n => <[Z.to_nat n := mkLink (at_ l (S (S k))) (prev_at l k) o]> lks1 end in
  forall lk, dll (<[Z.to_nat i := lk]> lks2) o (delete k l).
Proof.
  intros D Hnd Hk lks1 lks2 lk.
  assert (Inj : forall j1 j2 x y, l !! j1 = Some x -> l !! j2 = Some y -> j1 <> j2 -> Z.to_nat x <> Z.to_nat y).
  { intros j1 j2 x y H1 H2 N E. destruct (D _ _ H1), (D _ _ H2). apply Z2Nat.inj in E; [|lia..]. subst.
    by apply N, (NoDup_lookup l j1 j2 y). }
  assert (Pk : forall k', k = S k' -> exists p, l !! k' = Some p /\ at_ l k' = p).
  { intros k' ->. apply lookup_lt_Some in Hk. destruct (lookup_lt_is_Some_2 l k') as [p Hp]; [lia|].
    exists p. unfold at_. by rewrite Hp. }
  intros j x Hj. rewrite list_lookup_delete in Hj. set (j0 := if decide (j < k)%nat then j else S j) in *.
  assert (N0 : j0 <> k) by (unfold j0; case_decide; lia).
  destruct (D _ _ Hj) as [Hx Hlx]. split; [done|].
  rewrite list_lookup_insert_ne by (by apply (Inj k j0)).
  assert (Hin1 : lks1 !! Z.to_nat x = Some (mkLink (if decide (S j0 = k) then at_ l (S k) else at_ l (S j0)) (prev_at l j0) o)).
  { unfold lks1. destruct k as [|k'].
    - case_decide; [lia|done].
    - destruct (Pk k' eq_refl) as (p & Hp & ->). case_decide as E.
      + injection E as E. rewrite <- E in *. rewrite Hj in Hp. injection Hp as ->.
        rewrite list_lookup_insert_eq; [done|]. by apply lookup_lt_Some in Hlx.
      + rewrite list_lookup_insert_ne; [done|]. apply (Inj k' j0); [done..|lia]. }
  assert (Hin2 : lks2 !! Z.to_nat x = Some (mkLink (if decide (S j0 = k) then at_ l (S k) else at_ l (S j0))
      (if decide (j0 = S k) then prev_at l k else prev_at l j0) o)).
  { unfold lks2. destruct (l !! S k) as [n|] eqn:En.
    - case_decide as E1; case_decide as E2; try lia.
      + rewrite list_lookup_insert_ne; [by rewrite Hin1|]. apply (Inj (S k) j0); [done..|lia].
      + rewrite E2 in *. rewrite En in Hj. injection Hj as ->. rewrite list_lookup_insert_eq; [done|].
        by apply lookup_lt_Some in Hin1.
      + rewrite list_lookup_insert_ne; [by rewrite Hin1|]. apply (Inj (S k) j0); [done..|lia].
    - destruct (decide (j0 = S k)) as [E2|]; [by rewrite E2, En in Hj|]. exact Hin1. }
  rewrite Hin2. repeat f_equal.
  - rewrite at_delete. unfold j0. repeat case_decide; try lia; f_equal; lia.
  - unfold prev_at. unfold j0. destruct j as [|j].
    + repeat case_decide; try lia; try done. all: destruct k; [done|lia].
    + rewrite at_delete. repeat case_decide; try lia; try done.
      destruct k as [|k']; [lia|]. f_equal. lia.
Qed.

Lemma NoDup_delete {A} (l : list A) k x : NoDup l -> l !! k = Some x -> NoDup (delete k l) /\ x ∉ delete k l /\
  forall y, y ∈ l <-> y = x \/ y ∈ delete k l.
Proof.
  intros Hnd Hk. pose proof (delete_Permutation l k x Hk) as P. rewrite P in Hnd. apply NoDup_cons in Hnd as [? ?].
  split; [done|]. split; [done|]. intros y. by rewrite P at 1; rewrite elem_of_cons.
Qed.

(** What [remove] computes on a represented state. *)
Lemma remove_links b fl o l k i :
  rep b fl -> fl !! o = Some l -> l !! k = Some i ->
  let lks1 := match k with O => links b | S k' => <[Z.to_nat (at_ l k') := mkLink (at_ l (S k)) (prev_at l k') o]> (links b) end in
  let lks2 := match l !! S k with None => lks1 | Some n => <[Z.to_nat n := mkLink (at_ l (S (S k))) (prev_at l k) o]> lks1 end in
  remove i o b = Some (mkBlocks (match k with O => <[o := at_ l 1]> (heads b) | _ => heads b end)
    (<[Z.to_nat i := resetLink]> lks2) (zoneSlots b) (maxOrder b)).
Proof.
  intros R Hl Hk lks1 lks2. pose proof (rep_dll _ _ R _ _ Hl) as D. pose proof (rep_nodup _ _ R _ _ Hl) as Hnd.
  destruct (D _ _ Hk) as [Hi Hli]. unfold remove. case_match; [lia|]. rewrite Hli. simpl. rewrite Nat.eqb_refl. simpl.
  set (b1 := mkBlocks (match k with O => <[o := at_ l 1]> (heads b) | _ => heads b end) lks1 (zoneSlots b) (maxOrder b)).
  assert (E1 : (if prev_at l k =? pageCacheNoBlock then updHead o (at_ l (S k)) b
     else updLink (prev_at l k) (setNext (at_ l (S k))) b) = Some b1).
  { destruct k as [|k']; cbn [prev_at].
    - rewrite Z.eqb_refl. unfold updHead. by rewrite (rep_head _ _ R _ _ Hl).
    - apply lookup_lt_Some in Hk as Hlt. destruct (lookup_lt_is_Some_2 l k') as [p Hp]; [lia|].
      destruct (D _ _ Hp) as [Hpr Hlp]. assert (Ep : at_ l k' = p) by (unfold at_; by rewrite Hp).
      rewrite Ep. destruct (Z.eqb_spec p pageCacheNoBlock); [lia|].
      rewrite (updLink_ok _ _ _ _ (proj1 Hpr) Hlp). unfold b1, lks1. rewrite Ep. done. }
  rewrite E1. cbn [mbind option_bind].
  assert (L1 : forall j x, l !! j = Some x -> (k <= j)%nat -> lks1 !! Z.to_nat x = Some (mkLink (at_ l (S j)) (prev_at l j) o)).
  { intros j x Hj Hge. destruct (D _ _ Hj) as [Hx Hlx]. unfold lks1. destruct k as [|k']; [done|].
    apply lookup_lt_Some in Hk as Hlt. destruct (lookup_lt_is_Some_2 l k') as [p Hp]; [lia|].
    assert (Ep : at_ l k' = p) by (unfold at_; by rewrite Hp). rewrite Ep. destruct (D _ _ Hp).
    rewrite list_lookup_insert_ne; [done|]. intros E. apply Z2Nat.inj in E; [|lia..]. subst.
    assert (k' = j) by (by eapply NoDup_lookup). lia. }
  change (links b1) with lks1. rewrite (L1 k i Hk) by lia. cbn [mbind option_bind next prev].
  assert (E2 : (if negb (at_ l (S k) =? pageCacheNoBlock) then updLink (at_ l (S k)) (setPrev (prev_at l k)) b1 else Some b1)
     = Some (setLinks lks2 b1)).
  { unfold lks2. destruct (l !! S k) as [n|] eqn:En.
    - assert (En' : at_ l (S k) = n) by (unfold at_; by rewrite En). rewrite En'. destruct (D _ _ En) as [Hn _].
      destruct (Z.eqb_spec n pageCacheNoBlock); [lia|]. simpl.
      rewrite (updLink_ok n _ _ (mkLink (at_ l (S (S k))) (prev_at l (S k)) o)); [done|lia|].
      apply (L1 (S k)); [done|lia].
    - unfold at_. rewrite En. cbn [default from_option]. rewrite Z.eqb_refl. done. }
  rewrite E2. cbn [mbind option_bind].
  assert (Hlen : length lks2 = length (links b)).
  { unfold lks2, lks1. destruct (l !! S k), k; by rewrite ?length_insert. }
  destruct (lookup_lt_is_Some_2 lks2 (Z.to_nat i)) as [x Hx]; [rewrite Hlen; by apply lookup_lt_Some in Hli|].
  by rewrite (updLink_ok i _ _ x) by (done || lia).
Qed.

Lemma remove_rep b fl o l k i :
  rep b fl -> fl !! o = Some l -> l !! k = Some i ->
  exists b', remove i o b = Some b' /\ rep b' (<[o := delete k l]> fl) /\ same_shape b b'.
Proof.
  intros R Hl Hk. pose proof (remove_links _ _ _ _ _ _ R Hl Hk) as E. simpl in E.
  pose proof R as [R1 R2 Ro R3 R4 R5 R6 R7]. pose proof (R5 _ _ Hl) as D. pose proof (R6 _ _ Hl) as Hnd.
  pose proof (dll_delete _ _ _ _ _ D Hnd Hk) as D'. simpl in D'. specialize (D' resetLink).
  set (lks1 := match k with O => links b | S k' => _ end) in *.
  set (lks2 := match l !! S k with None => lks1 | Some n => _ end) in *.
  destruct (NoDup_delete _ _ _ Hnd Hk) as (Hnd' & Hni & Hmem). pose proof (lookup_lt_Some _ _ _ Hl) as Ho. rewrite R2 in Ho.
  assert (Hlen : length lks2 = length (links b)).
  { unfold lks2, lks1. destruct (l !! S k), k; by rewrite ?length_insert. }
  eexists. split; [exact E|]. split; [|split; [done|]; split; [done|]; simpl; by rewrite length_insert].
  assert (At : forall j x, l !! j = Some x -> free fl x o /\ at_ l j = x).
  { intros j x Hj. unfold at_. rewrite Hj. split; [|done]. exists l. split; [done|]. by apply list_elem_of_lookup_2 in Hj. }
  assert (Frame : forall o' l', fl !! o' = Some l' -> o <> o' -> dll (<[Z.to_nat i := resetLink]> lks2) o' l').
  { intros o' l' Hl' N.
    assert (Nin : forall j x, l !! j = Some x -> Z.to_nat x ∉ (Z.to_nat <$> l')).
    { intros j x Hj. destruct (D _ _ Hj). eapply rep_notin; [done|done|lia|]. intros Hin.
      apply N, (free_order_inj b fl x); [done|by apply (At j)|by exists l']. }
    apply dll_frame; [|by eapply Nin]. unfold lks2.
    assert (dll lks1 o' l').
    { unfold lks1. destruct k as [|k']; [by apply R5|]. apply dll_frame; [by apply R5|].
      apply lookup_lt_Some in Hk as Hlt. destruct (lookup_lt_is_Some_2 l k') as [p Hp]; [lia|].
      rewrite (proj2 (At _ _ Hp)). by eapply Nin. }
    destruct (l !! S k) as [n|] eqn:En; [|done]. apply dll_frame; [done|]. by eapply Nin. }
  split; cbn [heads links zoneSlots maxOrder]; rewrite ?length_insert; try done.
  - by destruct k; rewrite ?length_insert.
  - lia.
  - intros o' l'. rewrite list_lookup_insert_Some. intros [(<- & <- & _)|[N Hl']].
    + destruct k as [|k']; [by rewrite list_lookup_insert_eq, at_delete by lia|]. rewrite (R4 _ _ Hl), at_delete.
      case_decide; [done|lia].
    + destruct k; [|by apply R4]. rewrite list_lookup_insert_ne by done. by apply R4.
  - intros o' l'. rewrite list_lookup_insert_Some. intros [(<- & <- & _)|[N Hl']]; [done|by apply Frame].
  - intros o' l'. rewrite list_lookup_insert_Some. intros [(<- & <- & _)|[N Hl']]; [done|by eapply R6].
  - intros j lk Hj Hne. destruct (D _ _ Hk) as [Hi Hli]. apply list_lookup_insert_Some in Hj as [(_ & <- & _)|[Nj Hj]]; [done|].
    assert (Hold : exists lk0, links b !! j = Some lk0 /\ order lk0 = order lk).
    { assert (H1 : exists lk0, lks1 !! j = Some lk0 /\ order lk0 = order lk).
      { unfold lks2 in Hj. destruct (l !! S k) as [n|] eqn:En; [|by eauto].
        apply list_lookup_insert_Some in Hj as [(<- & <- & _)|[_ ?]]; [|by eauto].
        destruct (D _ _ En) as [_ Hn]. assert (Hn' : (Z.to_nat n < length lks1)%nat).
        { apply lookup_lt_Some in Hn. unfold lks1. destruct k; by rewrite ?length_insert. }
        destruct (lookup_lt_is_Some_2 _ _ Hn') as [x Hx]. exists x. split; [done|]. simpl.
        unfold lks1 in Hx. destruct k as [|k']; [rewrite Hn in Hx; by simplify_eq|].
        apply list_lookup_insert_Some in Hx as [(_ & <- & _)|[_ Hx]]; [done|]. rewrite Hn in Hx. by simplify_eq. }
      destruct H1 as (lk0 & H1 & E1). unfold lks1 in H1. destruct k as [|k']; [by eauto|].
      apply list_lookup_insert_Some in H1 as [(<- & <- & _)|[_ ?]]; [|by eauto].
      apply lookup_lt_Some in Hk as Hlt. destruct (lookup_lt_is_Some_2 l k') as [p Hp]; [lia|].
      rewrite (proj2 (At _ _ Hp)). destruct (D _ _ Hp) as [_ Hlp]. eexists. split; [exact Hlp|done]. }
    destruct Hold as (lk0 & Hlk0 & Eo). rewrite <- Eo in *. destruct (R7 _ _ Hlk0 Hne) as (l' & Hl' & Hin).
    destruct (decide (o = order lk0)) as [->|N].
    + rewrite list_lookup_insert_eq by lia. eexists. split; [done|]. simplify_eq. apply Hmem in Hin as [E'|]; [|done].
      subst. by rewrite Nat2Z.id in Nj.
    + exists l'. by rewrite list_lookup_insert_ne.
Qed.

Lemma free_add fl o l i j p : fl !! o = Some l -> free (<[o := i :: l]> fl) j p <-> (j = i /\ p = o) \/ free fl j p.
Proof.
  intros Hl. pose proof (lookup_lt_Some _ _ _ Hl). unfold free. split.
  - intros (l' & Hl' & Hj). apply list_lookup_insert_Some in Hl' as [(<- & <- & _)|[N Hl']]; [|by eauto].
    apply elem_of_cons in Hj as [->|]; eauto.
  - intros [[-> ->]|(l' & Hl' & Hj)].
    + exists (i :: l). rewrite list_lookup_insert_eq by done. split; [done|constructor].
    + destruct (decide (o = p)) as [->|].
      * exists (i :: l). rewrite list_lookup_insert_eq by done. split; [done|]. simplify_eq. by constructor.
      * exists l'. by rewrite list_lookup_insert_ne.
Qed.

Lemma free_remove fl o l k i j p : fl !! o = Some l -> l !! k = Some i -> NoDup l ->
  free (<[o := delete k l]> fl) j p <-> free fl j p /\ ~ (j = i /\ p = o).
Proof.
  intros Hl Hk Hnd. pose proof (lookup_lt_Some _ _ _ Hl). destruct (NoDup_delete _ _ _ Hnd Hk) as (_ & Hni & Hmem).
  unfold free. split.
  - intros (l' & Hl' & Hj). apply list_lookup_insert_Some in Hl' as [(<- & <- & _)|[N Hl']].
    + split; [exists l; split; [done|]; apply Hmem; tauto|]. intros [-> _]. done.
    + split; [by eauto|]. intros [_ ->]. done.
  - intros [(l' & Hl' & Hj) N]. destruct (decide (o = p)) as [->|].
    + assert (l' = l) as -> by congruence. exists (delete k l). rewrite list_lookup_insert_eq by done. split; [done|].
      apply Hmem in Hj as [->|]; [by destruct N|done].
    + exists l'. by rewrite list_lookup_insert_ne.
Qed.

(** ** Geometry: aligned blocks and buddies *)

Lemma size_pos o : 0 < size o.
Proof. unfold size. lia. Qed.
Lemma size_S o : size (S o) = 2 * size o.
Proof. unfold size. rewrite Nat2Z.inj_succ, Z.pow_succ_r; lia. Qed.
Lemma size_divide o p : (o <= p)%nat -> (size o | size p).
Proof.
  intros H. exists (2 ^ Z.of_nat (p - o)). unfold size. rewrite <- Z.pow_add_r by lia. f_equal. lia.
Qed.
Lemma size_le o p : (o <= p)%nat -> size o <= size p.
Proof. intros. unfold size. apply Z.pow_le_mono_r; lia. Qed.

Definition buddy (i : Z) (o : nat) : Z := Z.lxor i (size o).

Lemma lxor_1 q : Z.lxor q 1 = if Z.even q then q + 1 else q - 1.
Proof.
  assert (E : forall r, Z.lxor (2 * r) 1 = 2 * r + 1).
  { intros r. rewrite <- Z.add_nocarry_lxor; [done|]. apply Z.bits_inj'. intros n Hn. rewrite Z.land_spec, Z.bits_0.
    destruct (decide (n = 0)) as [->|]; [by rewrite Z.testbit_even_0|].
    rewrite (Z.bits_above_log2 1 n), andb_false_r; [done|lia|]. simpl. lia. }
  destruct (Z.even q) eqn:Eq.
  - apply Z.even_spec in Eq as [r ->]. apply E.
  - rewrite <- Z.negb_odd in Eq. apply negb_false_iff, Z.odd_spec in Eq as [r ->].
    rewrite <- (E r) at 1. rewrite Z.lxor_assoc, Z.lxor_nilpotent, Z.lxor_0_r. lia.
Qed.

Lemma buddy_spec i o : (size o | i) ->
  ((size (S o) | i) /\ buddy i o = i + size o) \/ ((size (S o) | i - size o) /\ buddy i o = i - size o).
Proof.
  intros [q ->]. unfold buddy. rewrite size_S. pose proof (size_pos o).
  assert (E : Z.lxor (q * size o) (size o) = Z.lxor q 1 * size o).
  { unfold size. replace (2 ^ Z.of_nat o) with (1 * 2 ^ Z.of_nat o) at 2 by lia.
    rewrite <- !Z.shiftl_mul_pow2 by lia. by rewrite Z.shiftl_lxor. }
  rewrite E, lxor_1. destruct (Z.even q) eqn:Eq.
  - left. apply Z.even_spec in Eq as [r ->]. split; [exists r; lia|lia].
  - right. rewrite <- Z.negb_odd in Eq. apply negb_false_iff, Z.odd_spec in Eq as [r ->]. split; [exists r; lia|lia].
Qed.

Definition inside (i : Z) (o : nat) (x : Z) : Prop := i <= x < i + size o.

(** Aligned blocks are nested or disjoint. *)
Lemma aligned_nested i o j p x : (size o | i) -> (size p | j) -> (o <= p)%nat -> inside i o x -> inside j p x ->
  j <= i /\ i + size o <= j + size p.
Proof.
  intros [a ->] [b ->] Hop [H1 H2] [H3 H4]. destruct (size_divide o p Hop) as [c Hc]. rewrite Hc in *.
  pose proof (size_pos o). assert (0 < c) by (pose proof (size_pos p); nia).
  assert (b * c < a + 1) by nia. assert (a < (b + 1) * c) by nia. nia.
Qed.

(** Free blocks [F] and allocated blocks [A] partition the slots, and no two
    free buddies are left unmerged. *)
Record geo (slots : Z) (maxO : nat) (F A : Z -> nat -> Prop) : Prop := {
  geo_ok : forall i o, F i o \/ A i o -> 0 <= i /\ (size o | i) /\ i + size o <= slots /\ (o <= maxO)%nat;
  geo_split : forall i o, F i o -> ~ A i o;
  geo_disj : forall i o j p x, F i o \/ A i o -> F j p \/ A j p -> inside i o x -> inside j p x -> i = j /\ o = p;
  geo_cover : forall x, 0 <= x < slots -> exists i o, (F i o \/ A i o) /\ inside i o x;
  geo_merged : forall i o, F i o -> (o < maxO)%nat -> ~ F (buddy i o) o;
}.

Lemma inside_start i o : inside i o i.
Proof. unfold inside. pose proof (size_pos o). lia. Qed.

Section Geo.
Context {slots : Z} {maxO : nat} {F A : Z -> nat -> Prop} (G : geo slots maxO F A).

(** A free block becomes allocated. *)
Lemma geo_take (F' A' : Z -> nat -> Prop) i o : F i o ->
  (forall j p, F' j p <-> F j p /\ ~ (j = i /\ p = o)) -> (forall j p, A' j p <-> A j p \/ (j = i /\ p = o)) ->
  geo slots maxO F' A'.
Proof.
  intros Hf HF HA. destruct G as [G1 G2 G3 G4 G5].
  assert (U : forall j p, F' j p \/ A' j p <-> F j p \/ A j p).
  { intros j p. rewrite HF, HA. split; [intros [[? _]|[?|[-> ->]]]; tauto|].
    destruct (decide (j = i)) as [->|], (decide (p = o)) as [->|]; tauto. }
  split.
  - intros j p. rewrite U. apply G1.
  - intros j p. rewrite HF, HA. intros [? ?] [?|?]; [by eapply G2|done].
  - intros j p j' p' x. rewrite !U. apply G3.
  - intros x Hx. destruct (G4 x Hx) as (j & p & ? & ?). exists j, p. by rewrite U.
  - intros j p. rewrite !HF. intros [? _] ? [? _]. by apply (G5 j p).
Qed.

(** An allocated block becomes free, when its buddy is not. *)
Lemma geo_release (F' A' : Z -> nat -> Prop) i o : A i o -> ((o < maxO)%nat -> ~ F (buddy i o) o) ->
  (forall j p, F' j p <-> (j = i /\ p = o) \/ F j p) -> (forall j p, A' j p <-> A j p /\ ~ (j = i /\ p = o)) ->
  geo slots maxO F' A'.
Proof.
  intros Ha Hb HF HA. destruct G as [G1 G2 G3 G4 G5].
  assert (U : forall j p, F' j p \/ A' j p <-> F j p \/ A j p).
  { intros j p. rewrite HF, HA. split; [intros [[[-> ->]|?]|[? _]]; tauto|].
    destruct (decide (j = i)) as [->|], (decide (p = o)) as [->|]; tauto. }
  split.
  - intros j p. rewrite U. apply G1.
  - intros j p. rewrite HF, HA. intros [[-> ->]|?] [? ?]; [tauto|by eapply G2].
  - intros j p j' p' x. rewrite !U. apply G3.
  - intros x Hx. destruct (G4 x Hx) as (j & p & ? & ?). exists j, p. by rewrite U.
  - assert (Sym : forall j, (size o | j) -> buddy (buddy j o) o = j).
    { intros j _. unfold buddy. by rewrite Z.lxor_assoc, Z.lxor_nilpotent, Z.lxor_0_r. }
    intros j p. rewrite !HF. intros [[-> ->]|Hf] Hlt [[E Eo]|Hf'].
    + destruct (G1 i o (or_intror Ha)) as (_ & Hal & _ & _). destruct (buddy_spec i o Hal) as [[_ ?]|[_ ?]]; pose proof (size_pos o); lia.
    + by apply Hb.
    + subst p. apply (Hb Hlt). rewrite <- E. rewrite Sym; [done|]. by apply (G1 j o); left.
    + by apply (G5 j p).
Qed.

(** An allocated block of order [S o] keeps its lower half and frees the other. *)
Lemma geo_halve (F' A' : Z -> nat -> Prop) i o : A i (S o) ->
  (forall j p, F' j p <-> (j = i + size o /\ p = o) \/ F j p) ->
  (forall j p, A' j p <-> (A j p /\ ~ (j = i /\ p = S o)) \/ (j = i /\ p = o)) ->
  geo slots maxO F' A'.
Proof.
  intros Ha HF HA. destruct G as [G1 G2 G3 G4 G5]. pose proof (size_pos o) as Ps. pose proof (size_S o) as Es.
  destruct (G1 i (S o) (or_intror Ha)) as (Hi & Hal & Hend & Ho).
  assert (Hal' : (size o | i)) by (etransitivity; [apply (size_divide o (S o)); lia|done]).
  assert (U : forall j p, F' j p \/ A' j p -> (j = i + size o /\ p = o) \/ (j = i /\ p = o) \/
                ((F j p \/ A j p) /\ ~ (j = i /\ p = S o))).
  { intros j p. rewrite HF, HA. intros [[?|Hf]|[[? ?]|?]]; try tauto. right. right. split; [tauto|].
    intros [-> ->]. by eapply G2. }
  assert (Old : forall j p x, (F j p \/ A j p) -> ~ (j = i /\ p = S o) -> inside j p x -> ~ inside i (S o) x).
  { intros j p x Hj N H1 H2. destruct (G3 j p i (S o) x) as [-> ->]; auto. }
  assert (Half : forall j x, j = i + size o \/ j = i -> inside j o x -> inside i (S o) x).
  { unfold inside. intros j x [->| ->]; lia. }
  split.
  - intros j p Hj. destruct (U j p Hj) as [[-> ->]|[[-> ->]|[Hj' _]]]; [| |by apply G1].
    + split; [lia|]. split; [by apply Z.divide_add_r; [|reflexivity]|]. split; lia.
    + split; [lia|]. split; [done|]. split; lia.
  - intros j p. rewrite HF, HA. intros [[E1 E2]|Hf] [[Ha' N]|[E3 E4]]; subst; try lia.
    + apply (Old (i + size o) o (i + size o)); [tauto|lia|apply inside_start|]. unfold inside. lia.
    + by eapply G2.
    + apply (Old i o i); [tauto|lia|apply inside_start|apply inside_start].
  - intros j p j' p' x Hj Hj' Hx Hx'.
    destruct (U j p Hj) as [[-> ->]|[[-> ->]|[Hj0 N0]]], (U j' p' Hj') as [[-> ->]|[[-> ->]|[Hj0' N0']]];
      try done; try (unfold inside in *; lia).
    + destruct (Old _ _ _ Hj0' N0' Hx'). eapply Half; [|done]. tauto.
    + destruct (Old _ _ _ Hj0' N0' Hx'). eapply Half; [|done]. tauto.
    + destruct (Old _ _ _ Hj0 N0 Hx). eapply Half; [|done]. tauto.
    + destruct (Old _ _ _ Hj0 N0 Hx). eapply Half; [|done]. tauto.
    + by eapply G3.
  - intros x Hx. destruct (G4 x Hx) as (j & p & Hj & Hjx).
    destruct (decide (j = i /\ p = S o)) as [[-> ->]|N].
    + destruct (decide (x < i + size o)).
      * exists i, o. rewrite HA. split; [tauto|]. unfold inside in *. lia.
      * exists (i + size o), o. rewrite HF. split; [tauto|]. unfold inside in *. lia.
    + exists j, p. rewrite HF, HA. split; [tauto|done].
  - assert (Hlow : buddy (i + size o) o = i).
    { destruct (buddy_spec (i + size o) o) as [[H1 _]|[_ ->]]; [by apply Z.divide_add_r; [|reflexivity]| |lia].
      exfalso. apply (Z.divide_add_cancel_r _ _ _ Hal) in H1. apply Z.divide_pos_le in H1; lia. }
    assert (Nlow : ~ F i o).
    { intros Hf. apply (Old i o i); [tauto|lia|apply inside_start|apply inside_start]. }
    intros j p. rewrite !HF. intros [[-> ->]|Hf] Hlt [[E Eo]|Hf'].
    + rewrite Hlow in E. lia.
    + by rewrite Hlow in Hf'.
    + subst p. apply Nlow. assert (j = i) as <-; [|done]. rewrite <- Hlow, <- E.
      unfold buddy. by rewrite Z.lxor_assoc, Z.lxor_nilpotent, Z.lxor_0_r.
    + by apply (G5 j p).
Qed.

(** Two allocated buddies are one allocated block of the next order. *)
Lemma geo_join (A' : Z -> nat -> Prop) i o : A i o -> A (buddy i o) o -> (o < maxO)%nat ->
  (forall j p, A' j p <-> (A j p /\ ~ (j = i /\ p = o) /\ ~ (j = buddy i o /\ p = o)) \/ (j = Z.min i (buddy i o) /\ p = S o)) ->
  geo slots maxO F A'.
Proof.
  intros Ha Hb Ho HA. destruct G as [G1 G2 G3 G4 G5]. pose proof (size_pos o) as Ps. pose proof (size_S o) as Es.
  destruct (G1 i o (or_intror Ha)) as (Hi & Hal & Hend & _). destruct (G1 _ o (or_intror Hb)) as (Hi' & Hal' & Hend' & _).
  set (m := Z.min i (buddy i o)) in *.
  assert (M : (size (S o) | m) /\ ((m = i /\ buddy i o = m + size o) \/ (m = buddy i o /\ i = m + size o))).
  { unfold m. destruct (buddy_spec i o Hal) as [[? E]|[? E]]; rewrite E.
    - rewrite Z.min_l by lia. split; [done|]. lia.
    - rewrite Z.min_r by lia. split; [done|]. lia. }
  destruct M as [Hm M].
  assert (Part : forall x, inside m (S o) x <-> inside i o x \/ inside (buddy i o) o x) by (unfold inside; intros x; lia).
  assert (U : forall j p, F j p \/ A' j p -> (j = m /\ p = S o) \/
     ((F j p \/ A j p) /\ ~ (j = i /\ p = o) /\ ~ (j = buddy i o /\ p = o))).
  { intros j p. rewrite HA. intros [Hf|[(? & ? & ?)|?]]; [|tauto..]. right. split; [tauto|].
    split; intros [-> ->]; by eapply G2. }
  assert (Old : forall j p x, (F j p \/ A j p) -> ~ (j = i /\ p = o) -> ~ (j = buddy i o /\ p = o) ->
     inside j p x -> ~ inside m (S o) x).
  { intros j p x Hj N1 N2 H1 H2. apply Part in H2 as [H2|H2].
    - destruct (G3 j p i o x) as [-> ->]; auto.
    - destruct (G3 j p (buddy i o) o x) as [-> ->]; auto. }
  split.
  - intros j p Hj. destruct (U j p Hj) as [[-> ->]|[Hj' _]]; [|by apply G1]. split; [lia|]. split; [done|]. lia.
  - intros j p Hf. rewrite HA. intros [(? & _)|[-> ->]]; [by eapply G2|].
    apply (Old m (S o) m); [tauto|lia|lia|apply inside_start|apply inside_start].
  - intros j p j' p' x Hj Hj' Hx Hx'.
    destruct (U j p Hj) as [[-> ->]|(Hj0 & N1 & N2)], (U j' p' Hj') as [[-> ->]|(Hj0' & N1' & N2')].
    + done.
    + by destruct (Old _ _ _ Hj0' N1' N2' Hx').
    + by destruct (Old _ _ _ Hj0 N1 N2 Hx).
    + by eapply G3.
  - intros x Hx. destruct (G4 x Hx) as (j & p & Hj & Hjx).
    destruct (decide ((j = i /\ p = o) \/ (j = buddy i o /\ p = o))) as [[[-> ->]|[-> ->]]|N].
    + exists m, (S o). rewrite HA, Part. tauto.
    + exists m, (S o). rewrite HA, Part. tauto.
    + exists j, p. rewrite HA. split; [|done]. tauto.
  - done.
Qed.

(** An aligned span of a supported size that meets no allocated block lies in
    one free block. *)
Lemma geo_found k i : (k <= maxO)%nat -> 0 <= i -> (size k | i) -> i + size k <= slots ->
  (forall j p x, A j p -> inside i k x -> ~ inside j p x) ->
  exists j p, F j p /\ (k <= p)%nat /\ forall x, inside i k x -> inside j p x.
Proof.
  destruct G as [G1 G2 G3 G4 G5]. revert i. induction k as [|k IH]; intros i Hk Hi Hal Hend Hno.
  - destruct (G4 i) as (j & p & [Hf|Ha] & Hin); [pose proof (size_pos 0); lia| |].
    + exists j, p. split; [done|]. split; [lia|]. intros x Hx. unfold inside in *. change (size 0) with 1 in *. lia.
    + by destruct (Hno j p i Ha (inside_start _ _)).
  - pose proof (size_S k) as Es. pose proof (size_pos k) as Ps.
    assert (Hal0 : (size k | i)) by (etransitivity; [apply (size_divide k (S k)); lia|done]).
    destruct (IH i) as (j1 & p1 & F1 & Hp1 & I1); [lia|lia|done|lia| |].
    { intros j p x Ha Hx. apply Hno; [done|]. unfold inside in *. lia. }
    destruct (IH (i + size k)) as (j2 & p2 & F2 & Hp2 & I2); [lia|lia|by apply Z.divide_add_r; [|reflexivity]|lia| |].
    { intros j p x Ha Hx. apply Hno; [done|]. unfold inside in *. lia. }
    assert (Big : forall j p y, F j p -> (S k <= p)%nat -> inside j p y -> inside i (S k) y -> exists j p, F j p /\ (S k <= p)%nat /\
       forall x, inside i (S k) x -> inside j p x).
    { intros j p y Hf Hp Hy Hy'. exists j, p. split; [done|]. split; [done|]. intros x Hx.
      destruct (G1 j p (or_introl Hf)) as (_ & Hjal & _ & _).
      destruct (aligned_nested i (S k) j p y Hal Hjal Hp Hy' Hy). unfold inside in *. lia. }
    assert (In1 : inside i (S k) i) by apply inside_start.
    assert (In2 : inside i (S k) (i + size k)) by (unfold inside; lia).
    destruct (decide (S k <= p1)%nat) as [|N1]; [eapply (Big j1 p1 i); eauto; apply I1, inside_start|].
    destruct (decide (S k <= p2)%nat) as [|N2]; [eapply (Big j2 p2 (i + size k)); eauto; apply I2, inside_start|].
    assert (p1 = k) as -> by lia. assert (p2 = k) as -> by lia.
    assert (j1 = i) as -> by (pose proof (I1 i (inside_start _ _)); pose proof (I1 (i + size k - 1)); unfold inside in *; lia).
    assert (j2 = i + size k) as -> by (pose proof (I2 (i + size k) (inside_start _ _)); pose proof (I2 (i + size k + size k - 1)); unfold inside in *; lia).
    exfalso. apply (G5 i k F1); [lia|]. destruct (buddy_spec i k Hal0) as [[_ ->]|[Hd _]]; [done|].
    apply (Z.divide_add_cancel_r (size (S k)) (i - size k) (size k)) in Hd; [|by replace (i - size k + size k) with i by lia].
    apply Z.divide_pos_le in Hd; lia.
Qed.
End Geo.

(** ** The allocator invariant *)

Definition slots (b : pageCacheBlocks) : Z := Z.of_nat (length (links b)).
Definition plus (A : Z -> nat -> Prop) (i : Z) (o : nat) : Z -> nat -> Prop := fun j p => A j p \/ (j = i /\ p = o).
Definition minus (A : Z -> nat -> Prop) (i : Z) (o : nat) : Z -> nat -> Prop := fun j p => A j p /\ ~ (j = i /\ p = o).

Record inv_at (b : pageCacheBlocks) (fl : list (list Z)) (A : Z -> nat -> Prop) : Prop := {
  at_rep : rep b fl;
  at_geo : geo (slots b) (maxOrder b) (free fl) A;
  at_zone : zoneSlots b = size (maxOrder b);
  at_bound : slots b + zoneSlots b < 2 ^ 32;
}.

Definition inv (b : pageCacheBlocks) (A : Z -> nat -> Prop) : Prop := exists fl, inv_at b fl A.

Lemma same_inv b b' fl A : same_shape b b' -> rep b' fl -> geo (slots b) (maxOrder b) (free fl) A ->
  zoneSlots b = size (maxOrder b) -> slots b + zoneSlots b < 2 ^ 32 -> inv_at b' fl A.
Proof. unfold slots. intros (E1 & E2 & E3) R G Z B. split; unfold slots; rewrite ?E1, ?E2, ?E3; done. Qed.

Lemma inv_remove b fl A i o :
  inv_at b fl A -> free fl i o ->
  exists b' fl', remove i o b = Some b' /\ inv_at b' fl' (plus A i o) /\ same_shape b b' /\
    (forall j p, free fl' j p <-> free fl j p /\ ~ (j = i /\ p = o)).
Proof.
  intros [R G Z B] Hf. pose proof Hf as (l & Hl & Hi). apply list_elem_of_lookup in Hi as [k Hk].
  destruct (remove_rep _ _ _ _ _ _ R Hl Hk) as (b' & E & R' & Sh).
  exists b', (<[o := delete k l]> fl). split; [done|].
  assert (Ff : forall j p, free (<[o := delete k l]> fl) j p <-> free fl j p /\ ~ (j = i /\ p = o))
    by (intros j p; exact (free_remove fl o l k i j p Hl Hk (rep_nodup _ _ R _ _ Hl))).
  split; [|done]. eapply same_inv; eauto. by eapply (geo_take G); [exact Hf|exact Ff|].
Qed.

Lemma lists_at b fl o : rep b fl -> (o <= maxOrder b)%nat -> exists l, fl !! o = Some l.
Proof. intros R Ho. apply lookup_lt_is_Some_2. rewrite (rep_lists _ _ R). lia. Qed.

(** A slot inside an allocated block starts no free block. *)
Lemma alloc_not_free b fl A i o x : inv_at b fl A -> A i o -> inside i o x -> forall p, ~ free fl x p.
Proof.
  intros [R G Z B] Ha Hx p Hf.
  destruct (geo_disj _ _ _ _ G x p i o x (or_introl Hf) (or_intror Ha) (inside_start _ _) Hx) as [-> ->].
  by apply (geo_split _ _ _ _ G i o).
Qed.

Lemma inv_release b fl A i o :
  inv_at b fl A -> A i o -> ((o < maxOrder b)%nat -> ~ free fl (buddy i o) o) ->
  exists b', add i o b = Some b' /\ inv b' (minus A i o) /\ same_shape b b'.
Proof.
  intros I Ha Hb. pose proof I as [R G Z B]. destruct (geo_ok _ _ _ _ G i o (or_intror Ha)) as (H1 & H2 & H3 & H4).
  destruct (lists_at b fl o R H4) as [l Hl]. pose proof (size_pos o).
  destruct (add_rep b fl i o l R) as (b' & E & R' & Sh); [unfold slots in *; lia| |done|].
  { by eapply (alloc_not_free b fl A i o i); [..|apply inside_start]. }
  exists b'. split; [done|]. split; [|done]. exists (<[o := i :: l]> fl). eapply same_inv; eauto.
  eapply (geo_release G); [exact Ha|done| |done]. intros j p. by apply free_add.
Qed.

Definition halve (A : Z -> nat -> Prop) (i : Z) (o : nat) : Z -> nat -> Prop := plus (minus A i (S o)) i o.

Lemma inv_halve b fl A i o :
  inv_at b fl A -> A i (S o) ->
  exists b' fl', add (i + size o) o b = Some b' /\ inv_at b' fl' (halve A i o) /\ same_shape b b'.
Proof.
  intros I Ha. pose proof I as [R G Z B]. destruct (geo_ok _ _ _ _ G _ _ (or_intror Ha)) as (H1 & H2 & H3 & H4).
  destruct (lists_at b fl o R) as [l Hl]; [lia|]. pose proof (size_pos o). pose proof (size_S o).
  destruct (add_rep b fl (i + size o) o l R) as (b' & E & R' & Sh); [unfold slots in *; lia| |done|].
  { eapply (alloc_not_free b fl A i (S o)); [done..|]. unfold inside. lia. }
  exists b', (<[o := i + size o :: l]> fl). split; [done|]. split; [|done]. eapply same_inv; eauto.
  eapply (geo_halve G); [exact Ha| |done]. intros j p. by apply free_add.
Qed.

Lemma geo_alloc_ext sl maxO F A A' : (forall j p, A' j p <-> A j p) -> geo sl maxO F A -> geo sl maxO F A'.
Proof.
  intros E [G1 G2 G3 G4 G5]. split.
  - intros i o. rewrite E. apply G1.
  - intros i o. rewrite E. apply G2.
  - intros i o j p x. rewrite !E. apply G3.
  - intros x Hx. setoid_rewrite E. by apply G4.
  - done.
Qed.

Lemma inv_at_ext b fl A A' : (forall j p, A' j p <-> A j p) -> inv_at b fl A -> inv_at b fl A'.
Proof. intros E [R G Z B]. split; try done. by eapply geo_alloc_ext. Qed.

Lemma inv_ext b A A' : (forall j p, A' j p <-> A j p) -> inv b A -> inv b A'.
Proof. intros E [fl I]. exists fl. by eapply inv_at_ext. Qed.

Lemma splitDown_spec n want i b fl A :
  inv_at b fl A -> A i (want + n)%nat ->
  exists b', splitDown n want i b = Some b' /\ inv b' (plus (minus A i (want + n)) i want) /\ same_shape b b'.
Proof.
  revert b fl A. induction n as [|n IH]; intros b fl A I Ha; simpl.
  - exists b. split; [done|]. split; [|done]. exists fl. eapply inv_at_ext; [|exact I].
    intros j p. unfold plus, minus. rewrite Nat.add_0_r in *.
    destruct (decide (j = i)) as [->|], (decide (p = want)) as [->|]; tauto.
  - rewrite Nat.add_succ_r in Ha. destruct (inv_halve b fl A i (want + n) I Ha) as (b1 & fl1 & E1 & I1 & S1).
    rewrite E1. simpl. destruct (IH b1 fl1 _ I1) as (b2 & E2 & I2 & S2); [right; done|].
    exists b2. split; [done|]. split; [|by eapply same_shape_trans]. eapply inv_ext; [|exact I2].
    destruct (geo_ok _ _ _ _ (at_geo _ _ _ I) _ _ (or_intror Ha)) as (_ & Hal & _ & _).
    assert (N : ~ A i (want + n)%nat).
    { intros Ha'. destruct (geo_disj _ _ _ _ (at_geo _ _ _ I) i (want + n) i (S (want + n)) i) as [_ ?];
        [by right|by right|apply inside_start..|]. lia. }
    intros j p. unfold plus, minus, halve, plus, minus. rewrite Nat.add_succ_r.
    destruct (decide (j = i)) as [->|]; [|tauto]. destruct (decide (p = (want + n)%nat)) as [->|]; [|tauto].
    destruct (decide (want = (want + n)%nat)); [tauto|]. split; [|tauto]. intros [[? _]|[_ ?]]; [done|lia].
Qed.

(** ** Powers of two *)

Lemma tz_size k : TrailingZeros64 (size k) = Z.of_nat k.
Proof. unfold size. rewrite <- (Z.mul_1_r (2 ^ _)), tz_shift by lia. simpl. lia. Qed.

Lemma land_even_odd a b : Z.land (2 * a) (2 * b + 1) = 2 * Z.land a b /\ Z.land (2 * a + 1) (2 * b) = 2 * Z.land a b.
Proof.
  split; apply Z.bits_inj'; intros n Hn; rewrite Z.land_spec;
    (destruct (Z.eq_dec n 0) as [->|]; [by rewrite ?Z.testbit_even_0, ?Z.testbit_odd_0|]);
    replace n with (Z.succ (n - 1)) by lia;
    rewrite ?Z.testbit_even_succ, ?Z.testbit_odd_succ, Z.land_spec by lia; done.
Qed.

Lemma pow2_test p : Z.land (Zpos p) (Zpos p - 1) = 0 -> Zpos p = 2 ^ pos_tz p.
Proof.
  induction p as [p IH|p IH|]; intros H; simpl pos_tz; [..|done].
  - exfalso. replace (Zpos p~1) with (2 * Zpos p + 1) in H by lia.
    replace (2 * Zpos p + 1 - 1) with (2 * Zpos p) in H by lia.
    rewrite (proj2 (land_even_odd _ _)), Z.land_diag in H. lia.
  - replace (Zpos p~0) with (2 * Zpos p) in * by lia.
    replace (2 * Zpos p - 1) with (2 * (Zpos p - 1) + 1) in H by lia.
    rewrite (proj1 (land_even_odd _ _)) in H. rewrite Z.pow_add_r, <- IH; [lia|lia|lia|].
    clear. induction p; simpl pos_tz; lia.
Qed.

Lemma size_land k : Z.land (size k) (size k - 1) = 0.
Proof.
  unfold size. replace (2 ^ Z.of_nat k - 1) with (Z.ones (Z.of_nat k)) by (rewrite Z.ones_equiv; lia).
  rewrite Z.land_ones, Z.mod_same by lia. done.
Qed.

(** The guard of [take] accepts exactly the supported spans. *)
Lemma span_guard b span : zoneSlots b = size (maxOrder b) ->
  (span <=? 0) || (zoneSlots b <? span) || negb (Z.land span (span - 1) =? 0) = false <->
  exists k, span = size k /\ (k <= maxOrder b)%nat.
Proof.
  intros Z0. rewrite !orb_false_iff, negb_false_iff, Z.leb_gt, Z.ltb_ge, Z.eqb_eq, Z0. split.
  - intros [[H1 H2] H3]. destruct span as [|p|p]; [lia| |lia]. apply pow2_test in H3.
    exists (Z.to_nat (pos_tz p)). assert (0 <= pos_tz p) by (clear; induction p; simpl pos_tz; lia).
    split; [unfold size; by rewrite Z2Nat.id|]. rewrite H3 in H2. unfold size in H2. apply Z.pow_le_mono_r_iff in H2; lia.
  - intros (k & -> & Hk). pose proof (size_pos k). split; [split; [lia|by apply size_le]|apply size_land].
Qed.

(** ** [take] *)

Lemma findOrder_spec b fl fuel o : rep b fl -> (maxOrder b < o + fuel)%nat ->
  let r := findOrder fuel o b in
  (o <= r)%nat /\ (forall p, (o <= p < r)%nat -> forall i, ~ free fl i p) /\
  ((r <= maxOrder b)%nat -> exists i l, fl !! r = Some (i :: l) /\ heads b !! r = Some i).
Proof.
  intros R. revert o. induction fuel as [|fuel IH]; intros o Hf; simpl.
  - split; [lia|]. split; [lia|lia].
  - destruct (Nat.leb_spec o (maxOrder b)) as [Ho|Ho]; simpl; [|split; [lia|]; split; lia].
    destruct (lists_at b fl o R Ho) as [l Hl]. rewrite (rep_head _ _ R _ _ Hl). cbn [default from_option id].
    destruct (Z.eqb_spec (at_ l 0) pageCacheNoBlock) as [E|E].
    + assert (l = []) as ->.
      { destruct l as [|i l]; [done|]. destruct (rep_dll _ _ R _ _ Hl 0%nat i eq_refl) as [? _]. unfold at_ in E. simpl in E. lia. }
      destruct (IH (S o)) as (H1 & H2 & H3); [lia|]. split; [lia|]. split; [|done].
      intros p Hp i (l' & Hl' & Hi). destruct (decide (p = o)) as [->|].
      * simplify_eq. by apply elem_of_nil in Hi.
      * apply (H2 p) with i; [lia|]. by exists l'.
    + split; [lia|]. split; [lia|]. intros _. destruct l as [|i l]; [done|]. exists i, l. split; [done|].
      by rewrite (rep_head _ _ R _ _ Hl).
Qed.

Lemma take_at b fl A k : inv_at b fl A -> (k <= maxOrder b)%nat ->
  (exists i b', take (size k) b = Some (Some i, b') /\ inv b' (plus A i k) /\ same_shape b b' /\
     exists o, (k <= o)%nat /\ free fl i o) \/
  (take (size k) b = Some (None, b) /\ forall i o, (k <= o)%nat -> ~ free fl i o).
Proof.
  intros I Hk. pose proof I as [R G Z0 B]. unfold take.
  assert (Hg : (size k <=? 0) || (zoneSlots b <? size k) || negb (Z.land (size k) (size k - 1) =? 0) = false)
    by (apply span_guard; eauto).
  rewrite Hg, tz_size, Nat2Z.id.
  destruct (findOrder_spec b fl (S (maxOrder b)) k R) as (H1 & H2 & H3); [lia|].
  set (o := findOrder (S (maxOrder b)) k b) in *. destruct (Nat.ltb_spec (maxOrder b) o) as [Ho|Ho].
  - right. split; [done|]. intros i p Hp Hf. destruct (free_link _ _ _ _ R Hf) as (_ & Hpm & _). apply (H2 p) with i; [lia|done].
  - left. destruct (H3 Ho) as (i & l & Hl & Hh). rewrite Hh. cbn [mbind option_bind].
    assert (Hf : free fl i o) by (exists (i :: l); split; [done|constructor]).
    destruct (inv_remove b fl A i o I Hf) as (b1 & fl1 & E1 & I1 & S1 & Hfl1). rewrite E1. cbn [mbind option_bind].
    destruct (splitDown_spec (o - k) k i b1 fl1 _ I1) as (b2 & E2 & I2 & S2).
    { right. split; [done|]. lia. }
    rewrite E2. cbn [mbind option_bind]. exists i, b2. split; [done|]. split; [|split; [by eapply same_shape_trans|eauto]].
    eapply inv_ext; [|exact I2]. replace (k + (o - k))%nat with o by lia.
    pose proof (geo_split _ _ _ _ G i o Hf) as N. intros j p. unfold plus, minus.
    destruct (decide (j = i)) as [->|], (decide (p = o)) as [->|]; tauto.
Qed.

(** ** [put] *)

Definition zone_of (M : nat) (zs i : Z) : Prop := (size M | zs) /\ inside zs M i.

Lemma zone_ldiff M i : zone_of M (Z.ldiff i (size M - 1)) i.
Proof.
  unfold zone_of, inside, size. replace (2 ^ Z.of_nat M - 1) with (Z.ones (Z.of_nat M)) by (rewrite Z.ones_equiv; lia).
  rewrite Z.ldiff_ones_r, Z.shiftl_mul_pow2, Z.shiftr_div_pow2 by lia. split; [by apply Z.divide_factor_r|].
  pose proof (Z.mod_pos_bound i (2 ^ Z.of_nat M)). pose proof (Z.div_mod i (2 ^ Z.of_nat M)). lia.
Qed.

Lemma zone_buddy M zs i o : zone_of M zs i -> (size o | i) -> (o < M)%nat ->
  zs + Z.lxor (i - zs) (size o) = buddy i o /\ zone_of M zs (buddy i o) /\ zone_of M zs (Z.min i (buddy i o)).
Proof.
  intros [Hz Hin] Hal Ho. pose proof (size_pos o) as Ps. pose proof (size_S o) as Es.
  assert (Hzo : (size (S o) | zs)) by (etransitivity; [apply (size_divide (S o) M); lia|done]).
  assert (Hzo' : (size o | zs)) by (etransitivity; [apply (size_divide o (S o)); lia|done]).
  assert (Hnest : forall m, (size (S o) | m) -> inside m (S o) i -> zs <= m /\ m + size (S o) <= zs + size M).
  { intros m Hm Him. eapply aligned_nested; [exact Hm|exact Hz|lia|exact Him|done]. }
  assert (Hsub : (size o | i - zs)) by (by apply Z.divide_sub_r).
  fold (buddy (i - zs) o). unfold zone_of.
  destruct (buddy_spec i o Hal) as [[H1 E1]|[H1 E1]], (buddy_spec (i - zs) o Hsub) as [[H2 E2]|[H2 E2]].
  - destruct (Hnest i H1) as [? ?]; [unfold inside; lia|]. rewrite E1, E2. unfold inside in *. rewrite Z.min_l by lia.
    split; [lia|]. repeat split; try done; lia.
  - exfalso. replace (i - zs - size o) with (i + - (zs + size o)) in H2 by lia.
    apply (Z.divide_add_cancel_r _ _ _ H1), Z.divide_opp_r, (Z.divide_add_cancel_r _ _ _ Hzo) in H2.
    apply Z.divide_pos_le in H2; lia.
  - exfalso. replace (i - size o) with ((i - zs) + (zs + - size o)) in H1 by lia.
    apply (Z.divide_add_cancel_r _ _ _ H2), (Z.divide_add_cancel_r _ _ _ Hzo), Z.divide_opp_r in H1.
    apply Z.divide_pos_le in H1; lia.
  - destruct (Hnest (i - size o) H1) as [? ?]; [unfold inside; lia|]. rewrite E1, E2. unfold inside in *. rewrite Z.min_r by lia.
    split; [lia|]. repeat split; try done; lia.
Qed.

Lemma mergeUp_spec fuel zs ze b fl A i o :
  inv_at b fl A -> A i o -> zone_of (maxOrder b) zs i -> ze = Z.min (zs + zoneSlots b) (slots b) ->
  (maxOrder b <= o + fuel)%nat ->
  exists i' o' b' fl' A', mergeUp fuel zs ze i o b = Some (i', o', b') /\ inv_at b' fl' A' /\ A' i' o' /\ same_shape b b' /\
    ((o' < maxOrder b')%nat -> ~ free fl' (buddy i' o') o') /\ (forall j p, minus A' i' o' j p <-> minus A i o j p).
Proof.
  revert b fl A i o. induction fuel as [|fuel IH]; intros b fl A i o I Ha Hz He Hf; simpl;
    pose proof I as [R G Z0 B]; destruct (geo_ok _ _ _ _ G _ _ (or_intror Ha)) as (H1 & H2 & H3 & H4).
  - exists i, o, b, fl, A. repeat (split; [done|]). split; [lia|done].
  - destruct (Nat.ltb_spec o (maxOrder b)) as [Ho|Ho].
    2: { exists i, o, b, fl, A. repeat (split; [done|]). split; [lia|done]. }
    destruct (zone_buddy _ _ _ _ Hz H2 Ho) as (Eb & Hzb & Hzm). rewrite Eb.
    assert (Stop : ~ free fl (buddy i o) o -> exists i' o' b' fl' A', Some (i, o, b) = Some (i', o', b') /\ inv_at b' fl' A' /\
      A' i' o' /\ same_shape b b' /\ ((o' < maxOrder b')%nat -> ~ free fl' (buddy i' o') o') /\
      (forall j p, minus A' i' o' j p <-> minus A i o j p)).
    { intros N. exists i, o, b, fl, A. repeat (split; [done|]). done. }
    destruct (Z.leb_spec ze (buddy i o)) as [Hge|Hlt].
    { apply Stop. intros Hf'. destruct (geo_ok _ _ _ _ G _ _ (or_introl Hf')) as (_ & _ & H5 & _).
      pose proof (size_pos o). destruct Hzb as [_ Hib]. unfold inside in Hib. rewrite Z0 in *. lia. }
    assert (Hnn : 0 <= buddy i o).
    { unfold buddy. apply Z.lxor_nonneg. pose proof (size_pos o). lia. }
    destruct (lookup_lt_is_Some_2 (links b) (Z.to_nat (buddy i o))) as [lk Hlk]; [unfold slots in *; lia|].
    rewrite Hlk. cbn [mbind option_bind]. pose proof (mark_free b fl (buddy i o) o lk R Hnn H4 Hlk) as Hm.
    destruct (Nat.eqb_spec (order lk) o) as [Eo|No]; cbn [negb]; [|apply Stop; by rewrite <- Hm].
    apply Hm in Eo. destruct (inv_remove b fl A _ _ I Eo) as (b1 & fl1 & E1 & I1 & S1 & _). rewrite E1. cbn [mbind option_bind].
    pose proof S1 as (Sz & Sm & Sl).
    set (A1 := plus A (buddy i o) o) in *.
    set (A2 := fun j p => (A1 j p /\ ~ (j = i /\ p = o) /\ ~ (j = buddy i o /\ p = o)) \/ (j = Z.min i (buddy i o) /\ p = S o)).
    assert (I2 : inv_at b1 fl1 A2).
    { destruct I1 as [R1 G1 Z1 B1]. split; try done. eapply (geo_join G1); [left; exact Ha|by right|rewrite Sm; done|done]. }
    destruct (IH b1 fl1 A2 (Z.min i (buddy i o)) (S o) I2) as (i' & o' & b' & fl' & A' & E' & I' & Ha' & S' & N' & M').
    { by right. }
    { by rewrite Sm. }
    { unfold slots. by rewrite Sz, Sl. }
    { rewrite Sm. lia. }
    exists i', o', b', fl', A'. split; [done|]. split; [done|]. split; [done|]. split; [by eapply same_shape_trans|].
    split; [done|]. intros j p. rewrite M'. unfold minus, A2, A1, plus.
    assert (Nm : ~ A (Z.min i (buddy i o)) (S o)).
    { intros Hx. assert (Hov : inside (Z.min i (buddy i o)) (S o) i).
      { unfold inside. pose proof (size_S o). pose proof (size_pos o). destruct (buddy_spec i o H2) as [[_ E]|[_ E]]; rewrite E; lia. }
      destruct (geo_disj _ _ _ _ G _ _ i o i (or_intror Hx) (or_intror Ha) Hov (inside_start _ _)). lia. }
    assert (Nb : ~ A (buddy i o) o) by (by apply (geo_split _ _ _ _ G)).
    destruct (decide (p = o)) as [->|]; [|destruct (decide (p = S o)) as [->|]]; [..|naive_solver].
    + destruct (decide (j = i)) as [->|]; [naive_solver lia|]. destruct (decide (j = buddy i o)) as [->|]; naive_solver lia.
    + destruct (decide (j = Z.min i (buddy i o))) as [->|]; naive_solver lia.
Qed.

Lemma put_at b A i o : inv b A -> A i o ->
  exists b', put i (size o) b = Some b' /\ inv b' (minus A i o) /\ same_shape b b'.
Proof.
  intros [fl I] Ha. pose proof I as [R G Z0 B]. destruct (geo_ok _ _ _ _ G _ _ (or_intror Ha)) as (H1 & H2 & H3 & H4).
  unfold put. rewrite tz_size, Nat2Z.id, Z0. pose proof (zone_ldiff (maxOrder b) i) as Hz.
  set (zs := Z.ldiff i (size (maxOrder b) - 1)) in *. destruct Hz as [Hd Hin] eqn:E0. clear E0.
  assert (0 <= zs).
  { unfold zs. apply Z.ldiff_nonneg. by left. }
  rewrite Z.mod_small by (unfold inside in Hin; pose proof (size_pos o); rewrite Z0 in B; unfold slots in *; lia).
  destruct (mergeUp_spec (maxOrder b) zs (Z.min (zs + size (maxOrder b)) (slots b)) b fl A i o I Ha)
    as (i' & o' & b' & fl' & A' & E & I' & Ha' & S' & N' & M'); [done|by rewrite Z0|lia|].
  unfold slots in E. rewrite E. cbn [mbind option_bind].
  destruct (inv_release b' fl' A' i' o' I' Ha' N') as (b2 & E2 & I2 & S2). exists b2. split; [done|].
  split; [|by eapply same_shape_trans]. eapply inv_ext; [|exact I2]. intros j p. by rewrite M'.
Qed.

(** ** Construction *)

(** One more free block at the end of the part already filled. *)
Lemma geo_extend start maxO F F' o :
  geo start maxO F (fun _ _ => False) -> (o <= maxO)%nat -> 0 <= start -> (size o | start) ->
  ((o < maxO)%nat -> (size (S o) | start)) -> (forall j p, F' j p <-> (j = start /\ p = o) \/ F j p) ->
  geo (start + size o) maxO F' (fun _ _ => False).
Proof.
  intros [G1 G2 G3 G4 G5] Ho Hs Hal Hal' HF. pose proof (size_pos o) as Ps.
  assert (Old : forall j p x, F j p -> inside j p x -> ~ inside start o x).
  { intros j p x Hf Hx Hx'. destruct (G1 j p (or_introl Hf)) as (_ & _ & ? & _). unfold inside in *. lia. }
  split.
  - intros j p [Hf|[]]. apply HF in Hf as [[-> ->]|Hf]; [repeat split; done || lia|].
    destruct (G1 j p (or_introl Hf)) as (? & ? & ? & ?). repeat split; done || lia.
  - by intros ? ? _ [].
  - intros j p j' p' x [Hf|[]] [Hf'|[]] Hx Hx'. apply HF in Hf as [[-> ->]|Hf], Hf' as [[-> ->]|Hf'].
    + done.
    + by destruct (Old _ _ _ Hf' Hx').
    + by destruct (Old _ _ _ Hf Hx).
    + by apply (G3 j p j' p' x); [left|left|..].
  - intros x Hx. destruct (decide (x < start)).
    + destruct (G4 x) as (j & p & [Hf|[]] & Hin); [lia|]. exists j, p. rewrite HF. tauto.
    + exists start, o. rewrite HF. split; [tauto|]. unfold inside. lia.
  - assert (Hb : (o < maxO)%nat -> buddy start o = start + size o).
    { intros Hlt. destruct (buddy_spec start o Hal) as [[_ ->]|[D _]]; [done|]. exfalso.
      specialize (Hal' Hlt). pose proof (size_S o). replace (start - size o) with (start + - size o) in D by lia.
      apply (Z.divide_add_cancel_r _ _ _ Hal'), Z.divide_opp_r, Z.divide_pos_le in D; lia. }
    intros j p Hf Hlt Hf'. apply HF in Hf as [[-> ->]|Hf], Hf' as [[E Ep]|Hf'].
    + rewrite (Hb Hlt) in E. lia.
    + rewrite (Hb Hlt) in Hf'. destruct (G1 _ _ (or_introl Hf')) as (_ & _ & ? & _). lia.
    + subst p. assert (Ej : j = buddy start o).
      { rewrite <- E. unfold buddy. by rewrite Z.lxor_assoc, Z.lxor_nilpotent, Z.lxor_0_r. }
      rewrite (Hb Hlt) in Ej. destruct (G1 _ _ (or_introl Hf)) as (_ & _ & ? & _). lia.
    + by apply (G5 j p).
Qed.

Record filled (start : Z) (b0 b : pageCacheBlocks) (fl : list (list Z)) : Prop := {
  filled_rep : rep b fl;
  filled_geo : geo start (maxOrder b0) (free fl) (fun _ _ => False);
  filled_shape : same_shape b0 b;
}.

Lemma filled_add start b0 b fl o :
  filled start b0 b fl -> 0 <= start -> start + size o <= slots b0 -> (o <= maxOrder b0)%nat -> (size o | start) ->
  ((o < maxOrder b0)%nat -> (size (S o) | start)) ->
  exists b' fl', add start o b = Some b' /\ filled (start + size o) b0 b' fl'.
Proof.
  intros [R G S] Hs Hend Ho Hal Hal'. pose proof (size_pos o). pose proof S as (S1 & S2 & S3).
  destruct (lists_at b fl o R) as [l Hl]; [by rewrite S2|].
  destruct (add_rep b fl start o l R) as (b' & E & R' & Sh); [unfold slots in *; lia| |done|].
  { intros p Hf. destruct (geo_ok _ _ _ _ G _ _ (or_introl Hf)) as (_ & _ & ? & _). pose proof (size_pos p). lia. }
  exists b', (<[o := start :: l]> fl). split; [done|]. split; [done| |by eapply same_shape_trans].
  eapply geo_extend; [exact G|done..|]. intros j p. by apply free_add.
Qed.

(** The greedy loop: what is left is below the size the start is aligned to. *)
Lemma fillZone_spec fuel m start rem b0 b fl :
  filled start b0 b fl -> 0 <= start -> 0 <= rem < size m -> start + rem <= slots b0 -> (m <= maxOrder b0)%nat ->
  (size m | start) -> (m < fuel)%nat ->
  exists b' fl', fillZone fuel start rem b = Some (start + rem, b') /\ filled (start + rem) b0 b' fl'.
Proof.
  revert m start rem b fl. induction fuel as [|fuel IH]; intros m start rem b fl Hfil Hs Hr Hend Hm Hal Hfu; [lia|]. simpl.
  destruct (Z.eqb_spec rem 0) as [->|Hne]; [exists b, fl; rewrite Z.add_0_r; done|].
  destruct (Z.log2_spec rem) as [L1 L2]; [lia|]. pose proof (Z.log2_nonneg rem) as L0.
  set (o := Z.to_nat (Z.log2 rem)). assert (Eo : size o = 2 ^ Z.log2 rem) by (unfold size, o; by rewrite Z2Nat.id).
  assert (Hom : (o < m)%nat).
  { assert (Z.of_nat o < Z.of_nat m); [|lia]. apply (Z.pow_lt_mono_r_iff 2); [lia..|]. fold (size o) (size m). lia. }
  assert (L2' : rem < 2 * size o) by (rewrite Eo, <- Z.pow_succ_r by done; lia).
  destruct (filled_add start b0 b fl o Hfil) as (b1 & fl1 & E1 & Hfil1); [done|lia|lia| | |].
  { etransitivity; [apply (size_divide o m); lia|done]. }
  { intros _. etransitivity; [apply (size_divide (S o) m); lia|done]. }
  rewrite E1. cbn [mbind option_bind].
  destruct (IH o (start + size o) (rem - size o) b1 fl1 Hfil1) as (b2 & fl2 & E2 & Hfil2); [lia|lia|lia|lia| |lia|].
  { apply Z.divide_add_r; [|reflexivity]. etransitivity; [apply (size_divide o m); lia|done]. }
  exists b2, fl2. replace (start + rem) with (start + size o + (rem - size o)) by lia. done.
Qed.

Lemma fillZones_spec fuel start b0 b fl :
  filled start b0 b fl -> zoneSlots b0 = size (maxOrder b0) -> (maxOrder b0 < 63)%nat ->
  0 <= start <= slots b0 -> ((size (maxOrder b0) | start) \/ start = slots b0) -> slots b0 <= start + Z.of_nat fuel ->
  exists b' fl', fillZones fuel start (slots b0) (size (maxOrder b0)) b = Some b' /\ filled (slots b0) b0 b' fl'.
Proof.
  revert start b fl. induction fuel as [|fuel IH]; intros start b fl Hfil Z0 HM Hs Hal Hfu.
  - simpl. exists b, fl. replace (slots b0) with start by lia. done.
  - cbn [fillZones]. destruct (Z.ltb_spec start (slots b0)) as [Hlt|Hge].
    2: { exists b, fl. replace (slots b0) with start by lia. done. }
    destruct Hal as [Hal|]; [|lia]. pose proof (size_pos (maxOrder b0)) as Ps.
    assert (Hstep : exists b' fl', fillZone 64 start (Z.min (size (maxOrder b0)) (slots b0 - start)) b
      = Some (start + Z.min (size (maxOrder b0)) (slots b0 - start), b') /\
      filled (start + Z.min (size (maxOrder b0)) (slots b0 - start)) b0 b' fl').
    { destruct (decide (size (maxOrder b0) <= slots b0 - start)).
      - rewrite Z.min_l by done. change 64%nat with (S (S 62)). generalize 62%nat. intros fu. cbn [fillZone].
        destruct (Z.eqb_spec (size (maxOrder b0)) 0); [lia|].
        assert (El : Z.to_nat (Z.log2 (size (maxOrder b0))) = maxOrder b0) by (unfold size; rewrite Z.log2_pow2; lia).
        rewrite El. destruct (filled_add start b0 b fl (maxOrder b0) Hfil) as (b1 & fl1 & E1 & Hfil1); [lia|lia|lia|done|lia|].
        rewrite E1. cbn [mbind option_bind fillZone]. rewrite Z.sub_diag, Z.eqb_refl. eauto.
      - rewrite Z.min_r by lia. apply (fillZone_spec 64 (maxOrder b0) start _ b0 b fl Hfil); lia || done. }
    destruct Hstep as (b1 & fl1 & E1 & Hfil1). rewrite E1. cbn [mbind option_bind fst snd].
    apply (IH _ _ _ Hfil1); [done|done|lia| |lia].
    destruct (decide (size (maxOrder b0) <= slots b0 - start)); [|right; lia].
    left. rewrite Z.min_l by done. by apply Z.divide_add_r; [|reflexivity].
Qed.

Definition valid_arena (n : Z) (M : nat) : Prop := 0 <= n /\ (M < 32)%nat /\ n + size M < 2 ^ 32.

Lemma new_at n M : valid_arena n M ->
  exists b, newPageCacheBlocks n (size M) = Some b /\ inv b (fun _ _ => False) /\ slots b = n /\ maxOrder b = M.
Proof.
  intros (Hn & HM & Hb). unfold newPageCacheBlocks. rewrite tz_size, Nat2Z.id.
  set (b0 := mkBlocks (replicate (S M) pageCacheNoBlock) (replicate (Z.to_nat n) resetLink) (size M) M).
  assert (Sl : slots b0 = n) by (unfold slots; simpl; rewrite length_replicate; lia).
  pose proof (size_pos M) as Ps.
  assert (Hfil : filled 0 b0 b0 (replicate (S M) [])).
  { split; [split|split|done]; cbn [heads links maxOrder b0].
    - apply length_replicate.
    - apply length_replicate.
    - unfold noOrder. lia.
    - rewrite length_replicate. unfold pageCacheNoBlock. lia.
    - intros o l [-> Ho]%lookup_replicate. rewrite lookup_replicate_2 by done. done.
    - intros o l [-> Ho]%lookup_replicate k i Hk. done.
    - intros o l [-> Ho]%lookup_replicate. constructor.
    - intros i lk [-> Hi]%lookup_replicate. done.
    - intros i o [(l & [-> ?]%lookup_replicate & Hi)|[]]. by apply elem_of_nil in Hi.
    - by intros ? ? _ [].
    - intros i o j p x [(l & [-> ?]%lookup_replicate & Hi)|[]]. by apply elem_of_nil in Hi.
    - lia.
    - intros i o (l & [-> ?]%lookup_replicate & Hi). by apply elem_of_nil in Hi. }
  destruct (fillZones_spec (Z.to_nat n) 0 b0 b0 _ Hfil) as (b & fl & E & [R G S]); [done|simpl; lia|lia| |lia|].
  { left. apply Z.divide_0_r. }
  rewrite Sl in E, G. cbn [maxOrder b0] in E. exists b. split; [done|]. pose proof S as (S1 & S2 & S3).
  assert (Slb : slots b = n) by (unfold slots in *; by rewrite S3). split; [|split; [done|by rewrite S2]].
  exists fl. split; [done|by rewrite Slb, S2|by rewrite S1, S2|rewrite Slb, S1; simpl; lia].
Qed.

(** ** Histories

    What the cache does: it builds the allocator, takes spans, and puts back
    spans it took. *)
Inductive history (n : Z) (M : nat) : pageCacheBlocks -> gset (Z * nat) -> Prop :=
| HNew b : newPageCacheBlocks n (size M) = Some b -> history n M b ∅
| HTake b A k i b' : history n M b A -> take (size k) b = Some (Some i, b') -> history n M b' ({[(i, k)]} ∪ A)
| HPut b A i k b' : history n M b A -> (i, k) ∈ A -> put i (size k) b = Some b' -> history n M b' (A ∖ {[(i, k)]}).

Definition allocated (A : gset (Z * nat)) : Z -> nat -> Prop := fun i o => (i, o) ∈ A.

Lemma take_unsupported b span : zoneSlots b = size (maxOrder b) ->
  (forall k, span = size k -> (maxOrder b < k)%nat) -> take span b = Some (None, b).
Proof.
  intros Z0 H. unfold take. case_match eqn:E; [done|]. apply (span_guard b span Z0) in E as (k & E & Hk).
  specialize (H k E). lia.
Qed.

Lemma size_inj k k' : size k = size k' -> k = k'.
Proof. intros E. apply (f_equal TrailingZeros64) in E. rewrite !tz_size in E. lia. Qed.

Lemma history_inv n M b A : valid_arena n M -> history n M b A ->
  inv b (allocated A) /\ slots b = n /\ maxOrder b = M.
Proof.
  intros V. induction 1 as [b E|b A k i b' H IH E|b A i k b' H IH Hin E].
  - destruct (new_at n M V) as (b' & E' & I & ? & ?). simplify_eq. split; [|done].
    eapply inv_ext; [|exact I]. intros j p. unfold allocated. set_solver.
  - destruct IH as ([fl I] & Hs & HM). pose proof I as [R G Z0 B]. destruct (decide (k <= maxOrder b)%nat) as [Hk|Hk].
    + destruct (take_at b fl _ k I Hk) as [(i' & b2 & E' & I' & S' & _)|[E' _]]; [|by rewrite E in E'].
      rewrite E in E'. simplify_eq. destruct S' as (_ & Em & El). split; [|unfold slots in *; rewrite El; done].
      eapply inv_ext; [|exact I']. intros j p. unfold allocated, plus. set_solver.
    + rewrite take_unsupported in E; [done..|]. intros k' Ek. apply size_inj in Ek. lia.
  - destruct IH as (I & Hs & HM). destruct (put_at b _ i k I Hin) as (b2 & E' & I' & (_ & Em & El)). simplify_eq.
    split; [|unfold slots in *; rewrite El; done].
    eapply inv_ext; [|exact I']. intros j p. unfold allocated, minus. set_solver.
Qed.

(** Whether a span meets an allocated one is decided by its end points. *)
Lemma meets_dec (A : gset (Z * nat)) i k :
  (exists j p x, (j, p) ∈ A /\ inside i k x /\ inside j p x) \/ ~ (exists j p x, (j, p) ∈ A /\ inside i k x /\ inside j p x).
Proof.
  destruct (decide (set_Exists (fun q => i < q.1 + size q.2 /\ q.1 < i + size k) A)) as [([j p] & Hj & H)|N]; [left|right].
  - exists j, p, (Z.max i j). simpl in H. pose proof (size_pos p). pose proof (size_pos k). unfold inside. split; [done|]. lia.
  - intros (j & p & x & Hj & Hx & Hx'). apply N. exists (j, p). unfold inside in *. split; [done|]. simpl. lia.
Qed.

(** C11: taking a span is safe and complete.  After any history of takes and
    puts, [take] does not panic; a span it returns is aligned, lies inside the
    arena and is disjoint from every span still allocated; and it refuses a
    supported span only when every aligned place for it in the arena meets an
    allocated span, so the coalescing of [put] leaves no free memory unusable. *)
Theorem take_correct (n : Z) (M : nat) (b : pageCacheBlocks) (A : gset (Z * nat)) (k : nat) :
  valid_arena n M -> history n M b A -> (k <= M)%nat ->
  (exists i b', take (size k) b = Some (Some i, b') /\ 0 <= i /\ i + size k <= n /\ (size k | i) /\
     forall j p x, (j, p) ∈ A -> inside i k x -> ~ inside j p x) \/
  (take (size k) b = Some (None, b) /\
     forall i, 0 <= i -> i + size k <= n -> (size k | i) -> exists j p x, (j, p) ∈ A /\ inside i k x /\ inside j p x).
Proof.
  intros V H Hk. destruct (history_inv n M b A V H) as ([fl I] & Hs & HM). pose proof I as [R G Z0 B].
  destruct (take_at b fl _ k I) as [(i & b' & E & [fl' I'] & (S1 & S2 & S3) & (o & Hko & Hf))|[E Hno]]; [lia|left|right].
  - exists i, b'. split; [done|]. pose proof (at_geo _ _ _ I') as G'.
    destruct (geo_ok _ _ _ _ G' i k) as (? & ? & ? & _); [right; by right|].
    assert (slots b' = n) by (unfold slots in *; by rewrite S3). split; [done|]. split; [lia|]. split; [done|].
    intros j p x Hj Hx Hx'. destruct (geo_disj _ _ _ _ G' i k j p x) as [-> ->]; [right; by right|right; by left|done..|].
    destruct (geo_disj _ _ _ _ G j p j o j) as [_ ->]; [by right|by left|apply inside_start..|].
    by apply (geo_split _ _ _ _ G j o).
  - split; [done|]. intros i Hi Hend Hal.
    destruct (meets_dec A i k) as [?|N]; [done|].
    destruct (geo_found G k i) as (j & p & Hf & Hp & _); [lia|done|done|lia| |by destruct (Hno j p Hp)].
    intros j p x Hj Hx Hx'. apply N. by exists j, p, x.
Qed.

(** A slot the links say is inside a free block. *)
Definition slot_free (b : pageCacheBlocks) (x : Z) : Prop :=
  exists j lk, links b !! j = Some lk /\ order lk <> noOrder /\ inside (Z.of_nat j) (order lk) x.

Lemma slot_free_spec b fl x : rep b fl -> slot_free b x <-> exists i o, free fl i o /\ inside i o x.
Proof.
  intros R. split.
  - intros (j & lk & Hj & Hne & Hx). destruct (rep_mark _ _ R _ _ Hj Hne) as (l & Hl & Hin).
    exists (Z.of_nat j), (order lk). split; [by exists l|done].
  - intros (i & o & Hf & Hx). destruct (free_link _ _ _ _ R Hf) as (Hi & Ho & lk & Hlk & <-).
    exists (Z.to_nat i), lk. split; [done|]. split; [pose proof (rep_orders _ _ R); lia|]. by rewrite Z2Nat.id by lia.
Qed.

(** Putting a span back never panics and loses nothing.  After any history,
    returning an allocated span succeeds, and in the resulting state every slot
    of the arena is in a free block exactly when no remaining allocated span
    covers it; no two allocated spans share a slot. *)
Theorem put_correct (n : Z) (M : nat) (b : pageCacheBlocks) (A : gset (Z * nat)) (i : Z) (k : nat) :
  valid_arena n M -> history n M b A -> (i, k) ∈ A ->
  exists b', put i (size k) b = Some b' /\
    (forall x, 0 <= x < n -> slot_free b' x <-> ~ exists j p, (j, p) ∈ A /\ (j, p) <> (i, k) /\ inside j p x) /\
    (forall j p j' p' x, (j, p) ∈ A -> (j', p') ∈ A -> inside j p x -> inside j' p' x -> (j, p) = (j', p')).
Proof.
  intros V H Hin. destruct (history_inv n M b A V H) as (I & Hs & HM).
  destruct (put_at b _ i k I Hin) as (b' & E & _ & _). exists b'. split; [done|].
  destruct (history_inv n M b' _ V (HPut _ _ _ _ _ _ _ H Hin E)) as ([fl' [R' G' _ _]] & Hs' & _).
  assert (Mem : forall j p, allocated (A ∖ {[(i, k)]}) j p <-> (j, p) ∈ A /\ (j, p) <> (i, k))
    by (intros j p; unfold allocated; set_solver).
  split.
  - intros x Hx. rewrite (slot_free_spec _ _ _ R'). split.
    + intros (j & p & Hf & Hj) (j' & p' & Hj1 & Hj2 & Hx').
      assert (Ha : allocated (A ∖ {[(i, k)]}) j' p') by (by apply Mem).
      destruct (geo_disj _ _ _ _ G' j p j' p' x) as [-> ->]; [by left|by right|done..|]. by apply (geo_split _ _ _ _ G' j' p').
    + intros N. destruct (geo_cover _ _ _ _ G' x) as (j & p & [Hf|Ha] & Hx'); [lia|by eauto|].
      destruct N. apply Mem in Ha as [? ?]. by exists j, p.
  - destruct I as [fl [R G _ _]]. intros j p j' p' x Hj Hj' Hx Hx'.
    destruct (geo_disj _ _ _ _ G j p j' p' x) as [-> ->]; [by right|by right|done..|]. done.
Qed.

(** Three takes and one put in an arena of eleven slots with zones of four. *)
Lemma demo_history : exists b, history 11 2 b {[(10, 0%nat)]} /\ take (size 2) b = Some (Some 4, default b (snd <$> take (size 2) b)).
Proof.
  destruct (newPageCacheBlocks 11 (size 2)) as [b|] eqn:E; [|by vm_compute in E].
  destruct (take (size 0) b) as [[[i|] b1]|] eqn:E1; [..|by (vm_compute in E; simplify_eq; vm_compute in E1)|by (vm_compute in E; simplify_eq; vm_compute in E1)].
  vm_compute in E. simplify_eq. vm_compute in E1. simplify_eq.
  eexists. split.
  - replace {[(10, 0%nat)]} with ({[(10, 0%nat)]} ∪ (∅ : gset (Z * nat))) by set_solver.
    eapply (HTake 11 2 _ ∅ 0 10); [apply HNew; vm_compute; reflexivity|]. vm_compute. reflexivity.
  - vm_compute. reflexivity.
Qed.

Lemma take_correct_witness : exists b i b',
  history 11 2 b {[(10, 0%nat)]} /\ take (size 2) b = Some (Some i, b') /\ ~ inside i 2 10.
Proof.
  destruct demo_history as (b & H & E).
  destruct (take_correct 11 2 b {[(10, 0%nat)]} 2) as [(i & b' & E' & _ & _ & _ & D)|[E' _]].
  - unfold valid_arena, size. lia.
  - done.
  - lia.
  - exists b, i, b'. split; [done|]. split; [done|]. intros Hin. apply (D 10 0%nat 10); [set_solver|done|apply inside_start].
  - by rewrite E in E'.
Defined.

Lemma put_correct_witness : exists b b',
  history 11 2 b {[(10, 0%nat)]} /\ put 10 (size 0) b = Some b' /\ slot_free b' 10.
Proof.
  destruct demo_history as (b & H & _).
  destruct (put_correct 11 2 b {[(10, 0%nat)]} 10 0) as (b' & E & F & _); [unfold valid_arena, size; lia|done|set_solver|].
  exists b, b'. split; [done|]. split; [done|]. apply F; [lia|]. intros (j & p & Hj & N & _). set_solver.
Defined.

End Buddy.
