(* ===== verification/Committer.v ===== *)
(** * Committer: batches, publication order and group commit

    Models internal/storeio/committer.go and the worker of committer_worker.go
    over the portable [Device].  The lock-free pools are the stacks [IndexPool]
    proves them to be.  The single producer's calls and the iterations of the
    background worker are the steps of one system: [Begin] is modelled for a call
    that finds the capacity it asks for (the producer is the pools' only
    consumer, so a call that waits behaves as one made later), and a worker
    iteration takes the batches it groups, commits them and releases them.
    [Wait] is one check of its loop, which may ask to block.  Not modelled: the
    coalescing timer, the wake-up channel, statistics. *)
From Stdlib Require Import ZArith Lia List Bool Sorted.
From stdpp Require Import base numbers list strings sets sorting.
From S2P Require Import Prelude Leases Bytes Page StateRoot FreeDirectory Superblock Device.

Open Scope Z_scope.

(** ** nextPowerOfTwo and CommitterOptions.normalized *)

Definition nextPowerOfTwo (value : Z) : Z :=
  let v := value - 1 in
  let v := Z.lor v (Z.shiftr v 1) in
  let v := Z.lor v (Z.shiftr v 2) in
  let v := Z.lor v (Z.shiftr v 4) in
  let v := Z.lor v (Z.shiftr v 8) in
  let v := Z.lor v (Z.shiftr v 16) in
  let v := Z.lor v (Z.shiftr v 32) in
  v + 1.

Record CommitterOptions := mkOptions { QueueSlots : Z; MaxPagesPerBatch : Z; GroupLimit : Z; CoalesceDelay : Z }.

Definition maxCommitDescriptors : Z := 2 ^ 20.
Definition maxCommitCoalesce : Z := 1000000000.

Definition options_normalized (o : CommitterOptions) (bufferCount : Z) : io_res CommitterOptions :=
  let queueSlots := if QueueSlots o =? 0 then 64 else QueueSlots o in
  if (queueSlots <? 1) || (2 ^ 16 <? queueSlots) then Err (ErrInvalidWrite "queue slots")
  else
    let queueSlots := nextPowerOfTwo queueSlots in
    let maxPages := if MaxPagesPerBatch o =? 0 then bufferCount - 1 else MaxPagesPerBatch o in
    if (maxPages <? 0) || (bufferCount <=? maxPages) then Err ErrTooManyPages
    else if negb (maxPages =? 0) && (maxCommitDescriptors / maxPages <? queueSlots) then Err ErrTooManyPages
    else
      let groupLimit := if GroupLimit o =? 0 then Z.min 32 queueSlots else GroupLimit o in
      if (groupLimit <? 1) || (queueSlots <? groupLimit) then Err (ErrInvalidWrite "group limit")
      else if (CoalesceDelay o <? 0) || (maxCommitCoalesce <? CoalesceDelay o) then Err (ErrInvalidWrite "coalesce delay")
      else Ok (mkOptions queueSlots maxPages groupLimit (CoalesceDelay o)).

(** ** State *)

Inductive batchState := batchFree | batchOwned | batchPublished.

#[export] Instance batchState_eq_dec : EqDecision batchState.
Proof. solve_decision. Defined.

Record Batch := mkBatch {
  bt_pages : list Write; bt_root : Write; bt_rootGeneration : Z; bt_generation : Z; bt_state : batchState }.
Definition freeBatch : Batch := mkBatch [] zeroWrite 0 0 batchFree.

(** A batch pointer is its index; [c_pending] is the ring of published batches,
    [c_head] and [c_tail] its uint64 positions. *)
Record Committer := mkCommitter {
  c_options : CommitterOptions;
  c_device : portableDevice;
  c_freeBuffers : list Z;
  c_freeBatches : list nat;
  c_batches : list Batch;
  c_pending : list (option nat);
  c_head : Z;
  c_tail : Z;
  c_published : Z;
  c_durable : Z;
  c_failure : option io_error;
  c_closing : bool;
}.

Definition setBatch (bi : nat) (b : Batch) (c : Committer) : Committer :=
  mkCommitter (c_options c) (c_device c) (c_freeBuffers c) (c_freeBatches c) (<[bi := b]> (c_batches c))
    (c_pending c) (c_head c) (c_tail c) (c_published c) (c_durable c) (c_failure c) (c_closing c).
Definition setPools (fb : list Z) (ft : list nat) (c : Committer) : Committer :=
  mkCommitter (c_options c) (c_device c) fb ft (c_batches c)
    (c_pending c) (c_head c) (c_tail c) (c_published c) (c_durable c) (c_failure c) (c_closing c).
Definition setQueue (p : list (option nat)) (h t : Z) (c : Committer) : Committer :=
  mkCommitter (c_options c) (c_device c) (c_freeBuffers c) (c_freeBatches c) (c_batches c)
    p h t (c_published c) (c_durable c) (c_failure c) (c_closing c).
Definition setGenerations (p d : Z) (c : Committer) : Committer :=
  mkCommitter (c_options c) (c_device c) (c_freeBuffers c) (c_freeBatches c) (c_batches c)
    (c_pending c) (c_head c) (c_tail c) p d (c_failure c) (c_closing c).
Definition setFlags (f : option io_error) (cl : bool) (c : Committer) : Committer :=
  mkCommitter (c_options c) (c_device c) (c_freeBuffers c) (c_freeBatches c) (c_batches c)
    (c_pending c) (c_head c) (c_tail c) (c_published c) (c_durable c) f cl.
Definition setDevice (d : portableDevice) (c : Committer) : Committer :=
  mkCommitter (c_options c) d (c_freeBuffers c) (c_freeBatches c) (c_batches c)
    (c_pending c) (c_head c) (c_tail c) (c_published c) (c_durable c) (c_failure c) (c_closing c).

Definition bufferCount (c : Committer) : Z := pd_buffers (c_device c).
Definition bufferSize (c : Committer) : Z := pd_bufferSize (c_device c).

Definition newCommitter (device : portableDevice) (o : CommitterOptions) : Committer :=
  let slots := Z.to_nat (QueueSlots o) in
  mkCommitter o device (Z.of_nat <$> seq 0 (Z.to_nat (pd_buffers device))) (seq 0 slots) (replicate slots freeBatch)
    (replicate slots None) 0 0 0 0 None false.

(** ** The producer *)

Inductive begin_result := BeginOk (bi : nat) (c : Committer) | BeginErr (e : io_error) | BeginWaits.

(** [pool.pop] for the batch, then [pageCount+1] buffers in order, the last for
    the root. *)
Definition Begin (pageCount : Z) (c : Committer) : begin_result :=
  match c_failure c with
  | Some e => BeginErr e
  | None =>
      if c_closing c then BeginErr ErrClosed
      else if (pageCount <? 0) || (MaxPagesPerBatch (c_options c) <? pageCount) then BeginErr ErrTooManyPages
      else
        let n := Z.to_nat pageCount in
        match c_freeBatches c, c_freeBuffers c !! n with
        | bi :: batches, Some rootBuffer =>
            let pages := (fun b => mkWrite 0 0 b 0) <$> take n (c_freeBuffers c) in
            BeginOk bi (setBatch bi (mkBatch pages (mkWrite 0 0 rootBuffer 0) 0 0 batchOwned)
              (setPools (drop (S n) (c_freeBuffers c)) batches c))
        | _, _ => BeginWaits
        end
  end.

Definition ownedBatch (bi : nat) (c : Committer) : option Batch :=
  b ← c_batches c !! bi; if decide (bt_state b = batchOwned) then Some b else None.

Definition PageBuffer (bi : nat) (page : Z) (c : Committer) : io_res (list Z) :=
  match ownedBatch bi c with
  | None => Err ErrBatchState
  | Some b =>
      if page <? 0 then Err ErrBatchState
      else match bt_pages b !! Z.to_nat page with
      | None => Err ErrBatchState
      | Some w => Buffer (c_device c) (w_Buffer w)
      end
  end.

Definition setPage (bi : nat) (page : Z) (offset length kind : Z) (c : Committer) : io_res Committer :=
  match ownedBatch bi c with
  | None => Err ErrBatchState
  | Some b =>
      if page <? 0 then Err ErrBatchState
      else match bt_pages b !! Z.to_nat page with
      | None => Err ErrBatchState
      | Some w =>
          if (length <? 0) || (2 ^ 32 - 1 <? length) then Err (ErrInvalidWrite "")
          else Ok (setBatch bi (mkBatch (<[Z.to_nat page := mkWrite offset length (w_Buffer w) kind]> (bt_pages b))
                 (bt_root b) (bt_rootGeneration b) (bt_generation b) (bt_state b)) c)
      end
  end.

(** Trailing buffers go back one by one, the last one ending on top. *)
Definition ResizePages (bi : nat) (pageCount : Z) (c : Committer) : io_res Committer :=
  match ownedBatch bi c with
  | None => Err ErrBatchState
  | Some b =>
      if (pageCount <? 0) || (Z.of_nat (length (bt_pages b)) <? pageCount) then Err ErrBatchState
      else
        let n := Z.to_nat pageCount in
        Ok (setPools (reverse (w_Buffer <$> drop n (bt_pages b)) ++ c_freeBuffers c) (c_freeBatches c)
          (setBatch bi (mkBatch (take n (bt_pages b)) (bt_root b) (bt_rootGeneration b) (bt_generation b) (bt_state b)) c))
  end.

(** Writing a prefix of a staging buffer, in place in the arena. *)
Definition writeBuffer (index : Z) (bytes : list Z) (d : portableDevice) : portableDevice :=
  mkDevice (setBytes (pd_arena d) (Z.to_nat (index * pd_bufferSize d)) bytes) (pd_bufferSize d) (pd_buffers d)
    (pd_seen d) (pd_closed d).

Definition RootBuffer (bi : nat) (c : Committer) : io_res (list Z) :=
  match ownedBatch bi c with
  | None => Err ErrBatchState
  | Some b => Buffer (c_device c) (w_Buffer (bt_root b))
  end.

Definition SetRoot (bi : nat) (offset length : Z) (c : Committer) : io_res Committer :=
  match ownedBatch bi c with
  | None => Err ErrBatchState
  | Some b =>
      if (length <? 0) || (2 ^ 32 - 1 <? length) then Err (ErrInvalidWrite "")
      else Ok (setBatch bi (mkBatch (bt_pages b) (mkWrite offset length (w_Buffer (bt_root b)) (w_kind (bt_root b)))
             0 (bt_generation b) (bt_state b)) c)
  end.

(** The page is cleared before the record is encoded, so a rejected superblock
    leaves a cleared staging page. *)
Definition SetSuperblock (bi : nat) (root : Superblock) (c : Committer) : option io_error * Committer :=
  match ownedBatch bi c with
  | None => (Some ErrBatchState, c)
  | Some b =>
      match Buffer (c_device c) (w_Buffer (bt_root b)) with
      | Err e => (Some e, c)
      | OutOfFuel => (None, c)
      | Ok buffer =>
          if Z.of_nat (length buffer) <? sb_PageSize root then (Some (ErrInvalidWrite ""), c)
          else
            let page := replicate (Z.to_nat (sb_PageSize root)) 0 in
            let cleared := setDevice (writeBuffer (w_Buffer (bt_root b)) page (c_device c)) c in
            match EncodeSuperblock page root with
            | Err e => (Some e, cleared)
            | OutOfFuel => (None, cleared)
            | Ok record =>
                let encoded := setDevice (writeBuffer (w_Buffer (bt_root b)) record (c_device cleared)) cleared in
                match SuperblockOffset (sb_Generation root) (sb_PageSize root) with
                | Err e => (Some e, encoded)
                | OutOfFuel => (None, encoded)
                | Ok offset =>
                    (None, setBatch bi (mkBatch (bt_pages b)
                       (mkWrite offset (sb_PageSize root) (w_Buffer (bt_root b)) (w_kind (bt_root b)))
                       (sb_Generation root) (bt_generation b) (bt_state b)) encoded)
                end
            end
      end
  end.

Definition pendingMask (c : Committer) : Z := Z.of_nat (length (c_pending c)) - 1.

Definition Publish (bi : nat) (generation : Z) (c : Committer) : io_res Committer :=
  match ownedBatch bi c with
  | None => Err ErrBatchState
  | Some b =>
      match c_failure c with
      | Some e => Err e
      | None =>
          if c_closing c then Err ErrClosed
          else if (generation =? 0) || (generation <=? c_published c) then Err ErrGenerationOrder
          else if negb (bt_rootGeneration b =? 0) && negb (bt_rootGeneration b =? generation) then Err ErrGenerationOrder
          else match validateCommit (bufferCount c) (bufferSize c) (pd_seen (c_device c)) (bt_pages b) (bt_root b) with
          | Some e => Err e
          | None =>
              let tail := c_tail c in
              if Z.of_nat (length (c_pending c)) <=? wrap64 (tail - c_head c) then Err ErrQueueFull
              else
                let c1 := setBatch bi (mkBatch (bt_pages b) (bt_root b) (bt_rootGeneration b) generation batchPublished) c in
                Ok (setGenerations generation (c_durable c1)
                  (setQueue (<[Z.to_nat (Z.land tail (pendingMask c)) := Some bi]> (c_pending c1)) (c_head c1) (wrap64 (tail + 1)) c1))
          end
      end
  end.

(** [release]: every buffer and then the batch itself. *)
Definition release (bi : nat) (c : Committer) : Committer :=
  match c_batches c !! bi with
  | None => c
  | Some b =>
      setBatch bi freeBatch
        (setPools (w_Buffer (bt_root b) :: reverse (w_Buffer <$> bt_pages b) ++ c_freeBuffers c) (bi :: c_freeBatches c) c)
  end.

Definition Abort (bi : nat) (c : Committer) : io_res Committer :=
  match ownedBatch bi c with None => Err ErrBatchState | Some _ => Ok (release bi c) end.

Definition InitializeGeneration (generation : Z) (c : Committer) : io_res Committer :=
  if (generation =? 0) || c_closing c || negb (c_head c =? c_tail c) || negb (c_published c =? 0) || negb (c_durable c =? 0)
  then Err ErrGenerationOrder
  else Ok (setGenerations generation generation c).

(** [stopAccepting], the state change of [Close] and of [setFailure]. *)
Definition stopAccepting (c : Committer) : Committer := setFlags (c_failure c) true c.

Definition setFailure (e : io_error) (c : Committer) : Committer :=
  match c_failure c with
  | Some _ => c
  | None => stopAccepting (setFlags (Some e) (c_closing c) c)
  end.

(** One check of [Wait]'s loop; [done] is whether the worker has left. *)
Inductive wait_result := WaitDone | WaitErr (e : io_error) | WaitBlocks.

Definition Wait (done : bool) (generation : Z) (c : Committer) : wait_result :=
  if c_published c <? generation then WaitErr ErrGenerationOrder
  else if generation <=? c_durable c then WaitDone
  else match c_failure c with
  | Some e => WaitErr e
  | None => if done then WaitErr ErrClosed else WaitBlocks
  end.

(** ** The worker *)

Definition peekBatch (c : Committer) : option nat :=
  if c_head c =? c_tail c then None
  else default None (c_pending c !! Z.to_nat (Z.land (c_head c) (pendingMask c))).

Definition nextBatch (c : Committer) : option nat * Committer :=
  if c_head c =? c_tail c then (None, c)
  else
    let slot := Z.to_nat (Z.land (c_head c) (pendingMask c)) in
    (default None (c_pending c !! slot), setQueue (<[slot := None]> (c_pending c)) (wrap64 (c_head c + 1)) (c_tail c) c).

Definition pagesOf (c : Committer) (bi : nat) : list Write := bt_pages (default freeBatch (c_batches c !! bi)).

(** The grouping loop; the capacity of [commitScratch] is the buffer count. *)
Fixpoint groupLoop (fuel : nat) (group : list nat) (writes : list Write) (c : Committer) : list nat * list Write * Committer :=
  match fuel with
  | O => (group, writes, c)
  | S fuel =>
      if Z.of_nat (length group) <? GroupLimit (c_options c) then
        match peekBatch c with
        | None => (group, writes, c)
        | Some next =>
            if bufferCount c <? Z.of_nat (length writes + length (pagesOf c next)) then (group, writes, c)
            else
              let c1 := (nextBatch c).2 in
              groupLoop fuel (group ++ [next]) (writes ++ pagesOf c next) c1
        end
      else (group, writes, c)
  end.

(** Index of the last state-root page, [-1] as [None]. *)
Fixpoint latestState (index : nat) (writes : list Write) (latest : option nat) : option nat :=
  match writes with
  | [] => latest
  | w :: rest => latestState (S index) rest (if w_kind w =? PageStateRoot then Some index else latest)
  end.

Fixpoint suppress (index latest : nat) (writes : list Write) : list Write :=
  match writes with
  | [] => []
  | w :: rest =>
      if (w_kind w =? PageStateRoot) && negb (index =? latest)%nat then suppress (S index) latest rest
      else w :: suppress (S index) latest rest
  end.

Definition suppressRoots (writes : list Write) : list Write :=
  match latestState 0 writes None with None => writes | Some latest => suppress 0 latest writes end.

(** [slices.SortFunc] by offset. *)
Fixpoint insertWrite (w : Write) (l : list Write) : list Write :=
  match l with
  | [] => [w]
  | x :: l => if w_Offset w <=? w_Offset x then w :: x :: l else x :: insertWrite w l
  end.
Definition sortWrites (l : list Write) : list Write := foldr insertWrite [] l.

Fixpoint releaseAll (group : list nat) (c : Committer) : Committer :=
  match group with [] => c | bi :: group => releaseAll group (release bi c) end.

Fixpoint drainFailed (fuel : nat) (c : Committer) : Committer :=
  match fuel with
  | O => c
  | S fuel => match nextBatch c with
              | (Some bi, c1) => drainFailed fuel (release bi c1)
              | (None, c1) => c1
              end
  end.

(** One iteration of [run]: [None] when no batch is queued. *)
Definition runOnce (fault : faults) (c : Committer) (st : io_state) : option (Committer * io_state) :=
  match nextBatch c with
  | (None, _) => None
  | (Some batch, c1) =>
      let '(group, writes, c2) := groupLoop (length (c_pending c)) [batch] (pagesOf c1 batch) c1 in
      let latest := default batch (last group) in
      let latestBatch := default freeBatch (c_batches c2 !! latest) in
      let writes := sortWrites (suppressRoots writes) in
      match Commit fault (c_device c2) writes (bt_root latestBatch) st with
      | (Some e, st') =>
          Some (drainFailed (S (length (c_pending c))) (releaseAll group (setFailure e c2)), st')
      | (None, st') => Some (releaseAll group (setGenerations (c_published c2) (bt_generation latestBatch) c2), st')
      end
  end.

(** ** Ownership

    Every buffer is in the free pool or belongs to exactly one batch that is
    owned or published; published batches wait in the ring in generation order
    or are in the hands of the worker. *)

Definition batch_buffers (b : Batch) : list Z :=
  match bt_state b with batchFree => [] | _ => w_Buffer (bt_root b) :: (w_Buffer <$> bt_pages b) end.
Definition held (c : Committer) : list Z := mjoin (batch_buffers <$> c_batches c).

Definition generationOf (c : Committer) (bi : nat) : Z := bt_generation (default freeBatch (c_batches c !! bi)).

Definition stateOf (c : Committer) (bi : nat) : option batchState := bt_state <$> c_batches c !! bi.

Record queue_ok (c : Committer) (q : list nat) : Prop := {
  q_size : exists m, (m <= 16)%nat /\ length (c_pending c) = (2 ^ m)%nat;
  q_words : 0 <= c_head c < 2 ^ 64 /\ 0 <= c_tail c < 2 ^ 64;
  q_length : wrap64 (c_tail c - c_head c) = Z.of_nat (length q);
  q_bound : (length q <= length (c_pending c))%nat;
  q_ring : forall k bi, q !! k = Some bi ->
    c_pending c !! Z.to_nat (Z.land (c_head c + Z.of_nat k) (pendingMask c)) = Some (Some bi);
}.

(** [infl] are the batches the worker has taken, [q] those still queued. *)
Record inv (infl q : list nat) (c : Committer) : Prop := {
  i_buffers : c_freeBuffers c ++ held c ≡ₚ (Z.of_nat <$> seq 0 (Z.to_nat (bufferCount c)));
  i_batches : NoDup (c_freeBatches c);
  i_free : forall bi, bi ∈ c_freeBatches c <-> stateOf c bi = Some batchFree;
  i_published : forall bi, bi ∈ infl ++ q <-> stateOf c bi = Some batchPublished;
  i_nodup : NoDup (infl ++ q);
  i_queue : queue_ok c q;
  i_order : StronglySorted Z.lt (c_durable c :: (generationOf c <$> infl ++ q));
  i_latest : forall g, last (generationOf c <$> infl ++ q) = Some g -> g = c_published c;
  i_durable : c_durable c <= c_published c;
  i_slots : length (c_batches c) = length (c_pending c);
  i_valid : forall bi b, c_batches c !! bi = Some b -> bt_state b = batchPublished ->
    validateCommit (bufferCount c) (bufferSize c) (pd_seen (c_device c)) (bt_pages b) (bt_root b) = None;
  i_words : forall bi b, c_batches c !! bi = Some b -> Forall write_word (bt_root b :: bt_pages b);
  i_device : device_ok (c_device c) /\ bufferCount c <= 2 ^ 16 /\ pd_closed (c_device c) = false;
}.

(** ** Lemmas on the parts *)

Lemma held_insert (l : list Batch) i a b : l !! i = Some a ->
  mjoin (batch_buffers <$> <[i := b]> l) ++ batch_buffers a ≡ₚ mjoin (batch_buffers <$> l) ++ batch_buffers b.
Proof.
  revert i. induction l as [|x l IH]; intros [|i] H; simplify_eq/=.
  - solve_Permutation.
  - rewrite <- !app_assoc. f_equiv. by apply IH.
Qed.

Lemma mask_mod c m x : length (c_pending c) = (2 ^ m)%nat -> 0 <= x ->
  Z.land x (pendingMask c) = x mod 2 ^ Z.of_nat m.
Proof.
  intros E Hx. unfold pendingMask. rewrite E, Nat2Z.inj_pow. change (Z.of_nat 2) with 2.
  replace (2 ^ Z.of_nat m - 1) with (Z.ones (Z.of_nat m)) by (rewrite Z.ones_equiv; lia). by rewrite Z.land_ones by lia.
Qed.

Lemma mod_wrap m x : (m <= 16)%nat -> wrap64 x mod 2 ^ Z.of_nat m = x mod 2 ^ Z.of_nat m.
Proof.
  intros H. unfold wrap64. apply Z.mod_mod_divide. exists (2 ^ (64 - Z.of_nat m)). rewrite <- Z.pow_add_r by lia. f_equal. lia.
Qed.

Lemma mod_apart m x a b : 0 <= a < 2 ^ m -> 0 <= b < 2 ^ m -> 0 <= m -> (x + a) mod 2 ^ m = (x + b) mod 2 ^ m -> a = b.
Proof.
  intros Ha Hb Hm E. assert (P : 0 < 2 ^ m) by lia. revert E P Ha Hb. generalize (2 ^ m). intros n E P Ha Hb.
  pose proof (Z.div_mod (x + a) n ltac:(lia)). pose proof (Z.div_mod (x + b) n ltac:(lia)).
  assert ((x + a) / n = (x + b) / n); [|lia]. nia.
Qed.

(** The ring position of a queue index. *)
Lemma ring_slot c q m k : queue_ok c q -> length (c_pending c) = (2 ^ m)%nat -> (m <= 16)%nat -> 0 <= k ->
  Z.land (c_head c + k) (pendingMask c) = (c_head c + k) mod 2 ^ Z.of_nat m /\
  Z.land (wrap64 (c_head c + k)) (pendingMask c) = (c_head c + k) mod 2 ^ Z.of_nat m /\
  (Z.to_nat ((c_head c + k) mod 2 ^ Z.of_nat m) < length (c_pending c))%nat.
Proof.
  intros Q E Hm Hk. pose proof (q_words _ _ Q). rewrite !(mask_mod c m) by (done || lia || apply Z.mod_pos_bound; lia).
  rewrite mod_wrap by done. split; [done|]. split; [done|]. rewrite E.
  pose proof (Z.mod_pos_bound (c_head c + k) (2 ^ Z.of_nat m) ltac:(lia)).
  assert (Z.of_nat (2 ^ m) = 2 ^ Z.of_nat m) by (by rewrite Nat2Z.inj_pow). lia.
Qed.

Lemma tail_eq c q : queue_ok c q -> c_tail c = wrap64 (c_head c + Z.of_nat (length q)).
Proof.
  intros Q. destruct (q_words _ _ Q) as [Hh Ht]. rewrite <- (q_length _ _ Q). unfold wrap64.
  rewrite Zplus_mod_idemp_r. replace (c_head c + (c_tail c - c_head c)) with (c_tail c) by lia. by rewrite Z.mod_small.
Qed.

Lemma queue_ext c c' q : c_pending c' = c_pending c -> c_head c' = c_head c -> c_tail c' = c_tail c -> queue_ok c q -> queue_ok c' q.
Proof.
  intros E1 E2 E3 [Q1 Q2 Q3 Q4 Q5]. assert (M : pendingMask c' = pendingMask c) by (unfold pendingMask; by rewrite E1).
  split; rewrite ?E1, ?E2, ?E3, ?M; done.
Qed.

Lemma queue_push c q bi : queue_ok c q -> (length q < length (c_pending c))%nat ->
  queue_ok (setQueue (<[Z.to_nat (Z.land (c_tail c) (pendingMask c)) := Some bi]> (c_pending c)) (c_head c) (wrap64 (c_tail c + 1)) c) (q ++ [bi]).
Proof.
  intros Q Hlt. pose proof Q as [(m & Hm & E) [Hh Ht] Hl Hb Hr].
  destruct (ring_slot c q m (Z.of_nat (length q)) Q E Hm ltac:(lia)) as (_ & S2 & S3). rewrite <- (tail_eq c q Q) in S2. rewrite S2.
  assert (Em : Z.of_nat (2 ^ m) = 2 ^ Z.of_nat m) by (by rewrite Nat2Z.inj_pow).
  split; simpl.
  - exists m. by rewrite length_insert.
  - split; [done|]. by apply Z.mod_pos_bound.
  - rewrite length_app. simpl. rewrite (tail_eq c q Q). unfold wrap64 in *.
    rewrite Zplus_mod_idemp_l, Zminus_mod_idemp_l. rewrite Z.mod_small; [lia|].
    assert (Z.of_nat (length q) < 2 ^ 16) by (rewrite E in Hlt; assert (2 ^ Z.of_nat m <= 2 ^ 16) by (apply Z.pow_le_mono_r; lia); lia). lia.
  - rewrite length_app, length_insert. simpl. lia.
  - intros k b Hk. unfold pendingMask. simpl. rewrite length_insert. fold (pendingMask c).
    destruct (ring_slot c q m (Z.of_nat k) Q E Hm ltac:(lia)) as (R1 & _ & R3). rewrite R1.
    destruct (decide (k = length q)) as [->|N].
    + rewrite lookup_app_r, Nat.sub_diag in Hk by done. simplify_eq/=. by rewrite list_lookup_insert_eq.
    + assert (Hk' : (k < length q)%nat) by (apply lookup_lt_Some in Hk; rewrite length_app in Hk; simpl in Hk; lia).
      rewrite lookup_app_l in Hk by done. rewrite list_lookup_insert_ne.
      * pose proof (Hr k b Hk) as H. by rewrite R1 in H.
      * intros X. apply Z2Nat.inj in X; [|apply Z.mod_pos_bound; lia..]. apply mod_apart in X; lia.
Qed.

Lemma queue_pop c bi q : queue_ok c (bi :: q) ->
  exists c', nextBatch c = (Some bi, c') /\ peekBatch c = Some bi /\ queue_ok c' q /\
    c' = setQueue (c_pending c') (c_head c') (c_tail c) c /\ length (c_pending c') = length (c_pending c).
Proof.
  intros Q. pose proof Q as [(m & Hm & E) [Hh Ht] Hl Hb Hr].
  assert (Ne : (c_head c =? c_tail c) = false).
  { apply Z.eqb_neq. intros X. rewrite X, Z.sub_diag in Hl. unfold wrap64 in Hl. rewrite Z.mod_0_l in Hl by done. cbn [length] in Hl. lia. }
  destruct (ring_slot c _ m 0 Q E Hm ltac:(lia)) as (R1 & _ & R3). rewrite Z.add_0_r in *.
  pose proof (Hr 0%nat bi eq_refl) as H0. rewrite Z.add_0_r in H0.
  assert (Em : Z.of_nat (2 ^ m) = 2 ^ Z.of_nat m) by (by rewrite Nat2Z.inj_pow).
  unfold nextBatch, peekBatch. rewrite Ne, H0. eexists. split; [done|]. split; [done|]. split; [|split; [done|simpl; by rewrite length_insert]].
  assert (Hw : forall k, wrap64 (wrap64 (c_head c + 1) + k) = wrap64 (c_head c + (1 + k))).
  { intros k. unfold wrap64. rewrite Zplus_mod_idemp_l. f_equal. lia. }
  split; simpl.
  - exists m. by rewrite length_insert.
  - split; [by apply Z.mod_pos_bound|done].
  - simpl in Hl. unfold wrap64 in *. rewrite Zminus_mod_idemp_r.
    replace (c_tail c - (c_head c + 1)) with ((c_tail c - c_head c) - 1) by lia. rewrite <- Zminus_mod_idemp_l, Hl.
    simpl in Hb. assert (Z.of_nat (length q) < 2 ^ 16).
    { rewrite E in Hb. assert (2 ^ Z.of_nat m <= 2 ^ 16) by (apply Z.pow_le_mono_r; lia). lia. }
    rewrite Z.mod_small; lia.
  - rewrite length_insert. simpl in Hb. lia.
  - intros k b Hk. unfold pendingMask. simpl. rewrite length_insert. fold (pendingMask c).
    destruct (ring_slot c _ m (1 + Z.of_nat k) Q E Hm ltac:(lia)) as (K1 & K2 & K3).
    assert (Hslot : Z.land (wrap64 (c_head c + 1) + Z.of_nat k) (pendingMask c) = (c_head c + (1 + Z.of_nat k)) mod 2 ^ Z.of_nat m).
    { rewrite (mask_mod c m) by (done || unfold wrap64; pose proof (Z.mod_pos_bound (c_head c + 1) (2 ^ 64)); lia).
      rewrite <- (mod_wrap m (wrap64 (c_head c + 1) + Z.of_nat k)), Hw, mod_wrap by done. done. }
    rewrite Hslot. pose proof (Hr (S k) b Hk) as Hk'. rewrite Nat2Z.inj_succ, <- Z.add_1_l in Hk'. rewrite K1 in Hk'.
    rewrite list_lookup_insert_ne; [done|]. rewrite R1. intros X. apply Z2Nat.inj in X; [|apply Z.mod_pos_bound; lia..].
    apply lookup_lt_Some in Hk. simpl in Hb. replace (c_head c) with (c_head c + 0) in X at 1 by lia. apply mod_apart in X; lia.
Qed.

Lemma queue_empty c : queue_ok c [] -> nextBatch c = (None, c) /\ peekBatch c = None.
Proof.
  intros Q. destruct (q_words _ _ Q) as [Hh Ht]. pose proof (tail_eq c [] Q) as Et. simpl in Et. rewrite Z.add_0_r in Et.
  unfold wrap64 in Et. rewrite Z.mod_small in Et by done. unfold nextBatch, peekBatch. by rewrite Et, Z.eqb_refl.
Qed.

Lemma stateOf_set c bi b b' fb ft x : c_batches c !! bi = Some b ->
  stateOf (setPools fb ft (setBatch bi b' c)) x = if decide (x = bi) then Some (bt_state b') else stateOf c x.
Proof.
  intros H. unfold stateOf. simpl. apply lookup_lt_Some in H. case_decide as E.
  - subst. by rewrite list_lookup_insert_eq.
  - by rewrite list_lookup_insert_ne.
Qed.

Lemma generations_set c bi b' fb ft (l : list nat) : bi ∉ l ->
  generationOf (setPools fb ft (setBatch bi b' c)) <$> l = generationOf c <$> l.
Proof.
  intros H. apply list_fmap_ext. intros i x Hx. unfold generationOf. simpl.
  rewrite list_lookup_insert_ne; [done|]. intros ->. apply H. by apply list_elem_of_lookup_2 in Hx.
Qed.

Lemma state_not_published infl q c bi b : inv infl q c -> c_batches c !! bi = Some b -> bt_state b <> batchPublished -> bi ∉ infl ++ q.
Proof. intros I H N Hin. apply (i_published _ _ _ I) in Hin. unfold stateOf in Hin. rewrite H in Hin. simpl in Hin. congruence. Qed.

(** Changing a batch that is not published, from state to state. *)
Lemma inv_batch infl q c bi b b' fb ft :
  inv infl q c -> c_batches c !! bi = Some b -> bt_state b <> batchPublished -> bt_state b' <> batchPublished ->
  fb ++ batch_buffers b' ≡ₚ c_freeBuffers c ++ batch_buffers b -> NoDup ft ->
  (forall x, x ∈ ft <-> if decide (x = bi) then bt_state b' = batchFree else x ∈ c_freeBatches c) ->
  Forall write_word (bt_root b' :: bt_pages b') ->
  inv infl q (setPools fb ft (setBatch bi b' c)).
Proof.
  intros I Hb N N' P Hnd Hft Hw. pose proof (state_not_published _ _ _ _ _ I Hb N) as Hni.
  destruct I as [I1 I2 I3 I4 I5 I6 I7 I8 I9 I10 I11 I12 I13].
  pose proof (generations_set c bi b' fb ft _ Hni) as Eg. split; simpl.
  - change (bufferCount (setPools fb ft (setBatch bi b' c))) with (bufferCount c). rewrite <- I1. unfold held. simpl.
    pose proof (held_insert (c_batches c) bi b b' Hb) as H. apply (Permutation_app_inv_l (batch_buffers b ++ batch_buffers b')).
    transitivity ((fb ++ batch_buffers b') ++ (mjoin (batch_buffers <$> <[bi:=b']> (c_batches c)) ++ batch_buffers b)); [solve_Permutation|].
    rewrite P, H. solve_Permutation.
  - done.
  - intros x. rewrite Hft, (stateOf_set c bi b b') by done. case_decide; [|apply I3]. split; [by intros ->|by intros [= ->]].
  - intros x. rewrite (stateOf_set c bi b b') by done. case_decide as E; [|apply I4]. subst. split; [done|]. by intros [= ?].
  - done.
  - destruct I6. by split.
  - by rewrite Eg.
  - intros g Hg. apply I8. by rewrite <- Eg.
  - done.
  - by rewrite length_insert.
  - intros x bx Hx Hs. apply list_lookup_insert_Some in Hx as [(-> & <- & _)|[_ Hx]]; [done|]. by apply (I11 x).
  - intros x bx Hx. apply list_lookup_insert_Some in Hx as [(-> & <- & _)|[_ Hx]]; [done|]. by apply (I12 x).
  - done.
Qed.

Lemma inv_words infl q c bi b : inv infl q c -> c_batches c !! bi = Some b -> write_word (bt_root b) /\ Forall write_word (bt_pages b).
Proof. intros I H. by apply Forall_cons, (i_words _ _ _ I bi). Qed.

(** A batch with new offsets and lengths. *)
Lemma write_word_set w off len kind : write_word w -> - 2 ^ 63 <= off < 2 ^ 63 -> 0 <= len <= 2 ^ 32 - 1 ->
  write_word (mkWrite off len (w_Buffer w) kind).
Proof. unfold write_word. simpl. lia. Qed.

Lemma owned_spec bi c b : ownedBatch bi c = Some b <-> c_batches c !! bi = Some b /\ bt_state b = batchOwned.
Proof.
  unfold ownedBatch. destruct (c_batches c !! bi) as [x|]; simpl; [|naive_solver]. case_decide; naive_solver.
Qed.

Lemma free_iff_ne infl q c bi b b' : inv infl q c -> c_batches c !! bi = Some b -> bt_state b <> batchFree -> bt_state b' <> batchFree ->
  forall x, x ∈ c_freeBatches c <-> if decide (x = bi) then bt_state b' = batchFree else x ∈ c_freeBatches c.
Proof.
  intros I Hb N N' x. case_decide as E; [|done]. subst. rewrite (i_free _ _ _ I). unfold stateOf. rewrite Hb. simpl. naive_solver.
Qed.

Lemma setPage_inv infl q c bi page off len kind c' : inv infl q c -> - 2 ^ 63 <= off < 2 ^ 63 -> setPage bi page off len kind c = Ok c' -> inv infl q c'.
Proof.
  intros I Ho. unfold setPage. destruct (ownedBatch bi c) as [b|] eqn:Eb; [|done]. apply owned_spec in Eb as [Hb Hs].
  case_match; [done|]. destruct (bt_pages b !! Z.to_nat page) as [w|] eqn:Ew; [|done]. case_match eqn:El; [done|]. intros [= <-].
  apply orb_false_iff in El as [El1%Z.ltb_ge El2%Z.ltb_ge]. destruct (inv_words _ _ _ _ _ I Hb) as [Wr Wp].
  replace (setBatch _ _ c) with (setPools (c_freeBuffers c) (c_freeBatches c) (setBatch bi
    (mkBatch (<[Z.to_nat page := mkWrite off len (w_Buffer w) kind]> (bt_pages b)) (bt_root b) (bt_rootGeneration b) (bt_generation b) (bt_state b)) c)) by done.
  eapply inv_batch; [done|done|by rewrite Hs|by simpl; rewrite Hs| |apply (i_batches _ _ _ I)| |].
  - f_equiv. unfold batch_buffers. simpl. rewrite Hs. f_equiv. rewrite list_fmap_insert. simpl. rewrite list_insert_id; [done|].
    by rewrite list_lookup_fmap, Ew.
  - eapply free_iff_ne; [done|done|by rewrite Hs|by simpl; rewrite Hs].
  - constructor; [done|]. apply Forall_insert; [done|]. apply write_word_set; [|done|lia]. by eapply Forall_lookup_1.
Qed.

Lemma ResizePages_inv infl q c bi n c' : inv infl q c -> ResizePages bi n c = Ok c' -> inv infl q c'.
Proof.
  intros I. unfold ResizePages. destruct (ownedBatch bi c) as [b|] eqn:Eb; [|done]. apply owned_spec in Eb as [Hb Hs].
  case_match; [done|]. intros [= <-].
  eapply inv_batch; [done|done|by rewrite Hs|by simpl; rewrite Hs| |apply (i_batches _ _ _ I)| |].
  - unfold batch_buffers. simpl. rewrite Hs, reverse_Permutation.
    assert (E : w_Buffer <$> bt_pages b = (w_Buffer <$> take (Z.to_nat n) (bt_pages b)) ++ (w_Buffer <$> drop (Z.to_nat n) (bt_pages b)))
      by (by rewrite <- fmap_app, take_drop).
    rewrite E. solve_Permutation.
  - eapply free_iff_ne; [done|done|by rewrite Hs|by simpl; rewrite Hs].
  - destruct (inv_words _ _ _ _ _ I Hb) as [Wr Wp]. constructor; [done|]. by apply Forall_take.
Qed.

(** The root write and the staging bytes of an owned batch. *)
Lemma inv_root infl q c bi b off len g : inv infl q c -> ownedBatch bi c = Some b -> - 2 ^ 63 <= off < 2 ^ 63 -> 0 <= len <= 2 ^ 32 - 1 ->
  inv infl q (setBatch bi (mkBatch (bt_pages b) (mkWrite off len (w_Buffer (bt_root b)) (w_kind (bt_root b))) g (bt_generation b) (bt_state b)) c).
Proof.
  intros I Eb Ho Hl. apply owned_spec in Eb as [Hb Hs]. destruct (inv_words _ _ _ _ _ I Hb) as [Wr Wp]. set (b' := mkBatch _ _ _ _ _).
  change (inv infl q (setPools (c_freeBuffers c) (c_freeBatches c) (setBatch bi b' c))).
  eapply inv_batch; [done|done|by rewrite Hs|by simpl; rewrite Hs|by unfold batch_buffers; simpl; rewrite Hs|apply (i_batches _ _ _ I)| |].
  - eapply free_iff_ne; [done|done|by rewrite Hs|by simpl; rewrite Hs].
  - constructor; [|done]. by apply write_word_set.
Qed.

Lemma inv_buffer infl q c index bytes : inv infl q c -> inv infl q (setDevice (writeBuffer index bytes (c_device c)) c).
Proof.
  intros [I1 I2 I3 I4 I5 I6 I7 I8 I9 I10 I11 I12 I13]. split; try done.
  - by eapply queue_ext; [..|exact I6].
  - destruct I13 as ((D1 & D2 & D3 & D4) & ? & ?). split; [|done]. split_and!; try done. simpl. by rewrite setBytes_length.
Qed.

Lemma SetRoot_inv infl q c bi off len c' : inv infl q c -> - 2 ^ 63 <= off < 2 ^ 63 -> SetRoot bi off len c = Ok c' -> inv infl q c'.
Proof.
  intros I Ho. unfold SetRoot. destruct (ownedBatch bi c) as [b|] eqn:Eb; [|done]. case_match eqn:El; [done|]. intros [= <-].
  apply orb_false_iff in El as [El1%Z.ltb_ge El2%Z.ltb_ge]. apply inv_root; [done|done|done|lia].
Qed.

Lemma SuperblockOffset_range g ps off : SuperblockOffset g ps = Ok off -> 0 <= off <= ps.
Proof.
  unfold SuperblockOffset, validPhysicalPageSize, physicalPageQuantum, superblockCopies.
  destruct ((g =? 0) || _) eqn:E; [done|]. intros [= <-]. bool_hyps.
  change (2 - 1) with (Z.ones 1). rewrite Z.land_ones by lia. pose proof (Z.mod_pos_bound (g - 1) (2 ^ 1)). nia.
Qed.

Lemma SetSuperblock_inv infl q c bi root : inv infl q c -> word_ok 4 (sb_PageSize root) -> inv infl q (SetSuperblock bi root c).2.
Proof.
  intros I W. unfold SetSuperblock. destruct (ownedBatch bi c) as [b|] eqn:Eb; [|done].
  destruct (Buffer _ _) as [buffer| |]; [|done..]. case_match; [done|].
  pose proof (inv_buffer infl q c (w_Buffer (bt_root b)) (replicate (Z.to_nat (sb_PageSize root)) 0) I) as I1.
  destruct (EncodeSuperblock _ root) as [rec| |]; [|done..].
  pose proof (inv_buffer infl q _ (w_Buffer (bt_root b)) rec I1) as I2.
  destruct (SuperblockOffset _ _) as [off| |] eqn:Eo; [|done..]. apply SuperblockOffset_range in Eo.
  unfold word_ok in W. eapply inv_root; [exact I2|exact Eb|lia|lia].
Qed.

Lemma Begin_inv infl q c n bi c' : inv infl q c -> Begin n c = BeginOk bi c' -> inv infl q c'.
Proof.
  intros I. unfold Begin. case_match; [done|]. case_match; [done|]. case_match; [done|].
  destruct (c_freeBatches c) as [|bi0 ft] eqn:Ef; [done|]. destruct (c_freeBuffers c !! Z.to_nat n) as [rb|] eqn:Er; [|done].
  intros [= -> <-]. pose proof (i_batches _ _ _ I) as Hnd. rewrite Ef in Hnd. apply NoDup_cons in Hnd as [Hni Hnd].
  assert (Hst : stateOf c bi = Some batchFree) by (apply (i_free _ _ _ I); rewrite Ef; constructor).
  unfold stateOf in Hst. destruct (c_batches c !! bi) as [b|] eqn:Eb; [|done]. injection Hst as Hst.
  set (b' := mkBatch _ _ _ _ _).
  replace (setBatch bi b' _) with (setPools (drop (S (Z.to_nat n)) (c_freeBuffers c)) ft (setBatch bi b' c)) by done.
  eapply inv_batch; [done|done|by rewrite Hst|done| |done| |].
  - unfold batch_buffers. simpl. rewrite Hst, app_nil_r.
    rewrite <- (take_drop_middle (c_freeBuffers c) (Z.to_nat n) rb Er) at 3.
    rewrite <- list_fmap_compose. unfold compose. simpl. rewrite list_fmap_id. solve_Permutation.
  - intros x. case_decide as E; [by subst|]. rewrite Ef, elem_of_cons. naive_solver.
  - assert (W : forall x, x ∈ c_freeBuffers c -> write_word (mkWrite 0 0 x 0)).
    { intros x Hx. assert (Hx' : x ∈ (Z.of_nat <$> seq 0 (Z.to_nat (bufferCount c)))) by (rewrite <- (i_buffers _ _ _ I); apply elem_of_app; by left).
      apply list_elem_of_fmap in Hx' as (k & -> & Hk%elem_of_seq). destruct (i_device _ _ _ I) as (_ & ? & _). unfold write_word. simpl. lia. }
    constructor; [by apply W; eapply list_elem_of_lookup_2|]. apply Forall_fmap, Forall_forall. intros x Hx. apply W.
    apply (elem_of_take _ _ _) in Hx as (k & Hk & _). by eapply list_elem_of_lookup_2.
Qed.

Lemma Abort_inv infl q c bi c' : inv infl q c -> Abort bi c = Ok c' -> inv infl q c'.
Proof.
  intros I. unfold Abort. destruct (ownedBatch bi c) as [b|] eqn:Eb; [|done]. apply owned_spec in Eb as [Hb Hs]. intros [= <-].
  unfold release. rewrite Hb. replace (setBatch _ _ _) with (setPools (w_Buffer (bt_root b) :: reverse (w_Buffer <$> bt_pages b) ++ c_freeBuffers c)
    (bi :: c_freeBatches c) (setBatch bi freeBatch c)) by done.
  eapply inv_batch; [done|done|by rewrite Hs|done| | | |].
  - unfold batch_buffers. simpl. rewrite Hs, reverse_Permutation. solve_Permutation.
  - constructor; [|apply (i_batches _ _ _ I)]. rewrite (i_free _ _ _ I). unfold stateOf. rewrite Hb. simpl. by rewrite Hs.
  - intros x. rewrite elem_of_cons. case_decide as E; naive_solver.
  - constructor; [|constructor]. unfold write_word. simpl. lia.
Qed.

Lemma last_sorted l (x y : Z) : StronglySorted Z.lt l -> x ∈ l -> last l = Some y -> x <= y.
Proof.
  induction 1 as [|a l S IH F]; [by intros ?%elem_of_nil|]. rewrite elem_of_cons. intros Hx Hl. rewrite List.Forall_forall in F.
  destruct l as [|b l]; simpl in Hl.
  - injection Hl as ->. destruct Hx as [->|?%elem_of_nil]; [lia|done].
  - destruct Hx as [->|Hx]; [|by apply IH]. assert (a < y); [|lia]. apply F, list_elem_of_In.
    by apply last_Some_elem_of.
Qed.

Lemma sorted_snoc (l : list Z) y : StronglySorted Z.lt l -> (forall x, x ∈ l -> x < y) -> StronglySorted Z.lt (l ++ [y]).
Proof.
  induction 1 as [|a l S IH F]; intros H; simpl; [constructor; constructor|]. constructor.
  - apply IH. intros x Hx. apply H. by constructor.
  - apply List.Forall_app. split; [done|]. constructor; [|constructor]. apply H. constructor.
Qed.

Lemma Publish_inv infl q c bi g c' : inv infl q c -> Publish bi g c = Ok c' -> inv infl (q ++ [bi]) c' /\ c_published c < g /\ c_published c' = g.
Proof.
  intros I. unfold Publish. destruct (ownedBatch bi c) as [b|] eqn:Eb; [|done]. apply owned_spec in Eb as [Hb Hs].
  destruct (c_failure c); [done|]. case_match; [done|]. case_match eqn:Eg; [done|]. case_match eqn:Er; [done|].
  destruct (validateCommit _ _ _ _ _) eqn:Ev; [done|]. case_match eqn:Eq; [done|]. intros [= <-].
  apply orb_false_iff in Eg as [_ Eg%Z.leb_gt]. apply Z.leb_gt in Eq.
  pose proof (state_not_published _ _ _ _ _ I Hb ltac:(by rewrite Hs)) as Hni.
  destruct I as [I1 I2 I3 I4 I5 I6 I7 I8 I9 I10 I11 I12 I13]. rewrite (q_length _ _ I6) in Eq.
  set (b' := mkBatch _ _ _ _ _). set (c1 := setBatch bi b' c).
  assert (Hlt : (bi < length (c_batches c))%nat) by (by apply lookup_lt_Some in Hb).
  assert (Est : forall c2 x, c_batches c2 = <[bi := b']> (c_batches c) -> stateOf c2 x = if decide (x = bi) then Some batchPublished else stateOf c x).
  { intros c2 x E. unfold stateOf. rewrite E. case_decide as D; [subst; by rewrite list_lookup_insert_eq|by rewrite list_lookup_insert_ne]. }
  set (c2 := setGenerations _ _ _). assert (Ec2 : c_batches c2 = <[bi := b']> (c_batches c)) by done.
  assert (Egen : generationOf c2 <$> (infl ++ q) = generationOf c <$> (infl ++ q)) by (apply (generations_set c bi b' (c_freeBuffers c) (c_freeBatches c)); done).
  assert (Ebi : generationOf c2 bi = g) by (unfold generationOf; rewrite Ec2, list_lookup_insert_eq by done; done).
  assert (Hmax : forall x, x ∈ generationOf c <$> infl ++ q -> x <= c_published c).
  { intros x Hx. destruct (last (generationOf c <$> infl ++ q)) as [y|] eqn:El.
    - rewrite <- (I8 y eq_refl). apply StronglySorted_inv in I7 as [I7 _]. by eapply last_sorted.
    - apply last_None in El. rewrite El in Hx. by apply elem_of_nil in Hx. }
  split; [|done]. split.
  - transitivity (c_freeBuffers c ++ held c); [|exact I1]. apply Permutation_app_head. unfold held. rewrite Ec2.
    apply (Permutation_app_inv_r (batch_buffers b)). rewrite (held_insert _ _ _ _ Hb). f_equiv. unfold batch_buffers. simpl. by rewrite Hs.
  - done.
  - intros x. rewrite (Est c2 x Ec2). change (c_freeBatches c2) with (c_freeBatches c). rewrite I3. case_decide as D; [|done].
    rewrite D. unfold stateOf. rewrite Hb. simpl. by rewrite Hs.
  - intros x. rewrite app_assoc, elem_of_app, list_elem_of_singleton, I4, (Est c2 x Ec2). case_decide as D; naive_solver.
  - rewrite app_assoc. apply NoDup_app. split; [done|]. split; [by intros x Hx ->%list_elem_of_singleton|]. apply NoDup_singleton.
  - eapply queue_ext; [..|apply (queue_push c q bi I6); lia]; done.
  - rewrite app_assoc, fmap_app, Egen. simpl. rewrite Ebi. change (c_durable c2) with (c_durable c).
    apply (sorted_snoc (c_durable c :: (generationOf c <$> infl ++ q))); [done|]. intros x [->|Hx]%elem_of_cons; [lia|].
    specialize (Hmax x Hx). lia.
  - rewrite app_assoc, fmap_app. simpl. rewrite last_snoc, Ebi. intros ? [= <-]. done.
  - simpl. lia.
  - rewrite Ec2. simpl. by rewrite !length_insert.
  - intros x bx. rewrite Ec2. intros Hx Hsx. apply list_lookup_insert_Some in Hx as [(-> & <- & _)|[_ Hx]]; [done|]. by apply (I11 x).
  - intros x bx. rewrite Ec2. intros Hx. apply list_lookup_insert_Some in Hx as [(-> & <- & _)|[_ Hx]]; [exact (I12 _ b Hb)|]. by apply (I12 x).
  - done.
Qed.

(** ** The worker *)

Lemma release_inv bi infl q c : inv (bi :: infl) q c -> inv infl q (release bi c).
Proof.
  intros [I1 I2 I3 I4 I5 I6 I7 I8 I9 I10 I11 I12 I13]. simpl in *.
  assert (Hst : stateOf c bi = Some batchPublished) by (apply I4; constructor). unfold stateOf in Hst.
  destruct (c_batches c !! bi) as [b|] eqn:Hb; [|done]. injection Hst as Hs. unfold release. rewrite Hb.
  apply NoDup_cons in I5 as [Hni I5].
  set (fb := w_Buffer (bt_root b) :: _). set (c' := setBatch bi freeBatch _).
  assert (Ec : c' = setPools fb (bi :: c_freeBatches c) (setBatch bi freeBatch c)) by done.
  pose proof (generations_set c bi freeBatch fb (bi :: c_freeBatches c) _ Hni) as Eg. rewrite <- Ec in Eg.
  assert (Est : forall x, stateOf c' x = if decide (x = bi) then Some batchFree else stateOf c x) by (intros x; rewrite Ec; by apply (stateOf_set c bi b)).
  assert (Hfb : bi ∉ c_freeBatches c) by (rewrite I3; unfold stateOf; rewrite Hb; simpl; by rewrite Hs).
  split.
  - transitivity (c_freeBuffers c ++ held c); [|exact I1].
    pose proof (held_insert (c_batches c) bi b freeBatch Hb) as H. rewrite app_nil_r in H. unfold held at 2. rewrite <- H.
    change (held c') with (mjoin (batch_buffers <$> <[bi := freeBatch]> (c_batches c))). change (c_freeBuffers c') with fb.
    unfold fb, batch_buffers at 3. rewrite Hs, reverse_Permutation. solve_Permutation.
  - by constructor.
  - intros x. rewrite Est. change (c_freeBatches c') with (bi :: c_freeBatches c). rewrite elem_of_cons, I3. case_decide as D; naive_solver.
  - intros x. rewrite Est. specialize (I4 x). rewrite elem_of_cons in I4. case_decide as D; [|naive_solver]. rewrite D in *. naive_solver.
  - done.
  - by eapply queue_ext; [..|exact I6].
  - rewrite Eg. apply StronglySorted_inv in I7 as [I7 F]. apply StronglySorted_inv in I7 as [I7 _]. constructor; [done|].
    by apply List.Forall_inv_tail in F.
  - intros g. rewrite Eg. intros Hg. apply I8. rewrite last_cons. change (list_fmap nat Z (generationOf c) (infl ++ q)) with (generationOf c <$> infl ++ q). by rewrite Hg.
  - done.
  - rewrite Ec. simpl. by rewrite length_insert.
  - intros x bx Hx Hsx. rewrite Ec in Hx. simpl in Hx. apply list_lookup_insert_Some in Hx as [(-> & <- & _)|[_ Hx]]; [done|]. by apply (I11 x).
  - intros x bx Hx. rewrite Ec in Hx. simpl in Hx. apply list_lookup_insert_Some in Hx as [(-> & <- & _)|[_ Hx]]; [|by apply (I12 x)].
    constructor; [|constructor]. unfold write_word. simpl. lia.
  - done.
Qed.

Lemma releaseAll_inv g infl q c : inv (g ++ infl) q c -> inv infl q (releaseAll g c).
Proof. revert c. induction g as [|bi g IH]; intros c I; simpl; [done|]. by apply IH, release_inv. Qed.

Lemma release_frame bi c : c_durable (release bi c) = c_durable c /\ c_published (release bi c) = c_published c /\
  c_failure (release bi c) = c_failure c /\ c_pending (release bi c) = c_pending c /\ c_options (release bi c) = c_options c.
Proof. unfold release. by destruct (c_batches c !! bi). Qed.

Lemma release_generations p d bi c : release bi (setGenerations p d c) = setGenerations p d (release bi c).
Proof. unfold release. simpl. by destruct (c_batches c !! bi). Qed.

Lemma releaseAll_generations p d g c : releaseAll g (setGenerations p d c) = setGenerations p d (releaseAll g c).
Proof. revert c. induction g as [|bi g IH]; intros c; simpl; [done|]. by rewrite release_generations, IH. Qed.

Lemma releaseAll_frame g c : c_durable (releaseAll g c) = c_durable c /\ c_published (releaseAll g c) = c_published c /\
  c_failure (releaseAll g c) = c_failure c /\ c_pending (releaseAll g c) = c_pending c /\ c_options (releaseAll g c) = c_options c.
Proof.
  revert c. induction g as [|bi g IH]; intros c; simpl; [done|]. destruct (IH (release bi c)) as (-> & -> & -> & -> & ->). apply release_frame.
Qed.

(** Taking the next batch moves it from the ring to the worker. *)
Lemma nextBatch_inv infl bi q c : inv infl (bi :: q) c ->
  exists c', nextBatch c = (Some bi, c') /\ peekBatch c = Some bi /\ inv (infl ++ [bi]) q c' /\
    c' = setQueue (c_pending c') (c_head c') (c_tail c) c /\ length (c_pending c') = length (c_pending c).
Proof.
  intros I. destruct (queue_pop c bi q (i_queue _ _ _ I)) as (c' & E & P & Q & Ec & El). exists c'.
  split; [done|]. split; [done|]. split; [|done].
  destruct I as [I1 I2 I3 I4 I5 I6 I7 I8 I9 I10 I11 I12 I13].
  assert (Eapp : (infl ++ [bi]) ++ q = infl ++ bi :: q) by (by rewrite <- app_assoc).
  split; rewrite ?Eapp; try exact Q; try rewrite Ec; try done.
  - simpl. by rewrite El.
Qed.

Definition sameBatches (c c' : Committer) : Prop :=
  c_batches c' = c_batches c /\ c_device c' = c_device c /\ c_options c' = c_options c /\ c_durable c' = c_durable c /\
  c_published c' = c_published c /\ c_failure c' = c_failure c /\ c_closing c' = c_closing c /\ length (c_pending c') = length (c_pending c).

Lemma groupLoop_spec fuel group writes c q :
  inv group q c -> writes = mjoin (pagesOf c <$> group) -> Z.of_nat (length writes) <= bufferCount c ->
  exists k c', groupLoop fuel group writes c = (group ++ take k q, mjoin (pagesOf c <$> group ++ take k q), c') /\
    inv (group ++ take k q) (drop k q) c' /\ sameBatches c c' /\
    Z.of_nat (length (mjoin (pagesOf c <$> group ++ take k q))) <= bufferCount c /\
    Z.of_nat (length (group ++ take k q)) <= Z.max (Z.of_nat (length group)) (GroupLimit (c_options c)).
Proof.
  revert group writes c q. induction fuel as [|fuel IH]; intros group writes c q I -> Hw; simpl.
  { exists 0%nat, c. rewrite take_0, drop_0, app_nil_r. split; [done|]. split; [done|]. split; [done|]. split; [done|lia]. }
  assert (Stop : exists k c', (group, mjoin (pagesOf c <$> group), c) = (group ++ take k q, mjoin (pagesOf c <$> group ++ take k q), c') /\
    inv (group ++ take k q) (drop k q) c' /\ sameBatches c c' /\
    Z.of_nat (length (mjoin (pagesOf c <$> group ++ take k q))) <= bufferCount c /\
    Z.of_nat (length (group ++ take k q)) <= Z.max (Z.of_nat (length group)) (GroupLimit (c_options c))).
  { exists 0%nat, c. rewrite take_0, drop_0, app_nil_r. split; [done|]. split; [done|]. split; [done|]. split; [done|lia]. }
  destruct (Z.ltb_spec (Z.of_nat (length group)) (GroupLimit (c_options c))) as [Hgl|_]; [|done].
  destruct q as [|bi q].
  { destruct (queue_empty c (i_queue _ _ _ I)) as [_ ->]. done. }
  destruct (nextBatch_inv group bi q c I) as (c1 & E1 & -> & I1 & Ec1 & El1). rewrite E1. simpl.
  destruct (Z.ltb_spec (bufferCount c) (Z.of_nat (length (mjoin (pagesOf c <$> group)) + length (pagesOf c bi)))) as [|Hfit]; [done|].
  assert (S1 : sameBatches c c1) by (rewrite Ec1 at 1; unfold sameBatches; rewrite Ec1; simpl; by rewrite El1).
  pose proof S1 as (B1 & B2 & B3 & _).
  assert (Pg : forall l, pagesOf c1 <$> l = pagesOf c <$> l) by (intros l; apply list_fmap_ext; intros; unfold pagesOf; by rewrite B1).
  assert (Bc : bufferCount c1 = bufferCount c) by (unfold bufferCount; by rewrite B2).
  destruct (IH (group ++ [bi]) (mjoin (pagesOf c <$> group) ++ pagesOf c bi) c1 q I1) as (k & c' & E & I' & S' & L' & G').
  - rewrite Pg, fmap_app, join_app. simpl. by rewrite app_nil_r.
  - rewrite Bc, length_app. lia.
  - exists (S k), c'. cbn [take drop]. rewrite !Pg, <- !app_assoc in E. rewrite <- !app_assoc in I'. rewrite Pg, <- app_assoc in L'.
    rewrite <- app_assoc in G'. rewrite Bc in L'. rewrite B3 in G'. cbn [app] in *. split; [done|]. split; [done|]. split; [|split; [done|]].
    + destruct S1 as (? & ? & ? & ? & ? & ? & ? & ?), S' as (? & ? & ? & ? & ? & ? & ? & ?). repeat split; congruence.
    + assert (length (group ++ [bi]) = S (length group)) by (rewrite length_app; simpl; lia).
      replace (group ++ bi :: take k q) with ((group ++ [bi]) ++ take k q) in * by (by rewrite <- app_assoc). lia.
Qed.
