(* ===== verification/GroupCommit.v ===== *)
(** * GroupCommit: the iterations of the committer's worker

    What one iteration of [run] (internal/storeio/committer_worker.go) commits,
    that it keeps the committer's invariant, and that the worker makes every
    published generation durable.  An example at the end shows a group of two
    generations write over the durable root. *)
From Stdlib Require Import ZArith Lia List Bool Sorted.
From stdpp Require Import base numbers list strings sets sorting relations.
From S2P Require Import Prelude Leases Bytes Page StateRoot FreeDirectory Superblock Device Committer.

Open Scope Z_scope.

(** ** Suppressed state roots *)

Definition isRoot (w : Write) : Prop := w_kind w = PageStateRoot.
#[export] Instance isRoot_dec w : Decision (isRoot w).
Proof. unfold isRoot. apply _. Defined.

Definition notRoot (w : Write) : Prop := ~ isRoot w.

Lemma isRoot_bool w : (w_kind w =? PageStateRoot) = bool_decide (isRoot w).
Proof. unfold isRoot. destruct (Z.eqb_spec (w_kind w) PageStateRoot); [by rewrite bool_decide_true|by rewrite bool_decide_false]. Qed.

Lemma latestState_spec i ws latest :
  (Forall notRoot ws /\ latestState i ws latest = latest) \/
  exists a w b, ws = a ++ w :: b /\ isRoot w /\ Forall notRoot b /\ latestState i ws latest = Some (i + length a)%nat.
Proof.
  revert i latest. induction ws as [|w ws IH]; intros i latest; simpl; [by left|]. rewrite isRoot_bool.
  destruct (IH (S i) (if bool_decide (isRoot w) then Some i else latest)) as [[F E]|(a & x & b & -> & Hx & Hb & E)].
  - rewrite E. case_bool_decide; [|by left; split; [constructor|]].
    right. exists [], w, ws. split; [done|]. split; [done|]. split; [done|]. simpl. f_equal. lia.
  - right. exists (w :: a), x, b. split; [done|]. split; [done|]. split; [done|]. rewrite E. simpl. f_equal. lia.
Qed.

Lemma suppress_none i j ws : Forall notRoot ws -> suppress i j ws = ws.
Proof.
  intros F. revert i. induction F as [|w ws Hw F IH]; intros i; simpl; [done|]. rewrite isRoot_bool, bool_decide_false by done.
  simpl. by rewrite IH.
Qed.

Lemma suppress_split i a w b : Forall notRoot b ->
  suppress i (i + length a) (a ++ w :: b) = filter notRoot a ++ w :: b.
Proof.
  intros Hb. revert i. induction a as [|x a IH]; intros i; cbn [app suppress length].
  - rewrite Nat.add_0_r, Nat.eqb_refl, andb_false_r. by rewrite suppress_none.
  - rewrite isRoot_bool. destruct (Nat.eqb_spec i (i + S (length a))) as [|_]; [lia|]. rewrite <- Nat.add_succ_comm, IH, filter_cons.
    unfold notRoot at 3. case_bool_decide; simpl; case_decide; done.
Qed.

Lemma suppressRoots_split ws :
  (Forall notRoot ws /\ suppressRoots ws = ws) \/
  exists a w b, ws = a ++ w :: b /\ isRoot w /\ Forall notRoot b /\ suppressRoots ws = filter notRoot a ++ w :: b.
Proof.
  unfold suppressRoots. destruct (latestState_spec 0 ws None) as [[F ->]|(a & w & b & -> & Hw & Hb & ->)]; [by left|].
  right. exists a, w, b. split; [done|]. split; [done|]. split; [done|]. by apply suppress_split.
Qed.

Lemma suppressRoots_sublist ws : suppressRoots ws `sublist_of` ws.
Proof.
  destruct (suppressRoots_split ws) as [[_ ->]|(a & w & b & -> & _ & _ & ->)]; [done|]. apply sublist_app; [|done]. apply sublist_filter.
Qed.

(** Only the last state root stays, everything else stays. *)
Lemma suppressRoots_filter ws :
  filter notRoot (suppressRoots ws) = filter notRoot ws /\ filter isRoot (suppressRoots ws) = option_list (last (filter isRoot ws)).
Proof.
  assert (Hn : forall l, Forall notRoot l -> filter isRoot l = []).
  { intros l F. induction F as [|x l Hx F IH]; [done|]. rewrite filter_cons. by case_decide. }
  destruct (suppressRoots_split ws) as [[F ->]|(a & w & b & -> & Hw & Hb & ->)].
  - rewrite (Hn ws F). done.
  - assert (Hf : forall l : list Write, filter notRoot (filter notRoot l) = filter notRoot l).
    { induction l as [|x l IH]; [done|]. rewrite !filter_cons. case_decide as D; [|done]. rewrite filter_cons. case_decide; [by rewrite IH|done]. }
    assert (Hz : filter isRoot (filter notRoot a) = []) by (apply Hn, Forall_forall; by intros x [Hx _]%list_elem_of_filter).
    rewrite !filter_app, !filter_cons, Hf, (Hn b Hb), Hz. destruct (decide (isRoot w)) as [_|]; [|done].
    destruct (decide (notRoot w)) as [N|_]; [by destruct N|]. by rewrite last_snoc.
Qed.

(** ** Sorting *)

Definition offset_le (a b : Write) : Prop := w_Offset a <= w_Offset b.

Lemma insertWrite_perm w l : insertWrite w l ≡ₚ w :: l.
Proof. induction l as [|x l IH]; simpl; [done|]. case_match; [done|]. rewrite IH. apply Permutation_swap. Qed.

Lemma sortWrites_perm l : sortWrites l ≡ₚ l.
Proof. induction l as [|w l IH]; simpl; [done|]. by rewrite insertWrite_perm, IH. Qed.

Lemma insertWrite_sorted w l : StronglySorted offset_le l -> StronglySorted offset_le (insertWrite w l).
Proof.
  induction 1 as [|x l S IH F]; simpl; [repeat constructor|]. destruct (Z.leb_spec (w_Offset w) (w_Offset x)).
  - constructor; [by constructor|]. constructor; [done|]. eapply Forall_impl; [exact F|]. unfold offset_le. lia.
  - constructor; [done|]. rewrite insertWrite_perm. constructor; [unfold offset_le; lia|done].
Qed.

Lemma sortWrites_sorted l : StronglySorted offset_le (sortWrites l).
Proof. induction l as [|w l IH]; simpl; [constructor|]. by apply insertWrite_sorted. Qed.

(** ** Disjoint writes *)

Definition disjointW (a b : Write) : Prop := precedes a b \/ precedes b a.

Lemma sorted_sublist {A} (R : A -> A -> Prop) l k : sublist l k -> StronglySorted R k -> StronglySorted R l.
Proof.
  induction 1 as [|x l k Sub IH|x l k Sub IH]; intros S; [constructor| |]; apply StronglySorted_inv in S as [S F].
  - constructor; [by apply IH|]. apply List.Forall_forall. intros y Hy. rewrite List.Forall_forall in F. apply F.
    apply list_elem_of_In. eapply elem_of_submseteq; [by apply list_elem_of_In|by apply sublist_submseteq].
  - by apply IH.
Qed.

Lemma pairwise_perm {A} (R : A -> A -> Prop) l k : Symmetric R -> l ≡ₚ k -> StronglySorted R l -> StronglySorted R k.
Proof.
  intros Sy P. induction P as [|x l k P IH|x y l|l k m P1 IH1 P2 IH2]; intros S; [done| | |by apply IH2, IH1].
  - apply StronglySorted_inv in S as [S F]. constructor; [by apply IH|]. by rewrite <- P.
  - apply StronglySorted_inv in S as [S F]. apply StronglySorted_inv in S as [S F']. apply Forall_cons in F as [Hxy F].
    constructor; [by constructor|]. constructor; [by symmetry|done].
Qed.

#[export] Instance disjointW_sym : Symmetric disjointW.
Proof. intros a b [H|H]; [by right|by left]. Qed.

Lemma sorted_precedes l : StronglySorted offset_le l -> StronglySorted disjointW l -> Forall (fun w => 0 < w_Length w) l ->
  StronglySorted precedes l.
Proof.
  induction 1 as [|w l S IH F]; intros D L; [constructor|]. apply StronglySorted_inv in D as [D FD]. apply Forall_cons in L as [Lw L].
  constructor; [by apply IH|]. apply Forall_forall. intros x Hx. rewrite Forall_forall in F, FD, L. specialize (F x Hx).
  specialize (L x Hx). destruct (FD x Hx) as [P|P]; [done|]. unfold precedes, offset_le in *. simpl in L. lia.
Qed.

(** ** Releasing and draining *)

Lemma releaseAll_other g c x : x ∉ g -> c_batches (releaseAll g c) !! x = c_batches c !! x.
Proof.
  revert c. induction g as [|bi g IH]; intros c Hx; simpl; [done|]. rewrite elem_of_cons in Hx.
  rewrite IH by naive_solver. unfold release. destruct (c_batches c !! bi) as [b|]; [|done]. simpl.
  apply list_lookup_insert_ne. naive_solver.
Qed.

(** Moving [durable] up to a generation below everything still queued. *)
Lemma inv_durable q c d : inv [] q c -> Forall (Z.lt d) (generationOf c <$> q) -> d <= c_published c ->
  inv [] q (setGenerations (c_published c) d c).
Proof.
  intros [I1 I2 I3 I4 I5 I6 I7 I8 I9 I10 I11 I12 I13] F Hd. split; try done.
  - by eapply queue_ext; [..|exact I6].
  - apply StronglySorted_inv in I7 as [I7 _]. by constructor.
Qed.

Lemma inv_flags infl q c f cl : inv infl q c -> inv infl q (setFlags f cl c).
Proof. intros [I1 I2 I3 I4 I5 I6 I7 I8 I9 I10 I11 I12 I13]. split; try done. by eapply queue_ext; [..|exact I6]. Qed.

Lemma setFailure_inv infl q c e : inv infl q c -> inv infl q (setFailure e c).
Proof. intros I. unfold setFailure, stopAccepting. destruct (c_failure c); [done|]. by apply inv_flags, inv_flags. Qed.

(** What releasing and draining leave alone. *)
Definition sameProgress (c c' : Committer) : Prop :=
  c_durable c' = c_durable c /\ c_published c' = c_published c /\ c_failure c' = c_failure c /\ c_closing c' = c_closing c.

Lemma release_progress bi c : sameProgress c (release bi c).
Proof. unfold release, sameProgress. by destruct (c_batches c !! bi). Qed.

Lemma sameProgress_trans a b c : sameProgress a b -> sameProgress b c -> sameProgress a c.
Proof. intros (? & ? & ? & ?) (? & ? & ? & ?). repeat split; congruence. Qed.

Lemma releaseAll_progress g c : sameProgress c (releaseAll g c).
Proof.
  revert c. induction g as [|bi g IH]; intros c; simpl; [done|]. eapply sameProgress_trans; [apply release_progress|apply IH].
Qed.

Lemma drainFailed_spec fuel c q : inv [] q c -> (length q < fuel)%nat ->
  inv [] [] (drainFailed fuel c) /\ sameProgress c (drainFailed fuel c).
Proof.
  revert c q. induction fuel as [|fuel IH]; intros c q I Hf; [lia|]. cbn [drainFailed]. destruct q as [|bi q].
  - destruct (queue_empty c (i_queue _ _ _ I)) as [-> _]. done.
  - destruct (nextBatch_inv [] bi q c I) as (c1 & -> & _ & I1 & Ec1 & _). cbn [app] in I1. apply release_inv in I1.
    cbn [length] in Hf. destruct (IH (release bi c1) q I1) as [J P]; [lia|]. split; [done|].
    eapply sameProgress_trans; [|exact P]. eapply sameProgress_trans; [|apply release_progress]. rewrite Ec1. done.
Qed.

(** ** One iteration *)

Definition rootOf (c : Committer) (bi : nat) : Write := bt_root (default freeBatch (c_batches c !! bi)).

(** The group, the writes submitted and the outcome of an iteration. *)
Record iteration (fault : faults) (c : Committer) (st : io_state) (q group : list nat) (latest : nat) (ws : list Write)
    (r : option io_error) (c' : Committer) (st' : io_state) : Prop := {
  it_group : exists rest, q = group ++ rest /\ (r = None -> inv [] rest c');
  it_latest : last group = Some latest;
  it_limit : Z.of_nat (length group) <= Z.max 1 (GroupLimit (c_options c));
  it_writes : ws ≡ₚ suppressRoots (mjoin (pagesOf c <$> group));
  it_sorted : StronglySorted offset_le ws;
  it_commit : Commit fault (c_device c) ws (rootOf c latest) st = (r, st');
  it_published : c_published c' = c_published c;
  it_durable : c_durable c' = match r with None => generationOf c latest | Some _ => c_durable c end;
  it_success : r = None -> c_failure c' = c_failure c /\ c_closing c' = c_closing c /\ c_device c' = c_device c /\ c_options c' = c_options c /\
    forall bi, bi ∈ q -> bi ∉ group -> c_batches c' !! bi = c_batches c !! bi;
  it_failure : forall e, r = Some e -> inv [] [] c' /\ c_closing c' = true /\ c_failure c' = Some e;
  it_other : c_device c' = c_device c /\ forall bi, bi ∉ q -> c_batches c' !! bi = c_batches c !! bi;
}.

Lemma releaseAll_device g c : c_device (releaseAll g c) = c_device c.
Proof. revert c. induction g as [|bi g IH]; intros c; simpl; [done|]. rewrite IH. unfold release. by destruct (c_batches c !! bi). Qed.

Lemma drainFailed_other fuel c q : inv [] q c ->
  c_device (drainFailed fuel c) = c_device c /\ forall x, x ∉ q -> c_batches (drainFailed fuel c) !! x = c_batches c !! x.
Proof.
  revert c q. induction fuel as [|fuel IH]; intros c q I; cbn [drainFailed]; [done|]. destruct q as [|bi q].
  - destruct (queue_empty c (i_queue _ _ _ I)) as [-> _]. done.
  - destruct (nextBatch_inv [] bi q c I) as (c1 & -> & _ & I1 & Ec1 & _). cbn [app] in I1. apply release_inv in I1.
    destruct (IH (release bi c1) q I1) as [-> Hx].
    assert (Er : c_device (release bi c1) = c_device c) by (transitivity (c_device c1); [apply (releaseAll_device [bi])|by rewrite Ec1]).
    split; [done|]. intros x Nx. rewrite elem_of_cons in Nx. rewrite Hx by naive_solver. transitivity (c_batches c1 !! x); [|by rewrite Ec1].
    apply (releaseAll_other [bi] c1 x). rewrite list_elem_of_singleton. naive_solver.
Qed.

Lemma sorted_app_lt (x : Z) l1 y l2 : StronglySorted Z.lt (x :: l1 ++ y :: l2) -> x < y /\ Forall (Z.lt y) l2.
Proof.
  intros [S F]%StronglySorted_inv. split.
  - rewrite List.Forall_forall in F. apply F, in_app_iff. right. by left.
  - clear F. induction l1 as [|z l1 IH]; simpl in S; apply StronglySorted_inv in S as [S F]; [done|]. by apply IH.
Qed.

Lemma held_sub infl q c bi b : inv infl q c -> c_batches c !! bi = Some b -> batch_buffers b ⊆+ held c.
Proof.
  intros _ H. unfold held. revert bi H. induction (c_batches c) as [|x l IH]; intros [|bi] H; simplify_eq/=.
  - apply submseteq_inserts_r. done.
  - apply submseteq_inserts_l. by eapply IH.
Qed.

Lemma pages_fit infl q c bi : inv infl q c -> bi ∈ infl ++ q -> Z.of_nat (length (pagesOf c bi)) <= bufferCount c.
Proof.
  intros I Hin. apply (i_published _ _ _ I) in Hin. unfold stateOf in Hin. unfold pagesOf.
  destruct (c_batches c !! bi) as [b|] eqn:Hb; [|done]. injection Hin as Hs. cbn [default from_option id].
  pose proof (held_sub _ _ _ _ _ I Hb) as Sub%submseteq_length. pose proof (Permutation_length (i_buffers _ _ _ I)) as L.
  rewrite length_app, length_fmap, length_seq in L. unfold batch_buffers in Sub. rewrite Hs in Sub. cbn [length] in Sub.
  rewrite length_fmap in Sub. destruct (i_device _ _ _ I) as ((D & _) & _). unfold bufferCount in *. lia.
Qed.

(** A committed group leaves the committer with the generation of its last
    batch durable. *)
Lemma advance_inv group rest latest c : inv group rest c -> last group = Some latest ->
  inv [] rest (setGenerations (c_published (releaseAll group c)) (generationOf c latest) (releaseAll group c)).
Proof.
  intros I Hl. destruct (releaseAll_progress group c) as (_ & R2 & _). pose proof (i_order _ _ _ I) as S.
  assert (I' : inv [] rest (releaseAll group c)) by (apply releaseAll_inv; by rewrite app_nil_r).
  apply inv_durable; [done| |].
  - assert (E : generationOf (releaseAll group c) <$> rest = generationOf c <$> rest).
    { apply list_fmap_ext. intros i x Hx. unfold generationOf. rewrite releaseAll_other; [done|].
      intros Hg. pose proof (i_nodup _ _ _ I) as N. apply NoDup_app in N as (_ & N & _). apply (N x Hg). by eapply list_elem_of_lookup_2. }
    rewrite E. apply last_Some in Hl as [g' Eg]. rewrite Eg, fmap_app, fmap_app, <- app_assoc in S. by apply sorted_app_lt in S as [_ S].
  - rewrite R2. destruct (last (generationOf c <$> group ++ rest)) as [y|] eqn:Ey.
    + rewrite <- (i_latest _ _ _ I y Ey). apply StronglySorted_inv in S as [S _]. eapply last_sorted; [exact S| |exact Ey].
      apply list_elem_of_fmap_2, elem_of_app. left. by apply last_Some_elem_of.
    + apply last_None in Ey. rewrite fmap_app in Ey. by destruct group.
Qed.

Lemma runOnce_iteration fault c st bi q : inv [] (bi :: q) c -> c_failure c = None ->
  exists group latest ws r c' st', runOnce fault c st = Some (c', st') /\ iteration fault c st (bi :: q) group latest ws r c' st'.
Proof.
  intros I Hf. destruct (nextBatch_inv [] bi q c I) as (c1 & E1 & _ & I1 & Ec1 & El1). cbn [app] in I1.
  unfold runOnce. rewrite E1.
  destruct (groupLoop_spec (length (c_pending c)) [bi] (pagesOf c1 bi) c1 q I1) as (k & c2 & EG & I2 & (B1 & B2 & B3 & B4 & B5 & B6 & B7 & B8) & _ & G2);
    [simpl; by rewrite app_nil_r|by eapply pages_fit; [exact I1|constructor]|].
  assert (F1 : c_batches c1 = c_batches c /\ c_device c1 = c_device c /\ c_options c1 = c_options c /\ c_durable c1 = c_durable c /\
    c_published c1 = c_published c /\ c_failure c1 = c_failure c /\ c_closing c1 = c_closing c) by (by rewrite Ec1).
  destruct F1 as (F1 & F2 & F3 & F4 & F5 & F6 & F7). rewrite F1 in B1. rewrite F2 in B2. rewrite F3 in B3, G2. rewrite F4 in B4.
  rewrite F5 in B5. rewrite F6 in B6. rewrite F7 in B7.
  assert (Pg : forall l, pagesOf c1 <$> l = pagesOf c <$> l) by (intros l; apply list_fmap_ext; intros; unfold pagesOf; by rewrite F1).
  rewrite EG, Pg. set (group := [bi] ++ take k q) in *.
  assert (Hl : exists latest, last group = Some latest).
  { unfold group. destruct (last ([bi] ++ take k q)) as [x|] eqn:E; [by exists x|]. by apply last_None in E. }
  destruct Hl as [latest Hl]. rewrite Hl. cbn [default from_option id]. rewrite B2, B1. fold (rootOf c latest). fold (generationOf c latest).
  assert (Eq : bi :: q = group ++ drop k q) by (unfold group; simpl; by rewrite take_drop).
  destruct (Commit fault (c_device c) _ (rootOf c latest) st) as [[e|] st'] eqn:EC.
  - assert (EF : setFailure e c2 = setFlags (Some e) true c2) by (unfold setFailure; by rewrite B6, Hf). rewrite EF.
    pose proof (inv_flags _ _ _ (Some e) true I2) as I3. rewrite <- (app_nil_r group) in I3. apply releaseAll_inv in I3.
    destruct (drainFailed_spec (S (length (c_pending c))) _ _ I3) as [I4 (P1 & P2 & P3 & P4)].
    { pose proof (q_bound _ _ (i_queue _ _ _ I)). apply (f_equal length) in Eq. rewrite length_app in Eq. lia. }
    destruct (releaseAll_progress group (setFlags (Some e) true c2)) as (R1 & R2 & R3 & R4).
    rewrite R1 in P1. rewrite R2 in P2. rewrite R3 in P3. rewrite R4 in P4. cbn [setFlags c_durable c_published c_failure c_closing] in P1, P2, P3, P4.
    exists group, latest, (sortWrites (suppressRoots (mjoin (pagesOf c <$> group)))), (Some e). do 2 eexists. split; [done|].
    split; [by eexists; split|done|cbn [length] in G2; lia|apply sortWrites_perm|apply sortWrites_sorted|done|by rewrite P2|by rewrite P1|done| |].
    + intros ? [= <-]. by rewrite P3, P4.
    + destruct (drainFailed_other (S (length (c_pending c))) _ _ I3) as [-> Hd]. rewrite releaseAll_device. split; [done|].
      intros x Hx. rewrite Eq, elem_of_app in Hx. rewrite Hd by naive_solver. rewrite releaseAll_other by naive_solver. cbn [setFlags c_batches]. by rewrite B1.
  - pose proof I2 as I3. rewrite <- (app_nil_r group) in I3. apply releaseAll_inv in I3.
    exists group, latest, (sortWrites (suppressRoots (mjoin (pagesOf c <$> group)))), None. do 2 eexists. split; [done|].
    rewrite releaseAll_generations. destruct (releaseAll_progress group c2) as (R1 & R2 & R3 & R4). destruct (releaseAll_frame group c2) as (_ & _ & _ & _ & R5).
    assert (Hother : forall x, x ∉ group -> c_batches (releaseAll group c2) !! x = c_batches c !! x) by (intros x Hx; by rewrite releaseAll_other, B1).
    split; [|done|cbn [length] in G2; lia|apply sortWrites_perm|apply sortWrites_sorted|done|simpl; congruence|done| |done|].
    + exists (drop k q). split; [done|]. intros _. rewrite <- R2. unfold generationOf. rewrite <- B1. by apply advance_inv.
    + intros _. cbn [setGenerations c_failure c_closing c_device c_options c_batches]. rewrite releaseAll_device. split_and!; [congruence|congruence|done|congruence|]. intros x _ Hx. by apply Hother.
    + cbn [setGenerations c_device c_batches]. rewrite releaseAll_device. split; [done|]. intros x Hx. apply Hother. rewrite Eq, elem_of_app in Hx. naive_solver.
Qed.

(** ** A group of disjoint batches is accepted *)

Lemma join_apart {A} (l : list (list A)) i j a b x : NoDup (mjoin l) -> l !! i = Some a -> l !! j = Some b -> x ∈ a -> x ∈ b -> i = j.
Proof.
  revert i j. induction l as [|y l IH]; intros i j N Hi Hj Ha Hb; [done|]. simpl in N. apply NoDup_app in N as (_ & Nx & N).
  destruct i as [|i], j as [|j]; simplify_eq/=; [done| | |f_equal; by eapply IH].
  - destruct (Nx x Ha). apply list_elem_of_join. exists b. split; [done|]. by eapply list_elem_of_lookup_2.
  - destruct (Nx x Hb). apply list_elem_of_join. exists a. split; [done|]. by eapply list_elem_of_lookup_2.
Qed.

Lemma join_elem {A} (l : list (list A)) i a : NoDup (mjoin l) -> l !! i = Some a -> NoDup a.
Proof.
  revert i. induction l as [|y l IH]; intros [|i] N Hi; simplify_eq/=; apply NoDup_app in N as (? & _ & ?); [done|]. by eapply IH.
Qed.

(** The buffers of the batches of a group are distinct. *)
Lemma group_buffers (l : list Batch) group : NoDup (mjoin (batch_buffers <$> l)) -> NoDup group ->
  (forall bi, bi ∈ group -> exists b, l !! bi = Some b /\ bt_state b = batchPublished) ->
  NoDup (w_Buffer <$> mjoin ((fun bi => bt_pages (default freeBatch (l !! bi))) <$> group)).
Proof.
  intros N Hg Hp. induction group as [|bi group IH]; [constructor|]. apply NoDup_cons in Hg as [Hni Hg].
  assert (Hmem : forall x y, y ∈ bi :: group -> x ∈ w_Buffer <$> bt_pages (default freeBatch (l !! y)) ->
    exists b, (batch_buffers <$> l) !! y = Some (batch_buffers b) /\ x ∈ batch_buffers b).
  { intros x y Hy Hx. destruct (Hp y Hy) as (b & Hb & Hs). exists b. rewrite list_lookup_fmap, Hb in *. split; [done|].
    unfold batch_buffers. rewrite Hs. by constructor. }
  change (NoDup (w_Buffer <$> (bt_pages (default freeBatch (l !! bi)) ++ mjoin ((fun bi => bt_pages (default freeBatch (l !! bi))) <$> group)))).
  rewrite fmap_app. apply NoDup_app. split; [|split].
  - destruct (Hp bi) as (b & Hb & Hs); [constructor|]. assert (Nb : NoDup (batch_buffers b)) by (eapply (join_elem _ bi); [exact N|by rewrite list_lookup_fmap, Hb]).
    rewrite Hb. unfold batch_buffers in Nb. rewrite Hs in Nb. by apply NoDup_cons in Nb as [_ Nb].
  - intros x Hx Hx'. apply list_elem_of_fmap in Hx' as (w & -> & Hw). apply list_elem_of_join in Hw as (ps & Hw & Hps).
    apply list_elem_of_fmap in Hps as (y & -> & Hy). apply Hni.
    destruct (Hmem _ bi ltac:(constructor) Hx) as (b1 & L1 & M1). destruct (Hmem (w_Buffer w) y ltac:(by constructor)) as (b2 & L2 & M2); [by apply list_elem_of_fmap_2|].
    by rewrite (join_apart _ _ _ _ _ _ N L1 L2 M1 M2).
  - apply IH; [done|]. intros y Hy. apply Hp. by constructor.
Qed.

(** The pages of the queue and the roots of its batches do not overlap. *)
Definition queue_disjoint (c : Committer) (q : list nat) : Prop :=
  StronglySorted disjointW (mjoin (pagesOf c <$> q)) /\
  forall bi w, bi ∈ q -> w ∈ mjoin (pagesOf c <$> q) -> disjointW w (rootOf c bi).

Lemma published_batch infl q c bi : inv infl q c -> bi ∈ infl ++ q ->
  exists b, c_batches c !! bi = Some b /\ bt_state b = batchPublished /\ Forall write_word (bt_pages b) /\ write_word (bt_root b) /\
    commit_valid (bufferCount c) (bufferSize c) (bt_pages b) (bt_root b).
Proof.
  intros I Hin. apply (i_published _ _ _ I) in Hin. unfold stateOf in Hin. destruct (c_batches c !! bi) as [b|] eqn:Hb; [|done].
  injection Hin as Hs. exists b. destruct (inv_words _ _ _ _ _ I Hb) as [Wr Wp]. destruct (i_device _ _ _ I) as ((D1 & D2 & D3 & D4) & _).
  split; [done|]. split; [done|]. split; [done|]. split; [done|].
  apply (validateCommit_valid _ _ (pd_seen (c_device c))); try done. by apply (i_valid _ _ _ I bi).
Qed.

Lemma group_valid c group rest latest ws : inv [] (group ++ rest) c -> queue_disjoint c (group ++ rest) -> last group = Some latest ->
  ws ≡ₚ suppressRoots (mjoin (pagesOf c <$> group)) -> StronglySorted offset_le ws ->
  Forall write_word ws /\ write_word (rootOf c latest) /\ commit_valid (bufferCount c) (bufferSize c) ws (rootOf c latest).
Proof.
  intros I [D1 D2] Hl P S. set (all := mjoin (pagesOf c <$> group)) in *.
  assert (Sub : suppressRoots all `sublist_of` all) by apply suppressRoots_sublist.
  assert (Hlat : latest ∈ group ++ rest) by (apply elem_of_app; left; by apply last_Some_elem_of).
  assert (Hall : forall w, w ∈ ws -> w ∈ all).
  { intros w. rewrite P. intros Hw. eapply elem_of_submseteq; [done|by apply sublist_submseteq]. }
  assert (Hpage : forall w, w ∈ all -> write_word w /\ write_valid (bufferCount c) (bufferSize c) w).
  { intros w (ps & Hw & Hps)%list_elem_of_join. apply list_elem_of_fmap in Hps as (bi & -> & Hbi).
    destruct (published_batch [] _ c bi I) as (b & Hb & _ & Wp & _ & V); [cbn [app]; apply elem_of_app; by left|]. unfold pagesOf in Hw. rewrite Hb in Hw. simpl in Hw.
    pose proof (cv_pages _ _ _ _ V) as F. rewrite Forall_forall in F, Wp. by split; [apply Wp|apply F]. }
  destruct (published_batch [] _ c latest I Hlat) as (b & Hb & _ & _ & Wr & V).
  assert (Er : rootOf c latest = bt_root b) by (unfold rootOf; by rewrite Hb). rewrite <- Er in *.
  split; [apply Forall_forall; intros w Hw; by apply Hpage, Hall|]. split; [done|].
  rewrite fmap_app, join_app in D1, D2. fold all in D1, D2.
  split.
  - apply Forall_forall. intros w Hw. by apply Hpage, Hall.
  - rewrite P. apply (sublist_NoDup _ (w_Buffer <$> all)); [|by apply fmap_sublist]. apply (group_buffers (c_batches c)).
    + pose proof (NoDup_fmap_2 Z.of_nat _ (NoDup_seq 0 (Z.to_nat (bufferCount c)))) as N. rewrite <- (i_buffers _ _ _ I) in N. by apply NoDup_app in N as (_ & _ & N).
    + pose proof (i_nodup _ _ _ I) as N. cbn [app] in N. by apply NoDup_app in N as (N & _).
    + intros bi Hbi. destruct (published_batch [] _ c bi I) as (b' & ? & ? & _); [cbn [app]; apply elem_of_app; by left|]. by exists b'.
  - apply sorted_precedes; [done| |].
    + eapply pairwise_perm; [apply _|symmetry; exact P|]. eapply sorted_sublist; [exact Sub|]. eapply sorted_sublist; [|exact D1]. apply sublist_inserts_r. done.
    + apply Forall_forall. intros w Hw. destruct (Hpage w (Hall w Hw)) as [_ (_ & ? & _)]. lia.
  - apply (cv_root _ _ _ _ V).
  - intros w Hw. apply (D2 latest w Hlat), elem_of_app. left. by apply Hall.
Qed.

(** ** Every published generation becomes durable *)

Definition noFaults : faults := fun _ => None.

Lemma device_writes_no_fault d ws st : device_ok d -> Forall write_word ws -> Forall (write_valid (pd_buffers d) (pd_bufferSize d)) ws ->
  (device_writes noFaults d ws st).1 = None.
Proof.
  intros Hd W V. revert st. induction ws as [|w ws IH]; intros st; [done|]. apply Forall_cons in W as [W1 W], V as [V1 V].
  cbn [device_writes]. unfold device_write. destruct (writeData_ok d w Hd W1 V1) as (data & -> & _). simpl. by apply IH.
Qed.

Lemma Commit_no_fault d ws root st : device_ok d -> pd_closed d = false -> Forall write_word ws -> write_word root ->
  commit_valid (pd_buffers d) (pd_bufferSize d) ws root -> (Commit noFaults d ws root st).1 = None.
Proof.
  intros Hd Hc W Wr V. pose proof Hd as (D1 & D2 & D3 & _). unfold Commit. rewrite Hc.
  assert (E : validateCommit (pd_buffers d) (pd_bufferSize d) (pd_seen d) ws root = None) by (by apply validateCommit_valid).
  rewrite E. pose proof (device_writes_no_fault d ws st Hd W (cv_pages _ _ _ _ V)) as E1.
  destruct (device_writes noFaults d ws st) as [r1 st1]. simpl in E1. subst r1.
  assert (E2 : exists st2, (if (length ws =? 0)%nat then (None, st1) else dataSync noFaults st1) = (None, st2)) by (case_match; by eexists).
  destruct E2 as [st2 ->]. unfold device_write.
  destruct (writeData_ok d root Hd Wr (cv_root _ _ _ _ V)) as (data & -> & _). done.
Qed.

(** The worker's loop, for [n] iterations. *)
Fixpoint runAll (fault : faults) (n : nat) (c : Committer) (st : io_state) : Committer * io_state :=
  match n with
  | O => (c, st)
  | S n => match runOnce fault c st with None => (c, st) | Some (c', st') => runAll fault n c' st' end
  end.

Lemma runOnce_accepted c st bi q : inv [] (bi :: q) c -> c_failure c = None -> queue_disjoint c (bi :: q) ->
  exists group rest latest c' st', runOnce noFaults c st = Some (c', st') /\ bi :: q = group ++ rest /\ last group = Some latest /\
    inv [] rest c' /\ c_failure c' = None /\ c_durable c' = generationOf c latest /\ c_published c' = c_published c /\
    forall x, x ∈ rest -> c_batches c' !! x = c_batches c !! x.
Proof.
  intros I Hf D. destruct (runOnce_iteration noFaults c st bi q I Hf) as (group & latest & ws & r & c' & st' & E & T).
  destruct (it_group _ _ _ _ _ _ _ _ _ _ T) as (rest & Eq & Ir). rewrite Eq in I, D.
  destruct (group_valid c group rest latest ws I D (it_latest _ _ _ _ _ _ _ _ _ _ T) (it_writes _ _ _ _ _ _ _ _ _ _ T) (it_sorted _ _ _ _ _ _ _ _ _ _ T))
    as (W & Wr & V).
  destruct (i_device _ _ _ I) as (Hd & _ & Hcl). pose proof (Commit_no_fault _ _ _ st Hd Hcl W Wr V) as Er.
  rewrite (it_commit _ _ _ _ _ _ _ _ _ _ T) in Er. simpl in Er. subst r.
  destruct (it_success _ _ _ _ _ _ _ _ _ _ T eq_refl) as (F1 & F2 & F3 & F4 & F5).
  exists group, rest, latest, c', st'. split; [done|]. split; [done|]. split; [apply (it_latest _ _ _ _ _ _ _ _ _ _ T)|].
  split; [by apply Ir|]. split; [congruence|]. split; [apply (it_durable _ _ _ _ _ _ _ _ _ _ T)|].
  split; [apply (it_published _ _ _ _ _ _ _ _ _ _ T)|]. intros x Hx. apply F5; [rewrite Eq; apply elem_of_app; by right|].
  intros Hg. pose proof (i_nodup _ _ _ I) as N. cbn [app] in N. apply NoDup_app in N as (_ & N & _). by apply (N x).
Qed.

Lemma queue_disjoint_rest c c' group rest : (forall x, x ∈ rest -> c_batches c' !! x = c_batches c !! x) ->
  queue_disjoint c (group ++ rest) -> queue_disjoint c' rest.
Proof.
  intros H [D1 D2]. rewrite fmap_app, join_app in D1, D2.
  assert (E : pagesOf c' <$> rest = pagesOf c <$> rest).
  { apply list_fmap_ext. intros i x Hx. unfold pagesOf. rewrite H; [done|]. by eapply list_elem_of_lookup_2. }
  split; rewrite E.
  - eapply sorted_sublist; [|exact D1]. apply sublist_inserts_l. done.
  - intros bi w Hb Hw. unfold rootOf. rewrite H by done. apply D2; apply elem_of_app; by right.
Qed.

Lemma runAll_durable n c st q : inv [] q c -> c_failure c = None -> queue_disjoint c q -> (length q <= n)%nat ->
  exists c' st', runAll noFaults n c st = (c', st') /\ inv [] [] c' /\ c_failure c' = None /\ c_durable c <= c_durable c' /\
    forall bi, bi ∈ q -> generationOf c bi <= c_durable c'.
Proof.
  revert c st q. induction n as [|n IH]; intros c st q I Hf D Hn.
  { destruct q; [|simpl in Hn; lia]. exists c, st. split; [done|]. split; [done|]. split; [done|]. split; [lia|]. by intros bi ?%elem_of_nil. }
  cbn [runAll]. destruct q as [|b q].
  { unfold runOnce. destruct (queue_empty c (i_queue _ _ _ I)) as [-> _]. exists c, st. split; [done|]. split; [done|]. split; [done|].
    split; [lia|]. by intros bi ?%elem_of_nil. }
  destruct (runOnce_accepted c st b q I Hf D) as (group & rest & latest & c1 & st1 & -> & Eq & Hl & I1 & F1 & Hd & Hp & Hb).
  rewrite Eq in *. assert (Hlen : (1 <= length group)%nat) by (destruct group; [done|simpl; lia]).
  destruct (IH c1 st1 rest I1 F1 (queue_disjoint_rest _ _ _ _ Hb D)) as (c' & st' & E & I' & F' & Hge & Hall).
  { rewrite length_app in Hn. lia. }
  exists c', st'. split; [done|]. split; [done|]. split; [done|]. pose proof (i_order _ _ _ I) as S. cbn [app] in S.
  assert (Hm : forall x, x ∈ group -> generationOf c x <= c_durable c1).
  { intros x Hx. rewrite Hd. rewrite fmap_app in S. apply StronglySorted_inv in S as [S _]. apply last_Some in Hl as [g' ->].
    rewrite fmap_app in S. eapply (sorted_sublist _ (generationOf c <$> g' ++ [latest])) in S.
    - eapply last_sorted; [exact S|by apply list_elem_of_fmap_2|]. rewrite fmap_app. apply last_snoc.
    - rewrite fmap_app. apply sublist_inserts_r. done. }
  split.
  - apply StronglySorted_inv in S as [_ S]. rewrite List.Forall_forall in S.
    assert (c_durable c < generationOf c latest); [|rewrite Hd in Hge; lia]. apply S, list_elem_of_In, list_elem_of_fmap_2, elem_of_app.
    left. by apply last_Some_elem_of.
  - intros x [Hx|Hx]%elem_of_app; [specialize (Hm x Hx); lia|]. specialize (Hall x Hx). unfold generationOf in *. by rewrite Hb in Hall.
Qed.

(** C12: every accepted publication becomes durable.  Take any state of the
    committer with batches queued whose pages overlap neither each other nor the
    roots.  The worker's loop, without I/O errors, accepts every group it forms
    (sorting the union of the batches gives writes in physical order with
    distinct buffers), empties the queue within as many iterations as there are
    batches, and [Wait] then returns for every queued generation. *)
Theorem worker_makes_durable (c : Committer) (st : io_state) (q : list nat) (n : nat) :
  inv [] q c -> c_failure c = None -> queue_disjoint c q -> (length q <= n)%nat ->
  exists c' st', runAll noFaults n c st = (c', st') /\ inv [] [] c' /\ c_failure c' = None /\
    forall bi done, bi ∈ q -> Wait done (generationOf c bi) c' = WaitDone.
Proof.
  intros I Hf D Hn.
  destruct (runAll_durable n c st q I Hf D Hn) as (c' & st' & E & I' & F' & _ & Hall). exists c', st'. split; [done|]. split; [done|]. split; [done|].
  intros bi dn Hin. specialize (Hall bi Hin). pose proof (i_durable _ _ _ I'). unfold Wait.
  destruct (Z.ltb_spec (c_published c') (generationOf c bi)); [lia|]. destruct (Z.leb_spec (generationOf c bi) (c_durable c')); [done|lia].
Qed.

(** ** The reachable states *)

(** A test on every value of [lo, lo + 2^d). *)
Fixpoint checkRange (test : Z -> bool) (d : nat) (lo : Z) : bool :=
  match d with
  | O => test lo
  | S d => checkRange test d lo && checkRange test d (lo + 2 ^ Z.of_nat d)
  end.

Lemma checkRange_spec test d lo v : checkRange test d lo = true -> lo <= v < lo + 2 ^ Z.of_nat d -> test v = true.
Proof.
  revert lo. induction d as [|d IH]; intros lo; cbn [checkRange].
  - simpl. intros H Hv. by replace v with lo by lia.
  - rewrite andb_true_iff, Nat2Z.inj_succ, Z.pow_succ_r by lia. intros [H1 H2] Hv.
    destruct (Z.lt_ge_cases v (lo + 2 ^ Z.of_nat d)); [apply (IH lo H1)|apply (IH _ H2)]; lia.
Qed.

Lemma nextPowerOfTwo_spec v : 1 <= v <= 2 ^ 16 -> exists m, (m <= 16)%nat /\ nextPowerOfTwo v = 2 ^ Z.of_nat m.
Proof.
  intros H. set (test := fun v => nextPowerOfTwo v =? 2 ^ Z.log2_up v).
  assert (T : test v = true) by (apply (checkRange_spec test 16 1); [vm_compute; reflexivity|lia]).
  apply Z.eqb_eq in T. pose proof (Z.log2_up_nonneg v). assert (Z.log2_up v <= 16) by (apply Z.log2_up_le_pow2; lia).
  exists (Z.to_nat (Z.log2_up v)). split; [lia|]. by rewrite Z2Nat.id.
Qed.

Lemma options_normalized_spec o bc o' : options_normalized o bc = Ok o' ->
  (exists m, (m <= 16)%nat /\ QueueSlots o' = 2 ^ Z.of_nat m) /\ 0 <= MaxPagesPerBatch o' < bc /\ 1 <= GroupLimit o' <= QueueSlots o' /\
  MaxPagesPerBatch o' * QueueSlots o' <= maxCommitDescriptors.
Proof.
  unfold options_normalized. set (qs := if QueueSlots o =? 0 then 64 else QueueSlots o).
  destruct ((qs <? 1) || (2 ^ 16 <? qs)) eqn:Eq; [done|]. apply orb_false_iff in Eq as [Q1%Z.ltb_ge Q2%Z.ltb_ge].
  set (mp := if MaxPagesPerBatch o =? 0 then bc - 1 else MaxPagesPerBatch o).
  destruct ((mp <? 0) || (bc <=? mp)) eqn:Em; [done|]. apply orb_false_iff in Em as [M1%Z.ltb_ge M2%Z.leb_gt].
  destruct (negb (mp =? 0) && (maxCommitDescriptors / mp <? nextPowerOfTwo qs)) eqn:Ed; [done|].
  set (gl := if GroupLimit o =? 0 then _ else _).
  destruct ((gl <? 1) || (nextPowerOfTwo qs <? gl)) eqn:Eg; [done|]. apply orb_false_iff in Eg as [G1%Z.ltb_ge G2%Z.ltb_ge].
  case_match; [done|]. intros [= <-]. cbn [QueueSlots MaxPagesPerBatch GroupLimit].
  destruct (nextPowerOfTwo_spec qs ltac:(lia)) as (m & Hm & E). split; [by exists m|]. split; [lia|]. split; [lia|].
  apply andb_false_iff in Ed as [Ed|Ed].
  - apply negb_false_iff, Z.eqb_eq in Ed. rewrite Ed. unfold maxCommitDescriptors. lia.
  - apply Z.ltb_ge in Ed. destruct (Z.eq_dec mp 0) as [->|]; [unfold maxCommitDescriptors; lia|].
    pose proof (Z.mul_div_le maxCommitDescriptors mp). nia.
Qed.

Lemma newCommitter_inv d o m : device_ok d -> pd_buffers d <= 2 ^ 16 -> pd_closed d = false -> (m <= 16)%nat -> QueueSlots o = 2 ^ Z.of_nat m ->
  inv [] [] (newCommitter d o).
Proof.
  intros Hd Hb Hc Hm E. unfold newCommitter. rewrite E.
  assert (Es : Z.to_nat (2 ^ Z.of_nat m) = (2 ^ m)%nat) by (rewrite <- (Nat2Z.id (2 ^ m)), Nat2Z.inj_pow; done). rewrite Es.
  split; cbn [c_freeBuffers c_batches c_freeBatches c_pending c_durable c_published c_device app].
  - unfold held. simpl. replace (mjoin (batch_buffers <$> replicate (2 ^ m) freeBatch)) with (@nil Z); [by rewrite app_nil_r|].
    clear. induction (2 ^ m)%nat as [|n IH]; [done|]. exact IH.
  - apply NoDup_seq.
  - intros bi. unfold stateOf. simpl. rewrite elem_of_seq. destruct (decide (bi < 2 ^ m)%nat).
    + rewrite lookup_replicate_2 by done. simpl. split; [done|lia].
    + destruct (replicate (2 ^ m) freeBatch !! bi) eqn:El; [apply lookup_replicate in El; lia|]. split; [lia|done].
  - intros bi. unfold stateOf. simpl. rewrite elem_of_nil. destruct (replicate (2 ^ m) freeBatch !! bi) eqn:El; [|done].
    apply lookup_replicate in El as [-> _]. done.
  - constructor.
  - split; cbn [c_pending c_head c_tail].
    + exists m. split; [done|]. apply length_replicate.
    + lia.
    + done.
    + simpl. lia.
    + done.
  - constructor; constructor.
  - done.
  - done.
  - by rewrite !length_replicate.
  - intros bi b. simpl. intros El. apply lookup_replicate in El as [-> _]. done.
  - intros bi b. simpl. intros El. apply lookup_replicate in El as [-> _]. constructor; [|constructor]. unfold write_word. simpl. lia.
  - done.
Qed.

(** One call of the producer or one iteration of the worker.  [int64] and
    [uint32] arguments are in range. *)
Inductive cstep : Committer * io_state -> Committer * io_state -> Prop :=
| StepBegin n bi c c' st : Begin n c = BeginOk bi c' -> cstep (c, st) (c', st)
| StepSetPage bi page off len kind c c' st : - 2 ^ 63 <= off < 2 ^ 63 -> setPage bi page off len kind c = Ok c' -> cstep (c, st) (c', st)
| StepFill index bytes c st : cstep (c, st) (setDevice (writeBuffer index bytes (c_device c)) c, st)
| StepResize bi n c c' st : ResizePages bi n c = Ok c' -> cstep (c, st) (c', st)
| StepSetRoot bi off len c c' st : - 2 ^ 63 <= off < 2 ^ 63 -> SetRoot bi off len c = Ok c' -> cstep (c, st) (c', st)
| StepSuperblock bi root c st : word_ok 4 (sb_PageSize root) -> cstep (c, st) ((SetSuperblock bi root c).2, st)
| StepPublish bi g c c' st : Publish bi g c = Ok c' -> cstep (c, st) (c', st)
| StepAbort bi c c' st : Abort bi c = Ok c' -> cstep (c, st) (c', st)
| StepInitialize g c c' st : 0 <= g -> InitializeGeneration g c = Ok c' -> cstep (c, st) (c', st)
| StepClose c st : cstep (c, st) (stopAccepting c, st)
| StepWorker fault c st c' st' : c_failure c = None -> runOnce fault c st = Some (c', st') -> cstep (c, st) (c', st').

Lemma Initialize_inv g c c' q : inv [] q c -> 0 <= g -> InitializeGeneration g c = Ok c' -> inv [] q c'.
Proof.
  intros I Hg. unfold InitializeGeneration. case_match eqn:E; [done|]. intros [= <-]. bool_hyps.
  assert (q = []) as ->.
  { destruct q as [|bi q]; [done|]. destruct (queue_pop c bi q (i_queue _ _ _ I)) as (c' & E & _). unfold nextBatch in E.
    match goal with H : c_head c = c_tail c |- _ => rewrite H, Z.eqb_refl in E end. done. }
  destruct I as [I1 I2 I3 I4 I5 I6 I7 I8 I9 I10 I11 I12 I13]. split; try done.
  - by eapply queue_ext; [..|exact I6].
  - simpl. constructor; constructor.
Qed.

(** Generations only advance, and the queue changes by a publication at its
    end, a group taken from its front, or a failure. *)
Definition queue_step (c c' : Committer) (q q' : list nat) : Prop :=
  q' = q \/ (exists bi, q' = q ++ [bi] /\ c_published c < c_published c') \/
  (exists group, group <> [] /\ q = group ++ q' /\ c_durable c < c_durable c') \/ (c_failure c' <> None /\ q' = []).

Lemma iteration_durable fault c st q group latest ws r c' st' : iteration fault c st q group latest ws r c' st' -> inv [] q c ->
  r = None -> c_durable c < c_durable c'.
Proof.
  intros T I ->. rewrite (it_durable _ _ _ _ _ _ _ _ _ _ T). destruct (it_group _ _ _ _ _ _ _ _ _ _ T) as (rest & -> & _).
  pose proof (i_order _ _ _ I) as S. apply StronglySorted_inv in S as [_ S]. rewrite List.Forall_forall in S.
  apply S, list_elem_of_In, list_elem_of_fmap_2. cbn [app]. apply elem_of_app. left. by apply last_Some_elem_of, (it_latest _ _ _ _ _ _ _ _ _ _ T).
Qed.

Lemma worker_step fault c st c' st' q : inv [] q c -> c_failure c = None -> runOnce fault c st = Some (c', st') ->
  exists q', inv [] q' c' /\ c_durable c <= c_durable c' /\ c_published c <= c_published c' /\ queue_step c c' q q'.
Proof.
  intros I Hf E. destruct q as [|bi q].
  { unfold runOnce in E. destruct (queue_empty c (i_queue _ _ _ I)) as [En _]. by rewrite En in E. }
  destruct (runOnce_iteration fault c st bi q I Hf) as (group & latest & ws & r & c2 & st2 & E2 & T). rewrite E2 in E. injection E as -> ->.
  pose proof (it_published _ _ _ _ _ _ _ _ _ _ T) as Hp. pose proof (iteration_durable _ _ _ _ _ _ _ _ _ _ T I) as Hd.
  destruct (it_group _ _ _ _ _ _ _ _ _ _ T) as (rest & Eq & Ir). destruct r as [e|].
  - destruct (it_failure _ _ _ _ _ _ _ _ _ _ T e eq_refl) as (I' & _ & F). pose proof (it_durable _ _ _ _ _ _ _ _ _ _ T) as Ed. simpl in Ed.
    exists []. split; [done|]. split; [lia|]. split; [lia|]. right. right. right. by rewrite F.
  - specialize (Hd eq_refl). exists rest. split; [by apply Ir|]. split; [lia|]. split; [lia|]. right. right. left. exists group.
    split; [|done]. intros ->. by pose proof (it_latest _ _ _ _ _ _ _ _ _ _ T).
Qed.

Lemma cstep_inv s s' q : cstep s s' -> inv [] q s.1 ->
  exists q', inv [] q' s'.1 /\ c_durable s.1 <= c_durable s'.1 /\ c_published s.1 <= c_published s'.1 /\ queue_step s.1 s'.1 q q'.
Proof.
  assert (Same : forall c c', inv [] q c' -> c_durable c' = c_durable c -> c_published c' = c_published c ->
    exists q', inv [] q' c' /\ c_durable c <= c_durable c' /\ c_published c <= c_published c' /\ queue_step c c' q q').
  { intros c c' I -> ->. exists q. split; [done|]. split; [lia|]. split; [lia|by left]. }
  destruct 1 as [n bi c c' st E|bi page off len kind c c' st Ho E|index bytes c st|bi n c c' st E|bi off len c c' st Ho E
    |bi root c st W|bi g c c' st E|bi c c' st E|g c c' st Hg E|c st|fault c st c' st' Hf E]; intros I; cbn [fst] in *.
  - apply Same; [by eapply Begin_inv| |]; unfold Begin in E; repeat case_match; simplify_eq; done.
  - apply Same; [by eapply setPage_inv| |]; unfold setPage in E; repeat case_match; simplify_eq; done.
  - apply Same; [by apply inv_buffer|done..].
  - apply Same; [by eapply ResizePages_inv| |]; unfold ResizePages in E; repeat case_match; simplify_eq; done.
  - apply Same; [by eapply SetRoot_inv; [exact I|exact Ho|exact E]| |]; unfold SetRoot in E; repeat case_match; simplify_eq; done.
  - apply Same; [by apply SetSuperblock_inv| |]; unfold SetSuperblock; repeat case_match; done.
  - destruct (Publish_inv _ _ _ _ _ _ I E) as (I' & Hp & Eg). exists (q ++ [bi]). split; [done|].
    assert (Ed : c_durable c' = c_durable c) by (clear - E; unfold Publish in E; repeat case_match; simplify_eq; done).
    split; [lia|]. split; [lia|]. right. left. exists bi. split; [done|lia].
  - apply Same; [by eapply Abort_inv| |]; unfold Abort in E; repeat case_match; simplify_eq; apply release_progress.
  - pose proof (Initialize_inv _ _ _ _ I Hg E) as I'. exists q. split; [done|]. unfold InitializeGeneration in E.
    case_match eqn:EE; [done|]. injection E as <-. bool_hyps. simpl. split; [lia|]. split; [lia|by left].
  - apply Same; [by apply inv_flags|done..].
  - by eapply worker_step.
Qed.

Definition opened (device : portableDevice) (o : CommitterOptions) (bufferCount bufferSize : Z) : Prop :=
  1 <= bufferCount <= 2 ^ 16 /\ 1 <= bufferSize < 2 ^ 32 /\ openPortableDevice bufferCount bufferSize = Ok device /\
  exists o0, options_normalized o0 bufferCount = Ok o.

Lemma opened_inv d o bc bs : opened d o bc bs -> inv [] [] (newCommitter d o).
Proof.
  intros (Hc & Hs & E & o0 & Eo). destruct (options_normalized_spec _ _ _ Eo) as [(m & Hm & Eq) _]. unfold openPortableDevice in E.
  case_match; [done|]. injection E as <-. eapply newCommitter_inv; [|simpl; lia|done|exact Hm|exact Eq].
  split; [simpl; lia|]. split; [simpl; lia|]. cbn [pd_buffers pd_seen pd_arena pd_bufferSize]. rewrite !length_replicate.
  split; [|done]. dlia.
Qed.

(** C10: the committer's invariant.  In every state the producer's calls and the
    worker's iterations reach from a fresh committer, whatever I/O fails: every
    staging buffer is free or belongs to exactly one batch in use, every batch
    is free, owned or published, the ring holds the published batches in
    strictly increasing generations above the durable one, ending at the newest
    published generation, and each of them passed [validateCommit]. *)
Theorem committer_invariant (d : portableDevice) (o : CommitterOptions) (bc bs : Z) (st : io_state) (s : Committer * io_state) :
  opened d o bc bs -> rtc cstep (newCommitter d o, st) s ->
  exists q, inv [] q s.1.
Proof.
  intros O R. assert (G : exists q, inv [] q (newCommitter d o, st).1) by (exists []; by eapply opened_inv). clear O.
  induction R as [x|x y z S R IH]; [done|]. apply IH. destruct G as [q I]. destruct (cstep_inv _ _ _ S I) as (q' & I' & _). by exists q'.
Qed.

(** C9: group commit.  One iteration of the worker takes a non-empty prefix of
    the queue of at most [GroupLimit] batches and submits one commit: in offset
    order, exactly the batches' pages less every state root but the newest
    batch's, under the root of the newest batch.  When the commit succeeds the
    durable generation is that batch's, the rest of the queue stays and the
    group's buffers are free again; when it fails the error sticks, the
    committer stops accepting, and every queued batch is released. *)
Theorem group_commit (fault : faults) (c : Committer) (st : io_state) (bi : nat) (q : list nat) :
  inv [] (bi :: q) c -> c_failure c = None ->
  exists group latest ws r c' st',
    runOnce fault c st = Some (c', st') /\ iteration fault c st (bi :: q) group latest ws r c' st' /\
    let all := mjoin (pagesOf c <$> group) in
    filter notRoot ws ≡ₚ filter notRoot all /\ filter isRoot ws = option_list (last (filter isRoot all)).
Proof.
  intros I Hf. destruct (runOnce_iteration fault c st bi q I Hf) as (group & latest & ws & r & c' & st' & E & T).
  exists group, latest, ws, r, c', st'. split; [done|]. split; [done|]. cbn zeta. pose proof (it_writes _ _ _ _ _ _ _ _ _ _ T) as P.
  destruct (suppressRoots_filter (mjoin (pagesOf c <$> group))) as [F1 F2]. split; [by rewrite P, F1|].
  rewrite <- F2. apply (filter_Permutation isRoot) in P. rewrite F2 in P |- *.
  destruct (last _); simpl in *; [by apply Permutation_singleton_r in P|by apply Permutation_nil_r in P].
Qed.

(** ** A store at generation one with generations two and three queued *)

Definition okOr {A} (d : A) (r : io_res A) : A := match r with Ok a => a | _ => d end.
Definition ex_device : portableDevice := okOr example_device (openPortableDevice 8 4096).
Definition ex_options : CommitterOptions := okOr (mkOptions 0 0 0 0) (options_normalized (mkOptions 4 2 0 0) 8).
Definition ex_fresh : Committer := newCommitter ex_device ex_options.
Definition ex_open : Committer := okOr ex_fresh (InitializeGeneration 1 ex_fresh).
Definition ex_root (g offset : Z) : Superblock :=
  mkSuperblock (replicate 16 7) g offset 4096 (PageChecksum (replicate (Z.to_nat 4096) 0)) (offset + 4096) 0 0 0 4096 0.
Definition ex_begin (c : Committer) : Committer := match Begin 1 c with BeginOk _ c' => c' | _ => c end.
Definition ex_page (bi : nat) (offset : Z) (c : Committer) : Committer := okOr c (setPage bi 0 offset 4096 PageStateRoot c).
Definition ex_super (bi : nat) (g offset : Z) (c : Committer) : Committer := (SetSuperblock bi (ex_root g offset) c).2.
Definition ex_publish (bi : nat) (g : Z) (c : Committer) : Committer := okOr c (Publish bi g c).
Definition ex_batch (bi : nat) (g offset : Z) (c : Committer) : Committer :=
  ex_publish bi g (ex_super bi g offset (ex_page bi offset (ex_begin c))).
Definition ex_one : Committer := ex_batch 0 2 12288 ex_open.
Definition ex_queued : Committer := ex_batch 1 3 16384 ex_one.
Definition ex_io : io_state := mkIO example_before [example_before] 0.

(** The third operation of the commit, the root write, stops after 100 bytes. *)
Definition ex_torn : faults := fun n => if (n =? 2)%nat then Some 100%nat else None.
Definition image_of (r : option (Committer * io_state)) : list Z := match r with Some (_, st) => flush (io_disk st) | None => [] end.
Definition failure_of (r : option (Committer * io_state)) : option io_error := match r with Some (c, _) => c_failure c | None => None end.
Definition ex_image : list Z := image_of (runOnce ex_torn ex_queued ex_io).

Lemma ex_batch_reached (s : Committer * io_state) bi g offset c st n c1 c2 c4 :
  rtc cstep s (c, st) -> Begin 1 c = BeginOk n c1 -> setPage bi 0 offset 4096 PageStateRoot c1 = Ok c2 ->
  Publish bi g (ex_super bi g offset c2) = Ok c4 -> - 2 ^ 63 <= offset < 2 ^ 63 ->
  rtc cstep s (c4, st).
Proof.
  intros R E1 E2 E4 Ho. eapply rtc_r; [|by eapply StepPublish]. eapply rtc_r; [|eapply StepSuperblock; unfold word_ok; simpl; lia].
  eapply rtc_r; [|by eapply StepSetPage]. eapply rtc_r; [exact R|by eapply StepBegin].
Qed.

Lemma ex_batch_inv q bi g offset c n c1 c2 c4 :
  inv [] q c -> Begin 1 c = BeginOk n c1 -> setPage bi 0 offset 4096 PageStateRoot c1 = Ok c2 ->
  Publish bi g (ex_super bi g offset c2) = Ok c4 -> - 2 ^ 63 <= offset < 2 ^ 63 -> inv [] (q ++ [bi]) c4.
Proof.
  intros I E1 E2 E4 Ho. apply (Begin_inv _ _ _ _ _ _ I) in E1. apply (setPage_inv _ _ _ _ _ _ _ _ _ E1 Ho) in E2.
  eapply (Publish_inv [] q _ bi g c4); [|exact E4]. apply SetSuperblock_inv; [done|]. unfold word_ok. simpl. lia.
Qed.

Lemma ex_opened : opened ex_device ex_options 8 4096.
Proof. split; [lia|]. split; [lia|]. split; [done|]. exists (mkOptions 4 2 0 0). done. Qed.

Lemma okOr_eq {A} (d : A) (r : io_res A) : is_ok r = true -> r = Ok (okOr d r).
Proof. by destruct r. Qed.

Lemma ex_begin_eq c n : (match Begin 1 c with BeginOk m _ => (m =? n)%nat | _ => false end) = true -> Begin 1 c = BeginOk n (ex_begin c).
Proof. unfold ex_begin. destruct (Begin 1 c) as [m c1|e|]; [|done..]. intros ->%Nat.eqb_eq. done. Qed.

(** Every call of [ex_batch] succeeds. *)
Definition ex_batch_ok (bi : nat) (g offset : Z) (c : Committer) : bool :=
  (match Begin 1 c with BeginOk m _ => (m =? bi)%nat | _ => false end) &&
  is_ok (setPage bi 0 offset 4096 PageStateRoot (ex_begin c)) &&
  is_ok (Publish bi g (ex_super bi g offset (ex_page bi offset (ex_begin c)))).

Lemma ex_batch_eqs bi g offset c : ex_batch_ok bi g offset c = true ->
  Begin 1 c = BeginOk bi (ex_begin c) /\
  setPage bi 0 offset 4096 PageStateRoot (ex_begin c) = Ok (ex_page bi offset (ex_begin c)) /\
  Publish bi g (ex_super bi g offset (ex_page bi offset (ex_begin c))) = Ok (ex_batch bi g offset c).
Proof.
  unfold ex_batch_ok. rewrite !andb_true_iff. intros [[H1 H2] H3]. split; [by apply ex_begin_eq|]. split; [by apply okOr_eq|].
  unfold ex_batch, ex_publish. by apply okOr_eq.
Qed.

Lemma ex_open_eq : InitializeGeneration 1 ex_fresh = Ok ex_open.
Proof. unfold ex_open. apply okOr_eq. vm_compute. reflexivity. Qed.

Lemma ex_one_eqs : Begin 1 ex_open = BeginOk 0 (ex_begin ex_open) /\
  setPage 0 0 12288 4096 PageStateRoot (ex_begin ex_open) = Ok (ex_page 0 12288 (ex_begin ex_open)) /\
  Publish 0 2 (ex_super 0 2 12288 (ex_page 0 12288 (ex_begin ex_open))) = Ok ex_one.
Proof. unfold ex_one. apply ex_batch_eqs. vm_compute. reflexivity. Qed.

Lemma ex_queued_eqs : Begin 1 ex_one = BeginOk 1 (ex_begin ex_one) /\
  setPage 1 0 16384 4096 PageStateRoot (ex_begin ex_one) = Ok (ex_page 1 16384 (ex_begin ex_one)) /\
  Publish 1 3 (ex_super 1 3 16384 (ex_page 1 16384 (ex_begin ex_one))) = Ok ex_queued.
Proof. unfold ex_queued. apply ex_batch_eqs. vm_compute. reflexivity. Qed.

Lemma ex_reached : rtc cstep (newCommitter ex_device ex_options, ex_io) (ex_queued, ex_io).
Proof.
  fold ex_fresh.
  destruct ex_one_eqs as (B1 & P1 & E1), ex_queued_eqs as (B2 & P2 & E2).
  eapply ex_batch_reached; [|exact B2|exact P2|exact E2|lia]. eapply ex_batch_reached; [|exact B1|exact P1|exact E1|lia].
  eapply rtc_once, StepInitialize; [|exact ex_open_eq]. lia.
Qed.

Lemma ex_inv : inv [] [0%nat; 1%nat] ex_queued.
Proof.
  destruct ex_one_eqs as (B1 & P1 & E1), ex_queued_eqs as (B2 & P2 & E2).
  eapply (ex_batch_inv [0%nat]); [|exact B2|exact P2|exact E2|lia]. eapply (ex_batch_inv []); [|exact B1|exact P1|exact E1|lia].
  eapply Initialize_inv; [exact (opened_inv _ _ _ _ ex_opened)| |exact ex_open_eq]. lia.
Qed.

Lemma ex_disjoint : queue_disjoint ex_queued [0%nat; 1%nat].
Proof.
  assert (E : mjoin (pagesOf ex_queued <$> [0%nat; 1%nat]) = [mkWrite 12288 4096 0 1; mkWrite 16384 4096 2 1] /\
    rootOf ex_queued 0 = mkWrite 4096 4096 1 0 /\ rootOf ex_queued 1 = mkWrite 0 4096 3 0) by (vm_compute; done).
  destruct E as (E & R0 & R1). split; rewrite E.
  - constructor; [constructor; constructor|]. constructor; [|constructor]. left. unfold precedes. simpl. lia.
  - intros bi w Hb Hw. rewrite !elem_of_cons, elem_of_nil in Hb. rewrite !elem_of_cons, elem_of_nil in Hw.
    destruct Hb as [->|[->|[]]]; rewrite ?R0, ?R1; destruct Hw as [->|[->|[]]]; right; unfold precedes; simpl; lia.
Qed.

Lemma committer_invariant_witness : exists q, inv [] q (ex_queued, ex_io).1.
Proof. exact (committer_invariant ex_device ex_options 8 4096 ex_io (ex_queued, ex_io) ex_opened ex_reached). Defined.

Lemma worker_makes_durable_witness :
  exists c' st', runAll noFaults 2 ex_queued ex_io = (c', st') /\ inv [] [] c' /\ c_failure c' = None /\
    forall bi done, bi ∈ [0%nat; 1%nat] -> Wait done (generationOf ex_queued bi) c' = WaitDone.
Proof.
  apply (worker_makes_durable ex_queued ex_io [0%nat; 1%nat] 2).
  - exact ex_inv.
  - vm_compute. reflexivity.
  - exact ex_disjoint.
  - simpl. lia.
Defined.

Lemma group_commit_witness :
  exists group latest ws r c' st',
    runOnce ex_torn ex_queued ex_io = Some (c', st') /\ iteration ex_torn ex_queued ex_io [0%nat; 1%nat] group latest ws r c' st' /\
    let all := mjoin (pagesOf ex_queued <$> group) in
    filter notRoot ws ≡ₚ filter notRoot all /\ filter isRoot ws = option_list (last (filter isRoot all)).
Proof.
  apply (group_commit ex_torn ex_queued ex_io 0 [1%nat]).
  - exact ex_inv.
  - vm_compute. reflexivity.
Defined.

(** A crash may leave every issued write complete. *)
Lemma flush_crash_image d : crash_image d (flush d).
Proof.
  destruct d as [f ws]. split; [apply flush_length|]. intros i x Hx Hc. simpl in Hx. rewrite <- Hx. apply flush_out; [|by apply lookup_lt_Some in Hx].
  intros w Hw. destruct (decide (w.1 <= i < w.1 + length w.2)%nat); [|lia]. destruct Hc. by exists w.
Qed.

Lemma run_failed r e : failure_of r = Some e -> exists c st, r = Some (c, st) /\ c_failure c = Some e /\ image_of r = flush (io_disk st).
Proof. destruct r as [[c st]|]; [|done]. intros H. by exists c, st. Qed.

(** On an example, a group of two generations replaces the root it should fall
    back to.  The committer is open on a store whose durable root, generation one, is
    intact in slot 0, with generations two and three published; the worker
    groups them, and the superblock of generation three belongs to slot 0.  When
    its write tears, the failed commit leaves a file from which recovery finds
    no superblock at all, although generation one was durable. *)
Example group_overwrites_durable_root :
  rtc cstep (newCommitter ex_device ex_options, ex_io) (ex_queued, ex_io) /\ c_durable ex_queued = 1 /\
  RecoverSuperblock (reopened (flush (io_disk ex_io))) 4096 (Z.to_nat 4096) = Ok (example_live, 0%nat) /\
  exists c' st', runOnce ex_torn ex_queued ex_io = Some (c', st') /\ c_failure c' = Some ErrIO /\
    crash_image (io_disk st') ex_image /\
    RecoverSuperblock (reopened ex_image) 4096 (Z.to_nat 4096) = Err ErrSuperblockNotFound.
Proof.
  split; [exact ex_reached|]. split; [vm_compute; reflexivity|]. split; [vm_compute; reflexivity|].
  assert (Hf : failure_of (runOnce ex_torn ex_queued ex_io) = Some ErrIO) by (vm_compute; reflexivity).
  destruct (run_failed _ _ Hf) as (c' & st' & E & F & Ei). exists c', st'. split; [exact E|]. split; [exact F|].
  split; [|vm_compute; reflexivity]. unfold ex_image. rewrite Ei. apply flush_crash_image.
Qed.
