(* ===== verification/WriteTx.v ===== *)
(** * WriteTx: copy-on-write transactions over the committer

    Models internal/storeio/write_transaction.go.  A transaction takes a batch of
    the [Committer], allocates page extents from a reusable pool or above the end
    of the file, stages pages and publishes one state root.  The pool is the
    caller's slice, edited in place and restored by [Abort] from the journal; a
    page's bytes are the staging buffer of the device, not a copy.  The page
    cache is an interface: [Stage] admits a page to it and [Abort] discards what
    the generation admitted. *)
From Stdlib Require Import ZArith Lia List Bool Sorted.
From stdpp Require Import base numbers list strings sets sorting relations.
From S2P Require Import Prelude Leases Bytes Page StateRoot FreeDirectory Superblock Device Committer GroupCommit.

Open Scope Z_scope.

(** ** The page cache as its client sees it *)

Class DirtyCache := {
  cache : Type;
  AdmitDirty : PageRef -> list Z -> Z -> cache -> option io_error * cache;
  DiscardDirty : Z -> cache -> option io_error * cache;
}.

(** A nil cache: nothing is admitted or discarded. *)
#[export] Instance nilCache : DirtyCache := {|
  cache := unit;
  AdmitDirty := fun _ _ _ k => (None, k);
  DiscardDirty := fun _ k => (None, k);
|}.

(** ** Data *)

Record WriteTransactionOptions := mkTxOptions {
  o_StoreID : list Z; o_Generation : Z; o_PageSize : Z; o_FileEnd : Z; o_NextLogicalID : Z; o_SingleReuseExtent : bool;
  o_JournalCap : nat }.

Record ReuseEdit := mkEdit { ed_Index : nat; ed_Before : FreeExtent }.

(** [t_reusable] is [options.Reusable]; the batch is its index, [None] as nil;
    [t_reuseIndex] and [t_reuseExclude] are [None] where the code has [-1]. *)
Record WriteTransaction := mkTx {
  t_batch : option nat;
  t_options : WriteTransactionOptions;
  t_reusable : list FreeExtent;
  t_fileEnd : Z;
  t_nextID : Z;
  t_allocated : nat;
  t_reuseEdits : list ReuseEdit;
  t_reuseEnabled : bool;
  t_reuseIndex : option nat;
  t_reuseStart : nat;
  t_reuseEnd : nat;
  t_reuseExclude : option nat;
  t_active : bool;
}.

(** A page of a transaction: its slot, its reference, and the device buffer its
    bytes alias. *)
Record TransactionPage := mkTxPage { p_index : nat; p_ref : PageRef; p_buffer : Z }.

Definition setNextID (n : Z) (t : WriteTransaction) : WriteTransaction :=
  mkTx (t_batch t) (t_options t) (t_reusable t) (t_fileEnd t) n (t_allocated t) (t_reuseEdits t) (t_reuseEnabled t) (t_reuseIndex t)
    (t_reuseStart t) (t_reuseEnd t) (t_reuseExclude t) (t_active t).
Definition setReuse (r : list FreeExtent) (edits : list ReuseEdit) (index : option nat) (t : WriteTransaction) : WriteTransaction :=
  mkTx (t_batch t) (t_options t) r (t_fileEnd t) (t_nextID t) (t_allocated t) edits (t_reuseEnabled t) index
    (t_reuseStart t) (t_reuseEnd t) (t_reuseExclude t) (t_active t).
Definition setAllocated (n : nat) (fileEnd : Z) (t : WriteTransaction) : WriteTransaction :=
  mkTx (t_batch t) (t_options t) (t_reusable t) fileEnd (t_nextID t) n (t_reuseEdits t) (t_reuseEnabled t) (t_reuseIndex t)
    (t_reuseStart t) (t_reuseEnd t) (t_reuseExclude t) (t_active t).
Definition setRange (enabled : bool) (index : option nat) (start stop : nat) (exclude : option nat) (t : WriteTransaction) : WriteTransaction :=
  mkTx (t_batch t) (t_options t) (t_reusable t) (t_fileEnd t) (t_nextID t) (t_allocated t) (t_reuseEdits t) enabled index start stop exclude
    (t_active t).
Definition deactivate (t : WriteTransaction) : WriteTransaction :=
  mkTx None (t_options t) (t_reusable t) (t_fileEnd t) (t_nextID t) (t_allocated t) (t_reuseEdits t) (t_reuseEnabled t) (t_reuseIndex t)
    (t_reuseStart t) (t_reuseEnd t) (t_reuseExclude t) false.

(** ** Beginning *)

Inductive tx_result := TxOk (t : WriteTransaction) (c : Committer) | TxErr (e : io_error) | TxWaits.

Definition BeginWriteTransaction (maxPages : Z) (o : WriteTransactionOptions) (reusable : list FreeExtent) (c : Committer) : tx_result :=
  if forallb (Z.eqb 0) (o_StoreID o) || (o_Generation o =? 0) || negb (validPhysicalPageSize (o_PageSize o)) ||
     (o_FileEnd o <? superblockCopies * o_PageSize o) || negb (o_FileEnd o mod o_PageSize o =? 0) ||
     (maxSuperblockFileOffset <? o_FileEnd o) || (o_NextLogicalID o <=? StateRootLogicalID)
  then TxErr (ErrInvalidWrite "transaction identity or bounds")
  else match Begin maxPages c with
  | BeginErr e => TxErr e
  | BeginWaits => TxWaits
  | BeginOk bi c' =>
      TxOk (mkTx (Some bi) o reusable (o_FileEnd o) (o_NextLogicalID o) 0 [] true None 0 (length reusable) None true) c'
  end.

(** ** Allocation *)

Definition variableTransactionExtent (kind : Z) : bool :=
  (kind =? PageDocument) || (kind =? PageOverflow) || (kind =? PageFloat64Stripe) || (kind =? PageIndexGroupCatalog).

Definition zeroExtent : FreeExtent := mkExtent 0 0 0.

Definition allocateFromReusable (index : nat) (extent : FreeExtent) (want : Z) (t : WriteTransaction) : io_res (Z * bool) * WriteTransaction :=
  let o := t_options t in
  if (Offset extent <? 2 * o_PageSize o) || negb (Offset extent mod o_PageSize o =? 0) || negb (Length extent mod o_PageSize o =? 0) ||
     (o_FileEnd o <? Length extent) || (o_FileEnd o - Length extent <? Offset extent) || (RetiredGeneration extent =? 0) ||
     (o_Generation o <=? RetiredGeneration extent)
  then (Err (ErrInvalidWrite "reusable extent"), t)
  else if (length (t_reuseEdits t) =? o_JournalCap o)%nat then (Err ErrTooManyPages, t)
  else
    let offset := wrap64 (wrap64 (Offset extent + Length extent) - want) in
    let rest := wrap64 (Length extent - want) in
    let extent' := if rest =? 0 then zeroExtent else mkExtent (Offset extent) rest (RetiredGeneration extent) in
    (Ok (offset, true), setReuse (<[index := extent']> (t_reusable t)) (t_reuseEdits t ++ [mkEdit index extent]) (t_reuseIndex t) t).

(** The scan of [reuseStart, reuseEnd): first fit, or the longest when a single
    extent must serve the transaction. *)
Fixpoint scanReusable (n i : nat) (want : Z) (selected : option nat) (t : WriteTransaction) : option nat :=
  match n with
  | O => selected
  | S n =>
      if bool_decide (t_reuseExclude t = Some i) then scanReusable n (S i) want selected t
      else
        let extent := default zeroExtent (t_reusable t !! i) in   (* reuseEnd <= len *)
        if Length extent <? want then scanReusable n (S i) want selected t
        else
          let single := o_SingleReuseExtent (t_options t) in
          let better := match selected with
                        | None => true
                        | Some s => single && (Length (default zeroExtent (t_reusable t !! s)) <? Length extent)
                        end in
          if better then (if single then scanReusable n (S i) want (Some i) t else Some i)
          else scanReusable n (S i) want selected t
  end.

Definition appendExtent (want : Z) (t : WriteTransaction) : io_res (Z * bool) * WriteTransaction :=
  if wrap64 (maxSuperblockFileOffset - t_fileEnd t) <? want then (Err (ErrInvalidWrite "physical file exhausted"), t)
  else (Ok (t_fileEnd t, false), t).

Definition allocatePhysical (want : Z) (t : WriteTransaction) : io_res (Z * bool) * WriteTransaction :=
  if negb (t_reuseEnabled t) then appendExtent want t
  else
    match (if o_SingleReuseExtent (t_options t) then t_reuseIndex t else None) with
    | Some i =>
        match t_reusable t !! i with
        | None => (Err Panic, t)
        | Some extent => if Length extent <? want then (Ok (t_fileEnd t, false), t) else allocateFromReusable i extent want t
        end
    | None =>
        match scanReusable (t_reuseEnd t - t_reuseStart t) (t_reuseStart t) want None t with
        | Some i =>
            match t_reusable t !! i with
            | None => (Err Panic, t)
            | Some extent => allocateFromReusable i extent want (setReuse (t_reusable t) (t_reuseEdits t) (Some i) t)
            end
        | None => appendExtent want t
        end
    end.

(** The logical identity of a new page; a fresh one is consumed even when a
    later step fails. *)
Definition logicalIdentity (logicalID : Z) (t : WriteTransaction) : io_res Z * WriteTransaction :=
  if logicalID =? 0 then
    let id := t_nextID t in
    if (id <=? StateRootLogicalID) || (id =? 2 ^ 64 - 1) then (Err (ErrInvalidWrite "logical id exhausted"), t)
    else (Ok id, setNextID (wrap64 (id + 1)) t)
  else if negb (logicalID =? StateRootLogicalID) && ((logicalID <=? StateRootLogicalID) || (t_nextID t <=? logicalID))
  then (Err (ErrInvalidWrite "replacement logical id"), t)
  else (Ok logicalID, t).

Definition batchPages (t : WriteTransaction) (c : Committer) : list Write :=
  match t_batch t with Some bi => pagesOf c bi | None => [] end.

Definition Allocate (kind length logicalID : Z) (t : WriteTransaction) (c : Committer) : io_res TransactionPage * WriteTransaction :=
  let o := t_options t in
  if negb (t_active t) || (List.length (batchPages t c) <=? t_allocated t)%nat || negb (validPageKind kind) ||
     negb (validPhysicalPageSize length) || (length <? o_PageSize o) || negb (length mod o_PageSize o =? 0)
  then (Err ErrTooManyPages, t)
  else if negb (variableTransactionExtent kind) && negb (length =? o_PageSize o) then (Err (ErrInvalidWrite "variable metadata extent"), t)
  else if bufferSize c <? length then (Err ErrTooManyPages, t)
  else match logicalIdentity logicalID t with
  | (Err e, t1) => (Err e, t1)
  | (OutOfFuel, t1) => (OutOfFuel, t1)
  | (Ok id, t1) =>
      if ((kind =? PageStateRoot) && negb (id =? StateRootLogicalID)) || (negb (kind =? PageStateRoot) && (id =? StateRootLogicalID))
      then (Err (ErrInvalidWrite "state-root logical id"), t1)
      else match allocatePhysical length t1 with
      | (Err e, t2) => (Err e, t2)
      | (OutOfFuel, t2) => (OutOfFuel, t2)
      | (Ok (offset, reused), t2) =>
          let index := t_allocated t2 in
          match PageBuffer (default 0%nat (t_batch t2)) (Z.of_nat index) c, batchPages t2 c !! index with
          | Ok _, Some w =>
              let ref := mkPageRef offset id (o_Generation o) length kind 0 0 in
              let fileEnd := if reused : bool then t_fileEnd t2 else wrap64 (t_fileEnd t2 + length) in
              (Ok (mkTxPage index ref (w_Buffer w)), setAllocated (S index) fileEnd t2)
          | Err e, _ => (Err e, t2)
          | _, _ => (Err Panic, t2)
          end
      end
  end.

Definition DisableReuse (t : WriteTransaction) : WriteTransaction :=
  setRange false (t_reuseIndex t) (t_reuseStart t) (t_reuseEnd t) (t_reuseExclude t) t.

Definition SetReuseRange (start stop exclude : Z) (t : WriteTransaction) : io_res WriteTransaction :=
  if negb (t_active t) || (start <? 0) || (stop <? start) || (Z.of_nat (length (t_reusable t)) <? stop) || (stop <=? exclude)
  then Err (ErrInvalidWrite "reusable range")
  else Ok (setRange true None (Z.to_nat start) (Z.to_nat stop) (if exclude <? 0 then None else Some (Z.to_nat exclude)) t).

(** ** Staging and publication *)

Definition toInt64 (x : Z) : Z := if x <? 2 ^ 63 then x else x - 2 ^ 64.

Section Staging.
  Context {K : DirtyCache}.

Definition Stage (p : TransactionPage) (t : WriteTransaction) (c : Committer) (k : cache) : option io_error * Committer * cache :=
  let ref := p_ref p in
  if negb (t_active t) || (t_allocated t <=? p_index p)%nat then (Some ErrBatchState, c, k)
  else match writeData (c_device c) (mkWrite 0 (ref_Length ref) (p_buffer p) 0) with
  | Err e => (Some e, c, k)
  | OutOfFuel => (None, c, k)
  | Ok bytes =>
      match OpenPage bytes with
      | Err e => (Some e, c, k)
      | OutOfFuel => (None, c, k)
      | Ok (header, _) =>
          let o := t_options t in
          if negb (bool_decide (ph_StoreID header = o_StoreID o)) || negb (ph_Generation header =? o_Generation o) ||
             negb (ph_LogicalID header =? ref_LogicalID ref) || negb (ph_PageSize header =? ref_Length ref) ||
             negb (ph_Kind header =? ref_Kind ref) || negb (ph_Flags header =? ref_Flags ref)
          then (Some (ErrInvalidWrite "staged page identity"), c, k)
          else match batchPages t c !! p_index p with
          | None => (Some Panic, c, k)
          | Some w =>
              if negb (w_Length w =? 0) then (Some ErrBatchState, c, k)
              else
                let '(admitted, k1) := if negb (ref_LogicalID ref =? StateRootLogicalID) then AdmitDirty ref bytes (o_Generation o) k else (None, k) in
                match admitted with
                | Some e => (Some e, c, k1)
                | None =>
                    match setPage (default 0%nat (t_batch t)) (Z.of_nat (p_index p)) (toInt64 (ref_Offset ref)) (ref_Length ref) (ref_Kind ref) c with
                    | Ok c' => (None, c', k1)
                    | Err e => (Some e, c, k1)
                    | OutOfFuel => (None, c, k1)
                    end
                end
          end
      end
  end.

(** The journal is undone from its last entry to its first. *)
Definition undoEdits (edits : list ReuseEdit) (r : list FreeExtent) : list FreeExtent :=
  foldr (fun e r => <[ed_Index e := ed_Before e]> r) r edits.

Definition Abort (t : WriteTransaction) (c : Committer) (k : cache) : option io_error * WriteTransaction * Committer * cache :=
  match t_active t, t_batch t with
  | true, Some bi =>
      match Committer.Abort bi c with
      | Err e => (Some e, t, c, k)
      | OutOfFuel => (None, t, c, k)
      | Ok c' =>
          let t' := deactivate (setReuse (undoEdits (t_reuseEdits t) (t_reusable t)) [] (t_reuseIndex t) t) in
          let '(e, k') := DiscardDirty (o_Generation (t_options t)) k in
          (e, t', c', k')
      end
  | _, _ => (Some ErrBatchState, t, c, k)
  end.
End Staging.

(** The loop of [Publish] over the allocated pages: whether the state root was
    among them. *)
Fixpoint checkStaged (stateRef : PageRef) (stateChecksum : Z) (c : Committer) (staged : bool) (pages : list Write) : io_res bool :=
  match pages with
  | [] => Ok staged
  | write :: rest =>
      if w_Length write =? 0 then Err (ErrInvalidWrite "unstaged transaction page")
      else if (wrap64 (w_Offset write) =? ref_Offset stateRef) && (w_Length write =? ref_Length stateRef) then
        page ← writeData (c_device c) write;
        if negb (PageChecksum page =? stateChecksum) then Err (ErrInvalidWrite "state-root checksum")
        else checkStaged stateRef stateChecksum c true rest
      else checkStaged stateRef stateChecksum c staged rest
  end.

Definition setPages (bi : nat) (pages : list Write) (c : Committer) : Committer :=
  match c_batches c !! bi with
  | None => c
  | Some b => setBatch bi (mkBatch pages (bt_root b) (bt_rootGeneration b) (bt_generation b) (bt_state b)) c
  end.

Definition txRoot (t : WriteTransaction) (stateRef : PageRef) (stateChecksum freeOffset freeLength freeChecksum : Z) : Superblock :=
  let o := t_options t in
  mkSuperblock (o_StoreID o) (o_Generation o) (ref_Offset stateRef) (ref_Length stateRef) stateChecksum (t_fileEnd t)
    freeOffset freeLength freeChecksum (o_PageSize o) 0.

Definition Publish (stateRef : PageRef) (stateChecksum freeOffset freeLength freeChecksum : Z) (t : WriteTransaction) (c : Committer)
  : option io_error * WriteTransaction * Committer :=
  let o := t_options t in
  match t_batch t with
  | Some bi =>
      if negb (t_active t) || negb (ref_Kind stateRef =? PageStateRoot) || negb (ref_LogicalID stateRef =? StateRootLogicalID) ||
         negb (ref_Generation stateRef =? o_Generation o) || negb (ref_Length stateRef =? o_PageSize o)
      then (Some ErrBatchState, t, c)
      else match checkStaged stateRef stateChecksum c false (take (t_allocated t) (pagesOf c bi)) with
      | Err e => (Some e, t, c)
      | OutOfFuel => (None, t, c)
      | Ok false => (Some (ErrInvalidWrite "state root was not staged"), t, c)
      | Ok true =>
          match ResizePages bi (Z.of_nat (t_allocated t)) c with
          | Err e => (Some e, t, c)
          | OutOfFuel => (None, t, c)
          | Ok c1 =>
              let c2 := setPages bi (sortWrites (pagesOf c1 bi)) c1 in
              match SetSuperblock bi (txRoot t stateRef stateChecksum freeOffset freeLength freeChecksum) c2 with
              | (Some e, c3) => (Some e, t, c3)
              | (None, c3) =>
                  match Committer.Publish bi (o_Generation o) c3 with
                  | Err e => (Some e, t, c3)
                  | OutOfFuel => (None, t, c3)
                  | Ok c4 => (None, deactivate t, c4)
                  end
              end
          end
      end
  | None => (Some ErrBatchState, t, c)
  end.

(** ** What an allocation returns *)

Lemma scanReusable_fits n i want selected t s : scanReusable n i want selected t = Some s ->
  (forall s0, selected = Some s0 -> want <= Length (default zeroExtent (t_reusable t !! s0))) ->
  want <= Length (default zeroExtent (t_reusable t !! s)).
Proof.
  revert i selected. induction n as [|n IH]; intros i selected E H; cbn [scanReusable] in E; [by apply H|].
  case_bool_decide; [by apply (IH _ _ E)|].
  destruct (Z.ltb_spec (Length (default zeroExtent (t_reusable t !! i))) want); [by apply (IH _ _ E)|].
  destruct (match selected with None => true | Some _ => _ end); [|by apply (IH _ _ E)].
  destruct (o_SingleReuseExtent _); [|injection E as <-; done]. apply (IH _ _ E). intros s0 [= <-]. done.
Qed.

Definition shrunk (e : FreeExtent) (want : Z) : FreeExtent :=
  if Length e - want =? 0 then zeroExtent else mkExtent (Offset e) (Length e - want) (RetiredGeneration e).

(** A reusable extent the transaction may take from. *)
Definition takeable (o : WriteTransactionOptions) (e : FreeExtent) : Prop :=
  2 * o_PageSize o <= Offset e /\ Offset e mod o_PageSize o = 0 /\ Length e mod o_PageSize o = 0 /\
  Offset e + Length e <= o_FileEnd o /\ RetiredGeneration e < o_Generation o.

(** The end of the file, or the tail of a reusable extent. *)
Inductive placed (want : Z) (t : WriteTransaction) : io_res (Z * bool) -> WriteTransaction -> Prop :=
| PlacedEnd idx : placed want t (Ok (t_fileEnd t, false)) (setReuse (t_reusable t) (t_reuseEdits t) idx t)
| PlacedReused i e idx : t_reusable t !! i = Some e -> takeable (t_options t) e -> want <= Length e ->
    placed want t (Ok (Offset e + Length e - want, true))
      (setReuse (<[i := shrunk e want]> (t_reusable t)) (t_reuseEdits t ++ [mkEdit i e]) idx t)
| PlacedErr e idx : placed want t (Err e) (setReuse (t_reusable t) (t_reuseEdits t) idx t).

Lemma setReuse_same t : setReuse (t_reusable t) (t_reuseEdits t) (t_reuseIndex t) t = t.
Proof. by destruct t. Qed.

Lemma allocateFromReusable_placed i e want t r t2 idx :
  t_reusable t !! i = Some e -> extent_u64 e -> 0 <= want <= Length e -> 0 < o_PageSize (t_options t) -> o_FileEnd (t_options t) < 2 ^ 63 ->
  allocateFromReusable i e want (setReuse (t_reusable t) (t_reuseEdits t) idx t) = (r, t2) -> placed want t r t2.
Proof.
  intros Hi (H1 & H2 & H3) Hw Hp Hf. unfold allocateFromReusable. cbn [setReuse t_options t_reuseEdits t_reusable t_reuseIndex].
  destruct (_ || _) eqn:E; [intros [= <- <-]; apply (PlacedErr want t _ idx)|]. case_match; [intros [= <- <-]; apply (PlacedErr want t _ idx)|].
  rewrite !orb_false_iff, !negb_false_iff, !Z.ltb_ge, Z.leb_gt, !Z.eqb_eq, Z.eqb_neq in E. destruct E as [[[[[[E1 E2] E3] E4] E5] E6] E7].
  unfold wrap64, maxUint64 in *. rewrite !Z.mod_small by (rewrite ?Z.mod_small by lia; lia).
  intros [= <- <-]. refine (PlacedReused want t i e idx Hi _ _); [|lia]. unfold takeable. lia.
Qed.

Lemma allocatePhysical_placed want t r t2 : Forall extent_u64 (t_reusable t) -> 0 <= want -> 0 < o_PageSize (t_options t) ->
  o_FileEnd (t_options t) < 2 ^ 63 -> allocatePhysical want t = (r, t2) -> placed want t r t2.
Proof.
  intros Hu Hw Hp Hf. unfold allocatePhysical, appendExtent.
  assert (Same : forall r', (exists e, r' = Err e) \/ r' = Ok (t_fileEnd t, false) -> (r', t) = (r, t2) -> placed want t r t2).
  { intros r' Hr [= <- <-]. replace t with (setReuse (t_reusable t) (t_reuseEdits t) (t_reuseIndex t) t) at 2 by apply setReuse_same.
    destruct Hr as [[e ->]| ->]; constructor. }
  rewrite Forall_forall in Hu.
  destruct (t_reuseEnabled t); cbn [negb].
  - destruct (if o_SingleReuseExtent (t_options t) then t_reuseIndex t else None) as [i|].
    + destruct (t_reusable t !! i) as [e|] eqn:Ei; [|apply Same; eauto].
      destruct (Z.ltb_spec (Length e) want); [apply Same; eauto|]. rewrite <- (setReuse_same t) at 1.
      apply allocateFromReusable_placed; try done. by eapply Hu, list_elem_of_lookup_2.
    + destruct (scanReusable _ _ _ _ _) as [i|] eqn:Es; [|case_match; apply Same; eauto].
      apply scanReusable_fits in Es; [|done].
      destruct (t_reusable t !! i) as [e|] eqn:Ei; [|apply Same; eauto]. simpl in Es.
      apply allocateFromReusable_placed; try done. by eapply Hu, list_elem_of_lookup_2.
  - case_match; apply Same; eauto.
Qed.

(** ** Disjoint extents *)

Definition apart_all (l : list FreeExtent) : Prop := forall i j a b, l !! i = Some a -> l !! j = Some b -> i <> j -> disjoint a b.

Lemma pairwise_lookup l : pairwise_disjoint l <-> apart_all l.
Proof.
  induction l as [|e l IH]; simpl; [split; [intros _ i j a b Hi; done|done]|]. rewrite IH, Forall_lookup. split.
  - intros [F A] [|i] [|j] a b Hi Hj N; simplify_eq/=; [by eapply F|by apply disjoint_sym; eapply F|]. eapply (A i j); [done|done|congruence].
  - intros A. split; [intros i x Hx; by apply (A 0%nat (S i))|]. intros i j a b Hi Hj N. apply (A (S i) (S j)); [done|done|congruence].
Qed.

(** Inside an extent, or empty at the start of the file. *)
Definition within (a e : FreeExtent) : Prop :=
  a = zeroExtent \/ Offset e <= Offset a /\ 0 <= Length a /\ Offset a + Length a <= Offset e + Length e.

Lemma within_disjoint a e b : within a e -> disjoint e b -> 0 <= Offset b -> disjoint a b.
Proof. unfold within, disjoint. intros [->|H]; simpl; lia. Qed.

Lemma within_shrunk e want : 0 <= Length e - want -> 0 <= want -> within (shrunk e want) e.
Proof. intros H1 H2. unfold shrunk. case_match; [by left|right]. simpl. lia. Qed.

(** Splitting the tail off an extent of the pool. *)
Lemma split_apart R P i e want pg : apart_all (R ++ P) -> Forall (fun x => 0 <= Offset x /\ 0 <= Length x) (R ++ P) -> R !! i = Some e ->
  0 <= want <= Length e -> Offset pg = Offset e + Length e - want -> Length pg = want ->
  apart_all (<[i := shrunk e want]> R ++ P ++ [pg]).
Proof.
  intros A N Hi Hw Ho Hl. pose proof (lookup_lt_Some _ _ _ Hi) as Hlt.
  rewrite app_assoc. rewrite <- insert_app_l by done.
  assert (Hpos : forall k x, (R ++ P) !! k = Some x -> 0 <= Offset x /\ 0 <= Length x) by (intros k x Hx; by eapply Forall_lookup_1 in N).
  assert (He : (R ++ P) !! i = Some e) by (by rewrite lookup_app_l). destruct (Hpos i e He).
  assert (Hpg : within pg e) by (right; lia). assert (Hsh : within (shrunk e want) e) by (apply within_shrunk; lia).
  assert (Hs0 : 0 <= Offset (shrunk e want)) by (unfold shrunk; case_match; simpl; lia).
  assert (Hself : disjoint (shrunk e want) pg) by (unfold shrunk, disjoint; case_match; simpl; lia).
  assert (Old : forall k x, <[i := shrunk e want]> (R ++ P) !! k = Some x -> (k = i /\ x = shrunk e want) \/ (k <> i /\ (R ++ P) !! k = Some x)).
  { intros k x Hx. destruct (decide (k = i)) as [->|Nk].
    - rewrite list_lookup_insert_eq in Hx by (rewrite length_app; lia). left. by injection Hx.
    - rewrite list_lookup_insert_ne in Hx by done. by right. }
  assert (Last : forall k x, <[i := shrunk e want]> (R ++ P) !! k = Some x -> disjoint x pg).
  { intros k x [[-> ->]|[Nk Hx]]%Old; [done|]. apply disjoint_sym. eapply within_disjoint; [exact Hpg| |by eapply Hpos]. by apply (A i k). }
  intros k j a b Hk Hj Nkj. rewrite lookup_snoc_Some in Hk, Hj.
  destruct Hk as [[_ Hk]|[Ek ->]], Hj as [[_ Hj]|[Ej ->]]; [|by eapply Last|by apply disjoint_sym; eapply Last|congruence].
  apply Old in Hk as [[-> ->]|[Nk Hk]], Hj as [[-> ->]|[Nj Hj]]; [done| | |by apply (A k j)].
  - eapply within_disjoint; [exact Hsh| |by eapply Hpos]. by apply (A i j).
  - apply disjoint_sym. eapply within_disjoint; [exact Hsh| |by eapply Hpos]. by apply (A i k).
Qed.

(** Appending above everything. *)
Lemma append_apart L pg : apart_all L -> (forall x, x ∈ L -> Offset x + Length x <= Offset pg) -> apart_all (L ++ [pg]).
Proof.
  intros A H k j a b Hk Hj N. rewrite lookup_snoc_Some in Hk, Hj.
  destruct Hk as [[_ Hk]|[Ek ->]], Hj as [[_ Hj]|[Ej ->]]; [by apply (A k j)| | |congruence].
  - left. by eapply H, list_elem_of_lookup_2.
  - right. by eapply H, list_elem_of_lookup_2.
Qed.

(** ** The allocation invariant *)

Definition pageExtent (p : TransactionPage) : FreeExtent :=
  mkExtent (ref_Offset (p_ref p)) (ref_Length (p_ref p)) (ref_Generation (p_ref p)).

(** A page above the old end of the file or inside an extent of the pool. *)
Definition page_placed (o : WriteTransactionOptions) (pool : list FreeExtent) (fileEnd : Z) (p : TransactionPage) : Prop :=
  let e := pageExtent p in
  2 * o_PageSize o <= Offset e /\ Offset e mod o_PageSize o = 0 /\ 0 < Length e < 2 ^ 32 /\ Offset e + Length e <= fileEnd /\
  (o_FileEnd o <= Offset e \/ exists e0, e0 ∈ pool /\ within e e0).

Record alloc_inv (o : WriteTransactionOptions) (pool : list FreeExtent) (t : WriteTransaction) (ps : list TransactionPage) : Prop := {
  a_options : t_options t = o;
  a_length : length (t_reusable t) = length pool;
  a_within : forall i e e0, t_reusable t !! i = Some e -> pool !! i = Some e0 -> within e e0 /\ extent_u64 e;
  a_apart : apart_all (t_reusable t ++ (pageExtent <$> ps));
  a_placed : Forall (page_placed o pool (t_fileEnd t)) ps;
  a_end : o_FileEnd o <= t_fileEnd t <= maxSuperblockFileOffset + Z.of_nat (length ps) * 2 ^ 32 /\ t_fileEnd t mod o_PageSize o = 0;
  a_undo : undoEdits (t_reuseEdits t) (t_reusable t) = pool;
  a_count : t_allocated t = length ps;
  a_last : t_fileEnd t = o_FileEnd o \/ exists p, p ∈ ps /\ ref_Offset (p_ref p) + ref_Length (p_ref p) = t_fileEnd t;
}.

(** Options [BeginWriteTransaction] accepts, with a pool below the file's end. *)
Record begin_ok (o : WriteTransactionOptions) (pool : list FreeExtent) : Prop := {
  b_size : 4096 <= o_PageSize o < 2 ^ 32;
  b_end : 2 * o_PageSize o <= o_FileEnd o <= maxSuperblockFileOffset /\ o_FileEnd o mod o_PageSize o = 0;
  b_pool : apart_all pool /\ Forall extent_u64 pool /\ Forall (fun e => Offset e + Length e <= o_FileEnd o) pool;
}.


Lemma undo_snoc edits r i e e' : r !! i = Some e -> undoEdits (edits ++ [mkEdit i e]) (<[i := e']> r) = undoEdits edits r.
Proof. intros H. unfold undoEdits. rewrite foldr_app. simpl. by rewrite list_insert_insert_eq, list_insert_id. Qed.

Lemma alloc_pos o pool t ps : begin_ok o pool -> alloc_inv o pool t ps ->
  Forall (fun x => 0 <= Offset x /\ 0 <= Length x) (t_reusable t ++ (pageExtent <$> ps)).
Proof.
  intros B A. apply Forall_app. split.
  - apply Forall_lookup. intros i e Hi. destruct (lookup_lt_is_Some_2 pool i) as [e0 H0]; [rewrite <- (a_length _ _ _ _ A); by apply lookup_lt_Some in Hi|].
    destruct (a_within _ _ _ _ A i e e0 Hi H0) as [_ U]. unfold extent_u64 in U. lia.
  - apply Forall_fmap. eapply Forall_impl; [apply (a_placed _ _ _ _ A)|]. intros p (H1 & _ & H2 & _). simpl in *. pose proof (b_size _ _ B). lia.
Qed.

Lemma mod_sub_0 a b n : 0 < n -> a mod n = 0 -> b mod n = 0 -> (a - b) mod n = 0 /\ (a + b) mod n = 0.
Proof. intros H Ha Hb. rewrite Zminus_mod, Zplus_mod, Ha, Hb. split; by apply Z.mod_0_l; lia. Qed.

(** Everything the transaction knows of lies below its file end. *)
Lemma alloc_below o pool t ps x : begin_ok o pool -> alloc_inv o pool t ps ->
  x ∈ t_reusable t ++ (pageExtent <$> ps) -> Offset x + Length x <= t_fileEnd t.
Proof.
  intros B A [Hx|Hx]%elem_of_app.
  - apply list_elem_of_lookup in Hx as [i Hi]. destruct (lookup_lt_is_Some_2 pool i) as [e0 H0]; [rewrite <- (a_length _ _ _ _ A); by apply lookup_lt_Some in Hi|].
    destruct (a_within _ _ _ _ A i x e0 Hi H0) as [W _]. destruct (b_pool _ _ B) as (_ & _ & F). eapply Forall_lookup_1 in F; [|exact H0].
    pose proof (a_end _ _ _ _ A). pose proof (b_end _ _ B). pose proof (b_size _ _ B). destruct W as [->|W]; simpl in *; lia.
  - apply list_elem_of_fmap in Hx as (p & -> & Hp). pose proof (a_placed _ _ _ _ A) as F. rewrite Forall_forall in F. by apply F.
Qed.

Lemma page_placed_mono o pool f f' p : f <= f' -> page_placed o pool f p -> page_placed o pool f' p.
Proof. unfold page_placed. intros H (? & ? & ? & ? & ?). split_and!; try done; lia. Qed.

Lemma alloc_end o pool t ps idx p want : begin_ok o pool -> alloc_inv o pool t ps -> 0 < want < 2 ^ 32 -> want mod o_PageSize o = 0 ->
  Z.of_nat (length ps) <= 2 ^ 16 -> ref_Offset (p_ref p) = t_fileEnd t -> ref_Length (p_ref p) = want ->
  alloc_inv o pool (setAllocated (S (t_allocated t)) (wrap64 (t_fileEnd t + want)) (setReuse (t_reusable t) (t_reuseEdits t) idx t)) (ps ++ [p]).
Proof.
  intros B A Hw Hm Hc Eo El. pose proof (a_end _ _ _ _ A) as [He Ha]. pose proof (b_size _ _ B). pose proof (b_end _ _ B) as [Hb _].
  assert (Ew : wrap64 (t_fileEnd t + want) = t_fileEnd t + want) by (unfold wrap64, maxSuperblockFileOffset in *; rewrite Z.mod_small; lia).
  rewrite Ew. destruct A as [A1 A2 A3 A4 A5 A6 A7 A8 A9] eqn:EA.
  split; cbn [setAllocated setReuse t_options t_reusable t_fileEnd t_reuseEdits t_allocated]; try done.
  - rewrite fmap_app, app_assoc. apply append_apart; [done|]. intros x Hx. simpl. rewrite Eo. by eapply alloc_below.
  - apply Forall_app. split; [eapply Forall_impl; [exact A5|]; intros; eapply page_placed_mono; [|done]; lia|]. constructor; [|constructor].
    unfold page_placed, pageExtent. simpl. rewrite Eo, El. split_and!; [lia|done|lia|lia|lia|]. left. lia.
  - rewrite length_app. cbn [length]. split; [lia|]. by apply mod_sub_0; [lia|..].
  - rewrite length_app. simpl. lia.
  - right. exists p. split; [apply elem_of_app; right; by left|lia].
Qed.

Lemma alloc_reused o pool t ps idx i e p want : begin_ok o pool -> alloc_inv o pool t ps -> 0 < want < 2 ^ 32 -> want mod o_PageSize o = 0 ->
  t_reusable t !! i = Some e -> takeable o e -> want <= Length e ->
  ref_Offset (p_ref p) = Offset e + Length e - want -> ref_Length (p_ref p) = want ->
  alloc_inv o pool (setAllocated (S (t_allocated t)) (t_fileEnd t)
    (setReuse (<[i := shrunk e want]> (t_reusable t)) (t_reuseEdits t ++ [mkEdit i e]) idx t)) (ps ++ [p]).
Proof.
  intros B A Hw Hm Hi (T1 & T2 & T3 & T4 & T5) Hl Eo El. pose proof (alloc_pos _ _ _ _ B A) as Hpos. pose proof (b_size _ _ B).
  destruct A as [A1 A2 A3 A4 A5 A6 A7 A8 A9].
  destruct (lookup_lt_is_Some_2 pool i) as [e0 H0]; [rewrite <- A2; by apply lookup_lt_Some in Hi|].
  destruct (A3 i e e0 Hi H0) as [W U].
  split; cbn [setAllocated setReuse t_options t_reusable t_fileEnd t_reuseEdits t_allocated].
  - done.
  - by rewrite length_insert.
  - intros j x x0 Hx Hx0. apply list_lookup_insert_Some in Hx as [(-> & <- & _)|[_ Hx]]; [|by apply (A3 j)]. rewrite H0 in Hx0. injection Hx0 as <-.
    unfold shrunk, extent_u64, maxUint64 in *. destruct (Z.eqb_spec (Length e - want) 0); [split; [by left|simpl; lia]|].
    destruct W as [->|W]; [simpl in *; lia|]. split; [right; simpl; lia|simpl; lia].
  - rewrite fmap_app. eapply split_apart; [done|done|done|lia|done|done].
  - apply Forall_app. split; [done|]. constructor; [|constructor]. unfold page_placed, pageExtent. simpl. rewrite Eo, El.
    destruct (mod_sub_0 (Offset e + Length e) want (o_PageSize o)) as [M _]; [lia|by apply mod_sub_0; [lia|..]|done|].
    assert (o_PageSize o <= Offset e + Length e - want - Offset e + o_PageSize o) by lia.
    split_and!; [lia|done|lia|lia|lia|]. right. exists e0. split; [by eapply list_elem_of_lookup_2|].
    destruct W as [->|W]; [simpl in *; lia|right; simpl; lia].
  - rewrite length_app. simpl. destruct A6. split; [lia|done].
  - by rewrite undo_snoc.
  - rewrite length_app. simpl. lia.
  - destruct A9 as [?|(x & Hx & E)]; [by left|right]. exists x. split; [apply elem_of_app; by left|done].
Qed.

(** Changes that touch neither extents nor the journal. *)
Lemma alloc_frame o pool t t' ps : alloc_inv o pool t ps ->
  t_options t' = t_options t -> t_reusable t' = t_reusable t -> t_fileEnd t' = t_fileEnd t -> t_reuseEdits t' = t_reuseEdits t ->
  t_allocated t' = t_allocated t -> alloc_inv o pool t' ps.
Proof. intros [A1 A2 A3 A4 A5 A6 A7 A8 A9] E1 E2 E3 E4 E5. split; rewrite ?E1, ?E2, ?E3, ?E4, ?E5; done. Qed.

Lemma logicalIdentity_frame id t r t1 : logicalIdentity id t = (r, t1) -> exists n, t1 = setNextID n t.
Proof.
  unfold logicalIdentity. intros E. assert (Et : t = setNextID (t_nextID t) t) by (by destruct t).
  repeat case_match; simplify_eq; eauto.
Qed.

Lemma alloc_u64 o pool t ps : alloc_inv o pool t ps -> Forall extent_u64 (t_reusable t).
Proof.
  intros A. apply Forall_lookup. intros i e Hi. destruct (lookup_lt_is_Some_2 pool i) as [e0 H0]; [rewrite <- (a_length _ _ _ _ A); by apply lookup_lt_Some in Hi|].
  by destruct (a_within _ _ _ _ A i e e0 Hi H0).
Qed.

(** The page an allocation returns: its slot, buffer and reference. *)
Definition fresh_page (t : WriteTransaction) (c : Committer) (len kind : Z) (n : nat) (p : TransactionPage) : Prop :=
  p_index p = n /\ ref_Length (p_ref p) = len /\ ref_Kind (p_ref p) = kind /\ ref_Generation (p_ref p) = o_Generation (t_options t) /\
  len <= bufferSize c /\ exists w, batchPages t c !! n = Some w /\ w_Buffer w = p_buffer p.

Lemma Allocate_inv o pool t c ps kind len id r t' :
  begin_ok o pool -> alloc_inv o pool t ps -> Z.of_nat (length (batchPages t c)) <= 2 ^ 16 -> 0 <= len < 2 ^ 32 ->
  (forall i, (i < length (batchPages t c))%nat -> exists bytes, PageBuffer (default 0%nat (t_batch t)) (Z.of_nat i) c = Ok bytes) ->
  Allocate kind len id t c = (r, t') ->
  (t_batch t' = t_batch t /\ t_active t' = t_active t /\ t_options t' = t_options t) /\
  match r with Ok p => alloc_inv o pool t' (ps ++ [p]) /\ fresh_page t c len kind (length ps) p | _ => alloc_inv o pool t' ps end.
Proof.
  intros B A Hb Hlen Hpb. unfold Allocate. pose proof (a_options _ _ _ _ A) as Eo. pose proof (a_count _ _ _ _ A) as Ec. pose proof (b_size _ _ B).
  destruct (_ || _) eqn:Eg; [intros [= <- <-]; by split|].
  rewrite !orb_false_iff, !negb_false_iff, Nat.leb_gt, Z.ltb_ge, Z.eqb_eq in Eg. destruct Eg as [[[[[Ea El] Ek] Ep] Es] Em].
  case_match; [intros [= <- <-]; by split|]. destruct (Z.ltb_spec (bufferSize c) len); [intros [= <- <-]; by split|].
  destruct (logicalIdentity id t) as [ri t1] eqn:Ei. destruct (logicalIdentity_frame _ _ _ _ Ei) as [n ->]. clear Ei.
  assert (A1 : alloc_inv o pool (setNextID n t) ps) by (by eapply alloc_frame).
  destruct ri as [lid| |]; [|intros [= <- <-]; by split..].
  case_match; [intros [= <- <-]; by split|].
  destruct (allocatePhysical len (setNextID n t)) as [ra t2] eqn:Eap.
  apply allocatePhysical_placed in Eap; [|by eapply alloc_u64|lia|rewrite (a_options _ _ _ _ A1); lia|
    rewrite (a_options _ _ _ _ A1); pose proof (b_end _ _ B); unfold maxSuperblockFileOffset in *; lia].
  assert (Hstay : forall r0, ra = r0 -> (forall x, r0 <> Ok x) -> alloc_inv o pool t2 ps /\ t_batch t2 = t_batch t /\ t_active t2 = t_active t /\ t_options t2 = t_options t).
  { intros r0 -> N. inversion Eap; subst; try (by destruct (N _ eq_refl)). split; [by eapply alloc_frame|done]. }
  destruct ra as [[off reused]| |].
  2,3: intros [= <- <-]; destruct (Hstay _ eq_refl) as (? & ? & ? & ?); [done|by split].
  assert (E2 : t_allocated t2 = t_allocated t /\ t_batch t2 = t_batch t /\ t_active t2 = t_active t /\ t_options t2 = t_options t) by (inversion Eap; done).
  destruct E2 as (E2 & E3 & E4 & E5). rewrite E2.
  assert (E6 : batchPages t2 c = batchPages t c) by (unfold batchPages; by rewrite E3). rewrite E6, E3.
  destruct (Hpb (t_allocated t) El) as [bytes ->]. destruct (lookup_lt_is_Some_2 (batchPages t c) (t_allocated t) El) as [w Hw]. rewrite Hw.
  intros [= <- <-]. split; [done|]. split.
  - inversion Eap as [idx E7 E8|i e idx Hi T Hle E7 E8|]; subst.
    + rewrite <- E2. eapply (alloc_end _ pool (setNextID n t)); try done; lia.
    + rewrite <- E2. eapply (alloc_reused _ pool (setNextID n t)); try done; lia.
  - unfold fresh_page. simpl. rewrite <- Ec. split_and!; try done. by exists w.
Qed.

(** ** A transaction beside the worker *)

Lemma owned_not_queued q c bi b : inv [] q c -> ownedBatch bi c = Some b -> bi ∉ q.
Proof.
  intros I H Hin. apply owned_spec in H as [Hb Hs]. apply (i_published _ _ _ I) in Hin. unfold stateOf in Hin. rewrite Hb in Hin. simpl in Hin. congruence.
Qed.

(** An iteration of the worker leaves the producer's batch and buffers alone. *)
Lemma worker_owned fault q c st c' st' bi b : inv [] q c -> c_failure c = None -> runOnce fault c st = Some (c', st') -> ownedBatch bi c = Some b ->
  (exists q', inv [] q' c') /\ c_device c' = c_device c /\ ownedBatch bi c' = Some b.
Proof.
  intros I Hf E Ho. destruct (worker_step _ _ _ _ _ _ I Hf E) as (q' & I' & _). split; [by exists q'|].
  destruct q as [|x q]; [unfold runOnce in E; destruct (queue_empty c (i_queue _ _ _ I)) as [En _]; by rewrite En in E|].
  destruct (runOnce_iteration fault c st x q I Hf) as (group & latest & ws & r & c2 & st2 & E2 & T). rewrite E2 in E. injection E as -> ->.
  destruct (it_other _ _ _ _ _ _ _ _ _ _ T) as [-> H]. split; [done|].
  pose proof (owned_not_queued _ _ _ _ I Ho) as N. apply owned_spec in Ho as [Hb Hs]. apply owned_spec. by rewrite H.
Qed.

Lemma owned_buffers q c bi b w : inv [] q c -> ownedBatch bi c = Some b -> w = bt_root b \/ w ∈ bt_pages b -> 0 <= w_Buffer w < bufferCount c.
Proof.
  intros I [Hb Hs]%owned_spec Hw. pose proof (held_sub _ _ _ _ _ I Hb) as Sub.
  assert (Hin : w_Buffer w ∈ batch_buffers b).
  { unfold batch_buffers. rewrite Hs. destruct Hw as [->|Hw]; constructor. by apply list_elem_of_fmap_2. }
  assert (H : w_Buffer w ∈ c_freeBuffers c ++ held c) by (apply elem_of_app; right; by eapply elem_of_submseteq).
  rewrite (i_buffers _ _ _ I) in H. apply list_elem_of_fmap in H as (k & -> & Hk%elem_of_seq). lia.
Qed.

Lemma owned_fit q c bi b : inv [] q c -> ownedBatch bi c = Some b -> Z.of_nat (length (bt_pages b)) < bufferCount c.
Proof.
  intros I [Hb Hs]%owned_spec. pose proof (held_sub _ _ _ _ _ I Hb) as Sub%submseteq_length. pose proof (Permutation_length (i_buffers _ _ _ I)) as L.
  rewrite length_app, length_fmap, length_seq in L. unfold batch_buffers in Sub. rewrite Hs in Sub. cbn [length] in Sub.
  rewrite length_fmap in Sub. destruct (i_device _ _ _ I) as ((D & _) & _). unfold bufferCount in *. lia.
Qed.

Lemma owned_data q c bi b w : inv [] q c -> ownedBatch bi c = Some b -> w = bt_root b \/ w ∈ bt_pages b ->
  exists bytes, Buffer (c_device c) (w_Buffer w) = Ok bytes /\ length bytes = Z.to_nat (bufferSize c).
Proof.
  intros I Ho Hw. pose proof (owned_buffers q c bi b w I Ho Hw) as [H0 H1]. destruct (i_device _ _ _ I) as ((D1 & D2 & D3 & D4) & _ & D5).
  unfold Buffer, bufferCount, bufferSize, window in *. rewrite D5. destruct (Z.ltb_spec (w_Buffer w) 0); [lia|]. destruct (Z.leb_spec (pd_buffers (c_device c)) (w_Buffer w)); [lia|].
  cbn [orb]. assert ((w_Buffer w + 1) * pd_bufferSize (c_device c) <= pd_buffers (c_device c) * pd_bufferSize (c_device c)) by nia.
  assert (0 <= w_Buffer w * pd_bufferSize (c_device c)) by nia.
  destruct (Nat.leb_spec (Z.to_nat (w_Buffer w * pd_bufferSize (c_device c))) (Z.to_nat (w_Buffer w * pd_bufferSize (c_device c) + pd_bufferSize (c_device c)))); [|lia].
  destruct (Nat.leb_spec (Z.to_nat (w_Buffer w * pd_bufferSize (c_device c) + pd_bufferSize (c_device c))) (length (pd_arena (c_device c)))); [|lia].
  cbn [andb]. eexists. split; [done|]. rewrite slice_length by lia. lia.
Qed.

Definition pageWrite (p : TransactionPage) : Write :=
  mkWrite (toInt64 (ref_Offset (p_ref p))) (ref_Length (p_ref p)) (p_buffer p) (ref_Kind (p_ref p)).

(** The transaction's batch: a slot is unstaged or holds the write of its page. *)
Record staged (t : WriteTransaction) (c : Committer) (ps : list TransactionPage) (bi : nat) (b : Batch) : Prop := {
  s_inv : exists q, inv [] q c;
  s_batch : t_batch t = Some bi /\ t_active t = true;
  s_owned : ownedBatch bi c = Some b;
  s_pages : forall i p, ps !! i = Some p -> p_index p = i /\ exists w, bt_pages b !! i = Some w /\ w_Buffer w = p_buffer p;
  s_slots : forall i w, bt_pages b !! i = Some w -> w_Length w = 0 \/ exists p, ps !! i = Some p /\ w = pageWrite p;
  s_fits : Forall (fun p => ref_Length (p_ref p) <= bufferSize c) ps;
}.

Lemma staged_pages t c ps bi b : staged t c ps bi b -> batchPages t c = bt_pages b.
Proof.
  intros S. unfold batchPages, pagesOf. destruct (s_batch _ _ _ _ _ S) as [-> _]. pose proof (s_owned _ _ _ _ _ S) as [Hb _]%owned_spec. by rewrite Hb.
Qed.

Lemma staged_PageBuffer t c ps bi b i : staged t c ps bi b -> (i < length (batchPages t c))%nat ->
  exists bytes, PageBuffer (default 0%nat (t_batch t)) (Z.of_nat i) c = Ok bytes.
Proof.
  intros S Hi. rewrite (staged_pages _ _ _ _ _ S) in Hi. unfold PageBuffer. destruct (s_batch _ _ _ _ _ S) as [-> _]. simpl.
  rewrite (s_owned _ _ _ _ _ S). destruct (Z.ltb_spec (Z.of_nat i) 0); [lia|]. rewrite Nat2Z.id.
  destruct (lookup_lt_is_Some_2 _ _ Hi) as [w Hw]. rewrite Hw. destruct (s_inv _ _ _ _ _ S) as [q I].
  destruct (owned_data q c bi b w I (s_owned _ _ _ _ _ S)) as (bytes & E & _); [right; by eapply list_elem_of_lookup_2|]. by exists bytes.
Qed.

Lemma staged_frame t t' c ps bi b : staged t c ps bi b -> t_batch t' = t_batch t -> t_active t' = t_active t -> staged t' c ps bi b.
Proof. intros [S1 S2 S3 S4 S5 S6] E1 E2. split; try done. by rewrite E1, E2. Qed.

Lemma toInt64_range x : 0 <= x < 2 ^ 64 -> - 2 ^ 63 <= toInt64 x < 2 ^ 63.
Proof. intros H. unfold toInt64. case_match; lia. Qed.

Lemma toInt64_small x : x < 2 ^ 63 -> toInt64 x = x.
Proof. intros H. unfold toInt64. by rewrite (proj2 (Z.ltb_lt _ _) H). Qed.

(** Allocated offsets are uint64 values. *)
Lemma placed_range o pool t ps p : begin_ok o pool -> alloc_inv o pool t ps -> p ∈ ps -> Z.of_nat (length ps) <= 2 ^ 16 -> 0 <= ref_Offset (p_ref p) < 2 ^ 64.
Proof.
  intros B A Hp Hl. pose proof (a_placed _ _ _ _ A) as F. rewrite Forall_forall in F. destruct (F p Hp) as (H1 & _ & H2 & H3 & _). simpl in *.
  pose proof (b_size _ _ B). pose proof (a_end _ _ _ _ A) as [? _]. unfold maxSuperblockFileOffset in *. lia.
Qed.

Lemma staged_length t c ps bi b : staged t c ps bi b -> (length ps <= length (bt_pages b))%nat /\ Z.of_nat (length (bt_pages b)) <= 2 ^ 16.
Proof.
  intros S. destruct (s_inv _ _ _ _ _ S) as [q I]. pose proof (owned_fit q c bi b I (s_owned _ _ _ _ _ S)). destruct (i_device _ _ _ I) as (_ & ? & _).
  split; [|lia]. destruct ps as [|p ps] using rev_ind; [simpl; lia|]. destruct (s_pages _ _ _ _ _ S (length ps) p) as [_ (w & Hw & _)].
  { by rewrite lookup_app_r, Nat.sub_diag by done. }
  apply lookup_lt_Some in Hw. rewrite length_app. simpl. lia.
Qed.

Lemma setPage_staged t c ps bi b i p c' : staged t c ps bi b -> ps !! i = Some p -> 0 <= ref_Offset (p_ref p) < 2 ^ 64 ->
  setPage bi (Z.of_nat i) (toInt64 (ref_Offset (p_ref p))) (ref_Length (p_ref p)) (ref_Kind (p_ref p)) c = Ok c' ->
  exists b', staged t c' ps bi b'.
Proof.
  intros [[q S1] S2 S3 S4 S5 S6] Hp Hr E. pose proof (setPage_inv _ _ _ _ _ _ _ _ _ S1 (toInt64_range _ Hr) E) as I'.
  unfold setPage in E. rewrite S3 in E. destruct (Z.ltb_spec (Z.of_nat i) 0); [done|]. rewrite Nat2Z.id in E.
  destruct (S4 i p Hp) as [_ (w & Hw & Ew)]. rewrite Hw in E. case_match; [done|]. injection E as <-. rewrite Ew in *. fold (pageWrite p) in *.
  set (b' := mkBatch _ _ _ _ _) in *. exists b'. apply owned_spec in S3 as [S3 Hs].
  split; [by exists q|done| | | |done].
  - apply owned_spec. cbn [setBatch c_batches]. rewrite list_lookup_insert_eq; [done|]. by eapply lookup_lt_Some.
  - intros j x Hx. destruct (S4 j x Hx) as [Ej (w' & Hw' & Ew')]. split; [done|]. simpl.
    destruct (decide (i = j)) as [->|N]; [|rewrite list_lookup_insert_ne by done; by exists w'].
    exists (pageWrite p). rewrite list_lookup_insert_eq by (by eapply lookup_lt_Some). split; [done|]. simpl. congruence.
  - intros j x Hx. simpl in Hx. apply list_lookup_insert_Some in Hx as [(-> & <- & _)|[_ Hx]]; [right; by exists p|by apply S5].
Qed.

Lemma Stage_staged {K : DirtyCache} o pool t c k ps bi b p e c' k' : begin_ok o pool -> alloc_inv o pool t ps -> staged t c ps bi b -> p ∈ ps ->
  Stage p t c k = (e, c', k') -> exists b', staged t c' ps bi b'.
Proof.
  intros B A S Hp E. destruct (staged_length _ _ _ _ _ S) as [L1 L2]. pose proof (placed_range _ _ _ _ _ B A Hp ltac:(lia)) as Hr.
  destruct (s_batch _ _ _ _ _ S) as [Eb _]. unfold Stage in E. rewrite Eb in E. cbn [default from_option id] in E.
  apply list_elem_of_lookup in Hp as [i Hi]. destruct (s_pages _ _ _ _ _ S i p Hi) as [Ei _]. rewrite Ei in E.
  case_match; [simplify_eq; by exists b|]. destruct (writeData _ _) as [bytes| |]; [|simplify_eq; by exists b..].
  destruct (OpenPage bytes) as [[hd pl]| |]; [|simplify_eq; by exists b..]. case_match; [simplify_eq; by exists b|].
  destruct (batchPages t c !! i) as [w|]; [|simplify_eq; by exists b]. case_match; [simplify_eq; by exists b|].
  destruct (if negb (ref_LogicalID (p_ref p) =? StateRootLogicalID) then _ else _) as [[err|] k1]; [simplify_eq; by exists b|].
  destruct (setPage _ _ _ _ _ c) as [c2| |] eqn:Es; [|simplify_eq; by exists b..]. simplify_eq. by eapply setPage_staged.
Qed.

Section Runs.
  Context {K : DirtyCache}.

(** What a caller may do with a transaction it began, while the worker runs:
    allocate, switch reuse, fill staging buffers and stage pages; readers use the
    cache meanwhile. *)
Inductive tx_run (t0 : WriteTransaction) (c0 : Committer) (k0 : cache) : WriteTransaction -> Committer -> cache -> list TransactionPage -> Prop :=
| RunBegin : tx_run t0 c0 k0 t0 c0 k0 []
| RunAllocate t c k ps kind len id p t' : tx_run t0 c0 k0 t c k ps -> 0 <= len < 2 ^ 32 -> Allocate kind len id t c = (Ok p, t') ->
    tx_run t0 c0 k0 t' c k (ps ++ [p])
| RunAllocateErr t c k ps kind len id e t' : tx_run t0 c0 k0 t c k ps -> 0 <= len < 2 ^ 32 -> Allocate kind len id t c = (Err e, t') ->
    tx_run t0 c0 k0 t' c k ps
| RunDisable t c k ps : tx_run t0 c0 k0 t c k ps -> tx_run t0 c0 k0 (DisableReuse t) c k ps
| RunRange t c k ps start stop exclude t' : tx_run t0 c0 k0 t c k ps -> SetReuseRange start stop exclude t = Ok t' -> tx_run t0 c0 k0 t' c k ps
| RunFill t c k ps index bytes : tx_run t0 c0 k0 t c k ps -> tx_run t0 c0 k0 t (setDevice (writeBuffer index bytes (c_device c)) c) k ps
| RunStage t c k ps p e c' k' : tx_run t0 c0 k0 t c k ps -> p ∈ ps -> Stage p t c k = (e, c', k') -> tx_run t0 c0 k0 t c' k' ps
| RunCache t c k ps k' : tx_run t0 c0 k0 t c k ps -> tx_run t0 c0 k0 t c k' ps
| RunWorker t c k ps fault st c' st' : tx_run t0 c0 k0 t c k ps -> c_failure c = None -> runOnce fault c st = Some (c', st') ->
    tx_run t0 c0 k0 t c' k ps.

Lemma staged_alloc o pool t c ps bi b kind len id r t' : begin_ok o pool -> alloc_inv o pool t ps -> staged t c ps bi b -> 0 <= len < 2 ^ 32 ->
  Allocate kind len id t c = (r, t') ->
  match r with Ok p => alloc_inv o pool t' (ps ++ [p]) /\ staged t' c (ps ++ [p]) bi b | _ => alloc_inv o pool t' ps /\ staged t' c ps bi b end.
Proof.
  intros B A S Hl E. destruct (staged_length _ _ _ _ _ S) as [L1 L2]. pose proof (staged_pages _ _ _ _ _ S) as Ep.
  destruct (Allocate_inv o pool t c ps kind len id r t' B A) as [(E1 & E2 & _) H]; [by rewrite Ep|done|by intros i; eapply staged_PageBuffer|done|].
  pose proof (staged_frame _ _ _ _ _ _ S E1 E2) as S'. destruct r as [p| |]; [|done..]. destruct H as [A' (F1 & F2 & F3 & F4 & F5 & w & F6 & F7)].
  split; [done|]. rewrite Ep in F6. destruct S' as [S1 S2 S3 S4 S5 S6]. split; try done.
  - intros i x Hx. rewrite lookup_snoc_Some in Hx. destruct Hx as [[_ Hx]|[-> <-]]; [by apply S4|]. split; [done|]. by exists w.
  - intros i x Hx. destruct (S5 i x Hx) as [|(q & Hq & Eq)]; [by left|]. right. exists q. split; [|done].
    rewrite lookup_app_l; [done|]. by eapply lookup_lt_Some.
  - apply Forall_app. split; [done|]. constructor; [by rewrite F2|constructor].
Qed.

Lemma tx_run_inv o pool t0 c0 k0 t c k ps bi b0 : begin_ok o pool -> alloc_inv o pool t0 [] -> staged t0 c0 [] bi b0 ->
  tx_run t0 c0 k0 t c k ps -> alloc_inv o pool t ps /\ exists b, staged t c ps bi b.
Proof.
  intros B A0 S0 R. induction R as [|t c k ps kind len id p t' R [A [b S]] Hl E|t c k ps kind len id e t' R [A [b S]] Hl E|t c k ps R [A [b S]]
    |t c k ps start stop exclude t' R [A [b S]] E|t c k ps index bytes R [A [b S]]|t c k ps p e c' k' R [A [b S]] Hp E|t c k ps k' R [A [b S]]|t c k ps fault st c' st' R [A [b S]] Hf E].
  - split; [done|]. by exists b0.
  - destruct (staged_alloc _ _ _ _ _ _ _ _ _ _ _ _ B A S Hl E). eauto.
  - destruct (staged_alloc _ _ _ _ _ _ _ _ _ _ _ _ B A S Hl E). eauto.
  - split; [by eapply alloc_frame|]. exists b. by eapply staged_frame.
  - unfold SetReuseRange in E. case_match; [done|]. injection E as <-. split; [by eapply alloc_frame|]. exists b. by eapply staged_frame.
  - split; [done|]. exists b. destruct S as [[q S1] S2 S3 S4 S5 S6]. split; try done. exists q. by apply inv_buffer.
  - split; [done|]. by eapply Stage_staged.
  - split; [done|]. by exists b.
  - split; [done|]. exists b. destruct S as [[q S1] S2 S3 S4 S5 S6]. destruct (worker_owned _ _ _ _ _ _ _ _ S1 Hf E S3) as (I' & Ed & Ho).
    split; try done. unfold bufferSize. by rewrite Ed.
Qed.
End Runs.

(** ** Publication *)

Lemma setPages_inv q c bi b pages : inv [] q c -> ownedBatch bi c = Some b -> pages ≡ₚ bt_pages b -> inv [] q (setPages bi pages c).
Proof.
  intros I Ho P. apply owned_spec in Ho as [Hb Hs]. unfold setPages. rewrite Hb. destruct (inv_words _ _ _ _ _ I Hb) as [Wr Wp].
  set (b' := mkBatch _ _ _ _ _). change (inv [] q (setPools (c_freeBuffers c) (c_freeBatches c) (setBatch bi b' c))).
  eapply inv_batch; [done|done|by rewrite Hs|by simpl; rewrite Hs| |apply (i_batches _ _ _ I)| |].
  - unfold batch_buffers. subst b'. cbn [bt_state bt_root bt_pages]. by rewrite Hs, P.
  - eapply free_iff_ne; [done|done|by rewrite Hs|by simpl; rewrite Hs].
  - constructor; [done|]. subst b'. cbn [bt_pages]. by rewrite P.
Qed.

Lemma checkStaged_ok ref sum c ws staged : Forall (fun w => w_Length w <> 0) ws ->
  (forall w, w ∈ ws -> wrap64 (w_Offset w) = ref_Offset ref -> exists bytes, writeData (c_device c) w = Ok bytes /\ PageChecksum bytes = sum) ->
  checkStaged ref sum c staged ws = Ok (staged || existsb (fun w => (wrap64 (w_Offset w) =? ref_Offset ref) && (w_Length w =? ref_Length ref)) ws).
Proof.
  intros F H. revert staged. induction F as [|w ws Hw F IH]; intros staged; cbn [checkStaged existsb]; [by rewrite orb_false_r|].
  rewrite (proj2 (Z.eqb_neq _ _) Hw). assert (IH' : forall s, checkStaged ref sum c s ws = _) by (intros s; apply IH; intros x Hx; apply H; by constructor).
  destruct (Z.eqb_spec (wrap64 (w_Offset w)) (ref_Offset ref)) as [E|]; cbn [andb]; [|by rewrite IH'].
  destruct (Z.eqb (w_Length w) (ref_Length ref)); [|by rewrite IH']. destruct (H w ltac:(constructor) E) as (bytes & -> & Es).
  rewrite bind_Ok, Es, Z.eqb_refl. cbn [negb]. rewrite IH'. by destruct staged.
Qed.

(** When every page is staged the batch begins with their writes. *)
Lemma staged_all t c ps bi b : staged t c ps bi b -> (forall p, p ∈ ps -> exists w, batchPages t c !! p_index p = Some w /\ w_Length w <> 0) ->
  take (length ps) (bt_pages b) = pageWrite <$> ps.
Proof.
  intros S H. rewrite (staged_pages _ _ _ _ _ S) in H. apply list_eq. intros i. rewrite list_lookup_fmap.
  destruct (ps !! i) as [p|] eqn:Hp.
  - pose proof (lookup_lt_Some _ _ _ Hp). rewrite lookup_take, decide_True by done. destruct (s_pages _ _ _ _ _ S i p Hp) as [Ei _].
    destruct (H p) as (w & Hw & Hl); [by eapply list_elem_of_lookup_2|]. rewrite Ei in Hw. rewrite Hw. simpl.
    destruct (s_slots _ _ _ _ _ S i w Hw) as [|(p' & Hp' & ->)]; [done|]. rewrite Hp in Hp'. by injection Hp' as <-.
  - apply lookup_ge_None in Hp. rewrite lookup_ge_None_2; [done|]. rewrite length_take. lia.
Qed.

(** Allocated pages make disjoint writes above the root slots. *)
Lemma pages_writes o pool t ps : begin_ok o pool -> alloc_inv o pool t ps -> t_fileEnd t <= maxSuperblockFileOffset ->
  StronglySorted disjointW (pageWrite <$> ps) /\
  Forall (fun w => 2 * o_PageSize o <= w_Offset w /\ w_Offset w + w_Length w <= maxSuperblockFileOffset /\ 0 < w_Length w) (pageWrite <$> ps) /\
  Forall (fun p => w_Offset (pageWrite p) = ref_Offset (p_ref p)) ps.
Proof.
  intros B A Hf. pose proof (b_size _ _ B). pose proof (a_placed _ _ _ _ A) as F.
  assert (Eo : Forall (fun p => w_Offset (pageWrite p) = ref_Offset (p_ref p)) ps).
  { eapply Forall_impl; [exact F|]. intros p (H1 & _ & H2 & H3 & _). simpl in *. apply toInt64_small.
    unfold maxSuperblockFileOffset in *. lia. }
  split; [|split; [|done]].
  - pose proof (proj2 (pairwise_lookup _) (a_apart _ _ _ _ A)) as P. apply pairwise_app in P as (_ & P & _). clear F A.
    induction Eo as [|p ps E Eo IH]; [constructor|].
    change (pairwise_disjoint (pageExtent p :: (pageExtent <$> ps))) in P. change (StronglySorted disjointW (pageWrite p :: (pageWrite <$> ps))).
    destruct P as [P1 P2]. constructor; [by apply IH|].
    rewrite Forall_fmap in P1. rewrite Forall_fmap. rewrite Forall_forall in P1, Eo |- *. intros x Hx. specialize (P1 x Hx). specialize (Eo x Hx).
    unfold disjointW, precedes. simpl in E, Eo |- *. rewrite E, Eo. unfold disjoint in P1. simpl in P1. lia.
  - apply Forall_fmap. rewrite Forall_forall in F, Eo |- *. intros p Hp. destruct (F p Hp) as (H1 & _ & H2 & H3 & _). specialize (Eo p Hp).
    simpl in *. rewrite Eo. lia.
Qed.

Lemma BeginWriteTransaction_inv maxPages o pool c q t0 c0 : inv [] q c -> BeginWriteTransaction maxPages o pool c = TxOk t0 c0 ->
  o_PageSize o < 2 ^ 32 -> apart_all pool -> Forall extent_u64 pool -> Forall (fun e => Offset e + Length e <= o_FileEnd o) pool ->
  begin_ok o pool /\ alloc_inv o pool t0 [] /\ exists bi b, staged t0 c0 [] bi b /\ inv [] q c0.
Proof.
  intros I E Hps P1 P2 P3. unfold BeginWriteTransaction in E. destruct (_ || _) eqn:Eg; [done|].
  rewrite !orb_false_iff, !negb_false_iff, !Z.ltb_ge, !Z.eqb_eq in Eg. destruct Eg as [[[[[[_ _] G3] G4] G5] G6] _].
  unfold validPhysicalPageSize, physicalPageQuantum, superblockCopies in *. apply andb_true_iff in G3 as [G3%Z.leb_le _].
  destruct (Begin maxPages c) as [bi c'| |] eqn:Eb; [|done..]. injection E as <- <-.
  assert (B : begin_ok o pool) by (split; [lia|lia|done]).
  split; [done|]. split.
  - split; try done; [|by rewrite app_nil_r|by left]. intros i e e0 Hi H0. simpl in Hi. assert (e = e0) as -> by congruence.
    eapply Forall_lookup_1 in P2; [|exact H0]. split; [|done]. right. unfold extent_u64 in P2. lia.
  - pose proof (Begin_inv _ _ _ _ _ _ I Eb) as I'. unfold Begin in Eb. repeat case_match; simplify_eq.
    eexists bi, _. split; [|done]. split; [by eexists|done| | | |constructor].
    + apply owned_spec. cbn [setBatch c_batches setPools]. rewrite list_lookup_insert_eq; [done|].
      assert (Hf : stateOf c bi = Some batchFree) by (apply (i_free _ _ _ I); rewrite H2; constructor).
      unfold stateOf in Hf. destruct (c_batches c !! bi) eqn:El; [by eapply lookup_lt_Some|done].
    + done.
    + intros i w Hw. simpl in Hw. apply list_lookup_fmap_Some in Hw as (x & -> & _). by left.
Qed.

(** What preparing a batch leaves alone. *)
Definition sameQueue (c c' : Committer) : Prop :=
  c_published c' = c_published c /\ c_failure c' = c_failure c /\ c_closing c' = c_closing c /\ c_head c' = c_head c /\ c_tail c' = c_tail c /\
  c_pending c' = c_pending c /\ bufferCount c' = bufferCount c /\ bufferSize c' = bufferSize c.

(** What a write submits after a staging buffer was filled. *)
Lemma writeBuffer_other d i bytes w : 0 <= i -> 0 <= w_Buffer w -> w_Buffer w <> i -> Z.of_nat (length bytes) <= pd_bufferSize d ->
  0 <= w_Length w <= pd_bufferSize d -> writeData (writeBuffer i bytes d) w = writeData d w.
Proof.
  intros Hi Hw N Hb Hl. unfold writeData, window. cbn [writeBuffer pd_arena pd_bufferSize]. rewrite setBytes_length.
  destruct (_ && _); [|done]. f_equal. apply slice_set_out. destruct (Z.lt_ge_cases (w_Buffer w) i); nia.
Qed.

Lemma writeBuffer_here d i bytes w : device_ok d -> 0 <= i < pd_buffers d -> w_Buffer w = i -> Z.of_nat (length bytes) <= w_Length w <= pd_bufferSize d ->
  exists rest, writeData (writeBuffer i bytes d) w = Ok (bytes ++ rest).
Proof.
  intros (_ & _ & _ & D) Hi <- Hb. set (start := Z.to_nat (w_Buffer w * pd_bufferSize d)).
  assert (Es : Z.to_nat (w_Buffer w * pd_bufferSize d + w_Length w) = (start + Z.to_nat (w_Length w))%nat) by (unfold start; nia).
  assert (Ha : (start + Z.to_nat (w_Length w) <= length (pd_arena d))%nat) by (rewrite D; unfold start; nia).
  unfold writeData. cbn [writeBuffer pd_arena pd_bufferSize]. fold start. rewrite Es, window_ok by (rewrite ?setBytes_length; lia).
  exists (slice (setBytes (pd_arena d) start bytes) (start + length bytes) (start + Z.to_nat (w_Length w))). f_equal.
  rewrite (slice_split _ start (start + length bytes)) by lia. f_equal. apply slice_set_hit. lia.
Qed.

(** The batch carries a superblock in its root buffer, and the other staging
    buffers are as they were. *)
Definition root_encoded (sb : Superblock) (root : Write) (c c' : Committer) : Prop :=
  (exists record rest, EncodeSuperblock (replicate (Z.to_nat (sb_PageSize sb)) 0) sb = Ok record /\ length record = 128%nat /\
     writeData (c_device c') root = Ok (record ++ rest)) /\
  forall w, 0 <= w_Buffer w -> w_Buffer w <> w_Buffer root -> 0 <= w_Length w <= bufferSize c -> writeData (c_device c') w = writeData (c_device c) w.

Lemma EncodeSuperblock_length dst sb record : EncodeSuperblock dst sb = Ok record -> length record = 128%nat.
Proof.
  unfold EncodeSuperblock. repeat case_match; try done. intros [= <-]. unfold sealedRecord, PutUint32, putLE. cbn zeta. rewrite !setBytes_length.
  rewrite writeSuperblock_length. reflexivity.
Qed.

Lemma SetSuperblock_ok q c bi b sb off : inv [] q c -> ownedBatch bi c = Some b -> validateSuperblock sb = None ->
  4096 <= sb_PageSize sb <= bufferSize c -> SuperblockOffset (sb_Generation sb) (sb_PageSize sb) = Ok off ->
  exists c', SetSuperblock bi sb c = (None, c') /\ sameQueue c c' /\
    ownedBatch bi c' = Some (mkBatch (bt_pages b) (mkWrite off (sb_PageSize sb) (w_Buffer (bt_root b)) (w_kind (bt_root b)))
      (sb_Generation sb) (bt_generation b) (bt_state b)) /\
    root_encoded sb (mkWrite off (sb_PageSize sb) (w_Buffer (bt_root b)) (w_kind (bt_root b))) c c'.
Proof.
  intros I Ho V Hp Eo. destruct (owned_data q c bi b (bt_root b) I Ho) as (buf & Ebuf & Lbuf); [by left|].
  destruct (owned_buffers q c bi b (bt_root b) I Ho (or_introl eq_refl)) as [H0 H1]. destruct (i_device _ _ _ I) as (D & _). unfold bufferSize, bufferCount in *.
  assert (EE : exists record, EncodeSuperblock (replicate (Z.to_nat (sb_PageSize sb)) 0) sb = Ok record).
  { unfold EncodeSuperblock. rewrite length_replicate, V.
    destruct (Nat.ltb_spec (Z.to_nat (sb_PageSize sb)) SuperblockSize) as [Hlt|_]; [unfold SuperblockSize in Hlt; lia|by eexists]. }
  destruct EE as [record EE]. pose proof (EncodeSuperblock_length _ _ _ EE) as Lr.
  unfold SetSuperblock. rewrite Ho, Ebuf, Eo, EE. destruct (Z.ltb_spec (Z.of_nat (length buf)) (sb_PageSize sb)); [lia|].
  eexists. split; [done|]. split; [done|]. split.
  { apply owned_spec in Ho as [Hb Hs]. apply owned_spec. cbn [setBatch setDevice c_batches].
    rewrite list_lookup_insert_eq; [by split|]. by eapply lookup_lt_Some. }
  cbn [setBatch setDevice c_device]. split; cbn [w_Buffer w_Length].
  - destruct (writeBuffer_here (writeBuffer (w_Buffer (bt_root b)) (replicate (Z.to_nat (sb_PageSize sb)) 0) (c_device c)) (w_Buffer (bt_root b)) record
      (mkWrite off (sb_PageSize sb) (w_Buffer (bt_root b)) (w_kind (bt_root b)))) as [rest E]; cbn [w_Length writeBuffer pd_bufferSize pd_buffers]; try done; [|lia|by exists record, rest].
    destruct D as (D1 & D2 & D3 & D4). split_and!; try done. cbn [writeBuffer pd_arena pd_buffers pd_bufferSize]. by rewrite setBytes_length.
  - intros w W0 W1 W2. cbn [setBatch setDevice c_device]. rewrite !writeBuffer_other; try done; cbn [writeBuffer pd_bufferSize]; rewrite ?length_replicate; lia.
Qed.

(** The batch trimmed to the allocated pages and sorted. *)
Lemma sorted_batch q t c ps bi b : inv [] q c -> staged t c ps bi b -> take (length ps) (bt_pages b) = pageWrite <$> ps ->
  exists c1, ResizePages bi (Z.of_nat (length ps)) c = Ok c1 /\
    let c2 := setPages bi (sortWrites (pagesOf c1 bi)) c1 in
    inv [] q c2 /\ sameQueue c c2 /\ c_device c2 = c_device c /\
    ownedBatch bi c2 = Some (mkBatch (sortWrites (pageWrite <$> ps)) (bt_root b) (bt_rootGeneration b) (bt_generation b) (bt_state b)).
Proof.
  intros I S Ht. pose proof (s_owned _ _ _ _ _ S) as Ho. pose proof Ho as [Hb Hs]%owned_spec.
  destruct (staged_length _ _ _ _ _ S) as [L1 L2]. pose proof (lookup_lt_Some _ _ _ Hb) as Hbi.
  assert (ER : exists c1, ResizePages bi (Z.of_nat (length ps)) c = Ok c1).
  { unfold ResizePages. rewrite Ho. destruct (Z.ltb_spec (Z.of_nat (length ps)) 0); [lia|].
    destruct (Z.ltb_spec (Z.of_nat (length (bt_pages b))) (Z.of_nat (length ps))); [lia|]. by eexists. }
  destruct ER as [c1 ER]. exists c1. split; [done|]. pose proof (ResizePages_inv _ _ _ _ _ _ I ER) as I1. unfold ResizePages in ER.
  rewrite Ho, Nat2Z.id, Ht in ER. case_match; [done|]. injection ER as <-. set (c1 := setPools _ _ _) in *.
  set (b1 := mkBatch (pageWrite <$> ps) (bt_root b) (bt_rootGeneration b) (bt_generation b) (bt_state b)).
  assert (H1 : c_batches c1 !! bi = Some b1) by (simpl; by rewrite list_lookup_insert_eq).
  assert (P1 : pagesOf c1 bi = pageWrite <$> ps) by (unfold pagesOf; by rewrite H1). rewrite P1. cbn zeta.
  split; [|split; [|split]].
  - apply (setPages_inv q c1 bi b1); [done|by apply owned_spec|apply sortWrites_perm].
  - unfold setPages. rewrite H1. done.
  - unfold setPages. rewrite H1. done.
  - unfold setPages. rewrite H1. apply owned_spec. simpl. rewrite list_insert_insert_eq, list_lookup_insert_eq by done. done.
Qed.

(** The committer accepts a prepared batch. *)
Lemma Publish_ok q c bi b g : inv [] q c -> ownedBatch bi c = Some b -> c_failure c = None -> c_closing c = false -> c_published c < g -> 0 < g ->
  bt_rootGeneration b = g -> commit_valid (bufferCount c) (bufferSize c) (bt_pages b) (bt_root b) ->
  (length q < length (c_pending c))%nat ->
  exists c', Committer.Publish bi g c = Ok c' /\ inv [] (q ++ [bi]) c' /\ pagesOf c' bi = bt_pages b /\ rootOf c' bi = bt_root b /\ generationOf c' bi = g /\
    c_failure c' = None /\ c_device c' = c_device c.
Proof.
  intros I Ho Hf Hc Hp Hg Hr V Hq. pose proof Ho as [Hb Hs]%owned_spec. destruct (inv_words _ _ _ _ _ I Hb) as [Wr Wp].
  destruct (i_device _ _ _ I) as ((D1 & D2 & D3 & D4) & _).
  assert (Ev : validateCommit (bufferCount c) (bufferSize c) (pd_seen (c_device c)) (bt_pages b) (bt_root b) = None) by (by apply validateCommit_valid).
  assert (E : exists c', Committer.Publish bi g c = Ok c').
  { unfold Committer.Publish. rewrite Ho, Hf, Hc, Ev. destruct (Z.eqb_spec g 0); [lia|]. destruct (Z.leb_spec g (c_published c)); [lia|]. cbn [orb].
    rewrite Hr, Z.eqb_refl, andb_false_r. rewrite (q_length _ _ (i_queue _ _ _ I)).
    destruct (Z.leb_spec (Z.of_nat (length (c_pending c))) (Z.of_nat (length q))); [lia|]. by eexists. }
  destruct E as [c' E]. exists c'. split; [done|]. destruct (Publish_inv _ _ _ _ _ _ I E) as (I' & _). split; [done|].
  unfold Committer.Publish in E. rewrite Ho in E. pose proof (lookup_lt_Some _ _ _ Hb). repeat case_match; simplify_eq.
  unfold pagesOf, rootOf, generationOf. cbn [setGenerations setQueue setBatch c_batches c_failure c_device]. by rewrite list_lookup_insert_eq.
Qed.

(** What a caller must have done before [Publish]: every page staged, among them
    the state root with the checksum it names, on a committer with room. *)
Record publishable (t : WriteTransaction) (c : Committer) (ps : list TransactionPage) (p : TransactionPage) (sum : Z) (sb : Superblock) : Prop := {
  u_staged : forall x, x ∈ ps -> exists w, batchPages t c !! p_index x = Some w /\ w_Length w <> 0;
  u_state : p ∈ ps /\ ref_Kind (p_ref p) = PageStateRoot /\ ref_LogicalID (p_ref p) = StateRootLogicalID /\
    ref_Generation (p_ref p) = o_Generation (t_options t) /\ ref_Length (p_ref p) = o_PageSize (t_options t);
  u_checksum : exists bytes, writeData (c_device c) (pageWrite p) = Ok bytes /\ PageChecksum bytes = sum;
  u_root : validateSuperblock sb = None;
  u_open : c_failure c = None /\ c_closing c = false;
  u_order : 0 < o_Generation (t_options t) /\ c_published c < o_Generation (t_options t);
  u_room : wrap64 (c_tail c - c_head c) < Z.of_nat (length (c_pending c));
}.

Lemma publishable_checked o pool t c ps p sum sb bi b : begin_ok o pool -> alloc_inv o pool t ps -> staged t c ps bi b ->
  publishable t c ps p sum sb -> t_fileEnd t <= maxSuperblockFileOffset ->
  checkStaged (p_ref p) sum c false (pageWrite <$> ps) = Ok true.
Proof.
  intros B A S U Hf. destruct (pages_writes _ _ _ _ B A Hf) as (D & F & Eo). destruct (u_state _ _ _ _ _ _ U) as (Hp & _ & _ & _ & Hl).
  rewrite Forall_forall in Eo. pose proof (Eo p Hp) as Ep.
  assert (Wr : forall x, x ∈ ps -> wrap64 (w_Offset (pageWrite x)) = ref_Offset (p_ref x)).
  { intros x Hx. rewrite Forall_fmap in F. rewrite Forall_forall in F. destruct (F x Hx) as (F1 & F2 & F3). pose proof (b_size _ _ B). cbn [compose] in *.
    rewrite (Eo x Hx) in *. unfold wrap64, maxSuperblockFileOffset in *. rewrite Z.mod_small; lia. }
  rewrite checkStaged_ok; [|eapply Forall_impl; [exact F|]; simpl; lia|].
  - cbn [orb]. f_equal. apply existsb_exists. exists (pageWrite p). split; [by apply list_elem_of_In, list_elem_of_fmap_2|].
    rewrite Wr by done. simpl. by rewrite !Z.eqb_refl.
  - intros w (x & -> & Hx)%list_elem_of_fmap Ew. rewrite Wr in Ew by done. assert (x = p) as ->; [|exact (u_checksum _ _ _ _ _ _ U)].
    apply list_elem_of_lookup in Hx as [i Hi], Hp as [j Hj]. destruct (decide (i = j)) as [->|N]; [congruence|].
    pose proof (a_apart _ _ _ _ A) as Ap. pose proof (proj2 (pairwise_lookup _) Ap) as P. apply pairwise_app in P as (_ & P & _). rewrite pairwise_lookup in P.
    specialize (P i j (pageExtent x) (pageExtent p)). rewrite !list_lookup_fmap, Hi, Hj in P. specialize (P eq_refl eq_refl N).
    pose proof (a_placed _ _ _ _ A) as Fp. rewrite Forall_lookup in Fp. destruct (Fp i x Hi) as (_ & _ & P1 & _), (Fp j p Hj) as (_ & _ & P2 & _).
    unfold disjoint in P. simpl in *. lia.
Qed.

Lemma validateSuperblock_end sb : validateSuperblock sb = None -> sb_FileEnd sb <= maxSuperblockFileOffset /\ validPhysicalPageSize (sb_PageSize sb) = true.
Proof. unfold validateSuperblock. cbn zeta. case_match eqn:E1; [done|]. case_match; [done|]. case_match eqn:E2; [done|]. intros _. bool_hyps. split; [lia|done]. Qed.

Lemma SuperblockOffset_valid g ps : g <> 0 -> validPhysicalPageSize ps = true -> exists off, SuperblockOffset g ps = Ok off.
Proof. intros Hg Hv. unfold SuperblockOffset. rewrite Hv. destruct (Z.eqb_spec g 0); [done|]. by eexists. Qed.

(** A batch uses each of its staging buffers once. *)
Lemma owned_nodup q c bi b : inv [] q c -> ownedBatch bi c = Some b -> NoDup (w_Buffer (bt_root b) :: (w_Buffer <$> bt_pages b)).
Proof.
  intros I [Hb Hs]%owned_spec. assert (Nb : NoDup (batch_buffers b)); [|by unfold batch_buffers in Nb; rewrite Hs in Nb].
  pose proof (NoDup_fmap_2 Z.of_nat _ (NoDup_seq 0 (Z.to_nat (bufferCount c)))) as N. rewrite <- (i_buffers _ _ _ I) in N.
  apply NoDup_app in N as (_ & _ & N). eapply (join_elem _ bi); [exact N|by rewrite list_lookup_fmap, Hb].
Qed.

(** Sorted page writes and a root slot below them form a valid commit. *)
Lemma tx_commit_valid o pool t c ps bi b q root off : begin_ok o pool -> alloc_inv o pool t ps -> staged t c ps bi b -> inv [] q c ->
  t_fileEnd t <= maxSuperblockFileOffset -> 0 <= off <= o_PageSize o -> w_Offset root = off -> w_Length root = o_PageSize o ->
  w_Buffer root = w_Buffer (bt_root b) -> o_PageSize o <= bufferSize c -> take (length ps) (bt_pages b) = pageWrite <$> ps ->
  commit_valid (bufferCount c) (bufferSize c) (sortWrites (pageWrite <$> ps)) root /\
  (forall w, w ∈ sortWrites (pageWrite <$> ps) -> disjointW w root).
Proof.
  intros B A S I Hf Hoff Er El Eb Hsz Ht. destruct (pages_writes _ _ _ _ B A Hf) as (D & F & _). pose proof (s_owned _ _ _ _ _ S) as Ho.
  pose proof (b_size _ _ B). pose proof (b_end _ _ B). set (ws := pageWrite <$> ps) in *. pose proof (sortWrites_perm ws) as P.
  assert (Hin : forall w, w ∈ sortWrites ws -> w ∈ ws) by (intros w; by rewrite P). rewrite Forall_forall in F.
  assert (Hd : forall w, w ∈ sortWrites ws -> disjointW w root).
  { intros w Hw. right. unfold precedes. rewrite Er, El. destruct (F w (Hin w Hw)). lia. }
  split; [|done]. split; [| | | |done].
  - apply Forall_forall. intros w Hw. destruct (F w (Hin w Hw)) as (F1 & F2 & F3).
    assert (Hb : w ∈ bt_pages b) by (rewrite <- (take_drop (length ps)), Ht; apply elem_of_app; left; by apply Hin).
    destruct (owned_buffers q c bi b w I Ho (or_intror Hb)). unfold write_valid, maxSuperblockFileOffset in *.
    pose proof (s_fits _ _ _ _ _ S) as Sf. rewrite Forall_forall in Sf. apply Hin, list_elem_of_fmap in Hw as (p & -> & Hp). specialize (Sf p Hp). simpl in *. lia.
  - rewrite P, <- Ht. pose proof (owned_nodup q c bi b I Ho) as Nb. apply NoDup_cons in Nb as [_ Nb]. rewrite fmap_take. eapply sublist_NoDup; [exact Nb|apply sublist_take].
  - apply sorted_precedes; [apply sortWrites_sorted|by eapply pairwise_perm; [apply _|symmetry; exact P|]|].
    apply Forall_forall. intros w Hw. destruct (F w (Hin w Hw)). lia.
  - destruct (owned_buffers q c bi b (bt_root b) I Ho (or_introl eq_refl)). unfold write_valid, maxSuperblockFileOffset in *. rewrite Er, El, Eb. lia.
Qed.

(** Sorting, encoding the superblock and publishing, once everything is staged. *)
Lemma publish_prepared o pool t c ps bi b q sb off : begin_ok o pool -> alloc_inv o pool t ps -> staged t c ps bi b -> inv [] q c ->
  take (length ps) (bt_pages b) = pageWrite <$> ps -> t_fileEnd t <= maxSuperblockFileOffset -> o_PageSize o <= bufferSize c ->
  validateSuperblock sb = None -> sb_PageSize sb = o_PageSize o -> SuperblockOffset (sb_Generation sb) (o_PageSize o) = Ok off ->
  c_failure c = None -> c_closing c = false -> c_published c < sb_Generation sb -> 0 < sb_Generation sb ->
  wrap64 (c_tail c - c_head c) < Z.of_nat (length (c_pending c)) ->
  exists c1 c3 c4, ResizePages bi (Z.of_nat (length ps)) c = Ok c1 /\
    SetSuperblock bi sb (setPages bi (sortWrites (pagesOf c1 bi)) c1) = (None, c3) /\ Committer.Publish bi (sb_Generation sb) c3 = Ok c4 /\
    inv [] (q ++ [bi]) c4 /\ pagesOf c4 bi = sortWrites (pageWrite <$> ps) /\ queue_disjoint c4 [bi] /\ generationOf c4 bi = sb_Generation sb /\
    w_Offset (rootOf c4 bi) = off /\ w_Length (rootOf c4 bi) = o_PageSize o /\ c_failure c4 = None /\
    w_Buffer (rootOf c4 bi) = w_Buffer (bt_root b) /\ root_encoded sb (rootOf c4 bi) c c4.
Proof.
  intros B A S I Ht Hf Hsz V Ep Eoff O1 O2 G2 G1 Hroom. pose proof (SuperblockOffset_range _ _ _ Eoff) as Hoff. pose proof (b_size _ _ B).
  destruct (sorted_batch q t c ps bi b I S Ht) as (c1 & ER & I2 & Q2 & Dv & H2). cbn zeta in *. set (c2 := setPages _ _ c1) in *.
  destruct Q2 as (Q21 & Q22 & Q23 & Q24 & Q25 & Q26 & Q27 & Q28).
  destruct (SetSuperblock_ok q c2 bi _ sb off I2 H2 V) as (c3 & E3 & Q3 & H3 & Re); [lia|by rewrite Ep|]. cbn [bt_pages bt_root bt_generation bt_state] in H3.
  pose proof (SetSuperblock_inv [] q c2 bi sb I2) as I3. rewrite E3 in I3. cbn [snd] in I3.
  specialize (I3 ltac:(unfold word_ok; rewrite Ep; simpl; lia)). destruct Q3 as (Q31 & Q32 & Q33 & Q34 & Q35 & Q36 & Q37 & Q38).
  destruct (tx_commit_valid o pool t c ps bi b q (mkWrite off (sb_PageSize sb) (w_Buffer (bt_root b)) (w_kind (bt_root b))) off B A S I Hf)
    as [CV D]; try done.
  destruct (Publish_ok q c3 bi _ (sb_Generation sb) I3 H3) as (c4 & E4 & I4 & P4 & R4 & Gn4 & F4 & D4); try done; [congruence|congruence|lia| | |].
  - cbn [bt_pages bt_root]. by rewrite Q37, Q38, Q27, Q28.
  - rewrite Q36, Q26. rewrite (q_length _ _ (i_queue _ _ _ I)) in Hroom. lia.
  - cbn [bt_pages bt_root] in P4, R4. exists c1, c3, c4. split; [done|]. split; [done|]. split; [done|]. split; [done|]. split; [done|]. split; [|rewrite R4; rewrite <- Ep; split_and!; try done; unfold root_encoded; rewrite D4, <- Dv, <- Q28; exact Re].
    assert (Em : mjoin (pagesOf c4 <$> [bi]) = sortWrites (pageWrite <$> ps)) by (simpl; by rewrite P4, app_nil_r).
    split; rewrite Em.
    + eapply pairwise_perm; [apply _|symmetry; apply sortWrites_perm|]. by apply (pages_writes _ _ _ _ B A Hf).
    + intros x w ->%list_elem_of_singleton Hw. rewrite R4. by apply D.
Qed.

(** An extent of the file outside the pool, as one a root names. *)
Definition live_extent (o : WriteTransactionOptions) (pool : list FreeExtent) (off len : Z) : Prop :=
  0 <= off /\ 0 <= len /\ off + len <= o_FileEnd o /\ Forall (disjoint (mkExtent off len 0)) pool.

(** A transaction begun on a committer in a reachable state, with a pool of
    disjoint extents below the end of the file. *)
Definition begun (o : WriteTransactionOptions) (pool : list FreeExtent) (t0 : WriteTransaction) (c0 : Committer) : Prop :=
  exists q c maxPages, inv [] q c /\ BeginWriteTransaction maxPages o pool c = TxOk t0 c0 /\ o_PageSize o < 2 ^ 32 /\
    pairwise_disjoint pool /\ Forall extent_u64 pool /\ Forall (fun e => Offset e + Length e <= o_FileEnd o) pool.

Lemma begun_run {K : DirtyCache} o pool t0 c0 k0 t c k ps : begun o pool t0 c0 -> tx_run t0 c0 k0 t c k ps ->
  begin_ok o pool /\ alloc_inv o pool t ps /\ exists bi b, staged t c ps bi b.
Proof.
  intros (q & c1 & n & I & E & Hp & P1 & P2 & P3) R. apply pairwise_lookup in P1.
  destruct (BeginWriteTransaction_inv _ _ _ _ _ _ _ I E Hp P1 P2 P3) as (B & A & bi & b & S & _). split; [done|].
  destruct (tx_run_inv _ _ _ _ _ _ _ _ _ _ _ B A S R) as [A' [b' S']]. split; [done|]. by exists bi, b'.
Qed.

(** C6: copy on write.  Whatever a transaction allocates, in whatever order and
    with whatever reuse ranges, while the worker runs beside it: the pages are
    aligned, lie above the two root slots and below the new end of the file, and
    are disjoint from each other and from what is left of the reusable pool; and
    any extent of the old file outside the pool, such as a page a root or a
    snapshot still names, is disjoint from all of them. *)
Theorem allocated_extents_safe {K : DirtyCache} (o : WriteTransactionOptions) (pool : list FreeExtent) (t0 t : WriteTransaction) (c0 c : Committer)
    (k0 k : cache) (ps : list TransactionPage) :
  begun o pool t0 c0 -> tx_run t0 c0 k0 t c k ps ->
  pairwise_disjoint (t_reusable t ++ (pageExtent <$> ps)) /\
  Forall (fun p => 2 * o_PageSize o <= ref_Offset (p_ref p) /\ ref_Offset (p_ref p) mod o_PageSize o = 0 /\ 0 < ref_Length (p_ref p) /\
                   ref_Offset (p_ref p) + ref_Length (p_ref p) <= t_fileEnd t) ps /\
  (forall live, 0 <= Offset live -> Offset live + Length live <= o_FileEnd o -> Forall (disjoint live) pool -> Forall (disjoint live) (pageExtent <$> ps)).
Proof.
  intros Bg R. destruct (begun_run _ _ _ _ _ _ _ _ _ Bg R) as (B & A & _). split; [apply pairwise_lookup, (a_apart _ _ _ _ A)|].
  pose proof (a_placed _ _ _ _ A) as F. split.
  - eapply Forall_impl; [exact F|]. intros p (H1 & H2 & H3 & H4 & _). simpl in *. split_and!; done || lia.
  - intros live H0 H1 D. apply Forall_fmap. eapply Forall_impl; [exact F|]. intros p (_ & _ & _ & _ & [He|(e0 & Hin & W)]); cbn [compose].
    + left. lia.
    + rewrite Forall_forall in D. apply disjoint_sym. eapply within_disjoint; [exact W| |done]. apply disjoint_sym. by apply D.
Qed.

(** C15: rollback.  After any such run [Abort] gives the caller's pool back
    exactly as it was, frees the batch with all its buffers, and tells the cache
    to discard what the generation admitted; the transaction is over. *)
Theorem Abort_restores {K : DirtyCache} (o : WriteTransactionOptions) (pool : list FreeExtent) (t0 t : WriteTransaction) (c0 c : Committer)
    (k0 k : cache) (ps : list TransactionPage) :
  begun o pool t0 c0 -> tx_run t0 c0 k0 t c k ps ->
  exists bi c' q, Abort t c k = ((DiscardDirty (o_Generation o) k).1,
      deactivate (setReuse pool [] (t_reuseIndex t) t), c', (DiscardDirty (o_Generation o) k).2) /\
    t_batch t = Some bi /\ inv [] q c' /\ stateOf c' bi = Some batchFree /\ bi ∈ c_freeBatches c' /\
    forall t', Abort (deactivate t') c' k = (Some ErrBatchState, deactivate t', c', k).
Proof.
  intros Bg R. destruct (begun_run _ _ _ _ _ _ _ _ _ Bg R) as (B & A & bi & b & S). destruct (s_batch _ _ _ _ _ S) as [Eb Ea].
  destruct (s_inv _ _ _ _ _ S) as [q I]. pose proof (s_owned _ _ _ _ _ S) as Ho.
  assert (E : Committer.Abort bi c = Ok (release bi c)) by (unfold Committer.Abort; by rewrite Ho).
  pose proof (Abort_inv _ _ _ _ _ I E) as I'. exists bi, (release bi c), q. unfold Abort. rewrite Ea, Eb, E, (a_undo _ _ _ _ A), (a_options _ _ _ _ A).
  destruct (DiscardDirty (o_Generation o) k) as [e k']. split; [done|]. split; [done|]. split; [done|].
  assert (Hst : stateOf (release bi c) bi = Some batchFree).
  { apply owned_spec in Ho as [Hb Hs]. unfold stateOf, release. rewrite Hb. simpl. rewrite list_lookup_insert_eq; [done|by eapply lookup_lt_Some]. }
  split; [done|]. split; [by apply (i_free _ _ _ I')|]. done.
Qed.

(** [Publish] once everything is in place, from any state of a run. *)
Lemma Publish_published o pool t c ps bi b q p sum freeOffset freeLength freeChecksum :
  begin_ok o pool -> alloc_inv o pool t ps -> staged t c ps bi b -> inv [] q c ->
  publishable t c ps p sum (txRoot t (p_ref p) sum freeOffset freeLength freeChecksum) ->
  exists c', Publish (p_ref p) sum freeOffset freeLength freeChecksum t c = (None, deactivate t, c') /\
    inv [] (q ++ [bi]) c' /\ pagesOf c' bi = sortWrites (pageWrite <$> ps) /\ queue_disjoint c' [bi] /\ generationOf c' bi = o_Generation o /\
    SuperblockOffset (o_Generation o) (o_PageSize o) = Ok (w_Offset (rootOf c' bi)) /\ w_Length (rootOf c' bi) = o_PageSize o /\ c_failure c' = None /\
    w_Buffer (rootOf c' bi) = w_Buffer (bt_root b) /\ root_encoded (txRoot t (p_ref p) sum freeOffset freeLength freeChecksum) (rootOf c' bi) c c'.
Proof.
  intros B A S I U.
  destruct (s_batch _ _ _ _ _ S) as [Eb Ea]. pose proof (a_options _ _ _ _ A) as Eo. pose proof (u_root _ _ _ _ _ _ U) as V.
  destruct (validateSuperblock_end _ V) as [Hf Hv]. cbn [txRoot sb_FileEnd sb_PageSize] in Hf, Hv.
  pose proof (staged_all _ _ _ _ _ S (u_staged _ _ _ _ _ _ U)) as Ht. pose proof (publishable_checked _ _ _ _ _ _ _ _ _ _ B A S U Hf) as Ec.
  destruct (u_state _ _ _ _ _ _ U) as (Hp & U1 & U2 & U3 & U4). rewrite Eo in *. destruct (u_order _ _ _ _ _ _ U) as [G1 G2]. rewrite Eo in G1, G2.
  assert (Hsz : o_PageSize o <= bufferSize c) by (pose proof (s_fits _ _ _ _ _ S) as F; rewrite Forall_forall in F; specialize (F p Hp); lia).
  destruct (SuperblockOffset_valid (o_Generation o) (o_PageSize o)) as [off Eoff]; [lia|done|]. pose proof (SuperblockOffset_range _ _ _ Eoff) as Hoff.
  destruct (u_open _ _ _ _ _ _ U) as [O1 O2].
  destruct (publish_prepared o pool t c ps bi b q (txRoot t (p_ref p) sum freeOffset freeLength freeChecksum) off B A S I Ht Hf Hsz V)
    as (c1 & c3 & c4 & E1 & E3 & E4 & I4 & P4 & D4 & Gn & R4 & W4 & F4 & B4 & Re4); cbn [txRoot sb_PageSize sb_Generation]; rewrite ?Eo; try done.
  { exact (u_room _ _ _ _ _ _ U). }
  cbn [txRoot sb_Generation] in E4, Gn. rewrite Eo in E4, Gn. exists c4. split; [|by rewrite R4].
  unfold Publish. rewrite Eb, Ea, Eo, U1, U2, U3, U4, !Z.eqb_refl, (a_count _ _ _ _ A). cbn [negb orb].
  assert (Ep : pagesOf c bi = bt_pages b) by (unfold pagesOf; pose proof (s_owned _ _ _ _ _ S) as [-> _]%owned_spec; done).
  by rewrite Ep, Ht, Ec, E1, E3, E4.
Qed.

(** Publication.  When every allocated page is staged, the state root among
    them with the checksum given, and the superblock is valid, [Publish] on an
    open committer with room succeeds: the pages it submits, whatever order they
    were allocated and staged in, pass the device's validation.  The batch queued
    holds exactly the transaction's pages in physical order and the root in its
    generation's slot, overlapping none of them, under the invariant the worker
    relies on. *)
Theorem publish_accepted {K : DirtyCache} (o : WriteTransactionOptions) (pool : list FreeExtent) (t0 t : WriteTransaction) (c0 c : Committer)
    (k0 k : cache) (ps : list TransactionPage) (p : TransactionPage) (sum freeOffset freeLength freeChecksum : Z) :
  begun o pool t0 c0 -> tx_run t0 c0 k0 t c k ps ->
  publishable t c ps p sum (txRoot t (p_ref p) sum freeOffset freeLength freeChecksum) ->
  exists bi c' q, Publish (p_ref p) sum freeOffset freeLength freeChecksum t c = (None, deactivate t, c') /\
    inv [] (q ++ [bi]) c' /\ pagesOf c' bi = sortWrites (pageWrite <$> ps) /\ queue_disjoint c' [bi] /\ generationOf c' bi = o_Generation o /\
    SuperblockOffset (o_Generation o) (o_PageSize o) = Ok (w_Offset (rootOf c' bi)).
Proof.
  intros Bg R U. destruct (begun_run _ _ _ _ _ _ _ _ _ Bg R) as (B & A & bi & b & S). destruct (s_inv _ _ _ _ _ S) as [q I].
  destruct (Publish_published _ _ _ _ _ _ _ _ _ _ _ _ _ B A S I U) as (c' & E & H1 & H2 & H3 & H4 & H5 & _). by exists bi, c', q.
Qed.

(** ** A transaction that reuses a retired extent

    The store of [ex_open] is at generation one; the pool is the two pages from
    12288 on, retired at generation one. *)

Definition tx_o : WriteTransactionOptions := mkTxOptions (replicate 16 7) 2 4096 20480 2 false 4.
Definition tx_pool : list FreeExtent := [mkExtent 12288 8192 1].
Definition tx_begin : tx_result := BeginWriteTransaction 2 tx_o tx_pool ex_open.
Definition tx_none : WriteTransaction := mkTx None tx_o [] 0 0 0 [] false None 0 0 None false.
Definition tx_of (r : tx_result) : WriteTransaction := match r with TxOk t _ => t | _ => tx_none end.
Definition committer_of (r : tx_result) : Committer := match r with TxOk _ c => c | _ => ex_open end.
Definition tx_t0 : WriteTransaction := tx_of tx_begin.
Definition tx_c0 : Committer := committer_of tx_begin.
Definition tx_noPage : TransactionPage := mkTxPage 0 zeroRef 0.

Definition tx_alloc1 : io_res TransactionPage * WriteTransaction := Allocate PageStateRoot 4096 1 tx_t0 tx_c0.
Definition tx_p1 : TransactionPage := okOr tx_noPage tx_alloc1.1.
Definition tx_t1 : WriteTransaction := tx_alloc1.2.
Definition tx_alloc2 : io_res TransactionPage * WriteTransaction := Allocate PageDocument 4096 0 tx_t1 tx_c0.
Definition tx_p2 : TransactionPage := okOr tx_noPage tx_alloc2.1.
Definition tx_t2 : WriteTransaction := tx_alloc2.2.

Definition tx_root : StateRoot :=
  mkStateRoot (replicate 16 7) 2 4096 0 0 0 2 0 0 64 0 0 0 0 zeroRef zeroRef zeroRef zeroRef zeroRef zeroRef.
Definition tx_bytes : list Z := okBytes (EncodeStateRootPage (replicate (Z.to_nat 4096) 0) tx_root 20480).
Definition tx_c1 : Committer := setDevice (writeBuffer (p_buffer tx_p1) tx_bytes (c_device tx_c0)) tx_c0.
Definition tx_stage : option io_error * Committer * unit := Stage (K := nilCache) tx_p1 tx_t1 tx_c1 tt.
Definition tx_c2 : Committer := tx_stage.1.2.
Definition tx_sum : Z := PageChecksum (okOr [] (writeData (c_device tx_c2) (pageWrite tx_p1))).

Lemma tx_result_eq r : (match r with TxOk _ _ => true | _ => false end) = true -> r = TxOk (tx_of r) (committer_of r).
Proof. by destruct r. Qed.

Lemma alloc_eq (r : io_res TransactionPage * WriteTransaction) : is_ok r.1 = true -> r = (Ok (okOr tx_noPage r.1), r.2).
Proof. destruct r as [[p| |] t]; done. Qed.

Lemma stage_eq (r : option io_error * Committer * unit) : r = (r.1.1, r.1.2, tt).
Proof. by destruct r as [[e c] []]. Qed.

Lemma tx_begun : begun tx_o tx_pool tx_t0 tx_c0.
Proof.
  exists [], ex_open, 2. split; [eapply Initialize_inv; [exact (opened_inv _ _ _ _ ex_opened)| |exact ex_open_eq]; lia|].
  split; [apply (tx_result_eq tx_begin); vm_compute; reflexivity|]. split; [simpl; lia|]. split; [split; constructor|].
  split; (constructor; [|constructor]); [unfold extent_u64, maxUint64; simpl; lia|simpl; lia].
Qed.

Lemma tx_run1 : tx_run (K := nilCache) tx_t0 tx_c0 tt tx_t1 tx_c0 tt [tx_p1].
Proof.
  eapply (RunAllocate (K := nilCache) _ _ _ tx_t0 tx_c0 tt [] PageStateRoot 4096 1 tx_p1 tx_t1); [constructor|lia|].
  apply (alloc_eq tx_alloc1). vm_compute. reflexivity.
Qed.

Lemma tx_run2 : tx_run (K := nilCache) tx_t0 tx_c0 tt tx_t2 tx_c0 tt [tx_p1; tx_p2].
Proof.
  eapply (RunAllocate (K := nilCache) _ _ _ tx_t1 tx_c0 tt [tx_p1] PageDocument 4096 0 tx_p2 tx_t2); [exact tx_run1|lia|].
  apply (alloc_eq tx_alloc2). vm_compute. reflexivity.
Qed.

Lemma tx_run_staged : tx_run (K := nilCache) tx_t0 tx_c0 tt tx_t1 tx_c2 tt [tx_p1].
Proof.
  eapply (RunStage (K := nilCache) _ _ _ tx_t1 tx_c1 tt [tx_p1] tx_p1 tx_stage.1.1 tx_c2 tt).
  - apply RunFill. exact tx_run1.
  - constructor.
  - unfold tx_c2, tx_stage. exact (stage_eq _).
Qed.

Lemma tx_publishable : publishable tx_t1 tx_c2 [tx_p1] tx_p1 tx_sum (txRoot tx_t1 (p_ref tx_p1) tx_sum 0 0 0).
Proof.
  split.
  - intros x ->%list_elem_of_singleton.
    assert (E : option_map w_Length (batchPages tx_t1 tx_c2 !! p_index tx_p1) = Some 4096) by (vm_compute; reflexivity).
    destruct (batchPages tx_t1 tx_c2 !! p_index tx_p1) as [w|]; [|done]. injection E as E. exists w. split; [done|lia].
  - split; [constructor|]. vm_compute. done.
  - exists (okOr [] (writeData (c_device tx_c2) (pageWrite tx_p1))). split; [apply okOr_eq; vm_compute; reflexivity|unfold tx_sum; reflexivity].
  - vm_compute. reflexivity.
  - vm_compute. done.
  - vm_compute. done.
  - vm_compute. reflexivity.
Qed.

Lemma allocated_extents_safe_witness :
  pairwise_disjoint (t_reusable tx_t2 ++ (pageExtent <$> [tx_p1; tx_p2])) /\ Forall (disjoint (mkExtent 8192 4096 1)) (pageExtent <$> [tx_p1; tx_p2]).
Proof.
  destruct (allocated_extents_safe (K := nilCache) tx_o tx_pool tx_t0 tx_t2 tx_c0 tx_c0 tt tt [tx_p1; tx_p2] tx_begun tx_run2) as (H1 & _ & H3).
  split; [exact H1|]. apply H3.
  - simpl. lia.
  - simpl. lia.
  - constructor; [|constructor]. left. simpl. lia.
Defined.

Lemma Abort_restores_witness : exists c', (Abort (K := nilCache) tx_t2 tx_c0 tt).1 = (None, deactivate (setReuse tx_pool [] (t_reuseIndex tx_t2) tx_t2), c').
Proof.
  destruct (Abort_restores (K := nilCache) tx_o tx_pool tx_t0 tx_t2 tx_c0 tx_c0 tt tt [tx_p1; tx_p2] tx_begun tx_run2) as (bi & c' & q & E & _).
  exists c'. rewrite E. reflexivity.
Defined.

Lemma publish_accepted_witness : exists bi c' q, Publish (p_ref tx_p1) tx_sum 0 0 0 tx_t1 tx_c2 = (None, deactivate tx_t1, c') /\ inv [] (q ++ [bi]) c'.
Proof.
  destruct (publish_accepted (K := nilCache) tx_o tx_pool tx_t0 tx_t1 tx_c0 tx_c2 tt tt [tx_p1] tx_p1 tx_sum 0 0 0 tx_begun tx_run_staged tx_publishable)
    as (bi & c' & q & E & I & _).
  exists bi, c', q. split; [exact E|exact I].
Defined.
