(* ===== verification/StoreWrite.v ===== *)
(** * StoreWrite: a transaction from its pages to the disk

    The write path end to end: a transaction of write_transaction.go allocates,
    stages and publishes; the committer's worker commits it through the portable
    device; the machine stops at any point and superblock.go recovers. *)
From Stdlib Require Import ZArith Lia List Bool Sorted.
From stdpp Require Import base numbers list strings sets sorting relations.
From S2P Require Import Prelude Leases Bytes Page StateRoot FreeDirectory Superblock Device Committer GroupCommit WriteTx.

Open Scope Z_scope.

(** The store as it is on disk when the transaction runs: the current root is
    intact in its slot and names pages outside the transaction's pool; what the
    other slot decodes to is an older root of the same store. *)
Record store_at (o : WriteTransactionOptions) (pool : list FreeExtent) (f0 : list Z) (slot : nat) (cur : Superblock) : Prop := {
  st_slot : candidate (reopened f0) (o_PageSize o) slot = Some cur;
  st_intact : root_intact (reopened f0) (o_PageSize o) cur = true;
  st_parity : Z.of_nat slot = Z.land (sb_Generation cur - 1) 1 /\ 0 < sb_Generation cur;
  st_other : forall r, candidate (reopened f0) (o_PageSize o) (1 - slot) = Some r -> compatible r cur /\ sb_Generation r < sb_Generation cur;
  st_next : o_Generation o = sb_Generation cur + 1 /\ o_StoreID o = sb_StoreID cur /\ o_FileEnd o = sb_FileEnd cur;
  st_state : live_extent o pool (sb_StateOffset cur) (sb_StateLength cur);
  st_free : live_extent o pool (sb_FreeOffset cur) (sb_FreeLength cur);
}.

(** The bytes of the root write at the head of the queue. *)
Definition queuedRoot (c : Committer) : list Z :=
  match nextBatch c with
  | (Some bi, _) => match writeData (c_device c) (rootOf c bi) with Ok bytes => bytes | _ => [] end
  | (None, _) => []
  end.

(** What the checksum of a superblock is there for: a slot the crash left with
    neither its old bytes nor the bytes being written does not decode. *)
Definition torn_detected (f0 image bytes : list Z) (ps : Z) (slot : nat) : Prop :=
  slotBytes (reopened image) slot ps = slotBytes (reopened f0) slot ps \/ slotBytes (reopened image) slot ps = take 128 bytes \/
  candidate (reopened image) ps slot = None.

(** The pages the transaction's root names: one state root, and a free tree that
    is absent, written by the transaction, or already on disk outside the pool. *)
Record complete (o : WriteTransactionOptions) (pool : list FreeExtent) (f0 : list Z) (c : Committer) (ps : list TransactionPage) (p : TransactionPage)
    (freeOffset freeLength freeChecksum : Z) : Prop := {
  cm_root : forall y, y ∈ ps -> ref_Kind (p_ref y) = PageStateRoot -> y = p;
  cm_free : freeLength = 0 \/
    (exists y bytes, y ∈ ps /\ ref_Offset (p_ref y) = freeOffset /\ ref_Length (p_ref y) = freeLength /\
       writeData (c_device c) (pageWrite y) = Ok bytes /\ PageChecksum bytes = freeChecksum) \/
    live_extent o pool freeOffset freeLength /\ page_intact (reopened f0) freeOffset freeLength freeChecksum = true;
}.

Lemma live_apart o pool t ps off len p : begin_ok o pool -> alloc_inv o pool t ps -> t_fileEnd t <= maxSuperblockFileOffset ->
  live_extent o pool off len -> p ∈ ps -> apart (pageWrite p) off len.
Proof.
  intros B A Hf (L1 & L2 & L3 & L4) Hp. destruct (pages_writes _ _ _ _ B A Hf) as (_ & _ & Eo). rewrite Forall_forall in Eo.
  pose proof (a_placed _ _ _ _ A) as F. rewrite Forall_forall in F. destruct (F p Hp) as (_ & _ & _ & _ & Hcase). unfold apart. rewrite (Eo p Hp).
  cbn [pageWrite w_Length]. destruct Hcase as [He|(e0 & Hin & W)]; [right; cbn [pageExtent Offset] in He; lia|].
  rewrite Forall_forall in L4. assert (D : disjoint (pageExtent p) (mkExtent off len 0)).
  { eapply within_disjoint; [exact W| |done]. apply disjoint_sym. by apply L4. }
  unfold disjoint in D. simpl in D. lia.
Qed.

(** The queue is empty when its two positions agree. *)
Lemma queue_none q c : inv [] q c -> c_head c = c_tail c -> q = [].
Proof.
  intros I E. pose proof (q_length _ _ (i_queue _ _ _ I)) as H. rewrite E, Z.sub_diag in H. unfold wrap64 in H. rewrite Z.mod_0_l in H by done.
  destruct q; [done|]. cbn [length] in H. lia.
Qed.

(** A published transaction, alone in the queue. *)
Record queued_alone (o : WriteTransactionOptions) (ps : list TransactionPage) (bi : nat) (sb : Superblock) (c0 c : Committer) : Prop := {
  qa_inv : inv [] [bi] c;
  qa_pages : pagesOf c bi = sortWrites (pageWrite <$> ps);
  qa_root : SuperblockOffset (o_Generation o) (o_PageSize o) = Ok (w_Offset (rootOf c bi)) /\ w_Length (rootOf c bi) = o_PageSize o;
  qa_failure : c_failure c = None;
  qa_encoded : root_encoded sb (rootOf c bi) c0 c;
  qa_data : forall p, p ∈ ps -> writeData (c_device c) (pageWrite p) = writeData (c_device c0) (pageWrite p);
}.

Lemma publish_alone o pool t c ps bi b p sum freeOffset freeLength freeChecksum t' c' :
  begin_ok o pool -> alloc_inv o pool t ps -> staged t c ps bi b ->
  publishable t c ps p sum (txRoot t (p_ref p) sum freeOffset freeLength freeChecksum) -> c_head c = c_tail c ->
  Publish (p_ref p) sum freeOffset freeLength freeChecksum t c = (None, t', c') ->
  queued_alone o ps bi (txRoot t (p_ref p) sum freeOffset freeLength freeChecksum) c c'.
Proof.
  intros B A S U Hq E. destruct (s_inv _ _ _ _ _ S) as [q I]. pose proof (queue_none _ _ I Hq) as ->.
  destruct (Publish_published _ _ _ _ _ _ _ _ _ _ _ _ _ B A S I U) as (c2 & E2 & I2 & P2 & _ & _ & O2 & L2 & F2 & B2 & R2).
  rewrite E2 in E. injection E as <- <-. split; try done. intros x Hx. destruct R2 as [_ R2]. pose proof (s_owned _ _ _ _ _ S) as Ho.
  pose proof (s_fits _ _ _ _ _ S) as F. rewrite Forall_forall in F. specialize (F x Hx). pose proof (a_placed _ _ _ _ A) as Fp. rewrite Forall_forall in Fp.
  destruct (Fp x Hx) as (_ & _ & Hl & _). cbn [pageExtent Length] in Hl. apply list_elem_of_lookup in Hx as [i Hi].
  destruct (s_pages _ _ _ _ _ S i x Hi) as [_ (w & Hw & Ew)]. pose proof (list_elem_of_lookup_2 _ _ _ Hw) as Hin.
  destruct (owned_buffers [] c bi b w I Ho (or_intror Hin)) as [W0 _]. rewrite Ew in W0. apply R2; cbn [pageWrite w_Buffer w_Length]; [done| |lia].
  rewrite B2, <- Ew. pose proof (owned_nodup [] c bi b I Ho) as Nd. apply NoDup_cons in Nd as [Nin _]. intros En. apply Nin. rewrite <- En. by apply list_elem_of_fmap_2.
Qed.

(** The worker's iteration on it is one commit of pages of the transaction. *)
Record committed_alone (fault : faults) (ps : list TransactionPage) (root : Write) (c : Committer) (st : io_state) (c' : Committer) (st' : io_state)
    (r : option io_error) (ws : list Write) : Prop := {
  ca_commit : Commit fault (c_device c) ws root st = (r, st');
  ca_pages : forall w, w ∈ ws -> exists p, p ∈ ps /\ w = pageWrite p;
  ca_all : forall p, (forall y, y ∈ ps -> ref_Kind (p_ref y) = PageStateRoot -> y = p) -> forall y, y ∈ ps -> pageWrite y ∈ ws;
  ca_words : Forall write_word ws /\ write_word root /\ device_ok (c_device c);
  ca_result : c_failure c' = None -> r = None;
}.

Lemma one_root_written (ws : list Write) (r : Write) : (forall w, w ∈ ws -> isRoot w -> w = r) -> forall w, w ∈ ws -> w ∈ suppressRoots ws.
Proof.
  intros One w Hw. destruct (suppressRoots_filter ws) as [F1 F2]. destruct (decide (isRoot w)) as [Hr|Hr].
  - assert (In : w ∈ filter isRoot (suppressRoots ws)); [|by apply list_elem_of_filter in In as [_ ?]]. rewrite F2.
    destruct (last (filter isRoot ws)) as [x|] eqn:E.
    + apply last_Some_elem_of, list_elem_of_filter in E as [Hx Hin]. rewrite (One x Hin Hx), (One w Hw Hr). by left.
    + apply last_None in E. assert (In : w ∈ filter isRoot ws) by (by apply list_elem_of_filter). rewrite E in In. by apply elem_of_nil in In.
  - assert (In : w ∈ filter notRoot (suppressRoots ws)); [|by apply list_elem_of_filter in In as [_ ?]]. rewrite F1. by apply list_elem_of_filter.
Qed.

Lemma alone_commit fault o ps bi sb c0 c st c' st' : queued_alone o ps bi sb c0 c -> runOnce fault c st = Some (c', st') ->
  exists r ws, committed_alone fault ps (rootOf c bi) c st c' st' r ws.
Proof.
  intros [I Ep Er Hf _ _] E. destruct (runOnce_iteration fault c st bi [] I Hf) as (group & latest & ws & r & c2 & st2 & E2 & T).
  rewrite E2 in E. injection E as -> ->. destruct (it_group _ _ _ _ _ _ _ _ _ _ T) as (rest & Eg & _). pose proof (it_latest _ _ _ _ _ _ _ _ _ _ T) as El.
  assert (group = [bi]) as -> by (destruct group as [|x [|y group]]; [done|by simplify_eq/=|by simplify_eq/=]). injection El as <-.
  pose proof (it_writes _ _ _ _ _ _ _ _ _ _ T) as P. simpl in P. rewrite app_nil_r, Ep in P.
  assert (Hin : forall w, w ∈ ws -> w ∈ sortWrites (pageWrite <$> ps)).
  { intros w Hw. rewrite P in Hw. eapply elem_of_submseteq; [exact Hw|]. apply sublist_submseteq, suppressRoots_sublist. }
  destruct (published_batch [] [bi] c bi I) as (b & Hb & _ & Wp & Wr & _); [constructor|]. unfold pagesOf in Ep. rewrite Hb in Ep. simpl in Ep.
  exists r, ws. split.
  - exact (it_commit _ _ _ _ _ _ _ _ _ _ T).
  - intros w Hw%Hin. rewrite (sortWrites_perm (pageWrite <$> ps)) in Hw. apply list_elem_of_fmap in Hw as (p & -> & Hp). by exists p.
  - intros p One y Hy. rewrite P. apply (one_root_written _ (pageWrite p)).
    + intros w Hw Hr. rewrite (sortWrites_perm (pageWrite <$> ps)) in Hw. apply list_elem_of_fmap in Hw as (x & -> & Hx). by rewrite (One x Hx Hr).
    + rewrite (sortWrites_perm (pageWrite <$> ps)). by apply list_elem_of_fmap_2.
  - split; [rewrite Ep in Wp; rewrite Forall_forall in Wp |- *; intros w Hw; by apply Wp, Hin|]. split; [unfold rootOf; by rewrite Hb|apply (i_device _ _ _ I)].
  - intros Hn. destruct r as [e|]; [|done]. destruct (it_failure _ _ _ _ _ _ _ _ _ _ T e eq_refl) as (_ & _ & ?). congruence.
Qed.

(** ** The root the transaction wrote *)

Lemma slice_take {A} (l : list A) a n b : (a + n <= b)%nat -> take n (slice l a b) = slice l a (a + n).
Proof. intros H. unfold slice. rewrite take_take. f_equal. lia. Qed.

Lemma slotBytes_full image slot ps bytes : bytes = slice image (slot * Z.to_nat ps) (slot * Z.to_nat ps + Z.to_nat ps) -> length bytes = Z.to_nat ps -> 128 <= ps ->
  slotBytes (reopened image) slot ps = take 128 bytes.
Proof.
  intros -> L Hp. unfold slotBytes. cbn [f_data reopened]. rewrite slice_take by lia. rewrite <- (slice_take image _ 128 (slot * Z.to_nat ps + Z.to_nat ps)) by lia.
  rewrite length_take, L. replace (128 - 128 `min` Z.to_nat ps)%nat with 0%nat by lia. by rewrite app_nil_r.
Qed.

(** The superblock encoded in the root buffer decodes to itself in its slot. *)
Lemma root_candidate sb record rest slot : superblock_ok sb -> EncodeSuperblock (replicate (Z.to_nat (sb_PageSize sb)) 0) sb = Ok record -> length record = 128%nat ->
  Z.of_nat slot = Z.land (sb_Generation sb - 1) 1 -> slotRoot (take 128 (record ++ rest)) (Z.of_nat slot) = Some sb.
Proof.
  intros Ho E L Hs. destruct (superblock_roundtrip (replicate (Z.to_nat (sb_PageSize sb)) 0) sb Ho) as [_ H]. destruct (H record [] E) as [_ D].
  rewrite take_app_length' by done. rewrite app_nil_r in D. unfold slotRoot. rewrite D. unfold superblockCopies. change (2 - 1) with 1. by rewrite <- Hs, Z.eqb_refl.
Qed.

(** After a commit that reports success everything it wrote is on the disk. *)
Lemma commit_complete fault d ws root st st' f0 image : device_ok d -> Forall write_word ws -> write_word root -> io_disk st = mkDisk f0 [] ->
  Commit fault d ws root st = (None, st') -> crash_image (io_disk st') image -> (forall w, w ∈ ws -> w_Offset root + w_Length root <= w_Offset w) ->
  commit_point d ws root f0 (io_disk st') /\ (forall w, w = root \/ w ∈ ws -> 
    writeData d w = Ok (slice image (Z.to_nat (w_Offset w)) (Z.to_nat (w_Offset w) + Z.to_nat (w_Length w))) /\
    length (slice image (Z.to_nat (w_Offset w)) (Z.to_nat (w_Offset w) + Z.to_nat (w_Length w))) = Z.to_nat (w_Length w)).
Proof.
  intros Hd Hw Hr E0 EC C Ap. destruct (Commit_points fault d ws root st f0 None st' Hd Hw Hr E0 EC) as (_ & _ & _ & H). destruct (H eq_refl) as [CV Ed]. clear H.
  rewrite Ed in *. split; [by apply Committed|]. pose proof (cv_pages _ _ _ _ CV) as Fv. rewrite Forall_forall in Fv. pose proof Hw as Fw. rewrite Forall_forall in Fw.
  assert (Len : forall w, w = root \/ w ∈ ws -> exists b, writeData d w = Ok b /\ length b = Z.to_nat (w_Length w)).
  { intros w [->|Hin]; [apply writeData_ok; [done|done|apply (cv_root _ _ _ _ CV)]|apply writeData_ok; [done|by apply Fw|by apply Fv]]. }
  assert (All : forall w, w = root \/ w ∈ ws -> writeData d w = Ok (slice image (Z.to_nat (w_Offset w)) (Z.to_nat (w_Offset w) + Z.to_nat (w_Length w)))).
  2: { intros w Hin. split; [by apply All|]. destruct (Len w Hin) as (b & Eb & Lb). rewrite (All w Hin) in Eb. injection Eb as ->. done. }
  intros w [->|Hin]; [|by apply (page_durable d ws root f0 (mkDisk (after_root d root (after_data d ws f0)) [])); [..|right|done|done|apply Ap]].
  destruct (Len root (or_introl eq_refl)) as (b & Eb & Lb). rewrite Eb. f_equal. apply list_eq. intros i. rewrite slice_lookup.
  destruct (Nat.ltb_spec i (Z.to_nat (w_Offset root) + Z.to_nat (w_Length root) - Z.to_nat (w_Offset root))); [|apply lookup_ge_None_2; lia].
  destruct (lookup_lt_is_Some_2 b i) as [v Hv]; [lia|]. rewrite Hv. symmetry. destruct C as [_ C]. apply C; [|by intros (w' & Hw2 & _); apply elem_of_nil in Hw2].
  cbn [d_durable]. unfold after_root. fold (after_data d [root] (after_data d ws f0)). rewrite <- Hv.
  apply (after_data_in d [root] _ root b i); try done; [by constructor|constructor; [apply (cv_root _ _ _ _ CV)|constructor]|by repeat constructor|by left|lia].
Qed.

Lemma page_intact_of image off len sum bytes : bytes = slice image (Z.to_nat off) (Z.to_nat off + Z.to_nat len) -> length bytes = Z.to_nat len -> PageChecksum bytes = sum ->
  page_intact (reopened image) off len sum = true.
Proof. intros -> L <-. unfold page_intact. cbn [f_data reopened]. rewrite L, Nat.eqb_refl, Z.eqb_refl. done. Qed.

(** Every page of the transaction is in the image. *)
Definition pages_written (c : Committer) (ps : list TransactionPage) (image : list Z) : Prop :=
  forall y, y ∈ ps -> exists bytes, writeData (c_device c) (pageWrite y) = Ok bytes /\ Z.of_nat (length bytes) = ref_Length (p_ref y) /\
    bytes = slice image (Z.to_nat (ref_Offset (p_ref y))) (Z.to_nat (ref_Offset (p_ref y)) + Z.to_nat (ref_Length (p_ref y))).

Lemma tx_root_intact o pool t c ps p sum freeOffset freeLength freeChecksum f0 image : begin_ok o pool -> alloc_inv o pool t ps ->
  publishable t c ps p sum (txRoot t (p_ref p) sum freeOffset freeLength freeChecksum) -> complete o pool f0 c ps p freeOffset freeLength freeChecksum ->
  o_FileEnd o <= Z.of_nat (length f0) -> (length f0 <= length image)%nat -> pages_written c ps image ->
  (forall off len, live_extent o pool off len -> 2 * o_PageSize o <= off -> slice image (Z.to_nat off) (Z.to_nat off + Z.to_nat len) = slice f0 (Z.to_nat off) (Z.to_nat off + Z.to_nat len)) ->
  root_intact (reopened image) (o_PageSize o) (txRoot t (p_ref p) sum freeOffset freeLength freeChecksum) = true.
Proof.
  intros B A U [_ Hfree] H0 H1 W Keep. destruct (u_state _ _ _ _ _ _ U) as (Hp & _ & _ & _ & Hlen). pose proof (a_options _ _ _ _ A) as Eo. rewrite Eo in Hlen.
  destruct (validateSuperblock_lengths _ (u_root _ _ _ _ _ _ U)) as (_ & _ & _ & _ & _ & L3).
  unfold root_intact, txRoot in *. cbn [sb_PageSize sb_FileEnd sb_StateOffset sb_StateLength sb_StateChecksum sb_FreeOffset sb_FreeLength sb_FreeChecksum f_data reopened] in *.
  rewrite Eo, Z.eqb_refl in *. cbn [andb]. apply andb_true_iff. split; [apply andb_true_iff; split|].
  - apply Z.leb_le. destruct (a_last _ _ _ _ A) as [->|(y & Hy & <-)]; [lia|]. destruct (W y Hy) as (bytes & _ & L & Eb). rewrite Eb in L.
    pose proof (a_placed _ _ _ _ A) as F. rewrite Forall_forall in F. destruct (F y Hy) as (P1 & _ & P2 & _). cbn [pageExtent Offset Length] in P1, P2.
    pose proof (b_size _ _ B). unfold slice in L. rewrite length_take, length_drop in L. lia.
  - destruct (W p Hp) as (bytes & Ew & L & Eb). destruct (u_checksum _ _ _ _ _ _ U) as (bytes' & Ew' & Es). rewrite Ew in Ew'. injection Ew' as <-.
    by apply (page_intact_of _ _ _ _ bytes); [|lia|].
  - apply orb_true_iff. destruct (Z.eqb_spec freeLength 0) as [|Nf]; [by left|right]. destruct (L3 Nf) as [_ Hoff].
    destruct Hfree as [?|[(y & bytes & Hy & <- & <- & Ew & Es)|[Hlive Hpage]]]; [done| |].
    + destruct (W y Hy) as (bytes' & Ew' & L & Eb). rewrite Ew in Ew'. injection Ew' as <-. by apply (page_intact_of _ _ _ _ bytes); [|lia|].
    + unfold page_intact in *. cbn [f_data reopened] in *. by rewrite (Keep freeOffset freeLength Hlive Hoff).
Qed.

Lemma slot_offset g ps off slot : SuperblockOffset g ps = Ok off -> Z.of_nat slot = Z.land (g - 1) 1 -> off = Z.of_nat slot * ps.
Proof. unfold SuperblockOffset, superblockCopies. case_match; [done|]. intros [= <-] ->. reflexivity. Qed.

(** The image of a commit that reported success holds the transaction's root in
    its slot, with the pages it names. *)
Lemma committed_root o pool t c c' c'' ps p bi sum freeOffset freeLength freeChecksum fault ws st st' f0 image slot :
  let root := txRoot t (p_ref p) sum freeOffset freeLength freeChecksum in
  begin_ok o pool -> alloc_inv o pool t ps -> publishable t c ps p sum root -> superblock_ok root -> queued_alone o ps bi root c c' ->
  complete o pool f0 c ps p freeOffset freeLength freeChecksum -> o_FileEnd o <= Z.of_nat (length f0) -> Z.of_nat slot = Z.land (sb_Generation root - 1) 1 ->
  io_disk st = mkDisk f0 [] -> committed_alone fault ps (rootOf c' bi) c' st c'' st' None ws -> crash_image (io_disk st') image ->
  candidate (reopened image) (o_PageSize o) slot = Some root /\ root_intact (reopened image) (o_PageSize o) root = true.
Proof.
  intros root B A U Hok Qa Cm Hend Hslot Ed [EC Hws Hall (Ww & Wr & Hd) _] Hc. pose proof (a_options _ _ _ _ A) as Eo. pose proof (b_size _ _ B) as Hps.
  destruct (validateSuperblock_end _ (u_root _ _ _ _ _ _ U)) as [Hf Hv]. cbn [root txRoot sb_FileEnd sb_PageSize] in Hf, Hv.
  destruct (qa_root _ _ _ _ _ _ Qa) as [Er El]. set (rw := rootOf c' bi) in *. assert (Eg : sb_Generation root = o_Generation o) by (cbn [root txRoot sb_Generation]; by rewrite Eo).
  rewrite <- Eg in Er. pose proof (slot_offset _ _ _ _ Er Hslot) as Eoff. pose proof (SuperblockOffset_range _ _ _ Er) as Hoff.
  destruct (pages_writes _ _ _ _ B A Hf) as (_ & Fw & Fo). rewrite Forall_forall in Fw. rewrite Forall_forall in Fo.
  assert (Above : forall w, w ∈ ws -> 2 * o_PageSize o <= w_Offset w) by (intros w Hw; destruct (Hws w Hw) as (y & Hy & ->); by apply (Fw (pageWrite y)), list_elem_of_fmap_2).
  destruct (commit_complete fault (c_device c') ws rw st st' f0 image Hd Ww Wr Ed EC Hc) as [CP All]; [intros w Hw; specialize (Above w Hw); lia|].
  split.
  - destruct (All rw (or_introl eq_refl)) as [Hr Lr]. destruct (qa_encoded _ _ _ _ _ _ Qa) as [(record & rest & Ee & Le & Ewd) _]. fold rw in Ewd. rewrite Ewd in Hr. injection Hr as Hr.
    rewrite El, Eoff in *. replace (Z.to_nat (Z.of_nat slot * o_PageSize o)) with (slot * Z.to_nat (o_PageSize o))%nat in * by lia.
    unfold candidate. rewrite (slotBytes_full image slot (o_PageSize o) _ Hr); [by apply root_candidate|by rewrite Hr|lia].
  - apply (tx_root_intact o pool t c ps p sum freeOffset freeLength freeChecksum f0 image B A U Cm Hend (crash_image_length _ _ _ _ _ _ CP Hc)).
    + intros y Hy. pose proof (Hall p (cm_root _ _ _ _ _ _ _ _ _ Cm) y Hy) as Hin. destruct (All (pageWrite y) (or_intror Hin)) as [Hw Lw]. rewrite (qa_data _ _ _ _ _ _ Qa y Hy) in Hw.
      eexists. split; [exact Hw|]. rewrite Lw, (Fo y Hy). cbn [pageWrite w_Length]. split; [|done]. pose proof (Fw (pageWrite y) (list_elem_of_fmap_2 _ _ _ Hy)) as (_ & _ & ?). cbn [pageWrite w_Length] in *. lia.
    + intros off len Hl H2. pose proof Hl as (L1 & L2 & L3 & _). apply (keeps_slice (c_device c') ws rw f0 (io_disk st')); try done; try lia.
      * intros w Hw. specialize (Above w Hw). destruct (Hws w Hw) as (y & Hy & ->). split; [lia|by eapply live_apart].
      * left. lia.
Qed.

(** C2: a transaction is atomic and durable across a crash.  On a store whose
    current root is intact and names pages outside the reusable pool, take any
    transaction of the next generation: whatever it allocated, in whatever order
    it staged, with the worker's earlier iterations interleaved.  It is published
    alone in the queue; the worker commits it, any write or barrier may fail, and
    the machine stops at any point with arbitrary bytes in the ranges no barrier
    covered, such that a torn superblock does not decode.  Recovery then succeeds
    with the current root or with exactly the root the transaction published,
    its generation, state root, checksums and file end included; and once the
    worker has reported no failure, recovery gives the transaction's root. *)
Theorem transaction_crash_safe {K : DirtyCache} (o : WriteTransactionOptions) (pool : list FreeExtent) (t0 t t' : WriteTransaction)
    (c0 c c' c'' : Committer) (k0 k : cache) (ps : list TransactionPage) (p : TransactionPage) (sum freeOffset freeLength freeChecksum : Z)
    (fault : faults) (st st' : io_state) (f0 image : list Z) (x : disk) (scratch slot : nat) (cur : Superblock) :
  let root := txRoot t (p_ref p) sum freeOffset freeLength freeChecksum in
  begun o pool t0 c0 -> tx_run t0 c0 k0 t c k ps -> publishable t c ps p sum root -> superblock_ok root -> c_head c = c_tail c ->
  Publish (p_ref p) sum freeOffset freeLength freeChecksum t c = (None, t', c') ->
  store_at o pool f0 slot cur -> o_PageSize o <= Z.of_nat scratch ->
  io_disk st = mkDisk f0 [] -> io_visited st = [mkDisk f0 []] ->
  runOnce fault c' st = Some (c'', st') -> x ∈ io_visited st' -> crash_image x image ->
  torn_detected f0 image (queuedRoot c') (o_PageSize o) (1 - slot) ->
  (exists found s, RecoverSuperblock (reopened image) (o_PageSize o) scratch = Ok (found, s) /\ root_intact (reopened image) (o_PageSize o) found = true /\
     (found = cur \/ found = root)) /\
  (c_failure c'' = None -> x = io_disk st' -> complete o pool f0 c ps p freeOffset freeLength freeChecksum ->
   RecoverSuperblock (reopened image) (o_PageSize o) scratch = Ok (root, 1 - slot)%nat).
Proof.
  intros root Bg R U Hok Hq E [S1 S2 [S3 S4] So (S5 & Sid & Se) S6 S7] Hsc Ed Ev Ew Hx Hc Torn. destruct (begun_run _ _ _ _ _ _ _ _ _ Bg R) as (B & A & bi & b & S).
  destruct (validateSuperblock_end _ (u_root _ _ _ _ _ _ U)) as [Hf Hv]. cbn [root txRoot sb_FileEnd sb_PageSize] in Hf, Hv. rewrite (a_options _ _ _ _ A) in Hv.
  pose proof (publish_alone _ _ _ _ _ _ _ _ _ _ _ _ _ _ B A S U Hq E) as Qa. fold root in Qa. destruct (qa_root _ _ _ _ _ _ Qa) as [Er El].
  destruct (alone_commit _ _ _ _ _ _ _ _ _ _ Qa Ew) as (r & ws & CA). pose proof CA as [EC Hws Hall (Ww & Wr & Hd) Hres].
  destruct (pages_writes _ _ _ _ B A Hf) as (_ & Fw & Fo). rewrite Forall_forall in Fw. rewrite Forall_forall in Fo. set (rw := rootOf c' bi) in *.
  assert (Ap : forall w off len, w ∈ ws -> live_extent o pool off len -> 2 * o_PageSize o <= w_Offset w /\ apart w off len).
  { intros w off len Hw Hl. destruct (Hws w Hw) as (y & Hy & ->). split; [by apply (Fw (pageWrite y)), list_elem_of_fmap_2|]. by eapply live_apart. }
  destruct (qa_encoded _ _ _ _ _ _ Qa) as [(record & rest & Ee & Lr & Ewd) _]. fold rw in Ewd.
  assert (Eq : queuedRoot c' = record ++ rest).
  { unfold queuedRoot. destruct (nextBatch_inv [] bi [] c' (qa_inv _ _ _ _ _ _ Qa)) as (c1 & -> & _). fold rw. by rewrite Ewd. }
  destruct (slot_alternates (sb_Generation cur) S4) as [Alt Rng]. pose proof (a_options _ _ _ _ A) as Eo.
  assert (Eg : sb_Generation root = sb_Generation cur + 1) by (cbn [root txRoot sb_Generation]; by rewrite Eo).
  assert (Hslot : Z.of_nat (1 - slot) = Z.land (sb_Generation root - 1) 1) by (rewrite Eg; replace (sb_Generation cur + 1 - 1) with (sb_Generation cur) by lia; lia).
  pose proof (root_candidate root record rest (1 - slot) Hok Ee Lr Hslot) as Cand. rewrite <- Eq in Cand.
  pose proof S2 as Si. unfold root_intact in Si. apply andb_true_iff in Si as [Si _]. apply andb_true_iff in Si as [Si _]. apply andb_true_iff in Si as [Eps%Z.eqb_eq Hend%Z.leb_le].
  assert (Comp : compatible root cur) by (unfold compatible; cbn [root txRoot sb_StoreID sb_PageSize]; rewrite Eo; split; congruence).
  assert (Hcand : forall r', candidate (reopened image) (o_PageSize o) (1 - slot) = Some r' -> compatible r' cur /\ (sb_Generation r' < sb_Generation cur \/ r' = root)).
  { intros r' Hr'. unfold candidate in Hr'. destruct Torn as [T|[T|T]]; [rewrite T in Hr'; destruct (So r' Hr'); split; [done|by left]| |unfold candidate in T; congruence].
    rewrite T, Cand in Hr'. injection Hr' as <-. split; [done|by right]. }
  assert (Rec : exists found s, RecoverSuperblock (reopened image) (o_PageSize o) scratch = Ok (found, s) /\ (found = cur \/ found = root)).
  { destruct (proj1 (Commit_crash fault (c_device c') ws rw st st' r f0 image x (o_PageSize o) scratch slot cur Hd Ww Wr Ed Ev S1 S2 S3 S4 Hsc
      ltac:(by rewrite <- S5) ltac:(by rewrite El) (proj1 (proj2 S6)) (proj1 (proj2 S7)) ltac:(intros w Hw; split_and!; by eapply Ap) EC Hx Hc (fun r' H => proj1 (Hcand r' H))))
      as (found & s & Ef & H). exists found, s. split; [done|]. destruct H as [H|(H & _ & Hg)]; [by left|right]. destruct (Hcand found H) as [_ [?|?]]; [lia|done]. }
  destruct (RecoverSuperblock_props (reopened image) (o_PageSize o) scratch) as [P1 _]; [done|done|done|].
  destruct Rec as (found & s & Ef & H). destruct (P1 found s Ef) as (Ls & Cf & If & Mx). split; [by exists found, s|]. intros Hn -> Cm. specialize (Hres Hn). subst r.
  destruct (committed_root o pool t c c' c'' ps p bi sum freeOffset freeLength freeChecksum fault ws st st' f0 image (1 - slot) B A U Hok Qa Cm
    ltac:(cbn [f_data reopened] in Hend; lia) Hslot Ed CA Hc) as [Cr Ir]. fold root in Cr, Ir.
  specialize (Mx (1 - slot)%nat root ltac:(lia) Cr Ir). destruct H as [-> | ->]; [lia|]. rewrite Ef. do 2 f_equal.
  destruct (slotRoot_valid _ _ _ Cf) as [_ Sf]. lia.
Qed.

(** ** The transaction of [WriteTx] on a store, torn and completed *)

Definition sw_live : Superblock :=
  mkSuperblock (replicate 16 7) 1 8192 4096 (PageChecksum (replicate (Z.to_nat 4096) 0)) 20480 0 0 0 4096 0.
Definition sw_file : list Z := okBytes (EncodeSuperblock (replicate 128 0) sw_live) ++ replicate (Z.to_nat 20352) 0.
Definition sw_before : disk := mkDisk sw_file [].
Definition sw_io0 : io_state := mkIO sw_before [sw_before] 0.
Definition sw_pub : option io_error * WriteTransaction * Committer := Publish (p_ref tx_p1) tx_sum 0 0 0 tx_t1 tx_c2.
Definition sw_run (fault : faults) : option (Committer * io_state) := runOnce fault sw_pub.2 sw_io0.
Definition sw_committer (r : option (Committer * io_state)) : Committer := match r with Some (c, _) => c | None => ex_open end.
Definition sw_io (r : option (Committer * io_state)) : io_state := match r with Some (_, st) => st | None => sw_io0 end.
Definition sw_disk (fault : faults) : disk := io_disk (sw_io (sw_run fault)).
Definition sw_image (fault : faults) : list Z := flush (sw_disk fault).
Definition sw_none : faults := fun _ => None.
Definition sw_root : Superblock := txRoot tx_t1 (p_ref tx_p1) tx_sum 0 0 0.

Lemma pub_eq (r : option io_error * WriteTransaction * Committer) : match r.1.1 with None => true | Some _ => false end = true -> r = (None, r.1.2, r.2).
Proof. by destruct r as [[[e|] t] c]. Qed.

Lemma run_eq (r : option (Committer * io_state)) : match r with Some _ => true | None => false end = true -> r = Some (sw_committer r, sw_io r).
Proof. by destruct r as [[c st]|]. Qed.

Lemma sw_pub_eq : Publish (p_ref tx_p1) tx_sum 0 0 0 tx_t1 tx_c2 = (None, sw_pub.1.2, sw_pub.2).
Proof. unfold sw_pub. apply pub_eq. vm_compute. reflexivity. Qed.

Lemma sw_run_eq fault : match sw_run fault with Some _ => true | None => false end = true -> runOnce fault sw_pub.2 sw_io0 = Some (sw_committer (sw_run fault), sw_io (sw_run fault)).
Proof. unfold sw_run. apply run_eq. Qed.

Definition visited_head (st : io_state) : bool :=
  match io_visited st with d :: _ => bool_decide (d_durable d = d_durable (io_disk st)) && bool_decide (d_pending d = d_pending (io_disk st)) | [] => false end.

Lemma visited_head_in st : visited_head st = true -> io_disk st ∈ io_visited st.
Proof.
  unfold visited_head. destruct (io_visited st) as [|d l]; [done|]. rewrite andb_true_iff, !bool_decide_eq_true. intros [E1 E2].
  destruct d as [a b], (io_disk st) as [a' b']. simpl in *. subst. constructor.
Qed.

Lemma sw_root_ok : superblock_ok sw_root.
Proof.
  assert (E : sw_root = mkSuperblock (replicate 16 7) 2 16384 4096 tx_sum 20480 0 0 0 4096 0) by (unfold sw_root, txRoot; f_equal; vm_compute; reflexivity).
  rewrite E. unfold superblock_ok, word_ok. cbn [sb_StoreID sb_Generation sb_StateOffset sb_StateLength sb_StateChecksum sb_FileEnd sb_FreeOffset sb_FreeLength sb_FreeChecksum sb_PageSize sb_Flags].
  assert (H : (0 <=? tx_sum) && (tx_sum <? 256 ^ Z.of_nat 4) = true) by (vm_compute; reflexivity). clear E. revert H. generalize tx_sum. intros sum H.
  apply andb_true_iff in H as [H1%Z.leb_le H2%Z.ltb_lt]. split_and!; try lia; [reflexivity|]. by apply bytes_ok_bool.
Qed.

Lemma sw_store : store_at tx_o tx_pool sw_file 0 sw_live.
Proof.
  assert (L : forall off len, 0 <= off -> 0 <= len -> off + len <= 12288 -> live_extent tx_o tx_pool off len).
  { intros off len ? ? ?. split_and!; [done|done|simpl; lia|]. constructor; [|constructor]. left. simpl. lia. }
  split; [vm_compute; reflexivity|vm_compute; reflexivity|split; [reflexivity|simpl; lia]| |split_and!; reflexivity|apply L; simpl; lia..].
  intros r Hr. assert (N : candidate (reopened sw_file) (o_PageSize tx_o) (1 - 0) = None) by (vm_compute; reflexivity). congruence.
Qed.

Lemma sw_complete : complete tx_o tx_pool sw_file tx_c2 [tx_p1] tx_p1 0 0 0.
Proof. split; [intros y Hy _; by apply list_elem_of_singleton in Hy|by left]. Qed.

Lemma transaction_crash_safe_witness :
  (exists found s, RecoverSuperblock (reopened (sw_image ex_torn)) 4096 (Z.to_nat 4096) = Ok (found, s) /\ (found = sw_live \/ found = sw_root)) /\
  RecoverSuperblock (reopened (sw_image sw_none)) 4096 (Z.to_nat 4096) = Ok (sw_root, 1%nat).
Proof.
  assert (H : forall fault, match sw_run fault with Some _ => true | None => false end && visited_head (sw_io (sw_run fault)) = true ->
    torn_detected sw_file (sw_image fault) (queuedRoot sw_pub.2) 4096 1 ->
    (exists found s, RecoverSuperblock (reopened (sw_image fault)) 4096 (Z.to_nat 4096) = Ok (found, s) /\
       root_intact (reopened (sw_image fault)) 4096 found = true /\ (found = sw_live \/ found = sw_root)) /\
    (c_failure (sw_committer (sw_run fault)) = None -> sw_disk fault = io_disk (sw_io (sw_run fault)) -> complete tx_o tx_pool sw_file tx_c2 [tx_p1] tx_p1 0 0 0 ->
     RecoverSuperblock (reopened (sw_image fault)) 4096 (Z.to_nat 4096) = Ok (sw_root, (1 - 0)%nat))).
  { intros fault E T. apply andb_true_iff in E as [Er Ev].
    apply (transaction_crash_safe (K := nilCache) tx_o tx_pool tx_t0 tx_t1 sw_pub.1.2 tx_c0 tx_c2 sw_pub.2 (sw_committer (sw_run fault)) tt tt [tx_p1] tx_p1 tx_sum 0 0 0
      fault sw_io0 (sw_io (sw_run fault)) sw_file (sw_image fault) (sw_disk fault) (Z.to_nat 4096) 0 sw_live tx_begun tx_run_staged tx_publishable sw_root_ok).
    - vm_compute. reflexivity.
    - exact sw_pub_eq.
    - exact sw_store.
    - simpl. lia.
    - reflexivity.
    - reflexivity.
    - exact (sw_run_eq fault Er).
    - apply visited_head_in. exact Ev.
    - apply flush_crash_image.
    - exact T. }
  split.
  - destruct (H ex_torn) as [(found & s & E & _ & D) _]; [vm_compute; reflexivity|right; right; vm_compute; reflexivity|]. exists found, s. split; [exact E|exact D].
  - apply (proj2 (H sw_none ltac:(vm_compute; reflexivity) ltac:(right; left; vm_compute; reflexivity))); [vm_compute; reflexivity|reflexivity|exact sw_complete].
Defined.
