(* ===== verification/FreeNode.v ===== *)
(** * FreeNode: when free-directory nodes encode, and what later readers see

    Lemmas about the codecs of [FreeDirectory] for the tree above them: a node
    that satisfies the encoder's conditions always encodes, its page opens under
    its own header, and it reads the same under any later bounds of the file,
    because a file only grows while its transactions run. *)
From Stdlib Require Import ZArith Lia List Bool Sorted.
From stdpp Require Import base numbers list strings sets.
From S2P Require Import Prelude Leases Bytes Page StateRoot FreeDirectory.

Open Scope Z_scope.

(** Bounds of a later state of the same file. *)
Definition later_bounds (ps fe next fe' next' : Z) : Prop :=
  fe <= fe' <= maxSuperblockFileOffset /\ fe' mod ps = 0 /\ next <= next'.

(** A page that reads as a leaf with these extents, now and later. *)
Definition reads_leaf (ps fe next : Z) (bytes : list Z) (es : list FreeExtent) : Prop :=
  bytes_ok bytes /\ forall fe' next', later_bounds ps fe next fe' next' ->
  exists v, OpenFreeDirectoryPage bytes fe' next' = Ok v /\ fh_Level (v_header v) = 0 /\ view_Len v = length es /\
    forall rank, ExtentAt v rank = Ok (rank_lookup es rank).

Definition reads_branch (ps fe next : Z) (bytes : list Z) (level : Z) (cs : list FreeDirectoryChild) : Prop :=
  bytes_ok bytes /\ forall fe' next', later_bounds ps fe next fe' next' ->
  exists v, OpenFreeDirectoryPage bytes fe' next' = Ok v /\ fh_Level (v_header v) = level /\ view_Len v = length cs /\
    forall rank, ChildAt v rank = Ok (rank_lookup cs rank).

Lemma later_trans ps a b a1 b1 a2 b2 : later_bounds ps a b a1 b1 -> later_bounds ps a1 b1 a2 b2 -> later_bounds ps a b a2 b2.
Proof. unfold later_bounds. intros (? & ? & ?) (? & ? & ?). split_and!; done || lia. Qed.

Lemma reads_leaf_later ps a b a' b' bytes es : a <= a' -> b <= b' -> reads_leaf ps a b bytes es -> reads_leaf ps a' b' bytes es.
Proof. intros H1 H2 [Hb R]. split; [done|]. intros x y (? & ? & ?). apply R. unfold later_bounds. split_and!; done || lia. Qed.

Lemma reads_branch_later ps a b a' b' bytes level cs :
  a <= a' -> b <= b' -> reads_branch ps a b bytes level cs -> reads_branch ps a' b' bytes level cs.
Proof. intros H1 H2 [Hb R]. split; [done|]. intros x y (? & ? & ?). apply R. unfold later_bounds. split_and!; done || lia. Qed.

(** ** The encoder's conditions *)

Lemma header_later h count size next next' : next <= next' ->
  validateFreeDirectoryHeader h count size next = None -> validateFreeDirectoryHeader h count size next' = None.
Proof.
  intros Hn. unfold validateFreeDirectoryHeader. destruct (Z.leb_spec next (fh_LogicalID h)).
  - rewrite !orb_true_r. cbn [orb]. done.
  - by rewrite (proj2 (Z.leb_gt next' (fh_LogicalID h))) by lia.
Qed.

Lemma header_valid h count size next :
  bool_decide (fh_StoreID h = zeroStoreID) = false -> fh_Generation h <> 0 -> 1 < fh_LogicalID h < next ->
  validPhysicalPageSize (fh_PageSize h) = true -> fh_Flags h = 0 -> (0 < count)%nat -> Z.of_nat count <= 65535 ->
  (size = FreeDirectoryBranchRecordSize -> Z.of_nat count <= 64) -> 72 + (32 + Z.of_nat count * Z.of_nat size) <= fh_PageSize h ->
  validateFreeDirectoryHeader h count size next = None.
Proof.
  intros H1 H2 H3 H4 H5 H6 H7 H8 H9. unfold validateFreeDirectoryHeader, StateRootLogicalID, freeDirectoryKnownFlags.
  rewrite H1, H4, H5, (proj2 (Z.eqb_neq _ _) H2), (proj2 (Z.leb_gt (fh_LogicalID h) 1)), (proj2 (Z.leb_gt next _)) by lia.
  rewrite (proj2 (Nat.eqb_neq count 0)), (proj2 (Z.ltb_ge 65535 _)) by lia. cbn [orb negb Z.ldiff Z.eqb].
  destruct (Nat.eqb_spec size FreeDirectoryBranchRecordSize) as [E|]; cbn [andb].
  - rewrite (proj2 (Z.ltb_ge 64 _)) by (by apply H8). by rewrite (proj2 (Z.ltb_ge _ _)) by lia.
  - by rewrite (proj2 (Z.ltb_ge _ _)) by lia.
Qed.

Lemma checkLeaf_complete es ps fe first prev : fe <= maxSuperblockFileOffset -> Forall extent_words es ->
  Forall (extent_in_file ps fe) es -> StronglySorted (fun a b => extent_end a <= Offset b) es ->
  (first = false -> Forall (fun e => prev <= Offset e) es) -> checkLeaf es ps fe first prev = None.
Proof.
  intros Hfe W F S. revert first prev W F. induction S as [|e es S IH Fe]; intros first prev W F Hp; cbn [checkLeaf]; [done|].
  apply Forall_cons in W as [[W1 _] W]. apply Forall_cons in F as [(F1 & F2 & F3 & F4 & F5 & F6) F]. unfold extent_end in F5.
  assert (V : validateFreeExtent e ps fe = None).
  { unfold validateFreeExtent, word_ok, superblockCopies in *. rewrite F2, F3. rewrite !(proj2 (Z.ltb_ge _ _)) by lia. rewrite (proj2 (Z.eqb_neq (Length e) 0)), (proj2 (Z.eqb_neq (RetiredGeneration e) 0)) by lia. done. }
  rewrite V. assert (Hf : negb first && (Offset e <? prev) = false).
  { destruct first; [done|]. cbn [negb andb]. apply Z.ltb_ge. specialize (Hp eq_refl). by apply Forall_cons in Hp as [? _]. }
  rewrite Hf. apply IH; [done|done|]. intros _.
  assert (Ew : wrap64 (Offset e + Length e) = extent_end e) by (apply Z.mod_small; unfold word_ok, maxSuperblockFileOffset, extent_end in *; lia).
  by rewrite Ew.
Qed.

(** The children a branch may list. *)
Definition child_valid (h : FreeDirectoryHeader) (fe next : Z) (r : PageRef) : Prop := child_in_file h fe next r /\ ref_Flags r = 0.

Lemma validateChild_complete h fe next r : fe <= maxSuperblockFileOffset -> fe mod fh_PageSize h = 0 -> superblockCopies * fh_PageSize h <= fe ->
  child_valid h fe next r -> 0 < fh_PageSize h -> validateFreeDirectoryChild h r fe next = None.
Proof.
  intros H1 H2 H3 [(C1 & C2 & C3 & C4 & C5 & C6 & C7 & C8 & C9) Cf] Hp. unfold validateFreeDirectoryChild. cbn zeta.
  rewrite H2, C1, C2, C3, C8, Cf, !Z.eqb_refl. cbn [negb].
  rewrite !(proj2 (Z.ltb_ge _ _)) by (try lia). rewrite !(proj2 (Z.leb_gt _ _)) by lia. rewrite !(proj2 (Z.eqb_neq _ _)) by lia. done.
Qed.

Lemma checkBranch_complete cs h fe next prev seen refs : 4096 <= fh_PageSize h ->
  fe <= maxSuperblockFileOffset -> fe mod fh_PageSize h = 0 -> superblockCopies * fh_PageSize h <= fe ->
  refset_of seen refs -> (length refs + length cs <= 128)%nat -> Forall (fun c => child_valid h fe next (Ref c)) cs ->
  lowers_increasing prev cs -> NoDup (ref_LogicalID <$> refs ++ (Ref <$> cs)) -> NoDup (ref_Offset <$> refs ++ (Ref <$> cs)) ->
  checkBranch cs h fe next prev seen = Ok tt.
Proof.
  intros Hp H1 H2 H3. revert prev seen refs. induction cs as [|c cs IH]; intros prev seen refs T L F I N1 N2; cbn [checkBranch]; [done|].
  apply Forall_cons in F as [Vc F]. destruct I as [I1 I2]. cbn [length] in L.
  assert (Eo : match prev with Some p => Lower c <=? p | None => false end = false) by (destruct prev; [apply Z.leb_gt; lia|done]).
  rewrite Eo, validateChild_complete by (done || lia). destruct (child_in_file_nonzero h fe next (Ref c) Hp (proj1 Vc)) as [Z1 Z2].
  destruct (refSet_add_spec seen refs (Ref c) T Z1 Z2 ltac:(lia)) as (ok & set' & E & Hok & Hs). rewrite E, bind_Ok.
  assert (Eq : refs ++ (Ref <$> c :: cs) = (refs ++ [Ref c]) ++ (Ref <$> cs)) by (by rewrite <- app_assoc). rewrite Eq in N1, N2.
  assert (Ek : ok = true).
  { apply Hok. unfold ref_clash. rewrite !fmap_app in N1, N2. apply NoDup_app in N1 as (N1 & _), N2 as (N2 & _).
    apply NoDup_app in N1 as (_ & N1 & _), N2 as (_ & N2 & _). intros [X|X]; [apply (N1 _ X)|apply (N2 _ X)]; apply list_elem_of_singleton; done. }
  rewrite Ek. cbn [negb]. apply (IH _ _ (refs ++ [Ref c])); try done; [by apply Hs|]. rewrite length_app. simpl. lia.
Qed.

(** ** Encoding succeeds *)

Lemma node_opens h count size next w : free_header_ok h -> validateFreeDirectoryHeader h count size next = None -> node_page h count size w ->
  Z.of_nat (length (sealed w)) = fh_PageSize h /\ exists payload, OpenPage (sealed w) = Ok (freePageHeader h (32 + count * size), payload).
Proof.
  intros Ho V (I & Hb & _). assert (Hf : 0 <= fh_Flags h) by apply Ho. assert (Hps : fh_PageSize h < 256 ^ 4) by apply Ho.
  destruct (validateFreeDirectoryHeader_inv _ _ _ _ Hf V) as (_ & _ & _ & _ & _ & _ & Hc & _ & Hs).
  assert (Hw : word_ok 4 (Z.of_nat (32 + count * size))) by (unfold word_ok; simpl Z.of_nat; lia).
  split; [unfold sealed; cbn zeta; rewrite !setBytes_length; apply I|].
  eexists. rewrite <- (app_nil_r (sealed w)). apply OpenPage_sealed; [by apply freePageHeader_ok|by eapply freePageHeader_valid|done|done].
Qed.

Lemma EncodeLeaf_succeeds dst h es fe next : free_header_ok h -> Forall extent_words es -> fh_Level h = 0 ->
  validateFreeDirectoryHeader h (length es) FreeDirectoryLeafRecordSize next = None -> checkLeaf es (fh_PageSize h) fe true 0 = None ->
  fh_PageSize h <= Z.of_nat (length dst) -> exists page, EncodeFreeDirectoryLeaf dst h es fe next = Ok page.
Proof.
  intros Ho We Hl V C Hd. unfold EncodeFreeDirectoryLeaf. rewrite Hl. cbn [Z.eqb negb]. rewrite V, C.
  assert (Hf : 0 <= fh_Flags h) by apply Ho. rewrite InitPage_total by (cbn [ph_PayloadLength freePageHeader]; try lia; done || by eapply freePageHeader_valid).
  rewrite bind_Ok. cbn zeta. change (64 + 32)%nat with 96%nat.
  edestruct (node_page_init h (length es) FreeDirectoryLeafRecordSize next dst) as (N & _ & _); [done|done| |].
  { apply InitPage_total; [cbn [ph_PayloadLength freePageHeader]; lia|by eapply freePageHeader_valid|done]. }
  set (q := encodeFreeDirectoryHeader _ h (length es)) in *.
  assert (N' : node_page h (length es) FreeDirectoryLeafRecordSize (writeLeafRecords q 96 es)).
  { apply (node_page_agree _ _ _ q); [done|apply writeLeafRecords_length|apply writeLeafRecords_ok, N|]. by apply writeLeafRecords_out. }
  destruct (seal_node_page _ _ _ _ _ Ho V N') as [c ->]. rewrite bind_Ok. by eexists.
Qed.

Lemma EncodeBranch_succeeds dst h cs fe next : free_header_ok h -> Forall child_ok cs -> fh_Level h <> 0 -> (length cs <= 64)%nat ->
  validateFreeDirectoryHeader h (length cs) FreeDirectoryBranchRecordSize next = None -> checkBranch cs h fe next None emptyRefSet = Ok tt ->
  fh_PageSize h <= Z.of_nat (length dst) -> exists page, EncodeFreeDirectoryBranch dst h cs fe next = Ok page.
Proof.
  intros Ho Wc Hl Hn V C Hd. unfold EncodeFreeDirectoryBranch. rewrite (proj2 (Z.eqb_neq _ _) Hl), (proj2 (Z.ltb_ge _ _)) by lia. cbn [orb].
  rewrite V, C, bind_Ok. assert (Hf : 0 <= fh_Flags h) by apply Ho.
  rewrite InitPage_total by (cbn [ph_PayloadLength freePageHeader]; try lia; done || by eapply freePageHeader_valid).
  rewrite bind_Ok. cbn zeta. change (64 + 32)%nat with 96%nat.
  edestruct (node_page_init h (length cs) FreeDirectoryBranchRecordSize next dst) as (N & _ & _); [done|done| |].
  { apply InitPage_total; [cbn [ph_PayloadLength freePageHeader]; lia|by eapply freePageHeader_valid|done]. }
  set (q := encodeFreeDirectoryHeader _ h (length cs)) in *.
  assert (N' : node_page h (length cs) FreeDirectoryBranchRecordSize (writeBranchRecords q 96 cs)).
  { apply (node_page_agree _ _ _ q); [done|apply writeBranchRecords_length| |by apply writeBranchRecords_out].
    apply writeBranchRecords_ok; [|apply N]. eapply Forall_impl; [exact Wc|]. by intros c [_ ?]. }
  destruct (seal_node_page _ _ _ _ _ Ho V N') as [c ->]. rewrite bind_Ok. by eexists.
Qed.

(** ** What was encoded reads back later *)

Lemma checkLeaf_later es ps fe fe' first prev : fe <= fe' -> checkLeaf es ps fe first prev = None -> checkLeaf es ps fe' first prev = None.
Proof.
  intros H. revert first prev. induction es as [|e es IH]; intros first prev; cbn [checkLeaf]; [done|].
  destruct (validateFreeExtent e ps fe) eqn:V; [done|].
  assert (V' : validateFreeExtent e ps fe' = None).
  { unfold validateFreeExtent in *. destruct (_ || _) eqn:E in V; [done|]. rewrite !orb_false_iff in E. destruct E as [[[[[[[E1 E2] E3] E4] E5] E6] E7] E8].
    rewrite Z.ltb_ge in E6, E7. rewrite E1, E2, E3, E4, E5, E8, !(proj2 (Z.ltb_ge _ _)) by lia. done. }
  rewrite V'. case_match; [done|]. apply IH.
Qed.

Lemma checkBranch_later cs h fe next fe' next' prev seen : later_bounds (fh_PageSize h) fe next fe' next' ->
  checkBranch cs h fe next prev seen = Ok tt -> checkBranch cs h fe' next' prev seen = Ok tt.
Proof.
  intros (H1 & H2 & H3). revert prev seen. induction cs as [|c cs IH]; intros prev seen; cbn [checkBranch]; [done|]. case_match; [done|].
  destruct (validateFreeDirectoryChild h (Ref c) fe next) eqn:V; [done|].
  assert (V' : validateFreeDirectoryChild h (Ref c) fe' next' = None).
  { unfold validateFreeDirectoryChild in *. cbn zeta in *. destruct (_ || _) eqn:E in V; [done|]. rewrite !orb_false_iff in E.
    repeat match goal with H : _ /\ _ |- _ => destruct H end.
    repeat match goal with H : (_ <? _) = false |- _ => apply Z.ltb_ge in H | H : (_ <=? _) = false |- _ => apply Z.leb_gt in H
                         | H : (_ =? _) = false |- _ => apply Z.eqb_neq in H | H : negb _ = false |- _ => apply negb_false_iff, Z.eqb_eq in H end.
    rewrite !(proj2 (Z.ltb_ge _ _)) by lia. rewrite !(proj2 (Z.leb_gt _ _)) by lia. rewrite (proj2 (Z.eqb_neq (ref_LogicalID _) _)) by done.
    rewrite (proj2 (Z.eqb_neq (ref_Generation _) 0)) by lia.
    repeat match goal with H : ?a = ?b |- context [?a =? ?b] => rewrite H end. by rewrite !Z.eqb_refl. }
  rewrite V'. destruct (refSet_add seen (Ref c)) as [[ok seen']| |]; [|done..]. rewrite !bind_Ok. destruct ok; cbn [negb]; [apply IH|done].
Qed.

Lemma sealed_bytes h count size w : node_page h count size w -> bytes_ok (sealed w).
Proof. intros (_ & Hb & _). unfold sealed. cbn zeta. repeat apply setBytes_ok; try done; apply le_bytes_ok. Qed.

Lemma EncodeLeaf_reads dst h es fe next page : free_header_ok h -> Forall extent_words es ->
  EncodeFreeDirectoryLeaf dst h es fe next = Ok page -> reads_leaf (fh_PageSize h) fe next page es.
Proof.
  intros Ho We E. destruct (EncodeLeaf_sealed _ _ _ _ _ _ Ho We E) as (Hl & V & C & Hd & w & Ew & Nw & _).
  split; [rewrite Ew; by eapply sealed_bytes|]. clear w Ew Nw. intros fe' next' (H1 & H2 & H3).
  assert (E' : EncodeFreeDirectoryLeaf dst h es fe' next' = Ok page).
  { revert E. unfold EncodeFreeDirectoryLeaf. rewrite Hl, V, C, (header_later _ _ _ _ _ H3 V), (checkLeaf_later _ _ fe fe') by (done || lia). done. }
  destruct (free_leaf_roundtrip _ _ _ _ _ _ Ho We E' []) as (v & Ev & Eh & Hlen & R). rewrite app_nil_r in Ev. exists v. rewrite Eh. done.
Qed.

Lemma EncodeBranch_reads dst h cs fe next page : free_header_ok h -> Forall child_ok cs ->
  EncodeFreeDirectoryBranch dst h cs fe next = Ok page -> reads_branch (fh_PageSize h) fe next page (fh_Level h) cs.
Proof.
  intros Ho Wc E. destruct (EncodeBranch_sealed _ _ _ _ _ _ Ho Wc E) as (Hl & Hn & V & C & Hd & w & Ew & Nw & _).
  split; [rewrite Ew; by eapply sealed_bytes|]. clear w Ew Nw. intros fe' next' L.
  assert (E' : EncodeFreeDirectoryBranch dst h cs fe' next' = Ok page).
  { revert E. unfold EncodeFreeDirectoryBranch. rewrite V, C, (header_later _ _ _ _ _ (proj2 (proj2 L)) V), (checkBranch_later _ _ _ _ _ _ _ _ L C). done. }
  destruct (free_branch_roundtrip _ _ _ _ _ _ Ho Wc E' []) as (v & Ev & Eh & Hlen & R). rewrite app_nil_r in Ev. exists v. rewrite Eh. done.
Qed.

(** A branch cannot be written once the file has outgrown its limit. *)
Lemma EncodeBranch_full dst h cs fe next : cs <> [] -> maxSuperblockFileOffset < fe -> exists e, EncodeFreeDirectoryBranch dst h cs fe next = Err e.
Proof.
  intros N Hf. unfold EncodeFreeDirectoryBranch. case_match; [by eexists|]. case_match; [by eexists|]. destruct cs as [|c cs]; [done|]. cbn [checkBranch].
  unfold validateFreeDirectoryChild. cbn zeta. rewrite (proj2 (Z.ltb_lt _ _) Hf), orb_true_r. cbn [orb]. by eexists.
Qed.
