(* ===== verification/FreeTree.v ===== *)
(** * FreeTree: the durable B+tree of free extents

    Models internal/storeio/free_tree.go over [FreeDirectory] nodes and write
    transactions.  A mutation reads pages through the page cache, writes changed
    nodes copy on write in the transaction and collects the pages it replaces.
    The page cache is the interface [PageStore], whose laws say what a client of
    [Acquire], [Release] and [AdmitDirty] relies on. *)
From Stdlib Require Import ZArith Lia List Bool Sorted.
From stdpp Require Import base numbers list strings sets sorting.
From S2P Require Import Prelude Leases Bytes Page StateRoot FreeDirectory Superblock Device Committer GroupCommit WriteTx.

Open Scope Z_scope.

(** ** The page cache as the tree sees it

    [holds k ref bytes]: the page [ref] names has these bytes, in a frame or in
    the file behind the cache.  No operation of a reader changes that, and
    admitting a page changes it only for references to the same offset. *)

Class PageStore (K : DirtyCache) := {
  Acquire : PageRef -> cache -> io_res (list Z) * cache;
  Release : PageRef -> cache -> cache;
  holds : cache -> PageRef -> list Z -> Prop;
  Acquire_content : forall r k b b' k', holds k r b -> Acquire r k = (Ok b', k') -> b' = b;
  Acquire_frame : forall r k x k' r' b, Acquire r k = (x, k') -> holds k r' b -> holds k' r' b;
  Acquire_answers : forall r k, (Acquire r k).1 <> OutOfFuel;
  Release_frame : forall r k r' b, holds k r' b -> holds (Release r k) r' b;
  AdmitDirty_holds : forall r bytes g k k', AdmitDirty r bytes g k = (None, k') -> holds k' r (take (Z.to_nat (ref_Length r)) bytes);
  AdmitDirty_frame : forall r bytes g k e k' r' b, AdmitDirty r bytes g k = (e, k') -> ref_Offset r' <> ref_Offset r -> holds k r' b -> holds k' r' b;
}.

(** ** Data *)

Definition freeTreeMaxLevel : Z := 10.

Record FreeTreeBounds := mkBounds { fb_FileEnd : Z; fb_NextLogicalID : Z }.

(** [Retired] and [RetiredCount]: the retired pages are a list of at most 16. *)
Record FreeTreeMutation := mkMutation { m_Root : PageRef; m_Retired : list PageRef; m_Found : bool; m_Changed : bool }.

Record freeTreeRewrite := mkRewrite {
  rw_ref : PageRef; rw_lower : Z; rw_rightRef : PageRef; rw_rightLower : Z; rw_found : bool; rw_changed : bool; rw_empty : bool }.

Definition zeroChild : FreeDirectoryChild := mkChild 0 zeroRef.

(** ** Traversal

    The result is Go's: the destination, also when there is an error. *)

Section Tree.
  Context {K : DirtyCache} {P : PageStore K}.

(** The loop over the extents of one leaf. *)
Fixpoint appendLeaf (n i : nat) (view : FreeDirectoryView) (dst : list FreeExtent) : option io_error * list FreeExtent :=
  match n with
  | O => (None, dst)
  | S n =>
      match ExtentAt view (Z.of_nat i) with
      | Ok e =>
          let extent := default zeroExtent e in
          if match last dst with Some previous => Offset extent <? wrap64 (Offset previous + Length previous) | None => false end
          then (Some (ErrFreeDirectoryCorrupt ""), dst)
          else appendLeaf n (S i) view (dst ++ [extent])
      | Err e => (Some e, dst)
      | OutOfFuel => (Some Panic, dst)
      end
  end.

Fixpoint readChildRefs (n i : nat) (view : FreeDirectoryView) : io_res (list PageRef) :=
  match n with
  | O => Ok []
  | S n =>
      c ← ChildAt view (Z.of_nat i);
      match c with
      | None => Err (ErrFreeDirectoryCorrupt "")
      | Some child => rest ← readChildRefs n (S i) view; Ok (Ref child :: rest)
      end
  end.

(** The loop over the children, for a given traversal of one child. *)
Fixpoint appendChildren (walk : PageRef -> list FreeExtent -> cache -> option io_error * list FreeExtent * cache)
    (children : list PageRef) (dst : list FreeExtent) (k : cache) : option io_error * list FreeExtent * cache :=
  match children with
  | [] => (None, dst, k)
  | child :: rest =>
      match walk child dst k with
      | (Some e, dst, k) => (Some e, dst, k)
      | (None, dst, k) => appendChildren walk rest dst k
      end
  end.

(** [levels] is [freeTreeMaxLevel + 1 - depth]. *)
Fixpoint appendFreeTreePage (levels : nat) (bounds : FreeTreeBounds) (limit : nat) (ref : PageRef) (dst : list FreeExtent) (k : cache)
    : option io_error * list FreeExtent * cache :=
  match levels with
  | O => (Some ErrFreeTreeDepth, dst, k)
  | S levels =>
      match Acquire ref k with
      | (Err e, k) => (Some e, dst, k)
      | (OutOfFuel, k) => (Some Panic, dst, k)
      | (Ok page, k) =>
          match OpenFreeDirectoryPage page (fb_FileEnd bounds) (fb_NextLogicalID bounds) with
          | Err e => (Some e, dst, Release ref k)
          | OutOfFuel => (Some Panic, dst, Release ref k)
          | Ok view =>
              if fh_Level (v_header view) =? 0 then
                if (limit - length dst <? view_Len view)%nat then (Some ErrRetiredExtentCapacity, dst, Release ref k)
                else let '(e, dst) := appendLeaf (view_Len view) 0 view dst in (e, dst, Release ref k)
              else match readChildRefs (view_Len view) 0 view with
              | Err e => (Some e, dst, Release ref k)
              | OutOfFuel => (Some Panic, dst, Release ref k)
              | Ok children => appendChildren (appendFreeTreePage levels bounds limit) children dst (Release ref k)
              end
          end
      end
  end.

Definition AppendFreeTreeExtents (root : PageRef) (bounds : FreeTreeBounds) (dst : list FreeExtent) (limit : nat) (k : cache)
    : option io_error * list FreeExtent * cache :=
  if isZeroRef root then (None, dst, k)
  else if (limit <? length dst)%nat then (Some (ErrInvalidWrite "free-tree traversal"), dst, k)
  else appendFreeTreePage (S (Z.to_nat freeTreeMaxLevel)) bounds limit root dst k.

(** ** Mutation: a state and error monad

    The state is the transaction with its committer, the cache, and the retired
    pages of the mutation. *)

Record tstate := mkTS { ts_tx : WriteTransaction; ts_committer : Committer; ts_cache : cache; ts_retired : list PageRef }.

Definition treeM (A : Type) : Type := tstate -> io_res A * tstate.
#[local] Instance treeM_ret : MRet treeM := fun A a s => (Ok a, s).
#[local] Instance treeM_bind : MBind treeM := fun A B f m s =>
  match m s with (Ok a, s) => f a s | (Err e, s) => (Err e, s) | (OutOfFuel, s) => (OutOfFuel, s) end.

Definition lift {A} (r : io_res A) : treeM A := fun s => (r, s).
Definition setCache (k : cache) (s : tstate) : tstate := mkTS (ts_tx s) (ts_committer s) k (ts_retired s).

Definition retire (ref : PageRef) : treeM unit := fun s =>
  if (length (ts_retired s) =? 16)%nat then (Err ErrFreeTreeDepth, s)
  else (Ok tt, mkTS (ts_tx s) (ts_committer s) (ts_cache s) (ts_retired s ++ [ref])).

(** [Acquire] and the deferred [Release]. *)
Definition withLease {A} (ref : PageRef) (body : list Z -> treeM A) : treeM A := fun s =>
  match Acquire ref (ts_cache s) with
  | (Err e, k) => (Err e, setCache k s)
  | (OutOfFuel, k) => (OutOfFuel, setCache k s)
  | (Ok page, k) => let '(r, s') := body page (setCache k s) in (r, setCache (Release ref (ts_cache s')) s')
  end.

Definition txAllocate (kind length logicalID : Z) : treeM TransactionPage := fun s =>
  let '(r, t) := Allocate kind length logicalID (ts_tx s) (ts_committer s) in (r, mkTS t (ts_committer s) (ts_cache s) (ts_retired s)).

Definition txStage (p : TransactionPage) : treeM unit := fun s =>
  let '(e, c, k) := Stage p (ts_tx s) (ts_committer s) (ts_cache s) in
  (match e with Some e => Err e | None => Ok tt end, mkTS (ts_tx s) c k (ts_retired s)).

(** Encoding into [page.Bytes()], the staging buffer. *)
Definition txEncode (p : TransactionPage) (encode : list Z -> Z -> Z -> io_res (list Z)) : treeM unit := fun s =>
  let d := c_device (ts_committer s) in
  match writeData d (mkWrite 0 (ref_Length (p_ref p)) (p_buffer p) 0) ≫= (fun dst => encode dst (t_fileEnd (ts_tx s)) (t_nextID (ts_tx s))) with
  | Err e => (Err e, s)
  | OutOfFuel => (OutOfFuel, s)
  | Ok bytes => (Ok tt, mkTS (ts_tx s) (setDevice (writeBuffer (p_buffer p) bytes d) (ts_committer s)) (ts_cache s) (ts_retired s))
  end.

Definition options : treeM WriteTransactionOptions := fun s => (Ok (t_options (ts_tx s)), s).

Definition encodeFreeTreeLeaf (logicalID : Z) (extents : list FreeExtent) : treeM TransactionPage :=
  o ← options;
  page ← txAllocate PageFreeDirectory (o_PageSize o) logicalID;
  let header := mkFreeHeader (o_StoreID o) (o_Generation o) (ref_LogicalID (p_ref page)) (ref_Length (p_ref page)) 0 0 in
  _ ← txEncode page (fun dst => EncodeFreeDirectoryLeaf dst header extents);
  _ ← txStage page;
  mret page.

Definition encodeFreeTreeBranch (logicalID level : Z) (children : list FreeDirectoryChild) : treeM TransactionPage :=
  o ← options;
  page ← txAllocate PageFreeDirectory (o_PageSize o) logicalID;
  let header := mkFreeHeader (o_StoreID o) (o_Generation o) (ref_LogicalID (p_ref page)) (ref_Length (p_ref page)) level 0 in
  _ ← txEncode page (fun dst => EncodeFreeDirectoryBranch dst header children);
  _ ← txStage page;
  mret page.

(** ** Leaves *)

Fixpoint readExtents (n i : nat) (view : FreeDirectoryView) : io_res (list FreeExtent) :=
  match n with
  | O => Ok []
  | S n => e ← ExtentAt view (Z.of_nat i); rest ← readExtents n (S i) view; Ok (default zeroExtent e :: rest)
  end.

(** The scan of a leaf: the new entries and whether the offset was found. *)
Fixpoint leafScan (entries : list FreeExtent) (offset : Z) (extent : FreeExtent) (deleting : bool) : list FreeExtent * bool :=
  match entries with
  | [] => ([], false)
  | entry :: rest =>
      if Offset entry <? offset then let '(out, found) := leafScan rest offset extent deleting in (entry :: out, found)
      else if Offset entry =? offset then (if deleting then rest else extent :: rest, true)
      else (if deleting then entries else extent :: entries, false)
  end.

Definition leafEntries (entries : list FreeExtent) (offset : Z) (extent : FreeExtent) (deleting : bool) : list FreeExtent * bool :=
  let '(out, found) := leafScan entries offset extent deleting in
  (if (length out =? length entries)%nat && negb found && negb deleting then out ++ [extent] else out, found).

Definition freeTreeLeafFits (pageSize : Z) (count : nat) : bool := 64 + 8 + 32 + Z.of_nat count * 24 <=? pageSize.

Definition unchanged (ref : PageRef) (found : bool) : freeTreeRewrite := mkRewrite ref 0 zeroRef 0 found false false.
Definition emptied (found : bool) : freeTreeRewrite := mkRewrite zeroRef 0 zeroRef 0 found true true.
Definition rewritten (ref : PageRef) (lower : Z) (found : bool) : freeTreeRewrite := mkRewrite ref lower zeroRef 0 found true false.
Definition divided (ref : PageRef) (lower : Z) (right : PageRef) (rightLower : Z) (found : bool) : freeTreeRewrite :=
  mkRewrite ref lower right rightLower found true false.

Definition firstOffset (es : list FreeExtent) : Z := Offset (default zeroExtent (head es)).
Definition firstLower (cs : list FreeDirectoryChild) : Z := Lower (default zeroChild (head cs)).

Definition rewriteFreeTreeLeaf (oldRef : PageRef) (view : FreeDirectoryView) (offset : Z) (extent : FreeExtent) (deleting : bool)
    : treeM freeTreeRewrite :=
  old ← lift (readExtents (view_Len view) 0 view);
  let '(entries, found) := leafEntries old offset extent deleting in
  if deleting && negb found then mret (unchanged oldRef false)
  else
    _ ← retire oldRef;
    if (length entries =? 0)%nat then mret (emptied true)
    else
      o ← options;
      if freeTreeLeafFits (o_PageSize o) (length entries) then
        page ← encodeFreeTreeLeaf (ref_LogicalID oldRef) entries;
        mret (rewritten (p_ref page) (firstOffset entries) found)
      else
        let split := Nat.div2 (length entries) in
        leftPage ← encodeFreeTreeLeaf (ref_LogicalID oldRef) (take split entries);
        rightPage ← encodeFreeTreeLeaf 0 (drop split entries);
        mret (divided (p_ref leftPage) (firstOffset entries) (p_ref rightPage) (firstOffset (drop split entries)) found).

(** ** Branches *)

Fixpoint readChildren (n i : nat) (view : FreeDirectoryView) : io_res (list FreeDirectoryChild) :=
  match n with
  | O => Ok []
  | S n => c ← ChildAt view (Z.of_nat i); rest ← readChildren n (S i) view; Ok (default zeroChild c :: rest)
  end.

Definition freeTreeChildRank (children : list FreeDirectoryChild) (offset : Z) : io_res Z :=
  match bsearch (length children) (fun i => Lower (default zeroChild (children !! i)) <=? offset) 0 (length children) with
  | Some low => Ok (Z.of_nat low - 1)
  | None => OutOfFuel
  end.

(** The children after the one at [rank] was rewritten. *)
Definition replaceChild (children : list FreeDirectoryChild) (rank : nat) (child : freeTreeRewrite) : list FreeDirectoryChild :=
  take rank children ++
  (if rw_empty child then []
   else mkChild (rw_lower child) (rw_ref child) ::
        (if isZeroRef (rw_rightRef child) then [] else [mkChild (rw_rightLower child) (rw_rightRef child)])) ++
  drop (S rank) children.

(** What is left of a branch once the child is rewritten. *)
Definition rebuildBranch (oldRef : PageRef) (level : Z) (children : list FreeDirectoryChild) (found root : bool) : treeM freeTreeRewrite :=
  _ ← retire oldRef;
  if (length children =? 0)%nat then mret (emptied found)
  else if root && (length children =? 1)%nat then
    mret (rewritten (Ref (default zeroChild (head children))) (firstLower children) found)
  else if (length children <=? 64)%nat then
    page ← encodeFreeTreeBranch (ref_LogicalID oldRef) level children;
    mret (rewritten (p_ref page) (firstLower children) found)
  else
    let split := Nat.div2 (length children) in
    leftPage ← encodeFreeTreeBranch (ref_LogicalID oldRef) level (take split children);
    rightPage ← encodeFreeTreeBranch 0 level (drop split children);
    mret (divided (p_ref leftPage) (firstLower children) (p_ref rightPage) (firstLower (drop split children)) found).

Definition rewriteFreeTreeBranch (rewritePage : PageRef -> treeM freeTreeRewrite) (oldRef : PageRef) (view : FreeDirectoryView)
    (offset : Z) (deleting root : bool) : treeM freeTreeRewrite :=
  if (65 <? view_Len view)%nat then lift (Err Panic)   (* the array holds 65 children *)
  else
    children ← lift (readChildren (view_Len view) 0 view);
    rank ← lift (freeTreeChildRank children offset);
    if (rank <? 0) && deleting then mret (unchanged oldRef false)
    else
      let rank := Z.to_nat rank in
      child ← rewritePage (Ref (default zeroChild (children !! rank)));
      if negb (rw_changed child) then mret (unchanged oldRef (rw_found child))
      else rebuildBranch oldRef (fh_Level (v_header view)) (replaceChild children rank child) (rw_found child) root.

Fixpoint rewriteFreeTreePage (fuel : nat) (offset : Z) (extent : FreeExtent) (deleting : bool) (bounds : FreeTreeBounds) (root : bool)
    (ref : PageRef) : treeM freeTreeRewrite :=
  match fuel with
  | O => lift OutOfFuel
  | S fuel =>
      withLease ref (fun page =>
        view ← lift (OpenFreeDirectoryPage page (fb_FileEnd bounds) (fb_NextLogicalID bounds));
        if fh_Level (v_header view) =? 0 then rewriteFreeTreeLeaf ref view offset extent deleting
        else rewriteFreeTreeBranch (rewriteFreeTreePage fuel offset extent deleting bounds false) ref view offset deleting root)
  end.

Definition freeTreePageLevel (ref : PageRef) : treeM Z :=
  withLease ref (fun page s =>
    match OpenFreeDirectoryPage page (t_fileEnd (ts_tx s)) (t_nextID (ts_tx s)) with
    | Ok view => (Ok (fh_Level (v_header view)), s)
    | Err e => (Err e, s)
    | OutOfFuel => (OutOfFuel, s)
    end).

Definition setRetired (rs : list PageRef) (s : tstate) : tstate := mkTS (ts_tx s) (ts_committer s) (ts_cache s) rs.

Definition guardMutation (offset : Z) (extent : FreeExtent) (deleting : bool) : treeM unit := fun s =>
  if negb (t_active (ts_tx s)) || (negb deleting && negb (Offset extent =? offset))
  then (Err (ErrInvalidWrite "free-tree mutation"), s) else (Ok tt, s).

Definition retired : treeM (list PageRef) := fun s => (Ok (ts_retired s), s).

(** A mutation starts with nothing retired. *)
Definition mutateFreeTree (fuel : nat) (root : PageRef) (offset : Z) (extent : FreeExtent) (deleting : bool) (bounds : FreeTreeBounds)
    : treeM FreeTreeMutation :=
  _ ← guardMutation offset extent deleting;
  if isZeroRef root then
    if deleting then mret (mkMutation zeroRef [] false false)
    else page ← encodeFreeTreeLeaf 0 [extent]; mret (mkMutation (p_ref page) [] false true)
  else
    result ← rewriteFreeTreePage fuel offset extent deleting bounds true root;
    rs ← retired;
    if negb (rw_changed result) then mret (mkMutation root rs (rw_found result) false)
    else if rw_empty result then mret (mkMutation zeroRef rs (rw_found result) true)
    else if isZeroRef (rw_rightRef result) then mret (mkMutation (rw_ref result) rs (rw_found result) true)
    else
      level ← freeTreePageLevel (rw_ref result);
      if level =? freeTreeMaxLevel then lift (Err ErrFreeTreeDepth)
      else
        page ← encodeFreeTreeBranch 0 (level + 1)
          [mkChild (rw_lower result) (rw_ref result); mkChild (rw_rightLower result) (rw_rightRef result)];
        mret (mkMutation (p_ref page) rs (rw_found result) true).

Definition startTree (t : WriteTransaction) (c : Committer) (k : cache) : tstate := mkTS t c k [].

Definition UpsertFreeTree (fuel : nat) (t : WriteTransaction) (c : Committer) (k : cache) (root : PageRef) (extent : FreeExtent)
    (bounds : FreeTreeBounds) : io_res FreeTreeMutation * tstate :=
  mutateFreeTree fuel root (Offset extent) extent false bounds (startTree t c k).

Definition DeleteFreeTree (fuel : nat) (t : WriteTransaction) (c : Committer) (k : cache) (root : PageRef) (offset : Z)
    (bounds : FreeTreeBounds) : io_res FreeTreeMutation * tstate :=
  mutateFreeTree fuel root offset zeroExtent true bounds (startTree t c k).
End Tree.
