(* ===== verification/FreeTreeSteps.v ===== *)
(** * FreeTreeSteps: writing one tree node in a transaction

    A Hoare-style account of the monad of [FreeTree].  [outcome] says what a
    computation does from a state of a running transaction: it answers, keeps
    the transaction a run of its allocator and staging operations, changes no
    page the tree may still name, and fails only for want of resources.  The
    steps below it are the calls the tree makes: allocate, encode, stage,
    acquire and release. *)
From Stdlib Require Import ZArith Lia List Bool Sorted.
From stdpp Require Import base numbers list strings sets sorting.
From S2P Require Import Prelude Leases Bytes Page StateRoot FreeDirectory Superblock Device Committer GroupCommit WriteTx FreeNode FreeTree.

Open Scope Z_scope.

(** ** What an allocation does to the transaction's high-water marks *)

Lemma allocatePhysical_marks want t r t2 : allocatePhysical want t = (r, t2) ->
  t_nextID t2 = t_nextID t /\ t_fileEnd t2 = t_fileEnd t /\ r <> OutOfFuel.
Proof.
  unfold allocatePhysical, appendExtent, allocateFromReusable. intros E. repeat case_match; simplify_eq; done.
Qed.

(** The new reference and the identities left. *)
Definition identified (id next next' : Z) (r : PageRef) : Prop :=
  ref_Flags r = 0 /\ ref_Aux r = 0 /\ 0 < ref_LogicalID r < next' /\
  (if id =? 0 then ref_LogicalID r = next /\ next' = next + 1 else ref_LogicalID r = id /\ next' = next) /\
  (ref_Kind r <> PageStateRoot -> 1 < ref_LogicalID r).

(** A branch that leaves the marks where they were. *)
Ltac stay := simplify_eq; split_and!; first [done | lia].

Lemma Allocate_marks kind len id t c r t' : Allocate kind len id t c = (r, t') -> 1 < t_nextID t < 2 ^ 64 -> 0 <= len ->
  t_fileEnd t + len < 2 ^ 64 -> 0 <= t_fileEnd t ->
  t_nextID t <= t_nextID t' < 2 ^ 64 /\ t_fileEnd t <= t_fileEnd t' /\
  match r with Ok p => identified id (t_nextID t) (t_nextID t') (p_ref p) | Err _ => True | OutOfFuel => False end.
Proof.
  intros E Hn Hl Hf Hf0. unfold Allocate in E. case_match; [stay|]. case_match; [stay|]. case_match; [stay|].
  destruct (logicalIdentity id t) as [ri t1] eqn:Ei.
  assert (Hi : t_fileEnd t1 = t_fileEnd t /\ t_nextID t <= t_nextID t1 < 2 ^ 64 /\
    match ri with Ok i => 0 < i < t_nextID t1 /\ (if id =? 0 then i = t_nextID t /\ t_nextID t1 = t_nextID t + 1 else i = id /\ t_nextID t1 = t_nextID t)
                | Err _ => True | OutOfFuel => False end).
  { unfold logicalIdentity, StateRootLogicalID in Ei. destruct (Z.eqb_spec id 0).
    - destruct (_ || _) eqn:G in Ei; [stay|]. simplify_eq. apply orb_false_iff in G as [G1%Z.leb_gt G2%Z.eqb_neq].
      cbn [setNextID t_fileEnd t_nextID]. unfold wrap64. rewrite Z.mod_small by lia. lia.
    - destruct (_ && _) eqn:G in Ei; [stay|]. simplify_eq. split; [done|]. split; [lia|]. split; [|done].
      apply andb_false_iff in G as [G|G]; [apply negb_false_iff, Z.eqb_eq in G; lia|]. apply orb_false_iff in G as [G1%Z.leb_gt G2%Z.leb_gt]. lia. }
  destruct Hi as (F1 & N1 & Hi). destruct ri as [i| |]; [|stay..].
  destruct (_ || _) eqn:G in E; [stay|].
  destruct (allocatePhysical len t1) as [ra t2] eqn:Ea. destruct (allocatePhysical_marks _ _ _ _ Ea) as (N2 & F2 & Na).
  destruct ra as [[off reused]| |]; [|stay..].
  destruct (PageBuffer _ _ _) as [?| |]; [|stay..].
  destruct (batchPages t2 c !! _); [|stay]. simplify_eq.
  cbn [setAllocated t_nextID t_fileEnd p_ref]. rewrite N2, F2, F1. split; [done|]. split.
  - destruct reused; [done|]. unfold wrap64. rewrite Z.mod_small; lia.
  - unfold identified. cbn [ref_Flags ref_Aux ref_LogicalID ref_Kind]. split_and!; try done; [apply Hi|apply Hi|apply Hi|].
    intros Hk. apply orb_false_iff in G as [_ G]. rewrite (proj2 (Z.eqb_neq _ _) Hk) in G. cbn [negb andb] in G. apply Z.eqb_neq in G.
    unfold StateRootLogicalID in G. lia.
Qed.

(** Go's types: the store identity is 16 bytes, generation and identity are uint64. *)
Definition tx_words (o : WriteTransactionOptions) : Prop :=
  length (o_StoreID o) = 16%nat /\ bytes_ok (o_StoreID o) /\ word_ok 8 (o_Generation o) /\ word_ok 8 (o_NextLogicalID o).

Section Steps.
  Context {K : DirtyCache} {P : PageStore K}.
  Variables (o : WriteTransactionOptions) (pool : list FreeExtent) (t0 : WriteTransaction) (c0 : Committer) (k0 : cache).
  Hypothesis Bg : begun o pool t0 c0.
  Hypothesis Wo : tx_words o.

Lemma begun_options : begin_ok o pool /\ validPhysicalPageSize (o_PageSize o) = true /\ bool_decide (o_StoreID o = zeroStoreID) = false /\
  o_Generation o <> 0 /\ t_nextID t0 = o_NextLogicalID o /\ 1 < o_NextLogicalID o.
Proof.
  destruct Bg as (q & c & n & I & E & Hp & P1 & P2 & P3). apply pairwise_lookup in P1.
  destruct (BeginWriteTransaction_inv _ _ _ _ _ _ _ I E Hp P1 P2 P3) as (B & _). split; [done|].
  unfold BeginWriteTransaction in E. destruct (_ || _) eqn:G; [done|]. rewrite !orb_false_iff in G.
  destruct G as [[[[[[G1 G2] G3] _] _] _] G7]. apply negb_false_iff in G3. apply Z.eqb_neq in G2. apply Z.leb_gt in G7.
  destruct (Begin n c) as [bi c'| |]; [|done..]. injection E as <- <-. split_and!; try done.
  apply bool_decide_eq_false. intros Ez. rewrite Ez in G1. vm_compute in G1. done.
Qed.

Lemma run_marks t c k ps : tx_run t0 c0 k0 t c k ps -> 1 < t_nextID t < 2 ^ 64.
Proof.
  destruct begun_options as (B & _ & _ & _ & En & H1). destruct Wo as (_ & _ & _ & Hn). unfold word_ok in Hn.
  assert (Step : forall t c k ps kind len id r t', tx_run t0 c0 k0 t c k ps -> 1 < t_nextID t < 2 ^ 64 -> 0 <= len < 2 ^ 32 ->
    Allocate kind len id t c = (r, t') -> 1 < t_nextID t' < 2 ^ 64).
  { intros t1 c1 k1 ps1 kind len id r t' R Hn1 Hl E. destruct (begun_run _ _ _ _ _ _ _ _ _ Bg R) as (_ & A & bi & b & S).
    destruct (staged_length _ _ _ _ _ S). pose proof (a_end _ _ _ _ A) as [Ha _]. pose proof (b_end _ _ B) as [Hb _]. pose proof (b_size _ _ B).
    destruct (Allocate_marks _ _ _ _ _ _ _ E) as (? & _); unfold maxSuperblockFileOffset in *; lia. }
  induction 1; eauto.
  - rewrite En. change (256 ^ Z.of_nat 8) with (2 ^ 64) in Hn. lia.
  - unfold SetReuseRange in *. case_match; [done|]. simplify_eq. done.
Qed.

Definition run (s : tstate) (ps : list TransactionPage) : Prop := tx_run t0 c0 k0 (ts_tx s) (ts_committer s) (ts_cache s) ps.

(** A page outside the pool, or one of the transaction's: nothing allocated
    later can be placed over it. *)
Definition kept (ps : list TransactionPage) (r : PageRef) : Prop :=
  0 < ref_Length r /\ (live_extent o pool (ref_Offset r) (ref_Length r) \/ r ∈ p_ref <$> ps).

Lemma kept_app ps new r : kept ps r -> kept (ps ++ new) r.
Proof. intros [H1 [H2|H2]]; split; try done; [by left|]. right. rewrite fmap_app. apply elem_of_app. by left. Qed.

Lemma kept_fresh s ps new p r : run s (ps ++ new) -> p ∈ new -> kept ps r -> ref_Offset r <> ref_Offset (p_ref p).
Proof.
  intros R Hp [Hl Hk]. destruct (begun_run _ _ _ _ _ _ _ _ _ Bg R) as (B & A & _). pose proof (a_placed _ _ _ _ A) as F.
  apply Forall_app in F as [_ F]. rewrite Forall_forall in F. destruct (F p Hp) as (_ & _ & Hpl & _ & Hc). cbn [pageExtent Length Offset] in Hpl, Hc.
  intros Eo. destruct Hk as [(L1 & L2 & L3 & L4)|Hin].
  - destruct Hc as [He|(e0 & He0 & [Ez|W])]; [lia|unfold pageExtent, zeroExtent in Ez; injection Ez; lia|]. rewrite Forall_forall in L4.
    specialize (L4 e0 He0). unfold disjoint in L4. cbn in *. lia.
  - apply list_elem_of_fmap in Hin as (p' & -> & Hin). apply list_elem_of_lookup in Hin as [i Hi]. pose proof (lookup_lt_Some _ _ _ Hi) as Hlt.
    apply list_elem_of_lookup in Hp as [j Hj].
    pose proof (proj2 (pairwise_lookup _) (a_apart _ _ _ _ A)) as D. apply pairwise_app in D as (_ & D & _). rewrite pairwise_lookup in D.
    specialize (D i (length ps + j)%nat (pageExtent p') (pageExtent p)).
    rewrite !list_lookup_fmap, lookup_app_l, Hi, lookup_app_r, Nat.add_comm, Nat.add_sub, Hj in D by lia.
    specialize (D eq_refl eq_refl ltac:(lia)). unfold disjoint in D. simpl in D. lia.
Qed.

(** Pages written later keep the offsets of a set of kept pages distinct. *)
Lemma new_offsets s ps new rs : run s (ps ++ new) -> Forall (kept ps) rs -> NoDup (ref_Offset <$> rs) ->
  NoDup (ref_Offset <$> rs ++ (p_ref <$> new)).
Proof.
  revert ps rs. induction new as [|p new IH]; intros ps rs R F N; [by rewrite app_nil_r|].
  assert (Hk : kept (ps ++ [p]) (p_ref p)).
  { destruct (begun_run _ _ _ _ _ _ _ _ _ Bg R) as (_ & A & _). pose proof (a_placed _ _ _ _ A) as Fp. rewrite Forall_forall in Fp.
    destruct (Fp p) as (_ & _ & H & _); [apply elem_of_app; right; constructor|]. split; [apply H|]. right. rewrite fmap_app. apply elem_of_app. right. constructor. }
  change (p_ref <$> p :: new) with ([p_ref p] ++ (p_ref <$> new)). rewrite app_assoc. apply (IH (ps ++ [p])).
  - by rewrite <- app_assoc.
  - apply Forall_app. split; [eapply Forall_impl; [exact F|]; intros r; by apply kept_app|]. by constructor.
  - rewrite fmap_app. apply NoDup_app. split_and!; [done| |apply NoDup_singleton]. intros x Hx Hp.
    apply list_elem_of_fmap in Hx as (r & -> & Hr). cbn in Hp. apply list_elem_of_singleton in Hp. rewrite Forall_forall in F.
    apply (kept_fresh s ps (p :: new) p r R); [constructor|by apply F|done].
Qed.

(** From one state of the transaction to a later one. *)
Record goes (s : tstate) (ps : list TransactionPage) (s' : tstate) (ps' : list TransactionPage) : Prop := {
  g_run : run s' ps';
  g_pages : exists new, ps' = ps ++ new;
  g_holds : forall r b, kept ps r -> holds (ts_cache s) r b -> holds (ts_cache s') r b;
  g_marks : t_fileEnd (ts_tx s) <= t_fileEnd (ts_tx s') /\ t_nextID (ts_tx s) <= t_nextID (ts_tx s');
}.

Lemma goes_refl s ps : run s ps -> goes s ps s ps.
Proof. intros R. split; [done|exists []; by rewrite app_nil_r|done|lia]. Qed.

Lemma goes_trans s ps s1 ps1 s2 ps2 : goes s ps s1 ps1 -> goes s1 ps1 s2 ps2 -> goes s ps s2 ps2.
Proof.
  intros [R1 [n1 ->] H1 M1] [R2 [n2 ->] H2 M2]. split; [done|exists (n1 ++ n2); by rewrite app_assoc| |lia].
  intros r b Hk Hh. apply H2; [by apply kept_app|by apply H1].
Qed.

Lemma goes_kept s ps s' ps' r : goes s ps s' ps' -> kept ps r -> kept ps' r.
Proof. intros [_ [n ->] _ _]. apply kept_app. Qed.

(** The failures a mutation may report, each in a state it went through: no page
    to allocate, a page that cannot be read, a page the cache refuses, a full
    file. *)
Inductive resource_error (s : tstate) (ps : list TransactionPage) (e : io_error) : Prop :=
| NoPage s1 ps1 id t' : goes s ps s1 ps1 -> Allocate PageFreeDirectory (o_PageSize o) id (ts_tx s1) (ts_committer s1) = (Err e, t') -> resource_error s ps e
| Unreadable s1 ps1 r k' : goes s ps s1 ps1 -> Acquire r (ts_cache s1) = (Err e, k') -> resource_error s ps e
| Refused s1 ps1 r bytes k' : goes s ps s1 ps1 -> AdmitDirty r bytes (o_Generation o) (ts_cache s1) = (Some e, k') -> resource_error s ps e
| FileFull s1 ps1 : goes s ps s1 ps1 -> maxSuperblockFileOffset < t_fileEnd (ts_tx s1) -> resource_error s ps e.

Lemma error_from s ps s1 ps1 e : goes s ps s1 ps1 -> resource_error s1 ps1 e -> resource_error s ps e.
Proof.
  intros G [s2 ps2 id t' G2 E|s2 ps2 r k' G2 E|s2 ps2 r bytes k' G2 E|s2 ps2 G2 E]; pose proof (goes_trans _ _ _ _ _ _ G G2);
    [by eapply NoPage|by eapply Unreadable|by eapply Refused|by eapply FileFull].
Qed.

Definition outcome {A} (m : treeM A) (s : tstate) (ps : list TransactionPage) (Q : A -> tstate -> list TransactionPage -> Prop) : Prop :=
  match m s with
  | (Ok a, s') => exists ps', goes s ps s' ps' /\ Q a s' ps'
  | (Err e, s') => (exists ps', goes s ps s' ps') /\ resource_error s ps e
  | (OutOfFuel, _) => False
  end.

Lemma outcome_ret {A} (a : A) s ps Q : run s ps -> Q a s ps -> outcome (treeM_ret A a) s ps Q.
Proof. intros R H. exists ps. split; [by apply goes_refl|done]. Qed.

Lemma outcome_bind {A B} (m : treeM A) (f : A -> treeM B) s ps Q R : outcome m s ps Q ->
  (forall a s1 ps1, goes s ps s1 ps1 -> Q a s1 ps1 -> outcome (f a) s1 ps1 R) -> outcome (treeM_bind A B f m) s ps R.
Proof.
  unfold outcome, treeM_bind. destruct (m s) as [[a|e|] s1]; [|done..]. intros (ps1 & G & HQ) H. specialize (H a s1 ps1 G HQ).
  destruct (f a s1) as [[b|e|] s2]; [| |done].
  - destruct H as (ps2 & G2 & HR). exists ps2. split; [by eapply goes_trans|done].
  - destruct H as [[ps2 G2] He]. split; [exists ps2; by eapply goes_trans|by eapply error_from].
Qed.

Lemma outcome_mono {A} (m : treeM A) s ps (Q R : A -> tstate -> list TransactionPage -> Prop) : outcome m s ps Q ->
  (forall a s' ps', goes s ps s' ps' -> Q a s' ps' -> R a s' ps') -> outcome m s ps R.
Proof.
  unfold outcome. destruct (m s) as [[a|e|] s1]; [|done..]. intros (ps1 & G & HQ) H. exists ps1. split; [done|by apply H].
Qed.

Lemma outcome_lift {A} (a : A) s ps (Q : A -> tstate -> list TransactionPage -> Prop) : run s ps -> Q a s ps -> outcome (lift (Ok a)) s ps Q.
Proof. intros R H. exists ps. split; [by apply goes_refl|done]. Qed.

Lemma outcome_options s ps (Q : _ -> tstate -> list TransactionPage -> Prop) : run s ps -> Q o s ps -> outcome options s ps Q.
Proof.
  intros R H. destruct (begun_run _ _ _ _ _ _ _ _ _ Bg R) as (_ & A & _). unfold outcome, options. rewrite (a_options _ _ _ _ A).
  exists ps. split; [by apply goes_refl|done].
Qed.
(** ** Allocating, encoding and staging a node *)

(** A page just allocated in state [s], which leaves the marks at [fe] and [next]. *)
Record new_page (s : tstate) (ps : list TransactionPage) (id : Z) (p : TransactionPage) (fe next : Z) : Prop := {
  n_ref : ref_Kind (p_ref p) = PageFreeDirectory /\ ref_Length (p_ref p) = o_PageSize o /\ ref_Generation (p_ref p) = o_Generation o /\
          ref_Flags (p_ref p) = 0 /\ ref_Aux (p_ref p) = 0;
  n_ok : ref_ok (p_ref p);
  n_id : 1 < ref_LogicalID (p_ref p) < next /\
         (if id =? 0 then ref_LogicalID (p_ref p) = t_nextID (ts_tx s) /\ next = t_nextID (ts_tx s) + 1
          else ref_LogicalID (p_ref p) = id /\ next = t_nextID (ts_tx s));
  n_place : 2 * o_PageSize o <= ref_Offset (p_ref p) /\ ref_Offset (p_ref p) mod o_PageSize o = 0 /\ ref_Offset (p_ref p) + o_PageSize o <= fe;
  n_marks : t_fileEnd (ts_tx s) <= fe /\ fe mod o_PageSize o = 0 /\ next < 2 ^ 64;
  n_apart : forall r, kept ps r -> ref_Offset r <> ref_Offset (p_ref p);
}.

(** Its slot in the batch is still empty. *)
Definition unstaged (s : tstate) (p : TransactionPage) : Prop :=
  exists w, batchPages (ts_tx s) (ts_committer s) !! p_index p = Some w /\ w_Length w = 0.

Lemma run_facts s ps : run s ps -> begin_ok o pool /\ alloc_inv o pool (ts_tx s) ps /\ exists bi b, staged (ts_tx s) (ts_committer s) ps bi b.
Proof. apply (begun_run _ _ _ _ _ _ _ _ _ Bg). Qed.

Lemma run_end s ps : run s ps -> 0 <= t_fileEnd (ts_tx s) /\ t_fileEnd (ts_tx s) + 2 ^ 32 < 2 ^ 64 /\ t_fileEnd (ts_tx s) mod o_PageSize o = 0.
Proof.
  intros R. destruct (run_facts s ps R) as (B & A & bi & b & S). destruct (staged_length _ _ _ _ _ S). destruct (a_end _ _ _ _ A) as [Ha Hm].
  pose proof (b_end _ _ B) as [Hb _]. pose proof (b_size _ _ B). unfold maxSuperblockFileOffset in *. lia.
Qed.

Lemma alloc_step id s ps : run s ps ->
  outcome (txAllocate PageFreeDirectory (o_PageSize o) id) s ps (fun p s1 ps1 => ps1 = ps ++ [p] /\ unstaged s1 p /\ ts_retired s1 = ts_retired s /\
    new_page s ps id p (t_fileEnd (ts_tx s1)) (t_nextID (ts_tx s1))).
Proof.
  intros R. destruct (run_facts s ps R) as (B & A & bi & b & S). destruct (run_end s ps R) as (E1 & E2 & _). pose proof (b_size _ _ B) as Hsz.
  pose proof (run_marks _ _ _ _ R) as Hn. unfold outcome, txAllocate.
  destruct (Allocate PageFreeDirectory (o_PageSize o) id (ts_tx s) (ts_committer s)) as [r t1] eqn:E.
  destruct (Allocate_marks _ _ _ _ _ _ _ E) as (M1 & M2 & M3); [lia..|]. pose proof (staged_pages _ _ _ _ _ S) as Ep.
  destruct (staged_length _ _ _ _ _ S) as [L1 L2]. destruct r as [p|e|]; [| |done].
  - assert (R1 : run (mkTS t1 (ts_committer s) (ts_cache s) (ts_retired s)) (ps ++ [p])) by (eapply RunAllocate; [exact R| |exact E]; lia).
    exists (ps ++ [p]). split; [split; [done|by exists [p]|done|cbn [ts_tx]; lia]|].
    destruct (Allocate_inv o pool _ _ ps PageFreeDirectory (o_PageSize o) id _ _ B A ltac:(by rewrite Ep) ltac:(lia) ltac:(by intros i; eapply staged_PageBuffer) E)
      as [(F1 & F2 & F3) [A' (G1 & G2 & G3 & G4 & G5 & w & G6 & G7)]]. rewrite (a_options _ _ _ _ A) in G4.
    destruct M3 as (I1 & I2 & I3 & I4 & I5). split; [done|]. split; [|split; [done|]].
    + exists w. unfold batchPages in *. cbn [ts_tx ts_committer]. rewrite F1, G1. split; [done|].
      destruct (s_slots _ _ _ _ _ S (length ps) w) as [|(p' & Hp' & _)]; [by rewrite <- Ep|done|]. by rewrite lookup_ge_None_2 in Hp'.
    + pose proof (a_placed _ _ _ _ A') as F. apply Forall_app in F as [_ F]. apply Forall_cons in F as [(P1 & P2 & P3 & P4 & _) _].
      cbn [pageExtent Offset Length] in *. rewrite G2 in *. destruct (a_end _ _ _ _ A') as [_ Hm].
      assert (Hid : 1 < ref_LogicalID (p_ref p)) by (apply I5; by rewrite G3).
      destruct (run_end _ _ R1) as (_ & E3 & _). cbn [ts_tx] in *. destruct Wo as (_ & _ & Wg & _).
      split; [done| |split; [lia|done]|done|lia|intros r Hr; eapply (kept_fresh _ ps [p]); [exact R1|by constructor|done]].
      unfold ref_ok, word_ok, is_byte. rewrite G2, G3, G4, I1, I2. unfold word_ok in Wg. change (256 ^ Z.of_nat 8) with (2 ^ 64) in *.
      change (256 ^ Z.of_nat 4) with (2 ^ 32). change (256 ^ Z.of_nat 2) with 65536. unfold PageFreeDirectory. lia.
  - split; [|eapply NoPage; [by apply goes_refl|done]]. exists ps. assert (R1 : run (mkTS t1 (ts_committer s) (ts_cache s) (ts_retired s)) ps) by (eapply RunAllocateErr; [exact R| |exact E]; lia).
    split; [done|exists []; by rewrite app_nil_r|done|cbn [ts_tx]; lia].
Qed.
(** The staging buffer of a page: reading it, and reading it after a fill. *)
Lemma page_buffer s ps p : run s ps -> p ∈ ps -> 0 <= ref_Length (p_ref p) ->
  let w := mkWrite 0 (ref_Length (p_ref p)) (p_buffer p) 0 in
  (exists dst, writeData (c_device (ts_committer s)) w = Ok dst /\ Z.of_nat (length dst) = ref_Length (p_ref p)) /\
  forall bytes, Z.of_nat (length bytes) = ref_Length (p_ref p) -> writeData (writeBuffer (p_buffer p) bytes (c_device (ts_committer s))) w = Ok bytes.
Proof.
  intros R Hp Hl w. destruct (run_facts s ps R) as (_ & _ & bi & b & S). destruct (s_inv _ _ _ _ _ S) as [q I].
  pose proof (s_fits _ _ _ _ _ S) as F. rewrite Forall_forall in F. specialize (F p Hp). apply list_elem_of_lookup in Hp as [i Hi].
  destruct (s_pages _ _ _ _ _ S i p Hi) as [_ (w0 & Hw0 & Ew)].
  destruct (owned_buffers q _ bi b w0 I (s_owned _ _ _ _ _ S)) as [B1 B2]; [right; by eapply list_elem_of_lookup_2|]. rewrite Ew in B1, B2.
  destruct (i_device _ _ _ I) as ((D1 & D2 & D3 & D4) & _). unfold bufferCount, bufferSize in *. set (d := c_device (ts_committer s)) in *.
  assert (Hb : p_buffer p * pd_bufferSize d + ref_Length (p_ref p) <= pd_buffers d * pd_bufferSize d) by nia.
  assert (H0 : 0 <= p_buffer p * pd_bufferSize d) by nia. unfold writeData. cbn [w w_Buffer w_Length writeBuffer pd_bufferSize pd_arena]. split.
  - rewrite window_ok by lia. eexists. split; [done|]. rewrite slice_length by lia. lia.
  - intros bytes Hbl. rewrite window_ok by (rewrite ?setBytes_length; lia). f_equal.
    replace (Z.to_nat (p_buffer p * pd_bufferSize d + ref_Length (p_ref p))) with (Z.to_nat (p_buffer p * pd_bufferSize d) + length bytes)%nat by lia.
    apply slice_set_hit. lia.
Qed.

(** The encoder fills the buffer, or the file is full. *)
Definition encodes (enc : list Z -> Z -> Z -> io_res (list Z)) (header : FreeDirectoryHeader) (fe next : Z) : Prop :=
  forall dst, o_PageSize o <= Z.of_nat (length dst) ->
  (maxSuperblockFileOffset < fe /\ exists e, enc dst fe next = Err e) \/
  exists bytes, enc dst fe next = Ok bytes /\ Z.of_nat (length bytes) = o_PageSize o /\
    exists n payload, OpenPage bytes = Ok (freePageHeader header n, payload).

Lemma encode_step p enc header s ps : run s ps -> p ∈ ps -> ref_Length (p_ref p) = o_PageSize o -> unstaged s p ->
  encodes enc header (t_fileEnd (ts_tx s)) (t_nextID (ts_tx s)) ->
  outcome (txEncode p enc) s ps (fun _ s1 ps1 => ps1 = ps /\ ts_tx s1 = ts_tx s /\ ts_retired s1 = ts_retired s /\ unstaged s1 p /\
    exists dst bytes, enc dst (t_fileEnd (ts_tx s)) (t_nextID (ts_tx s)) = Ok bytes /\
      writeData (c_device (ts_committer s1)) (mkWrite 0 (ref_Length (p_ref p)) (p_buffer p) 0) = Ok bytes /\
      exists n payload, OpenPage bytes = Ok (freePageHeader header n, payload)).
Proof.
  intros R Hp Hl U He. destruct (run_facts s ps R) as (B & _ & _). pose proof (b_size _ _ B).
  destruct (page_buffer s ps p R Hp ltac:(lia)) as [(dst & Ed & Ld) Hw]. unfold outcome, txEncode. rewrite Ed, bind_Ok.
  destruct (He dst ltac:(lia)) as [(Hf & e & ->)|(bytes & Eb & Lb & Hop)].
  - split; [exists ps; by apply goes_refl|]. eapply FileFull; [by apply goes_refl|done].
  - rewrite Eb. exists ps. split; [split; [by apply RunFill|exists []; by rewrite app_nil_r|done|cbn [ts_tx]; lia]|].
    cbn [ts_tx ts_retired ts_committer]. split_and!; [done..|]. exists dst, bytes. split_and!; [done| |done]. cbn [setDevice c_device]. apply Hw. lia.
Qed.

Lemma writeData_length d w bytes : writeData d w = Ok bytes -> (length bytes <= Z.to_nat (w_Length w))%nat.
Proof.
  unfold writeData, window. case_match; [|done]. intros [= <-]. unfold slice. rewrite length_take. lia.
Qed.

(** Staging a page whose bytes open under the transaction's identity. *)
Lemma stage_step p header bytes n payload s ps : run s ps -> p ∈ ps -> unstaged s p ->
  writeData (c_device (ts_committer s)) (mkWrite 0 (ref_Length (p_ref p)) (p_buffer p) 0) = Ok bytes ->
  OpenPage bytes = Ok (freePageHeader header n, payload) ->
  fh_StoreID header = o_StoreID o -> fh_Generation header = o_Generation o -> fh_LogicalID header = ref_LogicalID (p_ref p) ->
  fh_PageSize header = ref_Length (p_ref p) -> ref_Kind (p_ref p) = PageFreeDirectory -> ref_Flags (p_ref p) = 0 ->
  1 < ref_LogicalID (p_ref p) -> ref_Length (p_ref p) = o_PageSize o ->
  match txStage p s with
  | (Ok _, s1) => run s1 ps /\ ts_tx s1 = ts_tx s /\ ts_retired s1 = ts_retired s /\ holds (ts_cache s1) (p_ref p) bytes /\
      forall r b, ref_Offset r <> ref_Offset (p_ref p) -> holds (ts_cache s) r b -> holds (ts_cache s1) r b
  | (Err e, s1) => run s1 ps /\ ts_tx s1 = ts_tx s /\ resource_error s ps e /\
      forall r b, ref_Offset r <> ref_Offset (p_ref p) -> holds (ts_cache s) r b -> holds (ts_cache s1) r b
  | (OutOfFuel, _) => False
  end.
Proof.
  intros R Hp (w & Hw & Hz) Ed Eo H1 H2 H3 H4 H5 H6 H7 H8. destruct (run_facts s ps R) as (B & A & bi & b & S). pose proof (b_size _ _ B).
  unfold txStage. destruct (Stage p (ts_tx s) (ts_committer s) (ts_cache s)) as [[e c1] k1] eqn:E.
  assert (R1 : run (mkTS (ts_tx s) c1 k1 (ts_retired s)) ps) by (by eapply RunStage).
  destruct (s_batch _ _ _ _ _ S) as [Eb Ea]. pose proof (staged_pages _ _ _ _ _ S) as Ep. unfold Stage in E. rewrite Ea, Ed, Eo, Eb in E.
  pose proof Hp as Hp'. apply list_elem_of_lookup in Hp' as [i Hi]. destruct (s_pages _ _ _ _ _ S i p Hi) as [Ei _].
  assert (Hidx : (p_index p < t_allocated (ts_tx s))%nat) by (rewrite (a_count _ _ _ _ A), Ei; by eapply lookup_lt_Some).
  rewrite (proj2 (Nat.leb_gt _ _) Hidx), (a_options _ _ _ _ A), Hw, Hz in E. cbn [negb orb default from_option id freePageHeader ph_StoreID ph_Generation
    ph_LogicalID ph_PageSize ph_Kind ph_Flags] in E. rewrite H1, H2, H3, H4, H5, H6, bool_decide_true, !Z.eqb_refl in E by done. cbn [negb orb Z.eqb] in E.
  unfold StateRootLogicalID in E. rewrite (proj2 (Z.eqb_neq (ref_LogicalID (p_ref p)) 1)) in E by lia. cbn [negb] in E.
  destruct (AdmitDirty (p_ref p) bytes (o_Generation o) (ts_cache s)) as [adm k2] eqn:Ek.
  assert (Hset : exists c2, setPage bi (Z.of_nat (p_index p)) (toInt64 (ref_Offset (p_ref p))) (ref_Length (p_ref p)) PageFreeDirectory (ts_committer s) = Ok c2).
  { unfold setPage. rewrite (s_owned _ _ _ _ _ S), (proj2 (Z.ltb_ge _ _)), Nat2Z.id by lia. rewrite <- Ep, Hw, (proj2 (Z.ltb_ge _ 0)), (proj2 (Z.ltb_ge _ _)) by lia.
    by eexists. }
  destruct Hset as [c2 Es]. rewrite Es in E. destruct adm as [e'|]; injection E as <- <- <-; cbn [ts_cache ts_tx ts_retired].
  - split_and!; [done|done|eapply Refused; [by apply goes_refl|done]|]. intros r x Hr Hx. by eapply AdmitDirty_frame.
  - split_and!; [done..| |intros r x Hr Hx; by eapply AdmitDirty_frame]. pose proof (AdmitDirty_holds _ _ _ _ _ Ek) as Hh. rewrite take_ge in Hh; [done|].
    pose proof (writeData_length _ _ _ Ed). done.
Qed.
Definition nodeHeader (level : Z) (p : TransactionPage) : FreeDirectoryHeader :=
  mkFreeHeader (o_StoreID o) (o_Generation o) (ref_LogicalID (p_ref p)) (ref_Length (p_ref p)) level 0.

(** The common shape of [encodeFreeTreeLeaf] and [encodeFreeTreeBranch]. *)
Definition encodeNode (id : Z) (level : Z) (encode : FreeDirectoryHeader -> list Z -> Z -> Z -> io_res (list Z)) : treeM TransactionPage :=
  treeM_bind _ _ (fun o => treeM_bind _ _ (fun page =>
    treeM_bind _ _ (fun _ => treeM_bind _ _ (fun _ => treeM_ret _ page) (txStage page))
      (txEncode page (encode (mkFreeHeader (o_StoreID o) (o_Generation o) (ref_LogicalID (p_ref page)) (ref_Length (p_ref page)) level 0))))
    (txAllocate PageFreeDirectory (o_PageSize o) id)) options.

(** A node is written: a fresh page that holds the encoded bytes, with every
    page kept so far still holding its own. *)
Lemma encodeNode_outcome id level encode s ps : run s ps ->
  (forall p fe next, new_page s ps id p fe next -> encodes (encode (nodeHeader level p)) (nodeHeader level p) fe next) ->
  outcome (encodeNode id level encode) s ps (fun p s' ps' => ps' = ps ++ [p] /\ ts_retired s' = ts_retired s /\
    new_page s ps id p (t_fileEnd (ts_tx s')) (t_nextID (ts_tx s')) /\
    exists dst bytes, encode (nodeHeader level p) dst (t_fileEnd (ts_tx s')) (t_nextID (ts_tx s')) = Ok bytes /\ holds (ts_cache s') (p_ref p) bytes).
Proof.
  intros R He. unfold encodeNode. eapply outcome_bind; [apply (outcome_options s ps (fun o' s' ps' => o' = o /\ s' = s /\ ps' = ps)); done|].
  intros o' s' ps' _ (-> & -> & ->). pose proof (alloc_step id s ps R) as Ha. unfold outcome, treeM_bind in Ha |- *.
  destruct (txAllocate _ _ _ s) as [[p|e|] s1]; [|done..]. destruct Ha as (ps1 & G1 & -> & U1 & T1 & N). pose proof (g_run _ _ _ _ G1) as R1.
  assert (Hp : p ∈ ps ++ [p]) by (apply elem_of_app; right; by constructor). destruct (n_ref _ _ _ _ _ _ N) as (N1 & N2 & N3 & N4 & N5).
  pose proof (encode_step p _ _ s1 (ps ++ [p]) R1 Hp N2 U1 (He _ _ _ N)) as Hc. unfold outcome in Hc. fold (nodeHeader level p).
  destruct (txEncode p (encode (nodeHeader level p)) s1) as [[[]|e|] s2]; [| |done].
  2: { destruct Hc as [[ps2 G2] ?]. split; [exists ps2; by eapply goes_trans|by eapply error_from]. }
  destruct Hc as (ps2 & G2 & -> & Et & Er & U2 & dst & bytes & Eb & Ed & n & payload & Eo). pose proof (g_run _ _ _ _ G2) as R2.
  pose proof (stage_step p (nodeHeader level p) bytes n payload s2 (ps ++ [p]) R2 Hp U2 Ed Eo eq_refl eq_refl eq_refl eq_refl N1 N4
    (proj1 (proj1 (n_id _ _ _ _ _ _ N))) N2) as Hs.
  assert (Go : forall s3, run s3 (ps ++ [p]) -> ts_tx s3 = ts_tx s2 ->
    (forall r b, ref_Offset r <> ref_Offset (p_ref p) -> holds (ts_cache s2) r b -> holds (ts_cache s3) r b) -> goes s ps s3 (ps ++ [p])).
  { intros s3 R3 E3 H3. destruct (goes_trans _ _ _ _ _ _ G1 G2) as [_ _ Gh Gm]. split; [done|by exists [p]| |by rewrite E3].
    intros r b Hk Hh. apply H3; [by apply (n_apart _ _ _ _ _ _ N)|by apply Gh]. }
  destruct (txStage p s2) as [[[]|e|] s3]; [| |done].
  - destruct Hs as (R3 & E3 & F3 & H3 & K3). exists (ps ++ [p]). split; [by apply Go|]. rewrite E3, Et.
    split_and!; [done|congruence|done|]. by exists dst, bytes.
  - destruct Hs as (R3 & E3 & He3 & K3). split; [exists (ps ++ [p]); by apply Go|]. eapply error_from; [by eapply goes_trans|done].
Qed.

Lemma nodeHeader_ok s ps id p level fe next : is_byte level -> new_page s ps id p fe next -> free_header_ok (nodeHeader level p).
Proof.
  intros Hl N. destruct (n_ref _ _ _ _ _ _ N) as (_ & N2 & _). destruct (n_ok _ _ _ _ _ _ N) as (_ & N3 & _ & N4 & _). destruct Wo as (W1 & W2 & W3 & _).
  unfold free_header_ok. cbn [nodeHeader fh_StoreID fh_Generation fh_LogicalID fh_PageSize fh_Level fh_Flags]. split_and!; try done; unfold is_byte; lia.
Qed.

Lemma nodeHeader_valid s ps id p level fe next count size : new_page s ps id p fe next -> (0 < count)%nat -> Z.of_nat count <= 65535 ->
  (size = FreeDirectoryBranchRecordSize -> Z.of_nat count <= 64) -> 72 + (32 + Z.of_nat count * Z.of_nat size) <= o_PageSize o ->
  validateFreeDirectoryHeader (nodeHeader level p) count size next = None.
Proof.
  intros N H1 H2 H3 H4. destruct begun_options as (_ & V1 & V2 & V3 & _). destruct (n_ref _ _ _ _ _ _ N) as (_ & N2 & _). destruct (n_id _ _ _ _ _ _ N) as [N3 _].
  apply header_valid; cbn [nodeHeader fh_StoreID fh_Generation fh_LogicalID fh_PageSize fh_Level fh_Flags]; rewrite ?N2; done || lia.
Qed.

(** ** Reading through a lease *)

Lemma outcome_lease {A} (body : list Z -> treeM A) ref bytes s ps Q : run s ps -> holds (ts_cache s) ref bytes ->
  (forall k, (forall r b, holds (ts_cache s) r b -> holds k r b) -> outcome (body bytes) (setCache k s) ps Q) ->
  (forall a s' ps' k, Q a s' ps' -> (forall r b, holds (ts_cache s') r b -> holds k r b) -> Q a (setCache k s') ps') ->
  outcome (withLease ref body) s ps Q.
Proof.
  intros R Hh Hb Hq. unfold outcome, withLease. destruct (Acquire ref (ts_cache s)) as [[page|e|] k] eqn:E.
  - pose proof (Acquire_content _ _ _ _ _ Hh E) as ->.
    assert (Hk : forall r b, holds (ts_cache s) r b -> holds k r b) by (intros r b; by eapply Acquire_frame).
    specialize (Hb k Hk). unfold outcome in Hb.
    assert (Go : forall s' ps', goes (setCache k s) ps s' ps' -> goes s ps (setCache (Release ref (ts_cache s')) s') ps').
    { intros s' ps' [R' Pg H' M']. split; [by eapply RunCache|done| |done]. intros r b Hkr Hr. cbn [setCache ts_cache]. apply Release_frame, H'; [done|by apply Hk]. }
    destruct (body bytes (setCache k s)) as [[a|e|] s']; [| |done].
    + destruct Hb as (ps' & G & HQ). exists ps'. split; [by apply Go|]. apply Hq; [done|]. intros r b. apply Release_frame.
    + destruct Hb as [[ps' G] He]. split; [exists ps'; by apply Go|]. eapply error_from; [|exact He]. split; [by eapply RunCache|exists []; by rewrite app_nil_r| |cbn [setCache ts_tx]; lia].
      intros r b _. apply Hk.
  - split; [|eapply Unreadable; [by apply goes_refl|done]]. exists ps. split; [by eapply RunCache|exists []; by rewrite app_nil_r| |cbn [setCache ts_tx]; lia].
    intros r b _ Hr. by eapply Acquire_frame.
  - pose proof (Acquire_answers ref (ts_cache s)) as N. by rewrite E in N.
Qed.

Lemma outcome_retire ref s ps Q : run s ps -> (length (ts_retired s) < 16)%nat -> Q tt (mkTS (ts_tx s) (ts_committer s) (ts_cache s) (ts_retired s ++ [ref])) ps ->
  outcome (retire ref) s ps Q.
Proof.
  intros R Hl HQ. unfold outcome, retire. rewrite (proj2 (Nat.eqb_neq _ _)) by lia. exists ps. split; [|done].
  split; [done|exists []; by rewrite app_nil_r|done|cbn [ts_tx]; lia].
Qed.
End Steps.
