(* ===== verification/FreeTreeSpec.v ===== *)
(** * FreeTreeSpec: the free tree against the list of its extents

    A tree of pages represents the list of extents its leaves hold, in order.
    [tree] says so by levels; [edited] is what a mutation does to the list.  The
    theorems show that inserting and deleting through the pages is that edit,
    copy on write, and that the traversal returns the list. *)
From Stdlib Require Import ZArith Lia List Bool Sorted.
From stdpp Require Import base numbers list strings sets sorting.
From S2P Require Import Prelude Leases Bytes Page StateRoot FreeDirectory Superblock Device Committer GroupCommit WriteTx FreeNode FreeTree FreeTreeSteps.

Open Scope Z_scope.

(** ** The list *)

Definition by_offset (es : list FreeExtent) : Prop := StronglySorted (fun a b => Offset a < Offset b) es.
Definition member (off : Z) (es : list FreeExtent) : bool := existsb (fun e => Offset e =? off) es.

(** Inserting or replacing [x], or deleting, at an offset. *)
Definition edited (deleting : bool) (off : Z) (x : FreeExtent) (es : list FreeExtent) : list FreeExtent :=
  filter (fun e => Offset e < off) es ++ (if deleting then [] else [x]) ++ filter (fun e => off < Offset e) es.

(** An extent an encoder accepts, in a file of this size. *)
Definition extent_ok (ps fe : Z) (e : FreeExtent) : Prop := extent_words e /\ extent_in_file ps fe e.

Lemma filter_all {A} (Q : A -> Prop) `{!forall x, Decision (Q x)} l : Forall Q l -> filter Q l = l.
Proof. induction 1; [done|]. rewrite filter_cons_True by done. by f_equal. Qed.

Lemma filter_none {A} (Q : A -> Prop) `{!forall x, Decision (Q x)} l : Forall (fun x => ~ Q x) l -> filter Q l = [].
Proof. induction 1; [done|]. by rewrite filter_cons_False. Qed.

Lemma edited_around d off x l m r : Forall (fun e => Offset e < off) l -> Forall (fun e => off < Offset e) r ->
  edited d off x (l ++ m ++ r) = l ++ edited d off x m ++ r.
Proof.
  intros Hl Hr. unfold edited. rewrite !filter_app.
  rewrite (filter_all (fun e => Offset e < off) l), (filter_none (fun e => off < Offset e) l) by first [done | eapply Forall_impl; [eassumption|simpl; lia]].
  rewrite (filter_all (fun e => off < Offset e) r), (filter_none (fun e => Offset e < off) r) by first [done | eapply Forall_impl; [eassumption|simpl; lia]].
  rewrite app_nil_r. cbn [app]. by rewrite <- !app_assoc.
Qed.

Lemma member_around off l m r : Forall (fun e => Offset e < off) l -> Forall (fun e => off < Offset e) r -> member off (l ++ m ++ r) = member off m.
Proof.
  intros Hl Hr. unfold member. rewrite !existsb_app.
  assert (H : forall es, Forall (fun e => Offset e <> off) es -> existsb (fun e => Offset e =? off) es = false).
  { induction 1 as [|e es He _ IH]; [done|]. cbn [existsb]. by rewrite (proj2 (Z.eqb_neq _ _) He). }
  rewrite (H l), (H r); [by rewrite orb_false_r|eapply Forall_impl; [exact Hr|simpl; lia]|eapply Forall_impl; [exact Hl|simpl; lia]].
Qed.

Lemma edited_absent off x es : by_offset es -> member off es = false -> edited true off x es = es.
Proof.
  unfold edited, member. intros S. induction S as [|e es S IH F]; [done|]. cbn [existsb]. intros [He%Z.eqb_neq Hm]%orb_false_iff. specialize (IH Hm).
  cbn [app] in *. destruct (decide (Offset e < off)).
  - rewrite filter_cons_True, (filter_cons_False (fun e => off < Offset e)) by lia. cbn [app]. by rewrite IH.
  - rewrite (filter_none (fun e => Offset e < off)), filter_cons_True, filter_all; [done|..].
    + eapply Forall_impl; [exact F|]. simpl. lia.
    + lia.
    + constructor; [done|]. eapply Forall_impl; [exact F|]. simpl. lia.
Qed.

(** The scan of a leaf is the edit. *)
Lemma leafEntries_edited es off x d : by_offset es -> leafEntries es off x d = (edited d off x es, member off es).
Proof.
  intros S. unfold leafEntries.
  assert (Scan : leafScan es off x d = (if bool_decide (Forall (fun e => Offset e < off) es) then es else edited d off x es, member off es)).
  { induction S as [|e es S IH F]; [done|]. cbn [leafScan member existsb]. destruct (Z.ltb_spec (Offset e) off) as [Lt|Ge].
    - rewrite IH, (proj2 (Z.eqb_neq _ _)) by lia. cbn [orb]. f_equal.
      assert (Iff : Forall (fun e => Offset e < off) (e :: es) <-> Forall (fun e => Offset e < off) es) by (rewrite Forall_cons; tauto).
      rewrite (bool_decide_ext _ _ Iff). case_bool_decide; [done|].
      pose proof (edited_around d off x [e] es [] ltac:(by repeat constructor) ltac:(constructor)) as Ea. rewrite !app_nil_r in Ea. cbn [app] in Ea. by rewrite Ea.
    - rewrite (bool_decide_false (Forall _ (e :: es))) by (rewrite Forall_cons; lia).
      assert (Hn : filter (fun e => Offset e < off) (e :: es) = []).
      { apply filter_none. constructor; [lia|]. eapply Forall_impl; [exact F|]. simpl. lia. }
      assert (Ha : off <> Offset e -> filter (fun e => off < Offset e) (e :: es) = e :: es).
      { intros. apply filter_all. constructor; [lia|]. eapply Forall_impl; [exact F|]. simpl. lia. }
      unfold edited. rewrite Hn. cbn [app]. destruct (Z.eqb_spec (Offset e) off) as [<-|N].
      + rewrite filter_cons_False, filter_all by (done || lia). by destruct d.
      + rewrite Ha by done. cbn [orb]. f_equal; [by destruct d|]. symmetry. pose proof (member_around off [] [] es) as M. cbn [app] in M. apply M; [done|].
        eapply Forall_impl; [exact F|]. simpl. lia. }
  rewrite Scan. cbn zeta. f_equal. case_bool_decide as Ha.
  - rewrite Nat.eqb_refl. assert (Em : member off es = false) by (pose proof (member_around off es [] []) as M; rewrite app_nil_r in M; by apply M).
    rewrite Em. pose proof (edited_around d off x es [] [] Ha ltac:(constructor)) as E. rewrite !app_nil_r in E. rewrite E. unfold edited.
    destruct d; cbn; [by rewrite app_nil_r|done].
  - destruct (_ && _) eqn:G; [|done]. exfalso. apply andb_true_iff in G as [[G1%Nat.eqb_eq G2%negb_true_iff]%andb_true_iff G3%negb_true_iff]. subst d.
    pose proof (edited_absent off x es S G2) as Ed. unfold edited in *. apply (f_equal length) in Ed. rewrite !length_app in Ed, G1. cbn [length] in *. lia.
Qed.

(** ** The tree *)

Record sub := mkSub { sub_ref : PageRef; sub_es : list FreeExtent; sub_rs : list PageRef }.

Definition childOf (s : sub) : FreeDirectoryChild := mkChild (firstOffset (sub_es s)) (sub_ref s).
Definition all_es (l : list sub) : list FreeExtent := mjoin (sub_es <$> l).
Definition all_rs (l : list sub) : list PageRef := mjoin (sub_rs <$> l).

Lemma all_es_app a b : all_es (a ++ b) = all_es a ++ all_es b.
Proof. unfold all_es. by rewrite fmap_app, join_app. Qed.
Lemma all_rs_app a b : all_rs (a ++ b) = all_rs a ++ all_rs b.
Proof. unfold all_rs. by rewrite fmap_app, join_app. Qed.
Lemma all_es_cons a b : all_es (a :: b) = sub_es a ++ all_es b.
Proof. done. Qed.
Lemma all_rs_cons a b : all_rs (a :: b) = sub_rs a ++ all_rs b.
Proof. done. Qed.

Section Tree.
  Context {K : DirtyCache} {P : PageStore K}.
  Variables (o : WriteTransactionOptions).
Let ps := o_PageSize o.

(** A reference to a node of the tree, for a file of this size. *)
Definition node_ref (fe next : Z) (r : PageRef) : Prop :=
  ref_ok r /\ ref_Kind r = PageFreeDirectory /\ ref_Flags r = 0 /\ ref_Aux r = 0 /\ ref_Length r = ps /\
  0 < ref_Generation r <= o_Generation o /\ 1 < ref_LogicalID r < next /\
  2 * ps <= ref_Offset r /\ ref_Offset r mod ps = 0 /\ ref_Offset r + ps <= fe.

(** The page of [s] and those below it, [level] levels above the leaves: a
    branch lists its children with the first offset each holds. *)
Fixpoint tree (k : cache) (fe next : Z) (level : nat) (s : sub) : Prop :=
  node_ref fe next (sub_ref s) /\ sub_es s <> [] /\ exists bytes, holds k (sub_ref s) bytes /\
  match level with
  | O => sub_rs s = [sub_ref s] /\ freeTreeLeafFits ps (length (sub_es s)) = true /\ reads_leaf ps fe next bytes (sub_es s)
  | S l => exists cs, (0 < length cs <= 64)%nat /\ Forall (tree k fe next l) cs /\
      reads_branch ps fe next bytes (Z.of_nat (S l)) (childOf <$> cs) /\ sub_es s = all_es cs /\ sub_rs s = sub_ref s :: all_rs cs
  end.

Lemma tree_parts k fe next l s : tree k fe next l s -> node_ref fe next (sub_ref s) /\ sub_es s <> [] /\ sub_ref s ∈ sub_rs s.
Proof.
  destruct l; cbn [tree]; intros (H1 & H2 & b & _ & H3); split_and!; try done.
  - destruct H3 as (-> & _). by constructor.
  - destruct H3 as (cs & _ & _ & _ & _ & ->). by constructor.
Qed.

Lemma node_ref_later fe next fe' next' r : fe <= fe' -> next <= next' -> node_ref fe next r -> node_ref fe' next' r.
Proof. intros H1 H2 (? & ? & ? & ? & ? & ? & ? & ? & ? & ?). unfold node_ref. split_and!; try done; lia. Qed.

(** Growing the file and changing other pages keeps a tree. *)
Lemma tree_later k fe next k' fe' next' l s : fe <= fe' -> next <= next' -> (forall r b, r ∈ sub_rs s -> holds k r b -> holds k' r b) ->
  tree k fe next l s -> tree k' fe' next' l s.
Proof.
  intros Hf Hn. revert s. induction l as [|l IH]; intros s Hh T; pose proof (tree_parts _ _ _ _ _ T) as (_ & _ & Hin); cbn [tree] in *;
    destruct T as (N & Ne & b & Hb & T); (split; [by eapply node_ref_later|]); (split; [done|]); exists b; (split; [by apply Hh|]).
  - destruct T as (E & F & R). split_and!; [done..|]. by eapply reads_leaf_later.
  - destruct T as (cs & Hc & F & R & Ee & Er). exists cs. split; [done|]. split; [|split; [by eapply reads_branch_later|done]]. rewrite Forall_forall in F |- *.
    intros c Hin'. apply IH; [|by apply F]. intros r x Hr. apply Hh. rewrite Er. constructor. unfold all_rs. apply list_elem_of_join. exists (sub_rs c).
    split; [done|]. by apply list_elem_of_fmap_2.
Qed.

(** The page is a leaf, or a branch over at least two children. *)
Definition wide (k : cache) (fe next : Z) (level : nat) (r : PageRef) : Prop :=
  level = 0%nat \/ exists bytes cs, holds k r bytes /\ (2 <= length cs)%nat /\ reads_branch ps fe next bytes (Z.of_nat level) cs.

Lemma wide_later k fe next k' fe' next' l r : fe <= fe' -> next <= next' -> (forall b, holds k r b -> holds k' r b) -> wide k fe next l r -> wide k' fe' next' l r.
Proof. intros Hf Hn Hh [->|(bytes & cs & H1 & H2 & H3)]; [by left|right]. exists bytes, cs. split_and!; [by apply Hh|done|by eapply reads_branch_later]. Qed.
End Tree.

(** ** Writing nodes *)

Lemma sorted_offsets ps fe es : Forall (extent_ok ps fe) es -> StronglySorted (fun a b => extent_end a <= Offset b) es -> by_offset es.
Proof.
  intros F S. unfold by_offset. induction S as [|e es S IH Fe]; [constructor|]. apply Forall_cons in F as [[_ He] F]. constructor; [by apply IH|].
  eapply Forall_impl; [exact Fe|]. unfold extent_in_file, extent_end in *. simpl. lia.
Qed.

Lemma firstOffset_cons e es : firstOffset (e :: es) = Offset e.
Proof. done. Qed.

Lemma by_offset_app a b : by_offset (a ++ b) -> by_offset a /\ by_offset b /\ forall x y, x ∈ a -> y ∈ b -> Offset x < Offset y.
Proof.
  unfold by_offset. induction a as [|e a IH]; cbn [app]; intros S; [split_and!; [constructor|done|intros x y H; by apply not_elem_of_nil in H]|].
  apply StronglySorted_inv in S as [S F]. destruct (IH S) as (H1 & H2 & H3). apply Forall_app in F as [F1 F2]. split_and!; [by constructor|done|].
  intros x y Hx Hy. apply elem_of_cons in Hx as [->|Hx]; [|by apply H3]. rewrite Forall_forall in F2. by apply F2.
Qed.

(** The first offsets of nodes with ordered extents increase. *)
Lemma childOf_increasing cs prev : Forall (fun s => sub_es s <> []) cs -> by_offset (all_es cs) ->
  (forall p, prev = Some p -> forall e, e ∈ all_es cs -> p < Offset e) -> lowers_increasing prev (childOf <$> cs).
Proof.
  intros N. revert prev. induction N as [|c cs Nc N IH]; intros prev S Hp; [done|]. rewrite all_es_cons in S, Hp. destruct (by_offset_app _ _ S) as (S1 & S2 & S3).
  destruct (sub_es c) as [|e es] eqn:Ec; [done|]. assert (El : Lower (childOf c) = Offset e) by (unfold childOf; by rewrite Ec).
  change (childOf <$> c :: cs) with (childOf c :: (childOf <$> cs)). cbn [lowers_increasing]. rewrite El. split.
  - destruct prev as [p|]; [|done]. apply (Hp p eq_refl). by left.
  - apply IH; [done|]. intros p [= <-] x Hx. apply S3; [by left|done].
Qed.

(** ** Choosing the child *)

Lemma first_le es e : by_offset es -> e ∈ es -> firstOffset es <= Offset e.
Proof.
  intros S He. destruct es as [|x es]; [by apply not_elem_of_nil in He|]. rewrite firstOffset_cons. apply elem_of_cons in He as [->|He]; [done|].
  apply StronglySorted_inv in S as [_ F]. rewrite Forall_forall in F. specialize (F e He). lia.
Qed.

Lemma first_in es : es <> [] -> exists e, e ∈ es /\ firstOffset es = Offset e.
Proof. destruct es as [|e es]; [done|]. exists e. split; [by left|done]. Qed.

Lemma all_es_elem cs e : e ∈ all_es cs <-> exists i c, cs !! i = Some c /\ e ∈ sub_es c.
Proof.
  unfold all_es. rewrite list_elem_of_join. split.
  - intros (es & He & Hes). apply list_elem_of_fmap in Hes as (c & -> & Hc). apply list_elem_of_lookup in Hc as [i Hi]. by exists i, c.
  - intros (i & c & Hi & He). exists (sub_es c). split; [done|]. by eapply list_elem_of_fmap_2, list_elem_of_lookup_2.
Qed.

Lemma all_es_lookup cs i c : cs !! i = Some c -> all_es cs = all_es (take i cs) ++ sub_es c ++ all_es (drop (S i) cs).
Proof. intros H. rewrite <- (take_drop_middle cs i c H) at 1. by rewrite all_es_app, all_es_cons. Qed.

(** The binary search over first offsets picks the child whose extents surround the offset. *)
Lemma childRank_spec cs off : Forall (fun c => sub_es c <> []) cs -> by_offset (all_es cs) -> cs <> [] ->
  exists rank, freeTreeChildRank (childOf <$> cs) off = Ok rank /\ (rank < 0 -> Forall (fun e => off < Offset e) (all_es cs)) /\
  exists l c r, cs = l ++ c :: r /\ Z.to_nat rank = length l /\ Forall (fun e => Offset e < off) (all_es l) /\ Forall (fun e => off < Offset e) (all_es r).
Proof.
  intros Ne So Nc. rewrite Forall_lookup in Ne.
  assert (Sorted : forall i c, cs !! i = Some c -> by_offset (sub_es c) /\ (forall e, e ∈ all_es (take i cs) -> Offset e < firstOffset (sub_es c))).
  { intros i c Hi. rewrite (all_es_lookup cs i c Hi) in So. destruct (by_offset_app _ _ So) as (_ & S2 & S3). destruct (by_offset_app _ _ S2) as (S4 & _).
    split; [done|]. intros e He. destruct (first_in (sub_es c) (Ne i c Hi)) as (x & Hx & ->). apply S3; [done|]. apply elem_of_app. by left. }
  set (p := fun i => Lower (default zeroChild ((childOf <$> cs) !! i)) <=? off).
  assert (Ep : forall i c, cs !! i = Some c -> p i = (firstOffset (sub_es c) <=? off)) by (intros i c Hi; unfold p; rewrite list_lookup_fmap, Hi; done).
  destruct (bsearch_spec (length (childOf <$> cs)) p 0 (length (childOf <$> cs))) as (k & E & Hk & H1 & H2); [lia|lia| |].
  { rewrite length_fmap. intros i j Hij Hj Pj. destruct (lookup_lt_is_Some_2 cs j Hj) as [b Hb]. destruct (lookup_lt_is_Some_2 cs i ltac:(lia)) as [a Ha].
    rewrite (Ep i a Ha). rewrite (Ep j b Hb) in Pj. apply Z.leb_le in Pj. apply Z.leb_le. destruct (decide (i = j)) as [->|Nij]; [congruence|].
    destruct (first_in (sub_es a) (Ne i a Ha)) as (x & Hx & ->). destruct (Sorted j b Hb) as [_ Lt]. specialize (Lt x).
    assert (Hin : x ∈ all_es (take j cs)) by (apply all_es_elem; exists i, a; split; [rewrite lookup_take, decide_True by lia; done|done]). specialize (Lt Hin). lia. }
  rewrite length_fmap in Hk, H2. exists (Z.of_nat k - 1). unfold freeTreeChildRank. fold p. rewrite E. split; [done|].
  assert (Above : forall j, (k <= j)%nat -> forall e, e ∈ all_es (drop j cs) -> off < Offset e).
  { intros j Hj e He. apply all_es_elem in He as (i & c & Hi & He). rewrite lookup_drop in Hi. pose proof (lookup_lt_Some _ _ _ Hi) as Hlt.
    specialize (H2 (j + i)%nat ltac:(lia)). rewrite (Ep _ c Hi) in H2. apply Z.leb_gt in H2. destruct (Sorted _ c Hi) as [Sc _].
    pose proof (first_le _ e Sc He). lia. }
  split; [intros Hr; apply Forall_forall; intros e He; apply (Above 0%nat); [lia|by rewrite drop_0]|].
  assert (Hlt : (pred k < length cs)%nat) by (destruct cs; [done|simpl in *; lia]). destruct (lookup_lt_is_Some_2 cs (pred k) Hlt) as [c Hc].
  exists (take (pred k) cs), c, (drop (S (pred k)) cs). split_and!.
  - by rewrite take_drop_middle.
  - rewrite length_take. lia.
  - apply Forall_forall. intros e He. destruct (Sorted _ c Hc) as [_ Lt]. specialize (Lt e He). destruct k as [|m]; [by rewrite take_0 in He; apply not_elem_of_nil in He|].
    cbn [pred] in *. specialize (H1 m ltac:(lia)). rewrite (Ep m c Hc) in H1. apply Z.leb_le in H1. lia.
  - apply Forall_forall. intros e. apply Above. lia.
Qed.

Section Writes.
  Context {K : DirtyCache} {P : PageStore K}.
  Variables (o : WriteTransactionOptions) (pool : list FreeExtent) (t0 : WriteTransaction) (c0 : Committer) (k0 : cache).
  Hypothesis Bg : begun o pool t0 c0.
  Hypothesis Wo : tx_words o.
  Hypothesis Hps : o_PageSize o <= 2 ^ 20.
  Local Notation run := (run t0 c0 k0).
  Local Notation goes := (goes o pool t0 c0 k0).
  Local Notation outcome := (outcome o pool t0 c0 k0).
  Local Notation kept := (kept o pool).
  Local Notation endOf s := (t_fileEnd (ts_tx s)).
  Local Notation nextOf s := (t_nextID (ts_tx s)).

(** The identity a new page got, and those left. *)
Definition took_id (s s' : tstate) (id : Z) (p : TransactionPage) : Prop :=
  if id =? 0 then ref_LogicalID (p_ref p) = nextOf s /\ nextOf s' = nextOf s + 1 else ref_LogicalID (p_ref p) = id /\ nextOf s' = nextOf s.

Lemma new_node s ps id p fe next : new_page o pool s ps id p fe next -> node_ref o fe next (p_ref p).
Proof.
  intros [N1 N2 N3 N4 N5 N6]. destruct N1 as (A1 & A2 & A3 & A4 & A5). unfold node_ref. rewrite A2, A3.
  destruct (begun_options o pool t0 c0 Bg) as (_ & _ & _ & Hg & _). destruct Wo as (_ & _ & Wg & _). unfold word_ok in Wg. split_and!; done || lia.
Qed.

Lemma write_leaf id es fe0 s ps : run s ps -> es <> [] -> freeTreeLeafFits (o_PageSize o) (length es) = true ->
  Forall (extent_ok (o_PageSize o) fe0) es -> StronglySorted (fun a b => extent_end a <= Offset b) es -> fe0 <= endOf s -> fe0 <= maxSuperblockFileOffset ->
  outcome (encodeFreeTreeLeaf id es) s ps (fun p s' ps' => ps' = ps ++ [p] /\ ts_retired s' = ts_retired s /\ took_id s s' id p /\
    tree o (ts_cache s') (endOf s') (nextOf s') 0 (mkSub (p_ref p) es [p_ref p])).
Proof.
  intros R Ne Hfit F S He Hm. change (encodeFreeTreeLeaf id es) with (encodeNode id 0 (fun h dst => EncodeFreeDirectoryLeaf dst h es)).
  assert (We : Forall extent_words es) by (eapply Forall_impl; [exact F|]; by intros e [? _]).
  assert (Hlen : (0 < length es)%nat) by (destruct es; [done|simpl; lia]). unfold freeTreeLeafFits in Hfit. apply Z.leb_le in Hfit.
  assert (V : forall p fe next, new_page o pool s ps id p fe next ->
    validateFreeDirectoryHeader (nodeHeader o 0 p) (length es) FreeDirectoryLeafRecordSize next = None /\ free_header_ok (nodeHeader o 0 p) /\
    fh_PageSize (nodeHeader o 0 p) = o_PageSize o /\ checkLeaf es (o_PageSize o) fe true 0 = None).
  { intros p fe next N. split; [|split; [|split]].
    - eapply (nodeHeader_valid o pool t0 c0 Bg); [exact N|done|lia|done|unfold FreeDirectoryLeafRecordSize; lia].
    - eapply (nodeHeader_ok o pool Wo); [unfold is_byte; lia|exact N].
    - apply (n_ref _ _ _ _ _ _ _ _ N).
    - destruct (n_marks _ _ _ _ _ _ _ _ N) as [M _]. eapply (checkLeaf_later _ _ fe0); [lia|]. apply checkLeaf_complete; try done.
      eapply Forall_impl; [exact F|]. by intros e [_ ?]. }
  eapply outcome_mono; [apply (encodeNode_outcome o pool t0 c0 k0 Bg Wo id 0); [done|]|].
  - intros p fe next N dst Hd. destruct (V p fe next N) as (V1 & V2 & V3 & V4). right. rewrite <- V3 in Hd, V4.
    destruct (EncodeLeaf_succeeds dst (nodeHeader o 0 p) es fe next V2 We eq_refl V1 V4 Hd) as [page Ep]. exists page. split; [done|].
    destruct (EncodeLeaf_sealed _ _ _ _ _ _ V2 We Ep) as (_ & _ & _ & _ & w & -> & Nw & _). destruct (node_opens _ _ _ _ _ V2 V1 Nw) as [L [pl O]].
    rewrite <- V3. split; [done|]. by exists (32 + length es * FreeDirectoryLeafRecordSize)%nat, pl.
  - intros p s' ps' _ (-> & T & N & dst & bytes & Eb & Hh). split_and!; [done|done|apply (n_id _ _ _ _ _ _ _ _ N)|]. destruct (V p _ _ N) as (V1 & V2 & V3 & V4).
    cbn [tree sub_ref sub_es sub_rs]. split; [by eapply new_node|]. split; [done|]. exists bytes. split; [done|]. split; [done|]. split; [unfold freeTreeLeafFits; by apply Z.leb_le|].
    rewrite <- V3. by eapply EncodeLeaf_reads.
Qed.
Lemma write_branch id l cs fe0 s ps : run s ps -> (0 < length cs <= 64)%nat -> (l < 10)%nat ->
  Forall (tree o (ts_cache s) (endOf s) (nextOf s) l) cs -> Forall (extent_ok (o_PageSize o) fe0) (all_es cs) -> by_offset (all_es cs) ->
  NoDup (ref_LogicalID <$> (sub_ref <$> cs)) -> NoDup (ref_Offset <$> (sub_ref <$> cs)) -> id ∉ ref_LogicalID <$> (sub_ref <$> cs) -> Forall (kept ps) (all_rs cs) ->
  outcome (encodeFreeTreeBranch id (Z.of_nat (S l)) (childOf <$> cs)) s ps (fun p s' ps' => ps' = ps ++ [p] /\ ts_retired s' = ts_retired s /\ took_id s s' id p /\
    tree o (ts_cache s') (endOf s') (nextOf s') (S l) (mkSub (p_ref p) (all_es cs) (p_ref p :: all_rs cs)) /\
    ((2 <= length cs)%nat -> wide o (ts_cache s') (endOf s') (nextOf s') (S l) (p_ref p))).
Proof.
  intros R Hlen Hl T X S N1 N2 Hid Kp. set (lv := Z.of_nat (Datatypes.S l)).
  change (encodeFreeTreeBranch id lv (childOf <$> cs)) with (encodeNode id lv (fun h dst => EncodeFreeDirectoryBranch dst h (childOf <$> cs))).
  destruct (begun_options o pool t0 c0 Bg) as (B & _). pose proof (b_size _ _ B) as Hsz.
  assert (Ne : Forall (fun c => sub_es c <> []) cs) by (eapply Forall_impl; [exact T|]; intros c Hc; apply (tree_parts _ _ _ _ _ _ Hc)).
  assert (Nr : Forall (fun c => node_ref o (endOf s) (nextOf s) (sub_ref c)) cs) by (eapply Forall_impl; [exact T|]; intros c Hc; apply (tree_parts _ _ _ _ _ _ Hc)).
  assert (Wc : Forall child_ok (childOf <$> cs)).
  { apply Forall_fmap, Forall_forall. intros c Hc. rewrite Forall_forall in Ne. rewrite Forall_forall in Nr. rewrite Forall_forall in X. split; [|apply (Nr c Hc)]. cbn [compose childOf Lower].
    destruct (sub_es c) as [|e es] eqn:Ec; [by destruct (Ne c Hc)|]. rewrite firstOffset_cons. apply (X e). unfold all_es. apply list_elem_of_join. exists (sub_es c).
    rewrite Ec. split; [by left|]. rewrite <- Ec. by apply list_elem_of_fmap_2. }
  assert (Er : Ref <$> (childOf <$> cs) = sub_ref <$> cs) by (rewrite <- list_fmap_compose; done).
  assert (V : forall p fe next, new_page o pool s ps id p fe next ->
    validateFreeDirectoryHeader (nodeHeader o lv p) (length (childOf <$> cs)) FreeDirectoryBranchRecordSize next = None /\ free_header_ok (nodeHeader o lv p) /\
    fh_PageSize (nodeHeader o lv p) = o_PageSize o /\ (fe <= maxSuperblockFileOffset -> checkBranch (childOf <$> cs) (nodeHeader o lv p) fe next None emptyRefSet = Ok tt)).
  { intros p fe next N. rewrite length_fmap. destruct (n_ref _ _ _ _ _ _ _ _ N) as (A1 & A2 & A3 & _). destruct (n_marks _ _ _ _ _ _ _ _ N) as (M1 & M2 & M3).
    destruct (n_id _ _ _ _ _ _ _ _ N) as [I1 I2]. destruct (n_place _ _ _ _ _ _ _ _ N) as (L1 & L2 & L3). split; [|split; [|split; [done|]]].
    - eapply (nodeHeader_valid o pool t0 c0 Bg); [exact N|lia|lia|lia|unfold FreeDirectoryBranchRecordSize; lia].
    - eapply (nodeHeader_ok o pool Wo); [unfold is_byte, lv; lia|exact N].
    - intros Hm. apply (checkBranch_complete _ _ _ _ None emptyRefSet []); cbn [nodeHeader fh_PageSize app length]; rewrite ?A2, ?length_fmap, ?Er; try done;
        [lia|unfold superblockCopies; lia|apply empty_refset|lia| |by apply childOf_increasing].
      apply Forall_fmap. rewrite Forall_forall in Nr |- *. intros c Hc. destruct (Nr c Hc) as (B1 & B2 & B3 & B4 & B5 & B6 & B7 & B8 & B9 & B10).
      split; [|done]. unfold child_in_file. cbn [compose childOf Ref nodeHeader fh_PageSize fh_Generation fh_LogicalID]. rewrite A2. unfold StateRootLogicalID, superblockCopies.
      assert (Hd : ref_LogicalID (sub_ref c) <> ref_LogicalID (p_ref p)).
      { destruct (Z.eqb_spec id 0); [lia|]. destruct I2 as [-> _]. intros Eq. apply Hid. rewrite <- Eq. by apply list_elem_of_fmap_2, list_elem_of_fmap_2. }
      destruct (Z.eqb_spec id 0); split_and!; done || lia. }
  eapply outcome_mono; [apply (encodeNode_outcome o pool t0 c0 k0 Bg Wo id lv); [done|]|].
  - intros p fe next N dst Hd. destruct (V p fe next N) as (V1 & V2 & V3 & V4). destruct (decide (fe <= maxSuperblockFileOffset)) as [Hf|Hf].
    + right. rewrite <- V3 in Hd. specialize (V4 Hf). destruct (EncodeBranch_succeeds dst (nodeHeader o lv p) (childOf <$> cs) fe next V2 Wc) as [page Ep]; try done;
        [rewrite length_fmap; lia|]. exists page. split; [done|].
      destruct (EncodeBranch_sealed _ _ _ _ _ _ V2 Wc Ep) as (_ & _ & _ & _ & _ & w & -> & Nw & _). destruct (node_opens _ _ _ _ _ V2 V1 Nw) as [L [pl O]].
      rewrite <- V3. split; [done|]. by eexists _, pl.
    + left. split; [lia|]. apply EncodeBranch_full; [by destruct cs; [simpl in Hlen; lia|]|lia].
  - intros p s' ps' G (-> & Tr & N & dst & bytes & Eb & Hh). destruct (V p _ _ N) as (V1 & V2 & V3 & V4).
    assert (Rd : reads_branch (o_PageSize o) (endOf s') (nextOf s') bytes lv (childOf <$> cs)) by (rewrite <- V3; by apply (EncodeBranch_reads dst (nodeHeader o lv p) _ _ _ _ V2 Wc)).
    split_and!; [done|done|apply (n_id _ _ _ _ _ _ _ _ N)| |intros H2; right; exists bytes, (childOf <$> cs); by rewrite length_fmap].
    cbn [tree sub_ref sub_es sub_rs]. split; [by eapply new_node|]. split.
    { destruct cs as [|c cs]; [simpl in Hlen; lia|]. apply Forall_cons in Ne as [Ne _]. rewrite all_es_cons. by destruct (sub_es c). }
    exists bytes. split; [done|]. exists cs. split; [done|]. split; [|by split].
    rewrite Forall_forall in T |- *. intros c Hc. destruct (g_marks _ _ _ _ _ _ _ _ _ G). eapply tree_later; [done|done| |by apply T].
    intros r b Hr. apply (g_holds _ _ _ _ _ _ _ _ _ G). rewrite Forall_forall in Kp. apply Kp. unfold all_rs. apply list_elem_of_join. exists (sub_rs c).
    split; [done|]. by apply list_elem_of_fmap_2.
Qed.
End Writes.
