(* ===== verification/FreeTreeMutate.v ===== *)
(** * FreeTreeMutate: inserting into and deleting from the free tree

    The mutation of free_tree.go refines [edited] on the list of extents.  A
    rewrite of a page returns no page, one, or two: [result_of] relates the
    record the code returns to those subtrees, and [changed] says what they
    hold, which pages were retired and which identities were taken. *)
From Stdlib Require Import ZArith Lia List Bool Sorted.
From stdpp Require Import base numbers list strings sets sorting.
From S2P Require Import Prelude Leases Bytes Page StateRoot FreeDirectory Superblock Device Committer GroupCommit WriteTx FreeNode FreeTree FreeTreeSteps FreeTreeSpec.

Open Scope Z_scope.

Definition result_of (subs : list sub) (w : freeTreeRewrite) : Prop :=
  match subs with
  | [] => rw_empty w = true
  | [a] => rw_empty w = false /\ rw_ref w = sub_ref a /\ rw_lower w = firstOffset (sub_es a) /\ rw_rightRef w = zeroRef
  | [a; b] => rw_empty w = false /\ rw_ref w = sub_ref a /\ rw_lower w = firstOffset (sub_es a) /\
      rw_rightRef w = sub_ref b /\ rw_rightLower w = firstOffset (sub_es b) /\ sub_ref b <> zeroRef
  | _ => False
  end.

Lemma replaceChild_spec l c r subs w : result_of subs w -> replaceChild (childOf <$> (l ++ c :: r)) (length l) w = childOf <$> (l ++ subs ++ r).
Proof.
  intros H. unfold replaceChild. rewrite <- fmap_take, <- fmap_drop, take_app_length.
  replace (drop (S (length l)) (l ++ c :: r)) with r by (rewrite drop_app_ge, (Nat.sub_succ_l _ _ (le_n _)), Nat.sub_diag by lia; done).
  rewrite !fmap_app. f_equal. destruct subs as [|a [|b [|? ?]]]; cbn [result_of] in H; [by rewrite H| | |done].
  - destruct H as (-> & -> & -> & ->). unfold isZeroRef. by rewrite bool_decide_true.
  - destruct H as (-> & -> & -> & -> & -> & N). unfold isZeroRef. by rewrite bool_decide_false.
Qed.

(** ** Identities and pages of a forest *)

Lemma ids_replaced (n : Z) (x y old new gone fresh : list Z) : NoDup (x ++ old ++ y) -> new ++ gone ≡ₚ old ++ fresh -> NoDup fresh ->
  Forall (fun i => i < n) (x ++ old ++ y) -> Forall (fun i => n <= i) fresh -> NoDup (x ++ new ++ y).
Proof.
  intros N Pm Nf H1 H2. assert (Nd : NoDup ((x ++ old ++ y) ++ fresh)).
  { apply NoDup_app. split_and!; [done| |done]. intros i Hi Hf. rewrite Forall_forall in H1. rewrite Forall_forall in H2. specialize (H1 i Hi). specialize (H2 i Hf). lia. }
  assert (Pm' : (x ++ old ++ y) ++ fresh ≡ₚ (x ++ new ++ y) ++ gone).
  { rewrite <- !app_assoc. f_equiv. rewrite (Permutation_app_comm y fresh), (Permutation_app_comm y gone), !app_assoc. by rewrite Pm. }
  rewrite Pm' in Nd. by apply NoDup_app in Nd as [Nd _].
Qed.

Section Mutate.
  Context {K : DirtyCache} {P : PageStore K}.
  Variables (o : WriteTransactionOptions) (pool : list FreeExtent) (t0 : WriteTransaction) (c0 : Committer) (k0 : cache).
  Hypothesis Bg : begun o pool t0 c0.
  Hypothesis Wo : tx_words o.
  Hypothesis Hps : o_PageSize o <= 2 ^ 20.
  Local Notation run := (run t0 c0 k0).
  Local Notation goes := (goes o pool t0 c0 k0).
  Local Notation outcome := (outcome o pool t0 c0 k0).
  Local Notation kept := (kept o pool).
  Local Notation endOf s := (t_fileEnd (ts_tx s)).
  Local Notation nextOf s := (t_nextID (ts_tx s)).
  Local Notation treeAt s := (tree o (ts_cache s) (endOf s) (nextOf s)).
  Local Notation wideAt s := (wide o (ts_cache s) (endOf s) (nextOf s)).
  Local Notation ids rs := (ref_LogicalID <$> rs).

Lemma tree_root k fe next l s : tree o k fe next l s -> exists tl, sub_rs s = sub_ref s :: tl.
Proof. destruct l; cbn [tree]; intros (_ & _ & b & _ & H); [destruct H as (-> & _)|destruct H as (cs & _ & _ & _ & _ & ->)]; by eexists. Qed.

Lemma roots_sublist {A} (f : PageRef -> A) k fe next l cs : Forall (tree o k fe next l) cs -> (f <$> (sub_ref <$> cs)) `sublist_of` (f <$> all_rs cs).
Proof.
  induction 1 as [|c cs Hc F IH]; [done|]. rewrite all_rs_cons, fmap_app. destruct (tree_root _ _ _ _ _ Hc) as [tl ->]. cbn.
  apply sublist_skip. by apply sublist_inserts_l.
Qed.

Lemma tree_refs k fe next l s : tree o k fe next l s -> Forall (node_ref o fe next) (sub_rs s).
Proof.
  revert s. induction l as [|l IH]; intros s; cbn [tree]; intros (N & _ & b & _ & H).
  - destruct H as (-> & _). by constructor.
  - destruct H as (cs & _ & F & _ & _ & ->). constructor; [done|]. unfold all_rs. apply Forall_join, Forall_fmap. eapply Forall_impl; [exact F|]. apply IH.
Qed.

Lemma forest_refs k fe next l cs : Forall (tree o k fe next l) cs -> Forall (node_ref o fe next) (all_rs cs).
Proof. intros F. unfold all_rs. apply Forall_join, Forall_fmap. eapply Forall_impl; [exact F|]. apply tree_refs. Qed.

Lemma forest_later s ps s' ps' l cs : goes s ps s' ps' -> Forall (kept ps) (all_rs cs) -> Forall (treeAt s l) cs -> Forall (treeAt s' l) cs.
Proof.
  intros G Kp F. destruct (g_marks _ _ _ _ _ _ _ _ _ G). rewrite Forall_forall in F |- *. intros c Hc. eapply tree_later; [done|done| |by apply F].
  intros r b Hr. apply (g_holds _ _ _ _ _ _ _ _ _ G). rewrite Forall_forall in Kp. apply Kp. unfold all_rs. apply list_elem_of_join. exists (sub_rs c).
  split; [done|]. by apply list_elem_of_fmap_2.
Qed.

Lemma new_kept s ps new l cs : run s (ps ++ new) -> Forall (treeAt s l) cs -> (forall r, r ∈ all_rs cs -> kept ps r \/ r ∈ p_ref <$> new) -> Forall (kept (ps ++ new)) (all_rs cs).
Proof.
  intros R F H. pose proof (forest_refs _ _ _ _ _ F) as N. rewrite Forall_forall in N. apply Forall_forall. intros r Hr.
  destruct (H r Hr) as [Hk|Hk]; [by apply kept_app|]. split; [|right; rewrite fmap_app; apply elem_of_app; by right].
  destruct (N r Hr) as (_ & _ & _ & _ & -> & _). destruct (begun_options o pool t0 c0 Bg) as (B & _). pose proof (b_size _ _ B). lia.
Qed.

(** A root that stays at its level is a leaf or has two children. *)
Definition broad (root : bool) (s : tstate) (l : nat) (subs : list sub) : Prop :=
  root = true -> length subs = 1%nat -> Forall (fun c => wideAt s l (sub_ref c)) subs.

(** What a rewrite of [old] to the subtrees [subs] did, from one state to another. *)
Record changed (root : bool) (l : nat) (old : sub) (subs : list sub) (s : tstate) (ps : list TransactionPage) (s' : tstate) (ps' : list TransactionPage) : Prop := {
  ch_pages : exists new rt, ps' = ps ++ new /\ ts_retired s' = ts_retired s ++ rt /\ (length rt <= S l)%nat /\
    all_rs subs ++ rt ≡ₚ sub_rs old ++ (p_ref <$> new);
  ch_tree : exists l', Forall (treeAt s' l') subs /\ (l' = l /\ broad root s' l subs \/ root = true /\ l = S l' /\ length subs = 1%nat);
  ch_ids : exists gone fresh, ids (all_rs subs) ++ gone ≡ₚ ids (sub_rs old) ++ fresh /\ NoDup fresh /\ Forall (fun i => nextOf s <= i < nextOf s') fresh;
}.
(** The answer of a rewrite of [old], which sits [l] levels above the leaves. *)
Definition post (root : bool) (l : nat) (old : sub) (d : bool) (off : Z) (x : FreeExtent) (s : tstate) (ps : list TransactionPage)
    (w : freeTreeRewrite) (s' : tstate) (ps' : list TransactionPage) : Prop :=
  rw_found w = member off (sub_es old) /\
  if rw_changed w then negb d || member off (sub_es old) = true /\ exists subs, result_of subs w /\ all_es subs = edited d off x (sub_es old) /\
    (d = true -> (length subs <= 1)%nat) /\ changed root l old subs s ps s' ps'
  else d = true /\ member off (sub_es old) = false /\ rw_ref w = sub_ref old /\ ts_retired s' = ts_retired s /\ ps' = ps.

(** ** Leaves *)

Lemma rank_lookup_nat {A} (l : list A) i : rank_lookup l (Z.of_nat i) = l !! i.
Proof. unfold rank_lookup. by rewrite (proj2 (Z.ltb_ge _ _)), Nat2Z.id by lia. Qed.

Lemma readExtents_spec view es n i : (forall rank, ExtentAt view rank = Ok (rank_lookup es rank)) -> (i + n = length es)%nat ->
  readExtents n i view = Ok (drop i es).
Proof.
  intros R. revert i. induction n as [|n IH]; intros i Hi; cbn [readExtents]; [by rewrite drop_ge by lia|].
  destruct (lookup_lt_is_Some_2 es i ltac:(lia)) as [e He]. rewrite R, rank_lookup_nat, He, !bind_Ok, IH by lia. rewrite bind_Ok. cbn [default from_option id].
  by rewrite (drop_S es e i He).
Qed.

Lemma edited_length d off x es : (length (edited d off x es) <= S (length es))%nat.
Proof.
  unfold edited. rewrite !length_app. assert (H : (length (filter (fun e => (Offset e < off)%Z) es) + length (filter (fun e => (off < Offset e)%Z) es) <= length es)%nat).
  { induction es as [|e es IH]; [done|]. rewrite !filter_cons. repeat case_decide; cbn [length]; lia. }
  destruct d; cbn [length]; lia.
Qed.

Lemma deleted_length off x es : (length (edited true off x es) <= length es)%nat.
Proof.
  unfold edited. cbn [app]. rewrite length_app. induction es as [|e es IH]; [done|]. rewrite !filter_cons. repeat case_decide; cbn [length]; lia.
Qed.

Lemma page_size : 4096 <= o_PageSize o.
Proof. destruct (begun_options o pool t0 c0 Bg) as (B & _). apply (b_size _ _ B). Qed.

Lemma node_ref_nonzero fe next r : node_ref o fe next r -> r <> zeroRef.
Proof. pose proof page_size as Hsz. intros (_ & _ & _ & _ & Hl & _) ->. cbn in Hl. lia. Qed.

Lemma ends_app l r : StronglySorted (fun a b => extent_end a <= Offset b) (l ++ r) ->
  StronglySorted (fun a b => extent_end a <= Offset b) l /\ StronglySorted (fun a b => extent_end a <= Offset b) r.
Proof.
  induction l as [|e l IH]; cbn [app]; intros S; [split; [constructor|done]|]. apply StronglySorted_inv in S as [S F]. destruct (IH S) as [S1 S2].
  apply Forall_app in F as [F _]. split; [by constructor|done].
Qed.

(** Two leaves in place of one that overflowed. *)
Lemma split_leaf id old es fe0 s ps : run s ps -> treeAt s 0 old -> ref_LogicalID (sub_ref old) = id ->
  (length es <= S (length (sub_es old)))%nat -> freeTreeLeafFits (o_PageSize o) (length es) = false ->
  Forall (extent_ok (o_PageSize o) fe0) es -> StronglySorted (fun a b => extent_end a <= Offset b) es -> fe0 <= endOf s -> fe0 <= maxSuperblockFileOffset ->
  forall found,
  outcome (treeM_bind _ _ (fun leftPage => treeM_bind _ _ (fun rightPage =>
      treeM_ret _ (divided (p_ref leftPage) (firstOffset es) (p_ref rightPage) (firstOffset (drop (Nat.div2 (length es)) es)) found))
      (encodeFreeTreeLeaf 0 (drop (Nat.div2 (length es)) es))) (encodeFreeTreeLeaf id (take (Nat.div2 (length es)) es))) s ps
    (fun w s' ps' => rw_found w = found /\ rw_changed w = true /\ ts_retired s' = ts_retired s /\ exists p q, ps' = ps ++ [p; q] /\
      exists a b, result_of [a; b] w /\ all_es [a; b] = es /\ all_rs [a; b] = [p_ref p; p_ref q] /\ Forall (treeAt s' 0) [a; b] /\
        ids (all_rs [a; b]) = [id; nextOf s] /\ nextOf s < nextOf s').
Proof.
  intros R T Hid Hlen Hfit X S He Hm found. set (h := Nat.div2 (length es)).
  cbn [tree] in T. destruct T as (Nr & Ne & _ & _ & _ & Fo & _). destruct Nr as (_ & _ & _ & _ & _ & _ & Hi & _).
  assert (Hn : (0 < length (sub_es old))%nat) by (destruct (sub_es old); [done|simpl; lia]).
  unfold freeTreeLeafFits in Hfit, Fo. apply Z.leb_gt in Hfit. apply Z.leb_le in Fo.
  assert (Hh : (1 <= h /\ h + h <= length es /\ length es <= h + h + 1)%nat).
  { subst h. rewrite Nat.div2_div. pose proof (Nat.div_mod_eq (length es) 2). pose proof (Nat.mod_upper_bound (length es) 2). lia. }
  rewrite <- (take_drop h es) in X, S. apply Forall_app in X as [X1 X2]. apply ends_app in S as [S1 S2].
  eapply outcome_bind.
  { apply (write_leaf o pool t0 c0 k0 Bg Wo Hps id (take h es) fe0); try done.
    - intros E%(f_equal length). rewrite length_take in E. simpl in E. lia.
    - unfold freeTreeLeafFits. apply Z.leb_le. rewrite length_take. lia. }
  intros p s1 ps1 G1 (-> & T1 & I1 & Tr1). eapply outcome_bind.
  { apply (write_leaf o pool t0 c0 k0 Bg Wo Hps 0 (drop h es) fe0); try done.
    - apply (g_run _ _ _ _ _ _ _ _ _ G1).
    - intros E%(f_equal length). rewrite length_drop in E. simpl in E. lia.
    - unfold freeTreeLeafFits. apply Z.leb_le. rewrite length_drop. lia.
    - destruct (g_marks _ _ _ _ _ _ _ _ _ G1). lia. }
  intros q s2 ps2 G2 (-> & T2 & I2 & Tr2). apply outcome_ret; [apply (g_run _ _ _ _ _ _ _ _ _ G2)|]. split; [done|]. split; [done|]. split; [congruence|].
  exists p, q. split; [by rewrite <- app_assoc|]. exists (mkSub (p_ref p) (take h es) [p_ref p]), (mkSub (p_ref q) (drop h es) [p_ref q]).
  unfold took_id in I1, I2. rewrite (proj2 (Z.eqb_neq id 0)) in I1 by lia. cbn [Z.eqb] in I2. destruct I1 as [I1 I1'], I2 as [I2 I2'].
  split_and!.
  - cbn [result_of divided rw_empty rw_ref rw_lower rw_rightRef rw_rightLower sub_ref sub_es]. split_and!; try done.
    + destruct es as [|e es]; [simpl in *; lia|]. destruct h; [lia|]. done.
    + eapply node_ref_nonzero, (tree_parts _ _ _ _ _ _ Tr2).
  - cbn. rewrite app_nil_r. apply take_drop.
  - done.
  - constructor; [|by constructor]. pose proof (forest_later _ _ _ _ 0 [mkSub (p_ref p) (take h es) [p_ref p]] G2) as Fl.
    apply Forall_singleton, Fl; [|by apply Forall_singleton]. apply (new_kept s1 ps [p] 0 [mkSub (p_ref p) (take h es) [p_ref p]]); [apply (g_run _ _ _ _ _ _ _ _ _ G1)|by apply Forall_singleton|].
    intros r Hr. by right.
  - cbn. by rewrite I1, I2, I1'.
  - lia.
Qed.
Lemma leaf_outcome root old view d off x fe0 s ps : run s ps -> treeAt s 0 old ->
  view_Len view = length (sub_es old) -> (forall rank, ExtentAt view rank = Ok (rank_lookup (sub_es old) rank)) ->
  by_offset (sub_es old) -> Forall (extent_ok (o_PageSize o) fe0) (edited d off x (sub_es old)) ->
  StronglySorted (fun a b => extent_end a <= Offset b) (edited d off x (sub_es old)) -> fe0 <= endOf s -> fe0 <= maxSuperblockFileOffset ->
  (length (ts_retired s) < 16)%nat ->
  outcome (rewriteFreeTreeLeaf (sub_ref old) view off x d) s ps (post root 0 old d off x s ps).
Proof.
  intros R T Hlen Hat So X S He Hm Hr. unfold rewriteFreeTreeLeaf. rewrite Hlen, (readExtents_spec _ _ _ 0 Hat eq_refl), drop_0.
  eapply outcome_bind; [apply (outcome_lift _ _ _ _ _ _ s ps (fun a s' ps' => a = sub_es old /\ s' = s /\ ps' = ps)); done|].
  intros ? ? ? _ (-> & -> & ->). rewrite leafEntries_edited by done. set (es := edited d off x (sub_es old)) in *.
  pose proof T as T'. cbn [tree] in T'. destruct T' as (Nr & Ne & _ & _ & Ers & Fits & _). destruct Nr as (_ & _ & _ & _ & _ & _ & Hid & _).
  destruct (d && negb (member off (sub_es old))) eqn:Ed.
  { apply andb_true_iff in Ed as [-> Em%negb_true_iff]. apply outcome_ret; [done|]. split; [by rewrite Em|]. done. }
  assert (Hch : negb d || member off (sub_es old) = true) by (destruct d; [by apply negb_false_iff in Ed|done]).
  eapply outcome_bind.
  { apply (outcome_retire o pool t0 c0 k0 _ s ps (fun _ s' ps' => s' = mkTS (ts_tx s) (ts_committer s) (ts_cache s) (ts_retired s ++ [sub_ref old]) /\ ps' = ps)); done. }
  intros [] s1 ps1 G1 (-> & ->). set (s1 := mkTS _ _ _ _) in *. pose proof (g_run _ _ _ _ _ _ _ _ _ G1) as R1.
  assert (Fnd : es = [] -> member off (sub_es old) = true).
  { intros E. destruct d; [|subst es; unfold edited in E; destruct (filter _ _); done]. by apply negb_false_iff in Ed. }
  destruct (Nat.eqb_spec (length es) 0) as [E0|N0].
  { apply nil_length_inv in E0. apply outcome_ret; [done|]. split; [symmetry; by apply Fnd|]. cbn [emptied rw_changed]. split; [done|]. exists []. split; [done|]. split; [symmetry; exact E0|].
    split; [simpl; lia|]. split; [|by exists 0%nat; split; [constructor|left]|].
    - exists [], [sub_ref old]. rewrite app_nil_r, Ers. by split_and!.
    - exists [ref_LogicalID (sub_ref old)], []. rewrite Ers. split; [done|]. split; [apply NoDup_nil_2|constructor]. }
  assert (Nes : es <> []) by (by destruct es). eapply outcome_bind; [apply (outcome_options o pool t0 c0 k0 Bg _ _ (fun o' s' ps' => o' = o /\ s' = s1 /\ ps' = ps)); done|].
  intros ? ? ? _ (-> & -> & ->). destruct (freeTreeLeafFits (o_PageSize o) (length es)) eqn:Hfit.
  - eapply outcome_bind; [apply (write_leaf o pool t0 c0 k0 Bg Wo Hps _ es fe0); done|]. intros p s2 ps2 G2 (-> & T2 & I2 & Tr2).
    apply outcome_ret; [apply (g_run _ _ _ _ _ _ _ _ _ G2)|]. split; [done|]. cbn [rewritten rw_changed]. split; [done|]. exists [mkSub (p_ref p) es [p_ref p]].
    split; [done|]. split; [cbn; by rewrite app_nil_r|]. split; [simpl; lia|]. split.
    + exists [p], [sub_ref old]. rewrite T2, Ers. split_and!; [done|done|simpl; lia|]. cbn. by rewrite Permutation_swap.
    + exists 0%nat. split; [by apply Forall_singleton|left]. split; [done|]. intros _ _. by apply Forall_singleton; left.
    + unfold took_id in I2. rewrite (proj2 (Z.eqb_neq (ref_LogicalID (sub_ref old)) 0)) in I2 by lia. exists [], []. rewrite Ers. cbn. destruct I2 as [-> _].
      split; [done|]. split; [apply NoDup_nil_2|constructor].
  - eapply outcome_mono; [apply (split_leaf (ref_LogicalID (sub_ref old)) old es fe0); try done; apply edited_length|].
    intros w s2 ps2 G2 (Ef & Ec & T2 & p & q & -> & a & b & Hres & Hes & Hrs & Tr & Hi & Hlt). split; [done|]. rewrite Ec. split; [done|]. exists [a; b]. split; [done|]. split; [done|]. split.
    { intros ->. unfold freeTreeLeafFits in *. apply Z.leb_le in Fits. apply Z.leb_gt in Hfit. pose proof (deleted_length off x (sub_es old)). subst es. lia. }
    split.
    + exists [p; q], [sub_ref old]. rewrite T2, Ers, Hrs. split_and!; [done|done|simpl; lia|]. symmetry. apply (Permutation_cons_append [p_ref p; p_ref q]).
    + exists 0%nat. split; [done|left]. by split.
    + exists [], [nextOf s]. rewrite Hi, Ers. cbn. split; [done|]. split; [apply NoDup_singleton|]. apply Forall_singleton. cbn in Hlt |- *. lia.
Qed.
(** ** Branches *)

(** Subtrees of one level that a branch with identity [id] may list. *)
Record forest (s : tstate) (ps : list TransactionPage) (l : nat) (id fe0 : Z) (cs : list sub) : Prop := {
  f_tree : Forall (treeAt s l) cs;
  f_ids : NoDup (id :: ids (all_rs cs));
  f_offsets : NoDup (ref_Offset <$> all_rs cs);
  f_kept : Forall (kept ps) (all_rs cs);
  f_extents : Forall (extent_ok (o_PageSize o) fe0) (all_es cs);
  f_order : by_offset (all_es cs);
}.

Lemma forest_part s ps l id fe0 a b c : forest s ps l id fe0 (a ++ b ++ c) -> forest s ps l id fe0 b.
Proof.
  intros [F1 F2 F3 F4 F5 F6]. rewrite !all_rs_app, ?all_es_app in *. apply Forall_app in F1 as [_ F1]. apply Forall_app in F1 as [F1 _].
  apply Forall_app in F4 as [_ F4]. apply Forall_app in F4 as [F4 _]. apply Forall_app in F5 as [_ F5]. apply Forall_app in F5 as [F5 _].
  apply by_offset_app in F6 as (_ & F6 & _). apply by_offset_app in F6 as (F6 & _). rewrite !fmap_app in *. apply NoDup_app in F3 as (_ & _ & F3).
  apply NoDup_app in F3 as (F3 & _). apply NoDup_cons in F2 as [F2 F2']. apply NoDup_app in F2' as (_ & _ & F2'). apply NoDup_app in F2' as (F2' & _).
  split; try done. constructor; [|done]. intros Hin. apply F2. apply elem_of_app. right. apply elem_of_app. by left.
Qed.

Lemma forest_goes s ps s' ps' l id fe0 cs : goes s ps s' ps' -> forest s ps l id fe0 cs -> forest s' ps' l id fe0 cs.
Proof.
  intros G [F1 F2 F3 F4 F5 F6]. split; try done; [by eapply forest_later|]. eapply Forall_impl; [exact F4|]. intros r. by eapply goes_kept.
Qed.

Lemma write_forest id' id l fe0 cs s ps : run s ps -> (0 < length cs <= 64)%nat -> (l < 10)%nat -> forest s ps l id fe0 cs -> (id' = id \/ id' = 0) ->
  outcome (encodeFreeTreeBranch id' (Z.of_nat (S l)) (childOf <$> cs)) s ps (fun p s' ps' => ps' = ps ++ [p] /\ ts_retired s' = ts_retired s /\ took_id s s' id' p /\
    treeAt s' (S l) (mkSub (p_ref p) (all_es cs) (p_ref p :: all_rs cs)) /\ ((2 <= length cs)%nat -> wideAt s' (S l) (p_ref p))).
Proof.
  intros R Hlen Hl F Hid. destruct F as [F1 F2 F3 F4 F5 F6]. apply NoDup_cons in F2 as [F2 F2'].
  apply (write_branch o pool t0 c0 k0 Bg Wo id' l cs fe0); try done.
  - eapply sublist_NoDup; [exact F2'|]. by eapply roots_sublist.
  - eapply sublist_NoDup; [exact F3|]. by eapply roots_sublist.
  - intros Hin. assert (Hin2 : id' ∈ ids (all_rs cs)) by (eapply elem_of_submseteq; [exact Hin|]; apply sublist_submseteq; by eapply roots_sublist).
    destruct Hid as [->| ->]; [done|]. apply list_elem_of_fmap in Hin2 as (r & Er & Hr). pose proof (forest_refs _ _ _ _ _ F1) as N. rewrite Forall_forall in N.
    destruct (N r Hr) as (_ & _ & _ & _ & _ & _ & H & _). lia.
Qed.

(** What is rebuilt in place of a branch: its identity is reused or given up,
    and a second page takes a new one. *)
Definition rebuilt (root : bool) (l : nat) (oldRef : PageRef) (cs : list sub) (found : bool) (s : tstate) (ps : list TransactionPage)
    (w : freeTreeRewrite) (s' : tstate) (ps' : list TransactionPage) : Prop :=
  rw_found w = found /\ rw_changed w = true /\ ts_retired s' = ts_retired s ++ [oldRef] /\
  exists new subs, ps' = ps ++ new /\ result_of subs w /\ all_es subs = all_es cs /\ all_rs subs ≡ₚ all_rs cs ++ (p_ref <$> new) /\
    ((length cs <= 64)%nat -> (length subs <= 1)%nat) /\
    (exists l', Forall (treeAt s' l') subs /\ (l' = S l /\ broad root s' (S l) subs \/ root = true /\ l' = l /\ length subs = 1%nat)) /\
    exists gone fresh, ids (p_ref <$> new) ++ gone ≡ₚ ref_LogicalID oldRef :: fresh /\ NoDup fresh /\ Forall (fun i => nextOf s <= i < nextOf s') fresh.

(** Two branches in place of one that overflowed. *)
Lemma split_branch oldRef l fe0 cs found root s s0 ps : run s ps -> (64 < length cs <= 65)%nat -> (l < 10)%nat -> ref_LogicalID oldRef <> 0 ->
  forest s ps l (ref_LogicalID oldRef) fe0 cs -> ts_retired s = ts_retired s0 ++ [oldRef] -> ts_tx s0 = ts_tx s ->
  outcome (treeM_bind _ _ (fun leftPage => treeM_bind _ _ (fun rightPage =>
      treeM_ret _ (divided (p_ref leftPage) (firstLower (childOf <$> cs)) (p_ref rightPage) (firstLower (drop (Nat.div2 (length cs)) (childOf <$> cs))) found))
      (encodeFreeTreeBranch 0 (Z.of_nat (S l)) (drop (Nat.div2 (length cs)) (childOf <$> cs))))
      (encodeFreeTreeBranch (ref_LogicalID oldRef) (Z.of_nat (S l)) (take (Nat.div2 (length cs)) (childOf <$> cs)))) s ps
    (rebuilt root l oldRef cs found s0 ps).
Proof.
  intros R Hlen Hl Hid F Hr Ht. set (h := Nat.div2 (length cs)).
  assert (Hh : (1 <= h /\ h + h <= length cs /\ length cs <= h + h + 1)%nat).
  { subst h. rewrite Nat.div2_div. pose proof (Nat.div_mod_eq (length cs) 2). pose proof (Nat.mod_upper_bound (length cs) 2). lia. }
  rewrite <- fmap_take, <- fmap_drop.
  assert (Fa : forest s ps l (ref_LogicalID oldRef) fe0 (take h cs)) by (apply (forest_part s ps l _ fe0 [] _ (drop h cs)); by rewrite app_nil_l, take_drop).
  assert (Fb : forest s ps l (ref_LogicalID oldRef) fe0 (drop h cs)) by (apply (forest_part s ps l _ fe0 (take h cs) _ []); by rewrite app_nil_r, take_drop).
  eapply outcome_bind; [apply (write_forest _ (ref_LogicalID oldRef) l fe0 (take h cs) s ps R); [rewrite length_take; lia|done|exact Fa|by left]|].
  intros p s1 ps1 G1 (-> & T1 & I1 & Tr1 & _). pose proof (g_run _ _ _ _ _ _ _ _ _ G1) as R1.
  eapply outcome_bind; [apply (write_forest 0 (ref_LogicalID oldRef) l fe0 (drop h cs) s1 (ps ++ [p]) R1); [rewrite length_drop; lia|done|by eapply forest_goes|by right]|].
  intros q s2 ps2 G2 (-> & T2 & I2 & Tr2 & _). apply outcome_ret; [apply (g_run _ _ _ _ _ _ _ _ _ G2)|]. split; [done|]. split; [done|]. split; [by rewrite T2, T1|].
  set (a := mkSub (p_ref p) _ _) in *. set (b := mkSub (p_ref q) _ _) in *.
  exists [p; q], [a; b]. split; [by rewrite <- app_assoc|].
  unfold took_id in I1, I2. rewrite (proj2 (Z.eqb_neq _ 0)) in I1 by done. cbn [Z.eqb] in I2. destruct I1 as [I1 I1'], I2 as [I2 I2']. split_and!.
  - cbn [result_of divided rw_empty rw_ref rw_lower rw_rightRef rw_rightLower]. split_and!; try done.
    + destruct cs as [|c cs]; [simpl in *; lia|]. destruct h; [lia|]. cbn [a sub_es]. change (firstLower (childOf <$> c :: cs)) with (firstOffset (sub_es c)).
      cbn [take]. rewrite all_es_cons. assert (Nc : sub_es c <> []) by (pose proof (f_tree _ _ _ _ _ _ F) as Ft; apply Forall_cons in Ft as [Ft _]; apply (tree_parts _ _ _ _ _ _ Ft)).
      by destruct (sub_es c).
    + cbn [b sub_es]. destruct (drop h cs) as [|c r] eqn:Ed; [apply (f_equal length) in Ed; rewrite length_drop in Ed; simpl in Ed; lia|].
      change (firstLower (childOf <$> c :: r)) with (firstOffset (sub_es c)). rewrite all_es_cons.
      assert (Nc : sub_es c <> []) by (pose proof (f_tree _ _ _ _ _ _ Fb) as Ft; apply Forall_cons in Ft as [Ft _]; apply (tree_parts _ _ _ _ _ _ Ft)).
      by destruct (sub_es c).
    + eapply node_ref_nonzero, (tree_parts _ _ _ _ _ _ Tr2).
  - change (all_es [a; b]) with (all_es (take h cs) ++ all_es (drop h cs) ++ []). by rewrite app_nil_r, <- all_es_app, take_drop.
  - change (all_rs [a; b]) with ((p_ref p :: all_rs (take h cs)) ++ (p_ref q :: all_rs (drop h cs)) ++ []). rewrite app_nil_r.
    rewrite <- (take_drop h cs) at 3. rewrite all_rs_app. cbn. solve_Permutation.
  - lia.
  - exists (S l). split; [|by left]. constructor; [|by apply Forall_singleton]. apply Forall_singleton.
    apply (forest_later _ _ _ _ (S l) [a] G2); [|by apply Forall_singleton]. apply (new_kept s1 ps [p] (S l) [a]); [done|by apply Forall_singleton|].
    intros r Hr'. change (all_rs [a]) with ((p_ref p :: all_rs (take h cs)) ++ []) in Hr'. rewrite app_nil_r in Hr'. apply elem_of_cons in Hr' as [->|Hr']; [right; by left|].
    left. pose proof (f_kept _ _ _ _ _ _ Fa) as Kp. rewrite Forall_forall in Kp. by apply Kp.
  - exists [], [nextOf s]. cbn. rewrite I1, I2, I1'. split; [done|]. split; [apply NoDup_singleton|]. rewrite Ht. apply Forall_singleton. lia.
Qed.
Lemma rebuild_outcome oldRef l fe0 cs found root s ps : run s ps -> (length cs <= 65)%nat -> (l < 10)%nat -> ref_LogicalID oldRef <> 0 ->
  forest s ps l (ref_LogicalID oldRef) fe0 cs -> (length (ts_retired s) < 16)%nat ->
  outcome (rebuildBranch oldRef (Z.of_nat (S l)) (childOf <$> cs) found root) s ps (rebuilt root l oldRef cs found s ps).
Proof.
  intros R Hlen Hl Hid F Hr. unfold rebuildBranch. eapply outcome_bind.
  { apply (outcome_retire o pool t0 c0 k0 _ s ps (fun _ s' ps' => s' = mkTS (ts_tx s) (ts_committer s) (ts_cache s) (ts_retired s ++ [oldRef]) /\ ps' = ps)); done. }
  intros [] s1 ps1 G1 (-> & ->). set (s1 := mkTS _ _ _ _) in *. pose proof (g_run _ _ _ _ _ _ _ _ _ G1) as R1. rewrite length_fmap.
  pose proof (forest_goes _ _ _ _ _ _ _ _ G1 F) as F1. destruct (Nat.eqb_spec (length cs) 0) as [E0|N0].
  { apply nil_length_inv in E0 as ->. apply outcome_ret; [done|]. do 3 (split; [done|]). exists [], []. split; [by rewrite app_nil_r|]. do 3 (split; [done|]).
    split; [simpl; lia|]. split; [exists (S l); split; [constructor|by left]|]. exists [ref_LogicalID oldRef], []. split; [done|]. split; [apply NoDup_nil_2|constructor]. }
  destruct (root && (length cs =? 1)%nat) eqn:E1.
  { apply andb_true_iff in E1 as [-> E1%Nat.eqb_eq]. destruct cs as [|c [|? ?]]; [done| |done]. apply outcome_ret; [done|]. do 3 (split; [done|]).
    exists [], [c]. split; [by rewrite app_nil_r|]. do 2 (split; [done|]). split; [by rewrite app_nil_r|]. split; [simpl; lia|]. split; [exists l; split; [apply (f_tree _ _ _ _ _ _ F1)|by right]|].
    exists [ref_LogicalID oldRef], []. split; [done|]. split; [apply NoDup_nil_2|constructor]. }
  destruct (Nat.leb_spec (length cs) 64).
  - eapply outcome_bind; [apply (write_forest _ (ref_LogicalID oldRef) l fe0 cs s1 ps R1); [lia|done|done|by left]|]. intros p s2 ps2 G2 (-> & T2 & I2 & Tr2 & Wd).
    apply outcome_ret; [apply (g_run _ _ _ _ _ _ _ _ _ G2)|]. do 2 (split; [done|]). split; [by rewrite T2|].
    exists [p], [mkSub (p_ref p) (all_es cs) (p_ref p :: all_rs cs)]. split; [done|]. split.
    { cbn [result_of rewritten rw_empty rw_ref rw_lower rw_rightRef sub_ref sub_es]. split_and!; try done. destruct cs as [|c cs]; [done|].
      pose proof (f_tree _ _ _ _ _ _ F) as Ft. apply Forall_cons in Ft as [Ft _]. destruct (tree_parts _ _ _ _ _ _ Ft) as (_ & Nc & _).
      change (firstLower (childOf <$> c :: cs)) with (firstOffset (sub_es c)). rewrite all_es_cons. by destruct (sub_es c). }
    split; [cbn; by rewrite app_nil_r|]. split; [cbn; rewrite app_nil_r; apply Permutation_cons_append|]. split; [simpl; lia|].
    split; [exists (S l); split; [by apply Forall_singleton|left; split; [done|]]; intros -> _; apply Forall_singleton, Wd; cbn [andb] in E1; apply Nat.eqb_neq in E1; lia|].
    unfold took_id in I2. rewrite (proj2 (Z.eqb_neq _ 0)) in I2 by done. destruct I2 as [I2 _]. exists [], []. cbn. rewrite I2. split; [done|]. split; [apply NoDup_nil_2|constructor].
  - apply (split_branch oldRef l fe0); try done; lia.
Qed.

Lemma post_from root l old d off x s1 s ps w s' ps' : ts_retired s1 = ts_retired s -> nextOf s1 = nextOf s ->
  post root l old d off x s1 ps w s' ps' -> post root l old d off x s ps w s' ps'.
Proof.
  intros E1 E2 [Hf H]. split; [done|]. destruct (rw_changed w); [|by rewrite E1 in H]. destruct H as (Hd & subs & H1 & H2 & H3 & [C1 C2 C3]). split; [done|]. exists subs.
  do 3 (split; [done|]). split; [by rewrite E1 in C1|done|by rewrite E2 in C3].
Qed.

Lemma post_cache root l old d off x s ps w s' ps' k : post root l old d off x s ps w s' ps' -> (forall r b, holds (ts_cache s') r b -> holds k r b) ->
  post root l old d off x s ps w (setCache k s') ps'.
Proof.
  intros [Hf H] Hk. split; [done|]. destruct (rw_changed w); [|done]. destruct H as (Hd & subs & H1 & H2 & H3 & [C1 C2 C3]). split; [done|]. exists subs.
  do 3 (split; [done|]). split; [done| |done]. destruct C2 as (l' & F & Hl). exists l'. split.
  - eapply Forall_impl; [exact F|]. intros c Hc. eapply tree_later; [done|done| |exact Hc]. intros r b _. apply Hk.
  - destruct Hl as [[-> Hb]|Hl]; [left|by right]. split; [done|]. intros Hr H4. eapply Forall_impl; [by apply Hb|]. intros c Hc. eapply wide_later; [done|done| |exact Hc]. intros b. apply Hk.
Qed.

Lemma readChildren_spec view cs n i : (forall rank, ChildAt view rank = Ok (rank_lookup cs rank)) -> (i + n = length cs)%nat ->
  readChildren n i view = Ok (drop i cs).
Proof.
  intros R. revert i. induction n as [|n IH]; intros i Hi; cbn [readChildren]; [by rewrite drop_ge by lia|].
  destruct (lookup_lt_is_Some_2 cs i ltac:(lia)) as [e He]. rewrite R, rank_lookup_nat, He, !bind_Ok, IH by lia. rewrite bind_Ok. cbn [default from_option id].
  by rewrite (drop_S cs e i He).
Qed.

(** A child was rewritten: what the branch lists now is again a forest. *)
Lemma forest_replaced l old xs c ys subs fe0 s ps s' ps' : goes s ps s' ps' -> Forall (treeAt s l) (xs ++ c :: ys) ->
  sub_rs old = sub_ref old :: all_rs (xs ++ c :: ys) -> node_ref o (endOf s) (nextOf s) (sub_ref old) ->
  NoDup (ids (sub_rs old)) -> NoDup (ref_Offset <$> sub_rs old) -> Forall (kept ps) (sub_rs old) ->
  changed false l c subs s ps s' ps' -> Forall (extent_ok (o_PageSize o) fe0) (all_es (xs ++ subs ++ ys)) -> by_offset (all_es (xs ++ subs ++ ys)) ->
  forest s' ps' l (ref_LogicalID (sub_ref old)) fe0 (xs ++ subs ++ ys).
Proof.
  intros G T Ers Nr N1 N2 Kp [C1 C2 C3] X S. rewrite Ers in N1, N2, Kp. rewrite all_rs_app, all_rs_cons in *.
  destruct C1 as (new & rt & -> & _ & _ & Pm). destruct C2 as (l' & T' & [[-> _]|[? _]]); [|done]. destruct C3 as (gone & fresh & Pi & Nf & Hf).
  pose proof (forest_refs _ _ _ _ _ T) as Refs. rewrite all_rs_app, all_rs_cons in Refs.
  apply Forall_cons in Kp as [Ko Kp]. apply Forall_app in Kp as [Kx Kp]. apply Forall_app in Kp as [Kc Ky].
  apply Forall_app in T as [Tx T]. apply Forall_cons in T as [Tc Ty].
  assert (Tall : Forall (treeAt s' l) (xs ++ subs ++ ys)).
  { apply Forall_app. split; [by eapply forest_later|]. apply Forall_app. split; [done|by eapply forest_later]. }
  assert (Hsub : forall r, r ∈ all_rs subs -> kept ps r \/ r ∈ p_ref <$> new).
  { intros r Hr. assert (Hin : r ∈ sub_rs c ++ (p_ref <$> new)) by (rewrite <- Pm; apply elem_of_app; by left). apply elem_of_app in Hin as [Hin|Hin]; [|by right].
    left. rewrite Forall_forall in Kc. by apply Kc. }
  split; [done| | | |done|done]; rewrite !all_rs_app.
  - change (NoDup (ref_LogicalID (sub_ref old) :: ids (all_rs xs ++ sub_rs c ++ all_rs ys))) in N1. rewrite !fmap_app in N1. rewrite !fmap_app.
    pose proof (ids_replaced (nextOf s) (ref_LogicalID (sub_ref old) :: ids (all_rs xs)) (ids (all_rs ys)) (ids (sub_rs c)) (ids (all_rs subs)) gone fresh) as Ir.
    cbn [app] in Ir. apply Ir; try done; [|eapply Forall_impl; [exact Hf|]; simpl; lia].
    constructor; [apply Nr|]. rewrite <- !fmap_app. apply Forall_fmap. eapply Forall_impl; [exact Refs|]. intros r Hr. apply Hr.
  - pose proof (new_offsets o pool t0 c0 k0 Bg s' ps new _ (g_run _ _ _ _ _ _ _ _ _ G) (Forall_cons_2 _ _ _ Ko (Forall_app_2 _ _ _ Kx (Forall_app_2 _ _ _ Kc Ky))) N2) as No.
    assert (Pp : (sub_ref old :: all_rs xs ++ sub_rs c ++ all_rs ys) ++ (p_ref <$> new) ≡ₚ (all_rs xs ++ all_rs subs ++ all_rs ys) ++ (rt ++ [sub_ref old])).
    { transitivity ((sub_rs c ++ (p_ref <$> new)) ++ all_rs xs ++ all_rs ys ++ [sub_ref old]); [solve_Permutation|]. rewrite <- Pm. solve_Permutation. }
    rewrite Pp, fmap_app in No. by apply NoDup_app in No as [No _].
  - pose proof (new_kept s' ps new l (xs ++ subs ++ ys) (g_run _ _ _ _ _ _ _ _ _ G) Tall) as Nk. rewrite !all_rs_app in Nk. apply Nk. intros r Hr.
    rewrite Forall_forall in Kx. rewrite Forall_forall in Ky. apply elem_of_app in Hr as [Hr|Hr]; [left; by apply Kx|]. apply elem_of_app in Hr as [Hr|Hr]; [by apply Hsub|left; by apply Ky].
Qed.
(** ** The whole path *)

(** What a rewrite of [old] relies on: its pages are distinct and kept, and the
    edited list is one the encoders accept. *)
Record rewritable (l : nat) (old : sub) (d : bool) (off : Z) (x : FreeExtent) (s : tstate) (ps : list TransactionPage) : Prop := {
  r_tree : treeAt s l old;
  r_order : by_offset (sub_es old);
  r_extents : Forall (extent_ok (o_PageSize o) (endOf s)) (edited d off x (sub_es old));
  r_ends : StronglySorted (fun a b => extent_end a <= Offset b) (edited d off x (sub_es old));
  r_ids : NoDup (ids (sub_rs old));
  r_offsets : NoDup (ref_Offset <$> sub_rs old);
  r_kept : Forall (kept ps) (sub_rs old);
  r_limit : endOf s <= maxSuperblockFileOffset;
  r_retired : (length (ts_retired s) + S l <= 16)%nat;
}.

(** The state after a lease is taken. *)
Lemma rewritable_cache l old d off x s ps k : rewritable l old d off x s ps -> (forall r b, holds (ts_cache s) r b -> holds k r b) ->
  rewritable l old d off x (setCache k s) ps.
Proof. intros [] Hk. split; try done. eapply tree_later; [done|done| |exact r_tree0]. intros r b _. apply Hk. Qed.

Lemma rewritable_child l old xs c ys d off x s ps : rewritable (S l) old d off x s ps -> Forall (treeAt s l) (xs ++ c :: ys) ->
  sub_es old = all_es (xs ++ c :: ys) -> sub_rs old = sub_ref old :: all_rs (xs ++ c :: ys) ->
  Forall (fun e => Offset e < off) (all_es xs) -> Forall (fun e => off < Offset e) (all_es ys) -> rewritable l c d off x s ps.
Proof.
  intros [T So X En N1 N2 Kp Hm Hr] F Ees Ers H1 H2. rewrite all_es_app, all_es_cons in Ees. rewrite all_rs_app, all_rs_cons in Ers. rewrite Ees in So, X, En.
  rewrite edited_around in X, En by done. rewrite Ers in N1, N2, Kp. apply Forall_app in F as [_ F]. apply Forall_cons in F as [F _].
  apply by_offset_app in So as (_ & So & _). apply by_offset_app in So as (So & _). apply Forall_app in X as [_ X]. apply Forall_app in X as [X _].
  apply ends_app in En as [_ En]. apply ends_app in En as [En _]. apply Forall_cons in Kp as [_ Kp]. apply Forall_app in Kp as [_ Kp]. apply Forall_app in Kp as [Kp _].
  assert (Hd : forall f : PageRef -> Z, NoDup (f <$> sub_ref old :: all_rs xs ++ sub_rs c ++ all_rs ys) -> NoDup (f <$> sub_rs c)).
  { intros f Nd. change (NoDup (f (sub_ref old) :: (f <$> all_rs xs ++ sub_rs c ++ all_rs ys))) in Nd. apply NoDup_cons in Nd as [_ Nd]. rewrite !fmap_app in Nd.
    apply NoDup_app in Nd as (_ & _ & Nd). by apply NoDup_app in Nd as (Nd & _). }
  split; try done; [by apply Hd|by apply Hd|lia].
Qed.

(** After the child of a branch: rebuild it, or leave it alone. *)
Lemma branch_rest root l old xs c ys w d off x s ps s1 ps1 : (l < 10)%nat -> rewritable (S l) old d off x s ps -> Forall (treeAt s l) (xs ++ c :: ys) ->
  (length (xs ++ c :: ys) <= 64)%nat -> sub_es old = all_es (xs ++ c :: ys) -> sub_rs old = sub_ref old :: all_rs (xs ++ c :: ys) ->
  Forall (fun e => Offset e < off) (all_es xs) -> Forall (fun e => off < Offset e) (all_es ys) ->
  goes s ps s1 ps1 -> post false l c d off x s ps w s1 ps1 ->
  outcome (if negb (rw_changed w) then treeM_ret _ (unchanged (sub_ref old) (rw_found w))
           else rebuildBranch (sub_ref old) (Z.of_nat (S l)) (replaceChild (childOf <$> (xs ++ c :: ys)) (length xs) w) (rw_found w) root) s1 ps1
    (post root (S l) old d off x s ps).
Proof.
  intros Hl Rw T Hlen Ees Ers H1 H2 G [Hf Hp]. pose proof (g_run _ _ _ _ _ _ _ _ _ G) as R1.
  assert (Em : member off (sub_es old) = member off (sub_es c)) by (rewrite Ees, all_es_app, all_es_cons; by apply member_around).
  assert (Ee : edited d off x (sub_es old) = all_es xs ++ edited d off x (sub_es c) ++ all_es ys) by (rewrite Ees, all_es_app, all_es_cons; by apply edited_around).
  destruct (rw_changed w); cbn [negb].
  2: { destruct Hp as (-> & Hm & _ & Hr & ->). apply outcome_ret; [done|]. split; [by rewrite Em|]. cbn [unchanged rw_changed]. by rewrite Em. }
  destruct Hp as (Hch & subs & Hres & Hes & Hdel & Ch). rewrite (replaceChild_spec xs c ys subs w Hres).
  assert (Eall : all_es (xs ++ subs ++ ys) = edited d off x (sub_es old)) by (by rewrite !all_es_app, Hes, Ee).
  destruct (tree_parts _ _ _ _ _ _ (r_tree _ _ _ _ _ _ _ Rw)) as (Nr & _ & _). pose proof Nr as (_ & _ & _ & _ & _ & _ & Hid & _).
  assert (X : Forall (extent_ok (o_PageSize o) (endOf s)) (all_es (xs ++ subs ++ ys))) by (rewrite Eall; apply (r_extents _ _ _ _ _ _ _ Rw)).
  assert (F : forest s1 ps1 l (ref_LogicalID (sub_ref old)) (endOf s) (xs ++ subs ++ ys)).
  { eapply forest_replaced; try done; [apply (r_ids _ _ _ _ _ _ _ Rw)|apply (r_offsets _ _ _ _ _ _ _ Rw)|apply (r_kept _ _ _ _ _ _ _ Rw)|].
    rewrite Eall. eapply sorted_offsets; [apply (r_extents _ _ _ _ _ _ _ Rw)|apply (r_ends _ _ _ _ _ _ _ Rw)]. }
  destruct Ch as [(new & rt & -> & Hrt & Lrt & Pm) _ (gone & fresh & Pi & Nf & Hfr)].
  assert (Hlen2 : (length (xs ++ subs ++ ys) <= 65)%nat).
  { rewrite !length_app in *. cbn [length] in Hlen. destruct subs as [|? [|? [|? ?]]]; cbn [length] in *; [lia|lia|lia|done]. }
  pose proof (r_retired _ _ _ _ _ _ _ Rw) as Hr16.
  eapply outcome_mono; [apply (rebuild_outcome (sub_ref old) l (endOf s) (xs ++ subs ++ ys) (rw_found w) root s1 (ps ++ new)); try done; [lia|rewrite Hrt, length_app; lia]|].
  intros w' s2 ps2 G2 (E1 & E2 & Rt2 & new2 & subs2 & -> & Hres2 & Hes2 & Pm2 & Hone & (l' & T2 & Hl') & gone2 & fresh2 & Pi2 & Nf2 & Hfr2).
  split; [by rewrite E1, Em|]. rewrite E2. split; [by rewrite Em|]. exists subs2. split; [done|]. split; [by rewrite Hes2, Eall|]. split.
  { intros ->. specialize (Hdel eq_refl). apply Hone. rewrite !length_app in *. cbn [length] in Hlen. lia. }
  split.
  - exists (new ++ new2), (rt ++ [sub_ref old]). rewrite fmap_app, Ers, all_rs_app, all_rs_cons. split; [by rewrite app_assoc|]. split; [by rewrite Rt2, Hrt, app_assoc|].
    split; [rewrite length_app; simpl; lia|]. rewrite Pm2, !all_rs_app.
    transitivity ((all_rs subs ++ rt) ++ all_rs xs ++ all_rs ys ++ (p_ref <$> new2) ++ [sub_ref old]); [solve_Permutation|]. rewrite Pm. solve_Permutation.
  - exists l'. split; [done|]. destruct Hl' as [[-> ?]|(? & -> & ?)]; [by left|by right].
  - exists (gone ++ gone2), (fresh ++ fresh2). rewrite Ers, all_rs_app, all_rs_cons. destruct (g_marks _ _ _ _ _ _ _ _ _ G) as [_ Hn]. split; [|split].
    + rewrite Pm2, !all_rs_app. change (ids (sub_ref old :: all_rs xs ++ sub_rs c ++ all_rs ys)) with (ref_LogicalID (sub_ref old) :: ids (all_rs xs ++ sub_rs c ++ all_rs ys)).
      rewrite !fmap_app.
      transitivity ((ids (all_rs subs) ++ gone) ++ ids (all_rs xs) ++ ids (all_rs ys) ++ (ids (p_ref <$> new2) ++ gone2)); [solve_Permutation|].
      rewrite Pi, Pi2. solve_Permutation.
    + apply NoDup_app. split_and!; [done| |done]. intros i Hi Hi2. rewrite Forall_forall in Hfr. rewrite Forall_forall in Hfr2. specialize (Hfr i Hi). specialize (Hfr2 i Hi2). lia.
    + destruct (g_marks _ _ _ _ _ _ _ _ _ G2) as [_ Hn2]. apply Forall_app. split; [eapply Forall_impl; [exact Hfr|]|eapply Forall_impl; [exact Hfr2|]]; simpl; lia.
Qed.
(** The view a page of the tree opens as, under the marks of the state. *)
Lemma open_marks s ps : run s ps -> endOf s <= maxSuperblockFileOffset -> later_bounds (o_PageSize o) (endOf s) (nextOf s) (endOf s) (nextOf s).
Proof. intros R Hm. destruct (run_end o pool t0 c0 k0 Bg s ps R) as (_ & _ & Ha). unfold later_bounds. split_and!; done || lia. Qed.

(** One level: the page is read, and its child rewritten first. *)
Lemma branch_outcome root l old d off x rec s ps view cs : (l < 10)%nat -> run s ps -> rewritable (S l) old d off x s ps ->
  (0 < length cs <= 64)%nat -> Forall (treeAt s l) cs -> sub_es old = all_es cs -> sub_rs old = sub_ref old :: all_rs cs ->
  fh_Level (v_header view) = Z.of_nat (S l) -> view_Len view = length cs -> (forall rank, ChildAt view rank = Ok (rank_lookup (childOf <$> cs) rank)) ->
  (forall c, rewritable l c d off x s ps -> outcome (rec (sub_ref c)) s ps (post false l c d off x s ps)) ->
  outcome (rewriteFreeTreeBranch rec (sub_ref old) view off d root) s ps (post root (S l) old d off x s ps).
Proof.
  intros Hl R Rw Hc T Ees Ers Hlv Hlen Hat IH. unfold rewriteFreeTreeBranch. rewrite Hlen, (proj2 (Nat.ltb_ge _ _)) by lia.
  rewrite (readChildren_spec _ _ _ 0 Hat), drop_0 by (by rewrite length_fmap).
  eapply outcome_bind; [apply (outcome_lift _ _ _ _ _ _ s ps (fun a s' ps' => a = childOf <$> cs /\ s' = s /\ ps' = ps)); done|].
  intros ? ? ? _ (-> & -> & ->). assert (Ne : Forall (fun c => sub_es c <> []) cs) by (eapply Forall_impl; [exact T|]; intros c Hc'; apply (tree_parts _ _ _ _ _ _ Hc')).
  pose proof (r_order _ _ _ _ _ _ _ Rw) as So. rewrite Ees in So.
  destruct (childRank_spec cs off Ne So) as (rank & Er & Hneg & xs & c & ys & -> & Hrank & H1 & H2); [by destruct cs; [simpl in Hc; lia|]|]. rewrite Er.
  eapply outcome_bind; [apply (outcome_lift _ _ _ _ _ _ s ps (fun a s' ps' => a = rank /\ s' = s /\ ps' = ps)); done|].
  intros ? ? ? _ (-> & -> & ->). destruct ((rank <? 0) && d) eqn:Eg.
  { apply andb_true_iff in Eg as [Eg%Z.ltb_lt ->]. specialize (Hneg Eg). apply outcome_ret; [done|].
    assert (Em : member off (sub_es old) = false) by (rewrite Ees; pose proof (member_around off [] [] (all_es (xs ++ c :: ys))) as M; cbn [app] in M; by apply M).
    split; [by rewrite Em|]. done. }
  rewrite Hrank, list_lookup_fmap, list_lookup_middle by done. cbn [fmap option_fmap option_map default from_option id childOf Ref].
  eapply outcome_bind; [apply IH; by eapply rewritable_child|]. intros w s1 ps1 G Hp. rewrite Hlv.
  eapply branch_rest; try done. lia.
Qed.

Lemma page_outcome l : forall root old d off x fuel s ps, (l < fuel)%nat -> (l <= 10)%nat -> run s ps -> rewritable l old d off x s ps ->
  outcome (rewriteFreeTreePage fuel off x d (mkBounds (endOf s) (nextOf s)) root (sub_ref old)) s ps (post root l old d off x s ps).
Proof.
  induction l as [|l IH]; intros root old d off x [|fuel] s ps Hfu Hl R Rw; [lia| |lia|].
  - pose proof (r_tree _ _ _ _ _ _ _ Rw) as T. cbn [tree] in T. destruct T as (_ & _ & bytes & Hb & _ & _ & Hr).
    cbn [rewriteFreeTreePage fb_FileEnd fb_NextLogicalID]. apply (outcome_lease o pool t0 c0 k0 _ (sub_ref old) bytes); [done|done| |intros; by apply post_cache].
    intros k Hk. pose proof (rewritable_cache _ _ _ _ _ _ _ k Rw Hk) as Rw1. assert (R1 : run (setCache k s) ps) by (by eapply RunCache).
    destruct (proj2 Hr _ _ (open_marks s ps R (r_limit _ _ _ _ _ _ _ Rw))) as (v & Ev & Hlv & Hlen & Hat).
    eapply outcome_bind; [rewrite Ev; apply (outcome_lift _ _ _ _ _ _ _ ps (fun a s' ps' => a = v /\ s' = setCache k s /\ ps' = ps)); done|].
    intros ? ? ? _ (-> & -> & ->). rewrite Hlv. cbn [Z.eqb]. eapply outcome_mono.
    + apply (leaf_outcome root old v d off x (endOf s)); try done; [apply Rw1|apply Rw1|apply Rw1|apply Rw1|apply Rw1|]. pose proof (r_retired _ _ _ _ _ _ _ Rw1). lia.
    + intros w s' ps' _. by apply post_from.
  - pose proof (r_tree _ _ _ _ _ _ _ Rw) as T. cbn [tree] in T. destruct T as (_ & _ & bytes & Hb & cs & Hc & Tc & Hr & Ees & Ers).
    cbn [rewriteFreeTreePage fb_FileEnd fb_NextLogicalID]. apply (outcome_lease o pool t0 c0 k0 _ (sub_ref old) bytes); [done|done| |intros; by apply post_cache].
    intros k Hk. pose proof (rewritable_cache _ _ _ _ _ _ _ k Rw Hk) as Rw1. assert (R1 : run (setCache k s) ps) by (by eapply RunCache).
    destruct (proj2 Hr _ _ (open_marks s ps R (r_limit _ _ _ _ _ _ _ Rw))) as (v & Ev & Hlv & Hlen & Hat). rewrite length_fmap in Hlen.
    eapply outcome_bind; [rewrite Ev; apply (outcome_lift _ _ _ _ _ _ _ ps (fun a s' ps' => a = v /\ s' = setCache k s /\ ps' = ps)); done|].
    intros ? ? ? _ (-> & -> & ->). rewrite Hlv, (proj2 (Z.eqb_neq _ 0)) by lia. eapply outcome_mono.
    + apply (branch_outcome root l old d off x _ _ ps v cs); try done.
      * eapply Forall_impl; [exact Tc|]. intros c Tcc. eapply tree_later; [done|done| |exact Tcc]. intros r b _. apply Hk.
      * intros c Rc. apply (IH false c d off x fuel (setCache k s) ps); [lia|lia|done|done].
    + intros w s' ps' _. by apply post_from.
Qed.
End Mutate.
