(* ===== verification/FreeTreeRefine.v ===== *)
(** * FreeTreeRefine: the free tree implements a sorted list of extents

    The public operations of free_tree.go, [UpsertFreeTree], [DeleteFreeTree] and
    [AppendFreeTreeExtents], against the list of extents the tree stores. *)
From Stdlib Require Import ZArith Lia List Bool Sorted.
From stdpp Require Import base numbers list strings sets sorting.
From S2P Require Import Prelude Leases Bytes Page StateRoot FreeDirectory Superblock Device Committer GroupCommit WriteTx FreeNode FreeTree FreeTreeSteps FreeTreeSpec FreeTreeMutate.

Open Scope Z_scope.

Notation ends_before := (fun a b => extent_end a <= Offset b).

Lemma Forall_filtered {A} (Q R : A -> Prop) `{!forall x, Decision (Q x)} l : Forall R l -> Forall R (filter Q l).
Proof. rewrite !Forall_forall. intros HR x Hx. apply list_elem_of_filter in Hx as [_ Hx]. by apply HR. Qed.

Section Refine.
  Context {K : DirtyCache} {P : PageStore K}.
  Variables (o : WriteTransactionOptions) (pool : list FreeExtent).

(** The tree at [root] stores the extents [es] in the pages [rs]: distinct pages
    that nothing allocated by the transaction overwrites.  The zero reference is
    the empty tree. *)
Inductive stored (ps : list TransactionPage) (k : cache) (fe next : Z) : PageRef -> list FreeExtent -> list PageRef -> Prop :=
| StoredEmpty : stored ps k fe next zeroRef [] []
| StoredTree l root es rs : (l <= 10)%nat -> tree o k fe next l (mkSub root es rs) ->
    NoDup (ref_LogicalID <$> rs) -> NoDup (ref_Offset <$> rs) -> Forall (kept o pool ps) rs ->
    Forall (extent_ok (o_PageSize o) fe) es -> StronglySorted ends_before es -> stored ps k fe next root es rs.

(** What is left after a deletion is again in order. *)
Lemma stored_edit ps k fe next root es rs off : stored ps k fe next root es rs ->
  edited true off zeroExtent es = filter (fun e => Offset e <> off) es /\ Forall (extent_ok (o_PageSize o) fe) (edited true off zeroExtent es) /\
  StronglySorted ends_before (edited true off zeroExtent es).
Proof.
  intros St. assert (H : Forall (extent_ok (o_PageSize o) fe) es /\ StronglySorted ends_before es) by (inversion St; subst; [split; constructor|done]).
  destruct H as [X S]. assert (Ee : edited true off zeroExtent es = filter (fun e => Offset e <> off) es).
  { pose proof (sorted_offsets _ _ _ X S) as So. clear - So. unfold edited. cbn [app]. induction So as [|e es So IH F]; [done|].
    destruct (Z.lt_trichotomy (Offset e) off) as [Lt|[Eq|Gt]].
    - rewrite filter_cons_True, (filter_cons_False (fun e => off < Offset e)), filter_cons_True by lia. cbn [app]. by rewrite IH.
    - rewrite !filter_cons_False by lia. done.
    - rewrite (filter_none (fun e => Offset e < off)), filter_cons_True, filter_cons_True by (lia || (constructor; [lia|]; eapply Forall_impl; [exact F|]; simpl; lia)).
      cbn [app]. f_equal. rewrite !filter_all; [done|eapply Forall_impl; [exact F|]; simpl; lia..]. }
  rewrite Ee. split; [done|]. split; [by apply Forall_filtered|]. clear - S. induction S as [|e es S IH F]; [constructor|]. rewrite filter_cons. case_decide; [|done].
  constructor; [done|]. by apply Forall_filtered.
Qed.

  Variables (t0 : WriteTransaction) (c0 : Committer) (k0 : cache).
  Hypothesis Bg : begun o pool t0 c0.
  Hypothesis Wo : tx_words o.
  Hypothesis Hps : o_PageSize o <= 2 ^ 20.
  Local Notation run := (run t0 c0 k0).
  Local Notation goes := (goes o pool t0 c0 k0).
  Local Notation outcome := (outcome o pool t0 c0 k0).
  Local Notation endOf s := (t_fileEnd (ts_tx s)).
  Local Notation nextOf s := (t_nextID (ts_tx s)).
  Local Notation treeAt s := (tree o (ts_cache s) (endOf s) (nextOf s)).
  Local Notation wideAt s := (wide o (ts_cache s) (endOf s) (nextOf s)).
  Local Notation storedAt s ps := (stored ps (ts_cache s) (endOf s) (nextOf s)).
  Local Notation resource_error := (resource_error o pool t0 c0 k0).

Lemma extents_later ps fe fe' es : fe <= fe' -> Forall (extent_ok ps fe) es -> Forall (extent_ok ps fe') es.
Proof. intros H F. eapply Forall_impl; [exact F|]. intros e [H1 (A & B & C & D & E & G)]. split; [done|]. unfold extent_in_file. split_and!; done || lia. Qed.

(** Later in the same transaction the old tree is still there. *)
Lemma stored_goes s ps s' ps' root es rs : goes s ps s' ps' -> storedAt s ps root es rs -> storedAt s' ps' root es rs.
Proof.
  intros G St. destruct (g_marks _ _ _ _ _ _ _ _ _ G). inversion St as [|l ? ? ? Hl T N1 N2 Kp X S]; subst; [constructor|].
  apply (StoredTree _ _ _ _ l); try done.
  - eapply tree_later; [done|done| |exact T]. intros r b Hr. apply (g_holds _ _ _ _ _ _ _ _ _ G). rewrite Forall_forall in Kp. by apply Kp.
  - eapply Forall_impl; [exact Kp|]. intros r. by eapply goes_kept.
  - by eapply extents_later.
Qed.

(** The pages of the rewritten subtrees are again distinct and kept. *)
Lemma changed_pages root l old subs s ps s' ps' l' : goes s ps s' ps' -> treeAt s l old -> NoDup (ref_LogicalID <$> sub_rs old) ->
  NoDup (ref_Offset <$> sub_rs old) -> Forall (kept o pool ps) (sub_rs old) -> changed o root l old subs s ps s' ps' -> Forall (treeAt s' l') subs ->
  NoDup (ref_LogicalID <$> all_rs subs) /\ NoDup (ref_Offset <$> all_rs subs) /\ Forall (kept o pool ps') (all_rs subs).
Proof.
  intros G T N1 N2 Kp [(new & rt & -> & _ & _ & Pm) _ (gone & fresh & Pi & Nf & Hf)] Ts. split_and!.
  - pose proof (ids_replaced (nextOf s) [] [] (ref_LogicalID <$> sub_rs old) (ref_LogicalID <$> all_rs subs) gone fresh) as Ir. cbn [app] in Ir. rewrite !app_nil_r in Ir.
    apply Ir; try done; [|eapply Forall_impl; [exact Hf|]; simpl; lia]. apply Forall_fmap. eapply Forall_impl; [apply (tree_refs o _ _ _ _ _ T)|]. intros r Hr. apply Hr.
  - pose proof (new_offsets o pool t0 c0 k0 Bg s' ps new _ (g_run _ _ _ _ _ _ _ _ _ G) Kp N2) as No. rewrite <- Pm, fmap_app in No. by apply NoDup_app in No as [No _].
  - apply (new_kept o pool t0 c0 k0 Bg s' ps new l'); [apply (g_run _ _ _ _ _ _ _ _ _ G)|done|]. intros r Hr.
    assert (Hin : r ∈ sub_rs old ++ (p_ref <$> new)) by (rewrite <- Pm; apply elem_of_app; by left). apply elem_of_app in Hin as [Hin|Hin]; [|by right].
    left. rewrite Forall_forall in Kp. by apply Kp.
Qed.

(** What a changed tree stands on: nothing; a leaf or a branch over at least two
    children, for a deletion at the level of the old root; or the child of the
    old root that was left alone. *)
Definition rooted (s s' : tstate) (d : bool) (old new : sub) : Prop :=
  sub_ref new = zeroRef \/ exists l, treeAt s' l new /\ (wideAt s' l (sub_ref new) /\ (d = true -> treeAt s l old) \/ treeAt s (S l) old).

(** What a mutation answers. *)
Definition mutated (s : tstate) (ps : list TransactionPage) (root : PageRef) (es : list FreeExtent) (rs : list PageRef) (d : bool) (off : Z) (x : FreeExtent)
    (r : io_res FreeTreeMutation * tstate) : Prop :=
  match r with
  | (Ok m, s') => exists new rs', goes s ps s' (ps ++ new) /\ storedAt s' (ps ++ new) (m_Root m) (edited d off x es) rs' /\
      rs' ++ m_Retired m ≡ₚ rs ++ (p_ref <$> new) /\ (length (m_Retired m) <= 11)%nat /\
      m_Found m = member off es /\ m_Changed m = negb d || member off es /\
      (m_Changed m = true -> rooted s s' d (mkSub root es rs) (mkSub (m_Root m) (edited d off x es) rs'))
  | (Err e, s') => (exists ps', goes s ps s' ps') /\ (resource_error s ps e \/ d = false /\ e = ErrFreeTreeDepth /\ treeAt s 10 (mkSub root es rs))
  | (OutOfFuel, _) => False
  end.

(** The level of a page: what it was written with, unless the file is full. *)
Lemma level_outcome l a s ps : run s ps -> treeAt s l a ->
  outcome (freeTreePageLevel (sub_ref a)) s ps (fun lv s' ps' => ps' = ps /\ ts_tx s' = ts_tx s /\ ts_retired s' = ts_retired s /\
    (endOf s <= maxSuperblockFileOffset -> lv = Z.of_nat l)).
Proof.
  intros R Ta. assert (Ha : exists bytes, holds (ts_cache s) (sub_ref a) bytes /\ bytes_ok bytes /\
      (endOf s <= maxSuperblockFileOffset -> exists v, OpenFreeDirectoryPage bytes (endOf s) (nextOf s) = Ok v /\ fh_Level (v_header v) = Z.of_nat l)).
  { destruct l as [|l]; cbn [tree] in Ta.
    - destruct Ta as (_ & _ & bytes & Hb & _ & _ & Hy & Hr). exists bytes. split_and!; try done. intros Hm.
      destruct (Hr _ _ (open_marks o pool t0 c0 k0 Bg s ps R Hm)) as (v & Ev & Hv & _). by exists v.
    - destruct Ta as (_ & _ & bytes & Hb & cs & _ & _ & (Hy & Hr) & _). exists bytes. split_and!; try done. intros Hm.
      destruct (Hr _ _ (open_marks o pool t0 c0 k0 Bg s ps R Hm)) as (v & Ev & Hv & _). by exists v. }
  destruct Ha as (bytes & Hb & Hy & Hv). apply (outcome_lease o pool t0 c0 k0 _ _ bytes); [done|done| |done].
  intros k Hk. unfold outcome. cbn [setCache ts_tx]. assert (R1 : run (setCache k s) ps) by (by eapply RunCache).
  assert (Gk : goes (setCache k s) ps (setCache k s) ps) by (by apply goes_refl).
  destruct (OpenFreeDirectoryPage bytes (endOf s) (nextOf s)) as [v|e|] eqn:Ev.
  - exists ps. split; [done|]. split_and!; try done. intros Hm. destruct (Hv Hm) as (v' & [= ->] & H). done.
  - split; [by exists ps|]. destruct (decide (endOf s <= maxSuperblockFileOffset)) as [Hm|Hm]; [by destruct (Hv Hm) as (v' & ? & _)|]. eapply FileFull; [exact Gk|cbn [setCache ts_tx]; lia].
  - by destruct (OpenFree_no_panic bytes (endOf s) (nextOf s) Hy) as [_ N].
Qed.

(** A branch over the two halves: written, or the file is full. *)
Lemma grow_encode l a b lv s0 s ps s1 : run s ps -> goes s ps s1 ps -> ts_tx s1 = ts_tx s -> (endOf s <= maxSuperblockFileOffset -> lv = Z.of_nat l) ->
  (l <= 10)%nat -> lv <> freeTreeMaxLevel -> Forall (treeAt s l) [a; b] -> Forall (extent_ok (o_PageSize o) (endOf s0)) (all_es [a; b]) ->
  StronglySorted ends_before (all_es [a; b]) -> NoDup (ref_LogicalID <$> all_rs [a; b]) -> NoDup (ref_Offset <$> all_rs [a; b]) -> Forall (kept o pool ps) (all_rs [a; b]) ->
  outcome (encodeFreeTreeBranch 0 (lv + 1) (childOf <$> [a; b])) s1 ps (fun p s' ps' => ps' = ps ++ [p] /\ ts_retired s' = ts_retired s1 /\
    (l < 10)%nat /\ took_id s1 s' 0 p /\ treeAt s' (Datatypes.S l) (mkSub (p_ref p) (all_es [a; b]) (p_ref p :: all_rs [a; b])) /\ wideAt s' (Datatypes.S l) (p_ref p)).
Proof.
  intros R G1 Et Hlv Hl Nlv T X S N1 N2 Kp. pose proof (g_run _ _ _ _ _ _ _ _ _ G1) as R1.
  destruct (decide (endOf s <= maxSuperblockFileOffset)) as [Hm|Hm].
  - specialize (Hlv Hm) as ->. assert (Hl9 : (l < 10)%nat) by (unfold freeTreeMaxLevel in Nlv; lia). replace (Z.of_nat l + 1) with (Z.of_nat (Datatypes.S l)) by lia.
    assert (F : forest o pool s1 ps l 0 (endOf s0) [a; b]).
    { apply (forest_goes o pool t0 c0 k0 s ps); [done|]. split; try done; [|by eapply sorted_offsets].
      constructor; [|done]. intros Hin. apply list_elem_of_fmap in Hin as (r & Hr0 & Hr). pose proof (forest_refs o _ _ _ _ _ T) as Rf. rewrite Forall_forall in Rf.
      destruct (Rf r Hr) as (_ & _ & _ & _ & _ & _ & Hid & _). lia. }
    eapply outcome_mono; [apply (write_forest o pool t0 c0 k0 Bg Wo 0 0 l (endOf s0) [a; b] s1 ps R1); [simpl; lia|done|done|by left]|].
    intros p s' ps' _ (-> & H1 & H2 & H3 & H4). split_and!; try done. apply H4. simpl. lia.
  - change (encodeFreeTreeBranch 0 (lv + 1) (childOf <$> [a; b])) with (encodeNode 0 (lv + 1) (fun h dst => EncodeFreeDirectoryBranch dst h (childOf <$> [a; b]))).
    assert (En : forall p fe next dst, new_page o pool s1 ps 0 p fe next -> exists e, EncodeFreeDirectoryBranch dst (nodeHeader o (lv + 1) p) (childOf <$> [a; b]) fe next = Err e /\ maxSuperblockFileOffset < fe).
    { intros p fe next dst N. destruct (n_marks _ _ _ _ _ _ _ _ N) as [M _]. rewrite Et in M. destruct (EncodeBranch_full dst (nodeHeader o (lv + 1) p) (childOf <$> [a; b]) fe next) as [e Ee]; [done|lia|].
      exists e. split; [done|lia]. }
    eapply outcome_mono; [apply (encodeNode_outcome o pool t0 c0 k0 Bg Wo 0 (lv + 1)); [done|]|].
    + intros p fe next N dst _. destruct (En p fe next dst N) as (e & Ee & Hf). left. split; [done|]. by exists e.
    + intros p s' ps' _ (_ & _ & N & dst & bytes & Eb & _). destruct (En p _ _ dst N) as (e & Ee & _). by rewrite Ee in Eb.
Qed.

(** A new root above the two halves of the old one. *)
Lemma grow_outcome l a b w found s ps s0 ps0 root es rs off x new rt : run s ps -> treeAt s0 l (mkSub root es rs) -> (l <= 10)%nat -> goes s0 ps0 s ps -> ps = ps0 ++ new ->
  ts_retired s = rt -> (length rt <= 11)%nat -> all_rs [a; b] ++ rt ≡ₚ rs ++ (p_ref <$> new) -> found = member off es ->
  result_of [a; b] w -> Forall (treeAt s l) [a; b] -> all_es [a; b] = edited false off x es ->
  Forall (extent_ok (o_PageSize o) (endOf s0)) (edited false off x es) -> StronglySorted ends_before (edited false off x es) ->
  NoDup (ref_LogicalID <$> all_rs [a; b]) -> NoDup (ref_Offset <$> all_rs [a; b]) -> Forall (kept o pool ps) (all_rs [a; b]) ->
  mutated s0 ps0 root es rs false off x
    (treeM_bind _ _ (fun level => if level =? freeTreeMaxLevel then lift (Err ErrFreeTreeDepth) else
       treeM_bind _ _ (fun page => treeM_ret _ (mkMutation (p_ref page) rt found true))
         (encodeFreeTreeBranch 0 (level + 1) [mkChild (rw_lower w) (rw_ref w); mkChild (rw_rightLower w) (rw_rightRef w)]))
       (freeTreePageLevel (rw_ref w)) s).
Proof.
  intros R To Hl G0 Eps Ert Lrt Pm Hfound (_ & -> & -> & -> & -> & _) T Ees X S N1 N2 Kp.
  assert (Eq : [mkChild (firstOffset (sub_es a)) (sub_ref a); mkChild (firstOffset (sub_es b)) (sub_ref b)] = childOf <$> [a; b]) by done. rewrite Eq.
  assert (Hfe : endOf s0 <= endOf s) by apply (g_marks _ _ _ _ _ _ _ _ _ G0).
  assert (Go : forall s' ps', goes s ps s' ps' -> exists ps2, goes s0 ps0 s' ps2) by (intros s' ps' G; exists ps'; by eapply goes_trans).
  pose proof (level_outcome l a s ps R (Forall_inv T)) as Hlv.
  unfold outcome in Hlv. unfold treeM_bind. destruct (freeTreePageLevel (sub_ref a) s) as [[lv|e|] s1]; [| |done].
  2: { destruct Hlv as [[ps1 G1] He]. split; [by apply (Go s1 ps1)|left; by eapply error_from]. }
  destruct Hlv as (ps1 & G1 & -> & Et & Er & Hlv). pose proof (g_run _ _ _ _ _ _ _ _ _ G1) as R1.
  destruct (Z.eqb_spec lv freeTreeMaxLevel) as [Elv|Nlv].
  { split; [by apply (Go s1 ps)|]. destruct (decide (endOf s <= maxSuperblockFileOffset)) as [Hm|Hm]; [right|left; eapply FileFull; [exact G0|lia]].
    specialize (Hlv Hm). split_and!; try done. assert (l = 10%nat) as -> by (unfold freeTreeMaxLevel in *; lia). exact To. }
  rewrite <- Ees in X, S. pose proof (grow_encode l a b lv s0 s ps s1 R G1 Et Hlv Hl Nlv T X S N1 N2 Kp) as Ho.
  unfold outcome in Ho. destruct (encodeFreeTreeBranch _ _ _ s1) as [[p|e|] s2]; [| |done].
  2: { destruct Ho as [[ps2 G2] He]. split; [by apply (Go s2 ps2), (goes_trans _ _ _ _ _ _ _ _ _ _ _ G1 G2)|left]. eapply error_from; [|exact He]. by eapply goes_trans. }
  destruct Ho as (ps2 & G2 & -> & E2 & Hl9 & Hid & T2 & Wd). cbn [treeM_ret m_Retired m_Root m_Found m_Changed]. exists (new ++ [p]), (p_ref p :: all_rs [a; b]).
  assert (G02 : goes s0 ps0 s2 (ps ++ [p])) by (eapply goes_trans; [exact G0|]; by eapply goes_trans). rewrite app_assoc, <- Eps.
  pose proof (forest_refs o _ _ _ _ _ T) as Rf. rewrite Forall_forall in Rf. unfold took_id in Hid. cbn [Z.eqb] in Hid. rewrite Et in Hid.
  split; [done|]. split; [|split_and!; [|done|done|done|]].
  - rewrite <- Ees. eapply (StoredTree _ _ _ _ (Datatypes.S l)); [lia|exact T2| | | | |].
    + change (NoDup (ref_LogicalID (p_ref p) :: (ref_LogicalID <$> all_rs [a; b]))). constructor; [|done]. intros Hin. apply list_elem_of_fmap in Hin as (r & Hr0 & Hr).
      destruct (Rf r Hr) as (_ & _ & _ & _ & _ & _ & Hlt & _). lia.
    + pose proof (new_offsets o pool t0 c0 k0 Bg s2 ps [p] _ (g_run _ _ _ _ _ _ _ _ _ G2) Kp N2) as No. rewrite fmap_app, Permutation_app_comm, <- fmap_app in No. exact No.
    + constructor; [split|].
      * destruct (tree_parts _ _ _ _ _ _ T2) as ((_ & _ & _ & _ & Hlen & _) & _). cbn [sub_ref] in Hlen. rewrite Hlen. pose proof (page_size o pool t0 c0 Bg). lia.
      * right. rewrite fmap_app. apply elem_of_app. right. by left.
      * eapply Forall_impl; [exact Kp|]. intros r. apply kept_app.
    + eapply extents_later; [|exact X]. apply (g_marks _ _ _ _ _ _ _ _ _ G02).
    + done.
  - rewrite fmap_app. cbn [app]. rewrite app_assoc, <- Pm. apply Permutation_cons_append.
  - intros _. right. exists (Datatypes.S l). rewrite <- Ees. split; [exact T2|by left].
Qed.
(** The first extent of an empty tree. *)
Lemma plant_outcome x s ps : run s ps -> ts_retired s = [] -> endOf s <= maxSuperblockFileOffset -> extent_ok (o_PageSize o) (endOf s) x ->
  mutated s ps zeroRef [] [] false (Offset x) x
    (treeM_bind _ _ (fun page => treeM_ret _ (mkMutation (p_ref page) [] false true)) (encodeFreeTreeLeaf 0 [x]) s).
Proof.
  intros R Hr Hm Hx. pose proof (page_size o pool t0 c0 Bg) as Hsz.
  assert (Ho : outcome (encodeFreeTreeLeaf 0 [x]) s ps (fun p s' ps' => ps' = ps ++ [p] /\ ts_retired s' = ts_retired s /\ took_id s s' 0 p /\
    treeAt s' 0 (mkSub (p_ref p) [x] [p_ref p]))).
  { apply (write_leaf o pool t0 c0 k0 Bg Wo Hps 0 [x] (endOf s)); try done; [unfold freeTreeLeafFits; apply Z.leb_le; simpl; lia|by apply Forall_singleton|].
    repeat constructor. }
  unfold outcome in Ho. unfold treeM_bind. destruct (encodeFreeTreeLeaf 0 [x] s) as [[p|e|] s1]; [| |done].
  2: { destruct Ho as [G He]. split; [done|by left]. }
  destruct Ho as (ps1 & G & -> & _ & _ & T). exists [p], [p_ref p]. split; [done|].
  split; [|split_and!; [done|simpl; lia|done|done|intros _; right; exists 0%nat; split; [done|left; split; [by left|done]]]]. cbn [m_Root treeM_ret].
  apply (StoredTree _ _ _ _ 0); [lia|done|apply NoDup_singleton|apply NoDup_singleton| | |repeat constructor].
  - apply (new_kept o pool t0 c0 k0 Bg s1 ps [p] 0 [mkSub (p_ref p) [x] [p_ref p]]); [apply (g_run _ _ _ _ _ _ _ _ _ G)|by apply Forall_singleton|]. intros r Hin. by right.
  - apply Forall_singleton. destruct (g_marks _ _ _ _ _ _ _ _ _ G) as [Hmk _]. pose proof (extents_later (o_PageSize o) _ _ [x] Hmk (proj2 (Forall_singleton _ _) Hx)) as F.
    exact (Forall_inv F).
Qed.

Lemma mutate_outcome d off x root es rs fuel s ps : run s ps -> ts_retired s = [] -> storedAt s ps root es rs -> endOf s <= maxSuperblockFileOffset ->
  Forall (extent_ok (o_PageSize o) (endOf s)) (edited d off x es) -> StronglySorted ends_before (edited d off x es) -> (d = false -> Offset x = off) ->
  (10 < fuel)%nat -> mutated s ps root es rs d off x (mutateFreeTree fuel root off x d (mkBounds (endOf s) (nextOf s)) s).
Proof.
  intros R Hr0 St Hm X S Hx Hfu. unfold mutateFreeTree, mbind, mret. unfold treeM_bind at 1, guardMutation. destruct (run_facts o pool t0 c0 k0 Bg s ps R) as (_ & _ & bi & b & Sg).
  destruct (s_batch _ _ _ _ _ Sg) as [_ Ea]. rewrite Ea. assert (Hg : negb true || (negb d && negb (Offset x =? off)) = false).
  { destruct d; [done|]. rewrite (Hx eq_refl), Z.eqb_refl. done. }
  rewrite Hg. clear Hg. inversion St as [|l ? ? ? Hl T N1 N2 Kp Xo So]; subst root es rs.
  { change (isZeroRef zeroRef) with true. cbn match. destruct d.
    - exists [], []. rewrite app_nil_r. split; [by apply goes_refl|]. split; [constructor|]. split_and!; first [done|cbn; lia|by left].
    - specialize (Hx eq_refl) as <-. cbn in X. apply Forall_inv in X. by apply plant_outcome. }
  pose proof (tree_parts _ _ _ _ _ _ T) as (Nr & Ne & _). cbn [sub_ref sub_es sub_rs] in *.
  unfold isZeroRef at 1. rewrite bool_decide_false by (eapply (node_ref_nonzero o pool t0 c0 Bg), Nr).
  set (old := mkSub root0 es0 rs0) in *.
  assert (Rw : rewritable o pool l old d off x s ps).
  { split; try done; [by eapply sorted_offsets|]. rewrite Hr0. simpl. lia. }
  pose proof (page_outcome o pool t0 c0 k0 Bg Wo Hps l true old d off x fuel s ps ltac:(lia) Hl R Rw) as Ho. unfold outcome in Ho. change root0 with (sub_ref old) at 1.
  unfold treeM_bind at 1. destruct (rewriteFreeTreePage _ _ _ _ _ _ _ s) as [[w|e|] s1]; [| |done].
  2: { destruct Ho as [G He]. split; [done|by left]. }
  destruct Ho as (ps1 & G & Hf & Hp). unfold treeM_bind at 1, retired. pose proof (g_run _ _ _ _ _ _ _ _ _ G) as R1.
  destruct (rw_changed w); cbn [negb].
  2: { destruct Hp as (-> & Hmem & _ & Hrt & ->). cbn [old sub_es] in *. rewrite Hr0 in Hrt. exists [], rs0. rewrite app_nil_r, Hrt, Hf, Hmem.
       rewrite edited_absent by (done || by eapply sorted_offsets). split; [done|]. split; [by eapply stored_goes|]. split_and!; first [done|cbn; lia]. }
  destruct Hp as (Hch & subs & Hres & Hes & Hdel & Ch). pose proof Ch as [(new & rt & -> & Hrt & Lrt & Pm) (l' & Ts & Hl') _]. rewrite Hr0 in Hrt. cbn [app] in Hrt.
  destruct (changed_pages true l old subs s ps s1 (ps ++ new) l' G T N1 N2 Kp Ch Ts) as (M1 & M2 & M3). clear Ch.
  cbn [old sub_es sub_rs] in *. pose proof (g_marks _ _ _ _ _ _ _ _ _ G) as [Hend _]. destruct subs as [|a [|b' [|? ?]]]; [| | |done].
  - cbn [result_of] in Hres. rewrite Hres. exists new, []. cbn in Hes. rewrite <- Hes. split; [done|]. split; [constructor|]. rewrite Hrt. split_and!; first [done|cbn; lia|by left].
  - destruct Hres as (-> & -> & _ & ->). unfold isZeroRef. rewrite bool_decide_true by done. exists new, (all_rs [a]). unfold treeM_ret. rewrite Hrt.
    assert (Ea1 : mkSub (sub_ref a) (all_es [a]) (all_rs [a]) = a) by (destruct a; cbn; by rewrite !app_nil_r). apply Forall_inv in Ts as Ta.
    split; [done|]. split; [|split_and!; try first [done|cbn; lia]].
    2: { intros _. right. exists l'. cbn [m_Root]. rewrite <- Hes, Ea1. split; [done|]. destruct Hl' as [[-> Hb]|(_ & -> & _)]; [left|by right].
         split; [by apply (Forall_inv (Hb eq_refl eq_refl))|done]. }
    rewrite <- Hes. apply (StoredTree _ _ _ _ l'); try done; [destruct Hl' as [[-> _]|(_ & -> & _)]; lia|cbn [m_Root]; rewrite Ea1; by apply Forall_inv in Ts| |by rewrite Hes].
    rewrite Hes. by eapply extents_later.
  - pose proof Hres as (He & _ & _ & Hrr & _ & Nz). rewrite He, Hrr. unfold isZeroRef. rewrite bool_decide_false by done. rewrite <- Hrr.
    destruct Hl' as [[-> _]|(_ & _ & ?)]; [|done]. destruct d; [specialize (Hdel eq_refl); simpl in Hdel; lia|].
    rewrite Hrt. apply (grow_outcome l a b' w (rw_found w) s1 (ps ++ new) s ps root0 es0 rs0 off x new rt); try done. lia.
Qed.
End Refine.

(** ** Traversal *)

Section Walk.
  Context {K : DirtyCache} {P : PageStore K}.
  Variables (o : WriteTransactionOptions) (fe next : Z).
  Hypothesis Bounds : later_bounds (o_PageSize o) fe next fe next.

Lemma appendLeaf_spec view es n i dst : (forall rank, ExtentAt view rank = Ok (rank_lookup es rank)) -> (i + n = length es)%nat ->
  Forall (extent_ok (o_PageSize o) fe) (dst ++ drop i es) -> StronglySorted ends_before (dst ++ drop i es) ->
  appendLeaf n i view dst = (None, dst ++ drop i es).
Proof.
  intros R. revert i dst. induction n as [|n IH]; intros i dst Hi X S; cbn [appendLeaf]; [by rewrite drop_ge, app_nil_r by lia|].
  destruct (lookup_lt_is_Some_2 es i ltac:(lia)) as [e He]. rewrite R, rank_lookup_nat, He. cbn [default from_option id].
  rewrite (drop_S es e i He) in *. change (dst ++ e :: drop (Datatypes.S i) es) with (dst ++ [e] ++ drop (Datatypes.S i) es) in *. rewrite app_assoc in *.
  assert (Hp : match last dst with Some previous => Offset e <? wrap64 (Offset previous + Length previous) | None => false end = false).
  { destruct dst as [|y dst' _] using rev_ind; [done|]. rewrite last_snoc. apply Z.ltb_ge. rewrite <- !app_assoc in *. cbn [app] in *.
    apply ends_app in S as [_ S]. apply StronglySorted_inv in S as [_ S]. apply Forall_inv in S. apply Forall_app in X as [_ X]. apply Forall_inv in X as [(W1 & W2 & _) X].
    unfold extent_in_file, extent_end in *. destruct Bounds as (Hm & _). unfold wrap64, word_ok, maxSuperblockFileOffset in *. rewrite Z.mod_small; lia. }
  rewrite Hp. by apply IH; [lia|..].
Qed.

Lemma readChildRefs_spec view cs n i : (forall rank, ChildAt view rank = Ok (rank_lookup cs rank)) -> (i + n = length cs)%nat ->
  readChildRefs n i view = Ok (Ref <$> drop i cs).
Proof.
  intros R. revert i. induction n as [|n IH]; intros i Hi; cbn [readChildRefs]; [by rewrite drop_ge by lia|].
  destruct (lookup_lt_is_Some_2 cs i ltac:(lia)) as [c Hc]. rewrite R, rank_lookup_nat, Hc, !bind_Ok, IH, bind_Ok by lia. by rewrite (drop_S cs c i Hc).
Qed.

(** A page could not be acquired. *)
Definition unreadable (e : io_error) : Prop := exists r k k', Acquire r k = (Err e, k').

(** All of it; or a prefix that fits, when it is too much or a page cannot be
    read. *)
Definition walked (limit : nat) (dst es : list FreeExtent) (k : cache) (r : option io_error * list FreeExtent * cache) : Prop :=
  let '(e, out, k') := r in
  (forall p b, holds k p b -> holds k' p b) /\
  match e with
  | None => (length dst + length es <= limit)%nat /\ out = dst ++ es
  | Some e => (length out <= limit)%nat /\ (exists rest, dst ++ es = out ++ rest) /\
      (e = ErrRetiredExtentCapacity /\ (limit < length dst + length es)%nat \/ unreadable e)
  end.

Lemma walked_children walk limit cs dst k : (length dst <= limit)%nat ->
  Forall (extent_ok (o_PageSize o) fe) (dst ++ all_es cs) -> StronglySorted ends_before (dst ++ all_es cs) ->
  (forall c dst k1, c ∈ cs -> (forall p b, holds k p b -> holds k1 p b) -> (length dst <= limit)%nat -> Forall (extent_ok (o_PageSize o) fe) (dst ++ sub_es c) ->
    StronglySorted ends_before (dst ++ sub_es c) -> walked limit dst (sub_es c) k1 (walk (sub_ref c) dst k1)) ->
  walked limit dst (all_es cs) k (appendChildren walk (sub_ref <$> cs) dst k).
Proof.
  revert dst k. induction cs as [|c cs IH]; intros dst k Hd X S Hw.
  { cbn. rewrite Nat.add_0_r, app_nil_r. done. }
  rewrite all_es_cons in *. rewrite app_assoc in X, S.
  pose proof (Hw c dst k ltac:(by left) ltac:(done) Hd (proj1 (proj1 (Forall_app _ _ _) X)) (proj1 (ends_app _ _ S))) as W.
  cbn [fmap list_fmap appendChildren]. fold (sub_ref <$> cs). destruct (walk (sub_ref c) dst k) as [[[e|] out] k1]; destruct W as [Hk W].
  - split; [done|]. destruct W as (Hl & (rest & Er) & He). rewrite length_app. split; [done|]. split; [|destruct He as [[-> ?]|?]; [left; split; [done|lia]|by right]].
    exists (rest ++ all_es cs). by rewrite app_assoc, Er, <- app_assoc.
  - destruct W as [Hle ->]. specialize (IH (dst ++ sub_es c) k1 ltac:(rewrite length_app; lia) X S).
    assert (W2 : walked limit (dst ++ sub_es c) (all_es cs) k1 (appendChildren walk (sub_ref <$> cs) (dst ++ sub_es c) k1)).
    { apply IH. intros c' d' k2 Hc Hk2. apply Hw; [by right|]. intros p b Hpb. by apply Hk2, Hk. }
    destruct (appendChildren walk (sub_ref <$> cs) (dst ++ sub_es c) k1) as [[e2 out2] k2]. destruct W2 as [Hk2 W2]. split; [intros p b Hpb; by apply Hk2, Hk|].
    rewrite !length_app, app_assoc, Nat.add_assoc in *. done.
Qed.

Lemma page_walked limit l : forall levels s dst k, (l < levels)%nat -> tree o k fe next l s -> (length dst <= limit)%nat ->
  Forall (extent_ok (o_PageSize o) fe) (dst ++ sub_es s) -> StronglySorted ends_before (dst ++ sub_es s) ->
  walked limit dst (sub_es s) k (appendFreeTreePage levels (mkBounds fe next) limit (sub_ref s) dst k).
Proof.
  induction l as [|l IH]; intros [|levels] s dst k Hl T Hd X S; [lia| |lia|]; cbn [tree] in T; destruct T as (_ & _ & bytes & Hb & T);
    cbn [appendFreeTreePage fb_FileEnd fb_NextLogicalID]; destruct (Acquire (sub_ref s) k) as [[page|e|] k1] eqn:Ea;
    try (by destruct (Acquire_answers (sub_ref s) k); rewrite Ea);
    try (split; [intros p b Hpb; by eapply Acquire_frame|]; split; [done|]; split; [by exists (sub_es s)|]; right; by exists (sub_ref s), k, k1);
    pose proof (Acquire_content _ _ _ _ _ Hb Ea) as ->;
    (assert (Hk : forall p b, holds k p b -> holds (Release (sub_ref s) k1) p b) by (intros p b Hpb; by eapply Release_frame, Acquire_frame)).
  - destruct T as (_ & _ & _ & Hr). destruct (Hr _ _ Bounds) as (v & -> & -> & Hlen & Hat). cbn [Z.eqb]. rewrite Hlen.
    destruct (Nat.ltb_spec (limit - length dst) (length (sub_es s))) as [Lt|Ge].
    + split; [done|]. split; [done|]. split; [by exists (sub_es s)|]. left. split; [done|lia].
    + rewrite (appendLeaf_spec v (sub_es s) _ 0 dst Hat eq_refl) by (by rewrite drop_0). rewrite drop_0. split; [done|]. split; [lia|done].
  - destruct T as (cs & Hc & F & (_ & Hr) & Ees & _). destruct (Hr _ _ Bounds) as (v & -> & -> & Hlen & Hat). rewrite (proj2 (Z.eqb_neq _ 0)) by lia.
    rewrite length_fmap in Hlen. rewrite Hlen, (readChildRefs_spec _ _ _ 0 Hat), drop_0 by (by rewrite length_fmap).
    rewrite <- list_fmap_compose. change (Ref ∘ childOf <$> cs) with (sub_ref <$> cs). rewrite Ees in *.
    assert (W : walked limit dst (all_es cs) (Release (sub_ref s) k1) (appendChildren (appendFreeTreePage levels (mkBounds fe next) limit) (sub_ref <$> cs) dst (Release (sub_ref s) k1))).
    { apply walked_children; try done. intros c d k2 Hin Hk2 Hd2 X2 S2. apply IH; try done; [lia|]. rewrite Forall_forall in F. eapply tree_later; [done|done| |by apply F].
      intros r b _ Hrb. by apply Hk2, Hk. }
    destruct (appendChildren _ _ _ _) as [[e out] k2]. destruct W as [Hk2 W]. split; [|done]. intros p b Hpb. by apply Hk2, Hk.
Qed.
End Walk.

(** ** The three operations *)



(** C21: traversal.  [AppendFreeTreeExtents] appends exactly the extents the tree
    stores, in order, and then they fit in the limit; otherwise it answers with a
    prefix that fits and an error: the capacity error, when they do not fit, or
    that of a page that could not be acquired.  No page changes. *)
Theorem AppendFreeTreeExtents_spec {K : DirtyCache} {P : PageStore K} (o : WriteTransactionOptions) (pool : list FreeExtent) (ps : list TransactionPage)
    (k : cache) (fe next : Z) (root : PageRef) (es : list FreeExtent) (rs : list PageRef) (dst : list FreeExtent) (limit : nat) :
  4096 <= o_PageSize o -> later_bounds (o_PageSize o) fe next fe next -> stored o pool ps k fe next root es rs -> (length dst <= limit)%nat ->
  Forall (extent_ok (o_PageSize o) fe) dst -> StronglySorted ends_before (dst ++ es) ->
  let '(e, out, k') := AppendFreeTreeExtents root (mkBounds fe next) dst limit k in
  (forall r b, holds k r b -> holds k' r b) /\
  match e with
  | None => (length dst + length es <= limit)%nat /\ out = dst ++ es
  | Some e => (length out <= limit)%nat /\ (exists rest, dst ++ es = out ++ rest) /\
      (e = ErrRetiredExtentCapacity /\ (limit < length dst + length es)%nat \/ exists r k k', Acquire r k = (Err e, k'))
  end.
Proof.
  intros Hsz Hb St Hd X S. unfold AppendFreeTreeExtents. inversion St as [|l ? ? ? Hl T N1 N2 Kp Xo So]; subst root es rs.
  { change (isZeroRef zeroRef) with true. cbn match. split; [done|]. cbn [length]. rewrite Nat.add_0_r, app_nil_r. done. }
  pose proof (tree_parts _ _ _ _ _ _ T) as ((_ & _ & _ & _ & Hlen & _) & _). cbn [sub_ref] in Hlen.
  assert (Nz : isZeroRef root0 = false) by (apply bool_decide_eq_false; intros ->; cbn in Hlen; lia).
  rewrite Nz, (proj2 (Nat.ltb_ge _ _) Hd). refine (page_walked o fe next Hb limit l _ (mkSub root0 es0 rs0) dst k _ T Hd _ S); [unfold freeTreeMaxLevel; lia|].
  by apply Forall_app.
Qed.

(** ** The limit of a leaf

    Above 2 MiB the size test says that leaves fit that the encoder refuses: the
    count of a leaf has sixteen bits.  Hence the bound on the page size above. *)
Lemma leaf_fits_beyond_count (dst : list Z) (header : FreeDirectoryHeader) (es : list FreeExtent) (fileEnd next pageSize : Z) :
  Z.of_nat (length es) = 65536 -> 2 ^ 21 <= pageSize ->
  freeTreeLeafFits pageSize (length es) = true /\ exists e, EncodeFreeDirectoryLeaf dst header es fileEnd next = Err e.
Proof.
  intros Hn Hp. split; [unfold freeTreeLeafFits; apply Z.leb_le; lia|]. unfold EncodeFreeDirectoryLeaf, validateFreeDirectoryHeader. rewrite Hn.
  case_match; [by eexists|]. change (65535 <? 65536) with true. rewrite orb_true_r. cbn [orb]. by eexists.
Qed.
