(* ===== verification/PageCache.v ===== *)
(** * PageCache: the bounded page cache

    Models internal/storeio/page_cache.go: the fixed arena of slots, the frame
    per slot, the open-addressing table from references to frames, CLOCK
    replacement of whole extents over the buddy allocator of [Blocks], leases,
    and dirty pages.  What a thread does under the lock of one frame is a function
    of its own ([clockStep], [tryPinFrame], [loadFrame], [admitFrame],
    [discardStep], ...), so that [PageCacheThreads] can interleave threads there;
    [loadLocked], [admitLocked], [cache_DiscardDirty] and the others compose them
    as one caller runs them.  A function returns [None] where the Go code would
    panic: an index out of range or the capacity panic of the table.  Hit, miss
    and read counters, and the io_uring prefetch path, are not modelled. *)
From Stdlib Require Import ZArith Lia List Bool.
From stdpp Require Import base numbers list strings.
From S2P Require Import Prelude Bytes Page StateRoot FreeDirectory Superblock Leases Blocks.

Open Scope Z_scope.

(** ** Data *)

Record pageCacheKey := mkKey {
  k_offset : Z; k_logicalID : Z; k_generation : Z; k_length : Z; k_kind : Z; k_flags : Z; k_aux : Z;
}.

#[export] Instance pageCacheKey_eq_dec : EqDecision pageCacheKey.
Proof. solve_decision. Defined.

Definition zeroKey : pageCacheKey := mkKey 0 0 0 0 0 0 0.

Inductive frameState := pageCacheEmpty | pageCacheLoading | pageCacheReady | pageCacheTail.

#[export] Instance frameState_eq_dec : EqDecision frameState.
Proof. solve_decision. Defined.

Record pageCacheFrame := mkFrame {
  fr_key : pageCacheKey;
  fr_dirty : Z;
  fr_payloadLength : Z;
  fr_pins : Z;
  fr_state : frameState;
  fr_referenced : bool;
}.

Definition emptyFrame : pageCacheFrame := mkFrame zeroKey 0 0 0 pageCacheEmpty false.
Definition tailFrame : pageCacheFrame := mkFrame zeroKey 0 0 0 pageCacheTail false.

Definition cacheTableEmpty : Z := 0.
Definition cacheTableTombstone : Z := 2 ^ 32 - 1.
Definition maxPins : Z := 2 ^ 32 - 1.

Record PageCacheOptions := mkCacheOptions {
  po_FrameSize : Z;
  po_Validate : option (list Z -> PageRef -> option io_error);
  po_PageSize : Z;
  po_MaxPageSize : Z;
  po_ResidentBytes : Z;
  po_StoreID : list Z;
  po_PrefetchQueue : Z;
  po_ReadConcurrency : Z;
  po_ReadQueueDepth : Z;
  po_Backend : Z;
}.

Record PageCache := mkCache {
  pc_options : PageCacheOptions;
  pc_arena : list Z;
  pc_frames : list pageCacheFrame;
  pc_table : list Z;
  pc_blocks : Buddy.pageCacheBlocks;
  pc_tombs : Z;
  pc_hand : nat;
  pc_closing : bool;
  pc_closed : bool;
  pc_activeLoads : Z;
}.

Record PageLease := mkLease { l_frame : nat; l_key : pageCacheKey; l_payloadLength : Z; l_page : list Z }.

Definition setArena a c := mkCache (pc_options c) a (pc_frames c) (pc_table c) (pc_blocks c) (pc_tombs c) (pc_hand c) (pc_closing c) (pc_closed c) (pc_activeLoads c).
Definition setFrames f c := mkCache (pc_options c) (pc_arena c) f (pc_table c) (pc_blocks c) (pc_tombs c) (pc_hand c) (pc_closing c) (pc_closed c) (pc_activeLoads c).
Definition setTable t tombs c := mkCache (pc_options c) (pc_arena c) (pc_frames c) t (pc_blocks c) tombs (pc_hand c) (pc_closing c) (pc_closed c) (pc_activeLoads c).
Definition setBlocks b c := mkCache (pc_options c) (pc_arena c) (pc_frames c) (pc_table c) b (pc_tombs c) (pc_hand c) (pc_closing c) (pc_closed c) (pc_activeLoads c).
Definition setHand h c := mkCache (pc_options c) (pc_arena c) (pc_frames c) (pc_table c) (pc_blocks c) (pc_tombs c) h (pc_closing c) (pc_closed c) (pc_activeLoads c).
Definition setLoads n c := mkCache (pc_options c) (pc_arena c) (pc_frames c) (pc_table c) (pc_blocks c) (pc_tombs c) (pc_hand c) (pc_closing c) (pc_closed c) n.
Definition setFlags closing closed c := mkCache (pc_options c) (pc_arena c) (pc_frames c) (pc_table c) (pc_blocks c) (pc_tombs c) (pc_hand c) closing closed (pc_activeLoads c).
Definition setFrame i f c := setFrames (<[i := f]> (pc_frames c)) c.

Definition pageSize (c : PageCache) : Z := po_PageSize (pc_options c).

(** ** Options *)

Definition defaultPrefetchQueue : Z := 64.
Definition defaultReadConcurrency : Z := 4.
Definition maxInt : Z := 2 ^ 63 - 1.
Definition maxDeviceQueueDepth : Z := 32768.

(** Zero sizes take their defaults; [defaultBufferSize] is the device's. *)
Definition defaultPageSize (o : PageCacheOptions) : Z :=
  if po_PageSize o =? 0 then (if negb (po_FrameSize o =? 0) then 4096 else 64 * 1024) else po_PageSize o.

Definition defaultMaxPageSize (o : PageCacheOptions) : Z :=
  if po_MaxPageSize o =? 0 then (if negb (po_FrameSize o =? 0) then po_FrameSize o else defaultPageSize o) else po_MaxPageSize o.

Definition orDefault (v d : Z) : Z := if v =? 0 then d else v.
Definition queueOutside (v : Z) : bool := (v <? 1) || (maxDeviceQueueDepth <? v).

Definition cache_normalized (o : PageCacheOptions) : io_res (PageCacheOptions * Z) :=
  let ps := defaultPageSize o in
  if bool_decide (po_StoreID o = zeroStoreID) || (ps <? 0) || (2 ^ 32 - 1 <? ps) || negb (validPhysicalPageSize ps)
  then Err (ErrPageCacheReference "Store id or page size")
  else if negb (po_MaxPageSize o =? 0) && negb (po_FrameSize o =? 0) && negb (po_MaxPageSize o =? po_FrameSize o)
  then Err (ErrPageCacheReference "conflicting maximum page sizes")
  else
    let maxps := defaultMaxPageSize o in
    if (maxps <? ps) || (2 ^ 32 - 1 <? maxps) || negb (validPhysicalPageSize maxps) || negb (maxps mod ps =? 0)
    then Err (ErrPageCacheReference "maximum page size")
    else if po_ResidentBytes o <? maxps then Err (ErrPageCacheReference "resident budget")
    else
      let slots := po_ResidentBytes o / ps in
      if (slots <=? 0) || (maxInt / ps <? slots) || (maxInt / 2 <? slots) || (cacheTableTombstone - 1 <=? slots)
      then Err (ErrPageCacheReference "resident budget overflows address space")
      else
        let queue := orDefault (po_PrefetchQueue o) defaultPrefetchQueue in
        let reads := orDefault (po_ReadConcurrency o) defaultReadConcurrency in
        let depth := orDefault (po_ReadQueueDepth o) queue in
        if queueOutside queue then Err (ErrPageCacheReference "prefetch queue")
        else if queueOutside reads then Err (ErrPageCacheReference "read concurrency")
        else if queueOutside depth then Err (ErrPageCacheReference "read queue depth")
        else if 2 <? po_Backend o then Err (ErrPageCacheReference "read backend")
        else Ok (mkCacheOptions maxps (po_Validate o) ps maxps (slots * ps) (po_StoreID o) queue reads depth (po_Backend o), slots).

(** The table doubles from two until it holds twice the slots. *)
Fixpoint growTable (fuel : nat) (tableSize want : Z) : Z :=
  match fuel with
  | O => tableSize
  | S fuel => if tableSize <? want then growTable fuel (2 * tableSize) want else tableSize
  end.

Definition NewPageCache (options : PageCacheOptions) : io_res PageCache :=
  '(o, slotCount) ← cache_normalized options;
  match Buddy.newPageCacheBlocks slotCount (po_MaxPageSize o / po_PageSize o) with
  | None => Err Panic
  | Some blocks =>
      Ok (mkCache o (replicate (Z.to_nat (slotCount * po_PageSize o)) 0) (replicate (Z.to_nat slotCount) emptyFrame)
            (replicate (Z.to_nat (growTable 63 2 (slotCount * 2))) cacheTableEmpty) blocks 0 0 false false 0)
  end.

(** ** References *)

Definition DocumentGroupFloat64Sidecar (group : PageRef) (quantum : Z) : io_res (option PageRef) :=
  let flags := ref_Flags group in
  if flags =? 0 then (if negb (ref_Aux group =? 0) then Err ErrDocumentGroupCorrupt else Ok None)
  else if negb (ref_Kind group =? PageDocumentGroup) || negb (validPhysicalPageSize quantum) ||
          negb (Z.ldiff flags documentGroupKnownFlags =? 0) || (Z.land flags DocumentGroupFlagFloat64Sidecar =? 0) || (ref_Aux group =? 0)
  then Err ErrDocumentGroupCorrupt
  else
    let order := Z.shiftr (Z.land flags 0x1e) 1 in
    let length := wrap64 (Z.shiftl quantum order) in
    if 32 <=? order then Err ErrDocumentGroupCorrupt
    else if (2 ^ 32 - 1 <? length) || negb (validPhysicalPageSize length) then Err ErrDocumentGroupCorrupt
    else
      let offsetPages := Z.land (ref_Aux group) 0x7ff in
      let logical := Z.lor (Z.shiftr (ref_Aux group) 11) (Z.shiftl (Z.shiftr (Z.land flags 0xe0) 5) 5) in
      let logicalDelta := logical + 1 in
      let offsetDelta := wrap64 (offsetPages * quantum) in
      if (offsetPages =? 0) || (2 ^ 64 - 1 - ref_Offset group <? offsetDelta) || (2 ^ 64 - 1 - ref_LogicalID group <? logicalDelta)
      then Err ErrDocumentGroupCorrupt
      else Ok (Some (mkPageRef (ref_Offset group + offsetDelta) (ref_LogicalID group + logicalDelta) (ref_Generation group) length PageFloat64Group 0 0)).

Definition variableKind (kind : Z) : bool :=
  (kind =? PageDocument) || (kind =? PageDocumentGroup) || (kind =? PageFloat64Group) || (kind =? PageFloat64Catalog) ||
  (kind =? PageFloat64Stripe) || (kind =? PageIndexGroupCatalog) || (kind =? PageOverflow).

Definition validRouting (ref : PageRef) (ps : Z) : bool :=
  if (ref_Kind ref =? PageDocumentGroup) && negb (Z.land (ref_Flags ref) DocumentGroupFlagFloat64Sidecar =? 0)
  then match DocumentGroupFloat64Sidecar ref ps with Ok (Some _) => true | _ => false end
  else ref_Aux ref =? 0.

Definition keyOf (ref : PageRef) : pageCacheKey :=
  mkKey (ref_Offset ref) (ref_LogicalID ref) (ref_Generation ref) (ref_Length ref) (ref_Kind ref) (ref_Flags ref) (ref_Aux ref).

Definition validateRef (o : PageCacheOptions) (ref : PageRef) : io_res pageCacheKey :=
  let ps := po_PageSize o in
  let length := ref_Length ref in
  if (length <? ps) || (po_MaxPageSize o <? length) || negb (validPhysicalPageSize length) || negb (length mod ps =? 0) ||
     (negb (length =? ps) && negb (variableKind (ref_Kind ref))) ||
     negb (validPageFlags (ref_Kind ref) (ref_Flags ref)) || negb (validRouting ref ps) || negb (validPageKind (ref_Kind ref)) ||
     (ref_LogicalID ref <=? StateRootLogicalID) || (ref_Generation ref =? 0) ||
     (ref_Offset ref <? wrap64 (superblockCopies * ps)) || negb (ref_Offset ref mod ps =? 0) || (2 ^ 63 - 1 - length <? ref_Offset ref)
  then Err (ErrPageCacheReference "offset, identity, kind, or length")
  else Ok (keyOf ref).

Definition cacheKeyHash (key : pageCacheKey) : Z :=
  let x := Z.lxor (Z.lxor (Z.lxor (Z.lxor (Z.shiftr (k_offset key) 12) (wrap64 (k_generation key * 0x9e3779b97f4a7c15)))
             (wrap64 (Z.shiftl (k_kind key) 48))) (wrap64 (Z.shiftl (k_flags key) 56))) (wrap64 (Z.shiftl (k_aux key) 32)) in
  let x := Z.lxor x (Z.shiftr x 30) in
  let x := wrap64 (x * 0xbf58476d1ce4e5b9) in
  Z.lxor x (Z.shiftr x 27).

(** ** The table *)

Definition slotOf (c : PageCache) (hash : Z) (probe : nat) : nat :=
  Z.to_nat (Z.land (wrap64 (hash + Z.of_nat probe)) (Z.of_nat (length (pc_table c)) - 1)).

Fixpoint lookupFrom (fuel probe : nat) (c : PageCache) (hash : Z) (key : pageCacheKey) : option (option nat) :=
  match fuel with
  | O => Some None
  | S fuel =>
      entry ← pc_table c !! slotOf c hash probe;
      if entry =? cacheTableEmpty then Some None
      else if entry =? cacheTableTombstone then lookupFrom fuel (S probe) c hash key
      else
        let index := Z.to_nat (entry - 1) in
        frame ← pc_frames c !! index;
        if bool_decide (fr_key frame = key) then Some (Some index) else lookupFrom fuel (S probe) c hash key
  end.

Definition lookupLocked (hash : Z) (key : pageCacheKey) (c : PageCache) : option (option nat) :=
  lookupFrom (length (pc_table c)) 0 c hash key.

(** The probing loop of [insertLocked]; the table full of live entries panics. *)
Fixpoint insertFrom (fuel probe : nat) (firstTomb : option nat) (hash : Z) (index : nat) (c : PageCache) : option PageCache :=
  match fuel with
  | O =>
      slot ← firstTomb;
      Some (setTable (<[slot := Z.of_nat index + 1]> (pc_table c)) (pc_tombs c - 1) c)
  | S fuel =>
      let slot := slotOf c hash probe in
      entry ← pc_table c !! slot;
      if entry =? cacheTableEmpty then
        match firstTomb with
        | Some first => Some (setTable (<[first := Z.of_nat index + 1]> (pc_table c)) (pc_tombs c - 1) c)
        | None => Some (setTable (<[slot := Z.of_nat index + 1]> (pc_table c)) (pc_tombs c) c)
        end
      else if entry =? cacheTableTombstone then insertFrom fuel (S probe) (Some (default slot firstTomb)) hash index c
      else insertFrom fuel (S probe) firstTomb hash index c
  end.

Definition insertProbe (hash : Z) (index : nat) (c : PageCache) : option PageCache :=
  insertFrom (length (pc_table c)) 0 None hash index c.

Definition live (f : pageCacheFrame) : bool := bool_decide (fr_state f = pageCacheLoading) || bool_decide (fr_state f = pageCacheReady).

(** Reinserts the live frames from [index] on.  The table has no tombstones
    here, so the recursive [insertLocked] of the source does not rebuild again. *)
Fixpoint reinsert (frames : list pageCacheFrame) (index : nat) (c : PageCache) : option PageCache :=
  match frames with
  | [] => Some c
  | f :: frames => c1 ← (if live f then insertProbe (cacheKeyHash (fr_key f)) index c else Some c); reinsert frames (S index) c1
  end.

Definition rebuildTableLocked (c : PageCache) : option PageCache :=
  reinsert (pc_frames c) 0 (setTable (replicate (length (pc_table c)) cacheTableEmpty) 0 c).

Definition insertLocked (hash : Z) (index : nat) (c : PageCache) : option PageCache :=
  c1 ← (if Z.of_nat (length (pc_table c)) / 4 <? pc_tombs c then rebuildTableLocked c else Some c);
  insertProbe hash index c1.

Fixpoint removeFrom (fuel probe : nat) (hash : Z) (key : pageCacheKey) (c : PageCache) : option PageCache :=
  match fuel with
  | O => Some c
  | S fuel =>
      let slot := slotOf c hash probe in
      entry ← pc_table c !! slot;
      if entry =? cacheTableEmpty then Some c
      else if entry =? cacheTableTombstone then removeFrom fuel (S probe) hash key c
      else
        frame ← pc_frames c !! Z.to_nat (entry - 1);
        if bool_decide (fr_key frame = key) then Some (setTable (<[slot := cacheTableTombstone]> (pc_table c)) (pc_tombs c + 1) c)
        else removeFrom fuel (S probe) hash key c
  end.

Definition removeLocked (hash : Z) (key : pageCacheKey) (c : PageCache) : option PageCache :=
  removeFrom (length (pc_table c)) 0 hash key c.

(** ** Extents *)

(** Overwrites the frames of the slots after the head. *)
Fixpoint setTails (n i : nat) (f : pageCacheFrame) (frames : list pageCacheFrame) : option (list pageCacheFrame) :=
  match n with
  | O => Some frames
  | S n => if (i <? length frames)%nat then setTails n (S i) f (<[i := f]> frames) else None
  end.

Definition beginExtentLocked (index : nat) (span : Z) (key : pageCacheKey) (hash : Z) (c : PageCache) : option PageCache :=
  if (index <? length (pc_frames c))%nat then
    frames ← setTails (Z.to_nat (span - 1)) (S index) tailFrame (<[index := mkFrame key 0 0 0 pageCacheLoading false]> (pc_frames c));
    insertLocked hash index (setFrames frames c)
  else None.

Definition resetExtentLocked (index : nat) (c : PageCache) : option PageCache :=
  frame ← pc_frames c !! index;
  c1 ← removeLocked (cacheKeyHash (fr_key frame)) (fr_key frame) c;
  let span := k_length (fr_key frame) / pageSize c in
  let span := if span =? 0 then 1 else span in
  frames ← setTails (Z.to_nat (span - 1)) (S index) emptyFrame (<[index := emptyFrame]> (pc_frames c1));
  blocks ← Buddy.put (Z.of_nat index) span (pc_blocks c1);
  let hand := if (index <? pc_hand c1)%nat && (pc_hand c1 <? index + Z.to_nat span)%nat then index else pc_hand c1 in
  Some (setHand hand (setBlocks blocks (setFrames frames c1))).

Definition extentBytes (index : nat) (length : Z) (c : PageCache) : option (list Z) :=
  let start := (index * Z.to_nat (pageSize c))%nat in
  let stop := (start + Z.to_nat length)%nat in
  if (stop <=? List.length (pc_arena c))%nat then Some (slice (pc_arena c) start stop) else None.

Definition takeSpan (span : Z) (c : PageCache) : option (option nat * PageCache) :=
  r ← Buddy.take span (pc_blocks c);
  Some (match r.1 with Some start => Some (Z.to_nat start) | None => None end, setBlocks r.2 c).

(** One move of the CLOCK hand, under the lock of the frame it points at: a clean
    unpinned extent loses its reference bit or, without one, is evicted. *)
Definition clockStep (c : PageCache) : option (bool * PageCache) :=
  let index := pc_hand c in
  let c := setHand (if (S index =? length (pc_frames c))%nat then 0 else S index)%nat c in
  frame ← pc_frames c !! index;
  if negb (bool_decide (fr_state frame = pageCacheReady)) || negb (fr_dirty frame =? 0) || negb (fr_pins frame =? 0) then Some (false, c)
  else if fr_referenced frame then
    Some (false, setFrame index (mkFrame (fr_key frame) (fr_dirty frame) (fr_payloadLength frame) (fr_pins frame) (fr_state frame) false) c)
  else c1 ← resetExtentLocked index c; Some (true, c1).

(** The loop: after an eviction it tries again to take the span. *)
Fixpoint clock (fuel : nat) (span : Z) (c : PageCache) : option (option nat * PageCache) :=
  match fuel with
  | O => Some (None, c)
  | S fuel =>
      '(evicted, c1) ← clockStep c;
      if evicted : bool then
        '(start, c2) ← takeSpan span c1;
        match start with Some start => Some (Some start, c2) | None => clock fuel span c2 end
      else clock fuel span c1
  end.

Definition reserveLocked (span : Z) (c : PageCache) : option (option nat * PageCache) :=
  '(start, c1) ← takeSpan span c;
  match start with Some start => Some (Some start, c1) | None => clock (length (pc_frames c1) * 2) span c1 end.

(** ** Leases *)

Definition pinned (f : pageCacheFrame) : pageCacheFrame :=
  mkFrame (fr_key f) (fr_dirty f) (fr_payloadLength f) (fr_pins f + 1) (fr_state f) true.

(** Pins the ready frame and reconstructs the view of its extent. *)
Definition pinFrame (index : nat) (frame : pageCacheFrame) (key : pageCacheKey) (c : PageCache) : option (PageLease * PageCache) :=
  page ← extentBytes index (k_length key) c;
  Some (mkLease index key (fr_payloadLength frame) page, setFrame index (pinned frame) c).

(** What [tryPinReady] does under the lock of one frame, whatever led it there. *)
Definition tryPinFrame (index : nat) (key : pageCacheKey) (c : PageCache) : option (option PageLease * PageCache) :=
  frame ← pc_frames c !! index;
  if pc_closing c || negb (bool_decide (fr_state frame = pageCacheReady)) || negb (bool_decide (fr_key frame = key)) || (fr_pins frame =? maxPins)
  then Some (None, c)
  else '(lease, c1) ← pinFrame index frame key c; Some (Some lease, c1).

Fixpoint tryPinFrom (fuel probe : nat) (hash : Z) (key : pageCacheKey) (c : PageCache) : option (option PageLease * PageCache) :=
  match fuel with
  | O => Some (None, c)
  | S fuel =>
      entry ← pc_table c !! slotOf c hash probe;
      if entry =? cacheTableEmpty then Some (None, c)
      else if entry =? cacheTableTombstone then tryPinFrom fuel (S probe) hash key c
      else
        '(lease, c1) ← tryPinFrame (Z.to_nat (entry - 1)) key c;
        match lease with Some lease => Some (Some lease, c1) | None => tryPinFrom fuel (S probe) hash key c1 end
  end.

Definition tryPinReady (hash : Z) (key : pageCacheKey) (c : PageCache) : option (option PageLease * PageCache) :=
  if pc_closing c then Some (None, c) else tryPinFrom (length (pc_table c)) 0 hash key c.

Definition release (index : nat) (key : pageCacheKey) (c : PageCache) : PageCache :=
  match pc_frames c !! index with
  | None => c
  | Some f =>
      if (k_offset (fr_key f) =? k_offset key) && (k_generation (fr_key f) =? k_generation key) && negb (fr_pins f =? 0)
      then setFrame index (mkFrame (fr_key f) (fr_dirty f) (fr_payloadLength f) (fr_pins f - 1) (fr_state f) (fr_referenced f)) c
      else c
  end.

(** ** Loads

    A load is three atomic parts: the critical section that finds or reserves a
    frame, the read into the reserved extent, and the critical section that
    publishes or drops it. *)

Inductive load_step :=
| LoadLease (lease : PageLease)
| LoadBegun (index : nat)
| LoadNone
| LoadWait
| LoadError (e : io_error).

(** The reserved extent becomes the frame of the load. *)
Definition beginLoad (ref : PageRef) (key : pageCacheKey) (hash : Z) (pin : bool) (index : nat) (c : PageCache) : option (load_step * PageCache) :=
  c2 ← beginExtentLocked index (ref_Length ref / pageSize c) key hash c;
  frame ← pc_frames c2 !! index;
  let c3 := setFrame index (mkFrame (fr_key frame) (fr_dirty frame) (fr_payloadLength frame) (fr_pins frame) (fr_state frame) pin) c2 in
  Some (LoadBegun index, setLoads (pc_activeLoads c3 + 1) c3).

(** No span could be reserved. *)
Definition loadFull (prefetch : bool) (c : PageCache) : load_step :=
  if prefetch then LoadNone else if negb (pc_activeLoads c =? 0) then LoadWait else LoadError ErrPageCachePinned.

Definition reserveLoad (ref : PageRef) (key : pageCacheKey) (hash : Z) (pin prefetch : bool) (c : PageCache) : option (load_step * PageCache) :=
  '(start, c1) ← reserveLocked (ref_Length ref / pageSize c) c;
  match start with
  | None => Some (loadFull prefetch c1, c1)
  | Some index => beginLoad ref key hash pin index c1
  end.

(** The frame the lookup found, under its lock; a frame that holds nothing sends
    the load to reserve one. *)
Definition loadFrame (index : nat) (key : pageCacheKey) (pin : bool) (c : PageCache) : option (option load_step * PageCache) :=
  frame ← pc_frames c !! index;
  match fr_state frame with
  | pageCacheLoading => Some (Some (if pin then LoadWait else LoadNone), c)
  | pageCacheReady =>
      if negb pin then Some (Some LoadNone, c)
      else if fr_pins frame =? maxPins then Some (Some (LoadError ErrPageCachePinned), c)
      else '(lease, c1) ← pinFrame index frame key c; Some (Some (LoadLease lease), c1)
  | _ => Some (None, c)
  end.

Definition loadLocked (ref : PageRef) (key : pageCacheKey) (hash : Z) (pin prefetch : bool) (c : PageCache) : option (load_step * PageCache) :=
  if pc_closing c || pc_closed c then Some (LoadError ErrPageCacheClosed, c)
  else
    found ← lookupLocked hash key c;
    match found with
    | None => reserveLoad ref key hash pin prefetch c
    | Some index =>
        '(step, c1) ← loadFrame index key pin c;
        match step with Some step => Some (step, c1) | None => reserveLoad ref key hash pin prefetch c1 end
    end.

Definition headerMatches (o : PageCacheOptions) (header : PageHeader) (ref : PageRef) : bool :=
  bool_decide (ph_StoreID header = po_StoreID o) && (ph_PageSize header =? ref_Length ref) && (ph_LogicalID header =? ref_LogicalID ref) &&
  (ph_Generation header =? ref_Generation ref) && (ph_Kind header =? ref_Kind ref) && (ph_Flags header =? ref_Flags ref).

Definition validateLoadedPage (o : PageCacheOptions) (page : list Z) (ref : PageRef) : io_res PageHeader :=
  '(header, _) ← OpenPage page;
  if negb (headerMatches o header ref) then Err (ErrPageCacheReference "physical page identity does not match reference")
  else match po_Validate o with
  | Some validate => match validate page ref with Some e => Err e | None => Ok header end
  | None => Ok header
  end.

(** [file.ReadAt] into the extent, outside the locks.  A read that fails may
    have delivered some bytes, [arrived], before the error. *)
Definition readInto (file : os_file) (arrived : list Z) (ref : PageRef) (index : nat) (c : PageCache) : io_res unit * PageCache :=
  let deliver bytes := setArena (setBytes (pc_arena c) (index * Z.to_nat (pageSize c)) bytes) c in
  match ReadAt file (Z.to_nat (ref_Offset ref)) (Z.to_nat (ref_Length ref)) with
  | Ok bytes => (if (length bytes =? Z.to_nat (ref_Length ref))%nat then Ok tt else Err EOF, deliver bytes)
  | Err e => (Err e, deliver (take (Z.to_nat (ref_Length ref)) arrived))
  | OutOfFuel => (OutOfFuel, c)
  end.

Definition finishLoad (read : io_res unit) (ref : PageRef) (key : pageCacheKey) (index : nat) (pin : bool) (c : PageCache)
    : option (io_res (option PageLease) * PageCache) :=
  page ← extentBytes index (ref_Length ref) c;
  let c1 := setLoads (pc_activeLoads c - 1) c in
  match (_ ← read; validateLoadedPage (pc_options c) page ref) with
  | Ok header =>
      frame ← pc_frames c1 !! index;
      let f := mkFrame (fr_key frame) (fr_dirty frame) (ph_PayloadLength header) (if pin then 1 else fr_pins frame) pageCacheReady (fr_referenced frame) in
      Some (Ok (if pin then Some (mkLease index key (ph_PayloadLength header) page) else None), setFrame index f c1)
  | Err e => c2 ← resetExtentLocked index c1; Some (Err e, c2)
  | OutOfFuel => Some (OutOfFuel, c1)
  end.

(** What a panic leaves is of no interest. *)
Definition orPanic {A} (r : option (io_res A * PageCache)) (c : PageCache) : io_res A * PageCache := default (Err Panic, c) r.

(** The parts in sequence, as one caller runs them when no other load is in
    flight; a wait for another load has no answer here. *)
Definition load (file : os_file) (ref : PageRef) (pin prefetch : bool) (c : PageCache) : io_res (option PageLease) * PageCache :=
  match validateRef (pc_options c) ref with
  | Err e => (Err e, c)
  | OutOfFuel => (OutOfFuel, c)
  | Ok key =>
      let hash := cacheKeyHash key in
      orPanic (
        '(quick, c1) ← (if pin then tryPinReady hash key c else Some (None, c));
        match quick with
        | Some lease => Some (Ok (Some lease), c1)
        | None =>
            '(step, c2) ← loadLocked ref key hash pin prefetch c1;
            match step with
            | LoadLease lease => Some (Ok (Some lease), c2)
            | LoadNone => Some (Ok None, c2)
            | LoadWait => Some (OutOfFuel, c2)
            | LoadError e => Some (Err e, c2)
            | LoadBegun index => let '(read, c3) := readInto file [] ref index c2 in finishLoad read ref key index pin c3
            end
        end) c
  end.

(** ** Dirty pages *)

Inductive admit_step := AdmitDone | AdmitWait | AdmitError (e : io_error).

(** The frame the lookup found, under its lock. *)
Definition admitFrame (index : nat) (ref : PageRef) (src : list Z) (dirtyGeneration : Z) (c : PageCache) : option (admit_step * PageCache) :=
  frame ← pc_frames c !! index;
  page ← extentBytes index (ref_Length ref) c;
  Some (if negb (bool_decide (fr_state frame = pageCacheReady)) || negb (fr_dirty frame =? dirtyGeneration) || negb (bool_decide (page = src))
        then AdmitError (ErrPageCacheReference "conflicting dirty page") else AdmitDone, c).

(** The reserved extent becomes a ready dirty frame. *)
Definition beginDirty (ref : PageRef) (key : pageCacheKey) (src : list Z) (payloadLength dirtyGeneration : Z) (index : nat) (c : PageCache)
    : option (admit_step * PageCache) :=
  c2 ← beginExtentLocked index (ref_Length ref / pageSize c) key (cacheKeyHash key) c;
  _ ← extentBytes index (ref_Length ref) c2;
  let c3 := setArena (setBytes (pc_arena c2) (index * Z.to_nat (pageSize c2)) src) c2 in
  Some (AdmitDone, setFrame index (mkFrame key dirtyGeneration payloadLength 0 pageCacheReady true) c3).

(** No span could be reserved. *)
Definition admitFull (c : PageCache) : admit_step := if pc_activeLoads c =? 0 then AdmitError ErrPageCachePinned else AdmitWait.

(** One round of [AdmitDirty] once the arguments are checked; [AdmitWait] is the
    wait for a load in flight. *)
Definition admitLocked (ref : PageRef) (key : pageCacheKey) (src : list Z) (payloadLength dirtyGeneration : Z) (c : PageCache)
    : option (admit_step * PageCache) :=
  if pc_closing c || pc_closed c then Some (AdmitError ErrPageCacheClosed, c)
  else
    found ← lookupLocked (cacheKeyHash key) key c;
    match found with
    | Some index => admitFrame index ref src dirtyGeneration c
    | None =>
        '(start, c1) ← reserveLocked (ref_Length ref / pageSize c) c;
        match start with
        | None => Some (admitFull c1, c1)
        | Some index => beginDirty ref key src payloadLength dirtyGeneration index c1
        end
    end.

Definition checkDirty (o : PageCacheOptions) (ref : PageRef) (src : list Z) (dirtyGeneration : Z) : io_res (pageCacheKey * list Z * Z) :=
  match validateRef o ref with
  | Ok key =>
      if (dirtyGeneration =? 0) || (dirtyGeneration <? ref_Generation ref) || (Z.of_nat (length src) <? ref_Length ref)
      then Err (ErrPageCacheReference "dirty page reference, generation, or bytes")
      else
        let src := take (Z.to_nat (ref_Length ref)) src in
        '(header, _) ← OpenPage src;
        if negb (headerMatches o header ref) then Err (ErrPageCacheReference "dirty page identity does not match reference")
        else Ok (key, src, ph_PayloadLength header)
  | Err _ => Err (ErrPageCacheReference "dirty page reference, generation, or bytes")
  | OutOfFuel => OutOfFuel
  end.

(** One round, as a single caller runs it.  [AdmitWait], where the source waits
    for a load in flight, has no answer here and is given that of a full cache; it
    does not occur when no load is in flight, and [PageCacheThreads] models the
    wait. *)
Definition cache_AdmitDirty (ref : PageRef) (src : list Z) (dirtyGeneration : Z) (c : PageCache) : option io_error * PageCache :=
  match checkDirty (pc_options c) ref src dirtyGeneration with
  | Err e => (Some e, c)
  | OutOfFuel => (Some Panic, c)
  | Ok (key, src, payloadLength) =>
      match admitLocked ref key src payloadLength dirtyGeneration c with
      | None => (Some Panic, c)
      | Some (AdmitDone, c1) => (None, c1)
      | Some (AdmitWait, c1) => (Some ErrPageCachePinned, c1)
      | Some (AdmitError e, c1) => (Some e, c1)
      end
  end.

(** What [MarkDurable] does to one frame. *)
Definition durable (generation : Z) (f : pageCacheFrame) : pageCacheFrame :=
  if negb (bool_decide (fr_state f = pageCacheTail)) && negb (fr_dirty f =? 0) && (fr_dirty f <=? generation)
  then mkFrame (fr_key f) 0 (fr_payloadLength f) (fr_pins f) (fr_state f) (fr_referenced f) else f.

Definition MarkDurable (generation : Z) (c : PageCache) : PageCache := setFrames (durable generation <$> pc_frames c) c.

(** The first loop of [DiscardDirty] stops at such a frame. *)
Definition pinnedDirty (generation : Z) (f : pageCacheFrame) : bool :=
  negb (bool_decide (fr_state f = pageCacheTail)) && (fr_dirty f =? generation) && negb (fr_pins f =? 0).

(** The second loop at slot [i], which does not look at the pins again. *)
Definition discardStep (i : nat) (generation : Z) (c : PageCache) : option PageCache :=
  frame ← pc_frames c !! i;
  if negb (bool_decide (fr_state frame = pageCacheTail)) && (fr_dirty frame =? generation) then resetExtentLocked i c else Some c.

(** The second loop of [DiscardDirty], from slot [i] on. *)
Fixpoint discardFrom (n i : nat) (generation : Z) (c : PageCache) : option PageCache :=
  match n with
  | O => Some c
  | S n => c1 ← discardStep i generation c; discardFrom n (S i) generation c1
  end.

Definition cache_DiscardDirty (generation : Z) (c : PageCache) : option io_error * PageCache :=
  if existsb (pinnedDirty generation) (pc_frames c) then (Some ErrPageCachePinned, c)
  else match discardFrom (length (pc_frames c)) 0 generation c with Some c1 => (None, c1) | None => (Some Panic, c) end.

Definition Invalidate (ref : PageRef) (c : PageCache) : option (bool * PageCache) :=
  match validateRef (pc_options c) ref with
  | Ok key =>
      found ← lookupLocked (cacheKeyHash key) key c;
      match found with
      | None => Some (false, c)
      | Some index =>
          frame ← pc_frames c !! index;
          if bool_decide (fr_state frame = pageCacheLoading) || negb (fr_dirty frame =? 0) || negb (fr_pins frame =? 0) then Some (false, c)
          else c1 ← resetExtentLocked index c; Some (true, c1)
      end
  | _ => Some (false, c)
  end.

(** The loop of [Close] stops at such a frame. *)
Definition pinnedFrame (f : pageCacheFrame) : bool := negb (bool_decide (fr_state f = pageCacheTail)) && negb (fr_pins f =? 0).

(** [Close] once no load is in flight. *)
Definition cache_Close (c : PageCache) : option io_error * PageCache :=
  let c := setFlags true (pc_closed c) c in
  if pc_closed c then (None, c)
  else if existsb pinnedFrame (pc_frames c) then (Some ErrPageCachePinned, c)
  else
    (None, setFlags true true (setTable (replicate (length (pc_table c)) cacheTableEmpty) 0
             (setFrames (replicate (length (pc_frames c)) emptyFrame) (setArena [] c)))).
