(* ===== verification/PageCacheTable.v ===== *)
(** * PageCacheTable: the lookup table of the page cache

    The open-addressing table of [PageCache] finds exactly the live frames, with
    at most one entry more than there are live frames.  That one entry is real:
    a frame whose insertion rebuilds the table is inserted twice. *)
From Stdlib Require Import ZArith Lia List Bool.
From stdpp Require Import base numbers list strings.
From S2P Require Import Prelude Bytes Page StateRoot FreeDirectory Superblock Leases Blocks PageCache.

Open Scope Z_scope.

(** ** Probe sequences *)

Definition slot (L : nat) (hash : Z) (p : nat) : nat := Z.to_nat (Z.land (wrap64 (hash + Z.of_nat p)) (Z.of_nat L - 1)).

Definition pow2 (L : nat) : Prop := exists m, (m <= 64)%nat /\ Z.of_nat L = 2 ^ Z.of_nat m.

Lemma slot_mod L hash p : pow2 L -> slot L hash p = Z.to_nat ((hash + Z.of_nat p) mod Z.of_nat L).
Proof.
  unfold slot, wrap64. intros (m & Hm & ->). replace (2 ^ Z.of_nat m - 1) with (Z.ones (Z.of_nat m)) by (rewrite Z.ones_equiv; lia).
  rewrite Z.land_ones by lia. f_equal. replace (2 ^ 64) with (2 ^ Z.of_nat m * 2 ^ (64 - Z.of_nat m)) by (rewrite <- Z.pow_add_r by lia; f_equal; lia).
  rewrite Z.rem_mul_r, Z.mul_comm, Z_mod_plus_full, Z.mod_mod by lia. done.
Qed.

Lemma pow2_pos L : pow2 L -> (0 < L)%nat.
Proof. intros (m & _ & H). lia. Qed.

Lemma slot_lt L hash p : pow2 L -> (slot L hash p < L)%nat.
Proof. intros H. pose proof (pow2_pos _ H). rewrite slot_mod by done. pose proof (Z.mod_pos_bound (hash + Z.of_nat p) (Z.of_nat L)). lia. Qed.

Lemma slotOf_slot c hash p : slotOf c hash p = slot (length (pc_table c)) hash p.
Proof. reflexivity. Qed.

(** A full round of probes meets every slot. *)
Lemma slot_onto L hash s : pow2 L -> (s < L)%nat -> exists p, (p < L)%nat /\ slot L hash p = s.
Proof.
  intros H Hs. pose proof (Z.mod_pos_bound (Z.of_nat s - hash) (Z.of_nat L) ltac:(lia)) as B.
  exists (Z.to_nat ((Z.of_nat s - hash) mod Z.of_nat L)). split; [lia|]. rewrite slot_mod by done. rewrite Z2Nat.id by lia.
  rewrite Zplus_mod_idemp_r. replace (hash + (Z.of_nat s - hash)) with (Z.of_nat s) by lia. rewrite Z.mod_small by lia. lia.
Qed.

(** ** The table against the live frames

    The live frames as a list: the key of a frame that is loading or ready. *)

Definition liveKey (f : pageCacheFrame) : option pageCacheKey := if live f then Some (fr_key f) else None.
Notation liveKeys c := (liveKey <$> pc_frames c).

Definition isEntry (e : Z) : bool := negb (e =? cacheTableEmpty) && negb (e =? cacheTableTombstone).
Definition vacant (e : Z) : Prop := e = cacheTableEmpty \/ e = cacheTableTombstone.

Definition countOf {A} (P : A -> bool) (l : list A) : nat := length (List.filter P l).
Definition isTomb (e : Z) : bool := e =? cacheTableTombstone.
Definition isSome {A} (x : option A) : bool := match x with Some _ => true | None => false end.

(** Probing for [hash] meets the entry of frame [i] before an empty slot. *)
Definition reaches (table : list Z) (hash : Z) (i : nat) : Prop :=
  exists p, (p < length table)%nat /\ table !! slot (length table) hash p = Some (Z.of_nat i + 1) /\
    forall q, (q < p)%nat -> table !! slot (length table) hash q <> Some cacheTableEmpty.

Record table_shape (n : nat) (table : list Z) (tombs : Z) : Prop := {
  t_pow : pow2 (length table);
  t_room : (2 * n <= length table)%nat;
  t_small : (0 < n)%nat /\ Z.of_nat n < cacheTableTombstone - 1;
  t_range : Forall (fun e => vacant e \/ 1 <= e <= Z.of_nat n) table;
  t_tombs : tombs = Z.of_nat (countOf isTomb table);
}.

Record table_ok (lv : list (option pageCacheKey)) (table : list Z) (tombs : Z) : Prop := {
  t_shape : table_shape (length lv) table tombs;
  t_find : forall i k, lv !! i = Some (Some k) -> reaches table (cacheKeyHash k) i;
  t_count : (countOf isEntry table <= countOf isSome lv + 1)%nat;
}.

(** ** Counting *)

Lemma countOf_le {A} (P : A -> bool) l : (countOf P l <= length l)%nat.
Proof. unfold countOf. induction l as [|x l IH]; simpl; [done|]. destruct (P x); simpl; lia. Qed.

Lemma countOf_app {A} (P : A -> bool) l1 l2 : countOf P (l1 ++ l2) = (countOf P l1 + countOf P l2)%nat.
Proof. unfold countOf. by rewrite List.filter_app, length_app. Qed.

Lemma countOf_insert {A} (P : A -> bool) l i x y : l !! i = Some x ->
  (countOf P (<[i := y]> l) + (if P x then 1 else 0) = countOf P l + (if P y then 1 else 0))%nat.
Proof.
  intros H. rewrite (insert_take_drop l i y) by (by eapply lookup_lt_Some). replace (countOf P l) with (countOf P (take i l ++ x :: drop (S i) l)) by (by rewrite take_drop_middle).
  rewrite !countOf_app. unfold countOf. simpl. destruct (P x), (P y); simpl; lia.
Qed.

Lemma countOf_all {A} (P : A -> bool) l : Forall (fun x => P x = true) l -> countOf P l = length l.
Proof. unfold countOf. induction 1 as [|x l E _ IH]; simpl; [done|]. rewrite E. simpl. by rewrite IH. Qed.

Lemma countOf_none {A} (P : A -> bool) l : Forall (fun x => P x = false) l -> countOf P l = O.
Proof. unfold countOf. induction 1 as [|x l E _ IH]; simpl; [done|]. by rewrite E. Qed.

Lemma isEntry_vacant e : isEntry e = false <-> vacant e.
Proof. unfold isEntry, vacant. destruct (Z.eqb_spec e cacheTableEmpty), (Z.eqb_spec e cacheTableTombstone); simpl; naive_solver. Qed.

Lemma vacant_slot table : (countOf isEntry table < length table)%nat -> exists s e, table !! s = Some e /\ vacant e.
Proof.
  intros H. destruct (decide (Exists (fun e => isEntry e = false) table)) as [Hx|Hx].
  - apply Exists_exists in Hx as (e & He & Hv). apply list_elem_of_lookup in He as [s Hs]. exists s, e. split; [done|]. by apply isEntry_vacant.
  - apply not_Exists_Forall in Hx; [|apply _]. rewrite countOf_all in H; [lia|]. eapply Forall_impl; [exact Hx|]. simpl. intros e He. by destruct (isEntry e).
Qed.

(** ** Lookup *)

Section Lookup.
  Context (c : PageCache) (key : pageCacheKey).
  Hypothesis T : table_ok (liveKeys c) (pc_table c) (pc_tombs c).
  Local Notation hash := (cacheKeyHash key).
  Local Notation L := (length (pc_table c)).
  (** A frame that is not live has not this key. *)
  Hypothesis Dead : forall i f, pc_frames c !! i = Some f -> fr_key f = key -> live f = true.

Lemma entry_frame s e : pc_table c !! s = Some e -> isEntry e = true -> exists f, pc_frames c !! Z.to_nat (e - 1) = Some f /\ e = Z.of_nat (Z.to_nat (e - 1)) + 1.
Proof.
  intros He Hi. destruct T as [[_ _ _ R _] _ _]. rewrite Forall_lookup in R. destruct (R _ _ He) as [V|V].
  - apply isEntry_vacant in V. congruence.
  - rewrite length_fmap in V. destruct (lookup_lt_is_Some_2 (pc_frames c) (Z.to_nat (e - 1))) as [f Hf]; [lia|]. exists f. split; [done|lia].
Qed.

(** What the probes before [p] met: entries that are not this key's. *)
Definition passed (p : nat) : Prop := forall q, (q < p)%nat -> exists e, pc_table c !! slot L hash q = Some e /\ e <> cacheTableEmpty /\
  (isEntry e = true -> forall f, pc_frames c !! Z.to_nat (e - 1) = Some f -> fr_key f <> key).

Lemma passed_0 : passed 0.
Proof. intros q Hq. lia. Qed.

Lemma passed_S p e : passed p -> pc_table c !! slot L hash p = Some e -> e <> cacheTableEmpty ->
  (isEntry e = true -> forall f, pc_frames c !! Z.to_nat (e - 1) = Some f -> fr_key f <> key) -> passed (S p).
Proof. intros Hp He Hn Hf q Hq. destruct (decide (q = p)) as [->|]; [by exists e|]. apply Hp. lia. Qed.

(** Nothing is missed: when the probes end, no frame has the key. *)
Lemma passed_absent p : passed p -> (L <= p)%nat \/ pc_table c !! slot L hash p = Some cacheTableEmpty ->
  forall i f, pc_frames c !! i = Some f -> fr_key f <> key.
Proof.
  intros Hp Hend i f Hf Hk. assert (Hl : (liveKeys c) !! i = Some (Some key)).
  { rewrite list_lookup_fmap, Hf. simpl. unfold liveKey. by rewrite (Dead i f Hf Hk), Hk. }
  destruct (t_find _ _ _ T i key Hl) as (p' & Hlt & He & Hz). destruct (decide (p' < p)%nat) as [Lt|Ge].
  - destruct (Hp p' Lt) as (e & He' & _ & Hne). rewrite He in He'. injection He' as <-. apply (Hne) with f; [|by rewrite Z.add_simpl_r, Nat2Z.id|done].
    destruct (isEntry (Z.of_nat i + 1)) eqn:E; [done|]. apply isEntry_vacant in E. apply lookup_lt_Some in Hf.
    destruct T as [[_ _ S _ _] _ _]. rewrite length_fmap in S. unfold vacant, cacheTableEmpty in E. lia.
  - destruct Hend as [H|H]; [lia|]. destruct (decide (p' = p)) as [->|]; [|apply (Hz p); [lia|done]].
    rewrite He in H. injection H as H. unfold cacheTableEmpty in H. lia.
Qed.

Lemma lookupFrom_spec fuel p : (p + fuel = L)%nat -> passed p ->
  (exists i f, lookupFrom fuel p c hash key = Some (Some i) /\ pc_frames c !! i = Some f /\ fr_key f = key /\ live f = true) \/
  (lookupFrom fuel p c hash key = Some None /\ forall i f, pc_frames c !! i = Some f -> fr_key f <> key).
Proof.
  revert p. induction fuel as [|fuel IH]; intros p Hp P; cbn [lookupFrom].
  { right. split; [done|]. apply (passed_absent p); [done|left; lia]. }
  pose proof (t_pow _ _ _ (t_shape _ _ _ T)) as Pw. rewrite (slotOf_slot c hash p).
  destruct (lookup_lt_is_Some_2 (pc_table c) (slot L hash p) ltac:(by apply slot_lt)) as [e He]. rewrite He. cbn [mbind option_bind].
  destruct (Z.eqb_spec e cacheTableEmpty) as [->|N0].
  { right. split; [done|]. apply (passed_absent p); [done|by right]. }
  destruct (Z.eqb_spec e cacheTableTombstone) as [->|Nt].
  { apply IH; [lia|]. eapply passed_S; [done..|]. done. }
  assert (Ei : isEntry e = true) by (unfold isEntry; by rewrite !(proj2 (Z.eqb_neq _ _))).
  destruct (entry_frame _ _ He Ei) as (f & Hf & _). rewrite Hf. cbn [mbind option_bind]. case_bool_decide as Hk.
  - left. exists (Z.to_nat (e - 1)), f. split_and!; try done. by eapply Dead.
  - apply IH; [lia|]. eapply passed_S; [done..|]. intros _ f' Hf'. congruence.
Qed.

Lemma lookupLocked_spec :
  (exists i f, lookupLocked hash key c = Some (Some i) /\ pc_frames c !! i = Some f /\ fr_key f = key /\ live f = true) \/
  (lookupLocked hash key c = Some None /\ forall i f, pc_frames c !! i = Some f -> fr_key f <> key).
Proof. apply lookupFrom_spec; [lia|apply passed_0]. Qed.

End Lookup.

(** ** Removal *)

Lemma reaches_other table s e hash i : reaches table hash i -> e <> cacheTableEmpty -> table !! s <> Some (Z.of_nat i + 1) -> reaches (<[s := e]> table) hash i.
Proof.
  intros (p & Hp & He & Hq) Ne Ns. exists p. rewrite length_insert. split; [done|]. split.
  - rewrite list_lookup_insert_ne; [done|]. intros ->. congruence.
  - intros q Hlt. rewrite list_lookup_insert. case_decide as D; [congruence|by apply Hq].
Qed.

Lemma shape_insert n table tombs s x e : table_shape n table tombs -> table !! s = Some x -> (vacant e \/ 1 <= e <= Z.of_nat n) ->
  table_shape n (<[s := e]> table) (tombs - (if isTomb x then 1 else 0) + (if isTomb e then 1 else 0)).
Proof.
  intros [P R S G T] Hx He. split; rewrite ?length_insert; try done; [by apply Forall_insert|].
  pose proof (countOf_insert isTomb table s x e Hx). rewrite T. destruct (isTomb x), (isTomb e); lia.
Qed.

Lemma count_entry table s x e : table !! s = Some x ->
  (countOf isEntry (<[s := e]> table) + (if isEntry x then 1 else 0) = countOf isEntry table + (if isEntry e then 1 else 0))%nat.
Proof. apply countOf_insert. Qed.

Section Remove.
  Context (c : PageCache) (key : pageCacheKey) (i : nat) (f : pageCacheFrame).
  Hypothesis T : table_ok (liveKeys c) (pc_table c) (pc_tombs c).
  Hypothesis Dead : forall i f, pc_frames c !! i = Some f -> fr_key f = key -> live f = true.
  Hypothesis Here : pc_frames c !! i = Some f /\ fr_key f = key.
  Hypothesis Only : forall j f', pc_frames c !! j = Some f' -> fr_key f' = key -> j = i.
  Local Notation hash := (cacheKeyHash key).
  Local Notation L := (length (pc_table c)).

Lemma removeFrom_spec fuel p : (p + fuel = L)%nat -> passed c key p ->
  exists s, pc_table c !! s = Some (Z.of_nat i + 1) /\ removeFrom fuel p hash key c = Some (setTable (<[s := cacheTableTombstone]> (pc_table c)) (pc_tombs c + 1) c).
Proof.
  revert p. induction fuel as [|fuel IH]; intros p Hp P; cbn [removeFrom].
  { exfalso. destruct Here as [Hf Hk]. by eapply (passed_absent c key T Dead p P); [left; lia|..]. }
  pose proof (t_pow _ _ _ (t_shape _ _ _ T)) as Pw. rewrite (slotOf_slot c hash p).
  destruct (lookup_lt_is_Some_2 (pc_table c) (slot L hash p) ltac:(by apply slot_lt)) as [e He]. rewrite He. cbn [mbind option_bind].
  destruct (Z.eqb_spec e cacheTableEmpty) as [->|N0].
  { exfalso. destruct Here as [Hf Hk]. by eapply (passed_absent c key T Dead p P); [right|..]. }
  destruct (Z.eqb_spec e cacheTableTombstone) as [->|Nt].
  { apply IH; [lia|]. eapply passed_S; [done..|]. done. }
  assert (Ei : isEntry e = true) by (unfold isEntry; by rewrite !(proj2 (Z.eqb_neq _ _))).
  destruct (entry_frame c T _ _ He Ei) as (f' & Hf' & Ee). rewrite Hf'. cbn [mbind option_bind]. case_bool_decide as Hk.
  - exists (slot L hash p). split; [|done]. rewrite He, Ee. by rewrite (Only _ _ Hf' Hk).
  - apply IH; [lia|]. eapply passed_S; [done..|]. intros _ f'' Hf''. congruence.
Qed.

Lemma removeLocked_spec : exists table, removeLocked hash key c = Some (setTable table (pc_tombs c + 1) c) /\
  table_ok (<[i := None]> (liveKeys c)) table (pc_tombs c + 1).
Proof.
  destruct (removeFrom_spec L 0 ltac:(lia) (passed_0 c key)) as (s & Hs & E). exists (<[s := cacheTableTombstone]> (pc_table c)). split; [exact E|].
  destruct Here as [Hf Hk]. assert (Hl : live f = true) by (by eapply Dead). pose proof (lookup_lt_Some _ _ _ Hf) as Hi.
  assert (Hlv : (liveKeys c) !! i = Some (Some key)) by (rewrite list_lookup_fmap, Hf; simpl; unfold liveKey; by rewrite Hl, Hk).
  destruct T as [S F C]. pose proof (t_small _ _ _ S) as Sm. rewrite length_fmap in Sm.
  assert (Ei : isEntry (Z.of_nat i + 1) = true) by (unfold isEntry, cacheTableEmpty; rewrite !(proj2 (Z.eqb_neq _ _)) by lia; done).
  assert (Et : isTomb (Z.of_nat i + 1) = false) by (unfold isTomb; apply Z.eqb_neq; lia).
  split.
  - rewrite length_insert. pose proof (shape_insert _ _ _ _ _ cacheTableTombstone S Hs ltac:(by left; right)) as Sh. rewrite Et in Sh.
    change (isTomb cacheTableTombstone) with true in Sh. by rewrite Z.sub_0_r in Sh.
  - intros j k Hj. destruct (decide (j = i)) as [->|N]; [rewrite list_lookup_insert_eq in Hj by (by rewrite length_fmap); done|].
    rewrite list_lookup_insert_ne in Hj by done. apply reaches_other; [by apply F|done|]. rewrite Hs. intros [= H]. lia.
  - pose proof (count_entry _ _ _ cacheTableTombstone Hs) as Ce. rewrite Ei in Ce. change (isEntry cacheTableTombstone) with false in Ce.
    pose proof (countOf_insert isSome _ _ _ None Hlv) as Cl. cbn [isSome] in Cl, Ce. lia.
Qed.
End Remove.

(** ** Insertion *)

(** The first vacant slot of a probe sequence, or a tombstone before it. *)
Definition probed (table : list Z) (hash : Z) (p : nat) (tomb : option nat) : Prop :=
  match tomb with
  | Some s => exists q, (q < p)%nat /\ s = slot (length table) hash q /\ table !! s = Some cacheTableTombstone
  | None => forall q, (q < p)%nat -> exists e, table !! slot (length table) hash q = Some e /\ isEntry e = true
  end /\ forall q, (q < p)%nat -> table !! slot (length table) hash q <> Some cacheTableEmpty.

Lemma reaches_inserted table hash i s q : (q < length table)%nat -> s = slot (length table) hash q -> (s < length table)%nat ->
  (forall q', (q' < q)%nat -> table !! slot (length table) hash q' <> Some cacheTableEmpty) -> reaches (<[s := Z.of_nat i + 1]> table) hash i.
Proof.
  intros Hq -> Hs Hz. exists q. rewrite length_insert. split; [done|]. split; [by apply list_lookup_insert_eq|].
  intros q' Hq'. rewrite list_lookup_insert. case_decide; [|by apply Hz]. unfold cacheTableEmpty. intros [= H']. lia.
Qed.

Section Insert.
  Context (n : nat) (hash : Z) (i : nat) (c : PageCache).
  Hypothesis Sh : table_shape n (pc_table c) (pc_tombs c).
  Hypothesis Room : (countOf isEntry (pc_table c) < length (pc_table c))%nat.
  Local Notation L := (length (pc_table c)).

(** The result of an insertion: one vacant slot names the frame. *)
Definition inserted (c' : PageCache) : Prop := exists s e tombs, pc_table c !! s = Some e /\ vacant e /\
  c' = setTable (<[s := Z.of_nat i + 1]> (pc_table c)) tombs c /\ tombs = pc_tombs c - (if isTomb e then 1 else 0) /\
  reaches (<[s := Z.of_nat i + 1]> (pc_table c)) hash i.

Lemma insertFrom_spec fuel p tomb : (p + fuel = L)%nat -> probed (pc_table c) hash p tomb -> exists c', insertFrom fuel p tomb hash i c = Some c' /\ inserted c'.
Proof.
  revert p tomb. pose proof (t_pow _ _ _ Sh) as Pw. induction fuel as [|fuel IH]; intros p tomb Hp [Ht Hz]; cbn [insertFrom].
  { destruct tomb as [s|].
    - destruct Ht as (q & Hq & -> & He). cbn [mbind option_bind]. eexists. split; [done|]. exists (slot L hash q), cacheTableTombstone, (pc_tombs c - 1).
      split_and!; [done|by right|done|done|]. apply (reaches_inserted _ _ _ _ q); [lia|done|by apply slot_lt|]. intros q' Hq'. apply Hz. lia.
    - exfalso. destruct (vacant_slot _ Room) as (s & e & Hs & Hv). destruct (slot_onto L hash s Pw ltac:(by eapply lookup_lt_Some)) as (q & Hq & <-).
      destruct (Ht q ltac:(lia)) as (e' & He' & Hi). rewrite Hs in He'. injection He' as <-. apply isEntry_vacant in Hv. congruence. }
  rewrite (slotOf_slot c hash p). pose proof (slot_lt L hash p Pw) as Hsl.
  destruct (lookup_lt_is_Some_2 (pc_table c) (slot L hash p) Hsl) as [e He]. rewrite He. cbn [mbind option_bind].
  destruct (Z.eqb_spec e cacheTableEmpty) as [->|N0].
  { destruct tomb as [s|].
    - destruct Ht as (q & Hq & -> & He'). eexists. split; [done|]. exists (slot L hash q), cacheTableTombstone, (pc_tombs c - 1).
      split_and!; [done|by right|done|done|]. apply (reaches_inserted _ _ _ _ q); [lia|done|by apply slot_lt|]. intros q' Hq'. apply Hz. lia.
    - eexists. split; [done|]. exists (slot L hash p), cacheTableEmpty, (pc_tombs c). split_and!; [done|by left|done|simpl; lia|].
      apply (reaches_inserted _ _ _ _ p); [lia|done|done|done]. }
  assert (Hz' : forall q, (q < S p)%nat -> pc_table c !! slot L hash q <> Some cacheTableEmpty).
  { intros q Hq. destruct (decide (q = p)) as [->|]; [congruence|]. apply Hz. lia. }
  destruct (Z.eqb_spec e cacheTableTombstone) as [->|Nt]; (apply IH; [lia|]; split; [|exact Hz']).
  - destruct tomb as [s|]; cbn [default from_option id].
    + destruct Ht as (q & Hq & Es & He'). exists q. split; [lia|done].
    + exists p. split; [lia|done].
  - destruct tomb as [s|].
    + destruct Ht as (q & Hq & Es & He'). exists q. split; [lia|done].
    + intros q Hq. destruct (decide (q = p)) as [->|]; [|apply Ht; lia]. exists e. split; [done|]. unfold isEntry. by rewrite !(proj2 (Z.eqb_neq _ _)).
Qed.

Lemma insertProbe_spec : exists c', insertProbe hash i c = Some c' /\ inserted c'.
Proof. apply insertFrom_spec; [lia|]. split; intros q Hq; lia. Qed.
End Insert.

Lemma index_range n i : (0 < n)%nat /\ Z.of_nat n < cacheTableTombstone - 1 -> (i < n)%nat ->
  isEntry (Z.of_nat i + 1) = true /\ isTomb (Z.of_nat i + 1) = false /\ 1 <= Z.of_nat i + 1 <= Z.of_nat n.
Proof.
  intros Sm Hi. unfold isEntry, isTomb, cacheTableEmpty. rewrite !(proj2 (Z.eqb_neq _ _)) by lia. split_and!; done || lia.
Qed.

(** What an insertion does to shape, count and reachability. *)
Lemma inserted_effect n hash i c c' : table_shape n (pc_table c) (pc_tombs c) -> (i < n)%nat -> inserted hash i c c' ->
  exists table tombs, c' = setTable table tombs c /\ table_shape n table tombs /\ countOf isEntry table = S (countOf isEntry (pc_table c)) /\
    (countOf isTomb (pc_table c) = 0%nat -> countOf isTomb table = 0%nat) /\
    reaches table hash i /\ forall h j, reaches (pc_table c) h j -> (j < n)%nat -> reaches table h j.
Proof.
  intros Sh Hi (s & e & tombs & He & Hv & -> & Et & Hr). destruct (index_range n i (t_small _ _ _ Sh) Hi) as (Ei & It & Rg).
  eexists _, _. split; [done|]. split_and!.
  - rewrite Et. pose proof (shape_insert _ _ _ _ _ (Z.of_nat i + 1) Sh He (or_intror Rg)) as H. rewrite It in H. by rewrite Z.add_0_r in H.
  - pose proof (count_entry _ _ _ (Z.of_nat i + 1) He) as C. rewrite Ei in C. apply isEntry_vacant in Hv. rewrite Hv in C. cbn [isSome] in C. lia.
  - intros Z0. pose proof (countOf_insert isTomb _ _ _ (Z.of_nat i + 1) He) as C. rewrite It, Z0 in C. destruct (isTomb e); lia.
  - done.
  - intros h j Hj Hn. apply reaches_other; [done|unfold cacheTableEmpty; lia|]. rewrite He. destruct (index_range n j (t_small _ _ _ Sh) Hn) as (Ej & _ & _).
    intros Hx. assert (e = Z.of_nat j + 1) as -> by congruence. apply isEntry_vacant in Hv. congruence.
Qed.

Lemma room n table tombs : table_shape n table tombs -> (countOf isEntry table <= n)%nat -> (countOf isEntry table < length table)%nat.
Proof. intros [P R [S _] _ _] C. lia. Qed.

(** The part of a rebuild that has reinserted the frames below [m]. *)
Record rebuilt (m : nat) (c : PageCache) : Prop := {
  r_shape : table_shape (length (pc_frames c)) (pc_table c) (pc_tombs c);
  r_tombs : countOf isTomb (pc_table c) = 0%nat;
  r_count : countOf isEntry (pc_table c) = countOf live (take m (pc_frames c));
  r_find : forall j f, (j < m)%nat -> pc_frames c !! j = Some f -> live f = true -> reaches (pc_table c) (cacheKeyHash (fr_key f)) j;
}.

Lemma countOf_take_S {A} (P : A -> bool) l m x : l !! m = Some x -> countOf P (take (S m) l) = (countOf P (take m l) + (if P x then 1 else 0))%nat.
Proof. intros H. rewrite (take_S_r l m x H), countOf_app. unfold countOf at 2. simpl. by destruct (P x). Qed.

Lemma reinsert_spec frames m c : drop m (pc_frames c) = frames -> rebuilt m c ->
  exists table tombs, reinsert frames m c = Some (setTable table tombs c) /\ rebuilt (length (pc_frames c)) (setTable table tombs c).
Proof.
  revert m c. induction frames as [|f frames IH]; intros m c Hd R; cbn [reinsert].
  { exists (pc_table c), (pc_tombs c). assert (E : setTable (pc_table c) (pc_tombs c) c = c) by (by destruct c). rewrite E. split; [done|].
    destruct R as [S T C F]. split; try done; [|intros j g _ Hj; apply F; [|done]; apply lookup_lt_Some in Hj; assert (length (drop m (pc_frames c)) = 0%nat) by (by rewrite Hd); rewrite length_drop in *; lia].
    rewrite C. assert (length (drop m (pc_frames c)) = 0%nat) as Hl by (by rewrite Hd). rewrite length_drop in Hl. by rewrite !take_ge by lia. }
  assert (Hm : pc_frames c !! m = Some f) by (rewrite <- (Nat.add_0_r m), <- lookup_drop, Hd; done).
  assert (Hd' : drop (S m) (pc_frames c) = frames) by (rewrite <- Nat.add_1_r, <- drop_drop, Hd; done).
  destruct R as [Sh T C F]. pose proof (lookup_lt_Some _ _ _ Hm) as Lm. destruct (live f) eqn:Lf.
  - assert (Rm : (countOf isEntry (pc_table c) < length (pc_table c))%nat).
    { apply (room _ _ _ Sh). rewrite C. etransitivity; [apply countOf_le|]. rewrite length_take. lia. }
    destruct (insertProbe_spec _ (cacheKeyHash (fr_key f)) m c Sh Rm) as (c1 & E1 & I1). rewrite E1. cbn [mbind option_bind].
    destruct (inserted_effect _ _ _ _ _ Sh Lm I1) as (table & tombs & -> & Sh1 & C1 & T1 & Hr & Hk).
    destruct (IH (S m) (setTable table tombs c) Hd') as (table2 & tombs2 & E2 & R2); [|by exists table2, tombs2].
    split; cbn [setTable pc_table pc_frames pc_tombs]; [done|by apply T1| |].
    + rewrite C1, C, (countOf_take_S _ _ _ f Hm), Lf. lia.
    + intros j g Hj Hg Lg. destruct (decide (j = m)) as [->|]; [by simplify_eq|]. apply Hk; [|by apply lookup_lt_Some in Hg]. apply F; [lia|done..].
  - cbn [mbind option_bind]. apply (IH (S m) c Hd'). split; try done.
    + rewrite C, (countOf_take_S _ _ _ f Hm), Lf. lia.
    + intros j g Hj Hg Lg. destruct (decide (j = m)) as [->|]; [congruence|]. apply F; [lia|done..].
Qed.

Lemma rebuild_spec c : table_shape (length (pc_frames c)) (pc_table c) (pc_tombs c) ->
  exists table tombs, rebuildTableLocked c = Some (setTable table tombs c) /\ rebuilt (length (pc_frames c)) (setTable table tombs c).
Proof.
  intros [P R S _ _]. unfold rebuildTableLocked.
  destruct (reinsert_spec (pc_frames c) 0 (setTable (replicate (length (pc_table c)) cacheTableEmpty) 0 c)) as (t & n & E & H); [done| |by exists t, n].
  split; cbn [setTable pc_table pc_frames pc_tombs].
  - split; rewrite ?length_replicate; try done; [by apply Forall_replicate; left; left|]. rewrite countOf_none; [done|]. by apply Forall_replicate.
  - apply countOf_none. by apply Forall_replicate.
  - rewrite countOf_none; [done|]. by apply Forall_replicate.
  - intros j f Hj. lia.
Qed.

Lemma countOf_live frames : countOf isSome (liveKey <$> frames) = countOf live frames.
Proof.
  induction frames as [|f frames IH]; [done|]. change (liveKey <$> f :: frames) with ([liveKey f] ++ (liveKey <$> frames)). change (f :: frames) with ([f] ++ frames).
  rewrite !countOf_app, IH. f_equal. unfold countOf, liveKey. simpl. by destruct (live f).
Qed.

Lemma countOf_true_le {A} (P : A -> bool) l i x y : l !! i = Some x -> P x = false -> P y = true -> countOf P (<[i := y]> l) = S (countOf P l).
Proof. intros H Hx Hy. pose proof (countOf_insert P l i x y H) as C. rewrite Hx, Hy in C. lia. Qed.

(** A frame that has just become live enters the table. *)
Lemma insertLocked_spec lv c i key : table_ok lv (pc_table c) (pc_tombs c) -> lv !! i = Some None -> liveKeys c = <[i := Some key]> lv ->
  exists table tombs, insertLocked (cacheKeyHash key) i c = Some (setTable table tombs c) /\ table_ok (liveKeys c) table tombs.
Proof.
  intros [Sh F C] Hi El. pose proof (lookup_lt_Some _ _ _ Hi) as Li. assert (Ln : length lv = length (pc_frames c)).
  { rewrite <- (length_fmap liveKey), El. by rewrite length_insert. }
  assert (Cl : countOf isSome (liveKeys c) = S (countOf isSome lv)) by (rewrite El; by eapply countOf_true_le).
  pose proof (countOf_le isSome (liveKeys c)) as Cm. rewrite length_fmap in Cm. unfold insertLocked.
  destruct (Z.ltb_spec (Z.of_nat (length (pc_table c)) / 4) (pc_tombs c)) as [Tb|Tb].
  - rewrite Ln in Sh. destruct (rebuild_spec c Sh) as (t & n & E & [Sh1 _ C1 F1]). rewrite E. cbn [mbind option_bind].
    cbn [setTable pc_table pc_frames pc_tombs] in *. rewrite take_ge in C1 by done. rewrite <- countOf_live in C1.
    destruct (insertProbe_spec _ (cacheKeyHash key) i (setTable t n c) Sh1) as (c1 & E1 & I1); [apply (room _ _ _ Sh1); cbn [setTable pc_table]; lia|].
    destruct (inserted_effect (length (pc_frames c)) _ i (setTable t n c) c1 Sh1 ltac:(lia) I1) as (t2 & n2 & -> & Sh2 & C2 & _ & Hr & Hk). exists t2, n2. split; [exact E1|].
    cbn [setTable pc_table] in C2. split; [by rewrite length_fmap| |lia]. intros j k Hj. pose proof (lookup_lt_Some _ _ _ Hj) as Lj. rewrite length_fmap in Lj. apply Hk; [|done].
    cbn [setTable pc_table]. rewrite list_lookup_fmap in Hj. destruct (pc_frames c !! j) as [f|] eqn:Hf; [|done]. cbn [fmap option_fmap option_map] in Hj. unfold liveKey in Hj.
    destruct (live f) eqn:Lf; [|done]. injection Hj as <-. by apply F1.
  - cbn [mbind option_bind]. destruct (insertProbe_spec _ (cacheKeyHash key) i c Sh) as (c1 & E1 & I1); [apply (room _ _ _ Sh); lia|].
    destruct (inserted_effect _ _ _ _ _ Sh Li I1) as (t2 & n2 & -> & Sh2 & C2 & _ & Hr & Hk). exists t2, n2. split; [exact E1|].
    split; [by rewrite length_fmap, <- Ln| |lia]. intros j k Hj. rewrite El in Hj. destruct (decide (j = i)) as [->|N].
    + rewrite list_lookup_insert_eq in Hj by done. by injection Hj as <-.
    + rewrite list_lookup_insert_ne in Hj by done. pose proof (lookup_lt_Some _ _ _ Hj). apply Hk; [by apply F|done].
Qed.
