(* ===== verification/PageCacheInv.v ===== *)
(** * PageCacheInv: the invariant of the page cache

    The extents of the live frames are the allocated spans of the buddy
    allocator, live frames have different keys, the table finds them, and no
    operation panics.  Each function of [PageCache] keeps the invariant; what it
    may evict is a clean, unpinned, ready frame. *)
From Stdlib Require Import ZArith Lia List Bool.
From stdpp Require Import base numbers list strings.
From S2P Require Import Prelude Bytes Page StateRoot FreeDirectory Superblock Leases Blocks PageCache PageCacheTable.

Open Scope Z_scope.

(** ** The invariant *)

Definition orderOf (ps : Z) (f : pageCacheFrame) (o : nat) : Prop := k_length (fr_key f) = Buddy.size o * ps.

(** The span a live frame occupies. *)
Definition extentOf (c : PageCache) (i : Z) (o : nat) : Prop :=
  exists f, 0 <= i /\ pc_frames c !! Z.to_nat i = Some f /\ live f = true /\ orderOf (pageSize c) f o.

Definition frame_ok (f : pageCacheFrame) : Prop :=
  0 <= fr_pins f <= maxPins /\ (fr_state f = pageCacheLoading -> fr_dirty f = 0 /\ fr_pins f = 0) /\
  (live f = false -> fr_key f = zeroKey /\ fr_dirty f = 0 /\ fr_pins f = 0).

(** [A] is what the allocator has given out. *)
Record core (A : Z -> nat -> Prop) (c : PageCache) : Prop := {
  ci_page : 4096 <= pageSize c;
  ci_pow : exists a, pageSize c = Buddy.size a;
  ci_max : po_MaxPageSize (pc_options c) = Buddy.size (Buddy.maxOrder (pc_blocks c)) * pageSize c;
  ci_blocks : Buddy.inv (pc_blocks c) A;
  ci_slots : Buddy.slots (pc_blocks c) = Z.of_nat (length (pc_frames c));
  ci_arena : length (pc_arena c) = (length (pc_frames c) * Z.to_nat (pageSize c))%nat;
  ci_hand : (pc_hand c < length (pc_frames c))%nat;
  ci_order : forall i f, pc_frames c !! i = Some f -> live f = true -> exists o, orderOf (pageSize c) f o;
  ci_frame : Forall frame_ok (pc_frames c);
  ci_unique : forall i j f g, pc_frames c !! i = Some f -> pc_frames c !! j = Some g -> live f = true -> live g = true -> fr_key f = fr_key g -> i = j;
  ci_table : table_ok (liveKeys c) (pc_table c) (pc_tombs c);
}.

Definition cache_inv (c : PageCache) : Prop := core (extentOf c) c.

Lemma core_ext A A' c : (forall i o, A' i o <-> A i o) -> core A c -> core A' c.
Proof. intros E [? ? ? B ? ? ? ? ? ? ?]. split; try done. by eapply Buddy.inv_ext. Qed.

Lemma frame_ok_at A c i f : core A c -> pc_frames c !! i = Some f -> frame_ok f.
Proof. intros I Hf. pose proof (ci_frame _ _ I) as F. rewrite Forall_lookup in F. by eapply F. Qed.

Lemma size_orders ps o o' : 4096 <= ps -> Buddy.size o * ps = Buddy.size o' * ps -> o = o'.
Proof. intros Hp H. apply Buddy.size_inj. nia. Qed.

Lemma live_key f ps o : live f = true -> orderOf ps f o -> 4096 <= ps -> fr_key f <> zeroKey.
Proof. unfold orderOf. intros _ H Hp E. rewrite E in H. simpl in H. pose proof (Buddy.size_pos o). nia. Qed.

(** A key that is not zero belongs to a live frame. *)
Lemma dead_key A c key : core A c -> key <> zeroKey -> forall i f, pc_frames c !! i = Some f -> fr_key f = key -> live f = true.
Proof.
  intros I N i f Hf Hk. destruct (frame_ok_at _ _ _ _ I Hf) as (_ & _ & D). destruct (live f) eqn:L; [done|]. destruct (D eq_refl) as [Hz _]. congruence.
Qed.

(** ** Geometry *)

Section Geometry.
  Context (A : Z -> nat -> Prop) (c : PageCache) (I : core A c).
  Hypothesis Ext : forall i o, extentOf c i o -> A i o.
  Local Notation n := (Z.of_nat (length (pc_frames c))).

Lemma geo_of : exists F, Buddy.geo n (Buddy.maxOrder (pc_blocks c)) F A.
Proof. destruct (ci_blocks _ _ I) as [fl [R G _ _]]. rewrite (ci_slots _ _ I) in G. by exists (Buddy.free fl). Qed.

Lemma extent_range i o : A i o -> 0 <= i /\ i + Buddy.size o <= n /\ (o <= Buddy.maxOrder (pc_blocks c))%nat.
Proof. intros H. destruct geo_of as [F G]. destruct (Buddy.geo_ok _ _ _ _ G i o (or_intror H)) as (? & _ & ? & ?). done. Qed.

Lemma extent_disjoint i o j p x : A i o -> A j p -> Buddy.inside i o x -> Buddy.inside j p x -> i = j /\ o = p.
Proof. intros H H' Hx Hx'. destruct geo_of as [F G]. by apply (Buddy.geo_disj _ _ _ _ G i o j p x); [right|right|..]. Qed.

Lemma live_extent i f : pc_frames c !! i = Some f -> live f = true -> exists o, orderOf (pageSize c) f o /\ A (Z.of_nat i) o /\
  Z.of_nat i + Buddy.size o <= n /\ (o <= Buddy.maxOrder (pc_blocks c))%nat.
Proof.
  intros Hf Hl. destruct (ci_order _ _ I i f Hf Hl) as [o Ho]. exists o. assert (Ha : A (Z.of_nat i) o).
  { apply Ext. exists f. rewrite Nat2Z.id. split_and!; done || lia. }
  split; [done|]. split; [done|]. by apply extent_range in Ha as (_ & ? & ?).
Qed.

(** The only live frame of an extent is its head. *)
Lemma extent_head i o j f : A (Z.of_nat i) o -> Buddy.inside (Z.of_nat i) o (Z.of_nat j) -> pc_frames c !! j = Some f -> live f = true -> j = i /\ orderOf (pageSize c) f o.
Proof.
  intros Ha Hin Hf Hl. destruct (live_extent j f Hf Hl) as (p & Hp & Hj & _).
  destruct (extent_disjoint _ _ _ _ (Z.of_nat j) Ha Hj Hin (Buddy.inside_start _ _)) as [E ->]. split; [lia|done].
Qed.
End Geometry.

Lemma rest_extents c : forall i o, extentOf c i o -> extentOf c i o.
Proof. done. Qed.

(** ** Overwriting the slots of an extent *)

Lemma setTails_spec n i f frames : (i + n <= length frames)%nat -> exists frames', setTails n i f frames = Some frames' /\ length frames' = length frames /\
  forall j, frames' !! j = if decide (i <= j < i + n)%nat then Some f else frames !! j.
Proof.
  revert i frames. induction n as [|n IH]; intros i frames Hn; cbn [setTails].
  { exists frames. split_and!; try done. intros j. rewrite decide_False by lia. done. }
  rewrite (proj2 (Nat.ltb_lt _ _)) by lia. destruct (IH (S i) (<[i := f]> frames)) as (fr & E & Hl & Hj); [rewrite length_insert; lia|].
  exists fr. split; [done|]. rewrite length_insert in Hl. split; [done|]. intros j. rewrite Hj. destruct (decide (j = i)) as [->|N].
  - rewrite decide_False, decide_True by lia. rewrite list_lookup_insert_eq by lia. done.
  - rewrite list_lookup_insert_ne by done. destruct (decide (S i <= j < S i + n)%nat); [rewrite decide_True by lia; done|].
    rewrite decide_False by lia. done.
Qed.

(** The head and the tails together. *)
Lemma extent_frames i span h t frames : 0 < span -> Z.of_nat i + span <= Z.of_nat (length frames) ->
  exists frames', setTails (Z.to_nat (span - 1)) (S i) t (<[i := h]> frames) = Some frames' /\ length frames' = length frames /\ frames' !! i = Some h /\
    (forall j, j <> i -> Z.of_nat i <= Z.of_nat j < Z.of_nat i + span -> frames' !! j = Some t) /\
    (forall j, ~ Z.of_nat i <= Z.of_nat j < Z.of_nat i + span -> frames' !! j = frames !! j).
Proof.
  intros Hs Hn. destruct (setTails_spec (Z.to_nat (span - 1)) (S i) t (<[i := h]> frames)) as (fr & E & Hl & Hj); [rewrite length_insert; lia|].
  rewrite length_insert in Hl. exists fr. split; [done|]. split; [done|]. split_and!.
  - rewrite Hj, decide_False, list_lookup_insert_eq by lia. done.
  - intros j N R. rewrite Hj, decide_True by lia. done.
  - intros j R. rewrite Hj, decide_False, list_lookup_insert_ne by lia. done.
Qed.

(** ** What stays *)

(** Equal up to the reference bit. *)
Definition same_frame (g g' : pageCacheFrame) : Prop :=
  fr_key g' = fr_key g /\ fr_dirty g' = fr_dirty g /\ fr_payloadLength g' = fr_payloadLength g /\ fr_pins g' = fr_pins g /\ fr_state g' = fr_state g.

Lemma same_frame_trans f g h : same_frame f g -> same_frame g h -> same_frame f h.
Proof. unfold same_frame. intros (? & ? & ? & ? & ?) (? & ? & ? & ? & ?). split_and!; congruence. Qed.

Lemma same_live g g' : same_frame g g' -> live g' = live g.
Proof. unfold live. intros (_ & _ & _ & _ & ->). done. Qed.

(** The rest of the state. *)
Definition same_rest (c c' : PageCache) : Prop :=
  pc_options c' = pc_options c /\ pc_arena c' = pc_arena c /\ pc_closing c' = pc_closing c /\ pc_closed c' = pc_closed c /\
  pc_activeLoads c' = pc_activeLoads c /\ length (pc_frames c') = length (pc_frames c) /\ Buddy.maxOrder (pc_blocks c') = Buddy.maxOrder (pc_blocks c).

(** [c'] has the live frames of [c] but for some that satisfy [Q]. *)
Record shrunk (Q : nat -> pageCacheFrame -> Prop) (c c' : PageCache) : Prop := {
  s_rest : same_rest c c';
  s_old : forall j g', pc_frames c' !! j = Some g' -> live g' = true -> exists g, pc_frames c !! j = Some g /\ live g = true /\ same_frame g g';
  s_keep : forall j g, pc_frames c !! j = Some g -> live g = true -> (exists g', pc_frames c' !! j = Some g' /\ live g' = true) \/ Q j g;
}.

Lemma same_rest_refl c : same_rest c c.
Proof. by split_and!. Qed.

Lemma same_rest_trans a b c : same_rest a b -> same_rest b c -> same_rest a c.
Proof. intros (? & ? & ? & ? & ? & ? & ?) (? & ? & ? & ? & ? & ? & ?). split_and!; congruence. Qed.

Lemma shrunk_refl Q c : shrunk Q c c.
Proof. split; [apply same_rest_refl|intros j g Hj Hl; by exists g|intros j g Hj Hl; left; by exists g]. Qed.

Lemma shrunk_trans (Q : nat -> pageCacheFrame -> Prop) a b c : (forall j g g', same_frame g g' -> Q j g' -> Q j g) -> shrunk Q a b -> shrunk Q b c -> shrunk Q a c.
Proof.
  intros HQ [R1 O1 K1] [R2 O2 K2]. split; [by eapply same_rest_trans|..].
  - intros j g' Hj Hl. destruct (O2 j g' Hj Hl) as (g & Hg & Lg & S2). destruct (O1 j g Hg Lg) as (g0 & H0 & L0 & S1). exists g0. split_and!; try done. by eapply same_frame_trans.
  - intros j g Hj Hl. destruct (K1 j g Hj Hl) as [(g1 & H1 & L1)|]; [|by right]. destruct (K2 j g1 H1 L1) as [?|Hq]; [by left|]. right.
    destruct (O1 j g1 H1 L1) as (g0 & H0 & _ & S0). simplify_eq. by eapply HQ.
Qed.

Lemma shrunk_weaken (Q Q' : nat -> pageCacheFrame -> Prop) c c' : (forall j g, Q j g -> Q' j g) -> shrunk Q c c' -> shrunk Q' c c'.
Proof. intros H [R O K]. split; try done. intros j g Hj Hl. destruct (K j g Hj Hl); [by left|right; by apply H]. Qed.

(** ** Dropping an extent *)

(** Frames agree on the live ones outside [i]. *)
Definition agree_except (i : nat) (frames frames' : list pageCacheFrame) : Prop :=
  length frames' = length frames /\
  (forall j g, j <> i -> frames !! j = Some g -> live g = true -> frames' !! j = Some g) /\
  (forall j g, j <> i -> frames' !! j = Some g -> live g = true -> frames !! j = Some g).

Lemma agree_liveKeys i h frames frames' : (i < length frames)%nat -> agree_except i frames frames' -> frames' !! i = Some h ->
  liveKey <$> frames' = <[i := liveKey h]> (liveKey <$> frames).
Proof.
  intros Hi (Hl & H1 & H2) Hh. apply list_eq. intros j. destruct (decide (j = i)) as [->|N].
  - rewrite list_lookup_insert_eq by (by rewrite length_fmap). by rewrite list_lookup_fmap, Hh.
  - rewrite list_lookup_insert_ne, !list_lookup_fmap by done. specialize (H1 j). specialize (H2 j). unfold liveKey.
    destruct (frames !! j) as [g|] eqn:E1, (frames' !! j) as [g'|] eqn:E2; cbn [fmap option_fmap option_map]; try done.
    + destruct (live g) eqn:L1; [specialize (H1 g N eq_refl L1); simplify_eq; by rewrite L1|].
      destruct (live g') eqn:L2; [specialize (H2 g' N eq_refl L2); simplify_eq; congruence|done].
    + apply lookup_ge_None in E2. apply lookup_lt_Some in E1. lia.
    + apply lookup_ge_None in E1. apply lookup_lt_Some in E2. lia.
Qed.

Lemma span_of A c o g : core A c -> orderOf (pageSize c) g o -> k_length (fr_key g) / pageSize c = Buddy.size o.
Proof. intros I ->. pose proof (ci_page _ _ I). apply Z.div_mul. lia. Qed.

Lemma emptyFrame_ok : frame_ok emptyFrame.
Proof. unfold frame_ok, maxPins. simpl. split_and!; done || lia. Qed.

Lemma tailFrame_ok : frame_ok tailFrame.
Proof. unfold frame_ok, maxPins. simpl. split_and!; done || lia. Qed.

(** The slots of the extent hold no other live frame. *)
Lemma slots_agree A c i o t frames' : core A c -> (forall a b, extentOf c a b -> A a b) -> A (Z.of_nat i) o -> live t = false ->
  length frames' = length (pc_frames c) ->
  (forall j, j <> i -> Z.of_nat i <= Z.of_nat j < Z.of_nat i + Buddy.size o -> frames' !! j = Some t) ->
  (forall j, ~ Z.of_nat i <= Z.of_nat j < Z.of_nat i + Buddy.size o -> frames' !! j = pc_frames c !! j) -> agree_except i (pc_frames c) frames'.
Proof.
  intros I Ext Ha Lt L H1 H2. split; [done|]. split; intros j g N Hg Lg;
    (destruct (decide (Z.of_nat i <= Z.of_nat j < Z.of_nat i + Buddy.size o)) as [Hin|Hout]; [|by rewrite H2 in * by done]).
  - by destruct (extent_head A c I Ext i o j g Ha Hin Hg Lg).
  - rewrite (H1 j N Hin) in Hg. congruence.
Qed.

(** A change of the frames of one extent, its head becoming [h]. *)
Lemma core_frames A A' c i o h t frames table tombs blocks hand : core A c -> (i < length (pc_frames c))%nat ->
  agree_except i (pc_frames c) frames -> frames !! i = Some h -> frame_ok h -> frame_ok t ->
  (forall j, j <> i -> frames !! j = Some t \/ frames !! j = pc_frames c !! j) ->
  (live h = true -> orderOf (pageSize c) h o /\ forall j g, pc_frames c !! j = Some g -> live g = true -> fr_key g <> fr_key h) ->
  Buddy.inv blocks A' -> Buddy.same_shape (pc_blocks c) blocks -> (hand < length (pc_frames c))%nat ->
  table_ok (<[i := liveKey h]> (liveKeys c)) table tombs ->
  core A' (setHand hand (setBlocks blocks (setFrames frames (setTable table tombs c)))).
Proof.
  intros I Li Ag Hi Oh Ot Hj Hh Ib (Sz & Sm & Sl) Hd Tb. pose proof Ag as (Lf & _ & G2). split;
    cbn [setHand setBlocks setFrames setTable pc_frames pc_blocks pc_hand pc_table pc_tombs pc_options pc_arena]; unfold pageSize; cbn [setHand setBlocks setFrames setTable pc_options].
  - apply (ci_page _ _ I).
  - apply (ci_pow _ _ I).
  - rewrite Sm. apply (ci_max _ _ I).
  - done.
  - rewrite Lf, <- (ci_slots _ _ I). unfold Buddy.slots in *. by rewrite Sl.
  - rewrite Lf. apply (ci_arena _ _ I).
  - by rewrite Lf.
  - intros j g Hg Lg. destruct (decide (j = i)) as [->|N]; [simplify_eq; exists o; by apply Hh|]. by apply (ci_order _ _ I j g (G2 j g N Hg Lg)).
  - pose proof (ci_frame _ _ I) as F. rewrite Forall_lookup in *. intros j g Hg. destruct (decide (j = i)) as [->|N]; [by simplify_eq|].
    destruct (Hj j N) as [E|E]; rewrite E in Hg; [by simplify_eq|by eapply F].
  - intros j k g g' Hg Hg' Lg Lg' Hk. destruct (decide (j = i)) as [->|Nj], (decide (k = i)) as [->|Nk]; try done; simplify_eq.
    + exfalso. by apply (proj2 (Hh Lg) k g' (G2 k g' Nk Hg' Lg') Lg').
    + exfalso. by apply (proj2 (Hh Lg') j g (G2 j g Nj Hg Lg) Lg).
    + by apply (ci_unique _ _ I j k g g'); eauto.
  - by rewrite (agree_liveKeys i h _ _ Li Ag Hi).
Qed.

Section Reset.
  Context (c : PageCache) (I : cache_inv c) (i : nat) (f : pageCacheFrame).
  Hypothesis Hf : pc_frames c !! i = Some f.
  Hypothesis Hl : live f = true.

Lemma reset_extents o frames table tombs blocks hand : orderOf (pageSize c) f o -> agree_except i (pc_frames c) frames -> frames !! i = Some emptyFrame ->
  forall j p, extentOf (setHand hand (setBlocks blocks (setFrames frames (setTable table tombs c)))) j p <-> Buddy.minus (extentOf c) (Z.of_nat i) o j p.
Proof.
  intros Ho (_ & G1 & G2) Hi j p. pose proof (ci_page _ _ I) as Hp. unfold extentOf, Buddy.minus, pageSize. cbn. split.
  - intros (g & Hj & Hg & Lg & Og). assert (Z.to_nat j <> i) by (intros E; rewrite E, Hi in Hg; simplify_eq; done). split; [|intros [-> _]; by rewrite Nat2Z.id in *].
    exists g. split_and!; try done. by apply G2.
  - intros [(g & Hj & Hg & Lg & Og) N]. exists g. split_and!; try done. apply G1; try done. intros E. apply N. split; [lia|].
    rewrite E, Hf in Hg. simplify_eq. unfold orderOf in *. apply (size_orders (pageSize c)); [done|]. unfold pageSize in *. congruence.
Qed.

Lemma resetExtent_spec : exists c', resetExtentLocked i c = Some c' /\ cache_inv c' /\ same_rest c c' /\
  agree_except i (pc_frames c) (pc_frames c') /\ pc_frames c' !! i = Some emptyFrame.
Proof.
  destruct (live_extent (extentOf c) c I (rest_extents c) i f Hf Hl) as (o & Ho & Ha & Hn & Hm). pose proof (ci_page _ _ I) as Hp.
  pose proof (lookup_lt_Some _ _ _ Hf) as Li. pose proof (Buddy.size_pos o) as So.
  assert (Nz : fr_key f <> zeroKey) by (by eapply live_key). pose proof (dead_key _ _ _ I Nz) as Dead.
  destruct (removeLocked_spec c (fr_key f) i f (ci_table _ _ I) Dead (conj Hf eq_refl)) as (tb & Er & Tb).
  { intros j g Hg Hk. apply (ci_unique _ _ I j i g f); try done. by eapply Dead. }
  destruct (extent_frames i (Buddy.size o) emptyFrame emptyFrame (pc_frames c) So Hn) as (fr & Ef & Lf & Hi & H1 & H2).
  destruct (Buddy.put_at (pc_blocks c) _ (Z.of_nat i) o (ci_blocks _ _ I) Ha) as (b & Eb & Ib & Sb).
  assert (Ag : agree_except i (pc_frames c) fr) by exact (slots_agree (extentOf c) c i o emptyFrame fr I (rest_extents c) Ha eq_refl Lf H1 H2).
  unfold resetExtentLocked. rewrite Hf. cbn [mbind option_bind]. rewrite Er. cbn [mbind option_bind setTable pc_frames pc_blocks pc_hand].
  rewrite (span_of _ _ o f I Ho), (proj2 (Z.eqb_neq _ 0)) by lia. rewrite Ef. cbn [mbind option_bind]. rewrite Eb. cbn [mbind option_bind].
  eexists. split; [done|]. split; [|split; [|by split]].
  - unfold cache_inv. eapply core_ext; [by apply (reset_extents o)|]. apply (core_frames (extentOf c) _ c i o emptyFrame emptyFrame); try done; try apply emptyFrame_ok.
    + intros j N. destruct (decide (Z.of_nat i <= Z.of_nat j < Z.of_nat i + Buddy.size o)); [left; by apply H1|right; by apply H2].
    + pose proof (ci_hand _ _ I). destruct (_ && _); lia.
  - destruct Sb as (Sz & Sm & Sl). split_and!; cbn; done || (by rewrite Sm).
Qed.
End Reset.

(** ** Reserving a span *)

Definition evictable (f : pageCacheFrame) : Prop := fr_state f = pageCacheReady /\ fr_dirty f = 0 /\ fr_pins f = 0.

Lemma evictable_same g g' : same_frame g g' -> evictable g' -> evictable g.
Proof. unfold evictable. intros (_ & -> & _ & -> & ->). done. Qed.

(** The state with a span reserved for a new extent: its slots are dead. *)
Definition reserved (i k : nat) (c : PageCache) : Prop :=
  core (Buddy.plus (extentOf c) (Z.of_nat i) k) c /\
  forall j f, Buddy.inside (Z.of_nat i) k (Z.of_nat j) -> pc_frames c !! j = Some f -> live f = false.

Lemma core_setBlocks A A' b c : core A c -> Buddy.inv b A' -> Buddy.same_shape (pc_blocks c) b -> core A' (setBlocks b c).
Proof.
  intros I Ib (Sz & Sm & Sl). destruct I. split; try done; cbn [setBlocks pc_blocks pc_frames pc_options]; unfold pageSize; cbn [setBlocks pc_options].
  - by rewrite Sm.
  - unfold Buddy.slots in *. by rewrite Sl.
Qed.

Lemma takeSpan_spec c k : cache_inv c -> (k <= Buddy.maxOrder (pc_blocks c))%nat ->
  (exists i c', takeSpan (Buddy.size k) c = Some (Some i, c') /\ reserved i k c' /\ same_rest c c' /\ pc_frames c' = pc_frames c) \/
  takeSpan (Buddy.size k) c = Some (None, c).
Proof.
  intros I Hk. destruct (ci_blocks _ _ I) as [fl If]. unfold takeSpan.
  destruct (Buddy.take_at _ fl _ k If Hk) as [(i & b & E & Ib & Sb & o & Ho & Hfree)|[E _]]; rewrite E; cbn [mbind option_bind fst snd].
  - left. pose proof Ib as [fl' Ib']. pose proof (Buddy.at_geo _ _ _ Ib') as G'. pose proof (Buddy.at_geo _ _ _ If) as G.
    destruct (Buddy.geo_ok _ _ _ _ G' i k) as (Hi & _); [right; by right|]. exists (Z.to_nat i), (setBlocks b c). split; [done|].
    assert (Ei : Z.of_nat (Z.to_nat i) = i) by lia. split; [|split; [|done]].
    + split; [rewrite Ei; by apply (core_setBlocks (extentOf c))|]. intros j f Hin Hf. cbn in Hf. rewrite Ei in Hin. destruct (live f) eqn:L; [|done]. exfalso.
      destruct (live_extent (extentOf c) c I (rest_extents c) j f Hf L) as (p & Hp & Ha & _).
      destruct (Buddy.geo_disj _ _ _ _ G' i k (Z.of_nat j) p (Z.of_nat j)) as [E1 E2]; [right; by right|right; by left|done|apply Buddy.inside_start|]. subst p.
      destruct (Buddy.geo_disj _ _ _ _ G i o (Z.of_nat j) k i) as [_ E3]; [by left|by right|apply Buddy.inside_start|rewrite E1; apply Buddy.inside_start|].
      subst o. apply (Buddy.geo_split _ _ _ _ G i k Hfree). by rewrite E1.
    + destruct Sb as (Sz & Sm & Sl). split_and!; cbn; done || (by rewrite Sm).
  - right. by destruct c.
Qed.

(** ** Changing one live frame in place *)

Section Update.
  Context (c : PageCache) (i : nat) (f f' : pageCacheFrame).
  Hypothesis Hf : pc_frames c !! i = Some f.
  Hypothesis Hl : live f = true.
  Hypothesis Hl' : live f' = true.
  Hypothesis Hk : fr_key f' = fr_key f.

Lemma update_lookup j g : pc_frames (setFrame i f' c) !! j = Some g -> live g = true ->
  exists g0, pc_frames c !! j = Some g0 /\ live g0 = true /\ fr_key g0 = fr_key g /\ (j <> i -> g0 = g).
Proof.
  cbn. intros Hg Lg. destruct (decide (j = i)) as [->|N].
  - rewrite list_lookup_insert_eq in Hg by (by eapply lookup_lt_Some). simplify_eq. by exists f.
  - rewrite list_lookup_insert_ne in Hg by done. by exists g.
Qed.

Lemma update_back j g : pc_frames c !! j = Some g -> live g = true -> exists g', pc_frames (setFrame i f' c) !! j = Some g' /\ live g' = true /\ fr_key g' = fr_key g.
Proof.
  cbn. intros Hg Lg. destruct (decide (j = i)) as [->|N].
  - rewrite list_lookup_insert_eq by (by eapply lookup_lt_Some). simplify_eq. by exists f'.
  - rewrite list_lookup_insert_ne by done. by exists g.
Qed.

Lemma update_extents j p : extentOf (setFrame i f' c) j p <-> extentOf c j p.
Proof.
  unfold extentOf, orderOf, pageSize. cbn [setFrame setFrames pc_options]. split; intros (g & Hj & Hg & Lg & Og).
  - destruct (update_lookup _ g Hg Lg) as (g0 & H0 & L0 & K0 & _). exists g0. split_and!; try done. by rewrite K0.
  - destruct (update_back _ g Hg Lg) as (g0 & H0 & L0 & K0). exists g0. split_and!; try done. by rewrite K0.
Qed.

Lemma update_inv : frame_ok f' -> cache_inv c -> cache_inv (setFrame i f' c).
Proof.
  intros Of I. eapply core_ext; [apply update_extents|]. destruct I as [? ? ? ? ? ? ? O F U T]. split; cbn; rewrite ?length_insert; try done.
  - intros j g Hg Lg. destruct (update_lookup j g Hg Lg) as (g0 & H0 & L0 & K0 & _). unfold orderOf. rewrite <- K0. by apply (O j g0).
  - by apply Forall_insert.
  - intros j k g g' Hg Hg' Lg Lg' E. destruct (update_lookup j g Hg Lg) as (g0 & H0 & L0 & K0 & _), (update_lookup k g' Hg' Lg') as (g1 & H1 & L1 & K1 & _).
    apply (U j k g0 g1); try done. congruence.
  - rewrite list_fmap_insert. rewrite list_insert_id; [done|]. rewrite list_lookup_fmap, Hf. unfold liveKey. cbn. by rewrite Hl, Hl', Hk.
Qed.

Lemma update_shrunk Q : same_frame f f' -> shrunk Q c (setFrame i f' c).
Proof.
  intros S. split.
  - split_and!; try done. cbn. by rewrite length_insert.
  - intros j g Hg Lg. destruct (update_lookup j g Hg Lg) as (g0 & H0 & L0 & _ & N). exists g0. split_and!; try done. destruct (decide (j = i)) as [->|Nj]; [|by rewrite (N Nj)].
    cbn in Hg. rewrite list_lookup_insert_eq in Hg by (by eapply lookup_lt_Some). by simplify_eq.
  - intros j g Hg Lg. left. destruct (update_back j g Hg Lg) as (g' & ? & ? & _). by exists g'.
Qed.
End Update.

(** ** The clock *)

Lemma setHand_inv A h c : core A c -> (h < length (pc_frames c))%nat -> core A (setHand h c).
Proof. intros I Hh. by destruct I. Qed.

Lemma ready_live f : fr_state f = pageCacheReady -> live f = true.
Proof. unfold live. intros ->. done. Qed.

Lemma reset_shrunk Q c c' i f : pc_frames c !! i = Some f -> Q i f -> same_rest c c' -> agree_except i (pc_frames c) (pc_frames c') -> pc_frames c' !! i = Some emptyFrame ->
  shrunk Q c c'.
Proof.
  intros Hf HQ R (_ & G1 & G2) Hi. split; [done|..].
  - intros j g Hg Lg. assert (j <> i) by (intros ->; by simplify_eq). exists g. split_and!; try done. by apply G2.
  - intros j g Hg Lg. destruct (decide (j = i)) as [->|]; [right; by simplify_eq|]. left. exists g. split; [|done]. by apply G1.
Qed.

Local Notation evicts := (shrunk (fun _ => evictable)).

Lemma evicts_trans a b c : evicts a b -> evicts b c -> evicts a c.
Proof. apply shrunk_trans. intros _ g g'. apply evictable_same. Qed.

Lemma hand_shrunk Q h c : shrunk Q c (setHand h c).
Proof. destruct (shrunk_refl Q c) as [R O K]. by split. Qed.

Lemma frames_shrunk Q c c' : same_rest c c' -> pc_frames c' = pc_frames c -> shrunk Q c c'.
Proof. intros R E. destruct (shrunk_refl Q c) as [_ O K]. split; [done|..]; by rewrite E. Qed.

Definition clocked (k : nat) (c : PageCache) (r : option nat) (c' : PageCache) : Prop :=
  evicts c c' /\ match r with Some i => reserved i k c' | None => cache_inv c' end.

Lemma clocked_after k a b r c : evicts a b -> clocked k b r c -> clocked k a r c.
Proof. intros E [E' H]. split; [by eapply evicts_trans|done]. Qed.

Lemma clockStep_spec c : cache_inv c -> exists b c', clockStep c = Some (b, c') /\ evicts c c' /\ cache_inv c'.
Proof.
  intros I. unfold clockStep. pose proof (ci_hand _ _ I) as Hh. set (h := (if (S (pc_hand c) =? length (pc_frames c))%nat then 0 else S (pc_hand c))%nat).
  assert (Hh' : (h < length (pc_frames c))%nat) by (unfold h; destruct (Nat.eqb_spec (S (pc_hand c)) (length (pc_frames c))); lia).
  pose proof (setHand_inv _ h c I Hh') as I1. set (c1 := setHand h c) in *. assert (E1 : evicts c c1) by apply hand_shrunk.
  destruct (lookup_lt_is_Some_2 (pc_frames c1) (pc_hand c) Hh) as [f Hf]. rewrite Hf. cbn [mbind option_bind].
  destruct (negb _ || _ || _) eqn:G; [by exists false, c1|].
  apply orb_false_iff in G as [G Gp]. apply orb_false_iff in G as [G Gd]. apply negb_false_iff in G, Gp, Gd. apply bool_decide_eq_true in G. apply Z.eqb_eq in Gd, Gp.
  pose proof (ready_live f G) as Lf. destruct (fr_referenced f).
  - set (f' := mkFrame (fr_key f) (fr_dirty f) (fr_payloadLength f) (fr_pins f) (fr_state f) false). assert (Lf' : live f' = true) by (by apply ready_live).
    eexists _, _. split; [done|]. split; [eapply evicts_trans; [exact E1|]; by apply (update_shrunk c1 _ f f')|].
    apply (update_inv c1 _ f f'); try done. pose proof (frame_ok_at _ _ _ _ I1 Hf) as Of. unfold frame_ok in *. by rewrite Lf in Of; rewrite Lf'.
  - destruct (resetExtent_spec c1 I1 (pc_hand c) f Hf Lf) as (c2 & E & I2 & R2 & A2 & H2). rewrite E. cbn [mbind option_bind].
    eexists _, _. split; [done|]. split; [|done]. eapply evicts_trans; [exact E1|]. by eapply reset_shrunk.
Qed.

Lemma clock_spec fuel k c : cache_inv c -> (k <= Buddy.maxOrder (pc_blocks c))%nat -> exists r c', clock fuel (Buddy.size k) c = Some (r, c') /\ clocked k c r c'.
Proof.
  revert c. induction fuel as [|fuel IH]; intros c I Hk; cbn [clock]; [exists None, c; split; [done|]; split; [apply shrunk_refl|done]|].
  destruct (clockStep_spec c I) as (b & c1 & E & E1 & I1). rewrite E. cbn [mbind option_bind].
  assert (Hk1 : (k <= Buddy.maxOrder (pc_blocks c1))%nat) by (destruct E1 as [(_ & _ & _ & _ & _ & _ & ->) _ _]; done).
  assert (Next : exists r c', clock fuel (Buddy.size k) c1 = Some (r, c') /\ clocked k c r c').
  { destruct (IH c1 I1 Hk1) as (r & c' & E2 & H). exists r, c'. split; [done|]. by eapply clocked_after. }
  destruct b; [|exact Next]. destruct (takeSpan_spec c1 k I1 Hk1) as [(i & c3 & Et & Rv & R3 & F3)|Et]; rewrite Et; cbn [mbind option_bind]; [|exact Next].
  exists (Some i), c3. split; [done|]. split; [|done]. eapply evicts_trans; [exact E1|]. by apply frames_shrunk.
Qed.

Lemma reserveLocked_spec k c : cache_inv c -> (k <= Buddy.maxOrder (pc_blocks c))%nat -> exists r c', reserveLocked (Buddy.size k) c = Some (r, c') /\ clocked k c r c'.
Proof.
  intros I Hk. unfold reserveLocked. destruct (takeSpan_spec c k I Hk) as [(i & c3 & Et & Rv & R3 & F3)|Et]; rewrite Et; cbn [mbind option_bind].
  - exists (Some i), c3. split; [done|]. split; [by apply frames_shrunk|done].
  - by apply clock_spec.
Qed.

(** ** A new extent *)

Definition loadingFrame (key : pageCacheKey) : pageCacheFrame := mkFrame key 0 0 0 pageCacheLoading false.

(** The live frames are the old ones and the one at [i]. *)
Record extended (i : nat) (f : pageCacheFrame) (c c' : PageCache) : Prop := {
  e_inv : cache_inv c';
  e_rest : same_rest c c';
  e_agree : agree_except i (pc_frames c) (pc_frames c');
  e_here : pc_frames c' !! i = Some f;
}.

Lemma begin_extents c i k key frames table tombs : reserved i k c -> k_length key = Buddy.size k * pageSize c ->
  agree_except i (pc_frames c) frames -> frames !! i = Some (loadingFrame key) ->
  forall j p, extentOf (setHand (pc_hand c) (setBlocks (pc_blocks c) (setFrames frames (setTable table tombs c)))) j p <-> Buddy.plus (extentOf c) (Z.of_nat i) k j p.
Proof.
  intros [I Dead] Hk (_ & G1 & G2) Hi j p. pose proof (ci_page _ _ I) as Hp. unfold extentOf, Buddy.plus, pageSize in *. cbn. split.
  - intros (g & Hj & Hg & Lg & Og). destruct (decide (Z.to_nat j = i)) as [E|N]; [right|left].
    + split; [lia|]. rewrite E, Hi in Hg. simplify_eq. unfold orderOf in Og. cbn in Og. apply (size_orders (po_PageSize (pc_options c))); [done|congruence].
    + exists g. split_and!; try done. by apply G2.
  - intros [(g & Hj & Hg & Lg & Og)|[-> ->]].
    + exists g. split_and!; try done. apply G1; try done. intros E. rewrite (Dead i g) in Lg; [done|apply Buddy.inside_start|by rewrite <- E].
    + exists (loadingFrame key). rewrite Nat2Z.id. split_and!; done || lia.
Qed.

Lemma beginExtent_spec c i k key : reserved i k c -> k_length key = Buddy.size k * pageSize c ->
  (forall j g, pc_frames c !! j = Some g -> live g = true -> fr_key g <> key) ->
  exists c', beginExtentLocked i (Buddy.size k) key (cacheKeyHash key) c = Some c' /\ extended i (loadingFrame key) c c'.
Proof.
  intros Rv Hk Fresh. pose proof Rv as [I Dead]. set (A := Buddy.plus (extentOf c) (Z.of_nat i) k) in *.
  assert (Ha : A (Z.of_nat i) k) by (by right). assert (Ext : forall a b, extentOf c a b -> A a b) by (by left).
  destruct (extent_range A c I _ _ Ha) as (_ & Hn & _). pose proof (Buddy.size_pos k) as Sk. assert (Li : (i < length (pc_frames c))%nat) by lia.
  destruct (extent_frames i (Buddy.size k) (loadingFrame key) tailFrame (pc_frames c) Sk Hn) as (fr & Ef & Lf & Hi & H1 & H2).
  assert (Ag : agree_except i (pc_frames c) fr) by exact (slots_agree A c i k tailFrame fr I Ext Ha eq_refl Lf H1 H2).
  destruct (lookup_lt_is_Some_2 _ _ Li) as [f0 Hf0]. pose proof (Dead i f0 (Buddy.inside_start _ _) Hf0) as D0.
  assert (Hlv : (liveKeys c) !! i = Some None) by (rewrite list_lookup_fmap, Hf0; cbn; unfold liveKey; by rewrite D0).
  assert (Elv : liveKey <$> fr = <[i := Some key]> (liveKeys c)) by exact (agree_liveKeys i (loadingFrame key) _ _ Li Ag Hi).
  destruct (insertLocked_spec (liveKeys c) (setFrames fr c) i key (ci_table _ _ I) Hlv Elv) as (t & tb & Et & Tb). cbn [setFrames pc_frames] in Tb.
  unfold beginExtentLocked. rewrite (proj2 (Nat.ltb_lt _ _) Li). unfold loadingFrame in Ef. rewrite Ef. cbn [mbind option_bind]. rewrite Et. eexists. split; [done|].
  assert (Ec : setTable t tb (setFrames fr c) = setHand (pc_hand c) (setBlocks (pc_blocks c) (setFrames fr (setTable t tb c)))) by done.
  split; [|by split_and!|done|done]. rewrite Ec. unfold cache_inv. eapply core_ext; [by apply (begin_extents c i k key)|].
  apply (core_frames A _ c i k (loadingFrame key) tailFrame); try done.
  - intros j N. destruct (decide (Z.of_nat i <= Z.of_nat j < Z.of_nat i + Buddy.size k)); [left; by apply H1|right; by apply H2].
  - apply (ci_blocks _ _ I).
  - apply (ci_hand _ _ I).
  - change (liveKey (loadingFrame key)) with (Some key). by rewrite <- Elv.
Qed.

(** ** Bytes *)

Definition pageOf (c : PageCache) (i : nat) (len : Z) : list Z :=
  slice (pc_arena c) (i * Z.to_nat (pageSize c)) (i * Z.to_nat (pageSize c) + Z.to_nat len).

Lemma extent_bytes c i f : cache_inv c -> pc_frames c !! i = Some f -> live f = true ->
  (i * Z.to_nat (pageSize c) + Z.to_nat (k_length (fr_key f)) <= length (pc_arena c))%nat.
Proof.
  intros I Hf Hl. destruct (live_extent (extentOf c) c I (rest_extents c) i f Hf Hl) as (o & Ho & _ & Hn & _). rewrite Ho, (ci_arena _ _ I).
  pose proof (ci_page _ _ I). pose proof (Buddy.size_pos o). apply Nat2Z.inj_le. rewrite Nat2Z.inj_add, !Nat2Z.inj_mul, !Z2Nat.id by nia. nia.
Qed.

Lemma extentBytes_live c i f : cache_inv c -> pc_frames c !! i = Some f -> live f = true ->
  extentBytes i (k_length (fr_key f)) c = Some (pageOf c i (k_length (fr_key f))).
Proof. intros I Hf Hl. unfold extentBytes. by rewrite (proj2 (Nat.leb_le _ _) (extent_bytes c i f I Hf Hl)). Qed.

(** Two extents share no byte. *)
Lemma extents_apart c i j f g : cache_inv c -> pc_frames c !! i = Some f -> live f = true -> pc_frames c !! j = Some g -> live g = true -> i <> j ->
  Z.of_nat i * pageSize c + k_length (fr_key f) <= Z.of_nat j * pageSize c \/ Z.of_nat j * pageSize c + k_length (fr_key g) <= Z.of_nat i * pageSize c.
Proof.
  intros I Hf Lf Hg Lg N. destruct (live_extent (extentOf c) c I (rest_extents c) i f Hf Lf) as (o & -> & Ha & _).
  destruct (live_extent (extentOf c) c I (rest_extents c) j g Hg Lg) as (p & -> & Hj & _). pose proof (ci_page _ _ I) as Hps. pose proof (Buddy.size_pos o). pose proof (Buddy.size_pos p).
  assert (D : Z.of_nat i + Buddy.size o <= Z.of_nat j \/ Z.of_nat j + Buddy.size p <= Z.of_nat i); [|nia].
  destruct (Z.le_gt_cases (Z.of_nat i) (Z.of_nat j)); [left|right]; apply Z.nlt_ge; intros Lt; apply N.
  - destruct (extent_disjoint _ c I _ _ _ _ (Z.of_nat j) Ha Hj); unfold Buddy.inside; lia.
  - destruct (extent_disjoint _ c I _ _ _ _ (Z.of_nat i) Ha Hj); unfold Buddy.inside; lia.
Qed.

(** Writing in one extent leaves the others. *)
Lemma pageOf_other c i j f g bs : cache_inv c -> pc_frames c !! i = Some f -> live f = true -> pc_frames c !! j = Some g -> live g = true -> i <> j ->
  (length bs <= Z.to_nat (k_length (fr_key f)))%nat ->
  pageOf (setArena (setBytes (pc_arena c) (i * Z.to_nat (pageSize c)) bs) c) j (k_length (fr_key g)) = pageOf c j (k_length (fr_key g)).
Proof.
  intros I Hf Lf Hg Lg N Hb. pose proof (extents_apart c i j f g I Hf Lf Hg Lg N) as D. pose proof (ci_page _ _ I) as Hps.
  unfold pageOf, pageSize. cbn [setArena pc_arena pc_options]. apply slice_set_out. fold (pageSize c).
  assert (Ei : forall q, Z.of_nat (q * Z.to_nat (pageSize c)) = Z.of_nat q * pageSize c) by (intros q; rewrite Nat2Z.inj_mul, Z2Nat.id by lia; done).
  pose proof (Ei i). pose proof (Ei j). destruct (ci_order _ _ I i f Hf Lf) as [o Ho]. destruct (ci_order _ _ I j g Hg Lg) as [p Hp]. unfold orderOf in Ho, Hp.
  pose proof (Buddy.size_pos o). pose proof (Buddy.size_pos p). assert (0 <= k_length (fr_key f) /\ 0 <= k_length (fr_key g)) by nia. lia.
Qed.

(** Writing a whole extent. *)
Lemma pageOf_written c i f bs : cache_inv c -> pc_frames c !! i = Some f -> live f = true -> length bs = Z.to_nat (k_length (fr_key f)) ->
  pageOf (setArena (setBytes (pc_arena c) (i * Z.to_nat (pageSize c)) bs) c) i (k_length (fr_key f)) = bs.
Proof.
  intros I Hf Lf Hb. unfold pageOf, pageSize. cbn [setArena pc_arena pc_options]. fold (pageSize c). rewrite <- Hb. apply slice_set_hit.
  rewrite Hb. by apply extent_bytes.
Qed.

Lemma setArena_inv A a c : core A c -> length a = length (pc_arena c) -> core A (setArena a c).
Proof. intros I E. destruct I. split; try done. unfold pageSize in *. cbn in *. congruence. Qed.
