(* ===== verification/PageCacheOps.v ===== *)
(** * PageCacheOps: what each operation of the page cache does

    For every critical section of [PageCache]: it does not panic, keeps the
    invariant, and changes only the frames it says. *)
From Stdlib Require Import ZArith Lia List Bool.
From stdpp Require Import base numbers list strings.
From S2P Require Import Prelude Bytes Page StateRoot FreeDirectory Superblock Leases Blocks PageCache PageCacheTable PageCacheInv.

Open Scope Z_scope.

Notation evicts := (shrunk (fun _ => evictable)).

(** ** References *)

Lemma size_test v : 0 < v -> Z.land v (v - 1) = 0 -> exists n, v = Buddy.size n.
Proof.
  intros Hv H. destruct v as [|p|p]; [lia| |lia]. apply Buddy.pow2_test in H. exists (Z.to_nat (pos_tz p)).
  assert (0 <= pos_tz p) by (clear; induction p; simpl pos_tz; lia). unfold Buddy.size. by rewrite Z2Nat.id.
Qed.

Lemma validSize ps : validPhysicalPageSize ps = true -> 4096 <= ps /\ exists n, ps = Buddy.size n.
Proof.
  unfold validPhysicalPageSize, physicalPageQuantum. intros H. apply andb_true_iff in H as [H1 H2]. apply Z.leb_le in H1. apply Z.eqb_eq in H2.
  split; [done|]. by apply size_test; [lia|].
Qed.

(** A valid reference has a span the allocator supports. *)
Lemma validateRef_spec A c ref key : core A c -> validateRef (pc_options c) ref = Ok key ->
  key = keyOf ref /\ key <> zeroKey /\ exists k, (k <= Buddy.maxOrder (pc_blocks c))%nat /\ ref_Length ref = Buddy.size k * pageSize c.
Proof.
  intros I. unfold validateRef. destruct (_ || _) eqn:G; [done|]. intros [= <-]. repeat (apply orb_false_iff in G as [G ?]).
  apply Z.ltb_ge in G. fold (pageSize c) in *. pose proof (ci_page _ _ I) as Hp. split; [done|]. split; [intros E; injection E as E1 E2 E3 E4 _; lia|].
  match goal with H : negb (validPhysicalPageSize _) = false |- _ => apply negb_false_iff, validSize in H as [_ [b Hb]] end.
  match goal with H : (po_MaxPageSize _ <? _) = false |- _ => apply Z.ltb_ge in H; rename H into Hm end.
  destruct (ci_pow _ _ I) as [a Ha]. rewrite (ci_max _ _ I) in Hm.
  assert (a <= b)%nat. { destruct (Nat.le_gt_cases a b) as [|Lt]; [done|]. pose proof (Z.pow_lt_mono_r 2 (Z.of_nat b) (Z.of_nat a)). unfold Buddy.size in *. lia. }
  assert (Eb : Buddy.size b = Buddy.size (b - a) * Buddy.size a) by (unfold Buddy.size; rewrite <- Z.pow_add_r by lia; f_equal; lia).
  exists (b - a)%nat. split; [|by rewrite Hb, Ha]. destruct (Nat.le_gt_cases (b - a) (Buddy.maxOrder (pc_blocks c))) as [|Lt]; [done|].
  pose proof (Buddy.size_pos a). pose proof (Z.pow_lt_mono_r 2 (Z.of_nat (Buddy.maxOrder (pc_blocks c))) (Z.of_nat (b - a))). unfold Buddy.size in *. nia.
Qed.

(** ** Pins *)

Definition leaseOf (c : PageCache) (i : nat) (f : pageCacheFrame) : PageLease :=
  mkLease i (fr_key f) (fr_payloadLength f) (pageOf c i (k_length (fr_key f))).

(** The cache with one more pin on a ready frame, and the lease. *)
Definition pins_frame (key : pageCacheKey) (c : PageCache) (l : PageLease) (c' : PageCache) : Prop :=
  exists i f, pc_frames c !! i = Some f /\ fr_state f = pageCacheReady /\ fr_key f = key /\ fr_pins f <> maxPins /\ l = leaseOf c i f /\ c' = setFrame i (pinned f) c.

Lemma pinFrame_spec c i f : cache_inv c -> pc_frames c !! i = Some f -> fr_state f = pageCacheReady ->
  pinFrame i f (fr_key f) c = Some (leaseOf c i f, setFrame i (pinned f) c).
Proof. intros I Hf Hr. unfold pinFrame. by rewrite (extentBytes_live c i f I Hf (ready_live f Hr)). Qed.

Lemma pinned_inv c i f : cache_inv c -> pc_frames c !! i = Some f -> fr_state f = pageCacheReady -> fr_pins f <> maxPins -> cache_inv (setFrame i (pinned f) c).
Proof.
  intros I Hf Hr Hp. apply (update_inv c i f (pinned f) Hf (ready_live f Hr)); [by apply ready_live|done| |done].
  destruct (frame_ok_at _ _ _ _ I Hf) as (Hpin & _ & _). unfold frame_ok. cbn. split; [lia|]. split; [congruence|]. rewrite (ready_live (pinned f)); done.
Qed.

Lemma tryPinFrame_spec i key c : cache_inv c -> (i < length (pc_frames c))%nat -> exists r c', tryPinFrame i key c = Some (r, c') /\
  match r with None => c' = c | Some l => l_frame l = i /\ pc_closing c = false /\ pins_frame key c l c' end.
Proof.
  intros I Hi. unfold tryPinFrame. destruct (lookup_lt_is_Some_2 (pc_frames c) i Hi) as [f Hf]. rewrite Hf. cbn [mbind option_bind].
  destruct (_ || _) eqn:G; [by exists None, c|]. apply orb_false_iff in G as [G Gp]. apply orb_false_iff in G as [G Gk]. apply orb_false_iff in G as [Gc Gr].
  apply negb_false_iff, bool_decide_eq_true in Gr, Gk. apply Z.eqb_neq in Gp. subst key. rewrite (pinFrame_spec c _ f I Hf Gr). cbn [mbind option_bind].
  eexists _, _. split; [done|]. split; [done|]. split; [done|]. by exists i, f.
Qed.

Lemma tryPinFrom_spec fuel p key c : cache_inv c -> exists r c', tryPinFrom fuel p (cacheKeyHash key) key c = Some (r, c') /\
  match r with None => c' = c | Some l => pins_frame key c l c' end.
Proof.
  intros I. pose proof (ci_table _ _ I) as T. pose proof (t_pow _ _ _ (t_shape _ _ _ T)) as Pw. revert p.
  induction fuel as [|fuel IH]; intros p; cbn [tryPinFrom]; [by exists None, c|]. rewrite slotOf_slot.
  destruct (lookup_lt_is_Some_2 (pc_table c) (slot (length (pc_table c)) (cacheKeyHash key) p) ltac:(by apply slot_lt)) as [e He]. rewrite He. cbn [mbind option_bind].
  destruct (Z.eqb_spec e cacheTableEmpty) as [->|N0]; [by exists None, c|]. destruct (Z.eqb_spec e cacheTableTombstone) as [->|Nt]; [apply IH|].
  assert (Ei : isEntry e = true) by (unfold isEntry; by rewrite !(proj2 (Z.eqb_neq _ _))).
  destruct (entry_frame c T _ _ He Ei) as (f & Hf & _). destruct (tryPinFrame_spec (Z.to_nat (e - 1)) key c I (lookup_lt_Some _ _ _ Hf)) as (r & c1 & E & H).
  rewrite E. cbn [mbind option_bind]. destruct r as [l|]; [destruct H as (_ & _ & H); by exists (Some l), c1|]. subst c1. apply IH.
Qed.

Lemma tryPinReady_spec key c : cache_inv c -> exists r c', tryPinReady (cacheKeyHash key) key c = Some (r, c') /\
  match r with None => c' = c | Some l => pins_frame key c l c' end.
Proof. intros I. unfold tryPinReady. destruct (pc_closing c); [by exists None, c|]. by apply tryPinFrom_spec. Qed.

(** ** Loads *)

(** A load has reserved frame [i] for the key, which no frame had. *)
Record begun_load (key : pageCacheKey) (i : nat) (pin : bool) (c c' : PageCache) : Prop := {
  b_inv : cache_inv c';
  b_new : forall j g, pc_frames c !! j = Some g -> fr_key g <> key;
  b_here : pc_frames c' !! i = Some (mkFrame key 0 0 0 pageCacheLoading pin);
  b_loads : pc_activeLoads c' = pc_activeLoads c + 1;
  b_rest : pc_options c' = pc_options c /\ pc_arena c' = pc_arena c /\ pc_closing c' = pc_closing c /\ pc_closed c' = pc_closed c;
  b_old : forall j g', j <> i -> pc_frames c' !! j = Some g' -> live g' = true -> exists g, pc_frames c !! j = Some g /\ live g = true /\ same_frame g g';
  b_keep : forall j g, pc_frames c !! j = Some g -> live g = true -> (j <> i /\ exists g', pc_frames c' !! j = Some g' /\ live g' = true) \/ evictable g;
}.

Lemma reserved_dead i k c : reserved i k c -> exists f, pc_frames c !! i = Some f /\ live f = false.
Proof.
  intros [I D]. destruct (extent_range _ c I (Z.of_nat i) k ltac:(by right)) as (_ & Hn & _). pose proof (Buddy.size_pos k).
  destruct (lookup_lt_is_Some_2 (pc_frames c) i ltac:(lia)) as [f Hf]. exists f. split; [done|]. apply (D i); [apply Buddy.inside_start|done].
Qed.

Lemma shrunk_fresh Q c c' key : shrunk Q c c' -> (forall j g, pc_frames c !! j = Some g -> fr_key g <> key) ->
  forall j g, pc_frames c' !! j = Some g -> live g = true -> fr_key g <> key.
Proof. intros S F j g Hg Lg. destruct (s_old _ _ _ S j g Hg Lg) as (g0 & H0 & _ & (-> & _)). by eapply F. Qed.

(** The live frames after a reservation and a new extent at [i]. *)
Lemma extended_old Q f i c c1 c2 : shrunk Q c c1 -> extended i f c1 c2 ->
  forall j g', j <> i -> pc_frames c2 !! j = Some g' -> live g' = true -> exists g, pc_frames c !! j = Some g /\ live g = true /\ same_frame g g'.
Proof. intros S E j g' N Hg Lg. destruct (e_agree _ _ _ _ E) as (_ & _ & G2). by apply (s_old _ _ _ S); [apply G2|]. Qed.

Lemma extended_keep i k f c c1 c2 : evicts c c1 -> reserved i k c1 -> extended i f c1 c2 ->
  forall j g, pc_frames c !! j = Some g -> live g = true -> (j <> i /\ exists g', pc_frames c2 !! j = Some g' /\ live g' = true) \/ evictable g.
Proof.
  intros S R E j g Hg Lg. destruct (s_keep _ _ _ S j g Hg Lg) as [(g1 & H1 & L1)|]; [left|by right].
  assert (N : j <> i) by (intros ->; destruct (reserved_dead i k c1 R) as (f0 & ? & ?); simplify_eq; congruence).
  split; [done|]. exists g1. split; [|done]. destruct (e_agree _ _ _ _ E) as (_ & G1 & _). by apply G1.
Qed.


Definition load_outcome (key : pageCacheKey) (pin prefetch : bool) (c : PageCache) (step : load_step) (c' : PageCache) : Prop :=
  match step with
  | LoadLease l => pins_frame key c l c'
  | LoadBegun i => begun_load key i pin c c'
  | LoadWait => evicts c c' /\ cache_inv c' /\ (pc_activeLoads c <> 0 \/ exists i f, pc_frames c !! i = Some f /\ fr_state f = pageCacheLoading)
  | LoadNone => evicts c c' /\ cache_inv c' /\ (pin = true -> prefetch = true)
  | LoadError e => evicts c c' /\ cache_inv c' /\ (e = ErrPageCacheClosed \/ e = ErrPageCachePinned)
  end.

(** The load takes the reserved extent. *)
Lemma beginLoad_spec ref pin c c1 i k : keyOf ref <> zeroKey -> ref_Length ref = Buddy.size k * pageSize c -> 
  (forall j g, pc_frames c !! j = Some g -> fr_key g <> keyOf ref) -> evicts c c1 -> reserved i k c1 ->
  exists c', beginLoad ref (keyOf ref) (cacheKeyHash (keyOf ref)) pin i c1 = Some (LoadBegun i, c') /\ begun_load (keyOf ref) i pin c c'.
Proof.
  intros Nz Hlen Fresh Ev H1. pose proof (s_rest _ _ _ Ev) as (Ro & Ra & Rc & Rd & Rl & _). pose proof (ci_page _ _ (proj1 H1)) as Hp.
  assert (Ek : ref_Length ref = Buddy.size k * pageSize c1) by (unfold pageSize in *; by rewrite Ro). unfold beginLoad. rewrite Ek, Z.div_mul by lia.
  destruct (beginExtent_spec c1 i k (keyOf ref) H1 Ek (shrunk_fresh _ _ _ _ Ev Fresh)) as (c2 & E2 & X). rewrite E2. cbn [mbind option_bind].
  rewrite (e_here _ _ _ _ X). cbn [mbind option_bind]. eexists. split; [done|]. pose proof (e_rest _ _ _ _ X) as (Xo & Xa & Xc & Xd & Xl & _).
  pose proof (lookup_lt_Some _ _ _ (e_here _ _ _ _ X)) as Li.
  assert (I3 : cache_inv (setFrame i (mkFrame (keyOf ref) 0 0 0 pageCacheLoading pin) c2)).
  { apply (update_inv c2 i _ _ (e_here _ _ _ _ X)); try done. apply (e_inv _ _ _ _ X). }
  split; cbn [setLoads setFrame setFrames pc_frames pc_activeLoads pc_options pc_arena pc_closing pc_closed].
  - by destruct I3.
  - done.
  - by rewrite list_lookup_insert_eq.
  - cbn [setFrame setFrames pc_activeLoads]. by rewrite Xl, Rl.
  - split_and!; congruence.
  - intros j g' N Hg. rewrite list_lookup_insert_ne in Hg by done. by apply (extended_old _ _ i c c1 c2 Ev X).
  - intros j g Hg Lg. destruct (extended_keep i k _ c c1 c2 Ev H1 X j g Hg Lg) as [(N & g' & Hg' & Lg')|]; [left|by right].
    split; [done|]. exists g'. by rewrite list_lookup_insert_ne.
Qed.

Lemma loadFull_outcome key pin prefetch c c1 : evicts c c1 -> cache_inv c1 -> load_outcome key pin prefetch c (loadFull prefetch c1) c1.
Proof.
  intros Ev I1. unfold loadFull. destruct prefetch; [done|]. destruct (Z.eqb_spec (pc_activeLoads c1) 0) as [|N]; cbn [negb load_outcome]; [split_and!; [done..|by right]|].
  split_and!; try done. left. pose proof (s_rest _ _ _ Ev) as (_ & _ & _ & _ & Rl & _). congruence.
Qed.

Lemma reserveLoad_spec ref pin prefetch c k : cache_inv c -> keyOf ref <> zeroKey -> (k <= Buddy.maxOrder (pc_blocks c))%nat -> ref_Length ref = Buddy.size k * pageSize c ->
  (forall j g, pc_frames c !! j = Some g -> fr_key g <> keyOf ref) ->
  exists step c', reserveLoad ref (keyOf ref) (cacheKeyHash (keyOf ref)) pin prefetch c = Some (step, c') /\ load_outcome (keyOf ref) pin prefetch c step c'.
Proof.
  intros I Nz Hk Hlen Fresh. pose proof (ci_page _ _ I) as Hp. unfold reserveLoad. replace (ref_Length ref / pageSize c) with (Buddy.size k) by (rewrite Hlen, Z.div_mul by lia; done).
  destruct (reserveLocked_spec k c I Hk) as (r & c1 & E & [Ev H1]). rewrite E. cbn [mbind option_bind]. destruct r as [i|].
  - destruct (beginLoad_spec ref pin c c1 i k Nz Hlen Fresh Ev H1) as (c' & E2 & B). exists (LoadBegun i), c'. by split.
  - eexists _, _. split; [done|]. by apply loadFull_outcome.
Qed.

(** The frame a lookup found. *)
Lemma loadFrame_spec i f pin prefetch c : cache_inv c -> pc_frames c !! i = Some f -> live f = true ->
  exists step c', loadFrame i (fr_key f) pin c = Some (Some step, c') /\ load_outcome (fr_key f) pin prefetch c step c' /\ (forall k, step <> LoadBegun k) /\
    match step with LoadLease l => l_frame l = i | _ => c' = c end.
Proof.
  intros I Hf Lf. unfold loadFrame. rewrite Hf. cbn [mbind option_bind]. destruct (fr_state f) eqn:Hs; [by unfold live in Lf; rewrite Hs in Lf| | |by unfold live in Lf; rewrite Hs in Lf].
  - eexists _, _. split; [done|]. destruct pin; (split; [|done]); cbn [load_outcome]; (split; [apply shrunk_refl|split; [done|]]); [right; by exists i, f|done].
  - destruct pin; cbn [negb]; [|eexists _, _; split; [done|]; split; [|done]; split; [apply shrunk_refl|done]].
    destruct (Z.eqb_spec (fr_pins f) maxPins); [eexists _, _; split; [done|]; split; [|done]; split_and!; [apply shrunk_refl|done|by right]|].
    rewrite (pinFrame_spec c i f I Hf Hs). cbn [mbind option_bind]. eexists _, _. split; [done|]. split; [by exists i, f|done].
Qed.

Lemma loadLocked_spec ref pin prefetch c key : cache_inv c -> validateRef (pc_options c) ref = Ok key ->
  exists step c', loadLocked ref key (cacheKeyHash key) pin prefetch c = Some (step, c') /\ load_outcome key pin prefetch c step c'.
Proof.
  intros I V. destruct (validateRef_spec _ c ref key I V) as (-> & Nz & k & Hk & Hlen). unfold loadLocked.
  destruct (pc_closing c || pc_closed c); [eexists _, _; split; [done|]; split_and!; [apply shrunk_refl|done|by left]|].
  destruct (lookupLocked_spec c (keyOf ref) (ci_table _ _ I) (dead_key _ _ _ I Nz)) as [(i & f & E & Hf & Hkey & Lf)|[E Fresh]]; rewrite E; cbn [mbind option_bind].
  - rewrite <- Hkey. destruct (loadFrame_spec i f pin prefetch c I Hf Lf) as (step & c' & E2 & H & _). rewrite E2. cbn [mbind option_bind]. by exists step, c'.
  - by apply (reserveLoad_spec ref pin prefetch c k).
Qed.

(** ** Reading and publishing *)

Lemma setLoads_inv n c : cache_inv c -> cache_inv (setLoads n c).
Proof. intros I. by destruct I. Qed.

Lemma window_answers {s : list Z} {a b} : window s a b <> OutOfFuel.
Proof. unfold window. by case_match. Qed.

Lemma OpenPage_answers s : OpenPage s <> OutOfFuel.
Proof.
  unfold OpenPage. case_match; [|done]. case_match; [done|]. pose proof (@window_answers s 0 (Z.to_nat (ph_PageSize p))) as W1.
  destruct (window s 0 _) as [page|e|]; [|done..]. cbn [mbind res_bind]. pose proof (@window_answers page 0 (length page - PageTrailerSize)) as W2.
  destruct (window page 0 _) as [body|e|]; [|done..]. cbn [mbind res_bind]. case_match; [done|]. case_match; [done|].
  pose proof (@window_answers page PageHeaderSize (PageHeaderSize + Z.to_nat (ph_PayloadLength p))) as W3. by destruct (window page PageHeaderSize _).
Qed.

Lemma validateLoadedPage_answers o page ref : validateLoadedPage o page ref <> OutOfFuel.
Proof.
  unfold validateLoadedPage. pose proof (OpenPage_answers page) as H. destruct (OpenPage page) as [[h p]|e|]; [|done..]. cbn [mbind res_bind].
  case_match; [done|]. destruct (po_Validate o); [|done]. by case_match.
Qed.

Lemma ReadAt_length file off len bytes : ReadAt file off len = Ok bytes -> (length bytes <= len)%nat.
Proof. unfold ReadAt. case_match; [done|]. intros [= <-]. unfold slice. rewrite length_take. lia. Qed.

(** The bytes that arrive go into the extent of the loading frame. *)
Lemma readInto_spec file arrived ref c i f : cache_inv c -> pc_frames c !! i = Some f -> live f = true -> fr_key f = keyOf ref ->
  exists r a, readInto file arrived ref i c = (r, setArena a c) /\ r <> OutOfFuel /\ cache_inv (setArena a c) /\
    (forall j g, j <> i -> pc_frames c !! j = Some g -> live g = true -> pageOf (setArena a c) j (k_length (fr_key g)) = pageOf c j (k_length (fr_key g))) /\
    (r = Ok tt -> ReadAt file (Z.to_nat (ref_Offset ref)) (Z.to_nat (ref_Length ref)) = Ok (pageOf (setArena a c) i (ref_Length ref)) /\
       length (pageOf (setArena a c) i (ref_Length ref)) = Z.to_nat (ref_Length ref)).
Proof.
  intros I Hf Lf Hk. assert (El : k_length (fr_key f) = ref_Length ref) by (by rewrite Hk).
  assert (Put : forall bytes, (length bytes <= Z.to_nat (ref_Length ref))%nat -> let c' := setArena (setBytes (pc_arena c) (i * Z.to_nat (pageSize c)) bytes) c in
    cache_inv c' /\ forall j g, j <> i -> pc_frames c !! j = Some g -> live g = true -> pageOf c' j (k_length (fr_key g)) = pageOf c j (k_length (fr_key g))).
  { intros bytes Hb. split; [apply setArena_inv; [done|apply setBytes_length]|]. intros j g N Hg Lg. apply (pageOf_other c i j f g bytes); try done. by rewrite El. }
  unfold readInto. destruct (ReadAt _ _ _) as [bytes|e|] eqn:E.
  - pose proof (ReadAt_length _ _ _ _ E) as Hb. destruct (Put bytes Hb) as [P1 P2]. eexists _, _. split; [done|]. split; [by case_match|]. split; [done|]. split; [done|].
    destruct (Nat.eqb_spec (length bytes) (Z.to_nat (ref_Length ref))) as [Eb|]; [intros _|done].
    rewrite <- El in *. by rewrite (pageOf_written c i f bytes).
  - destruct (Put (take (Z.to_nat (ref_Length ref)) arrived)) as [P1 P2]; [rewrite length_take; lia|]. eexists _, _. split; [done|]. by split_and!.
  - exfalso. unfold ReadAt in E. by case_match.
Qed.

(** The frame of a finished load. *)
Definition readyFrame (key : pageCacheKey) (payload : Z) (pin referenced : bool) : pageCacheFrame :=
  mkFrame key 0 payload (if pin then 1 else 0) pageCacheReady referenced.

Definition finished (read : io_res unit) (ref : PageRef) (i : nat) (pin referenced : bool) (c : PageCache) (r : io_res (option PageLease)) (c' : PageCache) : Prop :=
  match r with
  | Ok l => read = Ok tt /\ exists header, validateLoadedPage (pc_options c) (pageOf c i (ref_Length ref)) ref = Ok header /\
      l = (if pin then Some (mkLease i (keyOf ref) (ph_PayloadLength header) (pageOf c i (ref_Length ref))) else None) /\
      c' = setFrame i (readyFrame (keyOf ref) (ph_PayloadLength header) pin referenced) (setLoads (pc_activeLoads c - 1) c)
  | Err _ => same_rest (setLoads (pc_activeLoads c - 1) c) c' /\ agree_except i (pc_frames c) (pc_frames c') /\ pc_frames c' !! i = Some emptyFrame
  | OutOfFuel => False
  end.

Lemma finishLoad_spec read ref i pin referenced c : cache_inv c -> pc_frames c !! i = Some (mkFrame (keyOf ref) 0 0 0 pageCacheLoading referenced) -> read <> OutOfFuel ->
  exists r c', finishLoad read ref (keyOf ref) i pin c = Some (r, c') /\ cache_inv c' /\ finished read ref i pin referenced c r c'.
Proof.
  intros I Hf Hr. set (f := mkFrame (keyOf ref) 0 0 0 pageCacheLoading referenced) in *. assert (Lf : live f = true) by done.
  pose proof (setLoads_inv (pc_activeLoads c - 1) c I) as I1. set (c1 := setLoads (pc_activeLoads c - 1) c) in *.
  unfold finishLoad. fold c1. change (ref_Length ref) with (k_length (fr_key f)) at 1. rewrite (extentBytes_live c i f I Hf Lf). cbn [mbind option_bind].
  change (k_length (fr_key f)) with (ref_Length ref).
  assert (Fail : forall e, exists r c', (c2 ← resetExtentLocked i c1; Some (@Err io_error (option PageLease) e, c2)) = Some (r, c') /\ cache_inv c' /\ finished read ref i pin referenced c r c').
  { intros e. destruct (resetExtent_spec c1 I1 i f Hf Lf) as (c2 & E & I2 & R2 & A2 & H2). rewrite E. cbn [mbind option_bind]. eexists _, _. split; [done|]. split; [done|]. by split. }
  destruct read as [[]|e|]; [|apply Fail|done]. cbn [mbind res_bind].
  pose proof (validateLoadedPage_answers (pc_options c) (pageOf c i (ref_Length ref)) ref) as Hv.
  destruct (validateLoadedPage _ _ _) as [header|e|] eqn:Ev; [|apply Fail|done].
  assert (Hf1 : pc_frames c1 !! i = Some f) by done. rewrite Hf1. cbn [mbind option_bind]. eexists _, _. split; [done|].
  split; [|split; [done|]; exists header; split; [exact Ev|]; by destruct pin].
  apply (update_inv c1 i f _ Hf1 Lf); try done. unfold frame_ok, maxPins. cbn. destruct pin; split_and!; done || lia.
Qed.

(** ** Dirty pages *)

(** A page has been admitted at [i], which no frame had. *)
Record admitted_page (key : pageCacheKey) (src : list Z) (payload dirty : Z) (i : nat) (c c' : PageCache) : Prop := {
  a_inv : cache_inv c';
  a_new : forall j g, pc_frames c !! j = Some g -> fr_key g <> key;
  a_here : pc_frames c' !! i = Some (mkFrame key dirty payload 0 pageCacheReady true);
  a_page : pageOf c' i (k_length key) = src;
  a_rest : pc_options c' = pc_options c /\ pc_closing c' = pc_closing c /\ pc_closed c' = pc_closed c /\ pc_activeLoads c' = pc_activeLoads c;
  a_old : forall j g', j <> i -> pc_frames c' !! j = Some g' -> live g' = true -> exists g, pc_frames c !! j = Some g /\ live g = true /\ same_frame g g' /\
    pageOf c' j (k_length (fr_key g)) = pageOf c j (k_length (fr_key g));
  a_keep : forall j g, pc_frames c !! j = Some g -> live g = true -> (j <> i /\ exists g', pc_frames c' !! j = Some g' /\ live g' = true) \/ evictable g;
}.

Definition admit_outcome (key : pageCacheKey) (src : list Z) (payload dirty : Z) (c : PageCache) (r : admit_step) (c' : PageCache) : Prop :=
  match r with
  | AdmitDone => (c' = c /\ exists i f, pc_frames c !! i = Some f /\ fr_key f = key /\ fr_state f = pageCacheReady /\ fr_dirty f = dirty /\ pageOf c i (k_length key) = src) \/
      exists i, admitted_page key src payload dirty i c c'
  | AdmitWait => evicts c c' /\ cache_inv c' /\ pc_activeLoads c <> 0
  | AdmitError e => evicts c c' /\ cache_inv c' /\ e <> Panic
  end.

Lemma pageOf_arena c c' i len : pc_arena c' = pc_arena c -> pc_options c' = pc_options c -> pageOf c' i len = pageOf c i len.
Proof. unfold pageOf, pageSize. by intros -> ->. Qed.

Lemma admit_page ref src payload dirty c c1 c2 i k : cache_inv c -> dirty <> 0 -> length src = Z.to_nat (ref_Length ref) ->
  (forall j g, pc_frames c !! j = Some g -> fr_key g <> keyOf ref) -> evicts c c1 -> reserved i k c1 -> extended i (loadingFrame (keyOf ref)) c1 c2 ->
  admitted_page (keyOf ref) src payload dirty i c
    (setFrame i (mkFrame (keyOf ref) dirty payload 0 pageCacheReady true) (setArena (setBytes (pc_arena c2) (i * Z.to_nat (pageSize c2)) src) c2)).
Proof.
  intros I Hd Hsrc Fresh Ev Rv X. pose proof (e_inv _ _ _ _ X) as I2. pose proof (e_here _ _ _ _ X) as Hi. pose proof (s_rest _ _ _ Ev) as (Ro & Ra & Rc & Rd & Rl & _).
  pose proof (e_rest _ _ _ _ X) as (Xo & Xa & Xc & Xd & Xl & _). set (a := setBytes (pc_arena c2) (i * Z.to_nat (pageSize c2)) src).
  assert (I3 : cache_inv (setArena a c2)) by (apply setArena_inv; [done|apply setBytes_length]).
  pose proof (lookup_lt_Some _ _ _ Hi) as Li. split.
  - apply (update_inv (setArena a c2) i (loadingFrame (keyOf ref))); done.
  - done.
  - cbn. by rewrite list_lookup_insert_eq.
  - by apply (pageOf_written c2 i (loadingFrame (keyOf ref)) src I2 Hi).
  - cbn. split_and!; congruence.
  - intros j g' N Hg Lg. cbn in Hg. rewrite list_lookup_insert_ne in Hg by done. destruct (extended_old _ _ i c c1 c2 Ev X j g' N Hg Lg) as (g & H0 & L0 & S0).
    exists g. split_and!; try done. destruct S0 as (K0 & _). rewrite <- K0.
    transitivity (pageOf c2 j (k_length (fr_key g'))); [|apply pageOf_arena; congruence].
    apply (pageOf_other c2 i j (loadingFrame (keyOf ref)) g' src); try done. cbn. lia.
  - intros j g Hg Lg. destruct (extended_keep i k _ c c1 c2 Ev Rv X j g Hg Lg) as [(N & g' & Hg' & Lg')|]; [left|by right].
    split; [done|]. exists g'. cbn. by rewrite list_lookup_insert_ne.
Qed.

Lemma beginDirty_spec ref src payload dirty c c1 i k : cache_inv c -> dirty <> 0 -> length src = Z.to_nat (ref_Length ref) -> ref_Length ref = Buddy.size k * pageSize c ->
  (forall j g, pc_frames c !! j = Some g -> fr_key g <> keyOf ref) -> evicts c c1 -> reserved i k c1 ->
  exists c', beginDirty ref (keyOf ref) src payload dirty i c1 = Some (AdmitDone, c') /\ admitted_page (keyOf ref) src payload dirty i c c'.
Proof.
  intros I Hd Hsrc Hlen Fresh Ev H1. pose proof (s_rest _ _ _ Ev) as (Ro & _). pose proof (ci_page _ _ I) as Hp.
  assert (Ek : ref_Length ref = Buddy.size k * pageSize c1) by (unfold pageSize in *; by rewrite Ro). unfold beginDirty.
  replace (ref_Length ref / pageSize c1) with (Buddy.size k) by (unfold pageSize in *; rewrite Ek, Z.div_mul; [done|rewrite Ro; lia]).
  destruct (beginExtent_spec c1 i k (keyOf ref) H1 Ek (shrunk_fresh _ _ _ _ Ev Fresh)) as (c2 & E2 & X). rewrite E2. cbn [mbind option_bind].
  pose proof (extentBytes_live c2 i _ (e_inv _ _ _ _ X) (e_here _ _ _ _ X) eq_refl) as Eb. cbn in Eb. rewrite Eb. cbn [mbind option_bind].
  eexists. split; [done|]. by apply (admit_page ref src payload dirty c c1 c2 i k).
Qed.

Lemma admitFull_outcome key src payload dirty c c1 : evicts c c1 -> cache_inv c1 -> admit_outcome key src payload dirty c (admitFull c1) c1.
Proof.
  intros Ev I1. unfold admitFull. pose proof (s_rest _ _ _ Ev) as (_ & _ & _ & _ & Rl & _). destruct (Z.eqb_spec (pc_activeLoads c1) 0) as [|N]; [done|]. split_and!; try done. congruence.
Qed.

Lemma admitFrame_spec i f ref src payload dirty c : cache_inv c -> pc_frames c !! i = Some f -> live f = true -> fr_key f = keyOf ref ->
  exists r, admitFrame i ref src dirty c = Some (r, c) /\ admit_outcome (keyOf ref) src payload dirty c r c /\ r <> AdmitWait.
Proof.
  intros I Hf Lf Hkey. unfold admitFrame. rewrite Hf. cbn [mbind option_bind]. replace (ref_Length ref) with (k_length (fr_key f)) by (by rewrite Hkey).
  rewrite (extentBytes_live c i f I Hf Lf). cbn [mbind option_bind]. eexists. split; [done|]. destruct (_ || _) eqn:G; [split; [|done]; split_and!; [apply shrunk_refl|done|done]|].
  split; [|done]. left. split; [done|]. exists i, f.
  apply orb_false_iff in G as [G Gb]. apply orb_false_iff in G as [Gr Gd]. apply negb_false_iff, bool_decide_eq_true in Gr, Gb. apply negb_false_iff, Z.eqb_eq in Gd.
  rewrite Hkey in Gb. done.
Qed.

Lemma admitLocked_spec ref src payload dirty c key : cache_inv c -> validateRef (pc_options c) ref = Ok key -> dirty <> 0 -> length src = Z.to_nat (ref_Length ref) ->
  exists r c', admitLocked ref key src payload dirty c = Some (r, c') /\ admit_outcome key src payload dirty c r c'.
Proof.
  intros I V Hd Hsrc. destruct (validateRef_spec _ c ref key I V) as (-> & Nz & k & Hk & Hlen). pose proof (ci_page _ _ I) as Hp. unfold admitLocked.
  destruct (pc_closing c || pc_closed c); [eexists _, _; split; [done|]; split_and!; [apply shrunk_refl|done|done]|].
  destruct (lookupLocked_spec c (keyOf ref) (ci_table _ _ I) (dead_key _ _ _ I Nz)) as [(i & f & E & Hf & Hkey & Lf)|[E Fresh]]; rewrite E; cbn [mbind option_bind].
  - destruct (admitFrame_spec i f ref src payload dirty c I Hf Lf Hkey) as (r & E2 & H & _). by exists r, c.
  - replace (ref_Length ref / pageSize c) with (Buddy.size k) by (rewrite Hlen, Z.div_mul by lia; done).
    destruct (reserveLocked_spec k c I Hk) as (r & c1 & E1 & [Ev H1]). rewrite E1. cbn [mbind option_bind]. destruct r as [i|].
    + destruct (beginDirty_spec ref src payload dirty c c1 i k I Hd Hsrc Hlen Fresh Ev H1) as (c' & E2 & A). exists AdmitDone, c'. split; [done|]. right. by exists i.
    + eexists _, _. split; [done|]. by apply admitFull_outcome.
Qed.

(** ** The other operations *)

(** A change of every frame that keeps keys and liveness. *)
Lemma map_inv (h : pageCacheFrame -> pageCacheFrame) c : (forall f, fr_key (h f) = fr_key f /\ live (h f) = live f /\ (frame_ok f -> frame_ok (h f))) ->
  cache_inv c -> cache_inv (setFrames (h <$> pc_frames c) c).
Proof.
  intros H I. assert (Ex : forall j p, extentOf (setFrames (h <$> pc_frames c) c) j p <-> extentOf c j p).
  { intros j p. unfold extentOf, orderOf, pageSize. cbn [setFrames pc_frames pc_options]. rewrite list_lookup_fmap. split.
    - intros (g & Hj & Hg & Lg & Og). destruct (pc_frames c !! Z.to_nat j) as [f|]; [|done]. injection Hg as <-. destruct (H f) as (K & L & _). exists f. rewrite K in Og. rewrite L in Lg. done.
    - intros (f & Hj & -> & Lg & Og). exists (h f). destruct (H f) as (K & L & _). rewrite K, L. done. }
  eapply core_ext; [exact Ex|]. destruct I as [? ? ? ? ? ? ? O F U T]. split; cbn; rewrite ?length_fmap; try done.
  - intros i g Hg Lg. rewrite list_lookup_fmap in Hg. destruct (pc_frames c !! i) as [f|] eqn:Hf; [|done]. injection Hg as <-. destruct (H f) as (K & L & _).
    unfold orderOf. rewrite K. apply (O i f Hf). congruence.
  - apply Forall_fmap. eapply Forall_impl; [exact F|]. intros f. apply H.
  - intros i j f g Hf Hg Lf Lg. rewrite !list_lookup_fmap in Hf, Hg. destruct (pc_frames c !! i) as [f0|] eqn:E1; [|done]. destruct (pc_frames c !! j) as [g0|] eqn:E2; [|done].
    injection Hf as <-. injection Hg as <-. destruct (H f0) as (K & L & _), (H g0) as (K' & L' & _). rewrite K, K'. apply (U i j f0 g0); congruence.
  - rewrite <- list_fmap_compose. rewrite (list_fmap_ext (liveKey ∘ h) liveKey); [done|]. intros i f _. cbn. unfold liveKey. destruct (H f) as (-> & -> & _). done.
Qed.

Lemma durable_same generation f : fr_key (durable generation f) = fr_key f /\ fr_state (durable generation f) = fr_state f /\ fr_pins (durable generation f) = fr_pins f /\
  fr_payloadLength (durable generation f) = fr_payloadLength f /\ (fr_dirty (durable generation f) = fr_dirty f \/ (fr_dirty f <= generation /\ fr_dirty (durable generation f) = 0)).
Proof.
  unfold durable. destruct (_ && _) eqn:E; [|split_and!; try done; by left]. apply andb_true_iff in E as [_ E]. apply Z.leb_le in E. split_and!; try done. by right.
Qed.

Lemma MarkDurable_inv generation c : cache_inv c -> cache_inv (MarkDurable generation c).
Proof.
  apply (map_inv (durable generation)). intros f. destruct (durable_same generation f) as (K & S & P & _ & D). unfold live, frame_ok. rewrite K, S, P.
  split; [done|]. split; [done|]. intros (A & B & C). split; [exact A|]. split; intros E.
  - destruct (B E). split; [|done]. by destruct D as [->|[_ ->]].
  - unfold live in E. rewrite S in E. destruct (C E) as (? & ? & ?). split_and!; try done. by destruct D as [->|[_ ->]].
Qed.

Lemma discardStep_spec generation i c : generation <> 0 -> cache_inv c -> (i < length (pc_frames c))%nat ->
  exists c', discardStep i generation c = Some c' /\ cache_inv c' /\ shrunk (fun _ f => fr_dirty f = generation) c c' /\
    exists f, pc_frames c' !! i = Some f /\ fr_dirty f <> generation.
Proof.
  intros Hg I Hi. unfold discardStep. destruct (lookup_lt_is_Some_2 (pc_frames c) i Hi) as [f Hf]. rewrite Hf. cbn [mbind option_bind].
  pose proof (frame_ok_at _ _ _ _ I Hf) as (_ & _ & Dead). destruct (decide (fr_dirty f = generation)) as [E|N].
  - destruct (live f) eqn:Lf; [|destruct (Dead eq_refl) as (_ & ? & _); congruence].
    destruct (resetExtent_spec c I i f Hf Lf) as (c1 & E1 & I1 & R1 & A1 & H1). rewrite bool_decide_false by (intros E2; unfold live in Lf; by rewrite E2 in Lf).
    rewrite (proj2 (Z.eqb_eq _ _) E). cbn [negb andb]. exists c1. split_and!; try done; [by eapply reset_shrunk|]. exists emptyFrame. split; [done|]. cbn. congruence.
  - rewrite (proj2 (Z.eqb_neq _ _) N), andb_false_r. exists c. split_and!; try done; [apply shrunk_refl|by exists f].
Qed.

Lemma discardFrom_spec generation n i c : generation <> 0 -> cache_inv c -> (i + n = length (pc_frames c))%nat ->
  exists c', discardFrom n i generation c = Some c' /\ cache_inv c' /\ shrunk (fun _ f => fr_dirty f = generation) c c' /\
    forall j f, (i <= j)%nat -> pc_frames c' !! j = Some f -> fr_dirty f <> generation.
Proof.
  intros Hg. revert i c. induction n as [|n IH]; intros i c I Hn; cbn [discardFrom].
  { exists c. split_and!; try done; [apply shrunk_refl|]. intros j f Hj Hf. apply lookup_lt_Some in Hf. lia. }
  destruct (discardStep_spec generation i c Hg I ltac:(lia)) as (c1 & E1 & I1 & S1 & f1 & Hf1 & Nf1). rewrite E1. cbn [mbind option_bind]. pose proof (s_rest _ _ _ S1) as (_ & _ & _ & _ & _ & L1 & _).
  destruct (IH (S i) c1 I1 ltac:(lia)) as (c' & E & I' & S' & Hd). exists c'. split; [done|]. split; [done|]. split.
  - eapply shrunk_trans; [|exact S1|exact S']. intros _ g g' (_ & -> & _). done.
  - intros j g Hj Hgj. destruct (decide (j = i)) as [->|]; [|apply (Hd j); [lia|done]]. destruct (live g) eqn:Lg.
    + destruct (s_old _ _ _ S' i g Hgj Lg) as (g0 & H0 & _ & (_ & -> & _)). by simplify_eq.
    + destruct (frame_ok_at _ _ _ _ I' Hgj) as (_ & _ & D'). destruct (D' Lg) as (_ & -> & _). congruence.
Qed.

Lemma DiscardDirty_spec generation c : generation <> 0 -> cache_inv c ->
  exists e c', cache_DiscardDirty generation c = (e, c') /\ cache_inv c' /\ shrunk (fun _ f => fr_dirty f = generation /\ fr_pins f = 0) c c' /\
    (e = None -> forall j f, pc_frames c' !! j = Some f -> fr_dirty f <> generation) /\ e <> Some Panic.
Proof.
  intros Hg I. unfold cache_DiscardDirty. destruct (existsb _ _) eqn:Ex; [eexists _, _; split; [done|]; split_and!; try done; apply shrunk_refl|].
  destruct (discardFrom_spec generation (length (pc_frames c)) 0 c Hg I ltac:(lia)) as (c' & E & I' & S & D). rewrite E. eexists _, _. split; [done|].
  split_and!; try done; [|intros _ j f; apply D; lia]. destruct S as [R O K]. split; try done. intros j g Hj Lg. destruct (K j g Hj Lg) as [|Hd]; [by left|right]. split; [done|].
  destruct (decide (fr_pins g = 0)) as [|Np]; [done|]. exfalso. apply not_true_iff_false in Ex. apply Ex, existsb_exists. exists g. split; [apply list_elem_of_In; by eapply list_elem_of_lookup_2|].
  unfold pinnedDirty. rewrite Hd, Z.eqb_refl, (proj2 (Z.eqb_neq _ _) Np), bool_decide_false; [done|]. intros E2. unfold live in Lg. by rewrite E2 in Lg.
Qed.

Lemma Invalidate_spec ref c : cache_inv c -> exists b c', Invalidate ref c = Some (b, c') /\ cache_inv c' /\ evicts c c' /\
  (b = true -> forall j f, pc_frames c' !! j = Some f -> fr_key f <> keyOf ref).
Proof.
  intros I. unfold Invalidate. destruct (validateRef (pc_options c) ref) as [key|e|] eqn:V; [|eexists _, _; split; [done|]; split_and!; try done; apply shrunk_refl..].
  destruct (validateRef_spec _ c ref key I V) as (-> & Nz & _).
  destruct (lookupLocked_spec c (keyOf ref) (ci_table _ _ I) (dead_key _ _ _ I Nz)) as [(i & f & E & Hf & Hkey & Lf)|[E Fresh]]; rewrite E; cbn [mbind option_bind];
    [|eexists _, _; split; [done|]; split_and!; try done; apply shrunk_refl].
  rewrite Hf. cbn [mbind option_bind]. destruct (_ || _) eqn:G; [eexists _, _; split; [done|]; split_and!; try done; apply shrunk_refl|].
  apply orb_false_iff in G as [G Gp]. apply orb_false_iff in G as [Gl Gd]. apply bool_decide_eq_false in Gl. apply negb_false_iff, Z.eqb_eq in Gd, Gp.
  assert (Gr : fr_state f = pageCacheReady) by (unfold live in Lf; destruct (fr_state f); done).
  destruct (resetExtent_spec c I i f Hf Lf) as (c' & E1 & I1 & R1 & A1 & H1). rewrite E1. cbn [mbind option_bind]. eexists _, _. split; [done|].
  split_and!; try done; [by eapply reset_shrunk|]. intros _ j g Hg Hk. pose proof (dead_key _ _ _ I1 Nz j g Hg Hk) as Lg. destruct A1 as (_ & _ & G2).
  assert (j <> i) by (intros ->; by simplify_eq). pose proof (G2 j g ltac:(done) Hg Lg) as H0. assert (j = i); [|done]. apply (ci_unique _ _ I j i g f); try done. congruence.
Qed.

Definition unpinned (f : pageCacheFrame) : pageCacheFrame := mkFrame (fr_key f) (fr_dirty f) (fr_payloadLength f) (fr_pins f - 1) (fr_state f) (fr_referenced f).

(** Releasing a frame the lease still names. *)
Lemma release_spec c i f : cache_inv c -> pc_frames c !! i = Some f -> fr_state f = pageCacheReady -> 0 < fr_pins f ->
  release i (fr_key f) c = setFrame i (unpinned f) c /\ cache_inv (setFrame i (unpinned f) c).
Proof.
  intros I Hf Hr Hp. unfold release. rewrite Hf, !Z.eqb_refl, (proj2 (Z.eqb_neq _ _)) by lia. split; [done|].
  apply (update_inv c i f (unpinned f) Hf (ready_live f Hr)); [by apply ready_live|done| |done].
  destruct (frame_ok_at _ _ _ _ I Hf) as (Hpin & _ & _). unfold frame_ok. cbn. split; [lia|]. split; [congruence|]. by rewrite (ready_live (unpinned f)).
Qed.
