(* ===== verification/PageCacheStore.v ===== *)
(** * PageCacheStore: the page cache implements the store of pages

    Between calls no load is in flight.  Then every page has one content, in a
    frame or in the file behind the cache: [load] returns it, and neither loads,
    evictions, releases nor dirty admissions of other pages change it.  This is
    the interface [PageStore] that the free tree is verified against. *)
From Stdlib Require Import ZArith Lia List Bool.
From stdpp Require Import base numbers list strings.
From S2P Require Import Prelude Bytes Page StateRoot FreeDirectory Superblock Leases Blocks Device Committer GroupCommit WriteTx FreeTree PageCache PageCacheTable PageCacheInv PageCacheOps.

Open Scope Z_scope.

(** ** Content *)

Record quiet (c : PageCache) : Prop := {
  q_inv : cache_inv c;
  q_loads : pc_activeLoads c = 0;
  q_ready : forall i f, pc_frames c !! i = Some f -> fr_state f <> pageCacheLoading;
}.

Lemma keyOf_inj r r' : keyOf r = keyOf r' -> r = r'.
Proof. destruct r, r'. unfold keyOf. cbn. intros [= -> -> -> -> -> -> ->]. done. Qed.

Lemma quiet_ready c i f : quiet c -> pc_frames c !! i = Some f -> live f = true -> fr_state f = pageCacheReady.
Proof. intros Q Hf Hl. pose proof (q_ready c Q i f Hf). unfold live in Hl. by destruct (fr_state f). Qed.

Section Content.
  Context (file : os_file).

(** The file has the page, and it would be admitted. *)
Definition on_file (o : PageCacheOptions) (r : PageRef) (b : list Z) : Prop :=
  slice (f_data file) (Z.to_nat (ref_Offset r)) (Z.to_nat (ref_Offset r) + Z.to_nat (ref_Length r)) = b /\ length b = Z.to_nat (ref_Length r) /\
  exists h, validateLoadedPage o b r = Ok h.

Definition absent (c : PageCache) (key : pageCacheKey) : Prop := forall i f, pc_frames c !! i = Some f -> fr_key f <> key.

(** The content of a page: that of its frame, which is dirty or agrees with the
    file, or that of the file. *)
Definition holds_in (c : PageCache) (r : PageRef) (b : list Z) : Prop :=
  validateRef (pc_options c) r = Ok (keyOf r) /\
  ((exists i f, pc_frames c !! i = Some f /\ fr_key f = keyOf r /\ fr_state f = pageCacheReady /\ pageOf c i (ref_Length r) = b /\
      (fr_dirty f <> 0 \/ on_file (pc_options c) r b)) \/
   (absent c (keyOf r) /\ on_file (pc_options c) r b)).

(** ** What preserves content *)

Record transfers (new : pageCacheKey -> Prop) (c c' : PageCache) : Prop := {
  tr_inv : cache_inv c';
  tr_options : pc_options c' = pc_options c;
  tr_keep : forall j g, pc_frames c !! j = Some g -> live g = true ->
    (exists g', pc_frames c' !! j = Some g' /\ fr_key g' = fr_key g /\ fr_state g' = fr_state g /\ fr_dirty g' = fr_dirty g /\
       pageOf c' j (k_length (fr_key g)) = pageOf c j (k_length (fr_key g))) \/
    (fr_dirty g = 0 /\ forall g', pc_frames c' !! j = Some g' -> fr_key g' <> fr_key g);
  tr_old : forall j g', pc_frames c' !! j = Some g' -> live g' = true -> new (fr_key g') \/ exists g, pc_frames c !! j = Some g /\ live g = true /\ fr_key g = fr_key g';
}.

Lemma transfers_holds new c c' r b : cache_inv c -> transfers new c c' -> ~ new (keyOf r) -> holds_in c r b -> holds_in c' r b.
Proof.
  intros I [I' Eo K O] N [V H]. destruct (validateRef_spec _ c r _ I V) as (_ & Nz & _). unfold holds_in. rewrite Eo. split; [done|].
  assert (Ab : (forall j g, pc_frames c !! j = Some g -> live g = true -> fr_key g = keyOf r -> forall g', pc_frames c' !! j = Some g' -> fr_key g' <> keyOf r) -> absent c' (keyOf r)).
  { intros Ha j g' Hg' Hk. pose proof (dead_key _ _ _ I' Nz j g' Hg' Hk) as Lg'. destruct (O j g' Hg' Lg') as [Hn|(g & Hg & Lg & Ek)]; [by rewrite Hk in Hn|].
    apply (Ha j g Hg Lg) with g'; congruence. }
  destruct H as [(i & f & Hf & Hk & Hr & Hp & Hd)|[Ha Hd]].
  - destruct (K i f Hf (ready_live f Hr)) as [(f' & Hf' & K' & S' & D' & P')|[D0 Gone]].
    + left. exists i, f'. rewrite D', K', S'. split_and!; try done. rewrite Hk in P'. change (k_length (keyOf r)) with (ref_Length r) in P'. by rewrite P'.
    + right. destruct Hd as [?|Hd]; [done|]. split; [|done]. apply Ab. intros j g Hg Lg Ek. assert (j = i) as ->; [|simplify_eq; rewrite <- Hk; apply Gone].
      apply (ci_unique _ _ I j i g f); try done; [by apply ready_live|congruence].
  - right. split; [|done]. apply Ab. intros j g Hg _ Ek. by destruct (Ha j g Hg).
Qed.

(** Eviction. *)
Lemma evicts_transfers c c' : cache_inv c -> cache_inv c' -> evicts c c' -> transfers (fun _ => False) c c'.
Proof.
  intros I I' [(Ro & Ra & _) O K]. split; try done.
  - intros j g Hg Lg. destruct (pc_frames c' !! j) as [g'|] eqn:E; [destruct (live g') eqn:Lg'|].
    + left. destruct (O j g' E Lg') as (g0 & H0 & L0 & (K0 & D0 & P0 & N0 & S0)). simplify_eq. exists g'. split_and!; try done. by apply pageOf_arena.
    + right. destruct (K j g Hg Lg) as [(g1 & H1 & L1)|(_ & D & _)]; [simplify_eq; congruence|]. split; [done|]. intros g1 Hg1 Hk. simplify_eq.
      destruct (frame_ok_at _ _ _ _ I' E) as (_ & _ & Dd). destruct (Dd Lg') as (Hz & _). destruct (ci_order _ _ I j g Hg Lg) as [o Ho].
      apply (live_key g (pageSize c) o Lg Ho (ci_page _ _ I)). congruence.
    + right. destruct (K j g Hg Lg) as [(g1 & H1 & L1)|(_ & D & _)]; [congruence|]. by split.
  - intros j g' Hg' Lg'. right. destruct (O j g' Hg' Lg') as (g & Hg & Lg & (Ek & _)). by exists g.
Qed.

Lemma evicts_quiet c c' : quiet c -> cache_inv c' -> evicts c c' -> quiet c'.
Proof.
  intros Q I' Ev. pose proof (s_rest _ _ _ Ev) as (_ & _ & _ & _ & Rl & _). split; [done|rewrite Rl; apply (q_loads _ Q)|]. intros i f Hf E.
  assert (Lf : live f = true) by (unfold live; by rewrite E). destruct (s_old _ _ _ Ev i f Hf Lf) as (g & Hg & _ & (_ & _ & _ & _ & S)). apply (q_ready c Q i g Hg). congruence.
Qed.

(** Pins and reference bits. *)
Lemma update_transfers c i f f' : cache_inv c -> pc_frames c !! i = Some f -> live f = true -> fr_key f' = fr_key f -> fr_state f' = fr_state f -> fr_dirty f' = fr_dirty f -> frame_ok f' ->
  transfers (fun _ => False) c (setFrame i f' c).
Proof.
  intros I Hf Lf Hk Hs Hd Of. assert (Lf' : live f' = true) by (unfold live; by rewrite Hs). split; [by apply (update_inv c i f f')|done|..].
  - intros j g Hg Lg. left. cbn. destruct (decide (j = i)) as [->|N].
    + rewrite list_lookup_insert_eq by (by eapply lookup_lt_Some). simplify_eq. by exists f'.
    + rewrite list_lookup_insert_ne by done. by exists g.
  - intros j g' Hg' Lg'. right. destruct (update_lookup c i f f' Hf Lf Lf' Hk j g' Hg' Lg') as (g & Hg & Lg & Ek & _). by exists g.
Qed.

Lemma update_quiet c i f f' : quiet c -> pc_frames c !! i = Some f -> fr_state f' <> pageCacheLoading -> cache_inv (setFrame i f' c) -> quiet (setFrame i f' c).
Proof.
  intros Q Hf Hs I'. split; [done|apply (q_loads _ Q)|]. cbn. intros j g Hg. destruct (decide (j = i)) as [->|].
  - rewrite list_lookup_insert_eq in Hg by (by eapply lookup_lt_Some). by simplify_eq.
  - rewrite list_lookup_insert_ne in Hg by done. by apply (q_ready _ Q j).
Qed.

(** The state after an operation that changes no content. *)
Definition stays (c c' : PageCache) : Prop := quiet c' /\ pc_options c' = pc_options c /\ forall r b, holds_in c r b -> holds_in c' r b.

Lemma stays_refl c : quiet c -> stays c c.
Proof. done. Qed.

Lemma evicts_stays c c' : quiet c -> cache_inv c' -> evicts c c' -> stays c c'.
Proof.
  intros Q I' Ev. split; [by eapply evicts_quiet|]. split; [apply (s_rest _ _ _ Ev)|]. intros r b.
  apply (transfers_holds (fun _ => False)); [apply (q_inv _ Q)|by apply evicts_transfers; [apply (q_inv _ Q)|..]|intros []].
Qed.

Lemma pins_stays key c l c' : quiet c -> pins_frame key c l c' -> stays c c'.
Proof.
  intros Q (i & f & Hf & Hr & Hk & Hp & _ & ->). pose proof (pinned_inv c i f (q_inv _ Q) Hf Hr Hp) as I'.
  split; [apply (update_quiet c i f); [done..| |done]; cbn; congruence|]. split; [done|]. intros r b.
  apply (transfers_holds (fun _ => False)); [apply (q_inv _ Q)| |intros []]. apply (update_transfers c i f); try done; [apply (q_inv _ Q)|by apply ready_live|].
  apply (frame_ok_at _ _ i _ I'). cbn. rewrite list_lookup_insert_eq; [done|by eapply lookup_lt_Some].
Qed.

(** ** Loading *)

(** The lease shows the content of the page. *)
Definition shows (c : PageCache) (l : PageLease) (key : pageCacheKey) (b : list Z) : Prop :=
  l_key l = key /\ l_page l = b /\ exists f, pc_frames c !! l_frame l = Some f /\ fr_key f = key /\ fr_state f = pageCacheReady /\ 0 < fr_pins f.

Lemma pins_shows c l c' r b : quiet c -> pins_frame (keyOf r) c l c' -> holds_in c r b -> shows c' l (keyOf r) b.
Proof.
  intros Q (i & f & Hf & Hr & Hk & Hp & -> & ->) [_ H]. pose proof (frame_ok_at _ _ _ _ (q_inv _ Q) Hf) as (Hpin & _). unfold shows, leaseOf. cbn. split; [done|]. split.
  - destruct H as [(j & g & Hg & Ek & Sg & Pg & _)|[Ha _]]; [|by destruct (Ha i f Hf)]. assert (j = i) as ->; [|by rewrite Hk].
    apply (ci_unique _ _ (q_inv _ Q) j i g f); try done; [by apply ready_live..|congruence].
  - exists (pinned f). rewrite list_lookup_insert_eq by (by eapply lookup_lt_Some). split_and!; try done. cbn. lia.
Qed.

(** A finished load: the frames are the old ones, and that of the load. *)
Lemma load_transfers key i pin c c2 c' : cache_inv c -> begun_load key i pin c c2 -> cache_inv c' -> pc_options c' = pc_options c2 ->
  (forall j g, j <> i -> live g = true -> pc_frames c' !! j = Some g <-> pc_frames c2 !! j = Some g) ->
  (forall f, pc_frames c' !! i = Some f -> live f = true -> fr_key f = key) ->
  (forall j g, j <> i -> pc_frames c2 !! j = Some g -> live g = true -> pageOf c' j (k_length (fr_key g)) = pageOf c2 j (k_length (fr_key g))) ->
  transfers (fun k => k = key /\ exists f, pc_frames c' !! i = Some f /\ live f = true) c c'.
Proof.
  intros I [I2 New Here Loads (Ro & Ra & _ & _) Old Keep] I' Eo Same At Page.
  assert (Dead : forall j g g', pc_frames c !! j = Some g -> live g = true -> pc_frames c' !! j = Some g' -> live g' = false -> fr_key g' <> fr_key g).
  { intros j g g' Hg Lg Hg' Lg' Hk. destruct (frame_ok_at _ _ _ _ I' Hg') as (_ & _ & Dd). destruct (Dd Lg') as (Hz & _). destruct (ci_order _ _ I j g Hg Lg) as [o Ho].
    apply (live_key g (pageSize c) o Lg Ho (ci_page _ _ I)). congruence. }
  split; [done|congruence|..].
  - intros j g Hg Lg. destruct (decide (j = i)) as [->|N].
    + destruct (Keep i g Hg Lg) as [[? _]|(_ & D & _)]; [done|]. right. split; [done|]. intros g' Hg'. destruct (live g') eqn:Lg'; [|by eapply Dead].
      rewrite (At g' Hg' Lg'). intros Hk. by apply (New i g Hg).
    + destruct (pc_frames c2 !! j) as [g2|] eqn:E2; [destruct (live g2) eqn:L2|].
      * left. destruct (Old j g2 N E2 L2) as (g0 & H0 & L0 & (K0 & D0 & P0 & N0 & S0)). simplify_eq. exists g2. split; [by apply Same|]. split_and!; try done.
        rewrite <- K0, Page by done. by apply pageOf_arena.
      * right. destruct (Keep j g Hg Lg) as [(_ & g1 & H1 & L1)|(_ & D & _)]; [simplify_eq; congruence|]. split; [done|]. intros g' Hg'. destruct (live g') eqn:Lg'; [|by eapply Dead].
        apply Same in Hg'; [|done..]. simplify_eq. congruence.
      * right. destruct (Keep j g Hg Lg) as [(_ & g1 & H1 & L1)|(_ & D & _)]; [congruence|]. split; [done|]. intros g' Hg'. destruct (live g') eqn:Lg'; [|by eapply Dead].
        apply Same in Hg'; [|done..]. congruence.
  - intros j g' Hg' Lg'. destruct (decide (j = i)) as [->|N]; [left; split; [by apply At|by exists g']|right].
    apply Same in Hg'; [|done..]. destruct (Old j g' N Hg' Lg') as (g & Hg & Lg & (Ek & _)). by exists g.
Qed.

Lemma on_file_read o ref b : on_file o ref b -> ReadAt file (Z.to_nat (ref_Offset ref)) (Z.to_nat (ref_Length ref)) =
  if f_read_error file (Z.to_nat (ref_Offset ref)) (Z.to_nat (ref_Length ref)) then Err ErrIO else Ok b.
Proof. intros (H & _). unfold ReadAt. by rewrite H. Qed.

(** Why a load of a page that is there can fail. *)
Definition load_refused (ref : PageRef) (e : io_error) : Prop :=
  e = ErrPageCacheClosed \/ e = ErrPageCachePinned \/
  (e = ErrIO /\ f_read_error file (Z.to_nat (ref_Offset ref)) (Z.to_nat (ref_Length ref)) = true).

Definition loaded (ref : PageRef) (c : PageCache) (r : io_res (option PageLease)) (c' : PageCache) : Prop :=
  stays c c' /\
  match r with
  | Ok (Some l) => forall b, holds_in c ref b -> shows c' l (keyOf ref) b
  | Ok None => False
  | Err e => forall b, holds_in c ref b -> load_refused ref e
  | OutOfFuel => False
  end.

Section Begun.
  Context (ref : PageRef) (c c2 : PageCache) (i : nat).
  Hypothesis Q : quiet c.
  Hypothesis V : validateRef (pc_options c) ref = Ok (keyOf ref).
  Hypothesis B : begun_load (keyOf ref) i true c c2.

Lemma begun_quiet c' : cache_inv c' -> pc_activeLoads c' = pc_activeLoads c2 - 1 ->
  (forall j g, j <> i -> live g = true -> pc_frames c' !! j = Some g <-> pc_frames c2 !! j = Some g) ->
  (forall f, pc_frames c' !! i = Some f -> fr_state f <> pageCacheLoading) -> quiet c'.
Proof.
  intros I' El Same At. split; [done|rewrite El, (b_loads _ _ _ _ _ B), (q_loads _ Q); done|]. intros j g Hg E.
  destruct (decide (j = i)) as [->|N]; [by apply (At g)|]. assert (Lg : live g = true) by (unfold live; by rewrite E). apply Same in Hg; [|done..].
  destruct (b_old _ _ _ _ _ B j g N Hg Lg) as (g0 & H0 & _ & (_ & _ & _ & _ & S)). apply (q_ready _ Q j g0 H0). congruence.
Qed.

(** A page that was not resident is on file. *)
Lemma begun_on_file b : holds_in c ref b -> on_file (pc_options c) ref b.
Proof. intros [_ [(j & f & Hf & Hk & _)|[_ H]]]; [|done]. by destruct (b_new _ _ _ _ _ B j f Hf). Qed.

Local Notation same_frames c' := (forall j g, j <> i -> live g = true -> pc_frames c' !! j = Some g <-> pc_frames c2 !! j = Some g).

(** Contents after the load, whatever became of the frame. *)
Lemma begun_holds c' r b : cache_inv c' -> pc_options c' = pc_options c2 -> same_frames c' -> (forall f, pc_frames c' !! i = Some f -> live f = true -> fr_key f = keyOf ref) ->
  (forall j g, j <> i -> pc_frames c2 !! j = Some g -> live g = true -> pageOf c' j (k_length (fr_key g)) = pageOf c2 j (k_length (fr_key g))) ->
  (r = ref -> forall f, pc_frames c' !! i = Some f -> live f = false) -> holds_in c r b -> holds_in c' r b.
Proof.
  intros I' Eo Same At Pg N. pose proof (load_transfers (keyOf ref) i true c c2 c' (q_inv _ Q) B I' Eo Same At Pg) as T.
  apply (transfers_holds _ c c' r b (q_inv _ Q) T). intros (Hk & f & Hf & Lf). apply keyOf_inj in Hk. by rewrite (N Hk f Hf) in Lf.
Qed.

(** The page was read and is published. *)
Lemma load_succeeds a h : cache_inv (setArena a c2) ->
  (forall j g, j <> i -> pc_frames c2 !! j = Some g -> live g = true -> pageOf (setArena a c2) j (k_length (fr_key g)) = pageOf c2 j (k_length (fr_key g))) ->
  ReadAt file (Z.to_nat (ref_Offset ref)) (Z.to_nat (ref_Length ref)) = Ok (pageOf (setArena a c2) i (ref_Length ref)) ->
  let c' := setFrame i (readyFrame (keyOf ref) (ph_PayloadLength h) true true) (setLoads (pc_activeLoads c2 - 1) (setArena a c2)) in
  cache_inv c' -> loaded ref c (Ok (Some (mkLease i (keyOf ref) (ph_PayloadLength h) (pageOf (setArena a c2) i (ref_Length ref))))) c'.
Proof.
  intros I3 Pg Er c' I'. pose proof (b_rest _ _ _ _ _ B) as (Ro & Ra & _). assert (Eo : pc_options c' = pc_options c) by exact Ro.
  assert (Li : (i < length (pc_frames c2))%nat) by (eapply lookup_lt_Some, (b_here _ _ _ _ _ B)).
  assert (At : pc_frames c' !! i = Some (readyFrame (keyOf ref) (ph_PayloadLength h) true true)) by (cbn; by rewrite list_lookup_insert_eq).
  assert (Same : same_frames c') by (intros j g N _; cbn; by rewrite list_lookup_insert_ne).
  assert (Of : forall b, holds_in c ref b -> pageOf (setArena a c2) i (ref_Length ref) = b).
  { intros b Hb. pose proof (on_file_read _ _ _ (begun_on_file b Hb)) as Ef. rewrite Er in Ef. destruct (f_read_error _ _ _); [done|]. by injection Ef. }
  split; [split; [|split; [done|]]|].
  - apply begun_quiet; try done. intros f Hf. rewrite At in Hf. by simplify_eq.
  - intros r b Hb. destruct (decide (r = ref)) as [->|N]; [|apply begun_holds; try done; intros f Hf _; rewrite At in Hf; by simplify_eq].
    split; [by rewrite Eo|]. left. eexists i, _. split; [exact At|]. split_and!; try done; [by apply Of|]. right. rewrite Eo. by apply begun_on_file.
  - intros b Hb. split_and!; [done|by apply Of|]. eexists. split; [exact At|]. by split_and!.
Qed.

(** The load failed and its frame is free again. *)
Lemma load_fails a e c' : cache_inv c' -> same_rest (setLoads (pc_activeLoads c2 - 1) (setArena a c2)) c' ->
  (forall j g, j <> i -> pc_frames c2 !! j = Some g -> live g = true -> pageOf (setArena a c2) j (k_length (fr_key g)) = pageOf c2 j (k_length (fr_key g))) ->
  agree_except i (pc_frames c2) (pc_frames c') -> pc_frames c' !! i = Some emptyFrame -> (forall b, holds_in c ref b -> load_refused ref e) -> loaded ref c (Err e) c'.
Proof.
  intros I' (So & Sa & _ & _ & Sl & _) Pg (Ll & G1 & G2) He Hr. pose proof (b_rest _ _ _ _ _ B) as (Ro & Ra & _).
  assert (Same : same_frames c') by (intros j g N Lg; split; intros Hg; [by apply G2|by apply G1]). split; [|done]. split; [|split; [rewrite So; exact Ro|]].
  - apply begun_quiet; try done. intros f Hf. rewrite He in Hf. by simplify_eq.
  - intros r b. apply begun_holds; try done.
    + intros f Hf Lf. rewrite He in Hf. by simplify_eq.
    + intros j g N Hg Lg. rewrite (pageOf_arena (setArena a c2) c') by done. by apply Pg.
    + intros _ f Hf. rewrite He in Hf. by simplify_eq.
Qed.

(** A page that is on file is refused only when reading fails. *)
Lemma finish_refused rd c3 e c' b : readInto file [] ref i c2 = (rd, c3) -> cache_inv c3 -> finishLoad rd ref (keyOf ref) i true c3 = Some (Err e, c') ->
  pc_frames c3 = pc_frames c2 -> holds_in c ref b -> load_refused ref e.
Proof.
  intros E I3 Ef Fr Hb. pose proof (begun_on_file b Hb) as Of. pose proof (on_file_read _ _ _ Of) as Er. pose proof (b_rest _ _ _ _ _ B) as (Ro & _ & _ & _).
  pose proof (b_here _ _ _ _ _ B) as Hi. right; right. unfold readInto in E. rewrite Er in E. rewrite <- Fr in Hi.
  pose proof (extentBytes_live c3 i _ I3 Hi eq_refl) as Ex. cbn in Ex. unfold finishLoad in Ef. rewrite Ex in Ef. cbn [mbind option_bind] in Ef.
  destruct (f_read_error _ _ _) eqn:Fe.
  - injection E as <- <-. split; [|done]. cbn [mbind res_bind] in Ef. destruct (resetExtentLocked _ _); [|done]. by injection Ef as <-.
  - exfalso. destruct Of as (_ & Hl & h & Hv). rewrite (proj2 (Nat.eqb_eq _ _) Hl) in E. injection E as <- <-. cbn [mbind res_bind] in Ef.
    pose proof (pageOf_written c2 i _ b (b_inv _ _ _ _ _ B) (b_here _ _ _ _ _ B) eq_refl Hl) as Pw. cbn in Pw. rewrite Pw in Ef.
    cbn [setArena pc_options] in Ef. rewrite Ro, Hv in Ef. cbn [setLoads setArena pc_frames] in Ef, Hi. rewrite Hi in Ef. done.
Qed.

Lemma load_finishes : exists r c', (let '(read, c3) := readInto file [] ref i c2 in finishLoad read ref (keyOf ref) i true c3) = Some (r, c') /\ loaded ref c r c'.
Proof.
  pose proof (b_here _ _ _ _ _ B) as Hi. destruct (readInto_spec file [] ref c2 i _ (b_inv _ _ _ _ _ B) Hi eq_refl eq_refl) as (rd & a & E & Hrd & I3 & Pg & Rd). rewrite E.
  destruct (finishLoad_spec rd ref i true true (setArena a c2) I3 Hi Hrd) as (r & c' & Ef & I' & F). exists r, c'. split; [exact Ef|].
  destruct r as [l|e|]; [| |done].
  - destruct F as (-> & h & Hv & -> & ->). destruct (Rd eq_refl) as [Er _]. by apply load_succeeds.
  - destruct F as (R & Ag & He). apply (load_fails a); try done. intros b. by apply (finish_refused rd (setArena a c2) e c' b).
Qed.
End Begun.

Lemma load_loaded ref c : quiet c -> let '(r, c') := load file ref true false c in loaded ref c r c'.
Proof.
  intros Q. unfold load. destruct (validateRef (pc_options c) ref) as [key|e|] eqn:V.
  2: { split; [by apply stays_refl|]. intros b [Hv _]. congruence. }
  2: { unfold validateRef in V. by case_match. }
  destruct (validateRef_spec _ c ref key (q_inv _ Q) V) as (-> & _).
  destruct (tryPinReady_spec (keyOf ref) c (q_inv _ Q)) as (q & c1 & E1 & H1). rewrite E1. cbn [mbind option_bind].
  destruct q as [l|]; [split; [by eapply pins_stays|intros b Hb; by eapply pins_shows]|]. subst c1.
  destruct (loadLocked_spec ref true false c (keyOf ref) (q_inv _ Q) V) as (st & c2 & E2 & H2). rewrite E2. cbn [mbind option_bind].
  destruct st as [l|i| | |e]; cbn [load_outcome orPanic default from_option id] in *.
  - split; [by eapply pins_stays|intros b Hb; by eapply pins_shows].
  - destruct (load_finishes ref c c2 i Q V H2) as (r & c' & E3 & H3). rewrite E3. done.
  - destruct H2 as (_ & _ & H). by specialize (H eq_refl).
  - destruct H2 as (_ & _ & [N|(i & f & Hf & Hs)]); [by rewrite (q_loads _ Q) in N|by apply (q_ready _ Q) in Hf].
  - destruct H2 as (Ev & I' & He). split; [by apply evicts_stays|]. intros b _. destruct He; [by left|right; by left].
Qed.

(** ** Admission, release and discarding *)

Lemma checkDirty_spec o ref src g key bytes payload : checkDirty o ref src g = Ok (key, bytes, payload) ->
  validateRef o ref = Ok key /\ g <> 0 /\ bytes = take (Z.to_nat (ref_Length ref)) src /\ length bytes = Z.to_nat (ref_Length ref).
Proof.
  unfold checkDirty. destruct (validateRef o ref) as [k|e|]; [|done..]. destruct (_ || _) eqn:G; [done|]. apply orb_false_iff in G as [G Gl]. apply orb_false_iff in G as [G _].
  apply Z.eqb_neq in G. apply Z.ltb_ge in Gl. destruct (OpenPage _) as [[h p]|e|]; [|done..]. cbn [mbind res_bind]. case_match; [done|]. intros [= <- <- <-].
  split_and!; try done. rewrite length_take. lia.
Qed.

Lemma admitted_transfers key src payload g i c c' : cache_inv c -> admitted_page key src payload g i c c' -> transfers (eq key) c c'.
Proof.
  intros I [I' New Here Page (Ro & _) Old Keep]. split; [done|done|..].
  - intros j x Hx Lx. assert (Dead : forall x', pc_frames c' !! j = Some x' -> live x' = false -> fr_key x' <> fr_key x).
    { intros x' Hx' Lx' Hk. destruct (frame_ok_at _ _ _ _ I' Hx') as (_ & _ & Dd). destruct (Dd Lx') as (Hz & _). destruct (ci_order _ _ I j x Hx Lx) as [o Ho].
      apply (live_key x (pageSize c) o Lx Ho (ci_page _ _ I)). congruence. }
    destruct (decide (j = i)) as [->|N].
    + destruct (Keep i x Hx Lx) as [[? _]|(_ & D & _)]; [done|]. right. split; [done|]. intros x' Hx'. rewrite Here in Hx'. simplify_eq. cbn. intros Hk. by apply (New i x Hx).
    + destruct (pc_frames c' !! j) as [x'|] eqn:E; [destruct (live x') eqn:Lx'|].
      * left. destruct (Old j x' N E Lx') as (x0 & H0 & L0 & (K0 & D0 & P0 & N0 & S0) & Pg). simplify_eq. by exists x'.
      * right. destruct (Keep j x Hx Lx) as [(_ & x1 & H1 & L1)|(_ & D & _)]; [simplify_eq; congruence|]. split; [done|]. intros x1 Hx1. simplify_eq. by apply Dead.
      * right. destruct (Keep j x Hx Lx) as [(_ & x1 & H1 & L1)|(_ & D & _)]; [congruence|]. by split.
  - intros j x' Hx' Lx'. destruct (decide (j = i)) as [->|N]; [left; rewrite Here in Hx'; by simplify_eq|right].
    destruct (Old j x' N Hx' Lx') as (x & Hx & Lx & (Ek & _) & _). by exists x.
Qed.

Lemma admitted_quiet key src payload g i c c' : quiet c -> admitted_page key src payload g i c c' -> quiet c'.
Proof.
  intros Q [I' New Here Page (Ro & _ & _ & Rl) Old Keep]. split; [done|rewrite Rl; apply (q_loads _ Q)|]. intros j x Hx E. destruct (decide (j = i)) as [->|N].
  - rewrite Here in Hx. by simplify_eq.
  - assert (Lx : live x = true) by (unfold live; by rewrite E). destruct (Old j x N Hx Lx) as (x0 & H0 & _ & (_ & _ & _ & _ & S) & _). apply (q_ready _ Q j x0 H0). congruence.
Qed.

(** What admission promises. *)
Definition admits (ref : PageRef) (src : list Z) (g : Z) (c : PageCache) (e : option io_error) (c' : PageCache) : Prop :=
  quiet c' /\ pc_options c' = pc_options c /\ (forall r b, r <> ref -> holds_in c r b -> holds_in c' r b) /\
  match e with
  | None => holds_in c' ref (take (Z.to_nat (ref_Length ref)) src) /\ forall i f, pc_frames c' !! i = Some f -> fr_key f = keyOf ref -> fr_dirty f = g
  | Some e => (bytes_ok src -> e <> Panic) /\ forall b, holds_in c ref b -> holds_in c' ref b
  end.

Lemma OpenPage_panic s : bytes_ok s -> OpenPage s <> Err Panic.
Proof. intros H. apply (OpenPage_no_panic s H). Qed.

Lemma AdmitDirty_admits ref src g c : quiet c -> let '(e, c') := cache_AdmitDirty ref src g c in admits ref src g c e c'.
Proof.
  intros Q. assert (Same : forall e, (bytes_ok src -> e <> Panic) -> admits ref src g c (Some e) c) by (by intros e He; split_and!). unfold cache_AdmitDirty.
  destruct (checkDirty (pc_options c) ref src g) as [[[key bytes] payload]|e|] eqn:Ec.
  2: { apply Same. intros Hb. unfold checkDirty in Ec. destruct (validateRef _ _); [|congruence|done]. case_match; [congruence|].
       pose proof (OpenPage_panic (take (Z.to_nat (ref_Length ref)) src) ltac:(by apply Forall_take)) as Np. destruct (OpenPage _) as [[h p]|e'|]; cbn [mbind res_bind] in Ec; [|congruence..]. case_match; congruence. }
  2: { unfold checkDirty in Ec. destruct (validateRef (pc_options c) ref) eqn:V; [|done|unfold validateRef in V; by case_match]. case_match; [done|].
       pose proof (OpenPage_answers (take (Z.to_nat (ref_Length ref)) src)). destruct (OpenPage _) as [[h p]|e'|]; cbn [mbind res_bind] in Ec; [by case_match|done..]. }
  destruct (checkDirty_spec _ _ _ _ _ _ _ Ec) as (V & Hg & -> & Hl). destruct (validateRef_spec _ c ref key (q_inv _ Q) V) as (-> & _).
  destruct (admitLocked_spec ref _ payload g c _ (q_inv _ Q) V Hg Hl) as (r & c' & E & H). rewrite E.
  assert (Err : forall e, e <> Panic -> evicts c c' -> cache_inv c' -> admits ref src g c (Some e) c').
  { intros e He Ev I'. destruct (evicts_stays c c' Q I' Ev) as (Q' & Eo & Hh). split_and!; try done; [intros r0 b _; apply Hh|]. intros b. apply Hh. }
  destruct r as [| |e]; cbn [admit_outcome] in H.
  - destruct H as [(-> & i & f & Hf & Hk & Hr & Hd & Hp)|(i & A)].
    + split_and!; try done; [split; [done|]; left; exists i, f; split_and!; try done; left; congruence|]. intros j f' Hf' Hk'.
      assert (j = i) as ->; [|by simplify_eq]. pose proof (q_inv _ Q) as I. apply (ci_unique _ _ I j i f' f); try done; [|by apply ready_live|congruence].
      apply (dead_key _ _ _ I (proj1 (proj2 (validateRef_spec _ c ref _ I V))) j f' Hf' Hk').
    + pose proof (a_rest _ _ _ _ _ _ _ A) as (Ro & _). split; [by eapply admitted_quiet|]. split; [done|]. split.
      * intros r b N. apply (transfers_holds (eq (keyOf ref))); [apply (q_inv _ Q)|by eapply admitted_transfers; [apply (q_inv _ Q)|]|]. intros Hk. by apply N, eq_sym, keyOf_inj.
      * split; [split; [by rewrite Ro|]; left; eexists i, _; split; [apply (a_here _ _ _ _ _ _ _ A)|]; split_and!; try done; [apply (a_page _ _ _ _ _ _ _ A)|]; by left|].
        intros j f Hf Hk. destruct (decide (j = i)) as [->|N]; [rewrite (a_here _ _ _ _ _ _ _ A) in Hf; by simplify_eq|].
        pose proof (dead_key _ _ _ (a_inv _ _ _ _ _ _ _ A) (proj1 (proj2 (validateRef_spec _ c ref _ (q_inv _ Q) V))) j f Hf Hk) as Lf.
        destruct (a_old _ _ _ _ _ _ _ A j f N Hf Lf) as (f0 & H0 & _ & (K0 & _) & _). destruct (a_new _ _ _ _ _ _ _ A j f0 H0). congruence.
  - destruct H as (Ev & I' & N). by rewrite (q_loads _ Q) in N.
  - destruct H as (Ev & I' & N). by apply Err.
Qed.

Lemma unpinned_stays c i f f' : quiet c -> pc_frames c !! i = Some f -> fr_pins f <> 0 -> f' = unpinned f -> stays c (setFrame i f' c).
Proof.
  intros Q Hf Hp ->. destruct (frame_ok_at _ _ _ _ (q_inv _ Q) Hf) as (Hpin & _ & Dead).
  assert (Lf : live f = true) by (destruct (live f) eqn:L; [done|]; by destruct (Dead eq_refl) as (_ & _ & ?)). pose proof (quiet_ready c i f Q Hf Lf) as Hr.
  destruct (release_spec c i f (q_inv _ Q) Hf Hr ltac:(lia)) as [_ I']. split; [apply (update_quiet c i f); [done..| |done]; cbn; congruence|]. split; [done|]. intros r b.
  apply (transfers_holds (fun _ => False)); [apply (q_inv _ Q)| |intros []]. apply (update_transfers c i f); try done; [apply (q_inv _ Q)|].
  apply (frame_ok_at _ _ i _ I'). cbn. rewrite list_lookup_insert_eq; [done|by eapply lookup_lt_Some].
Qed.

Lemma release_stays c i key : quiet c -> stays c (release i key c).
Proof.
  intros Q. unfold release. destruct (pc_frames c !! i) as [f|] eqn:Hf; [|by apply stays_refl]. destruct (_ && _) eqn:G; [|by apply stays_refl].
  apply andb_true_iff in G as [_ G]. apply negb_true_iff, Z.eqb_neq in G. by apply (unpinned_stays c i f).
Qed.

(** Discarding keeps every page but those of the generation. *)
Lemma DiscardDirty_keeps g c : quiet c -> g <> 0 -> let '(e, c') := cache_DiscardDirty g c in
  quiet c' /\ pc_options c' = pc_options c /\ (e = None \/ e = Some ErrPageCachePinned) /\
  (forall r b, (forall i f, pc_frames c !! i = Some f -> fr_key f = keyOf r -> fr_dirty f <> g) -> holds_in c r b -> holds_in c' r b) /\
  (e = None -> forall i f, pc_frames c' !! i = Some f -> fr_dirty f <> g).
Proof.
  intros Q Hg. destruct (DiscardDirty_spec g c Hg (q_inv _ Q)) as (e & c' & E & I' & S & D & Np). rewrite E. pose proof (s_rest _ _ _ S) as (Ro & Ra & _ & _ & Rl & _).
  split; [split; [done|rewrite Rl; apply (q_loads _ Q)|]; intros i f Hf Es|split; [done|split; [|split; [|done]]]].
  - assert (Lf : live f = true) by (unfold live; by rewrite Es). destruct (s_old _ _ _ S i f Hf Lf) as (f0 & H0 & _ & (_ & _ & _ & _ & S0)). apply (q_ready _ Q i f0 H0). congruence.
  - unfold cache_DiscardDirty in E. destruct (existsb _ _); [right; congruence|]. destruct (discardFrom _ _ _ _); [left; congruence|]. injection E as <- _. done.
  - intros r b Hd [V H]. destruct (validateRef_spec _ c r _ (q_inv _ Q) V) as (_ & Nz & _). split; [by rewrite Ro|]. destruct H as [(i & f & Hf & Hk & Hr & Hp & Hdf)|[Ha Hf]].
    + left. destruct (s_keep _ _ _ S i f Hf (ready_live f Hr)) as [(f' & Hf' & Lf')|[Hdg _]]; [|by destruct (Hd i f Hf Hk)].
      destruct (s_old _ _ _ S i f' Hf' Lf') as (f0 & H0 & _ & (K0 & D0 & _ & _ & S0)). simplify_eq. exists i, f'. rewrite K0, D0, S0, Ro. split_and!; try done. by rewrite (pageOf_arena c c').
    + right. rewrite Ro. split; [|done]. intros i f Hf' Hk. pose proof (dead_key _ _ _ I' Nz i f Hf' Hk) as Lf. destruct (s_old _ _ _ S i f Hf' Lf) as (f0 & H0 & _ & (K0 & _)).
      apply (Ha i f0 H0). congruence.
Qed.

(** Pages become clean when the file has them. *)
Lemma MarkDurable_stays g c : quiet c ->
  (forall i f r, pc_frames c !! i = Some f -> fr_key f = keyOf r -> fr_state f = pageCacheReady -> fr_dirty f <> 0 -> fr_dirty f <= g -> on_file (pc_options c) r (pageOf c i (ref_Length r))) ->
  stays c (MarkDurable g c).
Proof.
  intros Q Hfile. pose proof (MarkDurable_inv g c (q_inv _ Q)) as I'. assert (Hlook : forall i, pc_frames (MarkDurable g c) !! i = durable g <$> (pc_frames c !! i)).
  { intros i. unfold MarkDurable. cbn [setFrames pc_frames]. apply list_lookup_fmap. }
  split; [split; [done|apply (q_loads _ Q)|]|split; [done|]].
  - intros i f Hf. rewrite Hlook in Hf. destruct (pc_frames c !! i) as [f0|] eqn:H0; [|done]. injection Hf as <-. destruct (durable_same g f0) as (_ & -> & _). by apply (q_ready _ Q i).
  - intros r b [V H]. split; [done|]. destruct H as [(i & f & Hf & Hk & Hr & Hp & Hd)|[Ha Hf]].
    + left. exists i, (durable g f). destruct (durable_same g f) as (K & S & _ & _ & D). rewrite Hlook, Hf, K, S. split_and!; try done.
      destruct D as [->|[Hle _]]; [done|]. right. destruct Hd as [Hd|?]; [|done]. rewrite <- Hp. by apply (Hfile i f r).
    + right. split; [|done]. intros i f Hf'. rewrite Hlook in Hf'. destruct (pc_frames c !! i) as [f0|] eqn:H0; [|done]. injection Hf' as <-.
      destruct (durable_same g f0) as (-> & _). by apply (Ha i).
Qed.

Lemma Invalidate_stays r c : quiet c -> exists b c', Invalidate r c = Some (b, c') /\ stays c c'.
Proof. intros Q. destruct (Invalidate_spec r c (q_inv _ Q)) as (b & c' & E & I' & Ev & _). exists b, c'. split; [done|]. by apply evicts_stays. Qed.
End Content.

(** ** The new cache *)

Lemma growTable_spec fuel m want : want <= 2 ^ Z.of_nat (m + fuel) -> exists m', (m <= m' <= m + fuel)%nat /\ growTable fuel (2 ^ Z.of_nat m) want = 2 ^ Z.of_nat m' /\ want <= 2 ^ Z.of_nat m'.
Proof.
  revert m. induction fuel as [|fuel IH]; intros m Hw; cbn [growTable]; [exists m; rewrite Nat.add_0_r in Hw; split_and!; done || lia|].
  destruct (Z.ltb_spec (2 ^ Z.of_nat m) want) as [Lt|Ge]; [|exists m; split_and!; done || lia].
  replace (2 * 2 ^ Z.of_nat m) with (2 ^ Z.of_nat (S m)) by (rewrite Nat2Z.inj_succ, Z.pow_succ_r by lia; lia).
  destruct (IH (S m)) as (m' & Hm & E & H); [by replace (S m + fuel)%nat with (m + S fuel)%nat by lia|]. exists m'. split_and!; done || lia.
Qed.

(** What normalized options satisfy. *)
Lemma normalized_spec options o slots : cache_normalized options = Ok (o, slots) ->
  4096 <= po_PageSize o /\ (exists a, po_PageSize o = Buddy.size a) /\ 0 < slots < cacheTableTombstone - 1 /\
  exists M, (M < 32)%nat /\ po_MaxPageSize o = Buddy.size M * po_PageSize o.
Proof.
  unfold cache_normalized. set (ps := defaultPageSize options). set (mx := defaultMaxPageSize options). repeat (case_match; [done|]). intros [= <- <-]. cbn [po_PageSize po_MaxPageSize].
  repeat match goal with H : _ || _ = false |- _ => apply orb_false_iff in H as [? ?] end.
  repeat match goal with H : negb (validPhysicalPageSize _) = false |- _ => apply negb_false_iff, validSize in H as [? [? ?]] end.
  repeat match goal with H : (_ <? _) = false |- _ => apply Z.ltb_ge in H | H : (_ <=? _) = false |- _ => apply Z.leb_gt in H end.
  match goal with H : ps = Buddy.size ?x, H' : mx = Buddy.size ?y |- _ => rename H into Ha, x into a, H' into Hb, y into b end.
  assert (a <= b)%nat. { destruct (Nat.le_gt_cases a b) as [|Lt]; [done|]. pose proof (Z.pow_lt_mono_r 2 (Z.of_nat b) (Z.of_nat a)). unfold Buddy.size in *. lia. }
  split; [lia|]. split; [by exists a|]. split; [lia|]. exists (b - a)%nat.
  assert (Eb : mx = Buddy.size (b - a) * ps) by (rewrite Ha, Hb; unfold Buddy.size; rewrite <- Z.pow_add_r by lia; f_equal; lia). split; [|done].
  destruct (Nat.lt_ge_cases (b - a) 32) as [|Ge]; [done|]. pose proof (Z.pow_le_mono_r 2 32 (Z.of_nat (b - a))). unfold Buddy.size in *. nia.
Qed.

Lemma NewPageCache_quiet options c : NewPageCache options = Ok c ->
  Z.of_nat (length (pc_frames c)) + po_MaxPageSize (pc_options c) / po_PageSize (pc_options c) < 2 ^ 32 -> quiet c.
Proof.
  unfold NewPageCache. destruct (cache_normalized options) as [[o slots]|e|] eqn:E; [|done..]. cbn [mbind res_bind].
  destruct (normalized_spec _ _ _ E) as (Hp & Hpow & Hs & M & HM & Hmax). rewrite Hmax, Z.div_mul by lia. destruct (Buddy.newPageCacheBlocks _ _) as [b|] eqn:Eb; [|done].
  unfold cacheTableTombstone in Hs. destruct (growTable_spec 63 1 (slots * 2)) as (m & Hm & Eg & Hw); [lia|]. change (2 ^ Z.of_nat 1) with 2 in Eg. rewrite Eg.
  intros [= <-]. cbn [pc_frames pc_options]. rewrite Hmax, Z.div_mul, length_replicate, Z2Nat.id by lia. intros Hb.
  destruct (Buddy.new_at slots M) as (b' & Eb' & Ib & Sb & Mb); [unfold Buddy.valid_arena; lia|]. rewrite Eb in Eb'. injection Eb' as <-.
  assert (Em : forall i f, replicate (Z.to_nat slots) emptyFrame !! i = Some f -> f = emptyFrame) by (intros i f Hf; by apply lookup_replicate in Hf as [-> _]).
  split; [|done|cbn; intros i f Hf; by rewrite (Em i f Hf)].
  assert (Hlen : length (replicate (Z.to_nat (2 ^ Z.of_nat m)) cacheTableEmpty) = Z.to_nat (2 ^ Z.of_nat m)) by apply length_replicate.
  split; unfold pageSize; cbn [pc_options pc_blocks pc_frames pc_arena pc_hand pc_table pc_tombs]; rewrite ?length_replicate; try done.
  - by rewrite Mb.
  - eapply Buddy.inv_ext; [|exact Ib]. intros i o'. split; [|done]. intros (f & _ & Hf & Lf & _). cbn in Hf. by rewrite (Em _ f Hf) in Lf.
  - lia.
  - rewrite Z2Nat.inj_mul by lia. done.
  - lia.
  - intros i f Hf Lf. by rewrite (Em i f Hf) in Lf.
  - apply Forall_replicate, emptyFrame_ok.
  - intros i j f g Hf _ Lf. by rewrite (Em i f Hf) in Lf.
  - rewrite fmap_replicate. split; [split|..]; rewrite ?length_replicate.
    + exists m. split; [lia|]. rewrite Z2Nat.id by lia. done.
    + lia.
    + unfold cacheTableTombstone. lia.
    + by apply Forall_replicate; left; left.
    + rewrite countOf_none; [done|]. by apply Forall_replicate.
    + intros i k Hk. apply lookup_replicate in Hk as [Hk _]. done.
    + rewrite countOf_none; [lia|]. by apply Forall_replicate.
Qed.

(** ** Histories *)

Section History.
  Context (file : os_file) (options : PageCacheOptions).

(** The caches that calls can produce from a new one.  Pages are marked durable
    once the file has them, and generation zero is never discarded. *)
Inductive cached : PageCache -> Prop :=
| CNew c : NewPageCache options = Ok c -> Z.of_nat (length (pc_frames c)) + po_MaxPageSize (pc_options c) / po_PageSize (pc_options c) < 2 ^ 32 -> cached c
| CAcquire ref c : cached c -> cached (load file ref true false c).2
| CRelease l c : cached c -> cached (release (l_frame l) (l_key l) c)
| CAdmit ref src g c : cached c -> cached (cache_AdmitDirty ref src g c).2
| CDurable g c : cached c ->
    (forall i f r, pc_frames c !! i = Some f -> fr_key f = keyOf r -> fr_state f = pageCacheReady -> fr_dirty f <> 0 -> fr_dirty f <= g ->
       on_file file (pc_options c) r (pageOf c i (ref_Length r))) -> cached (MarkDurable g c)
| CDiscard g c : g <> 0 -> cached c -> cached (cache_DiscardDirty g c).2
| CInvalidate ref b c c' : cached c -> Invalidate ref c = Some (b, c') -> cached c'.

Lemma cached_quiet c : cached c -> quiet c.
Proof.
  induction 1 as [c E Hb|ref c _ IH|l c _ IH|ref src g c _ IH|g c _ IH Hf|g c Hg _ IH|ref b c c' _ IH E].
  - by eapply NewPageCache_quiet.
  - pose proof (load_loaded file ref c IH) as H. destruct (load file ref true false c) as [r c']. apply H.
  - by apply (release_stays file).
  - pose proof (AdmitDirty_admits file ref src g c IH) as H. destruct (cache_AdmitDirty ref src g c) as [r c']. apply H.
  - by apply (MarkDurable_stays file).
  - pose proof (DiscardDirty_keeps file g c IH Hg) as H. destruct (cache_DiscardDirty g c) as [r c']. apply H.
  - destruct (Invalidate_stays file ref c IH) as (b' & c2 & E' & H). rewrite E in E'. injection E' as _ <-. apply H.
Qed.

(** C5: after any history of calls, acquiring a page that has a content, the
    bytes last admitted for it or those on file, returns a pinned lease on
    exactly that content, whatever was evicted to make room, or an error: the
    cache is closed, no clean unpinned span is free, or reading the file fails.
    No page changes its content. *)
Theorem Acquire_coherent (c : PageCache) (ref : PageRef) (b : list Z) : cached c -> holds_in file c ref b ->
  let '(r, c') := load file ref true false c in
  (forall r' b', holds_in file c r' b' -> holds_in file c' r' b') /\
  match r with
  | Ok (Some l) => l_key l = keyOf ref /\ l_page l = b /\
      exists f, pc_frames c' !! l_frame l = Some f /\ fr_key f = keyOf ref /\ fr_state f = pageCacheReady /\ 0 < fr_pins f
  | Err e => load_refused file ref e
  | _ => False
  end.
Proof.
  intros H Hb. pose proof (load_loaded file ref c (cached_quiet c H)) as L. destruct (load file ref true false c) as [r c']. destruct L as [(_ & _ & St) L]. split; [done|].
  destruct r as [[l|]|e|]; try done; by apply (L b).
Qed.

(** C16: after any history, admitting a page never panics; when it succeeds the
    page has the admitted bytes until its generation is discarded, and in every
    case no other page changes its content. *)
Theorem AdmitDirty_coherent (c : PageCache) (ref : PageRef) (src : list Z) (g : Z) : cached c -> bytes_ok src ->
  let '(e, c') := cache_AdmitDirty ref src g c in
  (forall r b, r <> ref -> holds_in file c r b -> holds_in file c' r b) /\
  match e with
  | None => holds_in file c' ref (take (Z.to_nat (ref_Length ref)) src) /\
      forall g', g' <> 0 -> g' <> g -> holds_in file (cache_DiscardDirty g' c').2 ref (take (Z.to_nat (ref_Length ref)) src)
  | Some e => e <> Panic /\ forall b, holds_in file c ref b -> holds_in file c' ref b
  end.
Proof.
  intros H Hb. pose proof (AdmitDirty_admits file ref src g c (cached_quiet c H)) as A. destruct (cache_AdmitDirty ref src g c) as [[e|] c'] eqn:E.
  - destruct A as (_ & _ & Hk & He & Hr). split_and!; try done. by apply He.
  - destruct A as (Q' & _ & Hk & Hr & Hd). split; [done|]. split; [done|]. intros g' Hg' Ng. pose proof (DiscardDirty_keeps file g' c' Q' Hg') as D.
    destruct (cache_DiscardDirty g' c') as [e' c2]. destruct D as (_ & _ & _ & D & _). apply D; [|done]. intros i f Hf Hkey.
    rewrite (Hd i f Hf Hkey). congruence.
Qed.
End History.

(** ** The interface *)

Definition quietCache : Type := { c : PageCache | quiet c }.

(** An operation that keeps the cache quiet, on quiet caches. *)
Definition onQuiet {A} (f : PageCache -> A * PageCache) (Hf : forall c, quiet c -> quiet (f c).2) (k : quietCache) : A * quietCache :=
  ((f (proj1_sig k)).1, exist _ (f (proj1_sig k)).2 (Hf _ (proj2_sig k))).

Lemma AdmitDirty_quiet r b g c : quiet c -> quiet (cache_AdmitDirty r b g c).2.
Proof. intros Q. pose proof (AdmitDirty_admits (mkFile [] (fun _ _ => false) false) r b g c Q) as H. destruct (cache_AdmitDirty r b g c). apply H. Qed.

Lemma DiscardDirty_quiet g c : g <> 0 -> quiet c -> quiet (cache_DiscardDirty g c).2.
Proof. intros Hg Q. pose proof (DiscardDirty_keeps (mkFile [] (fun _ _ => false) false) g c Q Hg) as H. destruct (cache_DiscardDirty g c). apply H. Qed.

(** A transaction's generation is never zero. *)
Definition pageDirtyCache : DirtyCache := {|
  cache := quietCache;
  AdmitDirty := fun r b g => onQuiet (cache_AdmitDirty r b g) (AdmitDirty_quiet r b g);
  DiscardDirty := fun g k => match decide (g = 0) with left _ => (None, k) | right N => onQuiet (cache_DiscardDirty g) (fun c => DiscardDirty_quiet g c N) k end;
|}.

Definition leaseBytes (r : io_res (option PageLease)) : io_res (list Z) :=
  match r with Ok (Some l) => Ok (l_page l) | Ok None => Err Panic | Err e => Err e | OutOfFuel => OutOfFuel end.

Definition acquireBytes (file : os_file) (r : PageRef) (c : PageCache) : io_res (list Z) * PageCache :=
  let '(x, c') := load file r true false c in (leaseBytes x, c').

(** The lease on [r] names the frame that holds [r]. *)
Definition releaseRef (r : PageRef) (c : PageCache) : unit * PageCache :=
  (tt, match lookupLocked (cacheKeyHash (keyOf r)) (keyOf r) c with Some (Some i) => release i (keyOf r) c | _ => c end).

Lemma acquireBytes_spec file r c : quiet c -> let '(x, c') := acquireBytes file r c in
  stays file c c' /\ x <> OutOfFuel /\ forall b b', holds_in file c r b -> x = Ok b' -> b' = b.
Proof.
  intros Q. unfold acquireBytes. pose proof (load_loaded file r c Q) as H. destruct (load file r true false c) as [[[l|]|e|] c']; destruct H as [St H]; try done.
  split_and!; try done. intros b b' Hb [= <-]. by destruct (H b Hb) as (_ & ? & _).
Qed.

Lemma acquireBytes_quiet file r c : quiet c -> quiet (acquireBytes file r c).2.
Proof. intros Q. pose proof (acquireBytes_spec file r c Q) as H. destruct (acquireBytes file r c). apply H. Qed.

Lemma releaseRef_stays file r c : quiet c -> stays file c (releaseRef r c).2.
Proof. intros Q. cbn. destruct (lookupLocked _ _ _) as [[i|]|]; [by apply release_stays|by apply stays_refl..]. Qed.

Lemma releaseRef_quiet r c : quiet c -> quiet (releaseRef r c).2.
Proof. intros Q. apply (releaseRef_stays (mkFile [] (fun _ _ => false) false) r c Q). Qed.

(** The page cache over a file is a [PageStore]. *)
Definition pageCacheStore (file : os_file) : PageStore pageDirtyCache.
Proof.
  refine (Build_PageStore pageDirtyCache (fun r => onQuiet (acquireBytes file r) (acquireBytes_quiet file r)) (fun r k => (onQuiet (releaseRef r) (releaseRef_quiet r) k).2)
    (fun k r b => holds_in file (proj1_sig k) r b) _ _ _ _ _ _).
  - intros r [c Q] b b' k' Hb E. pose proof (acquireBytes_spec file r c Q) as H. unfold onQuiet in E. cbn [proj1_sig proj2_sig] in *.
    injection E as E _. destruct (acquireBytes file r c) as [x c']. destruct H as (_ & _ & H). by apply (H b b' Hb).
  - intros r [c Q] x k' r' b E Hb. pose proof (acquireBytes_spec file r c Q) as H. unfold onQuiet in E. injection E as _ <-. cbn [proj1_sig proj2_sig] in *.
    destruct (acquireBytes file r c) as [y c']. destruct H as ((_ & _ & H) & _). by apply H.
  - intros r [c Q]. pose proof (acquireBytes_spec file r c Q) as H. unfold onQuiet. cbn [proj1_sig fst]. destruct (acquireBytes file r c) as [y c']. apply H.
  - intros r [c Q] r' b Hb. unfold onQuiet. cbn [proj1_sig snd] in *. by apply (releaseRef_stays file r c Q).
  - intros r bytes g [c Q] k' E. pose proof (AdmitDirty_admits file r bytes g c Q) as H. cbn in E. unfold onQuiet in E. injection E as E <-. cbn [proj1_sig] in *.
    destruct (cache_AdmitDirty r bytes g c) as [e c']. cbn in E. subst e. destruct H as (_ & _ & _ & H & _). exact H.
  - intros r bytes g [c Q] e k' r' b E N Hb. pose proof (AdmitDirty_admits file r bytes g c Q) as H. cbn in E. unfold onQuiet in E. injection E as _ <-. cbn [proj1_sig] in *.
    destruct (cache_AdmitDirty r bytes g c) as [e' c']. destruct H as (_ & _ & H & _). apply H; [congruence|done].
Defined.

(** ** A cache of eight slots and a page for it *)

Definition ex_file : os_file := mkFile [] (fun _ _ => false) false.
Definition ex_options : PageCacheOptions := mkCacheOptions 0 None 4096 8192 32768 (replicate 16 7) 0 0 0 0.
Definition cacheOr (r : io_res PageCache) : PageCache := match r with Ok c => c | _ => mkCache ex_options [] [] [] (Buddy.mkBlocks [] [] 0 0) 0 0 true true 0 end.
Definition ex_new : PageCache := cacheOr (NewPageCache ex_options).
Definition ex_ref : PageRef := mkPageRef 16384 5 3 8192 PageDocument 0 0.
Definition ex_bytes : list Z :=
  match (page ← InitPage (replicate 8192 0) (mkPageHeader (replicate 16 7) 3 5 8192 100 PageDocument 0); sealInitializedPage page) with Ok (page, _) => page | _ => [] end.

Lemma cacheOr_eq r : is_ok r = true -> r = Ok (cacheOr r).
Proof. by destruct r. Qed.

Lemma ex_cached : cached ex_file ex_options ex_new.
Proof. apply CNew; [apply cacheOr_eq|]; vm_compute; reflexivity. Qed.

(** What the theorems say where the operation is known to succeed. *)
Lemma admitted_holds file options c ref src g : cached file options c -> match (cache_AdmitDirty ref src g c).1 with None => true | Some _ => false end = true ->
  holds_in file (cache_AdmitDirty ref src g c).2 ref (take (Z.to_nat (ref_Length ref)) src).
Proof.
  intros H E. pose proof (AdmitDirty_admits file ref src g c (cached_quiet file options c H)) as A. destruct (cache_AdmitDirty ref src g c) as [[e|] c']; [discriminate E|].
  destruct A as (_ & _ & _ & A & _). exact A.
Qed.

Lemma ex_admitted : exists c, cached ex_file ex_options c /\ holds_in ex_file c ex_ref (take 8192 ex_bytes) /\
  match (load ex_file ex_ref true false c).1 with Ok (Some _) => true | _ => false end = true.
Proof.
  exists (cache_AdmitDirty ex_ref ex_bytes 3 ex_new).2. split; [apply CAdmit, ex_cached|]. split; [|vm_compute; reflexivity].
  apply (admitted_holds ex_file ex_options ex_new ex_ref ex_bytes 3 ex_cached). vm_compute. reflexivity.
Qed.

Lemma Acquire_coherent_witness : exists c l c', load ex_file ex_ref true false c = (Ok (Some l), c') /\ l_page l = take 8192 ex_bytes.
Proof.
  destruct ex_admitted as (c & H & Hh & E). pose proof (Acquire_coherent ex_file ex_options c ex_ref (take 8192 ex_bytes) H Hh) as A. exists c.
  destruct (load ex_file ex_ref true false c) as [[[l|]|e|] c']; [|discriminate E..]. destruct A as (_ & _ & A & _). exists l, c'. split; [reflexivity|exact A].
Defined.

Lemma ex_bytes_ok : bytes_ok ex_bytes.
Proof. apply bytes_ok_bool. vm_compute. reflexivity. Qed.

Lemma AdmitDirty_coherent_witness : holds_in ex_file (cache_AdmitDirty ex_ref ex_bytes 3 ex_new).2 ex_ref (take 8192 ex_bytes).
Proof.
  assert (E : match (cache_AdmitDirty ex_ref ex_bytes 3 ex_new).1 with None => true | Some _ => false end = true) by (vm_compute; reflexivity).
  pose proof (AdmitDirty_coherent ex_file ex_options ex_new ex_ref ex_bytes 3 ex_cached ex_bytes_ok) as A.
  destruct (cache_AdmitDirty ex_ref ex_bytes 3 ex_new) as [[e|] c']; [discriminate E|]. destruct A as (_ & A & _). exact A.
Defined.

(** ** A frame inserted twice

    [beginExtentLocked] marks its frame loading before it inserts it.  When that
    insertion rebuilds the table, the rebuild has inserted the frame already, and
    the table names it twice; the second entry stays until the next rebuild. *)
Definition dup_ref (i : Z) : PageRef := mkPageRef (4096 * (i + 2)) (i + 2) 1 4096 PageFreeDirectory 0 0.
Definition dup_admit (i : Z) (c : PageCache) : option PageCache := snd <$> admitLocked (dup_ref i) (keyOf (dup_ref i)) (replicate 4096 0) 0 1 c.
Definition dup_options : PageCacheOptions := mkCacheOptions 0 None 4096 4096 16384 (replicate 16 7) 0 0 0 0.

Example rebuild_inserts_twice :
  (c ← dup_admit 0 (cacheOr (NewPageCache dup_options)); c ← dup_admit 1 c; c ← dup_admit 2 c; c ← dup_admit 3 (cache_DiscardDirty 1 c).2;
   Some (countOf live (pc_frames c), countOf isEntry (pc_table c))) = Some (1, 2)%nat.
Proof. vm_compute. reflexivity. Qed.
