(* ===== verification/PageCacheThreads.v ===== *)
(** * PageCacheThreads: the page cache under concurrent use

    Readers, prefetchers, the writer and the committer share one cache.  Two
    kinds of lock order them: [c.mu], which one thread holds at a time, and the
    lock of each frame.  A step of this model is what a thread does between two
    points where another can act:

    - without [c.mu]: [tryPinReady] at one frame, [release], the read into a
      reserved extent, and [Close] raising its flag.  These interleave with
      everything, also with the steps of the thread that holds [c.mu];
    - the thread that holds [c.mu]: one step per frame lock it takes.  The
      section it is in, with the loop counters, is part of the state.

    The key, the state and the dirty generation of a frame, the table and the
    allocator change only under [c.mu]; a frame lock that is held covers one
    frame, so steps at different frames commute and one frame is one step.  A
    reader loads the table without a lock and may be sent to any frame, so a pin
    may be tried at every frame and not only where the table points now.

    Proved: a lease shows the same bytes until it is released, and no step
    panics.  Two conditions on the callers are needed, both from the comments of
    the source: the pages of a generation that is being discarded are unreachable,
    so no reader asks for them ([DiscardDirty] looks at the pins in one loop and
    resets in another), and a page that is admitted is newly encoded, so no one
    else brings it in while its admission waits ([AdmitDirty] looks the page up
    before it waits and not after).  Without the first the statement is false:
    [discard_overtakes_pin]. *)
From Stdlib Require Import ZArith Lia List Bool.
From stdpp Require Import base numbers list strings.
From S2P Require Import Prelude Bytes Page StateRoot FreeDirectory Superblock Leases Blocks Device Committer GroupCommit WriteTx FreeTree PageCache PageCacheTable PageCacheInv PageCacheOps PageCacheStore.

Open Scope Z_scope.

(** ** Threads *)

(** A load between its two sections under [c.mu]: the frame it reserved and,
    once it has read, the result. *)
Record flight := mkFlight { fl_ref : PageRef; fl_index : nat; fl_pin : bool; fl_read : option (io_res unit) }.

(** What the threads share, less the lock. *)
Record world := mkWorld { w_cache : PageCache; w_leases : list PageLease; w_loads : list flight }.

(** A call of [load] or [AdmitDirty] whose arguments passed the checks. *)
Inductive job :=
| JLoad (ref : PageRef) (pin prefetch : bool)
| JAdmit (ref : PageRef) (src : list Z) (payloadLength dirtyGeneration : Z).

Definition jobRef (j : job) : PageRef := match j with JLoad ref _ _ => ref | JAdmit ref _ _ _ => ref end.
Definition jobKey (j : job) : pageCacheKey := keyOf (jobRef j).

(** Where the holder of [c.mu] is: at the frame the lookup found, about to take a
    span, in the CLOCK loop with the moves it has left, or in one of the loops
    over the frames of [MarkDurable], [DiscardDirty] and [Close]. *)
Inductive section :=
| SecFound (j : job) (index : nat)
| SecTake (j : job) (left : nat)
| SecClock (j : job) (left : nat)
| SecDurable (generation : Z) (i : nat)
| SecCheck (generation : Z) (i : nat)
| SecDiscard (generation : Z) (i : nat)
| SecClose (i : nat).

(** The thread keeps [c.mu], or gives it up with a lease, a load to read or a
    wait on the condition variable. *)
Inductive after :=
| Next (s : section)
| Return (leases : list PageLease) (flights : list flight) (waits : list job).

Definition leaseOfStep (st : load_step) : list PageLease := match st with LoadLease l => [l] | _ => [] end.
Definition flightOfStep (ref : PageRef) (pin : bool) (st : load_step) : list flight := match st with LoadBegun i => [mkFlight ref i pin None] | _ => [] end.
Definition leaseOfResult (r : io_res (option PageLease)) : list PageLease := match r with Ok (Some l) => [l] | _ => [] end.

Definition loadReturn (ref : PageRef) (pin prefetch : bool) (st : load_step) : after :=
  Return (leaseOfStep st) (flightOfStep ref pin st) (match st with LoadWait => [JLoad ref pin prefetch] | _ => [] end).

Definition admitReturn (j : job) (st : admit_step) : after := Return [] [] (match st with AdmitWait => [j] | _ => [] end).

(** The moves the CLOCK loop may make. *)
Definition scans (c : PageCache) : nat := (length (pc_frames c) * 2)%nat.

Definition foundStep (j : job) (index : nat) (c : PageCache) : option (after * PageCache) :=
  match j with
  | JLoad ref pin prefetch =>
      '(st, c1) ← loadFrame index (keyOf ref) pin c;
      Some (match st with Some st => loadReturn ref pin prefetch st | None => Next (SecTake j (scans c1)) end, c1)
  | JAdmit ref src payload g => '(st, c1) ← admitFrame index ref src g c; Some (admitReturn j st, c1)
  end.

(** The span is taken: the frame is made before its lock or [c.mu] is released. *)
Definition beginStep (j : job) (index : nat) (c : PageCache) : option (after * PageCache) :=
  match j with
  | JLoad ref pin prefetch => '(st, c1) ← beginLoad ref (keyOf ref) (cacheKeyHash (keyOf ref)) pin index c; Some (loadReturn ref pin prefetch st, c1)
  | JAdmit ref src payload g => '(st, c1) ← beginDirty ref (keyOf ref) src payload g index c; Some (admitReturn j st, c1)
  end.

Definition fullStep (j : job) (c : PageCache) : after :=
  match j with JLoad ref pin prefetch => loadReturn ref pin prefetch (loadFull prefetch c) | JAdmit _ _ _ _ => admitReturn j (admitFull c) end.

(** [Close] has seen every frame unpinned. *)
Definition closeStep (c : PageCache) : PageCache :=
  setFlags true true (setTable (replicate (length (pc_table c)) cacheTableEmpty) 0 (setFrames (replicate (length (pc_frames c)) emptyFrame) (setArena [] c))).

(** [blocks.take], before the loop or after an eviction. *)
Definition takeStep (j : job) (left : nat) (c : PageCache) : option (after * PageCache) :=
  '(start, c1) ← takeSpan (ref_Length (jobRef j) / pageSize c) c;
  match start with Some i => beginStep j i c1 | None => Some (Next (SecClock j left), c1) end.

(** A turn of the CLOCK loop. *)
Definition scanStep (j : job) (left : nat) (c : PageCache) : option (after * PageCache) :=
  match left with
  | O => Some (fullStep j c, c)
  | S n => '(evicted, c1) ← clockStep c; Some (Next (if evicted : bool then SecTake j n else SecClock j n), c1)
  end.

(** A turn of the loop of [MarkDurable]. *)
Definition durableStep (g : Z) (i : nat) (c : PageCache) : after * PageCache :=
  match pc_frames c !! i with None => (Return [] [] [], c) | Some f => (Next (SecDurable g (S i)), setFrame i (durable g f) c) end.

(** A turn of the first loop of [DiscardDirty]. *)
Definition checkStep (g : Z) (i : nat) (c : PageCache) : after :=
  match pc_frames c !! i with None => Next (SecDiscard g 0) | Some f => if pinnedDirty g f then Return [] [] [] else Next (SecCheck g (S i)) end.

(** A turn of its second loop. *)
Definition dropStep (g : Z) (i : nat) (c : PageCache) : option (after * PageCache) :=
  if (i <? length (pc_frames c))%nat then c1 ← discardStep i g c; Some (Next (SecDiscard g (S i)), c1) else Some (Return [] [] [], c).

(** A turn of the first loop of [Close], and what follows it. *)
Definition closingStep (i : nat) (c : PageCache) : after * PageCache :=
  match pc_frames c !! i with None => (Return [] [] [], closeStep c) | Some f => (if pinnedFrame f then Return [] [] [] else Next (SecClose (S i)), c) end.

Definition secStep (s : section) (c : PageCache) : option (after * PageCache) :=
  match s with
  | SecFound j i => foundStep j i c
  | SecTake j n => takeStep j n c
  | SecClock j n => scanStep j n c
  | SecDurable g i => Some (durableStep g i c)
  | SecCheck g i => Some (checkStep g i c, c)
  | SecDiscard g i => dropStep g i c
  | SecClose i => Some (closingStep i c)
  end.

Ltac open_step := cbn [secStep]; unfold takeStep, scanStep, durableStep, checkStep, dropStep, closingStep.
Ltac open_step_in E := cbn [secStep] in E; unfold takeStep, scanStep, durableStep, checkStep, dropStep, closingStep in E.

(** A job takes [c.mu]: the test of the flags and the lookup. *)
Definition enter (j : job) (c : PageCache) : option (option section) :=
  if pc_closing c || pc_closed c then Some None
  else found ← lookupLocked (cacheKeyHash (jobKey j)) (jobKey j) c; Some (Some (match found with Some i => SecFound j i | None => SecTake j (scans c) end)).

(** A waiting job is woken: a load starts over, an admission only tries to
    reserve again. *)
Definition resume (j : job) (c : PageCache) : option (option section) :=
  match j with
  | JLoad _ _ _ => enter j c
  | JAdmit _ _ _ _ => Some (if pc_closing c || pc_closed c then None else Some (SecTake j (scans c)))
  end.

(** ** Steps *)

Record system := mkSystem { sy_world : world; sy_mu : option section; sy_waits : list job }.

Inductive event :=
| EPin (i : nat) (key : pageCacheKey)
| ERelease (n : nat)
| ERead (n : nat) (file : os_file) (arrived : list Z)
| EClosing
| ELoad (ref : PageRef) (pin prefetch : bool)
| EAdmit (ref : PageRef) (src : list Z) (dirtyGeneration : Z)
| EResume (n : nat)
| EFinish (n : nat)
| EDurable (generation : Z)
| EDiscard (generation : Z)
| EInvalidate (ref : PageRef)
| EClose
| ESection.

Inductive response := Blocked | Panics | Goes (y : system).

Definition proceed (c : PageCache) (ls : list PageLease) (fs : list flight) (ws : list job) (a : after) : system :=
  match a with
  | Next s => mkSystem (mkWorld c ls fs) (Some s) ws
  | Return l f w => mkSystem (mkWorld c (l ++ ls) (f ++ fs)) None (w ++ ws)
  end.

(** The step of one thread; a step that needs [c.mu] is blocked while another
    holds it, and so is an event that names nothing.  Once [Close] is through
    there is nothing left to do. *)
Definition sysStep (e : event) (y : system) : response :=
  let c := w_cache (sy_world y) in
  let ls := w_leases (sy_world y) in
  let fs := w_loads (sy_world y) in
  let ws := sy_waits y in
  let mu := sy_mu y in
  let entered (w : list job) (r : option (option section)) :=
    match r with None => Panics | Some s => Goes (mkSystem (sy_world y) s w) end in
  if pc_closed c then Blocked else
  match e, mu with
  | EPin i key, _ =>
      if (i <? length (pc_frames c))%nat then
        match tryPinFrame i key c with
        | None => Panics
        | Some (None, c1) => Goes (mkSystem (mkWorld c1 ls fs) mu ws)
        | Some (Some l, c1) => Goes (mkSystem (mkWorld c1 (l :: ls) fs) mu ws)
        end
      else Blocked
  | ERelease n, _ =>
      match ls !! n with
      | Some l => Goes (mkSystem (mkWorld (release (l_frame l) (l_key l) c) (delete n ls) fs) mu ws)
      | None => Blocked
      end
  | ERead n file arrived, _ =>
      match fs !! n with
      | Some (mkFlight ref i pin None) =>
          let '(r, c1) := readInto file arrived ref i c in Goes (mkSystem (mkWorld c1 ls (<[n := mkFlight ref i pin (Some r)]> fs)) mu ws)
      | _ => Blocked
      end
  | EClosing, _ => Goes (mkSystem (mkWorld (setFlags true false c) ls fs) mu ws)
  | ELoad ref pin prefetch, None => match validateRef (pc_options c) ref with Ok _ => entered ws (enter (JLoad ref pin prefetch) c) | _ => Goes y end
  | EAdmit ref src g, None =>
      match checkDirty (pc_options c) ref src g with Ok (_, src, payload) => entered ws (enter (JAdmit ref src payload g) c) | _ => Goes y end
  | EResume n, None => match ws !! n with Some j => entered (delete n ws) (resume j c) | None => Blocked end
  | EFinish n, None =>
      match fs !! n with
      | Some (mkFlight ref i pin (Some read)) =>
          match finishLoad read ref (keyOf ref) i pin c with
          | None => Panics
          | Some (r, c1) => Goes (mkSystem (mkWorld c1 (leaseOfResult r ++ ls) (delete n fs)) None ws)
          end
      | _ => Blocked
      end
  | EDurable g, None => Goes (mkSystem (sy_world y) (Some (SecDurable g 0)) ws)
  | EDiscard g, None => if g =? 0 then Blocked else Goes (mkSystem (sy_world y) (Some (SecCheck g 0)) ws)
  | EInvalidate ref, None => match Invalidate ref c with None => Panics | Some (_, c1) => Goes (mkSystem (mkWorld c1 ls fs) None ws) end
  | EClose, None => if pc_closing c && (pc_activeLoads c =? 0) then Goes (mkSystem (sy_world y) (Some (SecClose 0)) ws) else Blocked
  | ESection, Some s => match secStep s c with None => Panics | Some (a, c1) => Goes (proceed c1 ls fs ws a) end
  | _, _ => Blocked
  end.

(** The generation being discarded. *)
Definition discarding (mu : option section) : option Z := match mu with Some (SecCheck g _) | Some (SecDiscard g _) => Some g | _ => None end.

(** What the callers keep to: no one reads a page of a generation while it is
    discarded, and no one else brings in a page whose admission waits. *)
Definition permitted (e : event) (y : system) : Prop :=
  match e with
  | EPin i _ => forall g f, discarding (sy_mu y) = Some g -> pc_frames (w_cache (sy_world y)) !! i = Some f -> fr_dirty f <> g
  | EResume n => forall ref src payload g, sy_waits y !! n = Some (JAdmit ref src payload g) ->
      forall i f, pc_frames (w_cache (sy_world y)) !! i = Some f -> fr_key f <> keyOf ref
  | _ => True
  end.

Inductive cache_run (options : PageCacheOptions) : system -> Prop :=
| RunNew c : NewPageCache options = Ok c -> Z.of_nat (length (pc_frames c)) + po_MaxPageSize (pc_options c) / po_PageSize (pc_options c) < 2 ^ 32 ->
    cache_run options (mkSystem (mkWorld c [] []) None [])
| RunStep e y y' : cache_run options y -> permitted e y -> sysStep e y = Goes y' -> cache_run options y'.

(** ** The invariant *)

Definition leasesAt (i : nat) (ls : list PageLease) : nat := countOf (fun l => l_frame l =? i)%nat ls.

Definition lease_ok (c : PageCache) (l : PageLease) : Prop := exists f, pc_frames c !! l_frame l = Some f /\ fr_state f = pageCacheReady /\ fr_key f = l_key l /\
  l_page l = pageOf c (l_frame l) (k_length (l_key l)).

Definition flight_ok (c : PageCache) (fl : flight) : Prop := (exists referenced, pc_frames c !! fl_index fl = Some (mkFrame (keyOf (fl_ref fl)) 0 0 0 pageCacheLoading referenced)) /\
  fl_read fl <> Some OutOfFuel.

Record threads_ok (w : world) : Prop := {
  th_inv : cache_inv (w_cache w);
  th_open : pc_closed (w_cache w) = false;
  th_lease : Forall (lease_ok (w_cache w)) (w_leases w);
  th_pins : forall i f, pc_frames (w_cache w) !! i = Some f -> live f = true -> fr_pins f = Z.of_nat (leasesAt i (w_leases w));
  th_nodup : NoDup (fl_index <$> w_loads w);
  th_flight : Forall (flight_ok (w_cache w)) (w_loads w);
  th_loading : forall i f, pc_frames (w_cache w) !! i = Some f -> fr_state f = pageCacheLoading -> i ∈ fl_index <$> w_loads w;
  th_active : pc_activeLoads (w_cache w) = Z.of_nat (length (w_loads w));
}.

Lemma leasesAt_cons i l ls : leasesAt i (l :: ls) = ((if l_frame l =? i then 1 else 0) + leasesAt i ls)%nat.
Proof. unfold leasesAt, countOf. cbn. by destruct (l_frame l =? i)%nat. Qed.

Lemma leasesAt_app i a b : leasesAt i (a ++ b) = (leasesAt i a + leasesAt i b)%nat.
Proof. apply countOf_app. Qed.

Lemma leasesAt_0 i ls : leasesAt i ls = 0%nat -> Forall (fun l => l_frame l <> i) ls.
Proof.
  induction ls as [|l ls IH]; [constructor|]. rewrite leasesAt_cons. destruct (Nat.eqb_spec (l_frame l) i); intros H; constructor; [lia|apply IH; lia|done|apply IH; lia].
Qed.

Lemma leasesAt_none i ls : Forall (fun l => l_frame l <> i) ls -> leasesAt i ls = 0%nat.
Proof. induction 1 as [|l ls N _ IH]; [done|]. by rewrite leasesAt_cons, (proj2 (Nat.eqb_neq _ _) N), IH. Qed.

(** ** Steps that take no lease *)

(** The frames in use stay, the others come and go unpinned. *)
Record keeps (c c' : PageCache) : Prop := {
  kp_inv : cache_inv c';
  kp_rest : pc_options c' = pc_options c /\ pc_closing c' = pc_closing c /\ pc_closed c' = pc_closed c /\ pc_activeLoads c' = pc_activeLoads c;
  kp_used : forall j g, pc_frames c !! j = Some g -> live g = true -> fr_state g = pageCacheLoading \/ fr_pins g <> 0 ->
    exists g', pc_frames c' !! j = Some g' /\ fr_key g' = fr_key g /\ fr_pins g' = fr_pins g /\ fr_state g' = fr_state g /\
      (fr_state g = pageCacheLoading -> fr_dirty g' = fr_dirty g /\ fr_payloadLength g' = fr_payloadLength g) /\
      (fr_pins g <> 0 -> pageOf c' j (k_length (fr_key g)) = pageOf c j (k_length (fr_key g)));
  kp_old : forall j g', pc_frames c' !! j = Some g' -> live g' = true ->
    (exists g, pc_frames c !! j = Some g /\ live g = true /\ fr_pins g' = fr_pins g /\ fr_state g' = fr_state g) \/
    (fr_pins g' = 0 /\ fr_state g' = pageCacheReady /\ forall g, pc_frames c !! j = Some g -> live g = true -> fr_pins g = 0);
}.

(** A leased frame is pinned. *)
Lemma leased_pinned w l : threads_ok w -> l ∈ w_leases w -> exists f, pc_frames (w_cache w) !! l_frame l = Some f /\ fr_state f = pageCacheReady /\ fr_key f = l_key l /\
  l_page l = pageOf (w_cache w) (l_frame l) (k_length (l_key l)) /\ 0 < fr_pins f.
Proof.
  intros T Hl. pose proof (th_lease _ T) as F. rewrite Forall_forall in F. destruct (F l Hl) as (f & Hf & Hr & Hk & Hp). exists f. split_and!; try done.
  rewrite (th_pins _ T _ f Hf (ready_live f Hr)). destruct (leasesAt (l_frame l) (w_leases w)) eqn:E; [|lia]. apply leasesAt_0 in E. rewrite Forall_forall in E. by destruct (E l Hl).
Qed.

Lemma unleased c ls fs j : threads_ok (mkWorld c ls fs) -> (forall g, pc_frames c !! j = Some g -> live g = true -> fr_pins g = 0) -> leasesAt j ls = 0%nat.
Proof.
  intros T H. apply leasesAt_none, Forall_forall. intros l Hl E. destruct (leased_pinned _ l T Hl) as (f & Hf & Hr & _ & _ & Hp). cbn in Hf. rewrite E in Hf.
  rewrite (H f Hf (ready_live f Hr)) in Hp. lia.
Qed.

Lemma keeps_lease c c' l f : keeps c c' -> pc_frames c !! l_frame l = Some f -> fr_state f = pageCacheReady -> fr_key f = l_key l -> 0 < fr_pins f ->
  l_page l = pageOf c (l_frame l) (k_length (l_key l)) -> lease_ok c' l.
Proof.
  intros K Hf Hr Hk Hp Hpg. destruct (kp_used _ _ K _ f Hf (ready_live f Hr)) as (f' & Hf' & K' & P' & S' & _ & Pg); [right; lia|].
  exists f'. split_and!; try congruence. rewrite Hpg, <- Hk. symmetry. apply Pg. lia.
Qed.

Lemma keeps_flight c c' fl : keeps c c' -> flight_ok c fl -> flight_ok c' fl.
Proof.
  intros K [(rf & Hf) Hr]. split; [|done]. destruct (kp_used _ _ K _ _ Hf eq_refl) as (f' & Hf' & K' & P' & S' & D' & _); [by left|]. destruct (D' eq_refl) as [D1 D2].
  exists (fr_referenced f'). rewrite Hf'. destruct f'. cbn in *. by subst.
Qed.

Lemma keeps_threads c c' ls fs : threads_ok (mkWorld c ls fs) -> keeps c c' -> threads_ok (mkWorld c' ls fs).
Proof.
  intros T K. pose proof T as [I C L P N F A Ac]. cbn [w_cache w_leases w_loads] in *. split; cbn [w_cache w_leases w_loads].
  - apply (kp_inv _ _ K).
  - by destruct (kp_rest _ _ K) as (_ & _ & -> & _).
  - apply Forall_forall. intros l Hl. destruct (leased_pinned _ l T Hl) as (f & Hf & Hr & Hk & Hpg & Hp). by apply (keeps_lease c c' l f).
  - intros i f' Hf' Lf'. destruct (kp_old _ _ K i f' Hf' Lf') as [(f & Hf & Lf & -> & _)|(-> & _ & H)]; [by apply P|]. by rewrite (unleased _ _ _ i T H).
  - done.
  - eapply Forall_impl; [exact F|]. intros fl. by apply keeps_flight.
  - intros i f' Hf' Hs. assert (Lf' : live f' = true) by (unfold live; by rewrite Hs). destruct (kp_old _ _ K i f' Hf' Lf') as [(f & Hf & Lf & _ & E)|(_ & E & _)]; [|congruence].
    apply (A i f Hf). congruence.
  - by destruct (kp_rest _ _ K) as (_ & _ & _ & ->).
Qed.

Lemma shrunk_keeps Q c c' : cache_inv c' -> shrunk Q c c' -> (forall j g, frame_ok g -> Q j g -> fr_state g <> pageCacheLoading /\ fr_pins g = 0) -> cache_inv c -> keeps c c'.
Proof.
  intros I' [(Ro & Ra & Rc & Rd & Rl & _) O Kp] HQ I. split; [done|done|..].
  - intros j g Hg Lg Hu. destruct (Kp j g Hg Lg) as [(g' & Hg' & Lg')|Hq].
    + destruct (O j g' Hg' Lg') as (g0 & H0 & _ & (K0 & D0 & P0 & N0 & S0)). simplify_eq. exists g'. split_and!; try done. intros _. by apply pageOf_arena.
    + destruct (HQ j g (frame_ok_at _ _ _ _ I Hg) Hq) as [N1 N2]. by destruct Hu.
  - intros j g' Hg' Lg'. left. destruct (O j g' Hg' Lg') as (g & Hg & Lg & (K0 & D0 & P0 & N0 & S0)). by exists g.
Qed.

Lemma evicts_keeps c c' : cache_inv c -> cache_inv c' -> evicts c c' -> keeps c c'.
Proof. intros I I' E. eapply shrunk_keeps; [done|exact E| |done]. intros _ g _ (Hr & _ & Hp). split; [congruence|done]. Qed.

Lemma admitted_keeps key src payload g i c c' : cache_inv c -> admitted_page key src payload g i c c' -> keeps c c'.
Proof.
  intros I [I' New Here Page R Old Keep]. split; [done|done|..].
  - intros j x Hx Lx Hu. destruct (Keep j x Hx Lx) as [(N & x' & Hx' & Lx')|(Hr & _ & Hp)]; [|destruct Hu; congruence].
    destruct (Old j x' N Hx' Lx') as (x0 & H0 & _ & (K0 & D0 & P0 & N0 & S0) & Pg). simplify_eq. by exists x'.
  - intros j x' Hx' Lx'. destruct (decide (j = i)) as [->|N].
    + right. rewrite Here in Hx'. simplify_eq. split_and!; try done. intros x Hx Lx. destruct (Keep i x Hx Lx) as [[? _]|(_ & _ & Hp)]; done.
    + left. destruct (Old j x' N Hx' Lx') as (x & Hx & Lx & (K0 & D0 & P0 & N0 & S0) & _). by exists x.
Qed.

Lemma setFrame_same i f c : pc_frames c !! i = Some f -> setFrame i f c = c.
Proof. intros H. unfold setFrame, setFrames. rewrite list_insert_id by done. by destruct c. Qed.

(** [MarkDurable] at one frame. *)
Lemma durable_keeps g i f c : cache_inv c -> pc_frames c !! i = Some f -> keeps c (setFrame i (durable g f) c).
Proof.
  intros I Hf. pose proof (frame_ok_at _ _ _ _ I Hf) as Of. pose proof Of as (Opin & Oload & Odead). destruct (durable_same g f) as (K & S & P & Pl & D). destruct (live f) eqn:Lf.
  2: { assert (E : durable g f = f). { destruct (Odead eq_refl) as (_ & D0 & _). unfold durable. by rewrite D0, andb_false_r. }
       rewrite E, setFrame_same by done. apply evicts_keeps; [done|done|apply shrunk_refl]. }
  assert (Lf' : live (durable g f) = true) by (unfold live in *; by rewrite S). pose proof (lookup_lt_Some _ _ _ Hf) as Li.
  assert (Of' : frame_ok (durable g f)).
  { unfold frame_ok. rewrite P, S, Lf'. split; [done|]. split; [|done]. intros Hs. destruct (Oload Hs) as [D0 P0]. split; [destruct D as [->|[_ ->]]; done|done]. }
  split; [by apply (update_inv c i f)|done|..]; cbn [setFrame setFrames pc_frames].
  - intros j x Hx Lx Hu. destruct (decide (j = i)) as [->|N]; [|exists x; by rewrite list_lookup_insert_ne].
    rewrite list_lookup_insert_eq by done. simplify_eq. exists (durable g f). split_and!; try done. intros Hs. destruct (Oload Hs) as [D0 _]. split; [|done]. destruct D as [|[_ ->]]; done.
  - intros j x Hx Lx. left. destruct (decide (j = i)) as [->|N]; [|rewrite list_lookup_insert_ne in Hx by done; by exists x].
    rewrite list_lookup_insert_eq in Hx by done. simplify_eq. by exists f.
Qed.

(** ** Steps that take or release a lease *)

Lemma update_threads c ls ls' fs i f f' : threads_ok (mkWorld c ls fs) -> pc_frames c !! i = Some f -> fr_state f = pageCacheReady -> fr_state f' = pageCacheReady ->
  fr_key f' = fr_key f -> cache_inv (setFrame i f' c) -> fr_pins f' = Z.of_nat (leasesAt i ls') -> (forall j, j <> i -> leasesAt j ls' = leasesAt j ls) -> Forall (lease_ok c) ls' ->
  threads_ok (mkWorld (setFrame i f' c) ls' fs).
Proof.
  intros T Hf Hr Hr' Hk I' Hp Hj Hl. pose proof T as [I C L P N F A Ac]. cbn [w_cache w_leases w_loads] in *. pose proof (lookup_lt_Some _ _ _ Hf) as Li.
  assert (At : forall j g, pc_frames (setFrame i f' c) !! j = Some g -> (j = i /\ g = f') \/ (j <> i /\ pc_frames c !! j = Some g)).
  { cbn. intros j g Hg. destruct (decide (j = i)) as [->|Nj]; [rewrite list_lookup_insert_eq in Hg by done; left; by simplify_eq|]. rewrite list_lookup_insert_ne in Hg by done. by right. }
  split; cbn [w_cache w_leases w_loads]; try done.
  - eapply Forall_impl; [exact Hl|]. intros l (g & Hg & Sg & Kg & Pg). unfold lease_ok. cbn. destruct (decide (l_frame l = i)) as [E|Nl].
    + exists f'. rewrite E, list_lookup_insert_eq by done. rewrite E, Hf in Hg. simplify_eq. split_and!; first [done|congruence].
    + exists g. by rewrite list_lookup_insert_ne.
  - intros j g Hg Lg. destruct (At j g Hg) as [[-> ->]|[Nj Hg']]; [done|]. rewrite Hj by done. by apply P.
  - eapply Forall_impl; [exact F|]. intros fl [(rf & Hfl) Hn]. split; [|done]. exists rf. cbn. rewrite list_lookup_insert_ne; [done|]. intros ->. rewrite Hf in Hfl. by simplify_eq.
  - intros j g Hg Hs. destruct (At j g Hg) as [[-> ->]|[Nj Hg']]; [congruence|]. by apply (A j g).
Qed.

Lemma pins_threads key c l c' ls fs : threads_ok (mkWorld c ls fs) -> pins_frame key c l c' -> threads_ok (mkWorld c' (l :: ls) fs).
Proof.
  intros T (i & f & Hf & Hr & Hk & Hp & -> & ->). pose proof (th_inv _ T) as I. cbn in I.
  apply (update_threads c ls _ fs i f (pinned f) T Hf Hr Hr eq_refl (pinned_inv c i f I Hf Hr Hp)).
  - rewrite leasesAt_cons. cbn [pinned fr_pins leaseOf l_frame]. rewrite (th_pins _ T i f Hf (ready_live f Hr)), Nat.eqb_refl. cbn [w_leases]. lia.
  - intros j N. rewrite leasesAt_cons. cbn [leaseOf l_frame]. by rewrite (proj2 (Nat.eqb_neq _ _)).
  - constructor; [by exists f|apply (th_lease _ T)].
Qed.

Lemma release_threads c pre post fs l : threads_ok (mkWorld c (pre ++ l :: post) fs) -> threads_ok (mkWorld (release (l_frame l) (l_key l) c) (pre ++ post) fs).
Proof.
  intros T. assert (Hin : l ∈ w_leases (mkWorld c (pre ++ l :: post) fs)) by (apply elem_of_app; right; by left).
  destruct (leased_pinned _ l T Hin) as (f & Hf & Hr & Hk & _ & Hp). pose proof (th_inv _ T) as I. cbn in I, Hf. rewrite <- Hk.
  destruct (release_spec c (l_frame l) f I Hf Hr Hp) as [-> I']. apply (update_threads c _ _ fs _ f (unpinned f) T Hf Hr Hr eq_refl I').
  - pose proof (th_pins _ T _ f Hf (ready_live f Hr)) as P. cbn [w_leases] in P. rewrite leasesAt_app, leasesAt_cons, Nat.eqb_refl in P. rewrite leasesAt_app. cbn [unpinned fr_pins]. lia.
  - intros j N. rewrite !leasesAt_app, leasesAt_cons, (proj2 (Nat.eqb_neq _ _)) by done. done.
  - pose proof (th_lease _ T) as L. cbn in L. apply Forall_app in L as [L1 L2]. apply Forall_cons in L2 as [_ L2]. by apply Forall_app.
Qed.

(** ** Loads *)

Lemma begun_threads ref i pin c c' ls fs : threads_ok (mkWorld c ls fs) -> begun_load (keyOf ref) i pin c c' -> threads_ok (mkWorld c' ls (mkFlight ref i pin None :: fs)).
Proof.
  intros T [I' New Here Bl (Ro & Ra & _ & Rd) Old Keep]. pose proof T as [I C L P N F A Ac]. cbn [w_cache w_leases w_loads] in *.
  assert (Stay : forall j g, pc_frames c !! j = Some g -> live g = true -> fr_state g = pageCacheLoading \/ fr_pins g <> 0 -> j <> i /\ exists g', pc_frames c' !! j = Some g' /\ same_frame g g').
  { intros j g Hg Lg Hu. destruct (Keep j g Hg Lg) as [(Nj & g' & Hg' & Lg')|(Hr & _ & Hp)]; [|destruct Hu; congruence]. split; [done|]. exists g'. split; [done|].
    destruct (Old j g' Nj Hg' Lg') as (g0 & H0 & _ & S0). by simplify_eq. }
  split; cbn [w_cache w_leases w_loads]; try done.
  - congruence.
  - apply Forall_forall. intros l Hl. destruct (leased_pinned _ l T Hl) as (f & Hf & Hr & Hk & Hpg & Hp). cbn in Hf, Hpg.
    destruct (Stay _ f Hf (ready_live f Hr)) as (_ & f' & Hf' & (K0 & _ & _ & _ & S0)); [right; lia|]. exists f'. split_and!; try congruence. rewrite Hpg. symmetry. by apply pageOf_arena.
  - intros j g' Hg' Lg'. destruct (decide (j = i)) as [->|Nj].
    + rewrite Here in Hg'. simplify_eq. cbn. rewrite (unleased c ls fs i T); [done|]. intros g Hg Lg. by destruct (Keep i g Hg Lg) as [[? _]|(_ & _ & ?)].
    + destruct (Old j g' Nj Hg' Lg') as (g & Hg & Lg & (_ & _ & _ & -> & _)). by apply P.
  - constructor; [|done]. intros Hin. apply list_elem_of_fmap in Hin as (fl & E & Hfl). rewrite Forall_forall in F. destruct (F fl Hfl) as [(rf & Hf) _].
    destruct (Stay _ _ Hf eq_refl) as [? _]; [by left|]. by symmetry in E.
  - constructor; [split; [by exists pin|done]|]. eapply Forall_impl; [exact F|]. intros fl [(rf & Hf) Hn]. split; [|done].
    destruct (Stay _ _ Hf eq_refl) as (_ & g' & Hg' & (K0 & D0 & P0 & N0 & S0)); [by left|]. exists (fr_referenced g'). rewrite Hg'. destruct g'. cbn in *. by subst.
  - intros j g' Hg' Hs. destruct (decide (j = i)) as [->|Nj]; [by left|]. right. assert (Lg' : live g' = true) by (unfold live; by rewrite Hs).
    destruct (Old j g' Nj Hg' Lg') as (g & Hg & Lg & (_ & _ & _ & _ & S0)). apply (A j g Hg). congruence.
  - cbn [length]. lia.
Qed.

Lemma read_threads file arrived ref i pin c r c' ls pre post : threads_ok (mkWorld c ls (pre ++ mkFlight ref i pin None :: post)) -> readInto file arrived ref i c = (r, c') ->
  threads_ok (mkWorld c' ls (pre ++ mkFlight ref i pin (Some r) :: post)).
Proof.
  intros T E. pose proof T as [I C L P N F A Ac]. cbn [w_cache w_leases w_loads] in *. apply Forall_app in F as [F1 F2]. apply Forall_cons in F2 as [[(rf & Hf) _] F2]. cbn in Hf.
  destruct (readInto_spec file arrived ref c i _ I Hf eq_refl eq_refl) as (r' & a & E' & Hr & I' & Pg & _). rewrite E in E'. injection E' as <- ->.
  split; cbn [w_cache w_leases w_loads]; try done.
  - eapply Forall_impl; [exact L|]. intros l (f & Hfl & Hrl & Hk & Hp). exists f. split_and!; try done. rewrite Hp, <- Hk. symmetry. apply Pg; try done; [|by apply ready_live].
    intros E2. rewrite E2, Hf in Hfl. by simplify_eq.
  - by rewrite fmap_app in *.
  - apply Forall_app. split; [done|]. constructor; [|done]. split; [by exists rf|]. cbn. congruence.
  - intros j f Hfj Hs. specialize (A j f Hfj Hs). by rewrite fmap_app in *.
  - cbn [setArena pc_activeLoads]. rewrite Ac, !length_app. done.
Qed.

(** The frame of a load is its alone. *)
Lemma flight_alone c ls pre fl post : threads_ok (mkWorld c ls (pre ++ fl :: post)) ->
  NoDup (fl_index <$> pre ++ post) /\ Forall (flight_ok c) (pre ++ post) /\ flight_ok c fl /\ Forall (fun f => fl_index f <> fl_index fl) (pre ++ post) /\ Forall (fun l => l_frame l <> fl_index fl) ls /\
  forall j f, pc_frames c !! j = Some f -> fr_state f = pageCacheLoading -> j <> fl_index fl -> j ∈ fl_index <$> pre ++ post.
Proof.
  intros T. pose proof T as [I C L P N F A Ac]. cbn [w_cache w_leases w_loads] in *. apply Forall_app in F as [F1 F2]. apply Forall_cons in F2 as [Ff F2].
  assert (Pm : pre ++ fl :: post ≡ₚ fl :: (pre ++ post)) by (symmetry; apply Permutation_middle).
  rewrite Pm in N. cbn [fmap list_fmap] in N. apply NoDup_cons in N as [Nin N]. split_and!; try done.
  - by apply Forall_app.
  - apply Forall_forall. intros f Hf E. apply Nin. rewrite <- E. by apply list_elem_of_fmap_2.
  - apply leasesAt_0. destruct Ff as [(rf & Hf) _]. pose proof (P _ _ Hf eq_refl) as Hp. cbn in Hp. lia.
  - intros j f Hf Hs Nj. specialize (A j f Hf Hs). rewrite Pm in A. cbn [fmap list_fmap] in A. apply elem_of_cons in A as [?|?]; done.
Qed.

Lemma published_threads ref i pin referenced payload c ls pre post read : threads_ok (mkWorld c ls (pre ++ mkFlight ref i pin (Some read) :: post)) ->
  let c' := setFrame i (readyFrame (keyOf ref) payload pin referenced) (setLoads (pc_activeLoads c - 1) c) in
  cache_inv c' -> threads_ok (mkWorld c' ((if pin then [mkLease i (keyOf ref) payload (pageOf c i (ref_Length ref))] else []) ++ ls) (pre ++ post)).
Proof.
  intros T c' I'. pose proof (th_pins _ T) as P. pose proof (th_lease _ T) as L. pose proof (th_open _ T) as C.
  destruct (flight_alone _ _ _ _ _ T) as (N & F & [(rf & Hf) _] & Nf & Nl & A). cbn [w_cache w_leases w_loads fl_index fl_ref] in *. pose proof (lookup_lt_Some _ _ _ Hf) as Li.
  assert (Hi : pc_frames c' !! i = Some (readyFrame (keyOf ref) payload pin referenced)) by (cbn; by rewrite list_lookup_insert_eq).
  assert (Ho : forall j, j <> i -> pc_frames c' !! j = pc_frames c !! j) by (intros j Nj; cbn; by rewrite list_lookup_insert_ne).
  split; cbn [w_cache w_leases w_loads]; try done.
  - apply Forall_app. split.
    + destruct pin; [|done]. constructor; [|done]. eexists. split; [exact Hi|]. done.
    + rewrite Forall_forall in *. intros l Hl. destruct (L l Hl) as (f & Hfl & Hr & Hk & Hp). exists f. rewrite Ho by (by apply Nl). done.
  - intros j f Hfj Lf. rewrite leasesAt_app. destruct (decide (j = i)) as [->|Nj].
    + rewrite Hi in Hfj. simplify_eq. rewrite (leasesAt_none i ls Nl). destruct pin; [|done]. cbn [readyFrame fr_pins]. rewrite leasesAt_cons. cbn [l_frame]. rewrite Nat.eqb_refl. done.
    + rewrite Ho in Hfj by done. rewrite (P j f Hfj Lf). destruct pin; [|done]. rewrite leasesAt_cons. cbn [l_frame]. rewrite (proj2 (Nat.eqb_neq _ _)) by done. done.
  - rewrite Forall_forall in *. intros fl Hfl. destruct (F fl Hfl) as [(rf' & Hf') Hn]. split; [|done]. exists rf'. rewrite Ho; [done|by apply Nf].
  - intros j f Hfj Hs. destruct (decide (j = i)) as [->|Nj]; [rewrite Hi in Hfj; by simplify_eq|]. rewrite Ho in Hfj by done. by apply (A j f).
  - pose proof (th_active _ T) as Ac. cbn in Ac |- *. rewrite length_app in *. cbn [length] in Ac. lia.
Qed.

Lemma dropped_threads ref i pin c c' ls pre post read : threads_ok (mkWorld c ls (pre ++ mkFlight ref i pin (Some read) :: post)) -> cache_inv c' ->
  same_rest (setLoads (pc_activeLoads c - 1) c) c' -> agree_except i (pc_frames c) (pc_frames c') -> pc_frames c' !! i = Some emptyFrame -> threads_ok (mkWorld c' ls (pre ++ post)).
Proof.
  intros T I' (Ro & Ra & _ & Rd & Rl & _) (_ & G1 & G2) Hi. pose proof (th_pins _ T) as P. pose proof (th_lease _ T) as L. pose proof (th_open _ T) as C.
  destruct (flight_alone _ _ _ _ _ T) as (N & F & _ & Nf & Nl & A). cbn [w_cache w_leases w_loads fl_index fl_ref setLoads pc_closed] in *.
  split; cbn [w_cache w_leases w_loads]; try done.
  - congruence.
  - rewrite Forall_forall in *. intros l Hl. destruct (L l Hl) as (f & Hfl & Hr & Hk & Hp). exists f. split; [apply G1; [by apply Nl|done|by apply ready_live]|].
    split_and!; try done. rewrite Hp. symmetry. by apply pageOf_arena.
  - intros j f Hfj Lf. assert (j <> i) by (intros ->; rewrite Hi in Hfj; by simplify_eq). apply (P j f); [by apply G2|done].
  - rewrite Forall_forall in *. intros fl Hfl. destruct (F fl Hfl) as [(rf' & Hf') Hn]. split; [|done]. exists rf'. apply G1; [by apply Nf|done|done].
  - intros j f Hfj Hs. assert (j <> i) by (intros ->; rewrite Hi in Hfj; by simplify_eq). apply (A j f); try done. apply G2; try done. unfold live. by rewrite Hs.
  - pose proof (th_active _ T) as Ac. cbn in Ac, Rl. rewrite length_app in *. cbn [length] in Ac. lia.
Qed.

(** ** Sections *)

Definition job_ok (o : PageCacheOptions) (j : job) : Prop :=
  validateRef o (jobRef j) = Ok (jobKey j) /\ match j with JLoad _ _ _ => True | JAdmit ref src _ g => g <> 0 /\ length src = Z.to_nat (ref_Length ref) end.

Definition fresh (key : pageCacheKey) (c : PageCache) : Prop := forall i f, pc_frames c !! i = Some f -> fr_key f <> key.

(** What the holder of [c.mu] knows where it is. *)
Definition sec_ok (s : section) (c : PageCache) (fs : list flight) : Prop :=
  match s with
  | SecFound j i => job_ok (pc_options c) j /\ exists f, pc_frames c !! i = Some f /\ live f = true /\ fr_key f = jobKey j
  | SecTake j _ | SecClock j _ => job_ok (pc_options c) j /\ fresh (jobKey j) c
  | SecDurable _ _ => True
  | SecCheck g i => g <> 0 /\ forall j f, (j < i)%nat -> pc_frames c !! j = Some f -> fr_dirty f = g -> fr_pins f = 0
  | SecDiscard g _ => g <> 0 /\ forall j f, pc_frames c !! j = Some f -> fr_dirty f = g -> fr_pins f = 0
  | SecClose i => pc_closing c = true /\ fs = [] /\ forall j f, (j < i)%nat -> pc_frames c !! j = Some f -> fr_pins f = 0
  end.

Record running (o : PageCacheOptions) (y : system) : Prop := {
  ru_threads : threads_ok (sy_world y);
  ru_options : pc_options (w_cache (sy_world y)) = o;
  ru_waits : Forall (job_ok o) (sy_waits y);
  ru_sec : match sy_mu y with Some s => sec_ok s (w_cache (sy_world y)) (w_loads (sy_world y)) | None => True end;
}.

(** [Close] is through: nothing is leased or in flight and the table is empty. *)
Definition closed_down (y : system) : Prop :=
  pc_closed (w_cache (sy_world y)) = true /\ sy_mu y = None /\ w_leases (sy_world y) = [] /\ w_loads (sy_world y) = [] /\ Forall (fun e => e = cacheTableEmpty) (pc_table (w_cache (sy_world y))).

(** A step without [c.mu] changes one frame's pins and reference bit. *)
Lemma sec_touch s c fs i f f' : sec_ok s c fs -> pc_frames c !! i = Some f -> fr_key f' = fr_key f -> fr_state f' = fr_state f -> fr_dirty f' = fr_dirty f ->
  (fr_pins f = 0 -> fr_pins f' = 0 \/ (pc_closing c = false /\ discarding (Some s) <> Some (fr_dirty f))) -> sec_ok s (setFrame i f' c) fs.
Proof.
  intros H Hf Hk Hs Hd Hp. pose proof (lookup_lt_Some _ _ _ Hf) as Li.
  assert (At : forall j g, pc_frames (setFrame i f' c) !! j = Some g -> exists g0, pc_frames c !! j = Some g0 /\ fr_key g = fr_key g0 /\ fr_dirty g = fr_dirty g0 /\ (j <> i /\ g = g0 \/ g = f' /\ g0 = f)).
  { cbn. intros j g Hg. destruct (decide (j = i)) as [->|Nj]; [rewrite list_lookup_insert_eq in Hg by done; simplify_eq; exists f; split_and!; auto|].
    rewrite list_lookup_insert_ne in Hg by done. exists g. split_and!; auto. }
  assert (Pin : forall j g, pc_frames (setFrame i f' c) !! j = Some g -> (forall g0, pc_frames c !! j = Some g0 -> fr_dirty g0 = fr_dirty g -> fr_pins g0 = 0) ->
    fr_pins g = 0 \/ (pc_closing c = false /\ discarding (Some s) <> Some (fr_dirty g))).
  { intros j g Hg H0. destruct (At j g Hg) as (g0 & Hg0 & _ & D0 & [[_ ->]|[-> ->]]); [left; by apply H0|]. rewrite D0. apply Hp. by apply H0. }
  destruct s as [j n|j n|j n|g n|g n|g n|n]; cbn [sec_ok discarding] in *.
  - destruct H as (J & f0 & H0 & L0 & K0). split; [done|]. destruct (decide (n = i)) as [->|N]; [|exists f0; cbn; by rewrite list_lookup_insert_ne].
    exists f'. cbn. rewrite list_lookup_insert_eq by done. simplify_eq. split_and!; try congruence. unfold live in *. by rewrite Hs.
  - destruct H as [J Fr]. split; [done|]. intros k g Hg. destruct (At k g Hg) as (g0 & H0 & -> & _). by apply (Fr k).
  - destruct H as [J Fr]. split; [done|]. intros k g Hg. destruct (At k g Hg) as (g0 & H0 & -> & _). by apply (Fr k).
  - done.
  - destruct H as [Hg H]. split; [done|]. intros k x Hk' Hx Dx. destruct (Pin k x Hx) as [|[_ N]]; [|done|by rewrite Dx in N]. intros x0 H0 D0. apply (H k); [done..|congruence].
  - destruct H as [Hg H]. split; [done|]. intros k x Hx Dx. destruct (Pin k x Hx) as [|[_ N]]; [|done|by rewrite Dx in N]. intros x0 H0 D0. apply (H k); [done|congruence].
  - destruct H as (Hc & Hn & H). split_and!; [done..|]. intros k x Hk' Hx. destruct (Pin k x Hx) as [|[N _]]; [|done|congruence]. intros x0 H0 _. by apply (H k).
Qed.

Lemma sec_same s c c' fs fs' : sec_ok s c fs -> pc_frames c' = pc_frames c -> pc_options c' = pc_options c -> (pc_closing c = true -> pc_closing c' = true) ->
  (fs = [] -> fs' = []) -> sec_ok s c' fs'.
Proof. intros H Fr Op Cl Hn. destruct s; cbn [sec_ok] in *; unfold fresh in *; rewrite ?Fr, ?Op; try done. destruct H as (? & ? & ?). auto. Qed.

Lemma evicts_fresh c c' ref : cache_inv c' -> evicts c c' -> keyOf ref <> zeroKey -> fresh (keyOf ref) c -> fresh (keyOf ref) c'.
Proof. intros I' Ev Nz Fr i f Hf Hk. by apply (shrunk_fresh _ _ _ _ Ev Fr i f Hf (dead_key _ _ _ I' Nz i f Hf Hk)). Qed.

(** What a step of the holder leaves, less the case of [Close]. *)
Definition leaves (o : PageCacheOptions) (ls : list PageLease) (fs : list flight) (a : after) (c' : PageCache) : Prop :=
  forall ws, Forall (job_ok o) ws -> running o (proceed c' ls fs ws a).

Lemma leaves_keeps c ls fs a c' : threads_ok (mkWorld c ls fs) -> keeps c c' ->
  match a with Next s => sec_ok s c' fs | Return l f w => l = [] /\ f = [] /\ Forall (job_ok (pc_options c)) w end -> leaves (pc_options c) ls fs a c'.
Proof.
  intros T K H ws W. pose proof (keeps_threads c c' ls fs T K) as T'. pose proof (kp_rest _ _ K) as (Ro & _).
  destruct a as [s|l f w]; [by split|]. destruct H as (-> & -> & Hw). split; [done|done|by apply Forall_app|done].
Qed.

Lemma keeps_refl c : cache_inv c -> keeps c c.
Proof. intros I. apply evicts_keeps; [done|done|apply shrunk_refl]. Qed.

Lemma loadReturn_leaves c ls fs ref pin prefetch st c' : threads_ok (mkWorld c ls fs) -> job_ok (pc_options c) (JLoad ref pin prefetch) -> load_outcome (keyOf ref) pin prefetch c st c' ->
  leaves (pc_options c) ls fs (loadReturn ref pin prefetch st) c'.
Proof.
  intros T J H. unfold loadReturn. destruct st as [l|i| | |e]; cbn [leaseOfStep flightOfStep load_outcome] in *.
  - intros ws W. pose proof (pins_threads (keyOf ref) c l c' ls fs T H) as T'. destruct H as (k & f & _ & _ & _ & _ & _ & ->). by split.
  - intros ws W. pose proof (begun_threads ref i pin c c' ls fs T H) as T'. destruct (b_rest _ _ _ _ _ H) as (Ro & _). by split.
  - destruct H as (Ev & I' & _). apply (leaves_keeps c); [done|by apply evicts_keeps; [apply (th_inv _ T)|..]|done].
  - destruct H as (Ev & I' & _). apply (leaves_keeps c); [done|by apply evicts_keeps; [apply (th_inv _ T)|..]|]. split_and!; [done..|]. by constructor.
  - destruct H as (Ev & I' & _). apply (leaves_keeps c); [done|by apply evicts_keeps; [apply (th_inv _ T)|..]|done].
Qed.

Lemma admitReturn_leaves c ls fs ref src payload g st c' : threads_ok (mkWorld c ls fs) -> job_ok (pc_options c) (JAdmit ref src payload g) -> admit_outcome (keyOf ref) src payload g c st c' ->
  leaves (pc_options c) ls fs (admitReturn (JAdmit ref src payload g) st) c'.
Proof.
  intros T J H. pose proof (th_inv _ T) as I. cbn in I. unfold admitReturn. destruct st as [| |e]; cbn [admit_outcome] in H.
  - apply (leaves_keeps c); [done| |done]. destruct H as [[-> _]|(i & H)]; [by apply keeps_refl|by eapply admitted_keeps].
  - destruct H as (Ev & I' & _). apply (leaves_keeps c); [done|by apply evicts_keeps|]. split_and!; [done..|]. by constructor.
  - destruct H as (Ev & I' & _). apply (leaves_keeps c); [done|by apply evicts_keeps|done].
Qed.

Lemma foundStep_ok j i f c ls fs : threads_ok (mkWorld c ls fs) -> job_ok (pc_options c) j -> pc_frames c !! i = Some f -> live f = true -> fr_key f = jobKey j ->
  exists a c', foundStep j i c = Some (a, c') /\ leaves (pc_options c) ls fs a c'.
Proof.
  intros T J Hf Lf Hk. pose proof (th_inv _ T) as I. cbn in I. unfold foundStep. destruct j as [ref pin prefetch|ref src payload g]; unfold jobKey in Hk; cbn [jobRef] in Hk.
  - rewrite <- Hk. destruct (loadFrame_spec i f pin prefetch c I Hf Lf) as (st & c' & E & H & _). rewrite E. cbn [mbind option_bind]. eexists _, _. split; [done|].
    rewrite Hk in H. by apply (loadReturn_leaves c).
  - destruct (admitFrame_spec i f ref src payload g c I Hf Lf Hk) as (st & E & H & _). rewrite E. cbn [mbind option_bind]. eexists _, _. split; [done|]. by apply (admitReturn_leaves c).
Qed.

Lemma beginStep_ok j i k c c1 ls fs : threads_ok (mkWorld c ls fs) -> job_ok (pc_options c) j -> fresh (jobKey j) c -> ref_Length (jobRef j) = Buddy.size k * pageSize c -> jobKey j <> zeroKey ->
  evicts c c1 -> reserved i k c1 -> exists a c', beginStep j i c1 = Some (a, c') /\ leaves (pc_options c) ls fs a c'.
Proof.
  intros T J Fr Hl Nz Ev Rv. pose proof (th_inv _ T) as I. cbn in I. unfold beginStep. destruct j as [ref pin prefetch|ref src payload g].
  - destruct (beginLoad_spec ref pin c c1 i k Nz Hl Fr Ev Rv) as (c' & E & B). rewrite E. cbn [mbind option_bind]. eexists _, _. split; [done|]. by apply (loadReturn_leaves c).
  - pose proof J as (_ & Hg & Hs). destruct (beginDirty_spec ref src payload g c c1 i k I Hg Hs Hl Fr Ev Rv) as (c' & E & B). rewrite E. cbn [mbind option_bind]. eexists _, _. split; [done|].
    apply (admitReturn_leaves c); [done|done|]. right. by exists i.
Qed.

Lemma takeStep_ok j n c ls fs : threads_ok (mkWorld c ls fs) -> job_ok (pc_options c) j -> fresh (jobKey j) c ->
  exists a c', secStep (SecTake j n) c = Some (a, c') /\ leaves (pc_options c) ls fs a c'.
Proof.
  intros T J Fr. pose proof (th_inv _ T) as I. cbn in I. destruct (validateRef_spec _ c _ _ I (proj1 J)) as (_ & Nz & k & Hk & Hl). pose proof (ci_page _ _ I) as Hp. open_step.
  replace (ref_Length (jobRef j) / pageSize c) with (Buddy.size k) by (rewrite Hl, Z.div_mul by lia; done).
  destruct (takeSpan_spec c k I Hk) as [(i & c1 & E & Rv & R & Ff)|E]; rewrite E; cbn [mbind option_bind].
  - apply (beginStep_ok j i k c c1); try done. by apply frames_shrunk.
  - eexists _, _. split; [done|]. apply (leaves_keeps c); [done|by apply keeps_refl|done].
Qed.

Lemma fullStep_ok j c ls fs : threads_ok (mkWorld c ls fs) -> job_ok (pc_options c) j -> leaves (pc_options c) ls fs (fullStep j c) c.
Proof.
  intros T J. pose proof (th_inv _ T) as I. cbn in I. destruct j as [ref pin prefetch|ref src payload g]; cbn [fullStep].
  - apply (loadReturn_leaves c); [done|done|]. apply loadFull_outcome; [apply shrunk_refl|done].
  - apply (admitReturn_leaves c); [done|done|]. apply admitFull_outcome; [apply shrunk_refl|done].
Qed.

Lemma clockMove_ok j n c ls fs : threads_ok (mkWorld c ls fs) -> job_ok (pc_options c) j -> fresh (jobKey j) c ->
  exists a c', secStep (SecClock j (S n)) c = Some (a, c') /\ leaves (pc_options c) ls fs a c'.
Proof.
  intros T J Fr. pose proof (th_inv _ T) as I. cbn in I. open_step. destruct (clockStep_spec c I) as (b & c1 & E & Ev & I1). rewrite E. cbn [mbind option_bind]. eexists _, _. split; [done|].
  destruct (validateRef_spec _ c _ _ I (proj1 J)) as (_ & Nz & _). pose proof (s_rest _ _ _ Ev) as (Ro & _).
  apply (leaves_keeps c); [done|by apply evicts_keeps|]. pose proof (evicts_fresh c c1 (jobRef j) I1 Ev Nz Fr) as Fr1. destruct b; cbn [sec_ok]; rewrite Ro; done.
Qed.

Lemma discardMove_ok g i c ls fs : threads_ok (mkWorld c ls fs) -> sec_ok (SecDiscard g i) c fs ->
  exists a c', secStep (SecDiscard g i) c = Some (a, c') /\ leaves (pc_options c) ls fs a c'.
Proof.
  intros T [Hg H]. pose proof (th_inv _ T) as I. cbn in I. open_step. destruct (Nat.ltb_spec i (length (pc_frames c))) as [Hi|_];
    [|eexists _, _; split; [done|]; apply (leaves_keeps c); [done|by apply keeps_refl|done]].
  destruct (discardStep_spec g i c Hg I Hi) as (c1 & E & I1 & S1 & _). rewrite E. cbn [mbind option_bind]. eexists _, _. split; [done|]. apply (leaves_keeps c); [done|..].
  - eapply (shrunk_keeps (fun _ f => fr_dirty f = g /\ fr_pins f = 0)); [done| | |done].
    + destruct S1 as [R O Kp]. split; [done|done|]. intros j x Hx Lx. destruct (Kp j x Hx Lx) as [|D]; [by left|]. right. split; [done|]. by apply (H j).
    + intros _ x (_ & Hl & _) [D P]. split; [|done]. intros Hs. destruct (Hl Hs). congruence.
  - cbn [sec_ok]. split; [done|]. intros j f Hf Df. destruct (live f) eqn:Lf.
    + destruct (s_old _ _ _ S1 j f Hf Lf) as (f0 & H0 & _ & (_ & D0 & _ & -> & _)). apply (H j f0 H0). congruence.
    + destruct (frame_ok_at _ _ _ _ I1 Hf) as (_ & _ & D'). by destruct (D' Lf) as (_ & _ & ->).
Qed.

Lemma closeStep_down c ls fs ws : threads_ok (mkWorld c ls fs) -> fs = [] -> (forall j f, pc_frames c !! j = Some f -> fr_pins f = 0) ->
  closed_down (proceed (closeStep c) ls fs ws (Return [] [] [])).
Proof.
  intros T -> H. split; [done|]. split; [done|]. cbn. split_and!; [|done|].
  - destruct ls as [|l ls]; [done|]. exfalso. destruct (leased_pinned _ l T) as (f & Hf & _ & _ & _ & Hp); [by left|]. cbn in Hf. rewrite (H _ f Hf) in Hp. lia.
  - apply Forall_replicate. done.
Qed.

Lemma unpinned_at c i f : cache_inv c -> pc_frames c !! i = Some f -> (fr_state f <> pageCacheTail -> fr_pins f = 0) -> fr_pins f = 0.
Proof.
  intros I Hf H. destruct (frame_ok_at _ _ _ _ I Hf) as (_ & _ & D). destruct (live f) eqn:Lf; [|by destruct (D eq_refl) as (_ & _ & ->)].
  apply H. intros E. unfold live in Lf. by rewrite E in Lf.
Qed.

(** The holder never panics. *)
Lemma secStep_ok s c ls fs ws : running (pc_options c) (mkSystem (mkWorld c ls fs) (Some s) ws) ->
  exists a c', secStep s c = Some (a, c') /\ (running (pc_options c) (proceed c' ls fs ws a) \/ closed_down (proceed c' ls fs ws a)).
Proof.
  intros [T _ W H]. pose proof (th_inv _ T) as I. cbn [sy_world sy_mu sy_waits w_cache w_loads] in *.
  assert (Keep : forall a, match a with Next s => sec_ok s c fs | Return l f w => l = [] /\ f = [] /\ w = [] end -> running (pc_options c) (proceed c ls fs ws a)).
  { intros a Ha. apply (leaves_keeps c ls fs a c T (keeps_refl c I)); [|done]. destruct a; [done|]. destruct Ha as (-> & -> & ->). done. }
  assert (Into : (exists a c', secStep s c = Some (a, c') /\ leaves (pc_options c) ls fs a c') -> exists a c', secStep s c = Some (a, c') /\
    (running (pc_options c) (proceed c' ls fs ws a) \/ closed_down (proceed c' ls fs ws a))).
  { intros (a & c' & E & L). exists a, c'. split; [done|]. left. by apply L. }
  destruct s as [j i|j n|j n|g i|g i|g i|i].
  - destruct H as (J & f & Hf & Lf & Hk). apply Into. by apply (foundStep_ok j i f).
  - destruct H as [J Fr]. apply Into. by apply takeStep_ok.
  - destruct H as [J Fr]. destruct n as [|n]; [|apply Into; by apply clockMove_ok]. apply Into. eexists _, _. split; [done|]. by apply fullStep_ok.
  - open_step. destruct (pc_frames c !! i) as [f|] eqn:Hf; eexists _, _; (split; [done|]); left; [|by apply Keep].
    apply (leaves_keeps c); [done|by apply durable_keeps|done|done].
  - eexists _, _. split; [done|]. left. apply Keep. unfold checkStep. destruct H as [Hg H]. destruct (pc_frames c !! i) as [f|] eqn:Hf.
    + destruct (pinnedDirty g f) eqn:Pd; [done|]. split; [done|]. intros j x Hj Hx Dx. destruct (decide (j = i)) as [->|N]; [|apply (H j x); [lia|done..]]. assert (x = f) as -> by congruence.
      apply (unpinned_at c i f I Hf). intros Ns. unfold pinnedDirty in Pd. rewrite (bool_decide_false _ Ns), Dx, Z.eqb_refl in Pd. by apply negb_false_iff, Z.eqb_eq in Pd.
    + split; [done|]. intros j x Hx. apply (H j x); [|done]. apply lookup_lt_Some in Hx. apply lookup_ge_None in Hf. lia.
  - apply Into. by apply discardMove_ok.
  - destruct H as (Hc & Hn & H). open_step. destruct (pc_frames c !! i) as [f|] eqn:Hf; eexists _, _; (split; [done|]).
    + left. apply Keep. destruct (pinnedFrame f) eqn:Pd; [done|]. split_and!; [done..|]. intros j x Hj Hx. destruct (decide (j = i)) as [->|N]; [|apply (H j x); [lia|done..]]. assert (x = f) as -> by congruence.
      apply (unpinned_at c i f I Hf). intros Ns. unfold pinnedFrame in Pd. rewrite (bool_decide_false _ Ns) in Pd. by apply negb_false_iff, Z.eqb_eq in Pd.
    + right. apply closeStep_down; [done|done|]. intros j x Hx. apply (H j x); [|done]. apply lookup_lt_Some in Hx. apply lookup_ge_None in Hf. lia.
Qed.

(** ** Events *)

Definition settles (o : PageCacheOptions) (r : response) : Prop :=
  match r with Blocked => True | Panics => False | Goes y => running o y \/ closed_down y end.

Lemma pin_settles o c ls fs mu ws i key : running o (mkSystem (mkWorld c ls fs) mu ws) -> permitted (EPin i key) (mkSystem (mkWorld c ls fs) mu ws) ->
  settles o (sysStep (EPin i key) (mkSystem (mkWorld c ls fs) mu ws)).
Proof.
  intros [T O W H] Pm. pose proof (th_inv _ T) as I. pose proof (th_open _ T) as Cl. unfold sysStep. cbn [sy_world sy_mu sy_waits w_cache w_leases w_loads permitted] in *. rewrite Cl.
  destruct (Nat.ltb_spec i (length (pc_frames c))) as [Hi|]; [|done]. destruct (tryPinFrame_spec i key c I Hi) as (r & c1 & E & Hr). rewrite E.
  destruct r as [l|]; [|subst c1; left; by split]. destruct Hr as (Hli & Hc & Hp). left. pose proof (pins_threads key c l c1 ls fs T Hp) as T'.
  destruct Hp as (k & f & Hf & Hs & Hk & Hm & -> & ->). cbn in Hli. subst k. split; cbn [sy_world sy_mu sy_waits w_cache w_loads]; try done. destruct mu as [s|]; [|done].
  apply (sec_touch s c fs i f); try done. intros _. right. split; [done|]. intros D. by apply (Pm (fr_dirty f) f).
Qed.

Lemma release_settles o c ls fs mu ws n : running o (mkSystem (mkWorld c ls fs) mu ws) -> settles o (sysStep (ERelease n) (mkSystem (mkWorld c ls fs) mu ws)).
Proof.
  intros [T O W H]. pose proof (th_inv _ T) as I. pose proof (th_open _ T) as Cl. unfold sysStep. cbn [sy_world sy_mu sy_waits w_cache w_leases w_loads] in *. rewrite Cl.
  destruct (ls !! n) as [l|] eqn:Hl; [|done]. left. destruct (leased_pinned _ l T) as (f & Hf & Hr & Hk & _ & Hp); [by eapply list_elem_of_lookup_2|]. cbn in Hf.
  pose proof T as T0. rewrite <- (take_drop_middle ls n l Hl) in T0. pose proof (release_threads _ _ _ _ _ T0) as T'. rewrite <- delete_take_drop in T'.
  destruct (release_spec c (l_frame l) f I Hf Hr Hp) as [E _]. rewrite Hk in E.
  split; cbn [sy_world sy_mu sy_waits w_cache w_loads]; try done; rewrite E; [done|]. destruct mu as [s|]; [|done]. apply (sec_touch s c fs _ f); try done. intros E0. lia.
Qed.

Lemma read_settles o c ls fs mu ws n file arrived : running o (mkSystem (mkWorld c ls fs) mu ws) -> settles o (sysStep (ERead n file arrived) (mkSystem (mkWorld c ls fs) mu ws)).
Proof.
  intros [T O W H]. pose proof (th_inv _ T) as I. pose proof (th_open _ T) as Cl. unfold sysStep. cbn [sy_world sy_mu sy_waits w_cache w_leases w_loads] in *. rewrite Cl.
  destruct (fs !! n) as [[ref i pin [read|]]|] eqn:Hn; [done| |done]. destruct (readInto file arrived ref i c) as [r c1] eqn:E. left. pose proof (lookup_lt_Some _ _ _ Hn) as Ln.
  pose proof T as T0. rewrite <- (take_drop_middle fs n _ Hn) in T0. pose proof (read_threads file arrived ref i pin c r c1 ls _ _ T0 E) as T'. rewrite <- insert_take_drop in T' by done.
  assert (Fr : exists a, c1 = setArena a c). { destruct (flight_alone _ _ _ _ _ T0) as (_ & _ & [(rf & Hf) _] & _). cbn in Hf. destruct (readInto_spec file arrived ref c i _ I Hf eq_refl eq_refl) as (r' & a & E' & _).
    rewrite E in E'. injection E' as _ ->. by exists a. }
  destruct Fr as (a & ->). split; cbn [sy_world sy_mu sy_waits w_cache w_loads]; try done. destruct mu as [s|]; [|done]. apply (sec_same s c (setArena a c) fs); try done. intros ->. done.
Qed.

Lemma closing_settles o c ls fs mu ws : running o (mkSystem (mkWorld c ls fs) mu ws) -> settles o (sysStep EClosing (mkSystem (mkWorld c ls fs) mu ws)).
Proof.
  intros [T O W H]. pose proof (th_open _ T) as Cl. unfold sysStep. cbn [sy_world sy_mu sy_waits w_cache w_leases w_loads] in *. rewrite Cl. left.
  split; cbn [sy_world sy_mu sy_waits w_cache w_loads]; try done; [|destruct mu as [s|]; [by apply (sec_same s c _ fs)|done]].
  destruct T as [I C L P N F A Ac]. split; try done. destruct I. by split.
Qed.

Lemma enter_ok j c : cache_inv c -> job_ok (pc_options c) j -> exists r, enter j c = Some r /\ forall s fs, r = Some s -> sec_ok s c fs.
Proof.
  intros I J. unfold enter. destruct (_ || _); [by exists None|]. destruct (validateRef_spec _ c _ _ I (proj1 J)) as (_ & Nz & _).
  destruct (lookupLocked_spec c (jobKey j) (ci_table _ _ I) (dead_key _ _ _ I Nz)) as [(i & f & E & Hf & Hk & Lf)|[E Fr]]; rewrite E; cbn [mbind option_bind]; eexists; (split; [done|]);
    intros s fs [= <-]; [|done]. split; [done|]. by exists f.
Qed.

Lemma resume_ok j c : cache_inv c -> job_ok (pc_options c) j -> (forall ref src payload g, j = JAdmit ref src payload g -> fresh (keyOf ref) c) ->
  exists r, resume j c = Some r /\ forall s fs, r = Some s -> sec_ok s c fs.
Proof.
  intros I J Fr. destruct j as [ref pin prefetch|ref src payload g]; [by apply enter_ok|]. cbn [resume]. eexists. split; [done|]. intros s fs. destruct (_ || _); [done|].
  intros [= <-]. split; [done|]. by eapply Fr.
Qed.

(** A job that takes [c.mu], or is refused. *)
Lemma entered_settles c ls fs ws ws' r : running (pc_options c) (mkSystem (mkWorld c ls fs) None ws) -> Forall (job_ok (pc_options c)) ws' ->
  (exists s, r = Some s /\ forall s' fs, s = Some s' -> sec_ok s' c fs) ->
  settles (pc_options c) (match r with None => Panics | Some s => Goes (mkSystem (mkWorld c ls fs) s ws') end).
Proof. intros [T O W _] W' (s & -> & Hs). left. split; try done. cbn. destruct s as [s|]; [by apply Hs|done]. Qed.

Lemma finish_settles o c ls fs ws n : running o (mkSystem (mkWorld c ls fs) None ws) -> settles o (sysStep (EFinish n) (mkSystem (mkWorld c ls fs) None ws)).
Proof.
  intros [T O W H]. pose proof (th_inv _ T) as I. pose proof (th_open _ T) as Cl. unfold sysStep. cbn [sy_world sy_mu sy_waits w_cache w_leases w_loads] in *. rewrite Cl.
  destruct (fs !! n) as [[ref i pin [read|]]|] eqn:Hn; [|done..]. pose proof T as T0. rewrite <- (take_drop_middle fs n _ Hn) in T0.
  destruct (flight_alone _ _ _ _ _ T0) as (_ & _ & [(rf & Hf) Ha] & _). cbn in Hf, Ha.
  destruct (finishLoad_spec read ref i pin rf c I Hf ltac:(congruence)) as (r & c' & E & I' & F). rewrite E, delete_take_drop. left. destruct r as [l|e|]; [| |done].
  - destruct F as (-> & h & _ & -> & ->). split; try done. cbn [sy_world]. pose proof (published_threads ref i pin rf (ph_PayloadLength h) c ls _ _ (Ok tt) T0 I') as T'. by destruct pin.
  - destruct F as (R & Ag & He). pose proof R as (Ro & _). split; try done; cbn [sy_world w_cache]; [|by rewrite Ro]. by apply (dropped_threads ref i pin c c' ls _ _ read).
Qed.

Lemma sysStep_ok o e y : running o y -> permitted e y -> settles o (sysStep e y).
Proof.
  destruct y as [[c ls fs] mu ws]. intros R Pm. pose proof R as [T O W H]. pose proof (th_inv _ T) as I. pose proof (th_open _ T) as Cl. cbn [sy_world sy_mu sy_waits w_cache w_leases w_loads] in *.
  destruct e as [i key|n|n file arrived| |ref pin prefetch|ref src g|n|n|g|g|ref| |];
    [by apply pin_settles|by apply release_settles|by apply read_settles|by apply closing_settles|..];
    (destruct mu as [s|]; [try (unfold sysStep; cbn; by rewrite Cl)|]); subst o.
  - unfold sysStep. cbn [sy_world sy_mu sy_waits w_cache w_leases w_loads]. rewrite Cl. destruct (validateRef _ ref) as [key| |] eqn:V; [|by left..].
    apply entered_settles with ws; [done|done|]. apply enter_ok; [done|]. split; [|done]. cbn. by destruct (validateRef_spec _ c ref key I V) as (-> & _).
  - unfold sysStep. cbn [sy_world sy_mu sy_waits w_cache w_leases w_loads]. rewrite Cl. destruct (checkDirty _ ref src g) as [[[key bytes] payload]| |] eqn:V; [|by left..].
    destruct (checkDirty_spec _ _ _ _ _ _ _ V) as (V' & Hd & -> & Hl). apply entered_settles with ws; [done|done|]. apply enter_ok; [done|]. split; [|done].
    cbn. by destruct (validateRef_spec _ c ref key I V') as (-> & _).
  - unfold sysStep. cbn [sy_world sy_mu sy_waits w_cache w_leases w_loads permitted] in *. rewrite Cl. destruct (ws !! n) as [j|] eqn:Hn; [|done].
    apply entered_settles with ws; [done|by apply Forall_delete|]. rewrite Forall_lookup in W. apply resume_ok; [done|by apply (W n)|]. intros ref src payload g ->. exact (Pm ref src payload g eq_refl).
  - by apply finish_settles.
  - unfold sysStep. cbn. rewrite Cl. left. by split.
  - unfold sysStep. cbn. rewrite Cl. destruct (Z.eqb_spec g 0); [done|]. left. split; try done. cbn. split; [done|]. intros j f Hj. lia.
  - unfold sysStep. cbn [sy_world sy_mu sy_waits w_cache w_leases w_loads]. rewrite Cl. destruct (Invalidate_spec ref c I) as (b & c1 & E & I1 & Ev & _). rewrite E. left.
    pose proof (s_rest _ _ _ Ev) as (Ro & _). split; try done. cbn. apply (keeps_threads c); [done|]. by apply evicts_keeps.
  - unfold sysStep. cbn. rewrite Cl. destruct (pc_closing c) eqn:Cg; [|done]. destruct (Z.eqb_spec (pc_activeLoads c) 0) as [E|]; [|done]. left. split; try done. cbn. split_and!; [done| |intros j f Hj; lia].
    pose proof (th_active _ T) as Ac. cbn in Ac. destruct fs; [done|]. cbn in Ac. lia.
  - unfold sysStep. cbn. rewrite Cl. destruct (secStep_ok s c ls fs ws R) as (a & c1 & E & D). by rewrite E.
  - unfold sysStep. cbn. by rewrite Cl.
Qed.

Lemma new_running options c : NewPageCache options = Ok c -> Z.of_nat (length (pc_frames c)) + po_MaxPageSize (pc_options c) / po_PageSize (pc_options c) < 2 ^ 32 ->
  running (pc_options c) (mkSystem (mkWorld c [] []) None []).
Proof.
  intros E Hb. pose proof (NewPageCache_quiet options c E Hb) as Q. pose proof (q_inv _ Q) as I. unfold NewPageCache in E.
  destruct (cache_normalized options) as [[o n]|e|]; [|done..]. cbn [mbind res_bind] in E. destruct (Buddy.newPageCacheBlocks _ _) as [b|]; [|done].
  assert (Dead : forall i f, pc_frames c !! i = Some f -> f = emptyFrame).
  { apply (f_equal (fun r => match r with Ok c => pc_frames c | _ => [] end)) in E. cbn in E. intros i f Hf. rewrite <- E in Hf. by apply lookup_replicate in Hf as [-> _]. }
  assert (Cl : pc_closed c = false) by (apply (f_equal (fun r => match r with Ok c => pc_closed c | _ => true end)) in E; by cbn in E).
  assert (Al : pc_activeLoads c = 0) by (apply (f_equal (fun r => match r with Ok c => pc_activeLoads c | _ => 1 end)) in E; by cbn in E).
  split; cbn [sy_world sy_mu sy_waits w_cache w_leases w_loads]; try done. split; cbn [w_cache w_leases w_loads]; try done; [|constructor|]; intros i f Hf; rewrite (Dead i f Hf); done.
Qed.

Lemma run_ok options y : cache_run options y -> running (pc_options (w_cache (sy_world y))) y \/ closed_down y.
Proof.
  induction 1 as [c E Hb|e y y' _ [IH|IH] Pm S]; [left; by apply (new_running options)|..].
  - pose proof (sysStep_ok _ e y IH Pm) as H. rewrite S in H. destruct H as [H|H]; [left|by right]. pose proof (ru_options _ _ H) as ->. exact H.
  - destruct IH as (Cl & _). unfold sysStep in S. by rewrite Cl in S.
Qed.

(** The steps the holder of [c.mu] may still take. *)
Definition budget (s : section) (c : PageCache) : nat :=
  match s with
  | SecFound _ _ => 2 * scans c + 3
  | SecTake _ n => 2 * n + 2
  | SecClock _ n => 2 * n + 1
  | SecDurable _ i | SecDiscard _ i | SecClose i => length (pc_frames c) + 1 - i
  | SecCheck _ i => length (pc_frames c) + 1 - i + (length (pc_frames c) + 2)
  end.

Lemma budget_spent s s' c c' fs : cache_inv c -> sec_ok s c fs -> secStep s c = Some (Next s', c') -> (budget s' c' < budget s c)%nat.
Proof.
  intros I H E. destruct s as [j i|j n|j n|g i|g i|g i|i]; open_step_in E.
  - destruct H as (J & f & Hf & Lf & Hk). destruct j as [ref pin prefetch|ref src payload g]; cbn [foundStep] in E; unfold jobKey in Hk; cbn [jobRef] in Hk.
    + rewrite <- Hk in E. destruct (loadFrame_spec i f pin prefetch c I Hf Lf) as (st & c1 & E1 & _). rewrite E1 in E. discriminate E.
    + destruct (admitFrame_spec i f ref src payload g c I Hf Lf Hk) as (st & E1 & _). rewrite E1 in E. discriminate E.
  - destruct (takeSpan _ c) as [[[i|] c1]|]; [|by injection E as <- <-; cbn; lia|done]. cbn [mbind option_bind] in E. destruct j as [ref pin prefetch|ref src payload g]; cbn [beginStep] in E;
      [destruct (beginLoad _ _ _ _ _ _) as [[st c2]|]|destruct (beginDirty _ _ _ _ _ _ _) as [[st c2]|]]; discriminate E.
  - destruct n as [|n]; [destruct j; discriminate E|]. destruct (clockStep c) as [[b c1]|]; [|done]. injection E as <- <-. destruct b; cbn; lia.
  - destruct (pc_frames c !! i) as [f|] eqn:Hf; [|done]. apply lookup_lt_Some in Hf. injection E as <- <-. cbn. rewrite length_insert. lia.
  - destruct (pc_frames c !! i) as [f|] eqn:Hf; [apply lookup_lt_Some in Hf; destruct (pinnedDirty g f); [done|]|]; injection E as <- <-; cbn; lia.
  - destruct (Nat.ltb_spec i (length (pc_frames c))) as [Hi|]; [|done]. destruct H as [Hg _]. destruct (discardStep_spec g i c Hg I Hi) as (c1 & E1 & _ & S1 & _). rewrite E1 in E.
    injection E as <- <-. pose proof (s_rest _ _ _ S1) as (_ & _ & _ & _ & _ & Ll & _). cbn. lia.
  - destruct (pc_frames c !! i) as [f|] eqn:Hf; [|done]. apply lookup_lt_Some in Hf. injection E as E <-. destruct (pinnedFrame f); [done|]. injection E as <-. cbn. lia.
Qed.

(** C4: however the threads interleave, a lease shows the bytes it was given
    until it is released: its frame is ready, has its key and exactly as many
    pins as there are leases on it, and the extent still holds its page.  Two
    leases are on one frame or on extents that share no byte.  No event the
    callers permit panics, every table entry names a frame, and the holder of
    [c.mu] gives it up within a number of its own steps.  When [Close] is through
    no lease and no read is left.  [permitted] is the contract: pages of a
    generation being discarded are not read, and a page whose admission waits is
    not brought in by another. *)
Theorem leases_stable (options : PageCacheOptions) (y : system) : cache_run options y ->
  let c := w_cache (sy_world y) in
  let ls := w_leases (sy_world y) in
  (forall l, l ∈ ls -> exists f, pc_frames c !! l_frame l = Some f /\ fr_state f = pageCacheReady /\ fr_key f = l_key l /\
     fr_pins f = Z.of_nat (leasesAt (l_frame l) ls) /\ extentBytes (l_frame l) (k_length (l_key l)) c = Some (l_page l)) /\
  (forall l l', l ∈ ls -> l' ∈ ls -> if decide (l_key l = l_key l') then l_frame l = l_frame l' else
     Z.of_nat (l_frame l) * pageSize c + k_length (l_key l) <= Z.of_nat (l_frame l') * pageSize c \/
     Z.of_nat (l_frame l') * pageSize c + k_length (l_key l') <= Z.of_nat (l_frame l) * pageSize c) /\
  (forall e, permitted e y -> sysStep e y <> Panics) /\
  (forall slot entry, pc_table c !! slot = Some entry -> isEntry entry = true -> (Z.to_nat (entry - 1) < length (pc_frames c))%nat) /\
  (forall s s' c', sy_mu y = Some s -> secStep s c = Some (Next s', c') -> (budget s' c' < budget s c)%nat) /\
  (pc_closed c = true -> ls = [] /\ w_loads (sy_world y) = []).
Proof.
  intros H c ls. destruct (run_ok options y H) as [R|D].
  - pose proof (ru_threads _ _ R) as T. pose proof (th_inv _ T) as I. fold c in I. split_and!.
    + intros l Hl. destruct (leased_pinned _ l T Hl) as (f & Hf & Hr & Hk & Hp & _). exists f. split_and!; try done; [by apply (th_pins _ T); [|apply ready_live]|].
      rewrite Hp, <- Hk. apply extentBytes_live; [done|done|by apply ready_live].
    + intros l l' Hl Hl'. destruct (leased_pinned _ l T Hl) as (f & Hf & Hr & Hk & _), (leased_pinned _ l' T Hl') as (f' & Hf' & Hr' & Hk' & _). fold c in Hf, Hf'. case_decide as D.
      * apply (ci_unique _ _ I _ _ f f' Hf Hf' (ready_live f Hr) (ready_live f' Hr')). congruence.
      * rewrite <- Hk, <- Hk'. apply (extents_apart c _ _ f f' I Hf (ready_live f Hr) Hf' (ready_live f' Hr')). intros E. rewrite E, Hf' in Hf. congruence.
    + intros e Pm E. pose proof (sysStep_ok _ e y R Pm) as S. by rewrite E in S.
    + intros s e Hs He. destruct (entry_frame c (ci_table _ _ I) s e Hs He) as (f & Hf & _). by apply lookup_lt_Some in Hf.
    + intros s s' c' Hs E. pose proof (ru_sec _ _ R) as S. rewrite Hs in S. by apply (budget_spent s s' c c' _ I S).
    + intros Cl. pose proof (th_open _ T) as Op. fold c in Op. congruence.
  - destruct D as (Cl & Mu & El & Ef & Et). assert (Stop : forall e, sysStep e y = Blocked) by (intros e; unfold sysStep; by rewrite Cl). subst ls. fold c in Et. split_and!.
    + intros l Hl. rewrite El in Hl. by apply elem_of_nil in Hl.
    + intros l l' Hl. rewrite El in Hl. by apply elem_of_nil in Hl.
    + intros e _. by rewrite Stop.
    + intros s e Hs He. rewrite Forall_lookup in Et. rewrite (Et _ _ Hs) in He. discriminate He.
    + congruence.
    + done.
Qed.

(** ** The two loops of DiscardDirty *)

(** C30: the contract of [leases_stable] is needed.  Whenever [DiscardDirty] is in
    its second loop at a ready page of the generation it discards, a reader can
    still take a lease on the page, since the check of the pins is over and the
    reader needs only the lock of the frame; the next step of the loop then
    resets the frame under that lease. *)
Theorem discard_overtakes_pin (options : PageCacheOptions) (y : system) (g : Z) (i : nat) (f : pageCacheFrame) :
  cache_run options y -> sy_mu y = Some (SecDiscard g i) -> pc_closing (w_cache (sy_world y)) = false ->
  pc_frames (w_cache (sy_world y)) !! i = Some f -> fr_state f = pageCacheReady -> fr_dirty f = g ->
  exists l y1 y2, sysStep (EPin i (fr_key f)) y = Goes y1 /\ sysStep ESection y1 = Goes y2 /\
    l ∈ w_leases (sy_world y2) /\ l_frame l = i /\ l_key l = fr_key f /\ pc_frames (w_cache (sy_world y2)) !! i = Some emptyFrame.
Proof.
  intros H Mu Cg Hf Hr Hd. destruct y as [[c ls fs] mu ws]. cbn [sy_world sy_mu w_cache] in *. subst mu. destruct (run_ok _ _ H) as [R|(_ & D & _)]; [|discriminate D].
  pose proof (ru_threads _ _ R) as T. pose proof (th_inv _ T) as I. pose proof (th_open _ T) as Cl. pose proof (ru_sec _ _ R) as [Hg Hp]. cbn [sy_world sy_mu w_cache w_loads] in *.
  pose proof (lookup_lt_Some _ _ _ Hf) as Li. pose proof (Hp i f Hf Hd) as P0. assert (Nm : fr_pins f <> maxPins) by (rewrite P0; done).
  exists (leaseOf c i f), (mkSystem (mkWorld (setFrame i (pinned f) c) (leaseOf c i f :: ls) fs) (Some (SecDiscard g i)) ws).
  pose proof (pinned_inv c i f I Hf Hr Nm) as I1. set (c1 := setFrame i (pinned f) c) in *. assert (Hf1 : pc_frames c1 !! i = Some (pinned f)) by (cbn; by rewrite list_lookup_insert_eq).
  destruct (resetExtent_spec c1 I1 i (pinned f) Hf1 (ready_live (pinned f) Hr)) as (c2 & E2 & _ & _ & _ & H2).
  exists (mkSystem (mkWorld c2 (leaseOf c i f :: ls) fs) (Some (SecDiscard g (S i))) ws). split_and!; try done; [..|by left].
  - unfold sysStep. cbn [sy_world sy_mu sy_waits w_cache w_leases w_loads]. rewrite Cl, (proj2 (Nat.ltb_lt _ _) Li). unfold tryPinFrame. rewrite Hf. cbn [mbind option_bind].
    rewrite Cg, (bool_decide_true _ Hr), (bool_decide_true _ eq_refl), (proj2 (Z.eqb_neq _ _) Nm). cbn [orb negb]. by rewrite (pinFrame_spec c i f I Hf Hr).
  - unfold sysStep. cbn [sy_world sy_mu sy_waits w_cache w_leases w_loads]. replace (pc_closed c1) with false by done. open_step.
    replace (length (pc_frames c1)) with (length (pc_frames c)) by (cbn; by rewrite length_insert). rewrite (proj2 (Nat.ltb_lt _ _) Li). unfold discardStep. rewrite Hf1. cbn [mbind option_bind].
    cbn [pinned fr_state fr_dirty]. rewrite bool_decide_false by congruence. rewrite Hd, Z.eqb_refl. cbn [negb andb]. by rewrite E2.
Qed.

(** ** Sections that run alone *)

(** The holder of [c.mu] takes its steps with no other thread in between. *)
Inductive alone : section -> PageCache -> after -> PageCache -> Prop :=
| AloneLast s c l f w c' : secStep s c = Some (Return l f w, c') -> alone s c (Return l f w) c'
| AloneNext s c s' c1 a c' : secStep s c = Some (Next s', c1) -> alone s' c1 a c' -> alone s c a c'.

Definition returns (a : after) : bool := match a with Return _ _ _ => true | Next _ => false end.

Lemma alone_last s c a c' : secStep s c = Some (a, c') -> returns a = true -> alone s c a c'.
Proof. destruct a; [done|]. intros E _. by constructor. Qed.

Lemma beginStep_returns j i c a c' : beginStep j i c = Some (a, c') -> returns a = true.
Proof.
  destruct j as [ref pin prefetch|ref src payload g]; cbn [beginStep]; [destruct (beginLoad _ _ _ _ _ _) as [[st c2]|]|destruct (beginDirty _ _ _ _ _ _ _) as [[st c2]|]]; cbn; intros E;
    try discriminate E; by injection E as <- _.
Qed.

(** What the reservation leads to. *)
Definition reservedStep (j : job) (r : option (option nat * PageCache)) : option (after * PageCache) :=
  '(start, c1) ← r; match start with None => Some (fullStep j c1, c1) | Some i => beginStep j i c1 end.

Lemma clock_alone j k n c a c' : cache_inv c -> ref_Length (jobRef j) = Buddy.size k * pageSize c -> (k <= Buddy.maxOrder (pc_blocks c))%nat ->
  reservedStep j (clock n (Buddy.size k) c) = Some (a, c') -> alone (SecClock j n) c a c'.
Proof.
  revert c. induction n as [|n IH]; intros c I Hl Hk E; cbn [clock] in E.
  - cbn in E. injection E as <- <-. apply alone_last; [done|]. by destruct j.
  - destruct (clockStep_spec c I) as (b & c1 & E1 & Ev & I1). rewrite E1 in E. cbn [mbind option_bind] in E. pose proof (s_rest _ _ _ Ev) as (Ro & _ & _ & _ & _ & _ & Mo).
    assert (Hl1 : ref_Length (jobRef j) = Buddy.size k * pageSize c1) by (unfold pageSize in *; by rewrite Ro). rewrite <- Mo in Hk. pose proof (ci_page _ _ I1) as Hp.
    apply AloneNext with (if b then SecTake j n else SecClock j n) c1; [open_step; by rewrite E1|]. destruct b; [|by apply IH].
    assert (Sp : ref_Length (jobRef j) / pageSize c1 = Buddy.size k) by (rewrite Hl1, Z.div_mul by lia; done).
    destruct (takeSpan_spec c1 k I1 Hk) as [(i & c2 & Et & _)|Et]; rewrite Et in E; cbn [mbind option_bind] in E.
    + apply alone_last; [open_step; rewrite Sp, Et; exact E|by eapply beginStep_returns].
    + apply AloneNext with (SecClock j n) c1; [open_step; by rewrite Sp, Et|by apply IH].
Qed.

Lemma reserve_alone j c a c' : cache_inv c -> job_ok (pc_options c) j -> reservedStep j (reserveLocked (ref_Length (jobRef j) / pageSize c) c) = Some (a, c') -> alone (SecTake j (scans c)) c a c'.
Proof.
  intros I J E. destruct (validateRef_spec _ c _ _ I (proj1 J)) as (_ & _ & k & Hk & Hl). pose proof (ci_page _ _ I) as Hp.
  assert (Sp : ref_Length (jobRef j) / pageSize c = Buddy.size k) by (rewrite Hl, Z.div_mul by lia; done). rewrite Sp in E. unfold reserveLocked in E.
  destruct (takeSpan_spec c k I Hk) as [(i & c2 & Et & _)|Et]; rewrite Et in E; cbn [mbind option_bind] in E.
  - apply alone_last; [open_step; rewrite Sp, Et; exact E|by eapply beginStep_returns].
  - apply AloneNext with (SecClock j (scans c)) c; [open_step; by rewrite Sp, Et|by apply (clock_alone j k)].
Qed.

Lemma discard_alone g n i c c' : g <> 0 -> cache_inv c -> (i + n = length (pc_frames c))%nat -> discardFrom n i g c = Some c' -> alone (SecDiscard g i) c (Return [] [] []) c'.
Proof.
  intros Hg. revert i c. induction n as [|n IH]; intros i c I Hn E; cbn [discardFrom] in E.
  - injection E as <-. apply AloneLast. open_step. by rewrite (proj2 (Nat.ltb_ge _ _)) by lia.
  - destruct (discardStep_spec g i c Hg I ltac:(lia)) as (c1 & E1 & I1 & S1 & _). rewrite E1 in E. cbn [mbind option_bind] in E. pose proof (s_rest _ _ _ S1) as (_ & _ & _ & _ & _ & Ll & _).
    apply AloneNext with (SecDiscard g (S i)) c1; [open_step; by rewrite (proj2 (Nat.ltb_lt _ _)), E1 by lia|]. apply IH; [done|lia|done].
Qed.

Lemma check_alone g n i c a c' : (i + n = length (pc_frames c))%nat ->
  (if existsb (pinnedDirty g) (drop i (pc_frames c)) then a = Return [] [] [] /\ c' = c else alone (SecDiscard g 0) c a c') -> alone (SecCheck g i) c a c'.
Proof.
  revert i. induction n as [|n IH]; intros i Hn H.
  - rewrite drop_ge in H by lia. cbn [existsb] in H. apply AloneNext with (SecDiscard g 0) c; [|done]. open_step. by rewrite (proj2 (lookup_ge_None _ _)) by lia.
  - destruct (lookup_lt_is_Some_2 (pc_frames c) i ltac:(lia)) as [f Hf]. rewrite (drop_S _ f i Hf) in H. cbn [existsb] in H. destruct (pinnedDirty g f) eqn:Pd; cbn [orb] in H.
    + destruct H as [-> ->]. apply AloneLast. open_step. by rewrite Hf, Pd.
    + apply AloneNext with (SecCheck g (S i)) c; [open_step; by rewrite Hf, Pd|]. apply IH; [lia|done].
Qed.


(** ** Witnesses *)

(** Events no contract speaks about. *)
Definition unconditional (e : event) (y : system) : bool :=
  match e with EPin _ _ => match discarding (sy_mu y) with None => true | Some _ => false end | EResume _ => false | _ => true end.

Fixpoint runs (es : list event) (y : system) : option system :=
  match es with
  | [] => Some y
  | e :: es => if unconditional e y then match sysStep e y with Goes y' => runs es y' | _ => None end else None
  end.

Lemma unconditional_permitted e y : unconditional e y = true -> permitted e y.
Proof. destruct e; cbn; try done. intros H g f D. by rewrite D in H. Qed.

Lemma runs_run options es y y' : cache_run options y -> runs es y = Some y' -> cache_run options y'.
Proof.
  revert y. induction es as [|e es IH]; intros y R E; cbn [runs] in E; [by injection E as <-|]. destruct (unconditional e y) eqn:U; [|done]. destruct (sysStep e y) as [| |y1] eqn:S; [done|done|].
  apply (IH y1); [|done]. by apply (RunStep _ e y); [|apply unconditional_permitted|].
Qed.

Definition ex_system : system := mkSystem (mkWorld ex_new [] []) None [].

Lemma ex_run : cache_run ex_options ex_system.
Proof. apply RunNew; [apply cacheOr_eq|]; vm_compute; reflexivity. Qed.

(** Runs from the new cache that end as a test says. *)
Lemma ex_reaches es (test : system -> bool) : match runs es ex_system with Some y => test y | None => false end = true -> exists y, cache_run ex_options y /\ test y = true.
Proof. intros E. destruct (runs es ex_system) as [y|] eqn:R; [|discriminate E]. exists y. split; [exact (runs_run _ _ _ _ ex_run R)|exact E]. Qed.

(** A page is admitted and pinned, pinned again while [MarkDurable] is under way. *)
Definition ex_pins : list event := [EAdmit ex_ref ex_bytes 3; ESection; EPin 6 (keyOf ex_ref); EDurable 3; ESection; EPin 6 (keyOf ex_ref)].

Lemma leases_stable_witness : exists y l, cache_run ex_options y /\ sy_mu y <> None /\ length (w_leases (sy_world y)) = 2%nat /\ l ∈ w_leases (sy_world y) /\
  extentBytes (l_frame l) (k_length (l_key l)) (w_cache (sy_world y)) = Some (l_page l) /\ pc_closed (w_cache (sy_world y)) = false /\ sysStep ESection y <> Panics.
Proof.
  destruct (ex_reaches ex_pins (fun y => match sy_mu y with Some _ => true | None => false end && (length (w_leases (sy_world y)) =? 2)%nat)) as (y & R & E); [vm_compute; reflexivity|].
  apply andb_true_iff in E as [Em El]. apply Nat.eqb_eq in El. destruct (leases_stable ex_options y R) as (H1 & _ & H3 & _ & _ & H6). destruct (w_leases (sy_world y)) as [|l ls] eqn:Els; [discriminate El|].
  exists y, l. rewrite Els. split; [exact R|]. split; [intros E; rewrite E in Em; discriminate Em|]. split; [exact El|]. split; [by left|].
  destruct (H1 l ltac:(by left)) as (f & _ & _ & _ & _ & Hb). split; [exact Hb|]. split; [|by apply H3]. destruct (pc_closed (w_cache (sy_world y))) eqn:Ec; [|reflexivity].
  destruct (H6 eq_refl) as [D _]. discriminate D.
Defined.

(** [DiscardDirty] has passed its check of all eight frames and six of the resets. *)
Definition ex_discards : list event := [EAdmit ex_ref ex_bytes 3; ESection; EDiscard 3] ++ replicate 9 ESection ++ replicate 6 ESection.

Definition at_discard (y : system) : bool :=
  match sy_mu y, pc_frames (w_cache (sy_world y)) !! 6%nat with
  | Some (SecDiscard g i), Some f => (g =? 3) && (i =? 6)%nat && negb (pc_closing (w_cache (sy_world y))) && bool_decide (fr_state f = pageCacheReady) && (fr_dirty f =? 3)
  | _, _ => false
  end.

Lemma discard_overtakes_pin_witness : exists y l y2, cache_run ex_options y /\ l ∈ w_leases (sy_world y2) /\ pc_frames (w_cache (sy_world y2)) !! l_frame l = Some emptyFrame.
Proof.
  destruct (ex_reaches ex_discards at_discard) as (y & R & E); [vm_compute; reflexivity|]. unfold at_discard in E. destruct (sy_mu y) as [[| | | | |g i|]|] eqn:Mu; try discriminate E.
  destruct (pc_frames (w_cache (sy_world y)) !! 6%nat) as [f|] eqn:Hf; [|discriminate E]. apply andb_true_iff in E as [E Ed]. apply andb_true_iff in E as [E Er]. apply andb_true_iff in E as [E Ec].
  apply andb_true_iff in E as [Eg Ei]. apply Z.eqb_eq in Eg, Ed. apply Nat.eqb_eq in Ei. apply bool_decide_eq_true in Er. apply negb_true_iff in Ec. subst g i.
  destruct (discard_overtakes_pin ex_options y 3 6 f R Mu Ec Hf Er Ed) as (l & y1 & y2 & _ & _ & Hl & Hi & _ & He). exists y, l, y2. rewrite Hi. split; [exact R|]. by split.
Defined.

