(* ===== verification/FreeTreeCache.v ===== *)
(** * FreeTreeCache: the free tree on the page cache

    The theorems on the free tree hold for any [PageStore]; here they are applied
    to the page cache.  A transaction over a cache of eight slots plants a tree,
    then inserts, deletes and traverses. *)
From Stdlib Require Import ZArith Lia List Bool Sorted.
From stdpp Require Import base numbers list strings sets sorting.
From S2P Require Import Prelude Leases Bytes Page StateRoot FreeDirectory Superblock Blocks Device Committer GroupCommit WriteTx FreeNode FreeTree FreeTreeSteps FreeTreeSpec FreeTreeMutate FreeTreeRefine PageCache PageCacheInv PageCacheOps PageCacheStore.

Open Scope Z_scope.

(** ** The cache *)

Definition ft_file : os_file := mkFile [] (fun _ _ => false) false.
Definition ft_options : PageCacheOptions := mkCacheOptions 0 None 4096 0 32768 (replicate 16 7) 0 0 0 0.
Definition ft_new : PageCache := cacheOr (NewPageCache ft_options).

Lemma ft_new_quiet : quiet ft_new.
Proof. apply (NewPageCache_quiet ft_options); [apply cacheOr_eq|]; vm_compute; reflexivity. Qed.

Definition ft_cache : quietCache := exist _ ft_new ft_new_quiet.
Local Notation ft_store := (pageCacheStore ft_file).

(** ** The tree *)

Definition ft_x1 : FreeExtent := mkExtent 8192 4096 1.
Definition ft_x2 : FreeExtent := mkExtent 12288 4096 1.

Lemma ft_words : tx_words tx_o /\ o_PageSize tx_o <= 2 ^ 20.
Proof. unfold tx_words, word_ok. split; [|cbn; lia]. split; [done|]. split; [by apply bytes_ok_bool|]. cbn; lia. Qed.

Lemma ft_extents : Forall (extent_ok 4096 20480) [ft_x1; ft_x2] /\ StronglySorted ends_before [ft_x1; ft_x2].
Proof.
  unfold extent_ok, extent_words, word_ok, extent_in_file, extent_end, ft_x1, ft_x2, superblockCopies. split.
  - repeat constructor; cbn; done || lia.
  - repeat constructor; cbn; lia.
Qed.

(** One extent inserted into the empty tree. *)
Lemma plant_stored {K : DirtyCache} {P : PageStore K} o pool t0 c0 (k0 : cache) x fuel : begun o pool t0 c0 -> tx_words o -> o_PageSize o <= 2 ^ 20 ->
  t_fileEnd t0 <= maxSuperblockFileOffset -> extent_ok (o_PageSize o) (t_fileEnd t0) x -> (10 < fuel)%nat ->
  match UpsertFreeTree fuel t0 c0 k0 zeroRef x (mkBounds (t_fileEnd t0) (t_nextID t0)) with
  | (Ok m, s') => exists ps rs, tx_run t0 c0 k0 (ts_tx s') (ts_committer s') (ts_cache s') ps /\
      stored o pool ps (ts_cache s') (t_fileEnd (ts_tx s')) (t_nextID (ts_tx s')) (m_Root m) [x] rs
  | (Err e, s') => True
  | (OutOfFuel, _) => False
  end.
Proof.
  intros Bg Wo Hps Hm Hx Hf. pose proof (mutate_outcome o pool t0 c0 k0 Bg Wo Hps false (Offset x) x zeroRef [] [] fuel (startTree t0 c0 k0) [] (RunBegin _ _ _) eq_refl
    (StoredEmpty _ _ _ _ _ _) Hm (Forall_cons_2 _ _ _ Hx (Forall_nil_2 _)) ltac:(repeat constructor) ltac:(done) Hf) as H.
  unfold UpsertFreeTree. cbn [startTree ts_tx] in H. destruct (mutateFreeTree _ _ _ _ _ _ _) as [[m|e|] s']; [|done..].
  destruct H as (new & rs' & G & St & _). exists new, rs'. split; [apply (g_run _ _ _ _ _ _ _ _ _ G)|exact St].
Qed.

(** A state of a transaction in which a tree has been planted, and what can be
    done in it. *)
Definition ft_bounds (t : WriteTransaction) : FreeTreeBounds := mkBounds (t_fileEnd t) (t_nextID t).

Lemma planted_then o pool t0 c0 x fuel fe (next : tstate (K := pageDirtyCache) -> PageRef -> bool) : begun o pool t0 c0 -> tx_words o -> o_PageSize o <= 2 ^ 20 ->
  t_fileEnd t0 <= maxSuperblockFileOffset -> extent_ok (o_PageSize o) (t_fileEnd t0) x -> (10 < fuel)%nat ->
  match UpsertFreeTree (P := ft_store) fuel t0 c0 ft_cache zeroRef x (ft_bounds t0) with
  | (Ok m, s') => (t_fileEnd (ts_tx s') =? fe) && next s' (m_Root m)
  | _ => false
  end = true ->
  exists s ps root rs, tx_run (K := pageDirtyCache) t0 c0 ft_cache (ts_tx s) (ts_committer s) (ts_cache s) ps /\
    stored (P := ft_store) o pool ps (ts_cache s) (t_fileEnd (ts_tx s)) (t_nextID (ts_tx s)) root [x] rs /\ t_fileEnd (ts_tx s) = fe /\ next s root = true.
Proof.
  intros Bg Wo Hps Hm Hx Hf H. pose proof (plant_stored (P := ft_store) o pool t0 c0 ft_cache x fuel Bg Wo Hps Hm Hx Hf) as R. unfold ft_bounds in H.
  destruct (UpsertFreeTree _ _ _ _ _ _ _) as [[m|e|] s']; [|discriminate H..]. apply andb_true_iff in H as [Hfe Hn]. apply Z.eqb_eq in Hfe.
  destruct R as (ps & rs & R & St). by exists s', ps, (m_Root m), rs.
Qed.

Definition ft_next (s : tstate (K := pageDirtyCache)) (root : PageRef) : bool :=
  is_ok (UpsertFreeTree (P := ft_store) 11 (ts_tx s) (ts_committer s) (ts_cache s) root ft_x2 (ft_bounds (ts_tx s))).1 &&
  is_ok (DeleteFreeTree (P := ft_store) 11 (ts_tx s) (ts_committer s) (ts_cache s) root 8192 (ft_bounds (ts_tx s))).1 &&
  match (AppendFreeTreeExtents (P := ft_store) root (ft_bounds (ts_tx s)) [] 4 (ts_cache s)).1.1 with None => true | Some _ => false end.

Lemma ft_planted : exists s ps root rs, tx_run (K := pageDirtyCache) tx_t0 tx_c0 ft_cache (ts_tx s) (ts_committer s) (ts_cache s) ps /\
  stored (P := ft_store) tx_o tx_pool ps (ts_cache s) (t_fileEnd (ts_tx s)) (t_nextID (ts_tx s)) root [ft_x1] rs /\ t_fileEnd (ts_tx s) = 20480 /\ ft_next s root = true.
Proof.
  destruct ft_words as [W1 W2]. destruct ft_extents as [X _]. apply Forall_cons in X as [X _].
  assert (E1 : t_fileEnd tx_t0 = 20480) by (vm_compute; reflexivity).
  apply (planted_then tx_o tx_pool tx_t0 tx_c0 ft_x1 11 20480 ft_next tx_begun W1 W2); [rewrite E1; done|rewrite E1; exact X|lia|vm_compute; reflexivity].
Qed.

Lemma ft_limit : 20480 <= maxSuperblockFileOffset.
Proof. done. Qed.



Lemma AppendFreeTreeExtents_spec_witness : exists s root k',
  AppendFreeTreeExtents (P := ft_store) root (ft_bounds (ts_tx s)) [] 4 (ts_cache s) = (None, [ft_x1], k').
Proof.
  destruct ft_planted as (s & ps & root & rs & R & St & Ef & N). apply andb_true_iff in N as [_ N].
  assert (Hb : later_bounds (o_PageSize tx_o) (t_fileEnd (ts_tx s)) (t_nextID (ts_tx s)) (t_fileEnd (ts_tx s)) (t_nextID (ts_tx s))).
  { unfold later_bounds. rewrite Ef. split_and!; first [exact ft_limit|lia|reflexivity]. }
  pose proof (AppendFreeTreeExtents_spec (P := ft_store) tx_o tx_pool ps (ts_cache s) (t_fileEnd (ts_tx s)) (t_nextID (ts_tx s)) root [ft_x1] rs [] 4
    ltac:(cbn; lia) Hb St ltac:(cbn; lia) ltac:(constructor) ltac:(repeat constructor)) as H. exists s, root. unfold ft_bounds in *.
  destruct (AppendFreeTreeExtents _ _ _ _ _) as [[[e|] out] k']; [discriminate N|]. destruct H as (_ & _ & ->). by exists k'.
Defined.
