(* ===== verification/NumberEqual.v ===== *)
(** * NumberEqual: exact equality of JSON number spellings

    Models number_equal.go: the decimal decomposition of a validated number
    spelling, the weight comparison with its arbitrary-precision cold path, and
    the lockstep over significant digits.  It is proved to decide equality of
    the mathematical values, at any exponent. *)
From Stdlib Require Import ZArith Lia List Bool.
From stdpp Require Import base numbers list.
From S2P Require Import Prelude Utf8 Grammar Lex.

Open Scope Z_scope.

Definition u64 (x : Z) : Z := x mod 2 ^ 64.
Definition i64 (x : Z) : Z := (x + 2 ^ 63) mod 2 ^ 64 - 2 ^ 63.

(** [src[i]] on an index known to be in range. *)
Definition at_ (src : list Z) (i : Z) : Z := default 0 (src !! Z.to_nat i).

Record decNumber := mkDec {
  d_zero : bool;
  d_neg : bool;
  sigFirst : Z;
  sigLast : Z;
  dot : Z;
  weight : Z;
  expFits : bool;
  expNeg : bool;
  expDigits : list Z;
  adj : Z;
}.

(** [for i < len(src) && src[i] == '0' { i++ }] *)
Fixpoint skipZeros (src : list Z) (n i : nat) : nat :=
  match n with
  | O => i
  | S n => if byteAt src i (fun c => c =? 0x30) then skipZeros src n (S i) else i
  end.

(** The first index in [j, j + n) whose byte is not '0', or -1. *)
Fixpoint firstNonzero (src : list Z) (n j : nat) : Z :=
  match n with
  | O => -1
  | S n => if byteAt src j (fun c => negb (c =? 0x30)) then Z.of_nat j else firstNonzero src n (S j)
  end.

(** The last index in [j, j + n) whose byte is not '0', or -1. *)
Fixpoint lastNonzero (src : list Z) (n j : nat) : Z :=
  match n with
  | O => -1
  | S n => if byteAt src (j + n) (fun c => negb (c =? 0x30)) then Z.of_nat (j + n) else lastNonzero src n j
  end.

(** [exp = exp*10 + int64(c-'0')] over the exponent digits. *)
Definition accumulate (wrap : Z -> Z) (ds : list Z) : Z := fold_left (fun m c => wrap (m * 10 + (c - 0x30))) ds 0.

(** The optional sign of the exponent at [i]. *)
Definition expSign (src : list Z) (i : nat) : bool * nat :=
  if byteAt src i (fun c => c =? 0x2b) then (false, S i)
  else if byteAt src i (fun c => c =? 0x2d) then (true, S i) else (false, i).

(** The exponent part at [i]: its sign, its digits without leading zeros,
    whether they fit, and the signed value when they do. *)
Definition parseExp (src : list Z) (i : nat) : bool * list Z * bool * Z :=
  if (i <? length src)%nat then
    let '(neg, i) := expSign src (S i) in
    let i := skipZeros src (length src) i in
    let ds := drop i src in
    if (length ds <=? 18)%nat then
      let exp := accumulate i64 ds in (neg, ds, true, if neg : bool then i64 (- exp) else exp)
    else (neg, ds, false, 0)
  else (false, [], true, 0).

(** The offsets the scan over sign, integer and fraction leaves behind. *)
Record numLayout := mkLayout {
  l_neg : bool;
  intStart : nat;
  intEnd : nat;
  l_dot : Z;
  fracStart : nat;
  fracEnd : nat;
  expStart : nat;
}.

Definition numberLayout (src : list Z) : numLayout :=
  let neg := byteAt src 0 (fun c => c =? 0x2d) in
  let intStart := if neg then 1%nat else 0%nat in
  let intEnd := scanDigits src (length src) intStart in
  if byteAt src intEnd (fun c => c =? 0x2e) then
    let fracEnd := scanDigits src (length src) (S intEnd) in
    mkLayout neg intStart intEnd (Z.of_nat intEnd) (S intEnd) fracEnd fracEnd
  else mkLayout neg intStart intEnd (-1) 0 0 intEnd.

(** [sigFirst], -1 when every digit is zero, and [adj]. *)
Definition firstSig (src : list Z) (l : numLayout) : Z * Z :=
  if byteAt src (intStart l) (fun c => negb (c =? 0x30))
  then (Z.of_nat (intStart l), Z.of_nat (intEnd l - intStart l) - 1)
  else
    let j := firstNonzero src (fracEnd l - fracStart l) (fracStart l) in
    (j, if j <? 0 then 0 else - (j - Z.of_nat (fracStart l)) - 1).

Definition lastSig (src : list Z) (l : numLayout) : Z :=
  let last := lastNonzero src (fracEnd l - fracStart l) (fracStart l) in
  if last <? 0 then lastNonzero src (intEnd l) 0 else last.

Definition parseDecNumber (src : list Z) : decNumber :=
  let l := numberLayout src in
  let '(expNeg, expDigits, expFits, exp) := parseExp src (expStart l) in
  let '(sigFirst, adj) := firstSig src l in
  if sigFirst <? 0 then mkDec true (l_neg l) sigFirst 0 (l_dot l) 0 expFits expNeg expDigits adj
  else
    let weight := if expFits : bool then i64 (exp + adj) else 0 in
    mkDec false (l_neg l) sigFirst (lastSig src l) (l_dot l) weight expFits expNeg expDigits adj.

(** ** Weights *)

Definition decWeightTermSmallLimit : Z := 10 ^ 19.

Definition absInt64 (v : Z) : Z := if v <? 0 then u64 (- v) else u64 v.

Definition decSignedAdd (neg : bool) (m adj : Z) : bool * Z :=
  let a := absInt64 adj in
  if Bool.eqb neg (adj <? 0) then (neg && negb (u64 (m + a) =? 0), u64 (m + a))
  else if a <=? m then (neg && negb (m =? a), u64 (m - a))
  else (negb neg, u64 (a - m)).

(** Digits of [v], least significant last; twenty are enough for a uint64. *)
Fixpoint decimalDigits (fuel : nat) (v : Z) (acc : list Z) : list Z :=
  match fuel with
  | O => acc
  | S fuel =>
      let acc := (0x30 + v mod 10) :: acc in
      if v / 10 =? 0 then acc else decimalDigits fuel (v / 10) acc
  end.
Definition appendDecimalUint64 (dst : list Z) (v : Z) : list Z := dst ++ decimalDigits 20 v [].

(** The loops run from the last digit; the lists here are reversed. *)
Fixpoint addDigits (rev : list Z) (u : Z) : list Z :=
  match rev with
  | [] => []
  | c :: rest =>
      if u =? 0 then rev
      else
        let s := (c - 0x30) + u mod 10 in
        if 10 <=? s then (0x30 + (s - 10)) :: addDigits rest (u / 10 + 1)
        else (0x30 + s) :: addDigits rest (u / 10)
  end.

Definition decDigitsAddUint64 (digits : list Z) (u : Z) : list Z :=
  let out := List.rev (addDigits (List.rev (0x30 :: digits)) u) in
  match out with
  | c :: rest => if c =? 0x30 then rest else out
  | [] => out
  end.

Fixpoint subDigits (rev : list Z) (u borrow : Z) : list Z :=
  match rev with
  | [] => []
  | c :: rest =>
      if (u =? 0) && (borrow =? 0) then rev
      else
        let sub := u mod 10 + borrow in
        let have := c - 0x30 in
        if sub <=? have then (0x30 + have - sub) :: subDigits rest (u / 10) 0
        else (0x30 + have + 10 - sub) :: subDigits rest (u / 10) 1
  end.

(** [for start < len(out)-1 && out[start] == '0' { start++ }] *)
Fixpoint trimZeros (out : list Z) : list Z :=
  match out with
  | [] => out
  | c :: rest =>
      match rest with
      | [] => out
      | _ :: _ => if c =? 0x30 then trimZeros rest else out
      end
  end.

Definition decDigitsSubUint64 (digits : list Z) (u : Z) : list Z :=
  trimZeros (List.rev (subDigits (List.rev digits) u 0)).

(** (neg, small, mag, digits) *)
Definition decWeightTerm (d : decNumber) : bool * bool * Z * list Z :=
  if (length (expDigits d) <=? 19)%nat then
    let m := accumulate u64 (expDigits d) in
    let '(neg, mag) := decSignedAdd (expNeg d) m (adj d) in
    if mag <? decWeightTermSmallLimit then (neg, true, mag, [])
    else (neg, false, 0, appendDecimalUint64 [] mag)
  else
    let digits :=
      if Bool.eqb (expNeg d) (adj d <? 0) then decDigitsAddUint64 (expDigits d) (absInt64 (adj d))
      else decDigitsSubUint64 (expDigits d) (absInt64 (adj d)) in
    let m := accumulate u64 digits in
    if (length digits <=? 19)%nat && (m <? decWeightTermSmallLimit) then (expNeg d, true, m, [])
    else (expNeg d, false, 0, digits).

Definition decWeightEqual (a b : decNumber) : bool :=
  if expFits a && expFits b then weight a =? weight b
  else
    let '(an, aSmall, aMag, aDigits) := decWeightTerm a in
    let '(bn, bSmall, bMag, bDigits) := decWeightTerm b in
    if negb (Bool.eqb aSmall bSmall) then false
    else if aSmall : bool then Bool.eqb an bn && (aMag =? bMag)
    else Bool.eqb an bn && bool_decide (aDigits = bDigits).

(** The lockstep; every turn advances both indices, so the fuel bounds them. *)
Fixpoint lockstep (fuel : nat) (a b : list Z) (da db : decNumber) (i j : Z) : res Empty_set bool :=
  match fuel with
  | O => OutOfFuel
  | S fuel =>
      let i := if i =? dot da then i + 1 else i in
      let j := if j =? dot db then j + 1 else j in
      let aMore := i <=? sigLast da in
      let bMore := j <=? sigLast db in
      if negb aMore || negb bMore then Ok (Bool.eqb aMore bMore)
      else if negb (at_ a i =? at_ b j) then Ok false
      else lockstep fuel a b da db (i + 1) (j + 1)
  end.

Definition jsonNumberEqual (a b : list Z) : res Empty_set bool :=
  if bool_decide (a = b) then Ok true
  else
    let da := parseDecNumber a in
    let db := parseDecNumber b in
    if d_zero da || d_zero db then Ok (Bool.eqb (d_zero da) (d_zero db))
    else if negb (Bool.eqb (d_neg da) (d_neg db)) || negb (decWeightEqual da db) then Ok false
    else lockstep (S (length a)) a b da db (sigFirst da) (sigFirst db).

Example equal_ex1 : jsonNumberEqual [0x31] [0x30; 0x2e; 0x31; 0x65; 0x31] = Ok true.
Proof. reflexivity. Qed.
Example equal_ex2 : jsonNumberEqual [0x31; 0x30; 0x2e; 0x35] [0x31; 0x30; 0x35; 0x65; 0x2d; 0x31] = Ok true.
Proof. reflexivity. Qed.
Example equal_ex3 : jsonNumberEqual [0x2d; 0x30] [0x30; 0x2e; 0x30; 0x65; 0x39] = Ok true.
Proof. reflexivity. Qed.
Example equal_ex4 : jsonNumberEqual [0x31; 0x65; 0x32] [0x31; 0x30; 0x31] = Ok false.
Proof. reflexivity. Qed.

(** ** Values

    A spelling denotes [m * 10^e]; two of them are compared at the smaller
    exponent, so that the specification needs integers only. *)

Definition dval (ds : list Z) : Z := accumulate id ds.

Definition exp_value (p : numparts) : Z :=
  match np_exp p with
  | None => 0
  | Some (_, sgn, ds) => if bool_decide (sgn = Some 0x2d) then - dval ds else dval ds
  end.

Definition np_mantissa (p : numparts) : Z :=
  let m := dval (np_int p ++ np_frac p) in if np_neg p then - m else m.
Definition np_exponent (p : numparts) : Z := exp_value p - Z.of_nat (length (np_frac p)).

Definition same_value (m1 e1 m2 e2 : Z) : Prop :=
  let e := Z.min e1 e2 in m1 * 10 ^ (e1 - e) = m2 * 10 ^ (e2 - e).

Definition np_equal (p q : numparts) : Prop :=
  same_value (np_mantissa p) (np_exponent p) (np_mantissa q) (np_exponent q).

(** ** Digit strings *)

Lemma accumulate_app wrap l1 l2 :
  accumulate wrap (l1 ++ l2) = fold_left (fun m c => wrap (m * 10 + (c - 0x30))) l2 (accumulate wrap l1).
Proof. unfold accumulate. apply fold_left_app. Qed.

Lemma dval_snoc l c : dval (l ++ [c]) = dval l * 10 + (c - 0x30).
Proof. unfold dval. by rewrite accumulate_app. Qed.

Lemma dval_app l1 l2 : dval (l1 ++ l2) = dval l1 * 10 ^ Z.of_nat (length l2) + dval l2.
Proof.
  induction l2 as [|c l2 IH] using rev_ind; [rewrite app_nil_r; cbn; lia|].
  rewrite app_assoc, !dval_snoc, IH, length_app, Nat2Z.inj_add. change (Z.of_nat (length [c])) with 1.
  rewrite Z.pow_add_r by lia. ring.
Qed.

Lemma dval_cons c l : dval (c :: l) = (c - 0x30) * 10 ^ Z.of_nat (length l) + dval l.
Proof. change (c :: l) with ([c] ++ l). rewrite dval_app. unfold dval at 1. cbn -[Z.pow]. lia. Qed.

Lemma digit_range c : isDigit c = true -> 0 <= c - 0x30 <= 9.
Proof. unfold isDigit. lia. Qed.

Lemma digits_snoc l c : digits (l ++ [c]) -> digits l /\ 0 <= c - 0x30 <= 9.
Proof.
  intros H. apply Forall_app in H as [Hl Hc]. apply Forall_cons_1 in Hc as [Hc _]. split; [done|by apply digit_range].
Qed.

Lemma dval_bounds l : digits l -> 0 <= dval l < 10 ^ Z.of_nat (length l).
Proof.
  induction l as [|c l IH] using rev_ind; intros H; [cbn; lia|]. apply digits_snoc in H as [Hl Hc].
  specialize (IH Hl). rewrite dval_snoc, length_app, Nat2Z.inj_add, Z.pow_add_r by lia.
  change (Z.of_nat (length [c])) with 1. lia.
Qed.

(** Equal values and lengths mean equal strings. *)
Lemma dval_inj l1 l2 : digits l1 -> digits l2 -> length l1 = length l2 -> dval l1 = dval l2 -> l1 = l2.
Proof.
  revert l2. induction l1 as [|c l1 IH] using rev_ind; intros l2 H1 H2 L E.
  - by destruct l2.
  - destruct l2 as [|d l2 _] using rev_ind; [rewrite length_app in L; simpl in L; lia|].
    apply digits_snoc in H1 as [H1 Hc]. apply digits_snoc in H2 as [H2 Hd].
    rewrite !dval_snoc in E. rewrite !length_app in L. simpl in L.
    assert (E1 : c = d /\ dval l1 = dval l2) by lia. destruct E1 as [-> E1]. f_equal. apply IH; [done..|lia|done].
Qed.

Definition no_lead (l : list Z) : Prop := head l <> Some 0x30.
Definition no_trail (l : list Z) : Prop := last l <> Some 0x30.

Lemma dval_lower l : digits l -> no_lead l -> l <> [] -> 10 ^ (Z.of_nat (length l) - 1) <= dval l.
Proof.
  intros H Nl Ne. destruct l as [|c l]; [done|]. apply Forall_cons in H as [Hc H]. apply digit_range in Hc.
  rewrite dval_cons. pose proof (dval_bounds l H). simpl length. replace (Z.of_nat (S (length l)) - 1) with (Z.of_nat (length l)) by lia.
  assert (c <> 0x30) by (intros ->; by apply Nl). pose proof (Z.pow_pos_nonneg 10 (Z.of_nat (length l))). nia.
Qed.

Lemma dval_mod10 l : no_trail l -> digits l -> l <> [] -> dval l mod 10 <> 0.
Proof.
  intros Nt H Ne. destruct l as [|c l _] using rev_ind; [done|]. apply digits_snoc in H as [_ Hc].
  rewrite dval_snoc, Z.add_comm, Z.mod_add, Z.mod_small by lia. unfold no_trail in Nt. rewrite last_snoc in Nt.
  intros E. apply Nt. f_equal. lia.
Qed.

Lemma no_lead_length l1 l2 :
  digits l1 -> digits l2 -> no_lead l1 -> no_lead l2 -> l1 <> [] -> l2 <> [] -> dval l1 = dval l2 -> length l1 = length l2.
Proof.
  intros D1 D2 N1 N2 E1 E2 E. pose proof (dval_bounds l1 D1). pose proof (dval_bounds l2 D2).
  pose proof (dval_lower l1 D1 N1 E1). pose proof (dval_lower l2 D2 N2 E2).
  assert (Z.of_nat (length l1) - 1 < Z.of_nat (length l2)) by (apply (Z.pow_lt_mono_r_iff 10); lia).
  assert (Z.of_nat (length l2) - 1 < Z.of_nat (length l1)) by (apply (Z.pow_lt_mono_r_iff 10); lia). lia.
Qed.

Lemma no_lead_inj l1 l2 :
  digits l1 -> digits l2 -> no_lead l1 -> no_lead l2 -> l1 <> [] -> l2 <> [] -> dval l1 = dval l2 -> l1 = l2.
Proof. intros. apply dval_inj; [done..| |done]. by apply no_lead_length. Qed.

(** The normal form [± 0.D × 10^(w+1)] is unique. *)
Lemma scaled_unique m1 m2 k1 k2 :
  m1 mod 10 <> 0 -> m2 mod 10 <> 0 -> 0 <= k1 -> 0 <= k2 -> m1 * 10 ^ k1 = m2 * 10 ^ k2 -> k1 = k2 /\ m1 = m2.
Proof.
  assert (G : forall m1 m2 k1 k2, m1 mod 10 <> 0 -> 0 <= k1 < k2 -> m1 * 10 ^ k1 = m2 * 10 ^ k2 -> False).
  { intros a b k l Ha Hk E. replace l with (k + (1 + (l - k - 1))) in E by lia. rewrite !Z.pow_add_r in E by lia.
    assert (E' : a = b * 10 ^ (l - k - 1) * 10) by (pose proof (Z.pow_pos_nonneg 10 k); nia).
    apply Ha. rewrite E'. apply Z.mod_mul. lia. }
  intros H1 H2 K1 K2 E. destruct (Z.lt_trichotomy k1 k2) as [L|[->|L]].
  - exfalso. by apply (G m1 m2 k1 k2).
  - split; [done|]. pose proof (Z.pow_pos_nonneg 10 k2). nia.
  - exfalso. by apply (G m2 m1 k2 k1).
Qed.

Lemma same_value_shift m1 e1 m2 e2 k1 k2 :
  0 <= k1 -> 0 <= k2 -> same_value (m1 * 10 ^ k1) e1 (m2 * 10 ^ k2) e2 <-> same_value m1 (e1 + k1) m2 (e2 + k2).
Proof.
  intros H1 H2. unfold same_value. cbn zeta. set (e := Z.min e1 e2). set (f := Z.min (e1 + k1) (e2 + k2)).
  assert (He : e <= f) by lia. rewrite <- !Z.mul_assoc, <- !Z.pow_add_r by lia.
  replace (k1 + (e1 - e)) with ((e1 + k1 - f) + (f - e)) by lia. replace (k2 + (e2 - e)) with ((e2 + k2 - f) + (f - e)) by lia.
  rewrite !Z.pow_add_r by lia. pose proof (Z.pow_pos_nonneg 10 (f - e)). nia.
Qed.

(** Signed normal forms. *)
Definition signed (neg : bool) (m : Z) : Z := if neg then - m else m.

Lemma normal_form_eq n1 D1 w1 n2 D2 w2 :
  digits D1 -> digits D2 -> no_lead D1 -> no_lead D2 -> no_trail D1 -> no_trail D2 -> D1 <> [] -> D2 <> [] ->
  same_value (signed n1 (dval D1)) (w1 - Z.of_nat (length D1) + 1) (signed n2 (dval D2)) (w2 - Z.of_nat (length D2) + 1) <->
  n1 = n2 /\ w1 = w2 /\ D1 = D2.
Proof.
  intros G1 G2 L1 L2 T1 T2 E1 E2. split; [|intros (-> & -> & ->); unfold same_value; by rewrite Z.min_id].
  pose proof (dval_mod10 D1 T1 G1 E1) as M1. pose proof (dval_mod10 D2 T2 G2 E2) as M2.
  assert (P1 : 0 < dval D1) by (pose proof (dval_bounds D1 G1); destruct (Z.eq_dec (dval D1) 0) as [X|]; [by rewrite X in M1|lia]).
  assert (P2 : 0 < dval D2) by (pose proof (dval_bounds D2 G2); destruct (Z.eq_dec (dval D2) 0) as [X|]; [by rewrite X in M2|lia]).
  unfold same_value. cbn zeta. set (e := Z.min _ _).
  pose proof (Z.pow_pos_nonneg 10 (w1 - Z.of_nat (length D1) + 1 - e)) as Q1.
  pose proof (Z.pow_pos_nonneg 10 (w2 - Z.of_nat (length D2) + 1 - e)) as Q2.
  intros E. assert (n1 = n2) as -> by (destruct n1, n2; simpl in E; try done; nia). split; [done|].
  assert (E' : dval D1 * 10 ^ (w1 - Z.of_nat (length D1) + 1 - e) = dval D2 * 10 ^ (w2 - Z.of_nat (length D2) + 1 - e))
    by (destruct n2; simpl in E; nia).
  apply scaled_unique in E' as [Ek Em]; [|done|done|lia|lia].
  assert (D1 = D2) as -> by by apply no_lead_inj. split; [lia|done].
Qed.


(** ** Exact weights *)

Lemma accumulate_wrap wrap l :
  digits l -> (forall x, 0 <= x < 10 ^ Z.of_nat (length l) -> wrap x = x) -> accumulate wrap l = dval l.
Proof.
  induction l as [|c l IH] using rev_ind; intros D W; [done|]. pose proof (dval_bounds _ D) as B.
  apply digits_snoc in D as [D Hc]. rewrite accumulate_app, IH; [|done|].
  - simpl. rewrite dval_snoc in B. rewrite W by done. by rewrite dval_snoc.
  - intros x Hx. apply W. rewrite length_app, Nat2Z.inj_add, Z.pow_add_r by lia. change (Z.of_nat (length [c])) with 1. lia.
Qed.

Lemma u64_small x : 0 <= x < 2 ^ 64 -> u64 x = x.
Proof. apply Z.mod_small. Qed.
Lemma i64_small x : - 2 ^ 63 <= x < 2 ^ 63 -> i64 x = x.
Proof. intros. unfold i64. rewrite Z.mod_small; lia. Qed.

Lemma pow10_le a b : (a <= b)%nat -> 10 ^ Z.of_nat a <= 10 ^ Z.of_nat b.
Proof. intros. apply Z.pow_le_mono_r; lia. Qed.

Lemma accumulate_u64 l : digits l -> (length l <= 19)%nat -> accumulate u64 l = dval l.
Proof. intros D L. apply accumulate_wrap; [done|]. intros x Hx. apply u64_small. pose proof (pow10_le _ _ L). lia. Qed.

Lemma accumulate_i64 l : digits l -> (length l <= 18)%nat -> accumulate i64 l = dval l.
Proof. intros D L. apply accumulate_wrap; [done|]. intros x Hx. apply i64_small. pose proof (pow10_le _ _ L). lia. Qed.

Lemma no_lead_of_lower l : digits l -> l <> [] -> 10 ^ (Z.of_nat (length l) - 1) <= dval l -> no_lead l.
Proof.
  intros D Ne L. destruct l as [|c l]; [done|]. intros E. injection E as ->. rewrite dval_cons in L.
  apply Forall_cons in D as [_ D]. pose proof (dval_bounds l D). simpl length in L.
  replace (Z.of_nat (S (length l)) - 1) with (Z.of_nat (length l)) in L by lia. lia.
Qed.

Lemma digit_of d : 0 <= d <= 9 -> isDigit (0x30 + d) = true.
Proof. unfold isDigit. lia. Qed.

Lemma decimalDigits_spec fuel v acc :
  0 < v < 10 ^ Z.of_nat fuel ->
  exists ds, decimalDigits fuel v acc = ds ++ acc /\ digits ds /\ dval ds = v /\ no_lead ds /\ ds <> [].
Proof.
  revert v acc. induction fuel as [|fuel IH]; intros v acc Hv; [simpl in Hv; dlia|]. cbn [decimalDigits].
  assert (Hd : isDigit (0x30 + v mod 10) = true) by (apply digit_of; dlia).
  destruct (Z.eqb_spec (v / 10) 0) as [E|E].
  - exists [0x30 + v mod 10]. split_and!; [done|by constructor| | |done].
    + unfold dval, accumulate, id. cbn [fold_left]. dlia.
    + intros [= X]. dlia.
  - rewrite Nat2Z.inj_succ, Z.pow_succ_r in Hv by lia. destruct (IH (v / 10) (0x30 + v mod 10 :: acc)) as (ds & -> & D & V & N & Ne); [dlia|].
    exists (ds ++ [0x30 + v mod 10]). split_and!.
    + by rewrite <- app_assoc.
    + apply Forall_app. split; [done|by constructor].
    + rewrite dval_snoc, V. dlia.
    + by destruct ds.
    + by destruct ds.
Qed.

Lemma addDigits_spec r u :
  digits r -> 0 <= u -> dval (rev r) + u < 10 ^ Z.of_nat (length r) ->
  digits (addDigits r u) /\ length (addDigits r u) = length r /\ dval (rev (addDigits r u)) = dval (rev r) + u.
Proof.
  revert u. induction r as [|c r IH]; intros u D U B; [split_and!; [done..|]; cbn in *; dlia|]. cbn [addDigits].
  apply Forall_cons in D as [Hc D]. pose proof (digit_range _ Hc). cbn [rev] in *. rewrite dval_snoc in *.
  cbn [length] in B. rewrite Nat2Z.inj_succ, Z.pow_succ_r in B by lia.
  destruct (Z.eqb_spec u 0) as [->|Hu].
  { split_and!; [by constructor|done|]. cbn [rev]. rewrite dval_snoc. dlia. }
  destruct (Z.leb_spec 10 (c - 0x30 + u mod 10)).
  - destruct (IH (u / 10 + 1) D) as (D' & L' & V'); [dlia..|]. cbn [rev length]. rewrite dval_snoc, V', L'.
    split_and!; [|done|dlia]. constructor; [apply digit_of; dlia|done].
  - destruct (IH (u / 10) D) as (D' & L' & V'); [dlia..|]. cbn [rev length]. rewrite dval_snoc, V', L'.
    split_and!; [|done|dlia]. constructor; [apply digit_of; dlia|done].
Qed.

Lemma subDigits_spec r u borrow :
  digits r -> 0 <= u -> 0 <= borrow <= 1 -> u + borrow <= dval (rev r) ->
  digits (subDigits r u borrow) /\ dval (rev (subDigits r u borrow)) = dval (rev r) - u - borrow.
Proof.
  revert u borrow. induction r as [|c r IH]; intros u b D U Hb B; [split; [done|]; cbn in *; dlia|]. cbn [subDigits].
  apply Forall_cons in D as [Hc D]. pose proof (digit_range _ Hc). cbn [rev] in *. rewrite dval_snoc in *.
  case_match eqn:E.
  { split; [by constructor|]. cbn [rev]. rewrite dval_snoc. dlia. }
  destruct (Z.leb_spec (u mod 10 + b) (c - 0x30)).
  - destruct (IH (u / 10) 0 D) as (D' & V'); [dlia..|]. cbn [rev]. rewrite dval_snoc, V'. split; [|dlia].
    constructor; [|done]. replace (0x30 + (c - 0x30) - (u mod 10 + b)) with (0x30 + (c - 0x30 - (u mod 10 + b))) by lia. apply digit_of. dlia.
  - destruct (IH (u / 10) 1 D) as (D' & V'); [dlia..|]. cbn [rev]. rewrite dval_snoc, V'. split; [|dlia].
    constructor; [|done]. replace (0x30 + (c - 0x30) + 10 - (u mod 10 + b)) with (0x30 + (c - 0x30 + 10 - (u mod 10 + b))) by lia. apply digit_of. dlia.
Qed.

Lemma digits_rev l : digits l -> digits (rev l).
Proof. apply List.Forall_rev. Qed.

Lemma decDigitsAddUint64_spec l u :
  digits l -> no_lead l -> l <> [] -> 0 <= u < 10 ^ Z.of_nat (length l) ->
  let out := decDigitsAddUint64 l u in digits out /\ no_lead out /\ out <> [] /\ dval out = dval l + u.
Proof.
  intros D N Ne U. cbn zeta. unfold decDigitsAddUint64. pose proof (dval_bounds l D) as B.
  assert (V0 : dval (0x30 :: l) = dval l) by (rewrite dval_cons; lia).
  destruct (addDigits_spec (rev (0x30 :: l)) u) as (D' & L' & V'); [by apply digits_rev; constructor|lia| |].
  { rewrite rev_involutive, V0, length_rev. cbn [length]. rewrite Nat2Z.inj_succ, Z.pow_succ_r by lia. lia. }
  rewrite rev_involutive, V0 in V'. apply digits_rev in D'. rewrite length_rev in L'.
  assert (L2 : length (rev (addDigits (rev (0x30 :: l)) u)) = S (length l)) by by rewrite length_rev.
  destruct (rev (addDigits _ _)) as [|c out]; [done|]. injection L2 as L2.
  destruct (Z.eqb_spec c 0x30) as [->|Hc].
  - rewrite dval_cons in V'. apply Forall_cons in D' as [_ D']. assert (V2 : dval out = dval l + u) by lia.
    assert (out <> []) by (intros ->; by destruct l). split_and!; [done| |done|done].
    apply no_lead_of_lower; [done..|]. pose proof (dval_lower l D N Ne). rewrite L2. lia.
  - split_and!; [done| |done|done]. by intros [= ->].
Qed.

Lemma trimZeros_spec l : digits l -> 0 < dval l -> digits (trimZeros l) /\ no_lead (trimZeros l) /\ trimZeros l <> [] /\ dval (trimZeros l) = dval l.
Proof.
  induction l as [|c l IH]; intros D P; [by cbn in P|]. cbn [trimZeros]. apply Forall_cons in D as [Hc D].
  destruct l as [|d l].
  - split_and!; [by constructor| |done|done]. intros [= ->]. by cbn in P.
  - destruct (Z.eqb_spec c 0x30) as [->|Ec]; [|split_and!; [by constructor| |done|done]; by intros [= ->]].
    rewrite (dval_cons 0x30) in P |- *. destruct (IH D) as (H1 & H2 & H3 & H4); [lia|]. split_and!; [done..|]. lia.
Qed.

Lemma decDigitsSubUint64_spec l u :
  digits l -> 0 <= u < dval l ->
  let out := decDigitsSubUint64 l u in digits out /\ no_lead out /\ out <> [] /\ dval out = dval l - u.
Proof.
  intros D U. cbn zeta. unfold decDigitsSubUint64.
  destruct (subDigits_spec (rev l) u 0) as (D' & V'); [by apply digits_rev|lia|lia|rewrite rev_involutive; lia|].
  rewrite rev_involutive in V'. apply digits_rev in D'.
  destruct (trimZeros_spec _ D') as (H1 & H2 & H3 & H4); [lia|]. split_and!; [done..|]. lia.
Qed.


(** The canonical forms [decWeightTerm] promises. *)
Definition term_ok (t : bool * bool * Z * list Z) (W : Z) : Prop :=
  let '(neg, small, mag, ds) := t in
  if small : bool then 0 <= mag < decWeightTermSmallLimit /\ signed neg mag = W /\ (mag = 0 -> neg = false)
  else digits ds /\ no_lead ds /\ ds <> [] /\ decWeightTermSmallLimit <= dval ds /\ signed neg (dval ds) = W.

Definition exp_ok (d : decNumber) : Prop :=
  digits (expDigits d) /\ no_lead (expDigits d) /\ expFits d = (length (expDigits d) <=? 18)%nat /\ - 2 ^ 32 < adj d < 2 ^ 32.

Definition full_weight (d : decNumber) : Z := signed (expNeg d) (dval (expDigits d)) + adj d.

Lemma decSignedAdd_spec neg m adj :
  0 <= m < 10 ^ 19 -> - 2 ^ 32 < adj < 2 ^ 32 ->
  let '(n, mag) := decSignedAdd neg m adj in
  0 <= mag < 10 ^ 19 + 2 ^ 32 /\ signed n mag = signed neg m + adj /\ (mag = 0 -> n = false).
Proof.
  intros Hm Ha. unfold decSignedAdd.
  assert (A : absInt64 adj = Z.abs adj).
  { unfold absInt64. destruct (Z.ltb_spec adj 0); rewrite u64_small by lia; lia. }
  rewrite A. unfold signed.
  destruct neg, (Z.ltb_spec adj 0); cbn [Bool.eqb]; try (destruct (Z.leb_spec (Z.abs adj) m));
    cbn [negb andb]; rewrite u64_small by lia;
    repeat match goal with |- context [(?x =? ?y)] => destruct (Z.eqb_spec x y); cbn [negb andb] end; split_and!; lia || done.
Qed.

Lemma decWeightTerm_ok d : exp_ok d -> term_ok (decWeightTerm d) (full_weight d).
Proof.
  intros (D & N & _ & A). unfold decWeightTerm, full_weight.
  assert (Habs : absInt64 (adj d) = Z.abs (adj d)).
  { unfold absInt64. destruct (Z.ltb_spec (adj d) 0); rewrite u64_small by lia; lia. }
  pose proof (dval_bounds _ D) as B. destruct (Nat.leb_spec (length (expDigits d)) 19) as [L|L].
  - rewrite accumulate_u64 by done. pose proof (pow10_le _ _ L).
    pose proof (decSignedAdd_spec (expNeg d) (dval (expDigits d)) (adj d)) as S.
    destruct (decSignedAdd _ _ _) as [n mag]. destruct S as (S1 & S2 & S3); [lia..|].
    destruct (Z.ltb_spec mag decWeightTermSmallLimit) as [Hs|Hs]; [cbn [term_ok]; split_and!; [lia|lia|done|done]|]. unfold decWeightTermSmallLimit in *.
    destruct (decimalDigits_spec 20 mag []) as (ds & E & D' & V & N' & Ne); [lia|].
    unfold appendDecimalUint64. rewrite E, app_nil_r. cbn [app term_ok]. unfold decWeightTermSmallLimit.
    split_and!; [done..|lia|by rewrite V].
  - assert (Ne : expDigits d <> []) by (intros E; rewrite E in L; simpl in L; lia).
    pose proof (dval_lower _ D N Ne) as Lo. pose proof (pow10_le 20 (length (expDigits d))) as Lp.
    assert (10 ^ 19 <= dval (expDigits d)) by (etransitivity; [|apply Lo]; apply Z.pow_le_mono_r; lia).
    rewrite Habs. set (digits := if Bool.eqb _ _ then _ else _).
    assert (O : Grammar.digits digits /\ no_lead digits /\ digits <> [] /\ signed (expNeg d) (dval digits) = signed (expNeg d) (dval (expDigits d)) + adj d).
    { unfold digits. destruct (Bool.eqb (expNeg d) (adj d <? 0)) eqn:E.
      - destruct (decDigitsAddUint64_spec (expDigits d) (Z.abs (adj d))) as (H1 & H2 & H3 & H4); [done..|lia|].
        split_and!; [done..|]. rewrite H4. unfold signed. apply Bool.eqb_prop in E. destruct (expNeg d); lia.
      - destruct (decDigitsSubUint64_spec (expDigits d) (Z.abs (adj d))) as (H1 & H2 & H3 & H4); [done|lia|].
        split_and!; [done..|]. rewrite H4. unfold signed. apply Bool.eqb_false_iff in E. destruct (expNeg d); lia. }
    clearbody digits. destruct O as (O1 & O2 & O3 & O4). pose proof (dval_lower _ O1 O2 O3). pose proof (dval_bounds _ O1).
    destruct (Nat.leb_spec (length digits) 19) as [Ld|Ld]; cbn [andb].
    + rewrite accumulate_u64 by done. pose proof (pow10_le _ _ Ld).
      replace (_ <? _) with true by (unfold decWeightTermSmallLimit; lia). cbn [term_ok]. unfold decWeightTermSmallLimit.
      assert (0 < dval digits) by (pose proof (Z.pow_pos_nonneg 10 (Z.of_nat (length digits) - 1)); destruct digits; [done|cbn [length] in *; lia]).
      split_and!; [lia..|done|lia].
    + cbn [term_ok]. split_and!; [done..| |done]. unfold decWeightTermSmallLimit.
      etransitivity; [|eassumption]. apply Z.pow_le_mono_r; lia.
Qed.

Lemma signed_pos_inj n1 n2 m1 m2 : 0 < m1 -> 0 < m2 -> signed n1 m1 = signed n2 m2 -> n1 = n2 /\ m1 = m2.
Proof. unfold signed. destruct n1, n2; intros; split; lia || done. Qed.

Lemma decWeightEqual_spec a b :
  exp_ok a -> exp_ok b -> (expFits a = true -> weight a = full_weight a) -> (expFits b = true -> weight b = full_weight b) ->
  decWeightEqual a b = true <-> full_weight a = full_weight b.
Proof.
  intros Ha Hb Wa Wb. unfold decWeightEqual. destruct (expFits a && expFits b) eqn:E.
  { apply andb_true_iff in E as [Ea Eb]. rewrite Wa, Wb by done. apply Z.eqb_eq. }
  pose proof (decWeightTerm_ok a Ha) as Ta. pose proof (decWeightTerm_ok b Hb) as Tb.
  destruct (decWeightTerm a) as [[[an aS] am] ad], (decWeightTerm b) as [[[bn bS] bm] bd].
  unfold term_ok, decWeightTermSmallLimit in *. destruct aS, bS; cbn [Bool.eqb negb].
  - destruct Ta as (A1 & <- & A3), Tb as (B1 & <- & B3). rewrite andb_true_iff, Bool.eqb_true_iff, Z.eqb_eq.
    split; [by intros [-> ->]|]. intros X. destruct (Z.eq_dec am 0) as [->|], (Z.eq_dec bm 0) as [->|].
    + by rewrite A3, B3.
    + unfold signed in X. destruct an, bn; lia.
    + unfold signed in X. destruct an, bn; lia.
    + apply signed_pos_inj; [lia..|done].
  - destruct Ta as (A1 & <- & A3), Tb as (_ & _ & _ & B1 & <-). split; [done|].
    unfold signed. destruct an, bn; lia.
  - destruct Tb as (A1 & <- & A3), Ta as (_ & _ & _ & B1 & <-). split; [done|].
    unfold signed. destruct an, bn; lia.
  - destruct Ta as (A1 & A2 & A3 & A4 & <-), Tb as (B1 & B2 & B3 & B4 & <-).
    rewrite andb_true_iff, Bool.eqb_true_iff, bool_decide_eq_true. split; [by intros [-> ->]|].
    intros X. apply signed_pos_inj in X as [-> X]; [|lia..]. split; [done|]. by apply no_lead_inj.
Qed.

(** ** The lockstep over significant digits *)

(** [view src d i L]: the digits the lockstep reads from [i] on are [L]. *)
Fixpoint view (src : list Z) (d : decNumber) (i : Z) (L : list Z) : Prop :=
  let i := if i =? dot d then i + 1 else i in
  match L with
  | [] => sigLast d < i
  | c :: L => i <= sigLast d /\ at_ src i = c /\ view src d (i + 1) L
  end.

Lemma lockstep_spec fuel a b da db i j La Lb :
  view a da i La -> view b db j Lb -> (length La < fuel)%nat ->
  exists r, lockstep fuel a b da db i j = Ok r /\ (r = true <-> La = Lb).
Proof.
  revert i j La Lb. induction fuel as [|fuel IH]; intros i j La Lb Va Vb F; [lia|]. cbn [lockstep].
  destruct La as [|c La], Lb as [|e Lb]; cbn [view] in Va, Vb; cbv zeta in *.
  - replace (_ <=? _) with false by lia. replace (_ <=? _) with false by lia. by exists true.
  - replace (_ <=? _) with false by lia. destruct Vb as (V1 & _). replace (_ <=? _) with true by lia. by exists false.
  - destruct Va as (V1 & _). replace (_ <=? _) with true by lia. replace (_ <=? _) with false by lia. by exists false.
  - destruct Va as (V1 & <- & Va), Vb as (V2 & <- & Vb). replace (_ <=? _) with true by lia. replace (_ <=? _) with true by lia.
    cbn [negb orb]. destruct (Z.eqb_spec (at_ a (if i =? dot da then i + 1 else i)) (at_ b (if j =? dot db then j + 1 else j))) as [E|E]; cbn [negb].
    + destruct (IH _ _ _ _ Va Vb) as (r & -> & R); [simpl in F; lia|]. exists r. split; [done|]. rewrite R, E. naive_solver.
    + exists false. split; [done|]. naive_solver.
Qed.

Lemma view_end src d i : sigLast d < i -> view src d i [].
Proof. intros. cbn [view]. cbv zeta. case_match; lia. Qed.

Lemma view_dot src d i L : i = dot d -> view src d (i + 1) L -> view src d i L.
Proof.
  intros -> V. assert (E : forall j, (if (j =? j) : bool then j + 1 else j) = j + 1) by (intros; by rewrite Z.eqb_refl).
  destruct L as [|c L]; cbn [view] in V |- *; cbv zeta in *; rewrite E; by replace (dot d + 1 =? dot d) with false in V by lia.
Qed.

Lemma view_run src d i X t L :
  At src i (X ++ t) -> (dot d < Z.of_nat i \/ Z.of_nat (i + length X) <= dot d) -> Z.of_nat (i + length X) - 1 <= sigLast d ->
  view src d (Z.of_nat (i + length X)) L -> view src d (Z.of_nat i) (X ++ L).
Proof.
  revert i. induction X as [|c X IH]; intros i H Hd Hl V; [by rewrite Nat.add_0_r in V|].
  cbn [app length] in *. cbn [view]. cbv zeta. replace (Z.of_nat i =? dot d) with false by lia. split_and!.
  - lia.
  - unfold at_. rewrite Nat2Z.id. by rewrite (At_lookup _ _ _ _ H).
  - replace (Z.of_nat i + 1) with (Z.of_nat (S i)) by lia. apply IH; [by eapply At_cons|lia|lia|].
    by replace (S i + length X)%nat with (i + S (length X))%nat by lia.
Qed.

(** ** Decomposing a spelling *)

Definition zeros (k : nat) : list Z := replicate k 0x30.

Lemma lead_split X : X = zeros (length X) \/ exists k c Y, X = zeros k ++ c :: Y /\ c <> 0x30.
Proof.
  induction X as [|c X IH]; [by left|]. destruct (Z.eq_dec c 0x30) as [->|N].
  - destruct IH as [E|(k & e & Y & -> & N)]; [left; cbn; by f_equal|right]. by exists (S k), e, Y.
  - right. by exists 0%nat, c, X.
Qed.

Lemma trail_split X : X = zeros (length X) \/ exists Y c k, X = Y ++ c :: zeros k /\ c <> 0x30.
Proof.
  induction X as [|c X IH]; [by left|]. destruct IH as [E|(Y & e & k & -> & N)].
  - destruct (Z.eq_dec c 0x30) as [->|N]; [left; cbn; by f_equal|right]. exists [], c, (length X). split; [by rewrite <- E|done].
  - right. by exists (c :: Y), e, k.
Qed.

Lemma At_zeros src i k t : At src i (zeros k ++ t) -> At src (i + k) t.
Proof. intros H. apply At_app in H. unfold zeros in H. by rewrite length_replicate in H. Qed.

Lemma firstNonzero_zeros src n j t : At src j (zeros n ++ t) -> firstNonzero src n j = -1.
Proof.
  revert j. induction n as [|n IH]; intros j H; [done|]. cbn [firstNonzero]. rewrite (byteAt_At _ _ _ _ H). cbn.
  apply IH. by apply (At_cons _ _ 0x30).
Qed.

Lemma firstNonzero_found src n j k c t :
  At src j (zeros k ++ c :: t) -> c <> 0x30 -> (k < n)%nat -> firstNonzero src n j = Z.of_nat (j + k).
Proof.
  revert j k. induction n as [|n IH]; intros j k H N L; [lia|]. cbn [firstNonzero]. rewrite (byteAt_At _ _ _ _ H).
  destruct k as [|k]; cbn.
  - replace (c =? 0x30) with false by lia. by rewrite Nat.add_0_r.
  - rewrite (IH _ k); [f_equal; lia|by apply (At_cons _ _ 0x30)|done|lia].
Qed.

Lemma lastNonzero_tail src j X n k t :
  At src j (X ++ zeros k ++ t) -> n = (length X + k)%nat -> lastNonzero src n j = lastNonzero src (length X) j.
Proof.
  revert n t. induction k as [|k IH]; intros n t H ->; [by rewrite Nat.add_0_r|].
  rewrite Nat.add_succ_r. cbn [lastNonzero].
  assert (E : zeros (S k) ++ t = zeros k ++ 0x30 :: t) by (unfold zeros; rewrite replicate_S_end, <- app_assoc; done).
  rewrite E in H. pose proof (At_app _ _ _ _ H) as H2. apply At_zeros in H2.
  replace (j + (length X + k))%nat with (j + length X + k)%nat by lia. rewrite (byteAt_At _ _ _ _ H2). cbn [negb Z.eqb Pos.eqb].
  by apply (IH _ (0x30 :: t)).
Qed.

Lemma lastNonzero_zeros src j n t : At src j (zeros n ++ t) -> lastNonzero src n j = -1.
Proof. intros H. by rewrite (lastNonzero_tail src j [] n n t). Qed.

Lemma lastNonzero_found src j Y c k n t :
  At src j ((Y ++ c :: zeros k) ++ t) -> c <> 0x30 -> n = length (Y ++ c :: zeros k) -> lastNonzero src n j = Z.of_nat (j + length Y).
Proof.
  intros H N ->. assert (E : (Y ++ c :: zeros k) ++ t = (Y ++ [c]) ++ zeros k ++ t) by by rewrite <- !app_assoc.
  rewrite E in H. rewrite (lastNonzero_tail src j (Y ++ [c]) _ k t).
  - rewrite length_app, Nat.add_comm. cbn [length Nat.add lastNonzero]. rewrite <- app_assoc in H. apply At_app in H.
    rewrite (byteAt_At _ _ _ _ H). cbn. by replace (c =? 0x30) with false by lia.
  - done.
  - rewrite !length_app. cbn [length]. unfold zeros. rewrite length_replicate. lia.
Qed.

Lemma skipZeros_At src n i k s :
  At src i (zeros k ++ s) -> no_lead s -> (k < n \/ s = [] /\ k <= n)%nat -> skipZeros src n i = (i + k)%nat.
Proof.
  revert i k. induction n as [|n IH]; intros i k H N L; [destruct L as [|[-> L]]; cbn; lia|].
  cbn [skipZeros]. rewrite (byteAt_At _ _ _ _ H). destruct k as [|k]; cbn.
  - destruct s as [|c s]; [lia|]. destruct (Z.eqb_spec c 0x30) as [->|]; [by destruct N|lia].
  - rewrite (IH _ k); [lia|by apply (At_cons _ _ 0x30)|done|]. lia || (destruct L as [|[-> L]]; [left|right; split]; lia || done).
Qed.

Lemma dval_zeros_app k l : dval (zeros k ++ l) = dval l.
Proof. induction k as [|k IH]; [done|]. cbn [zeros replicate app]. rewrite dval_cons. unfold zeros in IH. lia. Qed.

Lemma dval_zeros k : dval (zeros k) = 0.
Proof. rewrite <- (app_nil_r (zeros k)), dval_zeros_app. done. Qed.

Lemma digits_app l1 l2 : digits (l1 ++ l2) <-> digits l1 /\ digits l2.
Proof. apply Forall_app. Qed.

(** The exponent part after its optional sign. *)
Lemma parseExp_digits src i ds (neg : bool) :
  At src i ds -> digits ds ->
  exists es, digits es /\ no_lead es /\ dval es = dval ds /\
    drop (skipZeros src (length src) i) src = es /\
    ((length es <= 18)%nat -> (if neg then i64 (- accumulate i64 es) else accumulate i64 es) = signed neg (dval es)).
Proof.
  intros H D. pose proof (At_length _ _ _ H) as L.
  assert (exists k es, ds = zeros k ++ es /\ no_lead es) as (k & es & -> & N).
  { destruct (lead_split ds) as [E|(k & c & Y & E & N)].
    - exists (length ds), []. split; [by rewrite app_nil_r|done].
    - exists k, (c :: Y). split; [done|]. by intros [= ->]. }
  apply digits_app in D as [_ D]. exists es. split_and!; [done..| | |].
  - by rewrite dval_zeros_app.
  - rewrite (skipZeros_At src _ i k es); [by apply At_zeros in H as [-> _]|done..|].
    rewrite length_app in L. unfold zeros in L. rewrite length_replicate in L. destruct es; [right; split; [done|]|left; cbn in L]; lia.
  - intros Le. rewrite accumulate_i64 by done. unfold signed. destruct neg; [|done].
    pose proof (dval_bounds _ D). pose proof (pow10_le _ _ Le). apply i64_small. lia.
Qed.

Lemma expSign_At src i sgn ds :
  At src i (match sgn with Some c => [c] | None => [] end ++ ds) -> digits ds ->
  (forall c, sgn = Some c -> c = 0x2b \/ c = 0x2d) ->
  exists i', expSign src i = (bool_decide (sgn = Some 0x2d), i') /\ At src i' ds.
Proof.
  intros H D Hs. unfold expSign. rewrite !(byteAt_At _ _ _ _ H). destruct sgn as [c|]; cbn [app] in *.
  - exists (S i). split; [|by eapply At_cons]. destruct (Hs c eq_refl) as [-> | ->]; done.
  - exists i. split; [|done]. destruct ds as [|c ds]; [done|]. apply Forall_cons in D as [Hc _]. apply digit_range in Hc.
    replace (c =? 0x2b) with false by lia. by replace (c =? 0x2d) with false by lia.
Qed.

Lemma parseExp_spec p src i :
  np_ok p -> At src i (np_exp_bytes p) ->
  exists neg es exp, parseExp src i = (neg, es, (length es <=? 18)%nat, exp) /\
    digits es /\ no_lead es /\ signed neg (dval es) = exp_value p /\ ((length es <= 18)%nat -> exp = exp_value p).
Proof.
  intros (_ & _ & Ok) H. unfold parseExp, np_exp_bytes, exp_value in *. pose proof (At_length _ _ _ H) as L.
  destruct (np_exp p) as [[[e sgn] ds]|].
  2: { simpl in L. replace (i <? length src)%nat with false by (symmetry; apply Nat.ltb_ge; lia).
       exists false, [], 0. split_and!; try done. by constructor. }
  destruct Ok as (_ & Hs & Ne & D). simpl in L. replace (i <? length src)%nat with true by (symmetry; apply Nat.ltb_lt; lia).
  apply At_cons in H. set (neg := bool_decide (sgn = Some 0x2d)).
  destruct (expSign_At src (S i) sgn ds H D Hs) as (i' & -> & H'). fold neg. clearbody neg.
  destruct (parseExp_digits src i' ds neg H' D) as (es & D' & N' & V' & -> & Ev). exists neg, es.
  assert (Sv : signed neg (dval es) = if neg then - dval ds else dval ds) by by rewrite V'.
  destruct (Nat.leb_spec (length es) 18) as [Le|Le].
  - eexists. split; [done|]. split_and!; [done..|]. intros _. rewrite Ev by done. done.
  - eexists. split; [done|]. split_and!; [done..|]. lia.
Qed.

Section Decompose.
Variable p : numparts.
Hypothesis Hp : np_ok p.

Notation src := (np_print p).
Notation sgn := (length (np_sign_bytes p)).
Notation I := (length (np_int p)).
Notation F := (length (np_frac p)).

Lemma int_digits : digits (np_int p).
Proof. destruct Hp as ([-> | (d & ds & -> & H & D)] & _); [by repeat constructor|]. constructor; [|done]. unfold isOneNine, isDigit in *. lia. Qed.

Lemma frac_digits : digits (np_frac p).
Proof. apply Hp. Qed.

Lemma exp_stops : stops isDigit (np_exp_bytes p).
Proof. destruct Hp as (_ & _ & H). unfold np_exp_bytes. destruct (np_exp p) as [[[e s] ds]|]; [|done]. by destruct H as ([-> | ->] & _). Qed.

Lemma int_At : At src sgn (np_int p ++ np_frac_bytes p ++ np_exp_bytes p).
Proof. apply (At_app _ 0 (np_sign_bytes p)). apply At_0. Qed.

Lemma frac_At : np_frac p <> [] -> At src (S (sgn + I)) (np_frac p ++ np_exp_bytes p).
Proof.
  intros N. pose proof (At_app _ _ _ _ int_At) as H. unfold np_frac_bytes in H. destruct (np_frac p); [done|].
  by apply At_cons in H.
Qed.

Definition layout_of (l : numLayout) : Prop :=
  l_neg l = np_neg p /\ intStart l = sgn /\ intEnd l = (sgn + I)%nat /\ At src (expStart l) (np_exp_bytes p) /\
  (np_frac p = [] /\ l_dot l = -1 /\ fracStart l = 0%nat /\ fracEnd l = 0%nat \/
   np_frac p <> [] /\ l_dot l = Z.of_nat (sgn + I) /\ fracStart l = S (sgn + I) /\ fracEnd l = (S (sgn + I) + F)%nat).

Lemma scanDigits_run i X t :
  At src i (X ++ t) -> digits X -> stops isDigit t -> scanDigits src (length src) i = (i + length X)%nat.
Proof.
  intros H D S. pose proof (scanDigits_span _ _ _ H) as E. rewrite (span_complete _ X t) in E by done.
  eapply At_inj; [apply E|by apply At_app].
Qed.

Lemma numberLayout_spec : layout_of (numberLayout src).
Proof.
  unfold numberLayout, layout_of. pose proof int_digits as Di. pose proof frac_digits as Df. pose proof exp_stops as Se.
  assert (En : byteAt src 0 (fun c => c =? 0x2d) = np_neg p).
  { rewrite (byteAt_At src 0 src _ (At_0 _)). unfold np_print, np_sign_bytes. destruct (np_neg p); [done|]. cbn [app].
    destruct Hp as ([-> | (d & ds & -> & H & D)] & _); [done|]. cbn [app]. unfold isOneNine in H. lia. }
  rewrite En. set (i0 := if np_neg p then 1%nat else 0%nat). cbv zeta.
  replace i0 with sgn by (unfold i0, np_sign_bytes; by destruct (np_neg p)). pose proof int_At as Hi.
  assert (St : stops isDigit (np_frac_bytes p ++ np_exp_bytes p)) by (unfold np_frac_bytes; destruct (np_frac p); done).
  rewrite (scanDigits_run _ _ _ Hi Di St). pose proof (At_app _ _ _ _ Hi) as Hf.
  rewrite (byteAt_At _ _ _ _ Hf). pose proof frac_At as Hfr. unfold np_frac_bytes in *.
  destruct (np_frac p) as [|c f] eqn:Ef; cbn [app] in *.
  - replace (match np_exp_bytes p with c :: _ => c =? 0x2e | [] => false end) with false.
    + cbn. split_and!; [done..|]. by left.
    + destruct Hp as (_ & _ & H). unfold np_exp_bytes. destruct (np_exp p) as [[[e s] ds]|]; [|done]. by destruct H as ([-> | ->] & _).
  - cbn [Z.eqb Pos.eqb]. rewrite (scanDigits_run _ (c :: f) _ (Hfr ltac:(done)) Df Se). cbn [l_neg intStart intEnd expStart l_dot fracStart fracEnd].
    split_and!; [done..| |].
    + apply At_app, Hfr. done.
    + by right.
Qed.

Definition significant (l : numLayout) (sf ad : Z) : Prop :=
  sf < 0 /\ dval (np_int p ++ np_frac p) = 0 \/
  0 <= sf /\ exists z D k, np_int p ++ np_frac p = zeros z ++ D ++ zeros k /\ no_lead D /\ no_trail D /\ D <> [] /\
    ad = Z.of_nat I - 1 - Z.of_nat z /\
    forall d, dot d = l_dot l -> sigLast d = lastSig src l -> view src d sf D.

(** A fraction without a nonzero digit; the last one is in the integer. *)
Lemma lastSig_int l Y c k f :
  layout_of l -> np_int p = Y ++ c :: zeros k -> c <> 0x30 -> np_frac p = zeros f -> lastSig src l = Z.of_nat (sgn + length Y).
Proof.
  intros (_ & _ & He & _ & Hl) Ei N Ef. unfold lastSig.
  assert (E : lastNonzero src (fracEnd l - fracStart l) (fracStart l) = -1).
  { destruct Hl as [(_ & _ & -> & ->)|(Nf & _ & -> & ->)]; [done|]. pose proof (frac_At Nf) as H. rewrite Ef in H.
    replace (S (sgn + I) + F - S (sgn + I))%nat with f by (rewrite Ef; unfold zeros; rewrite length_replicate; lia).
    by apply lastNonzero_zeros in H. }
  rewrite E. cbn [Z.ltb Z.compare]. rewrite He. cbv zeta.
  rewrite (lastNonzero_found src 0 (np_sign_bytes p ++ Y) c k _ (np_frac_bytes p ++ np_exp_bytes p)).
  - by rewrite length_app.
  - replace ((_ ++ _) ++ _) with src; [apply At_0|]. unfold np_print. rewrite Ei. by rewrite <- !app_assoc.
  - done.
  - rewrite <- app_assoc, <- Ei, length_app. done.
Qed.

Lemma lastSig_frac l Y c k :
  layout_of l -> np_frac p = Y ++ c :: zeros k -> c <> 0x30 -> lastSig src l = Z.of_nat (S (sgn + I) + length Y).
Proof.
  intros (_ & _ & _ & _ & Hl) Ef N. unfold lastSig. destruct Hl as [(E & _)|(Nf & _ & -> & ->)]; [by rewrite Ef in E; destruct Y|].
  pose proof (frac_At Nf) as H. rewrite Ef in H at 1.
  rewrite (lastNonzero_found src _ Y c k _ _ H N) by (rewrite <- Ef; lia). cbv zeta.
  case_match eqn:E; [|done]. apply Z.ltb_lt in E. lia.
Qed.

(** A leading nonzero integer digit. *)
Lemma significant_int l : layout_of l -> head (np_int p) <> Some 0x30 -> significant l (Z.of_nat sgn) (Z.of_nat I - 1).
Proof.
  intros Hl Nz. right. split; [lia|]. pose proof int_At as Hi.
  assert (Ni : np_int p <> []) by (destruct Hp as ([-> | (? & ? & -> & _)] & _); done).
  destruct (trail_split (np_frac p)) as [Ef|(Y & c & k & Ef & N)].
  - destruct (trail_split (np_int p)) as [Ei|(Y & c & k & Ei & N)]; [rewrite Ei in Nz; by destruct (np_int p)|].
    exists 0%nat, (Y ++ [c]), (k + F)%nat. cbn [zeros replicate app]. split_and!.
    + rewrite Ei at 1. rewrite Ef at 1. unfold zeros. by rewrite replicate_add, <- !app_assoc.
    + rewrite Ei in Nz. by destruct Y.
    + unfold no_trail. rewrite last_snoc. congruence.
    + by destruct Y.
    + lia.
    + intros d Dd Dl. rewrite (lastSig_int l Y c k F Hl Ei N Ef) in Dl. rewrite <- (app_nil_r (Y ++ [c])).
      rewrite Ei in Hi. destruct Hl as (_ & _ & _ & _ & Hl).
      assert (Li : I = (length Y + S k)%nat) by (rewrite Ei, length_app; cbn [length]; unfold zeros; rewrite length_replicate; lia).
      apply (view_run _ _ _ _ (zeros k ++ np_frac_bytes p ++ np_exp_bytes p)).
      * rewrite <- !app_assoc in Hi. by rewrite <- app_assoc.
      * rewrite length_app. cbn [length]. destruct Hl as [(_ & X & _)|(_ & X & _)]; rewrite X in Dd; lia.
      * rewrite length_app. cbn [length]. lia.
      * apply view_end. rewrite length_app. cbn [length]. lia.
  - exists 0%nat, (np_int p ++ Y ++ [c]), k. cbn [zeros replicate app]. split_and!.
    + rewrite Ef at 1. by rewrite <- !app_assoc.
    + by destruct (np_int p).
    + unfold no_trail. rewrite app_assoc, last_snoc. congruence.
    + by destruct (np_int p).
    + lia.
    + intros d Dd Dl. rewrite (lastSig_frac l Y c k Hl Ef N) in Dl. destruct Hl as (_ & _ & _ & _ & [(X & _)|(Nf & X & _)]); [by rewrite Ef in X; destruct Y|].
      rewrite X in Dd. eapply view_run; [done|lia|lia|]. apply view_dot; [done|]. pose proof (frac_At Nf) as Hf.
      rewrite Ef in Hf at 1. rewrite <- (app_nil_r (Y ++ [c])). replace (Z.of_nat (sgn + I) + 1) with (Z.of_nat (S (sgn + I))) by lia.
      apply (view_run _ _ _ _ (zeros k ++ np_exp_bytes p)).
      * rewrite <- !app_assoc in Hf. by rewrite <- app_assoc.
      * lia.
      * rewrite length_app. cbn [length]. lia.
      * apply view_end. rewrite length_app. cbn [length]. lia.
Qed.

(** A zero integer part: the significant digits are in the fraction. *)
Lemma significant_frac l z c Y :
  layout_of l -> np_int p = [0x30] -> np_frac p = zeros z ++ c :: Y -> c <> 0x30 ->
  significant l (Z.of_nat (S (sgn + I) + z)) (- Z.of_nat z - 1).
Proof.
  intros Hl Ei Ef N. right. split; [lia|].
  destruct (trail_split (c :: Y)) as [X|(Y' & e & k & X & N')].
  { cbn in X. injection X as X _. lia. }
  assert (Ef2 : np_frac p = (zeros z ++ Y') ++ e :: zeros k) by by rewrite Ef, X, <- app_assoc.
  exists (S z), (Y' ++ [e]), k. split_and!.
  - rewrite Ei, Ef2. cbn. by rewrite <- !app_assoc.
  - destruct Y'; injection X as -> _; unfold no_lead; cbn; congruence.
  - unfold no_trail. rewrite last_snoc. congruence.
  - by destruct Y'.
  - rewrite Ei. cbn [length]. lia.
  - intros d Dd Dl. rewrite (lastSig_frac l _ e k Hl Ef2 N'), length_app in Dl. unfold zeros in Dl. rewrite length_replicate in Dl.
    destruct Hl as (_ & _ & _ & _ & [(X' & _)|(Nf & X' & _)]); [by rewrite Ef in X'; destruct z|]. rewrite X' in Dd.
    pose proof (frac_At Nf) as Hf. rewrite Ef2 in Hf at 1. rewrite <- !app_assoc in Hf. apply At_zeros in Hf.
    rewrite <- (app_nil_r (Y' ++ [e])). apply (view_run _ _ _ _ (zeros k ++ np_exp_bytes p)).
    + by rewrite <- app_assoc.
    + lia.
    + rewrite length_app. cbn [length]. lia.
    + apply view_end. rewrite length_app. cbn [length]. lia.
Qed.

Lemma firstSig_spec l : layout_of l -> let '(sf, ad) := firstSig src l in significant l sf ad.
Proof.
  intros Hl. unfold firstSig. pose proof Hl as (_ & -> & -> & _ & Hf). rewrite (byteAt_At _ _ _ _ int_At).
  destruct Hp as ([Ei|(d & ds & Ei & Hd & D)] & _).
  - rewrite Ei. cbn [app negb Z.eqb Pos.eqb]. cbv zeta. destruct (lead_split (np_frac p)) as [Ef|(k & c & Y & Ef & N)].
    + assert (E : firstNonzero src (fracEnd l - fracStart l) (fracStart l) = -1).
      { destruct Hf as [(_ & _ & -> & ->)|(Nf & _ & -> & ->)]; [done|]. pose proof (frac_At Nf) as H. rewrite Ef in H at 1.
        replace (S (sgn + I) + F - S (sgn + I))%nat with F by lia. by apply firstNonzero_zeros in H. }
      rewrite E. left. split; [done|]. rewrite Ei, Ef. apply (dval_zeros (S F)).
    + destruct Hf as [(X & _)|(Nf & _ & -> & ->)]; [by rewrite Ef in X; destruct k|]. pose proof (frac_At Nf) as H. rewrite Ef, <- app_assoc in H at 1.
      rewrite (firstNonzero_found src _ _ k c (Y ++ np_exp_bytes p)); [|done|done|].
      * case_match eqn:E; [apply Z.ltb_lt in E; lia|]. replace (- _ - 1) with (- Z.of_nat k - 1) by lia.
        by apply (significant_frac l k c Y).
      * rewrite Ef, length_app. cbn [length]. unfold zeros. rewrite length_replicate. lia.
  - unfold isOneNine in Hd. rewrite Ei. cbn [app]. replace (d =? 0x30) with false by lia. cbn [negb]. rewrite <- Ei.
    replace (sgn + I - sgn)%nat with I by lia. apply significant_int; [done|]. rewrite Ei. cbn. intros [= ->]. lia.
Qed.

Hypothesis Hlen : Z.of_nat (length src) < 2 ^ 32.

(** The decomposition of a nonzero value: its significant digits [D], the
    zeros stripped at the end, and its exact weight. *)
Definition decomposed (d : decNumber) (D : list Z) : Prop :=
  exp_ok d /\ (expFits d = true -> weight d = full_weight d) /\ digits D /\ no_lead D /\ no_trail D /\ D <> [] /\
  (length D <= length src)%nat /\ view src d (sigFirst d) D /\
  exists k, 0 <= k /\ np_mantissa p = signed (np_neg p) (dval D) * 10 ^ k /\
    np_exponent p + k = full_weight d - Z.of_nat (length D) + 1.

Lemma signed_mul n m x : signed n (m * x) = signed n m * x.
Proof. unfold signed. destruct n; ring. Qed.

Lemma dval_app_zeros l k : dval (l ++ zeros k) = dval l * 10 ^ Z.of_nat k.
Proof. rewrite dval_app, dval_zeros. unfold zeros. rewrite length_replicate. ring. Qed.

Lemma parseDecNumber_spec :
  let d := parseDecNumber src in
  d_neg d = np_neg p /\
  (d_zero d = true /\ np_mantissa p = 0 \/ d_zero d = false /\ exists D, decomposed d D).
Proof.
  cbn zeta. unfold parseDecNumber. pose proof numberLayout_spec as Hl. set (l := numberLayout src) in *. clearbody l.
  pose proof (firstSig_spec l Hl) as Hs. destruct (parseExp_spec p src (expStart l) Hp) as (neg & es & exp & -> & De & Ne & Ve & Fe); [apply Hl|].
  destruct (firstSig src l) as [sf ad].
  assert (Lp : (I + F <= length src)%nat).
  { unfold np_print, np_frac_bytes. rewrite !length_app. destruct (np_frac p); cbn [length]; lia. }
  destruct Hs as [(Hz & V)|(Hz & z & D & k & Ep & Nl & Nt & Dn & Ea & Vw)].
  - replace (sf <? 0) with true by lia. cbn [d_neg d_zero]. split; [apply Hl|]. left. split; [done|]. unfold np_mantissa. rewrite V. by case_match.
  - replace (sf <? 0) with false by lia. cbn [d_neg d_zero]. split; [apply Hl|]. right. split; [done|]. exists D.
    assert (HD : digits (zeros z ++ D ++ zeros k)) by (rewrite <- Ep; apply digits_app; split; [apply int_digits|apply frac_digits]).
    apply digits_app in HD as [_ HD]. apply digits_app in HD as [HD _].
    assert (Lz : (z + length D + k = I + F)%nat).
    { rewrite <- length_app, Ep, !length_app. unfold zeros. rewrite !length_replicate. lia. }
    assert (LD : (0 < length D)%nat) by (destruct D; [done|cbn; lia]).
    assert (LI : (0 < I)%nat) by (destruct Hp as ([-> | (? & ? & -> & _)] & _); cbn; lia).
    assert (Aa : - 2 ^ 32 < ad < 2 ^ 32) by lia.
    set (d := mkDec _ _ _ _ _ _ _ _ _ _). unfold decomposed. split_and!; [..|].
    + unfold exp_ok. cbn. done.
    + cbn [d expFits weight]. intros Hf. rewrite Hf. apply Nat.leb_le in Hf. unfold full_weight. cbn [d expNeg expDigits adj].
      rewrite Fe, <- Ve by done. pose proof (dval_bounds es De). pose proof (pow10_le _ _ Hf). unfold signed. apply i64_small. case_match; lia.
    + done.
    + done.
    + done.
    + done.
    + lia.
    + by apply Vw.
    + exists (Z.of_nat k). split_and!; [lia| |].
      * rewrite <- signed_mul, <- dval_app_zeros. unfold np_mantissa. rewrite Ep, dval_zeros_app. done.
      * unfold np_exponent, full_weight. cbn [d expNeg expDigits adj]. rewrite Ve. lia.
Qed.
End Decompose.

Lemma same_value_zero_l e1 m2 e2 : same_value 0 e1 m2 e2 <-> m2 = 0.
Proof. unfold same_value. cbn zeta. pose proof (Z.pow_pos_nonneg 10 (e2 - Z.min e1 e2)). nia. Qed.

Lemma same_value_zero_r m1 e1 e2 : same_value m1 e1 0 e2 <-> m1 = 0.
Proof. unfold same_value. cbn zeta. pose proof (Z.pow_pos_nonneg 10 (e1 - Z.min e1 e2)). nia. Qed.

Lemma decomposed_mantissa p d D : decomposed p d D -> np_mantissa p <> 0.
Proof.
  intros (_ & _ & G & L & _ & E & _ & _ & k & K & -> & _). pose proof (dval_lower D G L E) as Lo.
  assert (0 < 10 ^ (Z.of_nat (length D) - 1)) by (apply Z.pow_pos_nonneg; [lia|]; destruct D; [done|cbn [length]; lia]).
  pose proof (Z.pow_pos_nonneg 10 k). unfold signed. case_match; nia.
Qed.

Lemma np_print_inj p q : np_ok p -> np_ok q -> np_print p = np_print q -> p = q.
Proof.
  intros Hp Hq E. pose proof (ref_number_complete p [] Hp I) as H1. pose proof (ref_number_complete q [] Hq I) as H2.
  rewrite E in H1. congruence.
Qed.

(** C22: on the spellings of two well-formed JSON numbers (shorter than 2^32
    bytes, as the parsers guarantee) [jsonNumberEqual] always returns, and it
    returns true exactly when the two spellings denote the same number: the
    integers [mantissa * 10^exponent] of the specification agree, whatever the
    magnitude of the exponents. *)
Theorem jsonNumberEqual_spec p q :
  np_ok p -> np_ok q -> Z.of_nat (length (np_print p)) < 2 ^ 32 -> Z.of_nat (length (np_print q)) < 2 ^ 32 ->
  exists r, jsonNumberEqual (np_print p) (np_print q) = Ok r /\ (r = true <-> np_equal p q).
Proof.
  intros Hp Hq Lp Lq. unfold jsonNumberEqual. case_bool_decide as E.
  { exists true. apply np_print_inj in E as ->; [|done..]. split; [done|]. split; [|done]. unfold np_equal, same_value. done. }
  destruct (parseDecNumber_spec p Hp Lp) as [Np Zp]. destruct (parseDecNumber_spec q Hq Lq) as [Nq Zq].
  set (da := parseDecNumber (np_print p)) in *. set (db := parseDecNumber (np_print q)) in *. clearbody da db. cbv zeta.
  unfold np_equal. destruct Zp as [(-> & ->)|(-> & D1 & P1)], Zq as [(-> & ->)|(-> & D2 & P2)]; cbn [orb Bool.eqb].
  - exists true. by rewrite same_value_zero_l.
  - exists false. rewrite same_value_zero_l. pose proof (decomposed_mantissa _ _ _ P2). naive_solver.
  - exists false. rewrite same_value_zero_r. pose proof (decomposed_mantissa _ _ _ P1). naive_solver.
  - destruct P1 as (X1 & W1 & G1 & L1 & T1 & E1 & B1 & V1 & k1 & K1 & M1 & Q1).
    destruct P2 as (X2 & W2 & G2 & L2 & T2 & E2 & B2 & V2 & k2 & K2 & M2 & Q2).
    assert (NE : same_value (np_mantissa p) (np_exponent p) (np_mantissa q) (np_exponent q) <->
                 np_neg p = np_neg q /\ full_weight da = full_weight db /\ D1 = D2)
      by by rewrite M1, M2, same_value_shift, Q1, Q2, normal_form_eq.
    rewrite Np, Nq.
    pose proof (decWeightEqual_spec _ _ X1 X2 W1 W2) as We.
    destruct (Bool.eqb (np_neg p) (np_neg q)) eqn:En; cbn [negb orb].
    2: { exists false. split; [done|]. rewrite NE. split; [done|]. intros (En' & _). by rewrite En', eqb_reflx in En. }
    apply Bool.eqb_prop in En. destruct (decWeightEqual da db); cbn [negb].
    + destruct (lockstep_spec (S (length (np_print p))) _ _ da db _ _ D1 D2 V1 V2) as (r & -> & R); [lia|]. exists r. split; [done|].
      rewrite R, NE. pose proof (proj1 We eq_refl). naive_solver.
    + exists false. split; [done|]. rewrite NE. split; [done|]. intros (_ & Ew & _). by apply We in Ew.
Qed.

(** 12.50e2 and 1250 are equal; the exponents take the cold path in the second pair. *)
Lemma jsonNumberEqual_spec_witness :
  (exists r, jsonNumberEqual [0x31; 0x32; 0x2e; 0x35; 0x30; 0x65; 0x32] [0x31; 0x32; 0x35; 0x30] = Ok r /\
     (r = true <-> np_equal (NumParts false [0x31; 0x32] [0x35; 0x30] (Some (0x65, None, [0x32]))) (NumParts false [0x31; 0x32; 0x35; 0x30] [] None))) /\
  (let big := NumParts true [0x31; 0x30] [] (Some (0x45, Some 0x2d, replicate 25 0x39)) in
   exists r, jsonNumberEqual (np_print big) (np_print big) = Ok r /\ (r = true <-> np_equal big big)).
Proof.
  split.
  - apply (jsonNumberEqual_spec (NumParts false [0x31; 0x32] [0x35; 0x30] (Some (0x65, None, [0x32]))) (NumParts false [0x31; 0x32; 0x35; 0x30] [] None)).
    + split; [right; exists 0x31, [0x32]; split; [done|]; split; [done|by repeat constructor]|]. split; [by repeat constructor|].
      split; [by left|]. split; [done|]. split; [done|by repeat constructor].
    + split; [right; exists 0x31, [0x32; 0x35; 0x30]; split; [done|]; split; [done|by repeat constructor]|]. split; [by repeat constructor|done].
    + done.
    + done.
  - assert (W : np_ok (NumParts true [0x31; 0x30] [] (Some (0x45, Some 0x2d, replicate 25 0x39)))).
    { split; [right; exists 0x31, [0x30]; split; [done|]; split; [done|by repeat constructor]|]. split; [by repeat constructor|].
      split; [by right|]. split; [intros c [= <-]; by right|]. split; [done|by repeat constructor]. }
    by apply jsonNumberEqual_spec.
Defined.
