(* ===== verification/OrderedKey.v ===== *)
(** * OrderedKey: order-preserving keys for JSON scalars

    Models internal/orderedkey/key.go: the null, Boolean, number and string
    components, their descending inversion, the JSON-string decoder that feeds
    the string component, and the prefix bound.  Byte comparison of compound
    keys is proved to be the semantic order of the values, component by
    component, numbers by their exact decimal value.

    A byte is a [Z]; Go's [dst] result is a list and the second result a bool.
    Slices index as in Go on the checked inputs. *)
From Stdlib Require Import ZArith Lia List Bool.
From stdpp Require Import base numbers list.
From S2P Require Import Prelude Utf8 Grammar Lex NumberEqual.

Open Scope Z_scope.

Definition Ascending : Z := 0.
Definition Descending : Z := 1.

Definition tagNull : Z := 0x10.
Definition tagFalse : Z := 0x20.
Definition tagTrue : Z := 0x21.
Definition tagNumber : Z := 0x30.
Definition tagNumberNegative : Z := 0x10.
Definition tagNumberZero : Z := 0x20.
Definition tagNumberPositive : Z := 0x30.
Definition tagString : Z := 0x40.

Definition MaxInt64 : Z := 2 ^ 63 - 1.
Definition MinInt64 : Z := - 2 ^ 63.

(** [value[i] = ^value[i]] over a slice. *)
Definition invert (value : list Z) : list Z := map (fun b => Z.lxor b 0xff) value.

Definition invertDescending (component : list Z) (direction : Z) : list Z :=
  if direction =? Descending then invert component else component.

(** [dst] with the bytes from [start] on passed through [invertDescending]. *)
Definition sealComponent (dst : list Z) (start : nat) (direction : Z) : list Z :=
  take start dst ++ invertDescending (drop start dst) direction.

Definition AppendNull (dst : list Z) (direction : Z) : list Z * bool :=
  if Descending <? direction then (dst, false)
  else (sealComponent (dst ++ [tagNull]) (length dst) direction, true).

Definition AppendBool (dst : list Z) (value : bool) (direction : Z) : list Z * bool :=
  if Descending <? direction then (dst, false)
  else
    let tag := if value then tagTrue else tagFalse in
    (sealComponent (dst ++ [tag]) (length dst) direction, true).

(** ** Number geometry *)

(** [validNumber] in its stages; [None] is an early [return false]. *)
Definition validSign (number : list Z) : option nat :=
  if (length number =? 0)%nat then None
  else if byteAt number 0 (fun c => c =? 0x2d) then
    if (1 =? length number)%nat then None else Some 1%nat
  else Some 0%nat.

Definition validInt (number : list Z) (i : nat) : option nat :=
  if byteAt number i (fun c => c =? 0x30) then
    if byteAt number (S i) isDigit then None else Some (S i)
  else if negb (byteAt number i isOneNine) then None
  else Some (scanDigits number (length number) i).

Definition validDigits (number : list Z) (start : nat) : option nat :=
  let i := scanDigits number (length number) start in
  if (i =? start)%nat then None else Some i.

Definition validFrac (number : list Z) (i : nat) : option nat :=
  if byteAt number i (fun c => c =? 0x2e) then validDigits number (S i) else Some i.

Definition validExp (number : list Z) (i : nat) : option nat :=
  if byteAt number i (fun c => (c =? 0x65) || (c =? 0x45)) then
    let i := S i in
    let i := if byteAt number i (fun c => (c =? 0x2b) || (c =? 0x2d)) then S i else i in
    validDigits number i
  else Some i.

Definition validKeyNumber (number : list Z) : bool :=
  match (i ← validSign number; i ← validInt number i; i ← validFrac number i; validExp number i) with
  | Some i => (i =? length number)%nat
  | None => false
  end.

(** One digit of the combined sequence: (digitIndex, first, last). *)
Definition mark (st : Z * Z * Z) (b : Z) : Z * Z * Z :=
  let '(digitIndex, first, last) := st in
  if negb (b =? 0x30)
  then (digitIndex + 1, if first <? 0 then digitIndex else first, digitIndex)
  else (digitIndex + 1, first, last).

(** The exponent loop with its int64 overflow test. *)
Fixpoint exponentLoop (ds : list Z) (exponent : Z) : option Z :=
  match ds with
  | [] => Some exponent
  | c :: ds =>
      let digit := c - 0x30 in
      if Z.quot (MaxInt64 - digit) 10 <? exponent then None
      else exponentLoop ds (i64 (exponent * 10 + digit))
  end.

(** (negative, integerDigits, first, last, exponent); [None] is [ok = false]. *)
Definition numberParts (number : list Z) : option (bool * Z * Z * Z * Z) :=
  if negb (validKeyNumber number) then None
  else
    let negative := byteAt number 0 (fun c => c =? 0x2d) in
    let integerStart := if negative then 1%nat else 0%nat in
    let i := scanDigits number (length number) integerStart in
    let integerDigits := Z.of_nat (i - integerStart) in
    let st := fold_left mark (slice number integerStart i) (0, -1, -1) in
    let '(i, st) :=
      if byteAt number i (fun c => c =? 0x2e) then
        let e := scanDigits number (length number) (S i) in
        (e, fold_left mark (slice number (S i) e) st)
      else (i, st) in
    let '(_, first, last) := st in
    if (i =? length number)%nat then Some (negative, integerDigits, first, last, 0)
    else
      let '(exponentNegative, i) := expSign number (S i) in
      exponent ← exponentLoop (drop i number) 0;
      Some (negative, integerDigits, first, last, if exponentNegative : bool then i64 (- exponent) else exponent).

(** The significant digits, mapped; the loop stops at the exponent. *)
Fixpoint appendDigits (number : list Z) (negative : bool) (first last digitIndex : Z) (dst : list Z) : list Z :=
  match number with
  | [] => dst
  | b :: number =>
      if negb (isDigit b) then
        if (b =? 0x65) || (b =? 0x45) then dst else appendDigits number negative first last digitIndex dst
      else
        let dst :=
          if (first <=? digitIndex) && (digitIndex <=? last) then
            let digit := b - 0x30 in
            if negative then dst ++ [10 - digit] else dst ++ [digit + 1]
          else dst in
        appendDigits number negative first last (digitIndex + 1) dst
  end.

(** [binary.BigEndian.AppendUint64]. *)
Fixpoint bigEndian (n : nat) (v : Z) : list Z :=
  match n with
  | O => []
  | S n => Z.shiftr v (8 * Z.of_nat n) mod 256 :: bigEndian n v
  end.

(** The exponent guard of [AppendNumber]. *)
Definition exponentOverflow (explicitExponent delta : Z) : bool :=
  (0 <? explicitExponent) && (MaxInt64 - explicitExponent <? delta)
  || (explicitExponent <? 0) && (delta <? MinInt64 - explicitExponent).

Definition AppendNumber (dst number : list Z) (direction : Z) : list Z * bool :=
  if Descending <? direction then (dst, false)
  else
    let start := length dst in
    match numberParts number with
    | None => (dst, false)
    | Some (negative, integerDigits, first, last, explicitExponent) =>
        let dst' := dst ++ [tagNumber] in
        if first <? 0 then (sealComponent (dst' ++ [tagNumberZero]) start direction, true)
        else
          let delta := integerDigits - first in
          if exponentOverflow explicitExponent delta then (take start dst', false)
          else
            let adjusted := i64 (explicitExponent + delta) in
            let sign := if negative then tagNumberNegative else tagNumberPositive in
            let biased := bigEndian 8 (Z.lxor (u64 adjusted) (2 ^ 63)) in
            let dst' := dst' ++ [sign] ++ (if negative then invert biased else biased) in
            let dst' := appendDigits number negative first last 0 dst' in
            let dst' := dst' ++ [if negative then 11 else 0] in
            (sealComponent dst' start direction, true)
    end.

(** ** Strings *)

Definition appendStringByte (dst : list Z) (b : Z) : list Z :=
  if b =? 0 then dst ++ [0; 0xff] else dst ++ [b].

Definition AppendString (dst decoded : list Z) (direction : Z) : list Z * bool :=
  if (Descending <? direction) || negb (Valid decoded) then (dst, false)
  else
    let dst' := fold_left appendStringByte decoded (dst ++ [tagString]) in
    (sealComponent (dst' ++ [0; 0]) (length dst) direction, true).

(** One digit of [decodeHex4]; the value is a uint16. *)
Definition hexStep (value : option Z) (b : Z) : option Z :=
  value ← value;
  let value := Z.shiftl value 4 mod 65536 in
  if (0x30 <=? b) && (b <=? 0x39) then Some (Z.lor value (b - 0x30))
  else if (0x61 <=? b) && (b <=? 0x66) then Some (Z.lor value (b - 0x61 + 10))
  else if (0x41 <=? b) && (b <=? 0x46) then Some (Z.lor value (b - 0x41 + 10))
  else None.

Definition decodeHex4 (a b c d : Z) : option Z := fold_left hexStep [a; b; c; d] (Some 0).

(** The simple escapes and what they denote. *)
Definition unescape (e : Z) : option Z :=
  if (e =? 0x22) || (e =? 0x5c) || (e =? 0x2f) then Some e
  else if e =? 0x62 then Some 0x08
  else if e =? 0x66 then Some 0x0c
  else if e =? 0x6e then Some 0x0a
  else if e =? 0x72 then Some 0x0d
  else if e =? 0x74 then Some 0x09
  else None.

Definition appendRune (dst : list Z) (r : Z) : list Z := fold_left appendStringByte (EncodeRune r) dst.

(** The loop of [AppendJSONString]; [s] is [raw[i:len(raw)-1]], [None] an early
    failure. *)
Fixpoint jsonStringLoop (s dst : list Z) : option (list Z) :=
  match s with
  | [] => Some dst
  | b :: s =>
      if negb (b =? 0x5c) then
        if (b <? 0x20) || (b =? 0x22) then None else jsonStringLoop s (appendStringByte dst b)
      else
        match s with
        | [] => None
        | e :: s =>
            match unescape e with
            | Some c => jsonStringLoop s (appendStringByte dst c)
            | None =>
                if negb (e =? 0x75) then None
                else
                  match s with
                  | h1 :: h2 :: h3 :: h4 :: s =>
                      match decodeHex4 h1 h2 h3 h4 with
                      | None => None
                      | Some high =>
                          if between 0xd800 0xdbff high then
                            match s with
                            | q :: u :: s =>
                                if negb (q =? 0x5c) || negb (u =? 0x75) then None
                                else
                                  match s with
                                  | l1 :: l2 :: l3 :: l4 :: s =>
                                      match decodeHex4 l1 l2 l3 l4 with
                                      | None => None
                                      | Some low =>
                                          if negb (between 0xdc00 0xdfff low) then None
                                          else jsonStringLoop s (appendRune dst (DecodeSurrogates high low))
                                      end
                                  | _ => None
                                  end
                            | _ => None
                            end
                          else if between 0xdc00 0xdfff high then None
                          else jsonStringLoop s (appendRune dst high)
                      end
                  | _ => None
                  end
            end
        end
  end.

Definition AppendJSONString (dst raw : list Z) (direction : Z) : list Z * bool :=
  if (Descending <? direction) || (length raw <? 2)%nat || negb (byteAt raw 0 (fun c => c =? 0x22))
     || negb (byteAt raw (length raw - 1) (fun c => c =? 0x22)) || negb (Valid raw)
  then (dst, false)
  else
    match jsonStringLoop (slice raw 1 (length raw - 1)) (dst ++ [tagString]) with
    | None => (dst, false)
    | Some dst' => (sealComponent (dst' ++ [0; 0]) (length dst) direction, true)
    end.

(** ** Prefix bounds *)

(** The downward loop over the appended prefix, reversed: trailing 0xff bytes
    are dropped and the byte before them incremented. *)
Fixpoint successor (rev : list Z) : option (list Z) :=
  match rev with
  | [] => None
  | b :: rev => if negb (b =? 0xff) then Some ((b + 1) :: rev) else successor rev
  end.

Definition AppendPrefixEnd (dst prefix : list Z) : list Z * bool :=
  match successor (List.rev prefix) with
  | Some r => (dst ++ List.rev r, true)
  | None => (dst, false)
  end.

Example number_keys :
  AppendNumber [] [0x31; 0x2e; 0x35; 0x30] Ascending = ([0x30; 0x30; 0x80; 0; 0; 0; 0; 0; 0; 1; 2; 6; 0], true) /\
  AppendNumber [] [0x31; 0x35; 0x65; 0x2d; 0x31] Ascending = AppendNumber [] [0x31; 0x2e; 0x35; 0x30] Ascending /\
  AppendNumber [9] [0x30; 0x31] Ascending = ([9], false) /\
  AppendJSONString [] [0x22; 0x5c; 0x75; 0x30; 0x30; 0x65; 0x39; 0x22] Descending
    = AppendString [] [0xc3; 0xa9] Descending.
Proof. vm_compute. done. Qed.

(** ** Byte order *)

(** [bytes.Compare]. *)
Fixpoint bytesCompare (x y : list Z) : comparison :=
  match x, y with
  | [], [] => Eq
  | [], _ :: _ => Lt
  | _ :: _, [] => Gt
  | a :: x, b :: y => match a ?= b with Eq => bytesCompare x y | c => c end
  end.

(** Lexicographic combination of two verdicts. *)
Definition andThen (c d : comparison) : comparison := match c with Eq => d | _ => c end.

(** The verdict of two keys that are equal or differ inside both; [None] when
    one is a proper prefix of the other. *)
Fixpoint keyCmp (x y : list Z) : option comparison :=
  match x, y with
  | [], [] => Some Eq
  | a :: x, b :: y => match a ?= b with Eq => keyCmp x y | c => Some c end
  | _, _ => None
  end.

Lemma keyCmp_bytes x y c s t :
  keyCmp x y = Some c -> bytesCompare (x ++ s) (y ++ t) = andThen c (bytesCompare s t).
Proof.
  revert y. induction x as [|a x IH]; intros [|b y] H; try done; cbn in *.
  - by injection H as <-.
  - destruct (a ?= b); [by apply IH|by injection H as <-..].
Qed.

Lemma keyCmp_app x y c x' y' :
  keyCmp x y = Some c -> keyCmp (x ++ x') (y ++ y') = match c with Eq => keyCmp x' y' | _ => Some c end.
Proof.
  revert y. induction x as [|a x IH]; intros [|b y] H; try done; cbn in *.
  - by injection H as <-.
  - destruct (a ?= b); [by apply IH|by injection H as <-..].
Qed.

Lemma keyCmp_refl x : keyCmp x x = Some Eq.
Proof. induction x as [|a x IH]; cbn; [done|]. by rewrite Z.compare_refl. Qed.

Lemma keyCmp_then x y c x' y' d :
  keyCmp x y = Some c -> keyCmp x' y' = Some d -> keyCmp (x ++ x') (y ++ y') = Some (andThen c d).
Proof. intros H1 H2. rewrite (keyCmp_app _ _ c) by done. by destruct c. Qed.

Lemma keyCmp_eq x y : keyCmp x y = Some Eq -> x = y.
Proof.
  revert y. induction x as [|a x IH]; intros [|b y] H; try done; cbn in H.
  destruct (Z.compare_spec a b) as [->| |]; try done. f_equal. by apply IH.
Qed.

Lemma invert_byte b : is_byte b -> Z.lxor b 0xff = 255 - b.
Proof. intros H. exact (byte_table (fun b => Z.lxor b 0xff) (fun b => 255 - b) eq_refl b H). Qed.

Lemma keyCmp_invert x y c :
  bytes_ok x -> bytes_ok y -> keyCmp x y = Some c -> keyCmp (invert x) (invert y) = Some (CompOpp c).
Proof.
  intros Hx. revert y. induction Hx as [|a x Ha _ IH]; intros y Hy H; destruct Hy as [|b y Hb Hy]; try done; cbn in *.
  - by injection H as <-.
  - rewrite !invert_byte by done. replace (255 - a ?= 255 - b) with (b ?= a) by (destruct (Z.compare_spec b a), (Z.compare_spec (255 - a) (255 - b)); lia || done).
    rewrite (Z.compare_antisym a b). destruct (a ?= b); cbn; [by apply IH|by injection H as <-..].
Qed.

(** The verdict a direction selects. *)
Definition directed (direction : Z) (c : comparison) : comparison :=
  if direction =? Descending then CompOpp c else c.

Lemma keyCmp_directed x y c d :
  bytes_ok x -> bytes_ok y -> keyCmp x y = Some c ->
  keyCmp (invertDescending x d) (invertDescending y d) = Some (directed d c).
Proof. intros. unfold invertDescending, directed. destruct (d =? Descending); [by apply keyCmp_invert|done]. Qed.

Lemma sealComponent_app dst x d : sealComponent (dst ++ x) (length dst) d = dst ++ invertDescending x d.
Proof. unfold sealComponent. by rewrite take_app_length, drop_app_length. Qed.

(** ** Biased exponents *)

Lemma bias a : MinInt64 <= a <= MaxInt64 -> Z.lxor (u64 a) (2 ^ 63) = a + 2 ^ 63.
Proof.
  unfold MinInt64, MaxInt64, u64. intros H.
  assert (L : forall x, 0 <= x < 2 ^ 63 -> Z.lxor x (2 ^ 63) = x + 2 ^ 63).
  { intros x Hx. symmetry. apply Z.add_nocarry_lxor, Z.bits_inj'. intros i Hi.
    rewrite Z.land_spec, Z.bits_0, Z.pow2_bits_eqb by lia. destruct (Z.eqb_spec 63 i) as [<-|]; [|apply andb_false_r].
    rewrite <- (Z.mod_small x (2 ^ 63)) by lia. by rewrite Z.mod_pow2_bits_high. }
  destruct (Z.ltb_spec a 0).
  - replace (a mod 2 ^ 64) with (a + 2 ^ 64) by dlia. replace (a + 2 ^ 64) with (Z.lxor (a + 2 ^ 63) (2 ^ 63)) by (rewrite L; lia).
    rewrite Z.lxor_assoc, Z.lxor_nilpotent, Z.lxor_0_r. lia.
  - rewrite Z.mod_small by lia. apply L. lia.
Qed.

Lemma bigEndian_bytes n v : bytes_ok (bigEndian n v).
Proof. induction n as [|n IH]; cbn [bigEndian]; constructor; [|done]. unfold is_byte. dlia. Qed.

Lemma bigEndian_mod n v : bigEndian n (v mod 256 ^ Z.of_nat n) = bigEndian n v.
Proof.
  assert (G : forall m, (n <= m)%nat -> bigEndian n (v mod 256 ^ Z.of_nat m) = bigEndian n v); [|by apply G].
  induction n as [|n IH]; intros m L; [done|]. cbn [bigEndian]. f_equal; [|apply IH; lia].
  rewrite !Z.shiftr_div_pow2 by lia. replace (2 ^ (8 * Z.of_nat n)) with (256 ^ Z.of_nat n) by (rewrite Z.pow_mul_r by lia; done).
  replace (Z.of_nat m) with (Z.of_nat n + (1 + Z.of_nat (m - S n))) by lia. rewrite !Z.pow_add_r by lia.
  change (256 ^ 1) with 256. set (A := 256 ^ Z.of_nat n). set (B := 256 ^ Z.of_nat (m - S n)).
  assert (0 < A) by (apply Z.pow_pos_nonneg; lia). assert (0 < B) by (apply Z.pow_pos_nonneg; lia).
  rewrite Z.rem_mul_r, Z.mul_comm, Z.div_add by lia. rewrite (Z.div_small (v mod A)) by (apply Z.mod_pos_bound; lia).
  rewrite Z.add_0_l, Z.rem_mul_r by lia. rewrite (Z.mul_comm 256), Z.mod_add by lia. apply Z.mod_mod. lia.
Qed.

Lemma bigEndian_cmp n x y :
  0 <= x < 256 ^ Z.of_nat n -> 0 <= y < 256 ^ Z.of_nat n -> keyCmp (bigEndian n x) (bigEndian n y) = Some (x ?= y).
Proof.
  revert x y. induction n as [|n IH]; intros x y Hx Hy.
  { cbn in *. by replace x with y by lia; rewrite Z.compare_refl. }
  rewrite Nat2Z.inj_succ, Z.pow_succ_r in Hx, Hy by lia. cbn [bigEndian keyCmp].
  rewrite <- (bigEndian_mod n x), <- (bigEndian_mod n y).
  rewrite !Z.shiftr_div_pow2 by lia. replace (2 ^ (8 * Z.of_nat n)) with (256 ^ Z.of_nat n) by (rewrite Z.pow_mul_r by lia; done).
  set (A := 256 ^ Z.of_nat n) in *. assert (HA : 0 < A) by (apply Z.pow_pos_nonneg; lia).
  assert (Qx : 0 <= x / A < 256) by (split; [apply Z.div_pos; lia|apply Z.div_lt_upper_bound; lia]).
  assert (Qy : 0 <= y / A < 256) by (split; [apply Z.div_pos; lia|apply Z.div_lt_upper_bound; lia]).
  rewrite !(Z.mod_small (_ / A)) by lia. pose proof (Z.div_mod x A). pose proof (Z.div_mod y A).
  pose proof (Z.mod_pos_bound x A HA). pose proof (Z.mod_pos_bound y A HA).
  destruct (Z.compare_spec (x / A) (y / A)) as [E|E|E].
  - rewrite IH by lia. f_equal. destruct (Z.compare_spec (x mod A) (y mod A)), (Z.compare_spec x y); nia || done.
  - f_equal. symmetry. apply Z.compare_lt_iff. nia.
  - f_equal. symmetry. apply Z.compare_gt_iff. nia.
Qed.

(** ** Significant digits as fractions *)

Definition digitCode (negative : bool) (c : Z) : Z := if negative then 10 - (c - 0x30) else c - 0x30 + 1.
Definition fractionKey (negative : bool) (D : list Z) : list Z :=
  map (digitCode negative) D ++ [if negative then 11 else 0].

Definition fractionCompare (D1 D2 : list Z) : comparison :=
  dval D1 * 10 ^ Z.of_nat (length D2) ?= dval D2 * 10 ^ Z.of_nat (length D1).

Lemma no_trail_tail c D : no_trail (c :: D) -> no_trail D.
Proof. unfold no_trail. destruct D; [done|]. by rewrite last_cons_cons. Qed.

Lemma dval_pos D : digits D -> no_trail D -> D <> [] -> 0 < dval D.
Proof.
  intros G T N. pose proof (dval_bounds D G). pose proof (dval_mod10 D T G N) as M.
  destruct (Z.eq_dec (dval D) 0) as [E|]; [by rewrite E in M|lia].
Qed.

Lemma fraction_lt x y A B r1 r2 :
  0 <= r1 < A -> 0 <= r2 < B -> x < y -> (x * A + r1) * (10 * B) < (y * B + r2) * (10 * A).
Proof.
  intros H1 H2 L. assert (x * A + r1 + 1 <= y * A) by nia. assert ((x * A + r1) * B < y * A * B) by nia.
  assert (0 <= r2 * A) by nia. lia.
Qed.

Lemma fractionKey_cmp neg D1 D2 :
  digits D1 -> digits D2 -> no_trail D1 -> no_trail D2 ->
  keyCmp (fractionKey neg D1) (fractionKey neg D2) =
  Some (if neg then CompOpp (fractionCompare D1 D2) else fractionCompare D1 D2).
Proof.
  unfold fractionKey, fractionCompare. revert D2. induction D1 as [|c D1 IH]; intros D2 G1 G2 T1 T2.
  - destruct D2 as [|d D2]; [by destruct neg|]. pose proof (dval_pos _ G2 T2 ltac:(done)).
    apply Forall_cons in G2 as [Hd%digit_range _].
    replace (dval [] * _ ?= _) with Lt by (symmetry; apply Z.compare_lt_iff; cbn [length]; change (dval []) with 0; lia).
    destruct neg; cbn [map app keyCmp]; unfold digitCode.
    + by rewrite (proj2 (Z.compare_gt_iff 11 (10 - (d - 0x30)))) by lia.
    + by rewrite (proj2 (Z.compare_lt_iff 0 (d - 0x30 + 1))) by lia.
  - pose proof (dval_pos _ G1 T1 ltac:(done)) as P1. apply Forall_cons in G1 as [Hc G1]. apply digit_range in Hc.
    destruct D2 as [|d D2].
    + replace (_ ?= dval [] * _) with Gt by (symmetry; apply Z.compare_gt_iff; cbn [length]; change (dval []) with 0; change (10 ^ Z.of_nat 0) with 1; lia).
      destruct neg; cbn [map app keyCmp]; unfold digitCode.
      * by rewrite (proj2 (Z.compare_lt_iff (10 - (c - 0x30)) 11)) by lia.
      * by rewrite (proj2 (Z.compare_gt_iff (c - 0x30 + 1) 0)) by lia.
    + apply Forall_cons in G2 as [Hd G2]. apply digit_range in Hd. cbn [map app keyCmp].
      rewrite IH by (done || by eapply no_trail_tail). rewrite !dval_cons. cbn [length]. rewrite !Nat2Z.inj_succ, !Z.pow_succ_r by lia.
      pose proof (dval_bounds _ G1) as B1. pose proof (dval_bounds _ G2) as B2.
      set (A := 10 ^ Z.of_nat (length D1)) in *. set (B := 10 ^ Z.of_nat (length D2)) in *. clearbody A B.
      destruct (Z.lt_trichotomy c d) as [L|[->|L]].
      * rewrite (proj2 (Z.compare_lt_iff (((c - 48) * A + dval D1) * (10 * B)) _)) by (apply fraction_lt; lia).
        unfold digitCode. destruct neg.
        -- by rewrite (proj2 (Z.compare_gt_iff (10 - (c - 0x30)) (10 - (d - 0x30)))) by lia.
        -- by rewrite (proj2 (Z.compare_lt_iff (c - 0x30 + 1) (d - 0x30 + 1))) by lia.
      * rewrite Z.compare_refl. replace (((d - 48) * A + dval D1) * (10 * B) ?= ((d - 48) * B + dval D2) * (10 * A)) with (dval D1 * B ?= dval D2 * A); [done|].
        destruct (Z.compare_spec (dval D1 * B) (dval D2 * A)), (Z.compare_spec (((d - 48) * A + dval D1) * (10 * B)) (((d - 48) * B + dval D2) * (10 * A))); nia || done.
      * rewrite (proj2 (Z.compare_gt_iff (((c - 48) * A + dval D1) * (10 * B)) _)) by (apply fraction_lt; lia).
        unfold digitCode. destruct neg.
        -- by rewrite (proj2 (Z.compare_lt_iff (10 - (c - 0x30)) (10 - (d - 0x30)))) by lia.
        -- by rewrite (proj2 (Z.compare_gt_iff (c - 0x30 + 1) (d - 0x30 + 1))) by lia.
Qed.

(** ** Decimal order *)

Definition valueCompare (m1 e1 m2 e2 : Z) : comparison :=
  let e := Z.min e1 e2 in m1 * 10 ^ (e1 - e) ?= m2 * 10 ^ (e2 - e).

(** The order of the numbers two spellings denote. *)
Definition np_compare (p q : numparts) : comparison :=
  valueCompare (np_mantissa p) (np_exponent p) (np_mantissa q) (np_exponent q).

Lemma np_compare_eq p q : np_compare p q = Eq <-> np_equal p q.
Proof. unfold np_compare, np_equal, valueCompare, same_value. apply Z.compare_eq_iff. Qed.

Lemma mul_compare a b k : 0 < k -> (a * k ?= b * k) = (a ?= b).
Proof. intros. destruct (Z.compare_spec a b), (Z.compare_spec (a * k) (b * k)); nia || done. Qed.

Lemma valueCompare_shift m1 e1 m2 e2 k1 k2 :
  0 <= k1 -> 0 <= k2 -> valueCompare (m1 * 10 ^ k1) e1 (m2 * 10 ^ k2) e2 = valueCompare m1 (e1 + k1) m2 (e2 + k2).
Proof.
  intros H1 H2. unfold valueCompare. cbn zeta. set (e := Z.min e1 e2). set (f := Z.min (e1 + k1) (e2 + k2)).
  assert (He : e <= f) by lia. rewrite <- !Z.mul_assoc, <- !Z.pow_add_r by lia.
  replace (k1 + (e1 - e)) with ((e1 + k1 - f) + (f - e)) by lia. replace (k2 + (e2 - e)) with ((e2 + k2 - f) + (f - e)) by lia.
  rewrite !Z.pow_add_r, !Z.mul_assoc by lia. apply mul_compare. apply Z.pow_pos_nonneg; lia.
Qed.

Lemma valueCompare_antisym m1 e1 m2 e2 : valueCompare m2 e2 m1 e1 = CompOpp (valueCompare m1 e1 m2 e2).
Proof. unfold valueCompare. cbn zeta. by rewrite (Z.min_comm e2 e1), Z.compare_antisym. Qed.

Lemma magnitude_lt D1 W1 D2 W2 :
  digits D1 -> digits D2 -> no_lead D2 -> D2 <> [] -> W1 < W2 ->
  valueCompare (dval D1) (W1 - Z.of_nat (length D1) + 1) (dval D2) (W2 - Z.of_nat (length D2) + 1) = Lt.
Proof.
  intros G1 G2 L2 E2 L. unfold valueCompare. cbn zeta. set (e := Z.min _ _). apply Z.compare_lt_iff.
  pose proof (dval_bounds D1 G1) as B1. pose proof (dval_lower D2 G2 L2 E2) as B2.
  set (x1 := W1 - Z.of_nat (length D1) + 1 - e). set (x2 := W2 - Z.of_nat (length D2) + 1 - e).
  assert (0 <= x1 /\ 0 <= x2) as [X1 X2] by lia.
  assert (dval D1 * 10 ^ x1 < 10 ^ (W1 + 1 - e)).
  { replace (W1 + 1 - e) with (Z.of_nat (length D1) + x1) by lia. rewrite Z.pow_add_r by lia.
    pose proof (Z.pow_pos_nonneg 10 x1). nia. }
  assert (10 ^ (W2 - e) <= dval D2 * 10 ^ x2).
  { assert (0 < length D2)%nat by (destruct D2; [done|cbn; lia]).
    replace (W2 - e) with (Z.of_nat (length D2) - 1 + x2) by lia. rewrite Z.pow_add_r by lia.
    pose proof (Z.pow_pos_nonneg 10 x2). nia. }
  pose proof (Z.pow_le_mono_r 10 (W1 + 1 - e) (W2 - e)). lia.
Qed.

Lemma magnitude_compare D1 W1 D2 W2 :
  digits D1 -> digits D2 -> no_lead D1 -> no_lead D2 -> D1 <> [] -> D2 <> [] ->
  valueCompare (dval D1) (W1 - Z.of_nat (length D1) + 1) (dval D2) (W2 - Z.of_nat (length D2) + 1)
  = andThen (W1 ?= W2) (fractionCompare D1 D2).
Proof.
  intros G1 G2 L1 L2 E1 E2. destruct (Z.compare_spec W1 W2) as [->|L|L]; cbn [andThen].
  - unfold fractionCompare, valueCompare. cbn zeta. set (e := Z.min _ _).
    rewrite <- (mul_compare (dval D1 * 10 ^ (W2 - Z.of_nat (length D1) + 1 - e)) _ (10 ^ (Z.of_nat (length D1) + Z.of_nat (length D2)))) by (apply Z.pow_pos_nonneg; lia).
    rewrite <- (mul_compare (dval D1 * 10 ^ Z.of_nat (length D2)) _ (10 ^ (W2 + 1 - e))) by (apply Z.pow_pos_nonneg; lia).
    f_equal; rewrite <- !Z.mul_assoc, <- !Z.pow_add_r by lia; do 2 f_equal; lia.
  - by apply magnitude_lt.
  - by rewrite valueCompare_antisym, magnitude_lt.
Qed.

Lemma signed_compare n1 n2 m1 e1 m2 e2 :
  0 < m1 -> 0 < m2 ->
  valueCompare (signed n1 m1) e1 (signed n2 m2) e2 =
  match n1, n2 with
  | true, false => Lt
  | false, true => Gt
  | false, false => valueCompare m1 e1 m2 e2
  | true, true => CompOpp (valueCompare m1 e1 m2 e2)
  end.
Proof.
  intros P1 P2. unfold valueCompare, signed. cbn zeta. set (e := Z.min e1 e2).
  pose proof (Z.pow_pos_nonneg 10 (e1 - e)). pose proof (Z.pow_pos_nonneg 10 (e2 - e)).
  destruct n1, n2; [|apply Z.compare_lt_iff; nia|apply Z.compare_gt_iff; nia|done].
  rewrite !Z.mul_opp_l, Z.compare_opp, Z.compare_antisym. done.
Qed.

(** ** The geometry of a spelling *)

Lemma digit_shape X :
  X = zeros (length X) \/
  exists z D k, X = zeros z ++ D ++ zeros k /\ no_lead D /\ no_trail D /\ D <> [].
Proof.
  destruct (lead_split X) as [E|(z & c & Y & -> & N)]; [by left|right].
  destruct (trail_split (c :: Y)) as [E|(Y' & e & k & E & N')]; [cbn in E; injection E as E _; lia|].
  exists z, (Y' ++ [e]), k. rewrite E. split_and!.
  - by rewrite <- !app_assoc.
  - destruct Y'; injection E as -> _; unfold no_lead; cbn; congruence.
  - unfold no_trail. rewrite last_snoc. congruence.
  - by destruct Y'.
Qed.

Lemma mark_nonzero i f l c : c <> 0x30 -> mark (i, f, l) c = (i + 1, if f <? 0 then i else f, i).
Proof. intros H. unfold mark. by replace (c =? 48) with false by lia. Qed.

Lemma mark_zeros k i f l : fold_left mark (zeros k) (i, f, l) = (i + Z.of_nat k, f, l).
Proof. revert i. induction k as [|k IH]; intros i; cbn [zeros replicate fold_left]; [f_equal; f_equal; lia|]. change (mark (i, f, l) 48) with (i + 1, f, l). fold (zeros k). rewrite IH. f_equal. f_equal. lia. Qed.

(** Once a first digit is recorded, it stays; the last nonzero digit counts. *)
Lemma mark_digits D i f l :
  0 <= f -> no_trail D -> D <> [] -> fold_left mark D (i, f, l) = (i + Z.of_nat (length D), f, i + Z.of_nat (length D) - 1).
Proof.
  intros F T N. destruct D as [|c D _] using rev_ind; [done|]. rewrite fold_left_app, length_app. cbn [fold_left length].
  assert (G : forall D i l, exists l', fold_left mark D (i, f, l) = (i + Z.of_nat (length D), f, l')).
  { clear T N. intros D'. induction D' as [|b D' IH]; intros j m; cbn [fold_left length]; [exists m; f_equal; f_equal; lia|].
    unfold mark at 2. replace (f <? 0) with false by lia. case_match;
      (edestruct IH as [l' ->]; exists l'; f_equal; f_equal; lia). }
  destruct (G D i l) as [l' ->]. unfold no_trail in T. rewrite last_snoc in T. unfold mark.
  destruct (Z.eqb_spec c 48) as [->|]; [done|]. cbn [negb]. replace (f <? 0) with false by lia.
  f_equal; [f_equal|]; lia.
Qed.

Lemma mark_shape z D k :
  no_lead D -> no_trail D -> D <> [] ->
  fold_left mark (zeros z ++ D ++ zeros k) (0, -1, -1) =
  (Z.of_nat (z + length D + k), Z.of_nat z, Z.of_nat z + Z.of_nat (length D) - 1).
Proof.
  intros L T N. rewrite !fold_left_app, mark_zeros. destruct D as [|c D]; [done|].
  assert (c <> 0x30) by (intros ->; by destruct L). cbn [fold_left]. rewrite mark_nonzero by done.
  cbn [Z.ltb Z.compare]. destruct D as [|d D].
  - cbn [fold_left length]. rewrite mark_zeros. f_equal; [f_equal|]; lia.
  - rewrite mark_digits by (lia || done || by eapply no_trail_tail). rewrite mark_zeros. cbn [length]. f_equal; [f_equal|]; lia.
Qed.

Lemma exponentLoop_spec ds acc :
  digits ds -> 0 <= acc <= MaxInt64 ->
  exponentLoop ds acc =
  if acc * 10 ^ Z.of_nat (length ds) + dval ds <=? MaxInt64 then Some (acc * 10 ^ Z.of_nat (length ds) + dval ds) else None.
Proof.
  revert acc. induction ds as [|c ds IH]; intros acc D Ha.
  - cbn [exponentLoop length]. change (dval []) with 0. change (10 ^ Z.of_nat 0) with 1.
    replace (acc * 1 + 0) with acc by lia. by replace (acc <=? MaxInt64) with true by lia.
  - pose proof D as D'. apply Forall_cons in D as [Hc D]. apply digit_range in Hc. cbn [exponentLoop].
    rewrite dval_cons. cbn [length]. rewrite Nat2Z.inj_succ, Z.pow_succ_r by lia.
    pose proof (dval_bounds ds D) as B. set (P := 10 ^ Z.of_nat (length ds)) in *.
    assert (E : acc * (10 * P) + ((c - 48) * P + dval ds) = (acc * 10 + (c - 48)) * P + dval ds) by ring.
    rewrite E. rewrite Z.quot_div_nonneg by (unfold MaxInt64; lia).
    destruct (Z.ltb_spec ((MaxInt64 - (c - 48)) / 10) acc) as [L|L].
    + assert (MaxInt64 < acc * 10 + (c - 48)) by dlia. destruct (Z.leb_spec ((acc * 10 + (c - 48)) * P + dval ds) MaxInt64); [|done]. nia.
    + assert (acc * 10 + (c - 48) <= MaxInt64) by dlia. unfold MaxInt64 in *. rewrite i64_small by lia. apply IH; [done|]. lia.
Qed.

(** ** Number validity *)

Lemma scanDigits_ge src n i : (i <= scanDigits src n i)%nat.
Proof. revert i. induction n as [|n IH]; intros i; cbn [scanDigits]; [lia|]. repeat case_match; [|lia..]. specialize (IH (S i)). lia. Qed.

Lemma scanDigits_none src n i : byteAt src i isDigit = false -> scanDigits src n i = i.
Proof. unfold byteAt. destruct n as [|n]; cbn [scanDigits]; [done|]. destruct (src !! i); [|done]. by intros ->. Qed.

Lemma scanDigits_step src i :
  byteAt src i isDigit = true -> scanDigits src (length src) i = scanDigits src (length src) (S i).
Proof.
  unfold byteAt. destruct (src !! i) as [c|] eqn:E; [|done]. intros Hc.
  assert (H : At src i (c :: drop (S i) src)) by (split; [by apply drop_S|apply lookup_lt_Some in E; lia]).
  pose proof (scanDigits_span _ _ _ H) as H1. pose proof (scanDigits_span _ _ _ (At_cons _ _ _ _ H)) as H2.
  rewrite span_cons, Hc in H1. destruct (span isDigit (drop (S i) src)). by eapply At_inj.
Qed.

Lemma validDigits_scan src i :
  validDigits src i = if byteAt src i isDigit then Some (scanDigits src (length src) i) else None.
Proof.
  unfold validDigits. destruct (byteAt src i isDigit) eqn:E.
  - rewrite scanDigits_step by done. pose proof (scanDigits_ge src (length src) (S i)).
    by replace (_ =? i)%nat with false by (symmetry; apply Nat.eqb_neq; lia).
  - rewrite scanDigits_none by done. by rewrite Nat.eqb_refl.
Qed.

Lemma opt_bind_Some {A B} (a : A) (f : A -> option B) : (Some a ≫= f) = f a.
Proof. done. Qed.

Definition ok_opt {E A} (m : res E A) : option A := match m with Ok a => Some a | _ => None end.

Lemma validExp_scan src i : validExp src i = ok_opt (scanExp src i).
Proof. unfold validExp, scanExp. case_match; [|done]. cbv zeta. rewrite validDigits_scan. by destruct (byteAt src _ isDigit). Qed.

Lemma validFrac_scan src i : validFrac src i = ok_opt (scanFrac src i).
Proof. unfold validFrac, scanFrac. case_match; [|done]. rewrite validDigits_scan. by destruct (byteAt src _ isDigit). Qed.

Lemma validSign_scan src : validSign src = ok_opt (scanSign src 0).
Proof.
  unfold validSign, scanSign. destruct src as [|b src]; [done|]. cbn [length Nat.eqb Nat.leb].
  destruct (byteAt _ 0 _); [|done]. by destruct src.
Qed.

Lemma validInt_scan src i :
  validInt src i = ok_opt (scanInt src i) \/
  validInt src i = None /\ scanInt src i = Ok (S i) /\ byteAt src (S i) isDigit = true.
Proof.
  unfold validInt, scanInt. destruct (byteAt src i (fun c => c =? 48)) eqn:E0.
  - destruct (byteAt src (S i) isDigit); [by right|by left].
  - left. destruct (byteAt src i isOneNine) eqn:E1; [|done]. cbn [negb ok_opt]. rewrite scanDigits_step; [done|].
    unfold byteAt in *. destruct (src !! i) as [c|]; [|done]. unfold isOneNine, isDigit in *. lia.
Qed.

(** A digit is neither a fraction nor an exponent. *)
Lemma digit_ends src i :
  byteAt src i isDigit = true -> (j ← scanFrac src i; scanExp src j) = Ok i /\ (i < length src)%nat.
Proof.
  unfold byteAt. destruct (src !! i) as [c|] eqn:E; [|done]. intros Hc. unfold isDigit in Hc. unfold scanFrac, scanExp, byteAt.
  rewrite E. replace (c =? 0x2e) with false by lia. rewrite bind_Ok, E.
  replace (c =? 0x65) with false by lia. replace (c =? 0x45) with false by lia. split; [done|by apply lookup_lt_Some in E].
Qed.

(** The key package's validity test is the scanner of validate.go. *)
Lemma validKeyNumber_scan src :
  validKeyNumber src = match scanNumber src 0 with Ok e => (e =? length src)%nat | _ => false end.
Proof.
  unfold validKeyNumber, scanNumber. rewrite validSign_scan. destruct (scanSign src 0) as [i| |]; [|done..].
  rewrite !bind_Ok. cbn [ok_opt]. rewrite !opt_bind_Some. destruct (validInt_scan src i) as [->|(-> & -> & D)].
  - destruct (scanInt src i) as [j| |]; [|done..]. cbn [ok_opt]. rewrite bind_Ok, opt_bind_Some, validFrac_scan.
    destruct (scanFrac src j) as [k| |]; [|done..]. cbn [ok_opt]. rewrite bind_Ok, opt_bind_Some, validExp_scan. by destruct (scanExp src k).
  - rewrite bind_Ok. destruct (digit_ends _ _ D) as [-> L]. symmetry. apply Nat.eqb_neq. lia.
Qed.

Lemma validKeyNumber_iff src : validKeyNumber src = true <-> jnumber src.
Proof.
  rewrite validKeyNumber_scan, jnumber_ref. pose proof (scanNumber_At src 0 src (At_0 _)) as H. unfold sim_at in H.
  destruct (ref_number src) as [[p r]|].
  - destruct H as (j & -> & Hj). rewrite Nat.eqb_eq. split.
    + intros ->. exists p. by apply At_suffix_end in Hj as ->.
    + intros (p' & [= <- ->]). by apply At_nil in Hj.
  - destruct H as (e & ->). split; [done|]. by intros (p & ?).
Qed.

(** ** The parts of a valid spelling *)

Definition exp_digits (p : numparts) : list Z := match np_exp p with Some (_, _, ds) => ds | None => [] end.

Section Parts.
Variable p : numparts.
Hypothesis Hp : np_ok p.

Notation src := (np_print p).
Notation sgn := (length (np_sign_bytes p)).
Notation I := (length (np_int p)).
Notation X := (np_int p ++ np_frac p).

Lemma neg_At : byteAt src 0 (fun c => c =? 0x2d) = np_neg p.
Proof.
  rewrite (byteAt_At src 0 src _ (At_0 _)). unfold np_print, np_sign_bytes. destruct (np_neg p); [done|]. cbn [app].
  destruct Hp as ([-> | (d & ds & -> & H & D)] & _); [done|]. cbn [app]. unfold isOneNine in H. lia.
Qed.

Lemma exp_not_dot : match np_exp_bytes p with c :: _ => c =? 0x2e | [] => false end = false.
Proof. destruct Hp as (_ & _ & H). unfold np_exp_bytes. destruct (np_exp p) as [[[e s] ds]|]; [|done]. by destruct H as ([-> | ->] & _). Qed.

(** The exponent tail of [numberParts]. *)
Lemma exponent_tail i (n : bool) (d f l : Z) :
  At src i (np_exp_bytes p) ->
  (if (i =? length src)%nat then Some (n, d, f, l, 0)
   else
     let '(exponentNegative, i) := expSign src (S i) in
     exponent ← exponentLoop (drop i src) 0;
     Some (n, d, f, l, if exponentNegative : bool then i64 (- exponent) else exponent)) =
  if dval (exp_digits p) <=? MaxInt64 then Some (n, d, f, l, exp_value p) else None.
Proof.
  intros H. unfold exp_digits, exp_value, np_exp_bytes in *. destruct Hp as (_ & _ & He).
  destruct (np_exp p) as [[[e s] ds]|].
  - destruct He as (_ & Hs & _ & D). pose proof (At_lt _ _ _ _ H) as L.
    replace (i =? length src)%nat with false by (symmetry; apply Nat.eqb_neq; lia). apply At_cons in H.
    destruct (expSign_At src (S i) s ds H D Hs) as (i' & -> & [-> _]). rewrite exponentLoop_spec by (done || unfold MaxInt64; lia).
    rewrite Z.mul_0_l, Z.add_0_l. pose proof (dval_bounds ds D). destruct (Z.leb_spec (dval ds) MaxInt64) as [Le|]; [|done].
    rewrite opt_bind_Some. case_bool_decide; [|done]. rewrite i64_small; [done|]. unfold MaxInt64 in Le. lia.
  - apply At_nil in H as ->. rewrite Nat.eqb_refl. done.
Qed.

Lemma numberParts_spec :
  numberParts src =
  let '(_, first, last) := fold_left mark X (0, -1, -1) in
  if dval (exp_digits p) <=? MaxInt64 then Some (np_neg p, Z.of_nat I, first, last, exp_value p) else None.
Proof.
  unfold numberParts. replace (validKeyNumber src) with true by (symmetry; apply validKeyNumber_iff; by exists p).
  cbn [negb]. rewrite neg_At. cbv zeta.
  replace (if np_neg p then 1%nat else 0%nat) with sgn by (unfold np_sign_bytes; by destruct (np_neg p)).
  pose proof (int_At p) as Hi. pose proof (int_digits p Hp) as Di. pose proof (frac_digits p Hp) as Df.
  assert (St : stops isDigit (np_frac_bytes p ++ np_exp_bytes p)) by (pose proof (exp_stops p Hp); unfold np_frac_bytes; destruct (np_frac p); done).
  rewrite (scanDigits_run p _ _ _ Hi Di St). pose proof (At_app _ _ _ _ Hi) as Hf.
  rewrite (At_slice _ _ _ _ _ Hi Hf). replace (sgn + I - sgn)%nat with I by lia. rewrite (byteAt_At _ _ _ _ Hf), fold_left_app.
  pose proof (frac_At p) as Hfr. unfold np_frac_bytes in Hf |- *. destruct (np_frac p) as [|c f] eqn:Ef; cbn [app fold_left] in *.
  - rewrite exp_not_dot. destruct (fold_left mark (np_int p) _) as [[a b] l]. by apply exponent_tail.
  - cbn [Z.eqb Pos.eqb]. specialize (Hfr ltac:(done)). rewrite (scanDigits_run p _ (c :: f) _ Hfr Df (exp_stops p Hp)).
    pose proof (At_app _ _ (c :: f) _ Hfr) as He. rewrite (At_slice _ _ _ (c :: f) _ Hfr He). cbn [fold_left].
    destruct (fold_left mark f _) as [[a b] l]. by apply exponent_tail.
Qed.

(** The digits the emission loop selects. *)
Fixpoint select (neg : bool) (f l i : Z) (ds : list Z) : list Z :=
  match ds with
  | [] => []
  | c :: ds => (if (f <=? i) && (i <=? l) then [digitCode neg c] else []) ++ select neg f l (i + 1) ds
  end.

Lemma select_app neg f l i a b : select neg f l i (a ++ b) = select neg f l i a ++ select neg f l (i + Z.of_nat (length a)) b.
Proof.
  revert i. induction a as [|c a IH]; intros i; cbn [select app length]; [by rewrite Z.add_0_r|].
  rewrite IH, <- app_assoc. do 3 f_equal. lia.
Qed.

Lemma select_outside neg f l i ds : i + Z.of_nat (length ds) <= f \/ l < i -> select neg f l i ds = [].
Proof.
  revert i. induction ds as [|c ds IH]; intros i H; cbn [select length] in *; [done|].
  replace ((f <=? i) && (i <=? l)) with false by lia. apply IH. lia.
Qed.

Lemma select_inside neg f l i ds : f <= i -> i + Z.of_nat (length ds) - 1 <= l -> select neg f l i ds = map (digitCode neg) ds.
Proof.
  revert i. induction ds as [|c ds IH]; intros i H1 H2; cbn [select length map] in *; [done|].
  replace ((f <=? i) && (i <=? l)) with true by lia. cbn [app]. f_equal. apply IH; lia.
Qed.

Lemma appendDigits_run ds t neg f l i dst :
  digits ds -> appendDigits (ds ++ t) neg f l i dst = appendDigits t neg f l (i + Z.of_nat (length ds)) (dst ++ select neg f l i ds).
Proof.
  revert i dst. induction ds as [|c ds IH]; intros i dst D; cbn [appendDigits app length select]; [by rewrite app_nil_r, Z.add_0_r|].
  apply Forall_cons in D as [-> D]. cbn [negb]. rewrite IH by done. cbv zeta. f_equal; [lia|].
  unfold digitCode. destruct ((f <=? i) && (i <=? l)), neg; cbn [app]; by rewrite <- ?app_assoc.
Qed.

Lemma appendDigits_spec f l dst neg :
  appendDigits src neg f l 0 dst = dst ++ select neg f l 0 X.
Proof.
  pose proof (int_digits p Hp) as Di. pose proof (frac_digits p Hp) as Df.
  assert (Ex : forall i dst, appendDigits (np_exp_bytes p) neg f l i dst = dst).
  { intros i d. destruct Hp as (_ & _ & H). unfold np_exp_bytes. destruct (np_exp p) as [[[e s] ds]|]; [|done]. by destruct H as ([-> | ->] & _). }
  unfold np_print. assert (Es : appendDigits (np_sign_bytes p ++ np_int p ++ np_frac_bytes p ++ np_exp_bytes p) neg f l 0 dst
    = appendDigits (np_int p ++ np_frac_bytes p ++ np_exp_bytes p) neg f l 0 dst) by (unfold np_sign_bytes; by destruct (np_neg p)).
  rewrite Es, appendDigits_run, select_app by done. unfold np_frac_bytes. destruct (np_frac p) as [|c fr]; cbn [app].
  - rewrite Ex. cbn [select]. by rewrite app_nil_r.
  - change (appendDigits (46 :: c :: fr ++ np_exp_bytes p)) with (appendDigits ((c :: fr) ++ np_exp_bytes p)).
    rewrite appendDigits_run, Ex by done. by rewrite <- app_assoc, Z.add_0_l.
Qed.
End Parts.

(** ** Number components *)

Definition leadZeros (X : list Z) : nat := length (span (fun c => c =? 0x30) X).1.

(** The decimal exponent of [0.D1D2...] for the significant digits. *)
Definition adjusted_exponent (p : numparts) : Z :=
  exp_value p + Z.of_nat (length (np_int p)) - Z.of_nat (leadZeros (np_int p ++ np_frac p)).

Definition exponent_bytes (neg : bool) (A : Z) : list Z :=
  if neg then invert (bigEndian 8 (A + 2 ^ 63)) else bigEndian 8 (A + 2 ^ 63).

Definition positive_key (neg : bool) (A : Z) (D : list Z) : list Z :=
  [tagNumber; if neg then tagNumberNegative else tagNumberPositive] ++ exponent_bytes neg A ++ fractionKey neg D.

(** [k] is the ascending component of the number [p] denotes. *)
Inductive number_key (p : numparts) : list Z -> Prop :=
| nk_zero : np_mantissa p = 0 -> number_key p [tagNumber; tagNumberZero]
| nk_digits D A k :
    digits D -> no_lead D -> no_trail D -> D <> [] -> MinInt64 <= A <= MaxInt64 ->
    0 <= k -> np_mantissa p = signed (np_neg p) (dval D) * 10 ^ k ->
    np_exponent p + k = A - 1 - Z.of_nat (length D) + 1 ->
    number_key p (positive_key (np_neg p) A D).

Lemma digitCode_byte neg c : isDigit c = true -> is_byte (digitCode neg c).
Proof. intros H%digit_range. unfold digitCode, is_byte. destruct neg; lia. Qed.

Lemma invert_bytes x : bytes_ok x -> bytes_ok (invert x).
Proof. intros H. apply Forall_map. eapply Forall_impl; [exact H|]. intros b Hb. cbn. rewrite invert_byte by done. unfold is_byte in *. lia. Qed.

Lemma number_key_bytes p k : number_key p k -> bytes_ok k.
Proof.
  intros [_|D A m G _ _ _ _ _ _ _]; [by repeat constructor|]. unfold positive_key, exponent_bytes, fractionKey.
  repeat apply Forall_app_2.
  - destruct (np_neg p); by repeat constructor.
  - destruct (np_neg p); [apply invert_bytes|]; apply bigEndian_bytes.
  - apply Forall_map. eapply Forall_impl; [exact G|]. intros. by apply digitCode_byte.
  - destruct (np_neg p); by repeat constructor.
Qed.

Lemma exponent_bytes_cmp neg A B :
  MinInt64 <= A <= MaxInt64 -> MinInt64 <= B <= MaxInt64 ->
  keyCmp (exponent_bytes neg A) (exponent_bytes neg B) = Some (if neg then CompOpp (A ?= B) else A ?= B).
Proof.
  unfold MinInt64, MaxInt64, exponent_bytes. intros HA HB.
  assert (E : keyCmp (bigEndian 8 (A + 2 ^ 63)) (bigEndian 8 (B + 2 ^ 63)) = Some (A ?= B)).
  { rewrite bigEndian_cmp by (change (256 ^ Z.of_nat 8) with (2 ^ 64); lia). f_equal.
    destruct (Z.compare_spec (A + 2 ^ 63) (B + 2 ^ 63)), (Z.compare_spec A B); lia || done. }
  destruct neg; [|done]. apply keyCmp_invert; [apply bigEndian_bytes..|done].
Qed.

Lemma CompOpp_andThen c d : CompOpp (andThen c d) = andThen (CompOpp c) (CompOpp d).
Proof. by destruct c. Qed.

(** Components of numbers compare as the numbers do. *)
Lemma number_key_cmp p q kp kq : number_key p kp -> number_key q kq -> keyCmp kp kq = Some (np_compare p q).
Proof.
  intros Hp Hq. unfold np_compare.
  destruct Hp as [Zp|D1 A1 k1 G1 L1 T1 E1 R1 K1 M1 X1], Hq as [Zq|D2 A2 k2 G2 L2 T2 E2 R2 K2 M2 X2].
  - rewrite Zp, Zq. unfold valueCompare. cbn zeta. rewrite !Z.mul_0_l. done.
  - rewrite Zp, M2. pose proof (dval_pos D2 G2 T2 E2). unfold valueCompare. cbn zeta. rewrite Z.mul_0_l.
    set (e := Z.min _ _). pose proof (Z.pow_pos_nonneg 10 k2). pose proof (Z.pow_pos_nonneg 10 (np_exponent q - e)).
    assert (0 < dval D2 * 10 ^ k2) by nia. unfold positive_key, signed. destruct (np_neg q).
    + transitivity (Some Gt); [done|]. f_equal. symmetry. apply Z.compare_gt_iff. nia.
    + transitivity (Some Lt); [done|]. f_equal. symmetry. apply Z.compare_lt_iff. nia.
  - rewrite Zq, M1. pose proof (dval_pos D1 G1 T1 E1). unfold valueCompare. cbn zeta. rewrite Z.mul_0_l.
    set (e := Z.min _ _). pose proof (Z.pow_pos_nonneg 10 k1). pose proof (Z.pow_pos_nonneg 10 (np_exponent p - e)).
    assert (0 < dval D1 * 10 ^ k1) by nia. unfold positive_key, signed. destruct (np_neg p).
    + transitivity (Some Lt); [done|]. f_equal. symmetry. apply Z.compare_lt_iff. nia.
    + transitivity (Some Gt); [done|]. f_equal. symmetry. apply Z.compare_gt_iff. nia.
  - rewrite M1, M2, valueCompare_shift, X1, X2 by done. rewrite signed_compare by by apply dval_pos.
    pose proof (magnitude_compare D1 (A1 - 1) D2 (A2 - 1) G1 G2 L1 L2 E1 E2) as Mc. unfold positive_key.
    replace (A1 - 1 ?= A2 - 1) with (A1 ?= A2) in Mc by (destruct (Z.compare_spec A1 A2), (Z.compare_spec (A1 - 1) (A2 - 1)); lia || done).
    destruct (np_neg p), (np_neg q); cbn [app keyCmp]; [|done|done|]; rewrite !Z.compare_refl, Mc, ?CompOpp_andThen.
    + apply keyCmp_then; [exact (exponent_bytes_cmp true A1 A2 R1 R2)|by rewrite fractionKey_cmp].
    + apply keyCmp_then; [exact (exponent_bytes_cmp false A1 A2 R1 R2)|by rewrite fractionKey_cmp].
Qed.

Lemma leadZeros_shape z D t : no_lead D -> D <> [] -> leadZeros (zeros z ++ D ++ t) = z.
Proof.
  intros N E. unfold leadZeros. rewrite span_complete; [cbn; apply length_replicate| |].
  - unfold zeros. by apply Forall_replicate.
  - destruct D as [|c D]; [done|]. cbn. apply Z.eqb_neq. intros ->. by apply N.
Qed.

Lemma adjusted_bound p z D k :
  np_int p ++ np_frac p = zeros z ++ D ++ zeros k -> Z.of_nat (length (np_print p)) < 2 ^ 62 ->
  - 2 ^ 62 < Z.of_nat (length (np_int p)) - Z.of_nat z < 2 ^ 62.
Proof.
  intros E L. apply (f_equal length) in E. rewrite !length_app in E. unfold zeros in E. rewrite !length_replicate in E.
  unfold np_print, np_frac_bytes in L. rewrite !length_app in L. destruct (np_frac p); cbn [length] in *; lia.
Qed.

Lemma exponentOverflow_spec x d :
  - 2 ^ 62 < d < 2 ^ 62 -> MinInt64 < x <= MaxInt64 ->
  exponentOverflow x d = negb ((MinInt64 <=? x + d) && (x + d <=? MaxInt64)).
Proof. unfold exponentOverflow, MinInt64, MaxInt64. intros. lia. Qed.

Lemma exp_value_bound p : np_ok p -> dval (exp_digits p) <= MaxInt64 -> MinInt64 < exp_value p <= MaxInt64.
Proof.
  intros (_ & _ & H) L. unfold exp_digits, exp_value, MinInt64, MaxInt64 in *. destruct (np_exp p) as [[[e s] ds]|]; [|lia].
  destruct H as (_ & _ & _ & D). pose proof (dval_bounds ds D). case_bool_decide; lia.
Qed.

(** What [AppendNumber] does on a spelling. *)
Lemma AppendNumber_cases p dst dir :
  np_ok p -> Z.of_nat (length (np_print p)) < 2 ^ 62 -> dir <= Descending ->
  let fits := dval (exp_digits p) <= MaxInt64 /\ (np_mantissa p = 0 \/ MinInt64 <= adjusted_exponent p <= MaxInt64) in
  fits /\ (exists k, number_key p k /\ AppendNumber dst (np_print p) dir = (dst ++ invertDescending k dir, true)) \/
  ~ fits /\ AppendNumber dst (np_print p) dir = (dst, false).
Proof.
  intros Hp Hl Hd. cbn zeta. unfold AppendNumber. replace (Descending <? dir) with false by (unfold Descending in *; lia).
  rewrite (numberParts_spec p Hp). destruct (digit_shape (np_int p ++ np_frac p)) as [E|(z & D & k & E & N & T & Ne)].
  - rewrite E, mark_zeros. destruct (Z.leb_spec (dval (exp_digits p)) MaxInt64) as [L|L]; [left|right; split; [lia|done]].
    assert (Z0 : np_mantissa p = 0) by (unfold np_mantissa; rewrite E, dval_zeros; by destruct (np_neg p)).
    split; [by eauto|]. eexists. split; [by constructor|]. cbn [Z.ltb Z.compare]. by rewrite <- app_assoc, sealComponent_app.
  - rewrite E, mark_shape by done.
    assert (G : digits D).
    { assert (G : digits (np_int p ++ np_frac p)) by (apply digits_app; split; [by apply int_digits|by apply frac_digits]).
      rewrite E in G. apply digits_app in G as [_ G]. by apply digits_app in G as [G _]. }
    assert (V : np_mantissa p = signed (np_neg p) (dval D) * 10 ^ Z.of_nat k).
    { unfold np_mantissa. rewrite E, dval_zeros_app, dval_app_zeros, <- signed_mul. done. }
    pose proof (dval_pos D G T Ne) as Pd. pose proof (Z.pow_pos_nonneg 10 (Z.of_nat k)).
    assert (Nz : np_mantissa p <> 0) by (rewrite V; unfold signed; destruct (np_neg p); nia).
    unfold adjusted_exponent. rewrite E, leadZeros_shape by done.
    destruct (Z.leb_spec (dval (exp_digits p)) MaxInt64) as [L|L]; [|right; split; [lia|done]].
    pose proof (exp_value_bound p Hp L) as Bx. pose proof (adjusted_bound p z D k E Hl) as Bd.
    case_match eqn:Ez; [apply Z.ltb_lt in Ez; lia|]. clear Ez. rewrite exponentOverflow_spec by lia.
    set (A := exp_value p + (Z.of_nat (length (np_int p)) - Z.of_nat z)) in *.
    destruct ((MinInt64 <=? A) && (A <=? MaxInt64)) eqn:EA; cbn [negb].
    + left. split; [split; [done|right; lia]|]. exists (positive_key (np_neg p) A D). split.
      * apply (nk_digits p D A (Z.of_nat k)); try (done || lia). unfold np_exponent, A.
        apply (f_equal length) in E. rewrite !length_app in E. unfold zeros in E. rewrite !length_replicate in E. lia.
      * rewrite appendDigits_spec by done. rewrite E, !select_app, select_outside, select_inside, select_outside, app_nil_r, app_nil_l
          by (unfold zeros; rewrite ?length_replicate; lia).
        assert (RA : MinInt64 <= A <= MaxInt64) by lia. unfold MinInt64, MaxInt64 in RA. rewrite (i64_small A) by lia.
        rewrite bias by (unfold MinInt64, MaxInt64; lia). rewrite <- !app_assoc, sealComponent_app. f_equal.
    + right. split; [lia|]. by rewrite take_app_length.
Qed.

(** ** String components *)

Definition escapeByte (b : Z) : list Z := if b =? 0 then [0; 0xff] else [b].
Definition escapeBytes (s : list Z) : list Z := concat (map escapeByte s).
Definition stringKey (s : list Z) : list Z := tagString :: escapeBytes s ++ [0; 0].

Lemma appendStringBytes s dst : fold_left appendStringByte s dst = dst ++ escapeBytes s.
Proof.
  revert dst. induction s as [|b s IH]; intros dst; cbn [fold_left]; [by rewrite app_nil_r|].
  rewrite IH. unfold escapeBytes, appendStringByte. cbn [map concat]. unfold escapeByte at 2. destruct (b =? 0); by rewrite <- app_assoc.
Qed.

Lemma escapeBytes_cons b s : escapeBytes (b :: s) = escapeByte b ++ escapeBytes s.
Proof. done. Qed.

Lemma escapeByte_cmp a b x y : is_byte a -> is_byte b -> a <> b -> keyCmp (escapeByte a ++ x) (escapeByte b ++ y) = Some (a ?= b).
Proof.
  unfold is_byte, escapeByte. intros Ha Hb N.
  destruct (Z.eqb_spec a 0) as [->|], (Z.eqb_spec b 0) as [->|]; [done|..]; cbn [app keyCmp];
    (destruct (Z.compare_spec 0 b) || idtac); (destruct (Z.compare_spec a 0) || idtac); (destruct (Z.compare_spec a b) || idtac); lia || done.
Qed.

Lemma escapeByte_end b x y : is_byte b -> keyCmp (0 :: 0 :: x) (escapeByte b ++ y) = Some Lt /\ keyCmp (escapeByte b ++ y) (0 :: 0 :: x) = Some Gt.
Proof.
  unfold is_byte, escapeByte. intros Hb. destruct (Z.eqb_spec b 0) as [->|]; [done|]. cbn [app keyCmp].
  rewrite (proj2 (Z.compare_lt_iff 0 b)) by lia. by rewrite (proj2 (Z.compare_gt_iff b 0)) by lia.
Qed.

Lemma escapeBytes_cmp s t :
  bytes_ok s -> bytes_ok t -> keyCmp (escapeBytes s ++ [0; 0]) (escapeBytes t ++ [0; 0]) = Some (bytesCompare s t).
Proof.
  intros Hs. revert t. induction Hs as [|a s Ha _ IH]; intros t Ht; destruct Ht as [|b t Hb Ht]; [done|..];
    rewrite ?escapeBytes_cons, <- ?app_assoc; cbn [bytesCompare].
  - by apply escapeByte_end.
  - by apply escapeByte_end.
  - destruct (Z.eq_dec a b) as [->|N].
    + rewrite Z.compare_refl. rewrite (keyCmp_app _ _ Eq) by apply keyCmp_refl. by apply IH.
    + rewrite escapeByte_cmp by done. destruct (Z.compare_spec a b); done.
Qed.

Lemma escapeBytes_ok s : bytes_ok s -> bytes_ok (escapeBytes s).
Proof.
  induction 1 as [|b s Hb _ IH]; [by constructor|]. unfold escapeBytes. cbn [map concat]. apply Forall_app. split; [|done].
  unfold escapeByte. destruct (b =? 0); [constructor; [done|]|]; (constructor; [done|constructor]).
Qed.

(** ** Scalars and compound keys *)

Inductive keyval :=
| KNull
| KBool (b : bool)
| KNumber (p : numparts)
| KString (s : list Z).

Definition appendKey (dst : list Z) (v : keyval) (direction : Z) : list Z * bool :=
  match v with
  | KNull => AppendNull dst direction
  | KBool b => AppendBool dst b direction
  | KNumber p => AppendNumber dst (np_print p) direction
  | KString s => AppendString dst s direction
  end.

Definition keyval_ok (v : keyval) : Prop :=
  match v with
  | KNumber p => np_ok p /\ Z.of_nat (length (np_print p)) < 2 ^ 62
  | KString s => bytes_ok s
  | _ => True
  end.

(** Families in order, then the value: false before true, numbers by value,
    strings by their bytes. *)
Definition family (v : keyval) : Z := match v with KNull => 0 | KBool _ => 1 | KNumber _ => 2 | KString _ => 3 end.

Definition compareKey (v w : keyval) : comparison :=
  match v, w with
  | KBool a, KBool b => Bool.compare a b
  | KNumber p, KNumber q => np_compare p q
  | KString s, KString t => bytesCompare s t
  | _, _ => family v ?= family w
  end.

(** [k] is the ascending component of [v]. *)
Definition component (v : keyval) (k : list Z) : Prop :=
  match v with
  | KNull => k = [tagNull]
  | KBool b => k = [if b then tagTrue else tagFalse]
  | KNumber p => number_key p k
  | KString s => k = stringKey s
  end.

Lemma number_key_head p k : number_key p k -> exists t, k = tagNumber :: t.
Proof. intros [?|D A m ?????]; by eexists. Qed.

Lemma component_cmp v w k l :
  keyval_ok v -> keyval_ok w -> component v k -> component w l -> keyCmp k l = Some (compareKey v w).
Proof.
  destruct v as [|a|p|s], w as [|b|q|t]; cbn [keyval_ok component compareKey]; intros Hv Hw Hk Hl;
    try (by apply number_key_cmp); subst;
    try (apply number_key_head in Hk as [? ->]); try (apply number_key_head in Hl as [? ->]); try done;
    try (by destruct a); try (by destruct b).
  - by destruct a, b.
  - by apply escapeBytes_cmp.
Qed.

Lemma component_bytes v k : keyval_ok v -> component v k -> bytes_ok k.
Proof.
  destruct v as [|b|p|s]; cbn [component keyval_ok]; intros Hv Hk; subst.
  - by repeat constructor.
  - destruct b; by repeat constructor.
  - by eapply number_key_bytes.
  - unfold stringKey. constructor; [done|]. apply Forall_app. split; [by apply escapeBytes_ok|by repeat constructor].
Qed.

Lemma appendKey_component v dst dir r :
  keyval_ok v -> appendKey dst v dir = (r, true) -> exists k, component v k /\ r = dst ++ invertDescending k dir.
Proof.
  intros Hv. destruct v as [|b|p|s]; cbn [appendKey component keyval_ok] in *.
  - unfold AppendNull. case_match; [done|]. intros [= <-]. rewrite sealComponent_app. by eexists.
  - unfold AppendBool. case_match; [done|]. intros [= <-]. rewrite sealComponent_app. by eexists.
  - destruct Hv as [Hp Hl]. destruct (Z.leb_spec dir Descending) as [L|L].
    + destruct (AppendNumber_cases p dst dir Hp Hl L) as [(_ & k & Hk & ->)|(_ & ->)]; [|done]. intros [= <-]. by exists k.
    + unfold AppendNumber. by replace (Descending <? dir) with true by lia.
  - unfold AppendString. case_match; [done|]. intros [= <-]. rewrite appendStringBytes, <- !app_assoc, sealComponent_app. by eexists.
Qed.

(** A compound key: components appended left to right, each in its direction. *)
Fixpoint appendKeys (dst : list Z) (l : list (keyval * Z)) : list Z * bool :=
  match l with
  | [] => (dst, true)
  | (v, d) :: l => let '(dst', ok) := appendKey dst v d in if ok : bool then appendKeys dst' l else (dst, false)
  end.

Fixpoint compareKeys (l m : list (keyval * Z)) : comparison :=
  match l, m with
  | (v, d) :: l, (w, _) :: m => andThen (directed d (compareKey v w)) (compareKeys l m)
  | _, _ => Eq
  end.

Lemma appendKeys_cmp l m dst x y :
  map snd l = map snd m -> Forall (fun v => keyval_ok v.1) l -> Forall (fun v => keyval_ok v.1) m ->
  appendKeys dst l = (x, true) -> forall dst', appendKeys dst' m = (y, true) ->
  exists k1 k2, x = dst ++ k1 /\ y = dst' ++ k2 /\ keyCmp k1 k2 = Some (compareKeys l m).
Proof.
  revert m dst. induction l as [|[v d] l IH]; intros [|[w e] m] dst E Hl Hm X dst' Y; try done; cbn [appendKeys compareKeys] in *.
  - injection X as <-. injection Y as <-. exists [], []. by rewrite !app_nil_r.
  - injection E as <- E. apply Forall_cons in Hl as [Hv Hl]. apply Forall_cons in Hm as [Hw Hm]. cbn [fst] in *.
    destruct (appendKey dst v d) as [r [|]] eqn:Ev; [|done]. destruct (appendKey dst' w d) as [r' [|]] eqn:Ew; [|done].
    destruct (appendKey_component v dst d r Hv Ev) as (k & Hk & ->). destruct (appendKey_component w dst' d r' Hw Ew) as (k' & Hk' & ->).
    destruct (IH m _ E Hl Hm X _ Y) as (k1 & k2 & -> & -> & C).
    exists (invertDescending k d ++ k1), (invertDescending k' d ++ k2). rewrite !app_assoc. split_and!; [done..|].
    apply keyCmp_then; [|done]. apply keyCmp_directed; [by apply (component_bytes v)|by apply (component_bytes w)|by apply component_cmp].
Qed.

(** C23: comparing two compound keys byte by byte gives the semantic order of
    their components, each in its direction: null before Booleans before
    numbers before strings, numbers by their exact decimal value whatever the
    spelling, strings by their bytes.  Keys of equal components are equal and
    no key is a proper prefix of another, so whatever is appended to them
    decides only ties. *)
Theorem compound_key_order (l m : list (keyval * Z)) (x y : list Z) :
  map snd l = map snd m -> Forall (fun v => keyval_ok v.1) l -> Forall (fun v => keyval_ok v.1) m ->
  appendKeys [] l = (x, true) -> appendKeys [] m = (y, true) ->
  (compareKeys l m = Eq <-> x = y) /\
  forall s t, bytesCompare (x ++ s) (y ++ t) = andThen (compareKeys l m) (bytesCompare s t).
Proof.
  intros E Hl Hm X Y. destruct (appendKeys_cmp l m [] x y E Hl Hm X [] Y) as (k1 & k2 & -> & -> & C). cbn [app]. split.
  - split; [|intros ->; rewrite keyCmp_refl in C; congruence]. intros Q. rewrite Q in C. by apply keyCmp_eq.
  - intros s t. by apply keyCmp_bytes.
Qed.

(** ("a", 12.5) before ("a", 3) with the number descending, and whatever follows. *)
Lemma compound_key_order_witness :
  let l := [(KString [0x61], Ascending); (KNumber (NumParts false [0x31; 0x32] [0x35] None), Descending)] in
  let m := [(KString [0x61], Ascending); (KNumber (NumParts false [0x33] [] None), Descending)] in
  compareKeys l m = Lt /\
  exists x y, appendKeys [] l = (x, true) /\ appendKeys [] m = (y, true) /\
    ((compareKeys l m = Eq <-> x = y) /\ forall s t, bytesCompare (x ++ s) (y ++ t) = andThen (compareKeys l m) (bytesCompare s t)).
Proof.
  cbv zeta. split; [reflexivity|]. eexists _, _. split; [vm_compute; reflexivity|]. split; [vm_compute; reflexivity|].
  apply compound_key_order.
  - reflexivity.
  - constructor; [cbn [keyval_ok fst]; by repeat constructor|]. constructor; [|constructor]. split; [|done].
    split; [right; exists 0x31, [0x32]; split; [done|]; split; [done|by repeat constructor]|]. split; [by repeat constructor|done].
  - constructor; [cbn [keyval_ok fst]; by repeat constructor|]. constructor; [|constructor]. split; [|done].
    split; [right; exists 0x33, []; split; [done|]; split; [done|by repeat constructor]|]. split; [by repeat constructor|done].
  - vm_compute. reflexivity.
  - vm_compute. reflexivity.
Defined.

(** C36: a spelling gets a key exactly when its exponent literal fits an int64
    and, for a nonzero value, the exponent of the normalised digits does; every
    other input, malformed ones included, leaves the destination as it was and
    reports false. *)
Theorem AppendNumber_total (dst : list Z) (direction : Z) :
  direction <= Descending ->
  (forall p, np_ok p -> Z.of_nat (length (np_print p)) < 2 ^ 62 ->
     ((AppendNumber dst (np_print p) direction).2 = true <->
      dval (exp_digits p) <= MaxInt64 /\ (np_mantissa p = 0 \/ MinInt64 <= adjusted_exponent p <= MaxInt64))) /\
  (forall number, ~ jnumber number -> AppendNumber dst number direction = (dst, false)) /\
  (forall number, Z.of_nat (length number) < 2 ^ 62 -> (AppendNumber dst number direction).2 = false ->
     AppendNumber dst number direction = (dst, false)).
Proof.
  intros Hd. split_and!.
  - intros p Hp Hl. destruct (AppendNumber_cases p dst direction Hp Hl Hd) as [(F & k & _ & ->)|(F & ->)]; cbn [snd]; naive_solver.
  - intros n Hn. unfold AppendNumber, numberParts. destruct (Descending <? direction); [done|].
    destruct (validKeyNumber n) eqn:V; [|done]. by apply validKeyNumber_iff in V.
  - intros n Ln Hn. destruct (validKeyNumber n) eqn:V.
    + apply validKeyNumber_iff in V as (p & Hp & ->).
      destruct (AppendNumber_cases p dst direction Hp Ln Hd) as [(F & k & _ & E)|(F & ->)]; [by rewrite E in Hn|done].
    + unfold AppendNumber, numberParts. destruct (Descending <? direction); [done|]. by rewrite V.
Qed.

Lemma AppendNumber_total_witness :
  (AppendNumber [7] (np_print (NumParts false [0x31] [] (Some (0x65, None, replicate 18 0x39)))) Ascending).2 = true /\
  AppendNumber [7] [0x30; 0x31] Ascending = ([7], false).
Proof.
  pose proof (AppendNumber_total [7] Ascending ltac:(done)) as (H1 & H2 & _). split.
  - apply H1; [|done|split; [done|right; split; done]].
    split; [right; exists 0x31, []; split; [done|]; split; [done|by constructor]|]. split; [by constructor|].
    split; [by left|]. split; [done|]. split; [done|by repeat constructor].
  - apply H2. intros V%validKeyNumber_iff. by vm_compute in V.
Defined.

(** ** Prefix bounds *)

(** The loop of [AppendPrefixEnd] read from the front. *)
Fixpoint bumped (prefix : list Z) : option (list Z) :=
  match prefix with
  | [] => None
  | b :: r =>
      match bumped r with
      | Some e => Some (b :: e)
      | None => if b =? 0xff then None else Some [b + 1]
      end
  end.

Lemma successor_app x y : successor (x ++ y) = match successor x with Some e => Some (e ++ y) | None => successor y end.
Proof. induction x as [|b x IH]; cbn; [done|]. by destruct (b =? 255). Qed.

Lemma successor_bumped prefix : bumped prefix = option_map (@List.rev Z) (successor (List.rev prefix)).
Proof.
  induction prefix as [|b r IH]; [done|]. cbn [bumped List.rev]. rewrite IH, successor_app.
  destruct (successor (List.rev r)) as [e|]; cbn [option_map]; [by rewrite rev_app_distr|].
  cbn [successor]. by destruct (b =? 255).
Qed.

Lemma bumped_spec prefix k :
  bytes_ok prefix -> bytes_ok k ->
  ((exists t, k = prefix ++ t) <->
   bytesCompare prefix k <> Gt /\ match bumped prefix with Some e => bytesCompare k e = Lt | None => True end).
Proof.
  intros Hp. revert k. induction Hp as [|b r Hb _ IH]; intros k Hk; cbn [bumped app].
  - split; [|by exists k]. intros _. by destruct k.
  - destruct Hk as [|c k Hc Hk]; [split; [by intros [t ?]|by intros []]|]. specialize (IH k Hk).
    unfold is_byte in *. cbn [bytesCompare]. destruct (Z.compare_spec b c) as [->|L|L].
    + assert (E : (exists t, c :: k = c :: r ++ t) <-> exists t, k = r ++ t) by (split; intros [t ?]; exists t; congruence).
      rewrite E, IH. destruct (bumped r) as [e|]; cbn [bytesCompare]; [by rewrite Z.compare_refl|].
      destruct (Z.eqb_spec c 255); [done|]. cbn [bytesCompare]. rewrite (proj2 (Z.compare_lt_iff c (c + 1))) by lia. by split; intros [? _].
    + split; [intros [t [=]]; lia|]. intros [_ H]. exfalso. destruct (bumped r) as [e|].
      * cbn [bytesCompare] in H. by rewrite (proj2 (Z.compare_gt_iff c b)) in H by lia.
      * destruct (Z.eqb_spec b 255); [lia|]. cbn [bytesCompare] in H.
        destruct (Z.compare_spec c (b + 1)); [by destruct k|lia|done].
    + split; [intros [t [=]]; lia|]. by intros [? _].
Qed.

(** The exclusive upper bound of a prefix is exact: a key lies in
    [prefix, end) precisely when it starts with the prefix; when no bound is
    reported (an all-0xff prefix) every key from the prefix on starts with it. *)
Theorem AppendPrefixEnd_spec (dst prefix k : list Z) :
  bytes_ok prefix -> bytes_ok k ->
  match AppendPrefixEnd dst prefix with
  | (r, true) => exists e, r = dst ++ e /\
      ((exists t, k = prefix ++ t) <-> bytesCompare prefix k <> Gt /\ bytesCompare k e = Lt)
  | (r, false) => r = dst /\ ((exists t, k = prefix ++ t) <-> bytesCompare prefix k <> Gt)
  end.
Proof.
  intros Hp Hk. pose proof (bumped_spec prefix k Hp Hk) as H. rewrite successor_bumped in H. unfold AppendPrefixEnd.
  destruct (successor (List.rev prefix)) as [r|]; cbn [option_map] in H; [by exists (List.rev r)|]. naive_solver.
Qed.

Lemma AppendPrefixEnd_spec_witness :
  match AppendPrefixEnd [9] [0x40; 0xff] with
  | (r, true) => exists e, r = [9] ++ e /\
      ((exists t, [0x40; 0xff; 0x01] = [0x40; 0xff] ++ t) <-> bytesCompare [0x40; 0xff] [0x40; 0xff; 0x01] <> Gt /\ bytesCompare [0x40; 0xff; 0x01] e = Lt)
  | (r, false) => r = [9] /\ ((exists t, [0x40; 0xff; 0x01] = [0x40; 0xff] ++ t) <-> bytesCompare [0x40; 0xff] [0x40; 0xff; 0x01] <> Gt)
  end.
Proof. apply (AppendPrefixEnd_spec [9] [0x40; 0xff] [0x40; 0xff; 0x01]); by repeat constructor. Defined.

(** ** JSON strings *)

(** RFC 8259, section 7: the two-character escapes. *)
Definition escapes : list (Z * Z) :=
  [(0x22, 0x22); (0x5c, 0x5c); (0x2f, 0x2f); (0x62, 0x08); (0x66, 0x0c); (0x6e, 0x0a); (0x72, 0x0d); (0x74, 0x09)].

(** One character of a string body and the code point it denotes. *)
Inductive jrune : list Z -> Z -> Prop :=
| jr_plain r : scalar r -> 0x20 <= r -> r <> 0x22 -> r <> 0x5c -> jrune (EncodeRune r) r
| jr_simple e c : In (e, c) escapes -> jrune [0x5c; e] c
| jr_unicode a b c d u :
    hex4val a b c d = Some u -> between 0xd800 0xdfff u = false -> jrune [0x5c; 0x75; a; b; c; d] u
| jr_pair a b c d u a' b' c' d' u' :
    hex4val a b c d = Some u -> between 0xd800 0xdbff u = true ->
    hex4val a' b' c' d' = Some u' -> between 0xdc00 0xdfff u' = true ->
    jrune [0x5c; 0x75; a; b; c; d; 0x5c; 0x75; a'; b'; c'; d'] (0x10000 + (u - 0xd800) * 0x400 + (u' - 0xdc00)).

Inductive jrunes : list Z -> list Z -> Prop :=
| jrs_nil : jrunes [] []
| jrs_cons tok r s rs : jrune tok r -> jrunes s rs -> jrunes (tok ++ s) (r :: rs).

Lemma hexStep_hexval v b : 0 <= v < 4096 -> hexStep (Some v) b = option_map (fun h => v * 16 + h) (hexval b).
Proof.
  intros Hv. unfold hexStep, hexval. rewrite opt_bind_Some. rewrite Z.shiftl_mul_pow2, (Z.mod_small (v * 2 ^ 4)) by lia.
  assert (L : forall h, 0 <= h < 16 -> Z.lor (v * 2 ^ 4) h = v * 16 + h).
  { intros h Hh. rewrite <- Z.shiftl_mul_pow2 by lia. by rewrite lor_shiftl. }
  repeat case_match; cbn [option_map]; try done; rewrite L by lia; done.
Qed.

Lemma hexval_range b h : hexval b = Some h -> 0 <= h < 16 /\ 0 <= b < 0x80.
Proof. unfold hexval. repeat case_match; intros [= <-]; lia. Qed.

Lemma hexStep_None b : hexStep None b = None.
Proof. done. Qed.

Lemma decodeHex4_hex4val a b c d : decodeHex4 a b c d = hex4val a b c d.
Proof.
  unfold decodeHex4, hex4val. cbn [fold_left]. rewrite hexStep_hexval by lia. destruct (hexval a) as [x|] eqn:Ea; [|done].
  apply hexval_range in Ea. cbn [option_map]. rewrite hexStep_hexval by lia. destruct (hexval b) as [y|] eqn:Eb; [|done].
  apply hexval_range in Eb. cbn [option_map]. rewrite hexStep_hexval by lia. destruct (hexval c) as [z|] eqn:Ec; [|done].
  apply hexval_range in Ec. cbn [option_map]. rewrite hexStep_hexval by lia. destruct (hexval d) as [w|] eqn:Ed; [|done].
  cbn [option_map]. f_equal. lia.
Qed.

Lemma hex4val_range a b c d u :
  hex4val a b c d = Some u -> 0 <= u < 65536 /\ Forall (fun x => 0 <= x < 0x80) [a; b; c; d].
Proof.
  unfold hex4val. destruct (hexval a) eqn:Ea, (hexval b) eqn:Eb, (hexval c) eqn:Ec, (hexval d) eqn:Ed; try done. intros [= <-].
  apply hexval_range in Ea, Eb, Ec, Ed. split; [lia|]. repeat constructor; lia.
Qed.

Lemma unescape_escapes e c : unescape e = Some c <-> In (e, c) escapes.
Proof.
  unfold unescape, escapes. cbn [In]. split.
  - repeat case_match; intros [= <-]; repeat match goal with H : (_ || _) = true |- _ => apply orb_true_iff in H as [H|H] end;
      repeat match goal with H : (_ =? _) = true |- _ => apply Z.eqb_eq in H as -> end; naive_solver.
  - intros H. repeat destruct H as [[= <- <-]|H]; done.
Qed.

Lemma appendRune_spec dst r : appendRune dst r = dst ++ escapeBytes (EncodeRune r).
Proof. apply appendStringBytes. Qed.

Lemma surrogate_value u u' :
  between 0xd800 0xdbff u = true -> between 0xdc00 0xdfff u' = true ->
  DecodeSurrogates u u' = 0x10000 + (u - 0xd800) * 0x400 + (u' - 0xdc00).
Proof. unfold between. intros. apply DecodeSurrogates_scalar; lia. Qed.

Lemma appendStringByte_escape dst b : appendStringByte dst b = dst ++ escapeBytes [b].
Proof. unfold appendStringByte, escapeBytes, escapeByte. cbn [map concat]. rewrite app_nil_r. by destruct (b =? 0). Qed.

Lemma loop_high bs s dst :
  Forall (fun b => 0x80 <= b) bs -> jsonStringLoop (bs ++ s) dst = jsonStringLoop s (dst ++ escapeBytes bs).
Proof.
  intros H. revert dst. induction H as [|b bs Hb _ IH]; intros dst; cbn [app jsonStringLoop]; [by rewrite app_nil_r|].
  replace (b =? 0x5c) with false by lia. replace (b <? 0x20) with false by lia. replace (b =? 0x22) with false by lia. cbn [negb orb].
  rewrite IH, appendStringByte_escape, <- app_assoc. do 2 f_equal. unfold escapeBytes. cbn [map concat]. by rewrite app_nil_r.
Qed.

Lemma escapes_scalar e c : In (e, c) escapes -> 0 <= c < 0x80 /\ 0 <= e < 0x80.
Proof. intros H. unfold escapes in H. cbn [In] in H. repeat destruct H as [[= <- <-]|H]; lia || done. Qed.

Lemma escapes_not_u c : ~ In (0x75, c) escapes.
Proof. unfold escapes. cbn [In]. naive_solver. Qed.

Lemma unescape_u : unescape 0x75 = None.
Proof. done. Qed.

(** The loop decodes one character per step. *)
Lemma jrune_step tok r s dst :
  jrune tok r -> scalar r /\ jsonStringLoop (tok ++ s) dst = jsonStringLoop s (dst ++ escapeBytes (EncodeRune r)).
Proof.
  intros [r0 Hs Hr N1 N2|e c He|a b c d u Hu Nb|a b c d u a' b' c' d' u' Hu Bu Hu' Bu'].
  - split; [done|]. destruct (Z.leb_spec 0x80 r0) as [L|L]; [apply loop_high; by apply EncodeRune_high|].
    rewrite EncodeRune_low by lia. cbn [app jsonStringLoop]. replace (r0 =? 0x5c) with false by lia. replace (r0 <? 0x20) with false by lia.
    replace (r0 =? 0x22) with false by lia. cbn [negb orb]. by rewrite appendStringByte_escape.
  - pose proof (escapes_scalar _ _ He). split; [unfold scalar; lia|]. cbn [app jsonStringLoop Z.eqb Pos.eqb negb].
    rewrite (proj2 (unescape_escapes e c) He), appendStringByte_escape. by rewrite EncodeRune_low by lia.
  - pose proof (hex4val_range _ _ _ _ _ Hu) as [R _]. unfold between in Nb. split; [unfold scalar; lia|].
    cbn [app jsonStringLoop Z.eqb Pos.eqb negb]. rewrite unescape_u, decodeHex4_hex4val, Hu.
    unfold between. replace ((0xd800 <=? u) && (u <=? 0xdbff)) with false by lia. replace ((0xdc00 <=? u) && (u <=? 0xdfff)) with false by lia.
    by rewrite appendRune_spec.
  - pose proof (surrogate_value u u' Bu Bu') as E. split.
    + unfold between, scalar in *. lia.
    + cbn [app jsonStringLoop Z.eqb Pos.eqb negb orb]. rewrite unescape_u, !decodeHex4_hex4val, Hu, Bu, Hu', Bu', E. cbn [negb].
      by rewrite appendRune_spec.
Qed.

Lemma escapeBytes_app a b : escapeBytes (a ++ b) = escapeBytes a ++ escapeBytes b.
Proof. unfold escapeBytes. by rewrite map_app, concat_app. Qed.

Lemma jrunes_loop body rs dst :
  jrunes body rs -> Forall scalar rs /\ jsonStringLoop body dst = Some (dst ++ escapeBytes (encode_all rs)).
Proof.
  intros H. revert dst. induction H as [|tok r s rs Hr _ IH]; intros dst; [split; [constructor|by rewrite app_nil_r]|].
  destruct (jrune_step tok r s dst Hr) as [Sr ->]. destruct (IH (dst ++ escapeBytes (EncodeRune r))) as [Srs ->]. split; [by constructor|].
  unfold encode_all. cbn [map concat]. by rewrite escapeBytes_app, app_assoc.
Qed.

(** *** Valid UTF-8 around ASCII *)

(** A list of ASCII bytes. *)
Ltac all_ascii := repeat first [apply Forall_nil_2 | assumption | apply Forall_cons_2; [lia|] | apply Forall_app_2].

Lemma encode_all_cons r rs : encode_all (r :: rs) = EncodeRune r ++ encode_all rs.
Proof. done. Qed.
Lemma encode_all_app a b : encode_all (a ++ b) = encode_all a ++ encode_all b.
Proof. unfold encode_all. by rewrite map_app, concat_app. Qed.

Lemma encode_all_ascii a : Forall (fun x => 0 <= x < 0x80) a -> encode_all a = a /\ Forall scalar a.
Proof.
  induction 1 as [|x a Hx _ [IH1 IH2]]; [done|]. rewrite encode_all_cons, EncodeRune_low, IH1 by lia. split; [done|].
  constructor; [unfold scalar; lia|done].
Qed.

Lemma ascii_prefix a t rs :
  Forall scalar rs -> Forall (fun x => 0 <= x < 0x80) a -> encode_all rs = a ++ t ->
  exists rs', rs = a ++ rs' /\ t = encode_all rs'.
Proof.
  intros Hrs Ha. revert rs Hrs. induction Ha as [|x a Hx _ IH]; intros rs Hrs E; [by exists rs|].
  destruct Hrs as [|r rs Hr Hrs]; [done|]. rewrite encode_all_cons in E.
  destruct (EncodeRune_head r Hr) as (b & u & Eb & Hb). rewrite Eb in E. injection E as -> E.
  assert (r < 0x80) as L by (destruct (Z.le_gt_cases 0x80 r); lia). destruct Hr as [Hr0 Hr1]. rewrite EncodeRune_low in Eb by lia.
  injection Eb as -> <-. destruct (IH rs Hrs E) as (rs' & -> & ->). by exists rs'.
Qed.

(** Between its quotes a valid text is valid. *)
Lemma quoted_valid body rs :
  Forall scalar rs -> encode_all rs = 0x22 :: body ++ [0x22] -> exists rs', Forall scalar rs' /\ body = encode_all rs'.
Proof.
  intros Hrs E. destruct (ascii_prefix [0x22] (body ++ [0x22]) rs Hrs) as (rs1 & -> & E1); [all_ascii|done|].
  apply Forall_app in Hrs as [_ Hrs]. destruct rs1 as [|x rs1 _] using rev_ind; [by destruct body|].
  apply Forall_app in Hrs as [Hrs Hx]. apply Forall_cons in Hx as [Hx _].
  rewrite encode_all_app, encode_all_cons, app_nil_r in E1. exists rs1. split; [done|].
  destruct (Z.leb_spec 0x80 x) as [L|L].
  - pose proof (EncodeRune_high x Hx L) as H. destruct (EncodeRune x) as [|b u _] eqn:Eb using rev_ind; [pose proof (EncodeRune_length x Hx); rewrite Eb in *; simpl in *; lia|].
    rewrite app_assoc in E1. apply app_inj_tail in E1 as [_ <-]. apply Forall_app in H as [_ H]. apply Forall_cons in H as [H _]. lia.
  - destruct Hx as [Hx _]. rewrite EncodeRune_low in E1 by lia. by apply app_inj_tail in E1 as [-> _].
Qed.

(** A body the loop accepts is a sequence of characters. *)
Lemma loop_jrunes rs dst d :
  Forall scalar rs -> jsonStringLoop (encode_all rs) dst = Some d -> exists cs, jrunes (encode_all rs) cs.
Proof.
  remember (length rs) as n eqn:En. revert rs En dst d. induction n as [n IH] using lt_wf_ind. intros rs -> dst d Hrs H.
  assert (Step : forall tok c rs', jrune tok c -> rs = tok ++ rs' -> Forall (fun x => 0 <= x < 0x80) tok ->
    (0 < length tok)%nat -> exists cs, jrunes (encode_all rs) cs).
  { intros tok c rs' Hc -> Ha L. rewrite encode_all_app in *. rewrite (proj1 (encode_all_ascii tok Ha)) in *.
    rewrite (proj2 (jrune_step tok c _ dst Hc)) in H. apply Forall_app in Hrs as [_ Hrs].
    destruct (IH (length rs') ltac:(rewrite length_app; lia) rs' eq_refl _ _ Hrs H) as (cs & Hcs). exists (c :: cs). by constructor. }
  destruct rs as [|r rs]; [exists []; constructor|]. pose proof Hrs as Hrs'. apply Forall_cons in Hrs' as [Hr Hrs'].
  destruct (Z.eq_dec r 0x5c) as [->|N].
  - rewrite encode_all_cons in H. change (EncodeRune 0x5c) with [0x5c] in H. cbn [app jsonStringLoop Z.eqb Pos.eqb negb] in H.
    destruct (encode_all rs) as [|e s] eqn:Ee; [done|]. destruct (unescape e) as [c|] eqn:Eu.
    + apply unescape_escapes in Eu. pose proof (escapes_scalar _ _ Eu) as [_ Be].
      destruct (ascii_prefix [e] s rs Hrs') as (rs' & -> & _); [all_ascii|done|].
      apply (Step [0x5c; e] c rs'); [by constructor|done|all_ascii|cbn; lia].
    + destruct (Z.eqb_spec e 0x75) as [->|]; [|done]. cbn [negb] in H. destruct s as [|h1 [|h2 [|h3 [|h4 s]]]]; try done.
      rewrite decodeHex4_hex4val in H. destruct (hex4val h1 h2 h3 h4) as [u|] eqn:Hu; [|done].
      pose proof (hex4val_range _ _ _ _ _ Hu) as [_ A1]. destruct (between 0xd800 0xdbff u) eqn:Bu.
      * destruct s as [|q [|v s]]; try done. destruct (Z.eqb_spec q 0x5c) as [->|], (Z.eqb_spec v 0x75) as [->|]; try done. cbn [negb orb] in H.
        destruct s as [|l1 [|l2 [|l3 [|l4 s]]]]; try done. rewrite decodeHex4_hex4val in H.
        destruct (hex4val l1 l2 l3 l4) as [w|] eqn:Hw; [|done]. pose proof (hex4val_range _ _ _ _ _ Hw) as [_ A2].
        destruct (between 0xdc00 0xdfff w) eqn:Bw; [|done].
        assert (A : Forall (fun x => 0 <= x < 0x80) ([0x75] ++ [h1; h2; h3; h4] ++ [0x5c; 0x75] ++ [l1; l2; l3; l4]))
          by all_ascii.
        destruct (ascii_prefix _ s rs Hrs' A Ee) as (rs' & -> & _).
        eapply (Step [0x5c; 0x75; h1; h2; h3; h4; 0x5c; 0x75; l1; l2; l3; l4]); [by eapply jr_pair|done| |cbn; lia].
        by constructor.
      * destruct (between 0xdc00 0xdfff u) eqn:Bl; [done|].
        assert (A : Forall (fun x => 0 <= x < 0x80) ([0x75] ++ [h1; h2; h3; h4])) by all_ascii.
        destruct (ascii_prefix _ s rs Hrs' A Ee) as (rs' & -> & _).
        eapply (Step [0x5c; 0x75; h1; h2; h3; h4]); [eapply jr_unicode; [done|]|done| |cbn; lia].
        -- unfold between in *. lia.
        -- by constructor.
  - assert (Hj : jrune (EncodeRune r) r).
    { destruct (Z.leb_spec 0x80 r) as [L|L]; [constructor; [done|lia..]|]. destruct (Hr) as [Hr0 _].
      rewrite encode_all_cons, EncodeRune_low in H by lia. cbn [app jsonStringLoop] in H. replace (r =? 0x5c) with false in H by lia.
      cbn [negb] in H. case_match; [done|]. constructor; [done|lia..]. }
    rewrite encode_all_cons in *. rewrite (proj2 (jrune_step _ r _ dst Hj)) in H.
    destruct (IH (length rs) ltac:(cbn; lia) rs eq_refl _ _ Hrs' H) as (cs & Hcs). exists (r :: cs). by constructor.
Qed.

Lemma quoted_guard raw :
  negb (length raw <? 2)%nat && byteAt raw 0 (fun c => c =? 0x22) && byteAt raw (length raw - 1) (fun c => c =? 0x22) = true ->
  raw = 0x22 :: slice raw 1 (length raw - 1) ++ [0x22].
Proof.
  intros H. apply andb_true_iff in H as [H Hl]. apply andb_true_iff in H as [L H0]. apply negb_true_iff, Nat.ltb_ge in L.
  destruct raw as [|q raw]; [done|]. unfold byteAt in H0. cbn in H0. apply Z.eqb_eq in H0 as ->.
  destruct raw as [|z raw _] using rev_ind; [cbn in L; lia|].
  replace (length (0x22%Z :: raw ++ [z]) - 1)%nat with (S (length raw)) in * by (cbn [length]; rewrite length_app; cbn; lia).
  unfold byteAt in Hl.
  change ((0x22 :: raw ++ [z]) !! S (length raw)) with ((raw ++ [z]) !! length raw) in Hl. rewrite list_lookup_middle in Hl by done. apply Z.eqb_eq in Hl as ->.
  unfold slice. change (drop 1 (0x22 :: raw ++ [0x22])) with (raw ++ [0x22]). replace (S (length raw) - 1)%nat with (length raw) by lia. by rewrite take_app_length.
Qed.

Lemma quoted_intro body :
  let raw := 0x22 :: body ++ [0x22] in
  (length raw <? 2)%nat = false /\ byteAt raw 0 (fun c => c =? 0x22) = true /\
  byteAt raw (length raw - 1) (fun c => c =? 0x22) = true /\ slice raw 1 (length raw - 1) = body.
Proof.
  cbn zeta. replace (length (0x22%Z :: body ++ [0x22%Z]) - 1)%nat with (S (length body)) by (cbn [length]; rewrite length_app; cbn; lia).
  split_and!; [|done| |].
  - apply Nat.ltb_ge. cbn [length]. rewrite length_app. cbn. lia.
  - unfold byteAt. change ((0x22 :: body ++ [0x22]) !! S (length body)) with ((body ++ [0x22]) !! length body). by rewrite list_lookup_middle.
  - unfold slice. change (drop 1 (0x22 :: body ++ [0x22])) with (body ++ [0x22]). replace (S (length body) - 1)%nat with (length body) by lia. apply take_app_length.
Qed.

Lemma jrune_ascii_or_plain tok r : jrune tok r -> exists rs, Forall scalar rs /\ tok = encode_all rs.
Proof.
  intros [r0 Hs _ _ _|e c He|a b c d u Hu Nb|a b c d u a' b' c' d' u' Hu Bu Hu' Bu'].
  - exists [r0]. split; [by constructor|]. by rewrite encode_all_cons, app_nil_r.
  - pose proof (escapes_scalar _ _ He). exists [0x5c; e]. destruct (encode_all_ascii [0x5c; e]) as [-> ?]; [all_ascii|done].
  - pose proof (hex4val_range _ _ _ _ _ Hu) as [_ A]. exists [0x5c; 0x75; a; b; c; d].
    destruct (encode_all_ascii [0x5c; 0x75; a; b; c; d]) as [-> ?]; [all_ascii|done].
  - pose proof (hex4val_range _ _ _ _ _ Hu) as [_ A]. pose proof (hex4val_range _ _ _ _ _ Hu') as [_ A'].
    exists [0x5c; 0x75; a; b; c; d; 0x5c; 0x75; a'; b'; c'; d'].
    destruct (encode_all_ascii [0x5c; 0x75; a; b; c; d; 0x5c; 0x75; a'; b'; c'; d']) as [-> ?]; [|done].
    do 2 (constructor; [lia|]). apply (Forall_app_2 _ [a; b; c; d]); [done|]. by do 2 (constructor; [lia|]).
Qed.

Lemma jrunes_encoded body cs : jrunes body cs -> exists rs, Forall scalar rs /\ body = encode_all rs.
Proof.
  induction 1 as [|tok r s cs Hr _ (rs & H1 & ->)]; [by exists []|]. destruct (jrune_ascii_or_plain _ _ Hr) as (t & H2 & ->).
  exists (t ++ rs). split; [by apply Forall_app|]. by rewrite encode_all_app.
Qed.

Lemma json_string_accepts dst direction body rs :
  bytes_ok (0x22 :: body ++ [0x22]) -> direction <= Descending -> jrunes body rs ->
  (AppendJSONString dst (0x22 :: body ++ [0x22]) direction).2 = true /\
  AppendJSONString dst (0x22 :: body ++ [0x22]) direction = AppendString dst (encode_all rs) direction.
Proof.
  intros Hb Hd Hj. assert (D : (Descending <? direction) = false) by lia.
  destruct (quoted_intro body) as (G1 & G2 & G3 & G4). unfold AppendJSONString. rewrite D, G1, G2, G3, G4.
  assert (V : Valid (0x22 :: body ++ [0x22]) = true).
  { apply Valid_spec; [done|]. destruct (jrunes_encoded _ _ Hj) as (t & Ht & ->). exists ([0x22] ++ t ++ [0x22]). split.
    - repeat apply Forall_app_2; [|done|]; (constructor; [unfold scalar; lia|constructor]).
    - by rewrite !encode_all_app. }
  rewrite V. destruct (jrunes_loop body rs (dst ++ [tagString]) Hj) as [Srs ->]. cbn [negb orb snd]. split; [done|].
  unfold AppendString. rewrite D.
  assert (Vd : Valid (encode_all rs) = true) by by apply ValidFuel_complete. by rewrite Vd, appendStringBytes.
Qed.

Lemma json_string_rejects dst direction raw :
  (AppendJSONString dst raw direction).2 = false -> AppendJSONString dst raw direction = (dst, false).
Proof. unfold AppendJSONString. case_match; [done|]. by case_match. Qed.

Lemma json_string_decodes dst direction raw :
  bytes_ok raw -> (AppendJSONString dst raw direction).2 = true -> exists body rs, raw = 0x22 :: body ++ [0x22] /\ jrunes body rs.
Proof.
  intros Hb. unfold AppendJSONString. case_match eqn:G; [done|].
  apply orb_false_iff in G as [G V]. apply negb_false_iff in V. apply orb_false_iff in G as [G G3].
  apply orb_false_iff in G as [G G2]. apply orb_false_iff in G as [_ G1]. apply negb_false_iff in G2, G3.
  assert (Q : raw = 0x22 :: slice raw 1 (length raw - 1) ++ [0x22]) by (apply quoted_guard; by rewrite G1, G2, G3).
  destruct (jsonStringLoop _ _) as [d|] eqn:L; [|done]. intros _.
  exists (slice raw 1 (length raw - 1)). apply Valid_spec in V as (R & SR & ER); [|done].
  destruct (quoted_valid (slice raw 1 (length raw - 1)) R SR) as (R' & SR' & E'); [by rewrite <- ER|]. rewrite E' in L.
  destruct (loop_jrunes R' _ _ SR' L) as (cs & Hcs). exists cs. split; [done|]. by rewrite E'.
Qed.

(** On a complete JSON string [AppendJSONString] appends the component of
    the text the string denotes, escapes and surrogate pairs decoded, so that
    every spelling of a text gets the same key as the decoded text; anything
    that is not a well-formed string leaves the destination unchanged. *)
Theorem AppendJSONString_spec (dst raw : list Z) (direction : Z) :
  bytes_ok raw -> direction <= Descending ->
  (exists body rs, raw = 0x22 :: body ++ [0x22] /\ jrunes body rs /\ (AppendJSONString dst raw direction).2 = true /\
     AppendJSONString dst raw direction = AppendString dst (encode_all rs) direction) \/
  (forall body rs, raw = 0x22 :: body ++ [0x22] -> ~ jrunes body rs) /\ AppendJSONString dst raw direction = (dst, false).
Proof.
  intros Hb Hd. destruct (AppendJSONString dst raw direction).2 eqn:E.
  - left. destruct (json_string_decodes _ _ _ Hb E) as (body & rs & -> & Hj). exists body, rs.
    destruct (json_string_accepts dst direction body rs Hb Hd Hj). done.
  - right. split; [|by apply json_string_rejects]. intros body rs -> Hj.
    destruct (json_string_accepts dst direction body rs Hb Hd Hj). congruence.
Qed.

(** The escaped and the raw spelling of one letter. *)
Lemma AppendJSONString_spec_witness :
  ((exists body rs, [0x22; 0x5c; 0x75; 0x30; 0x30; 0x65; 0x39; 0x22] = 0x22 :: body ++ [0x22] /\ jrunes body rs /\
      (AppendJSONString [1] [0x22; 0x5c; 0x75; 0x30; 0x30; 0x65; 0x39; 0x22] Ascending).2 = true /\
      AppendJSONString [1] [0x22; 0x5c; 0x75; 0x30; 0x30; 0x65; 0x39; 0x22] Ascending = AppendString [1] (encode_all rs) Ascending) \/
   (forall body rs, [0x22; 0x5c; 0x75; 0x30; 0x30; 0x65; 0x39; 0x22] = 0x22 :: body ++ [0x22] -> ~ jrunes body rs) /\
   AppendJSONString [1] [0x22; 0x5c; 0x75; 0x30; 0x30; 0x65; 0x39; 0x22] Ascending = ([1], false)) /\
  AppendJSONString [1] [0x22; 0x5c; 0x75; 0x30; 0x30; 0x65; 0x39; 0x22] Ascending = ([1; 0x40; 0xc3; 0xa9; 0; 0], true).
Proof.
  split; [apply (AppendJSONString_spec [1] [0x22; 0x5c; 0x75; 0x30; 0x30; 0x65; 0x39; 0x22] Ascending); [by repeat constructor|done]|].
  vm_compute. reflexivity.
Defined.
