(* ===== verification/Ttl.v ===== *)
(** * Ttl: the expiry deadline heap

    Models the indexed four-ary heap of store_ttl.go: the packed slot address,
    the instant order, [upsert], [remove], [removeAt] with the sift loops, and
    the loop of [ExpireDue] that collects the due keys.  The heap is proved to
    be a priority queue over a finite map from keys to deadlines.

    A heap index out of range is a panic, [Err tt]; the map [pos] is a gmap.
    The rest of [ExpireDue], which rebuilds the affected chunks, and the timer
    loop are not modelled; whether a slot still holds a document is the
    parameter [live]. *)
From Stdlib Require Import ZArith Lia List Bool.
From stdpp Require Import base numbers list gmap sorting.
From S2P Require Import Prelude Hamt.

Open Scope Z_scope.

(** ** Slot addresses and instants *)

Definition storeTTLKeyOf (loc : storeLocation) : Z := Z.lor (Z.shiftl (chunk loc) 8 mod 2 ^ 64) (slot loc).
Definition location (k : Z) : storeLocation := mkLocation (Z.shiftr k 8 mod 2 ^ 32) (k mod 2 ^ 8).

Record storeInstant := mkInstant { sec : Z; nsec : Z }.

Definition before (i other : storeInstant) : bool :=
  (sec i <? sec other) || (sec i =? sec other) && (nsec i <? nsec other).
Definition after (i other : storeInstant) : bool := before other i.

Record storeTTLItem := mkItem { key : Z; deadline : storeInstant }.

#[global] Instance storeInstant_eq_dec : EqDecision storeInstant.
Proof. solve_decision. Defined.
#[global] Instance storeTTLItem_eq_dec : EqDecision storeTTLItem.
Proof. solve_decision. Defined.

Record storeTTLState := mkTTL { heap : list storeTTLItem; pos : gmap Z nat }.

Notation ttl_res := (res unit).

(** ** Operations *)

Definition item (t : storeTTLState) (i : nat) : ttl_res storeTTLItem :=
  match heap t !! i with Some x => Ok x | None => Err tt end.

Definition setHeap (t : storeTTLState) (i : nat) (x : storeTTLItem) : storeTTLState := mkTTL (<[i := x]> (heap t)) (pos t).
Definition setPos (t : storeTTLState) (k : Z) (i : nat) : storeTTLState := mkTTL (heap t) (<[k := i]> (pos t)).

Definition swap (t : storeTTLState) (a b : nat) : ttl_res storeTTLState :=
  x ← item t a; y ← item t b;
  let t := setHeap (setHeap t a y) b x in
  x' ← item t a; let t := setPos t (key x') a in
  y' ← item t b; Ok (setPos t (key y') b).

Fixpoint up (fuel : nat) (t : storeTTLState) (i : nat) : ttl_res storeTTLState :=
  match fuel with
  | O => OutOfFuel
  | S fuel =>
      if (0 <? i)%nat then
        let parent := Nat.div (i - 1) 4 in
        x ← item t i; y ← item t parent;
        if negb (before (deadline x) (deadline y)) then Ok t
        else t ← swap t parent i; up fuel t parent
      else Ok t
  end.

(** The scan over the children [child, child + n). *)
Fixpoint bestChild (t : storeTTLState) (n child best : nat) : ttl_res nat :=
  match n with
  | O => Ok best
  | S n =>
      x ← item t child; y ← item t best;
      bestChild t n (S child) (if before (deadline x) (deadline y) then child else best)
  end.

Fixpoint down (fuel : nat) (t : storeTTLState) (i : nat) : ttl_res storeTTLState :=
  match fuel with
  | O => OutOfFuel
  | S fuel =>
      let first := (i * 4 + 1)%nat in
      if (length (heap t) <=? first)%nat then Ok t
      else
        let end_ := Nat.min (first + 4) (length (heap t)) in
        best ← bestChild t (end_ - (first + 1)) (first + 1) first;
        x ← item t best; y ← item t i;
        if negb (before (deadline x) (deadline y)) then Ok t
        else t ← swap t i best; down fuel t best
  end.

(** An index halves at least, and stays below the length: both loops end. *)
Definition sift_fuel (t : storeTTLState) : nat := S (length (heap t)).

Definition upsert (t : storeTTLState) (k : Z) (d : storeInstant) : ttl_res storeTTLState :=
  match pos t !! k with
  | Some i =>
      x ← item t i;
      let t := setHeap t i (mkItem (key x) d) in
      if before d (deadline x) then up (sift_fuel t) t i else down (sift_fuel t) t i
  | None =>
      let i := length (heap t) in
      let t := setPos (mkTTL (heap t ++ [mkItem k d]) (pos t)) k i in
      up (sift_fuel t) t i
  end.

Definition removeAt (t : storeTTLState) (i : nat) : ttl_res (storeTTLItem * storeTTLState) :=
  removed ← item t i;
  let last := (length (heap t) - 1)%nat in
  let t := mkTTL (heap t) (delete (key removed) (pos t)) in
  if (i =? last)%nat then Ok (removed, mkTTL (take last (heap t)) (pos t))
  else
    moved ← item t last;
    let t := mkTTL (take last (<[i := moved]> (heap t))) (pos t) in
    x ← item t i;
    let t := setPos t (key x) i in
    above ← (if (0 <? i)%nat then parent ← item t (Nat.div (i - 1) 4); Ok (before (deadline x) (deadline parent)) else Ok false);
    t ← (if above : bool then up (sift_fuel t) t i else down (sift_fuel t) t i);
    Ok (removed, t).

Definition remove (t : storeTTLState) (k : Z) : ttl_res (bool * storeTTLState) :=
  match pos t !! k with
  | None => Ok (false, t)
  | Some i => '(_, t) ← removeAt t i; Ok (true, t)
  end.

Section Expire.
(** [chunk != nil && chunk.live&(1<<slot) != 0] at the key's location. *)
Variable live : storeLocation -> bool.

(** The collecting loop of [ExpireDue]; each turn removes one entry.  The
    scratch entry's key hash, used only by the rebuild, is left out. *)
Fixpoint collectDue (fuel : nat) (now : storeInstant) (limit : Z) (t : storeTTLState) (scratch : list storeLocation)
    : ttl_res (list storeLocation * storeTTLState) :=
  match heap t with
  | [] => Ok (scratch, t)
  | root :: _ =>
      if after (deadline root) now || negb ((limit <=? 0) || (Z.of_nat (length scratch) <? limit)) then Ok (scratch, t)
      else
        match fuel with
        | O => OutOfFuel
        | S fuel =>
            '(entry, t) ← removeAt t 0;
            let loc := location (key entry) in
            if negb (live loc) then collectDue fuel now limit t scratch
            else collectDue fuel now limit t (scratch ++ [loc])
        end
  end.

Definition collect (now : storeInstant) (limit : Z) (t : storeTTLState) : ttl_res (list storeLocation * storeTTLState) :=
  collectDue (length (heap t)) now limit t [].
End Expire.

Example ttl_ex :
  (t ← upsert (mkTTL [] ∅) 1 (mkInstant 9 0); t ← upsert t 2 (mkInstant 3 5); t ← upsert t 3 (mkInstant 3 4);
   t ← upsert t 1 (mkInstant 1 0); '(b, t) ← remove t 2; '(due, t) ← collect (fun _ => true) (mkInstant 3 4) 0 t;
   Ok (b, due, heap t)) = Ok (true, [location 1; location 3], []).
Proof. vm_compute. reflexivity. Qed.

(** ** Addresses and order *)

Definition location_ok (loc : storeLocation) : Prop := 0 <= chunk loc < 2 ^ 32 /\ 0 <= slot loc < 2 ^ 8.

Lemma location_roundtrip loc : location_ok loc -> location (storeTTLKeyOf loc) = loc.
Proof.
  destruct loc as [c s]. unfold location_ok, location, storeTTLKeyOf. cbn. intros [Hc Hs].
  rewrite Z.shiftl_mul_pow2 by lia. rewrite (Z.mod_small (c * 2 ^ 8)) by lia.
  assert (E : Z.lor (c * 2 ^ 8) s = c * 2 ^ 8 + s).
  { symmetry. rewrite Z.add_nocarry_lxor, Z.lxor_lor; [done|..]; apply Z.bits_inj'; intros i Hi;
      rewrite Z.land_spec, Z.bits_0, <- (Z.mod_small s (2 ^ 8)) by lia; destruct (Z.ltb_spec i 8);
      [rewrite Z.mul_pow2_bits_low by lia; done|rewrite Z.mod_pow2_bits_high by lia; apply andb_false_r
      |rewrite Z.mul_pow2_bits_low by lia; done|rewrite Z.mod_pow2_bits_high by lia; apply andb_false_r]. }
  rewrite E, Z.shiftr_div_pow2 by lia. f_equal; dlia.
Qed.

(** [ile a b]: [b] is not before [a]. *)
Definition ile (a b : storeInstant) : Prop := before b a = false.

Lemma ile_refl a : ile a a.
Proof. unfold ile, before. lia. Qed.
Lemma ile_trans a b c : ile a b -> ile b c -> ile a c.
Proof. unfold ile, before. lia. Qed.
Lemma before_ile a b : before a b = true -> ile a b.
Proof. unfold ile, before. lia. Qed.
Lemma not_before_ile a b : before a b = false -> ile b a.
Proof. done. Qed.

#[local] Hint Resolve ile_refl before_ile : core.

(** ** The array as a tree *)

Definition parent (i : nat) : nat := Nat.div (i - 1) 4.

Lemma parent_lt i : (0 < i)%nat -> (parent i < i)%nat.
Proof. intros. unfold parent. apply Nat.Div0.div_lt_upper_bound; lia. Qed.

Lemma parent_iff j i : (0 < j)%nat -> parent j = i <-> (4 * i + 1 <= j <= 4 * i + 4)%nat.
Proof.
  intros H. unfold parent. pose proof (Nat.div_mod (j - 1) 4). pose proof (Nat.mod_upper_bound (j - 1) 4). lia.
Qed.

(** Deadline at an index. *)
Definition dl (h : list storeTTLItem) (i : nat) : storeInstant := deadline (default (mkItem 0 (mkInstant 0 0)) (h !! i)).

Definition edge (h : list storeTTLItem) (j : nat) : Prop := ile (dl h (parent j)) (dl h j).
Definition ordered (h : list storeTTLItem) : Prop := forall j, (0 < j < length h)%nat -> edge h j.

(** Every edge but the one above [i] holds, and [i]'s parent is not after its
    children: what [up] starts from. *)
Definition up_ready (h : list storeTTLItem) (i : nat) : Prop :=
  (forall j, (0 < j < length h)%nat -> j <> i -> edge h j) /\
  (forall j, (0 < j < length h)%nat -> parent j = i -> (0 < i)%nat -> ile (dl h (parent i)) (dl h j)).

(** Every edge but those below [i], likewise: what [down] starts from. *)
Definition down_ready (h : list storeTTLItem) (i : nat) : Prop :=
  (forall j, (0 < j < length h)%nat -> parent j <> i -> edge h j) /\
  (forall j, (0 < j < length h)%nat -> parent j = i -> (0 < i)%nat -> ile (dl h (parent i)) (dl h j)).

Definition swapped (h : list storeTTLItem) (a b : nat) (x y : storeTTLItem) : list storeTTLItem := <[b := x]> (<[a := y]> h).

Lemma dl_swapped h a b x y j :
  h !! a = Some x -> h !! b = Some y -> a <> b ->
  dl (swapped h a b x y) j = if decide (j = b) then dl h a else if decide (j = a) then dl h b else dl h j.
Proof.
  intros Ha Hb N. unfold dl, swapped. pose proof (lookup_lt_Some _ _ _ Ha). pose proof (lookup_lt_Some _ _ _ Hb).
  destruct (decide (j = b)) as [->|]; [rewrite list_lookup_insert_eq by (rewrite length_insert; lia); by rewrite Ha|].
  rewrite list_lookup_insert_ne by done. destruct (decide (j = a)) as [->|]; [by rewrite list_lookup_insert_eq, Hb by lia|].
  by rewrite list_lookup_insert_ne.
Qed.

Lemma insert_perm (l : list storeTTLItem) i x y : l !! i = Some y -> y :: <[i := x]> l ≡ₚ x :: l.
Proof.
  intros H. pose proof (lookup_lt_Some _ _ _ H). rewrite insert_take_drop by done.
  rewrite <- (take_drop_middle l i y H) at 3. solve_Permutation.
Qed.

Lemma swapped_perm h a b x y : h !! a = Some x -> h !! b = Some y -> a <> b -> swapped h a b x y ≡ₚ h.
Proof.
  intros Ha Hb N. unfold swapped. pose proof (lookup_lt_Some _ _ _ Ha) as La.
  rewrite <- (take_drop_middle h a x Ha). set (p := take a h). set (s := drop (S a) h).
  assert (Lp : length p = a) by (unfold p; rewrite length_take; lia).
  assert (E1 : <[a := y]> (p ++ x :: s) = p ++ y :: s) by (rewrite <- Lp; rewrite insert_app_r_alt, Nat.sub_diag by lia; done).
  rewrite E1. destruct (decide (b < a)%nat) as [L|L].
  - assert (Eb : p !! b = Some y) by (unfold p; by rewrite lookup_take_lt). rewrite insert_app_l by lia.
    rewrite <- !Permutation_middle. change (y :: <[b := x]> p ++ s) with ((y :: <[b := x]> p) ++ s).
    rewrite (insert_perm p b x y Eb). done.
  - assert (Eb : s !! (b - S a)%nat = Some y).
    { unfold s. rewrite lookup_drop. rewrite <- Hb. f_equal. lia. }
    rewrite insert_app_r_alt by lia. replace (b - length p)%nat with (S (b - S a)) by lia. cbn [insert list_insert].
    apply Permutation_app_head. by apply insert_perm.
Qed.

Lemma up_step h i x y :
  up_ready h i -> (0 < i < length h)%nat -> h !! parent i = Some x -> h !! i = Some y -> before (dl h i) (dl h (parent i)) = true ->
  up_ready (swapped h (parent i) i x y) (parent i).
Proof.
  intros [E G] Hi Hx Hy B. pose proof (parent_lt i ltac:(lia)) as Lp. set (h' := swapped h (parent i) i x y).
  assert (D : forall j, dl h' j = if decide (j = i) then dl h (parent i) else if decide (j = parent i) then dl h i else dl h j)
    by (intros; apply dl_swapped; [done..|lia]).
  assert (Ln : length h' = length h) by (unfold h', swapped; by rewrite !length_insert).
  split; rewrite Ln.
  - intros j Hj Nj. unfold edge. rewrite !D. pose proof (parent_lt j ltac:(lia)).
    destruct (decide (j = i)) as [->|Nji].
    + destruct (decide (parent i = i)); [lia|]. destruct (decide (parent i = parent i)); [|done]. by apply before_ile.
    + destruct (decide (parent j = i)) as [Pj|Pj]; [destruct (decide (j = parent i)); [done|]; apply G; [done|done|lia]|].
      destruct (decide (j = parent i)); [done|]. destruct (decide (parent j = parent i)) as [Q|Q].
      * pose proof (E j Hj Nji) as Ej. unfold edge in Ej. rewrite Q in Ej. eapply ile_trans; [by apply before_ile|done].
      * by apply E.
  - intros j Hj Pj Pp. rewrite !D. pose proof (parent_lt j ltac:(lia)). pose proof (parent_lt (parent i) ltac:(lia)).
    destruct (decide (parent (parent i) = i)); [lia|]. destruct (decide (parent (parent i) = parent i)); [lia|].
    assert (E0 : ile (dl h (parent (parent i))) (dl h (parent i))) by (apply E; lia).
    destruct (decide (j = i)) as [->|Nji]; [done|]. destruct (decide (j = parent i)); [lia|].
    eapply ile_trans; [exact E0|]. rewrite <- Pj. by apply E.
Qed.

Lemma down_step h i b x y :
  down_ready h i -> (0 < b < length h)%nat -> parent b = i -> h !! i = Some x -> h !! b = Some y ->
  (forall j, (0 < j < length h)%nat -> parent j = i -> ile (dl h b) (dl h j)) -> before (dl h b) (dl h i) = true ->
  down_ready (swapped h i b x y) b.
Proof.
  intros [E G] Hb Pb Hx Hy M B. pose proof (parent_lt b ltac:(lia)) as Lp. rewrite Pb in Lp. set (h' := swapped h i b x y).
  assert (D : forall j, dl h' j = if decide (j = b) then dl h i else if decide (j = i) then dl h b else dl h j)
    by (intros; apply dl_swapped; [done..|lia]).
  assert (Ln : length h' = length h) by (unfold h', swapped; by rewrite !length_insert).
  split; rewrite Ln.
  - intros j Hj Nj. unfold edge. rewrite !D. pose proof (parent_lt j ltac:(lia)).
    destruct (decide (parent j = b)); [done|]. destruct (decide (parent j = i)) as [Pj|Pj].
    + destruct (decide (j = b)); [by apply before_ile|]. destruct (decide (j = i)); [lia|]. by apply M.
    + destruct (decide (j = b)) as [->|]; [done|]. destruct (decide (j = i)) as [->|]; [apply G; [lia|done|lia]|by apply E].
  - intros j Hj Pj Pp. rewrite !D, Pb. pose proof (parent_lt j ltac:(lia)).
    destruct (decide (i = b)); [lia|]. destruct (decide (i = i)); [|done]. destruct (decide (j = b)); [lia|].
    destruct (decide (j = i)); [lia|]. rewrite <- Pj. apply E; [done|lia].
Qed.

Lemma up_done h i : up_ready h i -> (i = 0%nat \/ edge h i) -> ordered h.
Proof. intros [E _] H j Hj. destruct (decide (j = i)) as [->|]; [destruct H; [lia|done]|by apply E]. Qed.

Lemma down_done h i : down_ready h i -> (forall j, (0 < j < length h)%nat -> parent j = i -> edge h j) -> ordered h.
Proof. intros [E _] H j Hj. destruct (decide (parent j = i)); [by apply H|by apply E]. Qed.

(** ** The index *)

Definition pos_ok (t : storeTTLState) : Prop := forall k i, pos t !! k = Some i <-> exists d, heap t !! i = Some (mkItem k d).

Lemma item_eta x : mkItem (key x) (deadline x) = x.
Proof. by destruct x. Qed.

Lemma pos_ok_at t i x : pos_ok t -> heap t !! i = Some x -> pos t !! key x = Some i.
Proof. intros P H. apply P. exists (deadline x). by rewrite item_eta. Qed.

Lemma pos_ok_inj t i j x y : pos_ok t -> heap t !! i = Some x -> heap t !! j = Some y -> key x = key y -> i = j.
Proof. intros P Hi Hj E. apply (pos_ok_at _ _ _ P) in Hi, Hj. rewrite E in Hi. congruence. Qed.

Lemma item_Ok t i x : heap t !! i = Some x -> item t i = Ok x.
Proof. unfold item. by intros ->. Qed.

Lemma swap_spec t a b :
  pos_ok t -> (a < length (heap t))%nat -> (b < length (heap t))%nat -> a <> b ->
  exists x y t', heap t !! a = Some x /\ heap t !! b = Some y /\ swap t a b = Ok t' /\
    heap t' = swapped (heap t) a b x y /\ pos_ok t'.
Proof.
  intros P La Lb N. destruct (lookup_lt_is_Some_2 _ _ La) as [x Hx]. destruct (lookup_lt_is_Some_2 _ _ Lb) as [y Hy].
  assert (Nk : key x <> key y) by (intros E; apply N; by eapply pos_ok_inj).
  exists x, y. unfold swap. rewrite (item_Ok _ _ _ Hx), bind_Ok, (item_Ok _ _ _ Hy), bind_Ok.
  set (h' := swapped (heap t) a b x y). assert (Ha : h' !! a = Some y).
  { unfold h', swapped. by rewrite list_lookup_insert_ne, list_lookup_insert_eq. }
  assert (Hb : h' !! b = Some x) by (unfold h', swapped; by rewrite list_lookup_insert_eq by by rewrite length_insert).
  assert (Hj : forall j, j <> a -> j <> b -> h' !! j = heap t !! j) by (intros; unfold h', swapped; by rewrite !list_lookup_insert_ne).
  cbv zeta. rewrite (item_Ok (setHeap (setHeap t a y) b x) a y Ha), bind_Ok.
  rewrite (item_Ok (setPos (setHeap (setHeap t a y) b x) (key y) a) b x Hb), bind_Ok. eexists. split_and!; [done..|].
  intros k i. cbn [pos heap setPos setHeap]. fold (swapped (heap t) a b x y). fold h'.
  destruct (decide (k = key x)) as [->|Kx]; [rewrite lookup_insert_eq; split|].
  - intros [= <-]. exists (deadline x). by rewrite item_eta.
  - intros [d Hd]. destruct (decide (i = a)) as [->|]; [rewrite Ha in Hd; by injection Hd as ->|].
    destruct (decide (i = b)) as [->|]; [done|]. rewrite Hj in Hd by done. by rewrite (pos_ok_inj _ _ _ _ _ P Hd Hx eq_refl) in *.
  - rewrite lookup_insert_ne by done. destruct (decide (k = key y)) as [->|Ky]; [rewrite lookup_insert_eq; split|].
    + intros [= <-]. exists (deadline y). by rewrite item_eta.
    + intros [d Hd]. destruct (decide (i = a)) as [->|]; [done|].
      destruct (decide (i = b)) as [->|]; [rewrite Hb in Hd; by injection Hd as ->|].
      rewrite Hj in Hd by done. by rewrite (pos_ok_inj _ _ _ _ _ P Hd Hy eq_refl) in *.
    + rewrite lookup_insert_ne, (P k i) by done. destruct (decide (i = a)) as [->|].
      { rewrite Ha, Hx. split; intros [d [= ->]]; done. }
      destruct (decide (i = b)) as [->|]; [rewrite Hb, Hy; split; intros [d [= ->]]; done|]. by rewrite Hj.
Qed.

Lemma dl_lookup h i x : h !! i = Some x -> dl h i = deadline x.
Proof. unfold dl. by intros ->. Qed.

Definition sifted (t t' : storeTTLState) : Prop := pos_ok t' /\ ordered (heap t') /\ heap t' ≡ₚ heap t.

Lemma up_spec fuel t i :
  pos_ok t -> (i < length (heap t))%nat -> up_ready (heap t) i -> (i < fuel)%nat -> exists t', up fuel t i = Ok t' /\ sifted t t'.
Proof.
  revert t i. induction fuel as [|fuel IH]; intros t i P L R F; [lia|]. cbn [up]. fold (parent i).
  destruct (Nat.ltb_spec 0 i) as [Hi|Hi].
  2: { exists t. split; [done|]. split_and!; [done| |done]. apply (up_done _ i); [done|left; lia]. }
  pose proof (parent_lt i Hi) as Lp. destruct (swap_spec t (parent i) i P) as (x & y & t1 & Hx & Hy & Hs & Hh & P1); [lia..|].
  rewrite (item_Ok _ _ _ Hy), bind_Ok, (item_Ok _ _ _ Hx), bind_Ok.
  rewrite <- (dl_lookup _ _ _ Hx), <- (dl_lookup _ _ _ Hy). destruct (before (dl (heap t) i) (dl (heap t) (parent i))) eqn:B; cbn [negb].
  - rewrite Hs, bind_Ok. destruct (IH t1 (parent i) P1) as (t' & -> & Pt & Ot & Et).
    + rewrite Hh. unfold swapped. rewrite !length_insert. lia.
    + rewrite Hh. by apply up_step.
    + lia.
    + exists t'. split; [done|]. split_and!; [done..|]. rewrite Et, Hh. apply swapped_perm; [done..|lia].
  - exists t. split; [done|]. split_and!; [done| |done]. apply (up_done _ i); [done|by right].
Qed.

Lemma bestChild_spec t n child best :
  (child + n <= length (heap t))%nat -> (best < length (heap t))%nat ->
  exists b, bestChild t n child best = Ok b /\ (b = best \/ (child <= b < child + n)%nat) /\
    ile (dl (heap t) b) (dl (heap t) best) /\ forall j, (child <= j < child + n)%nat -> ile (dl (heap t) b) (dl (heap t) j).
Proof.
  revert child best. induction n as [|n IH]; intros child best L Lb; cbn [bestChild].
  { exists best. split_and!; [done|by left|done|lia]. }
  destruct (lookup_lt_is_Some_2 (heap t) child) as [x Hx]; [lia|]. destruct (lookup_lt_is_Some_2 (heap t) best) as [y Hy]; [lia|].
  rewrite (item_Ok _ _ _ Hx), bind_Ok, (item_Ok _ _ _ Hy), bind_Ok. rewrite <- (dl_lookup _ _ _ Hx), <- (dl_lookup _ _ _ Hy).
  destruct (before (dl (heap t) child) (dl (heap t) best)) eqn:B.
  - destruct (IH (S child) child) as (b & -> & Hb & Mb & Mj); [lia..|]. exists b. split_and!; [done|right; lia| |].
    + eapply ile_trans; [done|by apply before_ile].
    + intros j Hj. destruct (decide (j = child)) as [->|]; [done|apply Mj; lia].
  - destruct (IH (S child) best) as (b & -> & Hb & Mb & Mj); [lia..|]. exists b. split_and!; [done| |done|].
    + destruct Hb; [by left|right; lia].
    + intros j Hj. destruct (decide (j = child)) as [->|]; [by eapply ile_trans; [|apply not_before_ile]|apply Mj; lia].
Qed.

Lemma down_spec fuel t i :
  pos_ok t -> (i < length (heap t))%nat -> down_ready (heap t) i -> (length (heap t) - i < fuel)%nat ->
  exists t', down fuel t i = Ok t' /\ sifted t t'.
Proof.
  revert t i. induction fuel as [|fuel IH]; intros t i P L R F; [lia|]. cbn [down].
  destruct (Nat.leb_spec (length (heap t)) (i * 4 + 1)) as [Hl|Hl].
  { exists t. split; [done|]. split_and!; [done| |done]. apply (down_done _ i); [done|]. intros j Hj Pj. apply parent_iff in Pj; lia. }
  cbv zeta. set (n := (Nat.min (i * 4 + 1 + 4) (length (heap t)) - (i * 4 + 1 + 1))%nat).
  destruct (bestChild_spec t n (i * 4 + 1 + 1) (i * 4 + 1)) as (b & -> & Hb & Mf & Mj); [lia..|]. rewrite bind_Ok.
  assert (M : forall j, (0 < j < length (heap t))%nat -> parent j = i -> ile (dl (heap t) b) (dl (heap t) j)).
  { intros j Hj Pj. apply parent_iff in Pj; [|lia]. destruct (decide (j = (i * 4 + 1)%nat)) as [->|]; [done|]. apply Mj. lia. }
  assert (Pb : parent b = i) by (apply parent_iff; lia).
  destruct (swap_spec t i b P) as (x & y & t1 & Hx & Hy & Hs & Hh & P1); [lia..|].
  rewrite (item_Ok _ _ _ Hy), bind_Ok, (item_Ok _ _ _ Hx), bind_Ok. rewrite <- (dl_lookup _ _ _ Hx), <- (dl_lookup _ _ _ Hy).
  destruct (before (dl (heap t) b) (dl (heap t) i)) eqn:B; cbn [negb].
  - rewrite Hs, bind_Ok. assert (Ln : length (heap t1) = length (heap t)) by (rewrite Hh; unfold swapped; by rewrite !length_insert).
    destruct (IH t1 b P1) as (t' & -> & Pt & Ot & Et); [lia| |lia|].
    + rewrite Hh. apply down_step; [done|lia|done..].
    + exists t'. split; [done|]. split_and!; [done..|]. rewrite Et, Hh. apply swapped_perm; [done..|lia].
  - exists t. split; [done|]. split_and!; [done| |done]. apply (down_done _ i); [done|]. intros j Hj Pj. unfold edge. rewrite Pj.
    eapply ile_trans; [apply not_before_ile, B|by apply M].
Qed.

(** ** The priority queue *)

Definition ttl_ok (t : storeTTLState) : Prop := pos_ok t /\ ordered (heap t).

(** The deadline recorded for a key, as [Deadline] reads it. *)
Definition lookupTTL (t : storeTTLState) (k : Z) : option storeInstant :=
  i ← pos t !! k; x ← heap t !! i; Some (deadline x).

Lemma lookupTTL_iff t k d : pos_ok t -> lookupTTL t k = Some d <-> mkItem k d ∈ heap t.
Proof.
  intros P. unfold lookupTTL. rewrite list_elem_of_lookup. split.
  - destruct (pos t !! k) as [i|] eqn:E; [|done]. apply P in E as [d' E]. cbn. rewrite E. intros [= <-]. by exists i.
  - intros [i H]. rewrite (proj2 (P k i)) by by exists d. cbn. by rewrite H.
Qed.

Lemma lookupTTL_perm t t' k : pos_ok t -> pos_ok t' -> heap t' ≡ₚ heap t -> lookupTTL t' k = lookupTTL t k.
Proof. intros P P' E. apply option_eq. intros d. by rewrite !lookupTTL_iff, E. Qed.

Lemma dl_insert h i x j : (i < length h)%nat -> dl (<[i := x]> h) j = if decide (j = i) then deadline x else dl h j.
Proof.
  intros L. unfold dl. destruct (decide (j = i)) as [->|]; [by rewrite list_lookup_insert_eq|by rewrite list_lookup_insert_ne].
Qed.

Lemma dl_take h n j : (j < n)%nat -> dl (take n h) j = dl h j.
Proof. intros. unfold dl. by rewrite lookup_take_lt. Qed.

(** Replacing the deadline at [i] breaks at most the edges around [i]. *)
Section Replace.
Variables (h h' : list storeTTLItem) (i : nat) (d : storeInstant).
Hypothesis O : ordered h.
Hypothesis L : (length h' <= length h)%nat.
Hypothesis Li : (i < length h')%nat.
Hypothesis D : forall j, (j < length h')%nat -> dl h' j = if decide (j = i) then d else dl h j.

Lemma replaced_below j : (0 < j < length h')%nat -> parent j = i -> (0 < i)%nat -> ile (dl h' (parent i)) (dl h' j).
Proof.
  intros Hj Pj Hi. pose proof (parent_lt j ltac:(lia)). pose proof (parent_lt i ltac:(lia)). rewrite !D by lia.
  destruct (decide (parent i = i)); [lia|]. destruct (decide (j = i)); [lia|].
  eapply ile_trans; [apply O; lia|]. rewrite <- Pj. apply O. lia.
Qed.

Lemma replaced_other j : (0 < j < length h')%nat -> j <> i -> parent j <> i -> edge h' j.
Proof.
  intros Hj N1 N2. pose proof (parent_lt j ltac:(lia)). unfold edge. rewrite !D by lia.
  destruct (decide (parent j = i)); [done|]. destruct (decide (j = i)); [done|]. apply O. lia.
Qed.

Lemma replaced_up : (forall j, (0 < j < length h')%nat -> parent j = i -> ile d (dl h j)) -> up_ready h' i.
Proof.
  intros H. split; [|apply replaced_below]. intros j Hj Nj. destruct (decide (parent j = i)) as [Pj|Pj]; [|by apply replaced_other].
  unfold edge. pose proof (parent_lt j ltac:(lia)). rewrite Pj, !D by lia. destruct (decide (i = i)); [|done].
  destruct (decide (j = i)); [done|]. by apply H.
Qed.

Lemma replaced_down : ((0 < i)%nat -> ile (dl h (parent i)) d) -> down_ready h' i.
Proof.
  intros H. split; [|apply replaced_below]. intros j Hj Pj. destruct (decide (j = i)) as [->|Nj]; [|by apply replaced_other].
  unfold edge. pose proof (parent_lt i ltac:(lia)). rewrite !D by lia. destruct (decide (parent i = i)); [done|].
  destruct (decide (i = i)); [|done]. apply H. lia.
Qed.
End Replace.

Definition binds (t t' : storeTTLState) (k : Z) (d : storeInstant) : Prop :=
  ttl_ok t' /\ forall k', lookupTTL t' k' = if decide (k' = k) then Some d else lookupTTL t k'.

Lemma upsert_present t k d i : ttl_ok t -> pos t !! k = Some i -> exists t', upsert t k d = Ok t' /\ binds t t' k d.
Proof.
  intros [P O] E. unfold upsert. rewrite E.
  apply P in E as [old E]. pose proof (lookup_lt_Some _ _ _ E) as Li. rewrite (item_Ok _ _ _ E), bind_Ok. cbn [key deadline].
  cbv zeta. set (t1 := setHeap t i (mkItem k d)).
  assert (P1 : pos_ok t1).
  { intros k' j. cbn. rewrite (P k' j). destruct (decide (j = i)) as [->|].
    - rewrite list_lookup_insert_eq, E by done. split; intros [x [= -> _]]; by eexists.
    - by rewrite list_lookup_insert_ne. }
  assert (Ln : length (heap t1) = length (heap t)) by (cbn; by rewrite length_insert).
  assert (D : forall j, (j < length (heap t1))%nat -> dl (heap t1) j = if decide (j = i) then d else dl (heap t) j)
    by (intros; by apply dl_insert).
  assert (S : exists t', (if before d old then up (sift_fuel t1) t1 i else down (sift_fuel t1) t1 i) = Ok t' /\ sifted t1 t').
  { unfold sift_fuel. destruct (before d old) eqn:B.
    - apply up_spec; [done|lia| |lia]. apply (replaced_up (heap t) _ _ d); [done|lia..|done|]. intros j Hj Pj.
      eapply ile_trans; [apply before_ile, B|]. rewrite <- (dl_lookup (heap t) i _ E : dl (heap t) i = old). rewrite <- Pj. apply O. lia.
    - apply down_spec; [done|lia| |lia]. apply (replaced_down (heap t) _ _ d); [done|lia..|done|]. intros Hi.
      eapply ile_trans; [apply O; lia|]. by rewrite (dl_lookup (heap t) i _ E). }
  destruct S as (t' & -> & P' & O' & E'). exists t'. split; [done|]. split; [done|]. intros k'.
  rewrite (lookupTTL_perm t1 t') by done. unfold lookupTTL. cbn [t1 setHeap pos heap].
  destruct (decide (k' = k)) as [->|Nk].
  + rewrite (pos_ok_at t i _ P E : pos t !! k = Some i). cbn. by rewrite list_lookup_insert_eq.
  + destruct (pos t !! k') as [j|] eqn:Ej; [|done]. cbn. rewrite list_lookup_insert_ne; [done|]. intros ->.
    apply P in Ej as [d' Ej]. congruence.
Qed.

Lemma upsert_absent t k d : ttl_ok t -> pos t !! k = None -> exists t', upsert t k d = Ok t' /\ binds t t' k d.
Proof.
  intros [P O] E. unfold upsert. rewrite E.
  cbv zeta. set (t1 := setPos _ _ _).
  assert (Hh : heap t1 = heap t ++ [mkItem k d]) by done.
  assert (Fresh : forall j d', heap t !! j <> Some (mkItem k d')) by (intros j d' H; apply (pos_ok_at _ _ _ P) in H; cbn in H; congruence).
  assert (P1 : pos_ok t1).
  { intros k' j. cbn [pos heap t1 setPos]. destruct (decide (k' = k)) as [->|Nk].
    - rewrite lookup_insert_eq. split.
      + intros [= <-]. exists d. by rewrite list_lookup_middle.
      + intros [d' Hd]. apply lookup_app_Some in Hd as [Hd|[Lj Hd]]; [by apply Fresh in Hd|].
        f_equal. destruct (j - length (heap t))%nat eqn:Ej; [lia|done].
    - rewrite lookup_insert_ne, (P k' j) by done. split; intros [d' Hd]; exists d'.
      + apply lookup_app_Some. by left.
      + apply lookup_app_Some in Hd as [Hd|[Lj Hd]]; [done|]. destruct (j - length (heap t))%nat; [by injection Hd as -> _|done]. }
  assert (D : forall j, (j < length (heap t))%nat -> dl (heap t1) j = dl (heap t) j) by (intros; unfold dl; rewrite Hh, lookup_app_l; done).
  assert (Ln : length (heap t1) = S (length (heap t))) by (rewrite Hh, length_app; cbn; lia).
  destruct (up_spec (sift_fuel t1) t1 (length (heap t))) as (t' & -> & P' & O' & E'); [done|lia| |unfold sift_fuel; lia|].
  { split.
    - intros j Hj Nj. unfold edge. pose proof (parent_lt j ltac:(lia)). rewrite !D by lia. apply O. lia.
    - intros j Hj Pj _. pose proof (parent_lt j ltac:(lia)). lia. }
  exists t'. split; [done|]. split; [done|]. intros k'. rewrite (lookupTTL_perm t1 t') by done. apply option_eq. intros d'.
  rewrite lookupTTL_iff by done. rewrite Hh, elem_of_app, list_elem_of_singleton. destruct (decide (k' = k)) as [->|Nk].
  + split; [|intros [= <-]; by right]. intros [Hin|[= ->]]; [|done]. apply list_elem_of_lookup in Hin as [j Hj]. by apply Fresh in Hj.
  + rewrite lookupTTL_iff by done. split; [|by left]. by intros [|[= -> _]].
Qed.

Lemma upsert_spec t k d : ttl_ok t -> exists t', upsert t k d = Ok t' /\ binds t t' k d.
Proof. intros H. destruct (pos t !! k) as [i|] eqn:E; [by apply (upsert_present t k d i)|by apply upsert_absent]. Qed.


(** ** Removal *)

(** What is left after taking [x] out. *)
Definition taken (t t' : storeTTLState) (x : storeTTLItem) : Prop := ttl_ok t' /\ heap t ≡ₚ x :: heap t'.

Lemma removeAt_last t i x :
  ttl_ok t -> heap t !! i = Some x -> i = (length (heap t) - 1)%nat ->
  exists t', removeAt t i = Ok (x, t') /\ taken t t' x.
Proof.
  intros [P O] E Hl. pose proof (lookup_lt_Some _ _ _ E) as Li. unfold removeAt. rewrite (item_Ok _ _ _ E), bind_Ok. cbv zeta.
  rewrite (proj2 (Nat.eqb_eq i (length (heap t) - 1)) Hl), <- Hl. cbn [heap pos]. eexists. split; [done|].
  assert (Perm : heap t = take i (heap t) ++ [x]).
  { rewrite <- (take_drop_middle _ _ _ E) at 1. by rewrite drop_ge by lia. }
  split; [split|].
  - intros k j. cbn. rewrite lookup_delete_Some, (P k j). split.
    + intros [Nk [d Hd]]. exists d. rewrite lookup_take_lt; [done|]. pose proof (lookup_lt_Some _ _ _ Hd).
      destruct (decide (j = i)) as [->|]; [|lia]. rewrite E in Hd. by injection Hd as ->.
    + intros [d Hd]. apply lookup_take_Some in Hd as [Hd Lj]. split; [|by exists d]. intros Ek.
      pose proof (pos_ok_inj _ _ _ _ _ P E Hd Ek). lia.
  - intros j Hj. cbn [heap] in *. rewrite length_take in Hj. pose proof (parent_lt j ltac:(lia)). unfold edge.
    rewrite !dl_take by lia. apply O. lia.
  - cbn [heap]. rewrite Perm at 1. solve_Permutation.
Qed.

(** The last item moved into the hole at [i]. *)
Lemma removeAt_moved t i x y :
  ttl_ok t -> heap t !! i = Some x -> (i < length (heap t) - 1)%nat -> heap t !! (length (heap t) - 1)%nat = Some y ->
  let t1 := mkTTL (take (length (heap t) - 1) (<[i := y]> (heap t))) (<[key y := i]> (delete (key x) (pos t))) in
  pos_ok t1 /\ heap t ≡ₚ x :: heap t1 /\ length (heap t1) = (length (heap t) - 1)%nat /\
  (forall j, (j < length (heap t1))%nat -> dl (heap t1) j = if decide (j = i) then deadline y else dl (heap t) j).
Proof.
  intros [P O] E Hl Ey. cbn zeta. set (n := (length (heap t) - 1)%nat) in *. cbn [heap].
  assert (Ln : length (take n (<[i := y]> (heap t))) = n) by (rewrite length_take, length_insert; lia).
  assert (Nk : key x <> key y) by (intros Ek; pose proof (pos_ok_inj _ _ _ _ _ P E Ey Ek); lia).
  split_and!; [| |done|].
  - intros k j. cbn. destruct (decide (k = key y)) as [->|Nky].
    + rewrite lookup_insert_eq. split.
      * intros [= <-]. exists (deadline y). by rewrite lookup_take_lt, list_lookup_insert_eq, item_eta by lia.
      * intros [d Hd]. apply lookup_take_Some in Hd as [Hd Lj]. destruct (decide (j = i)) as [->|]; [done|].
        rewrite list_lookup_insert_ne in Hd by done. pose proof (pos_ok_inj _ _ _ _ _ P Hd Ey eq_refl). lia.
    + rewrite lookup_insert_ne, lookup_delete_Some, (P k j) by done. split.
      * intros [Nkx [d Hd]]. exists d. pose proof (lookup_lt_Some _ _ _ Hd). assert (j <> i) by (intros ->; rewrite E in Hd; by injection Hd as ->).
        rewrite lookup_take_lt, list_lookup_insert_ne by (done || (assert (j <> n) by (intros ->; rewrite Ey in Hd; by injection Hd as ->); lia)). done.
      * intros [d Hd]. apply lookup_take_Some in Hd as [Hd Lj]. destruct (decide (j = i)) as [->|].
        -- rewrite list_lookup_insert_eq in Hd by lia. by injection Hd as ->.
        -- rewrite list_lookup_insert_ne in Hd by done. split; [|by exists d]. intros <-. by pose proof (pos_ok_inj _ _ _ _ _ P E Hd eq_refl).
  - assert (Hlast : heap t = take n (heap t) ++ [y]).
    { rewrite <- (take_drop_middle _ _ _ Ey) at 1. by rewrite drop_ge by lia. }
    rewrite take_insert_lt by lia. assert (Ei : take n (heap t) !! i = Some x) by (rewrite lookup_take_lt by lia; done).
    rewrite (insert_perm _ i y x Ei). rewrite Hlast at 1. solve_Permutation.
  - intros j Hj. rewrite Ln in Hj. rewrite dl_take by lia. apply dl_insert. lia.
Qed.

Lemma removeAt_inner t i x :
  ttl_ok t -> heap t !! i = Some x -> (i < length (heap t) - 1)%nat -> exists t', removeAt t i = Ok (x, t') /\ taken t t' x.
Proof.
  intros H E Hl. destruct (lookup_lt_is_Some_2 (heap t) (length (heap t) - 1)) as [y Ey]; [lia|].
  destruct (removeAt_moved t i x y H E Hl Ey) as (P1 & Perm & Ln & D). destruct H as [P O].
  unfold removeAt. rewrite (item_Ok _ _ _ E), bind_Ok. cbv zeta.
  rewrite (proj2 (Nat.eqb_neq i (length (heap t) - 1))) by lia. cbn [heap pos].
  rewrite (item_Ok (mkTTL (heap t) _) _ y Ey), bind_Ok. cbv zeta. cbn [heap pos].
  set (n := (length (heap t) - 1)%nat) in *. set (h1 := take n (<[i := y]> (heap t))) in *.
  assert (Hi : h1 !! i = Some y) by (unfold h1; by rewrite lookup_take_lt, list_lookup_insert_eq by lia).
  rewrite (item_Ok (mkTTL h1 _) i y Hi), bind_Ok. cbv zeta. set (t1 := mkTTL h1 _) in P1, Perm, Ln, D.
  change (setPos (mkTTL h1 (delete (key x) (pos t))) (key y) i) with t1.
  assert (Below : forall j, (0 < j < length (heap t1))%nat -> parent j = i -> ile (dl (heap t) i) (dl (heap t) j))
    by (intros j Hj <-; apply O; lia).
  assert (Up : (0 < i)%nat -> ile (dl (heap t) (parent i)) (dl (heap t) i)) by (intros; apply O; lia).
  assert (S : exists b t', (if (0 <? i)%nat then parent ← item t1 (Nat.div (i - 1) 4); Ok (before (deadline y) (deadline parent)) else Ok false) = Ok b /\
    (if b : bool then up (sift_fuel t1) t1 i else down (sift_fuel t1) t1 i) = Ok t' /\ sifted t1 t').
  { unfold sift_fuel. destruct (Nat.ltb_spec 0 i) as [Hp|Hp].
    - pose proof (parent_lt i Hp) as Lp. destruct (lookup_lt_is_Some_2 (heap t1) (parent i)) as [q Hq]; [lia|].
      unfold parent in Hq at 1. rewrite (item_Ok _ _ _ Hq), bind_Ok. exists (before (deadline y) (deadline q)).
      assert (Dq : deadline q = dl (heap t) (parent i)).
      { rewrite <- (dl_lookup _ _ _ Hq : dl (heap t1) (parent i) = _), D by lia. destruct (decide (parent i = i)); [lia|done]. }
      rewrite Dq. destruct (before (deadline y) (dl (heap t) (parent i))) eqn:B.
      + destruct (up_spec (S (length (heap t1))) t1 i) as (t' & Ht & St); [done|lia| |lia|by exists t'].
        apply (replaced_up (heap t) _ _ (deadline y)); [done|lia..|done|]. intros j Hj Pj.
        eapply ile_trans; [apply before_ile, B|]. eapply ile_trans; [by apply Up|by apply Below].
      + destruct (down_spec (S (length (heap t1))) t1 i) as (t' & Ht & St); [done|lia| |lia|by exists t'].
        apply (replaced_down (heap t) _ _ (deadline y)); [done|lia..|done|done].
    - exists false. destruct (down_spec (S (length (heap t1))) t1 i) as (t' & Ht & St); [done|lia| |lia|by exists t'].
      apply (replaced_down (heap t) _ _ (deadline y)); [done|lia..|done|lia]. }
  destruct S as (b & t' & -> & Ht & P' & O' & E'). rewrite bind_Ok, Ht, bind_Ok. exists t'. split; [done|]. split; [done|].
  by rewrite E'.
Qed.

Lemma removeAt_spec t i x : ttl_ok t -> heap t !! i = Some x -> exists t', removeAt t i = Ok (x, t') /\ taken t t' x.
Proof.
  intros H E. pose proof (lookup_lt_Some _ _ _ E). destruct (decide (i = length (heap t) - 1)%nat); [by apply removeAt_last|].
  apply removeAt_inner; [done..|lia].
Qed.

Lemma taken_lookup t t' x k : pos_ok t -> taken t t' x -> lookupTTL t' k = if decide (k = key x) then None else lookupTTL t k.
Proof.
  intros P [[P' _] E]. apply option_eq. intros d. rewrite lookupTTL_iff by done.
  assert (Hx : x ∈ heap t) by (rewrite E; by left). destruct (decide (k = key x)) as [->|N].
  - split; [|done]. intros Hd. exfalso.
    assert (Nd : NoDup (map key (heap t))).
    { apply NoDup_alt. intros i j k Hi Hj. rewrite list_lookup_fmap in Hi, Hj.
      destruct (heap t !! i) as [s|] eqn:Ei, (heap t !! j) as [s0|] eqn:Ej; try done. injection Hi as Hi. injection Hj as Hj. apply (pos_ok_inj t i j s s0); [done..|congruence]. }
    rewrite E in Nd. cbn in Nd. apply NoDup_cons in Nd as [Nd _]. apply Nd. apply list_elem_of_fmap. by exists (mkItem (key x) d).
  - rewrite lookupTTL_iff, E, elem_of_cons by done. split; [by right|]. intros [<-|]; done.
Qed.

Lemma remove_spec t k :
  ttl_ok t -> exists t', remove t k = Ok (bool_decide (is_Some (lookupTTL t k)), t') /\ ttl_ok t' /\
    forall k', lookupTTL t' k' = if decide (k' = k) then None else lookupTTL t k'.
Proof.
  intros H. pose proof H as [P O]. unfold remove. destruct (pos t !! k) as [i|] eqn:E.
  - pose proof E as E0. apply P in E as [d E]. destruct (removeAt_spec t i _ H E) as (t' & -> & Tk). rewrite bind_Ok. exists t'. split_and!.
    + rewrite bool_decide_eq_true_2; [done|]. exists d. apply lookupTTL_iff; [done|]. apply list_elem_of_lookup. by exists i.
    + apply Tk.
    + intros k'. by rewrite (taken_lookup t t' _ k' P Tk).
  - exists t. assert (N : lookupTTL t k = None) by (unfold lookupTTL; by rewrite E). rewrite bool_decide_eq_false_2 by (rewrite N; by intros [? ?]).
    split_and!; [done..|]. intros k'. by destruct (decide (k' = k)) as [->|].
Qed.

(** The root is never after any other entry. *)
Lemma root_min h j : ordered h -> (j < length h)%nat -> ile (dl h 0) (dl h j).
Proof.
  intros O. induction j as [j IH] using lt_wf_ind. intros L. destruct (decide (j = 0%nat)) as [->|N]; [apply ile_refl|].
  pose proof (parent_lt j ltac:(lia)). eapply ile_trans; [apply (IH (parent j)); lia|]. apply O. lia.
Qed.

Lemma root_min_elem t root rest x : ordered (heap t) -> heap t = root :: rest -> x ∈ heap t -> ile (deadline root) (deadline x).
Proof.
  intros O E Hx. apply list_elem_of_lookup in Hx as [j Hj]. pose proof (root_min _ j O (lookup_lt_Some _ _ _ Hj)) as M.
  rewrite (dl_lookup _ _ _ Hj) in M. by rewrite (dl_lookup _ 0 root) in M by by rewrite E.
Qed.

(** ** Histories *)

Inductive ttl_op := Upsert (k : Z) (d : storeInstant) | Remove (k : Z).

Definition apply_op (t : storeTTLState) (o : ttl_op) : ttl_res (bool * storeTTLState) :=
  match o with
  | Upsert k d => t ← upsert t k d; Ok (true, t)
  | Remove k => remove t k
  end.

Fixpoint run_ops (t : storeTTLState) (ops : list ttl_op) : ttl_res (list bool * storeTTLState) :=
  match ops with
  | [] => Ok ([], t)
  | o :: ops => '(b, t) ← apply_op t o; '(bs, t) ← run_ops t ops; Ok (b :: bs, t)
  end.

(** The same history on a finite map. *)
Definition spec_op (m : gmap Z storeInstant) (o : ttl_op) : bool * gmap Z storeInstant :=
  match o with
  | Upsert k d => (true, <[k := d]> m)
  | Remove k => (bool_decide (is_Some (m !! k)), delete k m)
  end.

Fixpoint spec_ops (m : gmap Z storeInstant) (ops : list ttl_op) : list bool * gmap Z storeInstant :=
  match ops with
  | [] => ([], m)
  | o :: ops => let '(b, m) := spec_op m o in let '(bs, m) := spec_ops m ops in (b :: bs, m)
  end.

Definition represents (t : storeTTLState) (m : gmap Z storeInstant) : Prop := ttl_ok t /\ forall k, lookupTTL t k = m !! k.

Lemma apply_op_refines t m o :
  represents t m -> exists t', apply_op t o = Ok ((spec_op m o).1, t') /\ represents t' (spec_op m o).2.
Proof.
  intros [H R]. destruct o as [k d|k]; cbn [apply_op spec_op fst snd].
  - destruct (upsert_spec t k d H) as (t' & -> & H' & L). rewrite bind_Ok. exists t'. split; [done|]. split; [done|]. intros k'. rewrite L.
    destruct (decide (k' = k)) as [->|]; [by rewrite lookup_insert_eq|by rewrite lookup_insert_ne].
  - destruct (remove_spec t k H) as (t' & -> & H' & L). exists t'. rewrite R. split; [done|]. split; [done|]. intros k'. rewrite L.
    destruct (decide (k' = k)) as [->|]; [by rewrite lookup_delete_eq|by rewrite lookup_delete_ne].
Qed.

Lemma run_ops_refines ops t m :
  represents t m -> exists t', run_ops t ops = Ok ((spec_ops m ops).1, t') /\ represents t' (spec_ops m ops).2.
Proof.
  revert t m. induction ops as [|o ops IH]; intros t m H; cbn [run_ops spec_ops]; [by exists t|].
  destruct (apply_op_refines t m o H) as (t1 & -> & H1). rewrite bind_Ok. destruct (spec_op m o) as [b m1]. cbn [fst snd] in *.
  destruct (IH t1 m1 H1) as (t2 & -> & H2). rewrite bind_Ok. destruct (spec_ops m1 ops) as [bs m2]. by exists t2.
Qed.

Lemma empty_represents : represents (mkTTL [] ∅) ∅.
Proof. split; [split|]; [intros k i|intros j Hj; cbn in Hj; lia|done]. cbn. split; [done|]. by intros [d Hd]. Qed.

(** C37: after any sequence of deadline assignments and removals from the empty
    state the heap has neither panicked nor looped, answers exactly as a finite
    map from keys to deadlines would, every index entry points at its key, and
    the root holds an earliest deadline, the one the expiry timer waits for. *)
Theorem ttl_history (ops : list ttl_op) :
  exists t, run_ops (mkTTL [] ∅) ops = Ok ((spec_ops ∅ ops).1, t) /\ ttl_ok t /\
    (forall k, lookupTTL t k = (spec_ops ∅ ops).2 !! k) /\
    (heap t = [] <-> (spec_ops ∅ ops).2 = ∅) /\
    (forall root rest, heap t = root :: rest ->
       (spec_ops ∅ ops).2 !! key root = Some (deadline root) /\
       forall k d, (spec_ops ∅ ops).2 !! k = Some d -> ile (deadline root) d).
Proof.
  destruct (run_ops_refines ops _ _ empty_represents) as (t & -> & H & R). exists t. set (m := (spec_ops ∅ ops).2) in *. clearbody m.
  destruct H as [P O]. split_and!; [done|done|done| |].
  - split.
    + intros E. apply map_eq. intros k. rewrite <- R, lookup_empty. destruct (lookupTTL t k) as [d|] eqn:L; [|done].
      apply lookupTTL_iff in L; [|done]. rewrite E in L. by apply elem_of_nil in L.
    + intros E. destruct (heap t) as [|x rest] eqn:Eh; [done|]. assert (L : lookupTTL t (key x) = Some (deadline x)).
      { apply lookupTTL_iff; [done|]. rewrite Eh, item_eta. by left. }
      rewrite R, E in L. done.
  - intros root rest E. split.
    + rewrite <- R. apply lookupTTL_iff; [done|]. rewrite item_eta, E. by left.
    + intros k d Hk. rewrite <- R in Hk. apply lookupTTL_iff in Hk; [|done]. exact (root_min_elem t root rest _ O E Hk).
Qed.

(** ** Expiry *)

Section Drain.
Variable live : storeLocation -> bool.

Definition expired (R : list storeTTLItem) : list storeLocation := List.filter live (map (fun x => location (key x)) R).

Definition by_deadline (x y : storeTTLItem) : Prop := ile (deadline x) (deadline y).

(** [R] is what the loop took, in order. *)
Definition drained (now : storeInstant) (limit : Z) (t t' : storeTTLState) (scratch : list storeLocation) (R : list storeTTLItem) : Prop :=
  ttl_ok t' /\ heap t ≡ₚ R ++ heap t' /\ StronglySorted by_deadline R /\
  Forall (fun x => ile (deadline x) now) R /\
  (forall x y, x ∈ R -> y ∈ heap t' -> by_deadline x y) /\
  ((forall y, y ∈ heap t' -> before now (deadline y) = true) \/
   0 < limit /\ limit <= Z.of_nat (length (scratch ++ expired R))).

Lemma collectDue_spec fuel now limit t scratch :
  ttl_ok t -> (length (heap t) <= fuel)%nat ->
  exists R t', collectDue live fuel now limit t scratch = Ok (scratch ++ expired R, t') /\ drained now limit t t' scratch R.
Proof.
  revert t scratch. induction fuel as [|fuel IH]; intros t scratch H L.
  { exists [], t. destruct (heap t) as [|x h] eqn:E; [|simpl in L; lia]. cbn [collectDue]. rewrite E, app_nil_r. split; [done|].
    split_and!; [done|by rewrite E|constructor|constructor|by intros ? ? ?%elem_of_nil|]. left. rewrite E. by intros y ?%elem_of_nil. }
  destruct (heap t) as [|root rest] eqn:E.
  { exists [], t. cbn [collectDue]. rewrite E, app_nil_r. split; [done|].
    split_and!; [done|by rewrite E|constructor|constructor|by intros ? ? ?%elem_of_nil|]. left. rewrite E. by intros y ?%elem_of_nil. }
  cbn [collectDue]. rewrite E. case_match eqn:Stop.
  - exists [], t. rewrite app_nil_r. split; [done|]. split_and!; [done|by rewrite E|constructor|constructor|by intros ? ? ?%elem_of_nil|].
    apply orb_true_iff in Stop as [Stop|Stop].
    + left. intros y Hy. destruct (before now (deadline y)) eqn:B; [done|]. exfalso.
      pose proof (root_min_elem t root rest y (proj2 H) E Hy) as M. pose proof (ile_trans _ _ _ M B) as M2. unfold ile, after in *. congruence.
    + right. cbn [expired map List.filter app]. rewrite app_nil_r. lia.
  - apply orb_false_iff in Stop as [Due _]. destruct (removeAt_spec t 0 root H) as (t1 & -> & H1 & E1); [by rewrite E|]. rewrite bind_Ok.
    pose proof (Permutation_length E1) as Ln. cbn [length] in Ln. rewrite E in Ln. cbn [length] in Ln, L. cbv zeta.
    assert (St : exists R t', (if negb (live (location (key root))) then collectDue live fuel now limit t1 scratch
        else collectDue live fuel now limit t1 (scratch ++ [location (key root)])) = Ok (scratch ++ expired (root :: R), t') /\
      drained now limit t1 t' (if live (location (key root)) then scratch ++ [location (key root)] else scratch) R).
    { unfold expired. cbn [map List.filter]. destruct (live (location (key root))); cbn [negb].
      - destruct (IH t1 (scratch ++ [location (key root)]) H1) as (R & t' & -> & Dr); [lia|]. exists R, t'. by rewrite <- app_assoc.
      - destruct (IH t1 scratch H1) as (R & t' & -> & Dr); [lia|]. by exists R, t'. }
    destruct St as (R & t' & -> & H' & Pm & So & Fo & Cr & Fin). exists (root :: R), t'. split; [done|].
    assert (Mn : forall y, y ∈ heap t -> by_deadline root y) by (intros y Hy; exact (root_min_elem t root rest y (proj2 H) E Hy)).
    split_and!; [done| | | | |].
    + rewrite E1, Pm. done.
    + constructor; [done|]. apply Forall_forall. intros y Hy. apply Mn. rewrite E1, Pm. right. apply elem_of_app. by left.
    + constructor; [exact Due|done].
    + intros x y Hx Hy. apply elem_of_cons in Hx as [->|Hx]; [|by apply Cr]. apply Mn. rewrite E1, Pm. right. apply elem_of_app. by right.
    + destruct Fin as [|[Lp Fin]]; [by left|right]. split; [done|]. unfold expired in *. cbn [map List.filter].
      destruct (live (location (key root))); [by rewrite <- app_assoc in Fin|done].
Qed.
End Drain.

(** The collecting loop of [ExpireDue] ends without a panic and takes
    entries in deadline order, each due and none later than one it leaves.
    With no limit it takes every due key, so no key stays past its deadline
    across a call; with a limit it stops early only after that many live keys. *)
Theorem collect_due (live : storeLocation -> bool) (now : storeInstant) (limit : Z) (t : storeTTLState) :
  ttl_ok t ->
  exists R t', collect live now limit t = Ok (expired live R, t') /\ ttl_ok t' /\ heap t ≡ₚ R ++ heap t' /\
    StronglySorted by_deadline R /\ Forall (fun x => ile (deadline x) now) R /\
    (limit <= 0 -> forall k d, lookupTTL t' k = Some d <-> lookupTTL t k = Some d /\ before now d = true) /\
    (forall k d, 0 < limit -> lookupTTL t' k = Some d -> ile d now -> limit <= Z.of_nat (length (expired live R)) /\ Forall (fun x => ile (deadline x) d) R).
Proof.
  intros H. unfold collect. destruct (collectDue_spec live (length (heap t)) now limit t [] H (le_n _)) as (R & t' & -> & H' & Pm & So & Fo & Cr & Fin).
  exists R, t'. split_and!; [done..| |].
  - intros Hl k d. rewrite !lookupTTL_iff by (apply H || apply H'). split.
    + intros Hd. split; [rewrite Pm; apply elem_of_app; by right|]. destruct Fin as [Fin|]; [by apply (Fin _ Hd)|lia].
    + intros [Hd B]. rewrite Pm in Hd. apply elem_of_app in Hd as [Hd|]; [|done]. rewrite Forall_forall in Fo. apply Fo in Hd.
      cbn [deadline] in Hd. unfold ile in Hd. congruence.
  - intros k d Hl Hd Due. apply lookupTTL_iff in Hd; [|apply H']. split.
    + destruct Fin as [Fin|[_ Fin]]; [|done]. apply Fin in Hd. cbn [deadline] in Hd. unfold ile in Due. congruence.
    + apply Forall_forall. intros x Hx. exact (Cr x _ Hx Hd).
Qed.

Lemma collect_due_witness :
  exists t, ttl_ok t /\ lookupTTL t 257 = Some (mkInstant 5 0) /\
    exists R t', collect (fun _ => true) (mkInstant 5 0) 0 t = Ok (expired (fun _ => true) R, t') /\ ttl_ok t' /\ heap t ≡ₚ R ++ heap t' /\
      StronglySorted by_deadline R /\ Forall (fun x => ile (deadline x) (mkInstant 5 0)) R /\
      (0 <= 0 -> forall k d, lookupTTL t' k = Some d <-> lookupTTL t k = Some d /\ before (mkInstant 5 0) d = true) /\
      (forall k d, 0 < 0 -> lookupTTL t' k = Some d -> ile d (mkInstant 5 0) -> 0 <= Z.of_nat (length (expired (fun _ => true) R)) /\ Forall (fun x => ile (deadline x) d) R).
Proof.
  destruct (run_ops_refines [Upsert 257 (mkInstant 5 0); Upsert 3 (mkInstant 9 1)] _ _ empty_represents) as (t & _ & H & R).
  exists t. split; [exact H|]. split; [rewrite R; reflexivity|]. apply collect_due. exact H.
Defined.
