(* ===== verification/Pointer.v ===== *)
(** * Pointer: compiled JSON Pointers and key hashes

    Models pointer.go (the RFC 6901 parser, token unescaping and the array-index
    reading of a token) and the content hash of index_keyhash.go that a compiled
    token carries.  Strings are byte lists; the scan of a token works on the
    suffix [pointer[end:]], and [Err] holds the Go error's message. *)
From Stdlib Require Import ZArith Lia List Bool String.
From stdpp Require Import base numbers list.
From S2P Require Import Prelude Utf8 Grammar Lex NumberEqual.

Open Scope Z_scope.

(** ** Key hashes *)

Definition keyHashSeed : Z := 0x9E3779B97F4A7C15.
Definition keyHashMul : Z := 0xFF51AFD7ED558CCD.

Definition keyHashInit (n : nat) : Z := Z.lxor keyHashSeed (u64 (Z.of_nat n * keyHashMul)).
Definition keyHashMix (h w : Z) : Z := u64 (Z.lxor h w * keyHashMul).
Definition keyHashFinish (h : Z) : Z :=
  let h := Z.lxor h (Z.shiftr h 29) in
  let h := u64 (h * keyHashSeed) in
  Z.shiftr h 32 mod 2 ^ 32.

(** A little-endian load of [n] bytes at [i]. *)
Definition load (content : list Z) (i n : nat) : Z := le_uint (slice content i (i + n)).

(** [content[i]] shifted left by eight times [k], as a uint64. *)
Definition byteShl (content : list Z) (i k : nat) : Z := u64 (Z.shiftl (load content i 1) (8 * Z.of_nat k)).

(** The word loop runs over i = 8, 16, ... below n. *)
Definition hashKeyContent (content : list Z) : Z :=
  let n := length content in
  let h := keyHashInit n in
  let h :=
    if (8 <=? n)%nat then
      let h := fold_left (fun h k => keyHashMix h (load content (8 * k) 8)) (seq 0 (Nat.div (n - 1) 8)) h in
      keyHashMix h (load content (n - 8) 8)
    else if (4 <=? n)%nat then
      let lo := load content 0 4 in
      let hi := load content (n - 4) 4 in
      keyHashMix h (Z.lor lo (u64 (Z.shiftl hi (8 * (Z.of_nat n - 4)))))
    else
      let w :=
        if (0 <? n)%nat then
          Z.lor (Z.lor (load content 0 1) (byteShl content (Nat.div2 n) (Nat.div2 n))) (byteShl content (n - 1) (n - 1))
        else 0 in
      keyHashMix h w in
  keyHashFinish h.

Definition hashKeyContentWord (word : Z) (n : nat) : Z :=
  let word := Z.land word (Z.shiftr (2 ^ 64 - 1) (8 * (8 - Z.of_nat n))) in
  keyHashFinish (keyHashMix (keyHashInit n) word).

Definition hashKeyString (key : list Z) : Z := hashKeyContent key.

(** ** Pointers *)

Inductive pointerIndexKind := pointerIndexInvalid | pointerIndexNumber | pointerIndexDash.

Record compiledPointerToken := mkToken {
  text : list Z;
  hash : Z;
  index : Z;
  indexKind : pointerIndexKind;
  indexMessage : string;
}.

Record CompiledPointer := mkPointer { pointer : list Z; tokens : list compiledPointerToken }.

Record PointerError := mkPointerError { Pointer : list Z; Message : string }.

(** [for i := first; i < len(s); i++] of the slow path. *)
Fixpoint unescapeLoop (s out : list Z) : res string (list Z) :=
  match s with
  | [] => Ok out
  | c :: s =>
      if negb (c =? 0x7e) then unescapeLoop s (out ++ [c])
      else
        match s with
        | [] => Err "dangling tilde escape"%string
        | e :: s =>
            if e =? 0x30 then unescapeLoop s (out ++ [0x7e])
            else if e =? 0x31 then unescapeLoop s (out ++ [0x2f])
            else Err "unknown tilde escape"%string
        end
  end.

Definition unescapePointerTokenSlow (s : list Z) (first : nat) : res PointerError (list Z) :=
  match unescapeLoop (drop first s) (take first s) with
  | Ok out => Ok out
  | Err msg => Err (mkPointerError s msg)
  | OutOfFuel => OutOfFuel
  end.

Fixpoint firstTilde (s : list Z) (i : nat) : option nat :=
  match s with
  | [] => None
  | c :: s => if c =? 0x7e then Some i else firstTilde s (S i)
  end.

Definition unescapePointerToken (s : list Z) : res PointerError (list Z) :=
  match firstTilde s 0 with
  | Some i => unescapePointerTokenSlow s i
  | None => Ok s
  end.

(** [strconv.Atoi] on a nonempty digit string, for a 64-bit int. *)
Definition Atoi (s : list Z) : option Z := if dval s <? 2 ^ 63 then Some (dval s) else None.

Definition classifyPointerIndex (s : list Z) : Z * pointerIndexKind * string :=
  if bool_decide (s = [0x2d]) then (0, pointerIndexDash, ""%string)
  else if bool_decide (s = []) then (0, pointerIndexInvalid, "empty array index"%string)
  else if (1 <? length s)%nat && byteAt s 0 (fun c => c =? 0x30)
  then (0, pointerIndexInvalid, "array index has leading zero"%string)
  else if existsb (fun c => (c <? 0x30) || (0x39 <? c)) s
  then (0, pointerIndexInvalid, "array index is not numeric"%string)
  else match Atoi s with
  | None => (0, pointerIndexInvalid, "array index overflows int"%string)
  | Some idx => (idx, pointerIndexNumber, ""%string)
  end.

(** [arrayIndex]: (index, ok), or an error. *)
Definition arrayIndex (t : compiledPointerToken) : res PointerError (Z * bool) :=
  match indexKind t with
  | pointerIndexNumber => Ok (index t, true)
  | pointerIndexDash => Ok (0, false)
  | pointerIndexInvalid =>
      let msg := if String.eqb (indexMessage t) "" then "array index is not numeric"%string else indexMessage t in
      Err (mkPointerError (text t) msg)
  end.

Definition parsePointerIndex (s : list Z) : res PointerError (Z * bool) :=
  let '(idx, kind, msg) := classifyPointerIndex s in
  match kind with
  | pointerIndexNumber => Ok (idx, true)
  | pointerIndexDash => Ok (0, false)
  | pointerIndexInvalid => Err (mkPointerError s msg)
  end.

(** The inner loop of [CompilePointer]: the raw token and what follows it, which
    is empty or starts with a slash. *)
Fixpoint scanToken (s : list Z) : res string (list Z * list Z) :=
  match s with
  | [] => Ok ([], [])
  | c :: s' =>
      if c =? 0x2f then Ok ([], s)
      else if c =? 0x7e then
        match s' with
        | [] => Err "dangling tilde escape"%string
        | e :: s'' =>
            if negb (e =? 0x30) && negb (e =? 0x31) then Err "unknown tilde escape"%string
            else '(tok, rest) ← scanToken s''; Ok (c :: e :: tok, rest)
        end
      else '(tok, rest) ← scanToken s'; Ok (c :: tok, rest)
  end.

Definition compileToken (raw : list Z) : res PointerError compiledPointerToken :=
  token ← unescapePointerToken raw;
  let '(index, kind, msg) := classifyPointerIndex token in
  Ok (mkToken token (hashKeyString token) index kind msg).

(** One turn per token; every turn after the first consumes a slash. *)
Fixpoint compileTokens (fuel : nat) (pointer s : list Z) : res PointerError (list compiledPointerToken) :=
  match fuel with
  | O => OutOfFuel
  | S fuel =>
      match scanToken s with
      | Err msg => Err (mkPointerError pointer msg)
      | OutOfFuel => OutOfFuel
      | Ok (raw, rest) =>
          token ← compileToken raw;
          match rest with
          | [] => Ok [token]
          | _ :: rest => tokens ← compileTokens fuel pointer rest; Ok (token :: tokens)
          end
      end
  end.

Definition CompilePointer (pointer : list Z) : res PointerError CompiledPointer :=
  match pointer with
  | [] => Ok (mkPointer [] [])
  | c :: s =>
      if negb (c =? 0x2f) then Err (mkPointerError pointer "pointer must be empty or start with slash"%string)
      else tokens ← compileTokens (length pointer) pointer s; Ok (mkPointer pointer tokens)
  end.

(* /a~1b/0 *)
Example CompilePointer_ex :
  (p ← CompilePointer [0x2f; 0x61; 0x7e; 0x31; 0x62; 0x2f; 0x30]; Ok (map (fun t => (text t, indexKind t, index t)) (tokens p)))
  = Ok [([0x61; 0x2f; 0x62], pointerIndexInvalid, 0); ([0x30], pointerIndexNumber, 0)].
Proof. vm_compute. reflexivity. Qed.

(** ** Hash equivalence *)

Lemma le_uint_cons b l : le_uint (b :: l) = b + 256 * le_uint l.
Proof. done. Qed.

Lemma shl_bytes l k : bytes_ok l -> (length l + k <= 8)%nat ->
  u64 (Z.shiftl (le_uint l) (8 * Z.of_nat k)) = le_uint (replicate k 0 ++ l).
Proof.
  intros Hl L. pose proof (le_uint_ok l Hl) as B. unfold word_ok in B. rewrite Z.shiftl_mul_pow2 by lia.
  assert (E : le_uint (replicate k 0 ++ l) = le_uint l * 2 ^ (8 * Z.of_nat k)).
  { clear L. induction k as [|k IH]; [cbn [replicate app]; rewrite Z.mul_0_r, Z.pow_0_r; lia|].
    cbn [replicate app]. rewrite le_uint_cons, IH. replace (8 * Z.of_nat (S k)) with (8 + 8 * Z.of_nat k) by lia.
    rewrite Z.pow_add_r by lia. change (2 ^ 8) with 256. ring. }
  rewrite <- E. apply u64_small. assert (Hb : bytes_ok (replicate k 0 ++ l)).
  { apply Forall_app. split; [by apply Forall_replicate|done]. }
  apply le_uint_ok in Hb. unfold word_ok in Hb. rewrite length_app, length_replicate in Hb.
  assert (256 ^ Z.of_nat (k + length l) <= 256 ^ 8) by (apply Z.pow_le_mono_r; lia). change (256 ^ 8) with (2 ^ 64) in *. lia.
Qed.

(** The OR of two overlapping gathers is the word they cover. *)
Fixpoint orBytes (a b : list Z) : list Z :=
  match a, b with
  | x :: a, y :: b => Z.lor x y :: orBytes a b
  | [], b => b
  | a, [] => a
  end.

Lemma lor_le_uint a b : bytes_ok a -> bytes_ok b -> Z.lor (le_uint a) (le_uint b) = le_uint (orBytes a b).
Proof.
  intros Ha. revert b. induction Ha as [|x a Hx _ IH]; intros b Hb; [done|].
  destruct Hb as [|y b Hy Hb]; [cbn [orBytes]; apply Z.lor_0_r|]. cbn [orBytes]. rewrite !le_uint_cons, lor_split, IH by done. done.
Qed.

Lemma orBytes_ok a b : bytes_ok a -> bytes_ok b -> bytes_ok (orBytes a b).
Proof.
  intros Ha. revert b. induction Ha as [|x a Hx Ha IH]; intros b Hb; [done|].
  destruct Hb as [|y b Hy Hb]; [by constructor|]. constructor; [by apply is_byte_lor|by apply IH].
Qed.

Lemma slice_bytes (s : list Z) i j : bytes_ok s -> bytes_ok (slice s i j).
Proof. apply Forall_slice. Qed.

Lemma mask_bytes bs n : length bs = 8%nat -> (n <= 8)%nat -> bytes_ok bs ->
  Z.land (le_uint bs) (Z.shiftr (2 ^ 64 - 1) (8 * (8 - Z.of_nat n))) = le_uint (take n bs).
Proof.
  intros L Ln Hb. assert (E : Z.shiftr (2 ^ 64 - 1) (8 * (8 - Z.of_nat n)) = 2 ^ (8 * Z.of_nat n) - 1).
  { do 9 (destruct n as [|n]; [reflexivity|]). lia. }
  rewrite E, (land_ones_mod _ (8 * Z.of_nat n)) by lia. rewrite <- (take_drop n bs) at 1.
  assert (A : forall a b, le_uint (a ++ b) = le_uint a + 2 ^ (8 * Z.of_nat (length a)) * le_uint b).
  { intros a b. induction a as [|x a IH]; [rewrite app_nil_l; cbn [length]; change (le_uint []) with 0; rewrite Z.mul_0_r, Z.pow_0_r; lia|].
    cbn [app length]. rewrite !le_uint_cons, IH. replace (8 * Z.of_nat (S (length a))) with (8 + 8 * Z.of_nat (length a)) by lia.
    rewrite Z.pow_add_r by lia. change (2 ^ 8) with 256. ring. }
  rewrite A, length_take, L. replace (n `min` 8)%nat with n by lia. rewrite (Z.mul_comm (2 ^ _)), Z.mod_add by lia.
  apply Z.mod_small. assert (Ht : bytes_ok (take n bs)) by by apply Forall_take. apply le_uint_ok in Ht. unfold word_ok in Ht.
  rewrite length_take, L in Ht. replace (n `min` 8)%nat with n in Ht by lia.
  replace (2 ^ (8 * Z.of_nat n)) with (256 ^ Z.of_nat n) by (rewrite Z.pow_mul_r by lia; done). done.
Qed.

Lemma load_shl c i m k :
  bytes_ok c -> (m + k <= 8)%nat -> u64 (Z.shiftl (load c i m) (8 * Z.of_nat k)) = le_uint (replicate k 0 ++ slice c i (i + m)).
Proof.
  intros Hc L. apply shl_bytes; [by apply slice_bytes|]. unfold slice. rewrite length_take. lia.
Qed.

Ltac lor_same := rewrite ?Z.lor_0_r, ?Z.lor_0_l, ?Z.lor_diag.

Lemma gather_mid c :
  bytes_ok c -> (4 <= length c < 8)%nat ->
  Z.lor (load c 0 4) (u64 (Z.shiftl (load c (length c - 4) 4) (8 * (Z.of_nat (length c) - 4)))) = le_uint c.
Proof.
  intros Hc L. replace (8 * (Z.of_nat (length c) - 4)) with (8 * Z.of_nat (length c - 4)) by lia.
  rewrite load_shl by (done || lia). unfold load. rewrite lor_le_uint.
  - destruct c as [|b0 [|b1 [|b2 [|b3 [|b4 [|b5 [|b6 [|]]]]]]]]; simpl in L; try lia; cbn [length Nat.sub slice drop take replicate app orBytes Nat.add]; lor_same; done.
  - by apply slice_bytes.
  - apply Forall_app. split; [by apply Forall_replicate|by apply slice_bytes].
Qed.

Lemma gather_low c :
  bytes_ok c -> (0 < length c < 4)%nat ->
  Z.lor (Z.lor (load c 0 1) (byteShl c (Nat.div2 (length c)) (Nat.div2 (length c)))) (byteShl c (length c - 1) (length c - 1)) = le_uint c.
Proof.
  intros Hc L. unfold byteShl. assert (Nat.div2 (length c) <= length c)%nat by (apply Nat.div2_decr; lia).
  rewrite !load_shl by (done || lia). unfold load.
  assert (Hr : forall k i, bytes_ok (replicate k 0 ++ slice c i (i + 1))).
  { intros k i. apply Forall_app. split; [by apply Forall_replicate|by apply slice_bytes]. }
  rewrite lor_le_uint by (by apply slice_bytes || apply Hr).
  assert (Ho : bytes_ok (orBytes (slice c 0 (0 + 1)) (replicate (Nat.div2 (length c)) 0 ++ slice c (Nat.div2 (length c)) (Nat.div2 (length c) + 1)))).
  { apply orBytes_ok; [by apply slice_bytes|apply Hr]. }
  rewrite lor_le_uint by (exact Ho || apply Hr).
  destruct c as [|b0 [|b1 [|b2 [|]]]]; simpl in L; try lia; cbn [length Nat.sub Nat.div2 slice drop take replicate app orBytes Nat.add]; lor_same; done.
Qed.

(** Hashing a short key from one masked register load gives the hash of
    its bytes: for a word holding eight bytes and any length up to eight,
    [hashKeyContentWord] equals [hashKeyContent] of the first bytes, so the
    bytes behind them never influence the result. *)
Theorem hashKeyContentWord_agrees (bs : list Z) (n : nat) :
  bytes_ok bs -> length bs = 8%nat -> (n <= 8)%nat -> hashKeyContentWord (le_uint bs) n = hashKeyContent (take n bs).
Proof.
  intros Hb L Ln. unfold hashKeyContentWord, hashKeyContent. rewrite mask_bytes by done.
  assert (Ht : bytes_ok (take n bs)) by by apply Forall_take. assert (Lt : length (take n bs) = n) by (rewrite length_take; lia).
  set (c := take n bs) in *. clearbody c. subst n. cbv zeta. f_equal.
  destruct (Nat.leb_spec 8 (length c)).
  - replace (length c) with 8%nat by lia. cbn [Nat.sub Nat.div Nat.divmod fst seq fold_left]. unfold load, slice.
    change (take (0 + 8 - 0) (drop 0 c)) with (take 8 c). by rewrite take_ge by lia.
  - destruct (Nat.leb_spec 4 (length c)); [by rewrite gather_mid by (done || lia)|].
    destruct (Nat.ltb_spec 0 (length c)); [by rewrite gather_low by (done || lia)|]. destruct c; [done|cbn [length] in *; lia].
Qed.

Lemma hashKeyContentWord_agrees_witness :
  hashKeyContentWord (le_uint [0x6e; 0x61; 0x6d; 0x65; 0x22; 0x3a; 0x31; 0x7d]) 4 = hashKeyContent [0x6e; 0x61; 0x6d; 0x65].
Proof. apply (hashKeyContentWord_agrees [0x6e; 0x61; 0x6d; 0x65; 0x22; 0x3a; 0x31; 0x7d] 4); [by repeat constructor|done|lia]. Defined.

(** ** Pointer syntax *)

(** RFC 6901, section 3: the spelling of a reference token. *)
Definition escape1 (c : Z) : list Z :=
  if c =? 0x7e then [0x7e; 0x30] else if c =? 0x2f then [0x7e; 0x31] else [c].
Definition escapeToken (t : list Z) : list Z := concat (map escape1 t).

(** The pointer that names a sequence of reference tokens. *)
Definition print_pointer (texts : list (list Z)) : list Z := concat (map (fun t => 0x2f :: escapeToken t) texts).

Definition token_end (rest : list Z) : Prop := rest = [] \/ exists r, rest = 0x2f :: r.

Lemma escapeToken_cons c t : escapeToken (c :: t) = escape1 c ++ escapeToken t.
Proof. done. Qed.

Lemma scanToken_escape t rest : token_end rest -> scanToken (escapeToken t ++ rest) = Ok (escapeToken t, rest).
Proof.
  intros Hr. induction t as [|c t IH].
  - destruct Hr as [->|[r ->]]; done.
  - rewrite escapeToken_cons, <- app_assoc. unfold escape1.
    destruct (Z.eqb_spec c 0x7e) as [->|N1]; [|destruct (Z.eqb_spec c 0x2f) as [->|N2]]; cbn [app scanToken].
    + cbn [Z.eqb Pos.eqb negb andb]. rewrite IH, bind_Ok. done.
    + cbn [Z.eqb Pos.eqb negb andb]. rewrite IH, bind_Ok. done.
    + replace (c =? 0x2f) with false by lia. replace (c =? 0x7e) with false by lia. rewrite IH, bind_Ok. done.
Qed.

(** What the scan accepts is the spelling of some token. *)
Lemma scanToken_inv s :
  match scanToken s with
  | Ok (raw, rest) => s = raw ++ rest /\ token_end rest /\ exists t, raw = escapeToken t
  | Err _ => forall t rest, token_end rest -> s <> escapeToken t ++ rest
  | OutOfFuel => False
  end.
Proof.
  assert (G : forall n s, (length s <= n)%nat -> match scanToken s with
    | Ok (raw, rest) => s = raw ++ rest /\ token_end rest /\ exists t, raw = escapeToken t
    | Err _ => forall t rest, token_end rest -> s <> escapeToken t ++ rest | OutOfFuel => False end); [|by apply (G (length s))].
  clear s. induction n as [|n IH]; intros [|c s] L; try (cbn; split_and!; [done|by left|by exists []]); [cbn in L; lia|].
  cbn [scanToken]. destruct (Z.eqb_spec c 0x2f) as [->|N1]; [split_and!; [done|right; by eexists|by exists []]|].
  destruct (Z.eqb_spec c 0x7e) as [->|N2].
  - destruct s as [|e s]; [intros t rest Hr E; pose proof (scanToken_escape t rest Hr) as S; by rewrite <- E in S|].
    destruct (negb (e =? 0x30) && negb (e =? 0x31)) eqn:Ee.
    { intros t rest Hr E. pose proof (scanToken_escape t rest Hr) as S. rewrite <- E in S. cbn [scanToken Z.eqb Pos.eqb] in S. by rewrite Ee in S. }
    specialize (IH s ltac:(cbn in L; lia)). destruct (scanToken s) as [[raw rest]|msg|] eqn:Es; [rewrite bind_Ok|cbn|done].
    + destruct IH as (-> & Hr & t & ->). split_and!; [done|done|]. destruct (Z.eqb_spec e 0x30) as [->|]; [by exists (0x7e :: t)|].
      destruct (Z.eqb_spec e 0x31) as [->|]; [by exists (0x2f :: t)|done].
    + intros t rest Hr E. pose proof (scanToken_escape t rest Hr) as S. rewrite <- E in S. cbn [scanToken Z.eqb Pos.eqb] in S. by rewrite Ee, Es in S.
  - specialize (IH s ltac:(cbn in L; lia)). destruct (scanToken s) as [[raw rest]|msg|] eqn:Es; [rewrite bind_Ok|cbn|done].
    + destruct IH as (-> & Hr & t & ->). split_and!; [done|done|]. exists (c :: t). rewrite escapeToken_cons. unfold escape1.
      replace (c =? 0x7e) with false by lia. by replace (c =? 0x2f) with false by lia.
    + intros t rest Hr E. pose proof (scanToken_escape t rest Hr) as S. rewrite <- E in S. cbn [scanToken] in S.
      replace (c =? 0x2f) with false in S by lia. replace (c =? 0x7e) with false in S by lia. by rewrite Es in S.
Qed.

Lemma unescapeLoop_plain a s out : Forall (fun c => c <> 0x7e) a -> unescapeLoop (a ++ s) out = unescapeLoop s (out ++ a).
Proof.
  intros H. revert out. induction H as [|c a Hc _ IH]; intros out; [by rewrite app_nil_r|]. cbn [app unescapeLoop].
  replace (c =? 0x7e) with false by lia. cbn [negb]. by rewrite IH, <- app_assoc.
Qed.

Lemma firstTilde_spec s k :
  match firstTilde s k with
  | Some i => (k <= i)%nat /\ Forall (fun c => c <> 0x7e) (take (i - k) s)
  | None => Forall (fun c => c <> 0x7e) s
  end.
Proof.
  revert k. induction s as [|c s IH]; intros k; cbn [firstTilde]; [constructor|]. destruct (Z.eqb_spec c 0x7e) as [->|N].
  { split; [done|]. by rewrite Nat.sub_diag. }
  specialize (IH (S k)). destruct (firstTilde s (S k)) as [i|]; [|by constructor]. destruct IH as [L F]. split; [lia|].
  replace (i - k)%nat with (S (i - S k)) by lia. by constructor.
Qed.

(** The allocation-free path agrees with the decoding loop. *)
Lemma unescape_loop s :
  unescapePointerToken s = match unescapeLoop s [] with Ok out => Ok out | Err msg => Err (mkPointerError s msg) | OutOfFuel => OutOfFuel end.
Proof.
  unfold unescapePointerToken, unescapePointerTokenSlow. pose proof (firstTilde_spec s 0) as H. destruct (firstTilde s 0) as [i|].
  - destruct H as [_ H]. rewrite Nat.sub_0_r in H.
    assert (E : unescapeLoop s [] = unescapeLoop (drop i s) (take i s)); [|by rewrite E].
    rewrite <- (take_drop i s) at 1. by rewrite unescapeLoop_plain.
  - assert (E : unescapeLoop s [] = Ok s); [|by rewrite E]. rewrite <- (app_nil_r s) at 1. by rewrite unescapeLoop_plain.
Qed.

Lemma unescape_escape t : unescapePointerToken (escapeToken t) = Ok t.
Proof.
  rewrite unescape_loop. assert (G : forall out, unescapeLoop (escapeToken t) out = Ok (out ++ t)); [|by rewrite G].
  induction t as [|c t IH]; intros out; [by rewrite app_nil_r|]. rewrite escapeToken_cons. unfold escape1.
  destruct (Z.eqb_spec c 0x7e) as [->|N1]; [|destruct (Z.eqb_spec c 0x2f) as [->|N2]]; cbn [app unescapeLoop].
  - cbn [Z.eqb Pos.eqb negb]. by rewrite IH, <- app_assoc.
  - cbn [Z.eqb Pos.eqb negb]. by rewrite IH, <- app_assoc.
  - replace (c =? 0x7e) with false by lia. cbn [negb]. by rewrite IH, <- app_assoc.
Qed.

(** The compiled form of a reference token. *)
Definition token_of (t : list Z) : compiledPointerToken :=
  let '(index, kind, msg) := classifyPointerIndex t in mkToken t (hashKeyString t) index kind msg.

Lemma compileToken_escape t : compileToken (escapeToken t) = Ok (token_of t).
Proof.
  unfold compileToken, token_of. rewrite unescape_escape, bind_Ok. destruct (classifyPointerIndex t) as [[i k] m]. done.
Qed.

Lemma print_pointer_end texts : token_end (print_pointer texts).
Proof. destruct texts; [by left|right]. by eexists. Qed.

Lemma compileTokens_spec fuel p s :
  (length s < fuel)%nat ->
  (exists t texts, s = escapeToken t ++ print_pointer texts /\ compileTokens fuel p s = Ok (map token_of (t :: texts))) \/
  (forall t texts, s <> escapeToken t ++ print_pointer texts) /\ exists e, compileTokens fuel p s = Err e.
Proof.
  revert s. induction fuel as [|fuel IH]; intros s L; [lia|]. cbn [compileTokens].
  pose proof (scanToken_inv s) as H. destruct (scanToken s) as [[raw rest]|msg|] eqn:Es; [|right|done].
  - destruct H as (-> & Hr & t & ->). rewrite compileToken_escape, bind_Ok. destruct Hr as [->|[r ->]].
    + left. exists t, []. split; [done|done].
    + destruct (IH r) as [(t' & texts & -> & Ec)|(N & e & Ec)]; [rewrite length_app in L; cbn in L; lia|left|right].
      * exists t, (t' :: texts). split; [done|]. by rewrite Ec.
      * split; [|exists e; by rewrite Ec]. intros t2 texts E. pose proof (scanToken_escape t2 _ (print_pointer_end texts)) as S.
        rewrite <- E, Es in S. injection S as _ S. destruct texts as [|t3 texts]; [done|]. injection S as S. by apply (N t3 texts).
  - split; [|by eexists]. intros t texts. apply H, print_pointer_end.
Qed.

(** [CompilePointer] accepts exactly the RFC 6901 spellings of token
    sequences, always returns, keeps the spelling, and yields for each token
    its decoded text with the hash and array reading of that text; any other
    string is an error. *)
Theorem CompilePointer_spec (s : list Z) :
  (exists texts, s = print_pointer texts /\ CompilePointer s = Ok (mkPointer s (map token_of texts))) \/
  (forall texts, s <> print_pointer texts) /\ exists e, CompilePointer s = Err e.
Proof.
  destruct s as [|c s]; [left; by exists []|]. unfold CompilePointer. destruct (Z.eqb_spec c 0x2f) as [->|N]; cbn [negb].
  - destruct (compileTokens_spec (length (0x2f :: s)) (0x2f :: s) s) as [(t & texts & -> & Ec)|(N & e & Ec)]; [cbn; lia|left|right].
    + exists (t :: texts). split; [done|]. by rewrite Ec.
    + split; [|exists e; by rewrite Ec]. intros [|t texts] E; [done|]. injection E as E. by apply (N t texts).
  - right. split; [|by eexists]. intros [|t texts] E; [done|]. by injection E as E _.
Qed.

(** ** Array indices *)

Lemma digits_existsb s : existsb (fun c => (c <? 0x30) || (0x39 <? c)) s = false <-> digits s.
Proof.
  induction s as [|c s IH]; cbn [existsb]; [split; [by constructor|done]|]. rewrite orb_false_iff, IH. unfold digits.
  rewrite Forall_cons. unfold isDigit. split; (intros [H1 H2]; split; [lia|done]).
Qed.

Lemma canonical_digits n :
  0 < n < 2 ^ 63 -> exists ds, appendDecimalUint64 [] n = ds /\ digits ds /\ dval ds = n /\ no_lead ds /\ ds <> [].
Proof.
  intros H. destruct (decimalDigits_spec 20 n []) as (ds & E & D & V & N & Ne); [lia|]. exists ds.
  unfold appendDecimalUint64. rewrite E, app_nil_r. done.
Qed.

Lemma classify_canonical n : 0 <= n < 2 ^ 63 -> classifyPointerIndex (appendDecimalUint64 [] n) = (n, pointerIndexNumber, ""%string).
Proof.
  intros H. destruct (Z.eq_dec n 0) as [->|N0]; [reflexivity|].
  destruct (canonical_digits n) as (ds & -> & D & V & N & Ne); [lia|]. unfold classifyPointerIndex.
  rewrite bool_decide_eq_false_2 by (intros ->; apply Forall_cons in D as [D _]; done). rewrite bool_decide_eq_false_2 by done.
  replace (byteAt ds 0 (fun c => c =? 0x30)) with false.
  2: { destruct ds as [|c ds]; [done|]. unfold byteAt. cbn. symmetry. apply Z.eqb_neq. intros ->. by apply N. }
  rewrite andb_false_r. rewrite (proj2 (digits_existsb ds) D). unfold Atoi. rewrite V. by replace (n <? 2 ^ 63) with true by lia.
Qed.

Lemma classify_number s n msg :
  classifyPointerIndex s = (n, pointerIndexNumber, msg) -> 0 <= n < 2 ^ 63 /\ s = appendDecimalUint64 [] n.
Proof.
  unfold classifyPointerIndex. case_bool_decide; [done|]. case_bool_decide as Ne; [done|]. case_match eqn:Lz; [done|].
  destruct (existsb _ s) eqn:Ex; [done|]. apply digits_existsb in Ex. unfold Atoi.
  destruct (Z.ltb_spec (dval s) (2 ^ 63)) as [Hd|]; [|done]. intros [= <- _]. pose proof (dval_bounds s Ex). split; [lia|].
  assert (N : (length s <= 1)%nat \/ no_lead s).
  { apply andb_false_iff in Lz as [Lz|Lz]; [left; by apply Nat.ltb_ge|right]. unfold byteAt in Lz. destruct s as [|c s]; [done|].
    intros [= ->]. by cbn in Lz. }
  destruct (Z.eq_dec (dval s) 0) as [E0|E0].
  - rewrite E0. destruct N as [L|N]; [|pose proof (dval_lower s Ex N Ne); pose proof (Z.pow_pos_nonneg 10 (Z.of_nat (length s) - 1)); destruct s; [done|cbn [length] in *; lia]].
    destruct s as [|c [|]]; [done| |cbn in L; lia]. unfold dval, accumulate, id in E0. cbn [fold_left] in E0. replace c with 0x30 by lia. reflexivity.
  - destruct (canonical_digits (dval s)) as (ds & -> & D & V & Nl & Nd); [lia|]. symmetry. apply no_lead_inj; try done.
    destruct N as [L|]; [|done]. destruct s as [|c [|]]; [done| |cbn in L; lia]. intros [= ->]. by cbn in E0.
Qed.

(** The array reading compiled into a token is the one the uncompiled
    lookup computes: a number exactly when the token is the canonical decimal
    spelling of an index below 2^63, absent for the dash, and an error for
    every other token. *)
Theorem pointer_index_spec (t : list Z) :
  arrayIndex (token_of t) = parsePointerIndex t /\
  (forall n, parsePointerIndex t = Ok (n, true) <-> 0 <= n < 2 ^ 63 /\ t = appendDecimalUint64 [] n) /\
  (parsePointerIndex t = Ok (0, false) <-> t = [0x2d]) /\
  parsePointerIndex t <> OutOfFuel.
Proof.
  split_and!.
  - unfold arrayIndex, token_of, parsePointerIndex. destruct (classifyPointerIndex t) as [[i k] m] eqn:E. cbn [indexKind index indexMessage text].
    destruct k; try done. unfold classifyPointerIndex in E. repeat case_match; by simplify_eq.
  - intros n. unfold parsePointerIndex. split.
    + destruct (classifyPointerIndex t) as [[i k] m] eqn:E. destruct k; try done. intros [= ->]. by eapply classify_number.
    + intros [H ->]. by rewrite classify_canonical.
  - unfold parsePointerIndex. split; [|by intros ->]. unfold classifyPointerIndex. case_bool_decide; [done|]. intros E. repeat case_match; by simplify_eq.
  - unfold parsePointerIndex. destruct (classifyPointerIndex t) as [[i [| |]] m]; done.
Qed.
