(* ===== verification/QueryDecimal.v ===== *)
(** * QueryDecimal: the query engine's decimal order

    Models query/decimal.go: the decomposition of a validated number spelling
    into two digit runs and a weight, and the comparison by sign, weight and
    digits, with its fallback for exponents wider than eighteen digits.  Below
    that width the comparison is proved to be the order of the denoted decimals;
    an example shows the fallback misorder values whose exponents differ. *)
From Stdlib Require Import ZArith Lia List Bool.
From stdpp Require Import base numbers list.
From S2P Require Import Prelude Utf8 Grammar Lex NumberEqual OrderedKey.

Open Scope Z_scope.

Record decimal := mkDecimal {
  dec_neg : bool;
  dec_zero : bool;
  intDigits : list Z;
  fracDigits : list Z;
  dec_weight : Z;
  expWide : bool;
  dec_expNeg : bool;
  expDigit : list Z;
}.

(** [for hi > lo && src[hi-1] == '0' { hi-- }]; [n] is [hi - lo]. *)
Fixpoint trimRight (src : list Z) (lo n : nat) : nat :=
  match n with
  | O => lo
  | S n' => if byteAt src (lo + n') (fun c => c =? 0x30) then trimRight src lo n' else (lo + n)%nat
  end.

(** The digit runs once the leading digit is known. *)
Definition digitRuns (src : list Z) (l : numLayout) (intSignificant : bool) (fracFrom : nat) : list Z * list Z :=
  let fracLast := trimRight src fracFrom (fracEnd l - fracFrom) in
  if (fracFrom <? fracLast)%nat
  then (if intSignificant then slice src (intStart l) (intEnd l) else [], slice src fracFrom fracLast)
  else
    let intLast := trimRight src (intStart l) (intEnd l - intStart l) in
    (slice src (intStart l) intLast, []).

(** The scan over sign, integer, fraction and exponent is that of
    number_equal.go: [numberLayout] and [parseExp]. *)
Definition parseDecimal (src : list Z) : decimal :=
  let l := numberLayout src in
  let '(expNeg, expDigit, expFits, exp) := parseExp src (expStart l) in
  let intSignificant := (intStart l <? intEnd l)%nat && byteAt src (intStart l) (fun c => negb (c =? 0x30)) in
  let lead := if intSignificant then Z.of_nat (fracStart l) else firstNonzero src (fracEnd l - fracStart l) (fracStart l) in
  if lead <? 0 then mkDecimal (l_neg l) true [] [] 0 (negb expFits) expNeg expDigit
  else
    let adj := if intSignificant then Z.of_nat (intEnd l - intStart l) - 1 else - (lead - Z.of_nat (fracStart l)) - 1 in
    let weight := if expFits : bool then i64 (exp + adj) else 0 in
    let '(di, df) := digitRuns src l intSignificant (Z.to_nat lead) in
    mkDecimal (l_neg l) false di df weight (negb expFits) expNeg expDigit.

Definition digitAt (d : decimal) (i : nat) : option Z :=
  if (i <? length (intDigits d))%nat then intDigits d !! i
  else fracDigits d !! (i - length (intDigits d))%nat.

(** The digit loop; each turn moves to the next digit of both. *)
Fixpoint compareDigitsFrom (fuel : nat) (a b : decimal) (i : nat) : res Empty_set Z :=
  match fuel with
  | O => OutOfFuel
  | S fuel =>
      match digitAt a i, digitAt b i with
      | None, None => Ok 0
      | Some _, None => Ok 1
      | None, Some _ => Ok (-1)
      | Some ad, Some bd => if negb (ad =? bd) then Ok (if ad <? bd then -1 else 1) else compareDigitsFrom fuel a b (S i)
      end
  end.

Definition compareDigits (a b : decimal) : res Empty_set Z :=
  compareDigitsFrom (S (length (intDigits a) + length (fracDigits a))) a b 0.

(** [bytesCompare] of query/scalar.go. *)
Fixpoint queryBytesCompare (a b : list Z) : Z :=
  match a, b with
  | [], [] => 0
  | [], _ :: _ => -1
  | _ :: _, [] => 1
  | x :: a, y :: b => if negb (x =? y) then (if x <? y then -1 else 1) else queryBytesCompare a b
  end.

Definition compareUnsignedDigitStrings (a b : list Z) : Z :=
  if negb (length a =? length b)%nat then (if (length a <? length b)%nat then -1 else 1) else queryBytesCompare a b.

Definition compareSignedDigitStrings (aNeg : bool) (a : list Z) (bNeg : bool) (b : list Z) : Z :=
  if negb (Bool.eqb aNeg bNeg) then (if aNeg then -1 else 1)
  else
    let m := compareUnsignedDigitStrings a b in
    if aNeg then - m else m.

Definition expMagnitude (d : decimal) : list Z * bool := if expWide d then (expDigit d, true) else ([], false).

Definition compareWeights (a b : decimal) : res Empty_set Z :=
  if negb (dec_weight a =? dec_weight b) then Ok (if dec_weight a <? dec_weight b then -1 else 1) else compareDigits a b.

Definition compareWideExp (a b : decimal) : res Empty_set Z :=
  let '(aMag, aWide) := expMagnitude a in
  let '(bMag, bWide) := expMagnitude b in
  if negb aWide && negb bWide then compareWeights a b
  else
    let s := compareSignedDigitStrings (dec_expNeg a) aMag (dec_expNeg b) bMag in
    if negb (s =? 0) then Ok s else compareDigits a b.

Definition compareMagnitude (a b : decimal) : res Empty_set Z :=
  if expWide a || expWide b then compareWideExp a b else compareWeights a b.

Definition compareDecimals (a b : decimal) : res Empty_set Z :=
  if dec_zero a && dec_zero b then Ok 0
  else if dec_zero a then Ok (if dec_neg b then 1 else -1)
  else if dec_zero b then Ok (if dec_neg a then -1 else 1)
  else if negb (Bool.eqb (dec_neg a) (dec_neg b)) then Ok (if dec_neg a then -1 else 1)
  else mag ← compareMagnitude a b; Ok (if dec_neg a then - mag else mag).

Definition compareNumberBytes (a b : list Z) : res Empty_set Z :=
  if bool_decide (a = b) then Ok 0 else compareDecimals (parseDecimal a) (parseDecimal b).

Example compare_ex :
  compareNumberBytes [0x31; 0x30; 0x30; 0x2e; 0x35] [0x31; 0x65; 0x32] = Ok 1 /\
  compareNumberBytes [0x2d; 0x30; 0x2e; 0x30; 0x31] [0x2d; 0x30] = Ok (-1) /\
  compareNumberBytes [0x31; 0x30; 0x65; 0x2d; 0x31] [0x31; 0x2e; 0x30] = Ok 0.
Proof. vm_compute. done. Qed.

(** ** Digit runs *)

Lemma trimRight_zeros src lo k t : At src lo (zeros k ++ t) -> trimRight src lo k = lo.
Proof.
  revert t. induction k as [|k IH]; intros t H; [done|]. cbn [trimRight].
  assert (E : zeros (S k) ++ t = zeros k ++ 0x30 :: t) by (unfold zeros; rewrite replicate_S_end, <- app_assoc; done).
  rewrite E in H. pose proof (At_zeros _ _ _ _ H) as H2. rewrite (byteAt_At _ _ _ _ H2). cbn [Z.eqb Pos.eqb]. by apply (IH (0x30 :: t)).
Qed.

Lemma trimRight_found src lo Y c k t :
  At src lo ((Y ++ [c]) ++ zeros k ++ t) -> c <> 0x30 -> trimRight src lo (length Y + 1 + k) = (lo + length Y + 1)%nat.
Proof.
  intros H N. revert t H. induction k as [|k IH]; intros t H.
  - replace (length Y + 1 + 0)%nat with (S (length Y)) by lia. cbn [trimRight]. rewrite <- app_assoc in H. apply At_app in H.
    rewrite (byteAt_At _ _ _ _ H). cbn [app]. replace (c =? 0x30) with false by lia. lia.
  - replace (length Y + 1 + S k)%nat with (S (length Y + 1 + k)) by lia. cbn [trimRight].
    assert (E : zeros (S k) ++ t = zeros k ++ 0x30 :: t) by (unfold zeros; rewrite replicate_S_end, <- app_assoc; done).
    rewrite E in H. pose proof (At_zeros _ _ _ _ (At_app _ _ _ _ H)) as H2. rewrite length_app in H2. cbn [length] in H2.
    replace (lo + (length Y + 1 + k))%nat with (lo + (length Y + 1) + k)%nat by lia. rewrite (byteAt_At _ _ _ _ H2). cbn [Z.eqb Pos.eqb].
    by apply (IH (0x30 :: t)).
Qed.

(** An exponent of at most eighteen digits. *)
Definition narrow (p : numparts) : Prop := - 10 ^ 18 < exp_value p < 10 ^ 18.

Lemma narrow_length neg es p : digits es -> no_lead es -> signed neg (dval es) = exp_value p -> narrow p -> (length es <= 18)%nat.
Proof.
  intros D N E B. destruct es as [|c es']; [cbn; lia|]. set (es := c :: es') in *. assert (Ne : es <> []) by done. clearbody es.
  pose proof (dval_lower es D N Ne) as L. unfold narrow, signed in *. destruct (Nat.leb_spec (length es) 18); [done|].
  assert (10 ^ 18 <= 10 ^ (Z.of_nat (length es) - 1)) by (apply Z.pow_le_mono_r; lia). pose proof (dval_bounds es D). destruct neg; lia.
Qed.

Section ParseDecimal.
Variable p : numparts.
Hypothesis Hp : np_ok p.

Notation src := (np_print p).
Notation sgn := (length (np_sign_bytes p)).
Notation I := (length (np_int p)).
Notation F := (length (np_frac p)).

(** The runs are the significant digits of the combined sequence. *)
Definition runs_ok (di df : list Z) (lead : nat) : Prop :=
  exists D k, di ++ df = D /\ np_int p ++ np_frac p = zeros lead ++ D ++ zeros k /\ no_lead D /\ no_trail D /\ D <> [].

Lemma int_slice : slice src sgn (sgn + I) = np_int p.
Proof. pose proof (int_At p) as H. exact (At_slice _ _ _ _ _ H (At_app _ _ _ _ H)). Qed.

Lemma runs_int l :
  layout_of p l -> head (np_int p) <> Some 0x30 -> let '(di, df) := digitRuns src l true (fracStart l) in runs_ok di df 0.
Proof.
  intros (_ & His & Hie & _ & Hf) Nz. unfold digitRuns. rewrite His, Hie.
  assert (Ni : np_int p <> []) by (destruct Hp as ([-> | (? & ? & -> & _)] & _); done).
  destruct (trail_split (np_frac p)) as [Ef|(Y & c & k & Ef & N)].
  - assert (T : trimRight src (fracStart l) (fracEnd l - fracStart l) = fracStart l).
    { destruct Hf as [(_ & _ & -> & ->)|(Nf & _ & -> & ->)]; [done|]. pose proof (frac_At p Nf) as H. rewrite Ef in H.
      replace (S (sgn + I) + F - S (sgn + I))%nat with F by lia. by apply trimRight_zeros in H. }
    rewrite T, Nat.ltb_irrefl. replace (sgn + I - sgn)%nat with I by lia.
    destruct (trail_split (np_int p)) as [Ei|(Y & c & k & Ei & N)]; [rewrite Ei in Nz; by destruct (np_int p)|].
    pose proof (int_At p) as H. rewrite Ei in H at 1.
    assert (E : (Y ++ c :: zeros k) ++ np_frac_bytes p ++ np_exp_bytes p = (Y ++ [c]) ++ zeros k ++ np_frac_bytes p ++ np_exp_bytes p) by by rewrite <- !app_assoc.
    rewrite E in H. assert (LI : I = (length Y + 1 + k)%nat) by (rewrite Ei, length_app; cbn [length]; unfold zeros; rewrite length_replicate; lia).
    rewrite LI at 1. rewrite (trimRight_found src sgn Y c k _ H N).
    assert (S : slice src sgn (sgn + length Y + 1) = Y ++ [c]).
    { apply (At_slice _ _ _ _ _ H). replace (sgn + length Y + 1)%nat with (sgn + length (Y ++ [c]))%nat by (rewrite length_app; cbn; lia). by apply At_app. }
    rewrite S. exists (Y ++ [c]), (k + F)%nat. rewrite app_nil_r. cbn [zeros replicate app]. split_and!; [done| | | |by destruct Y].
    + rewrite Ei at 1. rewrite Ef at 1. unfold zeros. by rewrite replicate_add, <- !app_assoc.
    + rewrite Ei in Nz. by destruct Y.
    + unfold no_trail. rewrite last_snoc. congruence.
  - destruct Hf as [(X & _)|(Nf & _ & -> & ->)]; [by rewrite Ef in X; destruct Y|]. pose proof (frac_At p Nf) as H. rewrite Ef in H at 1.
    assert (E : (Y ++ c :: zeros k) ++ np_exp_bytes p = (Y ++ [c]) ++ zeros k ++ np_exp_bytes p) by by rewrite <- !app_assoc.
    rewrite E in H. replace (S (sgn + I) + F - S (sgn + I))%nat with (length Y + 1 + k)%nat
      by (rewrite Ef, length_app; cbn [length]; unfold zeros; rewrite length_replicate; lia).
    rewrite (trimRight_found src _ Y c k _ H N). rewrite (proj2 (Nat.ltb_lt _ _)) by lia. rewrite int_slice.
    assert (S : slice src (S (sgn + I)) (S (sgn + I) + length Y + 1) = Y ++ [c]).
    { apply (At_slice _ _ _ _ _ H). replace (S (sgn + I) + length Y + 1)%nat with (S (sgn + I) + length (Y ++ [c]))%nat by (rewrite length_app; cbn; lia). by apply At_app. }
    rewrite S. exists (np_int p ++ Y ++ [c]), k. cbn [zeros replicate app]. split_and!; [done| | | |].
    + rewrite Ef at 1. by rewrite <- !app_assoc.
    + by destruct (np_int p).
    + unfold no_trail. rewrite app_assoc, last_snoc. congruence.
    + by destruct (np_int p).
Qed.

Lemma runs_frac l z c Y :
  layout_of p l -> np_int p = [0x30] -> np_frac p = zeros z ++ c :: Y -> c <> 0x30 ->
  let '(di, df) := digitRuns src l false (S (sgn + I) + z) in runs_ok di df (S z).
Proof.
  intros (_ & His & Hie & _ & Hf) Ei Ef N. unfold digitRuns.
  destruct (trail_split (c :: Y)) as [X|(Y' & e & k & X & N')]; [cbn in X; injection X as X _; lia|].
  destruct Hf as [(E & _)|(Nf & _ & _ & ->)]; [by rewrite Ef in E; destruct z|]. pose proof (frac_At p Nf) as H.
  rewrite Ef, X, <- app_assoc in H at 1. apply At_zeros in H.
  assert (E : (Y' ++ e :: zeros k) ++ np_exp_bytes p = (Y' ++ [e]) ++ zeros k ++ np_exp_bytes p) by by rewrite <- !app_assoc.
  rewrite E in H. replace (S (sgn + I) + F - (S (sgn + I) + z))%nat with (length Y' + 1 + k)%nat
    by (rewrite Ef, X, !length_app; cbn [length]; unfold zeros; rewrite !length_replicate; lia).
  rewrite (trimRight_found src _ Y' e k _ H N'). rewrite (proj2 (Nat.ltb_lt _ _)) by lia.
  assert (S : slice src (S (sgn + I) + z) (S (sgn + I) + z + length Y' + 1) = Y' ++ [e]).
  { apply (At_slice _ _ _ _ _ H). replace (S (sgn + I) + z + length Y' + 1)%nat with (S (sgn + I) + z + length (Y' ++ [e]))%nat by (rewrite length_app; cbn; lia). by apply At_app. }
  rewrite S. exists (Y' ++ [e]), k. split_and!; [done| | | |by destruct Y'].
  - rewrite Ei, Ef, X. cbn. by rewrite <- !app_assoc.
  - destruct Y'; injection X as -> _; unfold no_lead; cbn; congruence.
  - unfold no_trail. rewrite last_snoc. congruence.
Qed.

Hypothesis Hlen : Z.of_nat (length src) < 2 ^ 32.
Hypothesis Hn : narrow p.

Definition decimal_ok (d : decimal) : Prop :=
  exists D k, intDigits d ++ fracDigits d = D /\ digits D /\ no_lead D /\ no_trail D /\ D <> [] /\ 0 <= k /\
    np_mantissa p = signed (np_neg p) (dval D) * 10 ^ k /\ np_exponent p + k = dec_weight d - Z.of_nat (length D) + 1.

Lemma decimal_ok_intro neg di df z exp adj wide eneg ed :
  runs_ok di df z -> exp = exp_value p -> adj = Z.of_nat I - 1 - Z.of_nat z ->
  decimal_ok (mkDecimal neg false di df (i64 (exp + adj)) wide eneg ed).
Proof.
  intros (D & k & E & Ex & N & T & Ne) -> ->. exists D, (Z.of_nat k).
  assert (HD : digits (zeros z ++ D ++ zeros k)) by (rewrite <- Ex; apply digits_app; split; [by apply int_digits|by apply frac_digits]).
  apply digits_app in HD as [_ HD]. apply digits_app in HD as [HD _].
  assert (Lz : (z + length D + k = I + F)%nat).
  { rewrite <- length_app, Ex, !length_app. unfold zeros. rewrite !length_replicate. lia. }
  assert (Lp : (I + F <= length src)%nat).
  { unfold np_print, np_frac_bytes. rewrite !length_app. destruct (np_frac p); cbn [length]; lia. }
  cbn [intDigits fracDigits dec_weight]. split_and!; [done..|lia| |].
  - unfold np_mantissa. rewrite Ex, dval_zeros_app, dval_app_zeros, <- signed_mul. done.
  - unfold narrow in Hn. rewrite i64_small by lia. unfold np_exponent. lia.
Qed.

Lemma parseDecimal_spec :
  let d := parseDecimal src in
  dec_neg d = np_neg p /\ expWide d = false /\
  (dec_zero d = true /\ np_mantissa p = 0 \/ dec_zero d = false /\ decimal_ok d).
Proof.
  cbn zeta. unfold parseDecimal. pose proof (numberLayout_spec p Hp) as Hl. set (l := numberLayout src) in *. clearbody l.
  destruct (parseExp_spec p src (expStart l) Hp) as (neg & es & exp & -> & De & Ne & Ve & Fe); [apply Hl|].
  pose proof (narrow_length neg es p De Ne Ve Hn) as Le. rewrite (proj2 (Nat.leb_le _ _) Le). specialize (Fe Le). cbn [negb].
  pose proof Hl as (Hneg & His & Hie & _ & Hf). rewrite His, Hie, Hneg.
  assert (LI : (0 < I)%nat) by (destruct Hp as ([-> | (? & ? & -> & _)] & _); cbn; lia).
  rewrite (proj2 (Nat.ltb_lt sgn (sgn + I))) by lia. rewrite (byteAt_At _ _ _ _ (int_At p)). cbn [andb].
  destruct Hp as ([Ei|(d & ds & Ei & Hd & _)] & _).
  - rewrite Ei. cbn [app negb Z.eqb Pos.eqb]. destruct (lead_split (np_frac p)) as [Ef|(z & c & Y & Ef & N)].
    + assert (E : firstNonzero src (fracEnd l - fracStart l) (fracStart l) = -1).
      { destruct Hf as [(_ & _ & -> & ->)|(Nf & _ & -> & ->)]; [done|]. pose proof (frac_At p Nf) as H. rewrite Ef in H at 1.
        replace (S (sgn + I) + F - S (sgn + I))%nat with F by lia. by apply firstNonzero_zeros in H. }
      rewrite E. cbn. split_and!; [done..|]. left. split; [done|]. unfold np_mantissa. rewrite Ei, Ef.
      assert (V : dval ([48] ++ zeros F) = 0) by apply (dval_zeros (S F)). rewrite V. by destruct (np_neg p).
    + destruct Hf as [(X & _)|(Nf & _ & Hfs & Hfe)]; [by rewrite Ef in X; destruct z|]. pose proof (frac_At p Nf) as H. rewrite Ef, <- app_assoc in H at 1.
      rewrite (firstNonzero_found src _ (fracStart l) z c (Y ++ np_exp_bytes p)); [|by rewrite Hfs|done|].
      2: { rewrite Hfs, Hfe, Ef, length_app. cbn [length]. unfold zeros. rewrite length_replicate. lia. }
      case_match eqn:Ez; [apply Z.ltb_lt in Ez; lia|]. rewrite Nat2Z.id, Hfs.
      pose proof (runs_frac l z c Y Hl Ei Ef N) as R. destruct (digitRuns src l false (S (sgn + I) + z)) as [di df].
      split_and!; [done..|]. right. split; [done|]. eapply decimal_ok_intro; [exact R|done|]. rewrite Ei. cbn [length]. lia.
  - unfold isOneNine in Hd. rewrite Ei. cbn [app]. replace (d =? 0x30) with false by lia. cbn [negb].
    case_match eqn:Ez; [apply Z.ltb_lt in Ez; lia|]. rewrite Nat2Z.id, <- Ei.
    assert (Nz : head (np_int p) <> Some 0x30) by (rewrite Ei; cbn; intros [= ->]; lia).
    pose proof (runs_int l Hl Nz) as R. destruct (digitRuns src l true (fracStart l)) as [di df].
    split_and!; [done..|]. right. split; [done|]. eapply decimal_ok_intro; [exact R|done|]. lia.
Qed.
End ParseDecimal.

(** ** The comparison *)

Definition sign_of (c : comparison) : Z := match c with Lt => -1 | Eq => 0 | Gt => 1 end.

Lemma digitAt_app d i : digitAt d i = (intDigits d ++ fracDigits d) !! i.
Proof.
  unfold digitAt. destruct (Nat.ltb_spec i (length (intDigits d))); [by rewrite lookup_app_l|by rewrite lookup_app_r].
Qed.

Lemma compareDigitsFrom_spec fuel a b i :
  (length (intDigits a ++ fracDigits a) < fuel + i)%nat ->
  compareDigitsFrom fuel a b i = Ok (sign_of (bytesCompare (drop i (intDigits a ++ fracDigits a)) (drop i (intDigits b ++ fracDigits b)))) \/
  (i > length (intDigits a ++ fracDigits a))%nat.
Proof.
  revert i. induction fuel as [|fuel IH]; intros i L; [right; lia|left]. cbn [compareDigitsFrom]. rewrite !digitAt_app.
  set (A := intDigits a ++ fracDigits a) in *. set (B := intDigits b ++ fracDigits b) in *.
  destruct (A !! i) as [x|] eqn:Ea, (B !! i) as [y|] eqn:Eb.
  - rewrite (drop_S _ _ _ Ea), (drop_S _ _ _ Eb). cbn [bytesCompare]. destruct (Z.eqb_spec x y) as [->|N]; cbn [negb].
    + rewrite Z.compare_refl. apply lookup_lt_Some in Ea. destruct (IH (S i)) as [->|]; [lia|done|lia].
    + destruct (Z.ltb_spec x y); [by rewrite (proj2 (Z.compare_lt_iff x y))|by rewrite (proj2 (Z.compare_gt_iff x y)) by lia].
  - rewrite (drop_S _ _ _ Ea). apply lookup_ge_None in Eb. by rewrite (drop_ge B) by lia.
  - rewrite (drop_S _ _ _ Eb). apply lookup_ge_None in Ea. by rewrite (drop_ge A) by lia.
  - apply lookup_ge_None in Ea, Eb. by rewrite (drop_ge A), (drop_ge B) by lia.
Qed.

Lemma compareDigits_spec a b :
  compareDigits a b = Ok (sign_of (bytesCompare (intDigits a ++ fracDigits a) (intDigits b ++ fracDigits b))).
Proof.
  unfold compareDigits. destruct (compareDigitsFrom_spec (S (length (intDigits a) + length (fracDigits a))) a b 0) as [->|H]; [rewrite length_app; lia|done|lia].
Qed.

(** Digit sequences compare as the fractions they spell. *)
Lemma bytesCompare_fraction D1 D2 :
  digits D1 -> digits D2 -> no_trail D1 -> no_trail D2 -> bytesCompare D1 D2 = fractionCompare D1 D2.
Proof.
  intros G1 G2 T1 T2. pose proof (fractionKey_cmp false D1 D2 G1 G2 T1 T2) as K. cbn in K.
  assert (E : keyCmp (fractionKey false D1) (fractionKey false D2) = Some (bytesCompare D1 D2)); [|congruence].
  clear K T1 T2. revert D2 G2. unfold fractionKey. induction G1 as [|c D1 Hc _ IH]; intros D2 G2; destruct G2 as [|d D2 Hd G2]; cbn [map app keyCmp bytesCompare]; unfold digitCode.
  - done.
  - apply digit_range in Hd. by rewrite (proj2 (Z.compare_lt_iff 0 (d - 48 + 1))) by lia.
  - apply digit_range in Hc. by rewrite (proj2 (Z.compare_gt_iff (c - 48 + 1) 0)) by lia.
  - replace (c - 48 + 1 ?= d - 48 + 1) with (c ?= d) by (destruct (Z.compare_spec c d), (Z.compare_spec (c - 48 + 1) (d - 48 + 1)); lia || done).
    destruct (c ?= d); [by apply IH|done..].
Qed.

Lemma sign_of_opp c : sign_of (CompOpp c) = - sign_of c.
Proof. by destruct c. Qed.

Lemma zero_compare_r m1 e1 e2 : valueCompare m1 e1 0 e2 = (m1 ?= 0).
Proof.
  unfold valueCompare. cbn zeta. rewrite Z.mul_0_l. pose proof (Z.pow_pos_nonneg 10 (e1 - Z.min e1 e2)).
  destruct (Z.compare_spec m1 0), (Z.compare_spec (m1 * 10 ^ (e1 - Z.min e1 e2)) 0); nia || done.
Qed.

Lemma decimal_ok_sign p d : decimal_ok p d -> np_mantissa p <> 0 /\ (np_neg p = true <-> np_mantissa p < 0).
Proof.
  intros (D & k & _ & G & _ & T & Ne & K & -> & _). pose proof (dval_pos D G T Ne). pose proof (Z.pow_pos_nonneg 10 k).
  unfold signed. destruct (np_neg p); (split; [nia|]); split; nia || done.
Qed.

(** C38: for two well-formed number spellings with exponents below 10^18 the
    query engine's comparison always returns, and returns the sign of the
    difference of the exact decimals they denote. *)
Theorem compareNumberBytes_exact (p q : numparts) :
  np_ok p -> np_ok q -> Z.of_nat (length (np_print p)) < 2 ^ 32 -> Z.of_nat (length (np_print q)) < 2 ^ 32 ->
  narrow p -> narrow q ->
  compareNumberBytes (np_print p) (np_print q) = Ok (sign_of (np_compare p q)).
Proof.
  intros Hp Hq Lp Lq Np Nq. unfold compareNumberBytes. case_bool_decide as E.
  { apply np_print_inj in E as ->; [|done..]. unfold np_compare, valueCompare. cbn zeta. by rewrite Z.compare_refl. }
  destruct (parseDecimal_spec p Hp Lp Np) as (Sp & Wp & Zp). destruct (parseDecimal_spec q Hq Lq Nq) as (Sq & Wq & Zq).
  set (a := parseDecimal (np_print p)) in *. set (b := parseDecimal (np_print q)) in *. clearbody a b.
  unfold compareDecimals, np_compare. destruct Zp as [(-> & ->)|(-> & Da)], Zq as [(-> & ->)|(-> & Db)]; cbn [andb].
  - unfold valueCompare. cbn zeta. by rewrite !Z.mul_0_l.
  - rewrite Sq. rewrite (valueCompare_antisym (np_mantissa q)), zero_compare_r. pose proof (decimal_ok_sign q b Db) as [Nz Sg].
    destruct (np_neg q); destruct (Z.compare_spec (np_mantissa q) 0); try done; naive_solver lia.
  - rewrite Sp, zero_compare_r. pose proof (decimal_ok_sign p a Da) as [Nz Sg].
    destruct (np_neg p); destruct (Z.compare_spec (np_mantissa p) 0); try done; naive_solver lia.
  - destruct Da as (D1 & k1 & R1 & G1 & L1 & T1 & E1 & K1 & M1 & X1). destruct Db as (D2 & k2 & R2 & G2 & L2 & T2 & E2 & K2 & M2 & X2).
    rewrite Sp, Sq, M1, M2, valueCompare_shift, X1, X2, signed_compare, magnitude_compare by (done || by apply dval_pos).
    assert (Mag : compareMagnitude a b = Ok (sign_of (andThen (dec_weight a ?= dec_weight b) (fractionCompare D1 D2)))).
    { unfold compareMagnitude, compareWeights. rewrite Wp, Wq. cbn [orb]. rewrite compareDigits_spec, R1, R2, bytesCompare_fraction by done.
      destruct (Z.eqb_spec (dec_weight a) (dec_weight b)) as [->|N]; cbn [negb]; [by rewrite Z.compare_refl|].
      destruct (Z.ltb_spec (dec_weight a) (dec_weight b)); [by rewrite (proj2 (Z.compare_lt_iff _ _))|by rewrite (proj2 (Z.compare_gt_iff (dec_weight a) (dec_weight b))) by lia]. }
    rewrite Mag. destruct (np_neg p), (np_neg q); cbn [Bool.eqb negb]; [by rewrite bind_Ok, sign_of_opp|done|done|by rewrite bind_Ok].
Qed.

Lemma np_ok_plain neg d ds f : isOneNine d = true -> digits ds -> digits f -> np_ok (NumParts neg (d :: ds) f None).
Proof. intros H1 H2 H3. split; [right; by exists d, ds|]. by split. Qed.

Lemma compareNumberBytes_exact_witness :
  compareNumberBytes [0x31; 0x32; 0x2e; 0x35] [0x31; 0x33] = Ok (sign_of (np_compare (NumParts false [0x31; 0x32] [0x35] None) (NumParts false [0x31; 0x33] [] None))).
Proof.
  apply (compareNumberBytes_exact (NumParts false [0x31; 0x32] [0x35] None) (NumParts false [0x31; 0x33] [] None));
    [apply np_ok_plain; by repeat constructor..|done|done|done|done].
Defined.

(** An example: beyond eighteen digits the fallback orders by the exponent literals alone:
    with exponents that differ in magnitude, 1000e999999999999999999 is above
    1e1000000000000000000 but compares below it, and 10e10^18 compares equal to
    1e10^18. *)
Example compareWideExp_misorders :
  let wide ds := NumParts false ds [] (Some (0x65, None, 0x31 :: replicate 18 0x30)) in
  let p := NumParts false [0x31; 0x30; 0x30; 0x30] [] (Some (0x65, None, replicate 18 0x39)) in
  exp_value p <> exp_value (wide [0x31]) /\
  compareNumberBytes (np_print p) (np_print (wide [0x31])) = Ok (-1) /\ np_compare p (wide [0x31]) = Gt /\
  compareNumberBytes (np_print (wide [0x31; 0x30])) (np_print (wide [0x31])) = Ok 0 /\ np_compare (wide [0x31; 0x30]) (wide [0x31]) = Gt.
Proof. cbv zeta. split; [by vm_compute|]. vm_compute. done. Qed.
