(* ===== verification/Posting.v ===== *)
(** * Posting: the compressed entries of index posting streams

    Models the entry codec of internal/storeio/posting_page.go.  An entry is a
    chunk number and a non-zero 64-bit mask of its rows.  A stream stores each
    entry as one variable-length integer, the chunk's distance from the entry
    before it with the single row of the mask, or the distance alone followed by
    the whole mask.  Includes [Uvarint] and [PutUvarint] of encoding/binary and
    [OnesCount64] of math/bits. *)
From Stdlib Require Import ZArith Lia List Bool Sorted.
From stdpp Require Import base numbers list strings.
From S2P Require Import Prelude Utf8 Leases Bytes.

Open Scope Z_scope.

(** ** encoding/binary and math/bits *)

Definition MaxVarintLen64 : nat := 10.

(** The bytes PutUvarint writes.  After nine shifts a uint64 is below two, so
    nine continuation bytes are enough. *)
Fixpoint uvarintBytes (fuel : nat) (x : Z) : list Z :=
  match fuel with
  | O => [x mod 256]
  | S fuel =>
      if 0x80 <=? x then Z.lor (x mod 256) 0x80 :: uvarintBytes fuel (Z.shiftr x 7) else [x mod 256]
  end.

(** [binary.PutUvarint(buf[position:], x)]: the buffer and the bytes written. *)
Definition PutUvarint (buf : list Z) (position : nat) (x : Z) : io_res (list Z * nat) :=
  let bs := uvarintBytes 9 x in
  if (position + length bs <=? length buf)%nat then Ok (setBytes buf position bs, length bs) else Err Panic.

(** [binary.Uvarint]: the value and the bytes read, zero for a short buffer and
    negative for an overflow. *)
Fixpoint uvarintLoop (buf : list Z) (i : nat) (x s : Z) : Z * Z :=
  match buf with
  | [] => (0, 0)
  | b :: rest =>
      if (i =? MaxVarintLen64)%nat then (0, - (Z.of_nat i + 1))
      else if b <? 0x80 then
        if (i =? MaxVarintLen64 - 1)%nat && (1 <? b) then (0, - (Z.of_nat i + 1))
        else (Z.lor x (wrap64 (Z.shiftl b s)), Z.of_nat i + 1)
      else uvarintLoop rest (S i) (Z.lor x (wrap64 (Z.shiftl (Z.land b 0x7f) s))) (s + 7)
  end.

Definition Uvarint (buf : list Z) : Z * Z := uvarintLoop buf 0 0 0.

Fixpoint pos_ones (p : positive) : Z :=
  match p with xH => 1 | xO q => pos_ones q | xI q => 1 + pos_ones q end.
Definition OnesCount64 (x : Z) : Z := match x with Zpos p => pos_ones p | _ => 0 end.

(** ** posting_page.go: entries *)

Record PostingEntry := mkEntry { Chunk : Z; Bits : Z }.

#[export] Instance PostingEntry_eq_dec : EqDecision PostingEntry.
Proof. solve_decision. Defined.

Fixpoint postingUvarintLenLoop (fuel : nat) (value : Z) (length : nat) : nat :=
  match fuel with
  | O => length
  | S fuel => if 0x80 <=? value then postingUvarintLenLoop fuel (Z.shiftr value 7) (length + 1) else length
  end.
Definition postingUvarintLen (value : Z) : nat := postingUvarintLenLoop 9 value 1.

(** [mask&(mask-1) == 0] on uint64. *)
Definition singleBit (mask : Z) : bool := Z.land mask (wrap64 (mask - 1)) =? 0.

Definition singleToken (delta mask : Z) : Z :=
  Z.lor (wrap64 (Z.shiftl delta 7)) (wrap64 (Z.shiftl (TrailingZeros64 mask) 1)).
Definition maskToken (delta : Z) : Z := Z.lor (wrap64 (Z.shiftl delta 1)) 1.

Definition postingEntryEncodedSize (delta mask : Z) : nat :=
  if singleBit mask then postingUvarintLen (singleToken delta mask)
  else (postingUvarintLen (maskToken delta) + 8)%nat.

(** [entry.Chunk - previous] on uint32, reset by the first entry. *)
Definition entryDelta (previous : Z) (entry : PostingEntry) (first : bool) : Z :=
  if first then 0 else (Chunk entry - previous) mod 2 ^ 32.

Definition PostingEntryEncodedSize (previous : Z) (entry : PostingEntry) (first : bool) : io_res nat :=
  if (Bits entry =? 0) || (negb first && (Chunk entry <=? previous))
  then Err (ErrInvalidWrite "unordered or empty posting")
  else Ok (postingEntryEncodedSize (entryDelta previous entry first) (Bits entry)).

(** The loop of PostingEntriesEncodedSize; [first] is [i == 0]. *)
Fixpoint entriesSizeLoop (entries : list PostingEntry) (previous : Z) (first : bool) (encodedLength : nat) : io_res nat :=
  match entries with
  | [] => Ok encodedLength
  | entry :: rest =>
      entrySize ← PostingEntryEncodedSize previous entry first;
      entriesSizeLoop rest (Chunk entry) false (encodedLength + entrySize)
  end.

Definition firstChunk (entries : list PostingEntry) : Z := match entries with [] => 0 | e :: _ => Chunk e end.

Definition PostingEntriesEncodedSize (entries : list PostingEntry) : io_res nat :=
  if (length entries =? 0)%nat || (65535 <? Z.of_nat (length entries))
  then Err (ErrInvalidWrite "posting entry count")
  else entriesSizeLoop entries (firstChunk entries) true 0.

(** The loop of PostingPagePrefix over the first [limit] entries. *)
Fixpoint prefixLoop (entries : list PostingEntry) (previous : Z) (first : bool) (encodedCapacity : Z)
    (count encodedSize : nat) : io_res (nat * nat) :=
  match entries with
  | [] => Ok (count, encodedSize)
  | entry :: rest =>
      entrySize ← PostingEntryEncodedSize previous entry first;
      if encodedCapacity <? Z.of_nat (encodedSize + entrySize) then Ok (count, encodedSize)
      else prefixLoop rest (Chunk entry) false encodedCapacity (count + 1) (encodedSize + entrySize)
  end.

Definition PostingPagePrefix (entries : list PostingEntry) (encodedCapacity : Z) : io_res (nat * nat) :=
  if (length entries =? 0)%nat || (encodedCapacity <=? 0) then Err (ErrInvalidWrite "posting prefix input")
  else
    '(count, encodedSize) ← prefixLoop (take (Z.to_nat 65535) entries) (firstChunk entries) true encodedCapacity 0 0;
    if (count =? 0)%nat then Err (ErrInvalidWrite "posting entry does not fit") else Ok (count, encodedSize).

(** The inner loop of EncodePostingPage: one entry, then the next. *)
Definition putEntry (payload : list Z) (position : nat) (delta bits : Z) : io_res (list Z * nat) :=
  if singleBit bits then
    '(payload, n) ← PutUvarint payload position (singleToken delta bits); Ok (payload, (position + n)%nat)
  else
    '(payload, n) ← PutUvarint payload position (maskToken delta);
    _ ← window payload (position + n) (position + n + 8);
    Ok (PutUint64 payload (position + n) bits, (position + n + 8)%nat).

Fixpoint putEntries (payload : list Z) (position : nat) (previous : Z) (first : bool) (entries : list PostingEntry)
    : io_res (list Z * nat) :=
  match entries with
  | [] => Ok (payload, position)
  | entry :: rest =>
      '(payload, position) ← putEntry payload position (entryDelta previous entry first) (Bits entry);
      putEntries payload position (Chunk entry) false rest
  end.

Definition noEntry : PostingEntry := mkEntry 0 0.

(** The end of decodePostingEntry: the chunk from the distance. *)
Definition finishEntry (previous : Z) (first : bool) (delta mask : Z) (position : nat) : PostingEntry * nat * bool :=
  if first then
    if negb (delta =? 0) then (noEntry, position, false) else (mkEntry previous mask, position, true)
  else if (delta =? 0) || (2 ^ 32 - 1 - previous <? delta) then (noEntry, position, false)
  else (mkEntry ((previous + delta) mod 2 ^ 32) mask, position, true).

(** The entry, the position after it and whether it was decoded. *)
Definition decodePostingEntry (src : list Z) (position : nat) (previous : Z) (first : bool) : PostingEntry * nat * bool :=
  if (length src <=? position)%nat then (noEntry, position, false)
  else
    let '(token, n) := Uvarint (drop position src) in
    if (n <=? 0) || negb (n =? Z.of_nat (postingUvarintLen token)) then (noEntry, position, false)
    else
      let position := (position + Z.to_nat n)%nat in
      if Z.land token 1 =? 0 then
        finishEntry previous first (Z.shiftr token 7) (wrap64 (Z.shiftl 1 (Z.land (Z.shiftr token 1) 63))) position
      else if (length src <? position + 8)%nat then (noEntry, position, false)
      else
        let mask := Uint64 (slice src position (position + 8)) 0 in
        if OnesCount64 mask <? 2 then (noEntry, (position + 8)%nat, false)
        else finishEntry previous first (Z.shiftr token 1) mask (position + 8)%nat.

(** ** The iterator *)

Record PostingIterator := mkIterator {
  it_entries : list Z;
  it_position : nat;
  it_remaining : nat;
  it_chunk : Z;
  it_first : bool;
}.

(** The receiver is not nil.  The boolean result is the option. *)
Definition Next (it : PostingIterator) : option PostingEntry * PostingIterator :=
  if (it_remaining it =? 0)%nat then (None, it)
  else
    let '(entry, next, ok) := decodePostingEntry (it_entries it) (it_position it) (it_chunk it) (it_first it) in
    if negb ok then (None, mkIterator (it_entries it) (it_position it) 0 (it_chunk it) (it_first it))
    else (Some entry, mkIterator (it_entries it) next (it_remaining it - 1) (Chunk entry) false).

(** The loop of OpenPostingPage over one segment: the position, the last chunk
    and the rows counted, or [None] at a malformed entry. *)
Fixpoint scanEntries (n : nat) (first : bool) (entries : list Z) (position : nat) (previousChunk rows : Z)
    : option (nat * Z * Z) :=
  match n with
  | O => Some (position, previousChunk, rows)
  | S n =>
      let '(entry, next, ok) := decodePostingEntry entries position previousChunk first in
      if negb ok then None
      else scanEntries n false entries next (Chunk entry) (wrap64 (rows + OnesCount64 (Bits entry)))
  end.

(** What a caller collects from an iterator, calling Next until it reports the end. *)
Fixpoint drain (fuel : nat) (it : PostingIterator) : list PostingEntry :=
  match fuel with
  | O => []
  | S fuel => match Next it with (None, _) => [] | (Some e, it) => e :: drain fuel it end
  end.

(** ** Masks with one bit *)

Lemma pos_ones_ge p : 1 <= pos_ones p.
Proof. induction p; cbn [pos_ones]; lia. Qed.

Lemma ones_pos mask : 0 < mask -> 1 <= OnesCount64 mask.
Proof. destruct mask; [lia| |lia]. intros _. apply pos_ones_ge. Qed.

Lemma land_pred_even q : Z.land (2 * q) (2 * q - 1) = 2 * Z.land q (q - 1).
Proof.
  replace (2 * q - 1) with (2 * (q - 1) + 1) by lia. apply Z.bits_inj'. intros i Hi.
  destruct (decide (i = 0)) as [->|]; [by rewrite Z.land_spec, !Z.testbit_even_0|].
  replace i with (Z.succ (i - 1)) by lia.
  by rewrite Z.land_spec, !Z.testbit_even_succ, Z.testbit_odd_succ, Z.land_spec by lia.
Qed.

Lemma land_pred_odd q : Z.land (2 * q + 1) (2 * q) = 2 * q.
Proof.
  apply Z.bits_inj'. intros i Hi. destruct (decide (i = 0)) as [->|]; [by rewrite Z.land_spec, Z.testbit_even_0, andb_false_r|].
  replace i with (Z.succ (i - 1)) by lia.
  by rewrite Z.land_spec, !Z.testbit_even_succ, Z.testbit_odd_succ, andb_diag by lia.
Qed.

Lemma ones_single_pos p :
  (Z.land (Zpos p) (Zpos p - 1) = 0 <-> pos_ones p = 1) /\ (pos_ones p = 1 -> Zpos p = 2 ^ pos_tz p) /\ 0 <= pos_tz p.
Proof.
  induction p as [q IH|q IH|]; cbn [pos_ones pos_tz].
  - pose proof (pos_ones_ge q). rewrite Pos2Z.inj_xI. replace (2 * Zpos q + 1 - 1) with (2 * Zpos q) by lia.
    rewrite land_pred_odd. lia.
  - destruct IH as (IH1 & IH2 & IH3). rewrite Pos2Z.inj_xO, land_pred_even. split_and!; [lia| |lia].
    intros E. rewrite Z.pow_add_r, <- IH2 by lia. done.
  - done.
Qed.

Lemma singleBit_spec mask : 0 < mask < 2 ^ 64 -> (singleBit mask = true <-> OnesCount64 mask = 1).
Proof.
  intros H. unfold singleBit, wrap64. rewrite Z.eqb_eq, Z.mod_small by lia. destruct mask as [|p|]; [lia| |lia].
  apply ones_single_pos.
Qed.

Lemma single_pow mask : 0 < mask < 2 ^ 64 -> singleBit mask = true ->
  mask = 2 ^ TrailingZeros64 mask /\ 0 <= TrailingZeros64 mask < 64.
Proof.
  intros H E. apply singleBit_spec in E; [|done]. destruct mask as [|p|]; [lia| |lia]. cbn [OnesCount64 TrailingZeros64] in *.
  destruct (ones_single_pos p) as (_ & E2 & E3). specialize (E2 E). split; [done|].
  split; [done|]. apply (Z.pow_lt_mono_r_iff 2); lia.
Qed.

Lemma pow_single slot : 0 <= slot < 64 -> singleBit (2 ^ slot) = true /\ TrailingZeros64 (2 ^ slot) = slot /\ 0 < 2 ^ slot < 2 ^ 64.
Proof.
  intros H. assert (B : 0 < 2 ^ slot < 2 ^ 64) by (split; [lia|apply Z.pow_lt_mono_r; lia]). split_and!; [| |apply B|apply B].
  - unfold singleBit, wrap64. rewrite Z.eqb_eq, Z.mod_small, Z.sub_1_r, <- Z.ones_equiv, Z.land_ones, Z.mod_same by lia. done.
  - replace (2 ^ slot) with (2 ^ slot * 1) by lia. rewrite tz_shift by lia. cbn. lia.
Qed.

(** ** Variable-length integers *)

Lemma low_byte_cont x : 0 <= x -> Z.lor (x mod 256) 0x80 = 128 + x mod 128.
Proof.
  intros H. assert (B : is_byte (x mod 256)) by (apply Z.mod_pos_bound; lia).
  rewrite (byte_table (fun b => Z.lor b 0x80) (fun b => 128 + b mod 128) ltac:(vm_compute; reflexivity) _ B).
  f_equal. dlia.
Qed.

Lemma land_7f b : 0 <= b -> Z.land b 0x7f = b mod 128.
Proof. intros. change 0x7f with (Z.ones 7). by rewrite Z.land_ones. Qed.

Lemma lor_place a c s : 0 <= s -> 0 <= a < 2 ^ s -> 0 <= c -> c * 2 ^ s < 2 ^ 64 -> Z.lor a (wrap64 (Z.shiftl c s)) = a + c * 2 ^ s.
Proof.
  intros Hs Ha Hc Hb. unfold wrap64. rewrite Z.mod_small by (rewrite Z.shiftl_mul_pow2 by lia; nia).
  rewrite Z.lor_comm, lor_shiftl by done. lia.
Qed.

Lemma uvarintBytes_ok fuel x : 0 <= x -> bytes_ok (uvarintBytes fuel x).
Proof.
  revert x. induction fuel as [|fuel IH]; intros x Hx; cbn [uvarintBytes].
  - apply Forall_singleton. apply Z.mod_pos_bound. lia.
  - destruct (0x80 <=? x); [|apply Forall_singleton, Z.mod_pos_bound; lia].
    apply Forall_cons. split; [rewrite low_byte_cont by done; unfold is_byte; dlia|]. apply IH. by apply Z.shiftr_nonneg.
Qed.

Lemma uvarintLen_loop fuel x n : postingUvarintLenLoop fuel x n = (n - 1 + length (uvarintBytes fuel x))%nat \/ n = 0%nat.
Proof.
  revert x n. induction fuel as [|fuel IH]; intros x n; cbn [postingUvarintLenLoop uvarintBytes]; [cbn; lia|].
  destruct (0x80 <=? x); [|cbn; lia]. destruct (IH (Z.shiftr x 7) (n + 1)%nat) as [->|]; cbn [length]; lia.
Qed.

Lemma postingUvarintLen_eq x : postingUvarintLen x = length (uvarintBytes 9 x).
Proof. unfold postingUvarintLen. destruct (uvarintLen_loop 9 x 1) as [->|]; lia. Qed.

(** The room left for the value of byte [i] on. *)
Definition varint_room (i : nat) : Z := 2 ^ (64 - 7 * Z.of_nat i).

Lemma varint_room_S i : (i < 9)%nat -> varint_room i = 128 * varint_room (S i).
Proof. intros H. unfold varint_room. change 128 with (2 ^ 7). rewrite <- Z.pow_add_r by lia. f_equal. lia. Qed.

Lemma varint_room_shift i : (i <= 9)%nat -> varint_room i * 2 ^ (7 * Z.of_nat i) = 2 ^ 64.
Proof. intros H. unfold varint_room. rewrite <- Z.pow_add_r by lia. f_equal. lia. Qed.

Lemma varint_step i acc x (b : Z) : (i < 9)%nat -> 0 <= acc < 2 ^ (7 * Z.of_nat i) -> 0 <= b < 128 -> 0 <= x < varint_room (S i) ->
  let acc' := Z.lor acc (wrap64 (Z.shiftl b (7 * Z.of_nat i))) in
  acc' = acc + b * 2 ^ (7 * Z.of_nat i) /\ 0 <= acc' < 2 ^ (7 * Z.of_nat (S i)) /\
  acc' + x * 2 ^ (7 * Z.of_nat (S i)) = acc + (b + 128 * x) * 2 ^ (7 * Z.of_nat i) /\ 0 <= b + 128 * x < varint_room i.
Proof.
  intros Hi Ha Hb Hx acc'. pose proof (varint_room_shift i ltac:(lia)) as R. rewrite varint_room_S in * by done.
  assert (P : 2 ^ (7 * Z.of_nat (S i)) = 128 * 2 ^ (7 * Z.of_nat i)) by (change 128 with (2 ^ 7); rewrite <- Z.pow_add_r by lia; f_equal; lia).
  assert (E : acc' = acc + b * 2 ^ (7 * Z.of_nat i)) by (apply lor_place; nia). rewrite E, P. nia.
Qed.

Lemma varint_last i acc (b : Z) : (i <= 9)%nat -> 0 <= acc < 2 ^ (7 * Z.of_nat i) -> 0 <= b < varint_room i ->
  Z.lor acc (wrap64 (Z.shiftl b (7 * Z.of_nat i))) = acc + b * 2 ^ (7 * Z.of_nat i).
Proof. intros Hi Ha Hb. pose proof (varint_room_shift i Hi). apply lor_place; nia. Qed.

(** Writing a value and reading it back, from byte [i] on. *)
Lemma uvarintLoop_bytes fuel i acc x rest : (i + fuel = 9)%nat -> 0 <= acc < 2 ^ (7 * Z.of_nat i) -> 0 <= x < varint_room i ->
  uvarintLoop (uvarintBytes fuel x ++ rest) i acc (7 * Z.of_nat i) =
  (acc + x * 2 ^ (7 * Z.of_nat i), Z.of_nat (i + length (uvarintBytes fuel x))).
Proof.
  revert i acc x. induction fuel as [|fuel IH]; intros i acc x Hi Ha Hx.
  - assert (i = 9%nat) as -> by lia. change (varint_room 9) with 2 in Hx. cbn [uvarintBytes]. rewrite Z.mod_small by lia.
    cbn [app uvarintLoop length]. cbv [MaxVarintLen64]. rewrite (proj2 (Z.ltb_lt x 128)), (proj2 (Z.ltb_ge 1 x)) by lia. cbn [Nat.eqb Nat.sub andb].
    rewrite varint_last by (try done; change (varint_room 9) with 2; lia). f_equal.
  - cbn [uvarintBytes]. destruct (Z.leb_spec 0x80 x).
    + rewrite low_byte_cont, Z.shiftr_div_pow2 by lia. change (2 ^ 7) with 128. cbn [app uvarintLoop length].
      unfold MaxVarintLen64. rewrite (proj2 (Nat.eqb_neq i 10)), (proj2 (Z.ltb_ge _ 128)) by dlia. rewrite land_7f by dlia.
      replace ((128 + x mod 128) mod 128) with (x mod 128) by dlia.
      assert (R : 0 <= x / 128 < varint_room (S i)) by (rewrite varint_room_S in Hx by lia; dlia).
      destruct (varint_step i acc (x / 128) (x mod 128) ltac:(lia) Ha ltac:(dlia) R) as (E1 & E2 & E3 & _).
      replace (7 * Z.of_nat i + 7) with (7 * Z.of_nat (S i)) by lia. rewrite IH by (done || lia). rewrite E3. f_equal; [|f_equal; lia].
      do 2 f_equal. dlia.
    + rewrite Z.mod_small by lia. cbn [app uvarintLoop length]. unfold MaxVarintLen64. change (10 - 1)%nat with 9%nat.
      rewrite (proj2 (Nat.eqb_neq i 10)), (proj2 (Nat.eqb_neq i 9)), (proj2 (Z.ltb_lt x 128)) by lia. cbn [andb].
      rewrite varint_last by (done || lia). f_equal. lia.
Qed.

Lemma Uvarint_bytes x rest : 0 <= x < 2 ^ 64 -> Uvarint (uvarintBytes 9 x ++ rest) = (x, Z.of_nat (postingUvarintLen x)).
Proof.
  intros H. pose proof (uvarintLoop_bytes 9 0 0 x rest eq_refl ltac:(done) H) as E.
  change (7 * Z.of_nat 0) with 0 in E. change (2 ^ 0) with 1 in E. unfold Uvarint. rewrite E, postingUvarintLen_eq. f_equal. lia.
Qed.

(** A value read in as many bytes as it needs was written by PutUvarint. *)
Lemma uvarintLoop_canonical buf : forall fuel i acc v n, bytes_ok buf -> (i + fuel = 9)%nat -> 0 <= acc < 2 ^ (7 * Z.of_nat i) ->
  uvarintLoop buf i acc (7 * Z.of_nat i) = (v, n) -> 0 < n ->
  Z.of_nat i < n /\ exists x, v = acc + x * 2 ^ (7 * Z.of_nat i) /\ 0 <= x < varint_room i /\
    (n = Z.of_nat (i + length (uvarintBytes fuel x)) -> exists rest, buf = uvarintBytes fuel x ++ rest).
Proof.
  induction buf as [|b buf IH]; intros fuel i acc v n Hb Hi Ha E Hn; cbn [uvarintLoop] in E; [simplify_eq; lia|].
  apply Forall_cons in Hb as [Bb Hb]. unfold is_byte in Bb. unfold MaxVarintLen64 in *. rewrite (proj2 (Nat.eqb_neq i 10)) in E by lia.
  destruct (Z.ltb_spec b 0x80).
  - destruct (_ && _) eqn:Eo; [simplify_eq; lia|]. cbn [Nat.sub] in Eo. assert (Hr : 0 <= b < varint_room i).
    { destruct (decide (i = 9%nat)) as [->|].
      - rewrite Nat.eqb_refl in Eo. apply Z.ltb_ge in Eo. change (varint_room 9) with 2. lia.
      - rewrite varint_room_S by lia. assert (0 < varint_room (S i)) by (apply Z.pow_pos_nonneg; lia). lia. }
    rewrite varint_last in E by (done || lia). simplify_eq. split; [lia|]. exists b. split_and!; [done|lia|lia|]. intros _. exists buf.
    assert (X : uvarintBytes fuel b = [b]) by (destruct fuel; cbn [uvarintBytes]; [|rewrite (proj2 (Z.leb_gt _ _)) by lia]; by rewrite Z.mod_small by lia).
    by rewrite X.
  - rewrite land_7f in E by lia. destruct fuel as [|fuel].
    { assert (i = 9%nat) as -> by lia. destruct buf; cbn in E; simplify_eq; lia. }
    replace (7 * Z.of_nat i + 7) with (7 * Z.of_nat (S i)) in E by lia.
    destruct (varint_step i acc 0 (b mod 128) ltac:(lia) Ha ltac:(dlia) ltac:(split; [lia|apply Z.pow_pos_nonneg; lia])) as (E1 & E2 & _).
    destruct (IH fuel (S i) _ v n Hb ltac:(lia) E2 E Hn) as (Hi' & x & -> & Hx & C).
    destruct (varint_step i acc x (b mod 128) ltac:(lia) Ha ltac:(dlia) Hx) as (_ & _ & E3 & E4).
    split; [lia|]. exists (b mod 128 + 128 * x). split_and!; [done|apply E4|apply E4|]. cbn [uvarintBytes]. destruct (Z.leb_spec 0x80 (b mod 128 + 128 * x)).
    + rewrite low_byte_cont, Z.shiftr_div_pow2 by lia. change (2 ^ 7) with 128.
      replace ((b mod 128 + 128 * x) / 128) with x by dlia. cbn [length]. intros N. destruct C as [rest ->]; [lia|].
      exists rest. cbn [app]. f_equal. dlia.
    + assert (x = 0) as -> by dlia. cbn [length]. intros N. lia.
Qed.

Lemma Uvarint_canonical buf v n : bytes_ok buf -> Uvarint buf = (v, n) -> 0 < n -> n = Z.of_nat (postingUvarintLen v) ->
  0 <= v < 2 ^ 64 /\ exists rest, buf = uvarintBytes 9 v ++ rest.
Proof.
  intros Hb E Hn N. destruct (uvarintLoop_canonical buf 9 0 0 v n Hb eq_refl ltac:(done) E Hn) as (_ & x & Ev & Hx & C).
  change (2 ^ (7 * Z.of_nat 0)) with 1 in Ev. replace x with v in * by lia. split; [exact Hx|]. apply C. by rewrite N, postingUvarintLen_eq.
Qed.

(** ** One entry *)

(** The bytes of an entry. *)
Definition entryBytes (delta bits : Z) : list Z :=
  if singleBit bits then uvarintBytes 9 (singleToken delta bits) else uvarintBytes 9 (maskToken delta) ++ le_bytes 8 bits.

Lemma entryBytes_length delta bits : length (entryBytes delta bits) = postingEntryEncodedSize delta bits.
Proof.
  unfold entryBytes, postingEntryEncodedSize. rewrite !postingUvarintLen_eq. destruct (singleBit bits); [done|].
  by rewrite length_app, le_bytes_length.
Qed.

Lemma singleToken_eq delta bits : 0 <= delta < 2 ^ 32 -> 0 < bits < 2 ^ 64 -> singleBit bits = true ->
  singleToken delta bits = delta * 128 + 2 * TrailingZeros64 bits.
Proof.
  intros Hd Hb Hs. destruct (single_pow bits Hb Hs) as [_ T]. unfold singleToken, wrap64.
  rewrite !Z.mod_small by (rewrite Z.shiftl_mul_pow2 by lia; lia). rewrite lor_shiftl; rewrite ?Z.shiftl_mul_pow2 by lia; lia.
Qed.

Lemma maskToken_eq delta : 0 <= delta < 2 ^ 32 -> maskToken delta = delta * 2 + 1.
Proof.
  intros Hd. unfold maskToken, wrap64. rewrite Z.mod_small by (rewrite Z.shiftl_mul_pow2 by lia; lia).
  rewrite lor_shiftl by lia. lia.
Qed.

(** A decoded entry follows [previous]: the first repeats its chunk. *)
Definition entry_follows (previous : Z) (first : bool) (e : PostingEntry) : Prop :=
  0 < Bits e < 2 ^ 64 /\ 0 <= Chunk e < 2 ^ 32 /\ (if first then Chunk e = previous else previous < Chunk e).

Lemma entryDelta_eq previous first e : 0 <= previous < 2 ^ 32 -> entry_follows previous first e ->
  0 <= entryDelta previous e first < 2 ^ 32 /\ Chunk e = previous + entryDelta previous e first /\ (first = false -> 0 < entryDelta previous e first).
Proof.
  intros Hp (_ & Hc & Hf). unfold entryDelta. destruct first; [lia|]. rewrite Z.mod_small by lia. lia.
Qed.

Lemma finishEntry_follows previous first e position : 0 <= previous < 2 ^ 32 -> entry_follows previous first e ->
  finishEntry previous first (entryDelta previous e first) (Bits e) position = (e, position, true).
Proof.
  intros Hp F. destruct (entryDelta_eq _ _ _ Hp F) as (D1 & D2 & D3). destruct F as (_ & Hc & Hf). unfold finishEntry.
  destruct e as [c b]; cbn [Chunk Bits] in *. destruct first; [cbn; by subst|].
  rewrite (proj2 (Z.eqb_neq _ 0)), (proj2 (Z.ltb_ge _ _)) by lia. cbn [orb]. by rewrite <- D2, Z.mod_small by lia.
Qed.

Lemma finishEntry_inv previous first delta mask position e next : 0 <= previous < 2 ^ 32 -> 0 <= delta -> 0 < mask < 2 ^ 64 ->
  finishEntry previous first delta mask position = (e, next, true) ->
  entry_follows previous first e /\ next = position /\ Bits e = mask /\ entryDelta previous e first = delta.
Proof.
  intros Hp Hd Hm. unfold finishEntry, entry_follows, entryDelta. destruct first.
  - destruct (Z.eqb_spec delta 0); cbn [negb]; [|done]. intros [= <- <-]. cbn. split_and!; done || lia.
  - destruct (Z.eqb_spec delta 0), (Z.ltb_spec (2 ^ 32 - 1 - previous) delta); cbn [orb]; try done. intros [= <- <-]. cbn [Chunk Bits].
    rewrite !Z.mod_small by lia. split_and!; done || lia.
Qed.

Lemma token_bits token : 0 <= token ->
  Z.land token 1 = token mod 2 /\ Z.land (Z.shiftr token 1) 63 = (token / 2) mod 64 /\ Z.shiftr token 7 = token / 128 /\ Z.shiftr token 1 = token / 2.
Proof.
  intros H. rewrite !Z.shiftr_div_pow2 by lia. change 1 with (Z.ones 1) at 1. change 63 with (Z.ones 6).
  rewrite !Z.land_ones by lia. done.
Qed.

Lemma wrap_pow slot : 0 <= slot < 64 -> wrap64 (Z.shiftl 1 slot) = 2 ^ slot.
Proof.
  intros H. unfold wrap64. rewrite Z.shiftl_1_l. apply Z.mod_small. destruct (pow_single slot H) as (_ & _ & ?). lia.
Qed.

Lemma uvarintBytes_pos fuel x : (0 < length (uvarintBytes fuel x))%nat.
Proof. destruct fuel; cbn [uvarintBytes]; [cbn; lia|]. case_match; cbn; lia. Qed.

Lemma drop_slice_app {A} (src a b : list A) pos : drop pos src = a ++ b ->
  drop (pos + length a) src = b /\ slice src pos (pos + length a) = a /\ (pos + length a <= length src \/ a = [] /\ b = [])%nat.
Proof.
  intros E. split_and!.
  - by rewrite <- drop_drop, E, drop_app_length.
  - unfold slice. replace (pos + length a - pos)%nat with (length a) by lia. by rewrite E, take_app_length.
  - apply (f_equal length) in E. rewrite length_drop, length_app in E. destruct a, b; cbn in *; auto; lia.
Qed.

(** Encoding an entry and decoding it. *)
Lemma decode_entryBytes src pos previous first e rest : 0 <= previous < 2 ^ 32 -> entry_follows previous first e ->
  drop pos src = entryBytes (entryDelta previous e first) (Bits e) ++ rest ->
  decodePostingEntry src pos previous first = (e, (pos + postingEntryEncodedSize (entryDelta previous e first) (Bits e))%nat, true).
Proof.
  intros Hp F E. destruct (entryDelta_eq _ _ _ Hp F) as (D1 & _ & _). pose proof F as [Hb _]. rewrite <- entryBytes_length.
  set (delta := entryDelta previous e first) in *. pose proof (finishEntry_follows previous first e) as FE. fold delta in FE.
  unfold decodePostingEntry, entryBytes in *.
  destruct (singleBit (Bits e)) eqn:Es.
  - destruct (drop_slice_app _ _ _ _ E) as (_ & _ & L). pose proof (uvarintBytes_pos 9 (singleToken delta (Bits e))).
    rewrite (proj2 (Nat.leb_gt (length src) pos)) by (destruct L as [|[L _]]; [lia|rewrite L in *; cbn in *; lia]).
    destruct (single_pow _ Hb Es) as [P T]. rewrite singleToken_eq in * by done. set (token := delta * 128 + 2 * TrailingZeros64 (Bits e)) in *.
    rewrite E, Uvarint_bytes by (unfold token; lia). rewrite Z.eqb_refl, (proj2 (Z.leb_gt _ 0)) by (rewrite postingUvarintLen_eq; lia). cbn [orb negb].
    destruct (token_bits token ltac:(unfold token; lia)) as (-> & -> & -> & _).
    replace (token mod 2) with 0 by (unfold token; dlia). cbn [Z.eqb].
    replace ((token / 2) mod 64) with (TrailingZeros64 (Bits e)) by (unfold token; dlia). replace (token / 128) with delta by (unfold token; dlia).
    rewrite wrap_pow, <- P, FE, Nat2Z.id, postingUvarintLen_eq by done. done.
  - rewrite <- app_assoc in E. destruct (drop_slice_app _ _ _ _ E) as (E2 & _ & L). pose proof (uvarintBytes_pos 9 (maskToken delta)).
    destruct (drop_slice_app _ _ _ _ E2) as (_ & E3 & L2). rewrite le_bytes_length in E3, L2.
    rewrite (proj2 (Nat.leb_gt (length src) pos)) by (destruct L as [|[L _]]; [lia|rewrite L in *; cbn in *; lia]).
    rewrite maskToken_eq in * by done. set (token := delta * 2 + 1) in *.
    rewrite E, Uvarint_bytes by (unfold token; lia). rewrite Z.eqb_refl, (proj2 (Z.leb_gt _ 0)) by (rewrite postingUvarintLen_eq; lia). cbn [orb negb].
    destruct (token_bits token ltac:(unfold token; lia)) as (-> & _ & _ & ->). replace (token mod 2) with 1 by (unfold token; dlia). cbn [Z.eqb].
    rewrite Nat2Z.id, postingUvarintLen_eq. rewrite (proj2 (Nat.ltb_ge (length src) _)) by (destruct L2 as [|[L2 _]]; [lia|done]).
    rewrite E3. unfold Uint64, getLE. rewrite slice_full, le_uint_le_bytes by (unfold word_ok; lia).
    assert (O : OnesCount64 (Bits e) <> 1) by (rewrite <- singleBit_spec, Es by done; done). pose proof (ones_pos (Bits e) ltac:(lia)).
    rewrite (proj2 (Z.ltb_ge _ 2)) by lia. replace (token / 2) with delta by (unfold token; dlia). rewrite FE by done.
    rewrite length_app, le_bytes_length. f_equal. f_equal. lia.
Qed.

(** Only the canonical bytes of an entry decode to it. *)
Lemma decode_canonical src pos previous first e next : bytes_ok src -> 0 <= previous < 2 ^ 32 ->
  decodePostingEntry src pos previous first = (e, next, true) ->
  entry_follows previous first e /\ next = (pos + postingEntryEncodedSize (entryDelta previous e first) (Bits e))%nat /\
  (next <= length src)%nat /\ drop pos src = entryBytes (entryDelta previous e first) (Bits e) ++ drop next src.
Proof.
  intros Hb Hp. unfold decodePostingEntry. destruct (Nat.leb_spec (length src) pos) as [|Lp]; [done|].
  destruct (Uvarint (drop pos src)) as [token n] eqn:U. destruct (Z.leb_spec n 0); [done|]. cbn [orb].
  destruct (Z.eqb_spec n (Z.of_nat (postingUvarintLen token))) as [N|]; [|done]. cbn [negb].
  destruct (Uvarint_canonical _ _ _ (Forall_drop _ _ _ Hb) U ltac:(lia) N) as [Ht [rest E]].
  destruct (drop_slice_app _ _ _ _ E) as (Er & _ & L). rewrite postingUvarintLen_eq in N. subst n. rewrite Nat2Z.id.
  assert (L' : (pos + length (uvarintBytes 9 token) <= length src)%nat) by (destruct L as [|[L _]]; [done|rewrite L in *; cbn in *; lia]). clear L.
  destruct (token_bits token ltac:(lia)) as (-> & -> & -> & ->). rewrite <- entryBytes_length.
  assert (Hd : 0 <= token / 128 /\ 0 <= token / 2) by (split; apply Z.div_pos; lia). destruct (Z.eqb_spec (token mod 2) 0) as [E0|E0].
  - assert (Hs : 0 <= (token / 2) mod 64 < 64) by (apply Z.mod_pos_bound; lia). destruct (pow_single _ Hs) as (S1 & S2 & S3).
    rewrite wrap_pow by done. intros F. destruct (finishEntry_inv _ _ _ _ _ _ _ Hp (proj1 Hd) S3 F) as (Fo & -> & Eb & Ed).
    destruct (entryDelta_eq _ _ _ Hp Fo) as (D1 & _ & _). rewrite Ed, Eb in *.
    assert (T : token = singleToken (token / 128) (2 ^ ((token / 2) mod 64))) by (rewrite singleToken_eq, S2 by done; clear -E0 Ht; dlia).
    unfold entryBytes. rewrite S1, <- T, Er. done.
  - destruct (Nat.ltb_spec (length src) (pos + length (uvarintBytes 9 token) + 8)) as [|L8]; [done|].
    set (q := (pos + length (uvarintBytes 9 token))%nat) in *. set (w := slice src q (q + 8)).
    assert (Lw : length w = 8%nat) by (unfold w; rewrite slice_length by lia; lia). assert (Hw : bytes_ok w) by (by apply Forall_slice).
    pose proof (getLE_ok 8 w 0 Hw ltac:(lia)) as W. change (getLE 8 w 0) with (Uint64 w 0) in W. destruct (Z.ltb_spec (OnesCount64 (Uint64 w 0)) 2) as [|O]; [done|].
    assert (Hm : 0 < Uint64 w 0 < 2 ^ 64) by (assert (Uint64 w 0 <> 0) by (intros Z; rewrite Z in O; cbn in O; lia); unfold word_ok in W; lia). intros F.
    destruct (finishEntry_inv _ _ _ _ _ _ _ Hp (proj2 Hd) Hm F) as (Fo & -> & Eb & Ed).
    destruct (entryDelta_eq _ _ _ Hp Fo) as (D1 & _ & _). rewrite Ed, Eb in *.
    assert (Es : singleBit (Uint64 w 0) = false) by (apply not_true_is_false; rewrite singleBit_spec by done; lia).
    assert (T : token = maskToken (token / 2)) by (rewrite maskToken_eq by done; clear -E0 Ht; dlia).
    unfold entryBytes. rewrite Es, <- T. split_and!; [apply Fo..|by rewrite length_app, le_bytes_length, Nat.add_assoc|done|].
    rewrite E, <- app_assoc. f_equal. rewrite <- Er. unfold Uint64, getLE. rewrite <- Lw at 1 2. cbn [plus]. rewrite slice_full, le_bytes_le_uint by done.
    unfold w. apply drop_slice. lia.
Qed.

(** ** Streams *)

Fixpoint entriesBytes (previous : Z) (first : bool) (entries : list PostingEntry) : list Z :=
  match entries with
  | [] => []
  | e :: rest => entryBytes (entryDelta previous e first) (Bits e) ++ entriesBytes (Chunk e) false rest
  end.

Fixpoint stream_ok (previous : Z) (first : bool) (entries : list PostingEntry) : Prop :=
  match entries with [] => True | e :: rest => entry_follows previous first e /\ stream_ok (Chunk e) false rest end.

Definition rowsOf (entries : list PostingEntry) : Z := foldr (fun e n => OnesCount64 (Bits e) + n) 0 entries.
Fixpoint lastChunk (previous : Z) (entries : list PostingEntry) : Z :=
  match entries with [] => previous | e :: rest => lastChunk (Chunk e) rest end.

(** A stream's chunks increase strictly and stay in range. *)
Lemma stream_sorted previous first entries : stream_ok previous first entries ->
  StronglySorted (fun a b => Chunk a < Chunk b) entries /\ Forall (fun e => 0 < Bits e < 2 ^ 64 /\ 0 <= Chunk e < 2 ^ 32) entries /\
  (first = false -> Forall (fun e => previous < Chunk e) entries).
Proof.
  revert previous first. induction entries as [|e es IH]; intros previous first; cbn [stream_ok]; [intros _; split_and!; intros; constructor|].
  intros [(H1 & H2 & H3) H]. destruct (IH _ _ H) as (S & F & G). specialize (G eq_refl). split_and!.
  - by constructor.
  - by constructor.
  - intros ->. constructor; [done|]. eapply Forall_impl; [exact G|]. cbn. lia.
Qed.

Lemma follows_chunk previous first e : entry_follows previous first e -> 0 <= Chunk e < 2 ^ 32.
Proof. by intros (_ & ? & _). Qed.

Lemma stream_last previous first entries : 0 <= previous < 2 ^ 32 -> stream_ok previous first entries -> previous <= lastChunk previous entries < 2 ^ 32.
Proof.
  revert previous first. induction entries as [|e es IH]; intros previous first Hp; cbn [stream_ok lastChunk]; [lia|].
  intros [F H]. pose proof (IH _ _ (follows_chunk _ _ _ F) H). destruct F as (_ & _ & F). destruct first; lia.
Qed.

Lemma rowsOf_nonneg entries : 0 <= rowsOf entries.
Proof.
  induction entries as [|e es IH]; cbn [rowsOf foldr]; [lia|]. fold (rowsOf es). assert (0 <= OnesCount64 (Bits e)); [|lia].
  destruct (Bits e); cbn; [lia| |lia]. pose proof (pos_ones_ge p). lia.
Qed.

Lemma wrap_wrap x : wrap64 (wrap64 x) = wrap64 x.
Proof. apply Zmod_mod. Qed.

Lemma wrap_rows r x y : wrap64 (wrap64 (r + x) + y) = wrap64 (r + (x + y)).
Proof. unfold wrap64. rewrite Zplus_mod_idemp_l. f_equal. lia. Qed.

Lemma scan_entriesBytes src rest es : forall pos previous first rows, 0 <= previous < 2 ^ 32 -> stream_ok previous first es ->
  drop pos src = entriesBytes previous first es ++ rest -> wrap64 rows = rows ->
  scanEntries (length es) first src pos previous rows =
  Some ((pos + length (entriesBytes previous first es))%nat, lastChunk previous es, wrap64 (rows + rowsOf es)).
Proof.
  induction es as [|e es IH]; intros pos previous first rows Hp S E Hr; cbn [scanEntries length entriesBytes lastChunk].
  - do 2 f_equal; [f_equal; lia|]. cbn. by rewrite Z.add_0_r.
  - destruct S as [F S]. cbn [entriesBytes] in E. rewrite <- app_assoc in E. rewrite (decode_entryBytes _ _ _ _ _ _ Hp F E). cbn [negb].
    destruct (drop_slice_app _ _ _ _ E) as (E' & _). rewrite entryBytes_length in E'.
    rewrite IH; [|by eapply follows_chunk|done|done|apply wrap_wrap]. rewrite length_app, entryBytes_length, wrap_rows, Nat.add_assoc. done.
Qed.

Lemma scan_canonical src n : forall pos previous first rows p c r, bytes_ok src -> 0 <= previous < 2 ^ 32 -> (pos <= length src)%nat -> wrap64 rows = rows ->
  scanEntries n first src pos previous rows = Some (p, c, r) ->
  exists es, length es = n /\ stream_ok previous first es /\ drop pos src = entriesBytes previous first es ++ drop p src /\
    p = (pos + length (entriesBytes previous first es))%nat /\ (p <= length src)%nat /\ c = lastChunk previous es /\ r = wrap64 (rows + rowsOf es).
Proof.
  induction n as [|n IH]; intros pos previous first rows p c r Hb Hp L Hr; cbn [scanEntries].
  - intros [= -> -> ->]. exists []. cbn. rewrite Z.add_0_r, Nat.add_0_r. done.
  - destruct (decodePostingEntry src pos previous first) as [[e next] ok] eqn:D. destruct ok; [|done]. cbn [negb]. intros E.
    destruct (decode_canonical _ _ _ _ _ _ Hb Hp D) as (F & N & Ln & Ed).
    destruct (IH _ _ _ _ _ _ _ Hb (follows_chunk _ _ _ F) Ln (wrap_wrap _) E) as (es & Le & S & Ed' & Ep & Lp & Ec & Er).
    exists (e :: es). cbn [length stream_ok entriesBytes lastChunk]. rewrite length_app, entryBytes_length, Nat.add_assoc, <- N, <- app_assoc, <- Ed'.
    split_and!; [lia|apply F..|done|done|done|done|done|]. by rewrite Er, wrap_rows.
Qed.

(** Iterating returns the entries and then nothing. *)
Lemma drain_entries src rest es : forall fuel pos previous first, 0 <= previous < 2 ^ 32 -> stream_ok previous first es ->
  drop pos src = entriesBytes previous first es ++ rest -> (length es < fuel)%nat ->
  drain fuel (mkIterator src pos (length es) previous first) = es.
Proof.
  induction es as [|e es IH]; intros fuel pos previous first Hp S E L; (destruct fuel as [|fuel]; [lia|]); cbn [drain]; [done|].
  destruct S as [F S]. cbn [entriesBytes] in E. rewrite <- app_assoc in E. unfold Next. cbn [it_remaining it_entries it_position it_chunk it_first length].
  rewrite (decode_entryBytes _ _ _ _ _ _ Hp F E). cbn [Nat.eqb negb]. f_equal. rewrite Nat.sub_succ, Nat.sub_0_r.
  apply IH; [by eapply follows_chunk|done| |cbn in L; lia]. destruct (drop_slice_app _ _ _ _ E) as (E' & _). by rewrite entryBytes_length in E'.
Qed.

(** ** Sizes and writing *)

Definition entry_typed (e : PostingEntry) : Prop := 0 <= Bits e < 2 ^ 64 /\ 0 <= Chunk e < 2 ^ 32.

Lemma entriesSize_inv es : forall previous first n m, Forall entry_typed es -> (first = true -> previous = firstChunk es) ->
  entriesSizeLoop es previous first n = Ok m -> stream_ok previous first es /\ m = (n + length (entriesBytes previous first es))%nat.
Proof.
  induction es as [|e es IH]; intros previous first n m T Hf; cbn [entriesSizeLoop stream_ok entriesBytes]; [intros [= ->]; cbn; lia|].
  apply Forall_cons in T as [Te T]. unfold PostingEntryEncodedSize. destruct (_ || _) eqn:C; [done|]. rewrite bind_Ok. intros E.
  destruct (IH (Chunk e) false _ _ T ltac:(done) E) as [S ->]. rewrite length_app, entryBytes_length. split; [|lia]. split; [|done].
  apply orb_false_iff in C as [C1 C2]. apply Z.eqb_neq in C1. destruct Te. unfold entry_follows. split_and!; [lia..|].
  destruct first; [symmetry; by apply Hf|]. apply Z.leb_gt, C2.
Qed.

Lemma entriesSize_error es previous first n e : entriesSizeLoop es previous first n = Err e -> exists d, e = ErrInvalidWrite d.
Proof.
  revert previous first n. induction es as [|x es IH]; intros previous first n; cbn [entriesSizeLoop]; [done|].
  unfold PostingEntryEncodedSize. destruct (_ || _); [intros [= <-]; by eexists|]. rewrite bind_Ok. apply IH.
Qed.

Lemma setBytes_split buf pos a b : (pos + length a + length b <= length buf)%nat ->
  setBytes (setBytes buf pos a) (pos + length a) b = setBytes buf pos (a ++ b).
Proof.
  intros L. apply list_eq. intros i. rewrite !setBytes_lookup. destruct (buf !! i) as [x|] eqn:E; [|done]. simpl. f_equal.
  destruct (Nat.leb_spec (pos + length a) i), (Nat.leb_spec pos i); try lia; [|by rewrite lookup_app_l by lia].
  rewrite lookup_app_r, (lookup_ge_None_2 a) by lia. by replace (i - (pos + length a))%nat with (i - pos - length a)%nat by lia.
Qed.

Lemma putEntry_bytes payload pos delta bits : (pos + length (entryBytes delta bits) <= length payload)%nat ->
  putEntry payload pos delta bits = Ok (setBytes payload pos (entryBytes delta bits), (pos + length (entryBytes delta bits))%nat).
Proof.
  intros L. unfold putEntry, entryBytes, PutUvarint in *. destruct (singleBit bits).
  - by rewrite (proj2 (Nat.leb_le _ _)) by lia.
  - rewrite length_app, le_bytes_length in L. rewrite (proj2 (Nat.leb_le _ _)), bind_Ok, window_ok, bind_Ok by (rewrite ?setBytes_length; lia).
    unfold PutUint64, putLE. rewrite setBytes_split, length_app, le_bytes_length by (rewrite le_bytes_length; lia). by rewrite Nat.add_assoc.
Qed.

Lemma putEntries_bytes es : forall payload pos previous first, (pos + length (entriesBytes previous first es) <= length payload)%nat ->
  putEntries payload pos previous first es =
  Ok (setBytes payload pos (entriesBytes previous first es), (pos + length (entriesBytes previous first es))%nat).
Proof.
  induction es as [|e es IH]; intros payload pos previous first; cbn [entriesBytes putEntries]; [|rewrite length_app]; intros L.
  - rewrite Nat.add_0_r. unfold setBytes. cbn [length app]. by rewrite take_nil, app_nil_l, Nat.add_0_r, take_drop.
  - rewrite putEntry_bytes, bind_Ok, IH, setBytes_split, Nat.add_assoc by (rewrite ?setBytes_length; lia). done.
Qed.

Lemma entriesBytes_ok es : forall previous first, 0 <= previous < 2 ^ 32 -> stream_ok previous first es -> bytes_ok (entriesBytes previous first es).
Proof.
  induction es as [|e es IH]; intros previous first Hp; cbn [entriesBytes stream_ok]; [constructor|]. intros [F S].
  apply Forall_app. split; [|apply IH; [by eapply follows_chunk|done]]. destruct (entryDelta_eq _ _ _ Hp F) as (D & _). pose proof F as [Hb _].
  unfold entryBytes. destruct (singleBit (Bits e)) eqn:Es.
  - apply uvarintBytes_ok. rewrite singleToken_eq by done. destruct (single_pow _ Hb Es). lia.
  - apply Forall_app. split; [|apply le_bytes_ok]. apply uvarintBytes_ok. rewrite maskToken_eq by done. lia.
Qed.

(** ** Partitioning a stream *)

Lemma entriesSize_ge es previous first n m : entriesSizeLoop es previous first n = Ok m -> (n <= m)%nat.
Proof.
  revert previous first n. induction es as [|e es IH]; intros previous first n; cbn [entriesSizeLoop]; [intros [= ->]; lia|].
  destruct (PostingEntryEncodedSize _ _ _) as [k| |]; [|done..]. rewrite bind_Ok. intros E%IH. lia.
Qed.

Lemma entriesSize_mono es : forall k k' previous first n m m', (k <= k')%nat -> entriesSizeLoop (take k es) previous first n = Ok m ->
  entriesSizeLoop (take k' es) previous first n = Ok m' -> (m <= m')%nat.
Proof.
  induction es as [|e es IH]; intros k k' previous first n m m' L; [rewrite !take_nil; cbn; intros; simplify_eq; lia|].
  destruct k as [|k]; [cbn [take entriesSizeLoop]; intros [= ->]; apply entriesSize_ge|]. destruct k' as [|k']; [lia|].
  cbn [take entriesSizeLoop]. destruct (PostingEntryEncodedSize _ _ _); [|done..]. rewrite !bind_Ok. apply IH. lia.
Qed.

(** The loop stops before the first entry that does not fit, having sized it. *)
Lemma prefixLoop_spec es : forall previous first cap count size,
  match prefixLoop es previous first cap count size with
  | Ok (c, s) => exists k, c = (count + k)%nat /\ (k <= length es)%nat /\ entriesSizeLoop (take k es) previous first size = Ok s /\
      (k <> 0%nat -> Z.of_nat s <= cap) /\
      ((k < length es)%nat -> exists s', entriesSizeLoop (take (S k) es) previous first size = Ok s' /\ cap < Z.of_nat s')
  | Err e => exists k, (k <= length es)%nat /\ entriesSizeLoop (take k es) previous first size = Err e
  | OutOfFuel => False
  end.
Proof.
  induction es as [|e es IH]; intros previous first cap count size; cbn [prefixLoop].
  - exists 0%nat. cbn. split_and!; [lia..|done|done|lia].
  - destruct (PostingEntryEncodedSize previous e first) as [n| |] eqn:P.
    + rewrite bind_Ok. destruct (Z.ltb_spec cap (Z.of_nat (size + n))) as [C|C].
      * exists 0%nat. cbn [take entriesSizeLoop length]. split_and!; [lia..|done|done|]. intros _. exists (size + n)%nat. by rewrite P, bind_Ok.
      * specialize (IH (Chunk e) false cap (count + 1)%nat (size + n)%nat). destruct (prefixLoop _ _ _ _ _ _) as [[c s]|err|]; [| |done].
        -- destruct IH as (k & -> & L & E & H1 & H2). exists (S k). cbn [take entriesSizeLoop length] in *. rewrite P, !bind_Ok.
           split_and!; [lia..|done| |].
           ++ intros _. destruct k; [|by apply H1]. cbn [take entriesSizeLoop] in E. by injection E as <-.
           ++ intros L'. destruct H2 as (s' & E' & ?); [lia|]. exists s'. done.
        -- destruct IH as (k & L & E). exists (S k). cbn [take entriesSizeLoop length]. rewrite P, bind_Ok. split; [lia|done].
    + exists 1%nat. cbn [take entriesSizeLoop length]. rewrite P. split; [lia|]. done.
    + unfold PostingEntryEncodedSize in P. by destruct (_ || _) in P.
Qed.

Lemma firstChunk_take k es : k <> 0%nat -> firstChunk (take k es) = firstChunk es.
Proof. by destruct k, es. Qed.

Lemma take_nonempty {A} k (es : list A) : k <> 0%nat -> es <> [] -> length (take k es) <> 0%nat.
Proof. intros Hk He. rewrite length_take. destruct es; [done|]. cbn [length]. lia. Qed.

Lemma prefix_size k es : k <> 0%nat -> es <> [] -> Z.of_nat (length (take k es)) <= 65535 ->
  PostingEntriesEncodedSize (take k es) = entriesSizeLoop (take k es) (firstChunk es) true 0.
Proof.
  intros Hk He L. unfold PostingEntriesEncodedSize.
  by rewrite (proj2 (Nat.eqb_neq _ 0)), (proj2 (Z.ltb_ge 65535 _)), firstChunk_take by (done || by apply take_nonempty).
Qed.

(** A prefix that a segment can hold lies within the entries the loop visits. *)
Lemma prefix_visited k es size : PostingEntriesEncodedSize (take k es) = Ok size ->
  es <> [] /\ k <> 0%nat /\ Z.of_nat (length (take k es)) <= 65535 /\
  entriesSizeLoop (take k (take (Z.to_nat 65535) es)) (firstChunk es) true 0 = Ok size.
Proof.
  intros E. pose proof E as E'. unfold PostingEntriesEncodedSize in E'. destruct (_ || _) eqn:C; [done|]. clear E'.
  apply orb_false_iff in C as [C1%Nat.eqb_neq C2%Z.ltb_ge].
  assert (Hk : k <> 0%nat) by (by intros ->). assert (He : es <> []) by (intros ->; by rewrite take_nil in C1). split_and!; [done..|].
  rewrite prefix_size in E by done. rewrite take_take. destruct (decide (k <= Z.to_nat 65535)%nat); [by rewrite Nat.min_l by done|].
  rewrite length_take in C2. rewrite Nat.min_r, (take_ge es (Z.to_nat 65535)) by lia. by rewrite take_ge in E by lia.
Qed.

Lemma entryBytes_pos delta bits : (0 < length (entryBytes delta bits))%nat.
Proof.
  unfold entryBytes. destruct (singleBit bits); [apply uvarintBytes_pos|]. rewrite length_app.
  pose proof (uvarintBytes_pos 9 (maskToken delta)). lia.
Qed.

Lemma entriesSize_pos es size : PostingEntriesEncodedSize es = Ok size -> (0 < size)%nat.
Proof.
  unfold PostingEntriesEncodedSize. destruct (_ || _) eqn:C; [done|]. destruct es as [|e es]; [done|]. cbn [entriesSizeLoop].
  unfold PostingEntryEncodedSize. destruct (_ || _) in |- *; [done|]. rewrite bind_Ok, <- entryBytes_length. intros E%entriesSize_ge.
  pose proof (entryBytes_pos (entryDelta (firstChunk (e :: es)) e true) (Bits e)). lia.
Qed.

(** C40: PostingPagePrefix returns the longest non-empty prefix of a stream that
    fits: its count and size agree with PostingEntriesEncodedSize, the size is
    within the capacity, and no longer prefix a segment can hold fits.  It
    fails, always with ErrInvalidWrite, only when no prefix fits or when the
    stream has an empty or unordered entry. *)
Theorem PostingPagePrefix_longest (entries : list PostingEntry) (encodedCapacity : Z) :
  match PostingPagePrefix entries encodedCapacity with
  | Ok (count, encodedSize) =>
      (0 < count <= length entries)%nat /\ Z.of_nat encodedSize <= encodedCapacity /\
      PostingEntriesEncodedSize (take count entries) = Ok encodedSize /\
      forall k size, PostingEntriesEncodedSize (take k entries) = Ok size -> Z.of_nat size <= encodedCapacity ->
        (length (take k entries) <= count)%nat
  | Err e =>
      (exists detail, e = ErrInvalidWrite detail) /\
      ((forall k size, PostingEntriesEncodedSize (take k entries) = Ok size -> encodedCapacity < Z.of_nat size) \/
       exists k, PostingEntriesEncodedSize (take k entries) = Err e)
  | OutOfFuel => False
  end.
Proof.
  unfold PostingPagePrefix. destruct (_ || _) eqn:C0.
  { split; [by eexists|]. left. intros k size E. destruct (prefix_visited _ _ _ E) as (He & _). apply entriesSize_pos in E.
    apply orb_true_iff in C0 as [C0%Nat.eqb_eq|C0%Z.leb_le]; [by apply nil_length_inv in C0|lia]. }
  apply orb_false_iff in C0 as [C0%Nat.eqb_neq C1%Z.leb_gt]. assert (He : entries <> []) by (by intros ->).
  pose proof (prefixLoop_spec (take (Z.to_nat 65535) entries) (firstChunk entries) true encodedCapacity 0 0) as P.
  pose proof (length_take entries (Z.to_nat 65535)) as L1. set (lim := take (Z.to_nat 65535) entries) in *.
  assert (Hl : forall k, k <> 0%nat -> (k <= length lim)%nat -> entriesSizeLoop (take k lim) (firstChunk entries) true 0 = PostingEntriesEncodedSize (take k entries)).
  { intros k Hk L. unfold lim. rewrite take_take, Nat.min_l, prefix_size by (try done; rewrite ?length_take; lia). done. }
  destruct (prefixLoop lim _ _ _ _ _) as [[c s]|e|]; [|destruct P as (k & L & E)|done].
  - rewrite bind_Ok. destruct P as (k & -> & Lk & E & H1 & H2). change (0 + k)%nat with k. destruct (Nat.eqb_spec k 0) as [->|Hk].
    + split; [by eexists|]. left. intros k size E'. destruct (prefix_visited _ _ _ E') as (_ & Hk & _ & Ev). fold lim in Ev.
      destruct H2 as (s' & Es & ?); [lia|]. pose proof (entriesSize_mono lim 1 k _ _ _ _ _ ltac:(lia) Es Ev). lia.
    + split_and!; [lia|lia|by apply H1|by rewrite <- Hl|]. intros k' size E' Hs. destruct (prefix_visited _ _ _ E') as (_ & _ & L65 & Ev). fold lim in Ev.
      destruct (decide (length (take k' entries) <= k)%nat) as [|Hn]; [done|]. rewrite length_take in Hn, L65.
      destruct H2 as (s' & Es & ?); [lia|]. pose proof (entriesSize_mono lim (S k) k' _ _ _ _ _ ltac:(lia) Es Ev). lia.
  - cbn [mbind res_bind]. destruct (decide (k = 0%nat)) as [->|Hk]; [done|]. split; [by eapply entriesSize_error|]. right. exists k. by rewrite <- Hl.
Qed.
