(* ===== verification/PostingPage.v ===== *)
(** * PostingPage: packed index posting pages

    Models the page format of internal/storeio/posting_page.go.  A page packs
    several streams of one index: a 32-byte header, one 48-byte record per
    stream, then each stream's certificate and compressed entries ([Posting]),
    in the envelope of [Page].  A page is written once and verified once when it
    is opened; lookups and iterators then read it without further checks. *)
From Stdlib Require Import ZArith Lia List Bool Sorted.
From stdpp Require Import base numbers list strings.
From S2P Require Import Prelude Leases Bytes Page StateRoot Posting.

Open Scope Z_scope.

Definition PostingPagePayloadHeaderSize : nat := 32.
Definition PostingSegmentHeaderSize : nat := 48.
Definition postingPageVersionV1 : Z := 1.
Definition postingPageVersion : Z := 2.
Definition postingPageKnownFlags : Z := 0.
Definition PostingSegmentCollision : Z := 1.
Definition postingSegmentKnownFlags : Z := PostingSegmentCollision.

Record PostingLink := mkLink { ln_LogicalID : Z; ln_Segment : Z }.

Record PostingSegment := mkSegment {
  sg_StreamID : Z;
  sg_TupleHash : Z;
  sg_Flags : Z;
  sg_Next : PostingLink;
  sg_Certificate : list Z;
  sg_Entries : list PostingEntry;
}.

Record PostingPageHeader := mkPostingHeader {
  pp_StoreID : list Z;
  pp_Generation : Z;
  pp_LogicalID : Z;
  pp_PageSize : Z;
  pp_IndexID : Z;
  pp_Flags : Z;
}.

Record PostingSegmentHeader := mkSegmentHeader {
  sh_StreamID : Z;
  sh_TupleHash : Z;
  sh_FirstChunk : Z;
  sh_LastChunk : Z;
  sh_Rows : Z;
  sh_Flags : Z;
  sh_Next : PostingLink;
}.

Record PostingPageView := mkPageView { pv_header : PostingPageHeader; pv_payload : list Z; pv_count : nat; pv_version : Z }.

Record PostingSegmentView := mkSegmentView {
  sv_header : PostingSegmentHeader;
  sv_certificate : list Z;
  sv_entries : list Z;
  sv_count : nat;
}.

(** ** Validation *)

Definition validPostingLink (link : PostingLink) (currentLogicalID nextLogicalID : Z) : bool :=
  if (ln_LogicalID link =? 0) && (ln_Segment link =? 0) then true
  else (StateRootLogicalID <? ln_LogicalID link) && (ln_LogicalID link <? nextLogicalID) &&
       negb (ln_LogicalID link =? currentLogicalID).

Definition validatePostingPageHeader (header : PostingPageHeader) (count : nat) (nextLogicalID indexHighWater : Z)
    : option io_error :=
  if bool_decide (pp_StoreID header = zeroStoreID) || (pp_Generation header =? 0) ||
     (pp_LogicalID header <=? StateRootLogicalID) || (nextLogicalID <=? pp_LogicalID header) ||
     negb (validPhysicalPageSize (pp_PageSize header)) ||
     negb (Z.ldiff (pp_Flags header) postingPageKnownFlags =? 0) ||
     (count =? 0)%nat || (65535 <? Z.of_nat count) || (indexHighWater =? 0) || (indexHighWater <=? pp_IndexID header)
  then Some (ErrInvalidWrite "posting page identity, index, flags, or count") else None.

(** The conditions on one segment of validatePostingPageWrite. *)
Definition segmentRefused (segment : PostingSegment) (previousStream : Z) (header : PostingPageHeader) (nextLogicalID : Z) : bool :=
  (sg_StreamID segment =? 0) || (sg_StreamID segment <=? previousStream) ||
  negb (Z.ldiff (sg_Flags segment) postingSegmentKnownFlags =? 0) ||
  (65535 <? Z.of_nat (length (sg_Certificate segment))) ||
  (negb (Z.land (sg_Flags segment) PostingSegmentCollision =? 0) && (length (sg_Certificate segment) =? 0)%nat) ||
  negb (validPostingLink (sg_Next segment) (pp_LogicalID header) nextLogicalID).

Fixpoint validateSegments (segments : list PostingSegment) (header : PostingPageHeader) (nextLogicalID previousStream : Z)
    (encodedBytes : nat) : io_res nat :=
  match segments with
  | [] => Ok encodedBytes
  | segment :: rest =>
      if segmentRefused segment previousStream header nextLogicalID
      then Err (ErrInvalidWrite "posting segment identity or flags")
      else
        len ← PostingEntriesEncodedSize (sg_Entries segment);
        validateSegments rest header nextLogicalID (sg_StreamID segment)
          (encodedBytes + (length (sg_Certificate segment) + len))
  end.

Definition validatePostingPageWrite (header : PostingPageHeader) (segments : list PostingSegment)
    (nextLogicalID indexHighWater : Z) : io_res nat :=
  match validatePostingPageHeader header (length segments) nextLogicalID indexHighWater with
  | Some err => Err err
  | None =>
      encodedBytes ← validateSegments segments header nextLogicalID 0 0;
      if pp_PageSize header - 64 - 8 <? 32 + Z.of_nat (length segments) * 48 + Z.of_nat encodedBytes
      then Err (ErrInvalidWrite "posting payload does not fit") else Ok encodedBytes
  end.

(** ** Encoding *)

(** [rows] of the encoder: the rows of all entries, on uint32. *)
Definition segmentRows (entries : list PostingEntry) : Z :=
  fold_left (fun rows entry => (rows + OnesCount64 (Bits entry)) mod 2 ^ 32) entries 0.

Definition postingSegmentRecord (payload : list Z) (rank : nat) : io_res (list Z) :=
  let start := (PostingPagePayloadHeaderSize + rank * PostingSegmentHeaderSize)%nat in
  window payload start (start + PostingSegmentHeaderSize).

(** The fields the encoder stores in a segment's record, a window of the payload. *)
Definition putRecord (record : list Z) (segment : PostingSegment) (dataPosition encodedLength : nat) : list Z :=
  let record := PutUint32 record 0 (sg_StreamID segment) in
  let record := PutUint32 record 4 (firstChunk (sg_Entries segment)) in
  let record := PutUint32 record 8 (lastChunk 0 (sg_Entries segment)) in
  let record := PutUint32 record 12 (segmentRows (sg_Entries segment)) in
  let record := PutUint64 record 16 (sg_TupleHash segment) in
  let record := PutUint64 record 24 (ln_LogicalID (sg_Next segment)) in
  let record := PutUint32 record 32 (Z.of_nat dataPosition) in
  let record := PutUint32 record 36 (Z.of_nat encodedLength) in
  let record := PutUint16 record 40 (Z.of_nat (length (sg_Entries segment))) in
  let record := PutUint16 record 42 (ln_Segment (sg_Next segment)) in
  let record := PutUint16 record 44 (sg_Flags segment) in
  PutUint16 record 46 (Z.of_nat (length (sg_Certificate segment))).

(** The loop over segments from rank [i].  The error of the second
    PostingEntriesEncodedSize is dropped, as in the code, and its size is then
    zero. *)
Fixpoint putSegments (payload : list Z) (i dataPosition : nat) (segments : list PostingSegment) : io_res (list Z) :=
  match segments with
  | [] => Ok payload
  | segment :: rest =>
      record ← postingSegmentRecord payload i;
      let entriesLength := match PostingEntriesEncodedSize (sg_Entries segment) with Ok n => n | _ => 0%nat end in
      let encodedLength := (length (sg_Certificate segment) + entriesLength)%nat in
      let payload := setBytes payload (PostingPagePayloadHeaderSize + i * PostingSegmentHeaderSize)
                       (putRecord record segment dataPosition encodedLength) in
      _ ← window payload dataPosition (dataPosition + length (sg_Certificate segment));
      let payload := setBytes payload dataPosition (sg_Certificate segment) in
      '(payload, _) ← putEntries payload (dataPosition + length (sg_Certificate segment))
                        (firstChunk (sg_Entries segment)) true (sg_Entries segment);
      putSegments payload (S i) (dataPosition + encodedLength) rest
  end.

Definition putPayloadHeader (payload : list Z) (header : PostingPageHeader) (count encodedBytes : nat) : list Z :=
  let payload := PutUint32 payload 0 postingPageVersion in
  let payload := PutUint32 payload 4 (pp_IndexID header) in
  let payload := PutUint16 payload 8 (Z.of_nat count) in
  let payload := PutUint16 payload 10 (pp_Flags header) in
  let payload := PutUint32 payload 12 (Z.of_nat (count * PostingSegmentHeaderSize)) in
  PutUint32 payload 16 (Z.of_nat encodedBytes).

Definition postingPageHeader (header : PostingPageHeader) (payloadLength : nat) : PageHeader :=
  mkPageHeader (pp_StoreID header) (pp_Generation header) (pp_LogicalID header) (pp_PageSize header)
    (Z.of_nat payloadLength) PageIndexPosting 0.

(** [payload] is a window of the page, so what is written to it is in the page
    that is sealed. *)
Definition EncodePostingPage (dst : list Z) (header : PostingPageHeader) (segments : list PostingSegment)
    (nextLogicalID indexHighWater : Z) : io_res (list Z) :=
  encodedBytes ← validatePostingPageWrite header segments nextLogicalID indexHighWater;
  let dataPosition := (PostingPagePayloadHeaderSize + length segments * PostingSegmentHeaderSize)%nat in
  let payloadLength := (dataPosition + encodedBytes)%nat in
  page ← InitPage dst (postingPageHeader header payloadLength);
  payload ← window page PageHeaderSize (PageHeaderSize + payloadLength);
  payload ← putSegments (putPayloadHeader payload header (length segments) encodedBytes) 0 dataPosition segments;
  '(page, _) ← sealInitializedPage (setBytes page PageHeaderSize payload);
  Ok page.

(** ** Opening and reading *)

(** [None] is ErrPostingPageCorrupt. *)
Definition decodePostingSegment (payload : list Z) (rank dataStart : nat) (version : Z)
    : io_res (option (PostingSegmentHeader * list Z * list Z * nat)) :=
  record ← postingSegmentRecord payload rank;
  if (version =? postingPageVersionV1) && negb (allZero (slice record 46 48)) then Ok None
  else
    let certificateLength := if version =? postingPageVersionV1 then 0 else Uint16 record 46 in
    let offset := Uint32 record 32 in
    let len := Uint32 record 36 in
    if (offset <? Z.of_nat dataStart mod 2 ^ 32) || (Z.of_nat (length payload) <? offset + len) || (len =? 0) then Ok None
    else
      let header := mkSegmentHeader (Uint32 record 0) (Uint64 record 16) (Uint32 record 4) (Uint32 record 8)
                      (Uint32 record 12) (Uint16 record 44) (mkLink (Uint64 record 24) (Uint16 record 42)) in
      let count := Z.to_nat (Uint16 record 40) in
      if (sh_StreamID header =? 0) || (count =? 0)%nat || (sh_LastChunk header <? sh_FirstChunk header) ||
         (len <=? certificateLength) ||
         (negb (Z.land (sh_Flags header) PostingSegmentCollision =? 0) && (certificateLength =? 0))
      then Ok None
      else
        let end_ := Z.to_nat (offset + len) in
        let certificateEnd := Z.to_nat (offset + certificateLength) in
        certificate ← window payload (Z.to_nat offset) certificateEnd;
        entries ← window payload certificateEnd end_;
        Ok (Some (header, certificate, entries, count)).

(** The loop of OpenPostingPage over the segments from rank [i], [n] left; the
    result is the final data position. *)
Fixpoint openSegments (n i : nat) (payload : list Z) (dataStart : nat) (version : Z) (header : PostingPageHeader)
    (nextLogicalID previousStream : Z) (dataPosition : nat) : io_res nat :=
  match n with
  | O => Ok dataPosition
  | S n =>
      decoded ← decodePostingSegment payload i dataStart version;
      match decoded with
      | None => Err (ErrPostingPageCorrupt "segment directory")
      | Some (segment, _, entries, entryCount) =>
          record ← postingSegmentRecord payload i;
          if (sh_StreamID segment <=? previousStream) ||
             negb (Z.ldiff (sh_Flags segment) postingSegmentKnownFlags =? 0) || (sh_Rows segment =? 0) ||
             negb (Z.of_nat dataPosition =? Uint32 record 32) ||
             negb (validPostingLink (sh_Next segment) (pp_LogicalID header) nextLogicalID)
          then Err (ErrPostingPageCorrupt "segment directory")
          else
            match scanEntries entryCount true entries 0 (sh_FirstChunk segment) 0 with
            | None => Err (ErrPostingPageCorrupt "non-canonical posting entry")
            | Some (position, previousChunk, rows) =>
                if negb (position =? length entries)%nat || negb (previousChunk =? sh_LastChunk segment) ||
                   negb (rows =? sh_Rows segment)
                then Err (ErrPostingPageCorrupt "posting count, rows, or tail")
                else openSegments n (S i) payload dataStart version header nextLogicalID (sh_StreamID segment)
                       (dataPosition + Z.to_nat (Uint32 record 36))
            end
      end
  end.

(** The version is read before the payload's length is checked. *)
Definition OpenPostingPage (src : list Z) (nextLogicalID indexHighWater : Z) : io_res PostingPageView :=
  match OpenPage src with
  | OutOfFuel => OutOfFuel
  | Err Panic => Err Panic
  | Err _ => Err (ErrPostingPageCorrupt "page")
  | Ok (pageHeader, payload) =>
      first ← window payload 0 4;
      let version := Uint32 first 0 in
      if negb (ph_Kind pageHeader =? PageIndexPosting) || (length payload <? PostingPagePayloadHeaderSize)%nat ||
         (negb (version =? postingPageVersionV1) && negb (version =? postingPageVersion)) ||
         negb (allZero (slice payload 20 32))
      then Err (ErrPostingPageCorrupt "header, version, or reserved bytes")
      else
        let count := Z.to_nat (Uint16 payload 8) in
        let header := mkPostingHeader (ph_StoreID pageHeader) (ph_Generation pageHeader) (ph_LogicalID pageHeader)
                        (ph_PageSize pageHeader) (Uint32 payload 4) (Uint16 payload 10) in
        let directoryBytes := Uint32 payload 12 in
        let dataBytes := Uint32 payload 16 in
        let dataStart := (PostingPagePayloadHeaderSize + Z.to_nat directoryBytes)%nat in
        match validatePostingPageHeader header count nextLogicalID indexHighWater with
        | Some _ => Err (ErrPostingPageCorrupt "page identity, directory, or data bounds")
        | None =>
            if negb (directoryBytes =? Z.of_nat count * 48) || negb (Z.of_nat dataStart + dataBytes =? Z.of_nat (length payload))
            then Err (ErrPostingPageCorrupt "page identity, directory, or data bounds")
            else
              dataPosition ← openSegments count 0 payload dataStart version header nextLogicalID 0 dataStart;
              if negb (dataPosition =? length payload)%nat
              then Err (ErrPostingPageCorrupt "non-canonical data packing")
              else Ok (mkPageView header payload count version)
        end
  end.

Definition page_Len (v : PostingPageView) : nat := pv_count v.

(** The boolean result is the option. *)
Definition SegmentAt (v : PostingPageView) (rank : Z) : io_res (option PostingSegmentView) :=
  if (rank <? 0) || (Z.of_nat (pv_count v) <=? rank) then Ok None
  else
    decoded ← decodePostingSegment (pv_payload v) (Z.to_nat rank)
                (PostingPagePayloadHeaderSize + pv_count v * PostingSegmentHeaderSize) (pv_version v);
    match decoded with
    | None => Ok None
    | Some (header, certificate, entries, count) => Ok (Some (mkSegmentView header certificate entries count))
    end.

(** Binary search: the fuel bounds the halvings of [high - low]. *)
Fixpoint lookupStreamLoop (fuel : nat) (v : PostingPageView) (streamID : Z) (low high : nat) : io_res nat :=
  if (low <? high)%nat then
    match fuel with
    | O => OutOfFuel
    | S fuel =>
        let middle := Nat.div2 (low + high) in
        record ← postingSegmentRecord (pv_payload v) middle;
        if Uint32 record 0 <? streamID then lookupStreamLoop fuel v streamID (middle + 1) high
        else lookupStreamLoop fuel v streamID low middle
    end
  else Ok low.

Definition Lookup (v : PostingPageView) (streamID : Z) : io_res (option PostingSegmentView) :=
  low ← lookupStreamLoop (pv_count v) v streamID 0 (pv_count v);
  if (pv_count v <=? low)%nat then Ok None
  else
    record ← postingSegmentRecord (pv_payload v) low;
    if negb (Uint32 record 0 =? streamID) then Ok None else SegmentAt v (Z.of_nat low).

Definition segment_Len (v : PostingSegmentView) : nat := sv_count v.
Definition Certificate (v : PostingSegmentView) : list Z := sv_certificate v.
Definition Iterator (v : PostingSegmentView) : PostingIterator :=
  mkIterator (sv_entries v) 0 (sv_count v) (sh_FirstChunk (sv_header v)) true.

(** ** Records *)

(** The Go types of a segment's fields. *)
Definition segment_typed (s : PostingSegment) : Prop :=
  word_ok 4 (sg_StreamID s) /\ word_ok 8 (sg_TupleHash s) /\ word_ok 2 (sg_Flags s) /\
  word_ok 8 (ln_LogicalID (sg_Next s)) /\ word_ok 2 (ln_Segment (sg_Next s)) /\
  bytes_ok (sg_Certificate s) /\ Forall entry_typed (sg_Entries s).

(** The bytes of a segment outside the directory. *)
Definition entriesData (s : PostingSegment) : list Z := entriesBytes (firstChunk (sg_Entries s)) true (sg_Entries s).
Definition segmentData (s : PostingSegment) : list Z := sg_Certificate s ++ entriesData s.

(** The header a reader sees. *)
Definition segmentHeader (s : PostingSegment) : PostingSegmentHeader :=
  mkSegmentHeader (sg_StreamID s) (sg_TupleHash s) (firstChunk (sg_Entries s)) (lastChunk 0 (sg_Entries s))
    (rowsOf (sg_Entries s)) (sg_Flags s) (sg_Next s).

(** A stream a segment can hold. *)
Definition stream_fits (s : PostingSegment) : Prop :=
  sg_Entries s <> [] /\ Z.of_nat (length (sg_Entries s)) <= 65535 /\ stream_ok (firstChunk (sg_Entries s)) true (sg_Entries s).

(** A record that describes [s], whose data starts at [dataPosition]. *)
Definition record_shows (r : list Z) (s : PostingSegment) (dataPosition : nat) : Prop :=
  length r = 48%nat /\
  Uint32 r 0 = sg_StreamID s /\ Uint32 r 4 = firstChunk (sg_Entries s) /\ Uint32 r 8 = lastChunk 0 (sg_Entries s) /\
  Uint32 r 12 = rowsOf (sg_Entries s) /\ Uint64 r 16 = sg_TupleHash s /\ Uint64 r 24 = ln_LogicalID (sg_Next s) /\
  Uint32 r 32 = Z.of_nat dataPosition /\ Uint32 r 36 = Z.of_nat (length (segmentData s)) /\
  Uint16 r 40 = Z.of_nat (length (sg_Entries s)) /\ Uint16 r 42 = ln_Segment (sg_Next s) /\ Uint16 r 44 = sg_Flags s /\
  Uint16 r 46 = Z.of_nat (length (sg_Certificate s)).

Lemma ones_bound mask : 0 <= mask < 2 ^ 64 -> 0 <= OnesCount64 mask <= 64.
Proof.
  intros H. assert (G : forall n p, Zpos p < 2 ^ Z.of_nat n -> pos_ones p <= Z.of_nat n).
  { induction n as [|n IH]; intros p Hp; [cbn in Hp; lia|]. rewrite Nat2Z.inj_succ, Z.pow_succ_r in Hp by lia.
    destruct p as [q|q|]; cbn [pos_ones]; [specialize (IH q ltac:(lia))|specialize (IH q ltac:(lia))|]; lia. }
  destruct mask as [|p|]; cbn [OnesCount64]; [lia| |lia]. pose proof (pos_ones_ge p). specialize (G 64%nat p ltac:(lia)). lia.
Qed.

Lemma rowsOf_bound es : Forall entry_typed es -> 0 <= rowsOf es <= 64 * Z.of_nat (length es).
Proof.
  induction 1 as [|e es [He _] _ IH]; [cbn; lia|]. cbn [rowsOf foldr length]. fold (rowsOf es). pose proof (ones_bound _ He). lia.
Qed.

Lemma segmentRows_eq es : Forall entry_typed es -> Z.of_nat (length es) <= 65535 -> segmentRows es = rowsOf es.
Proof.
  intros T L. unfold segmentRows. assert (G : forall n, 0 <= n -> n + 64 * Z.of_nat (length es) < 2 ^ 32 ->
    fold_left (fun rows entry => (rows + OnesCount64 (Bits entry)) mod 2 ^ 32) es n = n + rowsOf es).
  { clear L. induction T as [|e es [He _] T IH]; intros n Hn B; cbn [fold_left]; [cbn; lia|]. pose proof (ones_bound _ He).
    cbn [length] in B. rewrite Z.mod_small, IH by lia. cbn [rowsOf foldr]. fold (rowsOf es). lia. }
  rewrite G by lia. lia.
Qed.

Lemma stream_fits_chunks s : Forall entry_typed (sg_Entries s) -> stream_fits s ->
  0 <= firstChunk (sg_Entries s) < 2 ^ 32 /\ firstChunk (sg_Entries s) <= lastChunk 0 (sg_Entries s) < 2 ^ 32 /\
  lastChunk (firstChunk (sg_Entries s)) (sg_Entries s) = lastChunk 0 (sg_Entries s).
Proof.
  intros T (N & _ & S). destruct (sg_Entries s) as [|e es]; [done|]. apply Forall_cons in T as [[_ T] _]. cbn [firstChunk lastChunk] in *.
  destruct S as [_ S]. pose proof (stream_last _ _ _ T S). done.
Qed.

Lemma rows_positive es : es <> [] -> stream_ok (firstChunk es) true es -> rowsOf es <> 0.
Proof.
  intros N. destruct es as [|e es]; [done|]. intros [[H _] _]. cbn [rowsOf foldr]. fold (rowsOf es).
  pose proof (rowsOf_nonneg es). pose proof (ones_pos (Bits e)). lia.
Qed.

Lemma putRecord_shows r s dp : segment_typed s -> stream_fits s -> length r = 48%nat ->
  Z.of_nat (dp + length (segmentData s)) < 2 ^ 32 -> Z.of_nat (length (sg_Certificate s)) <= 65535 ->
  record_shows (putRecord r s dp (length (segmentData s))) s dp.
Proof.
  intros (T1 & T2 & T3 & T4 & T5 & _ & Te) F L D C. destruct (stream_fits_chunks s Te F) as (C1 & C2 & _). destruct F as (_ & F & _).
  pose proof (rowsOf_bound _ Te) as R. unfold putRecord. cbn zeta. rewrite segmentRows_eq by done. unfold record_shows.
  assert (W : word_ok 4 (firstChunk (sg_Entries s)) /\ word_ok 4 (lastChunk 0 (sg_Entries s)) /\ word_ok 4 (rowsOf (sg_Entries s)) /\
    word_ok 4 (Z.of_nat dp) /\ word_ok 4 (Z.of_nat (length (segmentData s))) /\ word_ok 2 (Z.of_nat (length (sg_Entries s))) /\
    word_ok 2 (Z.of_nat (length (sg_Certificate s)))) by (unfold word_ok; lia). destruct W as (W1 & W2 & W3 & W4 & W5 & W6 & W7).
  unfold PutUint16, PutUint32, PutUint64, putLE, Uint16, Uint32, Uint64. rewrite !setBytes_length.
  split_and!; [done|..]; by buf.
Qed.

Lemma slice_getLE n (r : list Z) a : bytes_ok r -> (a + n <= length r)%nat -> slice r a (a + n) = le_bytes n (getLE n r a).
Proof.
  intros H L. unfold getLE. rewrite <- (le_bytes_le_uint (slice r a (a + n)) (Forall_slice _ _ _ _ H)) at 1.
  rewrite slice_length by lia. f_equal. lia.
Qed.

Lemma slice_eq_getLE n (r r' : list Z) a b : bytes_ok r -> bytes_ok r' -> (a + n <= length r)%nat -> length r = length r' -> b = (a + n)%nat ->
  getLE n r a = getLE n r' a -> slice r a b = slice r' a b.
Proof. intros H H' L E -> G. rewrite !slice_getLE, G by (done || lia). done. Qed.

(** Records are determined by what they describe. *)
Lemma record_ext r r' s dp : bytes_ok r -> bytes_ok r' -> record_shows r s dp -> record_shows r' s dp -> r = r'.
Proof.
  intros B B' (L & R) (L' & R'). assert (E : length r = length r') by lia.
  destruct R as (R1 & R2 & R3 & R4 & R5 & R6 & R7 & R8 & R9 & R10 & R11 & R12).
  destruct R' as (Q1 & Q2 & Q3 & Q4 & Q5 & Q6 & Q7 & Q8 & Q9 & Q10 & Q11 & Q12).
  rewrite <- (slice_full r), <- (slice_full r'), L, L'.
  rewrite !(slice_split _ 0 4 48), !(slice_split _ 4 8 48), !(slice_split _ 8 12 48), !(slice_split _ 12 16 48), !(slice_split _ 16 24 48),
    !(slice_split _ 24 32 48), !(slice_split _ 32 36 48), !(slice_split _ 36 40 48), !(slice_split _ 40 42 48), !(slice_split _ 42 44 48), !(slice_split _ 44 46 48) by lia.
  unfold Uint16, Uint32, Uint64 in *. repeat match goal with |- _ ++ _ = _ ++ _ => apply (f_equal2 app) end.
  all: first [apply (slice_eq_getLE 4); [done..|lia|done|done|congruence]
             |apply (slice_eq_getLE 8); [done..|lia|done|done|congruence]
             |apply (slice_eq_getLE 2); [done..|lia|done|done|congruence]].
Qed.

(** ** The encoder's loop *)

Definition recordStart (i : nat) : nat := (32 + i * 48)%nat.
Definition dataLength (segments : list PostingSegment) : nat := list_sum ((fun s => length (segmentData s)) <$> segments).

Lemma dataLength_cons s segs : dataLength (s :: segs) = (length (segmentData s) + dataLength segs)%nat.
Proof. done. Qed.

(** Segments packed from rank [i], with data from [dp] on. *)
Fixpoint segments_at (payload : list Z) (i dp : nat) (segments : list PostingSegment) : Prop :=
  match segments with
  | [] => True
  | s :: rest =>
      record_shows (slice payload (recordStart i) (recordStart i + 48)) s dp /\
      slice payload dp (dp + length (segmentData s)) = segmentData s /\
      segments_at payload (S i) (dp + length (segmentData s)) rest
  end.

(** What the encoder's validation establishes for a segment. *)
Definition segment_writable (s : PostingSegment) : Prop :=
  segment_typed s /\ stream_fits s /\ Z.of_nat (length (sg_Certificate s)) <= 65535.

Lemma entriesSize_complete s : Forall entry_typed (sg_Entries s) -> stream_fits s ->
  PostingEntriesEncodedSize (sg_Entries s) = Ok (length (entriesData s)).
Proof.
  intros T (N & L & S). unfold PostingEntriesEncodedSize. rewrite (proj2 (Nat.eqb_neq _ 0)), (proj2 (Z.ltb_ge _ _)) by (done || by destruct (sg_Entries s)).
  cbn [orb]. unfold entriesData. assert (G : forall es previous first n, stream_ok previous first es ->
    entriesSizeLoop es previous first n = Ok (n + length (entriesBytes previous first es))%nat).
  { clear. induction es as [|e es IH]; intros previous first n; cbn [stream_ok entriesSizeLoop entriesBytes]; [cbn; intros _; f_equal; lia|].
    intros [(F1 & _ & F2) S]. unfold PostingEntryEncodedSize. rewrite (proj2 (Z.eqb_neq _ 0)) by lia. cbn [orb].
    assert (X : negb first && (Chunk e <=? previous) = false) by (destruct first; [done|]; apply Z.leb_gt; lia).
    rewrite X, bind_Ok, IH, length_app, entryBytes_length by done. f_equal. lia. }
  by rewrite G.
Qed.

Lemma putSegments_spec segs : forall payload i dp, Forall segment_writable segs -> bytes_ok payload -> Z.of_nat (length payload) < 2 ^ 32 ->
  (recordStart (i + length segs) <= dp)%nat -> (dp + dataLength segs <= length payload)%nat ->
  exists p, putSegments payload i dp segs = Ok p /\ length p = length payload /\ bytes_ok p /\ segments_at p i dp segs /\
    forall a b, (b <= recordStart i \/ recordStart (i + length segs) <= a /\ b <= dp)%nat -> slice p a b = slice payload a b.
Proof.
  induction segs as [|s segs IH]; intros payload i dp W B Lp Hr Hd; cbn [putSegments]; [by exists payload|].
  apply Forall_cons in W as [(Ts & Fs & Cs) W]. rewrite dataLength_cons in Hd. unfold recordStart in *. cbn [length] in *.
  pose proof Ts as (_ & _ & _ & _ & _ & Bc & Te). destruct (stream_fits_chunks _ Te Fs) as (C1 & _).
  assert (Ld : length (segmentData s) = (length (sg_Certificate s) + length (entriesData s))%nat) by apply length_app.
  unfold postingSegmentRecord, PostingPagePayloadHeaderSize, PostingSegmentHeaderSize. rewrite window_ok, bind_Ok by lia.
  set (r := slice payload _ _). assert (Lr : length r = 48%nat) by (unfold r; rewrite slice_length; lia).
  rewrite entriesSize_complete, <- Ld by done. pose proof (putRecord_shows r s dp Ts Fs Lr ltac:(lia) Cs) as Sh.
  set (r' := putRecord r s dp _) in *. assert (Lr' : length r' = 48%nat) by apply Sh.
  assert (Br : bytes_ok r') by (unfold r', putRecord, PutUint16, PutUint32, PutUint64, putLE; cbn zeta; repeat apply setBytes_ok; try apply le_bytes_ok; by apply Forall_slice).
  rewrite window_ok, bind_Ok by (rewrite ?setBytes_length; lia). fold (entriesData s). rewrite putEntries_bytes by (fold (entriesData s); rewrite !setBytes_length; lia).
  fold (entriesData s). rewrite bind_Ok, setBytes_split by (rewrite setBytes_length; lia). fold (segmentData s).
  set (q := setBytes (setBytes payload (32 + i * 48) r') dp (segmentData s)).
  assert (Lq : length q = length payload) by (unfold q; by rewrite !setBytes_length).
  assert (Bq : bytes_ok q).
  { apply setBytes_ok; [by apply setBytes_ok|]. apply Forall_app. split; [done|]. apply entriesBytes_ok; [done|apply Fs]. }
  destruct (IH q (S i) (dp + length (segmentData s))%nat W Bq ltac:(lia) ltac:(unfold recordStart; lia) ltac:(lia)) as (p & E & Lp' & Bp & At & Fr).
  exists p. split; [exact E|]. rewrite Lp', Lq. split_and!; [done|done|split_and!; [| |done]|].
  - unfold recordStart in *. rewrite Fr by lia. unfold q. rewrite slice_set_out by lia. replace (32 + i * 48 + 48)%nat with (32 + i * 48 + length r')%nat by lia. by rewrite slice_set_hit by lia.
  - unfold recordStart in *. rewrite Fr by lia. unfold q. by rewrite slice_set_hit by (rewrite setBytes_length; lia).
  - intros a b Hab. unfold recordStart in *. rewrite Fr by lia. unfold q. rewrite !slice_set_out by lia. done.
Qed.

(** ** Reading what was packed *)

Fixpoint segments_accepted (previousStream : Z) (segments : list PostingSegment) (header : PostingPageHeader) (nextLogicalID : Z) : Prop :=
  match segments with
  | [] => True
  | s :: rest => segmentRefused s previousStream header nextLogicalID = false /\ segments_accepted (sg_StreamID s) rest header nextLogicalID
  end.

(** Version 1 has no certificates. *)
Definition version_fits (version : Z) (s : PostingSegment) : Prop := version = 2 \/ version = 1 /\ sg_Certificate s = [].

Lemma segmentRefused_false s prev h next : segmentRefused s prev h next = false ->
  sg_StreamID s <> 0 /\ prev < sg_StreamID s /\ Z.ldiff (sg_Flags s) 1 = 0 /\ Z.of_nat (length (sg_Certificate s)) <= 65535 /\
  negb (Z.land (sg_Flags s) 1 =? 0) && (length (sg_Certificate s) =? 0)%nat = false /\ validPostingLink (sg_Next s) (pp_LogicalID h) next = true.
Proof.
  unfold segmentRefused, postingSegmentKnownFlags, PostingSegmentCollision. rewrite !orb_false_iff. intros [[[[[H1 H2] H3] H4] H5] H6].
  apply Z.eqb_neq in H1. apply Z.leb_gt in H2. apply negb_false_iff, Z.eqb_eq in H3. apply Z.ltb_ge in H4. apply negb_false_iff in H6. done.
Qed.

Lemma segmentData_pos s : stream_fits s -> (length (sg_Certificate s) < length (segmentData s))%nat.
Proof.
  intros (N & _). unfold segmentData, entriesData. rewrite length_app. destruct (sg_Entries s) as [|e es]; [done|]. cbn [entriesBytes].
  rewrite length_app. pose proof (entryBytes_pos (entryDelta (firstChunk (e :: es)) e true) (Bits e)). lia.
Qed.

Lemma decode_segment payload i dp ds version s prev h next :
  bytes_ok payload -> record_shows (slice payload (recordStart i) (recordStart i + 48)) s dp ->
  slice payload dp (dp + length (segmentData s)) = segmentData s -> segment_typed s -> stream_fits s -> segmentRefused s prev h next = false -> version_fits version s ->
  (recordStart i + 48 <= ds <= dp)%nat -> (dp + length (segmentData s) <= length payload)%nat -> Z.of_nat (length payload) < 2 ^ 32 ->
  decodePostingSegment payload i ds version = Ok (Some (segmentHeader s, sg_Certificate s, entriesData s, length (sg_Entries s))).
Proof.
  intros Bp R D T F A V Hd Hl Hp. pose proof (segmentData_pos s F) as Hc. pose proof T as (_ & _ & _ & _ & _ & Bc & Te).
  destruct (stream_fits_chunks s Te F) as (_ & C2 & _). destruct F as (N & Ln & _).
  destruct (segmentRefused_false _ _ _ _ A) as (A1 & _ & _ & A4 & A5 & _).
  unfold decodePostingSegment, postingSegmentRecord, PostingPagePayloadHeaderSize, PostingSegmentHeaderSize. fold (recordStart i).
  rewrite window_ok, bind_Ok by lia. set (r := slice payload (recordStart i) (recordStart i + 48)) in *.
  destruct R as (Lr & R1 & R2 & R3 & R4 & R5 & R6 & R7 & R8 & R9 & R10 & R11 & R12). rewrite R1, R2, R3, R4, R5, R6, R7, R8, R9, R10, R11, R12.
  assert (Z46 : (version =? postingPageVersionV1) && negb (allZero (slice r 46 48)) = false).
  { destruct V as [->|[-> E]]; [done|]. rewrite E in R12. unfold Uint16 in R12.
    assert (B : bytes_ok (slice r 46 48)) by (by do 2 apply Forall_slice).
    rewrite (proj2 (allZero_spec _ B)); [done|]. pose proof (slice_length r 46 48 ltac:(lia) ltac:(lia)) as L2. rewrite L2.
    rewrite <- (le_bytes_le_uint _ B), L2. unfold getLE in R12. change (46 + 2)%nat with 48%nat in R12. by rewrite R12. }
  rewrite Z46. assert (Ec : (if version =? postingPageVersionV1 then 0 else Z.of_nat (length (sg_Certificate s))) = Z.of_nat (length (sg_Certificate s))).
  { destruct V as [->|[-> ->]]; done. }
  rewrite Ec, Z.mod_small, (proj2 (Z.ltb_ge _ _)), (proj2 (Z.ltb_ge (Z.of_nat (length payload)) _)), (proj2 (Z.eqb_neq _ 0)) by lia. cbn [orb sh_StreamID sh_LastChunk sh_FirstChunk sh_Flags].
  rewrite (proj2 (Z.eqb_neq _ 0) A1), Nat2Z.id, (proj2 (Nat.eqb_neq _ 0)) by (by destruct (sg_Entries s)).
  rewrite (proj2 (Z.ltb_ge _ _)), (proj2 (Z.leb_gt _ _)) by lia. cbn [orb]. unfold PostingSegmentCollision.
  assert (E0 : (Z.of_nat (length (sg_Certificate s)) =? 0) = (length (sg_Certificate s) =? 0)%nat) by (destruct (Z.eqb_spec (Z.of_nat (length (sg_Certificate s))) 0), (Nat.eqb_spec (length (sg_Certificate s)) 0); lia).
  rewrite E0, A5, <- !Nat2Z.inj_add, !Nat2Z.id, !window_ok, !bind_Ok by lia.
  assert (Sc : slice payload dp (dp + length (sg_Certificate s)) = sg_Certificate s /\
    slice payload (dp + length (sg_Certificate s)) (dp + length (segmentData s)) = entriesData s).
  { rewrite (slice_split payload dp (dp + length (sg_Certificate s))) in D by lia. apply app_inj_1 in D; [done|]. rewrite slice_length; lia. }
  destruct Sc as [-> ->]. unfold segmentHeader. by destruct (sg_Next s).
Qed.

Lemma openSegments_spec segs : forall payload i ds dp version h next prev, bytes_ok payload -> Z.of_nat (length payload) < 2 ^ 32 ->
  segments_at payload i dp segs -> Forall segment_writable segs -> segments_accepted prev segs h next -> Forall (version_fits version) segs ->
  (recordStart (i + length segs) <= ds <= dp)%nat -> (dp + dataLength segs <= length payload)%nat ->
  openSegments (length segs) i payload ds version h next prev dp = Ok (dp + dataLength segs)%nat.
Proof.
  induction segs as [|s segs IH]; intros payload i ds dp version h next prev Bp Hp At W A V Hd Hl.
  { cbn. f_equal. lia. }
  rewrite dataLength_cons in Hl. destruct At as (R & D & At), A as (A & As). apply Forall_cons in W as [(Ts & Fs & Cs) W]. apply Forall_cons in V as [Vs V].
  cbn [length] in Hd. unfold recordStart in Hd. cbn [length openSegments].
  rewrite (decode_segment payload i dp ds version s prev h next) by (try done; unfold recordStart; lia). rewrite bind_Ok.
  unfold postingSegmentRecord, PostingPagePayloadHeaderSize, PostingSegmentHeaderSize. fold (recordStart i). rewrite window_ok, bind_Ok by (unfold recordStart; lia).
  destruct (segmentRefused_false _ _ _ _ A) as (A1 & A2 & A3 & _ & _ & A6). pose proof Ts as (_ & _ & _ & _ & _ & _ & Te).
  destruct (stream_fits_chunks s Te Fs) as (C1 & C2 & C3). destruct Fs as (N & Ln & S). pose proof (rows_positive _ N S) as Rp. pose proof (rowsOf_bound _ Te).
  destruct R as (_ & _ & _ & _ & _ & _ & _ & R7 & R8 & _). rewrite R7, R8, Nat2Z.id. cbn [sh_StreamID sh_Flags sh_Rows sh_Next sh_FirstChunk sh_LastChunk segmentHeader].
  unfold postingSegmentKnownFlags, PostingSegmentCollision. rewrite (proj2 (Z.leb_gt _ _) A2), A3, (proj2 (Z.eqb_neq _ 0) Rp), Z.eqb_refl, A6. cbn [orb negb Z.eqb].
  rewrite (scan_entriesBytes _ [] _ 0 _ true 0) by (try done; by rewrite app_nil_r). fold (entriesData s). rewrite C3, !Z.eqb_refl. cbn [orb negb].
  change (0 + length (entriesData s))%nat with (length (entriesData s)). rewrite Nat.eqb_refl, Z.add_0_l. unfold wrap64. rewrite Z.mod_small, Z.eqb_refl by lia. cbn [negb orb].
  rewrite IH by (try done; unfold recordStart; lia). rewrite dataLength_cons. f_equal. lia.
Qed.

Lemma validateSegments_inv segs : forall h next prev n m, Forall segment_typed segs -> validateSegments segs h next prev n = Ok m ->
  segments_accepted prev segs h next /\ Forall segment_writable segs /\ m = (n + dataLength segs)%nat.
Proof.
  induction segs as [|s segs IH]; intros h next prev n m T; cbn [validateSegments segments_accepted]; [intros [= ->]; cbn; split_and!; [done|done|lia]|].
  apply Forall_cons in T as [Ts T]. destruct (segmentRefused s prev h next) eqn:A; [done|].
  destruct (PostingEntriesEncodedSize (sg_Entries s)) as [len| |] eqn:E; [|done..]. rewrite bind_Ok. intros V.
  destruct (IH _ _ _ _ _ T V) as (As & Ws & ->). pose proof Ts as (_ & _ & _ & _ & _ & _ & Te). unfold PostingEntriesEncodedSize in E.
  destruct (_ || _) eqn:C in E; [done|]. apply orb_false_iff in C as [C1%Nat.eqb_neq C2%Z.ltb_ge].
  destruct (entriesSize_inv _ _ _ _ _ Te ltac:(done) E) as [S ->]. rewrite dataLength_cons. unfold segmentData, entriesData. rewrite length_app.
  destruct (segmentRefused_false _ _ _ _ A) as (_ & _ & _ & A4 & _). split_and!; [done|done| |lia].
  constructor; [|done]. split_and!; [done|split_and!; [by intros Z; rewrite Z in C1|done|done]|done].
Qed.

Lemma validateSegments_error segs h next prev n : match validateSegments segs h next prev n with
  | Ok _ => True | Err e => exists d, e = ErrInvalidWrite d | OutOfFuel => False end.
Proof.
  revert prev n. induction segs as [|s segs IH]; intros prev n; cbn [validateSegments]; [done|]. destruct (segmentRefused _ _ _ _); [by eexists|].
  destruct (PostingEntriesEncodedSize (sg_Entries s)) as [len|e|] eqn:E; cbn [mbind res_bind]; [apply IH| |].
  - unfold PostingEntriesEncodedSize in E. case_match; [simplify_eq; by eexists|]. by eapply entriesSize_error.
  - unfold PostingEntriesEncodedSize in E. case_match; [done|]. clear -E. revert E. generalize true, (firstChunk (sg_Entries s)), 0%nat.
    induction (sg_Entries s) as [|x es IH]; intros b z k; cbn [entriesSizeLoop]; [done|]. unfold PostingEntryEncodedSize. case_match; [done|]. rewrite bind_Ok. apply IH.
Qed.

(** ** What a page shows its readers *)

(** A segment view that shows [s]. *)
Definition segment_shows (sv : PostingSegmentView) (s : PostingSegment) : Prop :=
  sv_header sv = segmentHeader s /\ Certificate sv = sg_Certificate s /\ segment_Len sv = length (sg_Entries s) /\
  forall fuel, (length (sg_Entries s) < fuel)%nat -> drain fuel (Iterator sv) = sg_Entries s.

(** Access by rank and by stream agree with the list of segments. *)
Definition page_shows (v : PostingPageView) (segments : list PostingSegment) : Prop :=
  page_Len v = length segments /\
  (forall rank s, segments !! rank = Some s -> exists sv, SegmentAt v (Z.of_nat rank) = Ok (Some sv) /\ segment_shows sv s) /\
  (forall rank, rank < 0 \/ Z.of_nat (length segments) <= rank -> SegmentAt v rank = Ok None) /\
  (forall rank s, segments !! rank = Some s -> Lookup v (sg_StreamID s) = SegmentAt v (Z.of_nat rank)) /\
  (forall streamID, ~ (streamID ∈ (sg_StreamID <$> segments)) -> Lookup v streamID = Ok None).

Lemma segments_at_lookup segs : forall payload i dp h next prev k s, segments_at payload i dp segs -> segments_accepted prev segs h next -> segs !! k = Some s ->
  exists dp' prev', record_shows (slice payload (recordStart (i + k)) (recordStart (i + k) + 48)) s dp' /\
    slice payload dp' (dp' + length (segmentData s)) = segmentData s /\ (dp <= dp')%nat /\ (dp' + length (segmentData s) <= dp + dataLength segs)%nat /\
    segmentRefused s prev' h next = false.
Proof.
  induction segs as [|x segs IH]; intros payload i dp h next prev k s; [done|]. intros (R & D & At) [A As]. rewrite dataLength_cons.
  destruct k as [|k]; cbn [lookup list_lookup].
  - intros [= ->]. exists dp, prev. rewrite Nat.add_0_r. split_and!; done || lia.
  - intros E. destruct (IH _ _ _ _ _ _ _ _ At As E) as (dp' & prev' & R' & D' & L1 & L2 & A'). exists dp', prev'.
    replace (i + S k)%nat with (S i + k)%nat by lia. split_and!; done || lia.
Qed.

Lemma accepted_sorted segs : forall prev h next, segments_accepted prev segs h next ->
  StronglySorted Z.lt (sg_StreamID <$> segs) /\ Forall (fun x => prev < x) (sg_StreamID <$> segs).
Proof.
  induction segs as [|s segs IH]; intros prev h next; cbn [segments_accepted fmap list_fmap]; [split; constructor|].
  intros [A As]. destruct (IH _ _ _ As) as [S F]. destruct (segmentRefused_false _ _ _ _ A) as (_ & A2 & _).
  split; constructor; try done. eapply Forall_impl; [exact F|]. cbn. lia.
Qed.

Lemma sorted_lookup_lt (l : list Z) i j x y : StronglySorted Z.lt l -> l !! i = Some x -> l !! j = Some y -> (i < j)%nat -> x < y.
Proof.
  intros S. revert i j. induction S as [|a l S IH F]; intros i j Hi Hj L; [done|]. destruct j as [|j]; [lia|]. cbn in Hj.
  destruct i as [|i]; [|apply (IH i j); [done..|lia]]. cbn in Hi. simplify_eq. by eapply (proj1 (Forall_lookup _ _) F).
Qed.

Section Search.
(** A view whose records carry the stream numbers [ids], in increasing order. *)
Context (v : PostingPageView) (ids : list Z).
Hypothesis ids_sorted : StronglySorted Z.lt ids.
Hypothesis ids_records : forall k id, ids !! k = Some id -> exists r, postingSegmentRecord (pv_payload v) k = Ok r /\ Uint32 r 0 = id.

Lemma lookupStreamLoop_spec x : forall fuel low high, (high <= length ids)%nat -> (high - low <= fuel)%nat -> (low <= high)%nat ->
  (forall k id, (k < low)%nat -> ids !! k = Some id -> id < x) -> (forall k id, (high <= k)%nat -> ids !! k = Some id -> x <= id) ->
  exists low', lookupStreamLoop fuel v x low high = Ok low' /\ (low' <= high)%nat /\
    (forall k id, (k < low')%nat -> ids !! k = Some id -> id < x) /\ (forall k id, (low' <= k)%nat -> ids !! k = Some id -> x <= id).
Proof.
  induction fuel as [|fuel IH]; intros low high Hh Hf Hlh H1 H2; cbn [lookupStreamLoop]; destruct (Nat.ltb_spec low high) as [L|L]; try lia.
  1, 3: exists low; assert (high = low) as -> by lia; done.
  assert (M : (low <= Nat.div2 (low + high) < high)%nat) by (rewrite Nat.div2_div; split; [apply Nat.div_le_lower_bound|apply Nat.Div0.div_lt_upper_bound]; lia).
  set (m := Nat.div2 (low + high)) in *. destruct (lookup_lt_is_Some_2 ids m) as [id Hid]; [lia|].
  destruct (ids_records m id Hid) as (r & Er & Ei). rewrite Er, bind_Ok, Ei. destruct (Z.ltb_spec id x) as [C|C].
  - apply IH; [lia..| |done]. intros k y Hk Hy. destruct (decide (k = m)) as [->|]; [by simplify_eq|].
    pose proof (sorted_lookup_lt ids k m y id ids_sorted Hy Hid). lia.
  - destruct (IH low m) as (low' & E & ? & ? & ?); [lia..|done| |exists low'; split_and!; done || lia].
    intros k y Hk Hy. destruct (decide (k = m)) as [->|]; [by simplify_eq|]. pose proof (sorted_lookup_lt ids m k id y ids_sorted Hid Hy). lia.
Qed.
End Search.

(** Everything a reader of an admitted payload relies on. *)
Definition packed (payload : list Z) (version : Z) (header : PostingPageHeader) (nextLogicalID : Z) (segments : list PostingSegment) : Prop :=
  bytes_ok payload /\ Z.of_nat (length payload) < 2 ^ 32 /\ length payload = (recordStart (length segments) + dataLength segments)%nat /\
  segments_at payload 0 (recordStart (length segments)) segments /\ Forall segment_writable segments /\
  segments_accepted 0 segments header nextLogicalID /\ Forall (version_fits version) segments.

Lemma packed_record payload version h next segs rank s : packed payload version h next segs -> segs !! rank = Some s ->
  exists r, postingSegmentRecord payload rank = Ok r /\ Uint32 r 0 = sg_StreamID s.
Proof.
  intros (Bp & Hp & L & At & W & A & V) E. destruct (segments_at_lookup _ _ _ _ _ _ _ _ _ At A E) as (dp & prev & R & _).
  pose proof (lookup_lt_Some _ _ _ E). unfold postingSegmentRecord, PostingPagePayloadHeaderSize, PostingSegmentHeaderSize. fold (recordStart rank).
  rewrite window_ok by (unfold recordStart in *; lia). eexists. split; [done|]. apply R.
Qed.

Lemma packed_segment payload version h next segs v rank s : packed payload version h next segs -> pv_payload v = payload -> pv_version v = version ->
  pv_count v = length segs -> segs !! rank = Some s -> exists sv, SegmentAt v (Z.of_nat rank) = Ok (Some sv) /\ segment_shows sv s.
Proof.
  intros (Bp & Hp & L & At & W & A & V) Ep Ev Ec E. destruct (segments_at_lookup _ _ _ _ _ _ _ _ _ At A E) as (dp & prev & R & D & L1 & L2 & A').
  pose proof (lookup_lt_Some _ _ _ E). destruct (proj1 (Forall_lookup _ _) W _ _ E) as (Ts & Fs & _). pose proof (proj1 (Forall_lookup _ _) V _ _ E) as Vs.
  cbn [plus] in R. unfold SegmentAt. rewrite Ep, Ev, Ec, Nat2Z.id, (proj2 (Z.ltb_ge _ _)), (proj2 (Z.leb_gt _ _)) by lia. cbn [orb].
  unfold PostingPagePayloadHeaderSize, PostingSegmentHeaderSize. fold (recordStart (length segs)).
  rewrite (decode_segment payload rank dp _ version s prev h next) by (try done; unfold recordStart in *; lia). rewrite bind_Ok.
  eexists. split; [done|]. split_and!; [done..|]. intros fuel Hf. unfold Iterator. cbn [sv_entries sv_count sv_header segmentHeader sh_FirstChunk].
  pose proof Ts as (_ & _ & _ & _ & _ & _ & Te). destruct (stream_fits_chunks s Te Fs) as (C1 & _).
  apply (drain_entries _ []); [done|apply Fs| |done]. by rewrite app_nil_r.
Qed.

(** An admitted page shows its segments. *)
Lemma packed_shows payload version h next segs v : packed payload version h next segs -> pv_payload v = payload -> pv_version v = version ->
  pv_count v = length segs -> page_shows v segs.
Proof.
  intros P Ep Ev Ec. pose proof P as (_ & _ & _ & _ & _ & A & _). destruct (accepted_sorted _ _ _ _ A) as [S _].
  assert (Hr : forall k id, (sg_StreamID <$> segs) !! k = Some id -> exists r, postingSegmentRecord (pv_payload v) k = Ok r /\ Uint32 r 0 = id).
  { intros k id. rewrite list_lookup_fmap. destruct (segs !! k) as [s|] eqn:E; [|done]. intros [= <-]. rewrite Ep. by eapply packed_record. }
  assert (Hl : forall x, exists low, lookupStreamLoop (pv_count v) v x 0 (pv_count v) = Ok low /\ (low <= length segs)%nat /\
    (forall k id, (k < low)%nat -> (sg_StreamID <$> segs) !! k = Some id -> id < x) /\ (forall k id, (low <= k)%nat -> (sg_StreamID <$> segs) !! k = Some id -> x <= id)).
  { intros x. rewrite Ec. apply (lookupStreamLoop_spec v _ S Hr); [rewrite length_fmap; lia|lia|lia|lia|].
    intros k id L E%lookup_lt_Some. rewrite length_fmap in E. lia. }
  split_and!; [done|intros; by eapply packed_segment| | |].
  - intros rank H. unfold SegmentAt. rewrite Ec. by destruct (Z.ltb_spec rank 0), (Z.leb_spec (Z.of_nat (length segs)) rank); try lia.
  - intros rank s E. assert (Ei : (sg_StreamID <$> segs) !! rank = Some (sg_StreamID s)) by (by rewrite list_lookup_fmap, E).
    destruct (Hl (sg_StreamID s)) as (low & El & Ll & H1 & H2). pose proof (lookup_lt_Some _ _ _ E) as Lr.
    assert (low = rank) as ->.
    { destruct (Nat.lt_trichotomy low rank) as [C|[C|C]]; [|done|].
      - destruct (lookup_lt_is_Some_2 segs low ltac:(lia)) as [t Et].
        assert (Ej : (sg_StreamID <$> segs) !! low = Some (sg_StreamID t)) by (by rewrite list_lookup_fmap, Et).
        pose proof (H2 _ _ (le_n low) Ej). pose proof (sorted_lookup_lt _ _ _ _ _ S Ej Ei C). lia.
      - specialize (H1 _ _ C Ei). lia. }
    unfold Lookup. rewrite El, bind_Ok, (proj2 (Nat.leb_gt _ _)) by lia. destruct (Hr _ _ Ei) as (r & -> & Eq). by rewrite bind_Ok, Eq, Z.eqb_refl.
  - intros x Hx. destruct (Hl x) as (low & El & Ll & _). unfold Lookup. rewrite El, bind_Ok. destruct (Nat.leb_spec (pv_count v) low) as [|C]; [done|].
    destruct (lookup_lt_is_Some_2 segs low ltac:(lia)) as [t Et]. assert (Ej : (sg_StreamID <$> segs) !! low = Some (sg_StreamID t)) by (by rewrite list_lookup_fmap, Et).
    destruct (Hr _ _ Ej) as (r & -> & Eq). rewrite bind_Ok, Eq. destruct (Z.eqb_spec (sg_StreamID t) x) as [<-|]; [|done].
    destruct Hx. by eapply list_elem_of_lookup_2.
Qed.

(** ** The payload's header *)

(** The Go types of the page header's fields. *)
Definition posting_header_typed (h : PostingPageHeader) : Prop :=
  length (pp_StoreID h) = 16%nat /\ bytes_ok (pp_StoreID h) /\ word_ok 8 (pp_Generation h) /\ word_ok 8 (pp_LogicalID h) /\
  word_ok 4 (pp_PageSize h) /\ word_ok 4 (pp_IndexID h) /\ word_ok 2 (pp_Flags h).

Lemma validatePostingPageHeader_none h count next high : validatePostingPageHeader h count next high = None ->
  bool_decide (pp_StoreID h = zeroStoreID) = false /\ pp_Generation h <> 0 /\ 1 < pp_LogicalID h < next /\
  validPhysicalPageSize (pp_PageSize h) = true /\ pp_Flags h = 0 /\ (0 < count)%nat /\ Z.of_nat count <= 65535.
Proof.
  unfold validatePostingPageHeader, StateRootLogicalID, postingPageKnownFlags. destruct (_ || _) eqn:E; [done|]. intros _.
  rewrite !orb_false_iff in E. destruct E as [[[[[[[[[E1 E2] E3] E4] E5] E6] E7] E8] _] _].
  apply Z.eqb_neq in E2. apply Z.leb_gt in E3, E4. apply negb_false_iff in E5, E6. apply Z.eqb_eq in E6. rewrite Z.ldiff_0_r in E6.
  apply Nat.eqb_neq in E7. apply Z.ltb_ge in E8. split_and!; done || lia.
Qed.

Lemma postingPageHeader_valid h count next high n : posting_header_typed h -> validatePostingPageHeader h count next high = None ->
  Z.of_nat n <= pp_PageSize h - 72 -> validatePageHeader (postingPageHeader h n) = None /\ page_header_ok (postingPageHeader h n).
Proof.
  intros (T1 & T2 & T3 & T4 & T5 & T6 & T7) V Hn. destruct (validatePostingPageHeader_none _ _ _ _ V) as (H1 & H2 & H3 & H4 & _).
  split.
  - unfold validatePageHeader, PageHeaderSize, PageTrailerSize. cbn [ph_StoreID ph_Generation ph_LogicalID ph_Kind ph_Flags ph_PageSize ph_PayloadLength postingPageHeader].
    rewrite H1, H4, (proj2 (Z.eqb_neq _ _) H2), (proj2 (Z.eqb_neq (pp_LogicalID h) 0)), (proj2 (Z.ltb_ge _ _)) by lia. done.
  - unfold page_header_ok. cbn [ph_StoreID ph_Generation ph_LogicalID ph_Kind ph_Flags ph_PageSize ph_PayloadLength postingPageHeader].
    unfold word_ok, is_byte, PageIndexPosting in *. split_and!; done || lia.
Qed.

(** The header of a payload for [h]. *)
Definition payload_shows (payload : list Z) (h : PostingPageHeader) (count encodedBytes : nat) (version : Z) : Prop :=
  (32 <= length payload)%nat /\ Uint32 payload 0 = version /\ Uint32 payload 4 = pp_IndexID h /\ Uint16 payload 8 = Z.of_nat count /\
  Uint16 payload 10 = pp_Flags h /\ Uint32 payload 12 = Z.of_nat count * 48 /\ Uint32 payload 16 = Z.of_nat encodedBytes /\
  slice payload 20 32 = replicate 12 0.

Lemma putPayloadHeader_shows n h count encodedBytes : posting_header_typed h -> (32 <= n)%nat -> Z.of_nat count <= 65535 ->
  Z.of_nat encodedBytes < 2 ^ 32 -> payload_shows (putPayloadHeader (replicate n 0) h count encodedBytes) h count encodedBytes 2 /\
  bytes_ok (putPayloadHeader (replicate n 0) h count encodedBytes) /\ length (putPayloadHeader (replicate n 0) h count encodedBytes) = n.
Proof.
  intros (_ & _ & _ & _ & _ & T6 & T7) Hn Hc He. unfold putPayloadHeader, postingPageVersion, PostingSegmentHeaderSize. cbn zeta.
  assert (W : word_ok 4 2 /\ word_ok 2 (Z.of_nat count) /\ word_ok 4 (Z.of_nat (count * 48)) /\ word_ok 4 (Z.of_nat encodedBytes)) by (unfold word_ok; lia).
  destruct W as (W1 & W2 & W3 & W4). unfold payload_shows, PutUint16, PutUint32, PutUint64, putLE, Uint16, Uint32, Uint64.
  split_and!; rewrite ?setBytes_length, ?length_replicate; try done.
  1-6: assert (length (replicate n 0) = n) by apply length_replicate; buf; try done; lia.
  - rewrite !slice_set_out by (rewrite le_bytes_length; lia). by rewrite slice_replicate by lia.
  - repeat apply setBytes_ok; try apply le_bytes_ok. apply zeros_ok.
Qed.

(** The header survives writes behind it. *)
Lemma payload_shows_agree p q h count n version : length p = length q -> slice p 0 32 = slice q 0 32 -> payload_shows q h count n version -> payload_shows p h count n version.
Proof.
  intros L E (Lq & Q). assert (G : forall k a, (a + k <= 32)%nat -> getLE k p a = getLE k q a).
  { intros k a Ha. unfold getLE. f_equal. by apply (slice_agree p q 32). }
  unfold payload_shows, Uint16, Uint32 in *. rewrite !G, (slice_agree p q 32 20 32), L by (done || lia). done.
Qed.

(** A packed payload under its page header is admitted. *)
Lemma open_packed src ph payload h next high version segs : OpenPage src = Ok (ph, payload) -> ph_Kind ph = PageIndexPosting ->
  h = mkPostingHeader (ph_StoreID ph) (ph_Generation ph) (ph_LogicalID ph) (ph_PageSize ph) (pp_IndexID h) (pp_Flags h) ->
  version = 1 \/ version = 2 -> payload_shows payload h (length segs) (dataLength segs) version -> packed payload version h next segs ->
  validatePostingPageHeader h (length segs) next high = None -> OpenPostingPage src next high = Ok (mkPageView h payload (length segs) version).
Proof.
  intros E Hk Hh Hv (L & Q1 & Q2 & Q3 & Q4 & Q5 & Q6 & Q7) (Bp & Hp & Lp & At & W & A & V) Va. unfold OpenPostingPage. rewrite E, window_ok, bind_Ok by lia.
  assert (Ev : Uint32 (slice payload 0 4) 0 = version) by (unfold Uint32, getLE in *; by rewrite slice_slice by lia). rewrite Ev, Hk, Z.eqb_refl.
  unfold PostingPagePayloadHeaderSize. rewrite (proj2 (Nat.ltb_ge _ _) L), Q7, allZero_replicate.
  assert (Ex : negb (version =? postingPageVersionV1) && negb (version =? postingPageVersion) = false) by (destruct Hv as [->| ->]; done). rewrite Ex. cbn [orb negb].
  rewrite Q2, Q3, Q4, Q5, Q6, <- Hh, Nat2Z.id, Va, Z.eqb_refl. replace (32 + Z.to_nat (Z.of_nat (length segs) * 48))%nat with (recordStart (length segs)) by (unfold recordStart; lia).
  rewrite (proj2 (Z.eqb_eq _ _)) by (rewrite Lp; lia). cbn [negb orb].
  rewrite (openSegments_spec segs) by (try done; cbn [plus]; lia). rewrite bind_Ok, <- Lp, Nat.eqb_refl. done.
Qed.

(** ** Round trips *)

(** The encoder's result once its validation has passed. *)
Lemma EncodePostingPage_page dst h segs next high n : posting_header_typed h -> Forall segment_typed segs ->
  validatePostingPageWrite h segs next high = Ok n -> pp_PageSize h <= Z.of_nat (length dst) ->
  exists page payload, EncodePostingPage dst h segs next high = Ok page /\ Z.of_nat (length page) = pp_PageSize h /\
    packed payload 2 h next segs /\ payload_shows payload h (length segs) (dataLength segs) 2 /\
    validatePostingPageHeader h (length segs) next high = None /\
    forall rest, OpenPage (page ++ rest) = Ok (postingPageHeader h (length payload), payload).
Proof.
  intros Th Ts Hv Hd. unfold EncodePostingPage. rewrite Hv, bind_Ok. unfold validatePostingPageWrite in Hv.
  destruct (validatePostingPageHeader h (length segs) next high) eqn:Vh; [done|].
  destruct (validateSegments segs h next 0 0) as [m| |] eqn:Vs; [|done..]. rewrite bind_Ok in Hv. destruct (_ <? _) eqn:Fit; [done|].
  injection Hv as ->. apply Z.ltb_ge in Fit. destruct (validateSegments_inv _ _ _ _ _ _ Ts Vs) as (A & W & ->). cbn [plus] in *.
  unfold PostingPagePayloadHeaderSize, PostingSegmentHeaderSize. fold (recordStart (length segs)). set (N := (recordStart (length segs) + dataLength segs)%nat).
  assert (HN : Z.of_nat N <= pp_PageSize h - 72) by (unfold N, recordStart; lia).
  destruct (postingPageHeader_valid h _ _ _ N Th Vh HN) as [Vp Op].
  pose proof (InitPage_total dst (postingPageHeader h N) ltac:(cbn; lia) Vp Hd) as Ei. rewrite Ei, bind_Ok.
  set (p := writePageHeader _ _) in *. assert (Lp : Z.of_nat (length p) = pp_PageSize h).
  { unfold p. rewrite writePageHeader_length, length_replicate. cbn [ph_PageSize postingPageHeader]. lia. }
  unfold PageHeaderSize. rewrite window_ok, bind_Ok by lia.
  assert (Ez : slice p 64 (64 + N) = replicate N 0).
  { unfold p, writePageHeader, PutUint16, PutUint32, PutUint64, putLE. cbn zeta. destruct Th as (Li & _).
    rewrite !slice_set_out by (rewrite ?le_bytes_length; cbn [ph_StoreID postingPageHeader length pageMagic]; lia).
    rewrite slice_replicate by (cbn [ph_PageSize postingPageHeader]; lia). f_equal; lia. }
  rewrite Ez. assert (Hps : pp_PageSize h < 2 ^ 32) by apply Th. destruct (validatePostingPageHeader_none _ _ _ _ Vh) as (_ & _ & _ & _ & _ & _ & Hc).
  destruct (putPayloadHeader_shows N h (length segs) (dataLength segs) Th ltac:(unfold N, recordStart; lia) Hc ltac:(lia)) as (Sh & Bh & Lh).
  set (q := putPayloadHeader _ _ _ _) in *.
  destruct (putSegments_spec segs q 0 (recordStart (length segs)) W Bh ltac:(lia) ltac:(done) ltac:(unfold N in *; lia)) as (payload & Eq & Lq & Bq & At & Fr).
  rewrite Eq, bind_Ok. destruct (page_roundtrip dst (postingPageHeader h N) payload p Op Ei) as (page & c & _ & Es & Lpg & O); [cbn [ph_PayloadLength postingPageHeader]; lia|done|].
  unfold PageHeaderSize in Es. rewrite Es, bind_Ok. exists page, payload. rewrite Lq, Lh. split_and!; try done.
  - unfold packed. rewrite Lq, Lh. split_and!; try done; [lia|]. apply Forall_forall. intros s _. by left.
  - eapply payload_shows_agree; [done| |exact Sh]. apply Fr. left. unfold recordStart. lia.
Qed.

(** C17: EncodePostingPage and OpenPostingPage are inverse.  For every input the
    encoder either reports ErrInvalidWrite, without a panic, or writes a page
    that opens, whatever follows it in the buffer, to the same header and to the
    same segments: by rank and by binary search on the stream number, with the
    same certificates and, iterated to the end, the same entries; ranks and
    stream numbers the page does not hold are reported absent. *)
Theorem posting_page_roundtrip (dst : list Z) (header : PostingPageHeader) (segments : list PostingSegment) (nextLogicalID indexHighWater : Z) :
  posting_header_typed header -> Forall segment_typed segments ->
  match EncodePostingPage dst header segments nextLogicalID indexHighWater with
  | Ok page =>
      Z.of_nat (length page) = pp_PageSize header /\
      forall rest, exists v, OpenPostingPage (page ++ rest) nextLogicalID indexHighWater = Ok v /\
        pv_header v = header /\ page_shows v segments
  | Err e => exists detail, e = ErrInvalidWrite detail
  | OutOfFuel => False
  end.
Proof.
  intros Th Ts. destruct (validatePostingPageWrite header segments nextLogicalID indexHighWater) as [n|e|] eqn:V.
  - destruct (Z.leb_spec (pp_PageSize header) (Z.of_nat (length dst))) as [L|L].
    + destruct (EncodePostingPage_page dst header segments _ _ n Th Ts V L) as (page & payload & -> & Lp & P & Sh & Vh & O).
      split; [done|]. intros rest. exists (mkPageView header payload (length segments) 2). split_and!; [|done|by eapply packed_shows].
      eapply open_packed; [apply O|done| |by right|done|done|done]. by destruct header.
    + unfold EncodePostingPage. rewrite V, bind_Ok. unfold InitPage. destruct (validatePageHeader _) eqn:Vp.
      * cbn. unfold validatePageHeader in Vp. repeat case_match; simplify_eq; by eexists.
      * cbn [ph_PageSize postingPageHeader]. rewrite (proj2 (Z.ltb_lt _ _) L). by eexists.
  - unfold EncodePostingPage. rewrite V. cbn. unfold validatePostingPageWrite, validatePostingPageHeader in V. case_match; [case_match; simplify_eq; by eexists|].
    pose proof (validateSegments_error segments header nextLogicalID 0 0) as Ve. destruct (validateSegments _ _ _ _ _) as [m|e'|]; cbn in V; [|by simplify_eq|done].
    case_match; simplify_eq; by eexists.
  - unfold validatePostingPageWrite in V. case_match; [done|]. pose proof (validateSegments_error segments header nextLogicalID 0 0) as Ve.
    destruct (validateSegments _ _ _ _ _) as [m|e'|]; cbn in V; [|done..]. by case_match.
Qed.

(** ** Admission *)

(** What a decoded segment says of the payload. *)
Definition segment_decoded (payload : list Z) (i : nat) (version : Z) (hd : PostingSegmentHeader) (cert entries : list Z) (count : nat) : Prop :=
  let r := slice payload (recordStart i) (recordStart i + 48) in
  let offset := Z.to_nat (Uint32 r 32) in
  length r = 48%nat /\
  hd = mkSegmentHeader (Uint32 r 0) (Uint64 r 16) (Uint32 r 4) (Uint32 r 8) (Uint32 r 12) (Uint16 r 44) (mkLink (Uint64 r 24) (Uint16 r 42)) /\
  Uint16 r 46 = Z.of_nat (length cert) /\ Uint32 r 36 = Z.of_nat (length cert + length entries) /\ Uint16 r 40 = Z.of_nat count /\
  (offset + (length cert + length entries) <= length payload)%nat /\ slice payload offset (offset + (length cert + length entries)) = cert ++ entries /\
  count <> 0%nat /\ Uint32 r 0 <> 0 /\ negb (Z.land (Uint16 r 44) 1 =? 0) && (length cert =? 0)%nat = false /\ (version = 1 -> cert = []).

Lemma decodePostingSegment_result payload i ds version : bytes_ok payload -> (recordStart i + 48 <= length payload)%nat ->
  match decodePostingSegment payload i ds version with
  | Ok (Some (hd, cert, entries, count)) => segment_decoded payload i version hd cert entries count
  | Ok None => True
  | _ => False
  end.
Proof.
  intros Bp L. unfold decodePostingSegment, postingSegmentRecord, PostingPagePayloadHeaderSize, PostingSegmentHeaderSize. fold (recordStart i).
  rewrite window_ok, bind_Ok by lia. set (r := slice payload (recordStart i) (recordStart i + 48)).
  assert (Lr : length r = 48%nat) by (unfold r; rewrite slice_length; lia). assert (Br : bytes_ok r) by (by apply Forall_slice).
  destruct (_ && negb (allZero _)) eqn:Z46; [done|]. set (cl := if version =? postingPageVersionV1 then 0 else Uint16 r 46).
  assert (Ec : Uint16 r 46 = cl /\ 0 <= cl /\ (version = 1 -> cl = 0)).
  { pose proof (getLE_ok 2 r 46 Br ltac:(lia)) as W. change (getLE 2 r 46) with (Uint16 r 46) in W. unfold cl, postingPageVersionV1 in *.
    destruct (Z.eqb_spec version 1) as [->|]; [|unfold word_ok in W; lia]. cbn [andb] in Z46. apply negb_false_iff in Z46.
    apply allZero_spec in Z46; [|by apply Forall_slice]. rewrite slice_length in Z46 by lia. split; [|lia].
    unfold Uint16, getLE. change (46 + 2)%nat with 48%nat. by rewrite Z46. }
  clearbody cl. clear Z46. destruct Ec as (Ec & C0 & C1). destruct (_ || _) eqn:B1 in |- *; [done|]. rewrite !orb_false_iff in B1. destruct B1 as [[_ B1%Z.ltb_ge] _].
  cbn [sh_StreamID sh_LastChunk sh_FirstChunk sh_Flags]. destruct (_ || _) eqn:B2; [done|]. rewrite !orb_false_iff in B2.
  destruct B2 as [[[[B2%Z.eqb_neq B3%Nat.eqb_neq] _] B5%Z.leb_gt] B6].
  pose proof (getLE_ok 4 r 32 Br ltac:(lia)) as W1. pose proof (getLE_ok 4 r 36 Br ltac:(lia)) as W2. pose proof (getLE_ok 2 r 40 Br ltac:(lia)) as W3.
  change (getLE 4 r 32) with (Uint32 r 32) in W1. change (getLE 4 r 36) with (Uint32 r 36) in W2. change (getLE 2 r 40) with (Uint16 r 40) in W3. unfold word_ok in W1, W2, W3.
  rewrite !window_ok, !bind_Ok by lia. set (o := Z.to_nat (Uint32 r 32)). replace (Z.to_nat (Uint32 r 32 + cl)) with (o + Z.to_nat cl)%nat by lia.
  replace (Z.to_nat (Uint32 r 32 + Uint32 r 36)) with (o + Z.to_nat (Uint32 r 36))%nat by lia.
  unfold segment_decoded. cbn zeta. fold r. fold o. rewrite !slice_length by lia.
  replace (o + (o + Z.to_nat cl - o + (o + Z.to_nat (Uint32 r 36) - (o + Z.to_nat cl))))%nat with (o + Z.to_nat (Uint32 r 36))%nat by lia.
  split_and!; try done; try lia.
  - by rewrite <- (slice_split payload o (o + Z.to_nat cl)) by lia.
  - replace (o + Z.to_nat cl - o)%nat with (Z.to_nat cl) by lia. unfold PostingSegmentCollision in B6. rewrite <- B6. f_equal.
    destruct (Z.eqb_spec cl 0), (Nat.eqb_spec (Z.to_nat cl) 0); lia.
  - intros Ev. rewrite (C1 Ev). by rewrite slice_nil by lia.
Qed.

(** The segment a decoded record and its scanned entries describe. *)
Definition segmentOf (hd : PostingSegmentHeader) (cert : list Z) (es : list PostingEntry) : PostingSegment :=
  mkSegment (sh_StreamID hd) (sh_TupleHash hd) (sh_Flags hd) (sh_Next hd) cert es.

Lemma stream_entries_typed previous first es : stream_ok previous first es -> Forall entry_typed es.
Proof. intros S. destruct (stream_sorted _ _ _ S) as (_ & F & _). eapply Forall_impl; [exact F|]. unfold entry_typed. cbn. lia. Qed.

Lemma segment_admitted payload i version hd cert entries count position previousChunk rows dp :
  bytes_ok payload -> segment_decoded payload i version hd cert entries count -> version = 1 \/ version = 2 ->
  scanEntries count true entries 0 (sh_FirstChunk hd) 0 = Some (position, previousChunk, rows) ->
  position = length entries -> previousChunk = sh_LastChunk hd -> rows = sh_Rows hd ->
  Z.of_nat dp = Uint32 (slice payload (recordStart i) (recordStart i + 48)) 32 ->
  exists es, let s := segmentOf hd cert es in segment_writable s /\ version_fits version s /\
    record_shows (slice payload (recordStart i) (recordStart i + 48)) s dp /\
    slice payload dp (dp + length (segmentData s)) = segmentData s /\ (dp + length (segmentData s) <= length payload)%nat.
Proof.
  intros Bp (Lr & Eh & D1 & D2 & D3 & D4 & D5 & D6 & D7 & D8 & D9) Hv Sc Ep Ec Er Ed. set (r := slice payload (recordStart i) (recordStart i + 48)) in *.
  assert (Br : bytes_ok r) by (by apply Forall_slice). rewrite <- Ed, Nat2Z.id in D4, D5.
  assert (Bce : bytes_ok (cert ++ entries)) by (rewrite <- D5; by apply Forall_slice). apply Forall_app in Bce as [Bc Be].
  assert (W : forall n a, (a + n <= 48)%nat -> word_ok n (getLE n r a)) by (intros; apply getLE_ok; [done|lia]).
  assert (Hf : 0 <= sh_FirstChunk hd < 2 ^ 32) by (rewrite Eh; apply (W 4%nat 4%nat); lia).
  destruct (scan_canonical _ _ _ _ _ _ _ _ _ Be Hf (Nat.le_0_l _) eq_refl Sc) as (es & Le & S & E & _ & _ & El & Ew).
  rewrite Ep, drop_all, app_nil_r, drop_0 in E. pose proof (stream_entries_typed _ _ _ S) as Te. pose proof (rowsOf_bound _ Te) as Rb.
  assert (Hc : Z.of_nat count <= 65535) by (rewrite <- D3; pose proof (W 2%nat 40%nat ltac:(lia)) as Wc; unfold word_ok in Wc; unfold Uint16; lia).
  assert (Ne : es <> []) by (intros ->; done). assert (Ef : firstChunk es = sh_FirstChunk hd) by (destruct es; [done|]; apply S).
  assert (Er' : rowsOf es = sh_Rows hd) by (rewrite <- Er, Ew; symmetry; apply Z.mod_small; lia).
  assert (El' : lastChunk 0 es = sh_LastChunk hd) by (rewrite <- Ec, El; by destruct es).
  assert (Ee : entriesData (segmentOf hd cert es) = entries) by (unfold entriesData; cbn [sg_Entries segmentOf]; by rewrite Ef).
  assert (Esd : segmentData (segmentOf hd cert es) = cert ++ entries) by (unfold segmentData; by rewrite Ee). exists es. cbn zeta.
  assert (Hw : word_ok 2 (Uint16 r 46)) by (apply (W 2%nat); lia). rewrite Esd, length_app. split_and!; [split_and!| | |done|done].
  - rewrite Eh. unfold segmentOf, segment_typed. cbn [sg_StreamID sg_Entries sg_TupleHash sg_Next sg_Flags sg_Certificate sh_StreamID sh_TupleHash sh_Flags sh_Next ln_LogicalID ln_Segment]. split_and!; try done; apply W; lia.
  - split_and!; cbn; [done|lia|by rewrite Ef].
  - cbn. rewrite D1 in Hw. unfold word_ok in Hw. lia.
  - destruct Hv as [->| ->]; [right; split; [done|by apply D9]|by left].
  - unfold record_shows. rewrite Esd, length_app, D2, D3. unfold segmentOf. cbn [sg_StreamID sg_Entries sg_TupleHash sg_Next sg_Flags sg_Certificate].
    rewrite Ef, El', Er', Eh. cbn. split_and!; try done; lia.
Qed.

Lemma openSegments_result n : forall payload i ds version h next prev dp, bytes_ok payload -> version = 1 \/ version = 2 -> 0 <= prev ->
  (recordStart (i + n) <= length payload)%nat -> (dp <= length payload)%nat ->
  match openSegments n i payload ds version h next prev dp with
  | Ok dp' => exists segs, length segs = n /\ segments_at payload i dp segs /\ Forall segment_writable segs /\
      segments_accepted prev segs h next /\ Forall (version_fits version) segs /\ dp' = (dp + dataLength segs)%nat
  | Err e => exists detail, e = ErrPostingPageCorrupt detail
  | OutOfFuel => False
  end.
Proof.
  induction n as [|n IH]; intros payload i ds version h next prev dp Bp Hv Hp Hr Hd; cbn [openSegments].
  { exists []. split_and!; try done; cbn; lia. }
  unfold recordStart in Hr. pose proof (decodePostingSegment_result payload i ds version Bp ltac:(unfold recordStart; lia)) as D.
  destruct (decodePostingSegment payload i ds version) as [[[[[hd cert] entries] count]|]|e|]; [|by eexists|done..]. rewrite bind_Ok.
  unfold postingSegmentRecord, PostingPagePayloadHeaderSize, PostingSegmentHeaderSize. fold (recordStart i). rewrite window_ok, bind_Ok by (unfold recordStart; lia).
  set (r := slice payload (recordStart i) (recordStart i + 48)) in *. destruct (_ || _) eqn:C; [by eexists|]. rewrite !orb_false_iff in C.
  destruct C as [[[[C1%Z.leb_gt C2%negb_false_iff] _] C4%negb_false_iff%Z.eqb_eq] C5%negb_false_iff].
  destruct (scanEntries _ _ _ _ _ _) as [[[position previousChunk] rows]|] eqn:Sc; [|by eexists]. destruct (_ || _) eqn:C; [by eexists|]. rewrite !orb_false_iff in C.
  destruct C as [[C6%negb_false_iff%Nat.eqb_eq C7%negb_false_iff%Z.eqb_eq] C8%negb_false_iff%Z.eqb_eq].
  destruct (segment_admitted _ _ _ _ _ _ _ _ _ _ dp Bp D Hv Sc C6 C7 C8 C4) as (es & Ws & Vs & R & Ds & Ls). set (s := segmentOf hd cert es) in *.
  assert (Lr : Uint32 r 36 = Z.of_nat (length (segmentData s))) by apply R. rewrite Lr, Nat2Z.id.
  specialize (IH payload (S i) ds version h next (sh_StreamID hd) (dp + length (segmentData s))%nat Bp Hv ltac:(lia) ltac:(unfold recordStart; lia) Ls).
  destruct (openSegments _ _ _ _ _ _ _ _ _) as [dp'|e|]; [|done..]. destruct IH as (segs & L & At & W & A & V & ->).
  exists (s :: segs). cbn [length segments_at segments_accepted]. split_and!; try done; [by f_equal|by constructor| |by constructor|rewrite dataLength_cons; lia].
  destruct D as (_ & Eh & D1 & _ & _ & _ & _ & _ & D7 & D8 & _). destruct Ws as (_ & _ & Wc). cbn in Wc.
  unfold segmentRefused. cbn [s segmentOf sg_StreamID sg_Flags sg_Certificate sg_Next]. rewrite C2, C5, (proj2 (Z.leb_gt _ _) C1), (proj2 (Z.ltb_ge _ _) Wc).
  rewrite (proj2 (Z.eqb_neq _ 0)) by lia. cbn [orb negb]. rewrite Eh. cbn [sh_Flags]. unfold PostingSegmentCollision. by rewrite D8.
Qed.

(** ** The format is canonical *)

Lemma segments_at_ext segs : forall p q i dp, bytes_ok p -> bytes_ok q -> segments_at p i dp segs -> segments_at q i dp segs ->
  slice p (recordStart i) (recordStart (i + length segs)) = slice q (recordStart i) (recordStart (i + length segs)) /\
  slice p dp (dp + dataLength segs) = slice q dp (dp + dataLength segs).
Proof.
  induction segs as [|s segs IH]; intros p q i dp Bp Bq; [by rewrite !slice_nil by (unfold recordStart; cbn; lia)|].
  intros (R & D & At) (R' & D' & At'). destruct (IH _ _ _ _ Bp Bq At At') as [E1 E2]. rewrite dataLength_cons. cbn [length].
  replace (i + S (length segs))%nat with (S i + length segs)%nat by lia. split.
  - assert (N : (recordStart i + 48)%nat = recordStart (S i)) by (unfold recordStart; lia). rewrite N in R, R'.
    rewrite (slice_split p (recordStart i) (recordStart (S i))), (slice_split q (recordStart i) (recordStart (S i))), E1 by (unfold recordStart; lia).
    f_equal. eapply record_ext; [by apply Forall_slice..|exact R|exact R'].
  - rewrite (slice_split p dp (dp + length (segmentData s))), (slice_split q dp (dp + length (segmentData s))) by lia. by rewrite D, D', !Nat.add_assoc, E2.
Qed.

Lemma payload_header_ext p q h count n version : bytes_ok p -> bytes_ok q -> length p = length q ->
  payload_shows p h count n version -> payload_shows q h count n version -> slice p 0 32 = slice q 0 32.
Proof.
  intros Bp Bq L (Lp & P1 & P2 & P3 & P4 & P5 & P6 & P7) (_ & Q1 & Q2 & Q3 & Q4 & Q5 & Q6 & Q7).
  rewrite !(slice_split _ 0 4 32), !(slice_split _ 4 8 32), !(slice_split _ 8 10 32), !(slice_split _ 10 12 32), !(slice_split _ 12 16 32), !(slice_split _ 16 20 32) by lia.
  rewrite P7, Q7. unfold Uint16, Uint32 in *. repeat match goal with |- _ ++ _ = _ ++ _ => apply (f_equal2 app) end; [..|done].
  all: first [apply (slice_eq_getLE 4); [done..|lia|done|done|congruence]|apply (slice_eq_getLE 2); [done..|lia|done|done|congruence]].
Qed.

(** A payload is determined by its header, its version and its segments. *)
Lemma packed_ext p q version h next segs : packed p version h next segs -> packed q version h next segs ->
  payload_shows p h (length segs) (dataLength segs) version -> payload_shows q h (length segs) (dataLength segs) version -> p = q.
Proof.
  intros (Bp & _ & Lp & At & _) (Bq & _ & Lq & At' & _) P Q. assert (L : length p = length q) by lia.
  destruct (segments_at_ext _ _ _ _ _ Bp Bq At At') as [E1 E2]. cbn [plus] in E1. change (recordStart 0) with 32%nat in E1.
  rewrite <- (slice_full p), <- (slice_full q), <- L, Lp. set (e := (recordStart (length segs) + dataLength segs)%nat) in *.
  rewrite (slice_split p 0 (recordStart (length segs)) e), (slice_split q 0 (recordStart (length segs)) e), E2 by lia. f_equal.
  rewrite (slice_split p 0 32 (recordStart (length segs))), (slice_split q 0 32 (recordStart (length segs))), E1 by (unfold recordStart; lia). f_equal. by eapply payload_header_ext.
Qed.

Lemma validateSegments_complete segs : forall h next prev n, Forall segment_writable segs -> segments_accepted prev segs h next ->
  validateSegments segs h next prev n = Ok (n + dataLength segs)%nat.
Proof.
  induction segs as [|s segs IH]; intros h next prev n W A; cbn [validateSegments]; [f_equal; cbn; lia|].
  apply Forall_cons in W as [(Ts & Fs & _) W]. destruct A as [A As]. pose proof Ts as (_ & _ & _ & _ & _ & _ & Te).
  rewrite A, entriesSize_complete, bind_Ok, IH, dataLength_cons by done. unfold segmentData. rewrite length_app. f_equal. lia.
Qed.

(** What admission establishes. *)
Lemma OpenPostingPage_result src next high : bytes_ok src ->
  match OpenPostingPage src next high with
  | Ok v => exists ph segs, OpenPage src = Ok (ph, pv_payload v) /\ ph_Kind ph = PageIndexPosting /\ posting_header_typed (pv_header v) /\
      pv_header v = mkPostingHeader (ph_StoreID ph) (ph_Generation ph) (ph_LogicalID ph) (ph_PageSize ph) (pp_IndexID (pv_header v)) (pp_Flags (pv_header v)) /\
      pv_count v = length segs /\ Z.of_nat (length (pv_payload v)) <= pp_PageSize (pv_header v) - 72 /\
      validatePostingPageHeader (pv_header v) (length segs) next high = None /\
      packed (pv_payload v) (pv_version v) (pv_header v) next segs /\ payload_shows (pv_payload v) (pv_header v) (length segs) (dataLength segs) (pv_version v)
  | Err Panic => exists h payload, OpenPage src = Ok (h, payload) /\ (length payload < 4)%nat
  | Err e => exists detail, e = ErrPostingPageCorrupt detail
  | OutOfFuel => False
  end.
Proof.
  intros Hb. destruct (OpenPage_no_panic src Hb) as [N1 N2]. unfold OpenPostingPage. destruct (OpenPage src) as [[ph payload]|e|] eqn:O; [|destruct e; try done; by eexists|done].
  destruct (OpenPage_inv src ph payload Hb O) as (Ho & Vp & _ & Lsrc & Ep & _). assert (Hpl : 0 <= ph_PayloadLength ph) by apply Ho. destruct (validatePageHeader_size ph Hpl Vp) as [S1 S2].
  assert (Bp : bytes_ok payload) by (rewrite Ep; by apply Forall_slice).
  assert (Lp : Z.of_nat (length payload) = ph_PayloadLength ph) by (rewrite Ep, slice_length by lia; lia).
  destruct (decide (4 <= length payload)%nat) as [L4|L4]; [|unfold window; rewrite (proj2 (Nat.leb_gt 4 _)) by lia; cbn [mbind res_bind andb Nat.leb]; exists ph, payload; split; [done|lia]].
  rewrite window_ok, bind_Ok by lia. destruct (_ || _) eqn:C; [by eexists|]. rewrite !orb_false_iff in C.
  destruct C as [[[C1%negb_false_iff%Z.eqb_eq C2%Nat.ltb_ge] C3] C4%negb_false_iff]. unfold PostingPagePayloadHeaderSize in C2.
  assert (Ev : Uint32 (slice payload 0 4) 0 = Uint32 payload 0) by (unfold Uint32, getLE; by rewrite slice_slice by lia). rewrite Ev in *.
  set (version := Uint32 payload 0) in *. set (h := mkPostingHeader _ _ _ _ _ _). set (count := Z.to_nat (Uint16 payload 8)).
  assert (Hv : version = 1 \/ version = 2) by (unfold postingPageVersionV1, postingPageVersion in C3; destruct (Z.eqb_spec version 1), (Z.eqb_spec version 2); auto; done).
  destruct (validatePostingPageHeader h count next high) eqn:Vh; [by eexists|]. destruct (_ || _) eqn:C; [by eexists|].
  apply orb_false_iff in C as [C5%negb_false_iff%Z.eqb_eq C6%negb_false_iff%Z.eqb_eq].
  assert (W : forall n a, (a + n <= 32)%nat -> word_ok n (getLE n payload a)) by (intros; apply getLE_ok; [done|lia]).
  pose proof (W 4%nat 16%nat ltac:(lia)) as W16. change (getLE 4 payload 16) with (Uint32 payload 16) in W16. unfold word_ok in W16.
  pose proof (W 2%nat 8%nat ltac:(lia)) as W8. change (getLE 2 payload 8) with (Uint16 payload 8) in W8. unfold word_ok in W8.
  assert (Eds : (PostingPagePayloadHeaderSize + Z.to_nat (Uint32 payload 12))%nat = recordStart count) by (unfold PostingPagePayloadHeaderSize, recordStart; lia). rewrite Eds in *.
  pose proof (openSegments_result count payload 0 (recordStart count) version h next 0 (recordStart count) Bp Hv ltac:(lia) ltac:(cbn [plus]; lia) ltac:(lia)) as R.
  destruct (openSegments _ _ _ _ _ _ _ _ _) as [dp'|e|]; [|destruct R as [d ->]; cbn; by eexists|done]. rewrite bind_Ok.
  destruct R as (segs & Ls & At & Ws & A & V & ->). destruct (Nat.eqb_spec (recordStart count + dataLength segs) (length payload)) as [Et|]; cbn [negb]; [|by eexists].
  assert (Hps : ph_PageSize ph < 2 ^ 32) by apply Ho. exists ph, segs. cbn [pv_header pv_payload pv_count pv_version]. rewrite Ls. split_and!; try done.
  - destruct Ho as (H1 & H2 & H3 & H4 & H5 & _). unfold posting_header_typed. cbn [h pp_StoreID pp_Generation pp_LogicalID pp_PageSize pp_IndexID pp_Flags]. split_and!; try done; apply W; lia.
  - cbn [h pp_PageSize]. lia.
  - unfold packed. rewrite Ls. split_and!; done || lia.
  - unfold payload_shows. split_and!; try done; [unfold count; lia|lia|]. apply allZero_spec in C4; [|by apply Forall_slice]. by rewrite C4, slice_length by lia.
Qed.

(** C18: OpenPostingPage admits only well-formed pages.  Whatever the bytes, it
    returns a view, ErrPostingPageCorrupt, or panics, and it panics only on a
    page that opens with a payload of fewer than four bytes.  An admitted page
    shows a list of segments: stream numbers increase, each segment holds
    between 1 and 65535 entries with strictly increasing chunks and non-zero
    masks, its header carries their first and last chunk and number of rows,
    and lookups and iterators return exactly these segments and entries.  The
    format is canonical: encoding the segments of a version 2 page under its
    header yields a page that opens to the identical view, payload bytes
    included. *)
Theorem OpenPostingPage_sound (src : list Z) (nextLogicalID indexHighWater : Z) :
  bytes_ok src ->
  match OpenPostingPage src nextLogicalID indexHighWater with
  | Ok v => exists segments, page_shows v segments /\ Forall segment_typed segments /\ Forall stream_fits segments /\
      StronglySorted Z.lt (sg_StreamID <$> segments) /\
      (pv_version v = postingPageVersion -> forall dst, pp_PageSize (pv_header v) <= Z.of_nat (length dst) ->
        exists page, EncodePostingPage dst (pv_header v) segments nextLogicalID indexHighWater = Ok page /\
          OpenPostingPage page nextLogicalID indexHighWater = Ok v)
  | Err Panic => exists h payload, OpenPage src = Ok (h, payload) /\ (length payload < 4)%nat
  | Err e => exists detail, e = ErrPostingPageCorrupt detail
  | OutOfFuel => False
  end.
Proof.
  intros Hb. pose proof (OpenPostingPage_result src nextLogicalID indexHighWater Hb) as R.
  destruct (OpenPostingPage src nextLogicalID indexHighWater) as [v|e|]; [|done..].
  destruct R as (ph & segs & _ & _ & Th & _ & Ec & Fit & Vh & P & Sh). exists segs. pose proof P as (_ & _ & Lp & _ & W & A & _).
  assert (Ts : Forall segment_typed segs) by (eapply Forall_impl; [exact W|]; by intros s [? _]).
  split_and!; [by eapply packed_shows|done|eapply Forall_impl; [exact W|]; by intros s (_ & ? & _)|by eapply accepted_sorted|].
  intros Ev dst Hd. rewrite Ev in *. assert (Vw : validatePostingPageWrite (pv_header v) segs nextLogicalID indexHighWater = Ok (dataLength segs)).
  { unfold validatePostingPageWrite. rewrite Vh, validateSegments_complete, bind_Ok by done. unfold recordStart in Lp.
    by rewrite (proj2 (Z.ltb_ge _ _)) by lia. }
  destruct (EncodePostingPage_page dst _ segs _ _ _ Th Ts Vw Hd) as (page & payload & E & _ & P' & Sh' & _ & O). exists page. split; [done|].
  assert (payload = pv_payload v) as -> by (by eapply packed_ext). specialize (O []). rewrite app_nil_r in O.
  rewrite (open_packed _ _ _ (pv_header v) nextLogicalID indexHighWater 2 segs O); [|done| |by right|done|done|done].
  - by destruct v; cbn in *; subst.
  - by destruct (pv_header v).
Qed.

(** ** A page of two streams *)

Definition example_posting_header : PostingPageHeader := mkPostingHeader (replicate 16 7) 3 9 4096 1 0.
Definition example_segments : list PostingSegment :=
  [mkSegment 4 77 1 (mkLink 0 0) [1; 2] [mkEntry 5 1; mkEntry 300 0x8000000000000001; mkEntry 70000 4];
   mkSegment 9 78 0 (mkLink 12 1) [] [mkEntry 0 3]].

Lemma example_segments_typed : posting_header_typed example_posting_header /\ Forall segment_typed example_segments.
Proof.
  split; [split_and!; try done; by apply bytes_ok_bool|].
  repeat (constructor; [unfold segment_typed, word_ok, entry_typed; cbn; split_and!; try done; try (by apply bytes_ok_bool);
    repeat (constructor; [cbn; lia|]); by constructor|]). constructor.
Qed.

Definition example_posting_page : io_res (list Z) :=
  EncodePostingPage (replicate (Z.to_nat 4096) 0) example_posting_header example_segments 20 2.

(** The two streams read back, by rank and by stream number. *)
Lemma posting_page_roundtrip_witness :
  exists page v sv, example_posting_page = Ok page /\ OpenPostingPage page 20 2 = Ok v /\ Lookup v 4 = Ok (Some sv) /\
    drain 4 (Iterator sv) = [mkEntry 5 1; mkEntry 300 0x8000000000000001; mkEntry 70000 4] /\ Lookup v 5 = Ok None.
Proof.
  destruct example_segments_typed as [Th Ts].
  pose proof (posting_page_roundtrip (replicate (Z.to_nat 4096) 0) example_posting_header example_segments 20 2 Th Ts) as R.
  assert (E : is_ok example_posting_page = true) by (vm_compute; reflexivity). unfold example_posting_page in *.
  destruct (EncodePostingPage _ _ _ _ _) as [page| |]; [|discriminate..]. destruct R as [_ R]. destruct (R []) as (v & O & _ & Sh).
  rewrite app_nil_r in O. destruct Sh as (_ & S1 & _ & S2 & S3). destruct (S1 0%nat _ eq_refl) as (sv & A & _ & _ & _ & D).
  exists page, v, sv. split; [reflexivity|]. split; [exact O|]. split; [|split].
  - rewrite <- A. exact (S2 0%nat _ eq_refl).
  - apply D. cbn. lia.
  - apply S3. cbn. intros H. repeat (apply elem_of_cons in H as [H|H]; [discriminate|]). by apply not_elem_of_nil in H.
Defined.

(** A page with an empty payload opens, and its posting reader panics. *)
Definition short_posting_page : list Z :=
  sealed_page (SealPage (writePageHeader (replicate (Z.to_nat 4096) 0) (mkPageHeader (replicate 16 7) 3 9 4096 0 PageIndexPosting 0))).

(** The empty page is rejected by a panic, the page of two streams is admitted. *)
Lemma OpenPostingPage_sound_witness :
  (OpenPostingPage short_posting_page 20 2 = Err Panic /\
   exists h payload, OpenPage short_posting_page = Ok (h, payload) /\ (length payload < 4)%nat) /\
  exists page v segments, example_posting_page = Ok page /\ OpenPostingPage page 20 2 = Ok v /\ page_shows v segments.
Proof.
  split.
  - assert (B : bytes_ok short_posting_page) by (apply bytes_ok_bool; vm_compute; reflexivity).
    assert (E : OpenPostingPage short_posting_page 20 2 = Err Panic) by (vm_compute; reflexivity). split; [exact E|].
    pose proof (OpenPostingPage_sound short_posting_page 20 2 B) as R. rewrite E in R. exact R.
  - assert (B : match example_posting_page with
                | Ok page => forallb (fun x => (0 <=? x) && (x <? 256)) page && is_ok (OpenPostingPage page 20 2) | _ => false end = true) by (vm_compute; reflexivity).
    destruct example_posting_page as [page| |]; [|discriminate..]. apply andb_prop in B as [B1 B2].
    pose proof (OpenPostingPage_sound page 20 2 (bytes_ok_bool _ B1)) as R. destruct (OpenPostingPage page 20 2) as [v| |] eqn:O; [|discriminate..].
    destruct R as (segments & Sh & _). exists page, v, segments. split; [reflexivity|]. split; [exact O|exact Sh].
Defined.
