(* ===== verification/Bitset.v ===== *)
(** * Bitset: boolean operations on dense posting words

    Models internal/bitset/ops.go on builds without vector kernels
    (ops_default.go), and the exported wrappers of store_bitmap.go.  The
    operations append to a slice whose spare capacity may be an input's own
    array, so slices are windows of arrays in a shared memory, and every word is
    read from and written to that memory in the order of the code. *)
From Stdlib Require Import ZArith Lia List Bool.
From stdpp Require Import base numbers list strings.
From S2P Require Import Prelude Bytes.

Open Scope Z_scope.

(** ** Memory and slices *)

(** Arrays of uint64, addressed by their index. *)
Notation memory := (list (list Z)).

Record Slice := mkSlice { s_array : nat; s_offset : nat; s_len : nat; s_cap : nat }.

Definition arrayOf (m : memory) (s : Slice) : list Z := default [] (m !! s_array s).

(** The elements of a slice. *)
Definition contents (m : memory) (s : Slice) : list Z := slice (arrayOf m s) (s_offset s) (s_offset s + s_len s).

(** [s[i]] and [s[i] = v]. *)
Definition read (m : memory) (s : Slice) (i : nat) : io_res Z :=
  if (i <? s_len s)%nat then Ok (default 0 (arrayOf m s !! (s_offset s + i)%nat)) else Err Panic.
Definition write (m : memory) (s : Slice) (i : nat) (v : Z) : io_res memory :=
  if (i <? s_len s)%nat then Ok (<[s_array s := <[(s_offset s + i)%nat := v]> (arrayOf m s)]> m) else Err Panic.

(** [s[a:b]]. *)
Definition reslice (s : Slice) (a b : nat) : io_res Slice :=
  if ((a <=? b) && (b <=? s_cap s))%nat then Ok (mkSlice (s_array s) (s_offset s + a) (b - a) (s_cap s - a)) else Err Panic.

(** The built-in copy: as if the source were read before anything is written. *)
Definition copySlice (m : memory) (dst src : Slice) : memory :=
  let n := Nat.min (s_len dst) (s_len src) in
  <[s_array dst := setBytes (arrayOf m dst) (s_offset dst) (take n (contents m src))]> m.

(** ** ops.go *)

(** The body of the scalar kernels: [word] computes the right-hand side of
    [dst[i] = ...] from the memory.  Four words a round, then the rest. *)
Section Kernel.
Variable word : memory -> nat -> io_res Z.

Definition stepWord (m : memory) (dst : Slice) (i : nat) : io_res memory := v ← word m i; write m dst i v.

Fixpoint restLoop (fuel : nat) (m : memory) (dst : Slice) (i : nat) : io_res memory :=
  if (i <? s_len dst)%nat then
    match fuel with
    | O => OutOfFuel
    | S fuel => m ← stepWord m dst i; restLoop fuel m dst (i + 1)
    end
  else Ok m.

Fixpoint unrolledLoop (fuel : nat) (m : memory) (dst : Slice) (i : nat) : io_res memory :=
  if (i + 4 <=? s_len dst)%nat then
    match fuel with
    | O => OutOfFuel
    | S fuel =>
        m ← stepWord m dst (i + 0);
        m ← stepWord m dst (i + 1);
        m ← stepWord m dst (i + 2);
        m ← stepWord m dst (i + 3);
        unrolledLoop fuel m dst (i + 4)
    end
  else restLoop (s_len dst) m dst i.

Definition scalarKernel (m : memory) (dst : Slice) : io_res memory := unrolledLoop (s_len dst) m dst 0.
End Kernel.

Definition word2 (op : Z -> Z -> Z) (a b : Slice) (m : memory) (i : nat) : io_res Z :=
  x ← read m a i; y ← read m b i; Ok (op x y).
Definition word3 (op : Z -> Z -> Z) (a b c : Slice) (m : memory) (i : nat) : io_res Z :=
  x ← read m a i; y ← read m b i; z ← read m c i; Ok (op (op x y) z).

Definition andWordsScalar (m : memory) (dst a b : Slice) : io_res memory := scalarKernel (word2 Z.land a b) m dst.
Definition and3WordsScalar (m : memory) (dst a b c : Slice) : io_res memory := scalarKernel (word3 Z.land a b c) m dst.
Definition orWordsScalar (m : memory) (dst a b : Slice) : io_res memory := scalarKernel (word2 Z.lor a b) m dst.
Definition andNotWordsScalar (m : memory) (dst a b : Slice) : io_res memory := scalarKernel (word2 Z.ldiff a b) m dst.

Section Operations.
(** The capacity append adds beyond what it needs, left to the runtime. *)
Variable spare : nat -> nat.

Definition extend (m : memory) (dst : Slice) (n : nat) : memory * Slice :=
  if (n <=? s_cap dst - s_len dst)%nat then (m, mkSlice (s_array dst) (s_offset dst) (s_len dst + n) (s_cap dst))
  else
    let len := (s_len dst + n)%nat in
    (m ++ [contents m dst ++ replicate n 0 ++ replicate (spare len) 0], mkSlice (length m) 0 len (len + spare len)).

Definition And (m : memory) (dst a b : Slice) : io_res (memory * Slice) :=
  let n := Nat.min (s_len a) (s_len b) in
  let mark := s_len dst in
  let '(m, dst) := extend m dst n in
  tail ← reslice dst mark (s_len dst);
  a ← reslice a 0 n;
  b ← reslice b 0 n;
  m ← andWordsScalar m tail a b;
  Ok (m, dst).

Definition And3 (m : memory) (dst a b c : Slice) : io_res (memory * Slice) :=
  let n := Nat.min (Nat.min (s_len a) (s_len b)) (s_len c) in
  let mark := s_len dst in
  let '(m, dst) := extend m dst n in
  tail ← reslice dst mark (s_len dst);
  a ← reslice a 0 n;
  b ← reslice b 0 n;
  c ← reslice c 0 n;
  m ← and3WordsScalar m tail a b c;
  Ok (m, dst).

Definition Or (m : memory) (dst a b : Slice) : io_res (memory * Slice) :=
  let n := Nat.max (s_len a) (s_len b) in
  let mark := s_len dst in
  let '(m, dst) := extend m dst n in
  let common := Nat.min (s_len a) (s_len b) in
  head ← reslice dst mark (mark + common);
  a' ← reslice a 0 common;
  b' ← reslice b 0 common;
  m ← orWordsScalar m head a' b';
  tail ← reslice dst (mark + common) (s_len dst);
  if (common <? s_len a)%nat then
    rest ← reslice a common (s_len a);
    Ok (copySlice m tail rest, dst)
  else
    rest ← reslice b common (s_len b);
    Ok (copySlice m tail rest, dst).

Definition AndNot (m : memory) (dst a b : Slice) : io_res (memory * Slice) :=
  let mark := s_len dst in
  let '(m, dst) := extend m dst (s_len a) in
  let common := Nat.min (s_len a) (s_len b) in
  head ← reslice dst mark (mark + common);
  a' ← reslice a 0 common;
  b' ← reslice b 0 common;
  m ← andNotWordsScalar m head a' b';
  tail ← reslice dst (mark + common) (s_len dst);
  rest ← reslice a common (s_len a);
  Ok (copySlice m tail rest, dst).
End Operations.

(** ** store_bitmap.go *)

Definition AppendStoreBitmapAnd := And.
Definition AppendStoreBitmapAnd3 := And3.
Definition AppendStoreBitmapOr := Or.
Definition AppendStoreBitmapAndNot := AndNot.

(** ** Locations *)

(** The word at one location. *)
Definition get (m : memory) (arr i : nat) : Z := default 0 (default [] (m !! arr) !! i).
Definition shape (m : memory) : list nat := length <$> m.

(** A slice of an existing array. *)
Definition valid (m : memory) (s : Slice) : Prop :=
  exists n, shape m !! s_array s = Some n /\ (s_offset s + s_cap s <= n)%nat /\ (s_len s <= s_cap s)%nat.

Lemma valid_array m s : valid m s -> exists l, m !! s_array s = Some l /\ (s_offset s + s_cap s <= length l)%nat /\ (s_len s <= s_cap s)%nat.
Proof.
  intros (n & E & H). unfold shape in E. rewrite list_lookup_fmap in E. destruct (m !! s_array s) as [l|] eqn:El; [|done].
  injection E as <-. by exists l.
Qed.

Lemma valid_shape m m' s : shape m = shape m' -> valid m s -> valid m' s.
Proof. intros E (n & H). exists n. by rewrite <- E. Qed.

Lemma valid_reslice m s a b : valid m s -> (a <= b <= s_cap s)%nat ->
  reslice s a b = Ok (mkSlice (s_array s) (s_offset s + a) (b - a) (s_cap s - a)) /\ valid m (mkSlice (s_array s) (s_offset s + a) (b - a) (s_cap s - a)).
Proof.
  intros (n & E & L1 & L2) H. unfold reslice. rewrite (proj2 (Nat.leb_le a b)), (proj2 (Nat.leb_le b _)) by lia. split; [done|].
  exists n. cbn. split_and!; done || lia.
Qed.

Lemma contents_get m s : valid m s -> contents m s = (fun k => get m (s_array s) (s_offset s + k)) <$> seq 0 (s_len s).
Proof.
  intros V. destruct (valid_array _ _ V) as (l & E & L1 & L2). unfold contents, arrayOf, get. rewrite E. cbn [from_option id].
  apply list_eq. intros i. rewrite slice_lookup, list_lookup_fmap. replace (s_offset s + s_len s - s_offset s)%nat with (s_len s) by lia.
  destruct (Nat.ltb_spec i (s_len s)).
  - rewrite lookup_seq_lt by done. cbn. destruct (lookup_lt_is_Some_2 l (s_offset s + i)) as [x Hx]; [lia|]. by rewrite Hx.
  - by rewrite lookup_seq_ge by done.
Qed.

Lemma contents_nth m s k : valid m s -> default 0 (contents m s !! k) = if (k <? s_len s)%nat then get m (s_array s) (s_offset s + k) else 0.
Proof.
  intros V. rewrite contents_get, list_lookup_fmap by done. destruct (Nat.ltb_spec k (s_len s)); [by rewrite lookup_seq_lt|by rewrite lookup_seq_ge].
Qed.

Lemma get_insert m a l arr i : (a < length m)%nat -> get (<[a := l]> m) arr i = if decide (arr = a) then default 0 (l !! i) else get m arr i.
Proof. intros L. unfold get. destruct (decide (arr = a)) as [->|N]; [by rewrite list_lookup_insert_eq|by rewrite list_lookup_insert_ne]. Qed.

Lemma array_shape m a l l' : m !! a = Some l -> length l' = length l -> shape (<[a := l']> m) = shape m.
Proof. intros E L. unfold shape. rewrite list_fmap_insert, L. apply list_insert_id. by rewrite list_lookup_fmap, E. Qed.

Lemma write_spec m s i v : valid m s -> (i < s_len s)%nat -> exists m', write m s i v = Ok m' /\ shape m' = shape m /\
  forall arr k, get m' arr k = if decide (arr = s_array s /\ k = (s_offset s + i)%nat) then v else get m arr k.
Proof.
  intros V Hi. destruct (valid_array _ _ V) as (l & E & L1 & L2). unfold write, arrayOf. rewrite (proj2 (Nat.ltb_lt _ _) Hi), E. cbn [from_option id].
  eexists. split; [done|]. split; [eapply array_shape; [done|by rewrite length_insert]|]. intros arr k.
  pose proof (lookup_lt_Some _ _ _ E). rewrite get_insert by done. destruct (decide (arr = s_array s)) as [->|].
  - destruct (decide (k = s_offset s + i)%nat) as [->|N].
    + rewrite decide_True by done. by rewrite list_lookup_insert_eq by lia.
    + rewrite decide_False by naive_solver. rewrite list_lookup_insert_ne by done. unfold get. by rewrite E.
  - by rewrite decide_False by naive_solver.
Qed.

Lemma read_get m s i : (i < s_len s)%nat -> read m s i = Ok (get m (s_array s) (s_offset s + i)).
Proof. intros H. unfold read. by rewrite (proj2 (Nat.ltb_lt _ _) H). Qed.

Lemma copySlice_spec m d s : valid m d -> valid m s -> (s_len s <= s_len d)%nat -> shape (copySlice m d s) = shape m /\
  forall arr k, get (copySlice m d s) arr k =
    if decide (arr = s_array d /\ (s_offset d <= k < s_offset d + s_len s)%nat) then get m (s_array s) (s_offset s + (k - s_offset d)) else get m arr k.
Proof.
  intros Vd Vs L. destruct (valid_array _ _ Vd) as (l & E & L1 & L2). unfold copySlice. rewrite Nat.min_r, (take_ge (contents m s)) by (rewrite ?contents_get, ?length_fmap, ?length_seq; done).
  unfold arrayOf. rewrite E. cbn [from_option id]. split; [eapply array_shape; [done|apply setBytes_length]|]. intros arr k.
  pose proof (lookup_lt_Some _ _ _ E). rewrite get_insert by done. destruct (decide (arr = s_array d)) as [->|]; [|by rewrite decide_False by naive_solver].
  assert (Lc : length (contents m s) = s_len s) by (by rewrite contents_get, length_fmap, length_seq).
  destruct (decide (s_offset d <= k < s_offset d + s_len s)%nat) as [H1|H1].
  - rewrite decide_True by done. rewrite setBytes_lookup_in, contents_nth by (done || lia). by rewrite (proj2 (Nat.ltb_lt _ _)) by lia.
  - rewrite decide_False by naive_solver. rewrite setBytes_lookup_out by lia. unfold get. by rewrite E.
Qed.

(** ** The kernels *)

(** Memory after the first [i] words of [dst] have become [f 0], [f 1], ... *)
Definition writtenUpTo (m0 m : memory) (dst : Slice) (f : nat -> Z) (i : nat) : Prop :=
  shape m = shape m0 /\
  forall arr k, get m arr k =
    if decide (arr = s_array dst /\ (s_offset dst <= k < s_offset dst + i)%nat) then f (k - s_offset dst)%nat else get m0 arr k.

Section KernelSpec.
Context (word : memory -> nat -> io_res Z) (m0 : memory) (dst : Slice) (f : nat -> Z).
Hypothesis dst_valid : valid m0 dst.
(** Word [i] does not depend on the words of [dst] already written. *)
Hypothesis word_stable : forall m i, (i < s_len dst)%nat -> writtenUpTo m0 m dst f i -> word m i = Ok (f i).

Lemma stepWord_spec m i : (i < s_len dst)%nat -> writtenUpTo m0 m dst f i -> exists m', stepWord word m dst i = Ok m' /\ writtenUpTo m0 m' dst f (i + 1).
Proof.
  intros Hi F. unfold stepWord. rewrite word_stable by done. rewrite bind_Ok. destruct F as [S G].
  destruct (write_spec m dst i (f i)) as (m' & -> & S' & G'); [by eapply valid_shape|done|]. exists m'. split; [done|]. split; [congruence|].
  intros arr k. rewrite G', G. destruct (decide (arr = s_array dst)) as [->|]; [|by rewrite !decide_False by naive_solver].
  destruct (decide (k = s_offset dst + i)%nat) as [->|N].
  - rewrite !decide_True by lia. f_equal. lia.
  - rewrite decide_False by naive_solver. destruct (decide (s_offset dst <= k < s_offset dst + i)%nat).
    + by rewrite !decide_True by lia.
    + by rewrite !decide_False by lia.
Qed.

Lemma restLoop_spec fuel : forall m i, (i <= s_len dst)%nat -> (s_len dst - i <= fuel)%nat -> writtenUpTo m0 m dst f i ->
  exists m', restLoop word fuel m dst i = Ok m' /\ writtenUpTo m0 m' dst f (s_len dst).
Proof.
  induction fuel as [|fuel IH]; intros m i Hi Hf F; cbn [restLoop]; destruct (Nat.ltb_spec i (s_len dst)); try lia.
  1, 3: exists m; assert (s_len dst = i) as -> by lia; done.
  destruct (stepWord_spec m i) as (m' & -> & F'); [done..|]. rewrite bind_Ok. apply IH; [lia..|done].
Qed.

Lemma unrolledLoop_spec fuel : forall m i, (i <= s_len dst)%nat -> (s_len dst - i <= fuel)%nat -> writtenUpTo m0 m dst f i ->
  exists m', unrolledLoop word fuel m dst i = Ok m' /\ writtenUpTo m0 m' dst f (s_len dst).
Proof.
  induction fuel as [|fuel IH]; intros m i Hi Hf F; cbn [unrolledLoop]; destruct (Nat.leb_spec (i + 4) (s_len dst)) as [L|L].
  1: lia.
  1, 3: apply restLoop_spec; [lia..|done].
  destruct (stepWord_spec m (i + 0)) as (m1 & -> & F1); [lia|by rewrite Nat.add_0_r|]. rewrite bind_Ok.
  destruct (stepWord_spec m1 (i + 1)) as (m2 & -> & F2); [lia|by replace (i + 1)%nat with (i + 0 + 1)%nat by lia|]. rewrite bind_Ok.
  destruct (stepWord_spec m2 (i + 2)) as (m3 & -> & F3); [lia|by replace (i + 2)%nat with (i + 1 + 1)%nat by lia|]. rewrite bind_Ok.
  destruct (stepWord_spec m3 (i + 3)) as (m4 & -> & F4); [lia|by replace (i + 3)%nat with (i + 2 + 1)%nat by lia|]. rewrite bind_Ok.
  apply IH; [lia..|by replace (i + 4)%nat with (i + 3 + 1)%nat by lia].
Qed.

Lemma scalarKernel_spec : exists m', scalarKernel word m0 dst = Ok m' /\ writtenUpTo m0 m' dst f (s_len dst).
Proof.
  apply unrolledLoop_spec; [lia..|]. split; [done|]. intros arr k. by rewrite decide_False by lia.
Qed.
End KernelSpec.

(** [src] either shares no word with [dst] or starts where [dst] starts. *)
Definition aligned (dst src : Slice) : Prop :=
  s_array src <> s_array dst \/ (s_offset src + s_len src <= s_offset dst)%nat \/ (s_offset dst + s_len dst <= s_offset src)%nat \/
  s_offset src = s_offset dst.

Lemma aligned_read m0 m dst src f i : aligned dst src -> (i < s_len src)%nat -> (i <= s_len dst)%nat -> writtenUpTo m0 m dst f i ->
  read m src i = Ok (get m0 (s_array src) (s_offset src + i)).
Proof.
  intros A Hi Hd [_ G]. rewrite read_get, G by done. destruct (decide _) as [[E K]|]; [|done]. exfalso. unfold aligned in A. lia.
Qed.

Lemma word2_stable op m0 dst a b : aligned dst a -> aligned dst b -> (s_len dst <= s_len a)%nat -> (s_len dst <= s_len b)%nat ->
  let f := fun i => op (get m0 (s_array a) (s_offset a + i)) (get m0 (s_array b) (s_offset b + i)) in
  forall m i, (i < s_len dst)%nat -> writtenUpTo m0 m dst f i -> word2 op a b m i = Ok (f i).
Proof. intros Aa Ab La Lb f m i Hi F. unfold word2. rewrite (aligned_read m0 m dst a f i), (aligned_read m0 m dst b f i) by (done || lia). done. Qed.

Lemma word3_stable op m0 dst a b c : aligned dst a -> aligned dst b -> aligned dst c -> (s_len dst <= s_len a)%nat -> (s_len dst <= s_len b)%nat ->
  (s_len dst <= s_len c)%nat -> let f := fun i => op (op (get m0 (s_array a) (s_offset a + i)) (get m0 (s_array b) (s_offset b + i))) (get m0 (s_array c) (s_offset c + i)) in
  forall m i, (i < s_len dst)%nat -> writtenUpTo m0 m dst f i -> word3 op a b c m i = Ok (f i).
Proof.
  intros Aa Ab Ac La Lb Lc f m i Hi F. unfold word3.
  rewrite (aligned_read m0 m dst a f i), (aligned_read m0 m dst b f i), (aligned_read m0 m dst c f i) by (done || lia). done.
Qed.

(** ** Appending *)

(** The range appended to: the capacity of [dst] behind its length. *)
Definition separate (dst s : Slice) : Prop :=
  s_array s <> s_array dst \/ (s_offset s + s_len s <= s_offset dst + s_len dst)%nat \/ (s_offset dst + s_cap dst <= s_offset s)%nat.

(** What the package allows of an input: no overlap, or [dst] is [src[:0]]. *)
Definition allowed (dst src : Slice) : Prop := separate dst src \/ s_len dst = 0%nat /\ s_offset src = s_offset dst.

(** The result [r] is [dst] followed by [n] words [f 0], [f 1], ..., and every
    slice apart from the range appended to is as before. *)
Definition appended (m : memory) (dst : Slice) (f : nat -> Z) (n : nat) (m' : memory) (r : Slice) : Prop :=
  valid m' r /\ contents m' r = contents m dst ++ (f <$> seq 0 n) /\
  forall s, valid m s -> separate dst s -> contents m' s = contents m s.

Definition tailOf (d : Slice) (mark n : nat) : Slice := mkSlice (s_array d) (s_offset d + mark) n (s_cap d - mark).

(** What extend promises its callers. *)
Definition extendedBy (m : memory) (dst : Slice) (n : nat) (m1 : memory) (d1 : Slice) : Prop :=
  valid m1 d1 /\ s_len d1 = (s_len dst + n)%nat /\ (forall s, valid m s -> valid m1 s) /\
  (forall s k, valid m s -> get m1 (s_array s) k = get m (s_array s) k) /\
  (forall k, (k < s_len dst)%nat -> get m1 (s_array d1) (s_offset d1 + k) = get m (s_array dst) (s_offset dst + k)) /\
  (forall s, valid m s -> s_array s = s_array d1 -> s_array d1 = s_array dst /\ s_offset d1 = s_offset dst /\ s_cap d1 = s_cap dst).

Lemma valid_lt m s : valid m s -> (s_array s < length m)%nat.
Proof. intros (n & E & _). apply lookup_lt_Some in E. unfold shape in E. by rewrite length_fmap in E. Qed.

Lemma extend_spec spare m dst n : valid m dst -> exists m1 d1, extend spare m dst n = (m1, d1) /\ extendedBy m dst n m1 d1.
Proof.
  intros V. unfold extend. destruct (Nat.leb_spec n (s_cap dst - s_len dst)) as [L|L]; eexists _, _; (split; [reflexivity|]).
  - destruct V as (x & E & L1 & L2). split_and!; try done. exists x. cbn. split_and!; [done|lia|lia].
  - assert (Lc : length (contents m dst) = s_len dst) by (by rewrite contents_get, length_fmap, length_seq).
    set (w := contents m dst ++ _). assert (Lw : length w = (s_len dst + n + spare (s_len dst + n))%nat) by (unfold w; rewrite !length_app, !length_replicate; lia).
    split_and!; cbn [s_array s_offset s_len s_cap].
    + exists (length w). cbn [s_array s_offset s_len s_cap]. rewrite Lw. split_and!; [|lia..]. unfold shape. rewrite fmap_app, lookup_app_r by (rewrite length_fmap; lia).
      by rewrite length_fmap, Nat.sub_diag, <- Lw.
    + done.
    + intros s Vs. destruct Vs as (x & E & H). exists x. unfold shape in *. rewrite fmap_app. split; [by apply lookup_app_l_Some|done].
    + intros s k Vs. unfold get. by rewrite lookup_app_l by (by apply valid_lt).
    + intros k Hk. unfold get at 1. rewrite lookup_app_r, Nat.sub_diag by lia. cbn [list_lookup lookup from_option id plus]. unfold w.
      rewrite lookup_app_l by lia. rewrite contents_nth by done. by rewrite (proj2 (Nat.ltb_lt _ _) Hk).
    + intros s Vs%valid_lt E. lia.
Qed.

Section Appending.
Context (m m1 : memory) (dst d1 : Slice) (n : nat).
Hypothesis dst_valid : valid m dst.
Hypothesis ext : extendedBy m dst n m1 d1.

Lemma tail_valid k : (k <= n)%nat -> valid m1 (tailOf d1 (s_len dst) k).
Proof. destruct ext as ((x & E & L1 & L2) & L & _). intros Hk. exists x. cbn. split_and!; done || lia. Qed.

Lemma tail_aligned k src : (k <= n)%nat -> valid m src -> allowed dst src -> aligned (tailOf d1 (s_len dst) k) src.
Proof.
  intros Hk Vs A. destruct ext as ((x & E & L1 & L2) & L & _ & _ & _ & O). unfold aligned. cbn.
  destruct (decide (s_array src = s_array d1)) as [Ea|]; [|by left]. destruct (O src Vs Ea) as (-> & -> & Ec). unfold allowed, separate in A. lia.
Qed.

Lemma writtenUpTo_appended m' f : writtenUpTo m1 m' (tailOf d1 (s_len dst) n) f n -> appended m dst f n m' d1.
Proof.
  intros [S G]. pose proof ext as (V1 & L & Vs & Gs & Gd & O). pose proof (valid_shape _ _ _ (eq_sym S) V1) as V'. split_and!; [done| |].
  - rewrite contents_get, contents_get, L, seq_app, fmap_app by done. f_equal.
    + apply list_fmap_ext. intros i k Hk. apply lookup_seq in Hk as [-> Hk]. cbn [plus]. rewrite G. cbn [tailOf s_array s_offset].
      rewrite decide_False by lia. by apply Gd.
    + rewrite Nat.add_0_l. replace (seq (s_len dst) n) with (Nat.add (s_len dst) <$> seq 0 n) by (rewrite fmap_add_seq; f_equal; lia). rewrite <- list_fmap_compose. apply list_fmap_ext. intros i k Hk. apply lookup_seq in Hk as [-> Hk]. unfold compose. cbn [plus].
      rewrite G. cbn [tailOf s_array s_offset]. rewrite decide_True by lia. f_equal. lia.
  - intros s V Sep. rewrite (contents_get m s V), (contents_get m' s) by (eapply valid_shape; [symmetry; exact S|by apply Vs]). apply list_fmap_ext.
    intros i k Hk. apply lookup_seq in Hk as [-> Hk]. cbn [plus]. rewrite G. cbn [tailOf s_array s_offset]. rewrite decide_False; [by apply Gs|].
    intros [Ea K]. destruct (O s V Ea) as (E1 & E2 & E3). destruct V1 as (x & _ & L1 & L2). unfold separate in Sep. lia.
Qed.
End Appending.

(** Copying the rest behind the words a kernel has written. *)
Lemma writtenUpTo_copy m1 m2 d mark common n rest f : valid m1 (tailOf d mark n) -> valid m1 rest -> (common <= n)%nat -> s_len rest = (n - common)%nat ->
  (s_array rest <> s_array d \/ s_offset rest + s_len rest <= s_offset d + mark \/ s_offset d + mark + n <= s_offset rest \/ s_offset rest = s_offset d + mark + common)%nat ->
  writtenUpTo m1 m2 (tailOf d mark common) f common ->
  writtenUpTo m1 (copySlice m2 (tailOf d (mark + common) (n - common)) rest) (tailOf d mark n)
    (fun k => if (k <? common)%nat then f k else get m1 (s_array rest) (s_offset rest + (k - common))) n.
Proof.
  intros Vt Vr Hc Lr Ha [S G]. assert (Vd : valid m2 (tailOf d (mark + common) (n - common))).
  { eapply valid_shape; [symmetry; exact S|]. destruct Vt as (x & E & L1 & L2). exists x. cbn in *. split_and!; done || lia. }
  destruct (copySlice_spec m2 _ rest Vd (valid_shape _ _ _ (eq_sym S) Vr)) as [S' G']; [cbn; lia|]. split; [congruence|].
  cbn [tailOf s_array s_offset s_len] in *. intros arr k. rewrite G'. destruct (decide (arr = s_array d)) as [->|]; [|by rewrite !decide_False, G, decide_False by naive_solver].
  destruct (decide (s_offset d + (mark + common) <= k < s_offset d + (mark + common) + s_len rest)%nat) as [H|H].
  - rewrite !decide_True, G by lia. rewrite decide_False by lia. rewrite (proj2 (Nat.ltb_ge _ _)) by lia. f_equal. lia.
  - rewrite decide_False, G by lia. destruct (decide (s_offset d + mark <= k < s_offset d + mark + common)%nat).
    + rewrite !decide_True, (proj2 (Nat.ltb_lt _ _)) by lia. done.
    + by rewrite !decide_False by lia.
Qed.

(** Word [k] of a slice, zero past its end. *)
Definition wordOf (m : memory) (s : Slice) (k : nat) : Z := default 0 (contents m s !! k).

Lemma appended_ext m dst f g n m' r : (forall k, (k < n)%nat -> f k = g k) -> appended m dst f n m' r -> appended m dst g n m' r.
Proof.
  intros E (V & C & F). split_and!; [done| |done]. rewrite C. f_equal. apply list_fmap_ext. intros i k Hk. apply lookup_seq in Hk as [-> Hk]. by apply E.
Qed.

Lemma wordOf_get m dst n m1 d1 s k : extendedBy m dst n m1 d1 -> valid m s -> (k < s_len s)%nat -> get m1 (s_array s) (s_offset s + k) = wordOf m s k.
Proof.
  intros (_ & _ & _ & G & _) V Hk. unfold wordOf. rewrite contents_nth by done. rewrite (proj2 (Nat.ltb_lt _ _) Hk). by apply G.
Qed.

(** [s[0:n]]. *)
Definition headOf (s : Slice) (n : nat) : Slice := tailOf s 0 n.

Lemma headOf_reslice m s n : valid m s -> (n <= s_len s)%nat -> reslice s 0 n = Ok (headOf s n).
Proof.
  intros V Hn. destruct (valid_array _ _ V) as (l & _ & _ & L). destruct (valid_reslice m s 0 n V) as [E _]; [lia|]. rewrite E. unfold headOf, tailOf. by rewrite Nat.sub_0_r.
Qed.

Lemma headOf_aligned d s n : aligned d s -> (n <= s_len s)%nat -> aligned d (headOf s n).
Proof. unfold aligned. cbn. lia. Qed.

Lemma tail_reslice m1 dst d1 m n common : extendedBy m dst n m1 d1 -> (common <= n)%nat ->
  reslice d1 (s_len dst) (s_len dst + common) = Ok (tailOf d1 (s_len dst) common) /\
  reslice d1 (s_len dst + common) (s_len d1) = Ok (tailOf d1 (s_len dst + common) (n - common)).
Proof.
  intros (V & L & _) Hc. destruct (valid_array _ _ V) as (l & _ & _ & Lc).
  destruct (valid_reslice m1 d1 (s_len dst) (s_len dst + common) V) as [-> _]; [lia|].
  destruct (valid_reslice m1 d1 (s_len dst + common) (s_len d1) V) as [-> _]; [lia|]. unfold tailOf. rewrite L.
  replace (s_len dst + common - s_len dst)%nat with common by lia. by replace (s_len dst + n - (s_len dst + common))%nat with (n - common)%nat by lia.
Qed.

Section Operate.
Context (spare : nat -> nat) (m : memory) (dst a b : Slice).
Hypothesis dst_valid : valid m dst.
Hypothesis a_valid : valid m a.
Hypothesis b_valid : valid m b.
Hypothesis a_allowed : allowed dst a.
Hypothesis b_allowed : allowed dst b.

(** A kernel over two inputs on the first [common] words behind [dst]. *)
Lemma kernel2_spec op n m1 d1 common : extendedBy m dst n m1 d1 -> (common <= n)%nat -> (common <= s_len a)%nat -> (common <= s_len b)%nat ->
  exists m2, scalarKernel (word2 op (headOf a common) (headOf b common)) m1 (tailOf d1 (s_len dst) common) = Ok m2 /\
    writtenUpTo m1 m2 (tailOf d1 (s_len dst) common) (fun i => op (get m1 (s_array a) (s_offset a + 0 + i)) (get m1 (s_array b) (s_offset b + 0 + i))) common.
Proof.
  intros X Hc La Lb. apply (scalarKernel_spec (word2 op (headOf a common) (headOf b common))); [by apply (tail_valid m _ dst _ n)|].
  apply (word2_stable op m1 _ (headOf a common) (headOf b common)); try (cbn; lia);
    (apply headOf_aligned; [by apply (tail_aligned m m1 dst d1 n)|lia]).
Qed.

Lemma And_spec : exists m' r, And spare m dst a b = Ok (m', r) /\
  appended m dst (fun k => Z.land (wordOf m a k) (wordOf m b k)) (Nat.min (s_len a) (s_len b)) m' r.
Proof.
  set (n := Nat.min (s_len a) (s_len b)). destruct (extend_spec spare m dst n dst_valid) as (m1 & d1 & E & X). unfold And. fold n. rewrite E.
  destruct (tail_reslice _ _ _ _ _ n X ltac:(lia)) as [Et _]. pose proof X as (_ & L & _). rewrite <- L in Et. rewrite Et, bind_Ok.
  rewrite (headOf_reslice m a n a_valid), (headOf_reslice m b n b_valid), !bind_Ok by lia. unfold andWordsScalar.
  destruct (kernel2_spec Z.land n m1 d1 n X ltac:(lia) ltac:(lia) ltac:(lia)) as (m2 & -> & F). rewrite bind_Ok. exists m2, d1. split; [done|].
  apply (writtenUpTo_appended m m1 dst d1 n dst_valid X) in F. eapply appended_ext; [|exact F]. intros k Hk. cbn beta. rewrite !Nat.add_0_r.
  by rewrite !(wordOf_get m dst n m1 d1) by (done || lia).
Qed.

Lemma past_end s k : valid m s -> (s_len s <= k)%nat -> wordOf m s k = 0.
Proof. intros V H. unfold wordOf. rewrite contents_nth by done. by rewrite (proj2 (Nat.ltb_ge _ _) H). Qed.

(** The kernel, then the rest of the longer input [s]. *)
Lemma kernel_copy_spec op n m1 d1 common s g : extendedBy m dst n m1 d1 -> (common <= s_len a)%nat -> (common <= s_len b)%nat -> (common <= n)%nat ->
  valid m s -> allowed dst s -> s_len s = n -> (forall k, (k < common)%nat -> g k = op (wordOf m a k) (wordOf m b k)) -> (forall k, (common <= k < n)%nat -> g k = wordOf m s k) ->
  exists m2, scalarKernel (word2 op (headOf a common) (headOf b common)) m1 (tailOf d1 (s_len dst) common) = Ok m2 /\
    reslice s common (s_len s) = Ok (tailOf s common (n - common)) /\
    appended m dst g n (copySlice m2 (tailOf d1 (s_len dst + common) (n - common)) (tailOf s common (n - common))) d1.
Proof.
  intros X La Lb Hc Vs As Ls G1 G2. destruct (kernel2_spec op n m1 d1 common X ltac:(lia) La Lb) as (m2 & -> & F). exists m2. split; [done|].
  destruct (valid_array _ _ Vs) as (l & _ & _ & Lc). destruct (valid_reslice m s common (s_len s) Vs) as [-> Vr]; [lia|]. split; [unfold tailOf; by rewrite Ls|].
  pose proof X as (V1 & L & Vm & _). pose proof (tail_aligned m m1 dst d1 n X n s ltac:(lia) Vs As) as A. unfold aligned in A. cbn [tailOf s_array s_offset s_len] in A.
  apply (writtenUpTo_copy m1 m2 d1 (s_len dst) common n (tailOf s common (n - common))) in F; try (cbn [tailOf s_array s_offset s_len]; lia).
  - apply (writtenUpTo_appended m m1 dst d1 n dst_valid X) in F. eapply appended_ext; [|exact F]. intros k Hk. cbn beta. cbn [tailOf s_array s_offset].
    destruct (Nat.ltb_spec k common).
    + rewrite !Nat.add_0_r, !(wordOf_get m dst n m1 d1) by (done || lia). symmetry. by apply G1.
    + rewrite <- Nat.add_assoc. replace (common + (k - common))%nat with k by lia. rewrite (wordOf_get m dst n m1 d1) by (done || lia). symmetry. by apply G2.
  - by apply (tail_valid m m1 dst d1 n).
  - apply Vm. rewrite Ls in Vr. exact Vr.
Qed.

Lemma Or_spec : exists m' r, Or spare m dst a b = Ok (m', r) /\
  appended m dst (fun k => Z.lor (wordOf m a k) (wordOf m b k)) (Nat.max (s_len a) (s_len b)) m' r.
Proof.
  set (n := Nat.max (s_len a) (s_len b)). set (common := Nat.min (s_len a) (s_len b)). destruct (extend_spec spare m dst n dst_valid) as (m1 & d1 & E & X).
  unfold Or. fold n common. rewrite E. destruct (tail_reslice _ _ _ _ _ common X ltac:(lia)) as [-> ->]. rewrite bind_Ok.
  rewrite (headOf_reslice m a common a_valid), (headOf_reslice m b common b_valid), !bind_Ok by lia. unfold orWordsScalar.
  destruct (Nat.ltb_spec common (s_len a)) as [C|C].
  - destruct (kernel_copy_spec Z.lor n m1 d1 common a (fun k => Z.lor (wordOf m a k) (wordOf m b k)) X) as (m2 & -> & -> & F); try (done || lia).
    + intros k Hk. by rewrite (past_end b), Z.lor_0_r by (done || lia).
    + rewrite !bind_Ok. eexists _, _. split; [done|exact F].
  - destruct (kernel_copy_spec Z.lor n m1 d1 common b (fun k => Z.lor (wordOf m a k) (wordOf m b k)) X) as (m2 & -> & -> & F); try (done || lia).
    + intros k Hk. by rewrite (past_end a), Z.lor_0_l by (done || lia).
    + rewrite !bind_Ok. eexists _, _. split; [done|exact F].
Qed.

Lemma AndNot_spec : exists m' r, AndNot spare m dst a b = Ok (m', r) /\
  appended m dst (fun k => Z.ldiff (wordOf m a k) (wordOf m b k)) (s_len a) m' r.
Proof.
  set (common := Nat.min (s_len a) (s_len b)). destruct (extend_spec spare m dst (s_len a) dst_valid) as (m1 & d1 & E & X).
  unfold AndNot. fold common. rewrite E. destruct (tail_reslice _ _ _ _ _ common X ltac:(lia)) as [-> ->]. rewrite bind_Ok.
  rewrite (headOf_reslice m a common a_valid), (headOf_reslice m b common b_valid), !bind_Ok by lia. unfold andNotWordsScalar.
  destruct (kernel_copy_spec Z.ldiff (s_len a) m1 d1 common a (fun k => Z.ldiff (wordOf m a k) (wordOf m b k)) X) as (m2 & -> & Er & F); try (done || lia).
  - intros k Hk. by rewrite (past_end b), Z.ldiff_0_r by (done || lia).
  - rewrite Er, !bind_Ok. eexists _, _. split; [done|exact F].
Qed.
End Operate.

Lemma And3_spec spare m dst a b c : valid m dst -> valid m a -> valid m b -> valid m c -> allowed dst a -> allowed dst b -> allowed dst c ->
  exists m' r, And3 spare m dst a b c = Ok (m', r) /\
  appended m dst (fun k => Z.land (Z.land (wordOf m a k) (wordOf m b k)) (wordOf m c k)) (Nat.min (Nat.min (s_len a) (s_len b)) (s_len c)) m' r.
Proof.
  intros Vd Va Vb Vc Aa Ab Ac. set (n := Nat.min (Nat.min (s_len a) (s_len b)) (s_len c)). destruct (extend_spec spare m dst n Vd) as (m1 & d1 & E & X).
  unfold And3. fold n. rewrite E. destruct (tail_reslice _ _ _ _ _ n X ltac:(lia)) as [Et _]. pose proof X as (_ & L & _). rewrite <- L in Et. rewrite Et, bind_Ok.
  rewrite (headOf_reslice m a n Va), (headOf_reslice m b n Vb), (headOf_reslice m c n Vc), !bind_Ok by lia. unfold and3WordsScalar.
  destruct (scalarKernel_spec (word3 Z.land (headOf a n) (headOf b n) (headOf c n)) m1 (tailOf d1 (s_len dst) n)
    (fun i => Z.land (Z.land (get m1 (s_array a) (s_offset a + 0 + i)) (get m1 (s_array b) (s_offset b + 0 + i))) (get m1 (s_array c) (s_offset c + 0 + i)))) as (m2 & -> & F).
  - by apply (tail_valid m _ dst _ n).
  - apply (word3_stable Z.land m1 _ (headOf a n) (headOf b n) (headOf c n)); try (cbn; lia);
      (apply headOf_aligned; [by apply (tail_aligned m m1 dst d1 n)|lia]).
  - rewrite bind_Ok. exists m2, d1. split; [done|]. apply (writtenUpTo_appended m m1 dst d1 n Vd X) in F. eapply appended_ext; [|exact F]. intros k Hk. cbn beta.
    rewrite !Nat.add_0_r. by rewrite !(wordOf_get m dst n m1 d1) by (done || lia).
Qed.

(** ** Sets of rows *)

(** Row [k] is in a bitmap when bit [k mod 64] of word [k / 64] is set. *)
Definition hasRow (words : list Z) (k : nat) : bool := Z.testbit (default 0 (words !! (k / 64)%nat)) (Z.of_nat (k mod 64)).

(** The result is [dst] followed by a bitmap of [n] words for the set [p], and
    slices apart from the range appended to keep their contents. *)
Definition computes (m : memory) (dst : Slice) (n : nat) (p : nat -> bool) (result : io_res (memory * Slice)) : Prop :=
  exists m' r words, result = Ok (m', r) /\ valid m' r /\ contents m' r = contents m dst ++ words /\ length words = n /\
    (forall k, hasRow words k = p k) /\ forall s, valid m s -> separate dst s -> contents m' s = contents m s.

Lemma appended_computes m dst f n p m' r : appended m dst f n m' r ->
  (forall i j, (i < n)%nat -> Z.testbit (f i) (Z.of_nat j) = p (i * 64 + j)%nat \/ (64 <= j)%nat) -> (forall k, (n * 64 <= k)%nat -> p k = false) ->
  computes m dst n p (Ok (m', r)).
Proof.
  intros (V & C & F) Hp Hn. exists m', r, (f <$> seq 0 n). split_and!; try done; [by rewrite length_fmap, length_seq|]. intros k. unfold hasRow.
  pose proof (Nat.div_mod_eq k 64) as D. pose proof (Nat.mod_upper_bound k 64 ltac:(lia)) as M. rewrite list_lookup_fmap. destruct (decide (k / 64 < n)%nat) as [L|L].
  - rewrite lookup_seq_lt by done. cbn [fmap option_fmap option_map from_option id plus]. destruct (Hp (k / 64)%nat (k mod 64)%nat L) as [->|]; [f_equal; lia|lia].
  - rewrite lookup_seq_ge by lia. cbn [fmap option_fmap option_map from_option]. rewrite Z.bits_0. symmetry. apply Hn. lia.
Qed.

Lemma hasRow_bit m s i j : (j < 64)%nat -> Z.testbit (wordOf m s i) (Z.of_nat j) = hasRow (contents m s) (i * 64 + j).
Proof.
  intros H. unfold hasRow, wordOf. rewrite (Nat.mul_comm i 64). rewrite Nat.mul_comm, Nat.div_add_l, Nat.div_small, Nat.add_0_r by lia.
  by rewrite Nat.add_comm, Nat.Div0.mod_add, Nat.mod_small by lia.
Qed.

Lemma hasRow_past m s k : valid m s -> (s_len s * 64 <= k)%nat -> hasRow (contents m s) k = false.
Proof.
  intros V H. unfold hasRow. rewrite contents_nth by done. assert (s_len s <= k / 64)%nat by (apply Nat.div_le_lower_bound; lia).
  rewrite (proj2 (Nat.ltb_ge _ _)) by done. apply Z.bits_0.
Qed.

(** C19: the bitmap operations compute set operations, also in place.  When each
    input either does not overlap the spare capacity of dst or starts exactly
    where an empty dst starts, so that the output overwrites it, And, And3, Or
    and AndNot return without a panic, append to dst the intersection, union or
    difference of the sets the inputs held before the call, absent words counted
    as empty, and change no word outside the spare capacity of dst. *)
Theorem bitmap_operations (spare : nat -> nat) (m : memory) (dst a b c : Slice) :
  valid m dst -> valid m a -> valid m b -> valid m c -> allowed dst a -> allowed dst b -> allowed dst c ->
  let A := hasRow (contents m a) in let B := hasRow (contents m b) in let C := hasRow (contents m c) in
  computes m dst (Nat.min (s_len a) (s_len b)) (fun k => A k && B k) (And spare m dst a b) /\
  computes m dst (Nat.min (Nat.min (s_len a) (s_len b)) (s_len c)) (fun k => A k && B k && C k) (And3 spare m dst a b c) /\
  computes m dst (Nat.max (s_len a) (s_len b)) (fun k => A k || B k) (Or spare m dst a b) /\
  computes m dst (s_len a) (fun k => A k && negb (B k)) (AndNot spare m dst a b).
Proof.
  intros Vd Va Vb Vc Aa Ab Ac A B C. pose proof (fun k => hasRow_past m a k Va) as Pa. pose proof (fun k => hasRow_past m b k Vb) as Pb.
  pose proof (fun k => hasRow_past m c k Vc) as Pc. fold A in Pa. fold B in Pb. fold C in Pc.
  split_and!.
  - destruct (And_spec spare m dst a b Vd Va Vb Aa Ab) as (m' & r & -> & F). eapply appended_computes; [exact F| |].
    + intros i j Hi. destruct (decide (j < 64)%nat); [left|right; lia]. by rewrite Z.land_spec, !hasRow_bit.
    + intros k Hk. destruct (decide (s_len a * 64 <= k)%nat); [by rewrite Pa|rewrite (Pb k) by lia; apply andb_false_r].
  - destruct (And3_spec spare m dst a b c Vd Va Vb Vc Aa Ab Ac) as (m' & r & -> & F). eapply appended_computes; [exact F| |].
    + intros i j Hi. destruct (decide (j < 64)%nat); [left|right; lia]. by rewrite !Z.land_spec, !hasRow_bit.
    + intros k Hk. destruct (decide (s_len a * 64 <= k)%nat); [by rewrite Pa|]. destruct (decide (s_len b * 64 <= k)%nat); [by rewrite (Pb k), andb_false_r|].
      rewrite (Pc k) by lia. apply andb_false_r.
  - destruct (Or_spec spare m dst a b Vd Va Vb Aa Ab) as (m' & r & -> & F). eapply appended_computes; [exact F| |].
    + intros i j Hi. destruct (decide (j < 64)%nat); [left|right; lia]. by rewrite Z.lor_spec, !hasRow_bit.
    + intros k Hk. by rewrite Pa, Pb by lia.
  - destruct (AndNot_spec spare m dst a b Vd Va Vb Aa Ab) as (m' & r & -> & F). eapply appended_computes; [exact F| |].
    + intros i j Hi. destruct (decide (j < 64)%nat); [left|right; lia]. by rewrite Z.ldiff_spec, !hasRow_bit.
    + intros k Hk. by rewrite Pa.
Qed.

(** Two bitmaps of five and two words; the union replaces the first in place. *)
Lemma bitmap_operations_witness :
  let m := [[1; 2; 3; 4; 5; 0]; [8; 16; 9]] in
  let a := mkSlice 0 0 5 6 in let b := mkSlice 1 0 2 2 in
  computes m (mkSlice 0 0 0 6) 5 (fun k => hasRow [1; 2; 3; 4; 5] k || hasRow [8; 16] k) (Or (fun _ => 0%nat) m (mkSlice 0 0 0 6) a b).
Proof.
  cbn zeta. set (m := [[1; 2; 3; 4; 5; 0]; [8; 16; 9]]).
  assert (Va : valid m (mkSlice 0 0 5 6)) by (exists 6%nat; cbn; split; [reflexivity|lia]).
  assert (Vd : valid m (mkSlice 0 0 0 6)) by (exists 6%nat; cbn; split; [reflexivity|lia]).
  assert (Vb : valid m (mkSlice 1 0 2 2)) by (exists 3%nat; cbn; split; [reflexivity|lia]).
  refine (proj1 (proj2 (proj2 (bitmap_operations (fun _ => 0%nat) m (mkSlice 0 0 0 6) (mkSlice 0 0 5 6) (mkSlice 1 0 2 2) (mkSlice 1 0 2 2) Vd Va Vb Vb _ _ _)))).
  - right. split; reflexivity.
  - left. left. discriminate.
  - left. left. discriminate.
Defined.
